(* ===== verification/_CoqProject ===== *)
-Q . S2P
Prelude.v
Dtx.v
CrossShard.v
Tcc.v
Saga.v
ThreePc.v
CircuitBreaker.v
Coherence.v
SqlText.v
Dialect.v
VendorDialects.v
AnalyticDialects.v
Dialects.v
Value.v
Transaction.v
QueryBuilder.v
QueryParams.v
CoreQuery.v
CoreWhere.v
PgPlaceholders.v
CoreRead.v
CoreBind.v
DynamicSql.v
DynamicFacts.v
DynamicXml.v
L1Cache.v
LruOrder.v
L2Cache.v
SingleFlight.v
WriteBehind.v
PreparedCache.v
Pool.v
PoolFacts.v
RateLimit.v
AuditChain.v
Sharding.v
Queue.v
QueueTasks.v
DeadLetters.v
DelayQueue.v
SqlSplice.v
DataPermission.v
DynamicFilter.v
SmallVec.v
Bloom.v
Masking.v
MaskingRules.v
Conflict.v
Rebalancer.v
Concurrency.v
Tenancy.v
OptimisticLock.v
EagerLoading.v
MultiLevel.v
ChangeTracker.v
ReadWrite.v
Failover.v
Xa.v
