(* ===== verification/Prelude.v ===== *)
(** Verification of the core of sz-orm.

    The program is a Rust workspace: [packages/sz-orm-core] (values, SQL dialects, caches,
    circuit breakers, and the query builder, pool and models above them), [packages/sz-orm-dtx]
    (distributed transactions), [packages/sz-orm-limit] (rate limiting),
    [packages/sz-orm-audit] (the audit log), [packages/sz-orm-sharding], [packages/sz-orm-queue]
    (message queues) and some seventy
    further packages: drivers, bindings, tools and services around the core.  This library
    models the parts that keep state or generate SQL by their own logic, one file each.

    ** Files and the code they model

    - [Prelude.v], this file: results, the effect monad, callbacks, clocks, machine integers,
      registries, step relations.
    - [Dtx.v]: two-phase commit, [sz-orm-dtx/src/lib.rs]: [TransactionParticipant],
      [DistributedTransaction] ([prepare], [commit], [rollback]), the transaction log with its
      in-memory implementation, [DtxManager].
    - [CrossShard.v]: [sz-orm-dtx/src/cross_shard.rs], [CrossShardCoordinator], which groups
      operations by shard and runs a [DistributedTransaction] of [Dtx.v] over the groups.
    - [Tcc.v]: [sz-orm-dtx/src/tcc.rs], the try/confirm/cancel coordinator and its retries.
    - [Saga.v]: [sz-orm-dtx/src/saga.rs], steps, compensation, timeouts, the log, recovery.
    - [ThreePc.v]: [sz-orm-dtx/src/three_pc.rs], three-phase commit and self decision.
    - [Xa.v]: [sz-orm-dtx/src/xa.rs], [recovery.rs] and [suspension.rs], the coordinator of XA
      resources over the log of [Dtx.v], and what a crash leaves, over histories of events.
    - [CircuitBreaker.v]: [sz-orm-core/src/circuit_breaker.rs], the local breaker and the
      coordination of instances over a channel.
    - [Coherence.v]: [sz-orm-core/src/cache_coherence.rs], the MESI protocol of cache instances.
    - [SqlText.v]: string operations, the lexical grammar of quoted SQL tokens, which is the
      specification of the generators, and the validators of [sz-orm-core/src/sql_safety.rs].
    - [Dialect.v]: [sz-orm-core/src/dialect.rs]: the trait [Dialect] as a record of operations
      with its default methods, the MySQL, PostgreSQL and SQLite implementations, and the
      class [DialectLaws] of what a client may assume.
    - [VendorDialects.v]: Oracle, SQL Server, DB2, Informix, SAP HANA and Firebird.
    - [AnalyticDialects.v]: ClickHouse, DuckDB and Snowflake.
    - [Dialects.v]: the twelve dialects that delegate to one of those, [get_dialect], and the
      instance of [DialectLaws] for every dialect it returns.
    - [Value.v]: [sz-orm-core/src/value.rs]: the value type, its accessors and its rendering,
      proved against [DialectLaws].
    - [Transaction.v]: [sz-orm-core/src/transaction.rs]: transactions and savepoints on a
      connection, the templates that run a closure in them, the retry after a deadlock, the
      manager of named transactions.  The driver's connection is a class with the laws of a
      database that has one transaction per connection.
    - [QueryBuilder.v]: [sz-orm-query-builder/src/lib.rs]: the four builders, the conditions
      they share (a class with an instance per builder), both renderings of a query, as text
      and as text with parameters.
    - [QueryParams.v]: what the texts of [QueryBuilder.v] promise: a lexer of placeholders, the
      typing of a sequence of builder calls, the binding of parameters.
    - [CoreQuery.v]: [sz-orm-core/src/query.rs], the query builder of models with the default
      features: conditions and their OR groups, soft deletion, tenants, keyset pages, and every
      statement, with its values in the text and with placeholders.  [Model] is the record of
      what the builder asks of the traits [Model] and [ModelExt].
    - [CoreWhere.v]: the builders its methods reach, and what their WHERE clauses are in terms
      of conditions, on the fast paths and the slow one.
    - [PgPlaceholders.v]: [pg_rewrite_placeholders] of [sz-orm-sqlx/src/any.rs], by which the
      PostgreSQL driver numbers the question marks of a statement.
    - [CoreRead.v]: a reader of WHERE clauses, and what [CoreQuery.v] promises to the database
      that reads its statements.
    - [CoreBind.v]: a class of the properties that hold of every statement when they hold of its
      pieces (calm text, quoted names, question marks), with two instances: the statement with
      its values bound, and its placeholders numbered by [PgPlaceholders.v].
    - [DynamicSql.v]: [sz-orm-core/src/dynamic_sql.rs]: parameters, the expressions of tests, the
      tags of the templates and the statements built from them.
    - [DynamicFacts.v]: what [DynamicSql.v] promises.
    - [DynamicXml.v]: the parser of the templates of that file, and a printer.
    - [L1Cache.v]: [sz-orm-core/src/l1_cache.rs]: the session cache and the coordinator in front
      of the shared cache.
    - [LruOrder.v]: [LruOrder] of [sz-orm-core/src/l2_cache.rs], a doubly linked list in an arena.
    - [L2Cache.v]: the rest of the shared cache of that file: keys, entries with an expiry, the
      table index, statistics, the implementation of the trait [Cache].
    - [SingleFlight.v]: [get_or_load_query] of that file, as the interleaved steps of the tasks
      that run it over a cache of [L2Cache.v]; tokio's broadcast channel is a class with its
      documented laws.
    - [WriteBehind.v]: [InMemoryBackend] and [WriteBehindWriter] of that file, the writer as the
      interleaved steps of writers and flushes.
    - [PreparedCache.v]: [sz-orm-core/src/prepared_cache.rs], handles by connection and statement
      with an index by table, and the plans shared by connections.
    - [Pool.v]: [sz-orm-core/src/pool.rs], the connection pool: a task is a program point, a step
      goes to its next operation on the shared state or its next await, and any task at an await
      can be cancelled.  The queue of crossbeam is a class with its laws; [PreparedCache.v] is
      the cache of the pool.
    - [PoolFacts.v]: what [Pool.v] promises.
    - [RateLimit.v]: [sz-orm-limit/src/lib.rs]: the sliding and the fixed window limiters.
    - [AuditChain.v]: [sz-orm-audit/src/hash_chain_enhanced.rs]: the hash chain, the masking of
      statements, Merkle trees and proofs, and the auditor over them; SHA-256, of the crate
      sha2, is a parameter.
    - [Sharding.v]: [sz-orm-sharding/src]: the routers of [lib.rs] and [enhanced.rs] with their
      hash, the keys of [routing.rs], [scatter.rs], and the coordinator of [cross_shard_tx.rs];
      the order in which its set of prepared participants is iterated is a parameter.
    - [Queue.v]: [sz-orm-queue/src/queue.rs]: [InMemoryQueue], a method being what it does under
      the lock, the ledger of its messages, and the wrapper that retries; tokio's [Notify] is a
      class with its documented laws.
    - [QueueTasks.v]: the tasks that share such a queue, publishers that wait among them, as
      interleaved steps.
    - [DeadLetters.v]: [sz-orm-queue/src/dlx.rs]: the back-off policies and the scheduler that
      redelivers dead letters.
    - [DelayQueue.v]: [sz-orm-queue/src/delayed_priority.rs]: the priority queue, over a class of
      heaps, and the scheduler of delayed messages.
    - [SqlSplice.v]: the search for the WHERE of a statement and the splice of conditions into it,
      which [sz-orm-core/src/data_permission.rs] and [dynamic_filter.rs] share but for how they
      search; a reader of the result.
    - [DataPermission.v]: the rules and the interceptor of [data_permission.rs].
    - [DynamicFilter.v]: the registry of filters of [dynamic_filter.rs], their rendering.
    - [SmallVec.v]: [sz-orm-core/src/smallvec.rs]: a slot that is not initialised is [None], and
      reading it has no result.
    - [Bloom.v]: [sz-orm-core/src/bloom.rs], with the adds and clears of threads as steps.
    - [Masking.v]: [sz-orm-masking/src/lib.rs], the masking of each kind of value.
    - [MaskingRules.v]: the rules of fields in [maskers.rs] and [strategy.rs] of that package: the
      wildcard patterns, the engine of rules, pipelines, partial display.
    - [Conflict.v]: [sz-orm-fusion/src/conflict.rs]: vector clocks, the resolver of conflicting
      versions, over a class of JSON values, the log of conflicts.
    - [Rebalancer.v]: [sz-orm-sharding/src/rebalancer]: plans, checkpoints (a class of stores with
      its laws, the store in memory an instance), the execution and its resumption.
    - [Concurrency.v]: [sz-orm-limit/src/concurrency.rs]: slots and guards, [acquire], which holds
      its lock throughout, as one step, [release] and [reset] as the steps of their loads and
      subtractions.
    - [Tenancy.v]: [tenant_context.rs], [tenant_security.rs] and [row_level_policy.rs] of sz-orm-core.
    - [OptimisticLock.v]: [sz-orm-core/src/optimistic_lock.rs], and clients that use it on one row.
    - [EagerLoading.v]: [sz-orm-core/src/eager_loader.rs] with [cycle_detection.rs], over a class of
      sources of rows.
    - [MultiLevel.v]: [sz-orm-core/src/multi_level_cache.rs] with [dependency_graph.rs], over the
      cache of [L2Cache.v].
    - [ChangeTracker.v]: [sz-orm-core/src/change_tracker.rs], the tracker of entities, with a database
      that runs its statements, and [dirty_attributes.rs], the tracker of one row (Module [Dirty]).
    - [ReadWrite.v]: [sz-orm-rw/src/lib.rs], the routing of reads to the slaves of a master.
    - [Failover.v]: [sz-orm-rw/src/auto_failover], the manager of failovers, the detector of split
      brains.

    ** Correspondence

    A struct is a record, an enum an inductive type, a method a function that returns the new
    state with the result; names are those of the source, with a prefix where two structs
    share a name ([sw_acquire] and [fw_acquire]).  What a method does outside its object
    (closures given by the user, trait objects, the clock, sleeping, an object shared behind a
    lock) acts on a type [W] of worlds through [Eff W A], a function from worlds to a result
    and a world, so the order and the number of the effects are part of every definition.  The
    theorems hold for every [W]; the witnesses use [SimWorld], a counter and a trace, or a
    small world of their own.

    - Strings are the UTF-8 bytes of the Rust [str].
    - Integers are [Z] with the wrap of a release build written out ([wrap32], [wrap64]), or
      [nat] for lengths.  Floats (values, hit rates) are IEEE data; their decimal text is a
      class of two printing functions with the documented alphabet.
    - [Result] is [result], a panic is [None] of an option around the result.
    - A [HashMap] is a [gmap].  Its iteration order is unspecified in Rust; where the code
      iterates, the order of [map_to_list] stands for it and no theorem depends on which.
    - An [async fn] that shares state with other tasks is a step relation of its parts between
      two awaits or two locks; any other one is called as a synchronous function.
    - [Instant] is nanoseconds, and adding a [Duration] past its end a panic ([Pan]).
    - Error messages built by [format!] are strings where the source builds strings, and a
      structured reason where the text would need Rust's debug formatting.
    - Loops are structural, or have fuel: the eviction loop of the limiters takes the number of
      entries, as each turn removes one; the Merkle loops the number of leaves, as every layer
      is shorter; the masking loop and the scanners of the specification the length of the
      text, as each turn consumes some; the retry loop of TCC the number of attempts,
      that of the optimistic lock one more than its retries (below the greatest [u32]); the iterator
      of [LruOrder] the number of slots, as it visits none twice; the loops of the queues the
      attempts a policy allows and the messages that are ready.  That
      the fuel is enough is part of the lemma about each loop.

    ** What the theorems show

    - Distributed transactions (C1, C3, C8, C9, C13, C17): each protocol runs exactly the
      callbacks it should, in order, in every outcome; a crash never splits an XA transaction whose
      commits and rollbacks succeed (C1); the state of a transaction agrees with its
      participants in every reachable state; lemmas: decisions are final, an execution ends, logs
      replay to the state they were written from.  Where the code departs from this the theorem states what it does:
      lemmas show that a recovered saga compensates twice, that a failed XA commit stays in doubt,
      that 3PC can split its participants and that a failed commit can be rolled back.
    - Transactions (C5, C18): a closure run in a transaction is published as a whole or not at
      all, a scope is undone exactly to where it began.
    - Availability and coherence (C19, C21): the breaker's state and its next answer as a function of
      its history; the state of every instance of a cluster as a directory of the calls has it; a lemma has the mutual lock-out of two open instances.
    - SQL generation (C22, C26): quoting round trips for all texts, statements whose shape the
      strings of a value cannot change; lemmas: pages tile, upsert clauses read back, the integer
      accessors are exact.  C22 and C26 hold for every dialect [get_dialect] returns; identifiers and strings are read by the
      rules the comments of [dialect.rs] give for each database.
    - Query building (C38): every sequence of typed calls builds a text with as many
      placeholders as parameters; lemmas: binding them gives the text the value-less builder writes,
      and another shows that the text builders forget the conditions given as parameters.  Comments
      in the user's fragments are not lexed.
    - Queries of models (C16, C29, C31, C40): a reader gets the conditions back from the clause
      in their groups (C16), so a tenant sees only its rows (C29); the texts with values are the
      parametrised statements with their values bound (C40), and the PostgreSQL driver numbers
      exactly their placeholders (C31); a lemma has the ten databases for which no statement with
      parameters is ever written, and that one call of [quote_into] is enough for the others.
    - Templates (C20): printed documents are read back; lemmas: a statement binds the values of the
      taken parts of the document, in its order, strings that are bound never reach its text, and which inputs the parser never returns from or panics on.
    - Caching (C6, C12, C15, C28, C36): the session cache refines a reference LRU list
      (C28), the shared cache a list of entries with expiry and invalidation by table (C6), over an
      arena order that a lemma shows to be a list of keys; a lemma has the branches of the
      coordinator; merged loads answer every follower (C12), with an error where a second leader replaced the channel it waits on, and never when a leader is cancelled, as lemmas show; the
      write-behind writer keeps every operation, and the order when its steps are orderly
      (C36); the multi-level cache drops with a table the entries recorded as dependent on it (C15).
    - Connections (C7, C35): every slot and every connection of the pool is accounted for
      under every interleaving (C7), an invalidated table leaves no prepared handle in the buckets and no shared plan but
      of statements that are in none (C35); lemmas: slots lost to
      cancellation are lost for good, what one [acquire] does on each branch.
    - Limits (C24, C30): the sliding window bound on what callers are told, and guards that never exceed the limits of their
      key and of all keys; lemmas show what evictions and resets break.
    - Sharding (C14, C23): consistent hashing moves only the keys it must, a rebalancing that is paused
      and resumed does every migration once; lemmas: every router that
      covers its keys finds a shard and never panics, keys are grouped exactly, the two phases
      of a transaction over shards.
    - Queues (C25, C32, C37): no message is lost or duplicated by the tasks that share a queue
      (C32), publishers that wait for room are served when consumers go on (C37), aging serves
      every message (C25); lemmas: what the scheduler delivers, where dead letters go, how often
      the wrapper asks, and which notifications and messages are lost all the same.
    - Audit (C33): a change of one field of a record shows or is a collision; lemmas: chains verify, the
      proofs of every leaf, others show what neither protects: field boundaries, repeated last leaves,
      unquoted values.

    - Concurrent data (C4, C10): updates under a version are never lost, vector clocks compare as
      the writes they have seen; lemmas: what every strategy of resolution answers.
    - Access (C27): the statement a permission guards reads the rows its own condition and all rules
      admit; lemmas: filters whose parameters stay inside their literals, what masking hides, that the
      rule of a field is the first that matches, contexts of tenants that are lexical, their pools,
      and where conditions without parentheses, comments or literals let rows through.
    - Units of work (C2): the statements of a tracker bring the database to its entities, in any
      order; lemmas show which calls lose an update.
    - Reads (C11): a round of reads goes to the healthy slaves by their weights; lemmas: the share of the
      master, the least loaded slave, a chain of failovers and where it breaks.
    - Relations (C34): the batched queries of the loader give each row what a query of its own
      would, once for each batch that has its key; lemmas show what nested loading leaves out.
    - Containers (C39): a small vector is a vector; a lemma: the Bloom filter misses no key.

    ** Not modelled

    The async runtime beyond the interleavings of [SingleFlight.v], [WriteBehind.v], [Pool.v],
    [QueueTasks.v], [Bloom.v], [Concurrency.v], [OptimisticLock.v] and [Tenancy.v]; weak memory orders, lock poisoning and data races inside a method that holds its lock
    throughout; drivers, network and file access; the packages listed as not modelled in the
    manifest. *)

From stdpp Require Export base tactics option list strings numbers pretty gmap sorting.

(** * Rust results *)

Inductive result (A E : Type) : Type :=
| Ok (a : A)
| Err (e : E).
Arguments Ok {A E} a.
Arguments Err {A E} e.

#[export] Instance result_eq_dec {A E} `{EqDecision A, EqDecision E} : EqDecision (result A E).
Proof. solve_decision. Defined.

Definition is_ok {A E} (r : result A E) : bool :=
  match r with Ok _ => true | Err _ => false end.

(** [Vec::is_empty] *)
Definition is_nil {A} (l : list A) : bool := match l with [] => true | _ => false end.

(** [Option::is_some] *)
Definition is_some {A} (o : option A) : bool := match o with Some _ => true | None => false end.

Definition map_err {A E F} (f : E -> F) (r : result A E) : result A F :=
  match r with Ok a => Ok a | Err e => Err (f e) end.

(** [r?] with an explicit continuation. *)
Definition result_bind {A B E} (r : result A E) (k : A -> result B E) : result B E :=
  match r with Ok a => k a | Err e => Err e end.

Lemma is_ok_true {A E} (r : result A E) : is_ok r = true <-> exists a, r = Ok a.
Proof. destruct r as [a|e]; split; [eauto | done | done | by intros [? ?]]. Qed.

(** * Effects

    Rust closures ([Arc<dyn Fn() -> Result<(), String>>]), trait objects, clocks
    and sleeps act on state the caller cannot see.  That state is a type [W] of
    worlds, and a computation returns its value with the world it leaves. *)

Definition Eff (W A : Type) : Type := W -> A * W.

Definition eret {W A} (a : A) : Eff W A := fun w => (a, w).
Definition ebind {W A B} (m : Eff W A) (k : A -> Eff W B) : Eff W B :=
  fun w => let '(a, w') := m w in k a w'.

Declare Scope eff_scope.
Delimit Scope eff_scope with eff.
Notation "'let*' p ':=' m 'in' k" := (ebind m (fun x => match x with p => k end))
  (at level 10, p pattern, m at level 100, k at level 200) : eff_scope.

(** Computations are compared world by world. *)
Definition eff_eq {W A} (m1 m2 : Eff W A) : Prop := forall w, m1 w = m2 w.
Infix "=eff=" := eff_eq (at level 70, no associativity).

#[export] Instance eff_eq_equivalence W A : Equivalence (@eff_eq W A).
Proof.
  split.
  - intros m w. reflexivity.
  - intros m1 m2 H w. symmetry. apply H.
  - intros m1 m2 m3 H12 H23 w. rewrite H12. apply H23.
Qed.

#[export] Instance ebind_proper W A B :
  Proper (eff_eq ==> pointwise_relation A eff_eq ==> eff_eq) (@ebind W A B).
Proof.
  intros m1 m2 Hm k1 k2 Hk w. unfold ebind. rewrite Hm.
  destruct (m2 w) as [a w']. apply Hk.
Qed.

Lemma ebind_ret_l {W A B} (a : A) (k : A -> Eff W B) : ebind (eret a) k =eff= k a.
Proof. intros w. reflexivity. Qed.

Lemma ebind_ret_r {W A} (m : Eff W A) : ebind m eret =eff= m.
Proof. intros w. unfold ebind, eret. by destruct (m w). Qed.

Lemma ebind_assoc {W A B C} (m : Eff W A) (f : A -> Eff W B) (g : B -> Eff W C) :
  ebind (ebind m f) g =eff= ebind m (fun a => ebind (f a) g).
Proof. intros w. unfold ebind. by destruct (m w). Qed.

Lemma ebind_run {W A B} (m : Eff W A) (k : A -> Eff W B) w a w' :
  m w = (a, w') -> ebind m k w = k a w'.
Proof. intros H. unfold ebind. by rewrite H. Qed.

(** ** Effects that may panic

    [None] is a panic: what follows does not run. *)

Definition Pan (W A : Type) : Type := Eff W (option A).

Definition pret {W A} (a : A) : Pan W A := eret (Some a).
Definition plift {W A} (o : option A) : Pan W A := eret o.
Definition pcall {W A} (m : Eff W A) : Pan W A := ebind m pret.
Definition pbind {W A B} (m : Pan W A) (k : A -> Pan W B) : Pan W B :=
  ebind m (fun o => match o with Some a => k a | None => eret None end).

Notation "'let!' p ':=' m 'in' k" := (pbind m (fun x => match x with p => k end))
  (at level 10, p pattern, m at level 100, k at level 200) : eff_scope.

Lemma pbind_assoc {W A B C} (m : Pan W A) (k : A -> Pan W B) (h : B -> Pan W C) w :
  pbind (pbind m k) h w = pbind m (fun a => pbind (k a) h) w.
Proof. unfold pbind, ebind. by destruct (m w) as [[a|] w1]. Qed.

Lemma pbind_Some {W A B} (m : Pan W A) (k : A -> Pan W B) w a w' :
  m w = (Some a, w') -> pbind m k w = k a w'.
Proof. intros H. unfold pbind, ebind. by rewrite H. Qed.

Lemma pbind_None {W A B} (m : Pan W A) (k : A -> Pan W B) w w' :
  m w = (None, w') -> pbind m k w = (None, w').
Proof. intros H. unfold pbind, ebind. by rewrite H. Qed.

(** Computations that take the same effects and whose results are related. *)
Definition pan_rel {W A B} (R : A -> B -> Prop) (m : Pan W A) (m' : Pan W B) : Prop :=
  forall w, snd (m w) = snd (m' w) /\ option_Forall2 R (fst (m w)) (fst (m' w)).

Lemma pan_rel_bind {W A B A' B'} (R : A -> B -> Prop) (S : A' -> B' -> Prop)
    (m : Pan W A) (m' : Pan W B) k k' :
  pan_rel R m m' -> (forall a b, R a b -> pan_rel S (k a) (k' b)) ->
  pan_rel S (pbind m k) (pbind m' k').
Proof.
  intros Hm Hk w. destruct (Hm w) as [Hw Hr]. unfold pbind, ebind.
  destruct (m w) as [o w1], (m' w) as [o' w1']. cbn in Hw, Hr. subst w1'.
  destruct Hr as [a b Hab|]; [by apply Hk|]. by split; [|constructor].
Qed.

Lemma pan_rel_ret {W A B} (R : A -> B -> Prop) a b : R a b -> pan_rel (W := W) R (pret a) (pret b).
Proof. intros Hab w. by split; [|constructor]. Qed.

(** The same effect on both sides. *)
Lemma pan_rel_same {W A B C} (S : B -> C -> Prop) (m : Pan W A) k k' :
  (forall a, pan_rel S (k a) (k' a)) -> pan_rel S (pbind m k) (pbind m k').
Proof.
  intros Hk. apply pan_rel_bind with eq; [|by intros a ? <-].
  intros w. split; [done|]. destruct (fst (m w)); by constructor.
Qed.

(** A step of the left side alone that does not panic. *)
Lemma pan_rel_lift {W A B C} (S : B -> C -> Prop) (o : option A) a (k : A -> Pan W B) m' :
  o = Some a -> pan_rel S (k a) m' -> pan_rel S (pbind (plift o) k) m'.
Proof. intros -> Hk w. apply Hk. Qed.

Lemma pan_rel_assoc {W A B C D} (S : C -> D -> Prop) (m : Pan W A) (k : A -> Pan W B) h m' :
  pan_rel S (pbind m (fun a => pbind (k a) h)) m' -> pan_rel S (pbind (pbind m k) h) m'.
Proof. intros Hm w. rewrite pbind_assoc. apply Hm. Qed.

(** ** Callbacks *)

(** [Arc<dyn Fn() -> Result<(), String> + Send + Sync>] *)
Definition Callback (W : Type) : Type := Eff W (result unit string).

(** An [Option<Callback>]: [None] succeeds and does nothing. *)
Definition call_opt {W} (cb : option (Callback W)) : Callback W :=
  match cb with Some f => f | None => eret (Ok tt) end.

(** [for cb in cbs { cb()?; }]: how many callbacks succeeded before the first
    error, and that error. *)
Fixpoint run_seq {W} (cbs : list (Callback W)) : Eff W (nat * option string) :=
  match cbs with
  | [] => eret (0, None)
  | cb :: cbs' =>
      ebind cb (fun r =>
        match r with
        | Err e => eret (0, Some e)
        | Ok _ => ebind (run_seq cbs') (fun '(n, oe) => eret (S n, oe))
        end)
  end.

(** [for cb in cbs { let r = cb(); .. }]: every callback runs, whatever the
    results. *)
Fixpoint run_best {W} (cbs : list (Callback W)) : Eff W (list (result unit string)) :=
  match cbs with
  | [] => eret []
  | cb :: cbs' =>
      ebind cb (fun r => ebind (run_best cbs') (fun rs => eret (r :: rs)))
  end.

Lemma run_seq_cons {W} (cb : Callback W) cbs w :
  run_seq (cb :: cbs) w =
  match cb w with
  | (Err e, w1) => ((0, Some e), w1)
  | (Ok _, w1) => let '((n, oe), w2) := run_seq cbs w1 in ((S n, oe), w2)
  end.
Proof.
  cbn. unfold ebind, eret. destruct (cb w) as [[u|e] w1]; [|done].
  by destruct (run_seq cbs w1) as [[n oe] w2].
Qed.

Lemma run_seq_length {W} (cbs : list (Callback W)) w n oe w' :
  run_seq cbs w = ((n, oe), w') ->
  match oe with None => n = length cbs | Some _ => n < length cbs end.
Proof.
  revert w n oe w'. induction cbs as [|cb cbs IH]; intros w n oe w'.
  { cbn. unfold eret. intros. by simplify_eq. }
  rewrite run_seq_cons. destruct (cb w) as [[u|e] w1].
  - destruct (run_seq cbs w1) as [[n1 oe1] w2] eqn:E. intros. simplify_eq/=.
    apply IH in E. destruct oe; lia.
  - intros. simplify_eq/=. lia.
Qed.

Lemma run_seq_app {W} (cbs1 cbs2 : list (Callback W)) w :
  run_seq (cbs1 ++ cbs2) w =
  let '((n1, oe1), w1) := run_seq cbs1 w in
  match oe1 with
  | Some e => ((n1, Some e), w1)
  | None => let '((n2, oe2), w2) := run_seq cbs2 w1 in ((n1 + n2, oe2), w2)
  end.
Proof.
  revert w. induction cbs1 as [|cb cbs1 IH]; intros w.
  { cbn. by destruct (run_seq cbs2 w) as [[n2 oe2] w2]. }
  cbn [app]. rewrite !run_seq_cons. destruct (cb w) as [[u|e] w1]; [|done].
  rewrite IH. destruct (run_seq cbs1 w1) as [[n1 [e|]] w2]; [done|].
  by destruct (run_seq cbs2 w2) as [[n2 oe2] w3].
Qed.

(** The callback whose error ended the sequence ran last. *)
Lemma run_seq_error {W} (cbs : list (Callback W)) w n e w' :
  run_seq cbs w = ((n, Some e), w') ->
  exists cb w1, cbs !! n = Some cb /\ cb w1 = (Err e, w').
Proof.
  revert w n. induction cbs as [|cb cbs IH]; intros w n; [by cbn|]. rewrite run_seq_cons.
  destruct (cb w) as [[u|e1] w1] eqn:Hcb.
  - destruct (run_seq cbs w1) as [[n1 oe1] w2] eqn:E. intros. simplify_eq. by apply (IH _ _ E).
  - intros. simplify_eq. exists cb, w. done.
Qed.

Lemma run_best_length {W} (cbs : list (Callback W)) w rs w' : run_best cbs w = (rs, w') -> length rs = length cbs.
Proof.
  revert w rs w'. induction cbs as [|cb cbs IH]; intros w rs w'; [by intros [= <- <-]|].
  cbn. unfold ebind, eret. destruct (cb w) as [r w1]. destruct (run_best cbs w1) as [rs1 w2] eqn:E. intros [= <- <-]. cbn. by rewrite (IH _ _ _ E).
Qed.

(** The callback [|| { for cb in &cbs { cb()?; } Ok(()) }]. *)
Definition seq_callback {W} (cbs : list (Callback W)) : Callback W :=
  ebind (run_seq cbs) (fun '(_, oe) =>
    eret (match oe with None => Ok tt | Some e => Err e end)).

(** The first error of a sequence of callbacks, without its position. *)
Definition first_error {W} (cbs : list (Callback W)) : Eff W (option string) :=
  ebind (run_seq cbs) (fun '(_, oe) => eret oe).

Lemma run_seq_first_error {W} (cbs : list (Callback W)) w n oe w' :
  run_seq cbs w = ((n, oe), w') -> first_error cbs w = (oe, w').
Proof. intros Hr. unfold first_error. by rewrite (ebind_run _ _ _ _ _ Hr). Qed.

Lemma first_error_cons {W} (cb : Callback W) cbs w :
  first_error (cb :: cbs) w =
  match cb w with
  | (Err e, w1) => (Some e, w1)
  | (Ok _, w1) => first_error cbs w1
  end.
Proof.
  unfold first_error, ebind. rewrite run_seq_cons. destruct (cb w) as [[u|e] w1]; [|done].
  by destruct (run_seq cbs w1) as [[n oe] w2].
Qed.

Lemma first_error_app {W} (cbs1 cbs2 : list (Callback W)) w :
  first_error (cbs1 ++ cbs2) w =
  match first_error cbs1 w with
  | (Some e, w1) => (Some e, w1)
  | (None, w1) => first_error cbs2 w1
  end.
Proof.
  revert w. induction cbs1 as [|cb cbs1 IH]; intros w; [done|]. cbn [app].
  rewrite !first_error_cons. destruct (cb w) as [[u|e] w1]; [|done]. apply IH.
Qed.

Lemma seq_callback_first_error {W} (cbs : list (Callback W)) w :
  seq_callback cbs w =
  match first_error cbs w with
  | (Some e, w1) => (Err e, w1)
  | (None, w1) => (Ok tt, w1)
  end.
Proof.
  unfold seq_callback, first_error, ebind. by destruct (run_seq cbs w) as [[n [e|]] w1].
Qed.

(** Running the groups one by one is running their concatenation. *)
Lemma first_error_groups {W} (css : list (list (Callback W))) :
  first_error (seq_callback <$> css) =eff= first_error (concat css).
Proof.
  induction css as [|cs css IH]; intros w; [done|]. rewrite fmap_cons. cbn [concat].
  rewrite first_error_cons, first_error_app, seq_callback_first_error.
  destruct (first_error cs w) as [[e|] w1]; [done|]. apply IH.
Qed.

(** ** Clocks *)

(** [SystemTime::now()] in milliseconds since the epoch, [Instant::now()] in
    nanoseconds and [thread::sleep], as the program sees them. *)
Class Clock (W : Type) := {
  system_millis : Eff W Z;
  instant_now : Eff W Z;
  sleep_ns : Z -> Eff W unit;
}.

(** [Instant + Duration] in nanoseconds: a panic past the [i64] seconds an [Instant] can hold. *)
Definition instant_end : Z := (2 ^ 63 * 10 ^ 9)%Z.
Definition instant_add (t d : Z) : option Z := if (t + d <? instant_end)%Z then Some (t + d)%Z else None.

(** [Duration::MAX]: [u64::MAX] seconds and 999 999 999 nanoseconds. *)
Definition duration_max : Z := (2 ^ 64 * 10 ^ 9 - 1)%Z.

(** [Instant] is monotone: a reading is never before one taken earlier. *)
Class MonotoneClock (W : Type) `{Clock W} := {
  time_of : W -> Z;
  instant_now_mono : forall w, (time_of w <= fst (instant_now w) <= time_of (snd (instant_now w)))%Z;
  system_millis_mono : forall w, (time_of w <= time_of (snd (system_millis w)))%Z;
  sleep_mono : forall d w, (time_of w <= time_of (snd (sleep_ns d w)))%Z;
}.

(** A concrete world for the closed instances of the theorems: a clock that ticks
    once per reading and the trace of the callbacks that ran. *)
Record SimWorld : Type := mkSim { sim_time : Z; sim_trace : list string }.

#[export] Instance SimWorld_clock : Clock SimWorld := {|
  system_millis := fun w => (sim_time w, mkSim (sim_time w + 1) (sim_trace w));
  instant_now := fun w => (sim_time w, mkSim (sim_time w + 1) (sim_trace w));
  sleep_ns := fun d w => (tt, mkSim (sim_time w + Z.max 0 d) (sim_trace w));
|}.

#[export] Instance SimWorld_monotone : MonotoneClock SimWorld.
Proof. refine {| time_of := sim_time |}; intros; cbn; lia. Defined.

Definition sim0 : SimWorld := mkSim 0 [].

(** A callback that leaves its name in the trace and returns [r]. *)
Definition sim_call (name : string) (r : result unit string) : Callback SimWorld :=
  fun w => (r, mkSim (sim_time w) (sim_trace w ++ [name])).

(** ** A shared cell of the world

    An object behind an [Arc<RwLock<..>>] is a component of the world, reached
    through a lens. *)
Record Lens (W A : Type) : Type := mkLens {
  lget : W -> A;
  lset : A -> W -> W;
  lget_lset : forall a w, lget (lset a w) = a;
  lset_lget : forall w, lset (lget w) w = w;
  lset_lset : forall a b w, lset a (lset b w) = lset a w;
}.
Arguments lget {W A}.
Arguments lset {W A}.
Arguments lget_lset {W A}.
Arguments lset_lget {W A}.
Arguments lset_lset {W A}.

(** * Machine integers *)

Definition wrap32 (z : Z) : Z := (z mod 2 ^ 32)%Z.
Definition wrap64 (z : Z) : Z := (z mod 2 ^ 64)%Z.

Lemma wrap64_small z : (0 <= z < 2 ^ 64)%Z -> wrap64 z = z.
Proof. intros. unfold wrap64. by rewrite Z.mod_small. Qed.

Lemma wrap64_range z : (0 <= wrap64 z < 2 ^ 64)%Z.
Proof. unfold wrap64. apply Z.mod_pos_bound. lia. Qed.

Lemma wrap32_small z : (0 <= z < 2 ^ 32)%Z -> wrap32 z = z.
Proof. intros. unfold wrap32. by rewrite Z.mod_small. Qed.

(** * Lists *)

Lemma insert_middle {A} (l1 l2 : list A) x y :
  <[length l1 := y]> (l1 ++ x :: l2) = l1 ++ y :: l2.
Proof. rewrite insert_app_r_alt by lia. by rewrite Nat.sub_diag. Qed.

Lemma lookup_middle {A} (l1 l2 : list A) x : (l1 ++ x :: l2) !! length l1 = Some x.
Proof. rewrite lookup_app_r by lia. by rewrite Nat.sub_diag. Qed.

(** ** [sort_by_key], which keeps the order of equal keys *)

Section SortByKey.
Context {A : Type} (key : A -> Z).

Fixpoint insert_by_key (x : A) (l : list A) : list A :=
  match l with
  | [] => [x]
  | y :: l => if (key x <=? key y)%Z then x :: y :: l else y :: insert_by_key x l
  end.

Definition sort_by_key (l : list A) : list A := foldr insert_by_key [] l.

Lemma insert_by_key_perm x l : insert_by_key x l ≡ₚ x :: l.
Proof. induction l as [|y l IH]; [done|]. cbn. destruct (_ <=? _)%Z; [done|]. rewrite IH. by constructor. Qed.

Lemma sort_by_key_perm l : sort_by_key l ≡ₚ l.
Proof. induction l as [|x l IH]; [done|]. cbn. by rewrite insert_by_key_perm, IH. Qed.

Lemma insert_by_key_sorted x l :
  StronglySorted (fun a b => (key a <= key b)%Z) l -> StronglySorted (fun a b => (key a <= key b)%Z) (insert_by_key x l).
Proof.
  induction 1 as [|y l Hs IH Hy]; [by repeat constructor|]. cbn. destruct (Z.leb_spec (key x) (key y)).
  - constructor; [by constructor|]. constructor; [done|]. eapply Forall_impl; [exact Hy|]. cbn. intros. lia.
  - constructor; [done|]. rewrite insert_by_key_perm. constructor; [lia|done].
Qed.

Lemma sort_by_key_sorted l : StronglySorted (fun a b => (key a <= key b)%Z) (sort_by_key l).
Proof. induction l as [|x l IH]; [constructor|]. by apply insert_by_key_sorted. Qed.

Lemma head_insert_by_key x l : head (insert_by_key x l) =
  match head l with Some y => Some (if (key x <=? key y)%Z then x else y) | None => Some x end.
Proof. destruct l as [|y l]; [done|]. cbn. by destruct (key x <=? key y)%Z. Qed.
End SortByKey.

(** * Association lists: the references of the caches *)

Section Assoc.
Context {K V : Type} `{EqDecision K}.
Implicit Types l : list (K * V).

Definition assoc_drop (key : K) l : list (K * V) := filter (fun p => fst p <> key) l.

Definition assoc_find (key : K) l : option V :=
  snd <$> (snd <$> list_find (fun p => fst p = key) l).

Lemma assoc_find_Some key v l : NoDup l.*1 -> assoc_find key l = Some v <-> (key, v) ∈ l.
Proof.
  intros Hn. unfold assoc_find. induction l as [|[k w] l IH]; [split; [done|by intros ?%not_elem_of_nil]|].
  cbn in Hn |- *. apply NoDup_cons in Hn as [Hk Hn]. rewrite elem_of_cons.
  destruct (decide (k = key)) as [->|Hne]; cbn.
  - split; [intros [= ->]; by left|]. intros [[= ->]|Hin]; [done|].
    destruct Hk. apply list_elem_of_fmap. by exists (key, v).
  - rewrite <- IH by done. destruct (list_find _ l) as [[i [k' w']]|]; cbn.
    + split; [tauto|]. intros [[= -> ->]|?]; done.
    + split; [done|]. intros [[= -> ->]|?]; done.
Qed.

Lemma assoc_find_None key l : assoc_find key l = None <-> key ∉ l.*1.
Proof.
  unfold assoc_find. induction l as [|[k w] l IH]; cbn.
  { split; [intros _; apply not_elem_of_nil|done]. }
  rewrite not_elem_of_cons, <- IH. destruct (decide (k = key)) as [->|Hne]; cbn.
  - split; [done|]. intros [? _]. done.
  - destruct (list_find _ l) as [[i [k' w']]|]; cbn; naive_solver.
Qed.

Lemma assoc_drop_absent key l : key ∉ l.*1 -> assoc_drop key l = l.
Proof.
  unfold assoc_drop. induction l as [|[k x] l IH]; [done|]. cbn [fmap list_fmap].
  rewrite not_elem_of_cons. intros [Hk He]. rewrite filter_cons_True by (simpl in *; congruence).
  by rewrite IH.
Qed.

Lemma elem_of_assoc_drop key l p : p ∈ assoc_drop key l <-> p.1 <> key /\ p ∈ l.
Proof. unfold assoc_drop. by rewrite list_elem_of_filter. Qed.

Lemma assoc_drop_fresh key l : key ∉ (assoc_drop key l).*1.
Proof. intros (p & -> & [Hp _]%elem_of_assoc_drop)%list_elem_of_fmap. done. Qed.

Lemma assoc_drop_sublist key l : assoc_drop key l `sublist_of` l.
Proof. apply sublist_filter. Qed.

Lemma assoc_drop_NoDup key l : NoDup l.*1 -> NoDup (assoc_drop key l).*1.
Proof. intros Hn. eapply sublist_NoDup; [exact Hn|]. apply fmap_sublist, assoc_drop_sublist. Qed.
End Assoc.

(** * Registries: [RwLock<HashMap<String, V>>] *)

(** [keys().cloned().collect()] followed by [sort()]. *)
Definition sorted_keys {V} (m : gmap string V) : list string :=
  merge_sort String.le (elements (dom m)).

Lemma elem_of_sorted_keys {V} (m : gmap string V) k :
  k ∈ sorted_keys m <-> is_Some (m !! k).
Proof.
  unfold sorted_keys. rewrite merge_sort_Permutation, elem_of_elements. apply elem_of_dom.
Qed.

Lemma sorted_keys_sorted {V} (m : gmap string V) : StronglySorted String.le (sorted_keys m).
Proof. apply StronglySorted_merge_sort; apply _. Qed.

Lemma sorted_keys_NoDup {V} (m : gmap string V) : NoDup (sorted_keys m).
Proof. unfold sorted_keys. rewrite merge_sort_Permutation. apply NoDup_elements. Qed.

(** [map.get_mut(id).ok_or(err)?] followed by a method call on the entry. *)
Definition modify_entry {W V R} (id : string) (err : R) (f : V -> Eff W (R * V))
    (m : gmap string V) : Eff W (R * gmap string V) :=
  match m !! id with
  | None => eret (err, m)
  | Some v => ebind (f v) (fun '(r, v') => eret (r, <[id := v']> m))
  end.

Lemma modify_entry_lookup {W V R} id (err : R) (f : V -> Eff W (R * V)) m w r m' w' k v' :
  modify_entry id err f m w = ((r, m'), w') -> m' !! k = Some v' ->
  m !! k = Some v' \/ (k = id /\ exists v, m !! id = Some v /\ f v w = ((r, v'), w')).
Proof.
  unfold modify_entry, ebind, eret. destruct (m !! id) as [v|] eqn:Hm.
  - destruct (f v w) as [[r1 v1] w1] eqn:Hf. intros ? Hk. simplify_eq.
    rewrite lookup_insert in Hk. case_decide; simplify_eq; eauto 10.
  - intros ? ?. simplify_eq. by left.
Qed.

(** * Sums over the values of a map *)

Section Sums.
Context {K V : Type} `{Countable K}.
Implicit Types m : gmap K V.

Definition msum (f : V -> nat) m : nat := map_fold (fun _ x n => f x + n) 0 m.
Definition mcat {A} (f : V -> list A) m : list A := concat (f <$> (map_to_list m).*2).

Lemma msum_new f m i x : m !! i = None -> msum f (<[i := x]> m) = f x + msum f m.
Proof.
  intros Hi. apply (map_fold_insert_L (fun _ x n => f x + n)); [|done]. intros. lia.
Qed.

Lemma msum_replace f m i x y : m !! i = Some x -> msum f (<[i := y]> m) + f x = msum f m + f y.
Proof.
  intros Hi. rewrite <- (insert_delete_id m i x Hi) at 2. rewrite <- insert_delete_eq.
  rewrite !msum_new by apply lookup_delete_eq. lia.
Qed.

Lemma msum_at_least f m i x : m !! i = Some x -> f x <= msum f m.
Proof.
  intros Hi. rewrite <- (insert_delete_id m i x Hi), msum_new by apply lookup_delete_eq. lia.
Qed.

Lemma mcat_new {A} (f : V -> list A) m i x :
  m !! i = None -> mcat f (<[i := x]> m) ≡ₚ f x ++ mcat f m.
Proof. intros Hi. unfold mcat. by rewrite map_to_list_insert by done. Qed.

Lemma mcat_take {A} (f : V -> list A) m i x :
  m !! i = Some x -> mcat f m ≡ₚ f x ++ mcat f (delete i m).
Proof. intros Hi. rewrite <- mcat_new by apply lookup_delete_eq. by rewrite insert_delete_id. Qed.

Lemma mcat_replace {A} (f : V -> list A) m i x y :
  m !! i = Some x -> mcat f (<[i := y]> m) ++ f x ≡ₚ mcat f m ++ f y.
Proof.
  intros Hi. rewrite <- insert_delete_eq, mcat_new by apply lookup_delete_eq.
  rewrite (mcat_take f m i x Hi). solve_Permutation.
Qed.

Lemma elem_of_mcat {A} (f : V -> list A) m i x a : m !! i = Some x -> a ∈ f x -> a ∈ mcat f m.
Proof. intros Hi Ha. rewrite (mcat_take f m i x Hi). apply elem_of_app. by left. Qed.
End Sums.

(** * Step relations *)

(** An invariant of the steps holds in every reachable state. *)
Lemma rtc_invariant {A} (R : relation A) (P : A -> Prop) x y :
  (forall a b, P a -> R a b -> P b) -> P x -> rtc R x y -> P y.
Proof. intros Hstep Hx Hrtc. induction Hrtc; eauto. Qed.

(** * Automation *)

(** Runs the bind at the head of a hypothesis or of the goal. *)
Ltac run_eff :=
  unfold ebind, eret in *;
  repeat match goal with
  | H : context [match ?m ?w with (_, _) => _ end] |- _ =>
      let E := fresh "E" in destruct (m w) as [? ?] eqn:E; simplify_eq/=
  | |- context [match ?m ?w with (_, _) => _ end] =>
      let E := fresh "E" in destruct (m w) as [? ?] eqn:E; simplify_eq/=
  end.

Create HintDb szorm discriminated.
#[export] Hint Resolve sorted_keys_sorted sorted_keys_NoDup : szorm.
