(* ===== verification/Dtx.v ===== *)
(** Distributed transactions: [packages/sz-orm-dtx/src/lib.rs]. *)

From S2P Require Import Prelude.
Local Open Scope eff_scope.

(** * Transaction log *)

Record TransactionLogEntry : Type := mkLogEntry {
  le_tx_id : string;
  le_state : string;
  le_participants : list string;
  le_timestamp : string;
  le_action : string;
}.

#[export] Instance TransactionLogEntry_eq_dec : EqDecision TransactionLogEntry.
Proof. solve_decision. Defined.

(** The trait [TransactionLogStore]. *)
Record TransactionLogStore (W : Type) : Type := mkLogStore {
  append : TransactionLogEntry -> Eff W (result unit string);
  read : string -> Eff W (result (list TransactionLogEntry) string);
  read_pending : Eff W (result (list TransactionLogEntry) string);
  finalize : string -> string -> Eff W (result unit string);
}.
Arguments append {W}.
Arguments read {W}.
Arguments read_pending {W}.
Arguments finalize {W}.

(** [as_millis().to_string()] with [unwrap_or_default()] before the epoch. *)
Definition millis_string (ms : Z) : string := pretty (Z.max 0 ms).

(** The trait's default [finalize]: append a terminal entry. *)
Definition default_finalize {W} `{Clock W}
    (app : TransactionLogEntry -> Eff W (result unit string))
    (tx_id state : string) : Eff W (result unit string) :=
  let* ms := system_millis in
  app (mkLogEntry tx_id state [] (millis_string ms) "recovery_finalize").

(** ** In-memory log: the vector behind the lock *)

Definition TERMINAL : list string := ["Committed"; "RolledBack"; "Failed"].

Definition mem_append (entry : TransactionLogEntry) (logs : list TransactionLogEntry) :
    list TransactionLogEntry := logs ++ [entry].

Definition mem_read (tx_id : string) (logs : list TransactionLogEntry) :
    list TransactionLogEntry := filter (fun e => le_tx_id e = tx_id) logs.

(** [latest.insert(entry.tx_id, entry)] for every entry, in order. *)
Definition mem_latest (logs : list TransactionLogEntry) : gmap string TransactionLogEntry :=
  foldl (fun m e => <[le_tx_id e := e]> m) ∅ logs.

(** The order of [into_values()] is unspecified in Rust; here it is that of
    [map_to_list], and no theorem depends on it. *)
Definition mem_read_pending (logs : list TransactionLogEntry) : list TransactionLogEntry :=
  filter (fun e => le_state e ∉ TERMINAL) (snd <$> map_to_list (mem_latest logs)).

Definition set_le_state (s : string) (e : TransactionLogEntry) : TransactionLogEntry :=
  mkLogEntry (le_tx_id e) s (le_participants e) (le_timestamp e) (le_action e).

(** [for entry in logs.iter_mut().rev()], stopping at the first match. *)
Fixpoint finalize_first (tx_id state : string) (logs : list TransactionLogEntry) :
    list TransactionLogEntry :=
  match logs with
  | [] => []
  | e :: rest =>
      if decide (le_tx_id e = tx_id) then set_le_state state e :: rest
      else e :: finalize_first tx_id state rest
  end.

Definition mem_finalize (tx_id state : string) (logs : list TransactionLogEntry) :
    list TransactionLogEntry := reverse (finalize_first tx_id state (reverse logs)).

(** The in-memory store as a trait object over a world that holds the vector. *)
Definition InMemoryTransactionLog {W} (L : Lens W (list TransactionLogEntry)) :
    TransactionLogStore W := {|
  append e := fun w => (Ok tt, lset L (mem_append e (lget L w)) w);
  read id := fun w => (Ok (mem_read id (lget L w)), w);
  read_pending := fun w => (Ok (mem_read_pending (lget L w)), w);
  finalize id s := fun w => (Ok tt, lset L (mem_finalize id s (lget L w)) w);
|}.

(** * Participants *)

Inductive TransactionState : Type :=
| Active | Preparing | Prepared | Committing | Committed
| RollingBack | RolledBack | Failed.

#[export] Instance TransactionState_eq_dec : EqDecision TransactionState.
Proof. solve_decision. Defined.

(** [{:?}] *)
Definition debug_TransactionState (s : TransactionState) : string :=
  match s with
  | Active => "Active" | Preparing => "Preparing" | Prepared => "Prepared"
  | Committing => "Committing" | Committed => "Committed"
  | RollingBack => "RollingBack" | RolledBack => "RolledBack" | Failed => "Failed"
  end.

Inductive ParticipantState : Type :=
| PActive | PPrepared | PCommitted | PRolledBack | PFailed.

#[export] Instance ParticipantState_eq_dec : EqDecision ParticipantState.
Proof. solve_decision. Defined.

Record TransactionParticipant (W : Type) : Type := mkParticipant {
  resource_id : string;
  p_state : ParticipantState;
  prepare_fn : option (Callback W);
  commit_fn : option (Callback W);
  rollback_fn : option (Callback W);
}.
Arguments mkParticipant {W}.
Arguments resource_id {W}.
Arguments p_state {W}.
Arguments prepare_fn {W}.
Arguments commit_fn {W}.
Arguments rollback_fn {W}.

Section Participant.
Context {W : Type}.
Implicit Types p : TransactionParticipant W.

Definition participant_new (id : string) : TransactionParticipant W :=
  mkParticipant id PActive None None None.

Definition with_prepare (f : Callback W) p : TransactionParticipant W :=
  mkParticipant (resource_id p) (p_state p) (Some f) (commit_fn p) (rollback_fn p).

Definition with_commit (f : Callback W) p : TransactionParticipant W :=
  mkParticipant (resource_id p) (p_state p) (prepare_fn p) (Some f) (rollback_fn p).

Definition with_rollback (f : Callback W) p : TransactionParticipant W :=
  mkParticipant (resource_id p) (p_state p) (prepare_fn p) (commit_fn p) (Some f).

Definition set_p_state (s : ParticipantState) p : TransactionParticipant W :=
  mkParticipant (resource_id p) s (prepare_fn p) (commit_fn p) (rollback_fn p).

(** [if let Some(cb) = &self.x_fn { cb()?; } self.state = s; Ok(())] *)
Definition participant_prepare p : Eff W (result unit string * TransactionParticipant W) :=
  let* r := call_opt (prepare_fn p) in
  match r with
  | Err e => eret (Err e, p)
  | Ok _ => eret (Ok tt, set_p_state PPrepared p)
  end.

Definition participant_commit p : Eff W (result unit string * TransactionParticipant W) :=
  let* r := call_opt (commit_fn p) in
  match r with
  | Err e => eret (Err e, p)
  | Ok _ => eret (Ok tt, set_p_state PCommitted p)
  end.

Definition participant_rollback p : Eff W (result unit string * TransactionParticipant W) :=
  let* r := call_opt (rollback_fn p) in
  match r with
  | Err e => eret (Err e, p)
  | Ok _ => eret (Ok tt, set_p_state PRolledBack p)
  end.

Definition participant_fail p : TransactionParticipant W := set_p_state PFailed p.
End Participant.

(** * The coordinator of one transaction *)

Record DistributedTransaction (W : Type) : Type := mkDtx {
  dtx_id : string;
  dtx_state : TransactionState;
  dtx_participants : list (TransactionParticipant W);
  log_store : option (TransactionLogStore W);
}.
Arguments mkDtx {W}.
Arguments dtx_id {W}.
Arguments dtx_state {W}.
Arguments dtx_participants {W}.
Arguments log_store {W}.

Section Transaction.
Context {W : Type} `{Clock W}.
Implicit Types tx : DistributedTransaction W.
Abbreviation participants := (list (TransactionParticipant W)).

Definition dtx_new (id : string) : DistributedTransaction W := mkDtx id Active [] None.

Definition with_log_store (store : TransactionLogStore W) tx : DistributedTransaction W :=
  mkDtx (dtx_id tx) (dtx_state tx) (dtx_participants tx) (Some store).

Definition has_log_store tx : bool :=
  match log_store tx with Some _ => true | None => false end.

Definition add_participant (p : TransactionParticipant W) tx : DistributedTransaction W :=
  mkDtx (dtx_id tx) (dtx_state tx) (dtx_participants tx ++ [p]) (log_store tx).

Definition set_dtx_state (s : TransactionState) tx : DistributedTransaction W :=
  mkDtx (dtx_id tx) s (dtx_participants tx) (log_store tx).

Definition set_dtx_participants (ps : participants) tx : DistributedTransaction W :=
  mkDtx (dtx_id tx) (dtx_state tx) ps (log_store tx).

(** A failing append is ignored ([let _ = block_on_async(..)]). *)
Definition write_log (action state : string) tx : Eff W unit :=
  match log_store tx with
  | None => eret tt
  | Some store =>
      let* ms := system_millis in
      let* _ := append store
        (mkLogEntry (dtx_id tx) state (resource_id <$> dtx_participants tx)
           (millis_string ms) action) in
      eret tt
  end.

(** [for j in j0..j0+n { let _ = self.participants[j].rollback(); }] *)
Fixpoint rollback_range (n j : nat) (ps : participants) : Eff W participants :=
  match n with
  | 0 => eret ps
  | S n' =>
      match ps !! j with
      | None => eret ps
      | Some p =>
          let* (_, p') := participant_rollback p in
          rollback_range n' (S j) (<[j := p']> ps)
      end
  end.

(** The loop [for i in i0..i0+n] of [prepare]; on the first error it returns the
    failing resource, the error and the participants after the rollbacks. *)
Fixpoint prepare_loop (n i prepared_count : nat) (ps : participants) :
    Eff W (result unit (string * string) * participants) :=
  match n with
  | 0 => eret (Ok tt, ps)
  | S n' =>
      match ps !! i with
      | None => eret (Ok tt, ps)
      | Some p =>
          let* (r, p') := participant_prepare p in
          match r with
          | Ok _ => prepare_loop n' (S i) (S prepared_count) (<[i := p']> ps)
          | Err e =>
              let ps1 := <[i := participant_fail p']> ps in
              let* ps2 := rollback_range prepared_count 0 ps1 in
              eret (Err (resource_id p', e), ps2)
          end
      end
  end.

Definition prepare tx : Eff W (result unit string * DistributedTransaction W) :=
  match dtx_state tx with
  | Active =>
      let tx := set_dtx_state Preparing tx in
      let* _ := write_log "prepare" "Preparing" tx in
      let* (r, ps) := prepare_loop (length (dtx_participants tx)) 0 0 (dtx_participants tx) in
      let tx := set_dtx_participants ps tx in
      match r with
      | Err (rid, e) =>
          let tx := set_dtx_state Failed tx in
          let* _ := write_log "prepare" "Failed" tx in
          eret (Err ("Prepare failed at participant " +:+ rid +:+ ": " +:+ e), tx)
      | Ok _ =>
          let tx := set_dtx_state Prepared tx in
          let* _ := write_log "prepare" "Prepared" tx in
          eret (Ok tt, tx)
      end
  | s => eret (Err ("Cannot prepare transaction in state " +:+ debug_TransactionState s), tx)
  end.

(** [for participant in &mut self.participants], leaving at the first error. *)
Fixpoint commit_loop (ps : participants) :
    Eff W (option (string * string) * participants) :=
  match ps with
  | [] => eret (None, [])
  | p :: rest =>
      let* (r, p') := participant_commit p in
      match r with
      | Err e => eret (Some (resource_id p', e), p' :: rest)
      | Ok _ =>
          let* (oe, rest') := commit_loop rest in
          eret (oe, p' :: rest')
      end
  end.

Definition can_commit tx : bool :=
  match dtx_state tx with
  | Prepared => true
  | Active => match dtx_participants tx with [] => true | _ => false end
  | _ => false
  end.

Definition commit tx : Eff W (result unit string * DistributedTransaction W) :=
  if can_commit tx then
    let tx := set_dtx_state Committing tx in
    let* _ := write_log "commit" "Committing" tx in
    let* (commit_error, ps) := commit_loop (dtx_participants tx) in
    let tx := set_dtx_participants ps tx in
    match commit_error with
    | Some (rid, e) =>
        let tx := set_dtx_state Failed tx in
        let* _ := write_log "commit" "Failed" tx in
        eret (Err ("Commit failed at participant " +:+ rid +:+ ": " +:+ e), tx)
    | None =>
        let tx := set_dtx_state Committed tx in
        let* _ := write_log "commit" "Committed" tx in
        eret (Ok tt, tx)
    end
  else
    eret (Err ("Cannot commit transaction in state "
               +:+ debug_TransactionState (dtx_state tx)), tx).

Fixpoint rollback_loop (ps : participants) : Eff W participants :=
  match ps with
  | [] => eret []
  | p :: rest =>
      let* (_, p') := participant_rollback p in
      let* rest' := rollback_loop rest in
      eret (p' :: rest')
  end.

Definition rollback tx : Eff W (result unit string * DistributedTransaction W) :=
  match dtx_state tx with
  | RolledBack | Committed =>
      eret (Err ("Cannot rollback transaction in terminal state "
                 +:+ debug_TransactionState (dtx_state tx)), tx)
  | _ =>
      let tx := set_dtx_state RollingBack tx in
      let* _ := write_log "rollback" "RollingBack" tx in
      let* ps := rollback_loop (dtx_participants tx) in
      let tx := set_dtx_state RolledBack (set_dtx_participants ps tx) in
      let* _ := write_log "rollback" "RolledBack" tx in
      eret (Ok tt, tx)
  end.
End Transaction.

(** * The manager: one coordinator per transaction id *)

Section Manager.
Context {W : Type} `{Clock W}.
Abbreviation DtxManager := (gmap string (DistributedTransaction W)).

Definition not_found (tx_id : string) : string := "Transaction " +:+ tx_id +:+ " not found".

Definition begin (id : string) (txs : DtxManager) : result unit string * DtxManager :=
  match txs !! id with
  | Some _ => (Err ("Transaction " +:+ id +:+ " already exists"), txs)
  | None => (Ok tt, <[id := dtx_new id]> txs)
  end.

Definition manager_add_participant (tx_id : string) (p : TransactionParticipant W)
    (txs : DtxManager) : result unit string * DtxManager :=
  match txs !! tx_id with
  | None => (Err (not_found tx_id), txs)
  | Some tx =>
      if decide (dtx_state tx <> Active) then
        (Err ("Transaction " +:+ tx_id +:+ " is not active"), txs)
      else (Ok tt, <[tx_id := add_participant p tx]> txs)
  end.

Definition manager_prepare (tx_id : string) (txs : DtxManager) :
    Eff W (result unit string * DtxManager) :=
  modify_entry tx_id (Err (not_found tx_id)) prepare txs.

Definition manager_commit (tx_id : string) (txs : DtxManager) :
    Eff W (result unit string * DtxManager) :=
  modify_entry tx_id (Err (not_found tx_id)) commit txs.

Definition manager_rollback (tx_id : string) (txs : DtxManager) :
    Eff W (result unit string * DtxManager) :=
  modify_entry tx_id (Err (not_found tx_id)) rollback txs.

Definition manager_get (tx_id : string) (txs : DtxManager) : option TransactionState :=
  dtx_state <$> txs !! tx_id.

Definition manager_list (txs : DtxManager) : list string := sorted_keys txs.

Definition participant_states (tx_id : string) (txs : DtxManager) :
    option (list ParticipantState) :=
  (fun tx => p_state <$> dtx_participants tx) <$> txs !! tx_id.

(** Every call a client can make on the manager. *)
Inductive manager_step : DtxManager * W -> DtxManager * W -> Prop :=
| step_begin id txs w r txs' :
    begin id txs = (r, txs') -> manager_step (txs, w) (txs', w)
| step_add id p txs w r txs' :
    manager_add_participant id p txs = (r, txs') -> manager_step (txs, w) (txs', w)
| step_prepare id txs w r txs' w' :
    manager_prepare id txs w = ((r, txs'), w') -> manager_step (txs, w) (txs', w')
| step_commit id txs w r txs' w' :
    manager_commit id txs w = ((r, txs'), w') -> manager_step (txs, w) (txs', w')
| step_rollback id txs w r txs' w' :
    manager_rollback id txs w = ((r, txs'), w') -> manager_step (txs, w) (txs', w').
End Manager.

(** * Reference semantics of the phases *)

Section Spec.
Context {W : Type} `{Clock W}.
Abbreviation participants := (list (TransactionParticipant W)).

Definition prepares (ps : participants) : list (Callback W) := (fun p => call_opt (prepare_fn p)) <$> ps.
Definition commits (ps : participants) : list (Callback W) := (fun p => call_opt (commit_fn p)) <$> ps.
Definition rollbacks (ps : participants) : list (Callback W) := (fun p => call_opt (rollback_fn p)) <$> ps.

Lemma prepares_cons p ps : prepares (p :: ps) = call_opt (prepare_fn p) :: prepares ps.
Proof. done. Qed.
Lemma commits_cons p ps : commits (p :: ps) = call_opt (commit_fn p) :: commits ps.
Proof. done. Qed.
Lemma rollbacks_cons p ps : rollbacks (p :: ps) = call_opt (rollback_fn p) :: rollbacks ps.
Proof. done. Qed.
#[local] Arguments prepares : simpl never.
#[local] Arguments commits : simpl never.
#[local] Arguments rollbacks : simpl never.

(** A participant after its rollback callback returned [r]. *)
Definition after_rollback (p : TransactionParticipant W) (r : result unit string) :=
  if is_ok r then set_p_state PRolledBack p else p.

(** The participants after participant [n] failed to prepare, [rs] being the
    results of the rollbacks of those before it. *)
Definition failed_prepare (n : nat) (rs : list (result unit string)) (ps : participants) : participants :=
  zip_with after_rollback (set_p_state PPrepared <$> take n ps) rs
  ++ (participant_fail <$> take 1 (drop n ps)) ++ drop (S n) ps.

Definition id_of (n : nat) (ps : participants) : string :=
  match ps !! n with Some p => resource_id p | None => "" end.

(** Phase one as the protocol describes it: run the prepares in order up to the
    first error, then undo the participants that had prepared. *)
Definition prepare_spec (ps : participants) : Eff W (result unit (string * string) * participants) :=
  let* (n, oe) := run_seq (prepares ps) in
  match oe with
  | None => eret (Ok tt, set_p_state PPrepared <$> ps)
  | Some e =>
      let* rs := run_best (rollbacks (take n ps)) in
      eret (Err (id_of n ps, e), failed_prepare n rs ps)
  end.

Definition commit_spec (ps : participants) : Eff W (option (string * string) * participants) :=
  let* (n, oe) := run_seq (commits ps) in
  eret ((fun e => (id_of n ps, e)) <$> oe, (set_p_state PCommitted <$> take n ps) ++ drop n ps).

Definition rollback_spec (ps : participants) : Eff W participants :=
  let* rs := run_best (rollbacks ps) in
  eret (zip_with after_rollback ps rs).

Lemma rollback_loop_spec ps : rollback_loop ps =eff= rollback_spec ps.
Proof.
  unfold rollback_spec. induction ps as [|p ps IH]; [done|]. intros w.
  rewrite rollbacks_cons. cbn. unfold ebind, participant_rollback, ebind.
  destruct (call_opt (rollback_fn p) w) as [[u|e] w1]; cbn;
    specialize (IH w1); unfold ebind in IH; rewrite IH;
    by destruct (run_best (rollbacks ps) w1).
Qed.

Lemma commit_loop_spec ps : commit_loop ps =eff= commit_spec ps.
Proof.
  unfold commit_spec. induction ps as [|p ps IH]; [done|]. intros w.
  rewrite commits_cons. cbn. unfold ebind, participant_commit, ebind.
  destruct (call_opt (commit_fn p) w) as [[u|e] w1]; cbn; [|done].
  specialize (IH w1). unfold ebind in IH. rewrite IH.
  by destruct (run_seq (commits ps) w1) as [[n oe] w2].
Qed.

Lemma rollback_range_spec (pre mid post : participants) :
  rollback_range (length mid) (length pre) (pre ++ mid ++ post) =eff=
  ebind (rollback_loop mid) (fun mid' => eret (pre ++ mid' ++ post)).
Proof.
  revert pre. induction mid as [|p mid IH]; intros pre w; [reflexivity|].
  cbn. rewrite lookup_middle. cbn. unfold ebind.
  destruct (participant_rollback p w) as [[r p'] w1]. cbn.
  rewrite insert_middle.
  specialize (IH (pre ++ [p']) w1). rewrite length_app, Nat.add_comm in IH.
  rewrite <- app_assoc in IH. cbn in IH. rewrite IH. unfold ebind.
  destruct (rollback_loop mid w1) as [mid' w2]. cbn. by rewrite <- app_assoc.
Qed.

Lemma rollbacks_set_state s ps : rollbacks (set_p_state s <$> ps) = rollbacks ps.
Proof. unfold rollbacks. rewrite <- list_fmap_compose. done. Qed.

(** The prepare loop over the unprocessed suffix [rest]. *)
Lemma prepare_loop_aux (done0 rest : participants) :
  let done := set_p_state PPrepared <$> done0 in
  prepare_loop (length rest) (length done) (length done) (done ++ rest) =eff=
  ebind (run_seq (prepares rest)) (fun '(n, oe) =>
    match oe with
    | None => eret (Ok tt, set_p_state PPrepared <$> (done0 ++ rest))
    | Some e =>
        ebind (run_best (rollbacks (done0 ++ take n rest))) (fun rs =>
          eret (Err (id_of n rest, e), failed_prepare (length done0 + n) rs (done0 ++ rest)))
    end).
Proof.
  cbn. revert done0. induction rest as [|p rest IH]; intros done0 w.
  { cbn. by rewrite !app_nil_r. }
  rewrite prepares_cons. cbn [prepare_loop length]. rewrite lookup_middle. cbn.
  unfold participant_prepare, ebind.
  destruct (call_opt (prepare_fn p) w) as [[u|e] w1]; cbn.
  - rewrite insert_middle. specialize (IH (done0 ++ [p]) w1).
    rewrite fmap_app in IH. cbn in IH. rewrite <- app_assoc, length_app, Nat.add_1_r in IH.
    cbn in IH. rewrite IH. unfold ebind. rewrite <- !app_assoc.
    destruct (run_seq (prepares rest) w1) as [[n [e|]] w2]; cbn; [|done].
    rewrite <- !app_assoc, length_app. cbn.
    by replace (length done0 + 1 + n) with (length done0 + S n) by lia.
  - rewrite insert_middle.
    pose proof (rollback_range_spec [] (set_p_state PPrepared <$> done0)
                  (participant_fail p :: rest) w1) as Hr.
    cbn in Hr. rewrite Hr. unfold ebind. rewrite rollback_loop_spec.
    unfold rollback_spec, ebind. rewrite rollbacks_set_state, app_nil_r.
    destruct (run_best (rollbacks done0) w1) as [rs w2]. cbn.
    unfold failed_prepare. rewrite Nat.add_0_r, take_app_length, drop_app_length.
    replace (drop (S (length done0)) (done0 ++ p :: rest)) with rest; [done|].
    by rewrite <- Nat.add_1_r, <- drop_drop, drop_app_length.
Qed.
End Spec.

(** * Theorems *)

Lemma write_log_unit {W} `{Clock W} action state (tx : DistributedTransaction W) w : exists w', write_log action state tx w = (tt, w').
Proof. destruct (write_log action state tx w) as [[] w']. eauto. Qed.

(** Runs the [write_log] at the head of hypothesis [Hp]. *)
Ltac run_log Hp :=
  unfold ebind at 1 in Hp;
  match type of Hp with context [write_log ?a ?b ?t ?w] =>
    let w' := fresh "w" in let E := fresh "Hlog" in
    destruct (write_log_unit a b t w) as [w' E]; rewrite E in Hp end.

Section Theorems.
Context {W : Type} `{Clock W}.
Implicit Types tx : DistributedTransaction W.
Implicit Types r : result unit string.

Lemma prepare_loop_spec (ps : list (TransactionParticipant W)) :
  prepare_loop (length ps) 0 0 ps =eff= prepare_spec ps.
Proof.
  intros w. pose proof (prepare_loop_aux [] ps w) as Hp. cbn in Hp. rewrite Hp.
  unfold prepare_spec, ebind. by destruct (run_seq (prepares ps) w) as [[n [e|]] w1].
Qed.

(** What phase one does to an active transaction. *)
Definition phase_one tx w r tx' w' : Prop :=
  let ps := dtx_participants tx in
  exists w0 n oe w1,
    write_log "prepare" "Preparing" (set_dtx_state Preparing tx) w = (tt, w0) /\
    run_seq (prepares ps) w0 = ((n, oe), w1) /\
    match oe with
    | None =>
        n = length ps /\ r = Ok tt /\
        tx' = set_dtx_state Prepared (set_dtx_participants (set_p_state PPrepared <$> ps) tx) /\
        write_log "prepare" "Prepared" tx' w1 = (tt, w')
    | Some e =>
        n < length ps /\
        r = Err ("Prepare failed at participant " +:+ id_of n ps +:+ ": " +:+ e) /\
        exists rs w2,
          run_best (rollbacks (take n ps)) w1 = (rs, w2) /\
          tx' = set_dtx_state Failed (set_dtx_participants (failed_prepare n rs ps) tx) /\
          write_log "prepare" "Failed" tx' w2 = (tt, w')
    end.

(** What phase two does to a transaction [can_commit] admits. *)
Definition phase_two tx w r tx' w' : Prop :=
  let ps := dtx_participants tx in
  exists w0 n oe w1,
    write_log "commit" "Committing" (set_dtx_state Committing tx) w = (tt, w0) /\
    run_seq (commits ps) w0 = ((n, oe), w1) /\
    dtx_participants tx' = (set_p_state PCommitted <$> take n ps) ++ drop n ps /\
    log_store tx' = log_store tx /\
    match oe with
    | None =>
        n = length ps /\ r = Ok tt /\ dtx_state tx' = Committed /\
        write_log "commit" "Committed" tx' w1 = (tt, w')
    | Some e =>
        n < length ps /\ dtx_state tx' = Failed /\
        r = Err ("Commit failed at participant " +:+ id_of n ps +:+ ": " +:+ e) /\
        write_log "commit" "Failed" tx' w1 = (tt, w')
    end.

Lemma prepare_active tx w r tx' w' :
  dtx_state tx = Active -> prepare tx w = ((r, tx'), w') -> phase_one tx w r tx' w'.
Proof.
  intros Hs Hp. unfold phase_one. unfold prepare in Hp. rewrite Hs in Hp. cbn in Hp.
  run_log Hp. rename w0 into wl.
  unfold ebind at 1 in Hp. rewrite prepare_loop_spec in Hp.
  unfold prepare_spec, ebind at 1 in Hp.
  destruct (run_seq (prepares (dtx_participants tx)) wl) as [[n oe] w1] eqn:Hrun.
  pose proof (run_seq_length _ _ _ _ _ Hrun) as Hlen.
  exists wl, n, oe, w1. split; [done|]. split; [done|].
  unfold prepares in Hlen. rewrite length_fmap in Hlen.
  destruct oe as [e|].
  - unfold ebind at 1 in Hp.
    destruct (run_best (rollbacks (take n (dtx_participants tx))) w1) as [rs w2] eqn:Hrs.
    cbn in Hp. run_log Hp.
    unfold eret in Hp. simplify_eq. split; [done|]. split; [done|]. by exists rs, w2.
  - cbn in Hp. run_log Hp. unfold eret in Hp. by simplify_eq.
Qed.

Lemma prepare_inactive tx :
  dtx_state tx <> Active -> exists e, prepare tx =eff= eret (Err e, tx).
Proof. intros Hs. unfold prepare. destruct (dtx_state tx); [done|eexists; reflexivity..]. Qed.

Lemma commit_admitted tx w r tx' w' :
  can_commit tx = true -> commit tx w = ((r, tx'), w') -> phase_two tx w r tx' w'.
Proof.
  intros Hcan Hc. unfold phase_two. unfold commit in Hc. rewrite Hcan in Hc.
  cbn in Hc. run_log Hc. rename w0 into wl.
  unfold ebind at 1 in Hc. rewrite commit_loop_spec in Hc.
  unfold commit_spec, ebind at 1 in Hc.
  destruct (run_seq (commits (dtx_participants tx)) wl) as [[n oe] w1] eqn:Hrun.
  pose proof (run_seq_length _ _ _ _ _ Hrun) as Hlen.
  unfold commits in Hlen. rewrite length_fmap in Hlen.
  exists wl, n, oe, w1. do 2 (split; [done|]).
  destruct oe as [e|]; cbn in Hc; run_log Hc; unfold eret in Hc; by simplify_eq.
Qed.

Lemma commit_rejected tx :
  can_commit tx = false -> exists e, commit tx =eff= eret (Err e, tx).
Proof. intros Hcan. unfold commit. rewrite Hcan. eexists. reflexivity. Qed.

(** What admits a commit. *)
Definition committable tx : Prop :=
  dtx_state tx = Prepared \/ (dtx_state tx = Active /\ dtx_participants tx = []).

Lemma can_commit_true tx : can_commit tx = true <-> committable tx.
Proof.
  unfold can_commit, committable.
  destruct (dtx_state tx), (dtx_participants tx); split; intros Hc; auto; naive_solver.
Qed.

(** Phase one: on an active transaction [prepare] logs [Preparing], runs the
    prepare callbacks in registration order and stops at the first error.  With no
    error every participant is prepared and [Prepared] is logged.  With an error
    at participant [n] it runs the rollback callback of exactly the participants
    [0..n-1], in order, marks [n] failed, leaves the later ones untouched, and
    logs [Failed].  On any other transaction it is an error that changes nothing. *)
Theorem prepare_two_phase tx w r tx' w' :
  prepare tx w = ((r, tx'), w') ->
  (dtx_state tx <> Active /\ is_ok r = false /\ tx' = tx /\ w' = w) \/
  (dtx_state tx = Active /\ phase_one tx w r tx' w').
Proof.
  intros Hp. destruct (decide (dtx_state tx = Active)) as [Ha|Hn].
  - right. auto using prepare_active.
  - left. destruct (prepare_inactive tx Hn) as [e He]. rewrite (He w) in Hp.
    unfold eret in Hp. by simplify_eq.
Qed.

(** Phase two: [commit] is admitted only on a prepared transaction, or an
    active one with no participants; it logs [Committing] before the first commit
    callback, runs the callbacks in order and stops at the first error.  Then the
    participants before the failing one are committed, the rest keep their state,
    and the transaction is [Failed]; with no error it is [Committed].  A commit
    that is not admitted is an error that changes nothing. *)
Theorem commit_phase_two tx w r tx' w' :
  commit tx w = ((r, tx'), w') ->
  (~ committable tx /\ is_ok r = false /\ tx' = tx /\ w' = w) \/
  (committable tx /\ phase_two tx w r tx' w').
Proof.
  intros Hc. rewrite <- can_commit_true. destruct (can_commit tx) eqn:Hcan.
  - right. auto using commit_admitted.
  - left. split; [done|]. destruct (commit_rejected tx Hcan) as [e He]. rewrite (He w) in Hc.
    unfold eret in Hc. by simplify_eq.
Qed.
End Theorems.

(** ** Invariant of the manager *)

Section Invariant.
Context {W : Type} `{Clock W}.
Implicit Types tx : DistributedTransaction W.
Implicit Types txs : gmap string (DistributedTransaction W).

(** A callback that has an answer that is an error. *)
Definition refuses (f : Callback W) : Prop := exists w e w', f w = (Err e, w').

(** A participant that was rolled back, unless its own rollback failed. *)
Definition undone (p : TransactionParticipant W) : Prop :=
  p_state p = PRolledBack \/ refuses (call_opt (rollback_fn p)).

(** The prepare of [p] failed: those before it are undone, or keep the state they were prepared in. *)
Definition failed_in_prepare (ps : list (TransactionParticipant W)) : Prop :=
  exists l p rest, ps = l ++ p :: rest /\ p_state p = PFailed /\ refuses (call_opt (prepare_fn p)) /\
    Forall (fun q => p_state q = PRolledBack \/ p_state q = PPrepared /\ refuses (call_opt (rollback_fn q))) l.

(** The commit of [p] failed: those before it are committed, [p] and the others are prepared. *)
Definition failed_in_commit (ps : list (TransactionParticipant W)) : Prop :=
  exists l p rest, ps = l ++ p :: rest /\ refuses (call_opt (commit_fn p)) /\
    Forall (fun q => p_state q = PCommitted) l /\ Forall (fun q => p_state q = PPrepared) (p :: rest).

(** What the state of a transaction says of its participants.  Between two calls no transaction is in
    an intermediate state; those of an active one are as the client made them. *)
Definition tx_inv tx : Prop :=
  let ps := dtx_participants tx in
  match dtx_state tx with
  | Active => True
  | Prepared => Forall (fun p => p_state p = PPrepared) ps
  | Committed => Forall (fun p => p_state p = PCommitted) ps
  | RolledBack => Forall undone ps
  | Failed => failed_in_prepare ps \/ failed_in_commit ps
  | Preparing | Committing | RollingBack => False
  end.

Lemma Forall_set_p_state s (ps : list (TransactionParticipant W)) :
  Forall (fun p => p_state p = s) (set_p_state s <$> ps).
Proof. induction ps; cbn; constructor; done. Qed.

(** After [run_best], each participant is in the state its result calls for. *)
Lemma after_rollbacks (P : ParticipantState -> Prop) ps w rs w' :
  run_best (rollbacks ps) w = (rs, w') -> Forall (fun p => P (p_state p)) ps ->
  Forall (fun p => p_state p = PRolledBack \/ P (p_state p) /\ refuses (call_opt (rollback_fn p))) (zip_with after_rollback ps rs).
Proof.
  revert w rs w'. induction ps as [|p ps IH]; intros w rs w'; [intros [= <- <-]; constructor|].
  rewrite rollbacks_cons. cbn. unfold ebind, eret. destruct (call_opt (rollback_fn p) w) as [r w1] eqn:Hr.
  destruct (run_best (rollbacks ps) w1) as [rs2 w2] eqn:Hrs. intros [= <- <-] [HP Hps]%Forall_cons. cbn.
  constructor; [|by eapply IH]. unfold after_rollback. destruct r as [u|e]; cbn; [by left|]. right. split; [done|]. by exists w, e, w1.
Qed.

Lemma seq_refused (f : TransactionParticipant W -> Callback W) ps w n e w' :
  run_seq (f <$> ps) w = ((n, Some e), w') -> exists p, ps !! n = Some p /\ refuses (f p).
Proof.
  intros (cb & w1 & Hn & He)%run_seq_error. apply list_lookup_fmap_Some in Hn as (p & -> & Hp). exists p. split; [done|]. by exists w1, e, w'.
Qed.

Lemma prepare_inv tx w r tx' w' :
  tx_inv tx -> prepare tx w = ((r, tx'), w') -> tx_inv tx'.
Proof.
  intros Hinv Hp. destruct (decide (dtx_state tx = Active)) as [Ha|Hna].
  - destruct (prepare_active _ _ _ _ _ Ha Hp) as (w0 & n & [e|] & w1 & _ & Hrun & Hcase).
    + destruct Hcase as (_ & _ & rs & w2 & Hrs & -> & _). unfold tx_inv. cbn. left.
      apply seq_refused in Hrun as (p & Hn & Href). unfold failed_prepare.
      rewrite (drop_S _ _ _ Hn). eexists _, (participant_fail p), _. split; [reflexivity|]. split_and!; [done|done|].
      rewrite <- (rollbacks_set_state PPrepared) in Hrs.
      apply (after_rollbacks (fun s => s = PPrepared) _ _ _ _ Hrs), Forall_set_p_state.
    + destruct Hcase as (_ & _ & -> & _). apply Forall_set_p_state.
  - destruct (prepare_inactive _ Hna) as [e He]. rewrite (He w) in Hp. unfold eret in Hp.
    by simplify_eq.
Qed.

Lemma commit_inv tx w r tx' w' :
  tx_inv tx -> commit tx w = ((r, tx'), w') -> tx_inv tx'.
Proof.
  intros Hinv Hc. destruct (can_commit tx) eqn:Hcan.
  2: { destruct (commit_rejected _ Hcan) as [e He]. rewrite (He w) in Hc. unfold eret in Hc.
       by simplify_eq. }
  destruct (commit_admitted _ _ _ _ _ Hcan Hc) as (w0 & n & oe & w1 & _ & Hrun & Hps & _ & Hcase).
  unfold tx_inv. destruct oe as [e|].
  - destruct Hcase as (_ & -> & _). right. apply seq_refused in Hrun as (p & Hn & Href).
    rewrite Hps, (drop_S _ _ _ Hn). eexists _, p, _. split; [reflexivity|]. split_and!; [done|apply Forall_set_p_state|].
    rewrite <- (drop_S _ _ _ Hn). apply Forall_drop. apply can_commit_true in Hcan as [Hp|[_ Hnil]]; [|rewrite Hnil; constructor].
    unfold tx_inv in Hinv. by rewrite Hp in Hinv.
  - destruct Hcase as (Hn & _ & -> & _). rewrite Hps, Hn, firstn_all, drop_all, app_nil_r. apply Forall_set_p_state.
Qed.

Lemma rollback_state tx w r tx' w' :
  rollback tx w = ((r, tx'), w') ->
  (dtx_state tx ∈ [Committed; RolledBack] /\ is_ok r = false /\ tx' = tx /\ w' = w) \/
  (dtx_state tx ∉ [Committed; RolledBack] /\ r = Ok tt /\ dtx_state tx' = RolledBack /\
   exists w0 rs w1,
     write_log "rollback" "RollingBack" (set_dtx_state RollingBack tx) w = (tt, w0) /\
     run_best (rollbacks (dtx_participants tx)) w0 = (rs, w1) /\
     dtx_participants tx' = zip_with after_rollback (dtx_participants tx) rs /\
     write_log "rollback" "RolledBack" tx' w1 = (tt, w')).
Proof.
  intros Hr. unfold rollback in Hr.
  destruct (dtx_state tx) eqn:Hst.
  5, 7: left; unfold eret in Hr; simplify_eq; rewrite ?Hst; split; [set_solver|done].
  all: right; split; [set_solver|]; cbn in Hr; run_log Hr; rename w0 into wl;
    unfold ebind at 1 in Hr; rewrite rollback_loop_spec in Hr;
    unfold rollback_spec, ebind at 1 in Hr;
    destruct (run_best (rollbacks (dtx_participants tx)) wl) as [rs w1] eqn:Hrs;
    cbn in Hr; run_log Hr; unfold eret in Hr; simplify_eq; eauto 10.
Qed.

Lemma rollback_inv tx w r tx' w' :
  tx_inv tx -> rollback tx w = ((r, tx'), w') -> tx_inv tx'.
Proof.
  intros Hinv [(_ & _ & -> & _)|(_ & _ & Hst & w0 & rs & w1 & _ & Hrs & Hps & _)]%rollback_state; [done|].
  unfold tx_inv. rewrite Hst, Hps. pose proof (after_rollbacks (fun _ => True) _ _ _ _ Hrs) as Hu.
  eapply Forall_impl; [apply Hu, Forall_true; done|]. intros p [Hp|[_ Hp]]; [by left|by right].
Qed.

Definition manager_inv txs : Prop := map_Forall (fun _ tx => tx_inv tx) txs.

Lemma modify_entry_inv id (err : result unit string)
    (f : DistributedTransaction W -> Eff W (result unit string * DistributedTransaction W))
    txs w r txs' w' :
  (forall tx r tx' w', tx_inv tx -> f tx w = ((r, tx'), w') -> tx_inv tx') ->
  manager_inv txs -> modify_entry id err f txs w = ((r, txs'), w') -> manager_inv txs'.
Proof.
  intros Hf Hinv Hm k tx Hk.
  destruct (modify_entry_lookup _ _ _ _ _ _ _ _ _ _ Hm Hk) as [?|(-> & tx0 & ? & ?)]; eauto.
Qed.

Lemma manager_step_inv c c' : manager_inv (fst c) -> manager_step c c' -> manager_inv (fst c').
Proof.
  intros Hinv Hstep.
  destruct Hstep as [id txs w r txs' Hb|id p txs w r txs' Hb|id txs w r txs' w' Hb
    |id txs w r txs' w' Hb|id txs w r txs' w' Hb]; cbn in *.
  - unfold begin in Hb. destruct (txs !! id); simplify_eq; [done|].
    by apply map_Forall_insert_2.
  - unfold manager_add_participant in Hb. destruct (txs !! id) as [tx|] eqn:Hid; simplify_eq; [|done].
    case_decide as Hd; simplify_eq; [done|].
    apply map_Forall_insert_2; [|done]. unfold tx_inv. cbn.
    by destruct (decide (dtx_state tx = Active)) as [->|].
  - eapply modify_entry_inv in Hb; eauto using prepare_inv.
  - eapply modify_entry_inv in Hb; eauto using commit_inv.
  - eapply modify_entry_inv in Hb; eauto using rollback_inv.
Qed.

(** C3. In every state a client can reach through the manager, the state of a transaction agrees with
    its participants.  Those of a [Prepared] one are prepared, of a [Committed] one committed, of a
    [RolledBack] one rolled back, each unless its own rollback callback refuses.  In a [Failed] one
    either the prepare of a participant failed, and those before it are rolled back, each unless its
    callback refuses, or the commit of one failed, those before it are committed and it and the
    rest are prepared.  None is left in [Preparing], [Committing] or [RollingBack]. *)
Theorem manager_reachable_consistent w0 txs w :
  rtc manager_step (∅, w0) (txs, w) -> manager_inv txs.
Proof.
  apply (rtc_invariant manager_step (fun c => manager_inv (fst c)) (∅, w0) (txs, w)).
  - intros c c'. apply manager_step_inv.
  - apply map_Forall_empty.
Qed.

Lemma terminal_rejects tx :
  dtx_state tx ∈ [Committed; RolledBack] ->
  (exists e, prepare tx =eff= eret (Err e, tx)) /\
  (exists e, commit tx =eff= eret (Err e, tx)) /\
  (exists e, rollback tx =eff= eret (Err e, tx)).
Proof.
  intros Hin. assert (dtx_state tx = Committed \/ dtx_state tx = RolledBack) as [Hs|Hs] by set_solver;
    unfold prepare, commit, rollback, can_commit; rewrite Hs; split_and!; eexists; reflexivity.
Qed.

Lemma modify_entry_const id k (err : result unit string)
    (f : DistributedTransaction W -> Eff W (result unit string * DistributedTransaction W))
    txs w r txs' w' tx :
  (exists e, f tx =eff= eret (Err e, tx)) -> txs !! k = Some tx ->
  modify_entry id err f txs w = ((r, txs'), w') -> txs' !! k = Some tx.
Proof.
  intros [e Hf] Hk Hm. unfold modify_entry, ebind, eret in Hm.
  destruct (txs !! id) as [tx0|] eqn:Hid; [|by simplify_eq].
  destruct (decide (id = k)) as [->|Hne].
  - simplify_eq. rewrite (Hf w) in Hm. unfold eret in Hm. simplify_eq.
    apply lookup_insert_eq.
  - destruct (f tx0 w) as [[r0 v0] w0]. simplify_eq. by rewrite lookup_insert_ne.
Qed.

(** A decision is final.  No manager call changes a transaction that is
    [Committed] or [RolledBack]. *)
Theorem terminal_absorbing txs w txs' w' id tx :
  manager_step (txs, w) (txs', w') ->
  txs !! id = Some tx -> dtx_state tx ∈ [Committed; RolledBack] ->
  txs' !! id = Some tx.
Proof.
  intros Hstep Hid Hst. destruct (terminal_rejects tx Hst) as (Hp & Hc & Hr).
  inversion Hstep as [k ? ? r ? Hb|k p ? ? r ? Hb|k ? ? r ? ? Hb|k ? ? r ? ? Hb|k ? ? r ? ? Hb]; subst.
  - unfold begin in Hb. destruct (txs !! k) eqn:Hk; simplify_eq; [done|].
    rewrite lookup_insert_ne; congruence.
  - unfold manager_add_participant in Hb.
    destruct (txs !! k) as [tx0|] eqn:Hk; [case_decide|]; simplify_eq; [done| |done].
    rewrite lookup_insert_ne; [done|]. intros ->. simplify_eq.
    destruct (decide (dtx_state tx = Active)) as [Ha|]; [|done]. rewrite Ha in Hst. set_solver.
  - eapply modify_entry_const in Hb; eauto.
  - eapply modify_entry_const in Hb; eauto.
  - eapply modify_entry_const in Hb; eauto.
Qed.

(** Recovery after a failed phase two.  When a commit callback fails at
    participant [n], the transaction is left [Failed] and [rollback] is accepted:
    it runs the rollback callback of every participant, the [n] committed ones
    included, so committed work is undone only if those callbacks can undo it. *)
Theorem rollback_after_failed_commit tx w r tx1 w1 r2 tx2 w2 :
  committable tx ->
  commit tx w = ((r, tx1), w1) -> is_ok r = false ->
  rollback tx1 w1 = ((r2, tx2), w2) ->
  exists n, n < length (dtx_participants tx) /\
    Forall (fun p => p_state p = PCommitted) (take n (dtx_participants tx1)) /\
    r2 = Ok tt /\ dtx_state tx2 = RolledBack /\
    exists wa rs wb,
      write_log "rollback" "RollingBack" (set_dtx_state RollingBack tx1) w1 = (tt, wa) /\
      run_best (rollbacks (dtx_participants tx)) wa = (rs, wb) /\
      dtx_participants tx2 = zip_with after_rollback (dtx_participants tx1) rs.
Proof.
  intros Hcan%can_commit_true Hc Hok Hr.
  destruct (commit_admitted _ _ _ _ _ Hcan Hc) as (w0 & n & oe & wc & _ & Hrun & Hps & _ & Hcase).
  destruct oe as [e|]; [|destruct Hcase as (_ & -> & _); done].
  destruct Hcase as (Hn & Hst & _). exists n. split; [done|].
  destruct (rollback_state _ _ _ _ _ Hr) as [[Hin _]|(_ & -> & -> & wa & rs & wb & ? & Hrs & ? & _)].
  { rewrite Hst in Hin. set_solver. }
  assert (rollbacks (dtx_participants tx1) = rollbacks (dtx_participants tx)) as Hrb.
  { rewrite Hps. unfold rollbacks. rewrite fmap_app, <- list_fmap_compose.
    rewrite <- (take_drop n (dtx_participants tx)) at 3. rewrite fmap_app. done. }
  split_and!; [|done|done|].
  - rewrite Hps, take_app_le.
    + apply Forall_take, Forall_set_p_state.
    + rewrite length_fmap, length_take. lia.
  - rewrite Hrb in Hrs. eauto 10.
Qed.
End Invariant.

(** ** The recovery log *)

Section LogRecovery.
Implicit Types (e : TransactionLogEntry) (logs : list TransactionLogEntry).

Lemma mem_latest_reverse_cons e logs :
  mem_latest (reverse (e :: logs)) = <[le_tx_id e := e]> (mem_latest (reverse logs)).
Proof. unfold mem_latest. by rewrite reverse_cons, foldl_app. Qed.

Lemma mem_latest_append e logs :
  mem_latest (mem_append e logs) = <[le_tx_id e := e]> (mem_latest logs).
Proof. unfold mem_latest, mem_append. by rewrite foldl_app. Qed.

Lemma mem_latest_finalize tx_id state logs :
  mem_latest (mem_finalize tx_id state logs) =
  alter (set_le_state state) tx_id (mem_latest logs).
Proof.
  unfold mem_finalize. rewrite <- (reverse_involutive logs) at 2.
  generalize (reverse logs). clear logs. intros logs.
  induction logs as [|e logs IH]; cbn [finalize_first]; [done|]. case_decide as Hid.
  - rewrite !mem_latest_reverse_cons. subst. cbn. by rewrite alter_insert_eq.
  - rewrite !mem_latest_reverse_cons, IH. by rewrite alter_insert_ne.
Qed.

Lemma mem_latest_key logs k e : mem_latest logs !! k = Some e -> le_tx_id e = k.
Proof.
  rewrite <- (reverse_involutive logs). generalize (reverse logs). clear logs. intros logs.
  induction logs as [|e' logs IH]; [done|].
  rewrite mem_latest_reverse_cons, lookup_insert. case_decide; naive_solver.
Qed.

Lemma elem_of_pending e logs :
  e ∈ mem_read_pending logs <->
  mem_latest logs !! le_tx_id e = Some e /\ le_state e ∉ TERMINAL.
Proof.
  unfold mem_read_pending. rewrite list_elem_of_filter, list_elem_of_fmap. split.
  - intros [Hst ([k e'] & -> & Hk%elem_of_map_to_list)]. cbn in *.
    by rewrite (mem_latest_key _ _ _ Hk).
  - intros [Hk Hst]. split; [done|]. exists (le_tx_id e, e).
    split; [done|]. by apply elem_of_map_to_list.
Qed.

(** Writing a terminal state back resolves exactly one transaction.  After the
    in-memory [finalize], and after the trait's default one (an appended terminal
    entry), [read_pending] no longer returns the transaction and returns every
    other pending entry unchanged. *)
Theorem finalize_resolves tx_id state logs e0 :
  state ∈ TERMINAL -> le_tx_id e0 = tx_id -> le_state e0 = state ->
  forall e,
    (e ∈ mem_read_pending (mem_finalize tx_id state logs) <->
       e ∈ mem_read_pending logs /\ le_tx_id e <> tx_id) /\
    (e ∈ mem_read_pending (mem_append e0 logs) <->
       e ∈ mem_read_pending logs /\ le_tx_id e <> tx_id).
Proof.
  intros Hst Hid0 Hst0 e. rewrite !elem_of_pending, mem_latest_finalize, mem_latest_append.
  subst. destruct (decide (le_tx_id e = le_tx_id e0)) as [Heq|Hne].
  - rewrite <- Heq, lookup_alter_eq, lookup_insert_eq. split; split; [|naive_solver| |naive_solver].
    + intros [He Hn]. destruct (mem_latest logs !! le_tx_id e) as [e1|]; cbn in He; [|done].
      by simplify_eq.
    + intros [He Hn]. by simplify_eq.
  - rewrite lookup_alter_ne, lookup_insert_ne by done. naive_solver.
Qed.
End LogRecovery.

(** * Closed instances *)

Section Instances.

(** Two resources; the prepare (or the commit) of the second fails. *)
Definition sim_participant (id : string) (rp rc : result unit string) :
    TransactionParticipant SimWorld :=
  with_rollback (sim_call ("rollback " +:+ id) (Ok tt))
    (with_commit (sim_call ("commit " +:+ id) rc)
      (with_prepare (sim_call ("prepare " +:+ id) rp) (participant_new id))).

Definition tx_bad_prepare : DistributedTransaction SimWorld :=
  add_participant (sim_participant "b" (Err "disk full") (Ok tt))
    (add_participant (sim_participant "a" (Ok tt) (Ok tt)) (dtx_new "t1")).

Definition tx_bad_commit : DistributedTransaction SimWorld :=
  set_dtx_state Prepared
    (add_participant (sim_participant "b" (Ok tt) (Err "lost"))
      (add_participant (sim_participant "a" (Ok tt) (Ok tt)) (dtx_new "t1"))).

Lemma prepare_two_phase_witness :
  exists n e w1, n < 2 /\
    run_seq (prepares (dtx_participants tx_bad_prepare)) sim0 = ((n, Some e), w1).
Proof.
  destruct (prepare_two_phase tx_bad_prepare sim0 _ _ _ eq_refl)
    as [[Ha _]|(_ & w0 & n & oe & w1 & Hw & Hrun & Hcase)]; [by destruct Ha|].
  cbn in Hw. unfold eret in Hw. simplify_eq. destruct oe as [e|].
  - destruct Hcase as [Hn _]. eauto 10.
  - vm_compute in Hrun. discriminate.
Defined.

Lemma commit_phase_two_witness :
  let '((r, tx'), w') := commit tx_bad_commit sim0 in
  committable tx_bad_commit /\ is_ok r = false /\ dtx_state tx' = Failed /\
  (p_state <$> dtx_participants tx') = [PCommitted; PActive].
Proof.
  destruct (commit_phase_two tx_bad_commit sim0 _ _ _ eq_refl) as [[Hc _]|[Hc _]];
    [by destruct Hc; left|]. split; [exact Hc|]. vm_compute. auto.
Defined.

(** A transaction whose second prepare fails, before and after it is rolled back. *)
Lemma manager_reachable_consistent_witness :
  let txs0 := {["t1" := tx_bad_prepare]} : gmap string (DistributedTransaction SimWorld) in
  let '((_, txs1), w1) := manager_prepare "t1" txs0 sim0 in
  let '((_, txs2), _) := manager_rollback "t1" txs1 w1 in
  manager_inv txs1 /\ manager_inv txs2 /\
  manager_get "t1" txs1 = Some Failed /\ participant_states "t1" txs1 = Some [PRolledBack; PFailed] /\
  manager_get "t1" txs2 = Some RolledBack /\ participant_states "t1" txs2 = Some [PRolledBack; PRolledBack].
Proof.
  intros txs0. destruct (manager_prepare "t1" txs0 sim0) as [[r1 txs1] w1] eqn:E1.
  destruct (manager_rollback "t1" txs1 w1) as [[r2 txs2] w2] eqn:E2.
  assert (H0 : rtc manager_step (∅, sim0) (txs0, sim0)).
  { eapply rtc_l; [by eapply (step_begin "t1")|].
    eapply rtc_l; [by eapply (step_add "t1" (sim_participant "a" (Ok tt) (Ok tt)))|].
    eapply rtc_l; [by eapply (step_add "t1" (sim_participant "b" (Err "disk full") (Ok tt)))|]. apply rtc_refl. }
  assert (H1 : rtc manager_step (∅, sim0) (txs1, w1)) by (eapply rtc_r; [exact H0|by eapply step_prepare]).
  assert (H2 : rtc manager_step (∅, sim0) (txs2, w2)) by (eapply rtc_r; [exact H1|by eapply step_rollback]).
  split; [exact (manager_reachable_consistent _ _ _ H1)|]. split; [exact (manager_reachable_consistent _ _ _ H2)|].
  vm_compute in E1. injection E1 as <- <- <-. vm_compute in E2. injection E2 as <- <- <-. vm_compute. done.
Defined.

Lemma terminal_absorbing_witness :
  let txs : gmap string (DistributedTransaction SimWorld) :=
    {["t1" := set_dtx_state Committed tx_bad_commit]} in
  (snd (fst (manager_rollback "t1" txs sim0))) !! "t1" =
  Some (set_dtx_state Committed tx_bad_commit).
Proof.
  intros txs. apply (terminal_absorbing txs sim0 _ sim0 "t1").
  - eapply (step_rollback "t1" txs sim0). reflexivity.
  - reflexivity.
  - apply list_elem_of_here.
Defined.

Lemma rollback_after_failed_commit_witness :
  let '((_, tx1), w1) := commit tx_bad_commit sim0 in
  let '((_, tx2), w2) := rollback tx1 w1 in
  dtx_state tx2 = RolledBack /\
  sim_trace w2 = ["commit a"; "commit b"; "rollback a"; "rollback b"].
Proof.
  destruct (rollback_after_failed_commit tx_bad_commit sim0 _ _ _ _ _ _
    (or_introl eq_refl) eq_refl eq_refl eq_refl) as (n & Hn & _ & _ & Hst & _).
  split; [exact Hst | reflexivity].
Defined.

Lemma finalize_resolves_witness :
  let e := mkLogEntry "t1" "Prepared" ["a"] "0" "prepare" in
  e ∉ mem_read_pending (mem_finalize "t1" "Committed" [e]).
Proof.
  intros e Hin.
  apply (finalize_resolves "t1" "Committed" [e] (mkLogEntry "t1" "Committed" [] "1" "recovery_finalize"))
    in Hin; [by destruct Hin as [_ []] | apply list_elem_of_here | done | done].
Defined.
End Instances.
