(* ===== verification/CrossShard.v ===== *)
(** Cross-shard transactions: [packages/sz-orm-dtx/src/cross_shard.rs], a client of
    the two-phase coordinator of [Dtx]. *)

From S2P Require Import Prelude Dtx.
Local Open Scope eff_scope.

Record ShardOperation (W : Type) : Type := mkShardOp {
  shard_id : string;
  op_name : string;
  op_prepare : option (Callback W);
  op_commit : option (Callback W);
  op_rollback : option (Callback W);
}.
Arguments mkShardOp {W}.
Arguments shard_id {W}.
Arguments op_name {W}.
Arguments op_prepare {W}.
Arguments op_commit {W}.
Arguments op_rollback {W}.

Inductive CrossShardError : Type :=
| NoOperations
| NotPrepared
| PrepareFailed (e : string)
| CommitFailed (e : string)
| RollbackFailed (e : string).

Record CrossShardCoordinator (W : Type) : Type := mkCrossShard {
  cs_tx_id : string;
  operations : list (ShardOperation W);
  cs_tx : option (DistributedTransaction W);
}.
Arguments mkCrossShard {W}.
Arguments cs_tx_id {W}.
Arguments operations {W}.
Arguments cs_tx {W}.

Section CrossShard.
Context {W : Type} `{Clock W}.
Abbreviation ops := (list (ShardOperation W)).

Definition shard_operation_new (shard name : string) : ShardOperation W :=
  mkShardOp shard name None None None.
Definition op_with_prepare (f : Callback W) (o : ShardOperation W) : ShardOperation W :=
  mkShardOp (shard_id o) (op_name o) (Some f) (op_commit o) (op_rollback o).
Definition op_with_commit (f : Callback W) (o : ShardOperation W) : ShardOperation W :=
  mkShardOp (shard_id o) (op_name o) (op_prepare o) (Some f) (op_rollback o).
Definition op_with_rollback (f : Callback W) (o : ShardOperation W) : ShardOperation W :=
  mkShardOp (shard_id o) (op_name o) (op_prepare o) (op_commit o) (Some f).

Definition cross_shard_new (tx_id : string) : CrossShardCoordinator W :=
  mkCrossShard tx_id [] None.

Definition add_shard_operation (op : ShardOperation W) (c : CrossShardCoordinator W) :
    CrossShardCoordinator W :=
  mkCrossShard (cs_tx_id c) (operations c ++ [op]) (cs_tx c).

Definition add_operation (shard : string) (prepare commit rollback : Callback W)
    (c : CrossShardCoordinator W) : CrossShardCoordinator W :=
  add_shard_operation
    (op_with_rollback rollback (op_with_commit commit
      (op_with_prepare prepare (shard_operation_new shard shard)))) c.

(** [grouped.entry(op.shard_id.clone()).or_default().push(op)] *)
Definition push_group (op : ShardOperation W) (grouped : gmap string ops) : gmap string ops :=
  <[shard_id op := default [] (grouped !! shard_id op) ++ [op]]> grouped.

Definition operations_by_shard (c : CrossShardCoordinator W) : gmap string ops :=
  foldl (fun g op => push_group op g) ∅ (operations c).

Definition operation_count (c : CrossShardCoordinator W) : nat := length (operations c).

(** [Vec::dedup]: drops consecutive repetitions. *)
Fixpoint dedup (l : list string) : list string :=
  match l with
  | x :: ((y :: _) as l') => if decide (x = y) then dedup l' else x :: dedup l'
  | _ => l
  end.

Definition shard_count (c : CrossShardCoordinator W) : nat :=
  length (dedup (merge_sort String.le (shard_id <$> operations c))).

(** One turn of the grouping loop, over [(shard_order, grouped)]. *)
Definition group_step (st : list string * gmap string ops) (op : ShardOperation W) :
    list string * gmap string ops :=
  let '(shard_order, grouped) := st in
  (match grouped !! shard_id op with
   | Some _ => shard_order
   | None => shard_order ++ [shard_id op]
   end, push_group op grouped).

Definition group_ops (os : ops) : list string * gmap string ops :=
  foldl group_step ([], ∅) os.

(** [format!("rollback 失败 {}/{}: {}", fail_count, total, e)] *)
Definition rollback_report (rs : list (result unit string)) : result unit string :=
  let errs := omap (fun r => match r with Err e => Some e | Ok _ => None end) rs in
  match errs with
  | [] => Ok tt
  | e :: _ =>
      Err ("rollback 失败 " +:+ pretty (length errs) +:+ "/" +:+ pretty (length rs)
           +:+ ": " +:+ e)
  end.

Definition build_participant (shard : string) (os : ops) : TransactionParticipant W :=
  with_rollback (let* rs := run_best (omap op_rollback os) in eret (rollback_report rs))
    (with_commit (seq_callback (omap op_commit os))
      (with_prepare (seq_callback (omap op_prepare os)) (participant_new shard))).

(** The transaction both entry points build from the drained operations. *)
Definition build_tx (c : CrossShardCoordinator W) : DistributedTransaction W :=
  let '(shard_order, grouped) := group_ops (operations c) in
  fst (foldl
    (fun '(tx, grouped) s =>
       (add_participant (build_participant s (default [] (grouped !! s))) tx,
        delete s grouped))
    (dtx_new (cs_tx_id c), grouped) shard_order).

Definition execute (c : CrossShardCoordinator W) :
    Eff W (result unit CrossShardError * CrossShardCoordinator W) :=
  match operations c with
  | [] => eret (Err NoOperations, c)
  | _ =>
      let* (prepare_result, tx) := prepare (build_tx c) in
      match prepare_result with
      | Err e => eret (Err (PrepareFailed e), mkCrossShard (cs_tx_id c) [] (Some tx))
      | Ok _ =>
          let* (commit_result, tx) := commit tx in
          match commit_result with
          | Err e => eret (Err (CommitFailed e), mkCrossShard (cs_tx_id c) [] (Some tx))
          | Ok _ => eret (Ok tt, mkCrossShard (cs_tx_id c) [] (Some tx))
          end
      end
  end.

Definition prepare_only (c : CrossShardCoordinator W) :
    Eff W (result unit CrossShardError * CrossShardCoordinator W) :=
  match operations c with
  | [] => eret (Err NoOperations, c)
  | _ =>
      let* (r, tx) := prepare (build_tx c) in
      eret (map_err PrepareFailed r, mkCrossShard (cs_tx_id c) [] (Some tx))
  end.

Definition cs_commit (c : CrossShardCoordinator W) :
    Eff W (result unit CrossShardError * CrossShardCoordinator W) :=
  match cs_tx c with
  | None => eret (Err NotPrepared, c)
  | Some tx =>
      let* (r, tx) := commit tx in
      eret (map_err CommitFailed r, mkCrossShard (cs_tx_id c) (operations c) (Some tx))
  end.

Definition cs_rollback (c : CrossShardCoordinator W) :
    Eff W (result unit CrossShardError * CrossShardCoordinator W) :=
  match cs_tx c with
  | None => eret (Err NotPrepared, c)
  | Some tx =>
      let* (r, tx) := rollback tx in
      eret (map_err RollbackFailed r, mkCrossShard (cs_tx_id c) (operations c) (Some tx))
  end.

Definition cs_state (c : CrossShardCoordinator W) : option TransactionState :=
  dtx_state <$> cs_tx c.

Definition cs_participant_states (c : CrossShardCoordinator W) : option (list ParticipantState) :=
  (fun t => p_state <$> dtx_participants t) <$> cs_tx c.

Definition participant_ids (c : CrossShardCoordinator W) : option (list string) :=
  (fun t => resource_id <$> dtx_participants t) <$> cs_tx c.
End CrossShard.

(** * Grouping *)

Section Grouping.
Context {W : Type} `{Clock W}.
Abbreviation ops := (list (ShardOperation W)).

Lemma dedup_cons2 x y l :
  dedup (x :: y :: l) = if decide (x = y) then dedup (y :: l) else x :: dedup (y :: l).
Proof. done. Qed.

Lemma elem_of_dedup (l : list string) x : x ∈ dedup l <-> x ∈ l.
Proof.
  induction l as [|y [|z l] IH]; [done..|]. rewrite dedup_cons2. case_decide; subst; set_solver.
Qed.

Lemma dedup_NoDup (l : list string) : StronglySorted String.le l -> NoDup (dedup l).
Proof.
  induction l as [|y [|z l] IH]; intros Hs.
  - constructor.
  - apply NoDup_singleton.
  - rewrite dedup_cons2. apply StronglySorted_inv in Hs as [Hs Hy]. case_decide as Hyz; [auto|].
    constructor; [|auto]. rewrite elem_of_dedup. intros Hin.
    apply StronglySorted_inv in Hs as [_ Hz]. rewrite Forall_forall in Hy, Hz.
    apply Hyz, (anti_symm String.le); [apply Hy; left|].
    apply elem_of_cons in Hin as [->|Hin]; [done|]. by apply Hz.
Qed.

Definition on_shard (s : string) (os : ops) : ops := filter (fun o => shard_id o = s) os.

Definition regroup (order : list string) (os : ops) : list ops :=
  (fun s => on_shard s os) <$> order.

Lemma on_shard_app s (os os' : ops) : on_shard s (os ++ os') = on_shard s os ++ on_shard s os'.
Proof. apply filter_app. Qed.

Lemma group_ops_snoc (os : ops) o : group_ops (os ++ [o]) = group_step (group_ops os) o.
Proof. unfold group_ops. by rewrite foldl_app. Qed.

Lemma group_ops_inv (os : ops) :
  let '(order, grouped) := group_ops os in
  NoDup order /\ (forall s, s ∈ order <-> is_Some (grouped !! s)) /\
  (forall s, default [] (grouped !! s) = on_shard s os) /\
  (forall s, is_Some (grouped !! s) <-> s ∈ shard_id <$> os).
Proof.
  induction os as [|o os IH] using rev_ind.
  { cbn. split_and!; [constructor| |done|]; intros s; rewrite lookup_empty, is_Some_alt; set_solver. }
  rewrite group_ops_snoc. destruct (group_ops os) as [order grouped]. cbn.
  destruct IH as (Hnd & Hord & Hgr & Hdom). unfold push_group.
  assert (forall s, is_Some (<[shard_id o := default [] (grouped !! shard_id o) ++ [o]]> grouped !! s)
            <-> s = shard_id o \/ is_Some (grouped !! s)) as Hsome.
  { intros s. rewrite lookup_insert_is_Some'. naive_solver. }
  split_and!.
  - case_match eqn:Ho; [done|]. apply NoDup_app. split_and!; [done| |apply NoDup_singleton].
    intros s Hs. rewrite list_elem_of_singleton. intros ->. apply Hord in Hs.
    rewrite Ho in Hs. by destruct Hs.
  - intros s. rewrite Hsome, <- Hord. case_match eqn:Ho; [|set_solver].
    split; [by right|]. intros [->|?]; [|done]. apply Hord. by rewrite Ho.
  - intros s. rewrite on_shard_app, <- Hgr, lookup_insert. unfold on_shard.
    rewrite filter_cons, filter_nil. repeat case_decide; subst; cbn; [done|by rewrite app_nil_r..].
  - intros s. rewrite Hsome, Hdom, fmap_app. set_solver.
Qed.

(** Collecting the operations shard by shard loses none and invents none. *)
Lemma regroup_permutation (order : list string) (os : ops) :
  NoDup order -> (forall o, o ∈ os -> shard_id o ∈ order) -> concat (regroup order os) ≡ₚ os.
Proof.
  unfold regroup. revert os. induction order as [|s order IH]; intros os Hnd Hin; cbn.
  - destruct os as [|o os]; [done|]. exfalso. specialize (Hin o). set_solver.
  - apply NoDup_cons in Hnd as [Hs Hnd].
    set (os' := filter (fun o => shard_id o <> s) os).
    assert ((fun s0 => on_shard s0 os) <$> order = (fun s0 => on_shard s0 os') <$> order) as ->.
    { apply list_fmap_ext. intros i t Ht. unfold on_shard, os'.
      rewrite list_filter_filter. apply list_filter_iff. intros o.
      apply list_elem_of_lookup_2 in Ht. assert (t <> s) by (intros ->; done). naive_solver. }
    rewrite IH; [|done|].
    + unfold on_shard, os'. apply filter_app_complement.
    + intros o Ho. unfold os' in Ho. apply list_elem_of_filter in Ho as [Hne Ho].
      specialize (Hin o Ho). set_solver.
Qed.

Lemma build_loop_spec (order : list string) (grouped : gmap string ops)
    (tx : DistributedTransaction W) :
  NoDup order ->
  fst (foldl
    (fun '(tx, grouped) s =>
       (add_participant (build_participant s (default [] (grouped !! s))) tx,
        delete s grouped)) (tx, grouped) order) =
  set_dtx_participants (dtx_participants tx ++
    ((fun s => build_participant s (default [] (grouped !! s))) <$> order)) tx.
Proof.
  revert tx grouped. induction order as [|s order IH]; intros tx grouped Hnd; cbn.
  { rewrite app_nil_r. by destruct tx. }
  apply NoDup_cons in Hnd as [Hs Hnd]. rewrite IH by done.
  unfold set_dtx_participants. cbn. f_equal. rewrite <- app_assoc. cbn.
  do 2 f_equal. apply list_fmap_ext. intros i t Ht%list_elem_of_lookup_2.
  rewrite lookup_delete_ne; [done|]. by intros ->.
Qed.

Lemma build_tx_spec (c : CrossShardCoordinator W) :
  build_tx c = mkDtx (cs_tx_id c) Active
    ((fun s => build_participant s (on_shard s (operations c)))
       <$> fst (group_ops (operations c))) None.
Proof.
  unfold build_tx. pose proof (group_ops_inv (operations c)) as Hinv.
  destruct (group_ops (operations c)) as [order grouped]. destruct Hinv as (Hnd & _ & Hgr & _).
  rewrite build_loop_spec by done. unfold set_dtx_participants. cbn. f_equal.
  apply list_fmap_ext. intros i s _. by rewrite Hgr.
Qed.

(** Without a log store nothing is written. *)
Lemma write_log_none action state (tx : DistributedTransaction W) w :
  log_store tx = None -> write_log action state tx w = (tt, w).
Proof. unfold write_log. by intros ->. Qed.

(** The callbacks of a kind, in the order the groups run them. *)
Definition grouped_callbacks (f : ShardOperation W -> option (Callback W))
    (gs : list ops) : list (Callback W) := omap f (concat gs).

Lemma grouped_callbacks_concat f (gs : list ops) :
  grouped_callbacks f gs = concat ((fun g : ops => omap f g) <$> gs).
Proof.
  unfold grouped_callbacks. induction gs as [|g gs IH]; [done|]. cbn [concat fmap list_fmap].
  by rewrite omap_app, IH.
Qed.

(** Running the participants of the groups is running their operations. *)
Lemma prepares_groups (c : CrossShardCoordinator W) :
  first_error (prepares (dtx_participants (build_tx c))) =eff=
  first_error (grouped_callbacks op_prepare
    (regroup (fst (group_ops (operations c))) (operations c))).
Proof.
  rewrite build_tx_spec, grouped_callbacks_concat, <- first_error_groups.
  unfold prepares, regroup. cbn [dtx_participants]. by rewrite <- !list_fmap_compose.
Qed.

Lemma commits_groups (c : CrossShardCoordinator W) :
  first_error (commits (dtx_participants (build_tx c))) =eff=
  first_error (grouped_callbacks op_commit
    (regroup (fst (group_ops (operations c))) (operations c))).
Proof.
  rewrite build_tx_spec, grouped_callbacks_concat, <- first_error_groups.
  unfold commits, regroup. cbn [dtx_participants]. by rewrite <- !list_fmap_compose.
Qed.

Lemma commits_set_state s (ps : list (TransactionParticipant W)) :
  commits (set_p_state s <$> ps) = commits ps.
Proof. unfold commits. by rewrite <- list_fmap_compose. Qed.

Lemma p_states_set s (ps : list (TransactionParticipant W)) :
  p_state <$> (set_p_state s <$> ps) = replicate (length ps) s.
Proof. induction ps; cbn; congruence. Qed.

(** A group is prepared, committed and rolled back by the callbacks of its operations, in order; its
    prepare and its commit stop at the first error, its rollback goes on. *)
Definition group_prepare (g : ops) : Callback W := seq_callback (omap op_prepare g).
Definition group_commit (g : ops) : Callback W := seq_callback (omap op_commit g).
Definition group_rollback (g : ops) : Callback W := let* rs := run_best (omap op_rollback g) in eret (rollback_report rs).

(** The participants of [build_tx], as groups. *)
Lemma group_callbacks {A} (f : TransactionParticipant W -> A) (g : ops -> A) (c : CrossShardCoordinator W) :
  (forall s os, f (build_participant s os) = g os) ->
  f <$> dtx_participants (build_tx c) = g <$> regroup (fst (group_ops (operations c))) (operations c).
Proof.
  intros Hf. rewrite build_tx_spec. unfold regroup. cbn [dtx_participants]. rewrite <- !list_fmap_compose.
  apply list_fmap_ext. intros i s _. apply Hf.
Qed.

Lemma failed_prepare_states n rs (ps : list (TransactionParticipant W)) :
  length rs = n -> n < length ps -> p_state <$> ps = (fun _ => PActive) <$> ps ->
  p_state <$> failed_prepare n rs ps =
    ((fun r => if is_ok r then PRolledBack else PPrepared) <$> rs) ++ PFailed :: replicate (length ps - S n) PActive.
Proof.
  revert ps n. induction rs as [|r rs IH]; intros [|p ps] n; cbn; intros <- Hn Hps; try lia; injection Hps as Hp Hps.
  - change (failed_prepare 0 [] (p :: ps)) with (participant_fail p :: drop 0 ps). rewrite drop_0, Nat.sub_0_r, fmap_cons.
    f_equal. rewrite Hps. by apply const_fmap.
  - change (failed_prepare (S (length rs)) (r :: rs) (p :: ps)) with (after_rollback (set_p_state PPrepared p) r :: failed_prepare (length rs) rs ps).
    rewrite !fmap_cons. cbn [app]. f_equal; [by destruct r|]. apply (IH ps); [done|lia|done].
Qed.

(** What [execute] does, the groups being those of [group_ops]: [n] groups are prepared before the
    first that fails, and exactly these are rolled back; [k] are committed before the first that
    fails. *)
Definition execute_outcome (gs : list ops) (w : W) (r : result unit CrossShardError)
    (c' : CrossShardCoordinator W) (w' : W) : Prop :=
  exists n oe w1, run_seq (group_prepare <$> gs) w = ((n, oe), w1) /\
    first_error (grouped_callbacks op_prepare gs) w = (oe, w1) /\
    match oe, r with
    | Some _, Err (PrepareFailed _) =>
        cs_state c' = Some Failed /\
        exists rs, run_best (group_rollback <$> take n gs) w1 = (rs, w') /\
          cs_participant_states c' =
            Some (((fun r => if is_ok r then PRolledBack else PPrepared) <$> rs) ++ PFailed :: replicate (length gs - S n) PActive)
    | None, Err (CommitFailed _) =>
        cs_state c' = Some Failed /\
        exists k e, run_seq (group_commit <$> gs) w1 = ((k, Some e), w') /\
          first_error (grouped_callbacks op_commit gs) w1 = (Some e, w') /\
          cs_participant_states c' = Some (replicate k PCommitted ++ replicate (length gs - k) PPrepared)
    | None, Ok _ =>
        first_error (grouped_callbacks op_commit gs) w1 = (None, w') /\
        cs_state c' = Some Committed /\
        cs_participant_states c' = Some ((fun _ => PCommitted) <$> gs)
    | _, _ => False
    end.

(** C8. The cross-shard protocol.  On a coordinator with operations [execute] drains
    them and runs the operations' prepare callbacks shard group by shard group,
    each operation's own callback once, until one fails.  No commit callback runs
    unless every prepare succeeded.  A failing prepare rolls back exactly the shard
    groups whose prepares had all succeeded, in order: these end rolled back, or prepared where the
    rollback fails, the group at fault failed and the later ones untouched.  A failing commit
    leaves the transaction [Failed], the groups before it committed and the rest prepared, with
    the later commits not run; otherwise every commit callback ran, in group order, and every
    shard is committed. *)
Theorem execute_protocol (c : CrossShardCoordinator W) w r c' w' :
  operations c <> [] -> execute c w = ((r, c'), w') ->
  operations c' = [] /\
  execute_outcome (regroup (fst (group_ops (operations c))) (operations c)) w r c' w'.
Proof.
  intros Hne He. unfold execute in He. destruct (operations c) as [|o os] eqn:Hops; [done|].
  rewrite <- Hops in *. clear Hne. unfold ebind at 1 in He.
  destruct (prepare (build_tx c) w) as [[rp tx1] w1] eqn:Hp.
  assert (dtx_state (build_tx c) = Active) as Ha by by rewrite build_tx_spec.
  assert (log_store (build_tx c) = None) as Hnl by by rewrite build_tx_spec.
  pose proof (prepares_groups c w) as Hpg. pose proof (commits_groups c) as Hcg.
  pose proof (group_callbacks (fun p => call_opt (prepare_fn p)) group_prepare c ltac:(done)) as Hgp.
  pose proof (group_callbacks (fun p => call_opt (commit_fn p)) group_commit c ltac:(done)) as Hgc.
  pose proof (group_callbacks (fun p => call_opt (rollback_fn p)) group_rollback c ltac:(done)) as Hgr.
  pose proof (group_callbacks p_state (fun _ => PActive) c ltac:(done)) as Hst0.
  set (gs := regroup _ _) in *. pose proof (f_equal length Hst0) as Hlen. rewrite !length_fmap in Hlen.
  destruct (prepare_active _ _ _ _ _ Ha Hp) as (w0 & n & oe & wp & Hl & Hrun & Hcase).
  rewrite write_log_none in Hl by done. simplify_eq.
  rewrite (run_seq_first_error _ _ _ _ _ Hrun) in Hpg. unfold prepares in Hrun. rewrite Hgp in Hrun.
  unfold execute_outcome. destruct oe as [e|].
  - destruct Hcase as (Hn & -> & rs & w2 & Hrs & -> & Hl).
    rewrite write_log_none in Hl by done. unfold eret in He. simplify_eq.
    split; [done|]. exists n, (Some e), wp. do 2 (split; [done|]). split; [done|].
    pose proof (run_best_length _ _ _ _ Hrs) as Hrl. unfold rollbacks in Hrs, Hrl. rewrite fmap_take, Hgr, <- fmap_take in Hrs.
    exists rs. split; [done|]. rewrite length_fmap, length_take, Nat.min_l in Hrl by lia.
    cbn [cs_participant_states cs_tx fmap option_fmap option_map dtx_participants set_dtx_state set_dtx_participants].
    rewrite failed_prepare_states, Hlen; [done|done|lia|]. rewrite Hst0, !(const_fmap _ _ PActive) by done. by rewrite Hlen.
  - destruct Hcase as (-> & -> & -> & Hl). rewrite write_log_none in Hl by done. simplify_eq.
    unfold ebind at 1 in He.
    destruct (commit _ w1) as [[rc tx2] w2] eqn:Hc in He.
    apply commit_admitted in Hc; [|done].
    destruct Hc as (w0' & n & oe & wc & Hl & Hrunc & Hps & Hnl2 & Hcase).
    rewrite write_log_none in Hl by done. simplify_eq. cbn [dtx_participants set_dtx_state set_dtx_participants] in Hrunc, Hps.
    rewrite commits_set_state in Hrunc. specialize (Hcg w0').
    rewrite (run_seq_first_error _ _ _ _ _ Hrunc) in Hcg. unfold commits in Hrunc. rewrite Hgc in Hrunc.
    destruct oe as [e|].
    + destruct Hcase as (Hn & Hst & -> & Hl). rewrite write_log_none in Hl by by rewrite Hnl2.
      unfold eret in He. simplify_eq. split; [done|].
      eexists _, None, w0'. do 2 (split; [done|]). split; [by cbn; rewrite Hst|]. exists n, e. do 2 (split; [done|]).
      cbn [cs_participant_states cs_tx fmap option_fmap option_map]. cbn [dtx_participants set_dtx_state set_dtx_participants] in Hn. rewrite length_fmap in Hn.
      rewrite Hps, fmap_app, <- fmap_drop, !p_states_set, length_take, length_drop, length_fmap, Hlen.
      do 2 f_equal. rewrite Nat.min_l by lia. done.
    + destruct Hcase as (Hn & -> & Hst & Hl). rewrite write_log_none in Hl by by rewrite Hnl2.
      unfold eret in He. simplify_eq. split; [done|].
      eexists _, None, w0'. do 3 (split; [done|]). split; [by cbn; rewrite Hst|].
      cbn [cs_participant_states cs_tx fmap option_fmap option_map].
      rewrite Hps, firstn_all, drop_all, app_nil_r, p_states_set. f_equal.
      rewrite (const_fmap _ _ PCommitted) by done. rewrite length_fmap. by rewrite Hlen.
Qed.

(** Grouping by shard.  [execute] builds one participant per shard, in the order
    the shards were first used; the operations of a shard keep their registration
    order, every registered operation is in exactly one group, and the number of
    groups is the [shard_count] the coordinator reports. *)
Theorem group_ops_partition (c : CrossShardCoordinator W) order grouped :
  group_ops (operations c) = (order, grouped) ->
  NoDup order /\
  concat (regroup order (operations c)) ≡ₚ operations c /\
  (forall s, s ∈ order -> grouped !! s = Some (on_shard s (operations c))) /\
  length order = shard_count c /\
  resource_id <$> dtx_participants (build_tx c) = order.
Proof.
  intros Hg. pose proof (group_ops_inv (operations c)) as Hinv. pose proof (build_tx_spec c) as Hb.
  rewrite Hg in Hinv, Hb. destruct Hinv as (Hnd & Hord & Hgr & Hdom).
  assert (forall s, s ∈ order <-> s ∈ shard_id <$> operations c) as Hin.
  { intros s. by rewrite Hord, Hdom. }
  split_and!; [done| | | |].
  - apply regroup_permutation; [done|]. intros o Ho. apply Hin. by apply list_elem_of_fmap_2.
  - intros s Hs. apply Hord in Hs as [l Hl]. specialize (Hgr s). rewrite Hl in Hgr. cbn in Hgr.
    by rewrite Hl, Hgr.
  - unfold shard_count. apply Permutation_length, NoDup_Permutation; [done| |].
    + apply dedup_NoDup, StronglySorted_merge_sort; apply _.
    + intros s. by rewrite elem_of_dedup, merge_sort_Permutation, Hin.
  - rewrite Hb. cbn. rewrite <- list_fmap_compose. apply list_fmap_id.
Qed.

(** The stepwise entry points compose to [execute]. *)
Lemma execute_stepwise (c : CrossShardCoordinator W) :
  execute c =eff=
  ebind (prepare_only c) (fun '(r, c1) =>
    match r with Ok _ => cs_commit c1 | Err e => eret (Err e, c1) end).
Proof.
  intros w. unfold execute, prepare_only. destruct (operations c); [done|].
  unfold ebind, eret. destruct (prepare (build_tx c) w) as [[[u|e] tx] w1]; cbn; [|done].
  unfold cs_commit, ebind, eret. cbn. by destruct (commit tx w1) as [[[[]|e] tx2] w2].
Qed.
End Grouping.

(** * Closed instances *)

Section Instances.
Definition sim_op (shard name : string) (rp rc : result unit string) : ShardOperation SimWorld :=
  op_with_rollback (sim_call ("rollback " +:+ name) (Ok tt))
    (op_with_commit (sim_call ("commit " +:+ name) rc)
      (op_with_prepare (sim_call ("prepare " +:+ name) rp) (shard_operation_new shard name))).

(** Operations of two shards, interleaved. *)
Definition sim_shards : CrossShardCoordinator SimWorld :=
  add_shard_operation (sim_op "s1" "c" (Ok tt) (Ok tt))
    (add_shard_operation (sim_op "s2" "b" (Ok tt) (Ok tt))
      (add_shard_operation (sim_op "s1" "a" (Ok tt) (Ok tt)) (cross_shard_new "x1"))).

Lemma group_ops_partition_witness :
  fst (group_ops (operations sim_shards)) = ["s1"; "s2"] /\ shard_count sim_shards = 2.
Proof.
  pose proof (group_ops_partition sim_shards _ _ eq_refl) as (_ & _ & _ & Hlen & _).
  split; [reflexivity|]. rewrite <- Hlen. reflexivity.
Defined.

(** The prepare of the second shard fails. *)
Definition sim_failing : CrossShardCoordinator SimWorld :=
  add_shard_operation (sim_op "s1" "c" (Ok tt) (Ok tt))
    (add_shard_operation (sim_op "s2" "b" (Err "full") (Ok tt))
      (add_shard_operation (sim_op "s1" "a" (Ok tt) (Ok tt)) (cross_shard_new "x1"))).

Lemma execute_protocol_witness :
  operations (snd (fst (execute sim_shards sim0))) = [] /\
  sim_trace (snd (execute sim_shards sim0)) =
    ["prepare a"; "prepare c"; "prepare b"; "commit a"; "commit c"; "commit b"] /\
  let '((r, c'), w') := execute sim_failing sim0 in
  execute_outcome (regroup (fst (group_ops (operations sim_failing))) (operations sim_failing)) sim0 r c' w' /\
  cs_participant_states c' = Some [PRolledBack; PFailed] /\
  sim_trace w' = ["prepare a"; "prepare c"; "prepare b"; "rollback a"; "rollback c"].
Proof.
  split; [apply (execute_protocol sim_shards sim0 _ _ _ ltac:(discriminate) eq_refl)|]. split; [reflexivity|].
  destruct (execute sim_failing sim0) as [[r c'] w'] eqn:E. split.
  - apply (execute_protocol sim_failing sim0 _ _ _ ltac:(discriminate) E).
  - vm_compute in E. injection E as <- <- <-. done.
Defined.
End Instances.
