(* ===== verification/Tcc.v ===== *)
(** Try-Confirm-Cancel transactions: [packages/sz-orm-dtx/src/tcc.rs]. *)

From S2P Require Import Prelude.
Local Open Scope eff_scope.

(** * States and errors *)

Inductive TccState : Type :=
| Init | Trying | Tried | Confirming | Confirmed | Cancelling | Cancelled | Failed.

#[export] Instance TccState_eq_dec : EqDecision TccState.
Proof. solve_decision. Defined.

Definition is_terminal (s : TccState) : bool :=
  match s with Confirmed | Cancelled | Failed => true | _ => false end.

Definition can_retry_confirm (s : TccState) : bool :=
  match s with Confirming | Failed => true | _ => false end.

Definition can_retry_cancel (s : TccState) : bool :=
  match s with Cancelling | Failed => true | _ => false end.

(** [TccParticipantState] *)
Inductive TccParticipantState : Type := BInit | BTried | BConfirmed | BCancelled | BFailed.

#[export] Instance TccParticipantState_eq_dec : EqDecision TccParticipantState.
Proof. solve_decision. Defined.

Inductive TccError : Type :=
| TryFailed (resource_id reason : string) (cancelled_count : nat)
| ConfirmFailed (resource_id reason : string)
| CancelFailed (reason : string)
| InvalidState (current : TccState) (expected : string)
| ParticipantNotFound (resource_id : string)
| LockPoisoned.

(** * Branches *)

Record TccParticipant (W : Type) : Type := mkBranch {
  resource_id : string;
  b_state : TccParticipantState;
  try_fn : option (Callback W);
  confirm_fn : option (Callback W);
  cancel_fn : option (Callback W);
  try_attempts : Z;
  confirm_attempts : Z;
  cancel_attempts : Z;
  confirm_succeeded : bool;
  cancel_succeeded : bool;
}.
Arguments mkBranch {W}.
Arguments resource_id {W}.
Arguments b_state {W}.
Arguments try_fn {W}.
Arguments confirm_fn {W}.
Arguments cancel_fn {W}.
Arguments try_attempts {W}.
Arguments confirm_attempts {W}.
Arguments cancel_attempts {W}.
Arguments confirm_succeeded {W}.
Arguments cancel_succeeded {W}.

Section Branch.
Context {W : Type}.
Implicit Types p : TccParticipant W.

Definition tcc_participant_new (id : string) : TccParticipant W :=
  mkBranch id BInit None None None 0 0 0 false false.

Definition with_try (f : Callback W) p : TccParticipant W :=
  mkBranch (resource_id p) (b_state p) (Some f) (confirm_fn p) (cancel_fn p)
    (try_attempts p) (confirm_attempts p) (cancel_attempts p)
    (confirm_succeeded p) (cancel_succeeded p).

Definition with_confirm (f : Callback W) p : TccParticipant W :=
  mkBranch (resource_id p) (b_state p) (try_fn p) (Some f) (cancel_fn p)
    (try_attempts p) (confirm_attempts p) (cancel_attempts p)
    (confirm_succeeded p) (cancel_succeeded p).

Definition with_cancel (f : Callback W) p : TccParticipant W :=
  mkBranch (resource_id p) (b_state p) (try_fn p) (confirm_fn p) (Some f)
    (try_attempts p) (confirm_attempts p) (cancel_attempts p)
    (confirm_succeeded p) (cancel_succeeded p).

(** [self.state = s] *)
Definition set_b_state (s : TccParticipantState) p : TccParticipant W :=
  mkBranch (resource_id p) s (try_fn p) (confirm_fn p) (cancel_fn p)
    (try_attempts p) (confirm_attempts p) (cancel_attempts p)
    (confirm_succeeded p) (cancel_succeeded p).

(** The attempt counters are [u32]; they wrap as in a release build. *)
Definition count_try p : TccParticipant W :=
  mkBranch (resource_id p) (b_state p) (try_fn p) (confirm_fn p) (cancel_fn p)
    (wrap32 (try_attempts p + 1)) (confirm_attempts p) (cancel_attempts p)
    (confirm_succeeded p) (cancel_succeeded p).

Definition count_confirm p : TccParticipant W :=
  mkBranch (resource_id p) (b_state p) (try_fn p) (confirm_fn p) (cancel_fn p)
    (try_attempts p) (wrap32 (confirm_attempts p + 1)) (cancel_attempts p)
    (confirm_succeeded p) (cancel_succeeded p).

Definition count_cancel p : TccParticipant W :=
  mkBranch (resource_id p) (b_state p) (try_fn p) (confirm_fn p) (cancel_fn p)
    (try_attempts p) (confirm_attempts p) (wrap32 (cancel_attempts p + 1))
    (confirm_succeeded p) (cancel_succeeded p).

(** [self.state = Confirmed; self.confirm_succeeded = true] *)
Definition mark_confirmed p : TccParticipant W :=
  mkBranch (resource_id p) BConfirmed (try_fn p) (confirm_fn p) (cancel_fn p)
    (try_attempts p) (confirm_attempts p) (cancel_attempts p)
    true (cancel_succeeded p).

Definition mark_cancelled p : TccParticipant W :=
  mkBranch (resource_id p) BCancelled (try_fn p) (confirm_fn p) (cancel_fn p)
    (try_attempts p) (confirm_attempts p) (cancel_attempts p)
    (confirm_succeeded p) true.

Definition branch_try p : Eff W (result unit string * TccParticipant W) :=
  let p := count_try p in
  let* r := call_opt (try_fn p) in
  match r with
  | Err e => eret (Err e, set_b_state BFailed p)
  | Ok _ => eret (Ok tt, set_b_state BTried p)
  end.

Definition branch_confirm p : Eff W (result unit string * TccParticipant W) :=
  if confirm_succeeded p then eret (Ok tt, p) else
  let p := count_confirm p in
  let* r := call_opt (confirm_fn p) in
  match r with
  | Err e => eret (Err e, set_b_state BFailed p)
  | Ok _ => eret (Ok tt, mark_confirmed p)
  end.

Definition branch_cancel p : Eff W (result unit string * TccParticipant W) :=
  if cancel_succeeded p then eret (Ok tt, p) else
  let p := count_cancel p in
  let* r := call_opt (cancel_fn p) in
  match r with
  | Err e => eret (Err e, set_b_state BFailed p)
  | Ok _ => eret (Ok tt, mark_cancelled p)
  end.

Definition branch_fail p : TccParticipant W := set_b_state BFailed p.

Definition is_tried p : bool :=
  match b_state p with BTried | BConfirmed | BCancelled => true | _ => false end.

Definition is_confirm_completed p : bool := confirm_succeeded p.
Definition is_cancel_completed p : bool := cancel_succeeded p.
End Branch.

(** * Retry policy *)

(** The [f64] operations [delay_for] uses. *)
Class F64 := {
  f64 : Type;
  of_u64 : Z -> f64;
  fmul : f64 -> f64 -> f64;
  powi : f64 -> Z -> f64;
  fmin : f64 -> f64 -> f64;
  as_u64 : f64 -> Z;
}.

Record TccRetryPolicy `{F64} : Type := mkRetryPolicy {
  max_retries : Z;
  initial_delay_ms : Z;
  max_delay_ms : Z;
  multiplier : f64;
}.

(** [attempt as i32] *)
Definition as_i32 (n : Z) : Z := ((n + 2 ^ 31) mod 2 ^ 32 - 2 ^ 31)%Z.

(** [Duration::from_millis], in nanoseconds. *)
Definition from_millis (ms : Z) : Z := (ms * 1000000)%Z.

Definition delay_for `{F64} (policy : TccRetryPolicy) (attempt : Z) : Z :=
  if (attempt =? 0)%Z then from_millis (initial_delay_ms policy)
  else
    let delay := fmul (of_u64 (initial_delay_ms policy)) (powi (multiplier policy) (as_i32 attempt)) in
    let capped := fmin delay (of_u64 (max_delay_ms policy)) in
    from_millis (as_u64 capped).

(** [1 + self.max_retries] in [u32]. *)
Definition max_attempts `{F64} (policy : TccRetryPolicy) : Z := wrap32 (1 + max_retries policy).

Definition default_retry_policy `{F64} : TccRetryPolicy :=
  mkRetryPolicy _ 3 100 5000 (of_u64 2).

(** * Coordinator *)

Record TccCoordinator `{F64} (W : Type) : Type := mkTcc {
  tx_id : string;
  c_state : TccState;
  c_participants : list (TccParticipant W);
  retry_policy : option TccRetryPolicy;
}.
Arguments mkTcc {_ W}.
Arguments tx_id {_ W}.
Arguments c_state {_ W}.
Arguments c_participants {_ W}.
Arguments retry_policy {_ W}.

Section Coordinator.
Context `{F64} {W : Type} `{Clock W}.
Implicit Types p : TccParticipant W.
Implicit Types c : TccCoordinator W.
Abbreviation branches := (list (TccParticipant W)).

Definition tcc_new (id : string) : TccCoordinator W := mkTcc id Init [] None.

Definition with_retry_policy (policy : TccRetryPolicy) c : TccCoordinator W :=
  mkTcc (tx_id c) (c_state c) (c_participants c) (Some policy).

Definition add_participant p c : TccCoordinator W :=
  mkTcc (tx_id c) (c_state c) (c_participants c ++ [p]) (retry_policy c).

(** [self.state = s] after the participants were updated in place. *)
Definition set_tcc (s : TccState) (ps : branches) c : TccCoordinator W :=
  mkTcc (tx_id c) s ps (retry_policy c).

(** The loop of [try_phase]: the first error with its branch, how many branches were
    tried before, and the participants. *)
Fixpoint try_loop (ps : branches) : Eff W (option (string * string) * nat * branches) :=
  match ps with
  | [] => eret (None, 0, [])
  | p :: rest =>
      let* (r, p') := branch_try p in
      match r with
      | Err e => eret (Some (resource_id p', e), 0, p' :: rest)
      | Ok _ =>
          let* (oe, tried_count, rest') := try_loop rest in
          eret (oe, S tried_count, p' :: rest')
      end
  end.

(** [for p in &mut self.participants { if skip(p) { continue; } if let Err(e) =
    phase(p) { p.fail(); return (p.resource_id, e) } }] *)
Fixpoint until_error (skip : TccParticipant W -> bool)
    (phase : TccParticipant W -> Eff W (result unit string * TccParticipant W))
    (ps : branches) : Eff W (option (string * string) * branches) :=
  match ps with
  | [] => eret (None, [])
  | p :: rest =>
      if skip p then
        let* (oe, rest') := until_error skip phase rest in eret (oe, p :: rest')
      else
        let* (r, p') := phase p in
        match r with
        | Err e => eret (Some (resource_id p', e), branch_fail p' :: rest)
        | Ok _ => let* (oe, rest') := until_error skip phase rest in eret (oe, p' :: rest')
        end
  end.

(** The same loop, collecting the failures instead of leaving at the first. *)
Fixpoint best_effort (skip : TccParticipant W -> bool)
    (phase : TccParticipant W -> Eff W (result unit string * TccParticipant W))
    (ps : branches) : Eff W (list (string * string) * branches) :=
  match ps with
  | [] => eret ([], [])
  | p :: rest =>
      if skip p then
        let* (fs, rest') := best_effort skip phase rest in eret (fs, p :: rest')
      else
        let* (r, p') := phase p in
        match r with
        | Err e =>
            let* (fs, rest') := best_effort skip phase rest in
            eret ((resource_id p', e) :: fs, branch_fail p' :: rest')
        | Ok _ =>
            let* (fs, rest') := best_effort skip phase rest in eret (fs, p' :: rest')
        end
  end.

(** Branches [cancel_tried_participants] leaves alone. *)
Definition skip_tried_cancel p : bool :=
  negb (is_tried p) || bool_decide (b_state p = BCancelled) || bool_decide (b_state p = BConfirmed).

(** [for i in 0..tried_count] *)
Definition cancel_tried_participants (tried_count : nat) (ps : branches) :
    Eff W (list (string * string) * branches) :=
  let* (failures, ps') := best_effort skip_tried_cancel branch_cancel (take tried_count ps) in
  eret (failures, ps' ++ drop tried_count ps).

Definition any_branch_failed (ps : branches) : bool :=
  existsb (fun p => bool_decide (b_state p = BFailed)) ps.

(** [details.join("; ")] of [format!("{}: {}", rid, e)] *)
Definition failure_details (fs : list (string * string)) : string :=
  String.concat "; " ((fun '(rid, e) => rid +:+ ": " +:+ e) <$> fs).

Definition try_phase c : Eff W (result unit TccError * TccCoordinator W) :=
  if bool_decide (c_state c ∈ [Init; Trying]) then
    let* (oe, tried_count, ps) := try_loop (c_participants c) in
    match oe with
    | Some (rid, e) =>
        let* (failures, ps) := cancel_tried_participants tried_count ps in
        let any_failed := negb (bool_decide (failures = [])) || any_branch_failed ps in
        eret (Err (TryFailed rid e (tried_count - length failures)),
              set_tcc (if any_failed then Failed else Cancelled) ps c)
    | None => eret (Ok tt, set_tcc Tried ps c)
    end
  else eret (Err (InvalidState (c_state c) "Init or Trying"), c).

Definition confirm_phase c : Eff W (result unit TccError * TccCoordinator W) :=
  if bool_decide (c_state c ∈ [Tried; Confirming; Failed]) then
    let* (oe, ps) := until_error (fun _ => false) branch_confirm (c_participants c) in
    match oe with
    | Some (rid, e) => eret (Err (ConfirmFailed rid e), set_tcc Failed ps c)
    | None => eret (Ok tt, set_tcc Confirmed ps c)
    end
  else eret (Err (InvalidState (c_state c) "Tried, Confirming, or Failed"), c).

Definition cancel_phase c : Eff W (result unit TccError * TccCoordinator W) :=
  if bool_decide (c_state c ∈ [Tried; Cancelling; Failed; Trying]) then
    let* (failures, ps) :=
      cancel_tried_participants (length (c_participants c)) (c_participants c) in
    let any_failed := negb (bool_decide (failures = [])) || any_branch_failed ps in
    if any_failed then
      let reason := match failures with
                    | [] => "部分分支 cancel 失败"
                    | _ => "部分分支 cancel 失败: " +:+ failure_details failures
                    end in
      eret (Err (CancelFailed reason), set_tcc Failed ps c)
    else eret (Ok tt, set_tcc Cancelled ps c)
  else eret (Err (InvalidState (c_state c) "Tried, Cancelling, Failed, or Trying"), c).

Definition execute c : Eff W (result unit TccError * TccCoordinator W) :=
  let* (r, c) := try_phase c in
  match r with
  | Err e => eret (Err e, c)
  | Ok _ => if bool_decide (c_state c = Tried) then confirm_phase c else eret (Ok tt, c)
  end.

Definition retry_confirm c : Eff W (result unit TccError * TccCoordinator W) :=
  if can_retry_confirm (c_state c) then
    let* (oe, ps) := until_error (fun p => bool_decide (b_state p = BConfirmed))
                       branch_confirm (c_participants c) in
    match oe with
    | Some (rid, e) => eret (Err (ConfirmFailed rid e), set_tcc Failed ps c)
    | None => eret (Ok tt, set_tcc Confirmed ps c)
    end
  else eret (Err (InvalidState (c_state c) "Confirming or Failed"), c).

Definition skip_retry_cancel p : bool :=
  bool_decide (b_state p = BCancelled) || bool_decide (b_state p = BConfirmed)
  || bool_decide (b_state p = BInit).

Definition retry_cancel c : Eff W (result unit TccError * TccCoordinator W) :=
  if can_retry_cancel (c_state c) then
    let* (oe, ps) := until_error skip_retry_cancel branch_cancel (c_participants c) in
    match oe with
    | Some (rid, e) =>
        eret (Err (CancelFailed ("分支 " +:+ rid +:+ " cancel 失败: " +:+ e)), set_tcc Failed ps c)
    | None => eret (Ok tt, set_tcc Cancelled ps c)
    end
  else eret (Err (InvalidState (c_state c) "Cancelling or Failed"), c).

(** [for attempt in attempt..attempt+n], leaving at the first success. *)
Fixpoint attempt_loop (policy : TccRetryPolicy)
    (phase : TccParticipant W -> Eff W (result unit string * TccParticipant W))
    (n : nat) (attempt : Z) (last_error : option string) p :
    Eff W (bool * option string * TccParticipant W) :=
  match n with
  | 0 => eret (false, last_error, p)
  | S n' =>
      let* _ := if (0 <? attempt)%Z then sleep_ns (delay_for policy (attempt - 1)) else eret tt in
      let* (r, p') := phase p in
      match r with
      | Ok _ => eret (true, last_error, p')
      | Err e => attempt_loop policy phase n' (attempt + 1) (Some e) p'
      end
  end.

(** First call and retries of one branch, with the reason reported when all fail. *)
Definition with_retries (policy : TccRetryPolicy)
    (phase : TccParticipant W -> Eff W (result unit string * TccParticipant W)) p :
    Eff W (result unit string * TccParticipant W) :=
  let* (succeeded, last_error, p') :=
    attempt_loop policy phase (Z.to_nat (max_attempts policy)) 0 None p in
  if succeeded then eret (Ok tt, p')
  else eret (Err (default "未知错误" last_error +:+ " (重试 " +:+ pretty (max_retries policy)
                  +:+ " 次后仍失败)"), p').

Definition no_policy : string := "retry_policy must be set (call with_retry_policy first)".

Definition confirm_with_retry c : Eff W (result unit TccError * TccCoordinator W) :=
  if bool_decide (c_state c ∈ [Tried; Confirming; Failed]) then
    match retry_policy c with
    | None => eret (Err (InvalidState (c_state c) no_policy), c)
    | Some policy =>
        let* (oe, ps) := until_error (fun p => bool_decide (b_state p = BConfirmed))
                           (with_retries policy branch_confirm) (c_participants c) in
        match oe with
        | Some (rid, e) => eret (Err (ConfirmFailed rid e), set_tcc Failed ps c)
        | None => eret (Ok tt, set_tcc Confirmed ps c)
        end
    end
  else eret (Err (InvalidState (c_state c) "Tried, Confirming, or Failed"), c).

Definition cancel_with_retry c : Eff W (result unit TccError * TccCoordinator W) :=
  if bool_decide (c_state c ∈ [Tried; Cancelling; Failed; Trying]) then
    match retry_policy c with
    | None => eret (Err (InvalidState (c_state c) no_policy), c)
    | Some policy =>
        let* (failures, ps) := best_effort skip_retry_cancel
                                 (with_retries policy branch_cancel) (c_participants c) in
        match failures with
        | [] => eret (Ok tt, set_tcc Cancelled ps c)
        | _ =>
            eret (Err (CancelFailed ("部分分支 cancel 失败 (共 " +:+ pretty (length failures)
                    +:+ " 个): " +:+ failure_details failures)), set_tcc Failed ps c)
        end
    end
  else eret (Err (InvalidState (c_state c) "Tried, Cancelling, Failed, or Trying"), c).
End Coordinator.

(** * Manager *)

Section Manager.
Context `{F64} {W : Type} `{Clock W}.
Abbreviation TccManager := (gmap string (TccCoordinator W)).

Definition register (id : string) (txs : TccManager) : result unit TccError * TccManager :=
  match txs !! id with
  | Some _ => (Err (InvalidState Init "unique tx_id"), txs)
  | None => (Ok tt, <[id := tcc_new id]> txs)
  end.

Definition manager_add_participant (id : string) (p : TccParticipant W) (txs : TccManager) :
    result unit TccError * TccManager :=
  match txs !! id with
  | None => (Err (ParticipantNotFound id), txs)
  | Some c => (Ok tt, <[id := add_participant p c]> txs)
  end.

Definition manager_execute (id : string) (txs : TccManager) :
    Eff W (result unit TccError * TccManager) :=
  modify_entry id (Err (ParticipantNotFound id)) execute txs.

Definition manager_retry_confirm (id : string) (txs : TccManager) :
    Eff W (result unit TccError * TccManager) :=
  modify_entry id (Err (ParticipantNotFound id)) retry_confirm txs.

Definition manager_retry_cancel (id : string) (txs : TccManager) :
    Eff W (result unit TccError * TccManager) :=
  modify_entry id (Err (ParticipantNotFound id)) retry_cancel txs.

Definition get_state (id : string) (txs : TccManager) : option TccState := c_state <$> txs !! id.

Definition list_failed (txs : TccManager) : list string :=
  sorted_keys (filter (fun '(_, c) => c_state c = Failed) txs).

Definition list_all (txs : TccManager) : list string := sorted_keys txs.
End Manager.

(** * Theorems *)

Section Loops.
Context {W : Type}.
Abbreviation branches := (list (TccParticipant W)).
Implicit Types p : TccParticipant W.

(** A relation every step of a loop keeps between a branch and its successor. *)
Section Preservation.
Context (R : relation (TccParticipant W)) `{!Reflexive R}
  (skip : TccParticipant W -> bool)
  (phase : TccParticipant W -> Eff W (result unit string * TccParticipant W)).
Hypothesis Hphase : forall p w r p' w', skip p = false -> phase p w = ((r, p'), w') ->
  R p (if r is Err _ then branch_fail p' else p').

Lemma until_error_rel (ps : branches) w oe ps' w' :
  until_error skip phase ps w = ((oe, ps'), w') -> Forall2 R ps ps'.
Proof.
  revert w oe ps' w'. induction ps as [|p ps IH]; intros w oe ps' w'; cbn.
  { unfold eret. intros. by simplify_eq. }
  destruct (skip p) eqn:Hskip; unfold ebind, eret.
  - destruct (until_error skip phase ps w) as [[oe1 ps1] w1] eqn:E. intros. simplify_eq.
    constructor; [done|]. by eapply IH.
  - destruct (phase p w) as [[[u|e] p1] w1] eqn:Hp; pose proof (Hphase _ _ _ _ _ Hskip Hp) as HR.
    + destruct (until_error skip phase ps w1) as [[oe1 ps1] w2] eqn:E. intros. simplify_eq.
      constructor; [done|]. by eapply IH.
    + intros. simplify_eq. constructor; [done|]. clear -Reflexive0; induction ps; constructor; auto.
Qed.

Lemma best_effort_rel (ps : branches) w fs ps' w' :
  best_effort skip phase ps w = ((fs, ps'), w') -> Forall2 R ps ps'.
Proof.
  revert w fs ps' w'. induction ps as [|p ps IH]; intros w fs ps' w'; cbn.
  { unfold eret. intros. by simplify_eq. }
  destruct (skip p) eqn:Hskip; unfold ebind, eret.
  - destruct (best_effort skip phase ps w) as [[oe1 ps1] w1] eqn:E. intros. simplify_eq.
    constructor; [done|]. by eapply IH.
  - destruct (phase p w) as [[[u|e] p1] w1] eqn:Hp; pose proof (Hphase _ _ _ _ _ Hskip Hp) as HR;
      destruct (best_effort skip phase ps w1) as [[oe1 ps1] w2] eqn:E; intros; simplify_eq;
      (constructor; [done|]; by eapply IH).
Qed.
End Preservation.

(** The callbacks of the branches, in registration order. *)
Definition tries (ps : branches) : list (Callback W) := (fun p => call_opt (try_fn p)) <$> ps.
Definition confirms (ps : branches) : list (Callback W) := (fun p => call_opt (confirm_fn p)) <$> ps.
Definition cancels (ps : branches) : list (Callback W) := (fun p => call_opt (cancel_fn p)) <$> ps.

(** A branch after each kind of callback returned [r]. *)
Definition after_try (ok : bool) p := set_b_state (if ok then BTried else BFailed) (count_try p).
Definition after_confirm (ok : bool) p :=
  if ok then mark_confirmed (count_confirm p) else set_b_state BFailed (count_confirm p).
Definition after_cancel (ok : bool) p :=
  if ok then mark_cancelled (count_cancel p) else set_b_state BFailed (count_cancel p).

Definition id_of (n : nat) (ps : branches) : string :=
  match ps !! n with Some p => resource_id p | None => "" end.

(** The first [n] branches went through, the next one did not if [failed]. *)
Definition progress (f : bool -> TccParticipant W -> TccParticipant W) (n : nat) (failed : bool)
    (ps : branches) : branches :=
  (f true <$> take n ps) ++ (if failed then f false <$> take 1 (drop n ps) else take 1 (drop n ps))
  ++ drop (S n) ps.

Lemma progress_cons f n failed p (ps : branches) :
  progress f (S n) failed (p :: ps) = f true p :: progress f n failed ps.
Proof. done. Qed.
#[local] Arguments progress : simpl never.

Lemma try_loop_spec (ps : branches) :
  try_loop ps =eff=
  ebind (run_seq (tries ps)) (fun '(n, oe) =>
    eret ((fun e => (id_of n ps, e)) <$> oe, n, progress after_try n (is_some oe) ps)).
Proof.
  induction ps as [|p ps IH]; [done|]. intros w. unfold tries. rewrite fmap_cons. fold (tries ps).
  unfold ebind at 1. rewrite run_seq_cons. cbn. unfold branch_try, ebind. cbn.
  destruct (call_opt (try_fn p) w) as [[u|e] w1]; cbn; [|done].
  rewrite (IH w1). unfold ebind. destruct (run_seq (tries ps) w1) as [[n oe] w2]. cbn.
  by rewrite progress_cons.
Qed.

Lemma branch_confirm_run p w :
  confirm_succeeded p = false ->
  branch_confirm p w =
  let '(r, w1) := call_opt (confirm_fn p) w in ((r, after_confirm (is_ok r) p), w1).
Proof.
  intros Hc. unfold branch_confirm. rewrite Hc. unfold ebind, eret. cbn.
  by destruct (call_opt (confirm_fn p) w) as [[[]|e] w1].
Qed.

Lemma branch_cancel_run p w :
  cancel_succeeded p = false ->
  branch_cancel p w =
  let '(r, w1) := call_opt (cancel_fn p) w in ((r, after_cancel (is_ok r) p), w1).
Proof.
  intros Hc. unfold branch_cancel. rewrite Hc. unfold ebind, eret. cbn.
  by destruct (call_opt (cancel_fn p) w) as [[[]|e] w1].
Qed.

(** The confirm loop on branches none of which is confirmed or skipped. *)
Lemma confirm_loop_spec skip (ps : branches) :
  Forall (fun p => skip p = false /\ confirm_succeeded p = false) ps ->
  until_error skip branch_confirm ps =eff=
  ebind (run_seq (confirms ps)) (fun '(n, oe) =>
    eret ((fun e => (id_of n ps, e)) <$> oe, progress after_confirm n (is_some oe) ps)).
Proof.
  induction ps as [|p ps IH]; [done|]. intros [[Hs Hc] Hps]%Forall_cons w.
  unfold confirms. rewrite fmap_cons. fold (confirms ps).
  unfold ebind at 1. rewrite run_seq_cons. cbn. rewrite Hs. unfold ebind.
  rewrite branch_confirm_run by done. destruct (call_opt (confirm_fn p) w) as [[u|e] w1]; cbn; [|done].
  rewrite (IH Hps w1). unfold ebind. destruct (run_seq (confirms ps) w1) as [[n oe] w2]. cbn.
  by rewrite progress_cons.
Qed.

Lemma after_cancel_fail p : branch_fail (after_cancel false p) = after_cancel false p.
Proof. done. Qed.

(** The failures among the results of the cancels. *)
Definition failures_of (ps : branches) (rs : list (result unit string)) : list (string * string) :=
  omap (fun '(p, r) => match r with Err e => Some (resource_id p, e) | Ok _ => None end) (zip ps rs).

Lemma cancel_loop_spec skip (ps : branches) :
  Forall (fun p => skip p = false /\ cancel_succeeded p = false) ps ->
  best_effort skip branch_cancel ps =eff=
  ebind (run_best (cancels ps)) (fun rs =>
    eret (failures_of ps rs, zip_with (fun p r => after_cancel (is_ok r) p) ps rs)).
Proof.
  induction ps as [|p ps IH]; [done|]. intros [[Hs Hc] Hps]%Forall_cons w.
  unfold cancels. rewrite fmap_cons. fold (cancels ps). cbn. rewrite Hs.
  unfold ebind. rewrite branch_cancel_run by done.
  destruct (call_opt (cancel_fn p) w) as [[u|e] w1]; cbn; rewrite (IH Hps w1); unfold ebind;
    by destruct (run_best (cancels ps) w1) as [rs w2].
Qed.
End Loops.

Section Protocol.
Context `{F64} {W : Type} `{Clock W}.
Implicit Types p : TccParticipant W.
Implicit Types c : TccCoordinator W.
Abbreviation branches := (list (TccParticipant W)).

(** A branch as [TccParticipant::new] and the [with_*] builders make it. *)
Definition fresh p : Prop :=
  b_state p = BInit /\ confirm_succeeded p = false /\ cancel_succeeded p = false.

Definition count_ok (rs : list (result unit string)) : nat :=
  length (filter (fun r => is_ok r = true) rs).

Lemma count_ok_cons r rs : count_ok (r :: rs) = (if is_ok r then 1 else 0) + count_ok rs.
Proof. by destruct r. Qed.

Lemma failures_of_cons p (ps : branches) r rs :
  length (failures_of (p :: ps) (r :: rs)) =
  (if is_ok r then 0 else 1) + length (failures_of ps rs).
Proof. by destruct r. Qed.

Lemma failures_of_count (ps : branches) rs :
  length ps = length rs -> length rs - length (failures_of ps rs) = count_ok rs.
Proof.
  intros Hlen. cut (length (failures_of ps rs) + count_ok rs = length rs); [lia|].
  revert ps Hlen. induction rs as [|r rs IH]; intros [|p ps] Hlen; try done.
  specialize (IH ps ltac:(cbn in Hlen; lia)). rewrite count_ok_cons, failures_of_cons.
  cbn [length]. destruct (is_ok r); lia.
Qed.

Lemma id_of_fmap (f : TccParticipant W -> TccParticipant W) n (ps : branches) :
  (forall p, resource_id (f p) = resource_id p) -> id_of n (f <$> ps) = id_of n ps.
Proof. intros Hf. unfold id_of. rewrite list_lookup_fmap. destruct (ps !! n); [apply Hf|done]. Qed.

Lemma take_progress (f : bool -> TccParticipant W -> TccParticipant W) n failed (ps : branches) :
  n <= length ps -> take n (progress f n failed ps) = f true <$> take n ps.
Proof.
  intros Hn. unfold progress. rewrite take_app_le by (rewrite length_fmap, length_take; lia).
  apply take_ge. rewrite length_fmap, length_take. lia.
Qed.

Lemma drop_progress (f : bool -> TccParticipant W -> TccParticipant W) n failed (ps : branches) :
  n <= length ps ->
  drop n (progress f n failed ps) =
  (if failed then f false <$> take 1 (drop n ps) else take 1 (drop n ps)) ++ drop (S n) ps.
Proof.
  intros Hn. unfold progress. rewrite drop_app_ge by (rewrite length_fmap, length_take; lia).
  rewrite length_fmap, length_take. by replace (n - n `min` length ps) with 0 by lia.
Qed.

Lemma progress_all (f : bool -> TccParticipant W -> TccParticipant W) (ps : branches) : progress f (length ps) false ps = f true <$> ps.
Proof.
  unfold progress. rewrite firstn_all, !drop_ge by lia. by rewrite firstn_nil, !app_nil_r.
Qed.

(** Cancelling the branches a failed try phase leaves. *)
Lemma cancel_after_failed_try n (ps : branches) w rs w' :
  Forall fresh ps -> n < length ps -> run_best (cancels (take n ps)) w = (rs, w') ->
  cancel_tried_participants n (progress after_try n true ps) w =
  ((failures_of (take n ps) rs,
    zip_with (fun p r => after_cancel (is_ok r) p) (after_try true <$> take n ps) rs
    ++ (after_try false <$> take 1 (drop n ps)) ++ drop (S n) ps), w').
Proof.
  intros Hf Hn Hrs. unfold cancel_tried_participants, ebind.
  rewrite take_progress, drop_progress by lia.
  rewrite (cancel_loop_spec skip_tried_cancel).
  - unfold ebind. assert (cancels (after_try true <$> take n ps) = cancels (take n ps)) as ->.
    { unfold cancels. by rewrite <- list_fmap_compose. }
    rewrite Hrs. unfold eret. do 2 f_equal.
    unfold failures_of. rewrite zip_with_fmap_l. clear. revert rs.
    induction (take n ps) as [|p l IH]; intros [|r rs]; try done. cbn.
    specialize (IH rs). destruct r; cbn; by rewrite IH.
  - apply Forall_fmap. eapply Forall_impl; [apply Forall_take, Hf|].
    intros p (_ & _ & ?). done.
Qed.

Lemma any_branch_failed_app (ps1 ps2 : branches) :
  any_branch_failed (ps1 ++ ps2) = any_branch_failed ps1 || any_branch_failed ps2.
Proof. apply existsb_app. Qed.

(** What a failed try phase leaves. *)
Lemma try_phase_spec c w r c' w' :
  c_state c = Init -> Forall fresh (c_participants c) -> try_phase c w = ((r, c'), w') ->
  let ps := c_participants c in
  exists n oe w1, run_seq (tries ps) w = ((n, oe), w1) /\
    match oe with
    | None => r = Ok tt /\ w' = w1 /\ c' = set_tcc Tried (after_try true <$> ps) c
    | Some e =>
        n < length ps /\ exists rs, run_best (cancels (take n ps)) w1 = (rs, w') /\
          r = Err (TryFailed (id_of n ps) e (count_ok rs)) /\
          c' = set_tcc Failed
                 (zip_with (fun p r => after_cancel (is_ok r) p) (after_try true <$> take n ps) rs
                  ++ (after_try false <$> take 1 (drop n ps)) ++ drop (S n) ps) c
    end.
Proof.
  intros Hs Hf Ht. unfold try_phase in Ht. rewrite Hs in Ht.
  rewrite bool_decide_eq_true_2 in Ht by apply list_elem_of_here.
  unfold ebind at 1 in Ht. rewrite try_loop_spec in Ht. unfold ebind at 1 in Ht. cbn.
  destruct (run_seq (tries (c_participants c)) w) as [[n oe] w1] eqn:Hrun.
  pose proof (run_seq_length _ _ _ _ _ Hrun) as Hlen. unfold tries in Hlen.
  rewrite length_fmap in Hlen. exists n, oe, w1. split; [done|]. destruct oe as [e|].
  - split; [done|]. cbn in Ht. unfold ebind in Ht.
    destruct (run_best (cancels (take n (c_participants c))) w1) as [rs w2] eqn:Hrs.
    rewrite (cancel_after_failed_try _ _ _ _ _ Hf Hlen Hrs) in Ht. unfold eret in Ht.
    rewrite !any_branch_failed_app in Ht.
    assert (any_branch_failed (after_try false <$> take 1 (drop n (c_participants c))) = true) as Hany.
    { destruct (lookup_lt_is_Some_2 (c_participants c) n Hlen) as [p Hp].
      rewrite (drop_S _ p) by done. cbn. by rewrite bool_decide_eq_true_2. }
    rewrite Hany, orb_true_r, orb_true_r in Ht. simplify_eq. exists rs. split; [done|].
    split; [|done]. do 2 f_equal. apply run_best_length in Hrs as Hl. unfold cancels in Hl.
    rewrite length_fmap in Hl. rewrite <- (failures_of_count (take n (c_participants c)) rs) by done.
    rewrite Hl, length_take. lia.
  - subst n. cbn in Ht. unfold eret in Ht. rewrite progress_all in Ht. by simplify_eq.
Qed.

(** C9: the TCC protocol.  From a fresh coordinator [execute] runs the tries in
    registration order.  If all succeed it runs the confirms in order, up to the
    first failure, and never a cancel; the transaction ends [Confirmed], or [Failed]
    with the later branches still tried.  If the try of branch [n] fails, it runs the
    cancel callbacks of exactly the branches before it, all of them whatever their
    results, and never a confirm; the transaction always ends [Failed], and the error
    counts the cancels that succeeded. *)
Theorem tcc_execute_protocol c w r c' w' :
  c_state c = Init -> Forall fresh (c_participants c) -> execute c w = ((r, c'), w') ->
  let ps := c_participants c in
  exists n oe w1, run_seq (tries ps) w = ((n, oe), w1) /\
    match oe with
    | Some e =>
        n < length ps /\ exists rs, run_best (cancels (take n ps)) w1 = (rs, w') /\
          r = Err (TryFailed (id_of n ps) e (count_ok rs)) /\
          c' = set_tcc Failed
                 (zip_with (fun p r => after_cancel (is_ok r) p) (after_try true <$> take n ps) rs
                  ++ (after_try false <$> take 1 (drop n ps)) ++ drop (S n) ps) c
    | None =>
        exists m oe2, run_seq (confirms ps) w1 = ((m, oe2), w') /\
          c_participants c' = progress after_confirm m (is_some oe2) (after_try true <$> ps) /\
          match oe2 with
          | Some e => r = Err (ConfirmFailed (id_of m ps) e) /\ c_state c' = Failed
          | None => r = Ok tt /\ c_state c' = Confirmed
          end
    end.
Proof.
  intros Hs Hf He. unfold execute, ebind in He.
  destruct (try_phase c w) as [[rt c1] w1] eqn:Ht.
  destruct (try_phase_spec _ _ _ _ _ Hs Hf Ht) as (n & oe & wt & Hrun & Hcase).
  exists n, oe, wt. split; [done|]. destruct oe as [e|].
  - destruct Hcase as (Hn & rs & Hrs & -> & ->). unfold eret in He. simplify_eq. eauto.
  - destruct Hcase as (-> & -> & ->). rewrite bool_decide_eq_true_2 in He by done.
    unfold confirm_phase in He. cbn [c_state set_tcc c_participants] in He.
    rewrite bool_decide_eq_true_2 in He by apply list_elem_of_here.
    unfold ebind in He. rewrite confirm_loop_spec in He.
    2: { apply Forall_fmap. eapply Forall_impl; [apply Hf|]. by intros p (_ & ? & _). }
    unfold ebind in He.
    assert (confirms (after_try true <$> c_participants c) = confirms (c_participants c)) as Heq.
    { unfold confirms. by rewrite <- list_fmap_compose. }
    rewrite Heq in He.
    destruct (run_seq (confirms (c_participants c)) wt) as [[m oe2] w2] eqn:Hrc.
    exists m, oe2. destruct oe2 as [e|]; cbn in He; unfold eret in He; simplify_eq;
      rewrite ?(id_of_fmap (after_try true)) by done; eauto.
Qed.
End Protocol.

(** ** What no call undoes *)

Section Safety.
Context `{F64} {W : Type} `{Clock W}.
Implicit Types p : TccParticipant W.
Implicit Types c : TccCoordinator W.
Abbreviation branches := (list (TccParticipant W)).

(** The calls on a coordinator. *)
Inductive tcc_op : Type :=
| OpTry | OpConfirm | OpCancel | OpExecute
| OpRetryConfirm | OpRetryCancel | OpConfirmRetry | OpCancelRetry.

Definition tcc_run (o : tcc_op) c : Eff W (result unit TccError * TccCoordinator W) :=
  match o with
  | OpTry => try_phase c
  | OpConfirm => confirm_phase c
  | OpCancel => cancel_phase c
  | OpExecute => execute c
  | OpRetryConfirm => retry_confirm c
  | OpRetryCancel => retry_cancel c
  | OpConfirmRetry => confirm_with_retry c
  | OpCancelRetry => cancel_with_retry c
  end.

Inductive tcc_step : TccCoordinator W * W -> TccCoordinator W * W -> Prop :=
| step_add p c w : fresh p -> tcc_step (c, w) (add_participant p c, w)
| step_op o c w r c' w' : tcc_run o c w = ((r, c'), w') -> tcc_step (c, w) (c', w').

Definition good p : Prop := confirm_succeeded p = true -> b_state p = BConfirmed.

Definition cancel_kept p p' : Prop :=
  cancel_succeeded p = true -> cancel_succeeded p' = true /\ cancel_attempts p' = cancel_attempts p.

(** What every call keeps of a branch. *)
Definition kept p p' : Prop :=
  good p -> good p' /\ (confirm_succeeded p = true -> p' = p) /\ cancel_kept p p'.

#[local] Instance kept_reflexive : Reflexive kept.
Proof. by intros p Hg. Qed.

(** What a phase does to an unconfirmed branch. *)
Definition phase_ok (phase : TccParticipant W -> Eff W (result unit string * TccParticipant W)) : Prop :=
  forall p w r p' w', confirm_succeeded p = false -> phase p w = ((r, p'), w') ->
    good p' /\ cancel_kept p p' /\ (is_ok r = false -> confirm_succeeded p' = false).

Lemma branch_confirm_ok : phase_ok branch_confirm.
Proof.
  intros p w r p' w' Hs. rewrite branch_confirm_run by done.
  destruct (call_opt (confirm_fn p) w) as [[u|e] w1]; intros Hp; simplify_eq;
    unfold good, cancel_kept; cbn; split_and!; auto; congruence.
Qed.

Lemma branch_cancel_ok : phase_ok branch_cancel.
Proof.
  intros p w r p' w' Hs. destruct (cancel_succeeded p) eqn:Hc.
  { unfold branch_cancel, eret, good, cancel_kept. rewrite Hc. intros Hp. simplify_eq.
    split_and!; [congruence|auto|done]. }
  rewrite branch_cancel_run by done.
  destruct (call_opt (cancel_fn p) w) as [[u|e] w1]; intros Hp; simplify_eq;
    unfold good, cancel_kept; cbn; split_and!; congruence.
Qed.

Lemma attempt_loop_ok policy phase :
  phase_ok phase -> forall n a le p w b le' p' w', confirm_succeeded p = false ->
  attempt_loop policy phase n a le p w = ((b, le', p'), w') ->
  good p' /\ cancel_kept p p' /\ (b = false -> confirm_succeeded p' = false).
Proof.
  intros Hok n. induction n as [|n IH]; intros a le p w b le' p' w' Hs Hl; cbn in Hl.
  { unfold eret in Hl. simplify_eq. unfold good, cancel_kept. split_and!; [congruence|done|done]. }
  unfold ebind at 1 in Hl.
  destruct ((if (0 <? a)%Z then sleep_ns (delay_for policy (a - 1)) else eret tt) w) as [u w0].
  unfold ebind in Hl. destruct (phase p w0) as [[r p1] w1] eqn:Hp.
  destruct (Hok _ _ _ _ _ Hs Hp) as (Hg & Hck & Hr). destruct r as [v|e].
  - unfold eret in Hl. simplify_eq. done.
  - destruct (IH _ _ _ _ _ _ _ _ (Hr eq_refl) Hl) as (? & Hck' & ?). split_and!; [done| |done].
    intros Hc. destruct (Hck Hc) as [? <-]. by apply Hck'.
Qed.

Lemma with_retries_ok policy phase : phase_ok phase -> phase_ok (with_retries policy phase).
Proof.
  intros Hok p w r p' w' Hs Hw. unfold with_retries, ebind in Hw.
  destruct (attempt_loop _ _ _ _ _ p w) as [[[b le] p1] w1] eqn:E.
  destruct (attempt_loop_ok _ _ Hok _ _ _ _ _ _ _ _ _ Hs E) as (? & ? & ?).
  destruct b; unfold eret in Hw; simplify_eq; auto.
Qed.

(** Confirmed branches are skipped by a loop, or its phase does nothing on them. *)
Definition leaves_confirmed (skip : TccParticipant W -> bool)
    (phase : TccParticipant W -> Eff W (result unit string * TccParticipant W)) : Prop :=
  forall p, b_state p = BConfirmed -> confirm_succeeded p = true ->
    skip p = true \/ forall w, phase p w = ((Ok tt, p), w).

Lemma phase_kept skip phase :
  phase_ok phase -> leaves_confirmed skip phase ->
  forall p w r p' w', skip p = false -> phase p w = ((r, p'), w') ->
  kept p (if r is Err _ then branch_fail p' else p').
Proof.
  intros Hok Hlc p w r p' w' Hskip Hp Hgood. destruct (confirm_succeeded p) eqn:Hs.
  - destruct (Hlc p (Hgood Hs) Hs) as [?|Hno]; [congruence|]. rewrite Hno in Hp. simplify_eq.
    split_and!; [done|done|by intros ?].
  - destruct (Hok _ _ _ _ _ Hs Hp) as (Hg & Hck & Hr). destruct r as [u|e].
    + split_and!; [done|congruence|done].
    + specialize (Hr eq_refl).
      split_and!; [unfold good; cbn; congruence|congruence|exact Hck].
Qed.

Lemma leaves_confirmed_noskip : leaves_confirmed (fun _ => false) branch_confirm.
Proof. intros p _ Hs. right. intros w. unfold branch_confirm. by rewrite Hs. Qed.

Lemma leaves_confirmed_skip phase : leaves_confirmed (fun p => bool_decide (b_state p = BConfirmed)) phase.
Proof. intros p Hs _. left. by apply bool_decide_eq_true_2. Qed.

Lemma leaves_confirmed_retry_cancel phase : leaves_confirmed skip_retry_cancel phase.
Proof. intros p Hs _. left. unfold skip_retry_cancel. by rewrite Hs. Qed.

Lemma leaves_confirmed_tried_cancel phase : leaves_confirmed skip_tried_cancel phase.
Proof. intros p Hs _. left. unfold skip_tried_cancel. by rewrite Hs, !orb_true_r. Qed.

#[local] Hint Resolve branch_confirm_ok branch_cancel_ok with_retries_ok leaves_confirmed_noskip
  leaves_confirmed_skip leaves_confirmed_retry_cancel leaves_confirmed_tried_cancel : szorm.

Lemma until_error_kept skip phase (ps : branches) w oe ps' w' :
  phase_ok phase -> leaves_confirmed skip phase ->
  until_error skip phase ps w = ((oe, ps'), w') -> Forall2 kept ps ps'.
Proof.
  intros Hok Hlc. apply (until_error_rel kept skip phase). by apply phase_kept.
Qed.

Lemma cancel_tried_kept n (ps : branches) w fs ps' w' :
  cancel_tried_participants n ps w = ((fs, ps'), w') -> Forall2 kept ps ps'.
Proof.
  unfold cancel_tried_participants, ebind, eret.
  destruct (best_effort _ _ _ w) as [[fs1 ps1] w1] eqn:E. intros. simplify_eq.
  rewrite <- (take_drop n ps) at 1. apply Forall2_app; [|reflexivity].
  eapply (best_effort_rel kept); [|exact E].
  apply phase_kept; auto with szorm.
Qed.

Lemma after_try_kept b (l : branches) :
  Forall (fun p => confirm_succeeded p = false) l -> Forall2 kept l (after_try b <$> l).
Proof.
  induction 1 as [|p l Hs _ IH]; constructor; [|done]. intros _. unfold good, cancel_kept. cbn.
  split_and!; [congruence|congruence|done].
Qed.

Lemma try_loop_kept (ps : branches) w oe n ps' w' :
  Forall (fun p => confirm_succeeded p = false) ps ->
  try_loop ps w = ((oe, n, ps'), w') -> Forall2 kept ps ps'.
Proof.
  intros Hf. rewrite try_loop_spec. unfold ebind, eret.
  destruct (run_seq (tries ps) w) as [[m oe1] w1]. intros. simplify_eq. unfold progress.
  rewrite <- (take_drop n ps) at 1. apply Forall2_app; [by apply after_try_kept, Forall_take|].
  rewrite <- (take_drop 1 (drop n ps)) at 1. rewrite drop_drop, Nat.add_1_r.
  apply Forall2_app; [|reflexivity].
  destruct (is_some oe1); [by apply after_try_kept, Forall_take, Forall_drop|reflexivity].
Qed.

(** The invariant of a coordinator: a branch whose confirm succeeded is in state
    [Confirmed], and there is none before the try phase ended. *)
Definition tcc_inv c : Prop :=
  Forall good (c_participants c) /\
  (c_state c ∈ [Init; Trying] -> Forall (fun p => confirm_succeeded p = false) (c_participants c)).

Lemma kept_good (ps ps' : branches) : Forall2 kept ps ps' -> Forall good ps -> Forall good ps'.
Proof. induction 1 as [|p p' ps ps' Hk _ IH]; intros Hg; inversion Hg; constructor; [by apply Hk|auto]. Qed.

Lemma kept_trans (ps1 ps2 ps3 : branches) :
  Forall good ps1 -> Forall2 kept ps1 ps2 -> Forall2 kept ps2 ps3 -> Forall2 kept ps1 ps3.
Proof.
  intros Hg H12. revert ps3 Hg. induction H12 as [|p1 p2 ps1 ps2 Hk _ IH]; intros ps3 Hg H23;
    inversion H23 as [|? p3 ? ps3' Hk' ?]; subst; [done|].
  inversion Hg as [|? ? Hg1 ?]; subst. constructor; [|auto]. intros _.
  destruct (Hk Hg1) as (Hg2 & He & Hc). destruct (Hk' Hg2) as (Hg3 & He' & Hc'). split_and!.
  - done.
  - intros Hs. specialize (He Hs). subst. auto.
  - intros Hs. destruct (Hc Hs) as [? <-]. by apply Hc'.
Qed.

(** A call keeps every branch and does not come back to the try phase. *)
Definition op_kept c c' : Prop :=
  c' = c \/ (Forall2 kept (c_participants c) (c_participants c') /\ c_state c' ∉ [Init; Trying]).

(** Closes [op_kept] once the loop of the call is known to keep the branches. *)
Ltac op_kept_tac Ho :=
  repeat case_match; unfold eret in Ho; simplify_eq;
  first [by left | right; split; cbn; [done|set_solver]].

(** The guard of the call: a rejected call changes nothing. *)
Ltac op_guard Ho :=
  match type of Ho with (if ?b then _ else _) _ = _ => destruct b; [|op_kept_tac Ho] end.

Lemma try_phase_kept c w r c' w' :
  tcc_inv c -> try_phase c w = ((r, c'), w') -> op_kept c c'.
Proof.
  intros [Hg Hf] Ho. unfold try_phase in Ho. case_bool_decide as Hst; [|left; by unfold eret in Ho; simplify_eq].
  specialize (Hf Hst). unfold ebind in Ho.
  destruct (try_loop (c_participants c) w) as [[[oe n] ps1] w1] eqn:Ht.
  apply try_loop_kept in Ht; [|done]. destruct oe as [[rid e]|].
  - destruct (cancel_tried_participants n ps1 w1) as [[fs ps2] w2] eqn:Hc.
    apply cancel_tried_kept in Hc. unfold eret in Ho. simplify_eq. right. cbn. split.
    + by eapply kept_trans.
    + case_match; set_solver.
  - unfold eret in Ho. simplify_eq. right. cbn. split; [done|set_solver].
Qed.

Lemma confirm_phase_kept c w r c' w' : confirm_phase c w = ((r, c'), w') -> op_kept c c'.
Proof.
  unfold confirm_phase, ebind. intros Ho. op_guard Ho.
  destruct (until_error _ _ (c_participants c) w) as [[oe ps1] w1] eqn:E.
  apply until_error_kept in E; auto with szorm. op_kept_tac Ho.
Qed.

Lemma retry_confirm_kept c w r c' w' : retry_confirm c w = ((r, c'), w') -> op_kept c c'.
Proof.
  unfold retry_confirm, ebind. intros Ho. op_guard Ho.
  destruct (until_error _ _ (c_participants c) w) as [[oe ps1] w1] eqn:E.
  apply until_error_kept in E; auto with szorm. op_kept_tac Ho.
Qed.

Lemma retry_cancel_kept c w r c' w' : retry_cancel c w = ((r, c'), w') -> op_kept c c'.
Proof.
  unfold retry_cancel, ebind. intros Ho. op_guard Ho.
  destruct (until_error _ _ (c_participants c) w) as [[oe ps1] w1] eqn:E.
  apply until_error_kept in E; auto with szorm. op_kept_tac Ho.
Qed.

Lemma cancel_phase_kept c w r c' w' : cancel_phase c w = ((r, c'), w') -> op_kept c c'.
Proof.
  unfold cancel_phase, ebind. intros Ho. op_guard Ho.
  destruct (cancel_tried_participants _ (c_participants c) w) as [[fs ps1] w1] eqn:E.
  apply cancel_tried_kept in E. op_kept_tac Ho.
Qed.

Lemma confirm_with_retry_kept c w r c' w' : confirm_with_retry c w = ((r, c'), w') -> op_kept c c'.
Proof.
  unfold confirm_with_retry, ebind. intros Ho. op_guard Ho.
  destruct (retry_policy c) as [policy|]; [|op_kept_tac Ho].
  destruct (until_error _ _ (c_participants c) w) as [[oe ps1] w1] eqn:E.
  apply until_error_kept in E; auto with szorm. op_kept_tac Ho.
Qed.

Lemma cancel_with_retry_kept c w r c' w' : cancel_with_retry c w = ((r, c'), w') -> op_kept c c'.
Proof.
  unfold cancel_with_retry, ebind. intros Ho. op_guard Ho.
  destruct (retry_policy c) as [policy|]; [|op_kept_tac Ho].
  destruct (best_effort _ _ (c_participants c) w) as [[fs ps1] w1] eqn:E.
  apply (best_effort_rel kept) in E; [op_kept_tac Ho|apply phase_kept; auto with szorm].
Qed.

Lemma op_kept_inv c c' : tcc_inv c -> op_kept c c' -> tcc_inv c'.
Proof.
  intros Hi [->|[Hk Hs]]; [done|]. destruct Hi as [Hg _]. split; [by eapply kept_good|done].
Qed.

Lemma op_kept_trans c1 c2 c3 : tcc_inv c1 -> op_kept c1 c2 -> op_kept c2 c3 -> op_kept c1 c3.
Proof.
  intros [Hg _] [->|[H12 Hs]]; [done|]. intros [->|[H23 Hs']]; right; [done|].
  split; [by eapply kept_trans|done].
Qed.

Lemma execute_kept c w r c' w' :
  tcc_inv c -> execute c w = ((r, c'), w') -> op_kept c c'.
Proof.
  unfold execute, ebind. intros Hi Ho. destruct (try_phase c w) as [[r1 c1] w1] eqn:Ht.
  apply try_phase_kept in Ht; [|done].
  destruct r1 as [u|e]; [|by unfold eret in Ho; simplify_eq].
  case_bool_decide; [|by unfold eret in Ho; simplify_eq].
  apply confirm_phase_kept in Ho. by eapply op_kept_trans.
Qed.

#[local] Hint Resolve try_phase_kept confirm_phase_kept retry_confirm_kept retry_cancel_kept
  cancel_phase_kept confirm_with_retry_kept cancel_with_retry_kept execute_kept : szorm.

Lemma tcc_run_kept o c w r c' w' :
  tcc_inv c -> tcc_run o c w = ((r, c'), w') -> op_kept c c'.
Proof. intros Hi Ho. destruct o; cbn in Ho; eauto with szorm. Qed.

Lemma tcc_step_inv s s' : tcc_inv (fst s) -> tcc_step s s' -> tcc_inv (fst s').
Proof.
  intros Hi Hs. destruct Hs as [p c w (_ & Hs & _)|o c w r c' w' Ho]; cbn in *.
  - destruct Hi as [Hg Hf]. split; cbn.
    + apply Forall_app. split; [done|]. constructor; [|done]. unfold good. congruence.
    + intros Hst. apply Forall_app. split; [auto|]. by constructor.
  - eapply op_kept_inv, tcc_run_kept; eauto.
Qed.

Lemma tcc_new_inv id : tcc_inv (tcc_new id).
Proof. split; cbn; constructor. Qed.

(** Confirmation is final and neither outcome is repeated.  Whatever calls were
    made on a coordinator before, and whatever call comes next: a branch whose confirm
    callback succeeded is left exactly as it is (it is not confirmed again, and never
    cancelled or tried), and the cancel callback of a branch whose cancel succeeded is
    not called again. *)
Theorem tcc_outcomes_final id w0 c w c' w' i p :
  rtc tcc_step (tcc_new id, w0) (c, w) -> tcc_step (c, w) (c', w') ->
  c_participants c !! i = Some p ->
  (confirm_succeeded p = true -> c_participants c' !! i = Some p) /\
  (cancel_succeeded p = true -> exists p', c_participants c' !! i = Some p' /\
     cancel_succeeded p' = true /\ cancel_attempts p' = cancel_attempts p).
Proof.
  intros Hrtc Hstep Hi.
  assert (tcc_inv c) as Hinv.
  { apply (rtc_invariant tcc_step (fun s => tcc_inv (fst s)) (tcc_new id, w0) (c, w));
      [apply tcc_step_inv|apply tcc_new_inv|done]. }
  inversion Hstep as [q ? ? Hq|o ? ? r ? ? Ho]; subst.
  - cbn. rewrite lookup_app_l_Some with (x := p) by done. split; [done|]. eauto.
  - apply tcc_run_kept in Ho as [->|[Hk _]]; [eauto| |done].
    destruct (Forall2_lookup_l _ _ _ _ _ Hk Hi) as (p' & Hp' & Hkp).
    destruct Hinv as [Hg _]. rewrite Forall_lookup in Hg.
    destruct (Hkp (Hg _ _ Hi)) as (_ & He & Hc). split.
    + intros Hs. by rewrite <- (He Hs).
    + intros Hs. destruct (Hc Hs). eauto.
Qed.

(** No branch is confirmed. *)
Definition unconfirmed p : Prop := b_state p <> BConfirmed /\ confirm_succeeded p = false.

Lemma zip_after_cancel (l : branches) (rs : list (result unit string)) :
  length rs = length l -> Forall (fun p => confirm_succeeded p = false) l ->
  let l' := zip_with (fun p r => after_cancel (is_ok r) p) l rs in
  Forall unconfirmed l' /\ confirms l' = confirms l.
Proof.
  cbn. revert rs. induction l as [|p l IH]; intros [|r rs] Hl Hf; try done.
  apply Forall_cons in Hf as [Hs Hf]. destruct (IH rs) as [HF HC]; [by injection Hl|done|].
  cbn. split.
  - apply Forall_cons_2; [|done]. unfold unconfirmed, after_cancel. by destruct (is_ok r).
  - unfold confirms in *. f_equal; [by destruct r|exact HC].
Qed.

(** The branches a failed try phase leaves. *)
Lemma failed_try_branches c w r c1 w1 :
  c_state c = Init -> Forall fresh (c_participants c) -> execute c w = ((r, c1), w1) ->
  (exists rid e k, r = Err (TryFailed rid e k)) ->
  c_state c1 = Failed /\ Forall unconfirmed (c_participants c1) /\
  confirms (c_participants c1) = confirms (c_participants c).
Proof.
  intros Hs Hf He (rid & e & k & ->). unfold execute, ebind in He.
  destruct (try_phase c w) as [[r2 c2] w2] eqn:Ht.
  destruct (try_phase_spec _ _ _ _ _ Hs Hf Ht) as (n & oe & wt & _ & Hcase). destruct oe as [e'|].
  2: { destruct Hcase as (-> & -> & ->). rewrite bool_decide_eq_true_2 in He by done.
       unfold confirm_phase, ebind, eret in He. repeat case_match; simplify_eq. }
  destruct Hcase as (Hn & rs & Hrs & -> & ->). unfold eret in He. simplify_eq.
  apply run_best_length in Hrs. unfold cancels in Hrs. rewrite length_fmap in Hrs.
  assert (forall b (l : branches), Forall fresh l ->
    Forall (fun p => confirm_succeeded p = false) (after_try b <$> l)) as Htry.
  { intros b l Hl. apply Forall_fmap. eapply Forall_impl; [exact Hl|]. by intros p (_ & ? & _). }
  destruct (zip_after_cancel (after_try true <$> take n (c_participants c)) rs) as [HF HC].
  { by rewrite length_fmap. }
  { by apply Htry, Forall_take. }
  split; [done|]. split; cbn.
  - repeat apply Forall_app_2; [done| |].
    + apply Forall_fmap. eapply Forall_impl; [by apply Forall_take, Forall_drop|].
      by intros p (_ & ? & _).
    + eapply Forall_impl; [by apply Forall_drop|]. intros p (Hb & ? & _). split; [by rewrite Hb|done].
  - unfold confirms in *. rewrite !fmap_app, HC.
    rewrite <- (take_drop n (c_participants c)) at 4.
    rewrite <- (take_drop 1 (drop n (c_participants c))) at 2.
    rewrite drop_drop, Nat.add_1_r, !fmap_app. by rewrite <- !list_fmap_compose.
Qed.

Lemma confirm_all skip (ps : branches) w w2 :
  Forall (fun p => skip p = false /\ confirm_succeeded p = false) ps ->
  first_error (confirms ps) w = (None, w2) ->
  until_error skip branch_confirm ps w = ((None, after_confirm true <$> ps), w2).
Proof.
  intros Hf Hfe. rewrite confirm_loop_spec by done. unfold first_error, ebind, eret in *.
  destruct (run_seq (confirms ps) w) as [[n oe] w'] eqn:Hrun. simplify_eq.
  apply run_seq_length in Hrun. unfold confirms in Hrun. rewrite length_fmap in Hrun. subst.
  by rewrite progress_all.
Qed.

(** A rolled back transaction can still be confirmed.  After [execute] failed in
    the try phase the transaction is [Failed], which both [confirm_phase] and
    [retry_confirm] accept: they run the confirm callback of every branch, those whose
    reservation was cancelled and those never tried included, and when no callback
    fails the transaction is reported [Confirmed]. *)
Theorem failed_try_is_confirmable c w r c1 w1 :
  c_state c = Init -> Forall fresh (c_participants c) -> execute c w = ((r, c1), w1) ->
  (exists rid e k, r = Err (TryFailed rid e k)) ->
  forall w2, first_error (confirms (c_participants c)) w1 = (None, w2) ->
  exists c2, retry_confirm c1 w1 = ((Ok tt, c2), w2) /\ confirm_phase c1 w1 = ((Ok tt, c2), w2) /\
    c_state c2 = Confirmed /\
    Forall (fun p => confirm_succeeded p = true) (c_participants c2) /\
    (cancel_succeeded <$> c_participants c2) = (cancel_succeeded <$> c_participants c1).
Proof.
  intros Hs Hf He Hr w2 Hfe.
  destruct (failed_try_branches _ _ _ _ _ Hs Hf He Hr) as (Hst & Hun & Hcf).
  rewrite <- Hcf in Hfe. exists (set_tcc Confirmed (after_confirm true <$> c_participants c1) c1).
  assert (forall skip, (forall p, unconfirmed p -> skip p = false) ->
    until_error skip branch_confirm (c_participants c1) w1 =
    ((None, after_confirm true <$> c_participants c1), w2)) as Hrun.
  { intros skip Hskip. apply confirm_all; [|done].
    eapply Forall_impl; [exact Hun|]. intros p Hp. split; [auto|apply Hp]. }
  split_and!.
  - unfold retry_confirm, ebind. rewrite Hst. cbn [can_retry_confirm].
    rewrite Hrun; [done|]. intros p [? _]. by apply bool_decide_eq_false_2.
  - unfold confirm_phase, ebind. rewrite Hst, bool_decide_eq_true_2 by set_solver.
    by rewrite Hrun.
  - done.
  - cbn. apply Forall_fmap, Forall_true. done.
  - cbn. by rewrite <- list_fmap_compose.
Qed.

(** ** Retries *)

Lemma count_confirm_wrap a j : wrap32 (wrap32 (a + 1) + j) = wrap32 (a + (1 + j)).
Proof. unfold wrap32. rewrite Zplus_mod_idemp_l. f_equal. lia. Qed.

Lemma attempt_loop_count policy n a le p w b le' p' w' :
  confirm_succeeded p = false -> wrap32 (confirm_attempts p) = confirm_attempts p ->
  attempt_loop policy branch_confirm n a le p w = ((b, le', p'), w') ->
  exists j, j <= n /\ confirm_attempts p' = wrap32 (confirm_attempts p + Z.of_nat j) /\
    if b then 1 <= j /\ confirm_succeeded p' = true else j = n /\ confirm_succeeded p' = false.
Proof.
  revert a le p w. induction n as [|n IH]; intros a le p w Hs Hw Hl; cbn in Hl.
  { unfold eret in Hl. simplify_eq. exists 0. by rewrite Z.add_0_r. }
  unfold ebind at 1 in Hl.
  destruct ((if (0 <? a)%Z then sleep_ns (delay_for policy (a - 1)) else eret tt) w) as [u w0].
  unfold ebind in Hl. rewrite branch_confirm_run in Hl by done.
  destruct (call_opt (confirm_fn p) w0) as [[v|e] w1].
  - unfold eret in Hl. simplify_eq. exists 1. cbn. split_and!; [lia|done|lia|done].
  - apply IH in Hl as (j & Hj & Hc & Hb); [|done|].
    + exists (S j). cbn in Hc. rewrite count_confirm_wrap in Hc. split; [lia|]. split.
      * rewrite Hc. f_equal. lia.
      * destruct b; [|split; [lia|tauto]]. split; [lia|tauto].
    + cbn. unfold wrap32. by rewrite Zmod_mod.
Qed.

(** Retries are bounded.  [confirm_with_retry] calls the confirm callback of an
    unconfirmed branch at most [1 + max_retries] times, exactly that often when the
    branch is reported as failed, and a success stops it.  The bound is computed in
    [u32]: with [max_retries = u32::MAX] it wraps to zero, no callback is called at
    all, and the branch fails with the default reason. *)
Theorem confirm_retries_bounded policy p w r p' w' :
  (0 <= max_retries policy < 2 ^ 32)%Z -> (0 <= confirm_attempts p < 2 ^ 32)%Z ->
  confirm_succeeded p = false ->
  with_retries policy branch_confirm p w = ((r, p'), w') ->
  exists j, confirm_attempts p' = wrap32 (confirm_attempts p + j) /\
    (0 <= j <= 1 + max_retries policy)%Z /\ confirm_succeeded p' = is_ok r /\
    ((max_retries policy < 2 ^ 32 - 1)%Z ->
       (1 <= j)%Z /\ (is_ok r = false -> j = (1 + max_retries policy)%Z)) /\
    ((max_retries policy = 2 ^ 32 - 1)%Z -> p' = p /\ w' = w /\
       r = Err ("未知错误 (重试 " +:+ pretty (max_retries policy) +:+ " 次后仍失败)")).
Proof.
  intros Hm Ha Hs Hw. unfold with_retries, ebind in Hw.
  destruct (attempt_loop _ _ _ _ _ p w) as [[[b le] p1] w1] eqn:E.
  assert (0 <= max_attempts policy <= 1 + max_retries policy)%Z as Hma.
  { unfold max_attempts, wrap32. split; [apply Z.mod_pos_bound; lia|apply Z.mod_le; lia]. }
  destruct (attempt_loop_count _ _ _ _ _ _ _ _ _ _ Hs (wrap32_small _ Ha) E) as (j & Hj & Hc & Hb).
  assert ((max_retries policy < 2 ^ 32 - 1)%Z -> max_attempts policy = 1 + max_retries policy)%Z as Hsmall.
  { intros. unfold max_attempts. apply wrap32_small. lia. }
  assert (p1 = p' /\ w1 = w' /\ is_ok r = b) as (-> & -> & Hr).
  { destruct b; unfold eret in Hw; by simplify_eq. }
  exists (Z.of_nat j). split; [done|]. split; [lia|]. split.
  { rewrite Hr. destruct b; tauto. }
  split.
  - intros Hlt. specialize (Hsmall Hlt). rewrite Hr. destruct b; [split; [lia|done]|].
    destruct Hb as [-> _]. lia.
  - intros Heq. assert (max_attempts policy = 0)%Z as Hz by (unfold max_attempts; by rewrite Heq).
    rewrite Hz in E. change (Z.to_nat 0) with 0 in E. cbn in E. unfold eret in E.
    injection E as Hb' <- <- <-. rewrite <- Hb' in Hw. unfold eret in Hw. injection Hw as <-. done.
Qed.
End Safety.

(** * Closed instances *)

Section Instances.

(** A saturating stand-in for [f64]: integers. *)
#[local] Instance Z_F64 : F64 := {|
  f64 := Z; of_u64 := fun z => z; fmul := Z.mul; powi := Z.pow; fmin := Z.min; as_u64 := fun z => z;
|}.

Definition sim_branch (id : string) (rt rc : result unit string) : TccParticipant SimWorld :=
  with_cancel (sim_call ("cancel " +:+ id) (Ok tt))
    (with_confirm (sim_call ("confirm " +:+ id) rc)
      (with_try (sim_call ("try " +:+ id) rt) (tcc_participant_new id))).

Definition sim_tcc : TccCoordinator SimWorld :=
  add_participant (sim_branch "c" (Ok tt) (Ok tt))
    (add_participant (sim_branch "b" (Err "no stock") (Ok tt))
      (add_participant (sim_branch "a" (Ok tt) (Ok tt)) (tcc_new "t"))).

Lemma sim_tcc_fresh : Forall fresh (c_participants sim_tcc).
Proof. repeat constructor. Defined.

Lemma tcc_execute_protocol_witness :
  exists n e w1, run_seq (tries (c_participants sim_tcc)) sim0 = ((n, Some e), w1) /\ n < 3 /\
    sim_trace (snd (execute sim_tcc sim0)) = ["try a"; "try b"; "cancel a"].
Proof.
  destruct (tcc_execute_protocol sim_tcc sim0 _ _ _ eq_refl sim_tcc_fresh eq_refl)
    as (n & [e|] & w1 & Hrun & Hcase).
  - exists n, e, w1. split; [exact Hrun|]. split; [apply Hcase|reflexivity].
  - vm_compute in Hrun. discriminate.
Defined.

(** The confirm of the second branch fails: the transaction is half confirmed. *)
Definition sim_tcc_half : TccCoordinator SimWorld :=
  add_participant (sim_branch "b" (Ok tt) (Err "down"))
    (add_participant (sim_branch "a" (Ok tt) (Ok tt)) (tcc_new "t")).

Lemma tcc_outcomes_final_witness :
  let '((_, c1), w1) := execute sim_tcc_half sim0 in
  let '((_, c2), w2) := retry_cancel c1 w1 in
  c_participants c2 !! 0 = c_participants c1 !! 0 /\
  sim_trace w2 = ["try a"; "try b"; "confirm a"; "confirm b"; "cancel b"].
Proof.
  destruct (execute sim_tcc_half sim0) as [[r1 c1] w1] eqn:E1.
  destruct (retry_cancel c1 w1) as [[r2 c2] w2] eqn:E2.
  assert (rtc tcc_step (tcc_new "t", sim0) (c1, w1)) as Hr.
  { eapply rtc_l; [apply (step_add (sim_branch "a" (Ok tt) (Ok tt))); repeat constructor|].
    eapply rtc_l; [apply (step_add (sim_branch "b" (Ok tt) (Err "down"))); repeat constructor|].
    eapply rtc_l; [exact (step_op OpExecute _ _ _ _ _ E1)|apply rtc_refl]. }
  destruct (c_participants c1 !! 0) as [p|] eqn:Hp; vm_compute in E1; simplify_eq.
  destruct (tcc_outcomes_final _ _ _ _ _ _ 0 _ Hr (step_op OpRetryCancel _ _ _ _ _ E2) Hp) as [Hc _].
  split; [|vm_compute in E2; by simplify_eq].
  rewrite Hc; [done|]. vm_compute in Hp. by simplify_eq.
Defined.

Lemma failed_try_is_confirmable_witness :
  let '((_, c1), w1) := execute sim_tcc sim0 in
  let '((r, c2), w2) := retry_confirm c1 w1 in
  r = Ok tt /\ c_state c2 = Confirmed /\
  sim_trace w2 = ["try a"; "try b"; "cancel a"; "confirm a"; "confirm b"; "confirm c"].
Proof.
  destruct (failed_try_is_confirmable sim_tcc sim0 _ _ _ eq_refl sim_tcc_fresh eq_refl
    ltac:(do 3 eexists; reflexivity) _ eq_refl) as (c2 & _ & _ & _ & _).
  vm_compute. auto.
Defined.

Lemma confirm_retries_bounded_witness :
  let policy := mkRetryPolicy _ 2 1 5 2%Z in
  let p := sim_branch "a" (Ok tt) (Err "down") in
  confirm_attempts (snd (fst (with_retries policy branch_confirm p sim0))) = 3%Z.
Proof.
  intros policy p.
  destruct (confirm_retries_bounded policy p sim0 _ _ _ ltac:(vm_compute; split; [discriminate|reflexivity])
    ltac:(vm_compute; split; [discriminate|reflexivity]) eq_refl eq_refl) as (j & Hc & _ & _ & Hj & _).
  destruct Hj as [_ Hj]; [reflexivity|]. etransitivity; [exact Hc|]. rewrite Hj; reflexivity.
Defined.
End Instances.
