(* ===== verification/Saga.v ===== *)
(** Orchestrated sagas: [packages/sz-orm-dtx/src/saga.rs]. *)

From S2P Require Import Prelude.
Local Open Scope eff_scope.

(** * Log *)

Inductive SagaLogAction : Type :=
| StepStarted | StepCompleted | StepFailed
| CompensationStarted | CompensationCompleted | CompensationFailed
| SagaCompleted | SagaCompensated.

#[export] Instance SagaLogAction_eq_dec : EqDecision SagaLogAction.
Proof. solve_decision. Defined.

Record SagaLogEntry : Type := mkSagaEntry {
  e_saga_id : string;
  e_step_name : string;
  e_step_index : nat;
  e_action : SagaLogAction;
  e_timestamp : Z;
  e_payload : option string;
}.

(** The trait [SagaLog]. *)
Record SagaLog (W : Type) : Type := mkSagaLog {
  log_append : SagaLogEntry -> Eff W (result unit string);
  read_all : string -> Eff W (result (list SagaLogEntry) string);
}.
Arguments mkSagaLog {W}.
Arguments log_append {W}.
Arguments read_all {W}.

Definition saga_mem_append (e : SagaLogEntry) (entries : list SagaLogEntry) : list SagaLogEntry :=
  entries ++ [e].

Definition saga_mem_read (id : string) (entries : list SagaLogEntry) : list SagaLogEntry :=
  filter (fun e => e_saga_id e = id) entries.

Definition InMemorySagaLog {W} (L : Lens W (list SagaLogEntry)) : SagaLog W := {|
  log_append e := fun w => (Ok tt, lset L (saga_mem_append e (lget L w)) w);
  read_all id := fun w => (Ok (saga_mem_read id (lget L w)), w);
|}.

(** [.map(|d| d.as_millis() as i64).unwrap_or(0)] *)
Definition current_timestamp_millis {W} `{Clock W} : Eff W Z :=
  let* ms := system_millis in eret (Z.max 0 ms).

(** * Timeouts *)

(** Durations in nanoseconds. *)
Record SagaTimeout : Type := mkTimeout { step_timeout : Z; total_timeout : Z }.

Definition default_timeout : SagaTimeout := mkTimeout (30 * 10 ^ 9) (300 * 10 ^ 9).

(** The digits of [frac / (10 * divisor)] without trailing zeros. *)
Fixpoint frac_digits (n : nat) (frac divisor : Z) : string :=
  match n with
  | 0 => ""
  | S n' =>
      if (frac =? 0)%Z then ""
      else pretty (frac / divisor)%Z +:+ frac_digits n' (frac mod divisor) (divisor / 10)
  end.

Definition fmt_decimal (int frac divisor : Z) (suffix : string) : string :=
  pretty int +:+ (if (frac =? 0)%Z then "" else "." +:+ frac_digits 9 frac divisor) +:+ suffix.

(** [{:?}] of a [Duration]. *)
Definition debug_duration (ns : Z) : string :=
  if (10 ^ 9 <=? ns)%Z then fmt_decimal (ns / 10 ^ 9) (ns mod 10 ^ 9) (10 ^ 8) "s"
  else if (10 ^ 6 <=? ns)%Z then fmt_decimal (ns / 10 ^ 6) (ns mod 10 ^ 6) (10 ^ 5) "ms"
  else if (10 ^ 3 <=? ns)%Z then fmt_decimal (ns / 10 ^ 3) (ns mod 10 ^ 3) (10 ^ 2) "µs"
  else fmt_decimal ns 0 1 "ns".

(** [start.elapsed()] *)
Definition elapsed {W} `{Clock W} (start : Z) : Eff W Z :=
  let* now := instant_now in eret (Z.max 0 (now - start)).

(** * Steps *)

(** [SagaState] *)
Inductive SagaState : Type :=
| SNew | SRunning | SCompleted | SCompensating | SCompensated | SCompensationFailed | SFailed.

#[export] Instance SagaState_eq_dec : EqDecision SagaState.
Proof. solve_decision. Defined.

Definition debug_SagaState (s : SagaState) : string :=
  match s with
  | SNew => "New" | SRunning => "Running" | SCompleted => "Completed"
  | SCompensating => "Compensating" | SCompensated => "Compensated"
  | SCompensationFailed => "CompensationFailed" | SFailed => "Failed"
  end.

(** [StepState] *)
Inductive StepState : Type := TPending | TCompleted | TCompensated | TFailed | TCompensationFailed.

#[export] Instance StepState_eq_dec : EqDecision StepState.
Proof. solve_decision. Defined.

Record SagaStep (W : Type) : Type := mkStep {
  st_name : string;
  st_state : StepState;
  action : option (Callback W);
  compensation : option (Callback W);
}.
Arguments mkStep {W}.
Arguments st_name {W}.
Arguments st_state {W}.
Arguments action {W}.
Arguments compensation {W}.

Section Step.
Context {W : Type}.
Implicit Types st : SagaStep W.

Definition step_new (name : string) : SagaStep W := mkStep name TPending None None.
Definition with_action (f : Callback W) st : SagaStep W :=
  mkStep (st_name st) (st_state st) (Some f) (compensation st).
Definition with_compensation (f : Callback W) st : SagaStep W :=
  mkStep (st_name st) (st_state st) (action st) (Some f).
Definition set_step_state (s : StepState) st : SagaStep W :=
  mkStep (st_name st) s (action st) (compensation st).

Definition execute_action st : Eff W (result unit string * SagaStep W) :=
  match action st with
  | Some f =>
      let* r := f in
      match r with
      | Ok _ => eret (Ok tt, set_step_state TCompleted st)
      | Err e => eret (Err e, set_step_state TFailed st)
      end
  | None => eret (Ok tt, set_step_state TCompleted st)
  end.

Definition execute_compensation st : Eff W (result unit string * SagaStep W) :=
  match compensation st with
  | Some f =>
      let* r := f in
      match r with
      | Ok _ => eret (Ok tt, set_step_state TCompensated st)
      | Err e => eret (Err e, set_step_state TCompensationFailed st)
      end
  | None => eret (Ok tt, set_step_state TCompensated st)
  end.

Definition is_completed st : bool := bool_decide (st_state st = TCompleted).
Definition needs_compensation st : bool :=
  match st_state st with TCompleted => true | _ => false end.
End Step.

(** [SagaResult] *)
Inductive SagaResult : Type :=
| RSuccess
| RCompensated (failed_step reason : string)
| RCompensationFailed (failed_step failure_reason compensation_failed_step
    compensation_reason : string).

(** * Sagas *)

Record Saga (W : Type) : Type := mkSaga {
  saga_id : string;
  s_state : SagaState;
  steps : list (SagaStep W);
  completed_count : nat;
  last_result : option SagaResult;
  s_log : option (SagaLog W);
  s_timeout : option SagaTimeout;
}.
Arguments mkSaga {W}.
Arguments saga_id {W}.
Arguments s_state {W}.
Arguments steps {W}.
Arguments completed_count {W}.
Arguments last_result {W}.
Arguments s_log {W}.
Arguments s_timeout {W}.

Section Saga.
Context {W : Type} `{Clock W}.
Implicit Types s : Saga W.
Implicit Types st : SagaStep W.

Definition saga_new (id : string) : Saga W := mkSaga id SNew [] 0 None None None.

Definition set_state (x : SagaState) s : Saga W :=
  mkSaga (saga_id s) x (steps s) (completed_count s) (last_result s) (s_log s) (s_timeout s).
Definition set_steps (l : list (SagaStep W)) s : Saga W :=
  mkSaga (saga_id s) (s_state s) l (completed_count s) (last_result s) (s_log s) (s_timeout s).
Definition set_completed (n : nat) s : Saga W :=
  mkSaga (saga_id s) (s_state s) (steps s) n (last_result s) (s_log s) (s_timeout s).
Definition set_result (r : option SagaResult) s : Saga W :=
  mkSaga (saga_id s) (s_state s) (steps s) (completed_count s) r (s_log s) (s_timeout s).

Definition add_step st s : result unit string * Saga W :=
  if bool_decide (s_state s <> SNew /\ s_state s <> SCompensating) then
    (Err ("Cannot add step to Saga in state " +:+ debug_SagaState (s_state s)
          +:+ " (only New or Compensating allowed)"), s)
  else (Ok tt, set_steps (steps s ++ [st]) s).

Definition with_step st s : Saga W :=
  if bool_decide (s_state s = SNew) then set_steps (steps s ++ [st]) s else s.

Definition with_log (l : SagaLog W) s : Saga W :=
  mkSaga (saga_id s) (s_state s) (steps s) (completed_count s) (last_result s) (Some l) (s_timeout s).

Definition with_timeout (t : SagaTimeout) s : Saga W :=
  mkSaga (saga_id s) (s_state s) (steps s) (completed_count s) (last_result s) (s_log s) (Some t).

Definition append_step_log s (step_index : nat) (step_name : string) (a : SagaLogAction)
    (payload : option string) : Eff W unit :=
  match s_log s with
  | None => eret tt
  | Some l =>
      let* ts := current_timestamp_millis in
      let* _ := log_append l (mkSagaEntry (saga_id s) step_name step_index a ts payload) in
      eret tt
  end.

Definition append_saga_log s (a : SagaLogAction) (payload : option string) : Eff W unit :=
  match s_log s with
  | None => eret tt
  | Some l =>
      let* ts := current_timestamp_millis in
      let* _ := log_append l (mkSagaEntry (saga_id s) "" 0 a ts payload) in
      eret tt
  end.

(** The loop [for i in (0..n).rev()] of [compensate].  [None] is the panic of
    [self.steps[i]] out of range. *)
Fixpoint compensate_loop (n : nat) s : Eff W (option (result unit (string * string)) * Saga W) :=
  match n with
  | 0 =>
      let* _ := append_saga_log s SagaCompensated None in
      eret (Some (Ok tt), s)
  | S i =>
      match steps s !! i with
      | None => eret (None, s)
      | Some st =>
          if needs_compensation st then
            let* _ := append_step_log s i (st_name st) CompensationStarted None in
            let* (r, st') := execute_compensation st in
            let s := set_steps (<[i := st']> (steps s)) s in
            match r with
            | Ok _ =>
                let* _ := append_step_log s i (st_name st) CompensationCompleted None in
                compensate_loop i s
            | Err e =>
                let* _ := append_step_log s i (st_name st) CompensationFailed (Some e) in
                eret (Some (Err (st_name st, e)), s)
            end
          else compensate_loop i s
      end
  end.

Definition compensate s : Eff W (option (result unit (string * string)) * Saga W) :=
  compensate_loop (completed_count s) s.

Definition finalize_compensation (comp_result : result unit (string * string))
    (failed_step failure_reason : string) s : result SagaResult string * Saga W :=
  match comp_result with
  | Ok _ =>
      let result := RCompensated failed_step failure_reason in
      (Ok result, set_result (Some result) (set_state SCompensated s))
  | Err (comp_step, comp_reason) =>
      let result := RCompensationFailed failed_step failure_reason comp_step comp_reason in
      (Ok result, set_result (Some result) (set_state SCompensationFailed s))
  end.

(** [self.state = Compensating; let r = self.compensate();
    return self.finalize_compensation(r, failed_step, reason)] *)
Definition compensate_and_finalize (failed_step reason : string) s :
    Eff W (option (result SagaResult string) * Saga W) :=
  let* (comp_result, s) := compensate (set_state SCompensating s) in
  match comp_result with
  | None => eret (None, s)
  | Some r =>
      let '(res, s) := finalize_compensation r failed_step reason s in
      eret (Some res, s)
  end.

(** [state = Completed; last_result = Some(Success); log SagaCompleted] *)
Definition complete s : Eff W (option (result SagaResult string) * Saga W) :=
  let s := set_result (Some RSuccess) (set_state SCompleted s) in
  let* _ := append_saga_log s SagaCompleted None in
  eret (Some (Ok RSuccess), s).

(** The marking loop: the first [completed_count] pending steps become completed. *)
Definition mark_completed s : Saga W :=
  set_steps (imap (fun i st =>
    if bool_decide (i < completed_count s) && bool_decide (st_state st = TPending)
    then set_step_state TCompleted st else st) (steps s)) s.

(** The check of the total timeout before a step: the reason when it has passed. *)
Definition total_timeout_check (start : Z) s : Eff W (option string) :=
  match s_timeout s with
  | None => eret None
  | Some t =>
      let* e1 := elapsed start in
      if (total_timeout t <=? e1)%Z then
        let* e2 := elapsed start in
        eret (Some ("Saga 总执行时间超时 (elapsed=" +:+ debug_duration e2 +:+ ", limit="
                    +:+ debug_duration (total_timeout t) +:+ ")"))
      else eret None
  end.

Definition step_timeout_check (name : string) (step_elapsed : Z) s : option string :=
  match s_timeout s with
  | None => None
  | Some t =>
      if (step_timeout t <=? step_elapsed)%Z then
        Some ("步骤 " +:+ name +:+ " 超时 (elapsed=" +:+ debug_duration step_elapsed
              +:+ ", limit=" +:+ debug_duration (step_timeout t) +:+ ")")
      else None
  end.

(** The loop [for i in i..i+n] of [execute]. *)
Fixpoint run_steps (start : Z) (n i : nat) s :
    Eff W (option (result SagaResult string) * Saga W) :=
  match n with
  | 0 => complete s
  | S n' =>
      match steps s !! i with
      | None => eret (None, s)
      | Some st =>
          let step_name := st_name st in
          let* late := total_timeout_check start s in
          match late with
          | Some reason =>
              let* _ := append_step_log s i step_name StepFailed (Some reason) in
              compensate_and_finalize "" reason s
          | None =>
              let* _ := append_step_log s i step_name StepStarted None in
              let* step_start := instant_now in
              let* (r, st') := execute_action st in
              let s := set_steps (<[i := st']> (steps s)) s in
              match r with
              | Ok _ =>
                  let* step_elapsed := elapsed step_start in
                  let s := set_completed (S i) s in
                  let* _ := append_step_log s i step_name StepCompleted None in
                  match step_timeout_check step_name step_elapsed s with
                  | Some reason => compensate_and_finalize step_name reason s
                  | None => run_steps start n' (S i) s
                  end
              | Err e =>
                  let* _ := append_step_log s i step_name StepFailed (Some e) in
                  compensate_and_finalize step_name e s
              end
          end
      end
  end.

Definition execute s : Eff W (option (result SagaResult string) * Saga W) :=
  if bool_decide (s_state s <> SNew) then
    eret (Some (Err ("Cannot execute Saga in state " +:+ debug_SagaState (s_state s)
                     +:+ " (only New allowed)")), s)
  else
    match steps s with
    | [] => complete s
    | _ =>
        if length (steps s) <=? completed_count s then complete s
        else
          let s := set_state SRunning s in
          let* start := instant_now in
          let s := mark_completed s in
          run_steps start (length (steps s) - completed_count s) (completed_count s) s
    end.

Definition reset s : Saga W :=
  mkSaga (saga_id s) SNew (set_step_state TPending <$> steps s) 0 None (s_log s) (s_timeout s).

Definition state_after (last : SagaLogAction) : SagaState :=
  match last with
  | StepStarted | StepCompleted => SNew
  | StepFailed | CompensationStarted | CompensationCompleted => SCompensating
  | CompensationFailed => SCompensationFailed
  | SagaCompleted => SCompleted
  | SagaCompensated => SCompensated
  end.

Definition recover_from_log (id : string) (l : SagaLog W) : Eff W (result (Saga W) string) :=
  let* r := read_all l id in
  match r with
  | Err e => eret (Err e)
  | Ok entries =>
      match last entries with
      | None => eret (Err ("Saga " +:+ id +:+ " 的日志为空，无法恢复"))
      | Some e =>
          let count := length (filter (fun e => e_action e = StepCompleted) entries) in
          eret (Ok (set_state (state_after (e_action e)) (set_completed count (saga_new id))))
      end
  end.

Definition resume_reason : string := "从日志恢复后补偿".

Definition resume_compensation s : Eff W (option (result SagaResult string) * Saga W) :=
  if bool_decide (s_state s <> SCompensating) then
    eret (Some (Err ("Cannot resume compensation in state " +:+ debug_SagaState (s_state s)
                     +:+ " (only Compensating allowed)")), s)
  else
    match steps s with
    | [] => eret (Some (Err "无法补偿：步骤未注册"), s)
    | _ =>
        let s := mark_completed s in
        let* (comp_result, s) := compensate s in
        match comp_result with
        | None => eret (None, s)
        | Some r =>
            let '(res, s) := finalize_compensation r "" resume_reason s in
            eret (Some res, s)
        end
    end.
End Saga.

(** * Manager *)

Section Manager.
Context {W : Type} `{Clock W}.
Abbreviation SagaManager := (gmap string (Saga W)).

Definition manager_register (s : Saga W) (m : SagaManager) : result unit string * SagaManager :=
  match m !! saga_id s with
  | Some _ => (Err ("Saga " +:+ saga_id s +:+ " already exists"), m)
  | None => (Ok tt, <[saga_id s := s]> m)
  end.

Definition saga_not_found (id : string) : string := "Saga " +:+ id +:+ " not found".

Definition manager_execute (id : string) (m : SagaManager) :
    Eff W (option (result SagaResult string) * SagaManager) :=
  modify_entry id (Some (Err (saga_not_found id))) execute m.

Definition manager_state (id : string) (m : SagaManager) : option SagaState :=
  s_state <$> m !! id.

Definition manager_step_states (id : string) (m : SagaManager) : option (list StepState) :=
  (fun s => st_state <$> steps s) <$> m !! id.

Definition manager_list (m : SagaManager) : list string := sorted_keys m.

Definition manager_remove (id : string) (m : SagaManager) : option SagaState * SagaManager :=
  (s_state <$> m !! id, delete id m).

Definition manager_reset (id : string) (m : SagaManager) : result unit string * SagaManager :=
  match m !! id with
  | None => (Err (saga_not_found id), m)
  | Some s => (Ok tt, <[id := reset s]> m)
  end.
End Manager.

(** * Reference semantics *)

Section Spec.
Context {W : Type} `{Clock W}.
Implicit Types s : Saga W.
Implicit Types st : SagaStep W.
Abbreviation steps_t := (list (SagaStep W)).

(** The action of step [i], between its log entries and clock readings. *)
Definition logged_action s (i : nat) st : Callback W :=
  let* _ := append_step_log s i (st_name st) StepStarted None in
  let* _ := instant_now in
  let* r := call_opt (action st) in
  match r with
  | Ok _ =>
      let* _ := instant_now in
      let* _ := append_step_log s i (st_name st) StepCompleted None in
      eret (Ok tt)
  | Err e =>
      let* _ := append_step_log s i (st_name st) StepFailed (Some e) in
      eret (Err e)
  end.

(** The compensation of step [i], between its log entries. *)
Definition logged_compensation s (i : nat) st : Callback W :=
  let* _ := append_step_log s i (st_name st) CompensationStarted None in
  let* r := call_opt (compensation st) in
  match r with
  | Ok _ =>
      let* _ := append_step_log s i (st_name st) CompensationCompleted None in
      eret (Ok tt)
  | Err e =>
      let* _ := append_step_log s i (st_name st) CompensationFailed (Some e) in
      eret (Err e)
  end.

(** The compensations of the first [n] steps, last step first. *)
Definition compensations s (n : nat) (l : steps_t) : list (Callback W) :=
  reverse (imap (logged_compensation s) (take n l)).

Definition name_of (n : nat) (l : steps_t) : string :=
  match l !! n with Some st => st_name st | None => "" end.

(** The steps after [m] of the first [n] were compensated, and the next one failed. *)
Definition after_compensations (n m : nat) (failed : bool) (l : steps_t) : steps_t :=
  let k := n - m in
  (if failed then take (k - 1) l ++ (set_step_state TCompensationFailed <$> drop (k - 1) (take k l))
   else take k l)
  ++ (set_step_state TCompensated <$> drop k (take n l)) ++ drop n l.

Definition all_completed (l : steps_t) : Prop := Forall (fun st => st_state st = TCompleted) l.

Lemma compensations_0 s (l : steps_t) : compensations s 0 l = [].
Proof. unfold compensations. by rewrite take_0. Qed.

Lemma after_compensations_0 (l : steps_t) : after_compensations 0 0 false l = l.
Proof. done. Qed.

Lemma set_steps_id s : set_steps (steps s) s = s.
Proof. by destruct s. Qed.

#[local] Arguments compensations : simpl never.
#[local] Arguments after_compensations : simpl never.

Lemma compensations_snoc s (l l2 : steps_t) st :
  compensations s (S (length l)) (l ++ st :: l2) =
  logged_compensation s (length l) st :: compensations s (length l) (l ++ st :: l2).
Proof.
  unfold compensations. rewrite take_app_length.
  replace (take (S (length l)) (l ++ st :: l2)) with (l ++ [st]).
  - rewrite imap_app. cbn. by rewrite reverse_snoc, Nat.add_0_r.
  - rewrite <- Nat.add_1_r, take_app_add. by destruct l2.
Qed.

Lemma execute_compensation_run st w :
  execute_compensation st w =
  let '(r, w1) := call_opt (compensation st) w in
  ((r, set_step_state (if is_ok r then TCompensated else TCompensationFailed) st), w1).
Proof.
  unfold execute_compensation, ebind, eret. destruct (compensation st) as [f|]; cbn; [|done].
  by destruct (f w) as [[[]|e] w1].
Qed.

Lemma execute_action_run st w :
  execute_action st w =
  let '(r, w1) := call_opt (action st) w in
  ((r, set_step_state (if is_ok r then TCompleted else TFailed) st), w1).
Proof.
  unfold execute_action, ebind, eret. destruct (action st) as [f|]; cbn; [|done].
  by destruct (f w) as [[[]|e] w1].
Qed.

Lemma compensations_prefix s (l l1 l2 x : steps_t) :
  compensations (set_steps x s) (length l) (l ++ l1) = compensations s (length l) (l ++ l2).
Proof. unfold compensations. by rewrite !take_app_length. Qed.

Lemma compensations_length s (l l2 : steps_t) :
  length (compensations s (length l) (l ++ l2)) = length l.
Proof. unfold compensations. by rewrite take_app_length, length_reverse, length_imap. Qed.

Lemma after_compensations_S m failed (l l2 : steps_t) st :
  m <= length l ->
  after_compensations (S (length l)) (S m) failed (l ++ st :: l2) =
  after_compensations (length l) m failed (l ++ set_step_state TCompensated st :: l2).
Proof.
  intros Hm. unfold after_compensations. replace (S (length l) - S m) with (length l - m) by lia.
  set (k := length l - m). assert (k <= length l) as Hk by lia.
  rewrite !(take_app_le l _ k), !(take_app_le l _ (k - 1)), take_app_length, drop_app_length by lia.
  replace (take (S (length l)) (l ++ st :: l2)) with (l ++ [st]).
  2: { rewrite <- Nat.add_1_r, take_app_add. by destruct l2. }
  replace (drop (S (length l)) (l ++ st :: l2)) with l2.
  2: { by rewrite <- Nat.add_1_r, drop_app_add. }
  rewrite drop_app_le, fmap_app by lia. cbn. by rewrite <- !app_assoc.
Qed.

Lemma name_of_prefix i (l l1 l2 : steps_t) :
  i < length l -> name_of i (l ++ l1) = name_of i (l ++ l2).
Proof. intros. unfold name_of. by rewrite !lookup_app_l. Qed.

Lemma after_compensations_first_failed (l l2 : steps_t) st :
  after_compensations (S (length l)) 0 true (l ++ st :: l2) =
  l ++ set_step_state TCompensationFailed st :: l2.
Proof.
  unfold after_compensations. rewrite Nat.sub_0_r. cbn [Nat.sub]. rewrite Nat.sub_0_r.
  replace (take (S (length l)) (l ++ st :: l2)) with (l ++ [st]).
  2: { rewrite <- Nat.add_1_r, take_app_add. by destruct l2. }
  rewrite take_app_length, drop_app_length, drop_ge by (rewrite length_app; cbn; lia).
  replace (drop (S (length l)) (l ++ st :: l2)) with l2.
  2: { by rewrite <- Nat.add_1_r, drop_app_add. }
  cbn. by rewrite <- app_assoc.
Qed.

(** The compensation loop over the completed steps [l]. *)
Lemma compensate_loop_spec s (l l2 : steps_t) :
  all_completed l -> steps s = l ++ l2 ->
  compensate_loop (length l) s =eff=
  let* (m, oe) := run_seq (compensations s (length l) (steps s)) in
  let s' := set_steps (after_compensations (length l) m (is_some oe) (steps s)) s in
  match oe with
  | None => let* _ := append_saga_log s SagaCompensated None in eret (Some (Ok tt), s')
  | Some e => eret (Some (Err (name_of (length l - S m) (steps s), e)), s')
  end.
Proof.
  revert s l2. induction l as [|st l IH] using rev_ind; intros s l2 Hl Hs w.
  - cbn [length compensate_loop]. rewrite compensations_0. cbn. unfold ebind, eret.
    destruct (append_saga_log s SagaCompensated None w) as [u w1].
    by rewrite after_compensations_0, set_steps_id.
  - apply Forall_app in Hl as [Hl Hst]. inversion Hst as [|? ? Hst1 _]; subst.
    rewrite <- app_assoc in Hs. cbn [app] in Hs.
    rewrite length_app, Nat.add_1_r. cbn [compensate_loop].
    rewrite Hs, compensations_snoc, lookup_middle. unfold needs_compensation. rewrite Hst1.
    unfold ebind. rewrite run_seq_cons. unfold logged_compensation at 1, ebind.
    destruct (append_step_log s (length l) (st_name st) CompensationStarted None w) as [u w1].
    rewrite execute_compensation_run.
    destruct (call_opt (compensation st) w1) as [[u2|e] w2]; cbn [is_ok].
    + change (append_step_log (set_steps ?l s)) with (append_step_log s).
      destruct (append_step_log s (length l) (st_name st) CompensationCompleted None w2) as [u3 w3].
      rewrite insert_middle, (IH (set_steps _ s) (set_step_state TCompensated st :: l2) Hl eq_refl w3).
      cbn [steps set_steps]. rewrite (compensations_prefix s l _ (st :: l2)).
      unfold ebind, eret. lazy beta iota zeta.
      destruct (run_seq (compensations s (length l) (l ++ st :: l2)) w3) as [[m oe] w4] eqn:Hrun.
      apply run_seq_length in Hrun. rewrite compensations_length in Hrun.
      assert (m <= length l) as Hm by (destruct oe; lia).
      rewrite after_compensations_S by done. destruct oe as [e|].
      * by rewrite (name_of_prefix _ l _ (st :: l2)) by lia.
      * done.
    + change (append_step_log (set_steps ?x s)) with (append_step_log s).
      destruct (append_step_log s (length l) (st_name st) CompensationFailed (Some e) w2) as [u3 w3].
      unfold eret. rewrite after_compensations_first_failed, insert_middle.
      unfold name_of. rewrite Nat.sub_succ, Nat.sub_0_r, lookup_middle. done.
Qed.

(** [s] with new steps and a new count. *)
Definition upd (l : steps_t) (n : nat) s : Saga W := set_completed n (set_steps l s).

Definition actions s (i : nat) (l : steps_t) : list (Callback W) :=
  imap (fun j => logged_action s (i + j)) l.

#[local] Arguments actions : simpl never.

Lemma actions_cons s i st (l : steps_t) :
  actions s i (st :: l) = logged_action s i st :: actions s (S i) l.
Proof.
  unfold actions. rewrite imap_cons, Nat.add_0_r. f_equal. apply imap_ext. intros j x _. cbn.
  by rewrite Nat.add_succ_r.
Qed.

(** The steps after [n] of them ran, and the next one failed. *)
Definition after_actions (n : nat) (failed : bool) (l : steps_t) : steps_t :=
  (set_step_state TCompleted <$> take n l)
  ++ (if failed then set_step_state TFailed <$> take 1 (drop n l) else take 1 (drop n l))
  ++ drop (S n) l.

#[local] Arguments after_actions : simpl never.

Lemma after_actions_cons n failed st (l : steps_t) :
  after_actions (S n) failed (st :: l) = set_step_state TCompleted st :: after_actions n failed l.
Proof. done. Qed.

(** The loop of [execute] over the steps [rest], without timeouts. *)
Lemma run_steps_spec start s (pre rest : steps_t) :
  s_timeout s = None -> steps s = pre ++ rest -> completed_count s = length pre ->
  run_steps start (length rest) (length pre) s =eff=
  let* (k, oe) := run_seq (actions s (length pre) rest) in
  let s' := upd (pre ++ after_actions k (is_some oe) rest) (length pre + k) s in
  match oe with
  | None => complete s'
  | Some e => compensate_and_finalize (name_of k rest) e s'
  end.
Proof.
  revert s pre. induction rest as [|st rest IH]; intros s pre Ht Hs Hc w.
  { cbn [length run_steps]. unfold ebind. change (run_seq (actions s (length pre) []) w) with ((0, @None string), w).
    lazy beta iota zeta. change (after_actions 0 (is_some None) []) with ([] : steps_t). unfold upd.
    rewrite <- Hs, Nat.add_0_r, <- Hc. by destruct s. }
  rewrite actions_cons. cbn [length run_steps]. rewrite Hs, lookup_middle.
  unfold total_timeout_check. rewrite Ht. unfold ebind. rewrite run_seq_cons.
  unfold logged_action, ebind, eret. lazy beta iota zeta.
  destruct (append_step_log s (length pre) (st_name st) StepStarted None w) as [u1 w1].
  destruct (instant_now w1) as [t1 w2]. rewrite execute_action_run.
  destruct (call_opt (action st) w2) as [[u|e] w3]; lazy beta iota zeta; cbn [is_ok];
    rewrite insert_middle.
  - unfold elapsed, ebind, eret. destruct (instant_now w3) as [t2 w4]. lazy beta iota zeta.
    change (append_step_log (set_completed ?n (set_steps ?l s))) with (append_step_log s).
    destruct (append_step_log s (length pre) (st_name st) StepCompleted None w4) as [u2 w5].
    unfold step_timeout_check. cbn [s_timeout set_completed set_steps]. rewrite Ht.
    pose proof (IH (upd (pre ++ set_step_state TCompleted st :: rest) (S (length pre)) s)
      (pre ++ [set_step_state TCompleted st]) Ht) as IH'. cbn in IH'.
    rewrite length_app, <- app_assoc, Nat.add_1_r in IH'. specialize (IH' eq_refl eq_refl w5).
    unfold upd in IH' at 1. rewrite IH'. unfold ebind.
    change (actions (upd ?l ?n s)) with (actions s).
    destruct (run_seq (actions s (S (length pre)) rest) w5) as [[k oe] w6].
    rewrite after_actions_cons. unfold upd. cbn [set_steps set_completed]. rewrite <- app_assoc. cbn [app].
    by rewrite Nat.add_succ_r.
  - change (append_step_log (set_steps ?l s)) with (append_step_log s).
    destruct (append_step_log s (length pre) (st_name st) StepFailed (Some e) w3) as [u2 w4].
    unfold upd, after_actions. cbn. by rewrite Nat.add_0_r, <- Hc.
Qed.

Lemma compensations_set_state s x (l l1 l2 : steps_t) :
  compensations s (length l) ((set_step_state x <$> l) ++ l1) = compensations s (length l) (l ++ l2).
Proof.
  unfold compensations. rewrite take_app_length.
  replace (take (length l) ((set_step_state x <$> l) ++ l1)) with (set_step_state x <$> l).
  - by rewrite imap_fmap.
  - rewrite <- (length_fmap (set_step_state x) l). by rewrite take_app_length.
Qed.

Lemma append_saga_log_unit s a p w : exists w', append_saga_log s a p w = (tt, w').
Proof. destruct (append_saga_log s a p w) as [[] w']. eauto. Qed.

(** What compensating the first [n] steps of [l] leads to, [l'] being the steps with
    their states at that point. *)
Definition compensated_outcome s (failed_step reason : string) (n : nat) (l l' : steps_t) (w : W)
    (r : SagaResult) s' (w' : W) : Prop :=
  exists m oe w2, run_seq (compensations s n l) w = ((m, oe), w2) /\
    steps s' = after_compensations n m (is_some oe) l' /\
    match oe with
    | None =>
        m = n /\ r = RCompensated failed_step reason /\ s_state s' = SCompensated /\
        append_saga_log s SagaCompensated None w2 = (tt, w')
    | Some e =>
        m < n /\ r = RCompensationFailed failed_step reason (name_of (n - S m) l') e /\
        s_state s' = SCompensationFailed /\ w' = w2
    end.

Lemma compensate_and_finalize_spec s failed_step reason (l l2 : steps_t) w :
  all_completed l -> steps s = l ++ l2 -> completed_count s = length l ->
  exists r s' w', compensate_and_finalize failed_step reason s w = ((Some (Ok r), s'), w') /\
    compensated_outcome s failed_step reason (length l) (steps s) (steps s) w r s' w'.
Proof.
  intros Hl Hs Hc. unfold compensate_and_finalize, compensate, ebind at 1.
  cbn [completed_count set_state]. rewrite Hc.
  rewrite (compensate_loop_spec (set_state SCompensating s) l l2 Hl Hs). unfold ebind at 1.
  unfold compensated_outcome. change (compensations (set_state ?x s)) with (compensations s).
  change (steps (set_state ?x s)) with (steps s).
  destruct (run_seq (compensations s (length l) (steps s)) w) as [[m oe] w2] eqn:Hrun.
  pose proof (run_seq_length _ _ _ _ _ Hrun) as Hlen.
  rewrite Hs, compensations_length in Hlen. destruct oe as [e|].
  - do 3 eexists. split; [reflexivity|]. exists m, (Some e), w2. split_and!; done.
  - unfold ebind. change (append_saga_log (set_state ?x s)) with (append_saga_log s).
    destruct (append_saga_log_unit s SagaCompensated None w2) as [w3 Hw3]. rewrite Hw3.
    do 3 eexists. split; [reflexivity|]. exists m, None, w2. split_and!; done.
Qed.

Definition pending (l : steps_t) : Prop := Forall (fun st => st_state st = TPending) l.

Lemma mark_completed_steps s :
  pending (steps s) ->
  steps (mark_completed s) =
  (set_step_state TCompleted <$> take (completed_count s) (steps s))
  ++ drop (completed_count s) (steps s).
Proof.
  unfold mark_completed. cbn. generalize (completed_count s) as c. intros c.
  induction (steps s) as [|st l IH] in c |- *; intros Hp; [by rewrite take_nil, drop_nil|].
  apply Forall_cons in Hp as [Hst Hp]. rewrite imap_cons. destruct c as [|c].
  - cbn. f_equal. apply IH with (c := 0) in Hp. cbn in Hp. rewrite drop_0 in Hp.
    etransitivity; [|exact Hp]. apply imap_ext. done.
  - cbn. rewrite Hst. f_equal. rewrite <- IH by done. apply imap_ext. intros i x _. cbn.
    by replace (bool_decide (S i < S c)) with (bool_decide (i < c)) by (apply bool_decide_ext; lia).
Qed.

Lemma after_actions_app c k b (l : steps_t) :
  (set_step_state TCompleted <$> take c l) ++ after_actions k b (drop c l) = after_actions (c + k) b l.
Proof.
  unfold after_actions. rewrite !drop_drop, <- (take_take_drop l c k), fmap_app, <- app_assoc.
  by rewrite Nat.add_succ_r.
Qed.

(** The compensations run on the steps the actions left. *)
Lemma compensated_after_actions s0 s n (l : steps_t) failed_step reason w r s' w' :
  n <= length l -> s_log s0 = s_log s -> saga_id s0 = saga_id s ->
  compensated_outcome s0 failed_step reason n (after_actions n true l) (after_actions n true l) w r s' w' ->
  compensated_outcome s failed_step reason n l (after_actions n true l) w r s' w'.
Proof.
  intros Hn Hlog Hid (m & oe & w2 & Hrun & Hcase). exists m, oe, w2.
  assert (compensations s0 n (after_actions n true l) = compensations s n l) as <-.
  { transitivity (compensations s n (after_actions n true l)).
    - unfold compensations, logged_compensation, append_step_log. by rewrite Hlog, Hid.
    - pose proof (compensations_set_state s TCompleted (take n l)
        ((set_step_state TFailed <$> take 1 (drop n l)) ++ drop (S n) l) (drop n l)) as Hc.
      by rewrite length_take_le, take_drop in Hc by done. }
  split; [done|]. destruct oe; [done|]. unfold append_saga_log in *. by rewrite <- Hlog, <- Hid.
Qed.

Lemma all_completed_set (l : steps_t) : all_completed (set_step_state TCompleted <$> l).
Proof. apply Forall_fmap, Forall_true. done. Qed.
End Spec.

(** * Theorems *)

Section Theorems.
Context {W : Type} `{Clock W}.
Implicit Types s : Saga W.
Abbreviation steps_t := (list (SagaStep W)).

(** C13: the saga protocol without timeouts.  [execute] on a new saga, started or
    resumed after [c] completed steps, runs the actions of the remaining steps in order,
    each between its log entries, and stops at the first error.  Without error the saga
    is completed.  If the step after [k] of them fails, the compensations of exactly the
    [c + k] completed steps run in reverse order, each between its log entries, up to
    the first that fails; the result names the failed step, and the failed compensation
    if there is one. *)
Theorem saga_execute_spec s w :
  s_state s = SNew -> s_timeout s = None -> pending (steps s) ->
  completed_count s < length (steps s) ->
  let c := completed_count s in let l := steps s in
  exists k oe w1 r s' w',
    execute s w = ((Some (Ok r), s'), w') /\
    run_seq (actions s c (drop c l)) (snd (instant_now w)) = ((k, oe), w1) /\
    match oe with
    | None =>
        r = RSuccess /\ s_state s' = SCompleted /\ steps s' = (set_step_state TCompleted <$> l) /\
        append_saga_log s SagaCompleted None w1 = (tt, w')
    | Some e =>
        c + k < length l /\
        compensated_outcome s (name_of (c + k) l) e (c + k) l
          (after_actions (c + k) true l) w1 r s' w'
    end.
Proof.
  intros Hs Ht Hp Hc c l. unfold execute. rewrite bool_decide_eq_false_2 by (rewrite Hs; auto).
  destruct (steps s) as [|st0 l0] eqn:Hl; [by cbn in Hc; lia|]. subst l. rewrite <- Hl in *.
  set (l := steps s) in *. fold c in Hc. fold c.
  rewrite (proj2 (Nat.leb_gt _ _) Hc). unfold ebind at 1.
  destruct (instant_now w) as [start w0]. cbn [snd].
  set (s1 := mark_completed (set_state SRunning s)).
  assert (steps s1 = (set_step_state TCompleted <$> take c l) ++ drop c l) as Hs1
    by exact (mark_completed_steps (set_state SRunning s) Hp).
  assert (length (steps s1) - completed_count s1 = length (drop c l)) as ->.
  { rewrite Hs1, length_app, length_fmap, length_take, length_drop. subst l.
    change (completed_count s1) with c. lia. }
  assert (completed_count s1 = length (set_step_state TCompleted <$> take c l)) as Hc1.
  { rewrite length_fmap, length_take. subst l. change (completed_count s1) with c. lia. }
  rewrite Hc1, (run_steps_spec start s1 _ _ Ht Hs1 Hc1). rewrite <- Hc1.
  change (completed_count s1) with c. unfold ebind. change (actions s1) with (actions s).
  destruct (run_seq (actions s c (drop c l)) w0) as [[k oe] w1] eqn:Hrun.
  pose proof (run_seq_length _ _ _ _ _ Hrun) as Hlen. unfold actions in Hlen.
  rewrite length_imap, length_drop in Hlen. rewrite after_actions_app. cbn [is_some].
  exists k, oe, w1. destruct oe as [e|].
  - set (s2 := upd _ _ s1).
    destruct (compensate_and_finalize_spec s2 (name_of k (drop c l)) e
      (set_step_state TCompleted <$> take (c + k) l)
      ((set_step_state TFailed <$> take 1 (drop (c + k) l)) ++ drop (S (c + k)) l) w1)
      as (r & s' & w' & Hr & Ho).
    + apply all_completed_set.
    + done.
    + rewrite length_fmap, length_take. cbn. lia.
    + exists r, s', w'. split; [done|]. split; [done|]. split; [lia|].
      apply (compensated_after_actions s2); [lia|done|done|].
      rewrite length_fmap, length_take_le in Ho by lia.
      replace (name_of (c + k) l) with (name_of k (drop c l)); [exact Ho|].
      unfold name_of. by rewrite lookup_drop.
  - unfold complete, ebind. change (append_saga_log (set_result _ (set_state _ (upd _ _ s1))) SagaCompleted None w1) with (append_saga_log s SagaCompleted None w1).
    destruct (append_saga_log_unit s SagaCompleted None w1) as [w2 Hw2]. rewrite Hw2.
    do 3 eexists. split; [reflexivity|]. split_and!; [done|done|done| |done].
    cbn. subst k. unfold after_actions. replace (c + (length l - c)) with (length l) by lia.
    rewrite firstn_all, !drop_ge by lia. by rewrite firstn_nil, !app_nil_r.
Qed.

(** ** Every execution *)

(** How an execution of [s] ends, whatever its log and timeouts. *)
Inductive ended s : SagaResult -> Saga W -> W -> Prop :=
| ended_completed s' w1 w' :
    s_state s' = SCompleted -> Forall (fun st => st_state st = TCompleted) (steps s') ->
    append_saga_log s SagaCompleted None w1 = (tt, w') -> ended s RSuccess s' w'
| ended_compensated s' f e w1 w' :
    s_state s' = SCompensated -> Forall (fun st => st_state st <> TCompleted) (steps s') ->
    append_saga_log s SagaCompensated None w1 = (tt, w') -> ended s (RCompensated f e) s' w'
| ended_failed s' f e i st ce w1 w' :
    s_state s' = SCompensationFailed -> steps s' !! i = Some st ->
    st_state st = TCompensationFailed ->
    append_step_log s i (st_name st) CompensationFailed (Some ce) w1 = (tt, w') ->
    ended s (RCompensationFailed f e (st_name st) ce) s' w'.

Lemma logged_compensation_error s i st w e w' :
  logged_compensation s i st w = (Err e, w') ->
  exists w1, append_step_log s i (st_name st) CompensationFailed (Some e) w1 = (tt, w').
Proof.
  unfold logged_compensation, ebind, eret. repeat case_match; intros; simplify_eq.
  match goal with |- exists w1, append_step_log ?s ?i ?n ?a ?p w1 = _ => idtac end.
  match goal with Hl : append_step_log _ _ _ CompensationFailed _ _ = (?u, _) |- _ =>
    destruct u; eauto end.
Qed.

Lemma after_compensations_all (l l2 : steps_t) :
  after_compensations (length l) (length l) false (l ++ l2) = (set_step_state TCompensated <$> l) ++ l2.
Proof.
  unfold after_compensations. rewrite Nat.sub_diag, take_0, drop_0, take_app_length, drop_app_length.
  done.
Qed.

Lemma after_compensations_lookup (l l2 : steps_t) m :
  m < length l -> exists st, l !! (length l - S m) = Some st /\
  after_compensations (length l) m true (l ++ l2) !! (length l - S m) =
  Some (set_step_state TCompensationFailed st).
Proof.
  intros Hm. destruct (lookup_lt_is_Some_2 l (length l - S m) ltac:(lia)) as [st Hst].
  exists st. split; [done|]. unfold after_compensations.
  replace (length l - m - 1) with (length l - S m) by lia.
  rewrite <- !app_assoc, lookup_app_r by (rewrite length_take; lia).
  rewrite length_take, length_app, Nat.min_l, Nat.sub_diag by lia.
  rewrite lookup_app_l.
  - rewrite list_lookup_fmap, lookup_drop, Nat.add_0_r, lookup_take_lt, lookup_app_l by lia.
    by rewrite Hst.
  - rewrite length_fmap, length_drop, length_take, length_app. lia.
Qed.

Lemma compensated_ended s f e (l l2 : steps_t) w r s' w' :
  Forall (fun st => st_state st <> TCompleted) l2 ->
  compensated_outcome s f e (length l) (l ++ l2) (l ++ l2) w r s' w' -> ended s r s' w'.
Proof.
  intros Hl2 (m & oe & w2 & Hrun & Hsteps & Hcase). destruct oe as [ce|].
  - destruct Hcase as (Hm & -> & Hst & ->).
    destruct (after_compensations_lookup l l2 m Hm) as (st & Hlst & Hafter).
    destruct (run_seq_error _ _ _ _ _ Hrun) as (cb & w1 & Hcb & Herr).
    unfold compensations in Hcb. rewrite take_app_length in Hcb.
    rewrite reverse_lookup in Hcb by (rewrite length_imap; lia).
    rewrite length_imap, list_lookup_imap, Hlst in Hcb. cbn in Hcb. simplify_eq.
    destruct (logged_compensation_error _ _ _ _ _ _ Herr) as [w3 Hw3].
    assert (name_of (length l - S m) (l ++ l2) = st_name (set_step_state TCompensationFailed st)) as ->.
    { unfold name_of. rewrite lookup_app_l by lia. by rewrite Hlst. }
    eapply ended_failed; [done|by rewrite Hsteps|done|exact Hw3].
  - destruct Hcase as (-> & -> & Hst & Hlog). eapply ended_compensated; [done| |exact Hlog].
    rewrite Hsteps. cbn [is_some]. rewrite after_compensations_all. apply Forall_app. split; [|done].
    apply Forall_fmap, Forall_true. done.
Qed.

Lemma complete_ended s0 s w :
  s_log s = s_log s0 -> saga_id s = saga_id s0 -> all_completed (steps s) ->
  exists r s' w', complete s w = ((Some (Ok r), s'), w') /\ ended s0 r s' w'.
Proof.
  intros Hlog Hid Hc. unfold complete, ebind.
  destruct (append_saga_log_unit (set_result (Some RSuccess) (set_state SCompleted s)) SagaCompleted None w)
    as [w1 Hw1]. rewrite Hw1. do 3 eexists. split; [reflexivity|].
  eapply ended_completed; [done|done|]. rewrite <- Hw1. unfold append_saga_log. cbn.
  by rewrite Hlog, Hid.
Qed.

Lemma ended_ext s s0 r s' w' :
  s_log s = s_log s0 -> saga_id s = saga_id s0 -> ended s r s' w' -> ended s0 r s' w'.
Proof.
  intros Hlog Hid. destruct 1; econstructor; eauto;
    unfold append_saga_log, append_step_log in *; by rewrite <- Hlog, <- Hid.
Qed.

(** Compensating a saga whose completed steps are [l]. *)
Lemma compensate_ended s0 s f e (l l2 : steps_t) w :
  s_log s = s_log s0 -> saga_id s = saga_id s0 ->
  all_completed l -> Forall (fun st => st_state st <> TCompleted) l2 ->
  steps s = l ++ l2 -> completed_count s = length l ->
  exists r s' w', compensate_and_finalize f e s w = ((Some (Ok r), s'), w') /\ ended s0 r s' w'.
Proof.
  intros Hlog Hid Hl Hl2 Hs Hc.
  destruct (compensate_and_finalize_spec s f e l l2 w Hl Hs Hc) as (r & s' & w' & Hr & Ho).
  exists r, s', w'. split; [done|]. rewrite Hs in Ho.
  apply (ended_ext s); [done|done|]. by eapply compensated_ended.
Qed.

Lemma pending_not_completed (l : steps_t) :
  pending l -> Forall (fun st => st_state st <> TCompleted) l.
Proof. intros Hp. eapply Forall_impl; [exact Hp|]. intros st Hst. cbn in Hst. by rewrite Hst. Qed.

Lemma run_steps_ended s0 start (rest : steps_t) s (pre : steps_t) w :
  s_log s = s_log s0 -> saga_id s = saga_id s0 ->
  all_completed pre -> pending rest -> steps s = pre ++ rest -> completed_count s = length pre ->
  exists r s' w', run_steps start (length rest) (length pre) s w = ((Some (Ok r), s'), w') /\
    ended s0 r s' w'.
Proof.
  revert s pre w. induction rest as [|st rest IH]; intros s pre w Hlog Hid Hpre Hrest Hs Hc.
  { cbn [length run_steps]. apply complete_ended; [done|done|]. by rewrite Hs, app_nil_r. }
  pose proof (pending_not_completed _ Hrest) as Hnc. apply Forall_cons in Hrest as [_ Hrest].
  cbn [length run_steps]. rewrite Hs, lookup_middle. unfold ebind.
  destruct (total_timeout_check start s w) as [[reason|] w1].
  { destruct (append_step_log s (length pre) (st_name st) StepFailed (Some reason) w1) as [u w2].
    by eapply compensate_ended. }
  destruct (append_step_log s (length pre) (st_name st) StepStarted None w1) as [u w2].
  destruct (instant_now w2) as [t w3]. rewrite execute_action_run.
  destruct (call_opt (action st) w3) as [[v|e] w4]; lazy beta iota zeta; cbn [is_ok];
    rewrite insert_middle.
  - destruct (elapsed t w4) as [el w5].
    destruct (append_step_log _ _ _ StepCompleted None w5) as [u2 w6].
    assert (all_completed (pre ++ [set_step_state TCompleted st])) as Hpre'.
    { apply Forall_app. split; [done|]. by constructor. }
    replace (pre ++ set_step_state TCompleted st :: rest)
      with ((pre ++ [set_step_state TCompleted st]) ++ rest) by by rewrite <- app_assoc.
    replace (S (length pre)) with (length (pre ++ [set_step_state TCompleted st]))
      by (rewrite length_app; cbn; lia).
    destruct (step_timeout_check _ _ _) as [reason|].
    + eapply compensate_ended; [done|done|exact Hpre'|by apply pending_not_completed|done|done].
    + by apply IH.
  - destruct (append_step_log _ _ _ StepFailed (Some e) w4) as [u2 w5].
    eapply compensate_ended; [done|done|exact Hpre| |done|done].
    apply Forall_cons in Hnc as [_ Hnc]. by constructor.
Qed.

Lemma execute_ended s w :
  s_state s = SNew -> pending (steps s) ->
  steps s = [] \/ completed_count s < length (steps s) ->
  exists r s' w', execute s w = ((Some (Ok r), s'), w') /\ ended s r s' w'.
Proof.
  intros Hs Hp Hc. unfold execute. rewrite bool_decide_eq_false_2 by (rewrite Hs; auto).
  destruct (steps s) as [|st0 l0] eqn:Hl.
  { apply complete_ended; [done|done|]. rewrite Hl. constructor. }
  rewrite <- Hl in *. destruct Hc as [Hc|Hc]; [congruence|].
  rewrite (proj2 (Nat.leb_gt _ _) Hc). unfold ebind. destruct (instant_now w) as [start w0].
  set (s1 := mark_completed (set_state SRunning s)).
  assert (steps s1 = (set_step_state TCompleted <$> take (completed_count s) (steps s))
                     ++ drop (completed_count s) (steps s)) as Hs1
    by exact (mark_completed_steps (set_state SRunning s) Hp).
  assert (length (steps s1) - completed_count s1 = length (drop (completed_count s) (steps s))) as ->.
  { rewrite Hs1, length_app, length_fmap, length_take, length_drop.
    change (completed_count s1) with (completed_count s). lia. }
  assert (completed_count s1 = length (set_step_state TCompleted <$> take (completed_count s) (steps s))) as Hc1.
  { rewrite length_fmap, length_take. change (completed_count s1) with (completed_count s). lia. }
  rewrite Hc1. apply run_steps_ended; [done|done|apply all_completed_set|by apply Forall_drop|done|done].
Qed.

(** An execution always ends, and its steps agree with its outcome, whatever the
    timeouts.  [execute] on a new saga returns a result (no index is out of range); if
    it is a success every step is completed and the saga is [Completed]; if it is
    [Compensated] no step is left completed; if it is [CompensationFailed], the step it
    names is the one whose compensation failed.  It is never left [Running] or
    [Compensating]. *)
Theorem saga_execute_outcome s w :
  s_state s = SNew -> pending (steps s) ->
  steps s = [] \/ completed_count s < length (steps s) ->
  exists r s' w', execute s w = ((Some (Ok r), s'), w') /\
    match r with
    | RSuccess => s_state s' = SCompleted /\ Forall (fun st => st_state st = TCompleted) (steps s')
    | RCompensated _ _ =>
        s_state s' = SCompensated /\ Forall (fun st => st_state st <> TCompleted) (steps s')
    | RCompensationFailed _ _ name _ =>
        s_state s' = SCompensationFailed /\
        exists i st, steps s' !! i = Some st /\ st_name st = name /\ st_state st = TCompensationFailed
    end.
Proof.
  intros Hs Hp Hc. destruct (execute_ended s w Hs Hp Hc) as (r & s' & w' & Hr & He).
  exists r, s', w'. split; [done|]. destruct He; [done..|]. eauto 10.
Qed.

(** ** Recovery *)

Section Recovery.
Context (L : Lens W (list SagaLogEntry)).

Lemma append_saga_log_last s a p w w' :
  s_log s = Some (InMemorySagaLog L) -> append_saga_log s a p w = (tt, w') ->
  exists e, e_action e = a /\ last (saga_mem_read (saga_id s) (lget L w')) = Some e.
Proof.
  unfold append_saga_log. intros ->. unfold ebind, eret. cbn.
  destruct (current_timestamp_millis w) as [ts w1]. intros. simplify_eq.
  exists (mkSagaEntry (saga_id s) "" 0 a ts p). split; [done|].
  rewrite lget_lset. unfold saga_mem_read, saga_mem_append.
  by rewrite filter_app, filter_cons_True, filter_nil, last_snoc by done.
Qed.

Lemma append_step_log_last s i n a p w w' :
  s_log s = Some (InMemorySagaLog L) -> append_step_log s i n a p w = (tt, w') ->
  exists e, e_action e = a /\ last (saga_mem_read (saga_id s) (lget L w')) = Some e.
Proof.
  unfold append_step_log. intros ->. unfold ebind, eret. cbn.
  destruct (current_timestamp_millis w) as [ts w1]. intros. simplify_eq.
  exists (mkSagaEntry (saga_id s) n i a ts p). split; [done|].
  rewrite lget_lset. unfold saga_mem_read, saga_mem_append.
  by rewrite filter_app, filter_cons_True, filter_nil, last_snoc by done.
Qed.

Lemma recover_last id w e :
  last (saga_mem_read id (lget L w)) = Some e ->
  exists s', recover_from_log id (InMemorySagaLog L) w = (Ok s', w) /\
    s_state s' = state_after (e_action e).
Proof.
  intros He. unfold recover_from_log, ebind, eret. cbn. rewrite He. eauto.
Qed.

(** The log and the saga agree.  When an execution logged to the in-memory log has
    ended, recovering the saga from that log gives a saga in the same state, whatever
    the log held before. *)
Theorem recover_after_execute s w r s' w' :
  s_state s = SNew -> pending (steps s) ->
  steps s = [] \/ completed_count s < length (steps s) ->
  s_log s = Some (InMemorySagaLog L) ->
  execute s w = ((r, s'), w') ->
  exists s'', recover_from_log (saga_id s) (InMemorySagaLog L) w' = (Ok s'', w') /\
    s_state s'' = s_state s'.
Proof.
  intros Hs Hp Hc Hlog He. destruct (execute_ended s w Hs Hp Hc) as (r1 & s1 & w1 & Hr & Hend).
  rewrite He in Hr. simplify_eq. destruct Hend as [s1 w0 w1 Hst _ Ha|s1 f e w0 w1 Hst _ Ha|s1 f e i st ce w0 w1 Hst _ _ Ha].
  - apply append_saga_log_last in Ha as (x & Hx & Hlast); [|done].
    apply recover_last in Hlast as (s2 & ? & Hs2). exists s2. by rewrite Hs2, Hx, Hst.
  - apply append_saga_log_last in Ha as (x & Hx & Hlast); [|done].
    apply recover_last in Hlast as (s2 & ? & Hs2). exists s2. by rewrite Hs2, Hx, Hst.
  - apply append_step_log_last in Ha as (x & Hx & Hlast); [|done].
    apply recover_last in Hlast as (s2 & ? & Hs2). exists s2. by rewrite Hs2, Hx, Hst.
Qed.

(** Recovery in the middle of a compensation compensates again.  Let the log of a
    saga end with the start or the end of a compensation, or with a failed step.  The
    recovered saga counts every [StepCompleted] entry, of earlier runs too; once its
    steps are registered again, [resume_compensation] runs the compensation of every
    counted step, in reverse order, those whose [CompensationCompleted] entry is in the
    log included; with fewer steps than counted it panics. *)
Theorem resume_compensates_again id (l : steps_t) w entries e :
  saga_mem_read id (lget L w) = entries -> last entries = Some e ->
  e_action e ∈ [StepFailed; CompensationStarted; CompensationCompleted] ->
  pending l -> l <> [] ->
  let n := length (filter (fun e => e_action e = StepCompleted) entries) in
  exists s0, recover_from_log id (InMemorySagaLog L) w = (Ok s0, w) /\
    s_state s0 = SCompensating /\ completed_count s0 = n /\
    let s := set_steps l s0 in
    (n <= length l -> exists r s' w',
       resume_compensation s w = ((Some (Ok r), s'), w') /\
       exists m oe w2, run_seq (compensations s n l) w = ((m, oe), w2) /\
         (oe = None -> m = n /\ s_state s' = SCompensated)) /\
    (length l < n -> fst (fst (resume_compensation s w)) = None).
Proof.
  intros Hent Hlast Hact Hp Hne n.
  assert (state_after (e_action e) = SCompensating) as Hsa.
  { assert (e_action e = StepFailed \/ e_action e = CompensationStarted \/
            e_action e = CompensationCompleted) as [->|[->| ->]] by set_solver; done. }
  exists (set_state (state_after (e_action e)) (set_completed n (saga_new id))).
  split; [|split; [done|split; [done|]]].
  { unfold recover_from_log, ebind, eret. cbn. by rewrite Hent, Hlast. }
  rewrite Hsa. set (s0 := set_state SCompensating (set_completed n (saga_new id))).
  set (s := set_steps l s0). unfold resume_compensation.
  rewrite bool_decide_eq_false_2 by (cbn; auto). change (steps s) with l.
  assert (forall A (x y : A), match l with [] => x | _ => y end = y) as Hl by (intros; by destruct l).
  rewrite Hl.
  assert (steps (mark_completed s) = (set_step_state TCompleted <$> take n l) ++ drop n l) as Hm
    by exact (mark_completed_steps s Hp).
  unfold compensate. change (completed_count (mark_completed s)) with n. split.
  - intros Hn. unfold ebind at 1.
    assert (n = length (set_step_state TCompleted <$> take n l)) as Hlen
      by (rewrite length_fmap, length_take; lia).
    pose proof (compensate_loop_spec (mark_completed s) _ _ (all_completed_set (take n l)) Hm w) as Hcl.
    rewrite <- Hlen in Hcl. rewrite Hcl. unfold ebind at 1.
    assert (compensations (mark_completed s) n (steps (mark_completed s)) = compensations s n l) as ->.
    { rewrite Hm. change (compensations (mark_completed s)) with (compensations s).
      pose proof (compensations_set_state s TCompleted (take n l) (drop n l) (drop n l)) as Hc.
      by rewrite length_take_le, take_drop in Hc by done. }
    destruct (run_seq (compensations s n l) w) as [[m oe] w2] eqn:Hrun.
    pose proof (run_seq_length _ _ _ _ _ Hrun) as Hrl.
    unfold compensations in Hrl. rewrite length_reverse, length_imap, length_take_le in Hrl by done.
    destruct oe as [e1|]; unfold ebind, eret.
    + do 3 eexists. split; [reflexivity|]. exists m, (Some e1), w2. done.
    + cbn. do 3 eexists. split; [reflexivity|]. exists m, None, w2. auto.
  - intros Hn. unfold ebind. destruct n as [|n']; [lia|]. cbn [compensate_loop].
    rewrite Hm, take_ge, drop_ge, app_nil_r, lookup_ge_None_2 by (rewrite ?length_fmap; lia). done.
Qed.
End Recovery.
End Theorems.

(** * Closed instances *)

Section Instances.

(** A world with a trace and the entries of an in-memory log. *)
Definition LogWorld : Type := SimWorld * list SagaLogEntry.

#[local] Instance LogWorld_clock : Clock LogWorld := {|
  system_millis := fun '(w, l) => let '(t, w') := system_millis w in (t, (w', l));
  instant_now := fun '(w, l) => let '(t, w') := instant_now w in (t, (w', l));
  sleep_ns := fun d '(w, l) => let '(t, w') := sleep_ns d w in (t, (w', l));
|}.

Definition log_lens : Lens LogWorld (list SagaLogEntry).
Proof.
  refine (mkLens _ _ snd (fun l w => (fst w, l)) _ _ _); [done|by intros []|done].
Defined.

Definition log0 : LogWorld := (sim0, []).

Definition log_call (name : string) (r : result unit string) : Callback LogWorld :=
  fun '(w, l) => let '(x, w') := sim_call name r w in (x, (w', l)).

Definition sim_step (name : string) (ra rc : result unit string) : SagaStep LogWorld :=
  with_compensation (log_call ("undo " +:+ name) rc)
    (with_action (log_call ("do " +:+ name) ra) (step_new name)).

Definition sim_steps : list (SagaStep LogWorld) :=
  [sim_step "a" (Ok tt) (Ok tt); sim_step "b" (Ok tt) (Ok tt); sim_step "c" (Err "full") (Ok tt)].

Definition sim_saga : Saga LogWorld :=
  set_steps sim_steps (with_log (InMemorySagaLog log_lens) (saga_new "order")).

Lemma sim_steps_pending : pending sim_steps.
Proof. repeat constructor. Defined.

Lemma sim_saga_count : 0 < length sim_steps.
Proof. cbn. lia. Defined.

Lemma saga_execute_spec_witness :
  (exists k oe w1, run_seq (actions sim_saga 0 sim_steps) (snd (instant_now log0)) = ((k, oe), w1)) /\
  fst (fst (execute sim_saga log0)) = Some (Ok (RCompensated "c" "full")) /\
  sim_trace (fst (snd (execute sim_saga log0))) = ["do a"; "do b"; "do c"; "undo b"; "undo a"].
Proof.
  split; [|split; vm_compute; reflexivity].
  destruct (saga_execute_spec sim_saga log0 eq_refl eq_refl sim_steps_pending sim_saga_count)
    as (k & oe & w1 & _ & _ & _ & _ & Hrun & _).
  exists k, oe, w1. exact Hrun.
Defined.

Lemma saga_execute_outcome_witness :
  let s := with_timeout (mkTimeout 0 100) sim_saga in
  exists r s' w', execute s log0 = ((Some (Ok r), s'), w') /\
    Forall (fun st => st_state st <> TCompleted) (steps s').
Proof.
  intros s.
  destruct (saga_execute_outcome s log0 eq_refl sim_steps_pending (or_intror sim_saga_count))
    as (r & s' & w' & Hr & Hcase).
  exists r, s', w'. split; [exact Hr|]. apply (f_equal (fun x => fst (fst x))) in Hr.
  destruct r as [|f e|f e n ce]; [|exact (proj2 Hcase)|]; vm_compute in Hr; discriminate.
Defined.

Lemma recover_after_execute_witness :
  exists s'', recover_from_log "order" (InMemorySagaLog log_lens) (snd (execute sim_saga log0)) =
    (Ok s'', snd (execute sim_saga log0)) /\ s_state s'' = SCompensated.
Proof.
  destruct (execute sim_saga log0) as [[r s'] w'] eqn:E.
  destruct (recover_after_execute log_lens sim_saga log0 r s' w' eq_refl sim_steps_pending
    (or_intror sim_saga_count) eq_refl E) as (s'' & Hr & Hst).
  exists s''. split; [exact Hr|]. rewrite Hst.
  apply (f_equal (fun x => s_state (snd (fst x)))) in E. vm_compute in E. symmetry. exact E.
Defined.

(** The log after a crash between the two compensations of [sim_saga]: step ["b"] is
    compensated already. *)
Definition crash_log : list SagaLogEntry :=
  [mkSagaEntry "order" "a" 0 StepStarted 0 None; mkSagaEntry "order" "a" 0 StepCompleted 1 None;
   mkSagaEntry "order" "b" 1 StepStarted 2 None; mkSagaEntry "order" "b" 1 StepCompleted 3 None;
   mkSagaEntry "order" "c" 2 StepStarted 4 None; mkSagaEntry "order" "c" 2 StepFailed 5 (Some "full");
   mkSagaEntry "order" "b" 1 CompensationStarted 6 None;
   mkSagaEntry "order" "b" 1 CompensationCompleted 7 None].

Definition recovered : Saga LogWorld :=
  match fst (recover_from_log "order" (InMemorySagaLog log_lens) (sim0, crash_log)) with
  | Ok s => set_steps sim_steps s
  | Err _ => saga_new "order"
  end.

Lemma resume_compensates_again_witness :
  (exists s0, recover_from_log "order" (InMemorySagaLog log_lens) (sim0, crash_log) =
      (Ok s0, (sim0, crash_log)) /\ completed_count s0 = 2) /\
  sim_trace (fst (snd (resume_compensation recovered (sim0, crash_log)))) = ["undo b"; "undo a"].
Proof.
  split; [|vm_compute; reflexivity].
  destruct (resume_compensates_again log_lens "order" sim_steps (sim0, crash_log) crash_log
    (mkSagaEntry "order" "b" 1 CompensationCompleted 7 None) eq_refl eq_refl
    ltac:(cbn; set_solver) sim_steps_pending ltac:(discriminate)) as (s0 & Hr & _ & Hc & _).
  exists s0. split; [exact Hr|exact Hc].
Defined.
End Instances.
