(* ===== verification/ThreePc.v ===== *)
(** Three-phase commit: [packages/sz-orm-dtx/src/three_pc.rs]. *)

From S2P Require Import Prelude.
Local Open Scope eff_scope.

(** Durations in nanoseconds. *)
Record ThreePcTimeoutConfig : Type := mkThreePcTimeout {
  can_commit_timeout : Z;
  pre_commit_timeout : Z;
  do_commit_timeout : Z;
}.

Definition default_timeouts : ThreePcTimeoutConfig :=
  mkThreePcTimeout (2 * 10 ^ 9) (2 * 10 ^ 9) (2 * 10 ^ 9).

Inductive ThreePcStatus : Type :=
| Init | CanCommitPhase | PreCommitPhase | DoCommitPhase | Committed | Aborted | Timeout.

#[export] Instance ThreePcStatus_eq_dec : EqDecision ThreePcStatus.
Proof. solve_decision. Defined.

(** [ParticipantDecision] *)
Inductive ParticipantDecision : Type := DCommit | DAbort.

#[export] Instance ParticipantDecision_eq_dec : EqDecision ParticipantDecision.
Proof. solve_decision. Defined.

Record ThreePcResult : Type := mkThreePcResult {
  transaction_id : string;
  commit_latency_ms : Z;
  is_non_blocking : bool;
  final_status : ThreePcStatus;
}.

Record ThreePcParticipant : Type := mkThreePcParticipant {
  tp_id : string;
  decision : option ParticipantDecision;
  pre_committed : bool;
  committed : bool;
}.

Definition three_pc_participant_new (id : string) : ThreePcParticipant :=
  mkThreePcParticipant id None false false.

Definition set_decision (d : ParticipantDecision) (p : ThreePcParticipant) : ThreePcParticipant :=
  mkThreePcParticipant (tp_id p) (Some d) (pre_committed p) (committed p).
Definition set_pre_committed (p : ThreePcParticipant) : ThreePcParticipant :=
  mkThreePcParticipant (tp_id p) (decision p) true (committed p).
Definition set_committed (p : ThreePcParticipant) : ThreePcParticipant :=
  mkThreePcParticipant (tp_id p) (decision p) (pre_committed p) true.

Record ThreePcCoordinator : Type := mkThreePc {
  tp_participants : list ThreePcParticipant;
  timeout_config : ThreePcTimeoutConfig;
}.

Definition set_participants (ps : list ThreePcParticipant) (c : ThreePcCoordinator) :
    ThreePcCoordinator := mkThreePc ps (timeout_config c).

(** [if can { Commit } else { Abort }] *)
Definition decision_of (can : bool) : ParticipantDecision := if can then DCommit else DAbort.

Definition can_commit (responses : list bool) (c : ThreePcCoordinator) :
    ThreePcStatus * ThreePcCoordinator :=
  if bool_decide (length responses <> length (tp_participants c)) then (Aborted, c)
  else
    let ps := zip_with (fun can p => set_decision (decision_of can) p) responses (tp_participants c) in
    ((if forallb id responses then CanCommitPhase else Aborted), set_participants ps c).

(** The loop of [pre_commit]: [false] when it returned at a participant that
    decided to abort. *)
Fixpoint pre_commit_loop (ps : list ThreePcParticipant) : bool * list ThreePcParticipant :=
  match ps with
  | [] => (true, [])
  | p :: rest =>
      if bool_decide (decision p = Some DAbort) then (false, p :: rest)
      else let '(ok, rest') := pre_commit_loop rest in (ok, set_pre_committed p :: rest')
  end.

Definition pre_commit (c : ThreePcCoordinator) : ThreePcStatus * ThreePcCoordinator :=
  let '(ok, ps) := pre_commit_loop (tp_participants c) in
  ((if ok then PreCommitPhase else Aborted), set_participants ps c).

Definition participant_self_decide (p : ThreePcParticipant) : ParticipantDecision :=
  if pre_committed p then DCommit else DAbort.

Section Effects.
Context {W : Type} `{Clock W}.

(** [start.elapsed().as_millis() as u64] *)
Definition elapsed_ms (start : Z) : Eff W Z :=
  let* now := instant_now in eret (wrap64 (Z.max 0 (now - start) / 1000000)).

Definition do_commit (tx : string) (c : ThreePcCoordinator) : Eff W (ThreePcResult * ThreePcCoordinator) :=
  let* start := instant_now in
  let c := set_participants (set_committed <$> tp_participants c) c in
  let* latency := elapsed_ms start in
  eret (mkThreePcResult tx latency true Committed, c).

Definition aborted (tx : string) (start : Z) (c : ThreePcCoordinator) :
    Eff W (ThreePcResult * ThreePcCoordinator) :=
  let* latency := elapsed_ms start in
  eret (mkThreePcResult tx latency true Aborted, c).

Definition execute (tx : string) (responses : list bool) (c : ThreePcCoordinator) :
    Eff W (ThreePcResult * ThreePcCoordinator) :=
  let* start := instant_now in
  let '(phase1, c) := can_commit responses c in
  if bool_decide (phase1 = Aborted) then aborted tx start c
  else
    let '(phase2, c) := pre_commit c in
    if bool_decide (phase2 = Aborted) then aborted tx start c
    else do_commit tx c.
End Effects.

(** * Theorems *)

Section Theorems.
Implicit Types (ps : list ThreePcParticipant) (c : ThreePcCoordinator).

Lemma forallb_id_spec (l : list bool) : forallb id l = true <-> Forall (fun b => b = true) l.
Proof.
  induction l as [|b l IH]; cbn; [split; [constructor|done]|].
  rewrite andb_true_iff, Forall_cons, IH. done.
Qed.

(** The participants after the first phase. *)
Definition voted (responses : list bool) ps : list ThreePcParticipant :=
  zip_with (fun can p => set_decision (decision_of can) p) responses ps.

Lemma pre_commit_loop_all (responses : list bool) ps :
  length responses = length ps -> Forall (fun b => b = true) responses ->
  pre_commit_loop (voted responses ps) = (true, set_pre_committed <$> voted responses ps).
Proof.
  intros Hlen Hall. revert ps Hlen. induction Hall as [|b responses -> _ IH]; intros [|p ps] Hlen; try done.
  cbn. unfold voted in IH. rewrite IH; [done|]. by injection Hlen.
Qed.

Lemma pre_commit_loop_fst (responses : list bool) ps :
  length responses = length ps -> fst (pre_commit_loop (voted responses ps)) = forallb id responses.
Proof.
  revert ps. induction responses as [|[] responses IH]; intros [|p ps] Hlen; try done.
  cbn. injection Hlen as Hlen. specialize (IH ps Hlen). unfold voted in IH.
  by destruct (pre_commit_loop (zip_with _ _ _)) as [ok ps'].
Qed.

Lemma pre_commit_loop_lookup (responses : list bool) ps i p :
  length responses = length ps -> ps !! i = Some p -> pre_committed p = false ->
  exists p', snd (pre_commit_loop (voted responses ps)) !! i = Some p' /\
    pre_committed p' = forallb id (take (S i) responses).
Proof.
  revert ps i. induction responses as [|b responses IH]; intros [|q ps] i Hlen Hi Hp; try done.
  injection Hlen as Hlen. destruct b; cbn.
  - rewrite bool_decide_eq_false_2 by done. destruct i as [|i]; cbn in *.
    + simplify_eq. destruct (pre_commit_loop _) as [ok ps']. cbn. by eexists.
    + destruct (IH ps i Hlen Hi Hp) as (p' & Hp' & Hpc). unfold voted in Hp'.
      destruct (pre_commit_loop (zip_with _ _ _)) as [ok ps']. cbn in *. eauto.
  - rewrite bool_decide_eq_true_2 by done. destruct i as [|i]; cbn in *; [simplify_eq; by eexists|].
    change (ps !! i = Some p) in Hi. assert (is_Some (responses !! i)) as [b Hb].
    { apply lookup_lt_is_Some. apply lookup_lt_Some in Hi. lia. }
    assert (voted responses ps !! i = Some (set_decision (decision_of b) p)) as Hv.
    { unfold voted. by rewrite lookup_zip_with, Hb, Hi. }
    eexists. split; [exact Hv|done].
Qed.

Section Execute.
Context {W : Type} `{Clock W}.

Lemma do_commit_run tx c (w : W) :
  exists latency w', do_commit tx c w =
    ((mkThreePcResult tx latency true Committed,
      set_participants (set_committed <$> tp_participants c) c), w').
Proof.
  unfold do_commit, elapsed_ms, ebind, eret. destruct (instant_now w) as [t1 w1].
  destruct (instant_now w1) as [t2 w2]. eauto.
Qed.

Lemma aborted_run tx start c (w : W) :
  exists latency w', aborted tx start c w = ((mkThreePcResult tx latency true Aborted, c), w').
Proof.
  unfold aborted, elapsed_ms, ebind, eret. destruct (instant_now w) as [t1 w1]. eauto.
Qed.

Lemma voted_flags (responses : list bool) ps :
  length responses = length ps ->
  (pre_committed <$> voted responses ps) = (pre_committed <$> ps) /\
  (committed <$> voted responses ps) = (committed <$> ps).
Proof.
  revert ps. induction responses as [|b rs IH]; intros [|p ps] Hlen; try done.
  injection Hlen as Hlen. destruct (IH ps Hlen) as [H1 H2]. split; cbn; f_equal; [exact H1|exact H2].
Qed.

(** C17: [execute] decides for all.  It commits exactly when every participant has
    answered and every answer is yes; then every participant is pre-committed and
    committed.  Otherwise the result is [Aborted] and no participant is pre-committed
    or committed by it.  No other status is returned. *)
Theorem three_pc_execute_atomic tx responses c (w : W) r c' w' :
  execute tx responses c w = ((r, c'), w') ->
  let ps := tp_participants c in let ps' := tp_participants c' in
  if bool_decide (length responses = length ps /\ Forall (fun b => b = true) responses)
  then final_status r = Committed /\ length ps' = length ps /\
    Forall (fun p => pre_committed p = true /\ committed p = true) ps'
  else final_status r = Aborted /\
    (pre_committed <$> ps') = (pre_committed <$> ps) /\ (committed <$> ps') = (committed <$> ps).
Proof.
  intros He ps ps'. unfold execute, can_commit, ebind at 1 in He.
  destruct (instant_now w) as [start w1].
  destruct (decide (length responses = length ps)) as [Hlen|Hlen].
  - rewrite (bool_decide_eq_false_2 (length responses <> _)) in He by auto. fold ps in He.
    change (zip_with _ responses ps) with (voted responses ps) in He.
    destruct (forallb id responses) eqn:Hall.
    + apply forallb_id_spec in Hall. rewrite bool_decide_eq_true_2 by auto.
      rewrite bool_decide_eq_false_2 in He by done. unfold pre_commit in He.
      cbn [tp_participants set_participants] in He. rewrite (pre_commit_loop_all _ _ Hlen Hall) in He.
      rewrite bool_decide_eq_false_2 in He by done.
      match type of He with do_commit ?t ?c ?w0 = _ =>
        destruct (do_commit_run t c w0) as (lat & w2 & Hd) end.
      rewrite Hd in He. simplify_eq. subst ps'. cbn. split; [done|]. split.
      * rewrite !length_fmap. unfold voted. rewrite length_zip_with. lia.
      * apply Forall_fmap, Forall_fmap, Forall_true. done.
    + rewrite bool_decide_eq_false_2.
      2: { intros [_ Hf]. apply forallb_id_spec in Hf. congruence. }
      rewrite bool_decide_eq_true_2 in He by done.
      match type of He with aborted ?t ?s ?c ?w0 = _ =>
        destruct (aborted_run t s c w0) as (lat & w2 & Hd) end.
      rewrite Hd in He. simplify_eq. split; [done|]. by apply voted_flags.
  - rewrite (bool_decide_eq_true_2 (length responses <> _)) in He by done.
    rewrite bool_decide_eq_false_2 by tauto. rewrite bool_decide_eq_true_2 in He by done.
    destruct (aborted_run tx start c w1) as (lat & w2 & Hd). rewrite Hd in He. by simplify_eq.
Qed.
End Execute.

(** Stopping between the phases splits the participants.  After the first two
    phases on fresh participants, called one after the other, a participant that decides
    on its own decides to commit exactly when it and every participant before it
    answered yes, while the status is [Aborted] as soon as one answer is no.  So with
    answers yes, no the first participant commits a transaction that is aborted and
    that the second aborts. *)
Theorem self_decide_after_pre_commit responses ps t i p :
  length responses = length ps -> ps !! i = Some p -> pre_committed p = false ->
  let '(_, c1) := can_commit responses (mkThreePc ps t) in
  let '(status, c2) := pre_commit c1 in
  status = (if forallb id responses then PreCommitPhase else Aborted) /\
  exists p', tp_participants c2 !! i = Some p' /\
    (participant_self_decide p' = DCommit <-> Forall (fun b => b = true) (take (S i) responses)).
Proof.
  intros Hlen Hi Hp. unfold can_commit. rewrite bool_decide_eq_false_2 by (cbn; auto). cbn [tp_participants].
  change (zip_with _ responses ps) with (voted responses ps). unfold pre_commit. cbn [tp_participants set_participants].
  pose proof (pre_commit_loop_fst responses ps Hlen) as Hfst.
  destruct (pre_commit_loop_lookup responses ps i p Hlen Hi Hp) as (p' & Hp' & Hpc).
  destruct (pre_commit_loop (voted responses ps)) as [ok ps']. cbn in *. rewrite Hfst.
  split; [done|]. exists p'. split; [done|].
  change (forallb id (match responses with [] => [] | x :: l => x :: take i l end))
    with (forallb id (take (S i) responses)) in Hpc.
  rewrite <- forallb_id_spec. unfold participant_self_decide. rewrite Hpc.
  by destruct (forallb id (take (S i) responses)).
Qed.
End Theorems.

(** * Closed instances *)

Section Instances.
Definition two : list ThreePcParticipant := [three_pc_participant_new "a"; three_pc_participant_new "b"].

Lemma three_pc_execute_atomic_witness :
  let '((r, c'), _) := execute "t" [true; true] (mkThreePc two default_timeouts) sim0 in
  final_status r = Committed /\ (committed <$> tp_participants c') = [true; true].
Proof.
  destruct (execute "t" [true; true] (mkThreePc two default_timeouts) sim0) as [[r c'] w'] eqn:E.
  pose proof (three_pc_execute_atomic "t" [true; true] (mkThreePc two default_timeouts) sim0 r c' w' E)
    as Hex. cbv zeta in Hex.
  rewrite bool_decide_eq_true_2 in Hex by (split; [done|repeat constructor]).
  split; [apply Hex|]. apply (f_equal (fun x => committed <$> tp_participants (snd (fst x)))) in E.
  symmetry. exact E.
Defined.

Lemma self_decide_after_pre_commit_witness :
  let '(_, c1) := can_commit [true; false] (mkThreePc two default_timeouts) in
  let '(status, c2) := pre_commit c1 in
  status = Aborted /\ (participant_self_decide <$> tp_participants c2) = [DCommit; DAbort].
Proof.
  destruct (self_decide_after_pre_commit [true; false] two default_timeouts 0
    (three_pc_participant_new "a") eq_refl eq_refl eq_refl) as [Hs _].
  split; [exact Hs|reflexivity].
Defined.
End Instances.
