(* ===== verification/CircuitBreaker.v ===== *)
(** Circuit breaker and its cross-instance coordination:
    [packages/sz-orm-core/src/circuit_breaker.rs]. *)

From S2P Require Import Prelude.
Local Open Scope eff_scope.

(** * The breaker *)

Inductive CircuitState : Type := Closed | Open | HalfOpen.

#[export] Instance CircuitState_eq_dec : EqDecision CircuitState.
Proof. solve_decision. Defined.

(** [usize] and [u64] counters wrap as in a release build; durations and instants are in
    nanoseconds. *)
Record DefaultCircuitBreaker : Type := mkBreaker {
  failure_threshold : Z;
  reset_timeout : Z;
  cb_state : CircuitState;
  consecutive_failures : Z;
  last_failure_at : option Z;
  total_trips : Z;
}.

Definition breaker_new (threshold timeout : Z) : DefaultCircuitBreaker :=
  mkBreaker threshold timeout Closed 0 None 0.

Definition set_cb_state (s : CircuitState) (b : DefaultCircuitBreaker) : DefaultCircuitBreaker :=
  mkBreaker (failure_threshold b) (reset_timeout b) s (consecutive_failures b) (last_failure_at b)
    (total_trips b).

Record CircuitBreakerStats : Type := mkStats {
  stats_state : CircuitState;
  stats_consecutive_failures : Z;
  stats_total_trips : Z;
}.

Definition stats (b : DefaultCircuitBreaker) : CircuitBreakerStats :=
  mkStats (cb_state b) (consecutive_failures b) (total_trips b).

Definition record_success (b : DefaultCircuitBreaker) : DefaultCircuitBreaker :=
  mkBreaker (failure_threshold b) (reset_timeout b) Closed 0 None (total_trips b).

Definition breaker_reset (b : DefaultCircuitBreaker) : bool * DefaultCircuitBreaker :=
  (bool_decide (cb_state b <> Closed \/ consecutive_failures b <> 0%Z),
   mkBreaker (failure_threshold b) (reset_timeout b) Closed 0 None (total_trips b)).

Section Breaker.
Context {W : Type} `{Clock W}.

(** [.map(|t| t.elapsed()).unwrap_or(Duration::ZERO)] *)
Definition elapsed_since (last : option Z) : Eff W Z :=
  match last with
  | Some t => let* now := instant_now in eret (Z.max 0 (now - t))
  | None => eret 0%Z
  end.

Definition can_execute (b : DefaultCircuitBreaker) : Eff W (bool * DefaultCircuitBreaker) :=
  match cb_state b with
  | Closed | HalfOpen => eret (true, b)
  | Open =>
      let* elapsed := elapsed_since (last_failure_at b) in
      if (reset_timeout b <=? elapsed)%Z then eret (true, set_cb_state HalfOpen b)
      else eret (false, b)
  end.

Definition record_failure (b : DefaultCircuitBreaker) : Eff W DefaultCircuitBreaker :=
  let failures := wrap64 (consecutive_failures b + 1) in
  let* now := instant_now in
  if (failure_threshold b <=? failures)%Z && bool_decide (cb_state b <> Open) then
    eret (mkBreaker (failure_threshold b) (reset_timeout b) Open failures (Some now)
            (wrap64 (total_trips b + 1)))
  else
    eret (mkBreaker (failure_threshold b) (reset_timeout b) (cb_state b) failures (Some now)
            (total_trips b)).
End Breaker.

(** ** Production configuration *)

Inductive CircuitBreakerProdError : Type := FailureThresholdNotPositive | ResetTimeoutNotPositive.

Record CircuitBreakerProdConfig : Type := mkProdConfig {
  prod_failure_threshold : Z;
  prod_reset_timeout : Z;
}.

Definition default_prod_config : CircuitBreakerProdConfig := mkProdConfig 5 (30 * 10 ^ 9).

Definition validate (c : CircuitBreakerProdConfig) : result unit CircuitBreakerProdError :=
  if (prod_failure_threshold c =? 0)%Z then Err FailureThresholdNotPositive
  else if (prod_reset_timeout c =? 0)%Z then Err ResetTimeoutNotPositive
  else Ok tt.

(** * Coordination across instances *)

Record GlobalBreakerState : Type := mkGlobal {
  circuit_state : CircuitState;
  g_instance_id : string;
  timestamp_ms : Z;
}.

Inductive SyncError : Type :=
| RedisUnavailable | PublishFailed (e : string) | SubscribeFailed (e : string).

(** The trait [BreakerChannel]. *)
Record BreakerChannel (W : Type) : Type := mkChannel {
  publish_state : GlobalBreakerState -> Eff W (result unit SyncError);
  subscribe_states : Eff W (result (gmap string GlobalBreakerState) SyncError);
}.
Arguments publish_state {W}.
Arguments subscribe_states {W}.

(** The in-memory channel: what is behind its mutex and its atomic flag. *)
Record ChannelState : Type := mkChannelState {
  ch_states : gmap string GlobalBreakerState;
  available : bool;
}.

Definition channel_new : ChannelState := mkChannelState ∅ true.
Definition mark_unavailable (c : ChannelState) : ChannelState := mkChannelState (ch_states c) false.
Definition mark_available (c : ChannelState) : ChannelState := mkChannelState (ch_states c) true.

Definition RedisBreakerChannel {W} (L : Lens W ChannelState) : BreakerChannel W := {|
  publish_state s := fun w =>
    let c := lget L w in
    if available c then
      (Ok tt, lset L (mkChannelState (<[g_instance_id s := s]> (ch_states c)) (available c)) w)
    else (Err RedisUnavailable, w);
  subscribe_states := fun w =>
    let c := lget L w in
    (if available c then Ok (ch_states c) else Err RedisUnavailable, w);
|}.

Record GlobalBreakerCoordinator (W : Type) : Type := mkCoordinator {
  local_breaker : DefaultCircuitBreaker;
  channel : BreakerChannel W;
  instance_id : string;
  sync_interval : Z;
}.
Arguments mkCoordinator {W}.
Arguments local_breaker {W}.
Arguments channel {W}.
Arguments instance_id {W}.
Arguments sync_interval {W}.

Section Coordinator.
Context {W : Type} `{Clock W}.
Implicit Types c : GlobalBreakerCoordinator W.

Definition coordinator_new (b : DefaultCircuitBreaker) (ch : BreakerChannel W) (id : string) :
    GlobalBreakerCoordinator W := mkCoordinator b ch id (10 * 10 ^ 9).

Definition with_sync_interval (i : Z) c : GlobalBreakerCoordinator W :=
  mkCoordinator (local_breaker c) (channel c) (instance_id c) i.

Definition set_local (b : DefaultCircuitBreaker) c : GlobalBreakerCoordinator W :=
  mkCoordinator b (channel c) (instance_id c) (sync_interval c).

(** [BreakerStateSyncer::publish] *)
Definition publish (s : CircuitState) c : Eff W (result unit SyncError) :=
  let* ms := system_millis in
  publish_state (channel c) (mkGlobal s (instance_id c) (wrap64 (Z.max 0 ms))).

Definition other_open (id : string) (s : GlobalBreakerState) : bool :=
  bool_decide (g_instance_id s <> id) && bool_decide (circuit_state s = Open).

(** [states.values().any(..)] *)
Definition any_value (f : GlobalBreakerState -> bool) (m : gmap string GlobalBreakerState) : bool :=
  existsb f (snd <$> map_to_list m).

Definition any_instance_open c : Eff W (result bool SyncError) :=
  let* r := subscribe_states (channel c) in
  match r with
  | Err e => eret (Err e)
  | Ok states => eret (Ok (any_value (other_open (instance_id c)) states))
  end.

Definition allow_request c : Eff W (bool * GlobalBreakerCoordinator W) :=
  let* (ok, b) := can_execute (local_breaker c) in
  let c := set_local b c in
  if negb ok then eret (false, c)
  else
    let* r := any_instance_open c in
    eret (match r with Ok true => false | _ => true end, c).

Definition coord_record_success c : Eff W (GlobalBreakerCoordinator W) :=
  let c := set_local (record_success (local_breaker c)) c in
  let* _ := publish (cb_state (local_breaker c)) c in
  eret c.

Definition coord_record_failure c : Eff W (GlobalBreakerCoordinator W) :=
  let* b := record_failure (local_breaker c) in
  let c := set_local b c in
  let* _ := publish (cb_state (local_breaker c)) c in
  eret c.

Definition sync_state c : Eff W (result unit SyncError * GlobalBreakerCoordinator W) :=
  let* r := subscribe_states (channel c) in
  match r with
  | Err e => eret (Err e, c)
  | Ok states =>
      if bool_decide (cb_state (local_breaker c) = Open) then
        let others_recovered := negb (any_value (other_open (instance_id c)) states) in
        let has_other_instances :=
          any_value (fun s => bool_decide (g_instance_id s <> instance_id c)) states in
        if has_other_instances && others_recovered then
          eret (Ok tt, set_local (snd (breaker_reset (local_breaker c))) c)
        else eret (Ok tt, c)
      else eret (Ok tt, c)
  end.

Definition coord_state c : CircuitState := cb_state (local_breaker c).
End Coordinator.

(** * Theorems on one breaker *)

Section History.
Context {W : Type} `{Clock W}.

(** The calls a pool makes on its breaker. *)
Inductive breaker_event : Type := EvCanExecute | EvSuccess | EvFailure | EvReset.

Definition breaker_apply (e : breaker_event) b : Eff W DefaultCircuitBreaker :=
  match e with
  | EvCanExecute => let* (_, b') := can_execute b in eret b'
  | EvSuccess => eret (record_success b)
  | EvFailure => record_failure b
  | EvReset => eret (snd (breaker_reset b))
  end.

Fixpoint breaker_run (h : list breaker_event) b : Eff W DefaultCircuitBreaker :=
  match h with
  | [] => eret b
  | e :: h' => let* b' := breaker_apply e b in breaker_run h' b'
  end.

(** The failures since the last success or reset, [n] being those before [h]. *)
Fixpoint trailing_failures (n : nat) (h : list breaker_event) : nat :=
  match h with
  | [] => n
  | EvFailure :: h' => trailing_failures (S n) h'
  | EvCanExecute :: h' => trailing_failures n h'
  | (EvSuccess | EvReset) :: h' => trailing_failures 0 h'
  end.

(** Each call with the time the clock shows when it is made. *)
Fixpoint stamped (h : list breaker_event) b (w : W) : list (breaker_event * Z) :=
  match h with
  | [] => []
  | e :: h' => (e, fst (instant_now w)) :: let '(b', w') := breaker_apply e b w in stamped h' b' w'
  end.

(** The time of the last failure, unless a success or reset came after it, and the times of the requests
    made since. *)
Definition watch (o : option (Z * list Z)) (ev : breaker_event * Z) : option (Z * list Z) :=
  match ev.1 with
  | EvFailure => Some (ev.2, [])
  | EvSuccess | EvReset => None
  | EvCanExecute => (fun p => (p.1, p.2 ++ [ev.2])) <$> o
  end.

Definition waited (timeout failed now : Z) : bool := (timeout <=? Z.max 0 (now - failed))%Z.

(** What the breaker should be after [n] failures in a row, [o] being the last one: open once they reach
    the threshold, half open from the first request that comes [timeout] after it. *)
Definition due_state (threshold timeout : Z) (n : nat) (o : option (Z * list Z)) : CircuitState :=
  match o with
  | None => Closed
  | Some (failed, tried) =>
      if (Z.of_nat n <? threshold)%Z then Closed
      else if existsb (waited timeout failed) tried then HalfOpen else Open
  end.

(** Whether a request is due to be let through at the time [now]. *)
Definition due_answer (threshold timeout : Z) (n : nat) (o : option (Z * list Z)) (now : Z) : bool :=
  match due_state threshold timeout n o, o with
  | Open, Some (failed, _) => waited timeout failed now
  | _, _ => true
  end.

(** A breaker that has seen [n] failures since its last success, the last of them in [o]. *)
Definition counts (n : nat) (o : option (Z * list Z)) b : Prop :=
  consecutive_failures b = Z.of_nat n /\ (0 < failure_threshold b)%Z /\
  cb_state b = due_state (failure_threshold b) (reset_timeout b) n o /\
  last_failure_at b = fst <$> o /\ (o = None -> n = 0).

Lemma can_execute_state b w ok b' w' :
  can_execute b w = ((ok, b'), w') ->
  b' = b \/ (cb_state b = Open /\ b' = set_cb_state HalfOpen b /\ ok = true).
Proof.
  unfold can_execute, ebind, eret. destruct (cb_state b); [intros; simplify_eq; auto| |intros; simplify_eq; auto].
  destruct (elapsed_since (last_failure_at b) w) as [el w1].
  case_match; intros; simplify_eq; auto.
Qed.

Lemma can_execute_due n o b w : counts n o b ->
  fst (fst (can_execute b w)) = due_answer (failure_threshold b) (reset_timeout b) n o (fst (instant_now w)) /\
  counts n ((fun p => (p.1, p.2 ++ [fst (instant_now w)])) <$> o) (snd (fst (can_execute b w))) /\
  failure_threshold (snd (fst (can_execute b w))) = failure_threshold b /\
  reset_timeout (snd (fst (can_execute b w))) = reset_timeout b.
Proof.
  intros (Hf & Ht & Hs & Hl & Hn). unfold can_execute, due_answer. rewrite <- Hs.
  destruct o as [[failed tried]|].
  - cbn [fmap option_fmap option_map] in *. unfold due_state in Hs. destruct (Z.of_nat n <? failure_threshold b)%Z eqn:Hlt.
    + rewrite Hs. split; [done|]. split; [|done]. unfold counts, due_state. cbn. by rewrite Hlt.
    + destruct (existsb _ tried) eqn:Hex; rewrite Hs.
      * split; [done|]. split; [|done]. unfold counts, due_state. cbn. by rewrite Hlt, existsb_app, Hex.
      * unfold ebind, eret, elapsed_since. rewrite Hl. cbn. unfold ebind, eret, waited.
        destruct (instant_now w) as [now w1]. cbn. destruct (reset_timeout b <=? _)%Z eqn:Hw; cbn;
          (split; [done|]; split; [|done]); unfold counts, due_state; cbn; rewrite Hlt, existsb_app, Hex; cbn;
          unfold waited; by rewrite Hw.
  - cbn in Hs. rewrite Hs. cbn. split; [done|]. split; [|done]. unfold counts. cbn. done.
Qed.

Lemma breaker_apply_counts e b n o w b' w' :
  (Z.of_nat n < 2 ^ 64 - 1)%Z -> counts n o b -> breaker_apply e b w = (b', w') ->
  failure_threshold b' = failure_threshold b /\ reset_timeout b' = reset_timeout b /\
  counts (trailing_failures n [e]) (watch o (e, fst (instant_now w))) b'.
Proof.
  intros Hn Hb. destruct e; cbn [breaker_apply trailing_failures].
  - unfold ebind, eret. destruct (can_execute_due n o b w Hb) as (_ & Hc & Ht & Hr).
    destruct (can_execute b w) as [[ok b1] w1]. by intros [= <- _].
  - destruct Hb as (_ & Ht & _). intros [= <- _]. do 2 (split; [done|]). by unfold counts.
  - destruct Hb as (Hf & Ht & Hs & Hl & Ho). unfold record_failure, ebind, eret. destruct (instant_now w) as [now w1].
    rewrite Hf, wrap64_small by lia. unfold watch. cbn [fst snd].
    assert (Hdue : due_state (failure_threshold b) (reset_timeout b) (S n) (Some (now, [])) =
                   if (failure_threshold b <=? Z.of_nat n + 1)%Z then Open else Closed).
    { unfold due_state. cbn [existsb]. destruct (Z.leb_spec (failure_threshold b) (Z.of_nat n + 1));
        destruct (Z.ltb_spec (Z.of_nat (S n)) (failure_threshold b)); done || lia. }
    destruct (failure_threshold b <=? Z.of_nat n + 1)%Z eqn:Hle; cbn [andb].
    + case_bool_decide as Hop; intros [= <- _]; do 2 (split; [done|]); unfold counts; cbn [consecutive_failures failure_threshold cb_state reset_timeout last_failure_at fmap option_fmap option_map fst]; rewrite Hdue;
        (split_and!; [lia|done| |done|done]); [done|]. destruct (cb_state b); done || (exfalso; by apply Hop).
    + intros [= <- _]. do 2 (split; [done|]). unfold counts. cbn [consecutive_failures failure_threshold cb_state reset_timeout last_failure_at fmap option_fmap option_map fst]. rewrite Hdue. split_and!; [lia|done| |done|done].
      rewrite Hs. destruct o as [[]|]; [|done]. unfold due_state. apply Z.leb_gt in Hle.
      by rewrite (proj2 (Z.ltb_lt _ _)) by lia.
  - destruct Hb as (_ & Ht & _). intros [= <- _]. do 2 (split; [done|]). by unfold counts.
Qed.

Lemma trailing_failures_bound n h : trailing_failures n h <= n + length h.
Proof.
  revert n. induction h as [|[] h IH]; intros n; cbn; [lia|..];
    [specialize (IH n)|specialize (IH 0)|specialize (IH (S n))|specialize (IH 0)]; lia.
Qed.

Lemma breaker_run_counts h b n o w b' w' :
  (Z.of_nat (n + length h) < 2 ^ 64)%Z -> counts n o b -> breaker_run h b w = (b', w') ->
  failure_threshold b' = failure_threshold b /\ reset_timeout b' = reset_timeout b /\
  counts (trailing_failures n h) (foldl watch o (stamped h b w)) b'.
Proof.
  revert b n o w. induction h as [|e h IH]; intros b n o w Hn Hb Hr; cbn in Hr.
  { unfold eret in Hr. by simplify_eq. }
  unfold ebind in Hr. cbn [stamped foldl]. destruct (breaker_apply e b w) as [b1 w1] eqn:He. cbn in Hn.
  apply (breaker_apply_counts e b n o) in He as (Ht & Hrt & He); [|lia|done].
  pose proof (trailing_failures_bound n [e]) as Hb1. cbn [length] in Hb1.
  destruct (IH b1 (trailing_failures n [e]) _ w1 ltac:(lia) He Hr) as (Ht' & Hrt' & Hr').
  rewrite Ht', Hrt', Ht, Hrt. do 2 (split; [done|]). by destruct e.
Qed.

(** [k] requests in a row, none reporting back: whether all were admitted. *)
Fixpoint probes (k : nat) (b : DefaultCircuitBreaker) : Eff W (bool * DefaultCircuitBreaker) :=
  match k with
  | 0 => eret (true, b)
  | S k' =>
      let* (ok, b1) := can_execute b in
      let* (oks, b2) := probes k' b1 in
      eret (ok && oks, b2)
  end.

(** C19. What a breaker's state means.  After any history of fewer than [2^64] calls a breaker with a
    positive threshold is [Closed] exactly when fewer than [failure_threshold] failures were recorded
    since the last success or reset; otherwise it is [Open] until a request comes [reset_timeout] after
    the last failure, by the clock the calls read, and [HalfOpen] from then on.  While it is open the next
    request is refused exactly if that time has not passed; in the other states it is let through.
    A failure that reaches or exceeds the threshold leaves it open.  The documentation says that [HalfOpen]
    lets a single request through; the code lets any number [k] through before one reports back. *)
Theorem breaker_history threshold timeout h w b w' k :
  (0 < threshold)%Z -> (Z.of_nat (length h) < 2 ^ 64 - 1)%Z ->
  breaker_run h (breaker_new threshold timeout) w = (b, w') ->
  let n := trailing_failures 0 h in
  let o := foldl watch None (stamped h (breaker_new threshold timeout) w) in
  (cb_state b = Closed <-> (Z.of_nat n < threshold)%Z) /\
  cb_state b = due_state threshold timeout n o /\
  fst (fst (can_execute b w')) = due_answer threshold timeout n o (fst (instant_now w')) /\
  (cb_state b <> Closed -> is_some (last_failure_at b) = true /\
     cb_state (fst (record_failure b w')) = Open) /\
  (cb_state b = HalfOpen -> probes k b w' = ((true, b), w')).
Proof.
  intros Ht Hh Hr n o.
  assert (counts 0 None (breaker_new threshold timeout)) as H0 by done.
  destruct (breaker_run_counts h _ 0 None w b w' ltac:(cbn; lia) H0 Hr) as (Hth & Hrt & Hc). fold n o in Hc.
  cbn in Hth, Hrt. pose proof (can_execute_due n o b w' Hc) as (Hans & _). rewrite Hth, Hrt in Hans.
  pose proof Hc as (Hf & _ & Hs & Hl & Hno). rewrite Hth, Hrt in Hs.
  assert (Hcl : cb_state b = Closed <-> (Z.of_nat n < threshold)%Z).
  { rewrite Hs. unfold due_state. destruct o as [[failed tried]|]; [|split; [intros _; rewrite (Hno eq_refl); lia|done]].
    destruct (Z.ltb_spec (Z.of_nat n) threshold); [done|]. destruct (existsb _ tried); split; done || lia. }
  split_and!; [done|done|done| |].
  - intros Hn. assert (threshold <= Z.of_nat n)%Z as Hge.
    { apply Z.nlt_ge. intros Hlt. by apply Hn, Hcl. }
    split. { rewrite Hl. destruct o; [done|]. specialize (Hno eq_refl). lia. }
    pose proof (trailing_failures_bound 0 h) as Hb.
    unfold record_failure, ebind, eret. destruct (instant_now w') as [now w2].
    rewrite Hf, Hth, wrap64_small by lia. rewrite (proj2 (Z.leb_le _ _)) by lia. cbn [andb].
    case_bool_decide as Ho; [done|]. cbn. by destruct (cb_state b).
  - intros Hho. induction k as [|k IH]; [done|]. cbn [probes]. unfold ebind, can_execute, eret.
    rewrite Hho. by rewrite IH.
Qed.
End History.

(** * Two instances on one channel *)

Section TwoInstances.
Context {W : Type} `{Clock W} (L : Lens W ChannelState).

(** Reading a clock does not write the channel. *)
Hypothesis instant_frame : forall w, lget L (snd (instant_now w)) = lget L w.

Implicit Types c : GlobalBreakerCoordinator W.

Lemma any_value_true f (m : gmap string GlobalBreakerState) :
  any_value f m = true <-> exists k s, m !! k = Some s /\ f s = true.
Proof.
  unfold any_value. rewrite existsb_exists. split.
  - intros (s & Hin & Hf). apply list_elem_of_In, list_elem_of_fmap in Hin as ([k s'] & -> & Hk).
    apply elem_of_map_to_list in Hk. eauto.
  - intros (k & s & Hk & Hf). exists s. split; [|done]. apply list_elem_of_In, list_elem_of_fmap.
    exists (k, s). split; [done|]. by apply elem_of_map_to_list.
Qed.

(** The channel shows instance [id] as open. *)
Definition shows_open (id : string) (w : W) : Prop :=
  exists s, ch_states (lget L w) !! id = Some s /\ g_instance_id s = id /\ circuit_state s = Open.

(** [c] is not closed, and another instance [other] is open on the channel. *)
Definition blocked (other : string) c (w : W) : Prop :=
  channel c = RedisBreakerChannel L /\ available (lget L w) = true /\
  other <> instance_id c /\ shows_open other w /\ cb_state (local_breaker c) <> Closed.

Lemma shows_open_other other id w :
  other <> id -> shows_open other w -> any_value (other_open id) (ch_states (lget L w)) = true.
Proof.
  intros Hne (s & Hs & Hid & Ho). apply any_value_true. exists other, s. split; [done|].
  unfold other_open. rewrite Hid, Ho. by rewrite bool_decide_eq_true_2.
Qed.

Lemma can_execute_frame (b : DefaultCircuitBreaker) w ok b' w' :
  can_execute b w = ((ok, b'), w') -> lget L w' = lget L w.
Proof.
  unfold can_execute, elapsed_since, ebind, eret.
  destruct (cb_state b); [intros; by simplify_eq| |intros; by simplify_eq].
  destruct (last_failure_at b) as [t|].
  - pose proof (instant_frame w) as Hf. destruct (instant_now w) as [now w1]. cbn in Hf.
    case_match; intros; by simplify_eq.
  - case_match; intros; by simplify_eq.
Qed.

Lemma allow_request_blocked other c w ok c' w' :
  blocked other c w -> allow_request c w = ((ok, c'), w') ->
  ok = false /\ lget L w' = lget L w /\ blocked other c' w' /\ instance_id c' = instance_id c.
Proof.
  intros (Hch & Hav & Hne & Hopen & Hst). unfold allow_request, ebind at 1.
  destruct (can_execute (local_breaker c) w) as [[ok1 b] w1] eqn:Hc.
  pose proof (can_execute_frame _ _ _ _ _ Hc) as Hf.
  assert (cb_state b <> Closed) as Hb.
  { apply can_execute_state in Hc as [->|(_ & -> & _)]; done. }
  assert (blocked other (set_local b c) w1) as Hbl.
  { unfold blocked, shows_open in *. rewrite Hf. done. }
  destruct ok1; cbn [negb].
  - unfold any_instance_open, ebind, eret. cbn [channel set_local]. rewrite Hch. cbn.
    rewrite Hf, Hav, (shows_open_other other) by done. intros. by simplify_eq.
  - unfold eret. intros. by simplify_eq.
Qed.

Lemma sync_state_blocked other c w r c' w' :
  blocked other c w -> sync_state c w = ((r, c'), w') -> c' = c /\ w' = w.
Proof.
  intros (Hch & Hav & Hne & Hopen & Hst). unfold sync_state, ebind, eret. rewrite Hch. cbn.
  rewrite Hav, (shows_open_other other) by done. rewrite andb_false_r.
  case_bool_decide; intros; by simplify_eq.
Qed.

(** What the two instances do: requests, which report back when they are admitted, and
    periodic synchronisation, in any interleaving, while time passes. *)
Definition serve c (w : W) c' (w' : W) : Prop :=
  exists ok c1 w1, allow_request c w = ((ok, c1), w1) /\
    if ok then coord_record_success c1 w1 = (c', w') \/ coord_record_failure c1 w1 = (c', w')
    else c' = c1 /\ w' = w1.

Inductive traffic :
  GlobalBreakerCoordinator W * GlobalBreakerCoordinator W * W ->
  GlobalBreakerCoordinator W * GlobalBreakerCoordinator W * W -> Prop :=
| traffic_serve_l c d w c' w' : serve c w c' w' -> traffic (c, d, w) (c', d, w')
| traffic_serve_r c d w d' w' : serve d w d' w' -> traffic (c, d, w) (c, d', w')
| traffic_sync_l c d w r c' w' : sync_state c w = ((r, c'), w') -> traffic (c, d, w) (c', d, w')
| traffic_sync_r c d w r d' w' : sync_state d w = ((r, d'), w') -> traffic (c, d, w) (c, d', w')
| traffic_time c d w w' : lget L w' = lget L w -> traffic (c, d, w) (c, d, w').

Definition both_blocked (x : GlobalBreakerCoordinator W * GlobalBreakerCoordinator W * W) : Prop :=
  let '(c, d, w) := x in blocked (instance_id d) c w /\ blocked (instance_id c) d w.

Lemma blocked_frame other c w w' : lget L w' = lget L w -> blocked other c w -> blocked other c w'.
Proof. unfold blocked, shows_open. by intros ->. Qed.

Lemma serve_blocked other c w c' w' :
  blocked other c w -> serve c w c' w' ->
  lget L w' = lget L w /\ blocked other c' w' /\ instance_id c' = instance_id c.
Proof.
  intros Hb (ok & c1 & w1 & Ha & Hs).
  destruct (allow_request_blocked _ _ _ _ _ _ Hb Ha) as (-> & Hf & Hb1 & Hid).
  by destruct Hs as [-> ->].
Qed.

Lemma traffic_blocked x y : both_blocked x -> traffic x y -> both_blocked y.
Proof.
  intros Hb Ht. destruct Ht as [c d w c' w' Hs|c d w d' w' Hs|c d w r c' w' Hs|c d w r d' w' Hs
    |c d w w' Hf]; destruct Hb as [Hc Hd].
  - destruct (serve_blocked _ _ _ _ _ Hc Hs) as (Hf & Hc' & Hid). split; [done|].
    rewrite Hid. by eapply blocked_frame.
  - destruct (serve_blocked _ _ _ _ _ Hd Hs) as (Hf & Hd' & Hid). split; [|done].
    rewrite Hid. by eapply blocked_frame.
  - destruct (sync_state_blocked _ _ _ _ _ _ Hc Hs) as [-> ->]. by split.
  - destruct (sync_state_blocked _ _ _ _ _ _ Hd Hs) as [-> ->]. by split.
  - split; by eapply blocked_frame.
Qed.

(** Two open instances block each other for ever.  When both have published [Open]
    on the in-memory channel and neither is closed, then after any interleaving of
    requests and synchronisations, however much time passes, both still refuse every
    request: a breaker that reaches its half-open probe is refused because of the
    other's published state, and no request is admitted that could publish a
    recovery. *)
Theorem mutual_open_never_recovers c d w c' d' w' ok c1 w1 :
  both_blocked (c, d, w) -> rtc traffic (c, d, w) (c', d', w') ->
  allow_request c' w' = ((ok, c1), w1) -> ok = false.
Proof.
  intros Hb Hrtc Ha.
  assert (both_blocked (c', d', w')) as [Hc _].
  { apply (rtc_invariant traffic both_blocked (c, d, w) (c', d', w')); [apply traffic_blocked|done|done]. }
  by destruct (allow_request_blocked _ _ _ _ _ _ Hc Ha).
Qed.
End TwoInstances.

(** * Closed instances *)

Section Instances.
Definition ChWorld : Type := SimWorld * ChannelState.

#[local] Instance ChWorld_clock : Clock ChWorld := {|
  system_millis := fun '(w, l) => let '(t, w') := system_millis w in (t, (w', l));
  instant_now := fun '(w, l) => let '(t, w') := instant_now w in (t, (w', l));
  sleep_ns := fun d '(w, l) => let '(t, w') := sleep_ns d w in (t, (w', l));
|}.

Definition ch_lens : Lens ChWorld ChannelState.
Proof.
  refine (mkLens _ _ snd (fun l w => (fst w, l)) _ _ _); [done|by intros []|done].
Defined.

Lemma ch_frame w : lget ch_lens (snd (instant_now w)) = lget ch_lens w.
Proof. by destruct w as [w l]. Defined.

(** The clock ticks once per reading.  Two failures open the breaker at time 1; with a timeout of 3 the
    request at time 2 is refused, and so is the next one; with a timeout of 1 the first goes through. *)
Lemma breaker_history_witness :
  let h := [EvFailure; EvSuccess; EvFailure; EvFailure; EvCanExecute] in
  let '(b, w') := breaker_run h (breaker_new 2 9) sim0 in
  let '(b1, w1) := breaker_run h (breaker_new 2 1) sim0 in
  cb_state b = Open /\ fst (fst (can_execute b w')) = false /\ cb_state (fst (record_failure b w')) = Open /\
  cb_state b1 = HalfOpen /\ probes 7 b1 w1 = ((true, b1), w1).
Proof.
  intros h. destruct (breaker_run h (breaker_new 2 9) sim0) as [b w'] eqn:E.
  destruct (breaker_run h (breaker_new 2 1) sim0) as [b1 w1] eqn:E1.
  destruct (breaker_history 2 9 h sim0 b w' 0 ltac:(done) ltac:(done) E) as (_ & Hs & Ha & Ho & _).
  destruct (breaker_history 2 1 h sim0 b1 w1 7 ltac:(done) ltac:(done) E1) as (_ & Hs1 & _ & _ & Hp).
  assert (Hopen : cb_state b = Open) by (rewrite Hs; vm_compute; reflexivity).
  assert (Hhalf : cb_state b1 = HalfOpen) by (rewrite Hs1; vm_compute; reflexivity).
  split_and!; [done| |apply Ho; by rewrite Hopen|done|by apply Hp].
  rewrite Ha. vm_compute in E. injection E as <- <-. vm_compute. reflexivity.
Defined.

(** Both instances record one failure with threshold one. *)
Definition opened : GlobalBreakerCoordinator ChWorld * GlobalBreakerCoordinator ChWorld * ChWorld :=
  let '(c, w1) := coord_record_failure
    (coordinator_new (breaker_new 1 0) (RedisBreakerChannel ch_lens) "a") (sim0, channel_new) in
  let '(d, w2) := coord_record_failure
    (coordinator_new (breaker_new 1 0) (RedisBreakerChannel ch_lens) "b") w1 in
  (c, d, w2).

Lemma mutual_open_never_recovers_witness :
  let '(c, d, w) := opened in fst (fst (allow_request c w)) = false.
Proof.
  assert (both_blocked ch_lens opened) as Hb.
  { split; (split; [reflexivity|]; split; [reflexivity|]; split; [discriminate|]; split;
      [eexists; split; [reflexivity|split; reflexivity]|discriminate]). }
  destruct opened as [[c d] w].
  destruct (allow_request c w) as [[ok c1] w1] eqn:E.
  exact (mutual_open_never_recovers ch_lens ch_frame c d w c d w ok c1 w1 Hb (rtc_refl _ _) E).
Defined.
End Instances.
