(* ===== verification/Coherence.v ===== *)
(** MESI-style cache coherence: [packages/sz-orm-core/src/cache_coherence.rs]. *)

From S2P Require Import Prelude.
Local Open Scope eff_scope.

Inductive MesiState : Type := Modified | Exclusive | Shared | Invalid.

#[export] Instance MesiState_eq_dec : EqDecision MesiState.
Proof. solve_decision. Defined.

Inductive ConsistencyStrategy : Type := WriteThrough | WriteBehind.

Inductive InvalidationOp : Type := Modify | Delete.

Record InvalidationEvent : Type := mkEvent {
  ev_key : string;
  ev_instance_id : string;
  ev_timestamp : Z;
  ev_op : InvalidationOp;
}.

Inductive CoherenceError : Type :=
| BroadcastFailed (e : string) | WriteBehindFailed (key : string)
| SplitBrain (key : string) | CacheMiss (key : string).

(** The trait [InvalidationBroadcaster]. *)
Definition InvalidationBroadcaster (W : Type) : Type :=
  InvalidationEvent -> Eff W (result unit CoherenceError).

Record CoherenceMetrics : Type := mkMetrics {
  modified_count : Z;
  exclusive_count : Z;
  shared_count : Z;
  invalid_count : Z;
  invalidation_broadcasts : Z;
  coherence_violations : Z;
  write_behind_rollbacks : Z;
}.

Definition default_metrics : CoherenceMetrics := mkMetrics 0 0 0 0 0 0 0.

(** The counters are [u64]. *)
Definition update_metrics (s : MesiState) (m : CoherenceMetrics) : CoherenceMetrics :=
  let inc x z := if bool_decide (s = x) then wrap64 (z + 1) else z in
  mkMetrics (inc Modified (modified_count m)) (inc Exclusive (exclusive_count m))
    (inc Shared (shared_count m)) (inc Invalid (invalid_count m))
    (invalidation_broadcasts m) (coherence_violations m) (write_behind_rollbacks m).

Definition count_broadcast (m : CoherenceMetrics) : CoherenceMetrics :=
  mkMetrics (modified_count m) (exclusive_count m) (shared_count m) (invalid_count m)
    (wrap64 (invalidation_broadcasts m + 1)) (coherence_violations m) (write_behind_rollbacks m).

Record CacheCoherenceProtocol (W : Type) : Type := mkProtocol {
  states : gmap string MesiState;
  broadcaster : InvalidationBroadcaster W;
  instance_id : string;
  strategy : ConsistencyStrategy;
  metrics : CoherenceMetrics;
}.
Arguments mkProtocol {W}.
Arguments states {W}.
Arguments broadcaster {W}.
Arguments instance_id {W}.
Arguments strategy {W}.
Arguments metrics {W}.

Section Protocol.
Context {W : Type} `{Clock W}.
Implicit Types p : CacheCoherenceProtocol W.

Definition protocol_new (id : string) (s : ConsistencyStrategy) (b : InvalidationBroadcaster W) :
    CacheCoherenceProtocol W := mkProtocol ∅ b id s default_metrics.

Definition update (st : gmap string MesiState) (m : CoherenceMetrics) p : CacheCoherenceProtocol W :=
  mkProtocol st (broadcaster p) (instance_id p) (strategy p) m.

Definition state (key : string) p : MesiState := default Invalid (states p !! key).

Definition read (key : string) (other_instances_have : bool) p :
    MesiState * CacheCoherenceProtocol W :=
  let current := default Invalid (states p !! key) in
  let new_state := match current with
                   | Invalid => if other_instances_have then Shared else Exclusive
                   | other => other
                   end in
  (new_state, update (<[key := new_state]> (states p)) (update_metrics new_state (metrics p)) p).

Definition write (key : string) p :
    Eff W (result MesiState CoherenceError * CacheCoherenceProtocol W) :=
  let* ms := system_millis in
  let* r := broadcaster p (mkEvent key (instance_id p) (wrap64 (Z.max 0 ms)) Modify) in
  match r with
  | Err e => eret (Err e, p)
  | Ok _ =>
      eret (Ok Modified,
            update (<[key := Modified]> (states p))
              (update_metrics Modified (count_broadcast (metrics p))) p)
  end.

Definition handle_invalidation (e : InvalidationEvent) p : CacheCoherenceProtocol W :=
  if bool_decide (ev_instance_id e = instance_id p) then p
  else update (<[ev_key e := Invalid]> (states p)) (update_metrics Invalid (metrics p)) p.
End Protocol.

Definition NoopBroadcaster {W} : InvalidationBroadcaster W := fun _ => eret (Ok tt).

(** [LocalBroadcaster]: the events behind its lock. *)
Definition LocalBroadcaster {W} (L : Lens W (list InvalidationEvent)) : InvalidationBroadcaster W :=
  fun e w => (Ok tt, lset L (lget L w ++ [e]) w).

(** * A cluster of instances *)

Section Cluster.
Context {W : Type} `{Clock W}.
Implicit Types (sys : list (CacheCoherenceProtocol W)) (p : CacheCoherenceProtocol W).

(** Whether an instance other than [i] has a copy of [key]. *)
Definition others_have (i : nat) (key : string) sys : bool :=
  existsb (fun '(j, p) => bool_decide (j <> i) && bool_decide (state key p <> Invalid))
    (imap (fun j p => (j, p)) sys).

(** The calls on the instances of a cluster, an instance being its position. *)
Inductive act : Type := ReadBy (i : nat) (key : string) | WroteBy (i : nat) (key : string) | RefusedTo (i : nat) (key : string).

(** Reads tell the truth about the other copies, and an event a write has broadcast is
    handled by every instance, the writer among them, before the next call. *)
Inductive cluster_step : act -> list (CacheCoherenceProtocol W) * W -> list (CacheCoherenceProtocol W) * W -> Prop :=
| cluster_read i key sys p s p' w :
    sys !! i = Some p -> read key (others_have i key sys) p = (s, p') ->
    cluster_step (ReadBy i key) (sys, w) (<[i := p']> sys, w)
| cluster_write i key sys p s p' w w' ts :
    sys !! i = Some p -> write key p w = ((Ok s, p'), w') ->
    cluster_step (WroteBy i key) (sys, w) (handle_invalidation (mkEvent key (instance_id p) ts Modify) <$> <[i := p']> sys, w')
| cluster_write_failed i key sys p e p' w w' :
    sys !! i = Some p -> write key p w = ((Err e, p'), w') ->
    cluster_step (RefusedTo i key) (sys, w) (<[i := p']> sys, w').

Inductive cluster_run (x : list (CacheCoherenceProtocol W) * W) : list act -> list (CacheCoherenceProtocol W) * W -> Prop :=
| run_start : cluster_run x [] x
| run_step h a y z : cluster_run x h y -> cluster_step a y z -> cluster_run x (h ++ [a]) z.

(** A directory keeps, for each key, its owner with the state it owns it in, and the others that have
    read it since. *)
Definition entry : Type := option (nat * MesiState * list nat).

Definition note (key : string) (o : entry) (a : act) : entry :=
  match a with
  | ReadBy i k =>
      if decide (k = key) then
        match o with
        | None => Some (i, Exclusive, [])
        | Some (x, s, l) => Some (x, s, i :: l)
        end
      else o
  | WroteBy i k => if decide (k = key) then Some (i, Modified, []) else o
  | RefusedTo _ _ => o
  end.

Definition directory (h : list act) (key : string) : entry := foldl (note key) None h.

Definition due (i : nat) (o : entry) : MesiState :=
  match o with
  | None => Invalid
  | Some (x, s, l) => if decide (i = x) then s else if decide (i ∈ l) then Shared else Invalid
  end.

Definition owns (key : string) p : Prop := state key p = Modified \/ state key p = Exclusive.

Definition distinct_ids sys : Prop :=
  forall i j p q, sys !! i = Some p -> sys !! j = Some q -> instance_id p = instance_id q -> i = j.

Lemma others_have_false i key sys j q :
  others_have i key sys = false -> sys !! j = Some q -> j <> i -> state key q = Invalid.
Proof.
  intros Ho Hj Hne. destruct (decide (state key q = Invalid)) as [|Hn]; [done|].
  exfalso. apply not_true_iff_false in Ho. apply Ho. unfold others_have. apply existsb_exists.
  exists (j, q). split.
  - apply list_elem_of_In, list_elem_of_lookup. exists j. rewrite list_lookup_imap, Hj. done.
  - by rewrite !bool_decide_eq_true_2.
Qed.

Lemma read_state key others p s p' :
  read key others p = (s, p') ->
  instance_id p' = instance_id p /\ (forall k, k <> key -> state k p' = state k p) /\
  state key p' = match state key p with
                 | Invalid => if others then Shared else Exclusive
                 | x => x
                 end.
Proof.
  unfold read. intros. simplify_eq. split; [done|]. unfold state. cbn. split.
  - intros k Hk. by rewrite lookup_insert_ne.
  - rewrite lookup_insert_eq. cbn. by destruct (default Invalid (states p !! key)).
Qed.

Lemma write_state key p w r p' w' :
  write key p w = ((r, p'), w') ->
  instance_id p' = instance_id p /\
  match r with
  | Ok s => s = Modified /\ state key p' = Modified /\ (forall k, k <> key -> state k p' = state k p)
  | Err _ => p' = p
  end.
Proof.
  unfold write, ebind, eret. destruct (system_millis w) as [ms w1].
  destruct (broadcaster p _ w1) as [[u|e] w2]; intros; simplify_eq; [|done].
  split_and!; [done|done| |].
  - unfold state. cbn. by rewrite lookup_insert_eq.
  - intros k Hk. unfold state. cbn. by rewrite lookup_insert_ne.
Qed.

Lemma handle_invalidation_state e p :
  instance_id (handle_invalidation e p) = instance_id p /\
  (forall k, k <> ev_key e -> state k (handle_invalidation e p) = state k p) /\
  state (ev_key e) (handle_invalidation e p) =
    (if bool_decide (ev_instance_id e = instance_id p) then state (ev_key e) p else Invalid).
Proof.
  unfold handle_invalidation. case_bool_decide; [done|]. split; [done|]. unfold state. cbn. split.
  - intros k Hk. by rewrite lookup_insert_ne.
  - by rewrite lookup_insert_eq.
Qed.

(** Replacing an instance by one with the same id keeps the ids distinct. *)
Lemma distinct_ids_insert i p p' sys :
  sys !! i = Some p -> instance_id p' = instance_id p -> distinct_ids sys -> distinct_ids (<[i := p']> sys).
Proof.
  intros Hi Hid Hd j k q r. rewrite !list_lookup_insert_Some. intros Hj Hk Heq.
  destruct Hj as [(-> & -> & _)|[? Hj]], Hk as [(-> & -> & _)|[? Hk]]; [done| | |by eapply Hd].
  - eapply Hd; [exact Hi|exact Hk|congruence].
  - eapply Hd; [exact Hj|exact Hi|congruence].
Qed.

(** Every owner of the directory is an instance that has a copy. *)
Definition sound sys (o : entry) : Prop :=
  match o with None => True | Some (x, s, _) => x < length sys /\ (s = Modified \/ s = Exclusive) end.

Definition cluster_inv (h : list act) sys : Prop :=
  distinct_ids sys /\ (forall key, sound sys (directory h key)) /\
  forall i p key, sys !! i = Some p -> state key p = due i (directory h key).

Lemma directory_snoc h a key : directory (h ++ [a]) key = note key (directory h key) a.
Proof. unfold directory. by rewrite foldl_app. Qed.

(** Who reads a key with an owner elsewhere is told of a copy. *)
Lemma others_have_owner i key sys p x : sys !! x = Some p -> x <> i -> state key p <> Invalid -> others_have i key sys = true.
Proof.
  intros Hx Hne Hs. destruct (others_have i key sys) eqn:E; [done|]. exfalso. by apply Hs, (others_have_false _ _ _ _ _ E Hx).
Qed.

Lemma others_have_nobody i key sys : (forall j q, sys !! j = Some q -> state key q = Invalid) -> others_have i key sys = false.
Proof.
  intros Hn. apply not_true_iff_false. intros ([j q] & Hin & [_ Hs%bool_decide_eq_true]%andb_true_iff)%existsb_exists.
  apply list_elem_of_In, list_elem_of_lookup in Hin as [m Hm]. rewrite list_lookup_imap in Hm.
  destruct (sys !! m) as [q'|] eqn:Hq; [|done]. injection Hm as <- <-. by eapply Hs, Hn.
Qed.

Lemma read_due i key sys p h : cluster_inv h sys -> sys !! i = Some p ->
  match state key p with Invalid => if others_have i key sys then Shared else Exclusive | x => x end
  = due i (note key (directory h key) (ReadBy i key)).
Proof.
  intros (_ & Hs & Hst) Hi. specialize (Hs key). rewrite (Hst i p key Hi). unfold note. rewrite decide_True by done.
  destruct (directory h key) as [[[x s] l]|] eqn:Ho; cbn [due].
  - destruct Hs as [Hx Hso]. destruct (decide (i = x)) as [_|Hix]; [by destruct Hso as [->| ->]|].
    rewrite (decide_True (P := i ∈ i :: l)) by by left. destruct (decide (i ∈ l)) as [_|_]; [reflexivity|].
    destruct (lookup_lt_is_Some_2 sys x Hx) as [q Hq]. rewrite (others_have_owner i key sys q x Hq); [done|done|].
    rewrite (Hst x q key Hq), Ho. cbn. rewrite decide_True by done. by destruct Hso as [->| ->].
  - rewrite decide_True by done. rewrite others_have_nobody; [done|]. intros j q Hq. by rewrite (Hst j q key Hq), Ho.
Qed.

Lemma cluster_read_inv i key sys p s p' h :
  sys !! i = Some p -> read key (others_have i key sys) p = (s, p') ->
  cluster_inv h sys -> cluster_inv (h ++ [ReadBy i key]) (<[i := p']> sys).
Proof.
  intros Hi Hr Hinv. pose proof (read_due i key sys p h Hinv Hi) as Hdue. destruct Hinv as (Hd & Hs & Hst).
  apply read_state in Hr as (Hid & Hk & Hkey). split; [by eapply distinct_ids_insert|]. split.
  - intros k. rewrite directory_snoc. specialize (Hs k). clear Hdue. unfold note, sound in *. rewrite length_insert.
    case_decide; [|done]. destruct (directory h k) as [[[x t] l]|]; [done|]. split; [by eapply lookup_lt_Some|by right].
  - intros j q k. rewrite directory_snoc, list_lookup_insert_Some. intros [(<- & -> & _)|[Hne Hj]].
    + destruct (decide (key = k)) as [->|Hnk]; [congruence|]. rewrite Hk, (Hst i p k Hi) by done.
      unfold note. by rewrite decide_False by done.
    + rewrite (Hst j q k Hj). clear Hdue. unfold note. case_decide; [|done]. destruct (directory h k) as [[[x t] l]|]; cbn.
      * destruct (decide (j = x)); [done|]. destruct (decide (j ∈ l)) as [Hl|Hl].
        -- by rewrite decide_True by by right.
        -- rewrite decide_False; [done|]. by intros [->|?]%elem_of_cons.
      * rewrite decide_False by done. rewrite decide_False by apply not_elem_of_nil. done.
Qed.

Lemma cluster_write_inv i key sys p s p' w w' ts h :
  sys !! i = Some p -> write key p w = ((Ok s, p'), w') -> cluster_inv h sys ->
  cluster_inv (h ++ [WroteBy i key]) (handle_invalidation (mkEvent key (instance_id p) ts Modify) <$> <[i := p']> sys).
Proof.
  intros Hi Hw (Hd & Hs & Hst). apply write_state in Hw as (Hid & -> & Hkey & Hk).
  set (e := mkEvent key (instance_id p) ts Modify).
  pose proof (distinct_ids_insert i p p' sys Hi Hid Hd) as Hd'. split; [|split].
  - intros j k q r Hj Hk' Heq. apply list_lookup_fmap_Some in Hj as (q0 & -> & Hj), Hk' as (r0 & -> & Hk').
    rewrite !(proj1 (handle_invalidation_state e _)) in Heq. by eapply Hd'.
  - intros k. rewrite directory_snoc. specialize (Hs k). unfold note, sound in *. rewrite length_fmap, length_insert.
    case_decide; [|done]. split; [by eapply lookup_lt_Some|by left].
  - intros j q k. rewrite directory_snoc. intros Hj. apply list_lookup_fmap_Some in Hj as (q0 & -> & Hj).
    destruct (handle_invalidation_state e q0) as (_ & Hek & Hekey). unfold note.
    destruct (decide (key = k)) as [<-|Hnk].
    + cbn in Hekey. rewrite Hekey. cbn [due]. destruct (decide (j = i)) as [->|Hne].
      * rewrite list_lookup_insert_eq in Hj by (by eapply lookup_lt_Some). injection Hj as <-.
        rewrite bool_decide_eq_true_2 by congruence. done.
      * rewrite decide_False by apply not_elem_of_nil. case_bool_decide as Hsame; [|done]. exfalso. apply Hne.
        rewrite list_lookup_insert_ne in Hj by done. by eapply Hd.
    + rewrite Hek by done. apply list_lookup_insert_Some in Hj as [(<- & -> & _)|[_ Hj]]; [|by apply Hst].
      rewrite Hk by done. by apply Hst.
Qed.

Lemma cluster_step_inv h a x y : cluster_inv h (fst x) -> cluster_step a x y -> cluster_inv (h ++ [a]) (fst y).
Proof.
  intros Hi Hs. destruct Hs as [i key sys p s p' w Hp Hr|i key sys p s p' w w' ts Hp Hw
    |i key sys p e p' w w' Hp Hw]; cbn in *.
  - by eapply cluster_read_inv.
  - by eapply cluster_write_inv.
  - apply write_state in Hw as [_ ->]. rewrite list_insert_id by done. destruct Hi as (Hd & Hs & Hst).
    split; [done|]. split; intros *; rewrite directory_snoc; [apply Hs|apply Hst].
Qed.

(** Instances as they start: distinct ids, empty caches. *)
Definition initial_cluster sys : Prop :=
  distinct_ids sys /\ Forall (fun p => states p = ∅) sys.

Lemma initial_cluster_inv sys : initial_cluster sys -> cluster_inv [] sys.
Proof.
  intros [Hd Hf]. split; [done|]. split; [done|]. intros i p key Hi.
  rewrite Forall_lookup in Hf. unfold state. by rewrite (Hf _ _ Hi), lookup_empty.
Qed.

(** C21. Coherence of a cluster.  Instances with distinct ids start empty; every read is told the truth
    about copies elsewhere, and the event of a write is handled by all instances, the writer among
    them, before the next call; broadcasts may fail.  Then the state of every key on every instance
    is what a directory says that notes who called: the last writer has it [Modified], or the first
    reader [Exclusive] when nobody wrote it, those who read it since have it [Shared] and all others
    [Invalid].  So at most one instance is [Modified] or [Exclusive] for a key.  But, against the
    documentation, it is not the only holder: those who read later have copies while it owns the key. *)
Theorem cluster_coherence sys0 w0 h sys w :
  initial_cluster sys0 -> cluster_run (sys0, w0) h (sys, w) ->
  (forall key i p, sys !! i = Some p -> state key p = due i (directory h key)) /\
  (forall key i j p q, sys !! i = Some p -> sys !! j = Some q -> owns key p -> owns key q -> i = j).
Proof.
  intros Hinit Hrun.
  assert (cluster_inv h sys) as (_ & _ & Hst).
  { change sys with (fst (sys, w)). induction Hrun as [|h a y z _ IH Hs]; [by apply initial_cluster_inv|by eapply cluster_step_inv]. }
  split; [by intros; apply Hst|]. intros key i j p q Hi Hj Hp Hq. unfold owns in *.
  rewrite (Hst i p key Hi) in Hp. rewrite (Hst j q key Hj) in Hq. unfold due in *.
  destruct (directory h key) as [[[x s] l]|]; [|naive_solver]. repeat case_decide; naive_solver.
Qed.
End Cluster.

(** * Closed instance *)

Section Instances.
Definition mesi (id : string) : CacheCoherenceProtocol SimWorld :=
  protocol_new id WriteThrough NoopBroadcaster.

(** One instance writes, the other reads, then writes itself. *)
Lemma cluster_coherence_witness :
  exists p q p2 q2 w w2, cluster_run ([mesi "a"; mesi "b"], sim0) [WroteBy 0 "k"; ReadBy 1 "k"] ([p; q], w) /\
    state "k" p = Modified /\ state "k" q = Shared /\
    cluster_run ([mesi "a"; mesi "b"], sim0) [WroteBy 0 "k"; ReadBy 1 "k"; WroteBy 1 "k"] ([p2; q2], w2) /\
    state "k" p2 = Invalid /\ state "k" q2 = Modified.
Proof.
  assert (initial_cluster [mesi "a"; mesi "b"]) as Hinit.
  { split; [|repeat constructor]. intros [|[|i]] [|[|j]] x y; cbn; intros ? ?; simplify_eq; done. }
  set (wp := write "k" (mesi "a") sim0). set (p := snd (fst wp)). set (w := snd wp).
  set (q := handle_invalidation (mkEvent "k" "a" 0 Modify) (mesi "b")). set (q1 := snd (read "k" true q)).
  set (wq := write "k" q1 w). set (q2 := snd (fst wq)). set (w2 := snd wq).
  set (p2 := handle_invalidation (mkEvent "k" "b" 1 Modify) p).
  assert (H1 : cluster_run ([mesi "a"; mesi "b"], sim0) [WroteBy 0 "k"] ([p; q], w)).
  { apply (run_step _ [] _ _ _ (run_start _)). by apply (cluster_write 0 "k" [mesi "a"; mesi "b"] (mesi "a") Modified p sim0 w 0). }
  assert (H2 : cluster_run ([mesi "a"; mesi "b"], sim0) [WroteBy 0 "k"; ReadBy 1 "k"] ([p; q1], w)).
  { apply (run_step _ [WroteBy 0 "k"] _ _ _ H1). by apply (cluster_read 1 "k" [p; q] q Shared q1 w). }
  assert (H3 : cluster_run ([mesi "a"; mesi "b"], sim0) [WroteBy 0 "k"; ReadBy 1 "k"; WroteBy 1 "k"] ([p2; q2], w2)).
  { apply (run_step _ [WroteBy 0 "k"; ReadBy 1 "k"] _ _ _ H2). by apply (cluster_write 1 "k" [p; q1] q1 Modified q2 w w2 1). }
  destruct (cluster_coherence _ _ _ _ _ Hinit H2) as [Hs2 _]. destruct (cluster_coherence _ _ _ _ _ Hinit H3) as [Hs3 _].
  exists p, q1, p2, q2, w, w2. split; [exact H2|]. split; [exact (Hs2 "k" 0 p eq_refl)|]. split; [exact (Hs2 "k" 1 q1 eq_refl)|].
  split; [exact H3|]. split; [exact (Hs3 "k" 0 p2 eq_refl)|exact (Hs3 "k" 1 q2 eq_refl)].
Defined.
End Instances.
