(* ===== verification/SqlText.v ===== *)
(** SQL text: the byte-string operations the generators of [packages/sz-orm-core/src]
    use, the lexical grammar of quoted SQL tokens as a specification, and the
    validators of [packages/sz-orm-core/src/sql_safety.rs].

    A Rust [str] is its UTF-8 bytes.  The generators compare characters with ASCII
    ones only, and a byte of a multi-byte character is never an ASCII byte, so
    working byte by byte gives the same text. *)

From Stdlib Require Import Ascii String.
From S2P Require Import Prelude.
Local Open Scope string_scope.
#[local] Arguments String.append !_ _ : simpl nomatch.

(** * String operations of the standard library *)

Definition dquote : ascii := "034"%char.
Definition squote : ascii := "039"%char.
Definition backtick : ascii := "096"%char.
Definition backslash : ascii := "092"%char.

(** The string of one character. *)
Definition chr (c : ascii) : string := String c EmptyString.

(** The loop [for c in s.chars() { out.push_str(f(c)) }]. *)
Fixpoint concat_map (f : ascii -> string) (s : string) : string :=
  match s with
  | EmptyString => EmptyString
  | String c s => f c +:+ concat_map f s
  end.

(** [s.replace(c, by)] *)
Definition replace_char (c : ascii) (by_ : string) : string -> string :=
  concat_map (fun x => if Ascii.eqb x c then by_ else chr x).

(** [s.contains(c)] *)
Fixpoint contains_char (c : ascii) (s : string) : bool :=
  match s with
  | EmptyString => false
  | String x s => Ascii.eqb x c || contains_char c s
  end.

(** [s.chars().all(p)] *)
Fixpoint all_chars (p : ascii -> bool) (s : string) : bool :=
  match s with
  | EmptyString => true
  | String x s => p x && all_chars p s
  end.

(** [s.chars().any(p)] *)
Definition any_char (p : ascii -> bool) (s : string) : bool :=
  negb (all_chars (fun c => negb (p c)) s).

(** [v.join(sep)] *)
Definition join (sep : string) (l : list string) : string := String.concat sep l.

(** [s.starts_with(p)] *)
Definition starts_with (p s : string) : bool := String.prefix p s.

(** [s.trim_start_matches(p)] for a two-byte pattern [ab]. *)
Fixpoint trim_start_pair (a b : ascii) (s : string) : string :=
  match s with
  | String x (String y s') =>
      if Ascii.eqb x a && Ascii.eqb y b then trim_start_pair a b s' else s
  | _ => s
  end.

(** [s.split(c)]: always at least one part. *)
Fixpoint split_char (c : ascii) (s : string) : list string :=
  match s with
  | EmptyString => [EmptyString]
  | String x s =>
      if Ascii.eqb x c then EmptyString :: split_char c s
      else match split_char c s with
           | [] => [chr x]
           | p :: ps => String x p :: ps
           end
  end.

(** The UTF-8 encodings of the characters [char::is_whitespace] accepts. *)
Definition whitespace : list string :=
  ((chr <$> ["009"; "010"; "011"; "012"; "013"; "032"]%char)
  ++ ((fun c => String "194" (chr c)) <$> ["133"; "160"]%char)
  ++ [String "225" (String "154" (chr "128"))]
  ++ ((fun n => String "226" (String "128" (chr (ascii_of_nat n))))
        <$> (seq 128 11 ++ [168; 169; 175])%list%nat)
  ++ [String "226" (String "129" (chr "159")); String "227" (String "128" (chr "128"))])%list.

(** Removes the elements of [ps] from the head of [s]; [fuel] bounds their number, and
    the length of [s] is enough. *)
Fixpoint strip_prefixes (fuel : nat) (ps : list string) (s : string) : string :=
  match fuel with
  | O => s
  | S fuel =>
      match list_find (fun p => String.prefix p s = true) ps with
      | Some (_, p) =>
          strip_prefixes fuel ps
            (String.substring (String.length p) (String.length s - String.length p)%nat s)
      | None => s
      end
  end.

Definition rev_string (s : string) : string := String.string_of_list_ascii (rev (String.list_ascii_of_string s)).

(** [s.trim()] *)
Definition trim (s : string) : string :=
  let s := strip_prefixes (String.length s) whitespace s in
  rev_string (strip_prefixes (String.length s) (rev_string <$> whitespace) (rev_string s)).

Example trim_example : trim (" a b" +:+ String "194" (chr "160") +:+ " ") = "a b".
Proof. reflexivity. Qed.

Definition ascii_in (lo hi c : ascii) : bool :=
  (nat_of_ascii lo <=? nat_of_ascii c)%nat && (nat_of_ascii c <=? nat_of_ascii hi)%nat.

(** [char::is_ascii_alphabetic], [char::is_ascii_digit], [char::is_ascii_alphanumeric] *)
Definition is_ascii_alphabetic (c : ascii) : bool := ascii_in "a" "z" c || ascii_in "A" "Z" c.
Definition is_ascii_digit (c : ascii) : bool := ascii_in "0" "9" c.
Definition is_ascii_alphanumeric (c : ascii) : bool := is_ascii_alphabetic c || is_ascii_digit c.

(** The characters outside ASCII whose uppercase has ASCII characters, with it. *)
Definition uppercase_specials : list (string * string) :=
  ([ (String "195" (chr "159"), "SS"); (String "196" (chr "177"), "I");
     (String "197" (chr "137"), String "202" (String "188" "N")); (String "197" (chr "191"), "S");
     (String "199" (chr "176"), String "J" (String "204" (chr "140"))) ]
  ++ ((fun '(b, u) => (String "225" (String "186" (chr b)), u)) <$>
       [ ("150"%char, String "H" (String "204" (chr "177")));
         ("151"%char, String "T" (String "204" (chr "136")));
         ("152"%char, String "W" (String "204" (chr "138")));
         ("153"%char, String "Y" (String "204" (chr "138")));
         ("154"%char, String "A" (String "202" (chr "190"))) ])
  ++ ((fun '(b, u) => (String "239" (String "172" (chr b)), u)) <$>
       [ ("128"%char, "FF"); ("129"%char, "FI"); ("130"%char, "FL"); ("131"%char, "FFI");
         ("132"%char, "FFL"); ("133"%char, "ST"); ("134"%char, "ST") ]))%list.

Definition to_ascii_uppercase (c : ascii) : ascii :=
  if ascii_in "a" "z" c then ascii_of_nat (nat_of_ascii c - 32) else c.

Fixpoint uppercase_go (fuel : nat) (s : string) : string :=
  match fuel with
  | O => EmptyString
  | S fuel =>
      match list_find (fun p => String.prefix (fst p) s = true) uppercase_specials with
      | Some (_, (p, u)) =>
          u +:+ uppercase_go fuel
            (String.substring (String.length p) (String.length s - String.length p)%nat s)
      | None =>
          match s with
          | EmptyString => EmptyString
          | String c s => String (to_ascii_uppercase c) (uppercase_go fuel s)
          end
      end
  end.

(** [s.to_uppercase()], as far as ASCII characters occur in the result: the other characters
    are left as they are where Rust writes their uppercase, also outside ASCII. *)
Definition uppercase (s : string) : string := uppercase_go (String.length s) s.

Example uppercase_example : uppercase "bigint(20)" = "BIGINT(20)".
Proof. reflexivity. Qed.

(** [s.contains(p)] *)
Fixpoint contains_text (p s : string) : bool :=
  starts_with p s || match s with String _ s' => contains_text p s' | EmptyString => false end.

(** [s.replacen(p, by, 1)] for a pattern that is not empty *)
Fixpoint replace_first (p by_ s : string) : string :=
  if starts_with p s then
    by_ +:+ String.substring (String.length p) (String.length s - String.length p)%nat s
  else match s with String c s' => String c (replace_first p by_ s') | EmptyString => EmptyString end.

(** [s.rsplit_once(c)] *)
Fixpoint rsplit_once (c : ascii) (s : string) : option (string * string) :=
  match s with
  | EmptyString => None
  | String x s =>
      match rsplit_once c s with
      | Some (a, b) => Some (String x a, b)
      | None => if Ascii.eqb x c then Some (EmptyString, s) else None
      end
  end.

(** [s[n..]], [None] where it panics: past the end, or inside a character. *)
Definition slice_from (n : nat) (s : string) : option string :=
  if (String.length s <? n)%nat then None
  else
    match String.substring n (String.length s - n)%nat s with
    | String c r => if ascii_in "128" "191" c then None else Some (String c r)
    | EmptyString => Some EmptyString
    end.

Example replace_first_example : replace_first "INT" "NUMBER(10)" "POINT INT" = "PONUMBER(10) INT".
Proof. reflexivity. Qed.
Example rsplit_once_example : rsplit_once " " "orders AS o" = Some ("orders AS", "o").
Proof. reflexivity. Qed.

(** ** Facts about them *)

Lemma str_app_assoc (a b c : string) : (a +:+ b) +:+ c = a +:+ (b +:+ c).
Proof. induction a as [|x a IH]; [done|]. cbn. by rewrite IH. Qed.

Lemma str_app_nil_r (a : string) : a +:+ "" = a.
Proof. induction a as [|x a IH]; [done|]. cbn. by rewrite IH. Qed.

Lemma str_app_cons x (a b : string) : String x a +:+ b = String x (a +:+ b).
Proof. done. Qed.

Lemma str_app_length (a b : string) :
  String.length (a +:+ b) = (String.length a + String.length b)%nat.
Proof. induction a as [|x a IH]; [done|]. cbn. by rewrite IH. Qed.

Lemma replace_char_absent c by_ (s : string) :
  contains_char c s = false -> replace_char c by_ s = s.
Proof.
  unfold replace_char. induction s as [|x s IH]; cbn; [done|].
  intros [Hx Hs]%orb_false_iff. by rewrite Hx, IH.
Qed.

Lemma all_chars_app p (a b : string) : all_chars p (a +:+ b) = all_chars p a && all_chars p b.
Proof. induction a as [|x a IH]; [done|]. cbn. by rewrite IH, andb_assoc. Qed.

Lemma all_chars_impl (p q : ascii -> bool) (s : string) :
  (forall c, p c = true -> q c = true) -> all_chars p s = true -> all_chars q s = true.
Proof.
  intros Hpq. induction s as [|x s IH]; [done|]. cbn.
  intros [Hx Hs]%andb_true_iff. by rewrite (Hpq _ Hx), IH.
Qed.

Lemma contains_char_all c p (s : string) :
  p c = false -> all_chars p s = true -> contains_char c s = false.
Proof.
  intros Hp. induction s as [|x s IH]; cbn; [done|]. intros [Hx Hs]%andb_true_iff.
  apply orb_false_iff. split; [|by apply IH].
  apply Ascii.eqb_neq. intros ->. congruence.
Qed.

(** * Quoted tokens of SQL

    The specification of the texts the generators quote.  A token opens with a
    delimiter and ends at its next occurrence; a doubled delimiter stands for one.
    MySQL's string literals also read a backslash escape. *)

(** What a backslash and a character stand for in a MySQL string literal. *)
Definition mysql_unescape (c : ascii) : string :=
  match c with
  | "0"%char => chr "000"%char
  | "b"%char => chr "008"%char
  | "n"%char => chr "010"%char
  | "r"%char => chr "013"%char
  | "t"%char => chr "009"%char
  | "Z"%char => chr "026"%char
  | "%"%char => "\%"
  | "_"%char => "\_"
  | _ => chr c
  end.

(** The text after the opening delimiter: the contents of the token and the text
    after it, [None] when the token is not closed.  [bs] says whether a backslash
    escapes. *)
Fixpoint scan_quoted (q : ascii) (bs : bool) (s : string) : option (string * string) :=
  match s with
  | EmptyString => None
  | String c s1 =>
      if Ascii.eqb c q then
        match s1 with
        | String c2 s2 =>
            if Ascii.eqb c2 q then prod_map (String q) id <$> scan_quoted q bs s2
            else Some (EmptyString, s1)
        | EmptyString => Some (EmptyString, EmptyString)
        end
      else if bs && Ascii.eqb c backslash then
        match s1 with
        | String e s2 => prod_map (String.append (mysql_unescape e)) id <$> scan_quoted q bs s2
        | EmptyString => None
        end
      else prod_map (String c) id <$> scan_quoted q bs s1
  end.

(** A quoted token at the head of a text, opened by [op] and closed by [cl]. *)
Definition scan_token (op cl : ascii) (bs : bool) (s : string) : option (string * string) :=
  match s with
  | String c s1 => if Ascii.eqb c op then scan_quoted cl bs s1 else None
  | EmptyString => None
  end.

Definition not_starting_with (q : ascii) (s : string) : Prop :=
  match s with String c _ => c <> q | EmptyString => True end.

(** The text outside single-quoted literals, one character at a time: [LOut],
    inside a literal, after an escape, after a quote that may close it. *)
Inductive lex_state : Type := LOut | LIn | LEsc | LQuote.

Definition lex_step (bs : bool) (st : lex_state) (c : ascii) : lex_state * string :=
  match st with
  | LOut => if Ascii.eqb c squote then (LIn, chr c) else (LOut, chr c)
  | LIn =>
      if Ascii.eqb c squote then (LQuote, EmptyString)
      else if bs && Ascii.eqb c backslash then (LEsc, EmptyString) else (LIn, EmptyString)
  | LEsc => (LIn, EmptyString)
  | LQuote =>
      if Ascii.eqb c squote then (LIn, EmptyString) else (LOut, String squote (chr c))
  end.

Fixpoint lex (bs : bool) (st : lex_state) (s : string) : lex_state * string :=
  match s with
  | EmptyString => (st, EmptyString)
  | String c s =>
      let '(st1, o1) := lex_step bs st c in
      let '(st2, o2) := lex bs st1 s in (st2, o1 +:+ o2)
  end.

(** The text of a statement with the contents of its literals removed, [None]
    when a literal is left open. *)
Definition outside (bs : bool) (s : string) : option string :=
  match lex bs LOut s with
  | (LOut, o) => Some o
  | (LQuote, o) => Some (o +:+ chr squote)
  | _ => None
  end.

Lemma lex_app bs st (a b : string) :
  lex bs st (a +:+ b) =
  let '(st1, o1) := lex bs st a in let '(st2, o2) := lex bs st1 b in (st2, o1 +:+ o2).
Proof.
  revert st. induction a as [|x a IH]; intros st.
  { cbn. by destruct (lex bs st b). }
  cbn [lex]. rewrite str_app_cons. cbn [lex]. destruct (lex_step bs st x) as [st1 o1].
  rewrite IH. destruct (lex bs st1 a) as [st2 o2]. destruct (lex bs st2 b) as [st3 o3].
  by rewrite str_app_assoc.
Qed.

(** Text without quotes is copied. *)
Lemma lex_plain bs (s : string) :
  contains_char squote s = false -> lex bs LOut s = (LOut, s).
Proof.
  induction s as [|c s IH]; [done|]. cbn [contains_char].
  intros [Hc Hs]%orb_false_iff. cbn [lex]. unfold lex_step. rewrite Hc, IH by done. done.
Qed.

(** Doubling the delimiter quotes every text. *)
Lemma scan_doubled q (s rest : string) :
  not_starting_with q rest ->
  scan_quoted q false (replace_char q (String q (chr q)) s +:+ String q rest) = Some (s, rest).
Proof.
  intros Hr. induction s as [|c s IH].
  { cbn. rewrite Ascii.eqb_refl. destruct rest as [|x rest]; [done|]. cbn in Hr.
    by rewrite (proj2 (Ascii.eqb_neq _ _) Hr). }
  unfold replace_char in *. cbn [concat_map]. destruct (Ascii.eqb c q) eqn:Hc.
  - apply Ascii.eqb_eq in Hc as ->. cbn [String.append chr scan_quoted].
    rewrite !Ascii.eqb_refl. by rewrite IH.
  - cbn [String.append chr scan_quoted]. rewrite Hc. cbn [andb]. by rewrite IH.
Qed.

Lemma lex_doubled (s : string) :
  lex false LIn (replace_char squote (String squote (chr squote)) s) = (LIn, EmptyString).
Proof.
  unfold replace_char. induction s as [|c s IH]; [done|]. cbn [concat_map].
  destruct (Ascii.eqb c squote) eqn:Hc; cbv iota.
  - rewrite lex_app. change (lex false LIn (String squote (chr squote))) with (LIn, EmptyString).
    cbv iota beta. by rewrite IH.
  - rewrite lex_app.
    assert (lex false LIn (chr c) = (LIn, EmptyString)) as -> by (cbn; by rewrite Hc).
    cbv iota beta. by rewrite IH.
Qed.

(** Decides the comparisons of [c] with the characters of the goal, one by one. *)
Ltac compare_char c :=
  repeat match goal with
  | |- context [Ascii.eqb c ?x] =>
      lazymatch goal with
      | H : c <> x |- _ => rewrite (proj2 (Ascii.eqb_neq c x) H)
      | _ => destruct (Ascii.eqb_spec c x) as [->|?]; [done|]
      end
  end.

(** A literal escaped character by character reads back when each escape does. *)
Lemma scan_escaped (f : ascii -> string) bs :
  (forall c s, scan_quoted squote bs (f c +:+ s)
     = prod_map (String c) id <$> scan_quoted squote bs s) ->
  forall s rest, not_starting_with squote rest ->
  scan_quoted squote bs (concat_map f s +:+ String squote rest) = Some (s, rest).
Proof.
  intros Hf s rest Hr. induction s as [|c s IH].
  - cbn. destruct rest as [|x rest]; [done|]. cbn in Hr.
    by rewrite (proj2 (Ascii.eqb_neq _ _) Hr).
  - cbn [concat_map]. by rewrite str_app_assoc, Hf, IH.
Qed.

Lemma lex_escaped (f : ascii -> string) bs :
  (forall c, lex bs LIn (f c) = (LIn, EmptyString)) ->
  forall s, lex bs LIn (concat_map f s) = (LIn, EmptyString).
Proof.
  intros Hf s. induction s as [|c s IH]; [done|]. cbn [concat_map].
  rewrite lex_app, Hf. cbv iota beta. by rewrite IH.
Qed.

(** * [sql_safety.rs] *)

(** The reasons [validate_identifier] and [validate_id_value] give; the source formats
    each with [kind] and the name into the message of [DbError::InvalidInput]. *)
Inductive InvalidReason : Type :=
| EmptyOrTooLong
| BadFirstChar
| BadChar
| CommentSequence.

Inductive DbError : Type :=
| InvalidInput (reason : InvalidReason) (kind name : string)
| Unsupported (message : string).

Definition identifier_char (c : ascii) : bool := is_ascii_alphanumeric c || Ascii.eqb c "_".

Definition validate_identifier (name kind : string) : result unit DbError :=
  if (String.length name =? 0)%nat || (63 <? String.length name)%nat then
    Err (InvalidInput EmptyOrTooLong kind name)
  else
    match name with
    | EmptyString => Err (InvalidInput EmptyOrTooLong kind name)
    | String first chars =>
        if negb (is_ascii_alphabetic first) && negb (Ascii.eqb first "_") then
          Err (InvalidInput BadFirstChar kind name)
        else if negb (all_chars identifier_char chars) then
          Err (InvalidInput BadChar kind name)
        else Ok tt
    end.

(** [s.contains(--)] *)
Fixpoint contains_dashes (s : string) : bool :=
  match s with
  | String a s' =>
      match s' with
      | String b _ => (Ascii.eqb a "-" && Ascii.eqb b "-") || contains_dashes s'
      | EmptyString => false
      end
  | EmptyString => false
  end.

Definition id_char (c : ascii) : bool :=
  is_ascii_alphanumeric c || Ascii.eqb c "_" || Ascii.eqb c "-".

Definition validate_id_value (id : string) : result unit DbError :=
  if (String.length id =? 0)%nat || (128 <? String.length id)%nat then
    Err (InvalidInput EmptyOrTooLong "id value" id)
  else if contains_dashes id then Err (InvalidInput CommentSequence "id value" id)
  else if negb (all_chars id_char id) then Err (InvalidInput BadChar "id value" id)
  else Ok tt.

(** A first character is accepted when it is an identifier character and no digit. *)
Lemma first_char_ok (c : ascii) :
  negb (is_ascii_alphabetic c) && negb (Ascii.eqb c "_") = false <->
  identifier_char c = true /\ is_ascii_digit c = false.
Proof.
  enough (negb (is_ascii_alphabetic c) && negb (Ascii.eqb c "_") =
    negb (identifier_char c && negb (is_ascii_digit c))) as ->.
  { rewrite negb_false_iff, andb_true_iff, negb_true_iff. done. }
  by destruct c as [[] [] [] [] [] [] [] []].
Qed.

Lemma validate_identifier_ok (name kind : string) :
  validate_identifier name kind = Ok tt <->
  (1 <= String.length name <= 63)%nat /\ all_chars identifier_char name = true /\
  (forall c rest, name = String c rest -> is_ascii_digit c = false).
Proof.
  unfold validate_identifier. destruct name as [|first chars].
  { cbn. split; [done|]. intros [? _]. lia. }
  change (String.length (String first chars) =? 0)%nat with false. cbn [orb all_chars].
  destruct (Nat.ltb_spec 63 (String.length (String first chars))) as [Hl|Hl].
  { split; [done|]. intros [? _]. lia. }
  rewrite andb_true_iff.
  assert (Hd : (forall c rest, String first chars = String c rest -> is_ascii_digit c = false) <->
    is_ascii_digit first = false) by (split; [eauto|intros ? ? ? [= -> ->]; done]).
  rewrite Hd. clear Hd.
  assert (Hlen : (1 <= String.length (String first chars) <= 63)%nat) by (cbn in *; lia).
  pose proof (first_char_ok first) as Hf.
  destruct (negb (is_ascii_alphabetic first) && negb (Ascii.eqb first "_")).
  { split; [done|]. intros (_ & [Hi _] & Hn). discriminate (proj2 Hf (conj Hi Hn)). }
  destruct (proj1 Hf eq_refl) as [? ?].
  destruct (all_chars identifier_char chars); cbn; [tauto|].
  split; [done|]. intros (_ & [_ ?] & _). done.
Qed.

