(* ===== verification/Dialect.v ===== *)
(** SQL generation per database: the trait [Dialect] of
    [packages/sz-orm-core/src/dialect.rs] as a record of operations, its MySQL,
    PostgreSQL and SQLite implementations, and the lexical laws the rest of the
    development relies on as a class.  The other implementations are in
    [VendorDialects.v], [AnalyticDialects.v] and [Dialects.v]. *)

From Stdlib Require Import Ascii String.
From S2P Require Import Prelude SqlText.
Local Open Scope string_scope.
#[local] Arguments String.append !_ _ : simpl nomatch.

(** * The trait *)

(** The variants of a build with the default features, which include every [dialect-*]. *)
Inductive DbType : Type :=
| MySQL | PostgreSQL | Sqlite | Redis | MongoDB | ClickHouse | Oracle | OceanBase | SqlServer
| VectorDb | PureJsDb | Dameng | Kingbase | Db2 | MariaDB | TiDB | PolarDB | GaussDB | GBase
| Sybase | DuckDB | CockroachDB | YugabyteDB | Snowflake | Redshift | Informix | SapHana
| Firebird.

Inductive LockType : Type := ForUpdate | SharedLock.

Record ColumnDef : Type := mkColumn {
  col_name : string;
  sql_type : string;
  nullable : bool;
  col_default : option string;
  auto_increment : bool;
  primary_key : bool;
}.

Inductive TableChange : Type :=
| AddColumn (col : ColumnDef)
| DropColumn (name : string)
| ModifyColumn (col : ColumnDef)
| AddIndex (name : string) (cols : list string)
| DropIndex (name : string)
| AddForeignKey (columns : list string) (reference_table : string)
    (reference_columns : list string).

#[export] Instance DbType_eq_dec : EqDecision DbType.
Proof. solve_decision. Defined.

(** [&dyn Dialect]; [u64] and [usize] arguments are [Z].  [json_extract] is [None] where
    the source panics. *)
Record Dialect : Type := mkDialect {
  db_type : DbType;
  quote : string -> string;
  quote_into : string -> string -> string;
  escape_string : string -> string;
  supports_returning : bool;
  build_pagination : string -> Z -> Z -> string;
  json_type : string;
  json_extract : string -> string -> option string;
  full_text_search : list string -> string -> string;
  bool_to_int : string -> string;
  concat_expr : list string -> string;
  supports_if_exists : bool;
  supports_if_not_exists : bool;
  auto_increment_keyword : string;
  last_insert_id_sql : option string;
  build_create_table : string -> list ColumnDef -> string;
  build_alter_table : string -> list TableChange -> string;
  build_drop_table : string -> bool -> string;
  build_upsert_on_conflict : list string -> list string -> list string -> option string;
  build_lock_clause : LockType -> option string;
  supports_lock_for_update : bool;
  supports_lock_shared : bool;
  build_insert_or_ignore_prefix : string -> string;
  build_insert_or_ignore_suffix : string;
  supports_insert_or_ignore : bool;
  build_pagination_clause : option Z -> option Z -> option string;
  requires_order_by_for_pagination : bool;
}.

(** The provided method no implementation overrides. *)
Definition quote_checked (d : Dialect) (identifier : string) : result string DbError :=
  result_bind (validate_identifier identifier "identifier") (fun _ => Ok (quote d identifier)).

(** The provided bodies an implementation may keep. *)
Definition default_quote_into (quote : string -> string) (identifier buf : string) : string :=
  buf +:+ quote identifier.

Definition default_build_drop_table (quote : string -> string) (supports_if_exists : bool)
    (table : string) (if_exists : bool) : string :=
  if if_exists && supports_if_exists then "DROP TABLE IF EXISTS " +:+ quote table
  else "DROP TABLE " +:+ quote table.

Definition default_insert_or_ignore_prefix (quote : string -> string) (table : string) : string :=
  "INSERT INTO " +:+ quote table.

Definition default_pagination_clause (limit offset : option Z) : option string :=
  if negb (is_some limit) && negb (is_some offset) then None
  else
    let clause := match limit with Some l => " LIMIT " +:+ pretty l | None => "" end in
    Some (clause +:+ match offset with Some o => " OFFSET " +:+ pretty o | None => "" end).

(** * Shared by the implementations *)

(** [u64::MAX], and saturating arithmetic on [u64] *)
Definition u64_max : Z := 2 ^ 64 - 1.
Definition saturating_sub (a b : Z) : Z := Z.max 0 (a - b).
Definition saturating_mul (a b : Z) : Z := Z.min u64_max (a * b).

(** The pushes shared by the column definitions. *)
Definition push_not_null (col : ColumnDef) : string := if nullable col then "" else " NOT NULL".

Definition push_default (col : ColumnDef) : string :=
  match col_default col with Some d => " DEFAULT " +:+ d | None => "" end.

(** An identifier between delimiters, the closing one doubled inside. *)
Definition delimited (op cl : ascii) (identifier : string) : string :=
  chr op +:+ replace_char cl (String cl (chr cl)) identifier +:+ chr cl.

(** A single quote is doubled, everything else copied. *)
Definition double_squotes : string -> string :=
  replace_char squote (String squote (chr squote)).

(** [OFFSET .. ROWS FETCH NEXT .. ROWS ONLY] *)
Definition fetch_next (sql : string) (page limit : Z) : string :=
  let offset := saturating_mul (saturating_sub page 1) limit in
  sql +:+ " OFFSET " +:+ pretty offset +:+ " ROWS FETCH NEXT " +:+ pretty limit +:+ " ROWS ONLY".

Definition fetch_next_clause (limit offset : option Z) : option string :=
  if negb (is_some limit) && negb (is_some offset) then None
  else
    Some (" OFFSET " +:+ pretty (default 0%Z offset) +:+ " ROWS"
      +:+ match limit with Some l => " FETCH NEXT " +:+ pretty l +:+ " ROWS ONLY" | None => "" end).

(** [matches!(s, p1 | p2 | ..)] for texts *)
Definition one_of (ps : list string) (s : string) : bool := existsb (String.eqb s) ps.

(** [(CASE WHEN expr THEN 1 ELSE 0 END)] *)
Definition case_when (expr : string) : string := "(CASE WHEN " +:+ expr +:+ " THEN 1 ELSE 0 END)".

(** The [AddForeignKey] arm. *)
Definition add_foreign_key (quote : string -> string) (table : string) (columns : list string)
    (reference_table : string) (reference_columns : list string) : string :=
  "ALTER TABLE " +:+ quote table +:+ " ADD CONSTRAINT fk_" +:+ table +:+ "_"
  +:+ join "_" columns +:+ " FOREIGN KEY (" +:+ join ", " (quote <$> columns)
  +:+ ") REFERENCES " +:+ quote reference_table +:+ " ("
  +:+ join ", " (quote <$> reference_columns) +:+ ")".

(** * MySQL *)

Definition mysql_quote (identifier : string) : string :=
  chr backtick +:+ replace_char backtick (String backtick (chr backtick)) identifier
  +:+ chr backtick.

Definition mysql_quote_into (identifier buf : string) : string :=
  if contains_char backtick identifier then buf +:+ mysql_quote identifier
  else ((buf +:+ chr backtick) +:+ identifier) +:+ chr backtick.

Definition mysql_escape_char (c : ascii) : string :=
  if Ascii.eqb c backslash then "\\"
  else if Ascii.eqb c squote then "\'"
  else if Ascii.eqb c "000" then "\0"
  else if Ascii.eqb c "010" then "\n"
  else if Ascii.eqb c "013" then "\r"
  else if Ascii.eqb c "009" then "\t"
  else if Ascii.eqb c "026" then "\Z"
  else chr c.

Definition mysql_escape_string (s : string) : string := concat_map mysql_escape_char s.

Definition mysql_build_pagination (sql : string) (page limit : Z) : string :=
  let offset := saturating_mul (saturating_sub page 1) limit in
  sql +:+ " LIMIT " +:+ pretty limit +:+ " OFFSET " +:+ pretty offset.

Definition normalize_path (path : string) : string :=
  if starts_with "$" path then path else "$." +:+ path.

Definition mysql_json_extract (column path : string) : string :=
  "JSON_EXTRACT(" +:+ column +:+ ", '" +:+ mysql_escape_string (normalize_path path) +:+ "')".

Definition mysql_full_text_search (columns : list string) (keyword : string) : string :=
  "MATCH(" +:+ join ", " columns +:+ ") AGAINST('" +:+ mysql_escape_string keyword
  +:+ "' IN NATURAL LANGUAGE MODE)".

Definition mysql_concat (parts : list string) : string :=
  match parts with
  | [] => "NULL"
  | _ => "CONCAT(" +:+ join ", " ((fun p => "CAST(" +:+ p +:+ " AS CHAR)") <$> parts) +:+ ")"
  end.

Definition mysql_column (col : ColumnDef) : string :=
  mysql_quote (col_name col) +:+ " " +:+ sql_type col +:+ push_not_null col +:+ push_default col
  +:+ (if auto_increment col then " AUTO_INCREMENT" else "")
  +:+ (if primary_key col then " PRIMARY KEY" else "").

Definition mysql_build_create_table (table : string) (columns : list ColumnDef) : string :=
  "CREATE TABLE " +:+ mysql_quote table +:+ " (" +:+ join ", " (mysql_column <$> columns) +:+ ")".

Definition mysql_change (table : string) (change : TableChange) : string :=
  match change with
  | AddColumn col =>
      "ALTER TABLE " +:+ mysql_quote table +:+ " ADD " +:+ mysql_quote (col_name col)
      +:+ " " +:+ sql_type col +:+ push_not_null col +:+ push_default col
  | DropColumn name =>
      "ALTER TABLE " +:+ mysql_quote table +:+ " DROP COLUMN " +:+ mysql_quote name
  | ModifyColumn col =>
      "ALTER TABLE " +:+ mysql_quote table +:+ " MODIFY COLUMN " +:+ mysql_quote (col_name col)
      +:+ " " +:+ sql_type col +:+ push_not_null col +:+ push_default col
  | AddIndex name cols =>
      "ALTER TABLE " +:+ mysql_quote table +:+ " ADD INDEX " +:+ name +:+ " (" +:+ join ", " cols
      +:+ ")"
  | DropIndex name => "ALTER TABLE " +:+ mysql_quote table +:+ " DROP INDEX " +:+ name
  | AddForeignKey columns reference_table reference_columns =>
      add_foreign_key mysql_quote table columns reference_table reference_columns
  end.

Definition mysql_build_alter_table (table : string) (changes : list TableChange) : string :=
  join "; " (mysql_change table <$> changes).

Definition mysql_build_upsert (_conflict_columns update_columns all_columns : list string) :
    option string :=
  let cols_to_update :=
    match update_columns with
    | [] => mysql_quote <$> all_columns
    | _ => mysql_quote <$> update_columns
    end in
  match cols_to_update with
  | [] => None
  | _ =>
      let set_clauses := (fun col => col +:+ "=VALUES(" +:+ col +:+ ")") <$> cols_to_update in
      Some ("ON DUPLICATE KEY UPDATE " +:+ join ", " set_clauses)
  end.

Definition mysql_lock_clause (lock_type : LockType) : option string :=
  match lock_type with
  | ForUpdate => Some "FOR UPDATE"
  | SharedLock => Some "LOCK IN SHARE MODE"
  end.

Definition mysql_pagination_clause (limit offset : option Z) : option string :=
  match limit, offset with
  | None, None => None
  | Some l, None => Some (" LIMIT " +:+ pretty l)
  | Some l, Some o => Some (" LIMIT " +:+ pretty l +:+ " OFFSET " +:+ pretty o)
  | None, Some o => Some (" LIMIT 18446744073709551615 OFFSET " +:+ pretty o)
  end.

Definition MySqlDialect : Dialect := {|
  db_type := MySQL;
  quote := mysql_quote;
  quote_into := mysql_quote_into;
  escape_string := mysql_escape_string;
  supports_returning := false;
  build_pagination := mysql_build_pagination;
  json_type := "JSON";
  json_extract column path := Some (mysql_json_extract column path);
  full_text_search := mysql_full_text_search;
  bool_to_int expr := "IF(" +:+ expr +:+ ", 1, 0)";
  concat_expr := mysql_concat;
  supports_if_exists := true;
  supports_if_not_exists := true;
  auto_increment_keyword := "AUTO_INCREMENT";
  last_insert_id_sql := Some "LAST_INSERT_ID()";
  build_create_table := mysql_build_create_table;
  build_alter_table := mysql_build_alter_table;
  build_drop_table := default_build_drop_table mysql_quote true;
  build_upsert_on_conflict := mysql_build_upsert;
  build_lock_clause := mysql_lock_clause;
  supports_lock_for_update := true;
  supports_lock_shared := true;
  build_insert_or_ignore_prefix table := "INSERT IGNORE INTO " +:+ mysql_quote table;
  build_insert_or_ignore_suffix := "";
  supports_insert_or_ignore := true;
  build_pagination_clause := mysql_pagination_clause;
  requires_order_by_for_pagination := false;
|}.

(** * PostgreSQL *)

Definition pg_quote (identifier : string) : string :=
  chr dquote +:+ replace_char dquote (String dquote (chr dquote)) identifier +:+ chr dquote.

Definition pg_quote_into (identifier buf : string) : string :=
  if contains_char dquote identifier then buf +:+ pg_quote identifier
  else ((buf +:+ chr dquote) +:+ identifier) +:+ chr dquote.

Definition pg_escape_string (s : string) : string :=
  concat_map (fun c => if Ascii.eqb c squote then "''" else chr c) s.

Definition pg_build_pagination (sql : string) (page limit : Z) : string :=
  let offset := saturating_mul (saturating_sub page 1) limit in
  sql +:+ " LIMIT " +:+ pretty limit +:+ " OFFSET " +:+ pretty offset.

Definition pg_path_special (c : ascii) : bool :=
  Ascii.eqb c "," || Ascii.eqb c "{" || Ascii.eqb c "}" || Ascii.eqb c dquote
  || Ascii.eqb c backslash.

Definition pg_path_part (p : string) : string :=
  if any_char pg_path_special p then
    let escaped :=
      replace_char dquote (String backslash (chr dquote))
        (replace_char backslash (String backslash (chr backslash)) p) in
    chr dquote +:+ escaped +:+ chr dquote
  else p.

Definition pg_json_extract (column path : string) : string :=
  let normalized := trim_start_pair "$" "." path in
  let parts := filter (fun s => s <> "") (split_char "." normalized) in
  let path_lit := join "," (pg_path_part <$> parts) in
  let path_lit_escaped := replace_char squote "''" path_lit in
  column +:+ "#>>'{" +:+ path_lit_escaped +:+ "}'".

Definition pg_full_text_search (columns : list string) (keyword : string) : string :=
  let cols := join " || ' ' || " ((fun c => c +:+ "::text") <$> columns) in
  "to_tsvector(" +:+ cols +:+ ") @@ to_tsquery('" +:+ pg_escape_string keyword +:+ "')".

Definition pg_concat (parts : list string) : string :=
  match parts with
  | [] => "NULL"
  | _ => "CONCAT(" +:+ join ", " parts +:+ ")"
  end.

Definition pg_column (col : ColumnDef) : string :=
  pg_quote (col_name col) +:+ " " +:+ sql_type col +:+ push_not_null col +:+ push_default col
  +:+ (if primary_key col then " PRIMARY KEY" else "").

Definition pg_build_create_table (table : string) (columns : list ColumnDef) : string :=
  "CREATE TABLE " +:+ pg_quote table +:+ " (" +:+ join ", " (pg_column <$> columns) +:+ ")".

Definition pg_change (table : string) (change : TableChange) : string :=
  match change with
  | AddColumn col =>
      "ALTER TABLE " +:+ pg_quote table +:+ " ADD COLUMN " +:+ pg_quote (col_name col)
      +:+ " " +:+ sql_type col +:+ push_not_null col +:+ push_default col
  | DropColumn name => "ALTER TABLE " +:+ pg_quote table +:+ " DROP COLUMN " +:+ pg_quote name
  | ModifyColumn col =>
      "ALTER TABLE " +:+ pg_quote table +:+ " ALTER COLUMN " +:+ pg_quote (col_name col)
      +:+ " TYPE " +:+ sql_type col
      +:+ (if nullable col then ""
           else ", ALTER COLUMN " +:+ pg_quote (col_name col) +:+ " SET NOT NULL")
      +:+ match col_default col with
          | Some d => ", ALTER COLUMN " +:+ pg_quote (col_name col) +:+ " SET DEFAULT " +:+ d
          | None => ""
          end
  | AddIndex name cols =>
      "CREATE INDEX " +:+ name +:+ " ON " +:+ pg_quote table +:+ " (" +:+ join ", " cols +:+ ")"
  | DropIndex name => "DROP INDEX " +:+ name
  | AddForeignKey columns reference_table reference_columns =>
      add_foreign_key pg_quote table columns reference_table reference_columns
  end.

Definition pg_build_alter_table (table : string) (changes : list TableChange) : string :=
  join "; " (pg_change table <$> changes).

Definition pg_build_upsert (conflict_columns update_columns all_columns : list string) :
    option string :=
  match conflict_columns with
  | [] => None
  | _ =>
      let conflict_cols := pg_quote <$> conflict_columns in
      let cols_to_update :=
        match update_columns with
        | [] => pg_quote <$> filter (fun c => c ∉ conflict_columns) all_columns
        | _ => pg_quote <$> update_columns
        end in
      match cols_to_update with
      | [] => Some ("ON CONFLICT (" +:+ join ", " conflict_cols +:+ ") DO NOTHING")
      | _ =>
          let set_clauses := (fun col => col +:+ "=EXCLUDED." +:+ col) <$> cols_to_update in
          Some ("ON CONFLICT (" +:+ join ", " conflict_cols +:+ ") DO UPDATE SET "
                +:+ join ", " set_clauses)
      end
  end.

Definition pg_lock_clause (lock_type : LockType) : option string :=
  match lock_type with ForUpdate => Some "FOR UPDATE" | SharedLock => Some "FOR SHARE" end.

Definition PostgreSqlDialect : Dialect := {|
  db_type := PostgreSQL;
  quote := pg_quote;
  quote_into := pg_quote_into;
  escape_string := pg_escape_string;
  supports_returning := true;
  build_pagination := pg_build_pagination;
  json_type := "JSONB";
  json_extract column path := Some (pg_json_extract column path);
  full_text_search := pg_full_text_search;
  bool_to_int expr := "(CASE WHEN " +:+ expr +:+ " THEN 1 ELSE 0 END)";
  concat_expr := pg_concat;
  supports_if_exists := true;
  supports_if_not_exists := true;
  auto_increment_keyword := "GENERATED BY DEFAULT AS IDENTITY";
  last_insert_id_sql := Some "lastval()";
  build_create_table := pg_build_create_table;
  build_alter_table := pg_build_alter_table;
  build_drop_table := default_build_drop_table pg_quote true;
  build_upsert_on_conflict := pg_build_upsert;
  build_lock_clause := pg_lock_clause;
  supports_lock_for_update := true;
  supports_lock_shared := true;
  build_insert_or_ignore_prefix := default_insert_or_ignore_prefix pg_quote;
  build_insert_or_ignore_suffix := " ON CONFLICT DO NOTHING";
  supports_insert_or_ignore := true;
  build_pagination_clause := default_pagination_clause;
  requires_order_by_for_pagination := false;
|}.

(** * SQLite *)

Definition sqlite_quote (identifier : string) : string :=
  chr dquote +:+ replace_char dquote (String dquote (chr dquote)) identifier +:+ chr dquote.

Definition sqlite_quote_into (identifier buf : string) : string :=
  if contains_char dquote identifier then buf +:+ sqlite_quote identifier
  else ((buf +:+ chr dquote) +:+ identifier) +:+ chr dquote.

Definition sqlite_escape_string (s : string) : string :=
  concat_map (fun c => if Ascii.eqb c squote then "''" else chr c) s.

Definition sqlite_build_pagination (sql : string) (page limit : Z) : string :=
  let offset := saturating_mul (saturating_sub page 1) limit in
  sql +:+ " LIMIT " +:+ pretty limit +:+ " OFFSET " +:+ pretty offset.

Definition sqlite_json_extract (column path : string) : string :=
  "json_extract(" +:+ column +:+ ", '" +:+ sqlite_escape_string (normalize_path path) +:+ "')".

Definition sqlite_full_text_search (columns : list string) (keyword : string) : string :=
  match columns with
  | [] => "0"
  | _ =>
      let escaped := sqlite_escape_string keyword in
      join " OR " ((fun c => trim c +:+ " LIKE '%" +:+ escaped +:+ "%'") <$> columns)
  end.

Definition sqlite_concat (parts : list string) : string :=
  match parts with
  | [] => "NULL"
  | _ => join " || " ((fun p => "COALESCE(" +:+ p +:+ ", '')") <$> parts)
  end.

Definition sqlite_column (col : ColumnDef) : string :=
  sqlite_quote (col_name col) +:+ " " +:+ sql_type col +:+ push_not_null col +:+ push_default col
  +:+ (if auto_increment col then " PRIMARY KEY AUTOINCREMENT"
       else if primary_key col then " PRIMARY KEY" else "").

Definition sqlite_build_create_table (table : string) (columns : list ColumnDef) : string :=
  "CREATE TABLE " +:+ sqlite_quote table +:+ " (" +:+ join ", " (sqlite_column <$> columns) +:+ ")".

Definition sqlite_change (table : string) (change : TableChange) : string :=
  match change with
  | AddColumn col =>
      "ALTER TABLE " +:+ sqlite_quote table +:+ " ADD COLUMN " +:+ sqlite_quote (col_name col)
      +:+ " " +:+ sql_type col +:+ push_not_null col +:+ push_default col
  | DropColumn name =>
      "ALTER TABLE " +:+ sqlite_quote table +:+ " DROP COLUMN " +:+ sqlite_quote name
  | ModifyColumn col =>
      "-- SQLite 不支持 MODIFY COLUMN（" +:+ col_name col +:+ " " +:+ sql_type col
      +:+ "），需重建表"
  | AddIndex name cols =>
      "CREATE INDEX " +:+ name +:+ " ON " +:+ sqlite_quote table +:+ " (" +:+ join ", " cols +:+ ")"
  | DropIndex name => "DROP INDEX " +:+ name
  | AddForeignKey columns reference_table _ =>
      "-- SQLite 不支持 ADD FOREIGN KEY（" +:+ join "," columns +:+ " -> " +:+ reference_table
      +:+ "），需重建表"
  end.

Definition sqlite_build_alter_table (table : string) (changes : list TableChange) : string :=
  join "; " (sqlite_change table <$> changes).

Definition sqlite_build_upsert (conflict_columns update_columns all_columns : list string) :
    option string :=
  match conflict_columns with
  | [] => None
  | _ =>
      let conflict_cols := sqlite_quote <$> conflict_columns in
      let cols_to_update :=
        match update_columns with
        | [] => sqlite_quote <$> filter (fun c => c ∉ conflict_columns) all_columns
        | _ => sqlite_quote <$> update_columns
        end in
      match cols_to_update with
      | [] => Some ("ON CONFLICT (" +:+ join ", " conflict_cols +:+ ") DO NOTHING")
      | _ =>
          let set_clauses := (fun col => col +:+ "=EXCLUDED." +:+ col) <$> cols_to_update in
          Some ("ON CONFLICT (" +:+ join ", " conflict_cols +:+ ") DO UPDATE SET "
                +:+ join ", " set_clauses)
      end
  end.

Definition sqlite_pagination_clause (limit offset : option Z) : option string :=
  match limit, offset with
  | None, None => None
  | Some l, None => Some (" LIMIT " +:+ pretty l)
  | Some l, Some o => Some (" LIMIT " +:+ pretty l +:+ " OFFSET " +:+ pretty o)
  | None, Some o => Some (" LIMIT -1 OFFSET " +:+ pretty o)
  end.

Definition SqliteDialect : Dialect := {|
  db_type := Sqlite;
  quote := sqlite_quote;
  quote_into := sqlite_quote_into;
  escape_string := sqlite_escape_string;
  supports_returning := true;
  build_pagination := sqlite_build_pagination;
  json_type := "TEXT";
  json_extract column path := Some (sqlite_json_extract column path);
  full_text_search := sqlite_full_text_search;
  bool_to_int expr := expr;
  concat_expr := sqlite_concat;
  supports_if_exists := true;
  supports_if_not_exists := true;
  auto_increment_keyword := "AUTOINCREMENT";
  last_insert_id_sql := Some "last_insert_rowid()";
  build_create_table := sqlite_build_create_table;
  build_alter_table := sqlite_build_alter_table;
  build_drop_table := default_build_drop_table sqlite_quote true;
  build_upsert_on_conflict := sqlite_build_upsert;
  build_lock_clause _ := None;
  supports_lock_for_update := false;
  supports_lock_shared := false;
  build_insert_or_ignore_prefix table := "INSERT OR IGNORE INTO " +:+ sqlite_quote table;
  build_insert_or_ignore_suffix := "";
  supports_insert_or_ignore := true;
  build_pagination_clause := sqlite_pagination_clause;
  requires_order_by_for_pagination := false;
|}.

(** * The laws of a dialect

    What a client relies on: how the dialect's identifiers and literals are lexed, and
    that the quoting operations produce them. *)
Class DialectLaws (d : Dialect) : Type := {
  ident_open : ascii;
  ident_close : ascii;
  backslash_escapes : bool;
  ident_close_plain : identifier_char ident_close = false;
  quote_into_quote : forall identifier buf, quote_into d identifier buf = buf +:+ quote d identifier;
  quote_scan : forall identifier rest, not_starting_with ident_close rest ->
    scan_token ident_open ident_close false (quote d identifier +:+ rest)
    = Some (identifier, rest);
  quote_plain : forall identifier, contains_char ident_close identifier = false ->
    quote d identifier = chr ident_open +:+ identifier +:+ chr ident_close;
  escape_scan : forall s rest, not_starting_with squote rest ->
    scan_quoted squote backslash_escapes (escape_string d s +:+ String squote rest) = Some (s, rest);
  escape_lex : forall s, lex backslash_escapes LIn (escape_string d s) = (LIn, EmptyString);
}.
Arguments ident_open d {_}.
Arguments ident_close d {_}.
Arguments backslash_escapes d {_}.

(** Quoting by doubling the delimiter, written directly when there is none. *)
Lemma doubled_quote_into q identifier buf :
  (if contains_char q identifier
   then buf +:+ (chr q +:+ replace_char q (String q (chr q)) identifier +:+ chr q)
   else ((buf +:+ chr q) +:+ identifier) +:+ chr q)
  = buf +:+ (chr q +:+ replace_char q (String q (chr q)) identifier +:+ chr q).
Proof.
  destruct (contains_char q identifier) eqn:Hq; [done|].
  by rewrite replace_char_absent, !str_app_assoc by done.
Qed.

Lemma doubled_quote_scan op q identifier rest :
  not_starting_with q rest ->
  scan_token op q false
    ((chr op +:+ replace_char q (String q (chr q)) identifier +:+ chr q) +:+ rest)
  = Some (identifier, rest).
Proof.
  intros Hr. rewrite !str_app_assoc. cbn. rewrite Ascii.eqb_refl. by apply scan_doubled.
Qed.

Lemma mysql_escape_char_scan c s :
  scan_quoted squote true (mysql_escape_char c +:+ s)
  = prod_map (String c) id <$> scan_quoted squote true s.
Proof. unfold mysql_escape_char. compare_char c. cbn. compare_char c. done. Qed.

Lemma mysql_escape_char_lex c : lex true LIn (mysql_escape_char c) = (LIn, EmptyString).
Proof. unfold mysql_escape_char. compare_char c. cbn. compare_char c. done. Qed.

(** The laws of a dialect that quotes by doubling, from those of its literals. *)
Definition delimited_laws (d : Dialect) (op cl : ascii) (bs : bool)
    (Hplain : identifier_char cl = false)
    (Hquote : forall identifier, quote d identifier = delimited op cl identifier)
    (Hinto : forall identifier buf, quote_into d identifier buf = buf +:+ quote d identifier)
    (Hscan : forall s rest, not_starting_with squote rest ->
       scan_quoted squote bs (escape_string d s +:+ String squote rest) = Some (s, rest))
    (Hlex : forall s, lex bs LIn (escape_string d s) = (LIn, EmptyString)) : DialectLaws d.
Proof.
  refine {| ident_open := op; ident_close := cl; backslash_escapes := bs |}; try done.
  - intros identifier rest Hr. rewrite Hquote. by apply doubled_quote_scan.
  - intros identifier Hq. rewrite Hquote. unfold delimited. by rewrite replace_char_absent.
Defined.

#[export] Instance MySqlDialect_laws : DialectLaws MySqlDialect.
Proof.
  refine (delimited_laws _ backtick backtick true eq_refl _ _ _ _); [done| | |].
  - intros identifier buf. exact (doubled_quote_into _ identifier buf).
  - apply scan_escaped, mysql_escape_char_scan.
  - apply lex_escaped, mysql_escape_char_lex.
Defined.

#[export] Instance PostgreSqlDialect_laws : DialectLaws PostgreSqlDialect.
Proof.
  refine (delimited_laws _ dquote dquote false eq_refl _ _ _ _); [done| | |].
  - intros identifier buf. exact (doubled_quote_into _ identifier buf).
  - intros s rest Hr. exact (scan_doubled _ s rest Hr).
  - apply lex_doubled.
Defined.

#[export] Instance SqliteDialect_laws : DialectLaws SqliteDialect.
Proof.
  refine (delimited_laws _ dquote dquote false eq_refl _ _ _ _); [done| | |].
  - intros identifier buf. exact (doubled_quote_into _ identifier buf).
  - intros s rest Hr. exact (scan_doubled _ s rest Hr).
  - apply lex_doubled.
Defined.

(** * Reading generated text back *)

Definition strip_prefix (p s : string) : option string :=
  if String.prefix p s
  then Some (String.substring (String.length p) (String.length s - String.length p)%nat s)
  else None.

Definition scan_ident (q : ascii) (s : string) : option (string * string) :=
  scan_token q q false s.

(** Items separated by commas; [fuel] bounds their number. *)
Fixpoint scan_list {A} (item : string -> option (A * string)) (fuel : nat) (s : string) :
    option (list A * string) :=
  match fuel with
  | O => None
  | S fuel =>
      '(a, s1) ← item s;
      match strip_prefix ", " s1 with
      | Some s2 => '(l, s3) ← scan_list item fuel s2; Some (a :: l, s3)
      | None => Some ([a], s1)
      end
  end.

(** [<column><mid><column><tail>] *)
Definition scan_assignment (q : ascii) (mid tail s : string) : option ((string * string) * string) :=
  '(c, s1) ← scan_ident q s;
  s2 ← strip_prefix mid s1;
  '(c2, s3) ← scan_ident q s2;
  s4 ← strip_prefix tail s3;
  Some ((c, c2), s4).

(** The conflict columns and the assignments of an upsert clause. *)
Definition scan_on_conflict (s : string) : option (list string * list (string * string)) :=
  s1 ← strip_prefix "ON CONFLICT (" s;
  '(cols, s2) ← scan_list (scan_ident dquote) (String.length s1) s1;
  if decide (s2 = ") DO NOTHING") then Some (cols, [])
  else
    s3 ← strip_prefix ") DO UPDATE SET " s2;
    '(l, s4) ← scan_list (scan_assignment dquote "=EXCLUDED." "") (String.length s3) s3;
    if decide (s4 = "") then Some (cols, l) else None.

Definition scan_on_duplicate (s : string) : option (list (string * string)) :=
  s1 ← strip_prefix "ON DUPLICATE KEY UPDATE " s;
  '(l, s2) ← scan_list (scan_assignment backtick "=VALUES(" ")") (String.length s1) s1;
  if decide (s2 = "") then Some l else None.

Lemma prefix_app (p s : string) : String.prefix p (p +:+ s) = true.
Proof.
  induction p as [|c p IH]; [by destruct s|]. cbn. destruct (ascii_dec c c); [done|congruence].
Qed.

Lemma substring_all (s : string) : String.substring 0 (String.length s) s = s.
Proof. induction s as [|c s IH]; [done|]. cbn. by rewrite IH. Qed.

Lemma strip_prefix_app (p s : string) : strip_prefix p (p +:+ s) = Some s.
Proof.
  unfold strip_prefix. rewrite prefix_app, str_app_length, Nat.add_comm, Nat.add_sub. f_equal.
  induction p as [|c p IH]; [apply substring_all|]. by cbn.
Qed.

Lemma scan_list_join {A} (item : string -> option (A * string)) (print : A -> string)
    (ok : string -> Prop) (l : list A) fuel rest :
  (forall a r, ok r -> item (print a +:+ r) = Some (a, r)) ->
  (forall r, ok (", " +:+ r)) -> ok rest -> strip_prefix ", " rest = None ->
  l <> [] -> length l <= fuel ->
  scan_list item fuel (join ", " (print <$> l) +:+ rest) = Some (l, rest).
Proof.
  intros Hitem Hsep Hrest Hend Hl. revert fuel. induction l as [|a l IH]; [done|].
  intros [|fuel] Hf; [cbn in Hf; lia|]. cbn [scan_list]. destruct l as [|b l].
  - change (join ", " (print <$> [a])) with (print a). rewrite Hitem by done. cbn. by rewrite Hend.
  - change (join ", " (print <$> a :: b :: l)) with
      (print a +:+ ", " +:+ join ", " (print <$> b :: l)).
    rewrite !str_app_assoc, Hitem by apply Hsep. cbn [mbind option_bind].
    rewrite strip_prefix_app, IH; [done|done|cbn in *; lia].
Qed.

Lemma join_length (sep : string) (l : list string) :
  (forall x, x ∈ l -> 1 <= String.length x)%nat -> length l <= String.length (join sep l).
Proof.
  induction l as [|x l IH]; intros Hl; [cbn; lia|].
  assert (1 <= String.length x)%nat by (apply Hl; left). destruct l as [|y l]; [cbn in *; lia|].
  change (join sep (x :: y :: l)) with (x +:+ sep +:+ join sep (y :: l)).
  rewrite !str_app_length. cbn [length] in *.
  assert (S (length l) <= String.length (join sep (y :: l))) by (apply IH; intros; apply Hl; by right).
  lia.
Qed.

(** An assignment as the generators write it. *)
Definition print_assignment (q : string -> string) (mid tail : string) (c : string) : string :=
  q c +:+ mid +:+ q c +:+ tail.

Section ReadBack.
Context (d : Dialect) `{L : DialectLaws d} (mid tail : string).
Local Abbreviation delim := (ident_close d).

Hypothesis same_delim : ident_open d = delim.
Hypothesis mid_ok : forall r, not_starting_with delim (mid +:+ r).

Lemma scan_assignment_print c rest :
  not_starting_with delim (tail +:+ rest) ->
  scan_assignment delim mid tail (print_assignment (quote d) mid tail c +:+ rest)
  = Some ((c, c), rest).
Proof using same_delim mid_ok.
  intros Hr. unfold scan_assignment, print_assignment, scan_ident. rewrite !str_app_assoc.
  rewrite <- same_delim at 1. rewrite quote_scan by apply mid_ok. cbn [mbind option_bind].
  rewrite strip_prefix_app. cbn [mbind option_bind]. rewrite <- same_delim at 1.
  rewrite quote_scan by done.
  cbn [mbind option_bind]. by rewrite strip_prefix_app.
Qed.

(** A list of assignments reads back as its columns. *)
Lemma scan_assignments_print (cols : list string) :
  cols <> [] -> not_starting_with delim tail -> (tail = "" -> delim <> ","%char) ->
  (1 <= String.length mid)%nat ->
  scan_list (scan_assignment delim mid tail)
    (String.length (join ", " (print_assignment (quote d) mid tail <$> cols)))
    (join ", " (print_assignment (quote d) mid tail <$> cols))
  = Some ((fun c => (c, c)) <$> cols, "").
Proof using same_delim mid_ok.
  intros Hc Ht Hcomma Hm.
  set (print := fun p : string * string => print_assignment (quote d) mid tail (fst p)).
  assert (Hp : forall l : list string, print_assignment (quote d) mid tail <$> l =
    print <$> ((fun c => (c, c)) <$> l)) by (intros l; by rewrite <- list_fmap_compose).
  pose proof (join_length ", " (print_assignment (quote d) mid tail <$> cols)) as Hlen.
  rewrite length_fmap in Hlen. revert Hlen. generalize (String.length
    (join ", " (print_assignment (quote d) mid tail <$> cols))) as n. intros n Hlen.
  rewrite <- (str_app_nil_r (join _ _)), Hp.
  assert (Hgen : forall l : list (string * string), Forall (fun p => fst p = snd p) l ->
    l <> [] -> length l <= n -> scan_list (scan_assignment delim mid tail) n
      (join ", " (print <$> l) +:+ "") = Some (l, "")).
  { clear -same_delim mid_ok Ht Hcomma L. intros l Hl. revert n. induction Hl as [|[c c'] l Heq Hl IH];
      [done|]. cbn in Heq. subst c'. intros [|n] _ Hn; [cbn in Hn; lia|]. cbn [scan_list].
    destruct l as [|p l].
    - change (join ", " (print <$> [(c, c)])) with (print_assignment (quote d) mid tail c).
      rewrite scan_assignment_print by (by rewrite str_app_nil_r). done.
    - change (join ", " (print <$> (c, c) :: p :: l)) with
        (print_assignment (quote d) mid tail c +:+ ", " +:+ join ", " (print <$> p :: l)).
      rewrite !str_app_assoc, scan_assignment_print.
      + cbn [mbind option_bind]. rewrite strip_prefix_app, IH; [done|done|cbn in *; lia].
      + destruct tail; [by apply not_eq_sym, Hcomma|done]. }
  apply Hgen.
  - apply Forall_fmap, Forall_true. done.
  - by destruct cols.
  - rewrite length_fmap. apply Hlen. intros x [c [-> _]]%list_elem_of_fmap.
    unfold print_assignment. rewrite !str_app_length. lia.
Qed.
End ReadBack.

(** * Properties *)

Definition upsert_columns (conflict update all : list string) : list string :=
  match update with [] => filter (fun c => c ∉ conflict) all | _ => update end.

Lemma pg_scan_idents (cols : list string) rest :
  cols <> [] -> not_starting_with dquote rest -> strip_prefix ", " rest = None ->
  scan_list (scan_ident dquote) (String.length (join ", " (pg_quote <$> cols) +:+ rest))
    (join ", " (pg_quote <$> cols) +:+ rest) = Some (cols, rest).
Proof.
  intros Hc Hr Hs. apply (scan_list_join _ _ (not_starting_with dquote)); try done.
  - intros a r Hok. by apply doubled_quote_scan.
  - rewrite str_app_length. pose proof (join_length ", " (pg_quote <$> cols)) as Hl.
    rewrite length_fmap in Hl. etransitivity; [apply Hl|lia].
    intros x [c [-> _]]%list_elem_of_fmap. unfold pg_quote. cbn. lia.
Qed.

(** The two [ON CONFLICT] generators are the same function. *)
Lemma sqlite_upsert_pg conflict update all :
  sqlite_build_upsert conflict update all = pg_build_upsert conflict update all.
Proof. reflexivity. Qed.

Lemma pg_scan_assignments (cols : list string) :
  cols <> [] ->
  let clause := join ", " (print_assignment pg_quote "=EXCLUDED." "" <$> cols) in
  scan_list (scan_assignment dquote "=EXCLUDED." "") (String.length clause) clause
  = Some ((fun c => (c, c)) <$> cols, "").
Proof.
  intros Hc. refine (scan_assignments_print PostgreSqlDialect "=EXCLUDED." "" eq_refl _ cols Hc _ _ _);
    [by intros r|exact I|done|cbn; lia].
Qed.

Lemma mysql_scan_assignments (cols : list string) :
  cols <> [] ->
  let clause := join ", " (print_assignment mysql_quote "=VALUES(" ")" <$> cols) in
  scan_list (scan_assignment backtick "=VALUES(" ")") (String.length clause) clause
  = Some ((fun c => (c, c)) <$> cols, "").
Proof.
  intros Hc. refine (scan_assignments_print MySqlDialect "=VALUES(" ")" eq_refl _ cols Hc _ _ _);
    [by intros r|done|done|cbn; lia].
Qed.

Lemma pg_upsert_reads_back conflict update all :
  conflict <> [] ->
  exists clause, pg_build_upsert conflict update all = Some clause /\
    scan_on_conflict clause
    = Some (conflict, (fun c => (c, c)) <$> upsert_columns conflict update all).
Proof.
  intros Hc. unfold pg_build_upsert, upsert_columns. destruct conflict as [|k ks]; [done|].
  remember (match update with [] => filter (fun c => c ∉ k :: ks) all | _ => update end) as cols.
  assert ((match update with
           | [] => pg_quote <$> filter (fun c => c ∉ k :: ks) all
           | _ => pg_quote <$> update end) = pg_quote <$> cols) as ->
    by (subst cols; by destruct update).
  remember (k :: ks) as conf eqn:Hconf. clear Hconf Heqcols.
  destruct cols as [|c cols].
  - eexists. split; [reflexivity|]. unfold scan_on_conflict. rewrite strip_prefix_app.
    cbn [mbind option_bind]. rewrite pg_scan_idents by done. cbn [mbind option_bind].
    by rewrite decide_True.
  - exists ("ON CONFLICT (" +:+ join ", " (pg_quote <$> conf) +:+ ") DO UPDATE SET "
      +:+ join ", " ((fun col => col +:+ "=EXCLUDED." +:+ col) <$> (pg_quote <$> c :: cols))).
    split; [reflexivity|].
    unfold scan_on_conflict. rewrite strip_prefix_app. cbn [mbind option_bind].
    rewrite pg_scan_idents by done. cbn [mbind option_bind].
    rewrite decide_False by (cbn; congruence). rewrite strip_prefix_app. cbn [mbind option_bind].
    assert ((fun col => col +:+ "=EXCLUDED." +:+ col) <$> (pg_quote <$> c :: cols) =
      print_assignment pg_quote "=EXCLUDED." "" <$> c :: cols) as ->.
    { rewrite <- list_fmap_compose. apply list_fmap_ext. intros i x _.
      unfold print_assignment, compose. by rewrite str_app_nil_r. }
    rewrite (pg_scan_assignments (c :: cols)) by done.
    cbn [mbind option_bind]. by rewrite decide_True.
Qed.

Lemma mysql_upsert_reads_back conflict update all :
  let cols := match update with [] => all | _ => update end in
  match mysql_build_upsert conflict update all with
  | None => cols = []
  | Some clause => scan_on_duplicate clause = Some ((fun c => (c, c)) <$> cols) /\ cols <> []
  end.
Proof.
  intros cols. unfold mysql_build_upsert.
  assert ((match update with [] => mysql_quote <$> all | _ => mysql_quote <$> update end)
    = mysql_quote <$> cols) as -> by (subst cols; by destruct update).
  clearbody cols. destruct cols as [|c cols]; [done|].
  change (scan_on_duplicate ("ON DUPLICATE KEY UPDATE " +:+
    join ", " ((fun col => col +:+ "=VALUES(" +:+ col +:+ ")") <$> (mysql_quote <$> c :: cols)))
    = Some ((fun c => (c, c)) <$> c :: cols) /\ c :: cols <> []).
  unfold scan_on_duplicate. rewrite strip_prefix_app. cbn [mbind option_bind].
  assert ((fun col => col +:+ "=VALUES(" +:+ col +:+ ")") <$> (mysql_quote <$> c :: cols) =
    print_assignment mysql_quote "=VALUES(" ")" <$> c :: cols) as ->.
  { rewrite <- list_fmap_compose. by apply list_fmap_ext. }
  rewrite (mysql_scan_assignments (c :: cols)) by done.
  cbn [mbind option_bind]. by rewrite decide_True.
Qed.

(** Reading an upsert clause back.  PostgreSQL and SQLite return a clause exactly when
    a conflict column is given; it names those columns and assigns to each column asked
    for, or, when none is asked for, to every inserted column that is not a conflict column,
    its excluded value ([DO NOTHING] when there is none).  MySQL ignores the conflict columns:
    with no column asked for its clause assigns every inserted column, the conflict columns
    included, where the trait promises the other columns only. *)
Theorem upsert_clause_reads_back (conflict update all : list string) :
  (forall d, d ∈ [PostgreSqlDialect; SqliteDialect] ->
     (build_upsert_on_conflict d conflict update all = None <-> conflict = []) /\
     (conflict <> [] -> exists clause, build_upsert_on_conflict d conflict update all = Some clause /\
        scan_on_conflict clause
        = Some (conflict, (fun c => (c, c)) <$> upsert_columns conflict update all))) /\
  (all <> [] -> exists clause, build_upsert_on_conflict MySqlDialect conflict [] all = Some clause /\
     scan_on_duplicate clause = Some ((fun c => (c, c)) <$> all)) /\
  (update <> [] ->
     exists clause, build_upsert_on_conflict MySqlDialect conflict update all = Some clause /\
     scan_on_duplicate clause = Some ((fun c => (c, c)) <$> update)).
Proof.
  split; [|split].
  - intros d Hd.
    assert (build_upsert_on_conflict d conflict update all = pg_build_upsert conflict update all)
      as ->.
    { rewrite !elem_of_cons, elem_of_nil in Hd. destruct Hd as [ -> | [ -> | [] ] ]; done. }
    split; [|apply pg_upsert_reads_back]. split; [|intros ->; done]. intros Hn.
    destruct conflict as [|c cs]; [done|].
    destruct (pg_upsert_reads_back (c :: cs) update all) as (cl & Hcl & _); [done|congruence].
  - intros Ha. pose proof (mysql_upsert_reads_back conflict [] all) as Hm. cbv zeta in Hm.
    change (build_upsert_on_conflict MySqlDialect) with mysql_build_upsert.
    destruct (mysql_build_upsert conflict [] all) as [cl|]; [|done]. exists cl. split; [done|apply Hm].
  - intros Hu. pose proof (mysql_upsert_reads_back conflict update all) as Hm. cbv zeta in Hm.
    change (build_upsert_on_conflict MySqlDialect) with mysql_build_upsert.
    destruct update as [|u us]; [done|].
    destruct (mysql_build_upsert conflict (u :: us) all) as [cl|]; [|by destruct Hm].
    exists cl. split; [done|apply Hm].
Qed.

Lemma upsert_clause_reads_back_witness :
  exists clause, build_upsert_on_conflict MySqlDialect ["id"] [] ["id"; "name"] = Some clause /\
    scan_on_duplicate clause = Some [("id", "id"); ("name", "name")].
Proof.
  refine (proj1 (proj2 (upsert_clause_reads_back ["id"] [] ["id"; "name"])) _). discriminate.
Defined.

(** ** Line comments *)

Definition newline : ascii := "010"%char.
Definition one_line : string -> bool := all_chars (fun c => negb (Ascii.eqb c newline)).

(** A text the database skips: one [--] comment. *)
Definition comment_only (s : string) : bool := starts_with "--" s && one_line s.

Lemma one_line_app a b : one_line (a +:+ b) = one_line a && one_line b.
Proof. apply all_chars_app. Qed.

Lemma one_line_join sep (l : list string) :
  one_line sep = true -> Forall (fun s => one_line s = true) l -> one_line (join sep l) = true.
Proof.
  intros Hsep. induction 1 as [|x l Hx Hl IH]; [done|]. destruct l as [|y l]; [done|].
  change (join sep (x :: y :: l)) with (x +:+ sep +:+ join sep (y :: l)).
  by rewrite !one_line_app, Hx, Hsep, IH.
Qed.

Lemma one_line_sqlite_quote s : one_line s = true -> one_line (sqlite_quote s) = true.
Proof.
  intros Hs. unfold sqlite_quote. rewrite !one_line_app. change (one_line (chr dquote)) with true.
  rewrite andb_true_r. cbn [andb]. unfold replace_char. revert Hs.
  induction s as [|c s IH]; [done|]. cbn [concat_map]. unfold one_line at 1. cbn [all_chars].
  intros [Hc Hs]%andb_true_iff. rewrite one_line_app, IH by done. rewrite andb_true_r.
  destruct (Ascii.eqb c dquote); [done|]. unfold one_line, chr. cbn [all_chars]. by rewrite Hc.
Qed.

Definition one_line_column (col : ColumnDef) : bool :=
  one_line (col_name col) && one_line (sql_type col) && one_line (default "" (col_default col)).

Definition one_line_change (change : TableChange) : bool :=
  match change with
  | AddColumn col | ModifyColumn col => one_line_column col
  | DropColumn name | DropIndex name => one_line name
  | AddIndex name cols => one_line name && forallb one_line cols
  | AddForeignKey columns t _ => forallb one_line columns && one_line t
  end.

Lemma one_line_sqlite_change table change :
  one_line table = true -> one_line_change change = true ->
  one_line (sqlite_change table change) = true.
Proof.
  intros Ht Hc. pose proof (one_line_sqlite_quote _ Ht) as Hqt.
  assert (Hcol : forall col, one_line_column col = true -> one_line (col_name col) = true /\
    one_line (sql_type col) = true /\ one_line (push_not_null col) = true /\
    one_line (push_default col) = true).
  { intros col [[? ?]%andb_true_iff Hd]%andb_true_iff. unfold push_not_null, push_default.
    split_and!; [done|done|by destruct (nullable col)|].
    destruct (col_default col) as [x|]; [|done]. exact Hd. }
  assert (Hj : forall sep l, one_line sep = true -> forallb one_line l = true ->
    one_line (join sep l) = true).
  { intros sep l Hsep Hl. apply one_line_join; [done|]. apply List.Forall_forall.
    intros x Hx. exact (proj1 (forallb_forall _ _) Hl x Hx). }
  destruct change as [col|name|col|name cols|name|cols t refs]; cbn [sqlite_change one_line_change] in *;
    rewrite ?andb_true_iff in Hc; rewrite !one_line_app, ?andb_true_iff;
    try (apply Hcol in Hc as (? & ? & ? & ?)); rewrite ?one_line_sqlite_quote by done;
    rewrite ?Hj by tauto; tauto.
Qed.

(** A change SQLite cannot make is written as a line comment, and the statements are
    joined on one line: when such a change comes first, the text [build_alter_table] returns
    for SQLite is one comment whatever changes follow, so none of them is executed. *)
Theorem sqlite_alter_commented_out (table : string) (change : TableChange)
    (changes : list TableChange) :
  match change with ModifyColumn _ | AddForeignKey _ _ _ => True | _ => False end ->
  one_line table = true -> forallb one_line_change (change :: changes) = true ->
  comment_only (build_alter_table SqliteDialect table (change :: changes)) = true.
Proof.
  intros Hch Ht Hall. change (build_alter_table SqliteDialect) with sqlite_build_alter_table.
  unfold comment_only. apply andb_true_iff. split.
  - unfold sqlite_build_alter_table.
    assert (exists r, sqlite_change table change = "--" +:+ r) as [r Hr].
    { destruct change; try done; cbn [sqlite_change];
        match goal with |- context [String "-" (String "-" ?x) +:+ ?y] => by exists (x +:+ y) end. }
    unfold starts_with. destruct changes as [|c changes]; rewrite ?fmap_cons, Hr.
    + change (join "; " [ "--" +:+ r ]) with ("--" +:+ r). apply prefix_app.
    + change (join "; " (("--" +:+ r) :: sqlite_change table c :: (sqlite_change table <$> changes)))
        with (("--" +:+ r) +:+ "; " +:+ join "; " (sqlite_change table <$> c :: changes)).
      rewrite str_app_assoc. apply prefix_app.
  - apply one_line_join; [done|]. apply Forall_fmap, List.Forall_forall. intros c Hc.
    apply one_line_sqlite_change; [done|]. exact (proj1 (forallb_forall _ _) Hall c Hc).
Qed.

Lemma sqlite_alter_commented_out_witness :
  comment_only (build_alter_table SqliteDialect "users"
    [ModifyColumn (mkColumn "age" "BIGINT" true None false false); DropColumn "legacy"]) = true.
Proof. apply sqlite_alter_commented_out; [exact I|reflexivity|reflexivity]. Defined.
