(* ===== verification/VendorDialects.v ===== *)
(** The dialects of commercial databases, [packages/sz-orm-core/src/dialect.rs]: Oracle,
    SQL Server, DB2, Informix, SAP HANA and Firebird. *)

From Stdlib Require Import Ascii String.
From S2P Require Import Prelude SqlText Dialect.
Local Open Scope string_scope.
#[local] Arguments String.append !_ _ : simpl nomatch.

(** * Oracle *)

Definition map_to_oracle_type (sql_type : string) : string :=
  let trimmed := trim (uppercase sql_type) in
  if starts_with "BIGINT" trimmed then replace_first "BIGINT" "NUMBER(19)" sql_type
  else if starts_with "VARCHAR2" trimmed then sql_type
  else if starts_with "VARCHAR" trimmed then replace_first "VARCHAR" "VARCHAR2" sql_type
  else if one_of ["TEXT"; "MEDIUMTEXT"; "LONGTEXT"; "TINYTEXT"] trimmed then "CLOB"
  else if one_of ["BOOLEAN"; "BOOL"] trimmed then "NUMBER(1)"
  else if String.eqb trimmed "INTEGER" then "NUMBER(10)"
  else if starts_with "INT" trimmed then replace_first "INT" "NUMBER(10)" sql_type
  else sql_type.

Definition oracle_quote (identifier : string) : string := delimited dquote dquote identifier.

Definition oracle_quote_into (identifier buf : string) : string :=
  if contains_char dquote identifier then buf +:+ oracle_quote identifier
  else ((buf +:+ chr dquote) +:+ identifier) +:+ chr dquote.

Definition oracle_escape_string (s : string) : string := double_squotes s.

Definition oracle_lock_clause (lock_type : LockType) : option string :=
  match lock_type with
  | ForUpdate => Some "FOR UPDATE"
  | SharedLock => None
  end.

Definition oracle_json_extract (column path : string) : string :=
  "JSON_VALUE(" +:+ column +:+ ", '" +:+ oracle_escape_string (normalize_path path) +:+ "')".

Definition oracle_full_text_search (columns : list string) (keyword : string) : string :=
  match columns with
  | [] => "0"
  | _ =>
      join " OR " ((fun c =>
        "CONTAINS(" +:+ c +:+ ", '" +:+ oracle_escape_string keyword +:+ "', 1) > 0") <$> columns)
  end.

Definition oracle_concat (parts : list string) : string :=
  match parts with
  | [] => "NULL"
  | _ => join " || " parts
  end.

Definition oracle_identity : string := "GENERATED BY DEFAULT AS IDENTITY".

Definition oracle_column (col : ColumnDef) : string :=
  oracle_quote (col_name col) +:+ " " +:+ map_to_oracle_type (sql_type col)
  +:+ (if negb (nullable col) && negb (auto_increment col) then " NOT NULL" else "")
  +:+ push_default col
  +:+ (if auto_increment col then " " +:+ oracle_identity else "")
  +:+ (if primary_key col then " PRIMARY KEY" else "").

Definition oracle_build_create_table (table : string) (columns : list ColumnDef) : string :=
  "CREATE TABLE " +:+ oracle_quote table +:+ " (" +:+ join ", " (oracle_column <$> columns)
  +:+ ")".

Definition oracle_change (table : string) (change : TableChange) : string :=
  match change with
  | AddColumn col =>
      "ALTER TABLE " +:+ oracle_quote table +:+ " ADD " +:+ oracle_quote (col_name col)
      +:+ " " +:+ map_to_oracle_type (sql_type col) +:+ push_not_null col +:+ push_default col
  | DropColumn name =>
      "ALTER TABLE " +:+ oracle_quote table +:+ " DROP COLUMN " +:+ oracle_quote name
  | ModifyColumn col =>
      "ALTER TABLE " +:+ oracle_quote table +:+ " MODIFY " +:+ oracle_quote (col_name col)
      +:+ " " +:+ map_to_oracle_type (sql_type col) +:+ push_not_null col +:+ push_default col
  | AddIndex name cols =>
      "CREATE INDEX " +:+ name +:+ " ON " +:+ oracle_quote table +:+ " (" +:+ join ", " cols
      +:+ ")"
  | DropIndex name => "DROP INDEX " +:+ name
  | AddForeignKey columns reference_table reference_columns =>
      add_foreign_key oracle_quote table columns reference_table reference_columns
  end.

Definition oracle_build_alter_table (table : string) (changes : list TableChange) : string :=
  join "; " (oracle_change table <$> changes).

Definition OracleDialect : Dialect := {|
  db_type := Oracle;
  quote := oracle_quote;
  quote_into := oracle_quote_into;
  escape_string := oracle_escape_string;
  supports_returning := true;
  build_pagination := fetch_next;
  json_type := "JSON";
  json_extract column path := Some (oracle_json_extract column path);
  full_text_search := oracle_full_text_search;
  bool_to_int := case_when;
  concat_expr := oracle_concat;
  supports_if_exists := true;
  supports_if_not_exists := true;
  auto_increment_keyword := oracle_identity;
  last_insert_id_sql := None;
  build_create_table := oracle_build_create_table;
  build_alter_table := oracle_build_alter_table;
  build_drop_table := default_build_drop_table oracle_quote true;
  build_upsert_on_conflict _ _ _ := None;
  build_lock_clause := oracle_lock_clause;
  supports_lock_for_update := true;
  supports_lock_shared := false;
  build_insert_or_ignore_prefix := default_insert_or_ignore_prefix oracle_quote;
  build_insert_or_ignore_suffix := "";
  supports_insert_or_ignore := false;
  build_pagination_clause := fetch_next_clause;
  requires_order_by_for_pagination := false;
|}.

(** * SQL Server *)

Definition map_to_sqlserver_type (sql_type : string) : string :=
  let trimmed := trim (uppercase sql_type) in
  if starts_with "BIGINT" trimmed then sql_type
  else if one_of ["INT"; "INTEGER"] trimmed then "INT"
  else if starts_with "NVARCHAR" trimmed then sql_type
  else if starts_with "VARCHAR" trimmed then replace_first "VARCHAR" "NVARCHAR" sql_type
  else if one_of ["TEXT"; "MEDIUMTEXT"; "LONGTEXT"; "TINYTEXT"] trimmed then "NVARCHAR(MAX)"
  else if one_of ["BOOLEAN"; "BOOL"] trimmed then "BIT"
  else sql_type.

Definition sqlserver_quote (identifier : string) : string := delimited "[" "]" identifier.

Definition sqlserver_escape_string (s : string) : string := double_squotes s.

Definition sqlserver_json_extract (column path : string) : string :=
  "JSON_VALUE(" +:+ column +:+ ", '" +:+ sqlserver_escape_string (normalize_path path) +:+ "')".

Definition sqlserver_full_text_search (columns : list string) (keyword : string) : string :=
  match columns with
  | [] => "0"
  | _ =>
      "CONTAINS(" +:+ join ", " columns +:+ ", '" +:+ sqlserver_escape_string keyword +:+ "')"
  end.

Definition sqlserver_concat (parts : list string) : string :=
  match parts with
  | [] => "NULL"
  | _ => "CONCAT(" +:+ join ", " parts +:+ ")"
  end.

Definition sqlserver_identity : string := "IDENTITY(1,1)".

Definition sqlserver_column (col : ColumnDef) : string :=
  sqlserver_quote (col_name col) +:+ " " +:+ map_to_sqlserver_type (sql_type col)
  +:+ push_not_null col +:+ push_default col
  +:+ (if auto_increment col then " " +:+ sqlserver_identity else "")
  +:+ (if primary_key col then " PRIMARY KEY" else "").

Definition sqlserver_build_create_table (table : string) (columns : list ColumnDef) : string :=
  "CREATE TABLE " +:+ sqlserver_quote table +:+ " (" +:+ join ", " (sqlserver_column <$> columns)
  +:+ ")".

Definition sqlserver_change (table : string) (change : TableChange) : string :=
  match change with
  | AddColumn col =>
      "ALTER TABLE " +:+ sqlserver_quote table +:+ " ADD " +:+ sqlserver_quote (col_name col)
      +:+ " " +:+ map_to_sqlserver_type (sql_type col) +:+ push_not_null col +:+ push_default col
  | DropColumn name =>
      "ALTER TABLE " +:+ sqlserver_quote table +:+ " DROP COLUMN " +:+ sqlserver_quote name
  | ModifyColumn col =>
      "ALTER TABLE " +:+ sqlserver_quote table +:+ " ALTER COLUMN "
      +:+ sqlserver_quote (col_name col) +:+ " " +:+ map_to_sqlserver_type (sql_type col)
      +:+ push_not_null col +:+ push_default col
  | AddIndex name cols =>
      "CREATE INDEX " +:+ name +:+ " ON " +:+ sqlserver_quote table +:+ " (" +:+ join ", " cols
      +:+ ")"
  | DropIndex name => "DROP INDEX " +:+ name +:+ " ON " +:+ sqlserver_quote table
  | AddForeignKey columns reference_table reference_columns =>
      add_foreign_key sqlserver_quote table columns reference_table reference_columns
  end.

Definition sqlserver_build_alter_table (table : string) (changes : list TableChange) : string :=
  join "; " (sqlserver_change table <$> changes).

Definition SqlServerDialect : Dialect := {|
  db_type := SqlServer;
  quote := sqlserver_quote;
  quote_into := default_quote_into sqlserver_quote;
  escape_string := sqlserver_escape_string;
  supports_returning := true;
  build_pagination := fetch_next;
  json_type := "NVARCHAR(MAX)";
  json_extract column path := Some (sqlserver_json_extract column path);
  full_text_search := sqlserver_full_text_search;
  bool_to_int := case_when;
  concat_expr := sqlserver_concat;
  supports_if_exists := true;
  supports_if_not_exists := true;
  auto_increment_keyword := sqlserver_identity;
  last_insert_id_sql := Some "SCOPE_IDENTITY()";
  build_create_table := sqlserver_build_create_table;
  build_alter_table := sqlserver_build_alter_table;
  build_drop_table := default_build_drop_table sqlserver_quote true;
  build_upsert_on_conflict _ _ _ := None;
  build_lock_clause _ := None;
  supports_lock_for_update := false;
  supports_lock_shared := false;
  build_insert_or_ignore_prefix table := "INSERT INTO " +:+ sqlserver_quote table;
  build_insert_or_ignore_suffix := "";
  supports_insert_or_ignore := false;
  build_pagination_clause := fetch_next_clause;
  requires_order_by_for_pagination := true;
|}.

(** * IBM DB2 *)

Definition map_to_db2_type (sql_type : string) : string :=
  let trimmed := trim (uppercase sql_type) in
  if starts_with "BIGINT" trimmed then "BIGINT"
  else if one_of ["INT"; "INTEGER"] trimmed then "INTEGER"
  else if one_of ["TINYINT"; "SMALLINT"] trimmed then "SMALLINT"
  else if starts_with "VARCHAR" trimmed || starts_with "CHAR" trimmed then sql_type
  else if one_of ["TEXT"; "MEDIUMTEXT"; "LONGTEXT"; "TINYTEXT"] trimmed then "CLOB(2G)"
  else if one_of ["BOOLEAN"; "BOOL"] trimmed then "SMALLINT"
  else if one_of ["FLOAT"; "REAL"] trimmed then "REAL"
  else if one_of ["DOUBLE"; "DOUBLE PRECISION"] trimmed then "DOUBLE"
  else if one_of ["DATETIME"; "TIMESTAMP"] trimmed then "TIMESTAMP"
  else if one_of ["DATE"] trimmed then "DATE"
  else sql_type.

Definition db2_quote (identifier : string) : string := delimited dquote dquote identifier.

Definition db2_escape_string (s : string) : string := double_squotes s.

Definition db2_json_extract (column path : string) : string :=
  "JSON_VALUE(" +:+ column +:+ ", '" +:+ db2_escape_string (normalize_path path) +:+ "')".

Definition db2_full_text_search (columns : list string) (keyword : string) : string :=
  match columns with
  | [] => "0"
  | _ =>
      join " OR " ((fun c =>
        "CONTAINS(" +:+ c +:+ ", '" +:+ db2_escape_string keyword +:+ "') > 0") <$> columns)
  end.

Definition db2_concat (parts : list string) : string :=
  match parts with
  | [] => "''"
  | _ => join " || " parts
  end.

Definition db2_identity : string := "GENERATED ALWAYS AS IDENTITY".

Definition db2_column (col : ColumnDef) : string :=
  db2_quote (col_name col) +:+ " " +:+ map_to_db2_type (sql_type col)
  +:+ (if negb (nullable col) && negb (auto_increment col) then " NOT NULL" else "")
  +:+ push_default col
  +:+ (if auto_increment col then " " +:+ db2_identity else "")
  +:+ (if primary_key col then " PRIMARY KEY" else "").

Definition db2_build_create_table (table : string) (columns : list ColumnDef) : string :=
  "CREATE TABLE " +:+ db2_quote table +:+ " (" +:+ join ", " (db2_column <$> columns) +:+ ")".

Definition db2_change (table : string) (change : TableChange) : string :=
  match change with
  | AddColumn col =>
      "ALTER TABLE " +:+ db2_quote table +:+ " ADD COLUMN " +:+ db2_quote (col_name col)
      +:+ " " +:+ map_to_db2_type (sql_type col) +:+ push_not_null col +:+ push_default col
  | DropColumn name =>
      "ALTER TABLE " +:+ db2_quote table +:+ " DROP COLUMN " +:+ db2_quote name
  | ModifyColumn col =>
      "ALTER TABLE " +:+ db2_quote table +:+ " ALTER COLUMN " +:+ db2_quote (col_name col)
      +:+ " SET DATA TYPE " +:+ map_to_db2_type (sql_type col)
  | AddIndex name cols =>
      "CREATE INDEX " +:+ name +:+ " ON " +:+ db2_quote table +:+ " (" +:+ join ", " cols +:+ ")"
  | DropIndex name => "DROP INDEX " +:+ name
  | AddForeignKey columns reference_table reference_columns =>
      add_foreign_key db2_quote table columns reference_table reference_columns
  end.

Definition db2_build_alter_table (table : string) (changes : list TableChange) : string :=
  join "; " (db2_change table <$> changes).

Definition db2_build_drop_table (table : string) (_if_exists : bool) : string :=
  "DROP TABLE " +:+ db2_quote table.

Definition Db2Dialect : Dialect := {|
  db_type := Db2;
  quote := db2_quote;
  quote_into := default_quote_into db2_quote;
  escape_string := db2_escape_string;
  supports_returning := false;
  build_pagination := fetch_next;
  json_type := "JSON";
  json_extract column path := Some (db2_json_extract column path);
  full_text_search := db2_full_text_search;
  bool_to_int := case_when;
  concat_expr := db2_concat;
  supports_if_exists := false;
  supports_if_not_exists := false;
  auto_increment_keyword := db2_identity;
  last_insert_id_sql := Some "SELECT IDENTITY_VAL_LOCAL() FROM SYSIBM.SYSDUMMY1";
  build_create_table := db2_build_create_table;
  build_alter_table := db2_build_alter_table;
  build_drop_table := db2_build_drop_table;
  build_upsert_on_conflict _ _ _ := None;
  build_lock_clause _ := None;
  supports_lock_for_update := true;
  supports_lock_shared := true;
  build_insert_or_ignore_prefix := default_insert_or_ignore_prefix db2_quote;
  build_insert_or_ignore_suffix := "";
  supports_insert_or_ignore := false;
  build_pagination_clause := default_pagination_clause;
  requires_order_by_for_pagination := false;
|}.

(** * Informix *)

(** [ADD CONSTRAINT] without a name, as Informix, SAP HANA and Firebird write it. *)
Definition add_unnamed_foreign_key (quote : string -> string) (table : string)
    (columns : list string) (reference_table : string) (reference_columns : list string) : string :=
  "ALTER TABLE " +:+ quote table +:+ " ADD CONSTRAINT FOREIGN KEY ("
  +:+ join ", " (quote <$> columns) +:+ ") REFERENCES " +:+ quote reference_table +:+ " ("
  +:+ join ", " (quote <$> reference_columns) +:+ ")".

Definition map_to_informix_type (sql_type : string) : string :=
  let trimmed := trim (uppercase sql_type) in
  if starts_with "BIGINT" trimmed then "BIGINT"
  else if one_of ["INT"; "INTEGER"] trimmed then "INTEGER"
  else if one_of ["SMALLINT"] trimmed then "SMALLINT"
  else if starts_with "VARCHAR" trimmed || starts_with "CHAR" trimmed then sql_type
  else if one_of ["TEXT"; "LVARCHAR"] trimmed then "LVARCHAR"
  else if one_of ["BOOLEAN"; "BOOL"] trimmed then "BOOLEAN"
  else if one_of ["FLOAT"; "REAL"] trimmed then "SMALLFLOAT"
  else if one_of ["DOUBLE"; "DOUBLE PRECISION"] trimmed then "FLOAT"
  else if one_of ["DATETIME"; "TIMESTAMP"] trimmed then "DATETIME YEAR TO SECOND"
  else if one_of ["DATE"] trimmed then "DATE"
  else sql_type.

Definition informix_quote (identifier : string) : string := delimited dquote dquote identifier.

Definition informix_escape_string (s : string) : string := double_squotes s.

Definition informix_build_pagination (sql : string) (page limit : Z) : string :=
  let offset := saturating_mul (saturating_sub page 1) limit in
  sql +:+ " SKIP " +:+ pretty offset +:+ " FIRST " +:+ pretty limit.

Definition informix_json_extract (column path : string) : string :=
  "JSONExtract(" +:+ column +:+ ", '" +:+ informix_escape_string (normalize_path path) +:+ "')".

Definition informix_full_text_search (columns : list string) (keyword : string) : string :=
  match columns with
  | [] => "0"
  | _ =>
      join " OR " ((fun c =>
        "CONTAINS(" +:+ c +:+ ", '" +:+ informix_escape_string keyword +:+ "') > 0") <$> columns)
  end.

Definition informix_concat (parts : list string) : string :=
  match parts with
  | [] => "''"
  | _ => join " || " parts
  end.

Definition informix_column (col : ColumnDef) : string :=
  informix_quote (col_name col) +:+ " " +:+ map_to_informix_type (sql_type col)
  +:+ (if negb (nullable col) && negb (auto_increment col) then " NOT NULL" else "")
  +:+ push_default col
  +:+ (if primary_key col then " PRIMARY KEY" else "").

Definition informix_build_create_table (table : string) (columns : list ColumnDef) : string :=
  "CREATE TABLE " +:+ informix_quote table +:+ " (" +:+ join ", " (informix_column <$> columns)
  +:+ ")".

Definition informix_change (table : string) (change : TableChange) : string :=
  match change with
  | AddColumn col =>
      "ALTER TABLE " +:+ informix_quote table +:+ " ADD COLUMN "
      +:+ informix_quote (col_name col) +:+ " " +:+ map_to_informix_type (sql_type col)
      +:+ push_not_null col +:+ push_default col
  | DropColumn name =>
      "ALTER TABLE " +:+ informix_quote table +:+ " DROP COLUMN " +:+ informix_quote name
  | ModifyColumn col =>
      "ALTER TABLE " +:+ informix_quote table +:+ " MODIFY " +:+ informix_quote (col_name col)
      +:+ " " +:+ map_to_informix_type (sql_type col)
  | AddIndex name cols =>
      "CREATE INDEX " +:+ name +:+ " ON " +:+ informix_quote table +:+ " (" +:+ join ", " cols
      +:+ ")"
  | DropIndex name => "DROP INDEX " +:+ name
  | AddForeignKey columns reference_table reference_columns =>
      add_unnamed_foreign_key informix_quote table columns reference_table reference_columns
  end.

Definition informix_build_alter_table (table : string) (changes : list TableChange) : string :=
  join "; " (informix_change table <$> changes).

Definition InformixDialect : Dialect := {|
  db_type := Informix;
  quote := informix_quote;
  quote_into := default_quote_into informix_quote;
  escape_string := informix_escape_string;
  supports_returning := false;
  build_pagination := informix_build_pagination;
  json_type := "LVARCHAR";
  json_extract column path := Some (informix_json_extract column path);
  full_text_search := informix_full_text_search;
  bool_to_int := case_when;
  concat_expr := informix_concat;
  supports_if_exists := true;
  supports_if_not_exists := true;
  auto_increment_keyword := "SERIAL";
  last_insert_id_sql := Some "SELECT DBINFO('sqlca.sqlerrd1') FROM systables WHERE tabid = 1";
  build_create_table := informix_build_create_table;
  build_alter_table := informix_build_alter_table;
  build_drop_table := default_build_drop_table informix_quote true;
  build_upsert_on_conflict _ _ _ := None;
  build_lock_clause _ := None;
  supports_lock_for_update := true;
  supports_lock_shared := true;
  build_insert_or_ignore_prefix := default_insert_or_ignore_prefix informix_quote;
  build_insert_or_ignore_suffix := "";
  supports_insert_or_ignore := false;
  build_pagination_clause := default_pagination_clause;
  requires_order_by_for_pagination := false;
|}.

(** * SAP HANA *)

Definition map_to_saphana_type (sql_type : string) : string :=
  let trimmed := trim (uppercase sql_type) in
  if starts_with "BIGINT" trimmed then "BIGINT"
  else if one_of ["INT"; "INTEGER"] trimmed then "INTEGER"
  else if one_of ["TINYINT"; "SMALLINT"] trimmed then "SMALLINT"
  else if starts_with "VARCHAR" trimmed || starts_with "NVARCHAR" trimmed
    || starts_with "CHAR" trimmed || starts_with "NCHAR" trimmed then sql_type
  else if one_of ["TEXT"; "CLOB"] trimmed then "NCLOB"
  else if one_of ["BOOLEAN"; "BOOL"] trimmed then "BOOLEAN"
  else if one_of ["FLOAT"; "REAL"] trimmed then "REAL"
  else if one_of ["DOUBLE"; "DOUBLE PRECISION"] trimmed then "DOUBLE"
  else if one_of ["DATETIME"; "TIMESTAMP"] trimmed then "TIMESTAMP"
  else if one_of ["DATE"] trimmed then "DATE"
  else sql_type.

Definition saphana_quote (identifier : string) : string := delimited dquote dquote identifier.

Definition saphana_escape_string (s : string) : string := double_squotes s.

Definition saphana_build_pagination (sql : string) (page limit : Z) : string :=
  let offset := saturating_mul (saturating_sub page 1) limit in
  sql +:+ " LIMIT " +:+ pretty limit +:+ " OFFSET " +:+ pretty offset.

Definition saphana_json_extract (column path : string) : string :=
  "JSON_VALUE(" +:+ column +:+ ", '" +:+ saphana_escape_string (normalize_path path) +:+ "')".

Definition saphana_full_text_search (columns : list string) (keyword : string) : string :=
  match columns with
  | [] => "0"
  | _ =>
      join " OR " ((fun c =>
        "CONTAINS(" +:+ c +:+ ", '" +:+ saphana_escape_string keyword +:+ "') > 0") <$> columns)
  end.

Definition saphana_concat (parts : list string) : string :=
  match parts with
  | [] => "''"
  | _ => join " || " parts
  end.

Definition saphana_identity : string := "GENERATED BY DEFAULT AS IDENTITY".

Definition saphana_column (col : ColumnDef) : string :=
  saphana_quote (col_name col) +:+ " " +:+ map_to_saphana_type (sql_type col)
  +:+ (if negb (nullable col) && negb (auto_increment col) then " NOT NULL" else "")
  +:+ push_default col
  +:+ (if auto_increment col then " " +:+ saphana_identity else "")
  +:+ (if primary_key col then " PRIMARY KEY" else "").

Definition saphana_build_create_table (table : string) (columns : list ColumnDef) : string :=
  "CREATE COLUMN TABLE " +:+ saphana_quote table +:+ " ("
  +:+ join ", " (saphana_column <$> columns) +:+ ")".

Definition saphana_change (table : string) (change : TableChange) : string :=
  match change with
  | AddColumn col =>
      "ALTER TABLE " +:+ saphana_quote table +:+ " ADD (" +:+ saphana_quote (col_name col)
      +:+ " " +:+ map_to_saphana_type (sql_type col) +:+ ")" +:+ push_not_null col
      +:+ push_default col
  | DropColumn name =>
      "ALTER TABLE " +:+ saphana_quote table +:+ " DROP (" +:+ saphana_quote name +:+ ")"
  | ModifyColumn col =>
      "ALTER TABLE " +:+ saphana_quote table +:+ " ALTER (" +:+ saphana_quote (col_name col)
      +:+ " " +:+ map_to_saphana_type (sql_type col) +:+ ")"
  | AddIndex name cols =>
      "CREATE INDEX " +:+ name +:+ " ON " +:+ saphana_quote table +:+ " (" +:+ join ", " cols
      +:+ ")"
  | DropIndex name => "DROP INDEX " +:+ name
  | AddForeignKey columns reference_table reference_columns =>
      add_unnamed_foreign_key saphana_quote table columns reference_table reference_columns
  end.

Definition saphana_build_alter_table (table : string) (changes : list TableChange) : string :=
  join "; " (saphana_change table <$> changes).

Definition SapHanaDialect : Dialect := {|
  db_type := SapHana;
  quote := saphana_quote;
  quote_into := default_quote_into saphana_quote;
  escape_string := saphana_escape_string;
  supports_returning := false;
  build_pagination := saphana_build_pagination;
  json_type := "NCLOB";
  json_extract column path := Some (saphana_json_extract column path);
  full_text_search := saphana_full_text_search;
  bool_to_int := case_when;
  concat_expr := saphana_concat;
  supports_if_exists := true;
  supports_if_not_exists := true;
  auto_increment_keyword := saphana_identity;
  last_insert_id_sql := None;
  build_create_table := saphana_build_create_table;
  build_alter_table := saphana_build_alter_table;
  build_drop_table := default_build_drop_table saphana_quote true;
  build_upsert_on_conflict _ _ _ := None;
  build_lock_clause _ := None;
  supports_lock_for_update := true;
  supports_lock_shared := true;
  build_insert_or_ignore_prefix := default_insert_or_ignore_prefix saphana_quote;
  build_insert_or_ignore_suffix := "";
  supports_insert_or_ignore := false;
  build_pagination_clause := default_pagination_clause;
  requires_order_by_for_pagination := false;
|}.

(** * Firebird *)

Definition map_to_firebird_type (sql_type : string) : string :=
  let trimmed := trim (uppercase sql_type) in
  if starts_with "BIGINT" trimmed then "BIGINT"
  else if one_of ["INT"; "INTEGER"] trimmed then "INTEGER"
  else if one_of ["SMALLINT"] trimmed then "SMALLINT"
  else if starts_with "VARCHAR" trimmed || starts_with "CHAR" trimmed then sql_type
  else if one_of ["TEXT"; "BLOB"] trimmed then "BLOB SUB_TYPE TEXT"
  else if one_of ["BOOLEAN"; "BOOL"] trimmed then "BOOLEAN"
  else if one_of ["FLOAT"; "REAL"] trimmed then "FLOAT"
  else if one_of ["DOUBLE"; "DOUBLE PRECISION"] trimmed then "DOUBLE PRECISION"
  else if one_of ["DATETIME"; "TIMESTAMP"] trimmed then "TIMESTAMP"
  else if one_of ["DATE"] trimmed then "DATE"
  else sql_type.

Definition firebird_quote (identifier : string) : string := delimited dquote dquote identifier.

Definition firebird_escape_string (s : string) : string := double_squotes s.

(** The additions are not the saturating ones. *)
Definition firebird_build_pagination (sql : string) (page limit : Z) : string :=
  let offset := saturating_mul (saturating_sub page 1) limit in
  let to := wrap64 (offset + limit) in
  sql +:+ " ROWS " +:+ pretty (wrap64 (offset + 1)) +:+ " TO " +:+ pretty to.

Definition firebird_json_extract (column path : string) : string :=
  "JSON_GET(" +:+ column +:+ ", '" +:+ firebird_escape_string (normalize_path path) +:+ "')".

Definition firebird_full_text_search (columns : list string) (keyword : string) : string :=
  match columns with
  | [] => "0"
  | _ =>
      join " OR " ((fun c =>
        "CONTAINING(" +:+ c +:+ ", '" +:+ firebird_escape_string keyword +:+ "')") <$> columns)
  end.

Definition firebird_concat (parts : list string) : string :=
  match parts with
  | [] => "''"
  | _ => join " || " parts
  end.

Definition firebird_identity : string := "GENERATED BY DEFAULT AS IDENTITY".

Definition firebird_column (col : ColumnDef) : string :=
  firebird_quote (col_name col) +:+ " " +:+ map_to_firebird_type (sql_type col)
  +:+ (if negb (nullable col) && negb (auto_increment col) then " NOT NULL" else "")
  +:+ push_default col
  +:+ (if auto_increment col then " " +:+ firebird_identity else "")
  +:+ (if primary_key col then " PRIMARY KEY" else "").

Definition firebird_build_create_table (table : string) (columns : list ColumnDef) : string :=
  "CREATE TABLE " +:+ firebird_quote table +:+ " (" +:+ join ", " (firebird_column <$> columns)
  +:+ ")".

Definition firebird_change (table : string) (change : TableChange) : string :=
  match change with
  | AddColumn col =>
      "ALTER TABLE " +:+ firebird_quote table +:+ " ADD " +:+ firebird_quote (col_name col)
      +:+ " " +:+ map_to_firebird_type (sql_type col) +:+ push_not_null col +:+ push_default col
  | DropColumn name =>
      "ALTER TABLE " +:+ firebird_quote table +:+ " DROP " +:+ firebird_quote name
  | ModifyColumn col =>
      "ALTER TABLE " +:+ firebird_quote table +:+ " ALTER COLUMN "
      +:+ firebird_quote (col_name col) +:+ " TYPE " +:+ map_to_firebird_type (sql_type col)
  | AddIndex name cols =>
      "CREATE INDEX " +:+ name +:+ " ON " +:+ firebird_quote table +:+ " (" +:+ join ", " cols
      +:+ ")"
  | DropIndex name => "DROP INDEX " +:+ name
  | AddForeignKey columns reference_table reference_columns =>
      add_unnamed_foreign_key firebird_quote table columns reference_table reference_columns
  end.

Definition firebird_build_alter_table (table : string) (changes : list TableChange) : string :=
  join "; " (firebird_change table <$> changes).

Definition FirebirdDialect : Dialect := {|
  db_type := Firebird;
  quote := firebird_quote;
  quote_into := default_quote_into firebird_quote;
  escape_string := firebird_escape_string;
  supports_returning := true;
  build_pagination := firebird_build_pagination;
  json_type := "BLOB SUB_TYPE TEXT";
  json_extract column path := Some (firebird_json_extract column path);
  full_text_search := firebird_full_text_search;
  bool_to_int := case_when;
  concat_expr := firebird_concat;
  supports_if_exists := true;
  supports_if_not_exists := true;
  auto_increment_keyword := firebird_identity;
  last_insert_id_sql := Some "SELECT GEN_ID(SQLITE_SEQUENCE, 0) FROM RDB$DATABASE";
  build_create_table := firebird_build_create_table;
  build_alter_table := firebird_build_alter_table;
  build_drop_table := default_build_drop_table firebird_quote true;
  build_upsert_on_conflict _ _ _ := None;
  build_lock_clause _ := None;
  supports_lock_for_update := true;
  supports_lock_shared := true;
  build_insert_or_ignore_prefix := default_insert_or_ignore_prefix firebird_quote;
  build_insert_or_ignore_suffix := "";
  supports_insert_or_ignore := false;
  build_pagination_clause := default_pagination_clause;
  requires_order_by_for_pagination := false;
|}.

(** * Column types *)

(** A type whose uppercase spelling is recognised is replaced in its original spelling: written
    in lower case it is left as it is, and a type that begins with [INT] loses those letters. *)
Lemma oracle_types :
  map_to_oracle_type "BIGINT" = "NUMBER(19)" /\ map_to_oracle_type "bigint" = "bigint" /\
  map_to_oracle_type "varchar(20)" = "varchar(20)" /\
  map_to_oracle_type "INTERVAL DAY TO SECOND" = "NUMBER(10)ERVAL DAY TO SECOND".
Proof. repeat split; reflexivity. Qed.
