(* ===== verification/AnalyticDialects.v ===== *)
(** The dialects of analytic databases, [packages/sz-orm-core/src/dialect.rs]: ClickHouse,
    DuckDB and Snowflake. *)

From Stdlib Require Import Ascii String.
From S2P Require Import Prelude SqlText Dialect.
Local Open Scope string_scope.
#[local] Arguments String.append !_ _ : simpl nomatch.

(** * ClickHouse *)

Definition map_to_clickhouse_type (sql_type : string) : string :=
  let trimmed := trim (uppercase sql_type) in
  if starts_with "BIGINT" trimmed then "Int64"
  else if one_of ["INT"; "INTEGER"] trimmed then "Int32"
  else if one_of ["TINYINT"; "SMALLINT"] trimmed then "Int16"
  else if starts_with "VARCHAR" trimmed || starts_with "CHAR" trimmed
    || one_of ["TEXT"; "MEDIUMTEXT"; "LONGTEXT"; "TINYTEXT"] trimmed then "String"
  else if one_of ["BOOLEAN"; "BOOL"] trimmed then "UInt8"
  else if one_of ["FLOAT"; "REAL"] trimmed then "Float32"
  else if one_of ["DOUBLE"; "DOUBLE PRECISION"] trimmed then "Float64"
  else if one_of ["DATETIME"; "TIMESTAMP"] trimmed then "DateTime"
  else if one_of ["DATE"] trimmed then "Date"
  else if starts_with "DECIMAL" trimmed || starts_with "NUMERIC" trimmed then "Decimal(38, 4)"
  else sql_type.

Definition clickhouse_quote (identifier : string) : string :=
  delimited backtick backtick identifier.

Definition clickhouse_escape_char (c : ascii) : string :=
  if Ascii.eqb c squote then "\'"
  else if Ascii.eqb c backslash then "\\"
  else if Ascii.eqb c "010" then "\n"
  else if Ascii.eqb c "013" then "\r"
  else if Ascii.eqb c "009" then "\t"
  else chr c.

Definition clickhouse_escape_string (s : string) : string := concat_map clickhouse_escape_char s.

Definition clickhouse_build_pagination (sql : string) (page limit : Z) : string :=
  let offset := saturating_mul (saturating_sub page 1) limit in
  sql +:+ " LIMIT " +:+ pretty offset +:+ ", " +:+ pretty limit.

Definition clickhouse_json_extract (column path : string) : string :=
  "JSONExtractString(" +:+ column +:+ ", '" +:+ clickhouse_escape_string (normalize_path path)
  +:+ "')".

Definition clickhouse_full_text_search (columns : list string) (keyword : string) : string :=
  match columns with
  | [] => "0"
  | _ =>
      join " OR " ((fun c =>
        "position(" +:+ c +:+ ", '" +:+ clickhouse_escape_string keyword +:+ "') > 0") <$> columns)
  end.

Definition clickhouse_concat (parts : list string) : string :=
  match parts with
  | [] => "''"
  | _ => "concat(" +:+ join ", " parts +:+ ")"
  end.

Definition clickhouse_column (col : ColumnDef) : string :=
  clickhouse_quote (col_name col) +:+ " " +:+ map_to_clickhouse_type (sql_type col)
  +:+ push_default col
  +:+ (if primary_key col then " PRIMARY KEY" else "").

Definition clickhouse_build_create_table (table : string) (columns : list ColumnDef) : string :=
  "CREATE TABLE " +:+ clickhouse_quote table +:+ " (" +:+ join ", " (clickhouse_column <$> columns)
  +:+ ") ENGINE = MergeTree()".

Definition clickhouse_change (table : string) (change : TableChange) : string :=
  match change with
  | AddColumn col =>
      "ALTER TABLE " +:+ clickhouse_quote table +:+ " ADD COLUMN "
      +:+ clickhouse_quote (col_name col) +:+ " " +:+ map_to_clickhouse_type (sql_type col)
  | DropColumn name =>
      "ALTER TABLE " +:+ clickhouse_quote table +:+ " DROP COLUMN " +:+ clickhouse_quote name
  | ModifyColumn col =>
      "ALTER TABLE " +:+ clickhouse_quote table +:+ " MODIFY COLUMN "
      +:+ clickhouse_quote (col_name col) +:+ " " +:+ map_to_clickhouse_type (sql_type col)
  | AddIndex name cols =>
      "ALTER TABLE " +:+ clickhouse_quote table +:+ " ADD INDEX " +:+ name +:+ " ("
      +:+ join ", " cols +:+ ")"
  | DropIndex name =>
      "ALTER TABLE " +:+ clickhouse_quote table +:+ " DROP INDEX " +:+ name
  | AddForeignKey _ _ _ => ""
  end.

(** [.filter(|s| !s.is_empty())] *)
Definition non_empty (l : list string) : list string :=
  filter (fun s => s <> "") l.

Definition clickhouse_build_alter_table (table : string) (changes : list TableChange) : string :=
  join "; " (non_empty (clickhouse_change table <$> changes)).

Definition ClickHouseDialect : Dialect := {|
  db_type := ClickHouse;
  quote := clickhouse_quote;
  quote_into := default_quote_into clickhouse_quote;
  escape_string := clickhouse_escape_string;
  supports_returning := false;
  build_pagination := clickhouse_build_pagination;
  json_type := "String";
  json_extract column path := Some (clickhouse_json_extract column path);
  full_text_search := clickhouse_full_text_search;
  bool_to_int expr := "toUInt8(" +:+ expr +:+ ")";
  concat_expr := clickhouse_concat;
  supports_if_exists := true;
  supports_if_not_exists := true;
  auto_increment_keyword := "";
  last_insert_id_sql := None;
  build_create_table := clickhouse_build_create_table;
  build_alter_table := clickhouse_build_alter_table;
  build_drop_table := default_build_drop_table clickhouse_quote true;
  build_upsert_on_conflict _ _ _ := None;
  build_lock_clause _ := None;
  supports_lock_for_update := false;
  supports_lock_shared := false;
  build_insert_or_ignore_prefix table := "INSERT INTO " +:+ clickhouse_quote table;
  build_insert_or_ignore_suffix := "";
  supports_insert_or_ignore := false;
  build_pagination_clause := default_pagination_clause;
  requires_order_by_for_pagination := false;
|}.

(** * DuckDB *)

Definition duckdb_quote (identifier : string) : string := delimited dquote dquote identifier.

Definition duckdb_escape_string (s : string) : string := double_squotes s.

Definition duckdb_build_pagination (sql : string) (page limit : Z) : string :=
  let offset := saturating_mul (saturating_sub page 1) limit in
  sql +:+ " LIMIT " +:+ pretty limit +:+ " OFFSET " +:+ pretty offset.

(** [path[2..]] panics on [$], and the path is not escaped. *)
Definition duckdb_json_extract (column path : string) : option string :=
  normalized ← (if starts_with "$" path then slice_from 2 path else Some path);
  Some (column +:+ " -> '" +:+ normalized +:+ "'").

Definition duckdb_full_text_search (columns : list string) (keyword : string) : string :=
  match columns with
  | [] => "0"
  | _ =>
      join " OR " ((fun c =>
        c +:+ " LIKE '%" +:+ duckdb_escape_string keyword +:+ "%'") <$> columns)
  end.

Definition duckdb_concat (parts : list string) : string :=
  match parts with
  | [] => "''"
  | _ => join " || " parts
  end.

Definition duckdb_column (col : ColumnDef) : string :=
  (if auto_increment col then duckdb_quote (col_name col) +:+ " BIGINT PRIMARY KEY"
   else duckdb_quote (col_name col) +:+ " " +:+ sql_type col)
  +:+ push_default col
  +:+ (if primary_key col && negb (auto_increment col) then " PRIMARY KEY" else "").

Definition duckdb_build_create_table (table : string) (columns : list ColumnDef) : string :=
  "CREATE TABLE " +:+ duckdb_quote table +:+ " (" +:+ join ", " (duckdb_column <$> columns)
  +:+ ")".

Definition duckdb_change (table : string) (change : TableChange) : string :=
  match change with
  | AddColumn col =>
      "ALTER TABLE " +:+ duckdb_quote table +:+ " ADD COLUMN " +:+ duckdb_quote (col_name col)
      +:+ " " +:+ sql_type col +:+ push_default col
  | DropColumn name =>
      "ALTER TABLE " +:+ duckdb_quote table +:+ " DROP COLUMN " +:+ duckdb_quote name
  | ModifyColumn col =>
      "ALTER TABLE " +:+ duckdb_quote table +:+ " ALTER COLUMN " +:+ duckdb_quote (col_name col)
      +:+ " SET DATA TYPE " +:+ sql_type col
  | AddIndex name _cols =>
      "CREATE INDEX " +:+ duckdb_quote name +:+ " ON " +:+ duckdb_quote table +:+ " (id)"
  | DropIndex name => "DROP INDEX " +:+ duckdb_quote name
  | AddForeignKey _ _ _ => ""
  end.

Definition duckdb_build_alter_table (table : string) (changes : list TableChange) : string :=
  join "; " (non_empty (duckdb_change table <$> changes)).

Definition DuckDBDialect : Dialect := {|
  db_type := DuckDB;
  quote := duckdb_quote;
  quote_into := default_quote_into duckdb_quote;
  escape_string := duckdb_escape_string;
  supports_returning := false;
  build_pagination := duckdb_build_pagination;
  json_type := "JSON";
  json_extract := duckdb_json_extract;
  full_text_search := duckdb_full_text_search;
  bool_to_int := case_when;
  concat_expr := duckdb_concat;
  supports_if_exists := true;
  supports_if_not_exists := true;
  auto_increment_keyword := "";
  last_insert_id_sql := None;
  build_create_table := duckdb_build_create_table;
  build_alter_table := duckdb_build_alter_table;
  build_drop_table := default_build_drop_table duckdb_quote true;
  build_upsert_on_conflict _ _ _ := None;
  build_lock_clause _ := None;
  supports_lock_for_update := false;
  supports_lock_shared := false;
  build_insert_or_ignore_prefix table := "INSERT OR IGNORE INTO " +:+ duckdb_quote table;
  build_insert_or_ignore_suffix := "";
  supports_insert_or_ignore := true;
  build_pagination_clause := default_pagination_clause;
  requires_order_by_for_pagination := false;
|}.

(** * Snowflake *)

Definition snowflake_quote (identifier : string) : string := delimited dquote dquote identifier.

Definition snowflake_escape_char (c : ascii) : string :=
  if Ascii.eqb c squote then "''"
  else if Ascii.eqb c backslash then "\\"
  else chr c.

Definition snowflake_escape_string (s : string) : string := concat_map snowflake_escape_char s.

Definition snowflake_build_pagination (sql : string) (page limit : Z) : string :=
  let offset := saturating_mul (saturating_sub page 1) limit in
  sql +:+ " LIMIT " +:+ pretty offset +:+ ", " +:+ pretty limit.

(** The path is not escaped. *)
Definition snowflake_json_extract (column path : string) : string :=
  column +:+ ":" +:+ trim_start_pair "$" "." path.

Definition snowflake_full_text_search (columns : list string) (keyword : string) : string :=
  match columns with
  | [] => "FALSE"
  | _ =>
      join " OR " ((fun c =>
        c +:+ " ILIKE '%" +:+ snowflake_escape_string keyword +:+ "%'") <$> columns)
  end.

Definition snowflake_concat (parts : list string) : string :=
  match parts with
  | [] => "NULL"
  | _ => "CONCAT(" +:+ join ", " parts +:+ ")"
  end.

Definition snowflake_column (col : ColumnDef) : string :=
  snowflake_quote (col_name col) +:+ " " +:+ sql_type col +:+ push_not_null col
  +:+ push_default col +:+ (if primary_key col then " PRIMARY KEY" else "").

Definition snowflake_build_create_table (table : string) (columns : list ColumnDef) : string :=
  "CREATE TABLE " +:+ snowflake_quote table +:+ " (" +:+ join ", " (snowflake_column <$> columns)
  +:+ ")".

Definition snowflake_change (table : string) (change : TableChange) : string :=
  match change with
  | AddColumn col =>
      "ALTER TABLE " +:+ snowflake_quote table +:+ " ADD COLUMN "
      +:+ snowflake_quote (col_name col) +:+ " " +:+ sql_type col +:+ push_not_null col
      +:+ push_default col
  | DropColumn name =>
      "ALTER TABLE " +:+ snowflake_quote table +:+ " DROP COLUMN " +:+ snowflake_quote name
  | ModifyColumn col =>
      "ALTER TABLE " +:+ snowflake_quote table +:+ " ALTER COLUMN "
      +:+ snowflake_quote (col_name col) +:+ " SET DATA TYPE " +:+ sql_type col
  | AddIndex name cols =>
      "CREATE INDEX " +:+ name +:+ " ON " +:+ snowflake_quote table +:+ " (" +:+ join ", " cols
      +:+ ")"
  | DropIndex name => "DROP INDEX " +:+ name
  | AddForeignKey columns reference_table reference_columns =>
      add_foreign_key snowflake_quote table columns reference_table reference_columns
  end.

Definition snowflake_build_alter_table (table : string) (changes : list TableChange) : string :=
  join "; " (snowflake_change table <$> changes).

Definition SnowflakeDialect : Dialect := {|
  db_type := Snowflake;
  quote := snowflake_quote;
  quote_into := default_quote_into snowflake_quote;
  escape_string := snowflake_escape_string;
  supports_returning := true;
  build_pagination := snowflake_build_pagination;
  json_type := "VARIANT";
  json_extract column path := Some (snowflake_json_extract column path);
  full_text_search := snowflake_full_text_search;
  bool_to_int := case_when;
  concat_expr := snowflake_concat;
  supports_if_exists := true;
  supports_if_not_exists := true;
  auto_increment_keyword := "AUTOINCREMENT";
  last_insert_id_sql := None;
  build_create_table := snowflake_build_create_table;
  build_alter_table := snowflake_build_alter_table;
  build_drop_table := default_build_drop_table snowflake_quote true;
  build_upsert_on_conflict _ _ _ := None;
  build_lock_clause _ := None;
  supports_lock_for_update := true;
  supports_lock_shared := true;
  build_insert_or_ignore_prefix := default_insert_or_ignore_prefix snowflake_quote;
  build_insert_or_ignore_suffix := "";
  supports_insert_or_ignore := false;
  build_pagination_clause := default_pagination_clause;
  requires_order_by_for_pagination := false;
|}.

Definition build_copy_into (target source : string) : string :=
  "COPY INTO " +:+ snowflake_quote target +:+ " FROM " +:+ source.

Definition build_time_travel_at (table timestamp : string) : string :=
  "SELECT * FROM " +:+ snowflake_quote table +:+ " AT(OBJECT => '"
  +:+ snowflake_escape_string timestamp +:+ "')".

Definition build_time_travel_before (table timestamp : string) : string :=
  "SELECT * FROM " +:+ snowflake_quote table +:+ " BEFORE(timestamp => '"
  +:+ snowflake_escape_string timestamp +:+ "')".

(** * What the alterations leave out *)

(** DuckDB's index is on the column [id] whatever columns were asked for. *)
Lemma duckdb_index_on_id (table name : string) (cols1 cols2 : list string) :
  duckdb_change table (AddIndex name cols1) = duckdb_change table (AddIndex name cols2).
Proof. reflexivity. Qed.

(** Neither a path that closes the literal nor one that is only [$] is handled by DuckDB. *)
Lemma duckdb_path_examples :
  duckdb_json_extract "data" "$.a' OR 1=1 --" = Some "data -> 'a' OR 1=1 --'" /\
  duckdb_json_extract "data" "$" = None.
Proof. split; reflexivity. Qed.
