(* ===== verification/Dialects.v ===== *)
(** Every dialect of [packages/sz-orm-core/src/dialect.rs]: the dialects that delegate to
    another one, [get_dialect], and what holds of all of them. *)

From Stdlib Require Import Ascii String.
From S2P Require Import Prelude SqlText Dialect VendorDialects AnalyticDialects.
Local Open Scope string_scope.
#[local] Arguments String.append !_ _ : simpl nomatch.

(** * Delegation *)

(** The macro [delegate_dialect_to].  It forwards neither [quote_into] nor
    [build_upsert_on_conflict]: the provided bodies stand. *)
Definition delegate_dialect_to (base : Dialect) (t : DbType) : Dialect := {|
  db_type := t;
  quote := quote base;
  quote_into := default_quote_into (quote base);
  escape_string := escape_string base;
  supports_returning := supports_returning base;
  build_pagination := build_pagination base;
  json_type := json_type base;
  json_extract := json_extract base;
  full_text_search := full_text_search base;
  bool_to_int := bool_to_int base;
  concat_expr := concat_expr base;
  supports_if_exists := supports_if_exists base;
  supports_if_not_exists := supports_if_not_exists base;
  auto_increment_keyword := auto_increment_keyword base;
  last_insert_id_sql := last_insert_id_sql base;
  build_create_table := build_create_table base;
  build_alter_table := build_alter_table base;
  build_drop_table := build_drop_table base;
  build_upsert_on_conflict _ _ _ := None;
  build_lock_clause := build_lock_clause base;
  supports_lock_for_update := supports_lock_for_update base;
  supports_lock_shared := supports_lock_shared base;
  build_insert_or_ignore_prefix := build_insert_or_ignore_prefix base;
  build_insert_or_ignore_suffix := build_insert_or_ignore_suffix base;
  supports_insert_or_ignore := supports_insert_or_ignore base;
  build_pagination_clause := build_pagination_clause base;
  requires_order_by_for_pagination := requires_order_by_for_pagination base;
|}.

Definition MariaDbDialect : Dialect := delegate_dialect_to MySqlDialect MariaDB.
Definition TiDbDialect : Dialect := delegate_dialect_to MySqlDialect TiDB.
Definition OceanBaseDialect : Dialect := delegate_dialect_to MySqlDialect OceanBase.
Definition KingbaseDialect : Dialect := delegate_dialect_to PostgreSqlDialect Kingbase.
Definition PolarDbDialect : Dialect := delegate_dialect_to PostgreSqlDialect PolarDB.
Definition GaussDbDialect : Dialect := delegate_dialect_to PostgreSqlDialect GaussDB.
Definition DamengDialect : Dialect := delegate_dialect_to OracleDialect Dameng.
Definition SybaseDialect : Dialect := delegate_dialect_to SqlServerDialect Sybase.
Definition GBaseDialect : Dialect := delegate_dialect_to SqlServerDialect GBase.
Definition CockroachDbDialect : Dialect := delegate_dialect_to PostgreSqlDialect CockroachDB.
Definition YugabyteDbDialect : Dialect := delegate_dialect_to PostgreSqlDialect YugabyteDB.
Definition RedshiftDialect : Dialect := delegate_dialect_to PostgreSqlDialect Redshift.

(** Neither the source, nor the query, nor the credentials are escaped. *)
Definition build_copy (target source credentials : string) : string :=
  "COPY " +:+ quote PostgreSqlDialect target +:+ " FROM '" +:+ source +:+ "' CREDENTIALS '"
  +:+ credentials +:+ "' FORMAT AS CSV".

Definition build_unload (query s3_path credentials : string) : string :=
  "UNLOAD ('" +:+ query +:+ "') TO '" +:+ s3_path +:+ "' CREDENTIALS '" +:+ credentials +:+ "'".

Definition get_dialect (t : DbType) : result Dialect DbError :=
  match t with
  | MySQL => Ok MySqlDialect
  | PostgreSQL => Ok PostgreSqlDialect
  | Sqlite => Ok SqliteDialect
  | Redis => Err (Unsupported "Redis does not support standard SQL dialect")
  | MongoDB => Err (Unsupported "MongoDB uses different query syntax")
  | ClickHouse => Ok ClickHouseDialect
  | Oracle => Ok OracleDialect
  | OceanBase => Ok OceanBaseDialect
  | SqlServer => Ok SqlServerDialect
  | VectorDb => Err (Unsupported "Vector databases have specific APIs")
  | PureJsDb => Err (Unsupported "PureJS database uses JavaScript")
  | Dameng => Ok DamengDialect
  | Kingbase => Ok KingbaseDialect
  | Db2 => Ok Db2Dialect
  | MariaDB => Ok MariaDbDialect
  | TiDB => Ok TiDbDialect
  | PolarDB => Ok PolarDbDialect
  | GaussDB => Ok GaussDbDialect
  | GBase => Ok GBaseDialect
  | Sybase => Ok SybaseDialect
  | DuckDB => Ok DuckDBDialect
  | CockroachDB => Ok CockroachDbDialect
  | YugabyteDB => Ok YugabyteDbDialect
  | Snowflake => Ok SnowflakeDialect
  | Redshift => Ok RedshiftDialect
  | Informix => Ok InformixDialect
  | SapHana => Ok SapHanaDialect
  | Firebird => Ok FirebirdDialect
  end.

(** * The lexical rules of the databases *)

(** The delimiters of identifiers and the escapes of literals, per database. *)
Definition spec_delims (t : DbType) : ascii * ascii :=
  match t with
  | MySQL | MariaDB | TiDB | OceanBase | ClickHouse => (backtick, backtick)
  | SqlServer | Sybase | GBase => ("["%char, "]"%char)
  | _ => (dquote, dquote)
  end.

Definition spec_backslash (t : DbType) : bool :=
  match t with
  | MySQL | MariaDB | TiDB | OceanBase | ClickHouse | Snowflake => true
  | _ => false
  end.

Lemma clickhouse_escape_char_scan c s :
  scan_quoted squote true (clickhouse_escape_char c +:+ s)
  = prod_map (String c) id <$> scan_quoted squote true s.
Proof. unfold clickhouse_escape_char. compare_char c. cbn. compare_char c. done. Qed.

Lemma clickhouse_escape_char_lex c : lex true LIn (clickhouse_escape_char c) = (LIn, EmptyString).
Proof. unfold clickhouse_escape_char. compare_char c. cbn. compare_char c. done. Qed.

Lemma snowflake_escape_char_scan c s :
  scan_quoted squote true (snowflake_escape_char c +:+ s)
  = prod_map (String c) id <$> scan_quoted squote true s.
Proof. unfold snowflake_escape_char. compare_char c. cbn. compare_char c. done. Qed.

Lemma snowflake_escape_char_lex c : lex true LIn (snowflake_escape_char c) = (LIn, EmptyString).
Proof. unfold snowflake_escape_char. compare_char c. cbn. compare_char c. done. Qed.

(** The laws of a dialect whose literals double their quotes. *)
Ltac doubling_laws op cl :=
  lazymatch goal with
  | |- DialectLaws ?d =>
      refine (delimited_laws d op cl false eq_refl (fun _ => eq_refl) _ (scan_doubled squote)
        lex_doubled)
  end.

#[export] Instance OracleDialect_laws : DialectLaws OracleDialect.
Proof.
  doubling_laws dquote dquote. intros identifier buf. exact (doubled_quote_into _ identifier buf).
Defined.
#[export] Instance SqlServerDialect_laws : DialectLaws SqlServerDialect.
Proof. doubling_laws "["%char "]"%char. done. Defined.
#[export] Instance Db2Dialect_laws : DialectLaws Db2Dialect.
Proof. doubling_laws dquote dquote. done. Defined.
#[export] Instance InformixDialect_laws : DialectLaws InformixDialect.
Proof. doubling_laws dquote dquote. done. Defined.
#[export] Instance SapHanaDialect_laws : DialectLaws SapHanaDialect.
Proof. doubling_laws dquote dquote. done. Defined.
#[export] Instance FirebirdDialect_laws : DialectLaws FirebirdDialect.
Proof. doubling_laws dquote dquote. done. Defined.
#[export] Instance DuckDBDialect_laws : DialectLaws DuckDBDialect.
Proof. doubling_laws dquote dquote. done. Defined.

#[export] Instance ClickHouseDialect_laws : DialectLaws ClickHouseDialect.
Proof.
  refine (delimited_laws ClickHouseDialect backtick backtick true eq_refl (fun _ => eq_refl)
    (fun _ _ => eq_refl) _ _).
  - apply scan_escaped, clickhouse_escape_char_scan.
  - apply lex_escaped, clickhouse_escape_char_lex.
Defined.

#[export] Instance SnowflakeDialect_laws : DialectLaws SnowflakeDialect.
Proof.
  refine (delimited_laws SnowflakeDialect dquote dquote true eq_refl (fun _ => eq_refl)
    (fun _ _ => eq_refl) _ _).
  - apply scan_escaped, snowflake_escape_char_scan.
  - apply lex_escaped, snowflake_escape_char_lex.
Defined.

(** Delegation keeps the laws. *)
#[export] Instance delegate_laws (base : Dialect) `{L : DialectLaws base} (t : DbType) :
  DialectLaws (delegate_dialect_to base t).
Proof.
  exact (Build_DialectLaws (delegate_dialect_to base t) (ident_open base) (ident_close base)
    (backslash_escapes base) ident_close_plain (fun _ _ => eq_refl) quote_scan quote_plain
    escape_scan escape_lex).
Defined.

(** Every dialect [get_dialect] returns is the one asked for and obeys the rules of its
    database. *)
Lemma get_dialect_laws (t : DbType) (d : Dialect) :
  get_dialect t = Ok d ->
  db_type d = t /\ exists L : DialectLaws d,
    (@ident_open d L, @ident_close d L) = spec_delims t /\ @backslash_escapes d L = spec_backslash t.
Proof.
  intros Hd. destruct t; try discriminate Hd; injection Hd as <-;
    (split; [done|eexists; split; reflexivity]).
Qed.

(** * Properties *)

(** C22. Every text survives quoting.  In each of the 24 dialects [get_dialect] returns, a quoted
    identifier reads back as the identifier whatever characters it contains, an escaped string
    between single quotes reads back as the string, also through the backslash escapes of the
    databases that have them, and contributes nothing but the two quotes to the text outside
    literals; [quote_into] appends what [quote] returns; and [quote_checked] accepts exactly the
    names of 1 to 63 letters, digits and underscores that do not begin with a digit, which
    it quotes unchanged. *)
Theorem quoting_round_trip (t : DbType) (d : Dialect) (identifier s rest buf : string) :
  get_dialect t = Ok d ->
  let (op, cl) := spec_delims t in
  let bs := spec_backslash t in
  (not_starting_with cl rest ->
     scan_token op cl false (quote d identifier +:+ rest) = Some (identifier, rest)) /\
  (not_starting_with squote rest ->
     scan_token squote squote bs (chr squote +:+ escape_string d s +:+ String squote rest)
     = Some (s, rest)) /\
  outside bs (chr squote +:+ escape_string d s +:+ chr squote) = Some "''" /\
  quote_into d identifier buf = buf +:+ quote d identifier /\
  (quote_checked d identifier = Ok (chr op +:+ identifier +:+ chr cl) <->
     (1 <= String.length identifier <= 63)%nat /\ all_chars identifier_char identifier = true /\
     (forall c r, identifier = String c r -> is_ascii_digit c = false)).
Proof.
  intros Hd. destruct (get_dialect_laws t d Hd) as (_ & L & Hq & Hb). rewrite <- Hq, <- Hb.
  cbv zeta. clear Hq Hb. split; [apply quote_scan|]. split; [intros; by apply escape_scan|]. split.
  { unfold outside. rewrite lex_app. change (lex _ LOut (chr squote)) with (LIn, chr squote).
    cbv iota beta. rewrite lex_app, escape_lex. done. }
  split; [apply quote_into_quote|].
  rewrite <- (validate_identifier_ok identifier "identifier"). unfold quote_checked.
  destruct (validate_identifier identifier "identifier") as [[]|e] eqn:Hv; cbn; [|done].
  split; [done|]. intros _. f_equal. apply quote_plain.
  apply validate_identifier_ok in Hv as (_ & Hall & _).
  exact (contains_char_all _ _ _ ident_close_plain Hall).
Qed.

Lemma quoting_round_trip_witness :
  scan_token "[" "]" false (quote GBaseDialect "a]b" +:+ " = 1") = Some ("a]b", " = 1") /\
  scan_token squote squote true (chr squote +:+ escape_string SnowflakeDialect "it\'s" +:+ "'; --")
  = Some ("it\'s", "; --").
Proof.
  split.
  - exact (proj1 (quoting_round_trip GBase GBaseDialect "a]b" "" " = 1" "" eq_refl)
      ltac:(done)).
  - exact (proj1 (proj2 (quoting_round_trip Snowflake SnowflakeDialect "" "it\'s" "; --" "" eq_refl))
      ltac:(done)).
Defined.

(** The clause that limits a query to the rows [offset + 1] to [offset + limit]. *)
Definition page_clause (t : DbType) (limit offset : Z) : string :=
  match t with
  | Oracle | Dameng | SqlServer | Sybase | GBase | Db2 =>
      " OFFSET " +:+ pretty offset +:+ " ROWS FETCH NEXT " +:+ pretty limit +:+ " ROWS ONLY"
  | ClickHouse | Snowflake => " LIMIT " +:+ pretty offset +:+ ", " +:+ pretty limit
  | Informix => " SKIP " +:+ pretty offset +:+ " FIRST " +:+ pretty limit
  | Firebird =>
      " ROWS " +:+ pretty (wrap64 (offset + 1)) +:+ " TO " +:+ pretty (wrap64 (offset + limit))
  | _ => " LIMIT " +:+ pretty limit +:+ " OFFSET " +:+ pretty offset
  end.

Lemma build_pagination_clauses (t : DbType) (d : Dialect) (sql : string) (page limit : Z) :
  get_dialect t = Ok d ->
  build_pagination d sql page limit
  = sql +:+ page_clause t limit (saturating_mul (saturating_sub page 1) limit).
Proof. intros Hd. destruct t; try discriminate Hd; by injection Hd as <-. Qed.

(** The pages of a query tile its rows.  In each dialect [build_pagination] appends the
    window of a limit and an offset that fits in [u64]; page 0 is page 1; a row number lies in
    the window of page [page] exactly when [page] is one more than its quotient by the page
    size, so each row is on one page; and past the last representable offset the offset
    saturates.  Firebird's clause names the first and the last row of the window as long as the
    last is representable: the sums are not saturating. *)
Theorem pages_tile (t : DbType) (d : Dialect) (sql : string) (page limit : Z) :
  get_dialect t = Ok d -> (0 <= page < 2 ^ 64)%Z -> (0 <= limit < 2 ^ 64)%Z ->
  build_pagination d sql 0 limit = build_pagination d sql 1 limit /\
  exists offset,
    build_pagination d sql page limit = sql +:+ page_clause t limit offset /\
    (0 <= offset < 2 ^ 64)%Z /\
    ((1 <= page)%Z -> ((page - 1) * limit < 2 ^ 64)%Z -> forall row, (0 <= row)%Z ->
       (offset <= row < offset + limit <-> 0 < limit /\ row / limit = page - 1)%Z) /\
    ((2 ^ 64 <= (page - 1) * limit)%Z -> offset = (2 ^ 64 - 1)%Z) /\
    (t = Firebird -> (0 < limit)%Z -> (offset + limit < 2 ^ 64)%Z ->
       page_clause t limit offset
       = " ROWS " +:+ pretty (offset + 1)%Z +:+ " TO " +:+ pretty (offset + limit)%Z).
Proof.
  intros Hd Hp Hl. pose proof (build_pagination_clauses t d sql) as Hb.
  split; [by rewrite !Hb|]. exists (saturating_mul (saturating_sub page 1) limit).
  split; [by apply Hb|]. unfold saturating_mul, saturating_sub, u64_max.
  split; [nia|]. split; [|split; [intros; rewrite Z.max_r by nia; lia|]].
  - intros H1 Hs row Hrow. rewrite Z.max_r by lia. rewrite Z.min_r by lia. split.
    + intros Hr. split; [lia|]. symmetry. apply (Z.div_unique_pos _ _ _ (row - (page - 1) * limit)); lia.
    + intros [Hpos Hq]. pose proof (Z.div_mod row limit). pose proof (Z.mod_pos_bound row limit Hpos).
      nia.
  - intros -> Hpos Hsum. cbn [page_clause]. by rewrite !wrap64_small by nia.
Qed.

Lemma pages_tile_witness :
  exists offset, build_pagination FirebirdDialect "SELECT 1" 3 10
    = "SELECT 1" +:+ page_clause Firebird 10 offset /\ (offset <= 25 < offset + 10)%Z.
Proof.
  destruct (pages_tile Firebird FirebirdDialect "SELECT 1" 3 10 eq_refl) as (_ & off & Hb & _ & Ht & _);
    [lia|lia|].
  exists off. split; [exact Hb|]. apply Ht; [lia|lia|lia|]. split; [lia|reflexivity].
Defined.

(** Past the largest [u64] the last row of Firebird's window comes before the first. *)
Lemma firebird_window_wraps :
  build_pagination FirebirdDialect "SELECT 1" 2 (2 ^ 63)
  = "SELECT 1 ROWS 9223372036854775809 TO 0".
Proof. vm_compute. reflexivity. Qed.

(** A delegating dialect has no upsert, whatever its base has. *)
Lemma delegates_have_no_upsert (base : Dialect) (t : DbType) conflict update all :
  build_upsert_on_conflict (delegate_dialect_to base t) conflict update all = None.
Proof. reflexivity. Qed.

(** The dialects that report row locks but have no clause for them. *)
Definition lock_clause_missing (t : DbType) : bool :=
  match t with
  | Db2 | Snowflake | Informix | SapHana | Firebird => true
  | _ => false
  end.

(** A dialect reports a lock exactly when it has a clause for it, but for those. *)
Lemma lock_support (t : DbType) (d : Dialect) :
  get_dialect t = Ok d ->
  supports_lock_for_update d
  = (is_some (build_lock_clause d ForUpdate) || lock_clause_missing t) /\
  supports_lock_shared d = (is_some (build_lock_clause d SharedLock) || lock_clause_missing t) /\
  (lock_clause_missing t = true ->
     build_lock_clause d ForUpdate = None /\ build_lock_clause d SharedLock = None).
Proof. intros Hd. destruct t; try discriminate Hd; injection Hd as <-; done. Qed.
