(* ===== verification/Value.v ===== *)
(** Database values: [packages/sz-orm-core/src/value.rs].  The value type, its numeric
    accessors and its rendering as SQL text. *)

From Stdlib Require Import Ascii String SpecFloat.
From S2P Require Import Prelude SqlText Dialect Dialects.
Local Open Scope string_scope.
#[local] Arguments String.append !_ _ : simpl nomatch.

(** * The value type

    An [n]-bit integer is a [Z] (see [wf_value]), a float its IEEE 754 datum, a byte an
    [ascii].  [BoxedStr] comes with the feature [perf-box-str], which is a default one. *)
Inductive Value : Type :=
| VNull
| VBool (b : bool)
| VI8 (v : Z) | VI16 (v : Z) | VI32 (v : Z) | VI64 (v : Z)
| VU8 (v : Z) | VU16 (v : Z) | VU32 (v : Z) | VU64 (v : Z)
| VF32 (v : spec_float) | VF64 (v : spec_float)
| VDecimal (s : string)
| VString (s : string)
| VBytes (b : list ascii)
| VUuid (s : string)
| VDate (s : string)
| VDateTime (s : string)
| VTime (s : string)
| VJson (s : string)
| VArray (vs : list Value)
| VObject (m : gmap string Value)
| VBoxedStr (s : string).

Definition in_range (lo hi z : Z) : bool := ((lo <=? z) && (z <=? hi))%Z.

Definition i8_min : Z := - 2 ^ 7.
Definition i8_max : Z := 2 ^ 7 - 1.
Definition i16_min : Z := - 2 ^ 15.
Definition i16_max : Z := 2 ^ 15 - 1.
Definition i32_min : Z := - 2 ^ 31.
Definition i32_max : Z := 2 ^ 31 - 1.
Definition i64_min : Z := - 2 ^ 63.
Definition i64_max : Z := 2 ^ 63 - 1.
Definition u8_max : Z := 2 ^ 8 - 1.
Definition u16_max : Z := 2 ^ 16 - 1.
Definition u32_max : Z := 2 ^ 32 - 1.

(** The integers of a value fit their types. *)
Definition wf_value (v : Value) : bool :=
  match v with
  | VI8 z => in_range i8_min i8_max z
  | VI16 z => in_range i16_min i16_max z
  | VI32 z => in_range i32_min i32_max z
  | VI64 z => in_range i64_min i64_max z
  | VU8 z => in_range 0 u8_max z
  | VU16 z => in_range 0 u16_max z
  | VU32 z => in_range 0 u32_max z
  | VU64 z => in_range 0 u64_max z
  | _ => true
  end.

(** * Conversions of the language *)

(** [T::try_from(z).ok()] between integer types *)
Definition try_from (lo hi z : Z) : option Z := if in_range lo hi z then Some z else None.

(** [f as T]: truncation towards zero, saturating, 0 for NaN. *)
Definition float_to_int (lo hi : Z) (f : spec_float) : Z :=
  match f with
  | S754_zero _ | S754_nan => 0
  | S754_infinity s => if s then lo else hi
  | S754_finite s m e =>
      let a := Z.shiftl (Zpos m) e in Z.max lo (Z.min hi (if s then - a else a))
  end.

(** [z as f64] and [f as f64] for an [f32]: round to nearest, ties to even. *)
Definition int_to_f64 (z : Z) : spec_float := binary_normalize 53 1024 z 0 false.

Definition f32_to_f64 (f : spec_float) : spec_float :=
  match f with
  | S754_finite s m e => binary_normalize 53 1024 (cond_Zopp s (Zpos m)) e s
  | _ => f
  end.

(** [f != 0.0]: also of NaN. *)
Definition float_nonzero (f : spec_float) : bool :=
  match f with S754_zero _ => false | _ => true end.

Fixpoint parse_digits (acc : Z) (s : string) : option Z :=
  match s with
  | EmptyString => Some acc
  | String c s =>
      if is_ascii_digit c then parse_digits (acc * 10 + (Z.of_nat (nat_of_ascii c) - 48)) s
      else None
  end.

(** [s.parse::<T>().ok()] of an integer type: an optional sign ([-] only of a signed
    type), at least one digit, and a result in range. *)
Definition parse_int (signed : bool) (lo hi : Z) (s : string) : option Z :=
  let digits (sgn : Z) (s : string) :=
    match s with
    | EmptyString => None
    | _ => z ← parse_digits 0 s; try_from lo hi (sgn * z)
    end in
  match s with
  | String "+" s' => digits 1%Z s'
  | String "-" s' => if signed then digits (-1)%Z s' else None
  | _ => digits 1%Z s
  end.

(** Lower case of the ASCII letters.  [str::to_lowercase] also maps other characters, but
    no text with one becomes a word [as_bool] compares with: of these only the Kelvin
    sign and the dotted capital I have an ASCII letter in their image, a [k] and an [i]
    followed by a combining dot. *)
Definition to_lowercase : string -> string :=
  concat_map (fun c =>
    chr (if ascii_in "A" "Z" c then ascii_of_nat (nat_of_ascii c + 32) else c)).

(** [str::to_lowercase], as far as an ASCII text can occur in the result: of the
    characters outside ASCII only the Kelvin sign becomes an ASCII letter, and the dotted
    capital I one followed by a combining dot; the others stay outside ASCII. *)
Fixpoint lowercase (s : string) : string :=
  match s with
  | EmptyString => EmptyString
  | String "226" (String "132" (String "170" s)) => String "k" (lowercase s)
  | String "196" (String "176" s) => String "i" (String "204" (String "135" (lowercase s)))
  | String c s => to_lowercase (chr c) +:+ lowercase s
  end.

(** * Accessors *)

Definition is_null (v : Value) : bool := match v with VNull => true | _ => false end.

Definition as_str (v : Value) : option string :=
  match v with
  | VString s => Some s
  | VDecimal s => Some s
  | _ => None
  end.

Definition as_i64 (v : Value) : option Z :=
  match v with
  | VI8 v | VI16 v | VI32 v | VI64 v => Some v
  | VU8 v | VU16 v | VU32 v => Some v
  | VU64 v => try_from i64_min i64_max v
  | VF32 v | VF64 v => Some (float_to_int i64_min i64_max v)
  | VBool v => Some (if v then 1 else 0)%Z
  | VString s | VDecimal s => parse_int true i64_min i64_max s
  | _ => None
  end.

Definition as_i32 (v : Value) : option Z :=
  match v with
  | VI8 v | VI16 v | VI32 v => Some v
  | VI64 v => try_from i32_min i32_max v
  | VU8 v | VU16 v => Some v
  | VU32 v | VU64 v => try_from i32_min i32_max v
  | VF32 v | VF64 v => Some (float_to_int i32_min i32_max v)
  | VBool v => Some (if v then 1 else 0)%Z
  | VString s | VDecimal s => parse_int true i32_min i32_max s
  | _ => None
  end.

Definition as_u32 (v : Value) : option Z :=
  match v with
  | VI8 v | VI16 v | VI32 v | VI64 v => try_from 0 u32_max v
  | VU8 v | VU16 v | VU32 v => Some v
  | VU64 v => try_from 0 u32_max v
  | VF32 v | VF64 v => Some (float_to_int 0 u32_max v)
  | VBool v => Some (if v then 1 else 0)%Z
  | VString s | VDecimal s => parse_int false 0 u32_max s
  | _ => None
  end.

Definition as_u64 (v : Value) : option Z :=
  match v with
  | VI8 v | VI16 v | VI32 v | VI64 v => try_from 0 u64_max v
  | VU8 v | VU16 v | VU32 v => Some v
  | VU64 v => Some v
  | VF32 v | VF64 v => Some (float_to_int 0 u64_max v)
  | VBool v => Some (if v then 1 else 0)%Z
  | VString s | VDecimal s => parse_int false 0 u64_max s
  | _ => None
  end.

Definition as_bool (v : Value) : option bool :=
  match v with
  | VBool v => Some v
  | VI8 v | VI16 v | VI32 v | VI64 v | VU8 v | VU16 v | VU32 v | VU64 v =>
      Some (negb (v =? 0)%Z)
  | VF32 v | VF64 v => Some (float_nonzero v)
  | VString s =>
      let l := to_lowercase s in
      if bool_decide (l ∈ ["1"; "true"; "yes"; "on"]) then Some true
      else if bool_decide (l ∈ ["0"; "false"; "no"; "off"]) then Some false
      else None
  | VNull => Some false
  | _ => None
  end.

Definition as_bytes (v : Value) : option (list ascii) :=
  match v with
  | VBytes b => Some b
  | VString s => Some (String.list_ascii_of_string s)
  | _ => None
  end.

(** * Rendering *)

(** [Display] and [FromStr] of the floats.  The library documents that [Display] writes
    digits, a sign, a point, [inf] or [NaN]. *)
Definition float_char (c : ascii) : bool :=
  is_ascii_alphanumeric c || Ascii.eqb c "." || Ascii.eqb c "-".

Class FloatText : Type := {
  f32_to_string : spec_float -> string;
  f64_to_string : spec_float -> string;
  parse_f64 : string -> option spec_float;
  f32_to_string_chars : forall f, all_chars float_char (f32_to_string f) = true;
  f64_to_string_chars : forall f, all_chars float_char (f64_to_string f) = true;
}.

Definition hex_digit (z : nat) : ascii :=
  default "0"%char (String.list_ascii_of_string "0123456789abcdef" !! z).

Definition hex_encode (bytes : list ascii) : string :=
  join "" ((fun b => String (hex_digit (nat_of_ascii b / 16)) (chr (hex_digit (nat_of_ascii b mod 16))))
             <$> bytes).

(** The free function [escape_string] of [value.rs]. *)
Definition value_escape_string (s : string) : string :=
  concat_map (fun c => if Ascii.eqb c squote then "''" else chr c) s.

Section Render.
Context `{FloatText}.

Definition as_f64 (v : Value) : option spec_float :=
  match v with
  | VF32 v => Some (f32_to_f64 v)
  | VF64 v => Some v
  | VI8 v | VI16 v | VI32 v | VI64 v | VU8 v | VU16 v | VU32 v | VU64 v => Some (int_to_f64 v)
  | VBool v => Some (int_to_f64 (if v then 1 else 0))
  | VDecimal s => parse_f64 s
  | _ => None
  end.

Fixpoint to_param (v : Value) : string :=
  match v with
  | VNull => "NULL"
  | VBool b => if b then "TRUE" else "FALSE"
  | VI8 v | VI16 v | VI32 v | VI64 v | VU8 v | VU16 v | VU32 v | VU64 v => pretty v
  | VF32 v => f32_to_string v
  | VF64 v => f64_to_string v
  | VDecimal s => s
  | VString s | VBoxedStr s => "'" +:+ value_escape_string s +:+ "'"
  | VBytes b => "X'" +:+ hex_encode b +:+ "'"
  | VUuid s | VDate s | VDateTime s | VTime s | VJson s => "'" +:+ value_escape_string s +:+ "'"
  | VArray arr => "(" +:+ join ", " (to_param <$> arr) +:+ ")"
  | VObject _ => "NULL"
  end.

Fixpoint to_param_with_dialect (dialect : Dialect) (v : Value) : string :=
  match v with
  | VNull => "NULL"
  | VBool b => if b then "TRUE" else "FALSE"
  | VI8 v | VI16 v | VI32 v | VI64 v | VU8 v | VU16 v | VU32 v | VU64 v => pretty v
  | VF32 v => f32_to_string v
  | VF64 v => f64_to_string v
  | VDecimal s => s
  | VString s | VBoxedStr s => "'" +:+ escape_string dialect s +:+ "'"
  | VBytes b => "X'" +:+ hex_encode b +:+ "'"
  | VUuid s | VDate s | VDateTime s | VTime s | VJson s =>
      "'" +:+ escape_string dialect s +:+ "'"
  | VArray arr => "(" +:+ join ", " (to_param_with_dialect dialect <$> arr) +:+ ")"
  | VObject _ => "NULL"
  end.
End Render.

(** Induction through the elements of arrays. *)
Lemma Value_array_ind (P : Value -> Prop) :
  (forall vs, Forall P vs -> P (VArray vs)) ->
  (forall v, (forall vs, v <> VArray vs) -> P v) -> forall v, P v.
Proof.
  intros Harr Hrest. fix IH 1. intros v.
  destruct v; try (apply Hrest; intros; discriminate).
  apply Harr. induction vs as [|v vs IHvs]; constructor; [apply IH|apply IHvs].
Qed.

(** * Decimal text of integers *)

Lemma digit_char_spec (x : N) : (x < 10)%N ->
  is_ascii_digit (pretty_N_char x) = true /\
  (Z.of_nat (nat_of_ascii (pretty_N_char x)) - 48)%Z = Z.of_N x.
Proof.
  intros Hx.
  assert (x = 0 \/ x = 1 \/ x = 2 \/ x = 3 \/ x = 4 \/ x = 5 \/ x = 6 \/ x = 7 \/ x = 8 \/ x = 9)%N
    as Hc by lia.
  repeat destruct Hc as [ -> | Hc ]; try (split; reflexivity). subst x. split; reflexivity.
Qed.

Lemma pretty_go_digits (x : N) s :
  all_chars is_ascii_digit s = true ->
  all_chars is_ascii_digit (pretty_N_go x s) = true /\
  exists k, (0 <= k)%Z /\ forall a,
    parse_digits a (pretty_N_go x s) = parse_digits (a * 10 ^ k + Z.of_N x) s.
Proof.
  revert s. induction (N.lt_wf_0 x) as [x _ IH]. intros s Hs.
  destruct (decide (x = 0)%N) as [->|Hx].
  { rewrite pretty_N_go_0. split; [done|]. exists 0%Z. split; [done|]. intros a. f_equal. lia. }
  rewrite pretty_N_go_step by lia.
  destruct (digit_char_spec (x mod 10)) as [Hd Hv]; [apply N.mod_lt; lia|].
  destruct (IH (x / 10)%N (N.div_lt x 10 ltac:(lia) ltac:(lia))
    (String (pretty_N_char (x mod 10)) s)) as (Hall & k & Hk & Hp).
  { cbn [all_chars]. by rewrite Hd, Hs. }
  split; [done|]. exists (k + 1)%Z. split; [lia|]. intros a. rewrite Hp.
  cbn [parse_digits]. rewrite Hd, Hv. f_equal.
  rewrite N2Z.inj_mod, N2Z.inj_div, Z.pow_add_r by lia. change (10 ^ 1)%Z with 10%Z.
  pose proof (Z.div_mod (Z.of_N x) 10). lia.
Qed.

Lemma pretty_N_go_pos (x : N) s : s <> EmptyString -> pretty_N_go x s <> EmptyString.
Proof.
  revert s. induction (N.lt_wf_0 x) as [x _ IH]. intros s Hs.
  destruct (decide (x = 0)%N) as [->|Hx]; [by rewrite pretty_N_go_0|].
  rewrite pretty_N_go_step by lia. apply IH; [apply N.div_lt; lia|done].
Qed.

Lemma pretty_N_digits (x : N) :
  all_chars is_ascii_digit (pretty x) = true /\ parse_digits 0 (pretty x) = Some (Z.of_N x) /\
  pretty x <> EmptyString.
Proof.
  unfold pretty, pretty_N. case_decide as Hx; [by subst|].
  destruct (pretty_go_digits x "") as (Hall & k & _ & Hp); [done|]. split; [done|].
  split; [by rewrite Hp|]. rewrite pretty_N_go_step by lia. by apply pretty_N_go_pos.
Qed.

(** Printing and parsing an integer. *)
Lemma parse_int_pretty signed lo hi z :
  (lo <= 0 <= hi)%Z -> (signed = false -> lo = 0%Z) ->
  parse_int signed lo hi (pretty z) = try_from lo hi z.
Proof.
  intros Hb Hs.
  assert (Hdig : forall x : N, parse_int signed lo hi (pretty x) = try_from lo hi (Z.of_N x)).
  { intros x. destruct (pretty_N_digits x) as (Hall & Hp & Hne).
    destruct (pretty x) as [|c r]; [done|]. unfold parse_int. rewrite Hp.
    cbn [mbind option_bind]. rewrite Z.mul_1_l.
    cbn [all_chars] in Hall. apply andb_true_iff in Hall as [Hc _].
    destruct c as [[] [] [] [] [] [] [] []]; try discriminate Hc; reflexivity. }
  destruct z as [|p|p]; [apply (Hdig 0%N)|apply (Hdig (Npos p))|].
  change (pretty (Zneg p)) with ("-" +:+ pretty (Npos p)).
  destruct (pretty_N_digits (Npos p)) as (_ & Hp & Hne). cbn [String.append].
  unfold parse_int. destruct signed.
  - destruct (pretty (Npos p)); [done|]. rewrite Hp. done.
  - unfold try_from, in_range. rewrite (Hs eq_refl). by rewrite (proj2 (Z.leb_gt _ _)).
Qed.

Lemma pretty_Z_chars (z : Z) : all_chars float_char (pretty z) = true.
Proof.
  assert (Hn : forall x : N, all_chars float_char (pretty x) = true).
  { intros x. eapply all_chars_impl; [|apply pretty_N_digits]. intros c Hc.
    unfold float_char, is_ascii_alphanumeric. by rewrite Hc, orb_true_r. }
  destruct z as [|p|p]; [done|apply (Hn (Npos p))|].
  change (pretty (Zneg p)) with ("-" +:+ pretty (Npos p)). rewrite all_chars_app, Hn. done.
Qed.

(** * The integer accessors *)

(** The integer a value denotes. *)
Definition int_value (v : Value) : option Z :=
  match v with
  | VI8 z | VI16 z | VI32 z | VI64 z | VU8 z | VU16 z | VU32 z | VU64 z => Some z
  | VBool b => Some (if b then 1 else 0)%Z
  | _ => None
  end.

Lemma try_from_in lo hi z : in_range lo hi z = true -> try_from lo hi z = Some z.
Proof. intros H. unfold try_from. by rewrite H. Qed.

Lemma try_from_Some lo hi z n : try_from lo hi z = Some n -> z = n /\ (lo <= n <= hi)%Z.
Proof. unfold try_from, in_range. case_match eqn:H; [|done]. intros [= <-]. lia. Qed.

Lemma in_range_weaken lo hi lo' hi' z :
  (lo' <= lo)%Z -> (hi <= hi')%Z -> in_range lo hi z = true -> in_range lo' hi' z = true.
Proof. unfold in_range. lia. Qed.

Lemma parse_int_range signed lo hi s n :
  parse_int signed lo hi s = Some n -> (lo <= n <= hi)%Z.
Proof.
  assert (Hg : forall sgn s, match s with
    | EmptyString => None
    | _ => z ← parse_digits 0 s; try_from lo hi (sgn * z) end = Some n -> (lo <= n <= hi)%Z).
  { intros sgn [|c r]; [done|]. destruct (parse_digits 0 (String c r)) as [z|]; [|done].
    cbn. by intros [_ ?]%try_from_Some. }
  destruct s as [|c r]; [done|].
  destruct c as [[] [] [] [] [] [] [] []]; first [exact (Hg 1%Z (String _ r)) | exact (Hg 1%Z r) | idtac].
  unfold parse_int. destruct signed; [exact (Hg (-1)%Z r)|done].
Qed.

Lemma float_to_int_range lo hi f : (lo <= 0 <= hi)%Z -> (lo <= float_to_int lo hi f <= hi)%Z.
Proof. intros. destruct f as [s|s| |s m e]; cbn; [lia|destruct s; lia|lia|lia]. Qed.

Ltac int_bounds := unfold i8_min, i8_max, i16_min, i16_max, i32_min, i32_max, i64_min, i64_max,
  u8_max, u16_max, u32_max, u64_max in *.

(** The four integer accessors are exact.  A well-formed integer or boolean value is
    returned when it fits the requested type and refused otherwise, never truncated; so is the
    decimal text of an integer; and whatever the value, also a float, what an accessor
    returns lies in the range of its type. *)
Theorem int_accessors_exact (v : Value) :
  wf_value v = true ->
  (forall z, int_value v = Some z ->
     as_i64 v = try_from i64_min i64_max z /\ as_i32 v = try_from i32_min i32_max z /\
     as_u32 v = try_from 0 u32_max z /\ as_u64 v = try_from 0 u64_max z) /\
  (forall z, v = VString (pretty z) ->
     as_i64 v = try_from i64_min i64_max z /\ as_i32 v = try_from i32_min i32_max z /\
     as_u32 v = try_from 0 u32_max z /\ as_u64 v = try_from 0 u64_max z) /\
  (forall n, as_i64 v = Some n -> (- 2 ^ 63 <= n < 2 ^ 63)%Z) /\
  (forall n, as_i32 v = Some n -> (- 2 ^ 31 <= n < 2 ^ 31)%Z) /\
  (forall n, as_u32 v = Some n -> (0 <= n < 2 ^ 32)%Z) /\
  (forall n, as_u64 v = Some n -> (0 <= n < 2 ^ 64)%Z).
Proof.
  intros Hwf. split.
  { intros z Hz. destruct v; cbn in Hz; try discriminate; injection Hz as <-; cbn in Hwf |- *;
      try (destruct b); split_and!; try reflexivity; symmetry; apply try_from_in;
      revert Hwf; apply in_range_weaken; int_bounds; lia. }
  split.
  { intros z ->. cbn. rewrite !parse_int_pretty by (int_bounds; lia || done). done. }
  split_and!; intros n Hn; destruct v; cbn in Hwf, Hn; try discriminate;
    try (apply try_from_Some in Hn as [_ Hn]); try (apply parse_int_range in Hn);
    try (destruct b); try (injection Hn as <-); unfold in_range in *;
    try match goal with |- context [float_to_int ?lo ?hi ?f] =>
      pose proof (float_to_int_range lo hi f) end; int_bounds; lia.
Qed.

Lemma int_accessors_exact_witness :
  as_i64 (VU64 (2 ^ 63)) = None /\ as_u32 (VI32 (-1)) = None /\
  as_i32 (VString (pretty (-7)%Z)) = Some (-7)%Z.
Proof.
  split_and!.
  - exact (proj1 (proj1 (int_accessors_exact (VU64 (2 ^ 63)) eq_refl) (2 ^ 63)%Z eq_refl)).
  - exact (proj1 (proj2 (proj2 (proj1 (int_accessors_exact (VI32 (-1)) eq_refl) (-1)%Z eq_refl)))).
  - exact (proj1 (proj2 (proj1 (proj2 (int_accessors_exact (VString (pretty (-7)%Z)) eq_refl))
      (-7)%Z eq_refl))).
Defined.

(** * Values in statements *)

(** The value without the contents of its strings and bytes. *)
Fixpoint mask (v : Value) : Value :=
  match v with
  | VString _ => VString ""
  | VBytes _ => VBytes []
  | VUuid _ => VUuid ""
  | VDate _ => VDate ""
  | VDateTime _ => VDateTime ""
  | VTime _ => VTime ""
  | VJson _ => VJson ""
  | VBoxedStr _ => VBoxedStr ""
  | VArray vs => VArray (mask <$> vs)
  | _ => v
  end.

Fixpoint decimal_free (v : Value) : bool :=
  match v with
  | VDecimal _ => false
  | VArray vs => forallb decimal_free vs
  | _ => true
  end.

(** A text whose literals are closed and that reads as [t] outside them, also when other
    text follows. *)
Definition closed_text (bs : bool) (s t : string) : Prop :=
  outside bs s = Some t /\
  forall c r, c <> squote ->
    lex bs LOut (s +:+ String c r) =
    let '(st, o) := lex bs LOut (String c r) in (st, t +:+ o).

Lemma closed_plain bs s : contains_char squote s = false -> closed_text bs s s.
Proof.
  intros Hs. split; [unfold outside; by rewrite lex_plain|]. intros c r _.
  rewrite lex_app, lex_plain by done. done.
Qed.

Lemma closed_app bs s1 t1 s2 t2 :
  closed_text bs s1 t1 -> closed_text bs s2 t2 -> not_starting_with squote s2 -> s2 <> "" ->
  closed_text bs (s1 +:+ s2) (t1 +:+ t2).
Proof.
  intros [_ Hl1] [Ho2 Hl2] Hns Hne. destruct s2 as [|c2 r2]; [done|]. split.
  - unfold outside in *. rewrite Hl1 by done.
    destruct (lex bs LOut (String c2 r2)) as [[] o]; cbn in *; try discriminate;
      injection Ho2 as <-; by rewrite ?str_app_assoc.
  - intros c r Hc. rewrite str_app_assoc. change (String c2 r2 +:+ String c r) with
      (String c2 (r2 +:+ String c r)). rewrite Hl1 by done.
    change (String c2 (r2 +:+ String c r)) with (String c2 r2 +:+ String c r).
    rewrite Hl2 by done. destruct (lex bs LOut (String c r)) as [st o].
    by rewrite str_app_assoc.
Qed.

(** A literal with prefix [p]: the quoted text is lexed away. *)
Lemma closed_literal bs p body :
  contains_char squote p = false -> lex bs LIn body = (LIn, "") ->
  closed_text bs (p +:+ "'" +:+ body +:+ "'") (p +:+ "''").
Proof.
  intros Hp Hb.
  assert (Hl : lex bs LOut (p +:+ "'" +:+ body +:+ "'") = (LQuote, p +:+ "'")).
  { rewrite lex_app, lex_plain by done. rewrite (lex_app bs LOut "'").
    change (lex bs LOut "'") with (LIn, "'"). cbv iota beta. rewrite lex_app, Hb.
    reflexivity. }
  split.
  - unfold outside. rewrite Hl. by rewrite str_app_assoc.
  - intros c r Hc. rewrite lex_app, Hl. cbn [lex]. unfold lex_step.
    rewrite (proj2 (Ascii.eqb_neq _ _) Hc). destruct (lex bs LOut r) as [st o].
    by rewrite !str_app_assoc.
Qed.

Lemma closed_join bs sep (l : list (string * string)) :
  contains_char squote sep = false -> sep <> "" ->
  Forall (fun p => closed_text bs (fst p) (snd p)) l ->
  closed_text bs (join sep (fst <$> l)) (join sep (snd <$> l)).
Proof.
  intros Hs Hne. induction 1 as [|[s t] l Hx Hl IH]; [by apply closed_plain|].
  destruct l as [|[s' t'] l]; [done|].
  change (join sep (fst <$> (s, t) :: (s', t') :: l)) with
    (s +:+ sep +:+ join sep (fst <$> (s', t') :: l)).
  change (join sep (snd <$> (s, t) :: (s', t') :: l)) with
    (t +:+ sep +:+ join sep (snd <$> (s', t') :: l)).
  assert (closed_text bs (sep +:+ join sep (fst <$> (s', t') :: l))
    (sep +:+ join sep (snd <$> (s', t') :: l))) as Hrest.
  { revert IH. generalize (join sep (fst <$> (s', t') :: l)), (join sep (snd <$> (s', t') :: l)).
    intros S T [Ho Hr]. split.
    - unfold outside in *. rewrite lex_app, lex_plain by done.
      destruct (lex bs LOut _) as [[] o]; try discriminate; injection Ho as <-;
        by rewrite ?str_app_assoc.
    - intros c r Hc. rewrite str_app_assoc, lex_app, lex_plain, Hr by done.
      destruct (lex bs LOut (String c r)). by rewrite str_app_assoc. }
  apply closed_app; [exact Hx|exact Hrest| |by destruct sep].
  destruct sep as [|c sep]; [done|]. cbn in Hs |- *. apply orb_false_iff in Hs as [Hs _].
  by apply Ascii.eqb_neq in Hs.
Qed.

Definition hex_byte (x : ascii) : string :=
  String (hex_digit (nat_of_ascii x / 16)) (chr (hex_digit (nat_of_ascii x mod 16))).

Lemma hex_encode_cons x (b : list ascii) : hex_encode (x :: b) = hex_byte x +:+ hex_encode b.
Proof. destruct b; [|done]. change (hex_encode [x]) with (hex_byte x). by rewrite str_app_nil_r. Qed.

Lemma hex_encode_plain bs (b : list ascii) : lex bs LIn (hex_encode b) = (LIn, "").
Proof.
  assert (Hd : forall n, lex bs LIn (chr (hex_digit n)) = (LIn, "")).
  { intros n. unfold hex_digit. do 16 (destruct n as [|n]; [by destruct bs|]). by destruct bs. }
  assert (Hh : forall x, lex bs LIn (hex_byte x) = (LIn, "")).
  { intros x. change (hex_byte x) with
      (chr (hex_digit (nat_of_ascii x / 16)) +:+ chr (hex_digit (nat_of_ascii x mod 16))).
    rewrite lex_app, Hd. cbv iota beta. by rewrite Hd. }
  induction b as [|x b IH]; [done|]. rewrite hex_encode_cons, lex_app, Hh. cbv iota beta.
  by rewrite IH.
Qed.

Lemma float_chars_plain s : all_chars float_char s = true -> contains_char squote s = false.
Proof. by apply contains_char_all. Qed.

Section Inert.
Context `{FloatText} (d : Dialect) `{L : DialectLaws d}.

Lemma param_closed (v : Value) : decimal_free v = true ->
  closed_text (backslash_escapes d) (to_param_with_dialect d v) (to_param_with_dialect d (mask v)).
Proof.
  assert (Hempty : escape_string d "" = "").
  { pose proof (escape_scan "" "") as Hs. pose proof (escape_lex "") as Hl.
    destruct (escape_string d "") as [|c r]; [done|]. cbn in Hs, Hl.
    specialize (Hs I). unfold lex_step in Hl.
    destruct (Ascii.eqb c squote) eqn:Hc.
    - destruct r as [|c2 r]; cbn in Hs; [done|]. destruct (Ascii.eqb c2 squote).
      + destruct (scan_quoted _ _ _) as [[? ?]|]; discriminate.
      + injection Hs as Hs. destruct r; discriminate.
    - destruct (backslash_escapes d && Ascii.eqb c backslash).
      + destruct r as [|e r]; cbn in Hs; [discriminate|].
        destruct (scan_quoted _ _ _) as [[x y]|]; [|discriminate]. cbn in Hs.
        injection Hs as Hs _. exfalso. revert Hs. clear.
        destruct e as [[] [] [] [] [] [] [] []]; discriminate.
      + destruct (scan_quoted _ _ _) as [[? ?]|]; discriminate. }
  assert (Hlit : forall s, closed_text (backslash_escapes d) ("'" +:+ escape_string d s +:+ "'")
    ("'" +:+ escape_string d "" +:+ "'")).
  { intros s. rewrite Hempty. apply (closed_literal _ ""); [done|apply escape_lex]. }
  induction v as [vs IH|v Hv] using Value_array_ind.
  - cbn [decimal_free mask to_param_with_dialect]. intros Hdf.
    assert (closed_text (backslash_escapes d) (join ", " (to_param_with_dialect d <$> vs))
      (join ", " (to_param_with_dialect d <$> (mask <$> vs)))) as Hj.
    { pose proof (closed_join (backslash_escapes d) ", "
        ((fun v => (to_param_with_dialect d v, to_param_with_dialect d (mask v))) <$> vs)
        eq_refl ltac:(done)) as Hj.
      rewrite <- !list_fmap_compose in Hj. rewrite <- list_fmap_compose. apply Hj.
      apply Forall_fmap.
      apply List.Forall_forall. intros v Hin. cbn. rewrite List.Forall_forall in IH.
      apply IH; [done|]. exact (proj1 (forallb_forall _ _) Hdf v Hin). }
    revert Hj. change (list_fmap Value Value mask vs) with (mask <$> vs).
    generalize (join ", " (to_param_with_dialect d <$> vs)),
      (join ", " (to_param_with_dialect d <$> (mask <$> vs))).
    intros S T Hj. pose proof (closed_plain (backslash_escapes d) ")" eq_refl) as Hcl.
    pose proof (closed_app _ _ _ _ _ Hj Hcl ltac:(done) ltac:(done)) as [Ho2 Hr2].
    split.
    + unfold outside in *. rewrite (lex_app _ _ "("). change (lex _ LOut "(") with (LOut, "(").
      cbv iota beta. destruct (lex (backslash_escapes d) LOut _) as [[] o]; try discriminate;
        injection Ho2 as Ho2; rewrite <- Ho2; by rewrite ?str_app_assoc.
    + intros c r Hc. rewrite str_app_assoc, (lex_app _ _ "(").
      change (lex _ LOut "(") with (LOut, "("). cbv iota beta. rewrite Hr2 by done.
      destruct (lex _ LOut (String c r)). by rewrite !str_app_assoc.
  - intros Hdf. destruct v; try discriminate; cbn [mask to_param_with_dialect];
      try apply Hlit; try (by destruct b; apply closed_plain); try (by apply closed_plain);
      try (apply closed_plain, float_chars_plain, pretty_Z_chars).
    + apply closed_plain, float_chars_plain, f32_to_string_chars.
    + apply closed_plain, float_chars_plain, f64_to_string_chars.
    + apply (closed_literal _ "X"); [done|apply hex_encode_plain].
    + by destruct (Hv vs).
Qed.
End Inert.

(** The two [escape_string]s for standard literals are the same function, so [to_param] renders
    for the dialects that read [''] only. *)
Lemma to_param_sqlite `{FloatText} (v : Value) : to_param v = to_param_with_dialect SqliteDialect v.
Proof.
  induction v as [vs IH|v Hv] using Value_array_ind.
  - cbn [to_param to_param_with_dialect]. do 3 f_equal. induction IH as [|v vs Hv _ IHvs]; [done|].
    cbn. by f_equal.
  - destruct v; try reflexivity. by destruct (Hv vs).
Qed.

(** C26. The strings of a value cannot reach the text around it.  Rendered for any database, a
    value without decimals closes every literal it opens, and the text outside its literals
    is that of the value with all its strings and bytes emptied.  [to_param] has this
    property for PostgreSQL and SQLite but not for MySQL, where a trailing backslash leaves
    the literal open; and a decimal is copied as it is. *)
Theorem rendered_strings_inert `{FloatText} (t : DbType) (d : Dialect) (v : Value) (s : string) :
  get_dialect t = Ok d -> decimal_free v = true ->
  outside (spec_backslash t) (to_param_with_dialect d v)
    = Some (to_param_with_dialect d (mask v)) /\
  outside false (to_param v) = Some (to_param (mask v)) /\
  outside true (to_param (VString "\")) = None /\
  to_param_with_dialect d (VDecimal s) = s.
Proof.
  intros Hd Hv. destruct (get_dialect_laws t d Hd) as (_ & L & _ & Hb). rewrite <- Hb.
  split; [exact (proj1 (param_closed d v Hv))|].
  split; [rewrite !to_param_sqlite; exact (proj1 (param_closed SqliteDialect v Hv))|].
  split; reflexivity.
Qed.

(** A rendering for the closed instance. *)
Definition no_digits : FloatText.
Proof.
  refine {| f32_to_string _ := "0"; f64_to_string _ := "0"; parse_f64 _ := None |}; done.
Defined.

Lemma rendered_strings_inert_witness :
  outside true (@to_param_with_dialect no_digits MySqlDialect
    (VArray [VString "'; DROP TABLE t; --\"; VI32 (-5)])) = Some "('', -5)".
Proof.
  exact (proj1 (@rendered_strings_inert no_digits MySQL MySqlDialect
    (VArray [VString "'; DROP TABLE t; --\"; VI32 (-5)]) "" eq_refl eq_refl)).
Defined.
