(* ===== verification/Transaction.v ===== *)
(** Transactions on a connection: [packages/sz-orm-core/src/transaction.rs].  The transaction and
    its savepoints, the templates that run a closure inside one, the retry after a deadlock and
    the manager of named transactions. *)

From Stdlib Require Import Ascii String.
From S2P Require Import Prelude SqlText Dialect Dialects Value.
Local Open Scope string_scope.
Local Open Scope eff_scope.

(** * Data *)

Inductive IsolationLevel : Type := ReadUncommitted | ReadCommitted | RepeatableRead | Serializable | Snapshot.

Definition isolation_text (l : IsolationLevel) : string :=
  match l with
  | ReadUncommitted => "READ UNCOMMITTED"
  | ReadCommitted => "READ COMMITTED"
  | RepeatableRead => "REPEATABLE READ"
  | Serializable => "SERIALIZABLE"
  | Snapshot => "SNAPSHOT"
  end.

Inductive PropagationBehavior : Type := Required | Mandatory | Never | Supports | RequiresNew | Nested.

Record TransactOptions : Type := mkOptions {
  isolation_level : option IsolationLevel;
  read_only : bool;
  timeout : option Z;
  max_nesting_depth : Z;
  propagation : PropagationBehavior;
}.

Definition DEFAULT_MAX_NESTING_DEPTH : Z := 8.
Definition default_options : TransactOptions := mkOptions None false None DEFAULT_MAX_NESTING_DEPTH Required.

Inductive TransactionState : Type := Active | Committed | RolledBack.

#[export] Instance TransactionState_eq_dec : EqDecision TransactionState.
Proof. solve_decision. Defined.

Definition state_text (s : TransactionState) : string :=
  match s with Active => "Active" | Committed => "Committed" | RolledBack => "RolledBack" end.

Inductive TxError : Type :=
| NotStarted
| AlreadyStarted
| CommitFailed (message : string)
| RollbackFailed (message : string)
| SavepointError (message : string)
| NestedNotSupported
| NotActive (state : TransactionState)
| InvalidSavepointName (name : string)
| ConnectionTaken
| MaxNestingDepthExceeded (current_depth max_depth : Z)
| DeadlockDetected (attempt max_attempts : Z)
| UnsupportedFeature (message : string).

Definition error_text (e : TxError) : string :=
  match e with
  | NotStarted => "Transaction not started"
  | AlreadyStarted => "Transaction already started"
  | CommitFailed s => "Transaction commit failed: " +:+ s
  | RollbackFailed s => "Transaction rollback failed: " +:+ s
  | SavepointError s => "Savepoint error: " +:+ s
  | NestedNotSupported => "Nested transactions not supported"
  | NotActive state => "Transaction not active (current state: " +:+ state_text state +:+ ")"
  | InvalidSavepointName name =>
      "Invalid savepoint name '" +:+ name +:+ "': must be non-empty, start with a letter or underscore, and contain only ASCII alphanumeric or underscore"
  | ConnectionTaken => "Transaction connection already taken"
  | MaxNestingDepthExceeded d m =>
      "Transaction nesting depth " +:+ pretty d +:+ " exceeds maximum allowed " +:+ pretty m
  | DeadlockDetected a m => "Deadlock detected on attempt " +:+ pretty a +:+ " of " +:+ pretty m
  | UnsupportedFeature msg => "Unsupported transaction feature: " +:+ msg
  end.

Definition validate_savepoint_name (name : string) : result unit TxError :=
  match name with
  | EmptyString => Err (InvalidSavepointName name)
  | String first _ =>
      if negb (all_chars (fun c => is_ascii_alphanumeric c || Ascii.eqb c "_") name) then Err (InvalidSavepointName name)
      else if is_ascii_digit first then Err (InvalidSavepointName name)
      else Ok tt
  end.

Definition is_deadlock_error (err_msg : string) : bool :=
  let lower := lowercase err_msg in
  let has s := contains_text s lower in
  has "deadlock found when trying to get lock"
  || has "error 1213" || has "(1213)"
  || has "deadlock detected" || has "40p01"
  || has "database is locked" || has "database table is locked"
  || has "ora-00060"
  || (has "transaction (process id" && has "was deadlocked")
  || has "error 1205" || has "(1205)".

(** ** Where the isolation level is set *)

Record IsolationPlan : Type := mkPlan { pre_begin : option string; post_begin : option string }.

Definition plan_isolation (db : option DbType) (level : IsolationLevel) : result IsolationPlan TxError :=
  let stmt := "SET TRANSACTION ISOLATION LEVEL " +:+ isolation_text level in
  let before := Ok (mkPlan (Some stmt) None) in
  let after := Ok (mkPlan None (Some stmt)) in
  match db with
  | None => after
  | Some Sqlite =>
      Err (UnsupportedFeature ("SQLite 不支持 SET TRANSACTION（固定为 SERIALIZABLE），请求的隔离级别 " +:+ isolation_text level +:+
        " 无法生效；请留空 TransactOptions::isolation_level"))
  | Some MySQL | Some MariaDB | Some TiDB | Some OceanBase => before
  | Some SqlServer | Some Sybase | Some GBase => before
  | Some PostgreSQL | Some Kingbase | Some PolarDB | Some GaussDB =>
      match level with
      | Snapshot => Err (UnsupportedFeature "PostgreSQL 族没有 SNAPSHOT 隔离级别，请改用 REPEATABLE READ")
      | _ => after
      end
  | Some Oracle | Some Dameng =>
      match level with
      | ReadCommitted | Serializable => after
      | _ =>
          Err (UnsupportedFeature ("Oracle 族仅支持 READ COMMITTED / SERIALIZABLE，请求的 " +:+ isolation_text level +:+
            " 会被 ORA-02179 拒绝"))
      end
  | Some _ => after
  end.

(** The trait [Connection], as far as a transaction calls it; errors are their [to_string]. *)
Class Connection (W C Rows : Type) := {
  conn_begin : C -> Eff W (result unit string);
  conn_commit : C -> Eff W (result unit string);
  conn_rollback : C -> Eff W (result unit string);
  conn_execute : C -> string -> Eff W (result Z string);
  conn_query : C -> string -> Eff W (result Rows string);
  conn_db_type : C -> option DbType;
}.

(** What a closure or a method that may panic ends with. *)
Inductive Outcome (T : Type) : Type :=
| Returned (r : result T TxError)
| Panicked.
Arguments Returned {T}.
Arguments Panicked {T}.

(** [conn] is behind a mutex that only the task spawned by [drop] locks besides the owner. *)
Record Transaction (C : Type) : Type := mkTx {
  conn : option C;
  state : TransactionState;
  options : TransactOptions;
  savepoint_counter : Z;
  deadline : option Z;
}.
Arguments mkTx {C}.
Arguments conn {C}.
Arguments state {C}.
Arguments options {C}.
Arguments savepoint_counter {C}.
Arguments deadline {C}.

Section Transaction.
Context {W C Rows : Type} `{Clock W} `{Conn : !Connection W C Rows}.
Implicit Types (tx : Transaction C).

Definition set_state (s : TransactionState) tx : Transaction C :=
  mkTx (conn tx) s (options tx) (savepoint_counter tx) (deadline tx).
Definition set_counter (n : Z) tx : Transaction C :=
  mkTx (conn tx) (state tx) (options tx) n (deadline tx).

(** [Transaction::new]: [None] is the panic of a deadline past the end of [Instant]. *)
Definition tx_new (c : C) (o : TransactOptions) : Eff W (option (Transaction C)) :=
  match timeout o with
  | None => eret (Some (mkTx (Some c) Active o 0 None))
  | Some t =>
      let* now := instant_now in
      eret (match instant_add now t with
            | Some dl => Some (mkTx (Some c) Active o 0 (Some dl))
            | None => None
            end)
  end.

Definition is_active tx : bool := bool_decide (state tx = Active).

(** A method takes the transaction and gives it back with its result. *)
Definition Method (A : Type) : Type := Transaction C -> Eff W (result A TxError * Transaction C).

(** [if self.state != Active { return Err(NotActive(self.state)) }] *)
Definition when_active {A} (m : Method A) : Method A := fun tx =>
  if is_active tx then m tx else eret (Err (NotActive (state tx)), tx).

(** [conn_guard.as_mut().ok_or(ConnectionTaken)?] followed by a call on the connection. *)
Definition with_conn {A B} (call : C -> Eff W (result A string)) (err : string -> TxError)
    (k : A -> Transaction C -> result B TxError * Transaction C) : Method B := fun tx =>
  match conn tx with
  | None => eret (Err ConnectionTaken, tx)
  | Some c =>
      let* r := call c in
      eret (match r with Ok a => k a tx | Err e => (Err (err e), tx) end)
  end.

Definition rollback : Method unit :=
  when_active (with_conn conn_rollback RollbackFailed (fun _ tx => (Ok tt, set_state RolledBack tx))).

Definition check_hold_timeout : Method unit := fun tx =>
  match deadline tx with
  | None => eret (Ok tt, tx)
  | Some dl =>
      let* now := instant_now in
      if (dl <? now)%Z then
        let* (_, tx) := rollback tx in
        eret (Err (CommitFailed "Transaction timeout"), tx)
      else eret (Ok tt, tx)
  end.

(** [self.check_hold_timeout().await?] *)
Definition in_time {A} (m : Method A) : Method A := fun tx =>
  let* (r, tx) := check_hold_timeout tx in
  match r with
  | Ok _ => m tx
  | Err e => eret (Err e, tx)
  end.

Definition commit : Method unit :=
  when_active (in_time (with_conn conn_commit CommitFailed (fun _ tx => (Ok tt, set_state Committed tx)))).

Definition execute (sql : string) : Method Z :=
  when_active (in_time (with_conn (fun c => conn_execute c sql) CommitFailed (fun n tx => (Ok n, tx)))).

Definition query (sql : string) : Method Rows :=
  when_active (in_time (with_conn (fun c => conn_query c sql) CommitFailed (fun rows tx => (Ok rows, tx)))).

(** A statement on a savepoint that exists. *)
Definition on_savepoint (verb name : string) : Method unit :=
  match validate_savepoint_name name with
  | Err e => fun tx => eret (Err e, tx)
  | Ok _ => with_conn (fun c => conn_execute c (verb +:+ name)) SavepointError (fun _ tx => (Ok tt, tx))
  end.

Definition savepoint_name (n : Z) : string := "sp_" +:+ pretty n.

Definition savepoint : Method string :=
  when_active (in_time (fun tx =>
    let next_depth := wrap32 (savepoint_counter tx + 1) in
    if (max_nesting_depth (options tx) <? next_depth)%Z then
      eret (Err (MaxNestingDepthExceeded next_depth (max_nesting_depth (options tx))), tx)
    else
      let tx := set_counter (wrap32 (savepoint_counter tx + 1)) tx in
      let name := savepoint_name (savepoint_counter tx) in
      let* (r, tx) := on_savepoint "SAVEPOINT " name tx in
      eret (match r with Ok _ => Ok name | Err e => Err e end, tx))).

Definition rollback_to_savepoint (name : string) : Method unit :=
  when_active (in_time (on_savepoint "ROLLBACK TO SAVEPOINT " name)).

Definition release_savepoint (name : string) : Method unit :=
  when_active (in_time (on_savepoint "RELEASE SAVEPOINT " name)).

Definition take_connection : Transaction C -> result C TxError * Transaction C := fun tx =>
  if is_active tx then (Err (NotActive (state tx)), tx)
  else match conn tx with
       | Some c => (Ok c, mkTx None (state tx) (options tx) (savepoint_counter tx) (deadline tx))
       | None => (Err ConnectionTaken, tx)
       end.

(** [drop]: inside a runtime a task rolls back; nobody else has the connection by then, so it
    runs here.  Outside one nothing is sent. *)
Definition tx_drop (runtime : bool) tx : Eff W unit :=
  if is_active tx && runtime then
    match conn tx with
    | Some c => let* _ := conn_rollback c in eret tt
    | None => eret tt
    end
  else eret tt.

(** ** Templates *)

(** A closure of the templates: it takes the transaction, and what it does to it stays even if it
    panics. *)
Definition Closure (T : Type) : Type := Transaction C -> Eff W (Outcome T * Transaction C).

(** What [run_transaction] and [TransactionManager::begin] do up to the creation of the
    transaction. *)
Definition open_transaction (c : C) (o : TransactOptions) : Eff W (result unit TxError) :=
  match match isolation_level o with
        | Some level => match plan_isolation (conn_db_type c) level with Ok p => Ok (Some p) | Err e => Err e end
        | None => Ok None
        end with
  | Err e => eret (Err e)
  | Ok plan =>
      let* r := match plan ≫= pre_begin with Some sql => conn_execute c sql | None => eret (Ok 0%Z) end in
      match r with
      | Err e => eret (Err (CommitFailed ("SET ISOLATION LEVEL (pre-BEGIN) failed: " +:+ e)))
      | Ok _ =>
          let* r := conn_begin c in
          match r with
          | Err e => eret (Err (CommitFailed e))
          | Ok _ =>
              let* r := match plan ≫= post_begin with Some sql => conn_execute c sql | None => eret (Ok 0%Z) end in
              match r with
              | Err e =>
                  let* _ := conn_rollback c in
                  eret (Err (CommitFailed ("SET ISOLATION LEVEL failed: " +:+ e)))
              | Ok _ =>
                  let* r := if read_only o then conn_execute c "SET TRANSACTION READ ONLY" else eret (Ok 0%Z) in
                  match r with
                  | Err e =>
                      let* _ := conn_rollback c in
                      eret (Err (CommitFailed ("SET READ ONLY failed: " +:+ e)))
                  | Ok _ => eret (Ok tt)
                  end
              end
          end
      end
  end.

Definition run_transaction {T} (runtime : bool) (c : C) (o : TransactOptions) (f : Closure T) : Eff W (Outcome T) :=
  let* r := open_transaction c o in
  match r with
  | Err e => eret (Returned (Err e))
  | Ok _ =>
      let* new := tx_new c o in
      match new with
      | None => eret Panicked
      | Some tx =>
          let* (out, tx) := f tx in
          let* (res, tx) :=
            match out with
            | Returned (Ok value) =>
                let* (r, tx) := commit tx in
                eret (match r with Ok _ => Returned (Ok value) | Err e => Returned (Err e) end, tx)
            | Returned (Err e) => let* (_, tx) := rollback tx in eret (Returned (Err e), tx)
            | Panicked => let* (_, tx) := rollback tx in eret (Panicked, tx)
            end in
          let* _ := tx_drop runtime tx in
          eret res
      end
  end.

Definition run_savepoint {T} (f : Closure T) : Closure T := fun tx =>
  let* (r, tx) := savepoint tx in
  match r with
  | Err e => eret (Returned (Err e), tx)
  | Ok sp =>
      let* (out, tx) := f tx in
      match out with
      | Returned (Ok value) =>
          let* (r, tx) := release_savepoint sp tx in
          eret (match r with Ok _ => Returned (Ok value) | Err e => Returned (Err e) end, tx)
      | Returned (Err e) => let* (_, tx) := rollback_to_savepoint sp tx in eret (Returned (Err e), tx)
      | Panicked => let* (_, tx) := rollback_to_savepoint sp tx in eret (Panicked, tx)
      end
  end.

(** [for attempt in 1..=max_attempts], [n] attempts before the last one is over. *)
Fixpoint retry_from {T} (n : nat) (attempt max_attempts backoff : Z) (operation : Z -> Eff W (result T TxError))
    (last_err : option TxError) : Eff W (result T TxError) :=
  match n with
  | O => eret (Err (default (DeadlockDetected max_attempts max_attempts) last_err))
  | S n =>
      let* r := operation attempt in
      match r with
      | Ok v => eret (Ok v)
      | Err e =>
          if is_deadlock_error (error_text e) && (attempt <? max_attempts)%Z then
            let* _ := sleep_ns backoff in
            retry_from n (attempt + 1) max_attempts backoff operation
              (Some (DeadlockDetected attempt max_attempts))
          else eret (Err e)
      end
  end.

Definition retry_on_deadlock {T} (max_attempts backoff : Z) (operation : Z -> Eff W (result T TxError)) :
    Eff W (result T TxError) :=
  retry_from (Z.to_nat max_attempts) 1 max_attempts backoff operation None.

(** ** The manager *)

Definition Manager : Type := gmap string (Transaction C).

(** A transaction already registered under the name is dropped. *)
Definition manager_begin (runtime : bool) (id : string) (c : C) (o : TransactOptions) (m : Manager) :
    Eff W (Outcome unit * Manager) :=
  let* r := open_transaction c o in
  match r with
  | Err e => eret (Returned (Err e), m)
  | Ok _ =>
      let* new := tx_new c o in
      match new with
      | None => eret (Panicked, m)
      | Some tx =>
          let* _ := match m !! id with Some old => tx_drop runtime old | None => eret tt end in
          eret (Returned (Ok tt), <[id := tx]> m)
      end
  end.

Definition manager_run (id : string) (method : Method unit) (m : Manager) : Eff W (result unit TxError * Manager) :=
  modify_entry id (Err (SavepointError ("Transaction " +:+ id +:+ " not found"))) method m.

Definition manager_commit (id : string) : Manager -> Eff W (result unit TxError * Manager) := manager_run id commit.
Definition manager_rollback (id : string) : Manager -> Eff W (result unit TxError * Manager) := manager_run id rollback.
Definition manager_state (id : string) (m : Manager) : option TransactionState := state <$> m !! id.
Definition manager_list (m : Manager) : list string := (map_to_list m).*1.
Definition manager_remove (id : string) (m : Manager) : option (Transaction C) * Manager := (m !! id, delete id m).

(** ** Closures as programs

    What a closure may do with the transaction it is lent; [RunSavepoint] is a nested
    [run_savepoint], whose panic goes on. *)
Inductive TxProg : Type -> Type :=
| Return {T} (r : result T TxError) : TxProg T
| Panic {T} : TxProg T
| Execute {T} (sql : string) (k : result Z TxError -> TxProg T) : TxProg T
| Query {T} (sql : string) (k : result Rows TxError -> TxProg T) : TxProg T
| Savepoint {T} (k : result string TxError -> TxProg T) : TxProg T
| RollbackTo {T} (name : string) (k : result unit TxError -> TxProg T) : TxProg T
| Release {T} (name : string) (k : result unit TxError -> TxProg T) : TxProg T
| Commit {T} (k : result unit TxError -> TxProg T) : TxProg T
| Rollback {T} (k : result unit TxError -> TxProg T) : TxProg T
| RunSavepoint {U T} (inner : TxProg U) (k : result U TxError -> TxProg T) : TxProg T.

Definition then_ {A T} (m : Method A) (k : result A TxError -> Closure T) : Closure T := fun tx =>
  let* (r, tx) := m tx in k r tx.

Fixpoint interp {T} (p : TxProg T) : Closure T :=
  match p with
  | Return r => fun tx => eret (Returned r, tx)
  | Panic => fun tx => eret (Panicked, tx)
  | Execute sql k => then_ (execute sql) (fun r => interp (k r))
  | Query sql k => then_ (query sql) (fun r => interp (k r))
  | Savepoint k => then_ savepoint (fun r => interp (k r))
  | RollbackTo name k => then_ (rollback_to_savepoint name) (fun r => interp (k r))
  | Release name k => then_ (release_savepoint name) (fun r => interp (k r))
  | Commit k => then_ commit (fun r => interp (k r))
  | Rollback k => then_ rollback (fun r => interp (k r))
  | RunSavepoint inner k => fun tx =>
      let* (out, tx) := run_savepoint (interp inner) tx in
      match out with
      | Returned r => interp (k r) tx
      | Panicked => eret (Panicked, tx)
      end
  end.

(** * What a database promises

    [published] is what everybody sees, [pending] what a commit of the transaction open on a
    connection would publish, [marks] its savepoints with what was pending when each was set.  A
    server that ends a transaction by itself does not obey the laws. *)

Class TxStore (D : Type) := {
  published : W -> D;
  pending : C -> W -> D;
  opened : C -> W -> bool;
  marks : C -> W -> list (string * D);
  control : string -> bool;
}.

Definition same_store {D} `{TxStore D} (w w' : W) : Prop :=
  published w' = published w /\
  forall c, pending c w' = pending c w /\ opened c w' = opened c w /\ marks c w' = marks c w.

(** What the statement of a running transaction keeps. *)
Definition inside {D} `{TxStore D} (c : C) (w w' : W) : Prop :=
  published w' = published w /\ opened c w' = true.

Class TxStoreLaws (D : Type) `{TxStore D} := {
  clock_law : forall w, same_store w (snd (instant_now w));
  set_law : forall c sql w, starts_with "SET TRANSACTION" sql = true -> same_store w (snd (conn_execute c sql w));
  begin_law : forall c w r w', opened c w = false -> conn_begin c w = (r, w') -> published w' = published w /\
    (is_ok r = true -> opened c w' = true /\ pending c w' = published w /\ marks c w' = []);
  commit_law : forall c w r w', opened c w = true -> conn_commit c w = (r, w') ->
    published w' = (if is_ok r then pending c w else published w) /\ (is_ok r = true -> opened c w' = false);
  rollback_law : forall c w r w', conn_rollback c w = (r, w') -> published w' = published w /\
    (if is_ok r then opened c w' = false else opened c w' = opened c w /\ marks c w' = marks c w);
  execute_law : forall c sql w, opened c w = true -> control sql = false ->
    let w' := snd (conn_execute c sql w) in inside c w w' /\ marks c w' = marks c w;
  query_law : forall c sql w, opened c w = true -> control sql = false ->
    let w' := snd (conn_query c sql w) in inside c w w' /\ marks c w' = marks c w;
  savepoint_law : forall c n w r w', opened c w = true -> conn_execute c ("SAVEPOINT " +:+ n) w = (r, w') ->
    inside c w w' /\
    (if is_ok r then pending c w' = pending c w /\ marks c w' = (n, pending c w) :: marks c w
     else marks c w' = marks c w);
  rollback_to_law : forall c n w r w', opened c w = true -> conn_execute c ("ROLLBACK TO SAVEPOINT " +:+ n) w = (r, w') ->
    inside c w w' /\
    (if is_ok r
     then exists l d rest, marks c w = (l ++ (n, d) :: rest)%list /\ n ∉ l.*1 /\
            marks c w' = (n, d) :: rest /\ pending c w' = d
     else marks c w' = marks c w);
  release_law : forall c n w r w', opened c w = true -> conn_execute c ("RELEASE SAVEPOINT " +:+ n) w = (r, w') ->
    inside c w w' /\
    (if is_ok r
     then exists l d rest, marks c w = (l ++ (n, d) :: rest)%list /\ n ∉ l.*1 /\
            marks c w' = rest /\ pending c w' = pending c w
     else marks c w' = marks c w);
}.

(** * What closures keep *)

Section Kept.
Context {D : Type} `{L : TxStoreLaws D}.
Variable c : C.
Variable o : TransactOptions.
Variable p0 : D.

(** A closure that does not commit, whose statements do not control transactions and whose
    savepoints are [ok_name]s. *)
Fixpoint tame (ok_name : string -> Prop) {T} (p : TxProg T) : Prop :=
  match p with
  | Return _ | Panic => True
  | Execute sql k => control sql = false /\ forall r, tame ok_name (k r)
  | Query sql k => control sql = false /\ forall r, tame ok_name (k r)
  | Savepoint k => forall r, (forall n, r = Ok n -> ok_name n) -> tame ok_name (k r)
  | RollbackTo name k => ok_name name /\ forall r, tame ok_name (k r)
  | Release name k => ok_name name /\ forall r, tame ok_name (k r)
  | Commit _ => False
  | Rollback k => forall r, tame ok_name (k r)
  | RunSavepoint inner k => tame ok_name inner /\ forall r, tame ok_name (k r)
  end.

(** [P] is about the savepoints of the connection and the counter of the transaction. *)
Variable P : list (string * D) -> Z -> Prop.
Variable ok_name : string -> Prop.
Hypothesis P_savepoint : forall ms k k' d,
  P ms k -> k' = wrap32 (k + 1) -> (k' <= max_nesting_depth o)%Z ->
  P ((savepoint_name k', d) :: ms) k' /\ P ms k' /\ ok_name (savepoint_name k').
Hypothesis P_rollback : forall l n d rest k,
  ok_name n -> P (l ++ (n, d) :: rest)%list k -> n ∉ l.*1 -> P ((n, d) :: rest) k /\ P rest k.

Definition running tx (w : W) : Prop :=
  published w = p0 /\ conn tx = Some c /\ options tx = o /\
  ((state tx = Active /\ opened c w = true /\ P (marks c w) (savepoint_counter tx)) \/ state tx = RolledBack).

Definition keeps {A} (m : Method A) : Prop := forall tx w r tx' w',
  running tx w -> m tx w = (r, tx', w') -> running tx' w'.

Definition closure_keeps {T} (f : Closure T) : Prop := forall tx w r tx' w',
  running tx w -> f tx w = (r, tx', w') -> running tx' w'.

(** A method that is called only while the transaction is active. *)
Definition keeps_active {A} (m : Method A) : Prop := forall tx w r tx' w',
  running tx w -> state tx = Active -> m tx w = (r, tx', w') -> running tx' w'.

Lemma running_same tx w w' : running tx w -> same_store w w' -> running tx w'.
Proof.
  intros (Hp & Hc & Ho & Hs) [Hp' Hw]. destruct (Hw c) as (_ & Hop & Hm). split; [congruence|].
  split; [done|]. split; [done|]. rewrite Hop, Hm. done.
Qed.

(** A call on the connection of an active transaction that keeps it open. *)
Lemma running_active tx w : running tx w -> state tx = Active ->
  published w = p0 /\ conn tx = Some c /\ options tx = o /\ opened c w = true /\ P (marks c w) (savepoint_counter tx).
Proof. intros (Hp & Hc & Ho & [(? & ? & ?)|Hs]) Ha; [done|congruence]. Qed.

Lemma running_inside tx w w' k :
  running tx w -> state tx = Active -> inside c w w' -> P (marks c w') k -> running (set_counter k tx) w'.
Proof.
  intros Hr Ha [Hp Ho] HP. destruct (running_active _ _ Hr Ha) as (? & ? & ? & _).
  split; [congruence|]. split; [done|]. split; [done|]. by left.
Qed.

Lemma set_counter_id tx : set_counter (savepoint_counter tx) tx = tx.
Proof. by destruct tx. Qed.

Lemma when_active_keeps {A} (m : Method A) : keeps_active m -> keeps (when_active m).
Proof.
  intros Hm tx w r tx' w' Hr. unfold when_active, is_active. case_bool_decide as Ha; [by apply Hm|].
  unfold eret. by intros [= <- <- <-].
Qed.

Lemma rollback_keeps : keeps rollback.
Proof.
  apply when_active_keeps. intros tx w r tx' w' Hr Ha. destruct (running_active _ _ Hr Ha) as (Hp & Hc & Ho & Hop & HP).
  unfold with_conn. rewrite Hc. unfold ebind. destruct (conn_rollback c w) as [r1 w1] eqn:E.
  destruct (rollback_law _ _ _ _ E) as [Hp1 Ho1]. unfold eret. destruct r1 as [u|e]; intros [= <- <- <-]; cbn in Ho1.
  - split; [cbn; congruence|]. split; [done|]. split; [done|]. by right.
  - destruct Ho1 as [Ho1 Hm1]. rewrite <- (set_counter_id tx). apply (running_inside tx w); [done|done| |by rewrite Hm1].
    split; congruence.
Qed.

Lemma timeout_keeps : keeps check_hold_timeout.
Proof.
  intros tx w r tx' w' Hr. unfold check_hold_timeout. destruct (deadline tx) as [dl|]; [|unfold eret; by intros [= <- <- <-]].
  unfold ebind. pose proof (clock_law w) as Hc. destruct (instant_now w) as [now w1]. cbn in Hc.
  assert (Hr1 : running tx w1) by by eapply running_same. destruct (dl <? now)%Z; [|unfold eret; by intros [= <- <- <-]].
  destruct (rollback tx w1) as [[r1 tx1] w2] eqn:E. unfold eret. intros [= <- <- <-]. by eapply rollback_keeps.
Qed.

(** In time, the transaction is untouched and so is the store. *)
Lemma timeout_ok tx w u tx' w' : check_hold_timeout tx w = (Ok u, tx', w') -> tx' = tx /\ same_store w w'.
Proof.
  unfold check_hold_timeout. destruct (deadline tx) as [dl|].
  - unfold ebind. pose proof (clock_law w) as Hc. destruct (instant_now w) as [now w1]. cbn in Hc.
    destruct (dl <? now)%Z; [by destruct (rollback tx w1) as [[r1 tx1] w2]|]. unfold eret. intros [= <- <- <-]. done.
  - unfold eret. intros [= <- <- <-]. by repeat split.
Qed.

Lemma in_time_keeps {A} (m : Method A) : keeps_active m -> keeps_active (in_time m).
Proof.
  intros Hm tx w r tx' w' Hr Ha. unfold in_time, ebind. destruct (check_hold_timeout tx w) as [[r1 tx1] w1] eqn:E.
  pose proof (timeout_keeps _ _ _ _ _ Hr E) as Hr1. destruct r1 as [u|e].
  - apply timeout_ok in E as [-> _]. by apply Hm.
  - unfold eret. by intros [= <- <- <-].
Qed.

(** A call on the connection that stays inside the transaction. *)
Lemma call_keeps {A B} (call : C -> Eff W (result A string)) err (k : A -> Transaction C -> result B TxError * Transaction C) :
  (forall a tx, snd (k a tx) = tx) ->
  (forall tx w, running tx w -> state tx = Active ->
     inside c w (snd (call c w)) /\ P (marks c (snd (call c w))) (savepoint_counter tx)) ->
  keeps_active (with_conn call err k).
Proof.
  intros Hk Hcall tx w r tx' w' Hr Ha. destruct (running_active _ _ Hr Ha) as (Hp & Hc & Ho & Hop & HP).
  unfold with_conn. rewrite Hc. unfold ebind. destruct (Hcall tx w Hr Ha) as [Hin HP'].
  destruct (call c w) as [r1 w1]. unfold eret. cbn in *.
  assert (Hr1 : running tx w1) by (rewrite <- (set_counter_id tx); by apply (running_inside tx w)).
  destruct r1 as [a|e]; intros Heq; simplify_eq; [|done].
  destruct (k a tx) as [? tx2] eqn:E2. assert (tx2 = tx) as -> by (by rewrite <- (Hk a tx), E2). by simplify_eq.
Qed.

Lemma execute_keeps sql : control sql = false -> keeps (execute sql).
Proof.
  intros Hsql. apply when_active_keeps, in_time_keeps, call_keeps; [done|]. intros tx w Hr Ha.
  destruct (running_active _ _ Hr Ha) as (_ & _ & _ & Hop & HP).
  destruct (execute_law c sql w Hop Hsql) as [Hin Hm]. by rewrite Hm.
Qed.

Lemma query_keeps sql : control sql = false -> keeps (query sql).
Proof.
  intros Hsql. apply when_active_keeps, in_time_keeps, call_keeps; [done|]. intros tx w Hr Ha.
  destruct (running_active _ _ Hr Ha) as (_ & _ & _ & Hop & HP).
  destruct (query_law c sql w Hop Hsql) as [Hin Hm]. by rewrite Hm.
Qed.

(** A statement on a savepoint, when its success and its failure both keep [P]. *)
Lemma on_savepoint_keeps verb name :
  (forall tx w r w', running tx w -> state tx = Active -> conn_execute c (verb +:+ name) w = (r, w') ->
     inside c w w' /\ P (marks c w') (savepoint_counter tx)) ->
  keeps_active (on_savepoint verb name).
Proof.
  intros Hcall tx w r tx' w' Hr Ha. unfold on_savepoint. destruct (validate_savepoint_name name) as [u|e].
  - revert Hr Ha. apply call_keeps; [done|]. intros tx1 w1 Hr Ha.
    destruct (conn_execute c (verb +:+ name) w1) as [r1 w2] eqn:E. by apply (Hcall tx1 w1 r1).
  - unfold eret. by intros [= <- <- <-].
Qed.

Lemma rollback_to_keeps name : ok_name name -> keeps (rollback_to_savepoint name).
Proof.
  intros Hn. apply when_active_keeps, in_time_keeps, on_savepoint_keeps. intros tx w r w' Hr Ha E.
  destruct (running_active _ _ Hr Ha) as (_ & _ & _ & Hop & HP).
  destruct (rollback_to_law _ _ _ _ _ Hop E) as [Hin Hm]. split; [done|].
  destruct (is_ok r); [|by rewrite Hm]. destruct Hm as (l & d & rest & Hms & Hno & Hm & _).
  rewrite Hm. rewrite Hms in HP. by destruct (P_rollback _ _ _ _ _ Hn HP Hno).
Qed.

Lemma release_keeps name : ok_name name -> keeps (release_savepoint name).
Proof.
  intros Hn. apply when_active_keeps, in_time_keeps, on_savepoint_keeps. intros tx w r w' Hr Ha E.
  destruct (running_active _ _ Hr Ha) as (_ & _ & _ & Hop & HP).
  destruct (release_law _ _ _ _ _ Hop E) as [Hin Hm]. split; [done|].
  destruct (is_ok r); [|by rewrite Hm]. destruct Hm as (l & d & rest & Hms & Hno & Hm & _).
  rewrite Hm. rewrite Hms in HP. by destruct (P_rollback _ _ _ _ _ Hn HP Hno).
Qed.

(** What a savepoint that was set leaves. *)
Definition savepoint_set (tx : Transaction C) (w : W) (n : string) (tx' : Transaction C) (w' : W) : Prop :=
  state tx' = Active /\ savepoint_counter tx' = wrap32 (savepoint_counter tx + 1) /\
  n = savepoint_name (savepoint_counter tx') /\ ok_name n /\
  pending c w' = pending c w /\ marks c w' = (n, pending c w) :: marks c w.

Lemma savepoint_spec tx w r tx' w' :
  running tx w -> savepoint tx w = (r, tx', w') ->
  running tx' w' /\ match r with Ok n => savepoint_set tx w n tx' w' | Err _ => True end.
Proof.
  intros Hr. unfold savepoint, when_active, is_active. case_bool_decide as Ha.
  2: { unfold eret. intros [= <- <- <-]. by split. }
  unfold in_time, ebind at 1. destruct (check_hold_timeout tx w) as [[r1 tx1] w1] eqn:E1.
  pose proof (timeout_keeps _ _ _ _ _ Hr E1) as Hr1. destruct r1 as [u|e]; [|unfold eret; intros [= <- <- <-]; by split].
  apply timeout_ok in E1 as [-> Hsame]. destruct (running_active _ _ Hr1 Ha) as (_ & Hc & Ho & Hop & HP).
  destruct (Z.ltb_spec (max_nesting_depth (options tx)) (wrap32 (savepoint_counter tx + 1))) as [|Hle];
    [unfold eret; intros [= <- <- <-]; by split|].
  rewrite Ho in Hle. set (k := wrap32 (savepoint_counter tx + 1)) in *. cbn [savepoint_counter set_counter].
  destruct (P_savepoint _ _ k (pending c w1) HP eq_refl Hle) as (HP1 & HP2 & Hok).
  assert (Hr2 : running (set_counter k tx) w1).
  { apply (running_inside tx w1); [done|done| |done]. split; [|done]. by destruct Hr1. }
  unfold ebind at 1, on_savepoint. destruct (validate_savepoint_name (savepoint_name k)) as [u'|e].
  2: { unfold eret. intros [= <- <- <-]. by split. }
  unfold with_conn. cbn [conn set_counter]. rewrite Hc. unfold ebind.
  destruct (conn_execute c ("SAVEPOINT " +:+ savepoint_name k) w1) as [r2 w2] eqn:E2.
  destruct (savepoint_law _ _ _ _ _ Hop E2) as [Hin Hm]. unfold eret. destruct Hsame as [Hpub Hsame].
  destruct (Hsame c) as (Hpen & _ & Hmk).
  destruct r2 as [u2|e2]; cbn [is_ok] in Hm; intros [= <- <- <-].
  - destruct Hm as [Hm1 Hm2]. split.
    + apply (running_inside (set_counter k tx) w1 w2 k); [done|done|done|]. by rewrite Hm2.
    + split; [done|]. split; [done|]. split; [done|]. split; [done|]. split; [congruence|]. rewrite Hm2. congruence.
  - split; [|done]. apply (running_inside (set_counter k tx) w1 w2 k); [done|done|done|]. by rewrite Hm.
Qed.

Lemma run_savepoint_keeps {T} (f : Closure T) : closure_keeps f -> closure_keeps (run_savepoint f).
Proof.
  intros Hf tx w r tx' w' Hr. unfold run_savepoint, ebind at 1. destruct (savepoint tx w) as [[r1 tx1] w1] eqn:E1.
  destruct (savepoint_spec _ _ _ _ _ Hr E1) as [Hr1 Hset]. destruct r1 as [sp|e]; [|unfold eret; by intros [= <- <- <-]].
  destruct Hset as (_ & _ & _ & Hok & _). unfold ebind at 1. destruct (f tx1 w1) as [[out tx2] w2] eqn:E2.
  pose proof (Hf _ _ _ _ _ Hr1 E2) as Hr2.
  destruct out as [[v|e]|]; unfold ebind, eret.
  - destruct (release_savepoint sp tx2 w2) as [[r3 tx3] w3] eqn:E3. intros [= <- <- <-]. by eapply release_keeps.
  - destruct (rollback_to_savepoint sp tx2 w2) as [[r3 tx3] w3] eqn:E3. intros [= <- <- <-]. by eapply rollback_to_keeps.
  - destruct (rollback_to_savepoint sp tx2 w2) as [[r3 tx3] w3] eqn:E3. intros [= <- <- <-]. by eapply rollback_to_keeps.
Qed.

Lemma then_keeps {A T} (m : Method A) (k : result A TxError -> Closure T) :
  keeps m -> (forall r, closure_keeps (k r)) -> closure_keeps (then_ m k).
Proof.
  intros Hm Hk tx w r tx' w' Hr. unfold then_, ebind. destruct (m tx w) as [[r1 tx1] w1] eqn:E.
  apply Hk. by eapply Hm.
Qed.

Lemma interp_keeps {T} (p : TxProg T) : tame ok_name p -> closure_keeps (interp p).
Proof.
  induction p as [T r|T|T sql k IH|T sql k IH|T k IH|T name k IH|T name k IH|T k IH|T k IH|U T inner IHi k IH];
    cbn; intros Ht.
  - intros tx w r1 tx' w' Hr. unfold eret. by intros [= <- <- <-].
  - intros tx w r1 tx' w' Hr. unfold eret. by intros [= <- <- <-].
  - destruct Ht as [Hs Ht]. apply then_keeps; [by apply execute_keeps|auto].
  - destruct Ht as [Hs Ht]. apply then_keeps; [by apply query_keeps|auto].
  - intros tx w r1 tx' w' Hr. unfold then_, ebind. destruct (savepoint tx w) as [[r tx1] w1] eqn:E.
    destruct (savepoint_spec _ _ _ _ _ Hr E) as [Hr1 Hset]. apply IH; [|done]. apply Ht. intros n ->. apply Hset.
  - destruct Ht as [Hs Ht]. apply then_keeps; [by apply rollback_to_keeps|auto].
  - destruct Ht as [Hs Ht]. apply then_keeps; [by apply release_keeps|auto].
  - done.
  - apply then_keeps; [apply rollback_keeps|auto].
  - destruct Ht as [Hi Ht]. intros tx w r1 tx' w' Hr. unfold ebind at 1.
    destruct (run_savepoint (interp inner) tx w) as [[out tx1] w1] eqn:E.
    assert (Hr1 : running tx1 w1) by (eapply run_savepoint_keeps; [apply IHi; exact Hi|exact Hr|exact E]).
    destruct out as [r|]; [by apply IH|]. unfold eret. by intros [= <- <- <-].
Qed.
End Kept.

(** * Theorems *)

Section Theorems.
Context {D : Type} `{L : TxStoreLaws D}.

Lemma plan_sets db level plan sql :
  plan_isolation db level = Ok plan -> pre_begin plan = Some sql \/ post_begin plan = Some sql ->
  starts_with "SET TRANSACTION" sql = true.
Proof.
  unfold plan_isolation. intros Hp Hs.
  repeat case_match; simplify_eq/=; destruct Hs as [Hs|Hs]; simplify_eq; reflexivity.
Qed.

Lemma same_store_trans w1 w2 w3 : same_store w1 w2 -> same_store w2 w3 -> same_store w1 w3.
Proof.
  intros [Hp H1] [Hp2 H2]. split; [congruence|]. intros c. destruct (H1 c) as (? & ? & ?), (H2 c) as (? & ? & ?).
  repeat split; congruence.
Qed.

(** An optional statement that sets a property of the transaction. *)
Lemma set_optional c (osql : option string) w r w' :
  (forall sql, osql = Some sql -> starts_with "SET TRANSACTION" sql = true) ->
  match osql with Some sql => conn_execute c sql | None => eret (Ok 0%Z) end w = (r, w') -> same_store w w'.
Proof.
  intros Hs. destruct osql as [sql|]; [|unfold eret; intros [= <- <-]; by repeat split].
  intros E. pose proof (set_law c sql w (Hs sql eq_refl)) as Hl. by rewrite E in Hl.
Qed.

Lemma open_transaction_spec c o w r w' :
  opened c w = false -> open_transaction c o w = (r, w') ->
  published w' = published w /\
  (is_ok r = true -> opened c w' = true /\ pending c w' = published w).
Proof.
  intros Hop. unfold open_transaction.
  destruct (match isolation_level o with Some level => _ | None => _ end) as [plan|e] eqn:Eplan.
  2: { unfold eret. intros [= <- <-]. by split. }
  assert (Hset : forall sql, (plan ≫= pre_begin) = Some sql \/ (plan ≫= post_begin) = Some sql ->
                   starts_with "SET TRANSACTION" sql = true).
  { intros sql Hs. destruct (isolation_level o) as [level|]; [|simplify_eq; by destruct Hs].
    destruct (plan_isolation (conn_db_type c) level) as [q|] eqn:Eq; simplify_eq. by eapply plan_sets. }
  unfold ebind at 1.
  destruct (match plan ≫= pre_begin with Some sql => conn_execute c sql | None => _ end w) as [r1 w1] eqn:E1.
  apply set_optional in E1 as Hs1; [|auto]. destruct Hs1 as [Hp1 Hw1]. destruct (Hw1 c) as (_ & Hop1 & _).
  destruct r1 as [n1|e1]; [|unfold eret; intros [= <- <-]; by split].
  unfold ebind at 1. destruct (conn_begin c w1) as [r2 w2] eqn:E2.
  destruct (begin_law _ _ _ _ (eq_trans Hop1 Hop) E2) as [Hp2 Hb]. destruct r2 as [u2|e2].
  2: { unfold eret. intros [= <- <-]. split; [congruence|done]. }
  destruct (Hb eq_refl) as (Hop2 & Hpen2 & _). unfold ebind at 1.
  destruct (match plan ≫= post_begin with Some sql => conn_execute c sql | None => _ end w2) as [r3 w3] eqn:E3.
  apply set_optional in E3 as Hs3; [|auto]. destruct Hs3 as [Hp3 Hw3]. destruct (Hw3 c) as (Hpen3 & Hop3 & _).
  destruct r3 as [n3|e3].
  2: { unfold ebind. destruct (conn_rollback c w3) as [r4 w4] eqn:E4. destruct (rollback_law _ _ _ _ E4) as [Hp4 _].
       unfold eret. intros [= <- <-]. split; [congruence|done]. }
  unfold ebind at 1.
  destruct ((if read_only o then conn_execute c "SET TRANSACTION READ ONLY" else eret (Ok 0%Z)) w3) as [r4 w4] eqn:E4.
  assert (Hs4 : same_store w3 w4).
  { apply (set_optional c (if read_only o then Some "SET TRANSACTION READ ONLY" else None) w3 r4 w4).
    - intros sql. destruct (read_only o); [|done]. by intros [= <-].
    - by destruct (read_only o). }
  destruct Hs4 as [Hp4 Hw4]. destruct (Hw4 c) as (Hpen4 & Hop4 & _). destruct r4 as [n4|e4].
  - unfold eret. intros [= <- <-]. split; [congruence|]. intros _. split; congruence.
  - unfold ebind. destruct (conn_rollback c w4) as [r5 w5] eqn:E5. destruct (rollback_law _ _ _ _ E5) as [Hp5 _].
    unfold eret. intros [= <- <-]. split; [congruence|done].
Qed.

Definition anything (ms : list (string * D)) (k : Z) : Prop := True.
Definition any_name (n : string) : Prop := True.

(** Closing an active transaction: nothing but a commit that succeeds publishes. *)
Lemma commit_spec c o p0 tx w r tx' w' :
  running c o p0 anything tx w -> commit tx w = (r, tx', w') ->
  if is_ok r then state tx' = Committed /\ published w' = pending c w /\ opened c w' = false
  else published w' = p0 /\ conn tx' = Some c.
Proof.
  intros Hr. unfold commit, when_active, is_active. case_bool_decide as Ha.
  2: { unfold eret. intros [= <- <- <-]. cbn. by destruct Hr as (? & ? & _). }
  unfold in_time, ebind at 1. destruct (check_hold_timeout tx w) as [[r1 tx1] w1] eqn:E1.
  assert (Hr1 : running c o p0 anything tx1 w1) by (eapply timeout_keeps; [exact Hr|exact E1]).
  destruct r1 as [u|e]; [|unfold eret; intros [= <- <- <-]; cbn; by destruct Hr1 as (? & ? & _)].
  apply timeout_ok in E1 as [-> [_ Hw]]. destruct (Hw c) as (Hpen & _).
  destruct (running_active _ _ _ _ _ _ Hr1 Ha) as (Hp & Hc & _ & Hop & _). unfold with_conn. rewrite Hc.
  unfold ebind. destruct (conn_commit c w1) as [r2 w2] eqn:E2. destruct (commit_law _ _ _ _ Hop E2) as [Hpub Hcl].
  unfold eret. destruct r2 as [u2|e2]; intros [= <- <- <-]; cbn in *.
  - split; [done|]. split; [congruence|auto].
  - split; [congruence|done].
Qed.

Lemma tx_drop_published runtime tx w : published (snd (tx_drop runtime tx w)) = published w.
Proof.
  unfold tx_drop. destruct (is_active tx && runtime); [|done]. destruct (conn tx) as [c|]; [|done].
  unfold ebind, eret. destruct (conn_rollback c w) as [r1 w1] eqn:E. cbn. by destruct (rollback_law _ _ _ _ E).
Qed.

Lemma tx_drop_inactive runtime tx w : state tx <> Active -> tx_drop runtime tx w = (tt, w).
Proof. intros Hs. unfold tx_drop, is_active. by rewrite bool_decide_false. Qed.

(** C5. [run_transaction] is atomic.  When it returns a value, the closure returned it, and what the
    closure left pending is published, all at once and by the commit; when it returns an error or
    panics, whatever the reason (the closure, a timeout, the database), nothing is published.
    The closure may use savepoints and roll back; it must not commit by itself. *)
Theorem run_transaction_atomic {T} (p : TxProg T) runtime c o w out w' :
  opened c w = false -> tame any_name p -> run_transaction runtime c o (interp p) w = (out, w') ->
  match out with
  | Returned (Ok v) => exists tx1 w1 tx2 w2,
      interp p tx1 w1 = (Returned (Ok v), tx2, w2) /\
      pending c w1 = published w /\ published w2 = published w /\
      published w' = pending c w2 /\ opened c w' = false
  | _ => published w' = published w
  end.
Proof.
  intros Hop Hp. unfold run_transaction, ebind at 1. destruct (open_transaction c o w) as [r1 w1] eqn:E1.
  destruct (open_transaction_spec _ _ _ _ _ Hop E1) as [Hp1 Hb]. destruct r1 as [u|e]; [|unfold eret; by intros [= <- <-]].
  destruct (Hb eq_refl) as [Hop1 Hpen1]. unfold ebind at 1.
  assert (Hnew : exists new w2, tx_new c o w1 = (new, w2) /\ same_store w1 w2 /\
            forall tx, new = Some tx -> running c o (published w) anything tx w2).
  { unfold tx_new. destruct (timeout o) as [t|].
    - unfold ebind, eret. pose proof (clock_law w1) as Hc. destruct (instant_now w1) as [now w2]. cbn in Hc.
      eexists _, _. split; [done|]. split; [done|]. destruct Hc as [Hc1 Hc2]. destruct (Hc2 c) as (_ & Hc3 & _).
      intros tx Htx. destruct (instant_add now t) as [dl|]; [|done]. injection Htx as <-.
      split; [congruence|]. split; [done|]. split; [done|]. left. split; [done|]. split; [congruence|done].
    - eexists _, _. split; [done|]. split; [by repeat split|]. intros tx [= <-].
      split; [done|]. split; [done|]. split; [done|]. by left. }
  destruct Hnew as (new & w2 & Enew & [Hp2 Hw2] & Hrun). rewrite Enew. destruct (Hw2 c) as (Hpen2 & _).
  destruct new as [tx|]; [|unfold eret; intros [= <- <-]; congruence]. specialize (Hrun tx eq_refl).
  unfold ebind at 1. destruct (interp p tx w2) as [[out1 tx1] w3] eqn:E3.
  assert (Hr3 : running c o (published w) anything tx1 w3).
  { refine (interp_keeps c o (published w) anything any_name _ _ p Hp _ _ _ _ _ Hrun E3); done. }
  destruct out1 as [[v|e]|].
  - unfold ebind at 1. unfold ebind at 1. destruct (commit tx1 w3) as [[r4 tx4] w4] eqn:E4.
    pose proof (commit_spec _ _ _ _ _ _ _ _ Hr3 E4) as H4. unfold eret at 1. destruct r4 as [u4|e4]; cbn [is_ok] in H4.
    + destruct H4 as (Hst & Hpub & Hcl). unfold ebind. rewrite tx_drop_inactive by congruence. unfold eret.
      intros [= <- <-]. exists tx, w2, tx1, w3. split; [done|]. split; [congruence|]. split; [by destruct Hr3|done].
    + unfold ebind. pose proof (tx_drop_published runtime tx4 w4) as Hd. destruct (tx_drop runtime tx4 w4) as [u5 w5].
      unfold eret. cbn in Hd. intros [= <- <-]. destruct H4. congruence.
  - unfold ebind at 1. unfold ebind at 1. destruct (rollback tx1 w3) as [[r4 tx4] w4] eqn:E4.
    assert (Hr4 : running c o (published w) anything tx4 w4) by (eapply rollback_keeps; [exact Hr3|exact E4]).
    unfold eret at 1, ebind. pose proof (tx_drop_published runtime tx4 w4) as Hd.
    destruct (tx_drop runtime tx4 w4) as [u5 w5]. unfold eret. cbn in Hd. intros [= <- <-]. destruct Hr4. congruence.
  - unfold ebind at 1. unfold ebind at 1. destruct (rollback tx1 w3) as [[r4 tx4] w4] eqn:E4.
    assert (Hr4 : running c o (published w) anything tx4 w4) by (eapply rollback_keeps; [exact Hr3|exact E4]).
    unfold eret at 1, ebind. pose proof (tx_drop_published runtime tx4 w4) as Hd.
    destruct (tx_drop runtime tx4 w4) as [u5 w5]. unfold eret. cbn in Hd. intros [= <- <-]. destruct Hr4. congruence.
Qed.

(** ** Nested scopes *)

(** The savepoints on the connection are those the transaction numbered. *)
Definition numbered (o : TransactOptions) (ms : list (string * D)) (k : Z) : Prop :=
  (0 <= k <= max_nesting_depth o)%Z /\ forall n, n ∈ ms.*1 -> exists j, (0 < j <= k)%Z /\ n = savepoint_name j.

(** [l] are the savepoints set since the one numbered [n1]. *)
Definition above (o : TransactOptions) (n1 : Z) (d0 : D) (ms0 : list (string * D)) (ms : list (string * D)) (k : Z) : Prop :=
  (n1 <= k <= max_nesting_depth o)%Z /\
  exists l, ms = (l ++ (savepoint_name n1, d0) :: ms0)%list /\
    forall n, n ∈ l.*1 -> exists j, (n1 < j <= k)%Z /\ n = savepoint_name j.

(** The names of savepoints set after the one numbered [n1]. *)
Definition set_after (n1 : Z) (n : string) : Prop := exists j, (n1 < j)%Z /\ n = savepoint_name j.

Lemma savepoint_name_inj i j : savepoint_name i = savepoint_name j -> i = j.
Proof. unfold savepoint_name. intros [= Hp]. exact (pretty_Z_inj _ _ Hp). Qed.

Lemma first_mark (n : string) (d d' : D) l l' rest rest' :
  n ∉ l.*1 -> n ∉ l'.*1 -> (l ++ (n, d) :: rest = l' ++ (n, d') :: rest')%list -> d = d' /\ rest = rest' /\ l = l'.
Proof.
  revert l'. induction l as [|[a b] l IH]; intros [|[a' b'] l']; cbn; rewrite ?not_elem_of_cons; intros Hl1 Hl2'.
  - by intros [= -> ->].
  - intros [= <- <- _]. naive_solver.
  - intros [= -> -> _]. naive_solver.
  - intros [= -> -> Heq]. destruct (IH l') as (-> & -> & ->); naive_solver.
Qed.

Lemma numbered_savepoint o ms k k' (d : D) : (max_nesting_depth o < 2 ^ 32 - 1)%Z ->
  numbered o ms k -> k' = wrap32 (k + 1) -> (k' <= max_nesting_depth o)%Z ->
  numbered o ((savepoint_name k', d) :: ms) k' /\ numbered o ms k' /\ any_name (savepoint_name k').
Proof.
  intros Hmax [Hk Hms] -> Hle. rewrite wrap32_small in * by lia.
  assert (Hms' : forall n, n ∈ ms.*1 -> exists j, (0 < j <= k + 1)%Z /\ n = savepoint_name j).
  { intros n Hn. destruct (Hms n Hn) as (j & Hj & ->). exists j. split; [lia|done]. }
  split; [|split; [split; [lia|done]|done]]. split; [lia|]. cbn. intros n [->|Hn]%elem_of_cons; [|auto].
  exists (k + 1)%Z. split; [lia|done].
Qed.

Lemma numbered_rollback o l n (d : D) rest k : any_name n ->
  numbered o (l ++ (n, d) :: rest)%list k -> n ∉ l.*1 -> numbered o ((n, d) :: rest) k /\ numbered o rest k.
Proof.
  intros _ [Hk Hms] _. rewrite fmap_app in Hms. cbn in Hms. repeat split; try lia; intros n' Hn'; apply Hms; set_solver.
Qed.

Lemma above_savepoint o n1 d0 ms0 ms k k' (d : D) : (max_nesting_depth o < 2 ^ 32 - 1)%Z -> (0 <= n1)%Z ->
  above o n1 d0 ms0 ms k -> k' = wrap32 (k + 1) -> (k' <= max_nesting_depth o)%Z ->
  above o n1 d0 ms0 ((savepoint_name k', d) :: ms) k' /\ above o n1 d0 ms0 ms k' /\ set_after n1 (savepoint_name k').
Proof.
  intros Hmax Hn1 (Hk & l & -> & Hl) -> Hle. rewrite wrap32_small in * by lia.
  assert (Hl' : forall n, n ∈ l.*1 -> exists j, (n1 < j <= k + 1)%Z /\ n = savepoint_name j).
  { intros n Hn. destruct (Hl n Hn) as (j & Hj & ->). exists j. split; [lia|done]. }
  split; [|split].
  - split; [lia|]. exists ((savepoint_name (k + 1), d) :: l). split; [done|]. cbn.
    intros n [->|Hn]%elem_of_cons; [|auto]. exists (k + 1)%Z. split; [lia|done].
  - split; [lia|]. by exists l.
  - exists (k + 1)%Z. split; [lia|done].
Qed.

Lemma above_rollback o n1 d0 ms0 l n (d : D) rest k : (forall m, m ∈ ms0.*1 -> ~ set_after n1 m) ->
  set_after n1 n -> above o n1 d0 ms0 (l ++ (n, d) :: rest)%list k -> n ∉ l.*1 ->
  above o n1 d0 ms0 ((n, d) :: rest) k /\ above o n1 d0 ms0 rest k.
Proof.
  intros Hms0 Hn (Hk & l' & Heq & Hl) Hnl.
  assert (Hsuf : exists l2, ((n, d) :: l2) `suffix_of` l' /\ rest = (l2 ++ (savepoint_name n1, d0) :: ms0)%list).
  { apply app_eq_app in Heq as (m & [[-> Heq]|[-> Heq]]).
    - destruct m as [|[n' d'] m]; cbn in Heq; simplify_eq.
      + destruct Hn as (j & Hj & Hj'%savepoint_name_inj). lia.
      + exfalso. apply (Hms0 n); [|done]. rewrite fmap_app. set_solver.
    - destruct m as [|[n' d'] m]; cbn in Heq; simplify_eq.
      + destruct Hn as (j & Hj & Hj'%savepoint_name_inj). lia.
      + exists m. split; [by exists l|done]. }
  destruct Hsuf as (l2 & [l3 ->] & ->). split; (split; [done|]).
  - exists ((n, d) :: l2). split; [done|]. intros m Hm. apply Hl. rewrite fmap_app. set_solver.
  - exists l2. split; [done|]. intros m Hm. apply Hl. rewrite fmap_app. set_solver.
Qed.

(** A statement on a savepoint that succeeds reached the database, in time and while active. *)
Lemma on_savepoint_ok c o p0 P verb name tx w u tx' w' :
  running c o p0 P tx w -> when_active (in_time (on_savepoint verb name)) tx w = (Ok u, tx', w') ->
  opened c w = true /\ exists w1 n, same_store w w1 /\ conn_execute c (verb +:+ name) w1 = (Ok n, w').
Proof.
  intros Hr. unfold when_active, is_active. case_bool_decide as Ha; [|by unfold eret].
  destruct (running_active _ _ _ _ _ _ Hr Ha) as (_ & Hc & _ & Hop & _).
  unfold in_time, ebind at 1. destruct (check_hold_timeout tx w) as [[r1 tx1] w1] eqn:E1.
  destruct r1 as [u1|e]; [|by unfold eret]. apply timeout_ok in E1 as [-> Hw].
  unfold on_savepoint. destruct (validate_savepoint_name name) as [u2|e]; [|by unfold eret].
  unfold with_conn. rewrite Hc. unfold ebind, eret. destruct (conn_execute c (verb +:+ name) w1) as [r2 w2] eqn:E2.
  destruct r2 as [n|e]; intros [= <- <- <-]. split; [done|]. by exists w1, n.
Qed.

(** What a successful [release_savepoint] or [rollback_to_savepoint] of the scope's own savepoint
    leaves, when only later savepoints were set meanwhile. *)
Lemma release_spec c o p0 n1 d0 ms0 tx w u tx' w' :
  running c o p0 (above o n1 d0 ms0) tx w -> release_savepoint (savepoint_name n1) tx w = (Ok u, tx', w') ->
  pending c w' = pending c w /\ marks c w' = ms0.
Proof.
  intros Hr Hm. destruct (on_savepoint_ok _ _ _ _ _ _ _ _ _ _ _ Hr Hm) as (Hop & w1 & k & [_ Hw] & E).
  destruct (Hw c) as (Hpen & Hop1 & Hms). rewrite <- Hop1 in Hop.
  destruct (release_law _ _ _ _ _ Hop E) as [_ (l & d & rest & Hm1 & Hnl & -> & ->)].
  destruct Hr as (_ & _ & _ & [(_ & _ & _ & l' & Hm2 & Hl')|Hs]).
  - split; [done|]. rewrite <- Hms, Hm1 in Hm2. apply first_mark in Hm2 as (_ & -> & _); [done|done|].
    intros (j & Hj & Hj'%savepoint_name_inj)%Hl'. lia.
  - unfold release_savepoint, when_active, is_active in Hm. rewrite bool_decide_false in Hm by congruence. done.
Qed.

Lemma rollback_to_spec c o p0 n1 d0 ms0 tx w u tx' w' :
  running c o p0 (above o n1 d0 ms0) tx w -> rollback_to_savepoint (savepoint_name n1) tx w = (Ok u, tx', w') ->
  pending c w' = d0 /\ marks c w' = (savepoint_name n1, d0) :: ms0.
Proof.
  intros Hr Hm. destruct (on_savepoint_ok _ _ _ _ _ _ _ _ _ _ _ Hr Hm) as (Hop & w1 & k & [_ Hw] & E).
  destruct (Hw c) as (Hpen & Hop1 & Hms). rewrite <- Hop1 in Hop.
  destruct (rollback_to_law _ _ _ _ _ Hop E) as [_ (l & d & rest & Hm1 & Hnl & -> & ->)].
  destruct Hr as (_ & _ & _ & [(_ & _ & _ & l' & Hm2 & Hl')|Hs]).
  - rewrite <- Hms, Hm1 in Hm2. apply first_mark in Hm2 as (-> & -> & _); [done|done|].
    intros (j & Hj & Hj'%savepoint_name_inj)%Hl'. lia.
  - unfold rollback_to_savepoint, when_active, is_active in Hm. rewrite bool_decide_false in Hm by congruence. done.
Qed.

Lemma running_weaken c o p0 (P Q : list (string * D) -> Z -> Prop) tx w :
  (forall ms k, P ms k -> Q ms k) -> running c o p0 P tx w -> running c o p0 Q tx w.
Proof. unfold running. naive_solver. Qed.

Lemma release_published c o p0 P name tx w r tx' w' :
  running c o p0 P tx w -> release_savepoint name tx w = (r, tx', w') -> published w' = p0.
Proof.
  intros Hr E. assert (Hr' : running c o p0 anything tx' w'); [|by destruct Hr'].
  refine (release_keeps c o p0 anything any_name _ name I _ _ _ _ _ _ E); [done|]. by eapply running_weaken.
Qed.

Lemma rollback_to_published c o p0 P name tx w r tx' w' :
  running c o p0 P tx w -> rollback_to_savepoint name tx w = (r, tx', w') -> published w' = p0.
Proof.
  intros Hr E. assert (Hr' : running c o p0 anything tx' w'); [|by destruct Hr'].
  refine (rollback_to_keeps c o p0 anything any_name _ name I _ _ _ _ _ _ E); [done|]. by eapply running_weaken.
Qed.

Lemma numbered_keeps c o p0 {T} (p : TxProg T) tx w out tx' w' : (max_nesting_depth o < 2 ^ 32 - 1)%Z ->
  tame any_name p -> running c o p0 (numbered o) tx w -> interp p tx w = (out, tx', w') ->
  running c o p0 (numbered o) tx' w'.
Proof.
  intros Hmax Hp. apply (interp_keeps c o p0 (numbered o) any_name); [|apply numbered_rollback|done].
  intros ms k k' d. by apply numbered_savepoint.
Qed.

(** C18. [run_savepoint] is a nested scope of an open transaction.  When it returns a value the closure
    returned it, what the closure left pending stays pending, and no savepoint is left.  When the
    closure fails or panics and the database takes the rollback, what is pending is exactly what
    was before the scope, whatever savepoints the closure had set.  Two more ways to fail: the
    savepoint is refused, or its release is; then the error comes back but the work stays
    pending.  Nothing is published in any case. *)
Theorem run_savepoint_scopes {T} (p : TxProg T) c o p0 tx w out tx' w' :
  (max_nesting_depth o < 2 ^ 32 - 1)%Z -> running c o p0 (numbered o) tx w ->
  tame (set_after (savepoint_counter tx + 1)) p -> run_savepoint (interp p) tx w = (out, tx', w') ->
  published w' = p0 /\
  ((exists e, savepoint tx w = (Err e, tx', w') /\ out = Returned (Err e)) \/
   exists sp tx1 w1 out1 tx2 w2,
     savepoint tx w = (Ok sp, tx1, w1) /\ interp p tx1 w1 = (out1, tx2, w2) /\ pending c w1 = pending c w /\
     match out1 with
     | Returned (Ok v) =>
         (out = out1 /\ pending c w' = pending c w2 /\ marks c w' = marks c w) \/
         exists e, release_savepoint sp tx2 w2 = (Err e, tx', w') /\ out = Returned (Err e)
     | _ =>
         out = out1 /\ exists r, rollback_to_savepoint sp tx2 w2 = (r, tx', w') /\
           (is_ok r = true -> pending c w' = pending c w /\ marks c w' = (sp, pending c w) :: marks c w)
     end).
Proof.
  intros Hmax Hr Hp. unfold run_savepoint, ebind at 1.
  pose proof (savepoint_spec c o p0 (numbered o) any_name) as Hspec.
  destruct (savepoint tx w) as [[r1 tx1] w1] eqn:E1. destruct (Hspec ltac:(intros ms k k' d; by apply numbered_savepoint) _ _ _ _ _ Hr E1) as [Hr1 Hset].
  destruct r1 as [sp|e].
  2: { unfold eret. intros [= <- <- <-]. split; [by destruct Hr1|]. left. by exists e. }
  destruct Hset as (Ha1 & Hk1 & -> & _ & Hpen & Hmk).
  set (n1 := savepoint_counter tx1) in *.
  assert (Hbefore : numbered o (marks c w) (savepoint_counter tx) /\ n1 = (savepoint_counter tx + 1)%Z).
  { destruct Hr as (_ & _ & _ & [(_ & _ & Hn)|Hs]).
    - split; [done|]. destruct Hn as [Hn _]. by rewrite Hk1, wrap32_small by lia.
    - unfold savepoint, when_active, is_active in E1. rewrite bool_decide_false in E1 by congruence. done. }
  destruct Hbefore as [[Hk0 Hms0] Hn1]. rewrite <- Hn1 in Hp.
  assert (Hab : running c o p0 (above o n1 (pending c w) (marks c w)) tx1 w1).
  { destruct (running_active _ _ _ _ _ _ Hr1 Ha1) as (? & ? & ? & ? & [Hn _]). repeat split; try done. left.
    split; [done|]. split; [done|]. split; [lia|]. exists []. split; [done|]. by intros n Hn'%elem_of_nil. }
  assert (Hfresh : forall m, m ∈ (marks c w).*1 -> ~ set_after n1 m).
  { intros m Hm (j & Hj & ->). destruct (Hms0 _ Hm) as (i & Hi & Heq%savepoint_name_inj). lia. }
  unfold ebind at 1. destruct (interp p tx1 w1) as [[out1 tx2] w2] eqn:E2.
  assert (Hr2 : running c o p0 (above o n1 (pending c w) (marks c w)) tx2 w2).
  { refine (interp_keeps c o p0 _ (set_after n1) _ _ p Hp _ _ _ _ _ Hab E2).
    - intros ms k k' d. apply above_savepoint; lia.
    - intros l n d rest k. by apply above_rollback. }
  destruct out1 as [[v|e]|]; unfold ebind, eret.
  - destruct (release_savepoint (savepoint_name n1) tx2 w2) as [[r3 tx3] w3] eqn:E3. intros [= <- <- <-].
    split; [by eapply release_published|]. right. eexists _, _, _, _, _, _. split; [done|]. split; [done|].
    split; [done|]. destruct r3 as [u|e]; [left; split; [done|]|right; by exists e].
    by eapply release_spec.
  - destruct (rollback_to_savepoint (savepoint_name n1) tx2 w2) as [[r3 tx3] w3] eqn:E3. intros [= <- <- <-].
    split; [by eapply rollback_to_published|]. right. eexists _, _, _, _, _, _. split; [done|]. split; [done|].
    split; [done|]. split; [done|]. exists r3. split; [done|]. destruct r3; [|done]. intros _. by eapply rollback_to_spec.
  - destruct (rollback_to_savepoint (savepoint_name n1) tx2 w2) as [[r3 tx3] w3] eqn:E3. intros [= <- <- <-].
    split; [by eapply rollback_to_published|]. right. eexists _, _, _, _, _, _. split; [done|]. split; [done|].
    split; [done|]. split; [done|]. exists r3. split; [done|]. destruct r3; [|done]. intros _. by eapply rollback_to_spec.
Qed.
End Theorems.
End Transaction.

(** * A database of one connection

    It keeps the statements that were run; [clock] moves on by a second with every reading, a
    statement that starts with FAIL fails. *)

Record MiniDb : Type := mkMini {
  clock : Z;
  mini_published : list string;
  mini_tx : option (list string * list (string * list string));
}.

#[local] Instance MiniDb_clock : Clock MiniDb := {|
  system_millis := fun w => (clock w / 10 ^ 6, w)%Z;
  instant_now := fun w => (clock w, mkMini (clock w + 10 ^ 9) (mini_published w) (mini_tx w));
  sleep_ns := fun n w => (tt, mkMini (clock w + n) (mini_published w) (mini_tx w));
|}.

Fixpoint find_mark (n : string) (ms : list (string * list string)) : option (list string * list (string * list string)) :=
  match ms with
  | [] => None
  | (m, d) :: rest => if bool_decide (n = m) then Some (d, rest) else find_mark n rest
  end.

Definition mini_control (sql : string) : bool :=
  existsb (fun p => starts_with p sql) ["SAVEPOINT "; "ROLLBACK"; "RELEASE SAVEPOINT "; "COMMIT"; "BEGIN"].

(** A statement inside the transaction with [d] pending and savepoints [ms]. *)
Definition mini_statement (sql : string) (d : list string) (ms : list (string * list string)) :
    result Z string * (list string * list (string * list string)) :=
  if starts_with "FAIL" sql then (Err "failed", (d, ms)) else
  match strip_prefix "SAVEPOINT " sql, strip_prefix "ROLLBACK TO SAVEPOINT " sql, strip_prefix "RELEASE SAVEPOINT " sql with
  | Some n, _, _ => (Ok 0%Z, (d, (n, d) :: ms))
  | _, Some n, _ =>
      match find_mark n ms with
      | Some (d0, rest) => (Ok 0%Z, (d0, (n, d0) :: rest))
      | None => (Err "no such savepoint", (d, ms))
      end
  | _, _, Some n =>
      match find_mark n ms with
      | Some (_, rest) => (Ok 0%Z, (d, rest))
      | None => (Err "no such savepoint", (d, ms))
      end
  | _, _, _ => (Ok 1%Z, ((d ++ [sql])%list, ms))
  end.

Definition mini_execute (sql : string) : Eff MiniDb (result Z string) := fun w =>
  if starts_with "SET TRANSACTION" sql then (Ok 0%Z, w) else
  match mini_tx w with
  | Some (d, ms) =>
      let '(r, tx) := mini_statement sql d ms in (r, mkMini (clock w) (mini_published w) (Some tx))
  | None => (Ok 1%Z, mkMini (clock w) (mini_published w ++ [sql]) None)
  end.

#[local] Instance MiniDb_connection : Connection MiniDb unit (list string) := {|
  conn_begin := fun _ w => (Ok tt, mkMini (clock w) (mini_published w) (Some (mini_published w, [])));
  conn_commit := fun _ w => (Ok tt, mkMini (clock w) (match mini_tx w with Some (d, _) => d | None => mini_published w end) None);
  conn_rollback := fun _ w => (Ok tt, mkMini (clock w) (mini_published w) None);
  conn_execute := fun _ => mini_execute;
  conn_query := fun _ _ w => (Ok (match mini_tx w with Some (d, _) => d | None => mini_published w end), w);
  conn_db_type := fun _ => Some PostgreSQL;
|}.

#[local] Instance MiniDb_store : TxStore (W := MiniDb) (C := unit) (list string) := {|
  published := mini_published;
  pending := fun _ w => match mini_tx w with Some (d, _) => d | None => [] end;
  opened := fun _ w => match mini_tx w with Some _ => true | None => false end;
  marks := fun _ w => match mini_tx w with Some (_, ms) => ms | None => [] end;
  control := mini_control;
|}.

Lemma find_mark_split n ms d rest : find_mark n ms = Some (d, rest) ->
  exists l, ms = (l ++ (n, d) :: rest)%list /\ n ∉ l.*1.
Proof.
  induction ms as [|[m d'] ms IH]; [done|]. cbn. case_bool_decide as Hn.
  - intros [= -> ->]. subst m. exists []. split; [done|apply not_elem_of_nil].
  - intros (l & -> & Hl)%IH. exists ((m, d') :: l). split; [done|]. cbn. by apply not_elem_of_cons.
Qed.

Lemma prefix_split (p s : string) : String.prefix p s = true -> exists r, s = p +:+ r.
Proof.
  revert s. induction p as [|x p IH]; intros [|y s]; cbn; try done; [by exists EmptyString|by eexists|].
  destruct (ascii_dec x y) as [->|]; [|done]. intros (r & ->)%IH. by exists r.
Qed.

#[local] Instance MiniDb_laws : TxStoreLaws (W := MiniDb) (C := unit) (list string).
Proof.
  split.
  - by intros.
  - intros c sql w Hs. cbn. unfold mini_execute. rewrite Hs. by repeat split.
  - intros c w r w' _ [= <- <-]. done.
  - intros c w r w' Ho [= <- <-]. cbn in *. by destruct (mini_tx w) as [[d ms]|].
  - intros c w r w' [= <- <-]. done.
  - intros c sql w Ho Hc. cbn in Ho, Hc. cbn. unfold mini_execute, mini_statement.
    destruct (starts_with "SET TRANSACTION" sql); [by repeat split|]. destruct (mini_tx w) as [[d ms]|]; [|done].
    unfold mini_statement. destruct (starts_with "FAIL" sql); [by repeat split|].
    apply orb_false_iff in Hc as [Hc1 [Hc2 [Hc3 _]%orb_false_iff]%orb_false_iff]. unfold starts_with in *.
    unfold strip_prefix. rewrite Hc1, Hc3. destruct (String.prefix "ROLLBACK TO SAVEPOINT " sql) eqn:Hp; [|by repeat split].
    apply prefix_split in Hp as [s ->]. done.
  - intros c sql w Ho _. by repeat split.
  - intros c n w r w' Ho. cbn in Ho |- *. unfold mini_execute. cbn [starts_with]. destruct (mini_tx w) as [[d ms]|]; [|done].
    unfold mini_statement. rewrite (strip_prefix_app "SAVEPOINT " n). cbn. by intros [= <- <-].
  - intros c n w r w' Ho. cbn in Ho |- *. unfold mini_execute. destruct (mini_tx w) as [[d ms]|]; [|done].
    unfold mini_statement. rewrite (strip_prefix_app "ROLLBACK TO SAVEPOINT " n). cbn.
    destruct (find_mark n ms) as [[d0 rest]|] eqn:E; intros [= <- <-]; [|done].
    apply find_mark_split in E as (l & -> & Hl). split; [done|]. by exists l, d0, rest.
  - intros c n w r w' Ho. cbn in Ho |- *. unfold mini_execute. destruct (mini_tx w) as [[d ms]|]; [|done].
    unfold mini_statement. rewrite (strip_prefix_app "RELEASE SAVEPOINT " n). cbn.
    destruct (find_mark n ms) as [[d0 rest]|] eqn:E; intros [= <- <-]; [|done].
    apply find_mark_split in E as (l & -> & Hl). split; [done|]. by exists l, d0, rest.
Qed.

(** * Concrete runs *)

Definition mini (db : list string) : MiniDb := mkMini 0 db None.
Definition Prog (T : Type) : Type := TxProg (Rows := list string) T.

(** Three writes; the second one is in a scope whose closure sets a savepoint of its own and fails. *)
Definition three_writes : Prog unit :=
  Execute "A" (fun _ =>
  RunSavepoint (Execute "B" (fun _ => Savepoint (fun _ => Execute "B2" (fun _ => Return (T := unit) (Err NestedNotSupported)))))
    (fun _ => Execute "C" (fun _ => Return (Ok tt)))).

(** A closure whose last statement fails. *)
Definition failing_write : Prog unit :=
  Execute "A" (fun _ => Execute "FAIL" (fun r => Return (match r with Ok _ => Ok tt | Err e => Err e end))).

Lemma three_writes_run :
  run_transaction true tt default_options (interp three_writes) (mini []) =
    (Returned (Ok tt), mkMini 0 ["A"; "C"] None).
Proof. by vm_compute. Qed.

Lemma run_transaction_atomic_witness :
  fst (run_transaction true tt default_options (interp failing_write) (mini ["X"])) = Returned (Err (CommitFailed "failed")) /\
  mini_published (snd (run_transaction true tt default_options (interp failing_write) (mini ["X"]))) = ["X"].
Proof.
  split; [by vm_compute|]. destruct (run_transaction true tt default_options (interp failing_write) (mini ["X"])) as [out w'] eqn:E.
  pose proof (run_transaction_atomic failing_write true tt default_options (mini ["X"]) out w' eq_refl) as H.
  assert (Ho : out = Returned (Err (CommitFailed "failed"))) by (revert E; vm_compute; congruence).
  subst out. apply H; [|exact E]. cbn. repeat split; auto.
Defined.

(** The scope of [three_writes], entered after its first write. *)
Definition scope_tx : Transaction unit := mkTx (Some tt) Active default_options 0 None.
Definition scope_db : MiniDb := mkMini 0 [] (Some (["A"], [])).
Definition failing_scope : Prog unit :=
  Execute "B" (fun _ => Savepoint (fun _ => Execute "B2" (fun _ => Return (Err NestedNotSupported)))).

Lemma run_savepoint_scopes_witness :
  mini_published (snd (run_savepoint (interp failing_scope) scope_tx scope_db)) = [] /\
  mini_tx (snd (run_savepoint (interp failing_scope) scope_tx scope_db)) = Some (["A"], [("sp_1", ["A"])]).
Proof.
  split; [|by vm_compute].
  destruct (run_savepoint (interp failing_scope) scope_tx scope_db) as [[out tx'] w'] eqn:E.
  refine (proj1 (run_savepoint_scopes failing_scope tt default_options [] scope_tx scope_db out tx' w' _ _ _ E)).
  - reflexivity.
  - repeat split; try done. left. repeat split; try done. cbn. by intros n Hn%elem_of_nil.
  - cbn. repeat split; auto.
Defined.

(** ** What modelling showed *)

(** [n] scopes one after the other, each of them released before the next. *)
Fixpoint scopes_in_turn (n : nat) : Prog unit :=
  match n with
  | O => Return (Ok tt)
  | S n => RunSavepoint (Return (Ok tt)) (fun r : result unit TxError => match r with Ok _ => scopes_in_turn n | Err e => Return (Err e) end)
  end.

(** The nesting limit counts every savepoint ever set: eight scopes in turn, none inside another,
    are the most a transaction gets. *)
Lemma ninth_scope_in_turn_refused :
  fst (run_transaction true tt default_options (interp (scopes_in_turn 8)) (mini [])) = Returned (Ok tt) /\
  fst (run_transaction true tt default_options (interp (scopes_in_turn 9)) (mini [])) = Returned (Err (MaxNestingDepthExceeded 9 8)).
Proof. by vm_compute. Qed.

(** A closure that commits by itself is published, and [run_transaction] reports a failure. *)
Lemma inner_commit_reported_as_error :
  run_transaction true tt default_options
    (interp (Execute "A" (fun _ => Commit (fun _ => Return (Ok tt))) : Prog unit)) (mini []) =
  (Returned (Err (NotActive Committed)), mkMini 0 ["A"] None).
Proof. by vm_compute. Qed.

(** The last attempt's own error comes back, not [DeadlockDetected]; with no attempts at all the
    operation never runs and [DeadlockDetected] is made up. *)
Lemma last_deadlock_is_not_wrapped w :
  let op := fun _ : Z => eret (W := MiniDb) (Err (CommitFailed "Deadlock detected")) : Eff MiniDb (result unit TxError) in
  fst (retry_on_deadlock 3 1 op w) = Err (CommitFailed "Deadlock detected") /\
  retry_on_deadlock 0 1 op w = (Err (DeadlockDetected 0 0), w).
Proof. by vm_compute. Qed.
