(* ===== verification/QueryBuilder.v ===== *)
(** The standalone query builder: [packages/sz-orm-query-builder/src/lib.rs].  The builders
    are records, their methods functions from a builder to a builder, and [build],
    [build_with_dialect] and [build_with_params] render them.  What the parameters of a
    rendered query mean is in [QueryParams.v]. *)

From Stdlib Require Import Ascii String.
From S2P Require Import Prelude SqlText Dialect Dialects Value.
Local Open Scope string_scope.
#[local] Arguments String.append !_ _ : simpl nomatch.

(** * Conditions *)

Record BuiltQuery : Type := mkBuilt { bq_sql : string; bq_params : list Value }.

Definition into_parts (b : BuiltQuery) : string * list Value := (bq_sql b, bq_params b).

(** [BuiltQuery::default()] *)
Definition built_default : BuiltQuery := mkBuilt "" [].

Inductive ParamWhere : Type :=
| PwAnd (column op : string) (values : list Value)
| PwOr (column op : string) (values : list Value).

Definition pw_values (pw : ParamWhere) : list Value :=
  match pw with PwAnd _ _ vs | PwOr _ _ vs => vs end.

Definition quote_ident (s : string) : string :=
  join "." (delimited backtick backtick <$> split_char "." s).

Definition quote_column_dialect (dialect : Dialect) (column : string) : string :=
  join "." (quote dialect <$> split_char "." column).

Definition SQL_KEYWORDS : list string :=
  ["DROP"; "DELETE"; "UPDATE"; "INSERT"; "ALTER"; "TRUNCATE"; "EXEC"; "CREATE"; "GRANT"; "REVOKE"].

(** [None] where the source panics. *)
Definition check_where_injection (condition : string) : option unit :=
  let upper := uppercase condition in
  if existsb (fun kw =>
       contains_text (";" +:+ kw) upper || contains_text ("; " +:+ kw) upper) SQL_KEYWORDS
  then None
  else if contains_text "--" condition then None
  else if contains_text "/*" condition || contains_text "*/" condition then None
  else Some tt.

(** * The builders *)

Inductive JoinOn : Type :=
| JoinRaw (raw : string)
| ColumnEq (left_column right_column : string)
| JoinParam (left_column op : string) (values : list Value).

Record JoinClause : Type := mkJoin {
  join_type : string;
  join_table : string;
  join_on : list JoinOn;
}.

Record SelectQuery : Type := mkSelect {
  sq_columns : list string;
  sq_from_table : option string;
  sq_from_subquery : option (string * string);
  sq_join_clauses : list JoinClause;
  sq_wheres : list string;
  sq_param_wheres : list ParamWhere;
  sq_order_by : list string;
  sq_group_by : list string;
  sq_having : list string;
  sq_limit : option Z;
  sq_offset : option Z;
  sq_distinct : bool;
  sq_ctes : list (string * string * bool);
  sq_window_columns : list string;
  sq_for_update : bool;
  sq_for_update_options : option string;
}.

Definition select_new : SelectQuery :=
  mkSelect [] None None [] [] [] [] [] [] None None false [] [] false None.

Inductive UpsertStrategy : Type :=
| UpsertNone
| OnConflictDoNothing (cols : list string)
| OnConflictDoUpdate (cols : list string) (assignments : list (string * string))
| OnDuplicateKeyUpdate (assignments : list (string * string))
| Replace.

Record InsertQuery : Type := mkInsert {
  iq_table : option string;
  iq_columns : list string;
  iq_values : list string;
  iq_upsert : UpsertStrategy;
  iq_returning : option (list string);
}.

Definition insert_new : InsertQuery := mkInsert None [] [] UpsertNone None.

Record UpdateQuery : Type := mkUpdate {
  uq_table : option string;
  uq_sets : list (string * string);
  uq_wheres : list string;
  uq_param_wheres : list ParamWhere;
  uq_returning : option (list string);
}.

Definition update_new : UpdateQuery := mkUpdate None [] [] [] None.

Record DeleteQuery : Type := mkDelete {
  dq_table : option string;
  dq_wheres : list string;
  dq_param_wheres : list ParamWhere;
  dq_returning : option (list string);
}.

Definition delete_new : DeleteQuery := mkDelete None [] [] None.

(** [Query::select], [Query::insert], [Query::update], [Query::delete] *)
Definition query_select : SelectQuery := select_new.
Definition query_insert : InsertQuery := insert_new.
Definition query_update : UpdateQuery := update_new.
Definition query_delete : DeleteQuery := delete_new.

(** ** Field updates *)

Definition push_column (c : string) (q : SelectQuery) : SelectQuery :=
  let 'mkSelect cs ft fs js ws ps os gs hs l o d ct wc fu fo := q in
  mkSelect (cs ++ [c])%list ft fs js ws ps os gs hs l o d ct wc fu fo.
Definition set_from (ft : option string) (fs : option (string * string)) (q : SelectQuery) :
    SelectQuery :=
  let 'mkSelect cs _ _ js ws ps os gs hs l o d ct wc fu fo := q in
  mkSelect cs ft fs js ws ps os gs hs l o d ct wc fu fo.
Definition push_join (j : JoinClause) (q : SelectQuery) : SelectQuery :=
  let 'mkSelect cs ft fs js ws ps os gs hs l o d ct wc fu fo := q in
  mkSelect cs ft fs (js ++ [j])%list ws ps os gs hs l o d ct wc fu fo.
Definition select_set_wheres (ws : list string) (ps : list ParamWhere) (q : SelectQuery) :
    SelectQuery :=
  let 'mkSelect cs ft fs js _ _ os gs hs l o d ct wc fu fo := q in
  mkSelect cs ft fs js ws ps os gs hs l o d ct wc fu fo.
Definition push_order (x : string) (q : SelectQuery) : SelectQuery :=
  let 'mkSelect cs ft fs js ws ps os gs hs l o d ct wc fu fo := q in
  mkSelect cs ft fs js ws ps (os ++ [x])%list gs hs l o d ct wc fu fo.
Definition push_group (g : string) (q : SelectQuery) : SelectQuery :=
  let 'mkSelect cs ft fs js ws ps os gs hs l o d ct wc fu fo := q in
  mkSelect cs ft fs js ws ps os (gs ++ [g])%list hs l o d ct wc fu fo.
Definition push_having (h : string) (q : SelectQuery) : SelectQuery :=
  let 'mkSelect cs ft fs js ws ps os gs hs l o d ct wc fu fo := q in
  mkSelect cs ft fs js ws ps os gs (hs ++ [h])%list l o d ct wc fu fo.
Definition set_limit (l : option Z) (q : SelectQuery) : SelectQuery :=
  let 'mkSelect cs ft fs js ws ps os gs hs _ o d ct wc fu fo := q in
  mkSelect cs ft fs js ws ps os gs hs l o d ct wc fu fo.
Definition set_offset (o : option Z) (q : SelectQuery) : SelectQuery :=
  let 'mkSelect cs ft fs js ws ps os gs hs l _ d ct wc fu fo := q in
  mkSelect cs ft fs js ws ps os gs hs l o d ct wc fu fo.
Definition set_distinct (d : bool) (q : SelectQuery) : SelectQuery :=
  let 'mkSelect cs ft fs js ws ps os gs hs l o _ ct wc fu fo := q in
  mkSelect cs ft fs js ws ps os gs hs l o d ct wc fu fo.
Definition push_cte (c : string * string * bool) (q : SelectQuery) : SelectQuery :=
  let 'mkSelect cs ft fs js ws ps os gs hs l o d ct wc fu fo := q in
  mkSelect cs ft fs js ws ps os gs hs l o d (ct ++ [c])%list wc fu fo.
Definition push_window (w : string) (q : SelectQuery) : SelectQuery :=
  let 'mkSelect cs ft fs js ws ps os gs hs l o d ct wc fu fo := q in
  mkSelect cs ft fs js ws ps os gs hs l o d ct (wc ++ [w])%list fu fo.
Definition set_for_update (fu : bool) (fo : option string) (q : SelectQuery) : SelectQuery :=
  let 'mkSelect cs ft fs js ws ps os gs hs l o d ct wc _ _ := q in
  mkSelect cs ft fs js ws ps os gs hs l o d ct wc fu fo.

(** * Conditions of the three builders

    [SelectQuery], [UpdateQuery] and [DeleteQuery] have the same condition methods on their
    own vectors; the interface is the two pushes. *)

Class Conditions (Q : Type) := {
  push_where : string -> Q -> Q;
  push_param_where : ParamWhere -> Q -> Q;
  param_wheres : Q -> list ParamWhere;
}.

#[export] Instance select_conditions : Conditions SelectQuery := {|
  push_where w q := select_set_wheres (sq_wheres q ++ [w])%list (sq_param_wheres q) q;
  push_param_where pw q := select_set_wheres (sq_wheres q) (sq_param_wheres q ++ [pw])%list q;
  param_wheres := sq_param_wheres;
|}.

#[export] Instance update_conditions : Conditions UpdateQuery := {|
  push_where w q :=
    mkUpdate (uq_table q) (uq_sets q) (uq_wheres q ++ [w])%list (uq_param_wheres q) (uq_returning q);
  push_param_where pw q :=
    mkUpdate (uq_table q) (uq_sets q) (uq_wheres q) (uq_param_wheres q ++ [pw])%list (uq_returning q);
  param_wheres := uq_param_wheres;
|}.

#[export] Instance delete_conditions : Conditions DeleteQuery := {|
  push_where w q :=
    mkDelete (dq_table q) (dq_wheres q ++ [w])%list (dq_param_wheres q) (dq_returning q);
  push_param_where pw q :=
    mkDelete (dq_table q) (dq_wheres q) (dq_param_wheres q ++ [pw])%list (dq_returning q);
  param_wheres := dq_param_wheres;
|}.

(** [format!(IN ({}), ?, ?, ..)], and the condition without a column of an empty list. *)
Definition in_condition (negated : bool) (column : string) (values : list Value) :
    string * string :=
  match values with
  | [] => ("", if negated then "1 = 1" else "1 = 0")
  | _ =>
      (column, (if negated then " NOT IN (" else " IN (")
         +:+ join ", " ((fun _ => "?") <$> values) +:+ ")")
  end.

Section ConditionMethods.
Context {Q : Type} `{Conditions Q}.

Definition where_clause (condition : string) (q : Q) : option Q :=
  _ ← check_where_injection condition; Some (push_where condition q).

Definition where_eq (column : string) (value : Value) (q : Q) : Q :=
  push_param_where (PwAnd column " = ?" [value]) q.
Definition where_ne (column : string) (value : Value) (q : Q) : Q :=
  push_param_where (PwAnd column " <> ?" [value]) q.
Definition where_gt (column : string) (value : Value) (q : Q) : Q :=
  push_param_where (PwAnd column " > ?" [value]) q.
Definition where_ge (column : string) (value : Value) (q : Q) : Q :=
  push_param_where (PwAnd column " >= ?" [value]) q.
Definition where_lt (column : string) (value : Value) (q : Q) : Q :=
  push_param_where (PwAnd column " < ?" [value]) q.
Definition where_le (column : string) (value : Value) (q : Q) : Q :=
  push_param_where (PwAnd column " <= ?" [value]) q.
Definition where_like (column : string) (pattern : Value) (q : Q) : Q :=
  push_param_where (PwAnd column " LIKE ?" [pattern]) q.

Definition where_in (column : string) (values : list Value) (q : Q) : Q :=
  let (column, op) := in_condition false column values in
  push_param_where (PwAnd column op values) q.
Definition where_between (column : string) (low high : Value) (q : Q) : Q :=
  push_param_where (PwAnd column " BETWEEN ? AND ?" [low; high]) q.
Definition where_null (column : string) (q : Q) : Q :=
  push_param_where (PwAnd column " IS NULL" []) q.
Definition where_not_null (column : string) (q : Q) : Q :=
  push_param_where (PwAnd column " IS NOT NULL" []) q.
End ConditionMethods.

(** The methods of [UpdateQuery] and [DeleteQuery], which the source repeats. *)
Definition update_where_clause : string -> UpdateQuery -> option UpdateQuery := where_clause.
Definition update_where_eq : string -> Value -> UpdateQuery -> UpdateQuery := where_eq.
Definition update_where_ne : string -> Value -> UpdateQuery -> UpdateQuery := where_ne.
Definition update_where_gt : string -> Value -> UpdateQuery -> UpdateQuery := where_gt.
Definition update_where_ge : string -> Value -> UpdateQuery -> UpdateQuery := where_ge.
Definition update_where_lt : string -> Value -> UpdateQuery -> UpdateQuery := where_lt.
Definition update_where_le : string -> Value -> UpdateQuery -> UpdateQuery := where_le.
Definition update_where_like : string -> Value -> UpdateQuery -> UpdateQuery := where_like.
Definition update_where_in : string -> list Value -> UpdateQuery -> UpdateQuery := where_in.
Definition update_where_between : string -> Value -> Value -> UpdateQuery -> UpdateQuery := where_between.
Definition update_where_null : string -> UpdateQuery -> UpdateQuery := where_null.
Definition update_where_not_null : string -> UpdateQuery -> UpdateQuery := where_not_null.
Definition delete_where_clause : string -> DeleteQuery -> option DeleteQuery := where_clause.
Definition delete_where_eq : string -> Value -> DeleteQuery -> DeleteQuery := where_eq.
Definition delete_where_ne : string -> Value -> DeleteQuery -> DeleteQuery := where_ne.
Definition delete_where_gt : string -> Value -> DeleteQuery -> DeleteQuery := where_gt.
Definition delete_where_ge : string -> Value -> DeleteQuery -> DeleteQuery := where_ge.
Definition delete_where_lt : string -> Value -> DeleteQuery -> DeleteQuery := where_lt.
Definition delete_where_le : string -> Value -> DeleteQuery -> DeleteQuery := where_le.
Definition delete_where_like : string -> Value -> DeleteQuery -> DeleteQuery := where_like.
Definition delete_where_in : string -> list Value -> DeleteQuery -> DeleteQuery := where_in.
Definition delete_where_between : string -> Value -> Value -> DeleteQuery -> DeleteQuery := where_between.
Definition delete_where_null : string -> DeleteQuery -> DeleteQuery := where_null.
Definition delete_where_not_null : string -> DeleteQuery -> DeleteQuery := where_not_null.

(** [where_not_in] and the [or_where_*] methods are of [SelectQuery] only. *)
Definition where_not_in (column : string) (values : list Value) (q : SelectQuery) : SelectQuery :=
  let (column, op) := in_condition true column values in
  push_param_where (PwAnd column op values) q.

Definition or_where_eq (column : string) (value : Value) (q : SelectQuery) : SelectQuery :=
  push_param_where (PwOr column " = ?" [value]) q.
Definition or_where_ne (column : string) (value : Value) (q : SelectQuery) : SelectQuery :=
  push_param_where (PwOr column " <> ?" [value]) q.
Definition or_where_gt (column : string) (value : Value) (q : SelectQuery) : SelectQuery :=
  push_param_where (PwOr column " > ?" [value]) q.
Definition or_where_ge (column : string) (value : Value) (q : SelectQuery) : SelectQuery :=
  push_param_where (PwOr column " >= ?" [value]) q.
Definition or_where_lt (column : string) (value : Value) (q : SelectQuery) : SelectQuery :=
  push_param_where (PwOr column " < ?" [value]) q.
Definition or_where_le (column : string) (value : Value) (q : SelectQuery) : SelectQuery :=
  push_param_where (PwOr column " <= ?" [value]) q.
Definition or_where_like (column : string) (pattern : Value) (q : SelectQuery) : SelectQuery :=
  push_param_where (PwOr column " LIKE ?" [pattern]) q.
Definition or_where_in (column : string) (values : list Value) (q : SelectQuery) : SelectQuery :=
  let (column, op) := in_condition false column values in
  push_param_where (PwOr column op values) q.
Definition or_where_between (column : string) (low high : Value) (q : SelectQuery) : SelectQuery :=
  push_param_where (PwOr column " BETWEEN ? AND ?" [low; high]) q.
Definition or_where_null (column : string) (q : SelectQuery) : SelectQuery :=
  push_param_where (PwOr column " IS NULL" []) q.
Definition or_where_not_null (column : string) (q : SelectQuery) : SelectQuery :=
  push_param_where (PwOr column " IS NOT NULL" []) q.

(** * SELECT *)

Definition distinct (q : SelectQuery) : SelectQuery := set_distinct true q.
Definition column (name : string) (q : SelectQuery) : SelectQuery := push_column name q.
Definition columns (names : list string) (q : SelectQuery) : SelectQuery :=
  fold_left (fun q n => push_column n q) names q.
Definition all_columns (q : SelectQuery) : SelectQuery := column "*" q.
Definition from (table : string) (q : SelectQuery) : SelectQuery := set_from (Some table) None q.
Definition from_subquery (subquery_sql alias : string) (q : SelectQuery) : SelectQuery :=
  set_from None (Some (subquery_sql, alias)) q.

Definition quote_join_table (table : string) : string :=
  match rsplit_once " " table with
  | Some (tbl, alias) =>
      if String.eqb (uppercase alias) "AS" then quote_ident tbl +:+ " AS " +:+ alias
      else quote_ident tbl +:+ " " +:+ alias
  | None => quote_ident table
  end.

Definition join_raw (kind table on : string) (q : SelectQuery) : SelectQuery :=
  push_join (mkJoin kind (quote_join_table table) [JoinRaw on]) q.
Definition inner_join : string -> string -> SelectQuery -> SelectQuery := join_raw "INNER JOIN".
Definition left_join : string -> string -> SelectQuery -> SelectQuery := join_raw "LEFT JOIN".
Definition right_join : string -> string -> SelectQuery -> SelectQuery := join_raw "RIGHT JOIN".

Definition join_columns (kind table left_col right_col : string) (q : SelectQuery) : SelectQuery :=
  push_join (mkJoin kind (quote_join_table table) [ColumnEq left_col right_col]) q.
Definition inner_join_on : string -> string -> string -> SelectQuery -> SelectQuery :=
  join_columns "INNER JOIN".
Definition left_join_on : string -> string -> string -> SelectQuery -> SelectQuery :=
  join_columns "LEFT JOIN".
Definition right_join_on : string -> string -> string -> SelectQuery -> SelectQuery :=
  join_columns "RIGHT JOIN".

Definition join_param (kind table left_col op_expr : string) (value : Value) (q : SelectQuery) :
    SelectQuery :=
  push_join (mkJoin kind (quote_join_table table) [JoinParam left_col op_expr [value]]) q.
Definition inner_join_param : string -> string -> string -> Value -> SelectQuery -> SelectQuery :=
  join_param "INNER JOIN".
Definition left_join_param : string -> string -> string -> Value -> SelectQuery -> SelectQuery :=
  join_param "LEFT JOIN".
Definition right_join_param : string -> string -> string -> Value -> SelectQuery -> SelectQuery :=
  join_param "RIGHT JOIN".

Definition group_by (column : string) (q : SelectQuery) : SelectQuery := push_group column q.
Definition having (condition : string) (q : SelectQuery) : SelectQuery := push_having condition q.

Definition order_item (column : string) (asc : bool) : string :=
  column +:+ " " +:+ (if asc then "ASC" else "DESC").

Definition order_by (column : string) (asc : bool) (q : SelectQuery) : SelectQuery :=
  push_order (order_item column asc) q.
Definition limit (n : Z) (q : SelectQuery) : SelectQuery := set_limit (Some n) q.
Definition offset (n : Z) (q : SelectQuery) : SelectQuery := set_offset (Some n) q.

(** The product is not the saturating one. *)
Definition paginate (page size : Z) (q : SelectQuery) : SelectQuery :=
  offset (wrap64 (saturating_sub page 1 * size)) (limit size q).

Definition with_cte (name subquery : string) (q : SelectQuery) : SelectQuery :=
  push_cte (name, subquery, false) q.
Definition with_recursive_cte (name subquery : string) (q : SelectQuery) : SelectQuery :=
  push_cte (name, subquery, true) q.
Definition window_function (expr : string) (q : SelectQuery) : SelectQuery := push_window expr q.

(** The body the three ranking methods share. *)
Definition ranking (name partition_by order_by alias : string) (q : SelectQuery) : SelectQuery :=
  let partition_clause :=
    if String.eqb partition_by "" then "" else "PARTITION BY " +:+ partition_by +:+ " " in
  window_function (name +:+ "() OVER (" +:+ partition_clause +:+ "ORDER BY " +:+ order_by
    +:+ ") AS " +:+ alias) q.
Definition row_number : string -> string -> string -> SelectQuery -> SelectQuery :=
  ranking "ROW_NUMBER".
Definition rank : string -> string -> string -> SelectQuery -> SelectQuery := ranking "RANK".
Definition dense_rank : string -> string -> string -> SelectQuery -> SelectQuery :=
  ranking "DENSE_RANK".

Definition for_update (q : SelectQuery) : SelectQuery := set_for_update true None q.
Definition for_update_with_options (options : string) (q : SelectQuery) : SelectQuery :=
  set_for_update true (Some options) q.

(** ** The clauses *)

Definition render_ctes (ctes : list (string * string * bool)) : string :=
  match ctes with
  | [] => ""
  | _ =>
      (if existsb (fun c => snd c) ctes then "WITH RECURSIVE " else "WITH ")
      +:+ join ", " ((fun '(name, subquery, _) => name +:+ " AS (" +:+ subquery +:+ ")") <$> ctes)
      +:+ " "
  end.

Definition quote_star (dialect : Dialect) (c : string) : string :=
  if String.eqb c "*" then c else quote dialect c.

Definition render_columns (dialect : Dialect) (q : SelectQuery) : string :=
  match ((quote_star dialect <$> sq_columns q) ++ sq_window_columns q)%list with
  | [] => "*"
  | all => join ", " all
  end.

Definition render_from (dialect : Dialect) (q : SelectQuery) : string :=
  match sq_from_table q with
  | Some table => " FROM " +:+ quote dialect table
  | None =>
      match sq_from_subquery q with
      | Some (subquery, alias) => " FROM (" +:+ subquery +:+ ") AS " +:+ quote dialect alias
      | None => ""
      end
  end.

(** The text of a condition of [ON] and the values it adds to the parameters. *)
Definition render_on (dialect : Dialect) (on : JoinOn) : string * list Value :=
  match on with
  | JoinRaw raw => (raw, [])
  | ColumnEq l r => (quote_column_dialect dialect l +:+ " = " +:+ quote_column_dialect dialect r, [])
  | JoinParam l op values => (quote_column_dialect dialect l +:+ op, values)
  end.

Definition render_join (dialect : Dialect) (clause : JoinClause) : string * list Value :=
  let ons := render_on dialect <$> join_on clause in
  (" " +:+ join_type clause +:+ " " +:+ join_table clause +:+ " ON " +:+ join " AND " (fst <$> ons),
   concat (snd <$> ons)).

Definition render_joins (dialect : Dialect) (q : SelectQuery) : string * list Value :=
  let js := render_join dialect <$> sq_join_clauses q in
  (String.concat "" (fst <$> js), concat (snd <$> js)).

(** The conditions after the first: [or_aware] lets one that begins with [OR] bring its own
    conjunction. *)
Definition conjoin (or_aware : bool) (w : string) : string :=
  if or_aware && starts_with "OR " w then " " +:+ w else " AND " +:+ w.

Definition render_raw_wheres (or_aware : bool) (ws : list string) : string :=
  match ws with
  | [] => ""
  | w :: ws => w +:+ String.concat "" (conjoin or_aware <$> ws)
  end.

(** [WHERE] of [build]: the raw conditions only. *)
Definition render_build_where (ws : list string) : string :=
  match ws with [] => "" | _ => " WHERE " +:+ render_raw_wheres true ws end.

Definition param_expr (dialect : Dialect) (pw : ParamWhere) : string :=
  match pw with
  | PwAnd column op _ | PwOr column op _ =>
      if String.eqb column "" then op else quote_column_dialect dialect column +:+ op
  end.

Definition param_conjunction (pw : ParamWhere) : string :=
  match pw with PwAnd _ _ _ => " AND " | PwOr _ _ _ => " OR " end.

(** [first] says that nothing was rendered before. *)
Fixpoint render_param_wheres (dialect : Dialect) (first : bool) (pws : list ParamWhere) : string :=
  match pws with
  | [] => ""
  | pw :: pws =>
      (if first then param_expr dialect pw else param_conjunction pw +:+ param_expr dialect pw)
      +:+ render_param_wheres dialect false pws
  end.

(** [WHERE] with the raw conditions, then the parameterised ones. *)
Definition render_where (dialect : Dialect) (or_aware : bool) (ws : list string)
    (pws : list ParamWhere) : string :=
  match ws, pws with
  | [], [] => ""
  | _, _ =>
      " WHERE " +:+ render_raw_wheres or_aware ws
      +:+ render_param_wheres dialect (match ws with [] => true | _ => false end) pws
  end.

Definition render_group_by (gs : list string) : string :=
  match gs with [] => "" | _ => " GROUP BY " +:+ join ", " (quote_ident <$> gs) end.

Definition render_having (hs : list string) : string :=
  match hs with [] => "" | _ => " HAVING " +:+ join " AND " hs end.

Definition render_order_item (s : string) : string :=
  match rsplit_once " " s with
  | Some (col, dir) => quote_ident col +:+ " " +:+ dir
  | None => quote_ident s
  end.

Definition render_order_by (os : list string) : string :=
  match os with [] => "" | _ => " ORDER BY " +:+ join ", " (render_order_item <$> os) end.

Definition render_limit (l o : option Z) : string :=
  match l with Some n => " LIMIT " +:+ pretty n | None => "" end
  +:+ match o with Some n => " OFFSET " +:+ pretty n | None => "" end.

Definition render_for_update (q : SelectQuery) : string :=
  if sq_for_update q then
    " FOR UPDATE" +:+ match sq_for_update_options q with Some opts => " " +:+ opts | None => "" end
  else "".

(** The text before [WHERE], and the text after it. *)
Definition select_head (dialect : Dialect) (q : SelectQuery) : string :=
  render_ctes (sq_ctes q) +:+ "SELECT " +:+ (if sq_distinct q then "DISTINCT " else "")
  +:+ render_columns dialect q +:+ render_from dialect q.

Definition select_tail (q : SelectQuery) : string :=
  render_group_by (sq_group_by q) +:+ render_having (sq_having q) +:+ render_order_by (sq_order_by q)
  +:+ render_limit (sq_limit q) (sq_offset q) +:+ render_for_update q.

(** [SelectQuery::build]: the values of the joins and the parameterised conditions are left
    out. *)
Definition select_build (q : SelectQuery) (db_type : DbType) : string :=
  match get_dialect db_type with
  | Err _ => ""
  | Ok dialect =>
      select_head dialect q +:+ fst (render_joins dialect q)
      +:+ render_build_where (sq_wheres q) +:+ select_tail q
  end.

Definition select_build_with_params (q : SelectQuery) (db_type : DbType) : BuiltQuery :=
  match get_dialect db_type with
  | Err _ => built_default
  | Ok dialect =>
      mkBuilt
        (select_head dialect q +:+ fst (render_joins dialect q)
         +:+ render_where dialect true (sq_wheres q) (sq_param_wheres q) +:+ select_tail q)
        (snd (render_joins dialect q) ++ concat (pw_values <$> sq_param_wheres q))
  end.

(** * Set operations *)

Inductive SetOperator : Type := Union | UnionAll | Intersect | Except.

Definition as_sql (op : SetOperator) : string :=
  match op with
  | Union => "UNION"
  | UnionAll => "UNION ALL"
  | Intersect => "INTERSECT"
  | Except => "EXCEPT"
  end.

Record SetQuery : Type := mkSet {
  set_first : SelectQuery;
  set_rest : list (SetOperator * SelectQuery);
  set_order : list string;
  set_limit_ : option Z;
  set_offset_ : option Z;
}.

Definition set_query_new (first : SelectQuery) (op : SetOperator) (second : SelectQuery) : SetQuery :=
  mkSet first [(op, second)] [] None None.

(** [SelectQuery::union], [union_all], [intersect] and [except] *)
Definition union : SelectQuery -> SelectQuery -> SetQuery := fun q => set_query_new q Union.
Definition union_all : SelectQuery -> SelectQuery -> SetQuery := fun q => set_query_new q UnionAll.
Definition intersect : SelectQuery -> SelectQuery -> SetQuery := fun q => set_query_new q Intersect.
Definition except : SelectQuery -> SelectQuery -> SetQuery := fun q => set_query_new q Except.

Definition set_push (op : SetOperator) (other : SelectQuery) (s : SetQuery) : SetQuery :=
  mkSet (set_first s) (set_rest s ++ [(op, other)])%list (set_order s) (set_limit_ s) (set_offset_ s).
Definition set_union : SelectQuery -> SetQuery -> SetQuery := set_push Union.
Definition set_union_all : SelectQuery -> SetQuery -> SetQuery := set_push UnionAll.
Definition set_intersect : SelectQuery -> SetQuery -> SetQuery := set_push Intersect.
Definition set_except : SelectQuery -> SetQuery -> SetQuery := set_push Except.

Definition set_order_by (column : string) (asc : bool) (s : SetQuery) : SetQuery :=
  mkSet (set_first s) (set_rest s) (set_order s ++ [order_item column asc])%list (set_limit_ s)
    (set_offset_ s).
Definition set_query_limit (n : Z) (s : SetQuery) : SetQuery :=
  mkSet (set_first s) (set_rest s) (set_order s) (Some n) (set_offset_ s).
Definition set_query_offset (n : Z) (s : SetQuery) : SetQuery :=
  mkSet (set_first s) (set_rest s) (set_order s) (set_limit_ s) (Some n).

Definition set_build (s : SetQuery) (db_type : DbType) : string :=
  select_build (set_first s) db_type
  +:+ String.concat ""
        ((fun '(op, query) => " " +:+ as_sql op +:+ " " +:+ select_build query db_type) <$> set_rest s)
  +:+ render_order_by (set_order s) +:+ render_limit (set_limit_ s) (set_offset_ s).

(** * INSERT *)

Definition is_mysql_family (t : DbType) : bool :=
  match t with MySQL | MariaDB | TiDB | OceanBase | PolarDB => true | _ => false end.

Definition is_pg_family (t : DbType) : bool :=
  match t with PostgreSQL | Kingbase | GaussDB | PolarDB | Sqlite => true | _ => false end.

Definition assignments_text (assignments : list (string * string)) : string :=
  join ", " ((fun '(c, v) => quote_ident c +:+ " = " +:+ v) <$> assignments).

Definition render_upsert_clause (strategy : UpsertStrategy) (t : DbType) : option string :=
  match strategy with
  | UpsertNone => None
  | OnConflictDoNothing cols =>
      if is_pg_family t then
        Some ("ON CONFLICT (" +:+ join ", " (quote_ident <$> cols) +:+ ") DO NOTHING")
      else None
  | OnConflictDoUpdate cols assignments =>
      if is_pg_family t then
        Some ("ON CONFLICT (" +:+ join ", " (quote_ident <$> cols) +:+ ") DO UPDATE SET "
          +:+ assignments_text assignments)
      else None
  | OnDuplicateKeyUpdate assignments =>
      if is_mysql_family t then
        Some ("ON DUPLICATE KEY UPDATE " +:+ assignments_text assignments)
      else None
  | Replace => None
  end.

Definition render_returning_clause (columns : option (list string)) (t : DbType) : option string :=
  match columns with
  | None | Some [] => None
  | Some cols =>
      if is_mysql_family t then None
      else
        match get_dialect t with
        | Err _ => None
        | Ok dialect => Some ("RETURNING " +:+ join ", " (quote_star dialect <$> cols))
        end
  end.

(** [if let Some(clause) = .. { sql.push( ); sql.push_str(&clause) }] *)
Definition push_clause (clause : option string) : string :=
  match clause with Some c => " " +:+ c | None => "" end.

Definition into_table (table : string) (q : InsertQuery) : InsertQuery :=
  mkInsert (Some table) (iq_columns q) (iq_values q) (iq_upsert q) (iq_returning q).
Definition value (column value : string) (q : InsertQuery) : InsertQuery :=
  mkInsert (iq_table q) (iq_columns q ++ [column])%list (iq_values q ++ [value])%list (iq_upsert q)
    (iq_returning q).
Definition values (pairs : list (string * string)) (q : InsertQuery) : InsertQuery :=
  fold_left (fun q '(c, v) => value c v q) pairs q.
Definition set_upsert (u : UpsertStrategy) (q : InsertQuery) : InsertQuery :=
  mkInsert (iq_table q) (iq_columns q) (iq_values q) u (iq_returning q).
Definition on_conflict_do_nothing (conflict_cols : list string) (q : InsertQuery) : InsertQuery :=
  set_upsert (OnConflictDoNothing conflict_cols) q.
Definition on_conflict_do_update (conflict_cols : list string)
    (assignments : list (string * string)) (q : InsertQuery) : InsertQuery :=
  set_upsert (OnConflictDoUpdate conflict_cols assignments) q.
Definition on_duplicate_key_update (assignments : list (string * string)) (q : InsertQuery) :
    InsertQuery :=
  set_upsert (OnDuplicateKeyUpdate assignments) q.
Definition replace (q : InsertQuery) : InsertQuery := set_upsert Replace q.
Definition insert_returning (columns : list string) (q : InsertQuery) : InsertQuery :=
  mkInsert (iq_table q) (iq_columns q) (iq_values q) (iq_upsert q) (Some columns).
Definition insert_returning_all (q : InsertQuery) : InsertQuery := insert_returning ["*"] q.

(** [VERB table (columns) VALUES (values)] *)
Definition insert_text (verb table : string) (cols vals : list string) : string :=
  verb +:+ " " +:+ table +:+ " (" +:+ join ", " cols +:+ ") VALUES (" +:+ join ", " vals +:+ ")".

Definition insert_build (q : InsertQuery) : string :=
  let table := default "" (iq_table q) in
  if String.eqb table "" || is_nil (iq_columns q) then ""
  else
    let verb := match iq_upsert q with Replace => "REPLACE INTO" | _ => "INSERT INTO" end in
    insert_text verb (quote_ident table) (quote_ident <$> iq_columns q) (iq_values q)
    +:+ match iq_upsert q with
        | OnDuplicateKeyUpdate assignments =>
            " ON DUPLICATE KEY UPDATE " +:+ assignments_text assignments
        | _ => ""
        end.

Definition insert_build_with_dialect (q : InsertQuery) (t : DbType) : string :=
  match get_dialect t with
  | Err _ => ""
  | Ok dialect =>
      let table := default "" (iq_table q) in
      if String.eqb table "" || is_nil (iq_columns q) then ""
      else
        let verb :=
          match iq_upsert q with
          | Replace =>
              if is_mysql_family t then "REPLACE INTO"
              else if bool_decide (t = Sqlite) then "INSERT OR REPLACE INTO" else "INSERT INTO"
          | _ => "INSERT INTO"
          end in
        insert_text verb (quote dialect table) (quote dialect <$> iq_columns q) (iq_values q)
        +:+ push_clause (render_upsert_clause (iq_upsert q) t)
        +:+ push_clause (render_returning_clause (iq_returning q) t)
  end.

(** * UPDATE *)

Definition update_table (table : string) (q : UpdateQuery) : UpdateQuery :=
  mkUpdate (Some table) (uq_sets q) (uq_wheres q) (uq_param_wheres q) (uq_returning q).
Definition set (column value : string) (q : UpdateQuery) : UpdateQuery :=
  mkUpdate (uq_table q) (uq_sets q ++ [(column, value)])%list (uq_wheres q) (uq_param_wheres q)
    (uq_returning q).
Definition sets (pairs : list (string * string)) (q : UpdateQuery) : UpdateQuery :=
  fold_left (fun q '(c, v) => set c v q) pairs q.
Definition update_returning (columns : list string) (q : UpdateQuery) : UpdateQuery :=
  mkUpdate (uq_table q) (uq_sets q) (uq_wheres q) (uq_param_wheres q) (Some columns).
Definition update_returning_all (q : UpdateQuery) : UpdateQuery := update_returning ["*"] q.

(** [UPDATE table SET c = v, ..] with a quoting function. *)
Definition update_head (quote : string -> string) (table : string) (sets : list (string * string)) :
    string :=
  "UPDATE " +:+ quote table +:+ " SET "
  +:+ join ", " ((fun '(c, v) => quote c +:+ " = " +:+ v) <$> sets).

(** The raw conditions, joined by [AND] whatever they begin with. *)
Definition render_and_wheres (ws : list string) : string :=
  match ws with [] => "" | _ => " WHERE " +:+ join " AND " ws end.

(** [build] and [build_with_dialect] leave the parameterised conditions out. *)
Definition update_build (q : UpdateQuery) : string :=
  let table := default "" (uq_table q) in
  if String.eqb table "" || is_nil (uq_sets q) then ""
  else update_head quote_ident table (uq_sets q) +:+ render_and_wheres (uq_wheres q).

Definition update_build_with_dialect (q : UpdateQuery) (t : DbType) : string :=
  match get_dialect t with
  | Err _ => ""
  | Ok dialect =>
      let table := default "" (uq_table q) in
      if String.eqb table "" || is_nil (uq_sets q) then ""
      else
        update_head (quote dialect) table (uq_sets q) +:+ render_and_wheres (uq_wheres q)
        +:+ push_clause (render_returning_clause (uq_returning q) t)
  end.

Definition update_build_with_params (q : UpdateQuery) (t : DbType) : BuiltQuery :=
  match get_dialect t with
  | Err _ => built_default
  | Ok dialect =>
      let table := default "" (uq_table q) in
      if String.eqb table "" || is_nil (uq_sets q) then built_default
      else
        mkBuilt
          (update_head (quote dialect) table (uq_sets q)
           +:+ render_where dialect false (uq_wheres q) (uq_param_wheres q)
           +:+ push_clause (render_returning_clause (uq_returning q) t))
          (concat (pw_values <$> uq_param_wheres q))
  end.

(** * DELETE *)

Definition delete_from_table (table : string) (q : DeleteQuery) : DeleteQuery :=
  mkDelete (Some table) (dq_wheres q) (dq_param_wheres q) (dq_returning q).
Definition delete_returning (columns : list string) (q : DeleteQuery) : DeleteQuery :=
  mkDelete (dq_table q) (dq_wheres q) (dq_param_wheres q) (Some columns).
Definition delete_returning_all (q : DeleteQuery) : DeleteQuery := delete_returning ["*"] q.

Definition delete_build (q : DeleteQuery) : string :=
  let table := default "" (dq_table q) in
  if String.eqb table "" then ""
  else "DELETE FROM " +:+ quote_ident table +:+ render_and_wheres (dq_wheres q).

Definition delete_build_with_dialect (q : DeleteQuery) (t : DbType) : string :=
  match get_dialect t with
  | Err _ => ""
  | Ok dialect =>
      let table := default "" (dq_table q) in
      if String.eqb table "" then ""
      else
        "DELETE FROM " +:+ quote dialect table +:+ render_and_wheres (dq_wheres q)
        +:+ push_clause (render_returning_clause (dq_returning q) t)
  end.

Definition delete_build_with_params (q : DeleteQuery) (t : DbType) : BuiltQuery :=
  match get_dialect t with
  | Err _ => built_default
  | Ok dialect =>
      let table := default "" (dq_table q) in
      if String.eqb table "" then built_default
      else
        mkBuilt
          ("DELETE FROM " +:+ quote dialect table
           +:+ render_where dialect false (dq_wheres q) (dq_param_wheres q)
           +:+ push_clause (render_returning_clause (dq_returning q) t))
          (concat (pw_values <$> dq_param_wheres q))
  end.

(** * What the methods produce *)

Example select_example :
  select_build_with_params
    (or_where_eq "role" (VString "admin") (where_eq "age" (VI32 18)
      (from "users" (column "id" select_new)))) MySQL
  = mkBuilt "SELECT `id` FROM `users` WHERE `age` = ? OR `role` = ?" [VI32 18; VString "admin"].
Proof. reflexivity. Qed.

Example join_example :
  bq_sql (select_build_with_params
    (inner_join_param "orders o" "o.status" " = ?" (VString "paid") (from "users" select_new)) MySQL)
  = "SELECT * FROM `users` INNER JOIN `orders` o ON `o`.`status` = ?".
Proof. reflexivity. Qed.

(** The alias of a table is what follows the last blank, so that [AS] is quoted with the table. *)
Lemma join_table_alias :
  quote_join_table "orders o" = "`orders` o" /\
  quote_join_table "orders AS o" = "`orders AS` o" /\
  quote_join_table "orders AS" = "`orders` AS AS".
Proof. repeat split; reflexivity. Qed.

(** The upsert, [GROUP BY] and [ORDER BY] clauses are quoted with backticks for every database. *)
Lemma backticks_for_postgresql :
  insert_build_with_dialect
    (on_conflict_do_nothing ["id"] (value "id" "1" (into_table "users" insert_new))) PostgreSQL
  = "INSERT INTO " +:+ chr dquote +:+ "users" +:+ chr dquote +:+ " (" +:+ chr dquote +:+ "id"
    +:+ chr dquote +:+ ") VALUES (1) ON CONFLICT (`id`) DO NOTHING".
Proof. reflexivity. Qed.

(** A keyword after anything but nothing or one blank passes the check. *)
Lemma check_where_injection_gap :
  check_where_injection "1 = 1; DROP TABLE users" = None /\
  check_where_injection "1 = 1;  DROP TABLE users" = Some tt /\
  check_where_injection "note = 'a -- b'" = None.
Proof. repeat split; reflexivity. Qed.

(** The product of [paginate] wraps: a page past the end is an early page. *)
Lemma paginate_wraps :
  sq_offset (paginate (2 ^ 63 + 1) 2 select_new) = Some 0%Z.
Proof. reflexivity. Qed.
