(* ===== verification/QueryParams.v ===== *)
(** Parameters of rendered queries.  The lexical specification of the placeholders of a
    statement, what binding values to them produces, and the theorems about
    [build_with_params] of [packages/sz-orm-query-builder/src/lib.rs]. *)

From Stdlib Require Import Ascii String.
From S2P Require Import Prelude SqlText Dialect VendorDialects AnalyticDialects Dialects.
From S2P Require Import Value QueryBuilder.
Local Open Scope string_scope.
#[local] Arguments String.append !_ _ : simpl nomatch.

(** * Placeholders

    A placeholder is a question mark outside quoted tokens.  A token is opened by a quote of the
    database, closed by its closing delimiter, and a doubled delimiter or, where the database
    has them, a backslash escape stays inside.  Comments are not lexed: [where_clause] refuses
    them. *)

Definition backtick_quotes (t : DbType) : bool :=
  match t with MySQL | MariaDB | TiDB | OceanBase | ClickHouse | Sqlite => true | _ => false end.

Definition bracket_quotes (t : DbType) : bool :=
  match t with SqlServer | Sybase | GBase => true | _ => false end.

(** The closing delimiter of the token that [c] opens, and whether it reads escapes. *)
Definition opens (t : DbType) (c : ascii) : option (ascii * bool) :=
  if Ascii.eqb c squote then Some (squote, spec_backslash t)
  else if Ascii.eqb c dquote then
    Some (dquote, spec_backslash t && negb (bool_decide (t = Snowflake)))
  else if Ascii.eqb c backtick && backtick_quotes t then Some (backtick, false)
  else if Ascii.eqb c "[" && bracket_quotes t then Some ("]"%char, false)
  else None.

(** Outside, inside a token, after a backslash in it, after a delimiter that may close it. *)
Inductive qstate : Type :=
| QOut
| QIn (close : ascii) (bs : bool)
| QEsc (close : ascii)
| QEnd (close : ascii) (bs : bool).

Definition open_step (t : DbType) (c : ascii) : qstate * bool :=
  match opens t c with
  | Some (close, bs) => (QIn close bs, false)
  | None => (QOut, Ascii.eqb c "?")
  end.

(** The next state, and whether the character is a placeholder. *)
Definition qstep (t : DbType) (st : qstate) (c : ascii) : qstate * bool :=
  match st with
  | QOut => open_step t c
  | QIn close bs =>
      if Ascii.eqb c close then (QEnd close bs, false)
      else if bs && Ascii.eqb c backslash then (QEsc close, false) else (QIn close bs, false)
  | QEsc close => (QIn close true, false)
  | QEnd close bs => if Ascii.eqb c close then (QIn close bs, false) else open_step t c
  end.

(** Replaces the placeholders by the texts [ps], from the left: the state at the end, the text
    and the texts left over, [None] when they are too few. *)
Fixpoint bind (t : DbType) (st : qstate) (s : string) (ps : list string) :
    option (qstate * string * list string) :=
  match s with
  | EmptyString => Some (st, EmptyString, ps)
  | String c s =>
      match qstep t st c with
      | (st', false) => '(st2, o, r) ← bind t st' s ps; Some (st2, String c o, r)
      | (st', true) =>
          match ps with
          | [] => None
          | p :: ps => '(st2, o, r) ← bind t st' s ps; Some (st2, p +:+ o, r)
          end
      end
  end.

Fixpoint placeholders (t : DbType) (st : qstate) (s : string) : nat :=
  match s with
  | EmptyString => 0
  | String c s =>
      let '(st', p) := qstep t st c in (if p then 1 else 0) + placeholders t st' s
  end.

(** The characters that close tokens. *)
Definition closes (c : ascii) : bool :=
  Ascii.eqb c squote || Ascii.eqb c dquote || Ascii.eqb c backtick || Ascii.eqb c "]".

(** No token is open. *)
Definition at_rest (st : qstate) : bool :=
  match st with QOut => true | QEnd close _ => closes close | _ => false end.

Example bind_example :
  bind PostgreSQL QOut "name = ? AND note = 'why?'" ["'x'"]
  = Some (QEnd squote false, "name = 'x' AND note = 'why?'", []).
Proof. reflexivity. Qed.

(** ** Composition *)

Lemma bind_app t st a b ps :
  bind t st (a +:+ b) ps =
  '(st1, o1, r1) ← bind t st a ps; '(st2, o2, r2) ← bind t st1 b r1; Some (st2, o1 +:+ o2, r2).
Proof.
  revert st ps. induction a as [|c a IH]; intros st ps.
  { cbn. by destruct (bind t st b ps) as [[[? ?] ?]|]. }
  rewrite str_app_cons. cbn [bind]. destruct (qstep t st c) as [st' []].
  - destruct ps as [|p ps]; [done|]. rewrite IH.
    destruct (bind t st' a ps) as [[[st1 o1] r1]|]; [|done]. cbn.
    destruct (bind t st1 b r1) as [[[st2 o2] r2]|]; [|done]. cbn. by rewrite str_app_assoc.
  - rewrite IH. destruct (bind t st' a ps) as [[[st1 o1] r1]|]; [|done]. cbn.
    by destruct (bind t st1 b r1) as [[[st2 o2] r2]|].
Qed.

(** Texts that are not needed are left over. *)
Lemma bind_frame t st s ps rest st' o r :
  bind t st s ps = Some (st', o, r) -> bind t st s (ps ++ rest) = Some (st', o, (r ++ rest)%list).
Proof.
  revert st ps o r. induction s as [|c s IH]; intros st ps o r; cbn.
  { intros. by simplify_eq. }
  destruct (qstep t st c) as [st1 []].
  - destruct ps as [|p ps]; [done|]. cbn. destruct (bind t st1 s ps) as [[[? ?] ?]|] eqn:E; [|done].
    cbn. intros. simplify_eq. by rewrite (IH _ _ _ _ E).
  - destruct (bind t st1 s ps) as [[[? ?] ?]|] eqn:E; [|done]. cbn. intros. simplify_eq.
    by rewrite (IH _ _ _ _ E).
Qed.

(** Binding consumes as many texts as there are placeholders. *)
Lemma bind_consumes t st s ps st' o r :
  bind t st s ps = Some (st', o, r) -> length ps = (placeholders t st s + length r)%nat.
Proof.
  revert st ps o r. induction s as [|c s IH]; intros st ps o r; cbn.
  { intros. by simplify_eq. }
  destruct (qstep t st c) as [st1 []].
  - destruct ps as [|p ps]; [done|]. destruct (bind t st1 s ps) as [[[? ?] ?]|] eqn:E; [|done].
    cbn. intros. simplify_eq. apply IH in E. cbn. lia.
  - destruct (bind t st1 s ps) as [[[? ?] ?]|] eqn:E; [|done]. cbn. intros. simplify_eq.
    by apply IH in E.
Qed.

(** With no texts to bind the text is copied. *)
Lemma bind_nothing t st s st' o r : bind t st s [] = Some (st', o, r) -> o = s /\ r = [].
Proof.
  revert st o. induction s as [|c s IH]; intros st o; cbn.
  { intros. by simplify_eq. }
  destruct (qstep t st c) as [st1 []]; [done|].
  destruct (bind t st1 s []) as [[[? o1] ?]|] eqn:E; [|done]. cbn. intros. simplify_eq.
  by destruct (IH _ _ E) as [-> ->].
Qed.

(** The text [s] leaves no token open and reads as [o] when the texts [ps] are bound. *)
Definition fragment (t : DbType) (s : string) (ps : list string) (o : string) : Prop :=
  exists st, at_rest st = true /\ bind t QOut s ps = Some (st, o, []).

(** A text without placeholders that leaves no token open. *)
Definition raw (t : DbType) (s : string) : bool :=
  match bind t QOut s [] with Some (st, _, _) => at_rest st | None => false end.

(** The text does not continue a token that ended before it. *)
Definition starts_apart (s : string) : bool :=
  match s with EmptyString => true | String c _ => negb (closes c) end.

(** Characters that neither delimit a token nor stand for a parameter. *)
Definition glue_char (c : ascii) : bool :=
  negb (closes c || Ascii.eqb c "[" || Ascii.eqb c "?").

Lemma raw_fragment t s : raw t s = true <-> fragment t s [] s.
Proof.
  unfold raw, fragment. split.
  - destruct (bind t QOut s []) as [[[st o] r]|] eqn:E; [|done]. intros Hr. exists st.
    apply bind_nothing in E as Ho. by destruct Ho as [-> ->].
  - intros (st & Hr & ->). done.
Qed.

Lemma bind_at_rest t st c s ps :
  at_rest st = true -> closes c = false ->
  bind t st (String c s) ps = bind t QOut (String c s) ps.
Proof.
  intros Hr Hc. destruct st as [| | |close bs]; try done. cbn [bind].
  replace (qstep t (QEnd close bs) c) with (qstep t QOut c); [done|]. cbn.
  destruct (Ascii.eqb_spec c close) as [->|]; [|done]. cbn in Hr. congruence.
Qed.

Lemma fragment_app t a b ps qs o1 o2 :
  fragment t a ps o1 -> fragment t b qs o2 -> starts_apart b = true ->
  fragment t (a +:+ b) (ps ++ qs) (o1 +:+ o2).
Proof.
  intros (st & Hr & Ha) (st' & Hr' & Hb) Hs. unfold fragment.
  rewrite bind_app, (bind_frame _ _ _ _ qs _ _ _ Ha). cbn.
  destruct b as [|c b].
  - cbn in Hb. simplify_eq. exists st. done.
  - rewrite bind_at_rest by (try done; cbn in Hs; by apply negb_true_iff).
    rewrite Hb. exists st'. done.
Qed.

Lemma glue_step t c : glue_char c = true -> qstep t QOut c = (QOut, false).
Proof.
  unfold glue_char, closes, qstep, open_step, opens. rewrite negb_true_iff, !orb_false_iff.
  intros [ [ [ [ [Hs Hd] Hb] Hr] Hl] Hq]. by rewrite Hs, Hd, Hb, Hl, Hq.
Qed.

Lemma bind_glue t g ps : all_chars glue_char g = true -> bind t QOut g ps = Some (QOut, g, ps).
Proof.
  induction g as [|c g IH]; [done|]. cbn [all_chars bind]. intros [Hc Hg]%andb_true_iff.
  by rewrite (glue_step t c Hc), IH.
Qed.

Lemma fragment_glue t g : all_chars glue_char g = true -> fragment t g [] g.
Proof. intros Hg. exists QOut. split; [done|by apply bind_glue]. Qed.

Lemma fragment_glue_l t g s ps o :
  all_chars glue_char g = true -> fragment t s ps o -> fragment t (g +:+ s) ps (g +:+ o).
Proof.
  intros Hg (st & Hr & Hs). exists st. split; [done|]. rewrite bind_app, bind_glue by done.
  cbn. by rewrite Hs.
Qed.

Lemma glue_starts_apart g s :
  g <> "" -> all_chars glue_char g = true -> starts_apart (g +:+ s) = true.
Proof.
  destruct g as [|c g]; [done|]. intros _. cbn. intros [Hc _]%andb_true_iff.
  unfold glue_char in Hc. rewrite negb_true_iff, !orb_false_iff in Hc.
  by rewrite (proj1 (proj1 Hc)).
Qed.

(** Two fragments with glue between them. *)
Lemma fragment_between t g a b ps qs o1 o2 :
  fragment t a ps o1 -> g <> "" -> all_chars glue_char g = true -> fragment t b qs o2 ->
  fragment t (a +:+ g +:+ b) (ps ++ qs) (o1 +:+ g +:+ o2).
Proof.
  intros Ha Hne Hg Hb. apply fragment_app; [done|by apply fragment_glue_l|].
  by apply glue_starts_apart.
Qed.

Lemma fragment_join t sep (l : list (string * list string * string)) :
  sep <> "" -> all_chars glue_char sep = true ->
  Forall (fun '(s, ps, o) => fragment t s ps o) l ->
  fragment t (join sep ((fun x => fst (fst x)) <$> l)) (concat ((fun x => snd (fst x)) <$> l))
    (join sep (snd <$> l)).
Proof.
  intros Hne Hsep. induction 1 as [|[ [s ps] o] l Hx Hl IH]; [by apply fragment_glue|].
  destruct l as [|y l]; [cbn; by rewrite app_nil_r|].
  rewrite !fmap_cons. cbn [concat]. apply (fragment_between t sep); done.
Qed.

(** A list of texts without placeholders. *)
Lemma raw_join t sep (l : list string) :
  sep <> "" -> all_chars glue_char sep = true -> Forall (fun s => raw t s = true) l ->
  fragment t (join sep l) [] (join sep l).
Proof.
  intros Hne Hsep. induction 1 as [|x l Hx Hl IH]; [by apply fragment_glue|].
  apply raw_fragment in Hx. destruct l as [|y l]; [done|].
  exact (fragment_between t sep x _ [] [] _ _ Hx Hne Hsep IH).
Qed.

(** ** Quoted identifiers *)

(** Reading the rest of a token with [scan_quoted] and lexing it agree. *)
Lemma bind_scan_quoted t cl ps :
  Ascii.eqb cl backslash = false ->
  forall s i r, scan_quoted cl false s = Some (i, r) -> not_starting_with cl r ->
  exists u, s = u +:+ r /\ bind t (QIn cl false) u ps = Some (QEnd cl false, u, ps).
Proof.
  intros Hcl s. remember (String.length s) as n eqn:Hn. revert s Hn.
  induction n as [n IH] using lt_wf_ind. intros [|c s] -> i r; [done|]. cbn [scan_quoted].
  destruct (Ascii.eqb c cl) eqn:Hc.
  - destruct s as [|c2 s].
    { intros. simplify_eq. exists (chr c). split; [done|]. cbn. by rewrite Hc. }
    destruct (Ascii.eqb c2 cl) eqn:Hc2.
    + destruct (scan_quoted cl false s) as [ [i' r']|] eqn:E; [|done]. cbn. intros ? Hr. simplify_eq.
      destruct (IH (String.length s) ltac:(cbn; lia) s eq_refl _ _ E Hr) as (u & -> & Hu).
      exists (String c (String c2 u)). split; [done|]. cbn. rewrite Hc. cbn. rewrite Hc2.
      by rewrite Hu.
    + intros. simplify_eq. exists (chr c). split; [done|]. cbn. by rewrite Hc.
  - cbn [andb]. destruct (scan_quoted cl false s) as [ [i' r']|] eqn:E; [|done]. cbn. intros ? Hr.
    simplify_eq. destruct (IH (String.length s) ltac:(cbn; lia) s eq_refl _ _ E Hr) as (u & -> & Hu).
    exists (String c u). split; [done|]. cbn. rewrite Hc. by rewrite Hu.
Qed.

Lemma spec_delims_open t :
  let (op, cl) := spec_delims t in
  opens t op = Some (cl, false) /\ closes cl = true /\ Ascii.eqb cl backslash = false /\
  Ascii.eqb op "O" = false.
Proof. by destruct t. Qed.

Lemma quote_raw t d identifier : get_dialect t = Ok d -> raw t (quote d identifier) = true.
Proof.
  intros Hd. apply raw_fragment. destruct (get_dialect_laws t d Hd) as (_ & L & Hq & _).
  pose proof (spec_delims_open t) as Ho. rewrite <- Hq in Ho. cbv beta iota in Ho.
  destruct Ho as (Hop & Hcl & Hbs & _).
  pose proof (quote_scan identifier "" I) as Hs. rewrite str_app_nil_r in Hs.
  unfold scan_token in Hs. destruct (quote d identifier) as [|c s]; [done|].
  destruct (Ascii.eqb_spec c (ident_open d)) as [->|]; [|done].
  destruct (bind_scan_quoted t _ [] Hbs s _ _ Hs I) as (u & Hu & Hb). rewrite str_app_nil_r in Hu.
  subst u. exists (QEnd (ident_close d) false). split; [done|]. cbn. unfold open_step.
  by rewrite Hop, Hb.
Qed.

Lemma quoted_parts_raw t d column :
  get_dialect t = Ok d -> raw t (quote_column_dialect d column) = true.
Proof.
  intros Hd. apply raw_fragment, raw_join; [done|done|]. apply Forall_fmap, Forall_true. intros x.
  by apply quote_raw.
Qed.

(** A quoted column begins with the opening delimiter. *)
Lemma quoted_column_head t d column :
  get_dialect t = Ok d ->
  exists s, quote_column_dialect d column = String (fst (spec_delims t)) s.
Proof.
  intros Hd. destruct (get_dialect_laws t d Hd) as (_ & L & Hq & _).
  pose proof (quote_scan (hd "" (split_char "." column)) "" I) as Hs.
  rewrite str_app_nil_r in Hs. unfold quote_column_dialect.
  assert (exists x l, split_char "." column = x :: l) as (x & l & Hx).
  { destruct column as [|c s]; [by eexists _, _|]. cbn. destruct (Ascii.eqb c ".");
      [by eexists _, _|]. destruct (split_char "." s); by eexists _, _. }
  rewrite Hx in Hs |- *. cbn [hd] in Hs. unfold scan_token in Hs. rewrite fmap_cons.
  destruct (quote d x) as [|c s]; [done|].
  destruct (Ascii.eqb_spec c (ident_open d)) as [->|]; [|done]. rewrite <- Hq. cbn [fst].
  destruct (quote d <$> l); by eexists.
Qed.

(** Where backticks delimit, the identifiers of [quote_ident] are closed as well. *)
Lemma quote_ident_raw t s : backtick_quotes t = true -> raw t (quote_ident s) = true.
Proof.
  intros Ht. apply raw_fragment, raw_join; [done|done|]. apply Forall_fmap, Forall_true. intros x.
  apply raw_fragment.
  pose proof (doubled_quote_scan backtick backtick x "" I) as Hs. rewrite str_app_nil_r in Hs.
  cbn [String.append chr scan_token] in Hs. rewrite Ascii.eqb_refl in Hs.
  destruct (bind_scan_quoted t backtick [] eq_refl _ _ _ Hs I) as (u & Hu & Hb).
  rewrite str_app_nil_r in Hu. subst u. exists (QEnd backtick false). split; [done|].
  change (delimited backtick backtick x) with (String backtick
    (replace_char backtick (String backtick (chr backtick)) x +:+ chr backtick)).
  cbn [bind qstep]. unfold open_step, opens. cbn [Ascii.eqb]. rewrite Ht. cbn. by rewrite Hb.
Qed.

(** ** Texts without placeholders *)

Section Raw.
Context (t : DbType).

Lemma raw_glue g : all_chars glue_char g = true -> raw t g = true.
Proof. intros Hg. apply raw_fragment. by apply fragment_glue. Qed.

Lemma raw_glue_l g s : all_chars glue_char g = true -> raw t s = true -> raw t (g +:+ s) = true.
Proof. rewrite !raw_fragment. apply fragment_glue_l. Qed.

Lemma raw_app a b :
  raw t a = true -> raw t b = true -> starts_apart b = true -> raw t (a +:+ b) = true.
Proof. rewrite !raw_fragment. intros Ha Hb Hs. exact (fragment_app t a b [] [] _ _ Ha Hb Hs). Qed.

Lemma raw_between a g b :
  raw t a = true -> g <> "" -> all_chars glue_char g = true -> raw t b = true ->
  raw t (a +:+ g +:+ b) = true.
Proof.
  intros Ha Hne Hg Hb. apply raw_app; [done|by apply raw_glue_l|by apply glue_starts_apart].
Qed.

Lemma raw_glue_r a g : raw t a = true -> all_chars glue_char g = true -> raw t (a +:+ g) = true.
Proof.
  intros Ha Hg. apply raw_app; [done|by apply raw_glue|]. destruct g as [|c g]; [done|].
  rewrite <- (str_app_nil_r (String c g)). by apply glue_starts_apart.
Qed.

Lemma raw_list sep l :
  sep <> "" -> all_chars glue_char sep = true -> Forall (fun s => raw t s = true) l ->
  raw t (join sep l) = true.
Proof. intros. by apply raw_fragment, raw_join. Qed.

Lemma pretty_glue (z : Z) : all_chars glue_char (pretty z) = true.
Proof.
  eapply all_chars_impl; [|apply pretty_Z_chars]. intros c.
  by destruct c as [[] [] [] [] [] [] [] []].
Qed.
End Raw.

Lemma fragment_raw_l t a b ps o :
  raw t a = true -> fragment t b ps o -> starts_apart b = true ->
  fragment t (a +:+ b) ps (a +:+ o).
Proof. rewrite raw_fragment. intros Ha Hb Hs. exact (fragment_app t a b [] ps _ _ Ha Hb Hs). Qed.

Lemma fragment_raw_r t a b ps o :
  fragment t a ps o -> raw t b = true -> starts_apart b = true ->
  fragment t (a +:+ b) ps (o +:+ b).
Proof.
  rewrite raw_fragment. intros Ha Hb Hs. rewrite <- (app_nil_r ps).
  exact (fragment_app t a b ps [] _ _ Ha Hb Hs).
Qed.

(** * Well-typed conditions *)

(** The operator of a condition with its placeholders filled. *)
Definition fill (t : DbType) (op : string) (ls : list string) : string :=
  match bind t QOut op ls with Some (_, o, _) => o | None => op end.

(** An operator with [n] placeholders, which no quoted column before it swallows. *)
Definition op_typed (t : DbType) (op : string) (n : nat) : Prop :=
  (exists c s, op = String c s /\ glue_char c = true /\ c <> "O"%char) /\
  forall ls, length ls = n -> fragment t op ls (fill t op ls).

Definition pw_typed (t : DbType) (pw : ParamWhere) : Prop :=
  match pw with PwAnd _ op vs | PwOr _ op vs => op_typed t op (length vs) end.

Definition on_typed (t : DbType) (on : JoinOn) : Prop :=
  match on with
  | JoinRaw s => raw t s = true
  | ColumnEq _ _ => True
  | JoinParam _ op vs => op_typed t op (length vs)
  end.

Definition join_typed (t : DbType) (j : JoinClause) : Prop :=
  all_chars glue_char (join_type j) = true /\ raw t (join_table j) = true /\
  Forall (on_typed t) (join_on j).

(** A builder whose texts given as SQL leave no token open and contain no placeholder. *)
Record select_typed (t : DbType) (q : SelectQuery) : Prop := {
  st_ctes : Forall (fun '(name, subquery, _) => raw t name = true /\ raw t subquery = true)
    (sq_ctes q);
  st_windows : Forall (fun w => raw t w = true) (sq_window_columns q);
  st_from : forall subquery alias,
    sq_from_subquery q = Some (subquery, alias) -> raw t subquery = true;
  st_joins : Forall (join_typed t) (sq_join_clauses q);
  st_wheres : Forall (fun w => raw t w = true) (sq_wheres q);
  st_params : Forall (pw_typed t) (sq_param_wheres q);
  st_groups : Forall (fun g => raw t (quote_ident g) = true) (sq_group_by q);
  st_having : Forall (fun h => raw t h = true) (sq_having q);
  st_orders : Forall (fun o => raw t (render_order_item o) = true) (sq_order_by q);
  st_options : forall opts, sq_for_update_options q = Some opts -> raw t opts = true;
}.

(** ** The operators of the methods *)

Lemma op_typed_intro t op n :
  (exists c s, op = String c s /\ glue_char c = true /\ c <> "O"%char) ->
  (forall ls, length ls = n -> exists o, fragment t op ls o) -> op_typed t op n.
Proof.
  intros Hh Hf. split; [done|]. intros ls Hls. destruct (Hf ls Hls) as (o & st & Hr & Hb).
  exists st. unfold fill. by rewrite Hb.
Qed.

Ltac one_operator :=
  apply op_typed_intro; [by exists " "%char; eexists|];
  intros ls Hls; repeat (destruct ls as [|? ls]; try discriminate Hls);
  eexists; exists QOut; split; [reflexivity|cbn; reflexivity].

Lemma op_typed_eq t : op_typed t " = ?" 1.
Proof. one_operator. Qed.
Lemma op_typed_ne t : op_typed t " <> ?" 1.
Proof. one_operator. Qed.
Lemma op_typed_gt t : op_typed t " > ?" 1.
Proof. one_operator. Qed.
Lemma op_typed_ge t : op_typed t " >= ?" 1.
Proof. one_operator. Qed.
Lemma op_typed_lt t : op_typed t " < ?" 1.
Proof. one_operator. Qed.
Lemma op_typed_le t : op_typed t " <= ?" 1.
Proof. one_operator. Qed.
Lemma op_typed_like t : op_typed t " LIKE ?" 1.
Proof. one_operator. Qed.
Lemma op_typed_between t : op_typed t " BETWEEN ? AND ?" 2.
Proof. one_operator. Qed.
Lemma op_typed_null t : op_typed t " IS NULL" 0.
Proof. one_operator. Qed.
Lemma op_typed_not_null t : op_typed t " IS NOT NULL" 0.
Proof. one_operator. Qed.

Lemma fmap_const_replicate {A B} (b : B) (l : list A) : (fun _ => b) <$> l = replicate (length l) b.
Proof. induction l as [|a l IH]; [done|]. rewrite fmap_cons, IH. done. Qed.

(** The placeholders of a list, filled. *)
Lemma placeholder_list t (ls : list string) :
  fragment t (join ", " (replicate (length ls) "?")) ls (join ", " ls).
Proof.
  pose proof (fragment_join t ", " ((fun l => ("?", [l], l)) <$> ls)) as Hj.
  rewrite <- !list_fmap_compose in Hj.
  change ((fun x : string * list string * string => fst (fst x)) ∘ _)
    with (fun _ : string => "?") in Hj.
  change ((fun x : string * list string * string => snd (fst x)) ∘ _)
    with (fun l : string => [l]) in Hj.
  change (snd ∘ _) with (fun l : string => l) in Hj.
  rewrite fmap_const_replicate in Hj.
  assert (concat ((fun l : string => [l]) <$> ls) = ls) as Hc
    by (clear; induction ls as [|l ls IH]; [done|]; rewrite fmap_cons; cbn; by rewrite IH).
  rewrite Hc, list_fmap_id in Hj. apply Hj; [done|done|]. apply Forall_fmap, Forall_true. intros l.
  exists QOut. split; [done|]. cbn. by rewrite str_app_nil_r.
Qed.

Lemma in_list_fragment t (open : string) (ls : list string) :
  all_chars glue_char open = true ->
  fragment t (open +:+ join ", " (replicate (length ls) "?") +:+ ")") ls
    (open +:+ join ", " ls +:+ ")").
Proof.
  intros Ho. apply fragment_glue_l; [done|].
  apply (fragment_raw_r t _ ")"); [apply placeholder_list|done|done].
Qed.

Lemma in_condition_typed t negated column vs :
  op_typed t (snd (in_condition negated column vs)) (length vs).
Proof.
  destruct vs as [|v vs].
  - cbn [in_condition snd]. split; [exists "1"%char; by destruct negated; eexists|].
    intros [|l ls]; [|done]. intros _. by destruct negated; exists QOut.
  - apply op_typed_intro; [exists " "%char; destruct negated; by eexists|].
    intros ls Hls. eexists. cbn [in_condition snd]. rewrite fmap_const_replicate, <- Hls.
    apply in_list_fragment. by destruct negated.
Qed.

(** What the filled operators of the methods are. *)
Lemma fill_operators t (l h : string) (ls : list string) column v vs :
  fill t " = ?" [l] = " = " +:+ l /\
  fill t " BETWEEN ? AND ?" [l; h] = " BETWEEN " +:+ l +:+ " AND " +:+ h /\
  fill t " IS NULL" [] = " IS NULL" /\
  (length ls = length (v :: vs) ->
   fill t (snd (in_condition false column (v :: vs))) ls = " IN (" +:+ join ", " ls +:+ ")").
Proof.
  split; [cbn; by rewrite str_app_nil_r|]. split; [cbn; by rewrite str_app_nil_r|].
  split; [done|]. intros Hls. cbn [in_condition snd]. rewrite fmap_const_replicate, <- Hls.
  unfold fill. by destruct (in_list_fragment t " IN (" ls eq_refl) as (st & _ & ->).
Qed.

Lemma concat_cons (x : string) (l : list string) :
  String.concat "" (x :: l) = x +:+ String.concat "" l.
Proof. destruct l; cbn; [by rewrite str_app_nil_r|done]. Qed.

Lemma concat_app (l1 l2 : list string) :
  String.concat "" (l1 ++ l2) = String.concat "" l1 +:+ String.concat "" l2.
Proof.
  induction l1 as [|x l1 IH]; [done|]. cbn [app]. by rewrite !concat_cons, IH, str_app_assoc.
Qed.

Lemma starts_apart_app a b :
  starts_apart a = true -> starts_apart b = true -> starts_apart (a +:+ b) = true.
Proof. by destruct a. Qed.

(** Fragments that follow one another directly. *)
Lemma fragment_concat t (l : list (string * list string * string)) :
  Forall (fun '(s, ps, o) => fragment t s ps o /\ starts_apart s = true) l ->
  fragment t (String.concat "" ((fun x => fst (fst x)) <$> l)) (concat ((fun x => snd (fst x)) <$> l))
    (String.concat "" (snd <$> l)) /\
  starts_apart (String.concat "" ((fun x => fst (fst x)) <$> l)) = true.
Proof.
  induction 1 as [|[ [s ps] o] l [Hx Hs] Hl [IH IHs] ]; [split; [by exists QOut|done]|].
  rewrite !fmap_cons, !concat_cons. cbn [fst snd concat]. split; [by apply fragment_app|].
  by apply starts_apart_app.
Qed.

Lemma raw_concat t (l : list string) :
  Forall (fun s => raw t s = true /\ starts_apart s = true) l ->
  raw t (String.concat "" l) = true /\ starts_apart (String.concat "" l) = true.
Proof.
  induction 1 as [|s l [Hx Hs] Hl [IH IHs] ]; [done|]. rewrite concat_cons.
  split; [by apply raw_app|by apply starts_apart_app].
Qed.

(** * Inlining

    The query with each value written where its placeholder is: a query without parameters,
    which [build] renders. *)

Section Inline.
Context (lit : Value -> string) (t : DbType) (d : Dialect).

Definition inline_op (column op : string) (vs : list Value) : string :=
  (if String.eqb column "" then "" else quote_column_dialect d column) +:+ fill t op (lit <$> vs).

Definition inline_expr (pw : ParamWhere) : string :=
  match pw with PwAnd column op vs | PwOr column op vs => inline_op column op vs end.

(** The condition as a text for [where_clause]; the first one has no conjunction. *)
Definition inline_where (first : bool) (pw : ParamWhere) : string :=
  match pw with
  | PwOr _ _ _ => if first then inline_expr pw else "OR " +:+ inline_expr pw
  | PwAnd _ _ _ => inline_expr pw
  end.

Definition inline_wheres (first : bool) (pws : list ParamWhere) : list string :=
  match pws with
  | [] => []
  | pw :: pws => inline_where first pw :: (inline_where false <$> pws)
  end.

Definition inline_on (on : JoinOn) : JoinOn :=
  match on with
  | JoinParam l op vs => JoinRaw (quote_column_dialect d l +:+ fill t op (lit <$> vs))
  | _ => on
  end.

Definition inline_join (j : JoinClause) : JoinClause :=
  mkJoin (join_type j) (join_table j) (inline_on <$> join_on j).

Definition inline (q : SelectQuery) : SelectQuery :=
  let 'mkSelect cs ft fs js ws ps os gs hs l o di ct wc fu fo := q in
  mkSelect cs ft fs (inline_join <$> js)
    (ws ++ inline_wheres (match ws with [] => true | _ => false end) ps)%list []
    os gs hs l o di ct wc fu fo.

Hypothesis dialect_of : get_dialect t = Ok d.

(** ** Conditions *)

Lemma op_starts_apart op n : op_typed t op n -> starts_apart op = true.
Proof.
  intros [(c & s & -> & Hc & _) _]. cbn. unfold glue_char in Hc.
  rewrite negb_true_iff, !orb_false_iff in Hc. by rewrite (proj1 (proj1 Hc)).
Qed.

Lemma inline_op_fragment column op vs :
  op_typed t op (length vs) ->
  fragment t (if String.eqb column "" then op else quote_column_dialect d column +:+ op)
    (lit <$> vs) (inline_op column op vs).
Proof using dialect_of.
  intros Hop. unfold inline_op. pose proof (proj2 Hop (lit <$> vs)) as Hf.
  rewrite length_fmap in Hf. specialize (Hf eq_refl).
  destruct (String.eqb column ""); [done|]. apply fragment_raw_l;
    [by apply quoted_parts_raw|done|by eapply op_starts_apart].
Qed.

Lemma param_expr_fragment pw :
  pw_typed t pw -> fragment t (param_expr d pw) (lit <$> pw_values pw) (inline_expr pw).
Proof using dialect_of. destruct pw; apply inline_op_fragment. Qed.

(** An expression does not begin with a conjunction. *)
Lemma fill_head op n ls :
  op_typed t op n -> exists c s, fill t op ls = String c s /\ c <> "O"%char.
Proof.
  intros [(c & s & -> & Hc & Ho) _]. unfold fill. cbn [bind]. rewrite glue_step by done.
  cbv iota beta. destruct (bind t QOut s ls) as [[[st o] r]|]; cbn; eexists _, _;
    (split; [reflexivity|done]).
Qed.

Lemma inline_op_no_or column op vs n :
  op_typed t op n -> starts_with "OR " (inline_op column op vs) = false.
Proof using dialect_of.
  intros Hop. assert (exists c s, inline_op column op vs = String c s /\ c <> "O"%char)
    as (c & s & -> & Hc).
  { unfold inline_op. destruct (String.eqb column ""); [by eapply fill_head|].
    destruct (quoted_column_head t d column dialect_of) as (s & ->).
    pose proof (spec_delims_open t) as Hd. destruct (spec_delims t) as [op' cl].
    destruct Hd as (_ & _ & _ & Hne). eexists _, _. split; [reflexivity|].
    by apply Ascii.eqb_neq. }
  unfold starts_with. cbn -[ascii_dec]. destruct (ascii_dec "O" c); [congruence|done].
Qed.

Lemma conjoin_inline pw :
  pw_typed t pw -> conjoin true (inline_where false pw) = param_conjunction pw +:+ inline_expr pw.
Proof using dialect_of.
  unfold conjoin. destruct pw as [column op vs|column op vs]; cbn [inline_where andb pw_typed].
  - intros Hop. change (inline_expr (PwAnd column op vs)) with (inline_op column op vs).
    by rewrite (inline_op_no_or column op vs _ Hop).
  - intros _. unfold starts_with. by rewrite prefix_app.
Qed.

(** The conditions after the first. *)
Lemma param_wheres_fragment pws :
  Forall (pw_typed t) pws ->
  fragment t (render_param_wheres d false pws) (lit <$> concat (pw_values <$> pws))
    (String.concat "" (conjoin true <$> (inline_where false <$> pws))) /\
  starts_apart (render_param_wheres d false pws) = true.
Proof using dialect_of.
  induction 1 as [|pw pws Hpw Hpws [IH Hs]]; [split; [by exists QOut|done]|].
  cbn [render_param_wheres]. split.
  - rewrite !fmap_cons. cbn [concat]. rewrite fmap_app, conjoin_inline by done.
    rewrite concat_cons. apply fragment_app; [|done|done].
    apply fragment_glue_l; [by destruct pw|by apply param_expr_fragment].
  - rewrite str_app_assoc. by destruct pw.
Qed.
(** ** WHERE *)

Lemma raw_wheres_raw ws :
  Forall (fun w => raw t w = true) ws -> raw t (render_raw_wheres true ws) = true.
Proof.
  destruct 1 as [|w ws Hw Hws]; [done|]. cbn [render_raw_wheres].
  destruct (raw_concat t (conjoin true <$> ws)) as [Hr Hs]; [|by apply raw_app].
  apply Forall_fmap. eapply Forall_impl; [exact Hws|]. intros x Hx. cbn. unfold conjoin.
  destruct (true && starts_with "OR " x); (split; [by apply raw_glue_l|done]).
Qed.

Lemma inline_wheres_false pws : inline_wheres false pws = inline_where false <$> pws.
Proof. by destruct pws. Qed.

Lemma where_fragment ws pws :
  Forall (fun w => raw t w = true) ws -> Forall (pw_typed t) pws ->
  fragment t (render_where d true ws pws) (lit <$> concat (pw_values <$> pws))
    (render_build_where (ws ++ inline_wheres (match ws with [] => true | _ => false end) pws)) /\
  starts_apart (render_where d true ws pws) = true.
Proof using dialect_of.
  intros Hws Hpws. destruct ws as [|w ws].
  - destruct Hpws as [|pw pws Hpw Hpws]; [split; [by exists QOut|done]|]. split; [|done].
    destruct (param_wheres_fragment pws Hpws) as [Hf Hs].
    cbn [render_where app inline_wheres render_build_where render_raw_wheres render_param_wheres].
    rewrite fmap_cons. cbn [concat]. rewrite fmap_app. change ("" +:+ ?x) with x.
    replace (inline_where true pw) with (inline_expr pw) by (by destruct pw).
    apply fragment_glue_l; [done|]. apply fragment_app; [by apply param_expr_fragment|done|done].
  - split; [|by destruct pws]. destruct (param_wheres_fragment pws Hpws) as [Hf Hs].
    assert (render_where d true (w :: ws) pws = " WHERE " +:+ (render_raw_wheres true (w :: ws)
      +:+ render_param_wheres d false pws)) as -> by (by destruct pws).
    cbn [app render_build_where]. apply fragment_glue_l; [done|]. rewrite inline_wheres_false.
    assert (render_raw_wheres true (w :: (ws ++ (inline_where false <$> pws))) =
      render_raw_wheres true (w :: ws)
      +:+ String.concat "" (conjoin true <$> (inline_where false <$> pws))) as ->.
    { cbn [render_raw_wheres]. by rewrite fmap_app, concat_app, str_app_assoc. }
    apply fragment_raw_l; [by apply raw_wheres_raw|done|done].
Qed.

(** ** Joins *)

Lemma on_fragment on :
  on_typed t on ->
  fragment t (fst (render_on d on)) (lit <$> snd (render_on d on)) (fst (render_on d (inline_on on))).
Proof using dialect_of.
  destruct on as [s|l r|l op vs]; cbn [on_typed render_on inline_on fst snd].
  - apply raw_fragment.
  - intros _. apply raw_fragment, raw_between; [by apply quoted_parts_raw|done|done|].
    by apply quoted_parts_raw.
  - intros Hop. pose proof (proj2 Hop (lit <$> vs)) as Hf. rewrite length_fmap in Hf.
    apply fragment_raw_l; [by apply quoted_parts_raw|by apply Hf|by eapply op_starts_apart].
Qed.

Lemma join_fragment j :
  join_typed t j ->
  fragment t (fst (render_join d j)) (lit <$> snd (render_join d j))
    (fst (render_join d (inline_join j))).
Proof using dialect_of.
  intros (Hty & Htab & Hon). unfold render_join, inline_join. cbn [fst snd join_type join_table join_on].
  apply fragment_glue_l; [done|]. apply fragment_glue_l; [done|]. apply fragment_glue_l; [done|].
  apply fragment_raw_l; [done| |done]. apply fragment_glue_l; [done|].
  pose proof (fragment_join t " AND " ((fun on => (fst (render_on d on), lit <$> snd (render_on d on),
    fst (render_on d (inline_on on)))) <$> join_on j)) as Hj.
  rewrite <- !list_fmap_compose in Hj. rewrite <- !list_fmap_compose.
  assert (lit <$> concat (snd ∘ render_on d <$> join_on j) =
    concat ((fun on => lit <$> snd (render_on d on)) <$> join_on j)) as ->.
  { clear. induction (join_on j) as [|on ons IH]; [done|]. rewrite !fmap_cons. cbn [concat].
    by rewrite fmap_app, IH. }
  apply Hj; [done|done|]. apply Forall_fmap. eapply Forall_impl; [exact Hon|].
  intros on. apply on_fragment.
Qed.

Lemma joins_fragment js :
  Forall (join_typed t) js ->
  fragment t (String.concat "" (fst <$> (render_join d <$> js)))
    (lit <$> concat (snd <$> (render_join d <$> js)))
    (String.concat "" (fst <$> (render_join d <$> (inline_join <$> js)))) /\
  starts_apart (String.concat "" (fst <$> (render_join d <$> js))) = true.
Proof using dialect_of.
  intros Hjs.
  pose proof (fragment_concat t ((fun j => (fst (render_join d j), lit <$> snd (render_join d j),
    fst (render_join d (inline_join j)))) <$> js)) as Hc.
  rewrite <- !list_fmap_compose in Hc. rewrite <- !list_fmap_compose.
  assert (lit <$> concat (snd ∘ render_join d <$> js) =
    concat ((fun j => lit <$> snd (render_join d j)) <$> js)) as ->.
  { clear. induction js as [|j js IH]; [done|]. rewrite !fmap_cons. cbn [concat].
    by rewrite fmap_app, IH. }
  apply Hc. apply Forall_fmap. eapply Forall_impl; [exact Hjs|]. intros j Hj.
  split; [by apply join_fragment|done].
Qed.
End Inline.

(** ** The rest of the statement *)

Section Statement.
Context (t : DbType) (d : Dialect).
Hypothesis dialect_of : get_dialect t = Ok d.

Lemma quote_star_raw c : raw t (quote_star d c) = true.
Proof using dialect_of.
  unfold quote_star. destruct (String.eqb_spec c "*") as [->|]; [by destruct t|by apply quote_raw].
Qed.

Lemma head_raw q : select_typed t q -> raw t (select_head d q) = true.
Proof using dialect_of.
  intros Hq. unfold select_head.
  assert (raw t (render_ctes (sq_ctes q)) = true /\
    (render_ctes (sq_ctes q) = "" \/ exists s, render_ctes (sq_ctes q) = s +:+ " " /\ raw t s = true))
    as [_ Hc].
  { pose proof (st_ctes _ _ Hq) as Hct. unfold render_ctes.
    destruct (sq_ctes q) as [|c ctes]; [by split; [|left]|].
    assert (raw t ((if existsb (fun c => snd c) (c :: ctes) then "WITH RECURSIVE " else "WITH ")
      +:+ join ", " ((fun '(name, subquery, _) => name +:+ " AS (" +:+ subquery +:+ ")")
        <$> c :: ctes)) = true) as Hw.
    { apply raw_glue_l; [by destruct (existsb _ _)|]. apply raw_list; [done|done|].
      apply Forall_fmap. eapply Forall_impl; [exact Hct|]. intros [ [name sub] r] [Hn Hs]. cbv beta iota.
      apply raw_between; [done|done|done|by apply raw_glue_r]. }
    split; [rewrite <- str_app_assoc; by apply raw_glue_r|]. right. eexists.
    split; [by rewrite str_app_assoc|done]. }
  assert (raw t ("SELECT " +:+ (if sq_distinct q then "DISTINCT " else "")
    +:+ render_columns d q +:+ render_from d q) = true) as Hs.
  { apply raw_glue_l; [done|]. apply raw_glue_l; [by destruct (sq_distinct q)|]. apply raw_app.
    - unfold render_columns.
      assert (Forall (fun s => raw t s = true) ((quote_star d <$> sq_columns q)
        ++ sq_window_columns q)%list) as Hall.
      { apply Forall_app. split; [|by apply (st_windows _ _ Hq)].
        apply Forall_fmap, Forall_true. intros c. by apply quote_star_raw. }
      destruct ((quote_star d <$> sq_columns q) ++ sq_window_columns q)%list as [|x l];
        [by apply raw_glue|]. by apply raw_list.
    - unfold render_from. destruct (sq_from_table q) as [table|].
      { apply raw_glue_l; [done|by apply quote_raw]. }
      destruct (sq_from_subquery q) as [ [sub alias]|] eqn:Hsub; [|done].
      apply raw_glue_l; [done|]. apply raw_between; [|done|done|by apply quote_raw].
      by apply (st_from _ _ Hq _ alias).
    - unfold render_from. destruct (sq_from_table q); [done|].
      by destruct (sq_from_subquery q) as [ [? ?]|]. }
  destruct Hc as [->|(s & -> & Hr)]; [done|]. rewrite str_app_assoc.
  apply raw_between; [done|done|done|exact Hs].
Qed.

(** A clause that is empty or begins with a blank. *)
Definition clause (s : string) : Prop := raw t s = true /\ starts_apart s = true.

Lemma clause_app a b : clause a -> clause b -> clause (a +:+ b).
Proof. intros [Ha Ha'] [Hb Hb']. split; [by apply raw_app|by apply starts_apart_app]. Qed.

Lemma order_by_clause os :
  Forall (fun o => raw t (render_order_item o) = true) os -> clause (render_order_by os).
Proof.
  intros Ho. destruct Ho as [|o os Ho Hos]; [done|]. split; [|done].
  change (render_order_by (o :: os)) with (" ORDER BY " +:+ join ", " (render_order_item <$> o :: os)).
  apply raw_glue_l; [done|]. apply raw_list; [done|done|]. apply Forall_fmap. by constructor.
Qed.

Lemma limit_clause l o : clause (render_limit l o).
Proof.
  apply clause_app.
  - destruct l as [n|]; [|done]. split; [|done]. apply raw_glue_l; [done|apply raw_glue, pretty_glue].
  - destruct o as [n|]; [|done]. split; [|done]. apply raw_glue_l; [done|apply raw_glue, pretty_glue].
Qed.

Lemma tail_clause q : select_typed t q -> clause (select_tail q).
Proof.
  intros Hq. unfold select_tail.
  apply clause_app; [|apply clause_app; [|apply clause_app;
    [by apply order_by_clause, st_orders|apply clause_app; [apply limit_clause|] ] ] ].
  - pose proof (st_groups _ _ Hq) as Hg. destruct (sq_group_by q) as [|g gs]; [done|]. split; [|done].
    change (render_group_by (g :: gs)) with (" GROUP BY " +:+ join ", " (quote_ident <$> g :: gs)).
    apply raw_glue_l; [done|]. apply raw_list; [done|done|]. by apply Forall_fmap.
  - pose proof (st_having _ _ Hq) as Hh. destruct (sq_having q) as [|h hs]; [done|]. split; [|done].
    change (render_having (h :: hs)) with (" HAVING " +:+ join " AND " (h :: hs)).
    apply raw_glue_l; [done|]. by apply raw_list.
  - unfold render_for_update. destruct (sq_for_update q); [|done].
    pose proof (st_options _ _ Hq) as Ho. destruct (sq_for_update_options q) as [opts|]; [|done].
    split; [|done]. apply raw_glue_l; [done|]. apply raw_glue_l; [done|by apply Ho].
Qed.

Lemma inline_head lit q : select_head d (inline lit t d q) = select_head d q.
Proof. by destruct q. Qed.

Lemma inline_tail lit q : select_tail (inline lit t d q) = select_tail q.
Proof. by destruct q. Qed.

Lemma inline_clauses lit q :
  sq_join_clauses (inline lit t d q) = inline_join lit t d <$> sq_join_clauses q /\
  sq_wheres (inline lit t d q) = (sq_wheres q ++ inline_wheres lit t d
    (match sq_wheres q with [] => true | _ => false end) (sq_param_wheres q))%list.
Proof. by destruct q. Qed.

(** Binding the parameters of a query gives the text of the inlined one. *)
Lemma select_fragment lit q :
  select_typed t q ->
  fragment t (bq_sql (select_build_with_params q t)) (lit <$> bq_params (select_build_with_params q t))
    (select_build (inline lit t d q) t).
Proof using dialect_of.
  intros Hq. unfold select_build_with_params, select_build. rewrite dialect_of. cbn [bq_sql bq_params].
  rewrite inline_head, inline_tail. destruct (inline_clauses lit q) as [Hj Hw].
  unfold render_joins. cbn [fst snd]. rewrite Hj, Hw, fmap_app.
  destruct (joins_fragment lit t d dialect_of _ (st_joins _ _ Hq)) as [Hjf Hja].
  destruct (where_fragment lit t d dialect_of _ _ (st_wheres _ _ Hq) (st_params _ _ Hq)) as [Hwf Hwa].
  destruct (tail_clause q Hq) as [Htr Hta].
  apply fragment_raw_l; [by apply head_raw| |].
  - apply fragment_app; [exact Hjf| |by apply starts_apart_app].
    apply fragment_raw_r; [exact Hwf|exact Htr|exact Hta].
  - apply starts_apart_app; [exact Hja|by apply starts_apart_app].
Qed.
End Statement.

(** * Queries built by the methods *)

Section Calls.
Context (t : DbType).

(** A call of a condition method, with a condition that leaves no token open. *)
Inductive cond_call {Q : Type} `{Conditions Q} : Q -> Q -> Prop :=
| call_where_clause condition q q' :
    raw t condition = true -> where_clause condition q = Some q' -> cond_call q q'
| call_where_eq column v q : cond_call q (where_eq column v q)
| call_where_ne column v q : cond_call q (where_ne column v q)
| call_where_gt column v q : cond_call q (where_gt column v q)
| call_where_ge column v q : cond_call q (where_ge column v q)
| call_where_lt column v q : cond_call q (where_lt column v q)
| call_where_le column v q : cond_call q (where_le column v q)
| call_where_like column v q : cond_call q (where_like column v q)
| call_where_in column vs q : cond_call q (where_in column vs q)
| call_where_between column low high q : cond_call q (where_between column low high q)
| call_where_null column q : cond_call q (where_null column q)
| call_where_not_null column q : cond_call q (where_not_null column q).

(** A call of another method of [SelectQuery], with texts that leave no token open. *)
Inductive select_call : SelectQuery -> SelectQuery -> Prop :=
| call_condition q q' : cond_call q q' -> select_call q q'
| call_where_not_in column vs q : select_call q (where_not_in column vs q)
| call_or_where_eq column v q : select_call q (or_where_eq column v q)
| call_or_where_ne column v q : select_call q (or_where_ne column v q)
| call_or_where_gt column v q : select_call q (or_where_gt column v q)
| call_or_where_ge column v q : select_call q (or_where_ge column v q)
| call_or_where_lt column v q : select_call q (or_where_lt column v q)
| call_or_where_le column v q : select_call q (or_where_le column v q)
| call_or_where_like column v q : select_call q (or_where_like column v q)
| call_or_where_in column vs q : select_call q (or_where_in column vs q)
| call_or_where_between column low high q :
    select_call q (or_where_between column low high q)
| call_or_where_null column q : select_call q (or_where_null column q)
| call_or_where_not_null column q : select_call q (or_where_not_null column q)
| call_distinct q : select_call q (distinct q)
| call_column name q : select_call q (column name q)
| call_columns names q : select_call q (columns names q)
| call_all_columns q : select_call q (all_columns q)
| call_from table q : select_call q (from table q)
| call_from_subquery subquery alias q :
    raw t subquery = true -> select_call q (from_subquery subquery alias q)
| call_join kind table on q :
    kind ∈ [inner_join; left_join; right_join] ->
    raw t (quote_join_table table) = true -> raw t on = true -> select_call q (kind table on q)
| call_join_on kind table left_col right_col q :
    kind ∈ [inner_join_on; left_join_on; right_join_on] ->
    raw t (quote_join_table table) = true -> select_call q (kind table left_col right_col q)
| call_join_param kind table left_col op v q :
    kind ∈ [inner_join_param; left_join_param; right_join_param] ->
    raw t (quote_join_table table) = true -> op_typed t op 1 ->
    select_call q (kind table left_col op v q)
| call_group_by column q : raw t (quote_ident column) = true -> select_call q (group_by column q)
| call_having condition q : raw t condition = true -> select_call q (having condition q)
| call_order_by column asc q :
    raw t (quote_ident column) = true -> select_call q (order_by column asc q)
| call_limit n q : select_call q (limit n q)
| call_offset n q : select_call q (offset n q)
| call_paginate page size q : select_call q (paginate page size q)
| call_with_cte name subquery q :
    raw t name = true -> raw t subquery = true -> select_call q (with_cte name subquery q)
| call_with_recursive_cte name subquery q :
    raw t name = true -> raw t subquery = true ->
    select_call q (with_recursive_cte name subquery q)
| call_window_function expr q : raw t expr = true -> select_call q (window_function expr q)
| call_ranking kind partition order alias q :
    kind ∈ [row_number; rank; dense_rank] ->
    raw t partition = true -> raw t order = true -> raw t alias = true ->
    select_call q (kind partition order alias q)
| call_for_update q : select_call q (for_update q)
| call_for_update_with_options options q :
    raw t options = true -> select_call q (for_update_with_options options q).

Inductive update_call : UpdateQuery -> UpdateQuery -> Prop :=
| update_condition q q' : cond_call q q' -> update_call q q'
| call_update_table table q : update_call q (update_table table q)
| call_set column v q : raw t v = true -> update_call q (set column v q)
| call_sets pairs q : Forall (fun p => raw t (snd p) = true) pairs -> update_call q (sets pairs q)
| call_update_returning columns q : update_call q (update_returning columns q)
| call_update_returning_all q : update_call q (update_returning_all q).

Inductive delete_call : DeleteQuery -> DeleteQuery -> Prop :=
| delete_condition q q' : cond_call q q' -> delete_call q q'
| call_delete_from_table table q : delete_call q (delete_from_table table q)
| call_delete_returning columns q : delete_call q (delete_returning columns q)
| call_delete_returning_all q : delete_call q (delete_returning_all q).

Lemma where_in_push {Q} `{Conditions Q} column vs (q : Q) :
  where_in column vs q
  = push_param_where (PwAnd (fst (in_condition false column vs))
      (snd (in_condition false column vs)) vs) q.
Proof. unfold where_in. by destruct (in_condition false column vs). Qed.

Lemma cond_call_push {Q} `{Conditions Q} (q q' : Q) :
  cond_call q q' ->
  (exists w, raw t w = true /\ q' = push_where w q) \/
  (exists pw, pw_typed t pw /\ q' = push_param_where pw q).
Proof.
  intros [c q0 q1 Hc Hw|column v q0|column v q0|column v q0|column v q0|column v q0|column v q0
    |column v q0|column vs q0|column low high q0|column q0|column q0].
  1: { left. exists c. split; [done|]. unfold where_clause in Hw.
    destruct (check_where_injection c); [|done]. cbn in Hw. by simplify_eq. }
  8: rewrite where_in_push.
  all: right; eexists; (split; [|reflexivity]).
  1: apply op_typed_eq. 1: apply op_typed_ne. 1: apply op_typed_gt. 1: apply op_typed_ge.
  1: apply op_typed_lt. 1: apply op_typed_le. 1: apply op_typed_like.
  1: apply in_condition_typed. 1: apply op_typed_between. 1: apply op_typed_null.
  apply op_typed_not_null.
Qed.

(** ** The methods keep a builder well typed *)

Ltac typed_field q :=
  intros [ ]; intros; destruct q; constructor; cbn in *; try assumption; try done;
  try (apply Forall_app; split; [assumption|];
    constructor; [first [assumption|by split]|constructor]).

Lemma typed_where w q : select_typed t q -> raw t w = true -> select_typed t (push_where w q).
Proof. typed_field q. Qed.
Lemma typed_param pw q : select_typed t q -> pw_typed t pw -> select_typed t (push_param_where pw q).
Proof. typed_field q. Qed.
Lemma typed_column c q : select_typed t q -> select_typed t (push_column c q).
Proof. typed_field q. Qed.
Lemma typed_from ft fs q :
  select_typed t q -> (forall s a, fs = Some (s, a) -> raw t s = true) ->
  select_typed t (set_from ft fs q).
Proof. typed_field q. Qed.
Lemma typed_join j q : select_typed t q -> join_typed t j -> select_typed t (push_join j q).
Proof. typed_field q. Qed.
Lemma typed_order o q :
  select_typed t q -> raw t (render_order_item o) = true -> select_typed t (push_order o q).
Proof. typed_field q. Qed.
Lemma typed_group g q :
  select_typed t q -> raw t (quote_ident g) = true -> select_typed t (push_group g q).
Proof. typed_field q. Qed.
Lemma typed_having h q : select_typed t q -> raw t h = true -> select_typed t (push_having h q).
Proof. typed_field q. Qed.
Lemma typed_limit n q : select_typed t q -> select_typed t (set_limit n q).
Proof. typed_field q. Qed.
Lemma typed_offset n q : select_typed t q -> select_typed t (set_offset n q).
Proof. typed_field q. Qed.
Lemma typed_distinct b q : select_typed t q -> select_typed t (set_distinct b q).
Proof. typed_field q. Qed.
Lemma typed_cte name sub r q :
  select_typed t q -> raw t name = true -> raw t sub = true ->
  select_typed t (push_cte (name, sub, r) q).
Proof. typed_field q. Qed.
Lemma typed_window w q : select_typed t q -> raw t w = true -> select_typed t (push_window w q).
Proof. typed_field q. Qed.
Lemma typed_for_update b opts q :
  select_typed t q -> (forall o, opts = Some o -> raw t o = true) ->
  select_typed t (set_for_update b opts q).
Proof. typed_field q. Qed.

Lemma typed_columns names q :
  select_typed t q -> select_typed t (columns names q).
Proof.
  unfold columns. revert q. induction names as [|n names IH]; intros q Hq; [done|].
  by apply IH, typed_column.
Qed.

Lemma rsplit_once_last c a b :
  contains_char c b = false -> rsplit_once c (a +:+ String c b) = Some (a, b).
Proof.
  intros Hb. assert (rsplit_once c b = None) as Hn.
  { induction b as [|x b IH]; [done|]. cbn in Hb |- *. apply orb_false_iff in Hb as [Hx Hb].
    by rewrite IH, Hx. }
  induction a as [|x a IH].
  - cbn. by rewrite Hn, Ascii.eqb_refl.
  - rewrite str_app_cons. cbn [rsplit_once]. by rewrite IH.
Qed.

Lemma order_item_raw c asc :
  raw t (quote_ident c) = true -> raw t (render_order_item (order_item c asc)) = true.
Proof.
  intros Hc. unfold render_order_item, order_item.
  change (c +:+ " " +:+ (if asc then "ASC" else "DESC")) with
    (c +:+ String " " (if asc then "ASC" else "DESC")).
  rewrite rsplit_once_last by (by destruct asc). apply raw_glue_r; [done|by destruct asc].
Qed.

Lemma ranking_raw name partition order alias :
  all_chars glue_char name = true -> raw t partition = true -> raw t order = true ->
  raw t alias = true ->
  raw t (name +:+ "() OVER ("
    +:+ (if String.eqb partition "" then "" else "PARTITION BY " +:+ partition +:+ " ")
    +:+ "ORDER BY " +:+ order +:+ ") AS " +:+ alias) = true.
Proof.
  intros Hn Hp Ho Ha. apply raw_glue_l; [done|]. apply raw_glue_l; [done|].
  assert (raw t (order +:+ ") AS " +:+ alias) = true) as Hoa by (by apply raw_between).
  destruct (String.eqb partition ""); [by apply (raw_glue_l t "ORDER BY ")|].
  rewrite !str_app_assoc. apply raw_glue_l; [done|].
  change (" " +:+ "ORDER BY " +:+ order +:+ ") AS " +:+ alias) with
    (" ORDER BY " +:+ (order +:+ ") AS " +:+ alias)).
  by apply raw_between.
Qed.

Lemma join_typed_intro kind table on :
  all_chars glue_char kind = true -> raw t (quote_join_table table) = true -> on_typed t on ->
  join_typed t (mkJoin kind (quote_join_table table) [on]).
Proof. intros Hk Ht Ho. repeat split; [done|done|by repeat constructor]. Qed.

Lemma where_not_in_push column vs q :
  where_not_in column vs q
  = push_param_where (PwAnd (fst (in_condition true column vs))
      (snd (in_condition true column vs)) vs) q.
Proof. unfold where_not_in. by destruct (in_condition true column vs). Qed.

Lemma or_where_in_push column vs q :
  or_where_in column vs q
  = push_param_where (PwOr (fst (in_condition false column vs))
      (snd (in_condition false column vs)) vs) q.
Proof. unfold or_where_in. by destruct (in_condition false column vs). Qed.

(** Splits the membership in a list of three methods. *)
Ltac three_kinds H :=
  rewrite !elem_of_cons, elem_of_nil in H; destruct H as [ -> | [ -> | [ -> | [] ] ] ].

Lemma select_call_typed q q' : select_call q q' -> select_typed t q -> select_typed t q'.
Proof.
  intros Hc Hq. destruct Hc as [q q' Hc|column vs q|column v q|column v q|column v q|column v q
    |column v q|column v q|column v q|column vs q|column low high q|column q|column q|q|name q
    |names q|q|table q|sub alias q Hs|kind table on q Hk Ht Ho|kind table l r q Hk Ht
    |kind table l op v q Hk Ht Ho|column q Hg|condition q Hh|column asc q Ho|n q|n q|page size q
    |name sub q Hn Hs|name sub q Hn Hs|expr q He|kind partition order alias q Hk Hp Ho Ha|q
    |options q Ho].
  - destruct (cond_call_push q q' Hc) as [(w & Hw & ->)|(pw & Hpw & ->)];
      [by apply typed_where|by apply typed_param].
  - rewrite where_not_in_push. apply typed_param; [done|apply in_condition_typed].
  - apply (typed_param (PwOr _ _ _)); [done|apply op_typed_eq].
  - apply (typed_param (PwOr _ _ _)); [done|apply op_typed_ne].
  - apply (typed_param (PwOr _ _ _)); [done|apply op_typed_gt].
  - apply (typed_param (PwOr _ _ _)); [done|apply op_typed_ge].
  - apply (typed_param (PwOr _ _ _)); [done|apply op_typed_lt].
  - apply (typed_param (PwOr _ _ _)); [done|apply op_typed_le].
  - apply (typed_param (PwOr _ _ _)); [done|apply op_typed_like].
  - rewrite or_where_in_push. apply typed_param; [done|apply in_condition_typed].
  - apply (typed_param (PwOr _ _ _)); [done|apply op_typed_between].
  - apply (typed_param (PwOr _ _ _)); [done|apply op_typed_null].
  - apply (typed_param (PwOr _ _ _)); [done|apply op_typed_not_null].
  - by apply typed_distinct.
  - by apply typed_column.
  - by apply typed_columns.
  - by apply typed_column.
  - by apply typed_from.
  - apply typed_from; [done|]. intros s a ?. by simplify_eq.
  - three_kinds Hk; (apply typed_join; [done|by apply join_typed_intro]).
  - three_kinds Hk; (apply typed_join; [done|by apply join_typed_intro]).
  - three_kinds Hk; (apply typed_join; [done|by apply join_typed_intro]).
  - by apply typed_group.
  - by apply typed_having.
  - apply typed_order; [done|by apply order_item_raw].
  - by apply typed_limit.
  - by apply typed_offset.
  - by apply typed_offset, typed_limit.
  - by apply typed_cte.
  - by apply typed_cte.
  - by apply typed_window.
  - three_kinds Hk; (apply typed_window; [done|by apply ranking_raw]).
  - by apply typed_for_update.
  - apply typed_for_update; [done|]. intros o ?. by simplify_eq.
Qed.

Lemma select_new_typed : select_typed t select_new.
Proof. by constructor. Qed.

Lemma select_calls_typed q : rtc select_call select_new q -> select_typed t q.
Proof.
  intros Hq. eapply (rtc_invariant select_call (select_typed t)); [|apply select_new_typed|exact Hq].
  intros a b Ha Hab. by eapply select_call_typed.
Qed.
End Calls.

(** ** UPDATE and DELETE *)

Section Changes.
Context (t : DbType) (d : Dialect) (lit : Value -> string).
Hypothesis dialect_of : get_dialect t = Ok d.

Lemma and_wheres_raw ws :
  Forall (fun w => raw t w = true) ws -> raw t (render_raw_wheres false ws) = true.
Proof.
  destruct 1 as [|w ws Hw Hws]; [done|]. cbn [render_raw_wheres].
  destruct (raw_concat t (conjoin false <$> ws)) as [Hr Hs]; [|by apply raw_app].
  apply Forall_fmap. eapply Forall_impl; [exact Hws|]. intros x Hx.
  split; [by apply (raw_glue_l t " AND ")|done].
Qed.

(** The conditions of UPDATE and DELETE bind like those of SELECT. *)
Lemma changes_where ws pws :
  Forall (fun w => raw t w = true) ws -> Forall (pw_typed t) pws ->
  (exists o, fragment t (render_where d false ws pws) (lit <$> concat (pw_values <$> pws)) o) /\
  starts_apart (render_where d false ws pws) = true.
Proof using dialect_of.
  intros Hws Hpws. destruct ws as [|w ws].
  - destruct (where_fragment lit t d dialect_of [] pws Hws Hpws) as [Hf Hs].
    destruct pws as [|pw pws]; split; try done; by eexists.
  - destruct (param_wheres_fragment lit t d dialect_of pws Hpws) as [Hf Hs].
    assert (render_where d false (w :: ws) pws = " WHERE " +:+ (render_raw_wheres false (w :: ws)
      +:+ render_param_wheres d false pws)) as -> by (by destruct pws).
    split; [|done]. eexists. apply fragment_glue_l; [done|].
    apply fragment_raw_l; [by apply and_wheres_raw|exact Hf|exact Hs].
Qed.

Lemma returning_clause columns : clause t (push_clause (render_returning_clause columns t)).
Proof using dialect_of.
  unfold render_returning_clause. destruct columns as [ [|c cs]|]; [done| |done].
  destruct (is_mysql_family t); [done|]. rewrite dialect_of. cbn [push_clause]. split; [|done].
  apply raw_glue_l; [done|]. apply raw_glue_l; [done|]. apply raw_list; [done|done|].
  apply Forall_fmap, Forall_true. intros x. by apply quote_star_raw.
Qed.

Lemma update_head_raw table pairs :
  Forall (fun p => raw t (snd p) = true) pairs -> raw t (update_head (quote d) table pairs) = true.
Proof using dialect_of.
  intros Hp. unfold update_head. apply raw_glue_l; [done|].
  apply raw_between; [by apply quote_raw|done|done|]. apply raw_list; [done|done|].
  apply Forall_fmap. eapply Forall_impl; [exact Hp|]. intros [c v] Hv. cbv beta iota.
  apply raw_between; [by apply quote_raw|done|done|done].
Qed.

Definition update_typed (q : UpdateQuery) : Prop :=
  Forall (fun p => raw t (snd p) = true) (uq_sets q) /\
  Forall (fun w => raw t w = true) (uq_wheres q) /\ Forall (pw_typed t) (uq_param_wheres q).

Definition delete_typed (q : DeleteQuery) : Prop :=
  Forall (fun w => raw t w = true) (dq_wheres q) /\ Forall (pw_typed t) (dq_param_wheres q).

Lemma Forall_snoc {A} (P : A -> Prop) l x : Forall P l -> P x -> Forall P (l ++ [x]).
Proof. intros Hl Hx. apply Forall_app. by repeat constructor. Qed.

Lemma set_typed c v q : update_typed q -> raw t v = true -> update_typed (set c v q).
Proof. intros (Hs & Hw & Hp) Hv. repeat split; [by apply Forall_snoc|done|done]. Qed.

Lemma update_call_typed q q' : update_call t q q' -> update_typed q -> update_typed q'.
Proof.
  intros Hc. destruct Hc as [q q' Hc|table q|c v q Hv|pairs q Hp|cols q|q]; try done.
  - intros (Hs & Hw & Hp).
    destruct (cond_call_push t q q' Hc) as [(w & Hr & ->)|(pw & Hpw & ->)];
      (repeat split; [done| |]; try done; by apply Forall_snoc).
  - intros Hq. by apply set_typed.
  - unfold sets. revert q. induction Hp as [|[c v] pairs Hv Hp IH]; intros q Hq; [done|].
    apply IH. by apply set_typed.
Qed.

Lemma delete_call_typed q q' : delete_call t q q' -> delete_typed q -> delete_typed q'.
Proof.
  intros Hc. destruct Hc as [q q' Hc|table q|cols q|q]; try done. intros (Hw & Hp).
  destruct (cond_call_push t q q' Hc) as [(w & Hr & ->)|(pw & Hpw & ->)];
    (split; try done; by apply Forall_snoc).
Qed.

Lemma update_fragment q :
  update_typed q ->
  exists o, fragment t (bq_sql (update_build_with_params q t))
    (lit <$> bq_params (update_build_with_params q t)) o.
Proof using dialect_of.
  intros (Hs & Hw & Hp). unfold update_build_with_params. rewrite dialect_of. cbv zeta.
  destruct (String.eqb _ "" || is_nil (uq_sets q)); [by exists ""; exists QOut|].
  destruct (changes_where _ _ Hw Hp) as [ [o Ho] Ha]. destruct (returning_clause (uq_returning q)).
  eexists. apply fragment_raw_l; [by apply update_head_raw| |by apply starts_apart_app].
  by apply fragment_raw_r.
Qed.

Lemma delete_fragment q :
  delete_typed q ->
  exists o, fragment t (bq_sql (delete_build_with_params q t))
    (lit <$> bq_params (delete_build_with_params q t)) o.
Proof using dialect_of.
  intros (Hw & Hp). unfold delete_build_with_params. rewrite dialect_of. cbv zeta.
  destruct (String.eqb _ ""); [by exists ""; exists QOut|].
  destruct (changes_where _ _ Hw Hp) as [ [o Ho] Ha]. destruct (returning_clause (dq_returning q)).
  eexists. cbn [bq_sql bq_params]. apply fragment_glue_l; [done|].
  apply fragment_raw_l; [by apply quote_raw| |by apply starts_apart_app].
  by apply fragment_raw_r.
Qed.
End Changes.

(** * Properties *)

(** A statement and the values for it: as many placeholders as values, and no token left open
    once the values are written in their places. *)
Definition well_typed_statement (t : DbType) (b : BuiltQuery) : Prop :=
  placeholders t QOut (bq_sql b) = length (bq_params b) /\
  forall lit : Value -> string, exists st o,
    at_rest st = true /\ bind t QOut (bq_sql b) (lit <$> bq_params b) = Some (st, o, []).

Lemma fragments_well_typed t b :
  (forall lit : Value -> string, exists o, fragment t (bq_sql b) (lit <$> bq_params b) o) ->
  well_typed_statement t b.
Proof.
  intros Hf. split.
  - destruct (Hf (fun _ => "")) as (o & st & _ & Hb). apply bind_consumes in Hb.
    rewrite length_fmap in Hb. cbn in Hb. lia.
  - intros lit. destruct (Hf lit) as (o & st & Hr & Hb). by exists st, o.
Qed.

(** C38. Queries built by the methods are well typed.  For every database with a dialect, whatever
    methods of [SelectQuery], [UpdateQuery] or [DeleteQuery] are called in whatever order, with
    any columns and tables and with SQL texts that close their tokens and contain no placeholder,
    the statement of [build_with_params] has exactly one placeholder for each parameter it
    returns, and leaves no quoted token open, whatever texts the parameters stand for. *)
Theorem built_queries_well_typed (t : DbType) (d : Dialect) :
  get_dialect t = Ok d ->
  (forall q, rtc (select_call t) select_new q ->
     well_typed_statement t (select_build_with_params q t)) /\
  (forall q, rtc (update_call t) update_new q ->
     well_typed_statement t (update_build_with_params q t)) /\
  (forall q, rtc (delete_call t) delete_new q ->
     well_typed_statement t (delete_build_with_params q t)).
Proof.
  intros Hd. split; [|split]; intros q Hq; apply fragments_well_typed; intros lit.
  - eexists. apply (select_fragment t d Hd). by apply select_calls_typed.
  - apply (update_fragment t d lit Hd).
    refine (rtc_invariant (update_call t) (update_typed t) _ _ _ _ Hq); [|done].
    intros a b Ha Hab. by eapply update_call_typed.
  - apply (delete_fragment t d lit Hd).
    refine (rtc_invariant (delete_call t) (delete_typed t) _ _ _ _ Hq); [|done].
    intros a b Ha Hab. by eapply delete_call_typed.
Qed.

Lemma built_queries_well_typed_witness :
  placeholders PostgreSQL QOut (bq_sql (select_build_with_params
    (where_in "why?" [VI32 1; VI32 2] (where_eq "u.name" (VString "x") (from "users" select_new)))
    PostgreSQL)) = 3%nat.
Proof.
  refine (proj1 (proj1 (built_queries_well_typed PostgreSQL PostgreSqlDialect eq_refl) _ _)).
  eapply rtc_l; [apply (call_from _ "users")|].
  eapply rtc_l; [apply call_condition, (call_where_eq _ "u.name" (VString "x"))|].
  apply rtc_once, call_condition, (call_where_in _ "why?" [VI32 1; VI32 2]).
Defined.

(** A parameterised query is the inlined one.  For every database with a dialect, binding the
    parameters of [build_with_params] to their placeholders in order gives, whatever texts the
    values are rendered as, exactly the statement that [build] makes of the query in which every
    parameterised condition and join is given as text with the values in it, joined by [AND] or
    [OR] as the method said.  So values end up at the conditions they were given for, and the two
    ways to state a query agree. *)
Theorem params_bind_to_inlined (t : DbType) (d : Dialect) (q : SelectQuery)
    (lit : Value -> string) :
  get_dialect t = Ok d -> select_typed t q ->
  let b := select_build_with_params q t in
  exists st, at_rest st = true /\
    bind t QOut (bq_sql b) (lit <$> bq_params b) = Some (st, select_build (inline lit t d q) t, []).
Proof. intros Hd Hq. exact (select_fragment t d Hd lit q Hq). Qed.

(** The values of the example below as SQL. *)
Definition example_lit (v : Value) : string :=
  match v with VString s => "'" +:+ s +:+ "'" | VI32 z => pretty z | _ => "NULL" end.

Definition example_query : SelectQuery :=
  or_where_in "role" [VString "a?"; VString "b"] (where_eq "age" (VI32 18)
    (inner_join_param "orders o" "o.status" " = ?" (VString "paid") (from "users" select_new))).

Lemma example_query_typed : select_typed MySQL example_query.
Proof.
  apply select_calls_typed. eapply rtc_l; [apply (call_from _ "users")|].
  eapply rtc_l; [eapply (call_join_param _ inner_join_param "orders o" "o.status" " = ?"
    (VString "paid")); [by left|reflexivity|apply op_typed_eq]|].
  eapply rtc_l; [apply call_condition, (call_where_eq _ "age" (VI32 18))|].
  apply rtc_once, (call_or_where_in _ "role" [VString "a?"; VString "b"]).
Defined.

Lemma params_bind_to_inlined_witness :
  exists st, at_rest st = true /\
    bind MySQL QOut
      ("SELECT * FROM `users` INNER JOIN `orders` o ON `o`.`status` = ? WHERE `age` = ? OR "
       +:+ "`role` IN (?, ?)") ["'paid'"; "18"; "'a?'"; "'b'"]
    = Some (st, "SELECT * FROM `users` INNER JOIN `orders` o ON `o`.`status` = 'paid' WHERE "
        +:+ "`age` = 18 OR `role` IN ('a?', 'b')", []).
Proof.
  exact (params_bind_to_inlined MySQL MySqlDialect example_query example_lit eq_refl
    example_query_typed).
Defined.

(** The conditions of a builder taken out. *)
Definition without_params_update (q : UpdateQuery) : UpdateQuery :=
  mkUpdate (uq_table q) (uq_sets q) (uq_wheres q) [] (uq_returning q).
Definition without_params_delete (q : DeleteQuery) : DeleteQuery :=
  mkDelete (dq_table q) (dq_wheres q) [] (dq_returning q).

(** [build] and [build_with_dialect] forget parameterised conditions.  Of an UPDATE, a DELETE
    or a SELECT they render the same statement with the parameterised conditions and without
    them, so a DELETE restricted by [where_eq] alone deletes every row of its table, while
    [build_with_params] renders the condition and returns its value. *)
Theorem text_builds_drop_conditions (t : DbType) (d : Dialect) :
  get_dialect t = Ok d ->
  (forall q, update_build q = update_build (without_params_update q) /\
     update_build_with_dialect q t = update_build_with_dialect (without_params_update q) t) /\
  (forall q, delete_build q = delete_build (without_params_delete q) /\
     delete_build_with_dialect q t = delete_build_with_dialect (without_params_delete q) t) /\
  (forall q, select_build q t = select_build (select_set_wheres (sq_wheres q) [] q) t) /\
  (forall table column v, table <> "" ->
     let q := where_eq column v (delete_from_table table delete_new) in
     delete_build q = "DELETE FROM " +:+ quote_ident table /\
     delete_build_with_dialect q t = "DELETE FROM " +:+ quote d table /\
     delete_build_with_params q t
     = mkBuilt ("DELETE FROM " +:+ quote d table +:+ " WHERE "
         +:+ (if String.eqb column "" then "" else quote_column_dialect d column) +:+ " = ?") [v]).
Proof.
  intros Hd. split; [done|]. split; [done|]. split; [intros q; by destruct q|].
  intros table column v Ht. apply String.eqb_neq in Ht. cbv zeta.
  unfold delete_build, delete_build_with_dialect, delete_build_with_params, where_eq,
    delete_from_table. cbn [push_param_where delete_conditions dq_table dq_wheres dq_param_wheres
    dq_returning delete_new app from_option id]. rewrite Hd, Ht.
  split; [by rewrite str_app_nil_r|]. split; [by rewrite str_app_nil_r|].
  f_equal. f_equal. f_equal. cbn -[String.append]. destruct (String.eqb column "");
    by rewrite ?str_app_nil_r.
Qed.

Lemma text_builds_drop_conditions_witness :
  delete_build (where_eq "id" (VI32 7) (delete_from_table "users" delete_new))
  = "DELETE FROM `users`".
Proof.
  refine (proj1 (proj2 (proj2 (proj2 (text_builds_drop_conditions MySQL MySqlDialect eq_refl)))
    "users" "id" (VI32 7) _)). discriminate.
Defined.
