(* ===== verification/CoreQuery.v ===== *)
(** The query builder of models: [packages/sz-orm-core/src/query.rs], with the features that are
    on by default.  Conditions grouped by OR, soft deletion, tenants, keyset pages, and both
    renderings of a statement: with its values in the text, and with placeholders. *)

From Stdlib Require Import Ascii String.
From S2P Require Import Prelude SqlText Dialect VendorDialects AnalyticDialects Dialects Value.
Local Open Scope string_scope.
#[local] Arguments String.append !_ _ : simpl nomatch.

(** * Data *)

(** What the builder uses of the traits [Model] and [ModelExt]. *)
Record Model : Type := mkModel {
  table_name : string;
  pk_name : string;
  model_soft_delete_field : option string;
  model_tenant_field : option string;
  model_columns : list string;
}.

Inductive BuildError : Type :=
| BadName (e : DbError)
| QueryError (message : string)
| BadInput (message : string)
| NoUpsert (t : DbType).

Inductive SelectMode : Type := AllColumns | Partial.

Inductive AggExpr : Type :=
| CountStar
| Sum (column : string)
| Avg (column : string)
| Min (column : string)
| Max (column : string).

Definition agg_validate (a : AggExpr) : result unit DbError :=
  match a with
  | CountStar => Ok tt
  | Sum col | Avg col | Min col | Max col => validate_identifier col "aggregate column"
  end.

Definition agg_render (dialect : Dialect) (a : AggExpr) : string :=
  match a with
  | CountStar => "COUNT(*)"
  | Sum col => "SUM(" +:+ quote dialect col +:+ ")"
  | Avg col => "AVG(" +:+ quote dialect col +:+ ")"
  | Min col => "MIN(" +:+ quote dialect col +:+ ")"
  | Max col => "MAX(" +:+ quote dialect col +:+ ")"
  end.

Inductive HavingOp : Type := HEq | HNe | HGt | HGe | HLt | HLe.

Definition having_op_sql (op : HavingOp) : string :=
  match op with
  | HEq => "=" | HNe => "!=" | HGt => ">" | HGe => ">=" | HLt => "<" | HLe => "<="
  end.

(** [partial_model.rs] *)
Inductive AggFunc : Type := FCount | FSum | FAvg | FMax | FMin.

Definition agg_func_sql (f : AggFunc) : string :=
  match f with FCount => "COUNT" | FSum => "SUM" | FAvg => "AVG" | FMax => "MAX" | FMin => "MIN" end.

Record Expr : Type := mkExpr { expr_func : AggFunc; expr_column : string }.

Definition render_as (e : Expr) (alias : string) : string :=
  agg_func_sql (expr_func e) +:+ "(" +:+ expr_column e +:+ ") AS " +:+ alias.

(** No method of the builder makes [WAnd], [WOr], [WExists] or [WNotExists]; [WTypedExpr] comes
    with a feature that is off by default. *)
Inductive WhereCondition : Type :=
| WAnd (c : string)
| WOr (c : string)
| WHaving (agg : AggExpr) (op : HavingOp) (v : Value)
| WEq (f : string) (v : Value)
| WNe (f : string) (v : Value)
| WGt (f : string) (v : Value)
| WGe (f : string) (v : Value)
| WLt (f : string) (v : Value)
| WLe (f : string) (v : Value)
| WLike (f : string) (v : Value)
| WOrEq (f : string) (v : Value)
| WOrNe (f : string) (v : Value)
| WOrGt (f : string) (v : Value)
| WOrGe (f : string) (v : Value)
| WOrLt (f : string) (v : Value)
| WOrLe (f : string) (v : Value)
| WOrLike (f : string) (v : Value)
| WIn (f : string) (vals : list Value)
| WNotIn (f : string) (vals : list Value)
| WBetween (f : string) (start end_ : Value)
| WNotBetween (f : string) (start end_ : Value)
| WNull (f : string)
| WNotNull (f : string)
| WExists (s : string)
| WNotExists (s : string)
| WTypedExpr (sql : string) (params : list Value).

Inductive OrderDirection : Type := Asc | Desc.

Record OrderClause : Type := mkOrder { order_field : string; order_direction : OrderDirection }.

(** [relation_trait.rs] *)
Inductive RelationKind : Type := HasOne | HasMany | BelongsTo | ManyToMany.
Inductive JoinKind : Type := JInner | JLeft.

Definition join_kind_sql (k : JoinKind) : string :=
  match k with JInner => "INNER JOIN" | JLeft => "LEFT JOIN" end.

Definition default_join_type (k : RelationKind) : JoinKind :=
  match k with HasOne | BelongsTo => JInner | HasMany | ManyToMany => JLeft end.

Record RelationDef : Type := mkRelation {
  from_entity : string;
  to_entity : string;
  from_key : string;
  to_key : string;
  relation_kind : RelationKind;
}.

Inductive JoinClause : Type :=
| Inner (t l r : string)
| Left (t l r : string)
| Right (t l r : string)
| Cross (t on : string)
| Relation (kind : JoinKind) (ft fk te tk : string).

Inductive KeysetDirection : Type := After | Before.

Record KeysetCursor : Type := mkCursor {
  cursor_field : string;
  cursor_value : Value;
  cursor_direction : KeysetDirection;
}.

(** ** The kinds of dialects, [dialect.rs] *)

Inductive DialectKind : Type := KMySQL | KPostgreSQL | KSQLite | KOracle | KMSSQL.

Definition from_db_type (t : DbType) : option DialectKind :=
  match t with
  | MySQL | MariaDB | TiDB | OceanBase => Some KMySQL
  | PostgreSQL | Kingbase | PolarDB | GaussDB => Some KPostgreSQL
  | Sqlite => Some KSQLite
  | Oracle | Dameng => Some KOracle
  | SqlServer | Sybase | GBase => Some KMSSQL
  | _ => None
  end.

Definition kind_dialect (k : DialectKind) : Dialect :=
  match k with
  | KMySQL => MySqlDialect
  | KPostgreSQL => PostgreSqlDialect
  | KSQLite => SqliteDialect
  | KOracle => OracleDialect
  | KMSSQL => SqlServerDialect
  end.

Definition kind_quote_into (k : DialectKind) (identifier buf : string) : string :=
  match k with
  | KMySQL => quote_into MySqlDialect identifier buf
  | KPostgreSQL => quote_into PostgreSqlDialect identifier buf
  | KSQLite => quote_into SqliteDialect identifier buf
  | KOracle => quote_into OracleDialect identifier buf
  | KMSSQL => quote_into SqlServerDialect identifier buf
  end.

(** ** The builder *)

Record QueryBuilder : Type := mkBuilder {
  qb_table : option string;
  select_columns : list string;
  select_mode : SelectMode;
  where_conditions : list WhereCondition;
  orders : list OrderClause;
  groups : list string;
  having_conditions : list WhereCondition;
  limit_value : option Z;
  offset_value : option Z;
  joins : list JoinClause;
  dialect : Dialect;
  dialect_kind : option DialectKind;
  soft_delete_disabled : bool;
  tenant_id : option Z;
  tenant_disabled : bool;
  keyset_cursor : option KeysetCursor;
  cache_ttl_value : option Z;
  lock_type : option LockType;
  insert_ignore : bool;
}.

Definition builder_new (d : Dialect) : QueryBuilder :=
  mkBuilder None [] AllColumns [] [] [] [] None None [] d (from_db_type (db_type d))
    false None false None None None false.

(** ** Updates of single fields *)

Section Updates.
Implicit Types (q : QueryBuilder).

Definition set_table (x : option string) q : QueryBuilder :=
  let 'mkBuilder _ sc sm ws os gs hs l o js d k sd ti td kc ct lt ii := q in
  mkBuilder x sc sm ws os gs hs l o js d k sd ti td kc ct lt ii.
Definition set_columns (x : list string) q : QueryBuilder :=
  let 'mkBuilder t _ sm ws os gs hs l o js d k sd ti td kc ct lt ii := q in
  mkBuilder t x sm ws os gs hs l o js d k sd ti td kc ct lt ii.
Definition set_mode (x : SelectMode) q : QueryBuilder :=
  let 'mkBuilder t sc _ ws os gs hs l o js d k sd ti td kc ct lt ii := q in
  mkBuilder t sc x ws os gs hs l o js d k sd ti td kc ct lt ii.
Definition push_condition (c : WhereCondition) q : QueryBuilder :=
  let 'mkBuilder t sc sm ws os gs hs l o js d k sd ti td kc ct lt ii := q in
  mkBuilder t sc sm (ws ++ [c]) os gs hs l o js d k sd ti td kc ct lt ii.
Definition set_orders (x : list OrderClause) q : QueryBuilder :=
  let 'mkBuilder t sc sm ws _ gs hs l o js d k sd ti td kc ct lt ii := q in
  mkBuilder t sc sm ws x gs hs l o js d k sd ti td kc ct lt ii.
Definition push_group_by (g : string) q : QueryBuilder :=
  let 'mkBuilder t sc sm ws os gs hs l o js d k sd ti td kc ct lt ii := q in
  mkBuilder t sc sm ws os (gs ++ [g]) hs l o js d k sd ti td kc ct lt ii.
Definition push_having (h : WhereCondition) q : QueryBuilder :=
  let 'mkBuilder t sc sm ws os gs hs l o js d k sd ti td kc ct lt ii := q in
  mkBuilder t sc sm ws os gs (hs ++ [h]) l o js d k sd ti td kc ct lt ii.
Definition set_window (l' o' : option Z) q : QueryBuilder :=
  let 'mkBuilder t sc sm ws os gs hs _ _ js d k sd ti td kc ct lt ii := q in
  mkBuilder t sc sm ws os gs hs l' o' js d k sd ti td kc ct lt ii.
Definition push_join (j : JoinClause) q : QueryBuilder :=
  let 'mkBuilder t sc sm ws os gs hs l o js d k sd ti td kc ct lt ii := q in
  mkBuilder t sc sm ws os gs hs l o (js ++ [j]) d k sd ti td kc ct lt ii.
Definition set_soft_delete_disabled (x : bool) q : QueryBuilder :=
  let 'mkBuilder t sc sm ws os gs hs l o js d k _ ti td kc ct lt ii := q in
  mkBuilder t sc sm ws os gs hs l o js d k x ti td kc ct lt ii.
Definition set_tenant (x : option Z) (off : bool) q : QueryBuilder :=
  let 'mkBuilder t sc sm ws os gs hs l o js d k sd _ _ kc ct lt ii := q in
  mkBuilder t sc sm ws os gs hs l o js d k sd x off kc ct lt ii.
Definition set_cursor (x : option KeysetCursor) q : QueryBuilder :=
  let 'mkBuilder t sc sm ws os gs hs l o js d k sd ti td _ ct lt ii := q in
  mkBuilder t sc sm ws os gs hs l o js d k sd ti td x ct lt ii.
Definition set_cache_ttl (x : option Z) q : QueryBuilder :=
  let 'mkBuilder t sc sm ws os gs hs l o js d k sd ti td kc _ lt ii := q in
  mkBuilder t sc sm ws os gs hs l o js d k sd ti td kc x lt ii.
Definition set_lock (x : option LockType) q : QueryBuilder :=
  let 'mkBuilder t sc sm ws os gs hs l o js d k sd ti td kc ct _ ii := q in
  mkBuilder t sc sm ws os gs hs l o js d k sd ti td kc ct x ii.
Definition set_insert_ignore (x : bool) q : QueryBuilder :=
  let 'mkBuilder t sc sm ws os gs hs l o js d k sd ti td kc ct lt _ := q in
  mkBuilder t sc sm ws os gs hs l o js d k sd ti td kc ct lt x.
End Updates.

(** * Methods *)

Section Methods.
Implicit Types (q : QueryBuilder).

Definition table (t : string) q : QueryBuilder := set_table (Some t) q.
Definition without_soft_delete q : QueryBuilder := set_soft_delete_disabled true q.
Definition is_soft_delete_disabled q : bool := soft_delete_disabled q.
Definition cache_ttl (ttl : Z) q : QueryBuilder := set_cache_ttl (Some ttl) q.
Definition get_cache_ttl q : option Z := cache_ttl_value q.

Definition lock_for_update q : result QueryBuilder BuildError :=
  if supports_lock_for_update (dialect q) then Ok (set_lock (Some ForUpdate) q)
  else Err (QueryError "FOR UPDATE lock is not supported by this dialect").

Definition lock_shared q : result QueryBuilder BuildError :=
  if supports_lock_shared (dialect q) then Ok (set_lock (Some SharedLock) q)
  else Err (QueryError "Shared lock is not supported by this dialect").

Definition insert_or_ignore q : QueryBuilder := set_insert_ignore true q.
Definition get_lock_type q : option LockType := lock_type q.
Definition is_insert_or_ignore q : bool := insert_ignore q.

Definition clone_for_count q : QueryBuilder :=
  mkBuilder (qb_table q) [] AllColumns (where_conditions q) [] (groups q) (having_conditions q)
    None None (joins q) (dialect q) (dialect_kind q) (soft_delete_disabled q) (tenant_id q)
    (tenant_disabled q) None None None false.

Definition with_tenant_id (tid : Z) q : QueryBuilder := set_tenant (Some tid) (tenant_disabled q) q.
Definition without_tenant q : QueryBuilder := set_tenant (tenant_id q) true q.
Definition is_tenant_disabled q : bool := tenant_disabled q.

Fixpoint quote_columns (d : Dialect) (columns : list string) : result (list string) BuildError :=
  match columns with
  | [] => Ok []
  | col :: columns =>
      match validate_identifier col "select column" with
      | Err e => Err (BadName e)
      | Ok _ => result_bind (quote_columns d columns) (fun quoted => Ok (quote d col :: quoted))
      end
  end.

Definition select (columns : list string) q : result QueryBuilder BuildError :=
  result_bind (quote_columns (dialect q) columns) (fun quoted => Ok (set_columns quoted q)).

Definition select_expr (columns : list string) q : QueryBuilder := set_columns columns q.
Definition select_quoted (columns : list string) q : result QueryBuilder BuildError := select columns q.

Definition where_eq (field : string) (value : Value) q : QueryBuilder := push_condition (WEq field value) q.
Definition where_ne (field : string) (value : Value) q : QueryBuilder := push_condition (WNe field value) q.
Definition where_gt (field : string) (value : Value) q : QueryBuilder := push_condition (WGt field value) q.
Definition where_ge (field : string) (value : Value) q : QueryBuilder := push_condition (WGe field value) q.
Definition where_lt (field : string) (value : Value) q : QueryBuilder := push_condition (WLt field value) q.
Definition where_le (field : string) (value : Value) q : QueryBuilder := push_condition (WLe field value) q.
Definition where_like (field : string) (pattern : Value) q : QueryBuilder := push_condition (WLike field pattern) q.
Definition or_where_eq (field : string) (value : Value) q : QueryBuilder := push_condition (WOrEq field value) q.
Definition or_where_ne (field : string) (value : Value) q : QueryBuilder := push_condition (WOrNe field value) q.
Definition or_where_gt (field : string) (value : Value) q : QueryBuilder := push_condition (WOrGt field value) q.
Definition or_where_ge (field : string) (value : Value) q : QueryBuilder := push_condition (WOrGe field value) q.
Definition or_where_lt (field : string) (value : Value) q : QueryBuilder := push_condition (WOrLt field value) q.
Definition or_where_le (field : string) (value : Value) q : QueryBuilder := push_condition (WOrLe field value) q.
Definition or_where_like (field : string) (pattern : Value) q : QueryBuilder := push_condition (WOrLike field pattern) q.
Definition where_in (field : string) (values : list Value) q : QueryBuilder := push_condition (WIn field values) q.
Definition where_not_in (field : string) (values : list Value) q : QueryBuilder := push_condition (WNotIn field values) q.
Definition where_between (field : string) (start end_ : Value) q : QueryBuilder :=
  push_condition (WBetween field start end_) q.
Definition where_not_between (field : string) (start end_ : Value) q : QueryBuilder :=
  push_condition (WNotBetween field start end_) q.
Definition where_null (field : string) q : QueryBuilder := push_condition (WNull field) q.
Definition where_not_null (field : string) q : QueryBuilder := push_condition (WNotNull field) q.

Definition push_order (field : string) (dir : OrderDirection) q : QueryBuilder :=
  set_orders (orders q ++ [mkOrder field dir])%list q.
Definition order_by (field : string) q : QueryBuilder := push_order field Asc q.
Definition order_desc (field : string) q : QueryBuilder := push_order field Desc q.
Definition group_by (field : string) q : QueryBuilder := push_group_by field q.

(** The variants that take the name of a column type; [select_typed] does not quote it. *)
Definition where_eq_typed : string -> Value -> QueryBuilder -> QueryBuilder := where_eq.
Definition where_ne_typed : string -> Value -> QueryBuilder -> QueryBuilder := where_ne.
Definition where_gt_typed : string -> Value -> QueryBuilder -> QueryBuilder := where_gt.
Definition where_ge_typed : string -> Value -> QueryBuilder -> QueryBuilder := where_ge.
Definition where_lt_typed : string -> Value -> QueryBuilder -> QueryBuilder := where_lt.
Definition where_le_typed : string -> Value -> QueryBuilder -> QueryBuilder := where_le.
Definition where_null_typed : string -> QueryBuilder -> QueryBuilder := where_null.
Definition where_not_null_typed : string -> QueryBuilder -> QueryBuilder := where_not_null.
Definition order_by_typed : string -> QueryBuilder -> QueryBuilder := order_by.
Definition order_desc_typed : string -> QueryBuilder -> QueryBuilder := order_desc.
Definition group_by_typed : string -> QueryBuilder -> QueryBuilder := group_by.
Definition select_typed (name : string) q : QueryBuilder := set_columns (select_columns q ++ [name])%list q.
Definition select_typed_cols (name : string) q : QueryBuilder := set_columns (select_columns q ++ [name])%list q.

Definition having (agg : AggExpr) (op : HavingOp) (value : Value) q : result QueryBuilder BuildError :=
  match agg_validate agg with
  | Err e => Err (BadName e)
  | Ok _ => Ok (push_having (WHaving agg op value) q)
  end.

Definition limit (n : Z) q : QueryBuilder := set_window (Some n) (offset_value q) q.
Definition offset (n : Z) q : QueryBuilder := set_window (limit_value q) (Some n) q.
Definition page (page page_size : Z) q : QueryBuilder :=
  set_window (Some page_size) (Some (wrap64 (saturating_sub page 1 * page_size))) q.

(** [order_by.iter_mut().find(..)]: the first clause of the field gets the direction. *)
Fixpoint direct_order (field : string) (dir : OrderDirection) (os : list OrderClause) : list OrderClause :=
  match os with
  | [] => [mkOrder field dir]
  | o :: os =>
      if String.eqb (order_field o) field then mkOrder (order_field o) dir :: os
      else o :: direct_order field dir os
  end.

Definition keyset_after (field : string) (value : Value) (page_size : Z) q : QueryBuilder :=
  set_cursor (Some (mkCursor field value After))
    (set_window (Some page_size) None (set_orders (direct_order field Asc (orders q)) q)).

Definition keyset_before (field : string) (value : Value) (page_size : Z) q : QueryBuilder :=
  set_cursor (Some (mkCursor field value Before))
    (set_window (Some page_size) None (set_orders (direct_order field Desc (orders q)) q)).

Definition join_inner (t on_left on_right : string) q : QueryBuilder := push_join (Inner t on_left on_right) q.
Definition join_left (t on_left on_right : string) q : QueryBuilder := push_join (Left t on_left on_right) q.
Definition join_right (t on_left on_right : string) q : QueryBuilder := push_join (Right t on_left on_right) q.

Definition join_relation (r : RelationDef) q : QueryBuilder :=
  push_join (Relation (default_join_type (relation_kind r)) (from_entity r) (from_key r) (to_entity r) (to_key r)) q.
Definition left_join (r : RelationDef) q : QueryBuilder :=
  push_join (Relation JLeft (from_entity r) (from_key r) (to_entity r) (to_key r)) q.

Definition select_only q : QueryBuilder := set_columns [] (set_mode Partial q).
Definition column (c : string) q : QueryBuilder := set_columns (select_columns q ++ [c])%list q.
Definition columns (cols : list string) q : QueryBuilder := set_columns (select_columns q ++ cols)%list q.
Definition column_as (e : Expr) (alias : string) q : QueryBuilder :=
  set_columns (select_columns q ++ [render_as e alias])%list q.

Definition select_exclude (M : Model) (fields : list string) q : result QueryBuilder BuildError :=
  match list_find (fun f => f ∉ model_columns M) fields with
  | Some (_, field) => Err (BadInput ("排除的字段不存在: " +:+ field))
  | None =>
      match base.filter (fun c => c ∉ fields) (model_columns M) with
      | [] => Err (BadInput "不能排除所有字段")
      | retained => Ok (set_columns retained (set_mode Partial q))
      end
  end.
End Methods.

(** * Rendering *)

(** [for i in .. { if i > 0 { push(sep) } write(x) }] on a buffer. *)
Fixpoint write_list {A} (sep : string) (write : A -> string -> option string) (first : bool) (l : list A)
    (buf : string) : option string :=
  match l with
  | [] => Some buf
  | x :: l =>
      buf ← write x (if first then buf else buf +:+ sep);
      write_list sep write false l buf
  end.

(** [push_usize_to_string]: the digits from the last one; [fuel] is the length of the array. *)
Fixpoint usize_digits (fuel : nat) (val : N) (acc : string) : string :=
  match fuel with
  | O => acc
  | S fuel =>
      if (val =? 0)%N then acc
      else usize_digits fuel (val / 10) (String (pretty_N_char (val mod 10)) acc)
  end.

Definition push_usize_to_string (n : N) (buf : string) : string :=
  if (n =? 0)%N then buf +:+ "0" else buf +:+ usize_digits 20 n "".

Definition placeholder_texts {A} (l : list A) : string := join ", " ((fun _ => "?") <$> l).

(** Conditions pushed by the [or_where_*] methods. *)
Definition is_or (c : WhereCondition) : bool :=
  match c with
  | WOr _ | WOrEq _ _ | WOrNe _ _ | WOrGt _ _ | WOrGe _ _ | WOrLt _ _ | WOrLe _ _ | WOrLike _ _ => true
  | _ => false
  end.

(** Adjacent OR conditions join the condition before them: [(groups, current_group)]. *)
Definition group_step (st : list (list string) * list string) (cond : string) : list (list string) * list string :=
  match strip_prefix "OR " cond with
  | Some stripped => (fst st, snd st ++ [stripped])%list
  | None => (match snd st with [] => fst st | g => fst st ++ [g] end, [cond])%list
  end.

Definition group_conditions (conditions : list string) : list (list string) :=
  let '(groups, current_group) := fold_left group_step conditions ([], []) in
  match current_group with [] => groups | g => groups ++ [g] end%list.

Definition group_text (g : list string) : string :=
  match g with [c] => c | _ => "(" +:+ join " OR " g +:+ ")" end.

Section Rendering.
Context `{FloatText} (M : Model).
Implicit Types (q : QueryBuilder).

Definition soft_delete_field q : option string :=
  if soft_delete_disabled q then None else model_soft_delete_field M.

Definition build_soft_delete_condition q : option string :=
  (fun field => quote (dialect q) field +:+ " IS NULL") <$> soft_delete_field q.

Definition tenant_field q : option string :=
  if tenant_disabled q then None else model_tenant_field M.

Definition tenant_id_value q : option Z :=
  if tenant_disabled q then None else tenant_id q.

Definition build_tenant_condition q : option (string * list Value) :=
  field ← tenant_field q;
  match tenant_id_value q with
  | Some tid => Some (quote (dialect q) field +:+ " = ?", [VI64 tid])
  | None => Some ("1 = 0", [])
  end.

Definition statement_table q : string := default (table_name M) (qb_table q).

(** ** With the values in the text *)

Definition inline_condition_values (sql : string) (values : list Value) (d : Dialect) : string :=
  fold_left (fun sql value => replace_first "?" (to_param_with_dialect d value) sql) values sql.

Definition inline_values (d : Dialect) (vals : list Value) : string :=
  join ", " (to_param_with_dialect d <$> vals).

Definition condition_inline (d : Dialect) (cond : WhereCondition) : string :=
  let p := to_param_with_dialect d in
  match cond with
  | WAnd c => c
  | WOr c => "OR " +:+ c
  | WEq f v => quote d f +:+ " = " +:+ p v
  | WNe f v => quote d f +:+ " != " +:+ p v
  | WGt f v => quote d f +:+ " > " +:+ p v
  | WGe f v => quote d f +:+ " >= " +:+ p v
  | WLt f v => quote d f +:+ " < " +:+ p v
  | WLe f v => quote d f +:+ " <= " +:+ p v
  | WLike f v => quote d f +:+ " LIKE " +:+ p v
  | WOrEq f v => "OR " +:+ quote d f +:+ " = " +:+ p v
  | WOrNe f v => "OR " +:+ quote d f +:+ " != " +:+ p v
  | WOrGt f v => "OR " +:+ quote d f +:+ " > " +:+ p v
  | WOrGe f v => "OR " +:+ quote d f +:+ " >= " +:+ p v
  | WOrLt f v => "OR " +:+ quote d f +:+ " < " +:+ p v
  | WOrLe f v => "OR " +:+ quote d f +:+ " <= " +:+ p v
  | WOrLike f v => "OR " +:+ quote d f +:+ " LIKE " +:+ p v
  | WIn f vals => quote d f +:+ " IN (" +:+ inline_values d vals +:+ ")"
  | WNotIn f vals => quote d f +:+ " NOT IN (" +:+ inline_values d vals +:+ ")"
  | WBetween f s e => quote d f +:+ " BETWEEN " +:+ p s +:+ " AND " +:+ p e
  | WNotBetween f s e => quote d f +:+ " NOT BETWEEN " +:+ p s +:+ " AND " +:+ p e
  | WNull f => quote d f +:+ " IS NULL"
  | WNotNull f => quote d f +:+ " IS NOT NULL"
  | WExists s => "EXISTS (" +:+ s +:+ ")"
  | WNotExists s => "NOT EXISTS (" +:+ s +:+ ")"
  | WTypedExpr s _ => s
  | WHaving _ _ _ => ""
  end.

Definition cursor_op (dir : KeysetDirection) : string := match dir with After => ">" | Before => "<" end.

Definition where_text (conditions : list string) : string :=
  " WHERE " +:+ join " AND " (group_text <$> group_conditions conditions).

Definition build_where_clause_with_options (include_soft_delete : bool) q : string :=
  let d := dialect q in
  let soft_delete_cond := if include_soft_delete then build_soft_delete_condition q else None in
  let tenant_cond := (fun '(sql, values) => inline_condition_values sql values d) <$> build_tenant_condition q in
  let keyset_cond :=
    (fun c => quote d (cursor_field c) +:+ " " +:+ cursor_op (cursor_direction c) +:+ " "
       +:+ to_param_with_dialect d (cursor_value c)) <$> keyset_cursor q in
  match (condition_inline d <$> where_conditions q) ++ option_list soft_delete_cond
        ++ option_list tenant_cond ++ option_list keyset_cond with
  | [] => ""
  | conditions => where_text conditions
  end%list.

Definition build_where_clause q : string := build_where_clause_with_options true q.

Definition join_inline (d : Dialect) (j : JoinClause) : string :=
  match j with
  | Inner t l r => " INNER JOIN " +:+ quote d t +:+ " ON " +:+ quote d l +:+ " = " +:+ quote d r
  | Left t l r => " LEFT JOIN " +:+ quote d t +:+ " ON " +:+ quote d l +:+ " = " +:+ quote d r
  | Right t l r => " RIGHT JOIN " +:+ quote d t +:+ " ON " +:+ quote d l +:+ " = " +:+ quote d r
  | Cross t on => " CROSS JOIN " +:+ quote d t +:+ " ON " +:+ quote d on
  | Relation kind ft fk te tk =>
      " " +:+ join_kind_sql kind +:+ " " +:+ quote d te +:+ " ON " +:+ quote d ft +:+ "." +:+ quote d fk
      +:+ " = " +:+ quote d te +:+ "." +:+ quote d tk
  end.

Definition direction_text (dir : OrderDirection) : string := match dir with Asc => " ASC" | Desc => " DESC" end.

Definition having_inline (d : Dialect) (cond : WhereCondition) : string :=
  match cond with
  | WAnd c => c
  | WHaving agg op v => agg_render d agg +:+ " " +:+ having_op_sql op +:+ " " +:+ to_param_with_dialect d v
  | _ => ""
  end.

(** The end of both renderings of a SELECT. *)
Definition push_window q (sql : string) : string :=
  if is_some (limit_value q) || is_some (offset_value q) then
    let sql := if requires_order_by_for_pagination (dialect q) && bool_decide (orders q = [])
               then sql +:+ " ORDER BY (SELECT NULL)" else sql in
    match build_pagination_clause (dialect q) (limit_value q) (offset_value q) with
    | Some clause => sql +:+ clause
    | None => sql
    end
  else sql.

Definition push_lock q (sql : string) : string :=
  match lock_type q ≫= build_lock_clause (dialect q) with
  | Some clause => sql +:+ " " +:+ clause
  | None => sql
  end.

Definition sql q : string :=
  let d := dialect q in
  let cols := match select_columns q with [] => "*" | cs => join ", " cs end in
  let s := "SELECT " +:+ cols +:+ " FROM " +:+ quote d (statement_table q) in
  let s := s +:+ join "" (join_inline d <$> joins q) in
  let s := s +:+ build_where_clause q in
  let s := match groups q with [] => s | gs => s +:+ " GROUP BY " +:+ join ", " (quote d <$> gs) end in
  let s := match having_conditions q with
           | [] => s
           | hs => s +:+ " HAVING " +:+ join " AND " (having_inline d <$> hs)
           end in
  let s := match orders q with
           | [] => s
           | os => s +:+ " ORDER BY "
               +:+ join ", " ((fun o => quote d (order_field o) +:+ direction_text (order_direction o)) <$> os)
           end in
  push_lock q (push_window q s).

Definition sql_insert (data : gmap string Value) q : string :=
  let d := dialect q in
  match map_to_list data with
  | [] => ""
  | kvs =>
      "INSERT INTO " +:+ quote d (statement_table q) +:+ " (" +:+ join ", " (quote d <$> kvs.*1)
      +:+ ") VALUES (" +:+ join ", " (to_param_with_dialect d <$> kvs.*2) +:+ ")"
  end.

Definition sql_update (data : gmap string Value) q : string :=
  let d := dialect q in
  match map_to_list data with
  | [] => ""
  | kvs =>
      "UPDATE " +:+ quote d (statement_table q) +:+ " SET "
      +:+ join ", " ((fun '(k, v) => quote d k +:+ " = " +:+ to_param_with_dialect d v) <$> kvs)
      +:+ build_where_clause q
  end.

Definition sql_delete q : string :=
  let d := dialect q in
  match soft_delete_field q with
  | Some field =>
      "UPDATE " +:+ quote d (statement_table q) +:+ " SET " +:+ quote d field +:+ " = NOW()" +:+ build_where_clause q
  | None => "DELETE FROM " +:+ quote d (statement_table q) +:+ build_where_clause q
  end.

Definition build_force_delete q : string :=
  "DELETE FROM " +:+ quote (dialect q) (statement_table q) +:+ build_where_clause_with_options false q.

Definition build_count q : string :=
  "SELECT COUNT(*) as total FROM " +:+ quote (dialect q) (statement_table q) +:+ build_where_clause q.

Definition build_exists q : string :=
  "SELECT EXISTS(" +:+ "SELECT 1 FROM " +:+ quote (dialect q) (statement_table q) +:+ build_where_clause q
  +:+ " LIMIT 1" +:+ ")".

Definition build_aggregate (func alias field : string) q : string :=
  "SELECT " +:+ func +:+ "(" +:+ quote (dialect q) field +:+ ") as " +:+ alias +:+ " FROM "
  +:+ quote (dialect q) (statement_table q) +:+ build_where_clause q.

Definition build_max : string -> QueryBuilder -> string := build_aggregate "MAX" "max_val".
Definition build_min : string -> QueryBuilder -> string := build_aggregate "MIN" "min_val".
Definition build_sum : string -> QueryBuilder -> string := build_aggregate "SUM" "sum_val".
Definition build_avg : string -> QueryBuilder -> string := build_aggregate "AVG" "avg_val".

(** ** With placeholders

    [frames] is what the stack holds of calls of [quote_into]: without a kind the function calls
    itself, not the dialect, and [None] is the overflow. *)

Variable frames : nat.

Fixpoint qb_quote_into (frames : nat) q (identifier buf : string) : option string :=
  match frames with
  | O => None
  | S frames =>
      match dialect_kind q with
      | Some kind => Some (kind_quote_into kind identifier buf)
      | None => qb_quote_into frames q identifier buf
      end
  end.

Definition push_quoted q (identifier buf : string) : option string := qb_quote_into frames q identifier buf.

(** A quoted field and a text after it. *)
Definition push_field q (f text buf : string) : option string :=
  buf ← push_quoted q f buf; Some (buf +:+ text).

(** The fast paths write a condition straight into the buffer. *)
Definition write_condition q (cond : WhereCondition) (buf : string) : option (string * list Value) :=
  let field f text ps := s ← push_field q f text buf; Some (s, ps) in
  match cond with
  | WAnd c => Some (buf +:+ c, [])
  | WEq f v => field f " = ?" [v]
  | WNe f v => field f " != ?" [v]
  | WGt f v => field f " > ?" [v]
  | WGe f v => field f " >= ?" [v]
  | WLt f v => field f " < ?" [v]
  | WLe f v => field f " <= ?" [v]
  | WLike f v => field f " LIKE ?" [v]
  | WIn f vals => field f (" IN (" +:+ placeholder_texts vals +:+ ")") vals
  | WNotIn f vals => field f (" NOT IN (" +:+ placeholder_texts vals +:+ ")") vals
  | WBetween f s e => field f " BETWEEN ? AND ?" [s; e]
  | WNotBetween f s e => field f " NOT BETWEEN ? AND ?" [s; e]
  | WNull f => field f " IS NULL" []
  | WNotNull f => field f " IS NOT NULL" []
  | WExists s => Some (buf +:+ "EXISTS (" +:+ s +:+ ")", [])
  | WNotExists s => Some (buf +:+ "NOT EXISTS (" +:+ s +:+ ")", [])
  | WTypedExpr s ps => Some (buf +:+ s, ps)
  | _ => Some (buf, [])
  end.

Fixpoint write_conditions q (first : bool) (conds : list WhereCondition) (buf : string) :
    option (string * list Value) :=
  match conds with
  | [] => Some (buf, [])
  | cond :: conds =>
      '(buf, ps) ← write_condition q cond (if first then buf else buf +:+ " AND ");
      '(buf, qs) ← write_conditions q false conds buf;
      Some (buf, ps ++ qs)%list
  end.

(** The slow path makes a text of each condition. *)
Definition condition_text q (cond : WhereCondition) : option (string * list Value) :=
  let field f text ps := s ← push_field q f text ""; Some (s, ps) in
  let or_field f text ps := s ← push_field q f text "OR "; Some (s, ps) in
  match cond with
  | WAnd c => Some (c, [])
  | WOr c => Some ("OR " +:+ c, [])
  | WEq f v => field f " = ?" [v]
  | WNe f v => field f " != ?" [v]
  | WGt f v => field f " > ?" [v]
  | WGe f v => field f " >= ?" [v]
  | WLt f v => field f " < ?" [v]
  | WLe f v => field f " <= ?" [v]
  | WLike f v => field f " LIKE ?" [v]
  | WOrEq f v => or_field f " = ?" [v]
  | WOrNe f v => or_field f " != ?" [v]
  | WOrGt f v => or_field f " > ?" [v]
  | WOrGe f v => or_field f " >= ?" [v]
  | WOrLt f v => or_field f " < ?" [v]
  | WOrLe f v => or_field f " <= ?" [v]
  | WOrLike f v => or_field f " LIKE ?" [v]
  | WIn f vals => field f (" IN (" +:+ placeholder_texts vals +:+ ")") vals
  | WNotIn f vals => field f (" NOT IN (" +:+ placeholder_texts vals +:+ ")") vals
  | WBetween f s e => field f " BETWEEN ? AND ?" [s; e]
  | WNotBetween f s e => field f " NOT BETWEEN ? AND ?" [s; e]
  | WNull f => field f " IS NULL" []
  | WNotNull f => field f " IS NOT NULL" []
  | WExists s => Some ("EXISTS (" +:+ s +:+ ")", [])
  | WNotExists s => Some ("NOT EXISTS (" +:+ s +:+ ")", [])
  | WTypedExpr s ps => Some (s, ps)
  | WHaving _ _ _ => Some ("", [])
  end.

Definition keyset_text q : option (option (string * list Value)) :=
  match keyset_cursor q with
  | None => Some None
  | Some c =>
      s ← push_field q (cursor_field c) (" " +:+ cursor_op (cursor_direction c) +:+ " ?") "";
      Some (Some (s, [cursor_value c]))
  end.

(** The slow path: all conditions as texts, then the groups. *)
Definition slow_where_clause (soft_delete_cond : option string) (tenant_cond : option (string * list Value)) q :
    option (string * list Value) :=
  texts ← mapM (condition_text q) (where_conditions q);
  keyset ← keyset_text q;
  let extra := (option_list ((fun s => (s, [])) <$> soft_delete_cond) ++ option_list tenant_cond
                ++ option_list keyset)%list in
  let conditions := (texts ++ extra).*1%list in
  let params := concat (texts ++ extra).*2%list in
  match conditions with
  | [] => Some ("", params)
  | _ =>
      if negb (existsb (starts_with "OR ") conditions)
      then Some (" WHERE " +:+ join " AND " conditions, params)
      else Some (where_text conditions, params)
  end.

Definition build_where_clause_with_params_options (include_soft_delete : bool) q : option (string * list Value) :=
  let soft_delete_cond := if include_soft_delete then build_soft_delete_condition q else None in
  let tenant_cond := build_tenant_condition q in
  let has_extra := is_some soft_delete_cond || is_some tenant_cond || is_some (keyset_cursor q) in
  match where_conditions q with
  | [] => if has_extra then slow_where_clause soft_delete_cond tenant_cond q else Some ("", [])
  | conds =>
      if negb has_extra && negb (existsb is_or conds) then write_conditions q true conds " WHERE "
      else slow_where_clause soft_delete_cond tenant_cond q
  end.

Definition build_where_clause_with_params q : option (string * list Value) :=
  build_where_clause_with_params_options true q.

Definition write_join q (j : JoinClause) (buf : string) : option string :=
  match j with
  | Inner t l r =>
      buf ← push_quoted q t (buf +:+ " INNER JOIN "); buf ← push_quoted q l (buf +:+ " ON ");
      push_quoted q r (buf +:+ " = ")
  | Left t l r =>
      buf ← push_quoted q t (buf +:+ " LEFT JOIN "); buf ← push_quoted q l (buf +:+ " ON ");
      push_quoted q r (buf +:+ " = ")
  | Right t l r =>
      buf ← push_quoted q t (buf +:+ " RIGHT JOIN "); buf ← push_quoted q l (buf +:+ " ON ");
      push_quoted q r (buf +:+ " = ")
  | Cross t on =>
      buf ← push_quoted q t (buf +:+ " CROSS JOIN "); push_quoted q on (buf +:+ " ON ")
  | Relation kind ft fk te tk =>
      buf ← push_quoted q te (buf +:+ " " +:+ join_kind_sql kind +:+ " ");
      buf ← push_quoted q ft (buf +:+ " ON ");
      buf ← push_quoted q fk (buf +:+ ".");
      buf ← push_quoted q te (buf +:+ " = ");
      push_quoted q tk (buf +:+ ".")
  end.

(** The WHERE part of a SELECT, with a fast path of its own. *)
Definition write_select_where q (buf : string) : option (string * list Value) :=
  let no_soft_delete := soft_delete_disabled q || negb (is_some (model_soft_delete_field M)) in
  let no_tenant := tenant_disabled q || negb (is_some (model_tenant_field M)) in
  let slow := '(clause, ps) ← build_where_clause_with_params q; Some (buf +:+ clause, ps) in
  match where_conditions q with
  | [] => slow
  | conds =>
      if no_soft_delete && no_tenant && negb (is_some (keyset_cursor q)) && negb (existsb is_or conds)
      then write_conditions q true conds (buf +:+ " WHERE ")
      else slow
  end.

Definition having_text (d : Dialect) (cond : WhereCondition) : string * list Value :=
  match cond with
  | WAnd c => (c, [])
  | WHaving agg op v => (agg_render d agg +:+ " " +:+ having_op_sql op +:+ " ?", [v])
  | _ => ("", [])
  end.

Definition write_order q (o : OrderClause) (buf : string) : option string :=
  push_field q (order_field o) (direction_text (order_direction o)) buf.

Definition build_select_with_params q : option (string * list Value) :=
  let cols := match select_columns q with [] => "*" | cs => join ", " cs end in
  s ← push_quoted q (statement_table q) ("SELECT " +:+ cols +:+ " FROM ");
  s ← write_list "" (write_join q) true (joins q) s;
  '(s, params) ← write_select_where q s;
  s ← match groups q with
      | [] => Some s
      | gs => write_list ", " (push_quoted q) true gs (s +:+ " GROUP BY ")
      end;
  let '(s, params) :=
    match having_conditions q with
    | [] => (s, params)
    | hs => (s +:+ " HAVING " +:+ join " AND " (having_text (dialect q) <$> hs).*1,
             params ++ concat (having_text (dialect q) <$> hs).*2)%list
    end in
  s ← match orders q with
      | [] => Some s
      | os => write_list ", " (write_order q) true os (s +:+ " ORDER BY ")
      end;
  Some (push_lock q (push_window q s), params).

Definition build_select q : option (string * list Value) := build_select_with_params q.

Definition build_insert_with_params (data : gmap string Value) q : option (string * list Value) :=
  match map_to_list data with
  | [] => Some ("", [])
  | kvs =>
      s ← (if insert_ignore q then Some (build_insert_or_ignore_prefix (dialect q) (statement_table q))
           else push_quoted q (statement_table q) "INSERT INTO ");
      s ← write_list ", " (push_quoted q) true kvs.*1 (s +:+ " (");
      let s := s +:+ ") VALUES (" +:+ placeholder_texts kvs +:+ ")" in
      Some (if insert_ignore q then s +:+ build_insert_or_ignore_suffix (dialect q) else s, kvs.*2)
  end.

Definition build_insert (data : gmap string Value) q : option (string * list Value) := build_insert_with_params data q.

(** One value of a row: the placeholder, the next number, the value. *)
Definition batch_cell (is_pg : bool) (row : gmap string Value) (col : string) (st : string * N * list Value) :
    string * N * list Value :=
  let '(s, param_idx, ps) := st in
  match row !! col with
  | Some v =>
      if is_pg then (push_usize_to_string param_idx (s +:+ "$"), (param_idx + 1)%N, ps ++ [v])%list
      else (s +:+ "?", param_idx, ps ++ [v])%list
  | None => (s +:+ "NULL", param_idx, ps)
  end.

Fixpoint batch_cells (is_pg first : bool) (row : gmap string Value) (cols : list string)
    (st : string * N * list Value) : string * N * list Value :=
  match cols with
  | [] => st
  | col :: cols =>
      let '(s, param_idx, ps) := st in
      batch_cells is_pg false row cols (batch_cell is_pg row col (if first then s else s +:+ ", ", param_idx, ps))
  end.

Fixpoint batch_rows (is_pg first : bool) (cols : list string) (rows : list (gmap string Value))
    (st : string * N * list Value) : string * N * list Value :=
  match rows with
  | [] => st
  | row :: rows =>
      let '(s, param_idx, ps) := st in
      let '(s, param_idx, ps) :=
        batch_cells is_pg true row cols ((if first then s else s +:+ ", ") +:+ "(", param_idx, ps) in
      batch_rows is_pg false cols rows (s +:+ ")", param_idx, ps)
  end.

Definition build_batch_insert_with_params (rows : list (gmap string Value)) q : option (string * list Value) :=
  match rows with
  | [] => Some ("", [])
  | first_row :: _ =>
      let cols := (map_to_list first_row).*1 in
      let is_pg := bool_decide (db_type (dialect q) = PostgreSQL) in
      s ← push_quoted q (statement_table q) "INSERT INTO ";
      s ← write_list ", " (push_quoted q) true cols (s +:+ " (");
      let '(s, _, ps) := batch_rows is_pg true cols rows (s +:+ ") VALUES ", 1%N, []) in
      Some (s, ps)
  end.

Definition build_batch_upsert_with_params (rows : list (gmap string Value)) (conflict_columns update_columns : list string)
    q : option (result (string * list Value) BuildError) :=
  match rows with
  | [] => Some (Err (BadInput "build_batch_upsert_with_params: rows cannot be empty"))
  | first_row :: _ =>
      '(insert_sql, params) ← build_batch_insert_with_params rows q;
      if String.eqb insert_sql "" then
        Some (Err (BadInput "build_batch_upsert_with_params: failed to build INSERT part"))
      else
        match build_upsert_on_conflict (dialect q) conflict_columns update_columns (map_to_list first_row).*1 with
        | None => Some (Err (NoUpsert (db_type (dialect q))))
        | Some conflict_clause => Some (Ok (insert_sql +:+ " " +:+ conflict_clause, params))
        end
  end.

Definition build_update_with_params (data : gmap string Value) q : option (string * list Value) :=
  let d := dialect q in
  match map_to_list data with
  | [] => Some ("", [])
  | kvs =>
      let s := "UPDATE " +:+ quote d (statement_table q) +:+ " SET "
               +:+ join ", " ((fun kv => quote d kv.1 +:+ " = ?") <$> kvs) in
      '(clause, where_params) ← build_where_clause_with_params q;
      Some (s +:+ clause, kvs.*2 ++ where_params)%list
  end.

Definition build_update (data : gmap string Value) q : option (string * list Value) := build_update_with_params data q.

Definition build_delete_with_params q : option (string * list Value) :=
  let d := dialect q in
  '(clause, where_params) ← build_where_clause_with_params q;
  Some (match soft_delete_field q with
        | Some field => "UPDATE " +:+ quote d (statement_table q) +:+ " SET " +:+ quote d field +:+ " = NOW()" +:+ clause
        | None => "DELETE FROM " +:+ quote d (statement_table q) +:+ clause
        end, where_params).

Definition build_delete q : option (string * list Value) := build_delete_with_params q.

Definition build_force_delete_with_params q : option (string * list Value) :=
  '(clause, where_params) ← build_where_clause_with_params_options false q;
  Some ("DELETE FROM " +:+ quote (dialect q) (statement_table q) +:+ clause, where_params).

(** ** Rows by their keys *)

Definition CHUNK : nat := 999.

(** [slice.chunks(n)] for [n] not 0. *)
Fixpoint chunks {A} (fuel n : nat) (l : list A) : list (list A) :=
  match fuel, l with
  | S fuel, _ :: _ => take n l :: chunks fuel n (drop n l)
  | _, _ => []
  end.

Section FindByIds.
Local Open Scope eff_scope.
Context {W Rows E : Type} (query_with_params : string -> list Value -> Eff W (result (list Rows) E)).

(** [None] is the overflow of building a query. *)
Fixpoint find_chunks (d : Dialect) (cs : list (list Z)) (all_rows : list Rows) :
    Eff W (option (result (list Rows) E)) :=
  match cs with
  | [] => eret (Some (Ok all_rows))
  | chunk :: cs =>
      match build_select_with_params (where_in (pk_name M) (VI64 <$> chunk) (table (table_name M) (builder_new d))) with
      | None => eret None
      | Some (text, params) =>
          let* r := query_with_params text params in
          match r with
          | Err e => eret (Some (Err e))
          | Ok rows => find_chunks d cs (all_rows ++ rows)%list
          end
      end
  end.

Definition find_by_ids (ids : list Z) q : Eff W (option (result (list Rows) E)) :=
  match ids with
  | [] => eret (Some (Ok []))
  | _ =>
      let unique_ids := elements (list_to_set ids : gset Z) in
      find_chunks (dialect q) (chunks (length unique_ids) CHUNK unique_ids) []
  end.
End FindByIds.
End Rendering.
