(* ===== verification/CoreWhere.v ===== *)
(** The WHERE clauses of [CoreQuery.v]: a reader of the clauses a database is sent, and the
    theorems about what the builder's conditions, its soft deletion and its tenant become. *)

From Stdlib Require Import Ascii String.
From S2P Require Import Prelude SqlText Dialect VendorDialects AnalyticDialects Dialects Value.
From S2P Require Import QueryParams.
From S2P Require Import CoreQuery.
Local Open Scope string_scope.
#[local] Arguments String.append !_ _ : simpl nomatch.

(** * Builders that the methods reach *)

(** The conditions the methods [where_*] and [or_where_*] push. *)
Definition parametrised (c : WhereCondition) : bool :=
  match c with
  | WAnd _ | WOr _ | WHaving _ _ _ | WExists _ | WNotExists _ | WTypedExpr _ _ => false
  | _ => true
  end.

Section Built.
Variable M : Model.
Variable d : Dialect.

(** [scoped] is whether [without_tenant] was never called. *)
Inductive built : bool -> QueryBuilder -> Prop :=
| built_new : built true (builder_new d)
| built_table s q t : built s q -> built s (table t q)
| built_soft s q : built s q -> built s (without_soft_delete q)
| built_ttl s q ttl : built s q -> built s (cache_ttl ttl q)
| built_update s q q' : built s q -> lock_for_update q = Ok q' -> built s q'
| built_shared s q q' : built s q -> lock_shared q = Ok q' -> built s q'
| built_ignore s q : built s q -> built s (insert_or_ignore q)
| built_count s q : built s q -> built s (clone_for_count q)
| built_tenant s q tid : built s q -> built s (with_tenant_id tid q)
| built_no_tenant s q : built s q -> built false (without_tenant q)
| built_select s q q' cols : built s q -> select cols q = Ok q' -> built s q'
| built_select_expr s q cols : built s q -> built s (select_expr cols q)
| built_where s q c : built s q -> parametrised c = true -> built s (push_condition c q)
| built_order s q f dir : built s q -> built s (push_order f dir q)
| built_group s q f : built s q -> built s (group_by f q)
| built_column s q c : built s q -> built s (column c q)
| built_columns s q cs : built s q -> built s (columns cs q)
| built_column_as s q e a : built s q -> built s (column_as e a q)
| built_only s q : built s q -> built s (select_only q)
| built_exclude s q q' fs : built s q -> select_exclude M fs q = Ok q' -> built s q'
| built_having s q q' a op v : built s q -> having a op v q = Ok q' -> built s q'
| built_limit s q n : built s q -> built s (limit n q)
| built_offset s q n : built s q -> built s (offset n q)
| built_page s q p n : built s q -> built s (page p n q)
| built_after s q f v n : built s q -> built s (keyset_after f v n q)
| built_before s q f v n : built s q -> built s (keyset_before f v n q)
| built_inner s q t l r : built s q -> built s (join_inner t l r q)
| built_left s q t l r : built s q -> built s (join_left t l r q)
| built_right s q t l r : built s q -> built s (join_right t l r q)
| built_relation s q r : built s q -> built s (join_relation r q)
| built_left_join s q r : built s q -> built s (left_join r q).
End Built.

(** What every reachable builder keeps. *)
Record coherent (d : Dialect) (s : bool) (q : QueryBuilder) : Prop := {
  coherent_dialect : dialect q = d;
  coherent_kind : dialect_kind q = from_db_type (db_type d);
  coherent_conditions : Forall (fun c => parametrised c = true) (where_conditions q);
  coherent_having : Forall (fun c => exists a op v, c = WHaving a op v) (having_conditions q);
  coherent_tenant : s = true -> tenant_disabled q = false;
}.

Lemma built_coherent M d s q : built M d s q -> coherent d s q.
Proof.
  induction 1 as [ | | | |s q q' _ IH Hq|s q q' _ IH Hq| | | | |s q q' cols _ IH Hq| |s q c _ IH Hc| | | | | |
    |s q q' fs _ IH Hq|s q q' a op v _ IH Hq| | | | | | | | | | ];
    try (destruct IHbuilt as [H1 H2 H3 H4 H5]); try (destruct IH as [H1 H2 H3 H4 H5]).
  all: try (unfold lock_for_update, lock_shared in Hq; case_match; simplify_eq).
  all: try (destruct q; split; done).
  - done.
  - unfold select in Hq. destruct (quote_columns (dialect q) cols); simplify_eq/=. destruct q; split; done.
  - destruct q; split; try done. cbn in *. apply Forall_app; split; [done|by apply Forall_singleton].
  - unfold select_exclude in Hq. repeat case_match; simplify_eq. destruct q; split; done.
  - unfold having in Hq. case_match; simplify_eq. destruct q; split; try done. cbn in *.
    apply Forall_app; split; [done|]. apply Forall_singleton. by eexists _, _, _.
Qed.

(** * What a condition writes *)

(** The field of a condition, the text after it with placeholders, and its values. *)
Definition operands (c : WhereCondition) : option (string * string * list Value) :=
  match c with
  | WEq f v | WOrEq f v => Some (f, " = ?", [v])
  | WNe f v | WOrNe f v => Some (f, " != ?", [v])
  | WGt f v | WOrGt f v => Some (f, " > ?", [v])
  | WGe f v | WOrGe f v => Some (f, " >= ?", [v])
  | WLt f v | WOrLt f v => Some (f, " < ?", [v])
  | WLe f v | WOrLe f v => Some (f, " <= ?", [v])
  | WLike f v | WOrLike f v => Some (f, " LIKE ?", [v])
  | WIn f vals => Some (f, " IN (" +:+ placeholder_texts vals +:+ ")", vals)
  | WNotIn f vals => Some (f, " NOT IN (" +:+ placeholder_texts vals +:+ ")", vals)
  | WBetween f s e => Some (f, " BETWEEN ? AND ?", [s; e])
  | WNotBetween f s e => Some (f, " NOT BETWEEN ? AND ?", [s; e])
  | WNull f => Some (f, " IS NULL", [])
  | WNotNull f => Some (f, " IS NOT NULL", [])
  | _ => None
  end.

(** The condition without its OR. *)
Definition plain (c : WhereCondition) : WhereCondition :=
  match c with
  | WOrEq f v => WEq f v
  | WOrNe f v => WNe f v
  | WOrGt f v => WGt f v
  | WOrGe f v => WGe f v
  | WOrLt f v => WLt f v
  | WOrLe f v => WLe f v
  | WOrLike f v => WLike f v
  | _ => c
  end.

(** The condition no row satisfies. *)
Definition never : WhereCondition := WAnd "1 = 0".

Definition known (c : WhereCondition) : Prop := c = never \/ parametrised c = true.

Definition cond_params (c : WhereCondition) : list Value :=
  match operands c with Some (_, _, ps) => ps | None => [] end.

Definition body (d : Dialect) (c : WhereCondition) : string :=
  match operands c with Some (f, text, _) => quote d f +:+ text | None => "1 = 0" end.

(** A condition as the list of conditions holds it: an OR condition with its mark. *)
Definition marked (render : WhereCondition -> string) (c : WhereCondition) : string :=
  (if is_or c then "OR " else "") +:+ render c.

Lemma operands_parametrised c : parametrised c = true -> exists f text ps, operands c = Some (f, text, ps).
Proof. destruct c; try done; intros _; by eexists _, _, _. Qed.

Definition starts_or (cs : list WhereCondition) : bool :=
  match cs with n :: _ => is_or n | [] => false end.

(** Each condition opens a group with the OR conditions right after it. *)
Fixpoint cnf (cs : list WhereCondition) : list (list WhereCondition) :=
  match cs with
  | [] => []
  | c :: cs =>
      match cnf cs with
      | g :: gs => if starts_or cs then (c :: g) :: gs else [c] :: g :: gs
      | [] => [[c]]
      end
  end.

Lemma cnf_cons c cs : exists g gs, cnf (c :: cs) = (c :: g) :: gs.
Proof. cbn. destruct (cnf cs), (starts_or cs); by eexists _, _. Qed.

Lemma cnf_nonempty cs : Forall (fun g => g <> []) (cnf cs).
Proof.
  induction cs as [|c cs IH]; [constructor|]. cbn. destruct IH as [|g gs Hg Hgs]; [by repeat constructor|].
  destruct (starts_or cs); by repeat constructor.
Qed.

Lemma concat_cnf cs : concat (cnf cs) = cs.
Proof.
  induction cs as [|c cs IH]; [done|]. cbn [cnf]. destruct (cnf cs) as [|g gs]; [by rewrite <- IH|].
  rewrite <- IH. by destruct (starts_or _).
Qed.

Lemma no_or_Forall cs : existsb is_or cs = false -> Forall (fun c => is_or c = false) cs.
Proof.
  intros Hor. apply Forall_forall. intros c Hin%list_elem_of_In. apply not_true_is_false. intros Hc.
  assert (existsb is_or cs = true) by (apply existsb_exists; eauto). congruence.
Qed.

(** Conditions that end with plain ones: those are groups of their own. *)
Lemma cnf_app_plain cs ps : Forall (fun p => is_or p = false) ps -> cnf (cs ++ ps) = (cnf cs ++ ((fun p => [p]) <$> ps))%list.
Proof.
  intros Hps. induction cs as [|c cs IH].
  - cbn. induction ps as [|p ps IH]; [done|]. apply Forall_cons in Hps as [Hp Hps]. cbn [cnf]. destruct ps as [|p2 ps]; [done|].
    rewrite (IH Hps). apply Forall_cons in Hps as [Hp2 _]. cbn [starts_or]. by rewrite Hp2.
  - rewrite <- app_comm_cons. cbn [cnf]. rewrite IH. destruct cs as [|n cs].
    + destruct ps as [|p ps]; [done|]. apply Forall_cons in Hps as [Hp _]. cbn. rewrite Hp. done.
    + destruct (cnf_cons n cs) as (g & gs & ->). cbn. by destruct (is_or n).
Qed.

Section Texts.
Variable t : DbType.
Variable d : Dialect.
Hypothesis Hd : get_dialect t = Ok d.

(** A quoted identifier begins with the delimiter of the database. *)
Lemma quote_head f : exists s, quote d f = String (fst (spec_delims t)) s.
Proof.
  destruct (get_dialect_laws t d Hd) as (_ & L & Hq & _). pose proof (quote_scan f "" I) as Hs.
  rewrite str_app_nil_r in Hs. unfold scan_token in Hs. destruct (quote d f) as [|c s]; [done|].
  destruct (Ascii.eqb_spec c (ident_open d)) as [->|]; [|done]. rewrite <- Hq. by eexists.
Qed.

Lemma quote_read f r : not_starting_with (snd (spec_delims t)) r ->
  (let (op, cl) := spec_delims t in scan_token op cl false (quote d f +:+ r)) = Some (f, r).
Proof.
  destruct (get_dialect_laws t d Hd) as (_ & L & Hq & _). rewrite <- Hq. cbn. apply quote_scan.
Qed.

Lemma body_no_or c : known c -> strip_prefix "OR " (body d c) = None.
Proof.
  intros [->|Hc]; [done|]. apply operands_parametrised in Hc as (f & text & ps & Ho). unfold body. rewrite Ho.
  destruct (quote_head f) as [s ->]. clear. by destruct t.
Qed.

End Texts.

Section Groups.
Variable render : WhereCondition -> string.
Hypothesis Hrender : forall c, known c -> strip_prefix "OR " (render c) = None.

Lemma strip_marked c : known c ->
  strip_prefix "OR " (marked render c) = if is_or c then Some (render c) else None.
Proof.
  intros Hc. unfold marked. destruct (is_or c); [apply strip_prefix_app|by apply Hrender].
Qed.

Definition bodies (gs : list (list WhereCondition)) : list (list string) :=
  (fun g : list WhereCondition => render <$> g) <$> gs.

(** The groups when [gs] are closed and [cur] is open. *)
Definition groups_after (gs : list (list string)) (cur : list string) (cs : list WhereCondition) : list (list string) :=
  match cnf cs with
  | [] => gs ++ [cur]
  | g :: gs2 => if starts_or cs then gs ++ (cur ++ (render <$> g)) :: bodies gs2 else gs ++ cur :: bodies (g :: gs2)
  end%list.

Lemma groups_after_or gs cur c cs : is_or c = true ->
  groups_after gs cur (c :: cs) = groups_after gs (cur ++ [render c])%list cs.
Proof.
  intros Hc. unfold groups_after. cbn [cnf starts_or]. rewrite Hc. destruct (cnf cs) as [|g gs2]; [done|].
  destruct (starts_or cs); cbn; by rewrite <- ?app_assoc.
Qed.

Lemma groups_after_plain gs cur c cs : is_or c = false ->
  groups_after gs cur (c :: cs) = groups_after (gs ++ [cur])%list [render c] cs.
Proof.
  intros Hc. unfold groups_after. cbn [cnf starts_or]. rewrite Hc. destruct (cnf cs) as [|g gs2]; [cbn; by rewrite <- ?app_assoc|].
  destruct (starts_or cs); cbn; by rewrite <- ?app_assoc.
Qed.

Lemma group_fold cs gs cur : Forall known cs -> cur <> [] ->
  let '(gs', cur') := fold_left group_step (marked render <$> cs) (gs, cur) in
  (gs' ++ [cur'])%list = groups_after gs cur cs /\ cur' <> [].
Proof.
  revert gs cur. induction cs as [|c cs IH]; intros gs cur Hk Hcur; [done|].
  apply Forall_cons in Hk as [Hc Hk]. cbn [fmap list_fmap fold_left]. unfold group_step at 2.
  rewrite strip_marked by done. cbn [fst snd]. destruct (is_or c) eqn:Eor.
  - rewrite groups_after_or by done. apply IH; [done|by destruct cur].
  - rewrite groups_after_plain by done. replace (marked render c) with (render c) by (unfold marked; by rewrite Eor).
    destruct cur as [|x cur]; [done|]. by apply IH.
Qed.

Lemma group_conditions_cnf cs : Forall known cs -> group_conditions (marked render <$> cs) = bodies (cnf cs).
Proof.
  destruct cs as [|c cs]; [done|]. intros [Hc Hk]%Forall_cons. unfold group_conditions. cbn [fmap list_fmap fold_left].
  assert (Hstep : group_step ([], []) (marked render c) = ([], [render c])).
  { unfold group_step. rewrite strip_marked by done. unfold marked. by destruct (is_or c). }
  rewrite Hstep. pose proof (group_fold cs [] [render c] Hk ltac:(done)) as Hf.
  destruct (fold_left group_step (marked render <$> cs) ([], [render c])) as [gs' cur']. destruct Hf as [Hf Hne].
  destruct cur' as [|x cur']; [done|]. rewrite Hf. unfold groups_after. cbn [cnf].
  destruct (cnf cs) as [|g gs2]; [done|]. by destruct (starts_or cs).
Qed.

(** Without OR the groups are single conditions. *)
Lemma where_text_plain cs : Forall known cs -> existsb is_or cs = false ->
  where_text (marked render <$> cs) = " WHERE " +:+ join " AND " (render <$> cs).
Proof.
  intros Hk Hor. unfold where_text. rewrite group_conditions_cnf by done. f_equal. f_equal.
  pose proof (no_or_Forall cs Hor) as Hcs.
  pose proof (cnf_app_plain [] cs Hcs) as He. cbn [app cnf] in He. rewrite He. unfold bodies. cbn. rewrite <- !list_fmap_compose. done.
Qed.
End Groups.

(** * What the builder writes *)

Definition clause (render : WhereCondition -> string) (cs : list WhereCondition) : string :=
  match cs with [] => "" | _ => where_text (marked render <$> cs) end.

(** The condition of the tenant column; without a tenant no row satisfies it. *)
Definition tenant_condition (M : Model) (q : QueryBuilder) : option WhereCondition :=
  (fun f => match tenant_id_value q with Some tid => WEq f (VI64 tid) | None => never end) <$> tenant_field M q.

Definition cursor_condition (c : KeysetCursor) : WhereCondition :=
  match cursor_direction c with
  | After => WGt (cursor_field c) (cursor_value c)
  | Before => WLt (cursor_field c) (cursor_value c)
  end.

(** What is added behind the conditions of the caller. *)
Definition implied (M : Model) (include_soft_delete : bool) (q : QueryBuilder) : list WhereCondition :=
  (option_list (WNull <$> (if include_soft_delete then soft_delete_field M q else None))
   ++ option_list (tenant_condition M q) ++ option_list (cursor_condition <$> keyset_cursor q))%list.

Definition effective (M : Model) (include_soft_delete : bool) (q : QueryBuilder) : list WhereCondition :=
  (where_conditions q ++ implied M include_soft_delete q)%list.

Lemma implied_plain M b q : Forall (fun c => is_or c = false) (implied M b q).
Proof.
  unfold implied, tenant_condition, cursor_condition. rewrite !Forall_app. repeat split.
  - destruct (if b then _ else _); by repeat constructor.
  - destruct (tenant_field M q); [|constructor]. destruct (tenant_id_value q); by repeat constructor.
  - destruct (keyset_cursor q) as [c|]; [|constructor]. cbn. destruct (cursor_direction c); by repeat constructor.
Qed.

Lemma effective_known M d s b q : coherent d s q -> Forall known (effective M b q).
Proof.
  intros Hq. apply Forall_app. split.
  - eapply Forall_impl; [apply (coherent_conditions _ _ _ Hq)|]. intros c Hc. by right.
  - unfold implied, tenant_condition, cursor_condition. rewrite !Forall_app. repeat split.
    + destruct (if b then _ else _); [|constructor]. apply Forall_singleton. by right.
    + destruct (tenant_field M q); [|constructor]. apply Forall_singleton. destruct (tenant_id_value q); [by right|by left].
    + destruct (keyset_cursor q) as [c|]; [|constructor]. apply Forall_singleton. right. by destruct (cursor_direction c).
Qed.

(** Joined texts, one after the other. *)
Lemma join_nil_cons x l : join "" (x :: l) = x +:+ join "" l.
Proof. destruct l as [|y l]; [by rewrite str_app_nil_r|done]. Qed.

Lemma join_tail sep x l : join sep (x :: l) = x +:+ join "" ((fun y => sep +:+ y) <$> l).
Proof.
  revert x. induction l as [|y l IH]; intros x; [by rewrite str_app_nil_r|].
  change (join sep (x :: y :: l)) with (x +:+ sep +:+ join sep (y :: l)).
  rewrite IH, fmap_cons, join_nil_cons. by rewrite !str_app_assoc.
Qed.

Lemma contains_char_app c a b : contains_char c (a +:+ b) = contains_char c a || contains_char c b.
Proof. induction a as [|x a IH]; [done|]. cbn. by rewrite IH, orb_assoc. Qed.

Lemma replace_question a v r : contains_char "?" a = false -> replace_first "?" v (a +:+ "?" +:+ r) = a +:+ v +:+ r.
Proof.
  induction a as [|c a IH].
  - intros _. pose proof (substring_all r) as Hr. destruct r as [|x r]; [done|]. cbn in Hr |- *. by rewrite ?Nat.sub_0_r, Hr.
  - cbn [contains_char]. intros [Hc Ha]%orb_false_iff. rewrite !(str_app_cons c). cbn [replace_first].
    replace (starts_with "?" (String c (a +:+ "?" +:+ r))) with false; [by rewrite IH|].
    unfold starts_with. cbn [String.prefix]. destruct (ascii_dec "?" c) as [<-|]; [|done]. by rewrite Ascii.eqb_refl in Hc.
Qed.

Section Written.
Context `{FloatText} (M : Model).
Variable t : DbType.
Variable d : Dialect.
Variable k : DialectKind.
Hypothesis Hd : get_dialect t = Ok d.
Hypothesis Hk : from_db_type t = Some k.
Variable frames : nat.
Hypothesis Hf : frames <> 0.

Lemma kind_quotes f buf : kind_quote_into k f buf = buf +:+ quote d f.
Proof.
  assert (He : kind_quote_into k f buf = quote_into d f buf \/ kind_quote_into k f buf = buf +:+ quote d f).
  { clear Hf. destruct t; try discriminate Hk; injection Hd as <-; injection Hk as <-; first [by left|right; cbn]. 
    all: apply (doubled_quote_into _ f buf). }
  destruct (get_dialect_laws t d Hd) as (_ & L & _). destruct He as [->| ->]; [apply quote_into_quote|done].
Qed.

Section Builder.
Variable s : bool.
Variable q : QueryBuilder.
Hypothesis Hq : coherent d s q.

Lemma push_field_spec f text buf : push_field frames q f text buf = Some (buf +:+ quote d f +:+ text).
Proof.
  unfold push_field, push_quoted. destruct (get_dialect_laws t d Hd) as [Ht _].
  destruct frames as [|n]; [done|]. cbn. rewrite (coherent_kind _ _ _ Hq), Ht, Hk. cbn. by rewrite kind_quotes, str_app_assoc.
Qed.

Lemma condition_text_spec c : parametrised c = true -> condition_text frames q c = Some (marked (body d) c, cond_params c).
Proof.
  intros Hc. destruct c; try discriminate Hc; unfold condition_text; rewrite push_field_spec; done.
Qed.

Lemma write_condition_spec c buf : parametrised c = true -> is_or c = false ->
  write_condition frames q c buf = Some (buf +:+ body d c, cond_params c).
Proof.
  intros Hc Ho. destruct c; try discriminate Hc; try discriminate Ho; unfold write_condition; rewrite push_field_spec; done.
Qed.

Definition params_of (cs : list WhereCondition) : list Value := concat (cond_params <$> cs).

Lemma write_conditions_more cs buf : Forall (fun c => parametrised c = true) cs -> existsb is_or cs = false ->
  write_conditions frames q false cs buf =
  Some (buf +:+ join "" ((fun c => " AND " +:+ body d c) <$> cs), params_of cs).
Proof.
  intros Hcs. revert buf. induction Hcs as [|c cs Hc Hcs IH]; intros buf; [by rewrite str_app_nil_r|].
  intros [Ho Hor]%orb_false_iff. cbn [write_conditions]. rewrite (write_condition_spec c) by done. cbn [mbind option_bind].
  rewrite IH by done. cbn [mbind option_bind]. f_equal. f_equal. rewrite fmap_cons, join_nil_cons. by rewrite !str_app_assoc.
Qed.

Lemma write_conditions_spec cs buf : Forall (fun c => parametrised c = true) cs -> existsb is_or cs = false -> cs <> [] ->
  write_conditions frames q true cs (buf +:+ " WHERE ") = Some (buf +:+ clause (body d) cs, params_of cs).
Proof.
  intros Hcs Hor Hne. unfold clause. rewrite where_text_plain; [|by intros c Hc; apply (body_no_or t)|by eapply Forall_impl; [exact Hcs|intros; by right]|done].
  destruct Hcs as [|c cs Hc Hcs]; [done|]. cbn [existsb] in Hor. apply orb_false_iff in Hor as [Ho Hor].
  cbn [write_conditions]. rewrite write_condition_spec by done. cbn [mbind option_bind].
  rewrite write_conditions_more by done. cbn [mbind option_bind]. f_equal. f_equal.
  rewrite fmap_cons, join_tail, <- list_fmap_compose. by rewrite !str_app_assoc.
Qed.

Lemma mapM_texts cs : Forall (fun c => parametrised c = true) cs ->
  mapM (condition_text frames q) cs = Some ((fun c => (marked (body d) c, cond_params c)) <$> cs).
Proof.
  induction 1 as [|c cs Hc Hcs IH]; [done|]. cbn. rewrite condition_text_spec by done. cbn. by rewrite IH.
Qed.

Lemma keyset_text_spec :
  keyset_text frames q = Some ((fun c => (marked (body d) (cursor_condition c), cond_params (cursor_condition c))) <$> keyset_cursor q).
Proof.
  unfold keyset_text. destruct (keyset_cursor q) as [c|]; [|done]. rewrite push_field_spec. cbn.
  unfold cursor_condition. by destruct (cursor_direction c).
Qed.

Lemma tenant_text_spec :
  build_tenant_condition M q = (fun c => (marked (body d) c, cond_params c)) <$> tenant_condition M q.
Proof.
  unfold build_tenant_condition, tenant_condition. destruct (tenant_field M q) as [f|]; [|done]. cbn.
  rewrite (coherent_dialect _ _ _ Hq). by destruct (tenant_id_value q).
Qed.

Lemma soft_text_spec : build_soft_delete_condition M q = (fun f => marked (body d) (WNull f)) <$> soft_delete_field M q.
Proof. unfold build_soft_delete_condition. by rewrite (coherent_dialect _ _ _ Hq). Qed.

Lemma marked_or cs : Forall known cs -> existsb (starts_with "OR ") (marked (body d) <$> cs) = existsb is_or cs.
Proof.
  induction 1 as [|c cs Hc Hcs IH]; [done|]. cbn [fmap list_fmap existsb]. rewrite IH. f_equal.
  pose proof (strip_marked (body d) (fun c Hc => body_no_or t d Hd c Hc) c Hc) as Hs. unfold strip_prefix in Hs. unfold starts_with.
  destruct (String.prefix "OR " (marked (body d) c)), (is_or c); done.
Qed.

(** The slow path writes the clause. *)
Lemma slow_where_clause_spec b :
  slow_where_clause frames (if b : bool then build_soft_delete_condition M q else None) (build_tenant_condition M q) q
  = Some (clause (body d) (effective M b q), params_of (effective M b q)).
Proof.
  pose proof (effective_known M d s b q Hq) as Hkn. unfold slow_where_clause.
  rewrite mapM_texts by apply (coherent_conditions _ _ _ Hq). cbn [mbind option_bind].
  rewrite keyset_text_spec. cbn [mbind option_bind].
  set (pairs := (fun c => (marked (body d) c, cond_params c))).
  assert (He : ((pairs <$> where_conditions q) ++
      option_list ((fun s => (s, [])) <$> (if b then build_soft_delete_condition M q else None)) ++
      option_list (build_tenant_condition M q) ++
      option_list ((fun c => (marked (body d) (cursor_condition c), cond_params (cursor_condition c))) <$> keyset_cursor q)
      = pairs <$> effective M b q)%list).
  { unfold effective, implied. rewrite !fmap_app, tenant_text_spec, soft_text_spec. f_equal. f_equal; [|f_equal].
    - destruct b; [|done]. by destruct (soft_delete_field M q).
    - by destruct (tenant_condition M q).
    - by destruct (keyset_cursor q). }
  rewrite He. unfold pairs. rewrite <- !list_fmap_compose. unfold compose. cbn [fst snd].
  change ((fun c => marked (body d) c) <$> effective M b q) with (marked (body d) <$> effective M b q).
  rewrite (marked_or _ Hkn). unfold clause, params_of. destruct (effective M b q) as [|c cs]; [done|].
  rewrite fmap_cons. destruct (existsb is_or (c :: cs)) eqn:Ho; cbn [negb]; [done|].
  pose proof (where_text_plain (body d) (fun c Hc => body_no_or t d Hd c Hc) (c :: cs) Hkn Ho) as Hw. rewrite fmap_cons in Hw. rewrite Hw.
  f_equal. f_equal. f_equal. f_equal. rewrite <- fmap_cons. apply list_fmap_ext. intros i c' Hi. unfold marked.
  pose proof (proj1 (Forall_forall _ _) (no_or_Forall _ Ho) c' (list_elem_of_lookup_2 _ _ _ Hi)) as ->. done.
Qed.

(** Both paths write the same clause and the same values. *)
Lemma where_with_params_spec b :
  build_where_clause_with_params_options M frames b q = Some (clause (body d) (effective M b q), params_of (effective M b q)).
Proof.
  pose proof (slow_where_clause_spec b) as Hs. unfold build_where_clause_with_params_options.
  destruct (where_conditions q) as [|c cs] eqn:Ew.
  - destruct (is_some _ || _ || _) eqn:He; [done|]. rewrite <- Hs. unfold slow_where_clause. rewrite Ew.
    apply orb_false_iff in He as [[He1 He2]%orb_false_iff He3]. unfold keyset_text.
    destruct (if b then _ else _); [done|]. destruct (build_tenant_condition M q); [done|].
    by destruct (keyset_cursor q).
  - destruct (negb _ && negb _) eqn:Hfast; [|done]. apply andb_true_iff in Hfast as [He Ho].
    rewrite negb_true_iff in He, Ho. apply orb_false_iff in He as [[He1 He2]%orb_false_iff He3].
    assert (Hi : implied M b q = []).
    { unfold implied. rewrite tenant_text_spec in He2. rewrite soft_text_spec in He1.
      destruct (keyset_cursor q); [done|]. destruct (tenant_condition M q); [done|].
      destruct b; [|done]. by destruct (soft_delete_field M q). }
    unfold effective. rewrite Hi, app_nil_r, Ew. change " WHERE " with ("" +:+ " WHERE ").
    rewrite write_conditions_spec; [done| |done|done]. rewrite <- Ew. apply (coherent_conditions _ _ _ Hq).
Qed.
(** A SELECT writes it behind what precedes it, also on its own fast path. *)
Lemma write_select_where_spec buf :
  write_select_where M frames q buf = Some (buf +:+ clause (body d) (effective M true q), params_of (effective M true q)).
Proof.
  unfold write_select_where, build_where_clause_with_params. rewrite where_with_params_spec. cbn [mbind option_bind].
  destruct (where_conditions q) as [|c cs] eqn:Ew; [done|].
  destruct (_ && _ && _ && _) eqn:Hfast; [|done]. apply andb_true_iff in Hfast as [[[Hs Ht]%andb_true_iff Hc]%andb_true_iff Ho].
  rewrite negb_true_iff in Hc, Ho. assert (Hi : implied M true q = []).
  { unfold implied, soft_delete_field, tenant_condition, tenant_field.
    destruct (keyset_cursor q); [done|]. destruct (soft_delete_disabled q), (tenant_disabled q); cbn in Hs, Ht |- *; try done.
    all: destruct (model_soft_delete_field M); try done; destruct (model_tenant_field M); done. }
  unfold effective. rewrite Hi, app_nil_r, Ew. apply write_conditions_spec; [|done|done].
  rewrite <- Ew. apply (coherent_conditions _ _ _ Hq).
Qed.

(** ** With the values in the text *)

Definition inline_text (c : WhereCondition) : string := condition_inline d (plain c).

Lemma inline_no_or c : known c -> strip_prefix "OR " (inline_text c) = None.
Proof.
  intros [->|Hc]; [done|]. unfold inline_text.
  assert (exists f r, condition_inline d (plain c) = quote d f +:+ r) as (f & r & ->).
  { destruct c; try discriminate Hc; by eexists _, _. }
  destruct (quote_head t d Hd f) as [u ->]. clear. by destruct t.
Qed.

Lemma inline_marked c : parametrised c = true -> condition_inline d c = marked inline_text c.
Proof. destruct c; done. Qed.

Lemma tenant_inline_spec :
  (forall f, model_tenant_field M = Some f -> all_chars identifier_char f = true) ->
  (fun '(sql, values) => inline_condition_values sql values d) <$> build_tenant_condition M q
  = (fun c => marked inline_text c) <$> tenant_condition M q.
Proof.
  intros Hname. unfold build_tenant_condition, tenant_condition, tenant_field. rewrite (coherent_dialect _ _ _ Hq).
  destruct (tenant_disabled q); [done|]. destruct (model_tenant_field M) as [f|]; [|done]. cbn.
  destruct (tenant_id_value q) as [tid|]; [|done]. cbn. f_equal.
  change (marked inline_text (WEq f (VI64 tid))) with (quote d f +:+ " = " +:+ pretty tid).
  transitivity (replace_first "?" (pretty tid) ((quote d f +:+ " = ") +:+ "?" +:+ "")).
  { unfold inline_condition_values. cbn. by rewrite str_app_assoc. }
  rewrite replace_question; [by rewrite str_app_nil_r, str_app_assoc|].
  destruct (get_dialect_laws t d Hd) as (_ & L & Hq' & _). specialize (Hname f eq_refl).
  rewrite quote_plain by (eapply contains_char_all; [apply ident_close_plain|done]).
  rewrite !contains_char_app, (contains_char_all "?" identifier_char f eq_refl Hname).
  pose proof (f_equal fst Hq') as Ho. pose proof (f_equal snd Hq') as Hc. cbn in Ho, Hc. rewrite Ho, Hc. clear. by destruct t.
Qed.

Lemma where_inline_spec b :
  (forall f, model_tenant_field M = Some f -> all_chars identifier_char f = true) ->
  build_where_clause_with_options M b q = clause inline_text (effective M b q).
Proof.
  intros Hname. unfold build_where_clause_with_options. rewrite (coherent_dialect _ _ _ Hq), (tenant_inline_spec Hname).
  rewrite soft_text_spec. unfold clause.
  match goal with |- match ?l with _ => _ end = _ => assert (He : l = marked inline_text <$> effective M b q) end.
  { unfold effective, implied. rewrite !fmap_app. f_equal; [|f_equal; [|f_equal]].
    - apply list_fmap_ext. intros i c Hi. apply inline_marked.
      exact (Forall_lookup_1 _ _ _ _ (coherent_conditions _ _ _ Hq) Hi).
    - destruct b; [|done]. by destruct (soft_delete_field M q).
    - by destruct (tenant_condition M q).
    - destruct (keyset_cursor q) as [c|]; [|done]. cbn. unfold cursor_condition, cursor_op. by destruct (cursor_direction c). }
  rewrite He. by destruct (effective M b q).
Qed.
End Builder.
End Written.
