(* ===== verification/PgPlaceholders.v ===== *)
(** The placeholders of the PostgreSQL driver: [pg_rewrite_placeholders] of
    [packages/sz-orm-sqlx/src/any.rs], which numbers the question marks of a statement, and the
    texts it numbers right. *)

From Stdlib Require Import Ascii String.
From S2P Require Import Prelude SqlText Dialect VendorDialects AnalyticDialects Dialects Value.
From S2P Require Import QueryParams.
Local Open Scope string_scope.
#[local] Arguments String.append !_ _ : simpl nomatch.

(** * The scanner *)

Definition newline : ascii := "010"%char.
Definition tab : ascii := "009"%char.
Definition dollar : ascii := "$"%char.

(** [chars.peek() == Some(&c)] *)
Definition peeks (c : ascii) (s : string) : bool :=
  match s with String x _ => Ascii.eqb x c | EmptyString => false end.

(** A question mark with a string or a quoted identifier behind it is an operator. *)
Fixpoint pg_question_is_json_operator (chars : string) : bool :=
  match chars with
  | String c chars =>
      if Ascii.eqb c " " || Ascii.eqb c tab then pg_question_is_json_operator chars
      else Ascii.eqb c squote || Ascii.eqb c dquote
  | EmptyString => false
  end.

(** The rest of [$tag$] behind its tag. *)
Fixpoint tag_rest (chars : string) : option string :=
  match chars with
  | String c chars =>
      if Ascii.eqb c dollar then Some "$"
      else if is_ascii_alphanumeric c || Ascii.eqb c "_" then String c <$> tag_rest chars
      else None
  | EmptyString => None
  end.

Definition pg_peek_dollar_quote_rest (chars : string) : option string :=
  match chars with
  | EmptyString => None
  | String first _ =>
      if Ascii.eqb first dollar then Some "$"
      else if is_ascii_alphabetic first || Ascii.eqb first "_" then tag_rest chars
      else None
  end.

Definition pg_try_close_dollar_quote (chars tag : string) : option nat :=
  if String.prefix (tag +:+ "$") chars then Some (S (String.length tag)) else None.

(** What the scanner is inside of; the flags of the source exclude each other. *)
Inductive scan_mode : Type :=
| Outside
| InSingle
| InDouble
| InLineComment
| InBlockComment
| InDollar (dollar_tag : string).

Definition drop_chars (n : nat) (s : string) : string := String.substring n (String.length s - n) s.
Definition take_chars (n : nat) (s : string) : string := String.substring 0 n s.

(** Text put before what a scan gives: the output and [saw_native]. *)
Definition emit (s : string) (r : string * bool) : string * bool := (s +:+ r.1, r.2).

(** The loop over the characters; [n] question marks were numbered.  A turn takes at least one
    character, so the length of the text is fuel enough. *)
Fixpoint pg_scan (fuel : nat) (mode : scan_mode) (prev : ascii) (n : N) (s : string) : string * bool :=
  match fuel, s with
  | S fuel, String c s =>
      match mode with
      | InLineComment =>
          emit (chr c) (pg_scan fuel (if Ascii.eqb c newline then Outside else InLineComment) c n s)
      | InBlockComment =>
          if Ascii.eqb c "*" && peeks "/" s
          then emit (chr c +:+ take_chars 1 s) (pg_scan fuel Outside c n (drop_chars 1 s))
          else emit (chr c) (pg_scan fuel InBlockComment c n s)
      | InSingle =>
          if Ascii.eqb c squote then
            if peeks squote s then emit (chr c +:+ take_chars 1 s) (pg_scan fuel InSingle c n (drop_chars 1 s))
            else emit (chr c) (pg_scan fuel Outside c n s)
          else emit (chr c) (pg_scan fuel InSingle c n s)
      | InDouble =>
          if Ascii.eqb c dquote then
            if peeks dquote s then emit (chr c +:+ take_chars 1 s) (pg_scan fuel InDouble c n (drop_chars 1 s))
            else emit (chr c) (pg_scan fuel Outside c n s)
          else emit (chr c) (pg_scan fuel InDouble c n s)
      | InDollar tag =>
          match (if Ascii.eqb c dollar then pg_try_close_dollar_quote s tag else None) with
          | Some extra => emit (chr c +:+ take_chars extra s) (pg_scan fuel Outside c n (drop_chars extra s))
          | None => emit (chr c) (pg_scan fuel (InDollar tag) c n s)
          end
      | Outside =>
          if Ascii.eqb c squote then emit (chr c) (pg_scan fuel InSingle c n s)
          else if Ascii.eqb c dquote then emit (chr c) (pg_scan fuel InDouble c n s)
          else if Ascii.eqb c "-" && peeks "-" s then
            emit (chr c +:+ take_chars 1 s) (pg_scan fuel InLineComment c n (drop_chars 1 s))
          else if Ascii.eqb c "/" && peeks "*" s then
            emit (chr c +:+ take_chars 1 s) (pg_scan fuel InBlockComment c n (drop_chars 1 s))
          else if Ascii.eqb c dollar then
            match pg_peek_dollar_quote_rest s with
            | Some rest =>
                emit (chr c +:+ rest)
                  (pg_scan fuel (InDollar (take_chars (String.length rest - 1) rest)) c n (drop_chars (String.length rest) s))
            | None =>
                let '(out, saw_native) := pg_scan fuel Outside c n s in
                (String c out, match s with String d _ => is_ascii_digit d | EmptyString => false end || saw_native)
            end
          else if Ascii.eqb c "?" && negb (Ascii.eqb prev "@") && negb (peeks "|" s || peeks "&" s)
                  && negb (pg_question_is_json_operator s) then
            emit ("$" +:+ pretty (n + 1)%N) (pg_scan fuel Outside c (n + 1)%N s)
          else emit (chr c) (pg_scan fuel Outside c n s)
      end
  | _, _ => (EmptyString, false)
  end.

Definition pg_rewrite_placeholders (sql : string) : string :=
  if negb (contains_char "?" sql) then sql
  else
    let '(out, saw_native) := pg_scan (String.length sql) Outside "000"%char 0%N sql in
    if saw_native then sql else out.

(** The tests of the source. *)
Example pg_rewrite_basic :
  pg_rewrite_placeholders "SELECT * FROM t WHERE a = ? AND b = ?" = "SELECT * FROM t WHERE a = $1 AND b = $2".
Proof. reflexivity. Qed.
Example pg_rewrite_literals :
  pg_rewrite_placeholders ("SELECT '?' AS q -- ?" +:+ chr newline +:+ "FROM t WHERE id = ?")
  = "SELECT '?' AS q -- ?" +:+ chr newline +:+ "FROM t WHERE id = $1".
Proof. reflexivity. Qed.
Example pg_rewrite_json :
  pg_rewrite_placeholders "SELECT * FROM t WHERE doc ?| array['a'] AND doc ? 'k' AND doc @? '$.a' AND b = ?"
  = "SELECT * FROM t WHERE doc ?| array['a'] AND doc ? 'k' AND doc @? '$.a' AND b = $1".
Proof. reflexivity. Qed.
Example pg_rewrite_dollars :
  pg_rewrite_placeholders "SELECT $tag$a ? b$tag$ AS lit, ? AS val" = "SELECT $tag$a ? b$tag$ AS lit, $1 AS val".
Proof. reflexivity. Qed.
Example pg_rewrite_native :
  pg_rewrite_placeholders "SELECT * FROM t WHERE a = $1 AND b = ?" = "SELECT * FROM t WHERE a = $1 AND b = ?".
Proof. reflexivity. Qed.

(** Comments nest in PostgreSQL, and the scanner leaves a nested one too early. *)
Example pg_rewrite_nested_comment :
  pg_rewrite_placeholders "SELECT /* a /* b */ ? */ 1 WHERE x = ?" = "SELECT /* a /* b */ $1 */ 1 WHERE x = $2".
Proof. reflexivity. Qed.

(** * Facts about the scan *)

Lemma substring_length n m s : String.length (String.substring n m s) <= m.
Proof.
  revert n m. induction s as [|c s IH]; intros [|n] [|m]; cbn; try lia.
  - specialize (IH 0 m). lia.
  - apply IH.
  - etrans; [apply IH|lia].
Qed.

Lemma drop_chars_length n s : String.length (drop_chars n s) <= String.length s.
Proof. unfold drop_chars. pose proof (substring_length n (String.length s - n) s). lia. Qed.

(** More fuel than characters changes nothing. *)
Lemma pg_scan_fuel f1 f2 mode p n s : String.length s <= f1 -> String.length s <= f2 -> pg_scan f1 mode p n s = pg_scan f2 mode p n s.
Proof.
  revert f2 mode p n s. induction f1 as [|f1 IH]; intros f2 mode p n s H1 H2.
  { destruct s; [|cbn in H1; lia]. by destruct f2. }
  destruct s as [|c s]; [by destruct f2|]. destruct f2 as [|f2]; [cbn in H2; lia|]. cbn in H1, H2.
  assert (Hs : forall mode p n, pg_scan f1 mode p n s = pg_scan f2 mode p n s) by (intros; apply IH; lia).
  assert (Hd : forall k mode p n, pg_scan f1 mode p n (drop_chars k s) = pg_scan f2 mode p n (drop_chars k s)).
  { intros k ???. pose proof (drop_chars_length k s). apply IH; lia. }
  cbn [pg_scan]. destruct mode; rewrite ?Hs, ?Hd; repeat (case_match; rewrite ?Hs, ?Hd; try done); simplify_eq; done.
Qed.

Definition scan (mode : scan_mode) (p : ascii) (n : N) (s : string) : string * bool := pg_scan (String.length s) mode p n s.

Lemma scan_fuel f mode p n s : String.length s <= f -> pg_scan f mode p n s = scan mode p n s.
Proof. intros. by apply pg_scan_fuel. Qed.

(** What the scanner copies outside of tokens, whatever is behind it. *)
Definition calm_char (c : ascii) : bool :=
  glue_char c && negb (Ascii.eqb c "-" || Ascii.eqb c "/" || Ascii.eqb c dollar || Ascii.eqb c "@").

(** A question mark before such a text is a placeholder. *)
Definition calm_start (s : string) : bool :=
  negb (peeks "|" s || peeks "&" s) && negb (pg_question_is_json_operator s).

Lemma emit_emit a b r : emit a (emit b r) = emit (a +:+ b) r.
Proof. unfold emit. cbn. by rewrite str_app_assoc. Qed.

Lemma scan_calm p n c s : calm_char c = true -> scan Outside p n (String c s) = emit (chr c) (scan Outside c n s).
Proof.
  unfold calm_char, glue_char, closes. rewrite andb_true_iff, !negb_true_iff, !orb_false_iff.
  intros [ [ [ [ [ [Hs Hd] _] _] _] Hq] [ [ [Hm Hl] Hdl] _] ]. unfold scan. cbn [String.length pg_scan].
  rewrite Hs, Hd, Hm, Hl, Hdl, Hq. done.
Qed.

Lemma scan_glue p n g s : all_chars calm_char g = true -> Ascii.eqb p "@" = false ->
  exists p', Ascii.eqb p' "@" = false /\ scan Outside p n (g +:+ s) = emit g (scan Outside p' n s).
Proof.
  revert p. induction g as [|c g IH]; intros p; cbn [all_chars].
  { intros _ Hp. exists p. split; [done|]. change ("" +:+ s) with s. by destruct (scan Outside p n s). }
  intros [Hc Hg]%andb_true_iff Hp. rewrite str_app_cons, scan_calm by done.
  destruct (IH c Hg) as (p' & Hp' & He).
  { unfold calm_char in Hc. apply andb_true_iff in Hc as [_ Hc]. rewrite negb_true_iff, !orb_false_iff in Hc. apply Hc. }
  exists p'. split; [done|]. rewrite He, emit_emit. done.
Qed.

Lemma scan_mark p n s : Ascii.eqb p "@" = false -> calm_start s = true ->
  scan Outside p n (String "?" s) = emit ("$" +:+ pretty (n + 1)%N) (scan Outside "?" (n + 1)%N s).
Proof.
  intros Hp Hs. unfold calm_start in Hs. apply andb_true_iff in Hs as [Hs1 Hs2]. unfold scan. cbn [String.length pg_scan].
  rewrite Hp, Hs1, Hs2. done.
Qed.

Lemma double_dquotes_cons c f : replace_char dquote (String dquote (chr dquote)) (String c f)
  = (if Ascii.eqb c dquote then String dquote (chr dquote) else chr c) +:+ replace_char dquote (String dquote (chr dquote)) f.
Proof. done. Qed.

Lemma scan_double_doubled p n s : peeks dquote s = true ->
  scan InDouble p n (String dquote s) = emit (chr dquote +:+ take_chars 1 s) (scan InDouble dquote n (drop_chars 1 s)).
Proof. intros Hs. unfold scan at 1. cbn [String.length pg_scan]. rewrite Hs. by rewrite scan_fuel by apply drop_chars_length. Qed.

Lemma scan_in_double p n f s : peeks dquote s = false ->
  scan InDouble p n (replace_char dquote (String dquote (chr dquote)) f +:+ String dquote s)
  = emit (replace_char dquote (String dquote (chr dquote)) f +:+ chr dquote) (scan Outside dquote n s).
Proof.
  intros Hs. revert p. induction f as [|c f IH]; intros p.
  - change (scan InDouble p n (String dquote s) = emit (chr dquote) (scan Outside dquote n s)).
    unfold scan. cbn [String.length pg_scan]. rewrite Hs. done.
  - rewrite double_dquotes_cons, !str_app_assoc. set (r := replace_char dquote _ f +:+ String dquote s) in *.
    destruct (Ascii.eqb_spec c dquote) as [->|Hc].
    + change (String dquote (chr dquote) +:+ r) with (String dquote (String dquote r)).
      assert (Hd : drop_chars 1 (String dquote r) = r) by (unfold drop_chars; cbn; by rewrite Nat.sub_0_r, substring_all).
      assert (Ht : take_chars 1 (String dquote r) = chr dquote) by (unfold take_chars; cbn; by destruct r).
      rewrite scan_double_doubled, Hd, Ht by done. rewrite IH, emit_emit. by rewrite !str_app_assoc.
    + change (chr c +:+ r) with (String c r). unfold scan at 1. cbn [String.length pg_scan]. apply Ascii.eqb_neq in Hc. rewrite Hc.
      rewrite scan_fuel by done. rewrite IH, emit_emit. by rewrite ?str_app_assoc.
Qed.

Lemma scan_quoted_pg p n f s : peeks dquote s = false ->
  scan Outside p n (pg_quote f +:+ s) = emit (pg_quote f) (scan Outside dquote n s).
Proof.
  intros Hs. assert (He : pg_quote f +:+ s = String dquote (replace_char dquote (String dquote (chr dquote)) f +:+ String dquote s)).
  { unfold pg_quote. by rewrite !str_app_assoc. }
  assert (Ho : forall r, scan Outside p n (String dquote r) = emit (chr dquote) (scan InDouble dquote n r)) by done.
  by rewrite He, Ho, scan_in_double, emit_emit.
Qed.

(** * Texts whose placeholders it numbers *)

(** [$n+1], .., [$n+k] *)
Definition numbers (n : N) (k : nat) : list string := (fun i => "$" +:+ pretty (n + N.of_nat i)%N) <$> seq 1 k.

(** The text is of whole tokens and its placeholders are the ones the scanner numbers. *)
Definition numbered (s : string) (k : nat) : Prop :=
  forall n, exists o, fragment PostgreSQL s (numbers n k) o /\
    forall p rest, Ascii.eqb p "@" = false -> calm_start rest = true ->
      exists p', Ascii.eqb p' "@" = false /\
        scan Outside p n (s +:+ rest) = emit o (scan Outside p' (n + N.of_nat k)%N rest).

Lemma numbers_app n j k : numbers n (j + k) = (numbers n j ++ numbers (n + N.of_nat j)%N k)%list.
Proof.
  unfold numbers. rewrite seq_app, fmap_app. f_equal. rewrite (Nat.add_comm 1 j), <- (fmap_add_seq j 1 k), <- list_fmap_compose.
  apply list_fmap_ext. intros i x _. cbn. do 2 f_equal. lia.
Qed.

Lemma calm_glue g : all_chars calm_char g = true -> all_chars glue_char g = true.
Proof. apply all_chars_impl. intros c. unfold calm_char. by intros [Hc _]%andb_true_iff. Qed.

Lemma numbered_glue_l g s k : all_chars calm_char g = true -> numbered s k -> numbered (g +:+ s) k.
Proof.
  intros Hg Hs n. destruct (Hs n) as (o & Hf & Ho). exists (g +:+ o). split; [apply fragment_glue_l; [by apply calm_glue|done]|].
  intros p rest Hp Hr. rewrite str_app_assoc. destruct (scan_glue p n g (s +:+ rest) Hg Hp) as (p1 & Hp1 & ->).
  destruct (Ho p1 rest Hp1 Hr) as (p2 & Hp2 & ->). exists p2. split; [done|]. by rewrite emit_emit.
Qed.

Lemma numbered_nil : numbered "" 0.
Proof.
  intros n. exists "". split; [by apply fragment_glue|]. intros p rest Hp _. exists p. split; [done|].
  rewrite N.add_0_r. change ("" +:+ rest) with rest. by destruct (scan Outside p n rest).
Qed.

Lemma numbered_app a b j k : numbered a j -> numbered b k -> starts_apart b = true ->
  (forall rest, calm_start rest = true -> calm_start (b +:+ rest) = true) -> numbered (a +:+ b) (j + k).
Proof.
  intros Ha Hb Hap Hcalm n. destruct (Ha n) as (oa & Hfa & Hoa), (Hb (n + N.of_nat j)%N) as (ob & Hfb & Hob).
  exists (oa +:+ ob). split; [rewrite numbers_app; by apply fragment_app|]. intros p rest Hp Hr. rewrite str_app_assoc.
  destruct (Hoa p (b +:+ rest) Hp (Hcalm _ Hr)) as (p1 & Hp1 & ->). destruct (Hob p1 rest Hp1 Hr) as (p2 & Hp2 & ->).
  exists p2. split; [done|]. rewrite emit_emit. do 2 f_equal. lia.
Qed.

Lemma numbered_mark : numbered "?" 1.
Proof.
  intros n. exists ("$" +:+ pretty (n + 1)%N). split.
  - exists QOut. split; [done|]. cbn. by rewrite str_app_nil_r.
  - intros p rest Hp Hr. exists "?"%char. split; [done|]. by apply scan_mark.
Qed.

Lemma calm_start_peeks s : calm_start s = true -> peeks dquote s = false.
Proof.
  unfold calm_start. rewrite andb_true_iff, !negb_true_iff. intros [_ Hj]. destruct s as [|c s]; [done|]. cbn in *.
  destruct (Ascii.eqb_spec c dquote) as [->|]; [done|done].
Qed.

Lemma numbered_quote f : numbered (pg_quote f) 0.
Proof.
  intros n. exists (pg_quote f). split; [by apply raw_fragment, (quote_raw PostgreSQL PostgreSqlDialect)|].
  intros p rest Hp Hr. exists dquote. split; [done|]. rewrite N.add_0_r. by apply scan_quoted_pg, calm_start_peeks.
Qed.

Lemma bind_no_mark t st s ps st' o r : contains_char "?" s = false -> bind t st s ps = Some (st', o, r) -> o = s.
Proof.
  revert st o. induction s as [|c s IH]; intros st o; cbn; [by intros _ [= <- <- <-]|]. intros [Hc Hs]%orb_false_iff.
  assert (Hq : forall st, (qstep t st c).2 = false).
  { intros [|cl bs|cl|cl bs]; cbn; unfold open_step; rewrite ?Hc; repeat (case_match; try done). all: congruence. }
  specialize (Hq st). destruct (qstep t st c) as [st1 b]. cbn in Hq. subst b.
  destruct (bind t st1 s ps) as [[[st2 o2] r2]|] eqn:Hb; [|done]. cbn. intros [= <- <- <-]. by rewrite (IH _ _ Hs Hb).
Qed.

(** Such a text is rewritten to the one with its placeholders numbered in order. *)
Lemma numbered_rewrite s k : numbered s k ->
  exists st, at_rest st = true /\ bind PostgreSQL QOut s (numbers 0 k) = Some (st, pg_rewrite_placeholders s, []).
Proof.
  intros Hs. destruct (Hs 0%N) as (o & (st & Hst & Hb) & Ho). exists st. split; [done|].
  unfold pg_rewrite_placeholders. destruct (contains_char "?" s) eqn:Hc; cbn [negb].
  - destruct (Ho "000"%char "" eq_refl eq_refl) as (p & _ & He). rewrite str_app_nil_r in He. unfold scan in He. rewrite He.
    unfold emit. cbn. by rewrite str_app_nil_r.
  - by rewrite Hb, (bind_no_mark _ _ _ _ _ _ _ Hc Hb).
Qed.
