(* ===== verification/CoreRead.v ===== *)
(** The statements of the query builder of models, read as a database reads them: its WHERE
    clause read back, what a tenant sees, the rendering without placeholders against the one with
    them, and the databases for which no statement is written. *)

From Stdlib Require Import Ascii String.
From S2P Require Import Prelude SqlText Dialect VendorDialects AnalyticDialects Dialects Value.
From S2P Require Import QueryParams.
From S2P Require Import CoreQuery.
From S2P Require Import CoreWhere.
Local Open Scope string_scope.
#[local] Arguments String.append !_ _ : simpl nomatch.

(** * A reader of WHERE clauses

    It takes the text of a clause and the values that are sent with it, and gives the groups of
    conditions, what is left of the text and the values nothing has taken. *)

Definition read A : Type := string -> list Value -> option (A * string * list Value).

Definition read_value {A} (text : string) (mk : Value -> A) : read A := fun s vs =>
  s ← strip_prefix text s;
  match vs with v :: vs => Some (mk v, s, vs) | [] => None end.

Definition read_pair {A} (text : string) (mk : Value -> Value -> A) : read A := fun s vs =>
  s ← strip_prefix text s;
  match vs with v :: w :: vs => Some (mk v w, s, vs) | _ => None end.

Definition read_text {A} (text : string) (x : A) : read A := fun s vs =>
  s ← strip_prefix text s; Some (x, s, vs).

(** The placeholders of a list up to its parenthesis. *)
Fixpoint read_marks (s : string) (vs : list Value) : option (list Value * string * list Value) :=
  match vs with
  | [] => None
  | v :: vs =>
      s ← strip_prefix "?" s;
      match strip_prefix ", " s with
      | Some s => '(xs, s, vs) ← read_marks s vs; Some (v :: xs, s, vs)
      | None => s ← strip_prefix ")" s; Some ([v], s, vs)
      end
  end.

Definition read_members {A} (text : string) (mk : list Value -> A) : read A := fun s vs =>
  s ← strip_prefix text s; '(xs, s, vs) ← read_marks s vs; Some (mk xs, s, vs).

Fixpoint read_first {A} (rs : list (read A)) : read A := fun s vs =>
  match rs with
  | [] => None
  | r :: rs => match r s vs with Some x => Some x | None => read_first rs s vs end
  end.

Definition read_operands (f : string) : read WhereCondition :=
  read_first
    [read_value " = ?" (WEq f); read_value " != ?" (WNe f); read_value " > ?" (WGt f);
     read_value " >= ?" (WGe f); read_value " < ?" (WLt f); read_value " <= ?" (WLe f);
     read_value " LIKE ?" (WLike f); read_members " IN (" (WIn f); read_members " NOT IN (" (WNotIn f);
     read_pair " BETWEEN ? AND ?" (WBetween f); read_pair " NOT BETWEEN ? AND ?" (WNotBetween f);
     read_text " IS NULL" (WNull f); read_text " IS NOT NULL" (WNotNull f)].

Section Reader.
Variable t : DbType.

Definition read_column (s : string) : option (string * string) :=
  let (op, cl) := spec_delims t in scan_token op cl false s.

Definition read_condition : read WhereCondition := fun s vs =>
  match strip_prefix "1 = 0" s with
  | Some s => Some (never, s, vs)
  | None => '(f, s) ← read_column s; read_operands f s vs
  end.

(** One item or more, [sep] between them. *)
Fixpoint read_several {A} (item : read A) (sep : string) (fuel : nat) : read (list A) := fun s vs =>
  match fuel with
  | O => None
  | S fuel =>
      '(x, s, vs) ← item s vs;
      match strip_prefix sep s with
      | Some s => '(xs, s, vs) ← read_several item sep fuel s vs; Some (x :: xs, s, vs)
      | None => Some ([x], s, vs)
      end
  end.

Definition read_group : read (list WhereCondition) := fun s vs =>
  match strip_prefix "(" s with
  | Some s =>
      '(cs, s, vs) ← read_several read_condition " OR " (S (String.length s)) s vs;
      s ← strip_prefix ")" s; Some (cs, s, vs)
  | None => '(c, s, vs) ← read_condition s vs; Some ([c], s, vs)
  end.

(** A text that does not begin with WHERE has no conditions. *)
Definition read_where : read (list (list WhereCondition)) := fun s vs =>
  match strip_prefix " WHERE " s with
  | Some s => read_several read_group " AND " (S (String.length s)) s vs
  | None => Some ([], s, vs)
  end.
End Reader.

Example read_where_example :
  read_where PostgreSQL (" WHERE (" +:+ chr dquote +:+ "a" +:+ chr dquote +:+ " = ? OR " +:+ chr dquote +:+ "b" +:+ chr dquote
    +:+ " IN (?, ?)) AND 1 = 0 LIMIT 2") [VI64 1; VNull; VI64 3; VI64 4]
  = Some ([[WEq "a" (VI64 1); WIn "b" [VNull; VI64 3]]; [never]], " LIMIT 2", [VI64 4]).
Proof. reflexivity. Qed.

(** ** It reads what is written *)

Definition nonempty_list (c : WhereCondition) : bool :=
  match c with WIn _ [] | WNotIn _ [] => false | _ => true end.

Lemma read_first_hit {A} (r : read A) rs s vs x : r s vs = Some x -> read_first (r :: rs) s vs = Some x.
Proof. intros Hr. cbn. by rewrite Hr. Qed.

Lemma read_first_miss {A} (r : read A) rs s vs : r s vs = None -> read_first (r :: rs) s vs = read_first rs s vs.
Proof. intros Hr. cbn. by rewrite Hr. Qed.

Lemma read_value_app {A} text (mk : Value -> A) r v vs : read_value text mk (text +:+ r) (v :: vs) = Some (mk v, r, vs).
Proof. unfold read_value. by rewrite strip_prefix_app. Qed.

Lemma read_pair_app {A} text (mk : Value -> Value -> A) r v w vs :
  read_pair text mk (text +:+ r) (v :: w :: vs) = Some (mk v w, r, vs).
Proof. unfold read_pair. by rewrite strip_prefix_app. Qed.

Lemma read_text_app {A} text (x : A) r vs : read_text text x (text +:+ r) vs = Some (x, r, vs).
Proof. unfold read_text. by rewrite strip_prefix_app. Qed.

Lemma read_marks_spec v l r vs : read_marks (placeholder_texts (v :: l) +:+ ")" +:+ r) (v :: l ++ vs)%list = Some (v :: l, r, vs).
Proof.
  revert v. induction l as [|w l IH]; intros v; cbn [read_marks].
  - change (placeholder_texts [v]) with "?". rewrite strip_prefix_app. cbn [mbind option_bind].
    replace (strip_prefix ", " (")" +:+ r)) with (@None string) by done. by rewrite strip_prefix_app.
  - change (placeholder_texts (v :: w :: l)) with ("?" +:+ ", " +:+ placeholder_texts (w :: l)).
    rewrite !str_app_assoc, strip_prefix_app. cbn [mbind option_bind]. rewrite strip_prefix_app.
    rewrite <- app_comm_cons, IH. done.
Qed.

Lemma read_members_app {A} text (mk : list Value -> A) v l r vs :
  read_members text mk ((text +:+ placeholder_texts (v :: l) +:+ ")") +:+ r) (v :: l ++ vs)%list = Some (mk (v :: l), r, vs).
Proof. unfold read_members. rewrite !str_app_assoc, strip_prefix_app. cbn [mbind option_bind]. by rewrite read_marks_spec. Qed.

Lemma read_operands_spec c f text ps r vs : parametrised c = true -> nonempty_list c = true ->
  operands c = Some (f, text, ps) -> read_operands f (text +:+ r) (ps ++ vs)%list = Some (plain c, r, vs).
Proof.
  intros Hc Hl. destruct c; try discriminate Hc; cbn [operands]; intros [= <- <- <-]; unfold read_operands.
  all: try match goal with vals : list Value |- _ => destruct vals as [|v vals]; [discriminate Hl|] end.
  all: repeat first [apply read_first_hit, read_value_app | apply read_first_hit, read_pair_app
                    | apply read_first_hit, read_text_app | rewrite read_first_miss by reflexivity].
  - apply read_first_hit. exact (read_members_app " IN (" _ _ _ _ _).
  - apply read_first_hit. exact (read_members_app " NOT IN (" _ _ _ _ _).
Qed.

(** A list with separators, when the reader reads each item before the texts [stops] accepts. *)
Section Several.
Context {A B} (item : read A) (sep : string) (text : B -> string) (values : B -> list Value) (val : B -> A).
Variable stops : string -> Prop.
Hypothesis Hsep : sep <> "".
Hypothesis Hstops : forall r, stops (sep +:+ r).

Definition reads (x : B) : Prop := forall r vs, stops r -> item (text x +:+ r) (values x ++ vs)%list = Some (val x, r, vs).

Lemma read_several_spec l fuel r vs : Forall reads l -> l <> [] -> length l <= fuel -> stops r -> strip_prefix sep r = None ->
  read_several item sep fuel (join sep (text <$> l) +:+ r) (concat (values <$> l) ++ vs)%list = Some (val <$> l, r, vs).
Proof.
  intros Hl. revert fuel. induction Hl as [|x l Hx Hl IH]; intros fuel Hne Hfuel Hr Hnone; [done|].
  destruct fuel as [|fuel]; [cbn in Hfuel; lia|]. cbn [read_several]. destruct l as [|y l].
  - cbn [fmap list_fmap concat join]. rewrite app_nil_r, Hx by done. cbn [mbind option_bind]. by rewrite Hnone.
  - rewrite !fmap_cons. change (join sep (text x :: text y :: (text <$> l))) with (text x +:+ sep +:+ join sep (text <$> (y :: l))).
    cbn [concat]. rewrite !str_app_assoc, <- app_assoc, Hx by done. cbn [mbind option_bind]. rewrite strip_prefix_app.
    change (values y ++ concat (values <$> l))%list with (concat (values <$> (y :: l))).
    rewrite IH; [done|done|cbn in *; lia|done|done].
Qed.

(** The reader's own fuel is enough. *)
Lemma several_length l : length l <= S (String.length (join sep (text <$> l))).
Proof.
  induction l as [|x l IH]; [cbn; lia|]. destruct l as [|y l]; [cbn; lia|]. rewrite !fmap_cons.
  change (join sep (text x :: text y :: (text <$> l))) with (text x +:+ sep +:+ join sep (text <$> (y :: l))).
  rewrite !str_app_length. destruct sep as [|c sep']; [done|]. cbn [length String.length] in *. lia.
Qed.

Lemma read_several_all l r vs : Forall reads l -> l <> [] -> stops r -> strip_prefix sep r = None ->
  let s := join sep (text <$> l) +:+ r in
  read_several item sep (S (String.length s)) s (concat (values <$> l) ++ vs)%list = Some (val <$> l, r, vs).
Proof.
  intros. apply read_several_spec; try done. unfold s. rewrite str_app_length. pose proof (several_length l). lia.
Qed.
End Several.

(** A clause as its groups. *)
Lemma clause_cnf render cs : (forall c, known c -> strip_prefix "OR " (render c) = None) -> Forall known cs -> cs <> [] ->
  clause render cs = " WHERE " +:+ join " AND " ((fun g : list WhereCondition => group_text (render <$> g)) <$> cnf cs).
Proof.
  intros Hr Hk Hne. unfold clause. destruct cs as [|c cs]; [done|]. unfold where_text.
  rewrite group_conditions_cnf by done. unfold bodies. by rewrite <- list_fmap_compose.
Qed.

Section Clauses.
Variable t : DbType.
Variable d : Dialect.
Hypothesis Hd : get_dialect t = Ok d.

Definition anywhere (_ : string) : Prop := True.
Definition conditions_read (gs : list (list WhereCondition)) : list (list WhereCondition) :=
  (fun g : list WhereCondition => plain <$> g) <$> gs.

Lemma operands_space c f text ps : operands c = Some (f, text, ps) -> exists text', text = String " " text'.
Proof. destruct c; try done; intros [= <- <- <-]; by eexists. Qed.

Lemma read_condition_spec c : known c -> nonempty_list c = true ->
  reads (read_condition t) (body d) cond_params plain anywhere c.
Proof.
  intros Hc Hl r vs _. destruct Hc as [->|Hc].
  - unfold read_condition. change (body d never) with "1 = 0". by rewrite strip_prefix_app.
  - assert (Hn : strip_prefix "1 = 0" (body d c +:+ r) = None).
    { pose proof (operands_parametrised c Hc) as (f & text & ps & Ho). unfold body. rewrite Ho.
      destruct (quote_head t d Hd f) as [s ->]. clear. by destruct t. }
    unfold read_condition. rewrite Hn. pose proof (operands_parametrised c Hc) as (f & text & ps & Ho).
    unfold body, cond_params. rewrite Ho, str_app_assoc. unfold read_column.
    rewrite (quote_read t d Hd); [|destruct (operands_space _ _ _ _ Ho) as [u ->]; clear; by destruct t].
    cbn [mbind option_bind]. by apply read_operands_spec.
Qed.

Definition written_group (g : list WhereCondition) : string := group_text (body d <$> g).

Lemma read_group_spec g : Forall (fun c => known c /\ nonempty_list c = true) g -> g <> [] ->
  reads (read_group t) written_group params_of (fun g => plain <$> g) anywhere g.
Proof.
  intros Hg Hne r vs _. unfold written_group, params_of, read_group. destruct Hg as [|c g [Hc Hl] Hg]; [done|].
  destruct g as [|c2 g].
  - cbn [fmap list_fmap group_text concat]. rewrite app_nil_r.
    assert (Hn : strip_prefix "(" (body d c +:+ r) = None).
    { destruct Hc as [->|Hc]; [done|]. pose proof (operands_parametrised c Hc) as (f & text & ps & Ho). unfold body. rewrite Ho.
      destruct (quote_head t d Hd f) as [s ->]. clear. by destruct t. }
    rewrite Hn. by rewrite read_condition_spec.
  - set (cs := c :: c2 :: g). assert (Hcs : Forall (reads (read_condition t) (body d) cond_params plain anywhere) cs).
    { unfold cs. constructor; [by apply read_condition_spec|]. eapply Forall_impl; [exact Hg|]. intros x [Hx Hx']. by apply read_condition_spec. }
    change (group_text (body d <$> cs)) with ("(" +:+ join " OR " (body d <$> cs) +:+ ")").
    rewrite !str_app_assoc, strip_prefix_app.
    rewrite (read_several_all _ " OR " _ _ _ anywhere ltac:(done) ltac:(done) cs (")" +:+ r) vs Hcs); [|done..].
    cbn [mbind option_bind]. by rewrite strip_prefix_app.
Qed.

Lemma params_of_concat gs : concat (params_of <$> gs) = params_of (concat gs).
Proof.
  unfold params_of. induction gs as [|g gs IH]; [done|]. rewrite fmap_cons. cbn [concat]. rewrite IH.
  by rewrite fmap_app, List.concat_app.
Qed.

Lemma clause_groups cs : Forall known cs -> cs <> [] ->
  clause (body d) cs = " WHERE " +:+ join " AND " (written_group <$> cnf cs).
Proof. apply clause_cnf. intros. by apply (body_no_or t). Qed.

Lemma read_clause_spec cs r vs : Forall known cs -> Forall (fun c => nonempty_list c = true) cs ->
  strip_prefix " AND " r = None -> strip_prefix " WHERE " r = None ->
  read_where t (clause (body d) cs +:+ r) (params_of cs ++ vs)%list = Some (conditions_read (cnf cs), r, vs).
Proof.
  intros Hk Hl Hand Hwhere. destruct (decide (cs = [])) as [->|Hne].
  { unfold read_where. cbn [clause]. change ("" +:+ r) with r. by rewrite Hwhere. }
  rewrite clause_groups by done. unfold read_where. rewrite str_app_assoc, strip_prefix_app.
  assert (Hcn : Forall (Forall (fun c => known c /\ nonempty_list c = true)) (cnf cs)).
  { apply Forall_concat. rewrite concat_cnf. by apply Forall_and. }
  assert (Hgs : Forall (reads (read_group t) written_group params_of (fun g => plain <$> g) anywhere) (cnf cs)).
  { pose proof (cnf_nonempty cs) as Hnn. apply Forall_forall. intros g Hg. rewrite Forall_forall in Hcn, Hnn.
    apply read_group_spec; auto. }
  replace (params_of cs) with (concat (params_of <$> cnf cs)) by (by rewrite params_of_concat, concat_cnf).
  rewrite (read_several_all _ " AND " _ _ _ anywhere ltac:(done) ltac:(done) (cnf cs) r vs Hgs); [done| |done|done].
  destruct cs as [|c cs]; [done|]. destruct (cnf_cons c cs) as (g & gs & ->). done.
Qed.
End Clauses.

(** * The parts of a SELECT *)

(** What may follow a clause: it does not go on with a condition. *)
Definition after_clause (r : string) : Prop := strip_prefix " AND " r = None /\ strip_prefix " WHERE " r = None.

Lemma pagination_suffix t d l o c : get_dialect t = Ok d -> build_pagination_clause d l o = Some c ->
  all_chars glue_char c = true /\ forall r, after_clause (c +:+ r).
Proof.
  intros Hd Hc. destruct t; try discriminate Hd; injection Hd as <-; revert Hc.
  all: cbn; unfold default_pagination_clause, mysql_pagination_clause, sqlite_pagination_clause, fetch_next_clause.
  all: destruct l, o; cbn; intros [= <-].
  all: split; [repeat (rewrite ?all_chars_app, ?pretty_glue; cbn); done|by split].
Qed.

Section Parts.
Variable t : DbType.
Variable d : Dialect.
Hypothesis Hd : get_dialect t = Ok d.
Variable q : QueryBuilder.
Hypothesis Hq : dialect q = d.

Lemma push_window_spec : exists w, (forall s, push_window q s = s +:+ w) /\ all_chars glue_char w = true /\
  forall r, after_clause r -> after_clause (w +:+ r).
Proof.
  unfold push_window. rewrite Hq. destruct (_ || _); [|by exists ""; split; [intros; by rewrite str_app_nil_r|]].
  set (b := requires_order_by_for_pagination d && bool_decide (orders q = [])).
  set (o := if b then " ORDER BY (SELECT NULL)" else "").
  assert (Ho : forall s, (if b then s +:+ " ORDER BY (SELECT NULL)" else s) = s +:+ o).
  { intros s. unfold o. destruct b; [done|]. by rewrite str_app_nil_r. }
  assert (Hog : all_chars glue_char o = true) by (unfold o; by destruct (_ && _)).
  destruct (build_pagination_clause d (limit_value q) (offset_value q)) as [c|] eqn:Hc.
  - destruct (pagination_suffix _ _ _ _ _ Hd Hc) as [Hg Hr]. exists (o +:+ c). split; [|split].
    + intros s. by rewrite Ho, str_app_assoc.
    + by rewrite all_chars_app, Hog, Hg.
    + intros r _. unfold o. destruct b; [done|apply Hr].
  - exists o. split; [done|]. split; [done|]. intros r Hr. unfold o. by destruct b.
Qed.

Lemma push_lock_spec : exists w, (forall s, push_lock q s = s +:+ w) /\ all_chars glue_char w = true /\ after_clause w.
Proof.
  unfold push_lock. rewrite Hq. destruct (lock_type q) as [l|]; cbn.
  2:{ exists "". split; [intros; by rewrite str_app_nil_r|done]. }
  destruct (build_lock_clause d l) as [c|] eqn:Hc.
  - exists (" " +:+ c). split; [done|]. destruct t; try discriminate Hd; injection Hd as <-; destruct l; try discriminate Hc.
    all: by injection Hc as <-.
  - exists "". split; [intros; by rewrite str_app_nil_r|done].
Qed.

(** The end of both renderings. *)
Lemma push_end_spec : exists w, (forall s, push_lock q (push_window q s) = s +:+ w) /\ all_chars glue_char w = true /\ after_clause w.
Proof.
  destruct push_window_spec as (w1 & H1 & G1 & A1), push_lock_spec as (w2 & H2 & G2 & A2).
  exists (w1 +:+ w2). split; [|split].
  - intros s. by rewrite H1, H2, str_app_assoc.
  - by rewrite all_chars_app, G1, G2.
  - by apply A1.
Qed.
End Parts.

Definition select_head (M : Model) (q : QueryBuilder) : string :=
  "SELECT " +:+ match select_columns q with [] => "*" | cs => join ", " cs end
  +:+ " FROM " +:+ quote (dialect q) (statement_table M q) +:+ join "" (join_inline (dialect q) <$> joins q).

Definition groups_part (q : QueryBuilder) : string :=
  match groups q with [] => "" | gs => " GROUP BY " +:+ join ", " (quote (dialect q) <$> gs) end.

Definition having_part (texts : list string) : string :=
  match texts with [] => "" | ts => " HAVING " +:+ join " AND " ts end.

Definition order_text (d : Dialect) (o : OrderClause) : string :=
  quote d (order_field o) +:+ direction_text (order_direction o).

Definition orders_part (q : QueryBuilder) : string :=
  match orders q with [] => "" | os => " ORDER BY " +:+ join ", " (order_text (dialect q) <$> os) end.

(** What follows the WHERE clause, but for the window and the lock. *)
Definition select_tail (havings : list string) (q : QueryBuilder) : string :=
  groups_part q +:+ having_part havings +:+ orders_part q.

Definition having_params (q : QueryBuilder) : list Value :=
  concat (having_text (dialect q) <$> having_conditions q).*2.

Lemma select_tail_after havings q w : after_clause w -> after_clause (select_tail havings q +:+ w).
Proof.
  intros Hw. unfold select_tail, groups_part, having_part, orders_part. destruct (groups q); [|done].
  destruct havings; [|done]. by destruct (orders q).
Qed.

Lemma sql_parts `{FloatText} M t q : get_dialect t = Ok (dialect q) ->
  exists w, all_chars glue_char w = true /\ after_clause w /\ forall s,
    sql M q = select_head M q +:+ build_where_clause M q
              +:+ select_tail (having_inline (dialect q) <$> having_conditions q) q +:+ w
    /\ push_lock q (push_window q s) = s +:+ w.
Proof.
  intros Hd. destruct (push_end_spec t _ Hd q eq_refl) as (w & Hw & Hg & Ha). exists w. split; [done|]. split; [done|].
  intros s. split; [|done]. unfold sql, select_head, select_tail, groups_part, having_part, orders_part. rewrite Hw.
  destruct (groups q), (having_conditions q), (orders q); rewrite ?fmap_cons, ?str_app_assoc; done.
Qed.

(** ** What is written *)

Lemma write_list_more {A} sep (write : A -> string -> option string) text (l : list A) buf :
  (forall x buf, write x buf = Some (buf +:+ text x)) ->
  write_list sep write false l buf = Some (buf +:+ join "" ((fun x => sep +:+ text x) <$> l)).
Proof.
  intros Hw. revert buf. induction l as [|x l IH]; intros buf; [by rewrite str_app_nil_r|].
  cbn [write_list]. rewrite Hw. cbn [mbind option_bind]. rewrite IH, fmap_cons, join_nil_cons. by rewrite !str_app_assoc.
Qed.

Lemma write_list_spec {A} sep (write : A -> string -> option string) text (l : list A) buf :
  (forall x buf, write x buf = Some (buf +:+ text x)) ->
  write_list sep write true l buf = Some (buf +:+ join sep (text <$> l)).
Proof.
  intros Hw. destruct l as [|x l]; [by rewrite str_app_nil_r|]. cbn [write_list]. rewrite Hw. cbn [mbind option_bind].
  rewrite (write_list_more sep write text) by done. rewrite fmap_cons, join_tail, <- list_fmap_compose. by rewrite str_app_assoc.
Qed.

Section Statements.
Context `{FloatText} (M : Model).
Variable t : DbType.
Variable d : Dialect.
Variable k : DialectKind.
Hypothesis Hd : get_dialect t = Ok d.
Hypothesis Hk : from_db_type t = Some k.
Variable frames : nat.
Hypothesis Hf : frames <> 0.
Variable s : bool.
Variable q : QueryBuilder.
Hypothesis Hq : coherent d s q.

Lemma push_quoted_spec f buf : push_quoted frames q f buf = Some (buf +:+ quote d f).
Proof.
  pose proof (push_field_spec t d k Hd Hk frames Hf s q Hq f "" buf) as Hp. unfold push_field in Hp.
  destruct (push_quoted frames q f buf) as [u|]; [|done]. cbn in Hp. injection Hp as Hp.
  by rewrite !str_app_nil_r in Hp; subst.
Qed.

Lemma write_join_spec j buf : write_join frames q j buf = Some (buf +:+ join_inline d j).
Proof.
  destruct j; cbn [write_join]; rewrite !push_quoted_spec; cbn [mbind option_bind]; rewrite ?push_quoted_spec.
  all: repeat (cbn [mbind option_bind]; rewrite ?push_quoted_spec); unfold join_inline; by rewrite !str_app_assoc.
Qed.

Lemma write_order_spec o buf : write_order frames q o buf = Some (buf +:+ order_text d o).
Proof. apply (push_field_spec t d k Hd Hk frames Hf s q Hq). Qed.

Definition where_part (b : bool) : string := clause (body d) (effective M b q).
Definition where_params (b : bool) : list Value := params_of (effective M b q).

Lemma select_spec w : (forall s, push_lock q (push_window q s) = s +:+ w) ->
  build_select_with_params M frames q =
  Some (select_head M q +:+ where_part true +:+ select_tail (having_text d <$> having_conditions q).*1 q +:+ w,
        where_params true ++ having_params q)%list.
Proof.
  intros Hw. pose proof (coherent_dialect _ _ _ Hq) as Hdq. unfold build_select_with_params.
  rewrite push_quoted_spec. cbn [mbind option_bind].
  rewrite (write_list_spec _ _ (join_inline d)) by (intros; apply write_join_spec). cbn [mbind option_bind].
  rewrite (write_select_where_spec M t d k Hd Hk frames Hf s q Hq). cbn [mbind option_bind].
  unfold select_head, select_tail, groups_part, having_part, orders_part, having_params. rewrite Hdq.
  destruct (groups q) as [|g gs]; rewrite ?(write_list_spec _ _ (quote d)) by (intros; apply push_quoted_spec);
    cbn [mbind option_bind]; destruct (having_conditions q) as [|h hs]; cbn [mbind option_bind].
  all: destruct (orders q) as [|o os]; rewrite ?(write_list_spec _ _ (order_text d)) by (intros; apply write_order_spec);
    cbn [mbind option_bind]; rewrite Hw, ?app_nil_r, ?fmap_cons, ?str_app_assoc; done.
Qed.

Lemma update_spec data : data <> ∅ ->
  exists sets, build_update_with_params M frames data q =
    Some (("UPDATE " +:+ quote d (statement_table M q) +:+ " SET " +:+ sets) +:+ where_part true,
          (map_to_list data).*2 ++ where_params true)%list.
Proof.
  intros Hne. unfold build_update_with_params. rewrite (coherent_dialect _ _ _ Hq).
  destruct (map_to_list data) as [|kv kvs] eqn:Em; [by apply map_to_list_empty_iff in Em|].
  unfold build_where_clause_with_params. rewrite (where_with_params_spec M t d k Hd Hk frames Hf s q Hq). cbn [mbind option_bind].
  eexists. reflexivity.
Qed.

Lemma delete_spec : build_delete_with_params M frames q =
  Some (match soft_delete_field M q with
        | Some field => "UPDATE " +:+ quote d (statement_table M q) +:+ " SET " +:+ quote d field +:+ " = NOW()"
        | None => "DELETE FROM " +:+ quote d (statement_table M q)
        end +:+ where_part true, where_params true).
Proof.
  unfold build_delete_with_params, build_where_clause_with_params. rewrite (coherent_dialect _ _ _ Hq).
  rewrite (where_with_params_spec M t d k Hd Hk frames Hf s q Hq). cbn [mbind option_bind].
  destruct (soft_delete_field M q); by rewrite !str_app_assoc.
Qed.

Lemma force_delete_spec : build_force_delete_with_params M frames q =
  Some (("DELETE FROM " +:+ quote d (statement_table M q)) +:+ where_part false, where_params false).
Proof.
  unfold build_force_delete_with_params. rewrite (coherent_dialect _ _ _ Hq).
  rewrite (where_with_params_spec M t d k Hd Hk frames Hf s q Hq). cbn [mbind option_bind]. by rewrite str_app_assoc.
Qed.
End Statements.

(** * The theorems *)

Lemma implied_known_plain M b q : plain <$> implied M b q = implied M b q.
Proof.
  unfold implied, tenant_condition, cursor_condition. rewrite !fmap_app. f_equal; [|f_equal].
  - by destruct (if b then _ else _).
  - destruct (tenant_field M q); [|done]. by destruct (tenant_id_value q).
  - destruct (keyset_cursor q) as [c|]; [|done]. cbn. by destruct (cursor_direction c).
Qed.

(** The groups of the caller, then what is added, each a group of its own. *)
Lemma effective_groups M b q : conditions_read (cnf (effective M b q))
  = (conditions_read (cnf (where_conditions q)) ++ ((fun c => [c]) <$> implied M b q))%list.
Proof.
  unfold effective. rewrite cnf_app_plain by apply implied_plain. unfold conditions_read. rewrite fmap_app. f_equal.
  rewrite <- list_fmap_compose. rewrite <- (implied_known_plain M b q) at 2. by rewrite <- list_fmap_compose.
Qed.

Lemma effective_nonempty M b q : Forall (fun c => nonempty_list c = true) (where_conditions q) ->
  Forall (fun c => nonempty_list c = true) (effective M b q).
Proof.
  intros Hl. apply Forall_app. split; [done|]. unfold implied, tenant_condition, cursor_condition. rewrite !Forall_app. repeat split.
  - destruct (if b then _ else _); by repeat constructor.
  - destruct (tenant_field M q); [|constructor]. destruct (tenant_id_value q); by repeat constructor.
  - destruct (keyset_cursor q) as [c|]; [|constructor]. cbn. destruct (cursor_direction c); by repeat constructor.
Qed.

(** C16. The conditions of a query are what the database reads.  For a builder that any sequence
    of methods made and whose IN lists all have a value (an empty one is written [IN ()], which no
    reader takes: [where_in_empty]), for a database with a kind of quotes, a reader of SQL text gets back from
    [build_where_clause_with_params] and from the WHERE part of [build_select_with_params] the
    conditions in their order with their values: a condition and the OR conditions behind it form
    one group, whichever of the two fast paths or the slow path wrote them, and the soft deletion,
    the tenant and the cursor are groups of their own that no OR of the caller reaches. *)
Theorem where_clause_reads_back M t d k frames s q :
  get_dialect t = Ok d -> from_db_type t = Some k -> frames <> 0 -> built M d s q ->
  Forall (fun c => nonempty_list c = true) (where_conditions q) ->
  forall b before rest others, after_clause rest ->
  exists text params,
    build_where_clause_with_params_options M frames b q = Some (text, params) /\
    (b = true -> write_select_where M frames q before = Some (before +:+ text, params)) /\
    read_where t (text +:+ rest) (params ++ others)%list
    = Some ((conditions_read (cnf (where_conditions q)) ++ ((fun c => [c]) <$> implied M b q))%list, rest, others).
Proof.
  intros Hd Hk Hf Hb Hl b before rest others [Hand Hwhere]. pose proof (built_coherent _ _ _ _ Hb) as Hq.
  exists (where_part M d q b), (where_params M q b). split; [|split].
  - by apply (where_with_params_spec M t d k Hd Hk frames Hf s q Hq).
  - intros ->. by apply (write_select_where_spec M t d k Hd Hk frames Hf s q Hq).
  - rewrite <- effective_groups. apply (read_clause_spec t d Hd); [by apply (effective_known M d s)|by apply effective_nonempty|done|done].
Qed.

(** What a statement shows of the rows: a WHERE clause is read after [head], and a row that
    satisfies it has the tenant's value. *)
Definition only_tenant (t : DbType) (f : string) (tid : option Z) (head : string) (before : list Value)
    (statement : option (string * list Value)) : Prop :=
  exists clause params groups rest others,
    statement = Some (head +:+ clause, before ++ params)%list /\
    read_where t clause params = Some (groups, rest, others) /\
    forall sat : WhereCondition -> Prop, ~ sat never -> Forall (Exists sat) groups ->
      exists id, tid = Some id /\ sat (WEq f (VI64 id)).

Lemma tenant_group M b q f sat : tenant_disabled q = false -> model_tenant_field M = Some f -> ~ sat never ->
  Forall (Exists sat) (conditions_read (cnf (effective M b q))) -> exists id, tenant_id q = Some id /\ sat (WEq f (VI64 id)).
Proof.
  intros Hs Hm Hnever Hsat. rewrite effective_groups in Hsat. apply Forall_app in Hsat as [_ Hsat].
  unfold implied, tenant_condition, tenant_field, tenant_id_value in Hsat. rewrite Hs, Hm, !fmap_app, !Forall_app in Hsat.
  destruct Hsat as (_ & Hsat & _). cbn in Hsat. apply Forall_cons in Hsat as [Hsat _].
  destruct (tenant_id q) as [tid|]; apply Exists_cons in Hsat as [Hsat|Hsat%Exists_nil]; [by exists tid|done|done|done].
Qed.

(** C29. A tenant sees only its rows.  Take a model with a tenant column and a builder that any
    sequence of methods made, [without_tenant] apart.  In the SELECT, the UPDATE, the DELETE and
    the DELETE that ignores the soft deletion the database reads a WHERE clause right behind what
    the statement begins with, and a row that satisfies it has the tenant's value in that column,
    whatever conditions, OR conditions and cursors the caller has added; without a tenant no row
    satisfies it. *)
Theorem tenant_isolation M t d k frames q f data :
  get_dialect t = Ok d -> from_db_type t = Some k -> frames <> 0 -> built M d true q ->
  Forall (fun c => nonempty_list c = true) (where_conditions q) -> model_tenant_field M = Some f -> data <> ∅ ->
  let table := quote d (statement_table M q) in
  only_tenant t f (tenant_id q) (select_head M q) [] (build_select_with_params M frames q) /\
  (exists sets, only_tenant t f (tenant_id q) ("UPDATE " +:+ table +:+ " SET " +:+ sets) (map_to_list data).*2
     (build_update_with_params M frames data q)) /\
  only_tenant t f (tenant_id q)
    (match soft_delete_field M q with
     | Some deleted => "UPDATE " +:+ table +:+ " SET " +:+ quote d deleted +:+ " = NOW()"
     | None => "DELETE FROM " +:+ table
     end) [] (build_delete_with_params M frames q) /\
  only_tenant t f (tenant_id q) ("DELETE FROM " +:+ table) [] (build_force_delete_with_params M frames q).
Proof.
  intros Hd Hk Hf Hb Hl Hm Hne table. pose proof (built_coherent _ _ _ _ Hb) as Hq.
  pose proof (coherent_tenant _ _ _ Hq eq_refl) as Hs.
  assert (Hread : forall b r others, after_clause r ->
    read_where t (where_part M d q b +:+ r) (where_params M q b ++ others)%list = Some (conditions_read (cnf (effective M b q)), r, others)).
  { intros b r others [Hand Hwhere]. apply (read_clause_spec t d Hd); [by apply (effective_known M d true)|by apply effective_nonempty|done|done]. }
  assert (Hwhole : forall b, read_where t (where_part M d q b) (where_params M q b) = Some (conditions_read (cnf (effective M b q)), "", [])).
  { intros b. pose proof (Hread b "" [] ltac:(done)) as Hr. by rewrite str_app_nil_r, app_nil_r in Hr. }
  assert (Hrow : forall b (sat : WhereCondition -> Prop), ~ sat never -> Forall (Exists sat) (conditions_read (cnf (effective M b q))) ->
    exists id, tenant_id q = Some id /\ sat (WEq f (VI64 id))) by (intros b sat; by apply (tenant_group M)).
  split; [|split; [|split]].
  - destruct (push_end_spec t d Hd q (coherent_dialect _ _ _ Hq)) as (w & Hw & _ & Ha).
    eexists _, _, _, _, _. split; [by rewrite (select_spec M t d k Hd Hk frames Hf true q Hq w Hw)|].
    split; [apply Hread; by apply select_tail_after|by apply Hrow].
  - destruct (update_spec M t d k Hd Hk frames Hf true q Hq data Hne) as [sets Hu]. exists sets.
    eexists _, _, _, _, _. split; [exact Hu|]. split; [apply Hwhole|by apply Hrow].
  - eexists _, _, _, _, _. split; [by rewrite (delete_spec M t d k Hd Hk frames Hf true q Hq)|]. split; [apply Hwhole|by apply Hrow].
  - eexists _, _, _, _, _. split; [by rewrite (force_delete_spec M t d k Hd Hk frames Hf true q Hq)|]. split; [apply Hwhole|by apply Hrow].
Qed.

Section NoKind.
Context `{FloatText} (M : Model).
Variable q : QueryBuilder.
Hypothesis Hk : dialect_kind q = None.

(** Without a kind [quote_into] calls itself until the stack is used up. *)
Lemma quote_into_overflows frames f buf : qb_quote_into frames q f buf = None.
Proof. induction frames as [|n IH]; [done|]. cbn. by rewrite Hk. Qed.

Lemma push_field_overflows frames f text buf : push_field frames q f text buf = None.
Proof. unfold push_field, push_quoted. by rewrite quote_into_overflows. Qed.

Lemma condition_text_overflows frames c : parametrised c = true -> condition_text frames q c = None.
Proof. intros Hc. destruct c; try discriminate Hc; unfold condition_text; by rewrite push_field_overflows. Qed.

Lemma write_condition_overflows frames c buf : parametrised c = true -> is_or c = false -> write_condition frames q c buf = None.
Proof.
  intros Hc Ho. destruct c; try discriminate Hc; try discriminate Ho; unfold write_condition; by rewrite push_field_overflows.
Qed.

Lemma where_overflows frames b : Forall (fun c => parametrised c = true) (where_conditions q) -> where_conditions q <> [] ->
  build_where_clause_with_params_options M frames b q = None.
Proof.
  intros Hc Hne. unfold build_where_clause_with_params_options, slow_where_clause.
  destruct (where_conditions q) as [|c cs] eqn:Ew; [done|]. apply Forall_cons in Hc as [Hc _].
  destruct (_ && _) eqn:Hfast.
  - apply andb_true_iff in Hfast as [_ Ho]. rewrite negb_true_iff in Ho. cbn [existsb] in Ho. apply orb_false_iff in Ho as [Ho _].
    cbn [write_conditions]. by rewrite write_condition_overflows.
  - cbn [mapM]. by rewrite condition_text_overflows.
Qed.
End NoKind.

(** The databases that have a dialect but no kind of quotes. *)
Definition no_kind (t : DbType) : bool :=
  match t with
  | ClickHouse | Db2 | DuckDB | CockroachDB | YugabyteDB | Snowflake | Redshift | Informix | SapHana | Firebird => true
  | _ => false
  end.

(** For ten databases no statement with parameters is ever written.  A builder that any
    sequence of methods made, for ClickHouse, Db2, DuckDB, CockroachDB, YugabyteDB, Snowflake,
    Redshift, Informix, SAP HANA or Firebird, overflows the stack in every SELECT with parameters,
    and in every UPDATE and DELETE with a condition, however deep the stack is; for every other
    database one call of [quote_into] is enough and the statement is returned. *)
Theorem statements_end_iff_kind M t d s q data :
  get_dialect t = Ok d -> built M d s q -> data <> ∅ ->
  if no_kind t then
    forall frames,
      build_select_with_params M frames q = None /\
      (where_conditions q <> [] ->
         build_update_with_params M frames data q = None /\ build_delete_with_params M frames q = None /\
         build_force_delete_with_params M frames q = None)
  else
    forall frames, frames <> 0 ->
      is_Some (build_select_with_params M frames q) /\ is_Some (build_update_with_params M frames data q) /\
      is_Some (build_delete_with_params M frames q) /\ is_Some (build_force_delete_with_params M frames q).
Proof.
  intros Hd Hb Hne. pose proof (built_coherent _ _ _ _ Hb) as Hq. destruct (get_dialect_laws t d Hd) as [Ht _].
  destruct (from_db_type t) as [k|] eqn:Hk.
  - replace (no_kind t) with false by (by destruct t). intros frames Hf.
    destruct (push_end_spec t d Hd q (coherent_dialect _ _ _ Hq)) as (w & Hw & _ & _).
    rewrite (select_spec M t d k Hd Hk frames Hf s q Hq w Hw), (delete_spec M t d k Hd Hk frames Hf s q Hq),
      (force_delete_spec M t d k Hd Hk frames Hf s q Hq).
    destruct (update_spec M t d k Hd Hk frames Hf s q Hq data Hne) as [sets ->]. by repeat split.
  - replace (no_kind t) with true by (destruct t; try done; by destruct Hd). intros frames.
    assert (Hn : dialect_kind q = None) by (by rewrite (coherent_kind _ _ _ Hq), Ht). split.
    + unfold build_select_with_params, push_quoted. by rewrite quote_into_overflows.
    + intros Hc. pose proof (fun b => where_overflows M q Hn frames b (coherent_conditions _ _ _ Hq) Hc) as Hw.
      unfold build_update_with_params, build_delete_with_params, build_force_delete_with_params, build_where_clause_with_params.
      rewrite !Hw. destruct (map_to_list data) eqn:Em; [by apply map_to_list_empty_iff in Em|done].
Qed.

(** * Concrete queries *)

Definition orders_model : Model := mkModel "orders" "id" (Some "deleted_at") (Some "tenant_id") ["id"; "state"; "total"].

(** Orders that are open or large, of tenant 7, after the order 10. *)
Definition open_orders (d : Dialect) : QueryBuilder :=
  keyset_after "id" (VI64 10) 5 (with_tenant_id 7
    (or_where_gt "total" (VI64 100) (where_eq "state" (VString "open?") (builder_new d)))).

Definition some_data : gmap string Value := {["state" := VString "paid"]}.

Lemma data_nonempty : some_data <> ∅.
Proof. apply insert_non_empty. Qed.

Lemma open_orders_built d : built orders_model d true (open_orders d).
Proof.
  apply built_after, built_tenant, built_where; [|done]. apply built_where; [|done]. apply built_new.
Qed.

Lemma open_orders_lists d : Forall (fun c => nonempty_list c = true) (where_conditions (open_orders d)).
Proof. by repeat constructor. Qed.

Example open_orders_mysql :
  build_select_with_params orders_model 1 (open_orders MySqlDialect)
  = Some ("SELECT * FROM `orders` WHERE (`state` = ? OR `total` > ?) AND `deleted_at` IS NULL AND `tenant_id` = ? AND `id` > ? ORDER BY `id` ASC LIMIT 5",
          [VString "open?"; VI64 100; VI64 7; VI64 10]).
Proof. vm_compute. reflexivity. Qed.

Lemma where_clause_reads_back_witness :
  exists text params,
    build_where_clause_with_params_options orders_model 1 true (open_orders PostgreSqlDialect) = Some (text, params) /\
    read_where PostgreSQL (text +:+ " LIMIT 5") params
    = Some ([[WEq "state" (VString "open?"); WGt "total" (VI64 100)]; [WNull "deleted_at"]; [WEq "tenant_id" (VI64 7)];
             [WGt "id" (VI64 10)]], " LIMIT 5", []).
Proof.
  destruct (where_clause_reads_back orders_model PostgreSQL PostgreSqlDialect KPostgreSQL 1 true
    (open_orders PostgreSqlDialect) eq_refl eq_refl ltac:(lia) (open_orders_built _) (open_orders_lists _)
    true "" " LIMIT 5" [] (conj eq_refl eq_refl)) as (text & params & Hb & _ & Hr).
  exists text, params. split; [exact Hb|]. rewrite app_nil_r in Hr. exact Hr.
Defined.

Lemma tenant_isolation_witness :
  only_tenant MySQL "tenant_id" (Some 7%Z) (select_head orders_model (open_orders MySqlDialect)) []
    (build_select_with_params orders_model 1 (open_orders MySqlDialect)) /\
  only_tenant MySQL "tenant_id" (Some 7%Z) ("DELETE FROM " +:+ quote MySqlDialect "orders") []
    (build_force_delete_with_params orders_model 1 (open_orders MySqlDialect)).
Proof.
  pose proof (tenant_isolation orders_model MySQL MySqlDialect KMySQL 1 (open_orders MySqlDialect) "tenant_id"
    some_data eq_refl eq_refl ltac:(lia) (open_orders_built _) (open_orders_lists _) eq_refl
    data_nonempty) as (Hs & _ & _ & Hd).
  split; [exact Hs|exact Hd].
Defined.

Lemma statements_end_iff_kind_witness :
  (forall frames, build_select_with_params orders_model frames (open_orders DuckDBDialect) = None) /\
  is_Some (build_select_with_params orders_model 1 (open_orders SqliteDialect)).
Proof.
  split.
  - intros frames. exact (proj1 (statements_end_iff_kind orders_model DuckDB DuckDBDialect true (open_orders DuckDBDialect)
      some_data eq_refl (open_orders_built _) data_nonempty frames)).
  - exact (proj1 (statements_end_iff_kind orders_model Sqlite SqliteDialect true (open_orders SqliteDialect)
      some_data eq_refl (open_orders_built _) data_nonempty 1 ltac:(lia))).
Defined.

(** * Numbers and chunks *)

Lemma usize_digits_spec fuel n acc : (n < 10 ^ N.of_nat fuel)%N -> usize_digits fuel n acc = pretty_N_go n acc.
Proof.
  revert n acc. induction fuel as [|fuel IH]; intros n acc Hn.
  - assert (n = 0%N) as -> by (cbn in Hn; lia). by rewrite pretty_N_go_0.
  - cbn [usize_digits]. destruct (N.eqb_spec n 0) as [->|Hz]; [by rewrite pretty_N_go_0|].
    rewrite pretty_N_go_step by lia. apply IH. apply N.Div0.div_lt_upper_bound.
    rewrite Nat2N.inj_succ, N.pow_succ_r' in Hn. lia.
Qed.

(** The array of twenty digits holds every [usize], and the text is its decimal. *)
Lemma push_usize_to_string_spec n buf : (n < 2 ^ 64)%N -> push_usize_to_string n buf = buf +:+ pretty n.
Proof.
  intros Hn. unfold push_usize_to_string, pretty, pretty_N. destruct (N.eqb_spec n 0) as [->|Hz]; [done|].
  rewrite decide_False by done. f_equal. apply usize_digits_spec. cbn. lia.
Qed.

Lemma chunks_concat {A} fuel n (l : list A) : n <> 0 -> length l <= fuel -> concat (chunks fuel n l) = l.
Proof.
  intros Hn. revert l. induction fuel as [|fuel IH]; intros [|x l] Hl; try done; [cbn in Hl; lia|]. cbn [chunks].
  cbn [concat]. rewrite IH; [apply take_drop|]. rewrite length_drop. cbn in *. lia.
Qed.

Lemma chunks_bounded {A} fuel n (l : list A) : n <> 0 -> Forall (fun c => c <> [] /\ length c <= n) (chunks fuel n l).
Proof.
  intros Hn. revert l. induction fuel as [|fuel IH]; intros [|x l]; cbn [chunks]; try by constructor.
  constructor; [|apply IH]. split; [by destruct n|]. rewrite length_take. lia.
Qed.

(** The queries of [find_by_ids] ask for every key once, at most 999 at a time. *)
Lemma find_chunks_cover ids : let unique_ids := elements (list_to_set ids : gset Z) in
  let cs := chunks (length unique_ids) CHUNK unique_ids in
  NoDup (concat cs) /\ (forall i, i ∈ concat cs <-> i ∈ ids) /\ Forall (fun c => c <> [] /\ length c <= CHUNK) cs.
Proof.
  intros u cs. unfold cs. rewrite chunks_concat by done. split; [apply NoDup_elements|]. split; [|by apply chunks_bounded].
  intros i. unfold u. rewrite elem_of_elements. apply elem_of_list_to_set.
Qed.

(** * What the builder does not do *)

Definition users : Model := mkModel "users" "id" None None ["id"; "name"].

(** A qualified column of a join is one identifier. *)
Example join_quotes_qualified_names :
  build_select_with_params users 1 (join_inner "orders" "users.id" "orders.user_id" (builder_new MySqlDialect))
  = Some ("SELECT * FROM `users` INNER JOIN `orders` ON `users.id` = `orders.user_id`", []).
Proof. reflexivity. Qed.

(** An empty list has no condition SQL accepts. *)
Example where_in_empty :
  build_select_with_params users 1 (where_in "id" [] (builder_new MySqlDialect)) = Some ("SELECT * FROM `users` WHERE `id` IN ()", []).
Proof. reflexivity. Qed.

(** A count forgets the joins its conditions refer to. *)
Example count_forgets_joins :
  @build_count no_digits users (clone_for_count (where_eq "state" (VI32 1) (join_inner "orders" "id" "user_id" (builder_new MySqlDialect))))
  = "SELECT COUNT(*) as total FROM `users` WHERE `state` = 1".
Proof. reflexivity. Qed.

(** The offset of a page wraps around. *)
Example page_wraps : offset_value (page (2 ^ 32 + 1) (2 ^ 32) (builder_new MySqlDialect)) = Some 0%Z.
Proof. reflexivity. Qed.

(** On PostgreSQL only the batch insert numbers its placeholders. *)
Example postgres_placeholders :
  let q := builder_new PostgreSqlDialect in
  build_insert_with_params users 1 {["id" := VI32 1]} q
  = Some ("INSERT INTO " +:+ pg_quote "users" +:+ " (" +:+ pg_quote "id" +:+ ") VALUES (?)", [VI32 1]) /\
  build_batch_insert_with_params users 1 [{["id" := VI32 1]}] q
  = Some ("INSERT INTO " +:+ pg_quote "users" +:+ " (" +:+ pg_quote "id" +:+ ") VALUES ($1)", [VI32 1]).
Proof. split; reflexivity. Qed.

(** The columns of a batch are those of its first row. *)
Example batch_insert_drops_columns :
  build_batch_insert_with_params users 1 [{["id" := VI32 1]}; {["id" := VI32 2; "name" := VString "x"]}] (builder_new MySqlDialect)
  = Some ("INSERT INTO `users` (`id`) VALUES (?), (?)", [VI32 1; VI32 2]).
Proof. reflexivity. Qed.
