(* ===== verification/CoreBind.v ===== *)
(** The values of the statements of the query builder of models: what it takes for a property of
    texts and values to hold of every statement, the statement with its values bound against the
    one with its values in the text, and the numbering of its placeholders by the PostgreSQL
    driver. *)

From Stdlib Require Import Ascii String.
From S2P Require Import Prelude SqlText Dialect VendorDialects AnalyticDialects Dialects Value.
From S2P Require Import QueryParams.
From S2P Require Import CoreQuery.
From S2P Require Import CoreWhere.
From S2P Require Import PgPlaceholders.
From S2P Require Import CoreRead.
Local Open Scope string_scope.
#[local] Arguments String.append !_ _ : simpl nomatch.

(** * Texts made of pieces *)

(** A text whose first visible character neither continues a token nor makes an operator of a
    question mark before it. *)
Definition visible (c : ascii) : bool := negb (closes c || Ascii.eqb c "|" || Ascii.eqb c "&" || Ascii.eqb c tab).

Fixpoint visible_start (s : string) : bool :=
  match s with
  | EmptyString => false
  | String c s => if Ascii.eqb c " " then visible_start s else visible c
  end.

Definition apart (s : string) : bool := match s with EmptyString => true | _ => visible_start s end.

Lemma visible_start_app a b : visible_start a = true -> visible_start (a +:+ b) = true.
Proof. induction a as [|c a IH]; [done|]. cbn. destruct (Ascii.eqb c " "); auto. Qed.

Lemma apart_app a b : apart a = true -> (a = "" -> apart b = true) -> apart (a +:+ b) = true.
Proof. destruct a as [|c a]; [auto|]. intros Ha _. exact (visible_start_app (String c a) b Ha). Qed.

Lemma apart_starts s : apart s = true -> starts_apart s = true.
Proof.
  destruct s as [|c s]; [done|]. cbn. destruct (Ascii.eqb_spec c " ") as [->|]; [done|]. unfold visible.
  rewrite !negb_true_iff, !orb_false_iff. tauto.
Qed.

Lemma visible_not_json s : visible_start s = true -> pg_question_is_json_operator s = false.
Proof.
  induction s as [|c s IH]; [done|]. cbn. destruct (Ascii.eqb_spec c " ") as [->|]; [done|]. unfold visible, closes.
  rewrite negb_true_iff, !orb_false_iff. intros [ [ [ [ [ [Hs Hd] _] _] _] _] Ht]. by rewrite Ht, Hs, Hd.
Qed.

Lemma apart_calm s rest : apart s = true -> calm_start rest = true -> calm_start (s +:+ rest) = true.
Proof.
  destruct s as [|c s]; [done|]. intros Hv _. unfold calm_start.
  rewrite (visible_not_json (String c s +:+ rest)) by exact (visible_start_app (String c s) rest Hv).
  rewrite andb_true_r, str_app_cons. cbn [peeks apart visible_start] in *. destruct (Ascii.eqb_spec c " ") as [->|]; [done|]. unfold visible in Hv.
  rewrite !negb_true_iff, !orb_false_iff in Hv. rewrite negb_true_iff, orb_false_iff. tauto.
Qed.

(** A relation between a text with placeholders, its values and the text with the values in it,
    which is built from calm text, quoted identifiers and question marks. *)
Class Pieces `{FloatText} (d : Dialect) (P : string -> list Value -> string -> Prop) : Prop := {
  pieces_nil : P "" [] "";
  pieces_calm_l g s vs o : all_chars calm_char g = true -> P s vs o -> P (g +:+ s) vs (g +:+ o);
  pieces_app a b vs ws oa ob :
    P a vs oa -> P b ws ob -> apart b = true -> P (a +:+ b) (vs ++ ws)%list (oa +:+ ob);
  pieces_quote f : P (quote d f) [] (quote d f);
  pieces_mark v : P "?" [v] (to_param_with_dialect d v);
}.

(** Binding the values gives the other text. *)
Lemma bound_pieces `{FloatText} t d : get_dialect t = Ok d ->
  Pieces d (fun s vs o => fragment t s (to_param_with_dialect d <$> vs) o).
Proof.
  intros Hd. split.
  - by apply fragment_glue.
  - intros g s vs o Hg. apply fragment_glue_l. by apply calm_glue.
  - intros a b vs ws oa ob Ha Hb Hap. rewrite fmap_app. apply fragment_app; [done|done|by apply apart_starts].
  - intros f. apply raw_fragment. by apply quote_raw.
  - intros v. exists QOut. split; [done|]. cbn. by rewrite str_app_nil_r.
Qed.

(** The driver numbers the placeholders. *)
#[export] Instance numbered_pieces `{FloatText} : Pieces PostgreSqlDialect (fun s vs _ => numbered s (length vs)).
Proof.
  split.
  - apply numbered_nil.
  - intros g s vs _ Hg. by apply numbered_glue_l.
  - intros a b vs ws _ _ Ha Hb Hap. rewrite length_app. apply numbered_app; [done|done|by apply apart_starts|].
    intros rest. by apply apart_calm.
  - apply numbered_quote.
  - intros v. apply numbered_mark.
Qed.

(** * The statements are made of pieces *)

Section Rendered.
Context `{FloatText} (t : DbType) (d : Dialect) (P : string -> list Value -> string -> Prop) `{HP : !Pieces d P}.
Hypothesis Hd : get_dialect t = Ok d.

Lemma pieces_calm g : all_chars calm_char g = true -> P g [] g.
Proof. intros Hg. pose proof (pieces_calm_l g "" [] "" Hg pieces_nil) as Hp. by rewrite str_app_nil_r in Hp. Qed.

Lemma pieces_calm_r a vs o g : P a vs o -> all_chars calm_char g = true -> apart g = true -> P (a +:+ g) vs (o +:+ g).
Proof. intros Ha Hg Hap. rewrite <- (app_nil_r vs). apply pieces_app; [done|by apply pieces_calm|done]. Qed.

Lemma pieces_app_l a b vs oa ob : P a [] oa -> P b vs ob -> apart b = true -> P (a +:+ b) vs (oa +:+ ob).
Proof. exact (pieces_app a b [] vs oa ob). Qed.

(** A question mark between calm text and what is behind it. *)
Lemma pieces_value g v r vs o : all_chars calm_char g = true -> P r vs o -> apart r = true ->
  P (g +:+ "?" +:+ r) (v :: vs) (g +:+ to_param_with_dialect d v +:+ o).
Proof. intros Hg Hr Hap. apply pieces_calm_l; [done|]. exact (pieces_app "?" r [v] vs _ o (pieces_mark v) Hr Hap). Qed.

Lemma pieces_last_value g v : all_chars calm_char g = true -> P (g +:+ "?") [v] (g +:+ to_param_with_dialect d v).
Proof. intros Hg. apply pieces_calm_l; [done|apply pieces_mark]. Qed.

Lemma pieces_field f text vs o : P text vs o -> apart text = true -> P (quote d f +:+ text) vs (quote d f +:+ o).
Proof. apply pieces_app_l, pieces_quote. Qed.

Lemma pieces_join {A} sep (text : A -> string) (values : A -> list Value) inline (l : list A) :
  all_chars calm_char sep = true -> visible_start sep = true -> Forall (fun x => P (text x) (values x) (inline x)) l ->
  P (join sep (text <$> l)) (concat (values <$> l)) (join sep (inline <$> l)).
Proof.
  intros Hsep Hvis. induction 1 as [|x l Hx Hl IH]; [apply pieces_nil|]. destruct l as [|y l].
  - cbn [fmap list_fmap concat join]. by rewrite app_nil_r.
  - rewrite !(fmap_cons _ x). cbn [concat].
    change (join sep (text x :: (text <$> y :: l))) with (text x +:+ sep +:+ join sep (text <$> y :: l)).
    change (join sep (inline x :: (inline <$> y :: l))) with (inline x +:+ sep +:+ join sep (inline <$> y :: l)).
    apply pieces_app; [done|by apply pieces_calm_l|]. destruct sep as [|c sep]; [done|]. exact (visible_start_app (String c sep) _ Hvis).
Qed.

Lemma concat_nils {A B} (l : list A) : concat ((fun _ => @nil B) <$> l) = [].
Proof. by induction l. Qed.

Lemma pieces_join_texts {A} sep (text : A -> string) (l : list A) :
  all_chars calm_char sep = true -> visible_start sep = true -> (forall x, P (text x) [] (text x)) -> P (join sep (text <$> l)) [] (join sep (text <$> l)).
Proof.
  intros Hsep Hvis Ht. pose proof (pieces_join sep text (fun _ => []) text l Hsep Hvis) as Hj. rewrite concat_nils in Hj.
  apply Hj. by apply Forall_true.
Qed.

Lemma marks_pieces f (vals : list Value) : all_chars calm_char f = true ->
  P (f +:+ placeholder_texts vals +:+ ")") vals (f +:+ inline_values d vals +:+ ")").
Proof.
  intros Hf. apply pieces_calm_l; [done|]. apply pieces_calm_r; [|done|done].
  pose proof (pieces_join ", " (fun _ : Value => "?") (fun v => [v]) (to_param_with_dialect d) vals eq_refl eq_refl
    ltac:(apply Forall_true; intros; apply pieces_mark)) as Hj.
  replace (concat ((fun v => [v]) <$> vals)) with vals in Hj; [done|]. clear. induction vals as [|v vals IH]; [done|]. cbn. by f_equal.
Qed.

Lemma condition_pieces c : known c -> P (body d c) (cond_params c) (inline_text d c).
Proof.
  intros [->|Hc]; [by apply pieces_calm|]. unfold body, cond_params, inline_text.
  destruct c; try discriminate Hc; cbn [operands plain condition_inline]; apply pieces_field; try done.
  all: try (match goal with |- P ?g _ (?o +:+ _) => exact (pieces_last_value o v eq_refl) end).
  all: try by apply marks_pieces.
  all: try by apply pieces_calm.
  - exact (pieces_value " BETWEEN " start " AND ?" [end_] _ eq_refl (pieces_last_value " AND " end_ eq_refl) eq_refl).
  - exact (pieces_value " NOT BETWEEN " start " AND ?" [end_] _ eq_refl (pieces_last_value " AND " end_ eq_refl) eq_refl).
Qed.

Definition inlined_group (g : list WhereCondition) : string := group_text (inline_text d <$> g).

Lemma group_pieces g : Forall known g -> P (written_group d g) (params_of g) (inlined_group g).
Proof.
  intros Hg. assert (Hb : Forall (fun c => P (body d c) (cond_params c) (inline_text d c)) g).
  { eapply Forall_impl; [exact Hg|]. intros c. apply condition_pieces. }
  unfold written_group, inlined_group, params_of.
  assert (Hj : P ("(" +:+ join " OR " (body d <$> g) +:+ ")") (concat (cond_params <$> g)) ("(" +:+ join " OR " (inline_text d <$> g) +:+ ")")).
  { apply pieces_calm_l; [done|]. apply pieces_calm_r; [by apply pieces_join|done|done]. }
  destruct g as [|c [|c2 g]]; try done. cbn [fmap list_fmap group_text concat]. rewrite app_nil_r. by inversion Hb.
Qed.

Lemma clause_pieces cs : Forall known cs -> P (clause (body d) cs) (params_of cs) (clause (inline_text d) cs).
Proof.
  intros Hk. destruct (decide (cs = [])) as [->|Hne]; [apply pieces_nil|].
  rewrite (clause_groups t d Hd) by done. rewrite (clause_cnf (inline_text d)); [|intros; by apply (inline_no_or t d Hd)|done|done].
  rewrite <- (concat_cnf cs) at 2. rewrite <- params_of_concat. apply pieces_calm_l; [done|].
  apply pieces_join; [done|done|]. assert (Hcn : Forall (Forall known) (cnf cs)) by (apply Forall_concat; by rewrite concat_cnf).
  eapply Forall_impl; [exact Hcn|]. intros g. apply group_pieces.
Qed.

Lemma join_pieces j : P (join_inline d j) [] (join_inline d j) /\ apart (join_inline d j) = true.
Proof.
  split; [|by destruct j as [| | | |[]]].
  destruct j as [| | | |[]]; unfold join_inline; cbn [join_kind_sql].
  all: repeat first [apply pieces_quote | apply pieces_calm_l; [done|] | apply pieces_field; [|done]].
Qed.

Lemma joins_pieces js : P (join "" (join_inline d <$> js)) [] (join "" (join_inline d <$> js)) /\ apart (join "" (join_inline d <$> js)) = true.
Proof.
  induction js as [|j js [IH1 IH2]]; [split; [apply pieces_nil|done]|]. rewrite fmap_cons, join_nil_cons.
  destruct (join_pieces j) as [Hj1 Hj2]. split; [by apply pieces_app_l|by apply apart_app].
Qed.

Lemma agg_pieces a : P (agg_render d a) [] (agg_render d a).
Proof.
  destruct a; cbn [agg_render]; [by apply pieces_calm|..]; apply pieces_calm_l; try done.
  all: apply pieces_field; [by apply pieces_calm|done].
Qed.

Lemma having_pieces c : (exists a op v, c = WHaving a op v) -> P (having_text d c).1 (having_text d c).2 (having_inline d c).
Proof.
  intros (a & op & v & ->). cbn [having_text having_inline fst snd]. apply pieces_app_l; [apply agg_pieces| |by destruct op].
  pose proof (pieces_last_value (" " +:+ having_op_sql op +:+ " ") v ltac:(by destruct op)) as Hv. by destruct op.
Qed.

Lemma having_part_pieces hs : Forall (fun c => exists a op v, c = WHaving a op v) hs ->
  let texts := having_text d <$> hs in
  P (having_part texts.*1) (concat texts.*2) (having_part (having_inline d <$> hs)) /\ apart (having_part texts.*1) = true.
Proof.
  intros Hh texts. unfold texts. split; [|by destruct hs]. rewrite <- !list_fmap_compose. destruct hs as [|h hs]; [apply pieces_nil|].
  change (having_part (?f <$> h :: hs)) with (" HAVING " +:+ join " AND " (f <$> h :: hs)).
  apply pieces_calm_l; [done|]. apply (pieces_join " AND " (fun c => (having_text d c).1) (fun c => (having_text d c).2)); [done|done|].
  eapply Forall_impl; [exact Hh|]. intros c. apply having_pieces.
Qed.

Section Parts.
Variable M : Model.
Variable q : QueryBuilder.
Hypothesis Hq : dialect q = d.

Lemma groups_part_pieces : P (groups_part q) [] (groups_part q) /\ apart (groups_part q) = true.
Proof.
  unfold groups_part. rewrite Hq. split; [|by destruct (groups q)]. destruct (groups q); [apply pieces_nil|].
  apply pieces_calm_l; [done|]. apply pieces_join_texts; [done|done|]. intros. apply pieces_quote.
Qed.

Lemma orders_part_pieces : P (orders_part q) [] (orders_part q) /\ apart (orders_part q) = true.
Proof.
  unfold orders_part. rewrite Hq. split; [|by destruct (orders q)]. destruct (orders q); [apply pieces_nil|].
  apply pieces_calm_l; [done|]. apply pieces_join_texts; [done|done|]. intros x. unfold order_text.
  apply pieces_field; [apply pieces_calm|]; by destruct (order_direction x).
Qed.

Lemma select_head_pieces : Forall (fun c => P c [] c) (select_columns q) -> P (select_head M q) [] (select_head M q).
Proof.
  intros Hcols. unfold select_head. rewrite Hq. destruct (joins_pieces (joins q)) as [Hj1 Hj2].
  apply pieces_calm_l; [done|]. apply pieces_app_l; [|apply pieces_calm_l; [done|by apply pieces_field]|done].
  destruct (select_columns q) as [|c cs] eqn:Ec; [by apply pieces_calm|]. rewrite <- Ec in Hcols |- *.
  pose proof (pieces_join ", " (fun c => c) (fun _ => []) (fun c => c) (select_columns q) eq_refl eq_refl Hcols) as Hj.
  by rewrite concat_nils, list_fmap_id in Hj.
Qed.

Lemma select_tail_pieces w : P w [] w -> apart w = true -> Forall (fun c => exists a op v, c = WHaving a op v) (having_conditions q) ->
  P (select_tail (having_text d <$> having_conditions q).*1 q +:+ w) (having_params q)
    (select_tail (having_inline d <$> having_conditions q) q +:+ w)
  /\ apart (select_tail (having_text d <$> having_conditions q).*1 q +:+ w) = true.
Proof.
  intros Hw Hwa Hh. destruct groups_part_pieces as [Hg Hga], orders_part_pieces as [Ho Hoa].
  destruct (having_part_pieces _ Hh) as [Hb Hba]. unfold select_tail, having_params. rewrite Hq, !str_app_assoc.
  assert (Howa : apart (orders_part q +:+ w) = true) by (by apply apart_app). split.
  - apply pieces_app_l; [done| |by apply apart_app]. rewrite <- (app_nil_r (concat _)). apply pieces_app; [done| |done].
    by apply pieces_app_l.
  - apply apart_app; [done|intros _]. by apply apart_app.
Qed.

Lemma clause_apart render cs : apart (clause render cs) = true.
Proof. by destruct cs. Qed.

Definition end_part : string := push_lock q (push_window q "").

Lemma end_apart : apart end_part = true.
Proof.
  unfold end_part, push_window, push_lock. rewrite Hq. destruct (_ || _) eqn:Hw; cbn [andb].
  - assert (Ha : forall s, apart s = true -> apart (match lock_type q ≫= build_lock_clause d with Some clause => s +:+ " " +:+ clause | None => s end) = true).
    { intros s Hs. destruct (lock_type q) as [l|]; [|done]. cbn. destruct (build_lock_clause d l) as [c|] eqn:Hc; [|done].
      apply apart_app; [done|intros _]. destruct t; try discriminate Hd; injection Hd as <-; destruct l; try discriminate Hc; by injection Hc as <-. }
    apply Ha. destruct (_ && _); destruct (build_pagination_clause d (limit_value q) (offset_value q)) as [c|] eqn:Hc; try done.
    destruct t; try discriminate Hd; injection Hd as <-; revert Hc; cbn.
    all: unfold default_pagination_clause, mysql_pagination_clause, sqlite_pagination_clause, fetch_next_clause.
    all: destruct (limit_value q), (offset_value q); cbn; intros [= <-]; done.
  - destruct (lock_type q) as [l|]; [|done]. cbn. destruct (build_lock_clause d l) as [c|] eqn:Hc; [|done].
    destruct t; try discriminate Hd; injection Hd as <-; destruct l; try discriminate Hc; by injection Hc as <-.
Qed.
End Parts.

Section Statements.
Context (M : Model) (k : DialectKind) (frames : nat) (s : bool) (q : QueryBuilder).
Hypothesis Hk : from_db_type t = Some k.
Hypothesis Hf : frames <> 0.
Hypothesis Hq : coherent d s q.
Hypothesis Hname : forall f, model_tenant_field M = Some f -> all_chars identifier_char f = true.

(** The statement [r] is made of pieces, and [inline] is its text with the values in it. *)
Definition rendered (r : option (string * list Value)) (inline : string) : Prop :=
  exists text params, r = Some (text, params) /\ P text params inline.

Lemma where_pieces b : P (where_part M d q b) (where_params M q b) (build_where_clause_with_options M b q).
Proof. rewrite (where_inline_spec M t d Hd s q Hq b Hname). apply clause_pieces. by apply (effective_known M d s). Qed.

Lemma where_apart b : apart (where_part M d q b) = true.
Proof. apply clause_apart. Qed.

Lemma select_rendered : P (end_part q) [] (end_part q) -> Forall (fun c => P c [] c) (select_columns q) ->
  rendered (build_select_with_params M frames q) (sql M q).
Proof.
  intros Hend Hcols. pose proof (coherent_dialect _ _ _ Hq) as Hdq. assert (Hd' : get_dialect t = Ok (dialect q)) by congruence.
  destruct (sql_parts M t q Hd') as (w & _ & _ & Hsql).
  assert (Hw : w = end_part q) by exact (eq_sym (proj2 (Hsql ""))). subst w.
  rewrite (proj1 (Hsql "")), Hdq. eexists _, _. split.
  - apply (select_spec M t d k Hd Hk frames Hf s q Hq). intros u. apply (Hsql u).
  - destruct (select_tail_pieces q Hdq (end_part q) Hend (end_apart q Hdq) (coherent_having _ _ _ Hq)) as [Htail Hapart].
    apply pieces_app_l; [by apply select_head_pieces|apply pieces_app; [apply (where_pieces true)|done|done]|].
    apply apart_app; [apply where_apart|done].
Qed.

Lemma update_rendered data : data <> ∅ -> rendered (build_update_with_params M frames data q) (sql_update M data q).
Proof.
  intros Hne. unfold build_update_with_params, sql_update, build_where_clause_with_params. rewrite (coherent_dialect _ _ _ Hq).
  destruct (map_to_list data) as [|kv kvs] eqn:Em; [by apply map_to_list_empty_iff in Em|].
  rewrite (where_with_params_spec M t d k Hd Hk frames Hf s q Hq). cbn [mbind option_bind]. set (l := kv :: kvs).
  eexists _, _. split; [done|]. rewrite !str_app_assoc. apply pieces_calm_l; [done|]. apply pieces_field; [|done].
  apply pieces_calm_l; [done|]. apply pieces_app; [|apply (where_pieces true)|apply where_apart].
  replace l.*2 with (concat ((fun kv => [kv.2]) <$> l)) by (clear; induction l as [|x l IH]; [done|]; cbn; by f_equal).
  rewrite (list_fmap_ext (fun '(k, v) => quote d k +:+ " = " +:+ to_param_with_dialect d v)
    (fun kv => quote d kv.1 +:+ " = " +:+ to_param_with_dialect d kv.2) l) by (by intros i [] _).
  apply pieces_join; [done|done|]. apply Forall_true. intros x. apply pieces_field; [|done]. exact (pieces_last_value " = " _ eq_refl).
Qed.

Lemma delete_rendered : rendered (build_delete_with_params M frames q) (sql_delete M q).
Proof.
  eexists _, _. split; [apply (delete_spec M t d k Hd Hk frames Hf s q Hq)|]. unfold sql_delete. rewrite (coherent_dialect _ _ _ Hq).
  destruct (soft_delete_field M q) as [f|]; rewrite !str_app_assoc.
  - apply pieces_calm_l; [done|]. apply pieces_field; [|done]. apply pieces_calm_l; [done|]. apply pieces_field; [|done].
    apply pieces_calm_l; [done|apply where_pieces].
  - apply pieces_calm_l; [done|]. apply pieces_field; [apply where_pieces|apply where_apart].
Qed.

Lemma force_delete_rendered : rendered (build_force_delete_with_params M frames q) (build_force_delete M q).
Proof.
  eexists _, _. split; [apply (force_delete_spec M t d k Hd Hk frames Hf s q Hq)|]. unfold build_force_delete. rewrite (coherent_dialect _ _ _ Hq).
  rewrite !str_app_assoc. apply pieces_calm_l; [done|]. apply pieces_field; [apply where_pieces|apply where_apart].
Qed.
End Statements.
End Rendered.

(** * The theorems *)

(** Binding the values to the placeholders of the statement gives [inline], with no token left
    open, no placeholder left over and no value left over. *)
Definition is_bound `{FloatText} (t : DbType) (d : Dialect) (r : option (string * list Value)) (inline : string) : Prop :=
  exists text params st, r = Some (text, params) /\
    bind t QOut text (to_param_with_dialect d <$> params) = Some (st, inline, []) /\ at_rest st = true.

Lemma rendered_is_bound `{FloatText} t d r inline :
  rendered (fun s vs o => fragment t s (to_param_with_dialect d <$> vs) o) r inline -> is_bound t d r inline.
Proof. intros (text & params & Hr & st & Hst & Hb). by exists text, params, st. Qed.

(** C40. The texts with the values in them are the statements with their values bound.  For a
    builder that any sequence of methods made whose raw columns leave no token open, binding the
    values of a SELECT, an UPDATE, a DELETE or a forced DELETE with parameters, rendered by the
    dialect, to the placeholders of its text in their order gives the text of [sql],
    [sql_update], [sql_delete] and [build_force_delete]: no placeholder is left over, none is
    hidden in an identifier, and the renderings agree on every join, group, condition, order,
    window and lock. *)
Theorem sql_is_bound `{FloatText} M t d k frames s q data :
  get_dialect t = Ok d -> from_db_type t = Some k -> frames <> 0 -> built M d s q ->
  Forall (fun c => raw t c = true) (select_columns q) ->
  (forall f, model_tenant_field M = Some f -> all_chars identifier_char f = true) -> data <> ∅ ->
  is_bound t d (build_select_with_params M frames q) (sql M q) /\
  is_bound t d (build_update_with_params M frames data q) (sql_update M data q) /\
  is_bound t d (build_delete_with_params M frames q) (sql_delete M q) /\
  is_bound t d (build_force_delete_with_params M frames q) (build_force_delete M q).
Proof.
  intros Hd Hk Hf Hb Hcols Hname Hne. pose proof (built_coherent _ _ _ _ Hb) as Hq. pose proof (bound_pieces t d Hd) as HP.
  repeat split; apply rendered_is_bound.
  - assert (Hd' : get_dialect t = Ok (dialect q)) by (rewrite (coherent_dialect _ _ _ Hq); done).
    destruct (sql_parts M t q Hd') as (w & Hg & _ & Hsql). assert (w = end_part q) as -> by exact (eq_sym (proj2 (Hsql ""))).
    apply (select_rendered t d _ Hd M k frames s q); try done; [by apply fragment_glue|].
    eapply Forall_impl; [exact Hcols|]. intros c. apply raw_fragment.
  - by apply (update_rendered t d _ Hd M k frames s q).
  - by apply (delete_rendered t d _ Hd M k frames s q).
  - by apply (force_delete_rendered t d _ Hd M k frames s q).
Qed.

(** The driver replaces the placeholders of the statement by [$1], [$2], .. in their order, one
    for each value. *)
Definition numbered_in_order (r : option (string * list Value)) : Prop :=
  exists text params st, r = Some (text, params) /\
    bind PostgreSQL QOut text (numbers 0 (length params)) = Some (st, pg_rewrite_placeholders text, []) /\ at_rest st = true.

Lemma rendered_numbered `{FloatText} r inline :
  rendered (fun s vs _ => numbered s (length vs)) r inline -> numbered_in_order r.
Proof.
  intros (text & params & Hr & Hn). destruct (numbered_rewrite _ _ Hn) as (st & Hst & Hb). by exists text, params, st.
Qed.

Lemma pretty_calm z : (0 <= z)%Z -> all_chars calm_char (pretty z) = true.
Proof.
  intros Hz. destruct z as [|p|p]; [done| |lia]. change (pretty (Zpos p)) with (pretty (Npos p)).
  eapply all_chars_impl; [|apply pretty_N_digits]. intros c. by destruct c as [[] [] [] [] [] [] [] []].
Qed.

(** The window and the lock of PostgreSQL. *)
Lemma end_numbered q : dialect q = PostgreSqlDialect ->
  (forall n, limit_value q = Some n -> (0 <= n)%Z) -> (forall n, offset_value q = Some n -> (0 <= n)%Z) ->
  all_chars calm_char (end_part q) = true.
Proof.
  intros Hd Hl Ho. unfold end_part, push_window, push_lock. rewrite Hd. cbn. unfold default_pagination_clause.
  destruct (lock_type q) as [[]|], (limit_value q) as [l|], (offset_value q) as [o|]; cbn.
  all: repeat (rewrite ?all_chars_app, ?(pretty_calm _ (Hl _ eq_refl)), ?(pretty_calm _ (Ho _ eq_refl)); cbn); done.
Qed.

(** C31. The PostgreSQL driver gives every value its number.  For a builder of the PostgreSQL
    dialect that any sequence of methods made, [pg_rewrite_placeholders] changes the text of a
    SELECT, an UPDATE, a DELETE or a forced DELETE in its placeholders alone, which become [$1],
    [$2], .. in their order, as many as the statement has values: no question mark in a quoted
    name is touched, and none is taken for an operator of JSON. *)
Theorem placeholders_numbered M frames s q data :
  frames <> 0 -> built M PostgreSqlDialect s q -> Forall (fun c => numbered c 0) (select_columns q) ->
  (forall n, limit_value q = Some n -> (0 <= n)%Z) -> (forall n, offset_value q = Some n -> (0 <= n)%Z) ->
  (forall f, model_tenant_field M = Some f -> all_chars identifier_char f = true) -> data <> ∅ ->
  numbered_in_order (build_select_with_params M frames q) /\
  numbered_in_order (build_update_with_params M frames data q) /\
  numbered_in_order (build_delete_with_params M frames q) /\
  numbered_in_order (build_force_delete_with_params M frames q).
Proof.
  intros Hf Hb Hcols Hl Ho Hname Hne. pose proof (built_coherent _ _ _ _ Hb) as Hq. pose proof no_digits as HF. pose proof numbered_pieces as HP.
  repeat split; eapply rendered_numbered.
  - apply (select_rendered PostgreSQL PostgreSqlDialect _ eq_refl M KPostgreSQL frames s q); try done.
    refine (pieces_calm PostgreSqlDialect (fun s vs _ => numbered s (length vs)) (end_part q) _). apply end_numbered; [apply (coherent_dialect _ _ _ Hq)|done|done].
  - by apply (update_rendered PostgreSQL PostgreSqlDialect _ eq_refl M KPostgreSQL frames s q).
  - by apply (delete_rendered PostgreSQL PostgreSqlDialect _ eq_refl M KPostgreSQL frames s q).
  - by apply (force_delete_rendered PostgreSQL PostgreSqlDialect _ eq_refl M KPostgreSQL frames s q).
Qed.

(** * Concrete queries *)

Lemma sql_is_bound_witness :
  @is_bound no_digits SqlServer SqlServerDialect (build_select_with_params orders_model 1 (open_orders SqlServerDialect))
    (@sql no_digits orders_model (open_orders SqlServerDialect)) /\
  @is_bound no_digits SqlServer SqlServerDialect (build_update_with_params orders_model 1 some_data (open_orders SqlServerDialect))
    (@sql_update no_digits orders_model some_data (open_orders SqlServerDialect)).
Proof.
  assert (Hname : forall f, model_tenant_field orders_model = Some f -> all_chars identifier_char f = true).
  { intros f Hf. injection Hf as <-. reflexivity. }
  pose proof (@sql_is_bound no_digits orders_model SqlServer SqlServerDialect KMSSQL 1 true (open_orders SqlServerDialect) some_data
    eq_refl eq_refl ltac:(lia) (open_orders_built _) ltac:(constructor) Hname data_nonempty) as (Hs & Hu & _).
  split; [exact Hs|exact Hu].
Defined.

Lemma placeholders_numbered_witness :
  numbered_in_order (build_select_with_params orders_model 1 (open_orders PostgreSqlDialect)) /\
  pg_rewrite_placeholders (default ("", []) (build_delete_with_params orders_model 1 (open_orders PostgreSqlDialect))).1
  = "UPDATE " +:+ pg_quote "orders" +:+ " SET " +:+ pg_quote "deleted_at" +:+ " = NOW() WHERE (" +:+ pg_quote "state" +:+ " = $1 OR "
    +:+ pg_quote "total" +:+ " > $2) AND " +:+ pg_quote "deleted_at" +:+ " IS NULL AND " +:+ pg_quote "tenant_id" +:+ " = $3 AND "
    +:+ pg_quote "id" +:+ " > $4".
Proof.
  split; [|vm_compute; reflexivity].
  assert (Hname : forall f, model_tenant_field orders_model = Some f -> all_chars identifier_char f = true).
  { intros f Hf. injection Hf as <-. reflexivity. }
  refine (proj1 (placeholders_numbered orders_model 1 true (open_orders PostgreSqlDialect) some_data ltac:(lia) (open_orders_built _)
    ltac:(constructor) _ _ Hname data_nonempty)).
  - intros n Hn. injection Hn as <-. lia.
  - intros n Hn. discriminate Hn.
Defined.
