(* ===== verification/DynamicSql.v ===== *)
(** Dynamic SQL: [packages/sz-orm-core/src/dynamic_sql.rs]: parameters, the expressions of
    [test] attributes, the templates as trees and the statements built from them.  The parser
    of the templates is in [DynamicXml.v]. *)

From Stdlib Require Import Ascii String SpecFloat.
From S2P Require Import Prelude SqlText Value.
Local Open Scope string_scope.
#[local] Arguments String.append !_ _ : simpl nomatch.

(** * Strings *)

(** [s.to_lowercase()], as far as the positions and the ASCII characters of the result go: the
    characters whose lowercase has another length or is in ASCII, with it.  The other characters
    outside ASCII, whose lowercase takes the same bytes in number, are left as they are. *)
Definition bytes_string (l : list nat) : string := String.string_of_list_ascii (ascii_of_nat <$> l).

Definition lowercase_specials : list (string * string) :=
  ((fun p => (bytes_string p.1, bytes_string p.2)) <$>
   [ ([196;176], [105;204;135]); ([200;186], [226;177;165]); ([200;190], [226;177;166]);
     ([225;186;158], [195;159]); ([226;132;166], [207;137]); ([226;132;170], [107]); ([226;132;171], [195;165]);
     ([226;177;162], [201;171]); ([226;177;164], [201;189]); ([226;177;173], [201;145]); ([226;177;174], [201;177]);
     ([226;177;175], [201;144]); ([226;177;176], [201;146]); ([226;177;190], [200;191]); ([226;177;191], [201;128]);
     ([234;158;141], [201;165]); ([234;158;170], [201;166]); ([234;158;171], [201;156]); ([234;158;172], [201;161]);
     ([234;158;173], [201;172]); ([234;158;174], [201;170]); ([234;158;176], [202;158]); ([234;158;177], [202;135]);
     ([234;158;178], [202;157]); ([234;159;133], [202;130]); ([234;159;139], [201;164]); ([234;159;156], [198;155]) ])%nat.

Definition to_ascii_lowercase (c : ascii) : ascii :=
  if ascii_in "A" "Z" c then ascii_of_nat (nat_of_ascii c + 32) else c.

(** [s[n..]] where [n] is known to be the end of a character. *)
Definition drop_bytes (n : nat) (s : string) : string := String.substring n (String.length s - n)%nat s.

Fixpoint lowercase_go (fuel : nat) (s : string) : string :=
  match fuel with
  | O => EmptyString
  | S fuel =>
      match list_find (fun p => String.prefix (fst p) s = true) lowercase_specials with
      | Some (_, (p, l)) => l +:+ lowercase_go fuel (drop_bytes (String.length p) s)
      | None =>
          match s with
          | EmptyString => EmptyString
          | String c s => String (to_ascii_lowercase c) (lowercase_go fuel s)
          end
      end
  end.
Definition to_lowercase (s : string) : string := lowercase_go (String.length s) s.

(** [s.find(p)] *)
Fixpoint find_text (p s : string) : option nat :=
  if starts_with p s then Some 0%nat
  else match s with String _ s => S <$> find_text p s | EmptyString => None end.

(** [s[..n]], [None] where it panics. *)
Definition slice_to (n : nat) (s : string) : option string :=
  _ ← slice_from n s; Some (String.substring 0 n s).

Definition ends_with (p s : string) : bool := starts_with (rev_string p) (rev_string s).

(** [s.strip_suffix(p)] *)
Definition strip_suffix (p s : string) : option string :=
  if ends_with p s then Some (String.substring 0 (String.length s - String.length p) s) else None.

(** [s.trim_start()], [s.trim_end()] *)
Definition trim_start (s : string) : string := strip_prefixes (String.length s) whitespace s.
Definition trim_end (s : string) : string :=
  rev_string (strip_prefixes (String.length s) (rev_string <$> whitespace) (rev_string s)).

(** [s.trim_start_matches(c)], [s.trim_end_matches(c)], [s.trim_matches(c)] *)
Fixpoint trim_start_char (c : ascii) (s : string) : string :=
  match s with String x s' => if Ascii.eqb x c then trim_start_char c s' else s | EmptyString => s end.
Definition trim_end_char (c : ascii) (s : string) : string := rev_string (trim_start_char c (rev_string s)).
Definition trim_char (c : ascii) (s : string) : string := trim_end_char c (trim_start_char c s).

(** [byte as char] in UTF-8 *)
Definition byte_as_char (c : ascii) : string :=
  let n := nat_of_ascii c in
  if (n <? 128)%nat then chr c
  else String (ascii_of_nat (192 + n / 64)) (chr (ascii_of_nat (128 + n mod 64))).

(** [s.find(c)] and the texts before and after the character. *)
Fixpoint split_once (c : ascii) (s : string) : option (string * string) :=
  match s with
  | EmptyString => None
  | String x s => if Ascii.eqb x c then Some (EmptyString, s) else prod_map (String x) id <$> split_once c s
  end.

(** * Errors *)

Inductive DynamicSqlError : Type :=
| ParseError (msg : string)
| StatementNotFound (id : string)
| EvalError (msg : string)
| MissingParam (name : string).

(** [None] is a panic. *)
Definition Try (A : Type) : Type := option (result A DynamicSqlError).
Definition ok {A} (a : A) : Try A := Some (Ok a).
Definition err {A} (e : DynamicSqlError) : Try A := Some (Err e).
Definition sliced {A} (o : option A) : Try A := Ok <$> o.
Definition tbind {A B} (m : Try A) (k : A -> Try B) : Try B :=
  match m with Some (Ok a) => k a | Some (Err e) => Some (Err e) | None => None end.

Declare Scope try_scope.
Delimit Scope try_scope with try.
Notation "'let?' p ':=' m 'in' k" := (tbind m (fun x => match x with p => k end))
  (at level 10, p pattern, m at level 100, k at level 200) : try_scope.
Local Open Scope try_scope.

(** * Parameters *)

Inductive ParamValue : Type :=
| PNull
| PString (s : string)
| PInt (i : Z)
| PFloat (f : spec_float)
| PBool (b : bool)
| PArray (l : list ParamValue).

Definition SqlParams : Type := gmap string ParamValue.

Definition params_new : SqlParams := ∅.
Definition set (name value : string) (p : SqlParams) : SqlParams := <[name := PString value]> p.
Definition set_int (name : string) (value : Z) (p : SqlParams) : SqlParams := <[name := PInt value]> p.
Definition set_float (name : string) (value : spec_float) (p : SqlParams) : SqlParams := <[name := PFloat value]> p.
Definition set_bool (name : string) (value : bool) (p : SqlParams) : SqlParams := <[name := PBool value]> p.
Definition set_null (name : string) (p : SqlParams) : SqlParams := <[name := PNull]> p.
Definition set_array (name : string) (values : list ParamValue) (p : SqlParams) : SqlParams := <[name := PArray values]> p.
Definition get (name : string) (p : SqlParams) : option ParamValue := p !! name.
Definition contains (name : string) (p : SqlParams) : bool := is_some (p !! name).
Definition is_null (name : string) (p : SqlParams) : bool :=
  match p !! name with None | Some PNull => true | Some _ => false end.
Definition is_not_null (name : string) (p : SqlParams) : bool := negb (is_null name p).

(** * Expressions of [test] *)

Definition find_keyword (expr keyword : string) : option nat := find_text keyword (to_lowercase expr).

Definition unquoted (s : string) : string := trim_char dquote (trim_char squote s).

Definition cmps : list (string * (Z -> Z -> bool)) := [(">=", Z.geb); ("<=", Z.leb); (">", Z.gtb); ("<", Z.ltb)].

Fixpoint eval_cmps (cmps : list (string * (Z -> Z -> bool))) (expr : string) (params : SqlParams) : Try bool :=
  match cmps with
  | [] => err (EvalError ("无法解析表达式: " +:+ expr))
  | (op, cmp) :: cmps =>
      match find_text op expr with
      | Some idx =>
          let left := trim (String.substring 0 idx expr) in
          let right_str := trim (drop_bytes (idx + String.length op) expr) in
          match get left params, parse_int true i64_min i64_max right_str with
          | Some (PInt a), Some b => ok (cmp a b)
          | _, _ => ok false
          end
      | None => eval_cmps cmps expr params
      end
  end.

(** The forms without [and] and [or], on a trimmed expression. *)
Definition eval_atom (expr : string) (params : SqlParams) : Try bool :=
  match strip_suffix "!= null" expr with
  | Some stripped => ok (is_not_null (trim stripped) params)
  | None =>
  match strip_suffix "== null" expr with
  | Some stripped => ok (is_null (trim stripped) params)
  | None =>
  match find_text "==" expr with
  | Some idx =>
      let left := trim (String.substring 0 idx expr) in
      let expected := unquoted (trim (drop_bytes (idx + 2) expr)) in
      ok match get left params with Some (PString s) => String.eqb s expected | _ => false end
  | None =>
  match find_text "!=" expr with
  | Some idx =>
      let left := trim (String.substring 0 idx expr) in
      let expected := unquoted (trim (drop_bytes (idx + 2) expr)) in
      ok match get left params with Some (PString s) => negb (String.eqb s expected) | _ => true end
  | None => eval_cmps cmps expr params
  end end end end.

(** [fuel] bounds the nesting; more than the length of the expression is enough
    ([eval_test_enough]). *)
Fixpoint eval_test_go (fuel : nat) (expr : string) (params : SqlParams) : Try bool :=
  match fuel with
  | O => None
  | S fuel =>
      let expr := trim expr in
      match find_keyword expr " or " with
      | Some idx =>
          let? lhs := sliced (slice_to idx expr) in let? rhs := sliced (slice_from (idx + 4) expr) in
          let? l := eval_test_go fuel lhs params in
          if l then ok true else eval_test_go fuel rhs params
      | None =>
      match find_keyword expr " and " with
      | Some idx =>
          let? lhs := sliced (slice_to idx expr) in let? rhs := sliced (slice_from (idx + 5) expr) in
          let? l := eval_test_go fuel lhs params in
          if l then eval_test_go fuel rhs params else ok false
      | None => eval_atom expr params
      end end
  end.
Definition eval_test (expr : string) (params : SqlParams) : Try bool := eval_test_go (S (String.length expr)) expr params.

Definition two_names : SqlParams := set "name" "Alice" (set_int "age" 18 params_new).

Example eval_tests :
  (fun e => eval_test e two_names) <$>
    [" name != null and age >= 18 "; "x != null OR age < 18"; "name == 'Alice'"; "name != null or zz"; "zz"; "age > a"; "x == null"]
  = [ok true; ok false; ok true; ok true; err (EvalError "无法解析表达式: zz"); ok false; ok true].
Proof. vm_compute. reflexivity. Qed.

(** A string with the keyword in it is cut in two. *)
Example eval_cut : eval_test "name == 'this or that'" (set "name" "this or that" params_new) = err (EvalError "无法解析表达式: that'").
Proof. vm_compute. reflexivity. Qed.

(** * Templates *)

Inductive XmlNodeType : Type :=
| Text (text : string)
| Element (name : string) (attrs : gmap string string).

Inductive XmlNode : Type := mkXmlNode (node_type : XmlNodeType) (children : list XmlNode).

(** [BuildContext], whose parameters are an argument of the functions. *)
Record BuildContext : Type := mkContext { buffer : string; binds : list ParamValue }.
Definition context_new : BuildContext := mkContext "" [].
Definition push_str (s : string) (ctx : BuildContext) : BuildContext := mkContext (buffer ctx +:+ s) (binds ctx).
Definition extend_binds (l : list ParamValue) (ctx : BuildContext) : BuildContext := mkContext (buffer ctx) (binds ctx ++ l)%list.

Section Build.
Context `{FloatText}.

(** ** Text *)

Definition escape_sql_char (c : ascii) : string :=
  if Ascii.eqb c squote then "''"
  else if Ascii.eqb c backslash then "\\"
  else if Ascii.eqb c "010" then "\n"
  else if Ascii.eqb c "013" then "\r"
  else if Ascii.eqb c "000" then "\0"
  else chr c.
Definition escape_sql_string (s : string) : string := concat_map escape_sql_char s.

Definition param_to_string (v : ParamValue) : string :=
  match v with
  | PNull => "NULL"
  | PString s => escape_sql_string s
  | PInt i => pretty i
  | PFloat f => f64_to_string f
  | PBool b => if b then "TRUE" else "FALSE"
  | PArray _ => "[]"
  end.

(** The text behind [#{] ([true]) or [${] at the head of a text. *)
Definition opener (text : string) : option (bool * string) :=
  if starts_with "#{" text then Some (true, drop_bytes 2 text)
  else if starts_with "${" text then Some (false, drop_bytes 2 text)
  else None.

(** [fuel] bounds the bytes that are read; the length of the text is enough
    ([append_text_enough]). *)
Fixpoint append_text_go (fuel : nat) (params : SqlParams) (text : string) (ctx : BuildContext) : Try BuildContext :=
  match fuel, text with
  | S fuel, String c rest =>
      match opener text with
      | Some (binding, rest) =>
          match split_once "}" rest with
          | None => err (ParseError ((if binding then "未闭合的 #{}: " else "未闭合的 ${}: ") +:+ text))
          | Some (name, rest) =>
              match get name params with
              | None => err (MissingParam name)
              | Some value =>
                  append_text_go fuel params rest
                    (if binding then extend_binds [value] (push_str "?" ctx) else push_str (param_to_string value) ctx)
              end
          end
      | None => append_text_go fuel params rest (push_str (byte_as_char c) ctx)
      end
  | _, _ => ok ctx
  end.
Definition append_text (params : SqlParams) (text : string) (ctx : BuildContext) : Try BuildContext :=
  append_text_go (String.length text) params text ctx.

(** ** Tags *)

(** [for child in children { .. }] *)
Fixpoint build_list (build : XmlNode -> BuildContext -> Try BuildContext) (children : list XmlNode) (ctx : BuildContext) : Try BuildContext :=
  match children with
  | [] => ok ctx
  | child :: children => let? ctx := build child ctx in build_list build children ctx
  end.

Definition attr_or (name default_ : string) (attrs : gmap string string) : string := default default_ (attrs !! name).

Definition strip_leading_and_or (s : string) : string :=
  let trimmed := trim_start s in
  let lower := to_lowercase trimmed in
  if starts_with "and " lower then trim_start (drop_bytes 4 trimmed)
  else if starts_with "or " lower then trim_start (drop_bytes 3 trimmed)
  else trimmed.

Definition build_where (build : BuildContext -> Try BuildContext) (ctx : BuildContext) : Try BuildContext :=
  let? sub_ctx := build context_new in
  let content := trim (buffer sub_ctx) in
  if String.eqb content "" then ok ctx
  else ok (extend_binds (binds sub_ctx) (push_str (trim (strip_leading_and_or content)) (push_str " WHERE " ctx))).

Fixpoint normalize_go (fuel : nat) (s : string) : string :=
  match fuel, s with
  | S fuel, String c s =>
      if Ascii.eqb c "," then ", " +:+ normalize_go fuel (trim_start s) else String c (normalize_go fuel s)
  | _, _ => EmptyString
  end.
Definition normalize_set_commas (s : string) : string := normalize_go (String.length s) s.

Definition build_set (build : BuildContext -> Try BuildContext) (ctx : BuildContext) : Try BuildContext :=
  let? sub_ctx := build context_new in
  let content := trim (buffer sub_ctx) in
  if String.eqb content "" then ok ctx
  else
    let cleaned := trim (trim_end_char "," content) in
    ok (extend_binds (binds sub_ctx) (push_str (normalize_set_commas cleaned) (push_str " SET " ctx))).

(** The item of one turn of a loop; an array leaves the item of the turn before. *)
Definition set_item (item : string) (v : ParamValue) (p : SqlParams) : SqlParams :=
  match v with
  | PString s => set item s p
  | PInt i => set_int item i p
  | PFloat f => set_float item f p
  | PBool b => set_bool item b p
  | PNull => set_null item p
  | PArray _ => p
  end.

(** The turns: the parts and the binds they add. *)
Fixpoint foreach_loop (build : SqlParams -> BuildContext -> Try BuildContext) (item : string) (arr : list ParamValue)
    (sub_params : SqlParams) (parts : list string) (bs : list ParamValue) : Try (list string * list ParamValue) :=
  match arr with
  | [] => ok (parts, bs)
  | v :: arr =>
      let sub_params := set_item item v sub_params in
      let? sub_ctx := build sub_params context_new in
      foreach_loop build item arr sub_params (parts ++ [trim (buffer sub_ctx)]) (bs ++ binds sub_ctx)
  end%list.

Definition build_foreach (build : SqlParams -> BuildContext -> Try BuildContext) (attrs : gmap string string)
    (params : SqlParams) (ctx : BuildContext) : Try BuildContext :=
  match attrs !! "collection" with
  | None => err (ParseError "<foreach> 缺少 collection 属性")
  | Some collection =>
      let item := attr_or "item" "item" attrs in
      let separator := attr_or "separator" "," attrs in
      let open := attr_or "open" "" attrs in
      let close := attr_or "close" "" attrs in
      match get collection params with
      | Some (PArray arr) =>
          let? (parts, bs) := foreach_loop build item arr params [] [] in
          let ctx := extend_binds bs ctx in
          ok (if is_nil parts then ctx else push_str (" " +:+ open +:+ join separator parts +:+ close) ctx)
      | _ => ok ctx
      end
  end.

(** The first of the alternatives at the head (at the end) of the text is cut off. *)
Fixpoint override_prefix (ovs : list string) (content : string) : string :=
  match ovs with
  | [] => content
  | ov :: ovs =>
      if starts_with ov content then trim_start (drop_bytes (String.length ov) content) else override_prefix ovs content
  end.

Fixpoint override_suffix (ovs : list string) (content : string) : string :=
  match ovs with
  | [] => content
  | ov :: ovs =>
      match strip_suffix ov content with Some content => trim_end content | None => override_suffix ovs content end
  end.

Definition build_trim (build : BuildContext -> Try BuildContext) (attrs : gmap string string) (ctx : BuildContext) : Try BuildContext :=
  let prefix := attr_or "prefix" "" attrs in
  let suffix := attr_or "suffix" "" attrs in
  let prefix_overrides := attr_or "prefixOverrides" "" attrs in
  let suffix_overrides := attr_or "suffixOverrides" "" attrs in
  let? sub_ctx := build context_new in
  let content := trim (buffer sub_ctx) in
  let content := if String.eqb prefix_overrides "" then content else override_prefix (split_char "|" prefix_overrides) content in
  let content := if String.eqb suffix_overrides "" then content else override_suffix (split_char "|" suffix_overrides) content in
  if String.eqb content "" then ok ctx
  else
    ok (extend_binds (binds sub_ctx)
      (push_str (" " +:+ (if String.eqb prefix "" then "" else prefix +:+ " ") +:+ content
                 +:+ (if String.eqb suffix "" then "" else " " +:+ suffix)) ctx)).

Fixpoint build_choose (build : XmlNode -> BuildContext -> Try BuildContext) (params : SqlParams) (children : list XmlNode)
    (ctx : BuildContext) : Try BuildContext :=
  match children with
  | [] => ok ctx
  | mkXmlNode (Element name attrs) cs :: children =>
      if String.eqb name "when" then
        match attrs !! "test" with
        | None => err (ParseError "<when> 缺少 test 属性")
        | Some test =>
            let? b := eval_test test params in
            if b then build_list build cs ctx else build_choose build params children ctx
        end
      else if String.eqb name "otherwise" then build_list build cs ctx
      else build_choose build params children ctx
  | mkXmlNode (Text _) _ :: children => build_choose build params children ctx
  end.

Definition build_if (build : BuildContext -> Try BuildContext) (attrs : gmap string string) (params : SqlParams)
    (ctx : BuildContext) : Try BuildContext :=
  match attrs !! "test" with
  | None => err (ParseError "<if> 缺少 test 属性")
  | Some test => let? b := eval_test test params in if b then build ctx else ok ctx
  end.

(** The tags that are not named here, [select], [insert], [update] and [delete] among them,
    stand for their children. *)
Fixpoint build_node (params : SqlParams) (node : XmlNode) (ctx : BuildContext) {struct node} : Try BuildContext :=
  match node with
  | mkXmlNode (Text text) _ => append_text params text ctx
  | mkXmlNode (Element name attrs) children =>
      let build := build_list (build_node params) children in
      if String.eqb name "if" then build_if build attrs params ctx
      else if String.eqb name "where" then build_where build ctx
      else if String.eqb name "set" then build_set build ctx
      else if String.eqb name "foreach" then build_foreach (fun params => build_list (build_node params) children) attrs params ctx
      else if String.eqb name "choose" then build_choose (build_node params) params children ctx
      else if String.eqb name "trim" then build_trim build attrs ctx
      else build ctx
  end.

(** ** Statements *)

Definition DynamicSqlParser : Type := gmap string XmlNode.

Fixpoint cleanup_go (fuel : nat) (prev_space : bool) (s : string) : string :=
  match fuel, s with
  | S fuel, String c rest =>
      match list_find (fun p => String.prefix p s = true) whitespace with
      | Some (_, p) => (if prev_space then "" else " ") +:+ cleanup_go fuel true (drop_bytes (String.length p) s)
      | None => String c (cleanup_go fuel false rest)
      end
  | _, _ => EmptyString
  end.
Definition cleanup_sql (sql : string) : string := trim (cleanup_go (String.length sql) false sql).

Definition build_with_binds (id : string) (params : SqlParams) (statements : DynamicSqlParser) : Try (string * list ParamValue) :=
  match statements !! id with
  | None => err (StatementNotFound id)
  | Some node => let? ctx := build_node params node context_new in ok (cleanup_sql (buffer ctx), binds ctx)
  end.

Definition build (id : string) (params : SqlParams) (statements : DynamicSqlParser) : Try string :=
  match statements !! id with
  | None => err (StatementNotFound id)
  | Some node => let? ctx := build_node params node context_new in ok (cleanup_sql (buffer ctx))
  end.

Definition statement_ids (statements : DynamicSqlParser) : list string := sorted_keys statements.
End Build.
