(* ===== verification/DynamicFacts.v ===== *)
(** What [DynamicSql.v] promises: the placeholders of a built statement and the values that are
    bound to them, what the text of a statement depends on, and that the fuel of the functions
    is enough. *)

From Stdlib Require Import Ascii String.
From S2P Require Import Prelude SqlText Dialect Value DynamicSql.
Local Open Scope string_scope.
Local Open Scope try_scope.
#[local] Arguments String.append !_ _ : simpl nomatch.

(** * Facts about the strings *)

Lemma prefix_drop (p s : string) : starts_with p s = true -> s = p +:+ drop_bytes (String.length p) s.
Proof.
  unfold starts_with, drop_bytes. revert s. induction p as [|c p IH]; intros s Hp.
  - cbn. rewrite Nat.sub_0_r. by rewrite substring_all.
  - destruct s as [|d s]; [done|]. cbn in Hp. destruct (ascii_dec c d) as [<-|]; [|done]. cbn. f_equal. by apply IH.
Qed.

Lemma drop_app (p s : string) : drop_bytes (String.length p) (p +:+ s) = s.
Proof.
  unfold drop_bytes. induction p as [|c p IH]; [cbn; rewrite Nat.sub_0_r; apply substring_all|]. cbn. apply IH.
Qed.

Lemma starts_app (p s : string) : starts_with p (p +:+ s) = true.
Proof. apply prefix_app. Qed.

Lemma rev_string_app (a b : string) : rev_string (a +:+ b) = rev_string b +:+ rev_string a.
Proof.
  unfold rev_string.
  assert (Hl : forall a b : string, String.list_ascii_of_string (a +:+ b) = (String.list_ascii_of_string a ++ String.list_ascii_of_string b)%list).
  { induction a0 as [|c a0 IH]; intros b0; [done|]. cbn. by rewrite IH. }
  assert (Hr : forall l k, String.string_of_list_ascii (l ++ k)%list = String.string_of_list_ascii l +:+ String.string_of_list_ascii k).
  { induction l as [|c l IH]; intros k; [done|]. cbn. by rewrite IH. }
  by rewrite Hl, rev_app_distr, Hr.
Qed.

Lemma rev_string_twice (s : string) : rev_string (rev_string s) = s.
Proof. unfold rev_string. by rewrite String.list_ascii_of_string_of_list_ascii, rev_involutive, String.string_of_list_ascii_of_string. Qed.

(** The end of a text, from the beginning of its reverse. *)
Lemma suffix_cut (p s : string) : ends_with p s = true -> exists r, s = r +:+ p /\ strip_suffix p s = Some r.
Proof.
  intros He. pose proof He as Hs. unfold ends_with in Hs. apply prefix_drop in Hs. apply (f_equal rev_string) in Hs.
  rewrite rev_string_app, !rev_string_twice in Hs. eexists. split; [exact Hs|]. unfold strip_suffix. rewrite He. f_equal.
  rewrite Hs at 1 2. rewrite str_app_length, Nat.add_sub. generalize (rev_string (drop_bytes (String.length (rev_string p)) (rev_string s))).
  intros r. induction r as [|c r IH]; [by destruct p|]. cbn. by rewrite IH.
Qed.

Lemma split_once_spec c s : match split_once c s with
  | Some (a, b) => s = a +:+ String c b /\ contains_char c a = false
  | None => contains_char c s = false
  end.
Proof.
  induction s as [|x s IH]; [done|]. cbn. destruct (Ascii.eqb x c) eqn:Hx.
  - apply Ascii.eqb_eq in Hx as ->. done.
  - destruct (split_once c s) as [[a b]|]; cbn; [|done]. destruct IH as [-> Ha]. by rewrite Hx.
Qed.

Lemma strip_prefixes_suffix fuel ps s : exists p, s = p +:+ strip_prefixes fuel ps s.
Proof.
  revert s. induction fuel as [|fuel IH]; intros s; [by exists ""|]. cbn. destruct (list_find _ ps) as [[i p]|] eqn:Hf; [|by exists ""].
  apply list_find_Some in Hf as (_ & Hp & _). apply prefix_drop in Hp. destruct (IH (drop_bytes (String.length p) s)) as [q Hq].
  exists (p +:+ q). rewrite str_app_assoc. unfold drop_bytes in *. by rewrite <- Hq.
Qed.

Lemma trim_start_length s : (String.length (trim_start s) <= String.length s)%nat.
Proof.
  unfold trim_start. destruct (strip_prefixes_suffix (String.length s) whitespace s) as [p Hp].
  apply (f_equal String.length) in Hp. rewrite str_app_length in Hp. lia.
Qed.

(** ** Weighed texts *)

Section Removal.
(** Bytes are weighed; what the operations cut off or put in weighs nothing. *)
Variable weight : ascii -> nat.

Fixpoint weigh (s : string) : nat := match s with String c s => weight c + weigh s | EmptyString => 0%nat end%nat.

Lemma weigh_app a b : weigh (a +:+ b) = (weigh a + weigh b)%nat.
Proof. induction a as [|c a IH]; [done|]. cbn. rewrite IH. lia. Qed.

Lemma weigh_rev s : weigh (rev_string s) = weigh s.
Proof.
  induction s as [|c s IH]; [done|]. change (String c s) with (chr c +:+ s). rewrite rev_string_app, !weigh_app, IH. cbn. lia.
Qed.

Lemma weigh_strip fuel ps s : Forall (fun p => weigh p = 0%nat) ps -> weigh (strip_prefixes fuel ps s) = weigh s.
Proof.
  intros Hps. revert s. induction fuel as [|fuel IH]; intros s; [done|]. cbn. destruct (list_find _ ps) as [[i p]|] eqn:Hf; [|done].
  apply list_find_Some in Hf as (Hi & Hp & _). rewrite IH. apply prefix_drop, (f_equal weigh) in Hp. rewrite weigh_app in Hp.
  by rewrite (Forall_lookup_1 _ _ _ _ Hps Hi) in Hp.
Qed.

Hypothesis whitespace_light : Forall (fun p => weigh p = 0%nat) whitespace.

Lemma whitespace_light_rev : Forall (fun p => weigh p = 0%nat) (rev_string <$> whitespace).
Proof. apply Forall_fmap. eapply Forall_impl; [exact whitespace_light|]. intros p Hp. cbn. by rewrite weigh_rev. Qed.

Lemma weigh_trim_start s : weigh (trim_start s) = weigh s.
Proof. by apply weigh_strip. Qed.

Lemma weigh_trim_end s : weigh (trim_end s) = weigh s.
Proof. unfold trim_end. rewrite weigh_rev, weigh_strip, weigh_rev; [done|]. apply whitespace_light_rev. Qed.

Lemma weigh_trim s : weigh (trim s) = weigh s.
Proof. unfold trim. rewrite weigh_rev, weigh_strip, weigh_rev; [by apply weigh_strip|]. apply whitespace_light_rev. Qed.

Lemma weigh_trim_char c s : weight c = 0%nat -> weigh (trim_start_char c s) = weigh s.
Proof. intros Hc. induction s as [|x s IH]; [done|]. cbn. destruct (Ascii.eqb_spec x c) as [->|]; [|done]. by rewrite IH, Hc. Qed.

Lemma weigh_trim_end_char c s : weight c = 0%nat -> weigh (trim_end_char c s) = weigh s.
Proof. intros Hc. unfold trim_end_char. by rewrite weigh_rev, weigh_trim_char, weigh_rev. Qed.

Lemma weigh_drop p s : starts_with p s = true -> weigh p = 0%nat -> weigh (drop_bytes (String.length p) s) = weigh s.
Proof. intros Hp%prefix_drop Hw. apply (f_equal weigh) in Hp. by rewrite weigh_app, Hw in Hp. Qed.

Lemma weigh_override_prefix ovs s : Forall (fun p => weigh p = 0%nat) ovs -> weigh (override_prefix ovs s) = weigh s.
Proof.
  induction 1 as [|ov ovs Hov Hovs IH]; [done|]. cbn. destruct (starts_with ov s) eqn:Hs; [|done].
  rewrite weigh_trim_start. by apply weigh_drop.
Qed.

Lemma weigh_override_suffix ovs s : Forall (fun p => weigh p = 0%nat) ovs -> weigh (override_suffix ovs s) = weigh s.
Proof.
  induction 1 as [|ov ovs Hov Hovs IH]; [done|]. cbn. destruct (strip_suffix ov s) as [r|] eqn:Hs; [|done]. rewrite weigh_trim_end.
  assert (He : ends_with ov s = true) by (unfold strip_suffix in Hs; by destruct (ends_with ov s)).
  destruct (suffix_cut ov s He) as (r' & -> & Hr'). rewrite Hr' in Hs. injection Hs as ->. rewrite weigh_app, Hov. lia.
Qed.

Lemma weigh_split c s : weigh s = 0%nat -> Forall (fun p => weigh p = 0%nat) (split_char c s).
Proof.
  induction s as [|x s IH]; intros Hs; [by repeat constructor|]. cbn in Hs |- *. destruct (Ascii.eqb x c); [constructor; [done|apply IH; lia]|].
  specialize (IH ltac:(lia)). destruct (split_char c s) as [|p ps]; [repeat constructor; cbn; lia|].
  inversion IH; subst. constructor; [cbn; lia|done].
Qed.

Lemma weigh_normalize s : weight "," = 0%nat -> weight " " = 0%nat -> weigh (normalize_set_commas s) = weigh s.
Proof.
  intros Hc Hsp. unfold normalize_set_commas. remember (String.length s) as n eqn:Hn. assert (Hl : (String.length s <= n)%nat) by lia. clear Hn.
  revert s Hl. induction n as [|n IH]; intros s Hl; [destruct s; [done|cbn in Hl; lia]|]. destruct s as [|c s]; [done|]. cbn [normalize_go]. cbn in Hl.
  destruct (Ascii.eqb_spec c ",") as [->|]; [|cbn [weigh]; rewrite IH by lia; done].
  rewrite weigh_app, IH, weigh_trim_start by (pose proof (trim_start_length s); lia). cbn [weigh]. by rewrite Hc, Hsp.
Qed.
End Removal.

(** * What a template adds *)

Section Facts.
Context `{FloatText}.
Implicit Types (ctx : BuildContext) (params : SqlParams).

(** The fragment [f] behind what is there already. *)
Definition onto ctx (f : BuildContext) : BuildContext := mkContext (buffer ctx +:+ buffer f) (binds ctx ++ binds f)%list.

(** A step only adds to its context, and what it adds does not depend on it. *)
Definition frames (m : BuildContext -> Try BuildContext) : Prop :=
  forall ctx, m ctx = let? f := m context_new in ok (onto ctx f).

Lemma onto_new f : onto context_new f = f.
Proof. by destruct f. Qed.

Lemma onto_empty ctx : onto ctx context_new = ctx.
Proof. destruct ctx. unfold onto. cbn. by rewrite str_app_nil_r, app_nil_r. Qed.

Lemma onto_assoc ctx f g : onto (onto ctx f) g = onto ctx (onto f g).
Proof. unfold onto. cbn. by rewrite str_app_assoc, <- app_assoc. Qed.

Lemma push_onto s ctx f : push_str s (onto ctx f) = onto ctx (push_str s f).
Proof. unfold onto, push_str. cbn. by rewrite str_app_assoc. Qed.

Lemma extend_onto l ctx f : extend_binds l (onto ctx f) = onto ctx (extend_binds l f).
Proof. unfold onto, extend_binds. cbn. by rewrite <- app_assoc. Qed.

(** A nested induction over templates. *)
Lemma XmlNode_nested_ind (P : XmlNode -> Prop) :
  (forall text cs, P (mkXmlNode (Text text) cs)) ->
  (forall name attrs cs, Forall P cs -> P (mkXmlNode (Element name attrs) cs)) -> forall node, P node.
Proof.
  intros HT HE. fix IH 1. intros [[text|name attrs] cs]; [apply HT|]. apply HE.
  induction cs as [|c cs IHcs]; constructor; [apply IH|apply IHcs].
Qed.

Lemma append_text_frames fuel params text ctx f :
  append_text_go fuel params text (onto ctx f) = let? g := append_text_go fuel params text f in ok (onto ctx g).
Proof.
  revert text f. induction fuel as [|fuel IH]; intros text f; [done|]. destruct text as [|c rest]; [done|]. cbn [append_text_go].
  destruct (opener _) as [[b r]|]; [|by rewrite push_onto, IH].
  destruct (split_once _ r) as [[name r']|]; [|done]. destruct (get name params) as [v|]; [|done].
  destruct b; by rewrite push_onto, ?extend_onto, IH.
Qed.

Lemma frames_intro (m : BuildContext -> Try BuildContext) :
  (forall ctx f, m (onto ctx f) = let? g := m f in ok (onto ctx g)) -> frames m.
Proof. intros Hm ctx. by rewrite <- (onto_empty ctx) at 1. Qed.

Lemma frames_elim m ctx f : frames m -> m (onto ctx f) = let? g := m f in ok (onto ctx g).
Proof.
  intros Hm. rewrite (Hm (onto ctx f)), (Hm f). destruct (m context_new) as [[g|e]|]; cbn; [by rewrite onto_assoc|done|done].
Qed.

Lemma build_list_frames build cs : Forall (fun c => frames (build c)) cs -> frames (build_list build cs).
Proof.
  intros Hcs. apply frames_intro. intros ctx. induction Hcs as [|c cs Hc Hcs IH]; intros f; [done|]. cbn [build_list].
  rewrite (frames_elim _ _ _ Hc). destruct (build c f) as [[g|e]|]; cbn; [apply IH|done|done].
Qed.

Lemma build_where_frames build : frames (build_where build).
Proof.
  intros ctx. unfold build_where. destruct (build context_new) as [[sub|e]|]; cbn; [|done|done].
  destruct (String.eqb _ ""); cbn; [by rewrite onto_empty|]. unfold onto, extend_binds, push_str. cbn. by rewrite str_app_assoc.
Qed.

Lemma build_set_frames build : frames (build_set build).
Proof.
  intros ctx. unfold build_set. destruct (build context_new) as [[sub|e]|]; cbn; [|done|done].
  destruct (String.eqb _ ""); cbn; [by rewrite onto_empty|]. unfold onto, extend_binds, push_str. cbn. by rewrite str_app_assoc.
Qed.

Lemma build_trim_frames build attrs : frames (build_trim build attrs).
Proof.
  intros ctx. unfold build_trim. destruct (build context_new) as [[sub|e]|]; cbn; [|done|done].
  destruct (String.eqb _ ""); cbn; [by rewrite onto_empty|done].
Qed.

Lemma build_foreach_frames build attrs params : frames (build_foreach build attrs params).
Proof.
  intros ctx. unfold build_foreach. destruct (attrs !! "collection"); [|done].
  destruct (get _ params) as [[| | | | |l]|]; cbn; try by rewrite onto_empty.
  destruct (foreach_loop build (attr_or "item" "item" attrs) l params [] []) as [[[parts bs]|e]|]; cbn; [|done|done].
  destruct parts; cbn; [|done]. unfold onto, extend_binds. cbn. by rewrite str_app_nil_r.
Qed.

Lemma build_if_frames build attrs params : frames build -> frames (build_if build attrs params).
Proof.
  intros Hb ctx. unfold build_if. destruct (attrs !! "test"); [|done]. destruct (eval_test _ params) as [[[]|e]|]; cbn; [apply Hb| |done|done].
  by rewrite onto_empty.
Qed.

(** A branch of [choose] that is taken is built like a tag that stands for its children. *)
Lemma build_branch params name attrs cs ctx : name = "when" \/ name = "otherwise" ->
  build_list (build_node params) cs ctx = build_node params (mkXmlNode (Element name attrs) cs) ctx.
Proof. by intros [->| ->]. Qed.

(** What [choose] does, as the choice of a child. *)
Fixpoint chosen params (children : list XmlNode) : Try (option XmlNode) :=
  match children with
  | [] => ok None
  | mkXmlNode (Element name attrs) cs :: children =>
      if String.eqb name "when" then
        match attrs !! "test" with
        | None => err (ParseError "<when> 缺少 test 属性")
        | Some test =>
            let? b := eval_test test params in
            if b then ok (Some (mkXmlNode (Element name attrs) cs)) else chosen params children
        end
      else if String.eqb name "otherwise" then ok (Some (mkXmlNode (Element name attrs) cs))
      else chosen params children
  | mkXmlNode (Text _) _ :: children => chosen params children
  end.

Lemma build_choose_chosen params cs ctx :
  build_choose (build_node params) params cs ctx =
  let? o := chosen params cs in match o with Some c => build_node params c ctx | None => ok ctx end.
Proof.
  induction cs as [|[[text|name attrs] gs] cs IH]; [done|exact IH|]. cbn [build_choose chosen].
  destruct (String.eqb_spec name "when") as [->|].
  { destruct (attrs !! "test") as [test|]; [|done]. destruct (eval_test test params) as [[[]|e]|]; cbn [tbind]; [|exact IH|done|done]. done. }
  destruct (String.eqb_spec name "otherwise") as [->|]; [done|exact IH].
Qed.

Lemma chosen_in params cs c : chosen params cs = ok (Some c) -> c ∈ cs.
Proof.
  induction cs as [|[[text|name attrs] gs] cs IH]; cbn [chosen]; [done|intros Hc; right; by apply IH|].
  destruct (String.eqb name "when").
  { destruct (attrs !! "test") as [test|]; [|done]. destruct (eval_test test params) as [[[]|e]|]; cbn; [intros [= <-]; by left|intros Hc; right; by apply IH|done|done]. }
  destruct (String.eqb name "otherwise"); [intros [= <-]; by left|intros Hc; right; by apply IH].
Qed.

Lemma build_choose_frames params cs : Forall (fun c => frames (build_node params c)) cs -> frames (build_choose (build_node params) params cs).
Proof.
  intros Hcs ctx. rewrite !build_choose_chosen. destruct (chosen params cs) as [[[c|]|e]|] eqn:Hc; cbn; [|by rewrite onto_empty|done|done].
  rewrite Forall_forall in Hcs. by apply Hcs, (chosen_in params).
Qed.

Lemma build_node_frames params node : frames (build_node params node).
Proof.
  revert params. induction node as [text cs|name attrs cs IH] using XmlNode_nested_ind; intros params.
  { apply frames_intro. intros ctx f. apply append_text_frames. }
  assert (Hcs : forall p, Forall (fun c => frames (build_node p c)) cs) by (intros p; eapply Forall_impl; [exact IH|auto]).
  pose proof (fun p => build_list_frames (build_node p) cs (Hcs p)) as Hl. cbn [build_node].
  destruct (String.eqb name "if"); [by apply build_if_frames|]. destruct (String.eqb name "where"); [apply build_where_frames|].
  destruct (String.eqb name "set"); [apply build_set_frames|]. destruct (String.eqb name "foreach"); [apply build_foreach_frames|].
  destruct (String.eqb name "choose"); [by apply build_choose_frames|]. destruct (String.eqb name "trim"); [apply build_trim_frames|apply Hl].
Qed.

(** * The values that are bound *)

Definition holds (test : string) params : bool := match eval_test test params with Some (Ok b) => b | _ => false end.

(** The values of the names in [#{..}], in order. *)
Fixpoint text_binds_go (fuel : nat) params (text : string) : list ParamValue :=
  match fuel, text with
  | S fuel, String c rest =>
      match opener text with
      | Some (_, r) =>
          match split_once "}" r with
          | Some (name, r') => (match get name params with Some v => [v] | None => [] end ++ text_binds_go fuel params r')%list
          | None => []
          end
      | None => text_binds_go fuel params rest
      end
  | _, _ => []
  end.
Definition text_binds params (text : string) : list ParamValue := text_binds_go (String.length text) params text.

Fixpoint foreach_binds (go : SqlParams -> list ParamValue) (item : string) (arr : list ParamValue) params : list ParamValue :=
  match arr with
  | [] => []
  | v :: arr => let params := set_item item v params in (go params ++ foreach_binds go item arr params)%list
  end.

Fixpoint choose_binds (go : XmlNode -> list ParamValue) params (children : list XmlNode) : list ParamValue :=
  match children with
  | [] => []
  | c :: children =>
      match c with
      | mkXmlNode (Element name attrs) _ =>
          if String.eqb name "when" then
            if match attrs !! "test" with Some test => holds test params | None => false end then go c
            else choose_binds go params children
          else if String.eqb name "otherwise" then go c
          else choose_binds go params children
      | mkXmlNode (Text _) _ => choose_binds go params children
      end
  end.

(** The values bound in a template, in the order of the document: those of its texts, without the
    branches that are not taken, a loop once for every element. *)
Fixpoint node_binds params (node : XmlNode) {struct node} : list ParamValue :=
  match node with
  | mkXmlNode (Text text) _ => text_binds params text
  | mkXmlNode (Element name attrs) children =>
      let go params := concat (node_binds params <$> children) in
      if String.eqb name "if" then
        if match attrs !! "test" with Some test => holds test params | None => false end then go params else []
      else if String.eqb name "foreach" then
        match get (attr_or "collection" "" attrs) params with
        | Some (PArray arr) => foreach_binds go (attr_or "item" "item" attrs) arr params
        | _ => []
        end
      else if String.eqb name "choose" then choose_binds (node_binds params) params children
      else go params
  end.

(** Texts without [${] and question marks; attributes, other than tests, without question marks. *)
Definition plain_text (text : string) : bool := negb (contains_text "${" text) && negb (contains_char "?" text).
Definition quiet_attr (kv : string * string) : bool := String.eqb kv.1 "test" || negb (contains_char "?" kv.2).

Fixpoint bind_only (node : XmlNode) : bool :=
  match node with
  | mkXmlNode (Text text) _ => plain_text text
  | mkXmlNode (Element _ attrs) children => forallb quiet_attr (map_to_list attrs) && forallb bind_only children
  end.

Definition marks : string -> nat := weigh (fun c => if Ascii.eqb c "?" then 1%nat else 0%nat).

Lemma marks_app a b : marks (a +:+ b) = (marks a + marks b)%nat.
Proof. apply weigh_app. Qed.

Lemma marks_none s : contains_char "?" s = false -> marks s = 0%nat.
Proof.
  unfold marks. induction s as [|c s IH]; [done|]. cbn [contains_char weigh]. intros [Hc Hs]%orb_false_iff. by rewrite Hc, IH.
Qed.

Lemma marks_whitespace : Forall (fun p => marks p = 0%nat) whitespace.
Proof. repeat constructor. Qed.

Lemma marks_trim s : marks (trim s) = marks s.
Proof. apply weigh_trim, marks_whitespace. Qed.

Lemma marks_trim_start s : marks (trim_start s) = marks s.
Proof. apply weigh_trim_start, marks_whitespace. Qed.

Lemma marks_trim_end_comma s : marks (trim_end_char "," s) = marks s.
Proof. by apply weigh_trim_end_char. Qed.

Lemma marks_normalize s : marks (normalize_set_commas s) = marks s.
Proof. apply weigh_normalize; [apply marks_whitespace|done|done]. Qed.

Lemma marks_override_prefix ovs s : marks ovs = 0%nat -> marks (override_prefix (split_char "|" ovs) s) = marks s.
Proof. intros Ho. apply weigh_override_prefix; [apply marks_whitespace|by apply weigh_split]. Qed.

Lemma marks_override_suffix ovs s : marks ovs = 0%nat -> marks (override_suffix (split_char "|" ovs) s) = marks s.
Proof. intros Ho. apply weigh_override_suffix; [apply marks_whitespace|by apply weigh_split]. Qed.

Lemma marks_byte c : Ascii.eqb c "?" = false -> marks (byte_as_char c) = 0%nat.
Proof. destruct c as [[] [] [] [] [] [] [] []]; done. Qed.

(** The fragment has as many question marks as values, and these values. *)
Definition binds_exactly (f : BuildContext) (bs : list ParamValue) : Prop := marks (buffer f) = length (binds f) /\ binds f = bs.

Lemma binds_onto ctx f bs1 bs2 : binds_exactly ctx bs1 -> binds_exactly f bs2 -> binds_exactly (onto ctx f) (bs1 ++ bs2)%list.
Proof. intros [Hm1 <-] [Hm2 <-]. split; [|done]. cbn. by rewrite marks_app, length_app, Hm1, Hm2. Qed.

Lemma contains_text_suffix p a b : contains_text p (a +:+ b) = false -> contains_text p b = false.
Proof. induction a as [|c a IH]; [done|]. cbn [contains_text String.append]. intros [_ Hb]%orb_false_iff. by apply IH. Qed.

Lemma contains_text_here p s : starts_with p s = true -> contains_text p s = true.
Proof. intros Hp. destruct s; cbn [contains_text]; by rewrite Hp. Qed.

Lemma contains_char_suffix c a b : contains_char c (a +:+ b) = false -> contains_char c b = false.
Proof. induction a as [|x a IH]; [done|]. cbn. intros [_ Hb]%orb_false_iff. by apply IH. Qed.

Lemma plain_suffix a b : plain_text (a +:+ b) = true -> plain_text b = true.
Proof.
  unfold plain_text. rewrite !andb_true_iff, !negb_true_iff. intros [Ht Hc]. split; [by apply contains_text_suffix in Ht|by apply contains_char_suffix in Hc].
Qed.

(** Behind an opener in a plain text. *)
Lemma plain_opener text b r : plain_text text = true -> opener text = Some (b, r) -> b = true /\ text = "#{" +:+ r.
Proof.
  intros Hp Ho. unfold opener in Ho. destruct (starts_with "#{" text) eqn:Hh; [injection Ho as <- <-; split; [done|by apply prefix_drop in Hh]|].
  destruct (starts_with "${" text) eqn:Hd; [|done]. unfold plain_text in Hp. by rewrite contains_text_here in Hp.
Qed.

Lemma append_text_binds fuel params text f : plain_text text = true ->
  append_text_go fuel params text context_new = ok f -> binds_exactly f (text_binds_go fuel params text).
Proof.
  revert text f. induction fuel as [|fuel IH]; intros text f Hp.
  { intros [= <-]. done. }
  destruct text as [|c rest]; [by intros [= <-]|]. cbn [append_text_go text_binds_go]. destruct (opener (String c rest)) as [[b r]|] eqn:Ho.
  - destruct (plain_opener _ _ _ Hp Ho) as [-> Htext]. pose proof (split_once_spec "}" r) as Hs. destruct (split_once "}" r) as [[name r']|]; [|done].
    destruct Hs as [-> _]. destruct (get name params) as [v|]; [|done]. intros Ha.
    rewrite <- (onto_empty (extend_binds _ _)), append_text_frames in Ha.
    destruct (append_text_go fuel params r' context_new) as [[g|e]|] eqn:Hg; try done. injection Ha as <-. apply IH in Hg.
    + apply (binds_onto _ _ [v] _); [done|exact Hg].
    + rewrite Htext in Hp. apply plain_suffix in Hp. apply plain_suffix in Hp. by apply (plain_suffix "}").
  - intros Ha. rewrite <- (onto_empty (push_str _ _)), append_text_frames in Ha.
    destruct (append_text_go fuel params rest context_new) as [[g|e]|] eqn:Hg; try done. injection Ha as <-. apply IH in Hg; [|by apply (plain_suffix (chr c))].
    apply (binds_onto _ _ [] _); [|exact Hg]. split; [|done]. cbn. apply marks_byte. unfold plain_text in Hp.
    apply andb_true_iff in Hp as [_ Hp%negb_true_iff]. by apply orb_false_iff in Hp as [Hp _].
Qed.

(** ** The tags *)

Lemma lower_head x p s : Forall (fun pl => starts_with (chr x) pl.2 = false) lowercase_specials ->
  forall fuel, starts_with (String x p) (lowercase_go fuel s) = true ->
  exists fuel' c s', s = String c s' /\ to_ascii_lowercase c = x /\ starts_with p (lowercase_go fuel' s') = true.
Proof.
  intros Hx fuel. destruct fuel as [|fuel]; [done|]. cbn [lowercase_go]. destruct (list_find _ lowercase_specials) as [[i [q l]]|] eqn:Hf.
  - apply list_find_Some in Hf as (Hi & Hq & _). pose proof (Forall_lookup_1 _ _ _ _ Hx Hi) as Hl. cbn [snd fst] in *.
    assert (Hne : l <> ""). { intros ->. assert (Hall : Forall (fun pl => pl.2 <> "") lowercase_specials) by (repeat constructor; discriminate).
      by apply (Forall_lookup_1 _ _ _ _ Hall Hi). }
    destruct l as [|y l]; [done|]. unfold starts_with in *. cbn in Hl |- *. destruct (ascii_dec x y); [|done]. by destruct l.
  - destruct s as [|c s]; [done|]. unfold starts_with. cbn [String.prefix]. destruct (ascii_dec x (to_ascii_lowercase c)) as [->|]; [|done].
    intros Hs. by exists fuel, c, s.
Qed.

Lemma lower_mark c : to_ascii_lowercase c <> "?"%char -> marks (chr c) = 0%nat.
Proof. destruct (Ascii.eqb_spec c "?") as [->|Hc]; [done|]. intros _. unfold marks. cbn. by destruct (Ascii.eqb_spec c "?"). Qed.

(** A word that a text begins with in any case has no question mark. *)
Lemma word_marks fuel w s : starts_with w (lowercase_go fuel s) = true -> contains_char "?" w = false ->
  all_chars (fun x => forallb (fun pl => negb (starts_with (chr x) pl.2)) lowercase_specials) w = true ->
  marks (drop_bytes (String.length w) s) = marks s.
Proof.
  revert fuel s. induction w as [|x w IH]; intros fuel s Hs Hq Hw.
  { unfold drop_bytes. cbn. by rewrite Nat.sub_0_r, substring_all. }
  cbn [all_chars] in Hw. apply andb_true_iff in Hw as [Hx Hw]. cbn [contains_char] in Hq. apply orb_false_iff in Hq as [Hq1 Hq2].
  assert (Hall : Forall (fun pl => starts_with (chr x) pl.2 = false) lowercase_specials).
  { apply Forall_forall. intros pl Hin%list_elem_of_In. rewrite forallb_forall in Hx. apply Hx in Hin. by apply negb_true_iff in Hin. }
  destruct (lower_head _ _ _ Hall _ Hs) as (fuel' & c & s' & -> & Hc & Hr). cbn. change (marks (drop_bytes (String.length w) s') = marks (String c s')).
  rewrite (IH _ _ Hr Hq2 Hw). change (String c s') with (chr c +:+ s'). rewrite marks_app, lower_mark; [done|].
  rewrite Hc. by apply Ascii.eqb_neq.
Qed.

Lemma marks_strip_and_or s : marks (strip_leading_and_or s) = marks s.
Proof.
  unfold strip_leading_and_or, to_lowercase. rewrite <- (marks_trim_start s). set (t := trim_start s).
  destruct (starts_with "and " (lowercase_go (String.length t) t)) eqn:Ha.
  { rewrite marks_trim_start. by apply (word_marks _ "and " t Ha). }
  destruct (starts_with "or " (lowercase_go (String.length t) t)) eqn:Ho; [|done].
  rewrite marks_trim_start. by apply (word_marks _ "or " t Ho).
Qed.

Lemma nothing_bound f bs : binds_exactly f bs -> trim (buffer f) = "" -> bs = [].
Proof. intros [Hm <-] Ht. apply nil_length_inv. by rewrite <- Hm, <- marks_trim, Ht. Qed.

Lemma marks_space s : marks (String " " s) = marks s.
Proof. done. Qed.

(** A fragment of two texts and values. *)
Lemma pushed_binds l a b bs : (marks b + marks a)%nat = length l -> l = bs ->
  binds_exactly (extend_binds l (push_str a (push_str b context_new))) bs.
Proof. intros Hm <-. split; [|done]. cbn [extend_binds buffer push_str binds context_new]. cbn [String.append app]. by rewrite marks_app. Qed.

Lemma build_where_binds build f bs : (forall g, build context_new = ok g -> binds_exactly g bs) ->
  build_where build context_new = ok f -> binds_exactly f bs.
Proof.
  unfold build_where. destruct (build context_new) as [[sub|e]|]; [|done|done]. cbn [tbind]. intros Hb. specialize (Hb sub eq_refl).
  destruct (String.eqb_spec (trim (buffer sub)) "") as [He|_]; intros [= <-].
  - by rewrite (nothing_bound _ _ Hb He).
  - destruct Hb as [Hm Hb]. apply pushed_binds; [|done]. by rewrite marks_trim, marks_strip_and_or, marks_trim.
Qed.

Lemma build_set_binds build f bs : (forall g, build context_new = ok g -> binds_exactly g bs) ->
  build_set build context_new = ok f -> binds_exactly f bs.
Proof.
  unfold build_set. destruct (build context_new) as [[sub|e]|]; [|done|done]. cbn [tbind]. intros Hb. specialize (Hb sub eq_refl).
  destruct (String.eqb_spec (trim (buffer sub)) "") as [He|_]; intros [= <-].
  - by rewrite (nothing_bound _ _ Hb He).
  - destruct Hb as [Hm Hb]. apply pushed_binds; [|done]. by rewrite marks_normalize, marks_trim, marks_trim_end_comma, marks_trim.
Qed.

Lemma quiet_lookup attrs k v : forallb quiet_attr (map_to_list attrs) = true -> attrs !! k = Some v -> k <> "test" -> marks v = 0%nat.
Proof.
  rewrite forallb_forall. intros Hq Hk Hne. apply elem_of_map_to_list, list_elem_of_In, Hq in Hk. unfold quiet_attr in Hk. cbn [fst snd] in Hk.
  destruct (String.eqb_spec k "test"); [done|]. apply marks_none. by apply negb_true_iff in Hk.
Qed.

Lemma quiet_attr_or attrs k d : forallb quiet_attr (map_to_list attrs) = true -> k <> "test" -> marks d = 0%nat -> marks (attr_or k d attrs) = 0%nat.
Proof. intros Hq Hne Hd. unfold attr_or. destruct (attrs !! k) as [v|] eqn:Hk; [by apply (quiet_lookup attrs k)|done]. Qed.

Lemma build_trim_binds build attrs f bs : forallb quiet_attr (map_to_list attrs) = true ->
  (forall g, build context_new = ok g -> binds_exactly g bs) -> build_trim build attrs context_new = ok f -> binds_exactly f bs.
Proof.
  intros Hq. unfold build_trim. destruct (build context_new) as [[sub|e]|]; [|done|done]. cbn [tbind]. intros Hb. specialize (Hb sub eq_refl).
  assert (Ha : forall k, k <> "test" -> marks (attr_or k "" attrs) = 0%nat) by (intros k Hk; by apply quiet_attr_or).
  set (c1 := if String.eqb _ "" then trim (buffer sub) else _). set (c2 := if String.eqb _ "" then c1 else _).
  assert (Hc : marks c2 = marks (buffer sub)).
  { assert (Hc1 : marks c1 = marks (buffer sub)).
    { unfold c1. destruct (String.eqb (attr_or "prefixOverrides" "" attrs) ""); [apply marks_trim|]. rewrite marks_override_prefix by (by apply Ha). apply marks_trim. }
    rewrite <- Hc1. unfold c2. destruct (String.eqb (attr_or "suffixOverrides" "" attrs) ""); [done|]. apply marks_override_suffix. by apply Ha. }
  destruct (String.eqb_spec c2 "") as [He|_]; intros [= <-].
  - destruct Hb as [Hm <-]. rewrite He in Hc. split; [done|]. symmetry. apply nil_length_inv. by rewrite <- Hm, <- Hc.
  - destruct Hb as [Hm Hb]. apply (pushed_binds _ _ "" _); [|done]. rewrite <- Hm, <- Hc. cbn [String.append].
    destruct (String.eqb (attr_or "prefix" "" attrs) ""), (String.eqb (attr_or "suffix" "" attrs) "");
      repeat (rewrite ?marks_app, ?marks_space, ?Ha by done; cbn [String.append]); cbn; lia.
Qed.

Lemma marks_join sep l : marks sep = 0%nat -> marks (join sep l) = sum_list (marks <$> l).
Proof.
  intros Hs. unfold join. induction l as [|x l IH]; [done|]. cbn [String.concat]. destruct l as [|y l]; [cbn; lia|].
  rewrite !marks_app, Hs, IH. done.
Qed.

Lemma foreach_loop_binds build item go arr params parts bs parts' bs' :
  (forall p g, build p context_new = ok g -> binds_exactly g (go p)) ->
  foreach_loop build item arr params parts bs = ok (parts', bs') ->
  exists new, parts' = (parts ++ new)%list /\ length new = length arr /\
    bs' = (bs ++ foreach_binds go item arr params)%list /\ sum_list (marks <$> new) = length (foreach_binds go item arr params).
Proof.
  intros Hb. revert params parts bs. induction arr as [|v arr IH]; intros params parts bs; cbn [foreach_loop foreach_binds].
  { intros [= <- <-]. exists []. by rewrite !app_nil_r. }
  destruct (build (set_item item v params) context_new) as [[g|e]|] eqn:Hg; [|done|done]. cbn [tbind]. intros Hl.
  destruct (Hb _ _ Hg) as [Hm Hbs]. destruct (IH _ _ _ Hl) as (new & -> & Hlen & -> & Hsum). exists (trim (buffer g) :: new).
  split; [by rewrite <- app_assoc|]. split; [cbn; by f_equal|]. rewrite Hbs, <- app_assoc. split; [done|].
  rewrite fmap_cons. cbn [sum_list_with]. rewrite length_app. cbn. rewrite marks_trim, Hm, Hbs. f_equal. exact Hsum.
Qed.

Lemma build_foreach_binds build attrs params go f : forallb quiet_attr (map_to_list attrs) = true ->
  (forall p g, build p context_new = ok g -> binds_exactly g (go p)) ->
  build_foreach build attrs params context_new = ok f ->
  binds_exactly f match get (attr_or "collection" "" attrs) params with
    | Some (PArray arr) => foreach_binds go (attr_or "item" "item" attrs) arr params | _ => [] end.
Proof.
  intros Hq Hb. assert (Hcol : attr_or "collection" "" attrs = default "" (attrs !! "collection")) by done. rewrite Hcol. unfold build_foreach.
  destruct (attrs !! "collection") as [col|]; [|done]. change (default "" (Some col)) with col.
  assert (Ha : forall k, k <> "test" -> marks (attr_or k "" attrs) = 0%nat) by (intros k Hk; by apply quiet_attr_or).
  destruct (get col params) as [[| | | | |arr]|]; try (intros [= <-]; by split).
  destruct (foreach_loop build (attr_or "item" "item" attrs) arr params [] []) as [[[parts bs]|e]|] eqn:Hl; [|done|done]. cbn [tbind].
  destruct (foreach_loop_binds _ _ _ _ _ _ _ _ _ Hb Hl) as (new & -> & Hlen & -> & Hsum). cbn [app] in *. intros [= <-].
  destruct new as [|x new]; cbn [is_nil].
  - destruct arr; done.
  - split; [|done]. cbn [buffer push_str extend_binds context_new binds app String.append]. rewrite marks_space, !marks_app, !Ha by done.
    rewrite marks_join by (by apply quiet_attr_or). rewrite <- Hsum. lia.
Qed.

Lemma build_list_binds build go cs f : Forall (fun c => frames (build c)) cs ->
  Forall (fun c => forall g, build c context_new = ok g -> binds_exactly g (go c)) cs ->
  build_list build cs context_new = ok f -> binds_exactly f (concat (go <$> cs)).
Proof.
  intros Hf. revert f. induction Hf as [|c cs Hc Hcs IH]; intros f Hb; [intros [= <-]; by split|]. inversion Hb as [|? ? Hg Hbs]; subst.
  cbn [build_list]. destruct (build c context_new) as [[g|e]|] eqn:Hbc; [|done|done]. cbn [tbind].
  rewrite (build_list_frames build cs Hcs g). destruct (build_list build cs context_new) as [[g'|e]|]; [|done|done]. intros [= <-].
  rewrite fmap_cons. cbn [concat]. apply binds_onto; [by apply Hg|by apply IH].
Qed.

Lemma choose_binds_chosen go params cs :
  match chosen params cs with
  | Some (Ok (Some c)) => choose_binds go params cs = go c
  | Some (Ok None) => choose_binds go params cs = []
  | _ => True
  end.
Proof.
  induction cs as [|[[text|name attrs] gs] cs IH]; [done|exact IH|]. cbn [chosen choose_binds]. unfold holds.
  destruct (String.eqb name "when").
  { destruct (attrs !! "test") as [test|]; [|done]. destruct (eval_test test params) as [[[]|e]|]; cbn [tbind]; [done|exact IH|done|done]. }
  destruct (String.eqb name "otherwise"); [done|exact IH].
Qed.

Lemma build_choose_binds go params cs f :
  Forall (fun c => forall g, build_node params c context_new = ok g -> binds_exactly g (go c)) cs ->
  build_choose (build_node params) params cs context_new = ok f -> binds_exactly f (choose_binds go params cs).
Proof.
  intros Hcs. rewrite build_choose_chosen. pose proof (choose_binds_chosen go params cs) as Hg.
  destruct (chosen params cs) as [[[c|]|e]|] eqn:Hc; cbn [tbind]; try done; rewrite Hg; [|intros [= <-]; by split].
  rewrite Forall_forall in Hcs. by apply Hcs, (chosen_in params).
Qed.

Lemma build_node_binds params node f : bind_only node = true -> build_node params node context_new = ok f ->
  binds_exactly f (node_binds params node).
Proof.
  revert params f. induction node as [text cs|name attrs cs IH] using XmlNode_nested_ind; intros params f Hn.
  { cbn [build_node node_binds]. by apply append_text_binds. }
  cbn [bind_only] in Hn. apply andb_true_iff in Hn as [Hq Hcs]. rewrite forallb_forall in Hcs.
  assert (Hb : forall p, Forall (fun c => forall g, build_node p c context_new = ok g -> binds_exactly g (node_binds p c)) cs).
  { intros p. rewrite Forall_forall in IH |- *. intros c Hc g. apply IH; [done|]. by apply Hcs, list_elem_of_In. }
  pose proof (fun p g => build_list_binds (build_node p) (node_binds p) cs g (Forall_true _ cs (build_node_frames p)) (Hb p)) as Hl.
  cbn [build_node node_binds]. destruct (String.eqb name "if") eqn:Hif.
  { unfold build_if, holds. destruct (attrs !! "test") as [test|]; [|done].
    destruct (eval_test test params) as [[[]|e]|]; cbn [tbind]; [apply Hl|intros [= <-]; by split|done|done]. }
  destruct (String.eqb_spec name "where") as [->|]; [cbn; apply build_where_binds, Hl|].
  destruct (String.eqb_spec name "set") as [->|]; [cbn; apply build_set_binds, Hl|].
  destruct (String.eqb name "foreach"); [by apply build_foreach_binds|].
  destruct (String.eqb name "choose"); [by apply build_choose_binds|].
  destruct (String.eqb name "trim"); [by apply build_trim_binds, Hl|apply Hl].
Qed.

Lemma marks_cleanup sql : marks (cleanup_sql sql) = marks sql.
Proof.
  unfold cleanup_sql. rewrite marks_trim. enough (Hg : forall n b s, (String.length s <= n)%nat -> marks (cleanup_go n b s) = marks s) by (by apply Hg).
  induction n as [|n IH]; intros b s Hs; [by destruct s; [|cbn in Hs; lia]|]. destruct s as [|c s]; [done|]. cbn [cleanup_go].
  destruct (list_find _ whitespace) as [[i p]|] eqn:Hf.
  - apply list_find_Some in Hf as (Hi & Hp & _). pose proof (prefix_drop _ _ Hp) as Hd. pose proof (Forall_lookup_1 _ _ _ _ marks_whitespace Hi) as Hm.
    cbn [marks] in Hm. rewrite marks_app, IH.
    + rewrite Hd at 2. rewrite marks_app. cbn in Hm. rewrite Hm. by destruct b.
    + apply (f_equal String.length) in Hd. rewrite str_app_length in Hd.
      assert (Hne : Forall (fun p => (0 < String.length p)%nat) whitespace) by (repeat constructor).
      pose proof (Forall_lookup_1 _ _ _ _ Hne Hi) as Hpos. cbv beta in Hpos. cbn [String.length] in Hs, Hd. lia.
  - change (String c (cleanup_go n false s)) with (chr c +:+ cleanup_go n false s). change (String c s) with (chr c +:+ s).
    rewrite !marks_app, IH; [done|]. cbn in Hs. lia.
Qed.

(** The values of a built statement are those its text binds: for a template that interpolates
    nothing with [${}] and writes no question mark of its own, whatever its tags do, the
    placeholders are as many as the values, and the values are those of the names in the taken
    parts of the document, in its order, a loop once for every element. *)
Theorem binds_in_document_order (id : string) params (statements : DynamicSqlParser) (sql : string) (bs : list ParamValue) (node : XmlNode) :
  statements !! id = Some node -> bind_only node = true -> build_with_binds id params statements = ok (sql, bs) ->
  marks sql = length bs /\ bs = node_binds params node.
Proof.
  intros Hid Hn. unfold build_with_binds. rewrite Hid. destruct (build_node params node context_new) as [[f|e]|] eqn:Hf; [|done|done].
  cbn [tbind]. intros [= <- <-]. rewrite marks_cleanup. by apply build_node_binds.
Qed.


(** * What the text depends on *)

(** The same but for strings, floats and booleans. *)
Inductive alike : ParamValue -> ParamValue -> Prop :=
| alike_null : alike PNull PNull
| alike_string s s' : alike (PString s) (PString s')
| alike_int i : alike (PInt i) (PInt i)
| alike_float x x' : alike (PFloat x) (PFloat x')
| alike_bool b b' : alike (PBool b) (PBool b')
| alike_array l l' : Forall2 alike l l' -> alike (PArray l) (PArray l').

Definition params_alike (p1 p2 : SqlParams) : Prop := forall k, option_Forall2 alike (p1 !! k) (p2 !! k).

(** An expression that compares no string. *)
Definition string_free_atom (expr : string) : bool :=
  is_some (strip_suffix "!= null" expr) || is_some (strip_suffix "== null" expr)
  || (negb (is_some (find_text "==" expr)) && negb (is_some (find_text "!=" expr))).

Fixpoint string_free_go (fuel : nat) (expr : string) : bool :=
  match fuel with
  | O => true
  | S fuel =>
      let expr := trim expr in
      let both n idx := match slice_to idx expr, slice_from (idx + n) expr with
        | Some l, Some r => string_free_go fuel l && string_free_go fuel r | _, _ => true end in
      match find_keyword expr " or " with
      | Some idx => both 4%nat idx
      | None => match find_keyword expr " and " with Some idx => both 5%nat idx | None => string_free_atom expr end
      end
  end.
Definition string_free (expr : string) : bool := string_free_go (S (String.length expr)) expr.

(** A template that interpolates nothing and whose tests compare no strings. *)
Fixpoint string_blind (node : XmlNode) : bool :=
  match node with
  | mkXmlNode (Text text) _ => negb (contains_text "${" text)
  | mkXmlNode (Element _ attrs) children =>
      match attrs !! "test" with Some test => string_free test | None => true end && forallb string_blind children
  end.

Lemma is_null_alike p1 p2 k : params_alike p1 p2 -> is_null k p1 = is_null k p2.
Proof. intros Ha. unfold is_null. specialize (Ha k). by destruct Ha as [? ? []|]. Qed.

Lemma eval_cmps_alike p1 p2 cs expr : params_alike p1 p2 -> eval_cmps cs expr p1 = eval_cmps cs expr p2.
Proof.
  intros Ha. induction cs as [|[op cmp] cs IH]; [done|]. cbn [eval_cmps]. destruct (find_text op expr) as [idx|]; [|exact IH].
  unfold get. specialize (Ha (trim (String.substring 0 idx expr))). by destruct Ha as [? ? []|].
Qed.

Lemma eval_atom_alike p1 p2 expr : params_alike p1 p2 -> string_free_atom expr = true -> eval_atom expr p1 = eval_atom expr p2.
Proof.
  intros Ha Hs. unfold eval_atom, string_free_atom, is_not_null in *. destruct (strip_suffix "!= null" expr); [by rewrite (is_null_alike p1 p2)|].
  destruct (strip_suffix "== null" expr); [by rewrite (is_null_alike p1 p2)|]. cbn [is_some orb] in Hs.
  apply andb_true_iff in Hs as [H1 H2]. destruct (find_text "==" expr); [done|]. destruct (find_text "!=" expr); [done|].
  by apply eval_cmps_alike.
Qed.

Lemma eval_test_alike p1 p2 fuel expr : params_alike p1 p2 -> string_free_go fuel expr = true ->
  eval_test_go fuel expr p1 = eval_test_go fuel expr p2.
Proof.
  intros Ha. revert expr. induction fuel as [|fuel IH]; intros expr; [done|]. cbn [string_free_go eval_test_go].
  destruct (find_keyword (trim expr) " or ") as [idx|].
  { destruct (slice_to idx (trim expr)); [|done]. destruct (slice_from (idx + 4) (trim expr)); [|done].
    intros [H1 H2]%andb_true_iff. cbn. by rewrite (IH _ H1), (IH _ H2). }
  destruct (find_keyword (trim expr) " and ") as [idx|].
  { destruct (slice_to idx (trim expr)); [|done]. destruct (slice_from (idx + 5) (trim expr)); [|done].
    intros [H1 H2]%andb_true_iff. cbn. by rewrite (IH _ H1), (IH _ H2). }
  by apply eval_atom_alike.
Qed.

Lemma set_alike p1 p2 k v1 v2 : params_alike p1 p2 -> alike v1 v2 -> params_alike (<[k := v1]> p1) (<[k := v2]> p2).
Proof.
  unfold params_alike, SqlParams. intros Ha Hv k'. destruct (decide (k = k')) as [<-|Hne]; [rewrite !lookup_insert_eq; by constructor|]. rewrite !lookup_insert_ne by done. apply Ha.
Qed.

Lemma set_item_alike p1 p2 k v1 v2 : params_alike p1 p2 -> alike v1 v2 -> params_alike (set_item k v1 p1) (set_item k v2 p2).
Proof. intros Ha Hv. destruct Hv; cbn; try done; apply set_alike; try done; constructor. Qed.

(** Contexts with the same text. *)
Definition same_text (f g : BuildContext) : Prop := buffer f = buffer g.

(** Both panic, both fail with the same error, or both end in related results. *)
Definition try_rel {A} (R : A -> A -> Prop) (m1 m2 : Try A) : Prop :=
  match m1, m2 with
  | Some (Ok a), Some (Ok b) => R a b
  | Some (Err e1), Some (Err e2) => e1 = e2
  | None, None => True
  | _, _ => False
  end.

Lemma try_rel_bind {A B} (R : A -> A -> Prop) (S : B -> B -> Prop) m1 m2 k1 k2 :
  try_rel R m1 m2 -> (forall a b, R a b -> try_rel S (k1 a) (k2 b)) -> try_rel S (tbind m1 k1) (tbind m2 k2).
Proof. destruct m1 as [[a|e]|], m2 as [[b|e']|]; cbn; try done; auto. Qed.

(** Two steps that answer contexts of the same text with contexts of the same text. *)
Definition steps_alike (m1 m2 : BuildContext -> Try BuildContext) : Prop :=
  forall f g, same_text f g -> try_rel same_text (m1 f) (m2 g).

Lemma append_text_alike fuel p1 p2 text : params_alike p1 p2 -> contains_text "${" text = false ->
  steps_alike (append_text_go fuel p1 text) (append_text_go fuel p2 text).
Proof.
  intros Ha. revert text. induction fuel as [|fuel IH]; intros text Ht f g Hfg; [done|]. destruct text as [|c rest]; [done|]. cbn [append_text_go].
  assert (Hr : contains_text "${" rest = false) by (cbn [contains_text] in Ht; by apply orb_false_iff in Ht as [_ Ht]).
  destruct (opener (String c rest)) as [[b r]|] eqn:Ho.
  - assert (b = true /\ contains_text "${" r = false) as [-> Hr'].
    { unfold opener in Ho. destruct (starts_with "#{" (String c rest)) eqn:Hh.
      - injection Ho as <- <-. split; [done|]. apply prefix_drop in Hh. rewrite Hh in Ht. by apply contains_text_suffix in Ht.
      - destruct (starts_with "${" (String c rest)) eqn:Hd; [|done]. by rewrite contains_text_here in Ht. }
    pose proof (split_once_spec "}" r) as Hs. destruct (split_once "}" r) as [[name r']|]; [|done]. destruct Hs as [-> _].
    unfold get. pose proof (Ha name) as Hn. destruct Hn as [v1 v2 Hv|]; [|done]. apply IH.
    + apply contains_text_suffix in Hr'. by apply (contains_text_suffix _ "}").
    + unfold same_text in *. cbn. by rewrite Hfg.
  - apply IH; [done|]. unfold same_text in *. cbn. by rewrite Hfg.
Qed.

Lemma same_text_refl f : same_text f f.
Proof. done. Qed.

(** Steps that go on from the text of a fragment. *)
Lemma sub_steps m1 m2 (k1 k2 : BuildContext -> BuildContext -> Try BuildContext) : steps_alike m1 m2 ->
  (forall a b f g, same_text a b -> same_text f g -> try_rel same_text (k1 a f) (k2 b g)) ->
  steps_alike (fun ctx => let? sub := m1 context_new in k1 sub ctx) (fun ctx => let? sub := m2 context_new in k2 sub ctx).
Proof. intros Hm Hk f g Hfg. apply (try_rel_bind same_text); [by apply Hm|]. intros a b Hab. by apply Hk. Qed.

Lemma build_list_alike b1 b2 cs : Forall (fun c => steps_alike (b1 c) (b2 c)) cs -> steps_alike (build_list b1 cs) (build_list b2 cs).
Proof.
  induction 1 as [|c cs Hc Hcs IH]; intros f g Hfg; [done|]. cbn [build_list]. apply (try_rel_bind same_text); [by apply Hc|].
  intros a b Hab. by apply IH.
Qed.

Ltac same_buffers := intros ? ? ? ? Hsub Hctx; unfold same_text in *; cbn [buffer push_str extend_binds] in *;
  rewrite ?Hsub; match goal with |- try_rel _ (if ?b then _ else _) _ => destruct b end; cbn; by rewrite ?Hctx.

Lemma build_where_alike m1 m2 : steps_alike m1 m2 -> steps_alike (build_where m1) (build_where m2).
Proof. intros Hm. apply sub_steps; [done|]. same_buffers. Qed.

Lemma build_set_alike m1 m2 : steps_alike m1 m2 -> steps_alike (build_set m1) (build_set m2).
Proof. intros Hm. apply sub_steps; [done|]. same_buffers. Qed.

Lemma build_trim_alike m1 m2 attrs : steps_alike m1 m2 -> steps_alike (build_trim m1 attrs) (build_trim m2 attrs).
Proof. intros Hm. apply sub_steps; [done|]. same_buffers. Qed.

Lemma foreach_loop_alike b1 b2 item arr1 arr2 p1 p2 parts bs1 bs2 :
  (forall q1 q2, params_alike q1 q2 -> steps_alike (b1 q1) (b2 q2)) -> Forall2 alike arr1 arr2 -> params_alike p1 p2 ->
  try_rel (fun a b => a.1 = b.1) (foreach_loop b1 item arr1 p1 parts bs1) (foreach_loop b2 item arr2 p2 parts bs2).
Proof.
  intros Hb Harr. revert p1 p2 parts bs1 bs2. induction Harr as [|v1 v2 arr1 arr2 Hv Harr IH]; intros p1 p2 parts bs1 bs2 Hp; [done|].
  cbn [foreach_loop]. pose proof (set_item_alike p1 p2 item v1 v2 Hp Hv) as Hi. apply (try_rel_bind same_text); [by apply Hb|].
  intros f g Hfg. unfold same_text in Hfg. rewrite Hfg. by apply IH.
Qed.

Lemma build_foreach_alike b1 b2 attrs p1 p2 : (forall q1 q2, params_alike q1 q2 -> steps_alike (b1 q1) (b2 q2)) -> params_alike p1 p2 ->
  steps_alike (build_foreach b1 attrs p1) (build_foreach b2 attrs p2).
Proof.
  intros Hb Hp f g Hfg. unfold build_foreach. destruct (attrs !! "collection") as [col|]; [|done]. unfold get.
  pose proof (Hp col) as Hc. destruct Hc as [v1 v2 Hv|]; [|done]. destruct Hv as [| | | | |l1 l2 Hl]; try done.
  apply (try_rel_bind (fun a b => a.1 = b.1)); [by apply foreach_loop_alike|]. intros [parts1 bs1] [parts2 bs2]. cbn [fst]. intros <-.
  unfold same_text in *. destruct parts1; cbn; by rewrite Hfg.
Qed.

Lemma test_alike p1 p2 test : params_alike p1 p2 -> string_free test = true -> eval_test test p1 = eval_test test p2.
Proof. by apply eval_test_alike. Qed.

Lemma build_if_alike m1 m2 attrs p1 p2 : match attrs !! "test" with Some test => string_free test | None => true end = true ->
  steps_alike m1 m2 -> params_alike p1 p2 -> steps_alike (build_if m1 attrs p1) (build_if m2 attrs p2).
Proof.
  intros Ht Hm Hp f g Hfg. unfold build_if. destruct (attrs !! "test") as [test|]; [|done]. rewrite (test_alike p1 p2) by done.
  destruct (eval_test test p2) as [[[]|e]|]; cbn; [by apply Hm|done|done|done].
Qed.

Lemma chosen_alike p1 p2 cs : params_alike p1 p2 -> Forall (fun c => string_blind c = true) cs -> chosen p1 cs = chosen p2 cs.
Proof.
  intros Hp. induction 1 as [|[[text|name attrs] gs] cs Hc Hcs IH]; [done|exact IH|]. cbn [chosen].
  destruct (String.eqb name "when"); [|by rewrite IH]. cbn [string_blind] in Hc. apply andb_true_iff in Hc as [Ht _].
  destruct (attrs !! "test") as [test|]; [|done]. by rewrite (test_alike p1 p2), IH.
Qed.

Lemma build_choose_alike p1 p2 cs : params_alike p1 p2 -> Forall (fun c => string_blind c = true) cs ->
  Forall (fun c => steps_alike (build_node p1 c) (build_node p2 c)) cs ->
  steps_alike (build_choose (build_node p1) p1 cs) (build_choose (build_node p2) p2 cs).
Proof.
  intros Hp Hb Hcs f g Hfg. rewrite !build_choose_chosen, (chosen_alike p1 p2) by done.
  destruct (chosen p2 cs) as [[[c|]|e]|] eqn:Hc; cbn; [|done|done|done]. rewrite Forall_forall in Hcs. by apply Hcs; [apply (chosen_in p2)|].
Qed.

Lemma build_node_alike p1 p2 node : params_alike p1 p2 -> string_blind node = true -> steps_alike (build_node p1 node) (build_node p2 node).
Proof.
  revert p1 p2. induction node as [text cs|name attrs cs IH] using XmlNode_nested_ind; intros p1 p2 Hp Hn.
  { cbn in Hn |- *. apply append_text_alike; [done|]. by apply negb_true_iff. }
  cbn [string_blind] in Hn. apply andb_true_iff in Hn as [Ht Hcs].
  assert (Hblind : Forall (fun c => string_blind c = true) cs)
    by (apply Forall_forall; intros c Hc%list_elem_of_In; rewrite forallb_forall in Hcs; by apply Hcs).
  assert (Hb : forall q1 q2, params_alike q1 q2 -> Forall (fun c => steps_alike (build_node q1 c) (build_node q2 c)) cs).
  { intros q1 q2 Hq. rewrite Forall_forall in IH, Hblind |- *. intros c Hc. apply IH; [done|done|]. by apply Hblind. }
  assert (Hl : forall q1 q2, params_alike q1 q2 -> steps_alike (build_list (build_node q1) cs) (build_list (build_node q2) cs))
    by (intros q1 q2 Hq; apply build_list_alike; auto).
  cbn [build_node]. destruct (String.eqb name "if"); [by apply build_if_alike; auto|]. destruct (String.eqb name "where"); [apply build_where_alike; auto|].
  destruct (String.eqb name "set"); [apply build_set_alike; auto|]. destruct (String.eqb name "foreach"); [apply build_foreach_alike; auto|].
  destruct (String.eqb name "choose").
  { apply build_choose_alike; auto. }
  destruct (String.eqb name "trim"); [apply build_trim_alike; auto|auto].
Qed.

(** No injection through bound parameters.  For a template that interpolates nothing with
    [${] and whose tests compare no strings, parameters that differ in their strings, floats and
    booleans alone, also inside arrays, give the same outcome: the same text of the statement, or the
    same error. *)
Theorem text_ignores_strings (id : string) (p1 p2 : SqlParams) (statements : DynamicSqlParser) (node : XmlNode) :
  statements !! id = Some node -> string_blind node = true -> params_alike p1 p2 ->
  build id p1 statements = build id p2 statements.
Proof.
  intros Hid Hn Hp. unfold build. rewrite Hid. pose proof (build_node_alike p1 p2 node Hp Hn _ _ (same_text_refl context_new)) as Hr.
  unfold try_rel, same_text in Hr. destruct (build_node p1 node context_new) as [[f|e]|], (build_node p2 node context_new) as [[g|e']|]; try done; cbn.
  - by rewrite Hr.
  - by rewrite Hr.
Qed.

(** ** Enough fuel *)

Lemma append_text_enough n m params text ctx : (String.length text <= n)%nat -> (String.length text <= m)%nat ->
  append_text_go n params text ctx = append_text_go m params text ctx.
Proof.
  revert m text ctx. induction n as [|n IH]; intros m text ctx Hn Hm; [by destruct text, m; cbn in *; try lia|].
  destruct text as [|c rest]; [by destruct m|]. destruct m as [|m]; [cbn in Hm; lia|]. cbn [append_text_go].
  destruct (opener (String c rest)) as [[b r]|] eqn:Ho; [|apply IH; cbn in *; lia].
  assert (Hr : (String.length r + 2 <= S (String.length rest))%nat).
  { unfold opener in Ho. destruct (starts_with "#{" (String c rest)) eqn:Hh;
      [|destruct (starts_with "${" (String c rest)) eqn:Hd; [|done]]; injection Ho as <- <-;
      [apply prefix_drop, (f_equal String.length) in Hh|apply prefix_drop, (f_equal String.length) in Hd];
      rewrite str_app_length in *; cbn [String.length] in *; lia. }
  pose proof (split_once_spec "}" r) as Hs. destruct (split_once "}" r) as [[name r']|]; [|done]. destruct Hs as [-> _].
  rewrite str_app_length in Hr. cbn in Hr, Hn, Hm. destruct (get name params); [|done]. apply IH; lia.
Qed.

Lemma slice_length n m s : (String.length (String.substring n m s) <= m)%nat.
Proof.
  revert n m. induction s as [|c s IH]; intros [|n] [|m]; cbn; try lia; [specialize (IH 0%nat m); lia|apply IH|specialize (IH n (S m)); lia].
Qed.

Lemma slice_to_from k idx s lhs rhs : (0 < k)%nat -> slice_to idx s = Some lhs -> slice_from (idx + k) s = Some rhs ->
  (String.length lhs < String.length s)%nat /\ (String.length rhs < String.length s)%nat.
Proof.
  intros Hk Hl Hr. unfold slice_to in Hl. destruct (slice_from idx s); [|done]. injection Hl as <-.
  assert (Hlen : (idx + k <= String.length s)%nat /\ rhs = drop_bytes (idx + k) s).
  { unfold slice_from in Hr. unfold drop_bytes. destruct (Nat.ltb_spec (String.length s) (idx + k)); [done|]. split; [done|].
    destruct (String.substring _ _ s) as [|c r]; [by injection Hr|]. by destruct (ascii_in _ _ c); [|injection Hr]. }
  destruct Hlen as [Hlen ->]. pose proof (slice_length 0 idx s). split; [lia|].
  assert (Hd : forall n t, (n <= String.length t)%nat -> String.length (drop_bytes n t) = (String.length t - n)%nat).
  { unfold drop_bytes. clear. induction n as [|n IH]; intros t Ht; [by rewrite Nat.sub_0_r, substring_all|].
    destruct t as [|c t]; [cbn in Ht; lia|]. cbn in *. apply IH. lia. }
  rewrite Hd by done. lia.
Qed.

Lemma trim_length s : (String.length (trim s) <= String.length s)%nat.
Proof.
  assert (Hw : forall s, weigh (fun _ => 1%nat) s = String.length s) by (induction s0 as [|c s0 IH]; [done|]; cbn; by rewrite IH).
  assert (Hrev : forall s, String.length (rev_string s) = String.length s) by (intros s0; rewrite <- !Hw; apply weigh_rev).
  unfold trim. set (t := strip_prefixes (String.length s) whitespace s).
  assert (Ht : (String.length t <= String.length s)%nat) by apply trim_start_length.
  destruct (strip_prefixes_suffix (String.length t) (rev_string <$> whitespace) (rev_string t)) as [q Hq].
  apply (f_equal String.length) in Hq. rewrite str_app_length, Hrev in Hq. rewrite Hrev. lia.
Qed.

Lemma eval_test_enough n m expr params : (String.length expr < n)%nat -> (String.length expr < m)%nat ->
  eval_test_go n expr params = eval_test_go m expr params.
Proof.
  revert m expr. induction n as [|n IH]; intros m expr Hn Hm; [lia|]. destruct m as [|m]; [lia|]. cbn [eval_test_go].
  pose proof (trim_length expr) as Ht.
  assert (Hstep : forall idx k lhs rhs, (0 < k)%nat -> slice_to idx (trim expr) = Some lhs -> slice_from (idx + k) (trim expr) = Some rhs ->
    eval_test_go n lhs params = eval_test_go m lhs params /\ eval_test_go n rhs params = eval_test_go m rhs params).
  { intros idx k lhs rhs Hk Hl Hr. destruct (slice_to_from k idx _ lhs rhs Hk Hl Hr). split; apply IH; lia. }
  destruct (find_keyword (trim expr) " or ") as [idx|].
  { destruct (slice_to idx _) as [lhs|] eqn:Hl; [|done]. destruct (slice_from (idx + 4) _) as [rhs|] eqn:Hr; [|done].
    destruct (Hstep idx 4%nat lhs rhs ltac:(lia) Hl Hr) as [H1 H2]. cbn. by rewrite H1, H2. }
  destruct (find_keyword (trim expr) " and ") as [idx|]; [|done].
  destruct (slice_to idx _) as [lhs|] eqn:Hl; [|done]. destruct (slice_from (idx + 5) _) as [rhs|] eqn:Hr; [|done].
  destruct (Hstep idx 5%nat lhs rhs ltac:(lia) Hl Hr) as [H1 H2]. cbn. by rewrite H1, H2.
Qed.
End Facts.

(** A loop inside a clause. *)
Definition in_list : XmlNode :=
  mkXmlNode (Element "select" ∅)
    [mkXmlNode (Text "SELECT * FROM t") [];
     mkXmlNode (Element "where" ∅)
       [mkXmlNode (Element "if" {["test" := "name != null"]}) [mkXmlNode (Text "AND name = #{name} ") []];
        mkXmlNode (Text "AND id IN ") [];
        mkXmlNode (Element "foreach" {["collection" := "ids"; "open" := "("; "close" := ")"]}) [mkXmlNode (Text "#{item}") []]]].

Definition a_name (name : string) : SqlParams := set "name" name (set_array "ids" [PInt 1; PInt 2] params_new).

Lemma binds_in_document_order_witness :
  let sql := "SELECT * FROM t WHERE name = ? AND id IN (?,?)" in
  @build_with_binds no_digits "find" (a_name "x") {["find" := in_list]} = ok (sql, [PString "x"; PInt 1; PInt 2]) /\
  marks sql = 3%nat /\ [PString "x"; PInt 1; PInt 2] = node_binds (a_name "x") in_list.
Proof.
  cbv zeta. assert (Hb : @build_with_binds no_digits "find" (a_name "x") {["find" := in_list]}
    = ok ("SELECT * FROM t WHERE name = ? AND id IN (?,?)", [PString "x"; PInt 1; PInt 2])) by (vm_compute; reflexivity).
  split; [exact Hb|]. refine (@binds_in_document_order no_digits "find" (a_name "x") {["find" := in_list]} _ _ in_list _ _ Hb); reflexivity.
Defined.

Lemma text_ignores_strings_witness :
  @build no_digits "find" (a_name "x") {["find" := in_list]} = @build no_digits "find" (a_name "' OR '1'='1") {["find" := in_list]}.
Proof.
  apply (@text_ignores_strings no_digits "find" _ _ _ in_list); [reflexivity|reflexivity|]. intros k. unfold a_name, set, set_array, SqlParams.
  destruct (decide (k = "name")) as [->|]; [rewrite !lookup_insert_eq; repeat constructor|rewrite !(lookup_insert_ne _ "name") by done].
  destruct (decide (k = "ids")) as [->|]; [rewrite !lookup_insert_eq; repeat constructor|rewrite !(lookup_insert_ne _ "ids") by done]. constructor.
Defined.

(** ** What the theorems leave out *)

(** Interpolation is escaped for a place between quotes only: without them the text is code. *)
Example interpolation_is_code :
  @build no_digits "f" (set "id" "1 OR 1=1" params_new) {["f" := mkXmlNode (Element "select" ∅) [mkXmlNode (Text "SELECT * FROM t WHERE id = ${id}") []]]}
  = ok "SELECT * FROM t WHERE id = 1 OR 1=1".
Proof. vm_compute. reflexivity. Qed.

(** Texts outside ASCII are written byte by byte as characters. *)
Example text_is_mangled : @append_text no_digits params_new (bytes_string [228; 184; 173]%nat) context_new
  = ok (mkContext (bytes_string [195; 164; 194; 184; 194; 173]%nat) []).
Proof. vm_compute. reflexivity. Qed.

(** A string that holds two spaces loses one of them. *)
Example spaces_collapse : cleanup_sql "SELECT 'a  b'" = "SELECT 'a b'".
Proof. vm_compute. reflexivity. Qed.
