(* ===== verification/DynamicXml.v ===== *)
(** The templates of [packages/sz-orm-core/src/dynamic_sql.rs]: their parser, a printer, and when
    reading what was printed gives it back. *)

From Stdlib Require Import Ascii String.
From S2P Require Import Prelude SqlText Dialect DynamicSql DynamicFacts.
Local Open Scope string_scope.
#[local] Arguments String.append !_ _ : simpl nomatch.

(** * The parser

    A position in the input is the text from there on.  [Spins] is a call that has not returned
    within its fuel. *)

Inductive Outcome (A : Type) : Type :=
| Returns (r : result A DynamicSqlError)
| Panics
| Spins.
Arguments Returns {A} r.
Arguments Panics {A}.
Arguments Spins {A}.

Definition obind {A B} (m : Outcome A) (k : A -> Outcome B) : Outcome B :=
  match m with Returns (Ok a) => k a | Returns (Err e) => Returns (Err e) | Panics => Panics | Spins => Spins end.
Definition oret {A} (a : A) : Outcome A := Returns (Ok a).
Definition oerr {A} (e : DynamicSqlError) : Outcome A := Returns (Err e).

Declare Scope outcome_scope.
Delimit Scope outcome_scope with outcome.
Notation "'let?' p ':=' m 'in' k" := (obind m (fun x => match x with p => k end))
  (at level 10, p pattern, m at level 100, k at level 200) : outcome_scope.
Local Open Scope outcome_scope.

Definition name_char (c : ascii) : bool :=
  is_ascii_alphanumeric c || Ascii.eqb c "_" || Ascii.eqb c "-" || Ascii.eqb c ":".

Definition is_ascii_whitespace (c : ascii) : bool :=
  Ascii.eqb c "032" || Ascii.eqb c "009" || Ascii.eqb c "010" || Ascii.eqb c "012" || Ascii.eqb c "013".

(** The bytes from the head on that satisfy [p], and the text after them. *)
Fixpoint span (p : ascii -> bool) (s : string) : string * string :=
  match s with
  | String c s' => if p c then prod_map (String c) id (span p s') else (EmptyString, s)
  | EmptyString => (EmptyString, EmptyString)
  end.

Definition read_name (s : string) : string * string := span name_char s.
Definition skip_whitespace (s : string) : string := snd (span is_ascii_whitespace s).

(** [s.replace(p, by)]; [fuel] bounds the bytes read. *)
Fixpoint replace_go (fuel : nat) (p by_ s : string) : string :=
  match fuel, s with
  | S fuel, String c s' =>
      if starts_with p s then by_ +:+ replace_go fuel p by_ (drop_bytes (String.length p) s)
      else String c (replace_go fuel p by_ s')
  | _, _ => EmptyString
  end.
Definition replace_text (p by_ s : string) : string := replace_go (String.length s) p by_ s.

Definition unescape (s : string) : string :=
  replace_text "&apos;" (chr squote) (replace_text "&quot;" (chr dquote)
    (replace_text "&amp;" "&" (replace_text "&lt;" "<" (replace_text "&gt;" ">" s)))).

Definition parse_text (s : string) : string * string :=
  let '(raw, rest) := span (fun c => negb (Ascii.eqb c "<")) s in (unescape raw, rest).

(** The text after the opening quote. *)
Definition read_attr_value (s : string) : Outcome (string * string) :=
  match s with
  | EmptyString => oerr (ParseError "属性值缺失")
  | String quote s =>
      if negb (Ascii.eqb quote dquote) && negb (Ascii.eqb quote squote) then
        oerr (ParseError ("属性值应以引号开头, 实际: " +:+ byte_as_char quote))
      else
        match split_once quote s with
        | Some (raw, rest) => oret (unescape raw, rest)
        | None => oerr (ParseError "属性值未闭合")
        end
  end.

(** Whether a byte is inside a character. *)
Definition continuation (c : ascii) : bool := ascii_in "128" "191" c.

(** [&s[..3]], where three bytes are left. *)
Definition three_bytes (s : string) : option string :=
  match s with
  | String a (String b (String c rest)) =>
      if continuation a || match rest with String d _ => continuation d | EmptyString => false end then None
      else Some (String a (String b (String c EmptyString)))
  | _ => None
  end.

Fixpoint comment_end (s : string) : Outcome string :=
  match s with
  | String _ (String _ (String _ _)) =>
      match three_bytes s with
      | None => Panics
      | Some t =>
          if String.eqb t "-->" then oret (drop_bytes 3 s)
          else match s with String _ s' => comment_end s' | EmptyString => Panics end
      end
  | _ => oerr (ParseError "注释未闭合")
  end.
Definition skip_comment (s : string) : Outcome string := comment_end (drop_bytes 4 s).

(** The loop that reads attributes: them, whether the tag is closed in itself, and the text
    after it. *)
Fixpoint read_attrs (fuel : nat) (attrs : gmap string string) (s : string) : Outcome (gmap string string * bool * string) :=
  match fuel with
  | O => Spins
  | S fuel =>
      let s := skip_whitespace s in
      match s with
      | EmptyString => oerr (ParseError "未闭合的标签")
      | String c rest =>
          if Ascii.eqb c ">" then oret (attrs, false, rest)
          else if starts_with "/>" s then oret (attrs, true, drop_bytes 2 s)
          else
            let '(attr_name, s) := read_name s in
            let s := skip_whitespace s in
            if starts_with "=" s then
              let? (attr_value, s) := read_attr_value (skip_whitespace (drop_bytes 1 s)) in
              read_attrs fuel (<[attr_name := attr_value]> attrs) s
            else read_attrs fuel attrs s
      end
  end.

Fixpoint parse_children (fuel : nat) (children : list XmlNode) (s : string) : Outcome (list XmlNode * string) :=
  match fuel with
  | O => Spins
  | S fuel =>
      if String.eqb s "" || starts_with "</" s then oret (children, s)
      else if starts_with "<!--" s then let? s := skip_comment s in parse_children fuel children s
      else if starts_with "<" s then
        let? (element, s) := parse_element fuel s in parse_children fuel (children ++ [element])%list s
      else
        let '(text, s) := parse_text s in parse_children fuel (children ++ [mkXmlNode (Text text) []])%list s
  end
with parse_element (fuel : nat) (s : string) : Outcome (XmlNode * string) :=
  match fuel with
  | O => Spins
  | S fuel =>
      let '(name, s) := read_name (drop_bytes 1 s) in
      let? (attrs, closed, s) := read_attrs fuel ∅ s in
      if (closed : bool) then oret (mkXmlNode (Element name attrs) [], s)
      else
        let? (children, s) := parse_children fuel [] s in
        if starts_with "</" s then
          let '(end_name, s) := read_name (drop_bytes 2 s) in
          let s := skip_whitespace s in
          let s := if starts_with ">" s then drop_bytes 1 s else s in
          if String.eqb name end_name then oret (mkXmlNode (Element name attrs) children, s)
          else oerr (ParseError ("标签不匹配: <" +:+ name +:+ "> vs </" +:+ end_name +:+ ">"))
        else oerr (ParseError ("未闭合的标签: <" +:+ name +:+ ">（缺少 </" +:+ name +:+ ">）"))
  end.

(** [XmlParser::parse]: the children of the root. *)
Definition parse (fuel : nat) (input : string) : Outcome (list XmlNode) :=
  let? (children, _) := parse_children fuel [] input in oret children.

Fixpoint register (statements : DynamicSqlParser) (children : list XmlNode) : result DynamicSqlParser DynamicSqlError :=
  match children with
  | [] => Ok statements
  | mkXmlNode (Text _) _ :: children => register statements children
  | mkXmlNode (Element name attrs) cs :: children =>
      match attrs !! "id" with
      | None => Err (ParseError ("<" +:+ name +:+ "> 缺少 id 属性"))
      | Some id => register (<[id := mkXmlNode (Element name attrs) cs]> statements) children
      end
  end.

(** More fuel than the length of the input changes nothing ([parse_decided]). *)
Definition parse_xml (statements : DynamicSqlParser) (xml : string) : Outcome DynamicSqlParser :=
  let? children := parse (S (S (String.length xml))) xml in Returns (register statements children).
Definition from_xml (xml : string) : Outcome DynamicSqlParser := parse_xml ∅ xml.

(** * Lengths *)

Lemma drop_length n s : (String.length (drop_bytes n s) <= String.length s - n)%nat.
Proof. unfold drop_bytes. apply slice_length. Qed.

Lemma span_app p s : s = fst (span p s) +:+ snd (span p s).
Proof. induction s as [|c s IH]; [done|]. cbn [span]. destruct (p c); [|done]. destruct (span p s) as [a b]. cbn in *. by rewrite <- IH. Qed.

Lemma span_lengths p s : (String.length (fst (span p s)) + String.length (snd (span p s)) = String.length s)%nat.
Proof. rewrite (span_app p s) at 3. by rewrite str_app_length. Qed.

Lemma skip_whitespace_length s : (String.length (skip_whitespace s) <= String.length s)%nat.
Proof. unfold skip_whitespace. pose proof (span_lengths is_ascii_whitespace s). lia. Qed.

Lemma skip_twice s : skip_whitespace (skip_whitespace s) = skip_whitespace s.
Proof.
  unfold skip_whitespace. induction s as [|c s IH]; [done|]. cbn [span]. destruct (is_ascii_whitespace c) eqn:Hc.
  - by destruct (span is_ascii_whitespace s).
  - cbn [snd]. cbn [span]. by rewrite Hc.
Qed.

Lemma split_once_length c s a b : split_once c s = Some (a, b) -> (String.length b < String.length s)%nat.
Proof.
  intros Hs. pose proof (split_once_spec c s) as H. rewrite Hs in H. destruct H as [-> _]. rewrite str_app_length. cbn. lia.
Qed.

Lemma read_attr_value_length s v s' : read_attr_value s = oret (v, s') -> (String.length s' < String.length s)%nat.
Proof.
  destruct s as [|q s]; [done|]. unfold read_attr_value. destruct (_ && _); [done|]. destruct (split_once q s) as [[raw rest]|] eqn:Hs; [|done].
  intros [= <- <-]. apply split_once_length in Hs. cbn. lia.
Qed.

Lemma comment_end_length s s' : comment_end s = oret s' -> (String.length s' < String.length s)%nat.
Proof.
  induction s as [|a s IH]; [done|]. cbn [comment_end]. destruct s as [|b [|c s]]; [done|done|].
  destruct (three_bytes _) as [t|]; [|done]. destruct (String.eqb t "-->").
  - intros [= <-]. pose proof (drop_length 3 (String a (String b (String c s)))) as Hd. cbn in *. lia.
  - intros Hc. apply IH in Hc. cbn in *. lia.
Qed.

Lemma skip_comment_length s s' : skip_comment s = oret s' -> (String.length s' < String.length s)%nat.
Proof. intros Hs%comment_end_length. pose proof (drop_length 4 s). lia. Qed.

(** ** The attributes *)

(** One turn of the loop: [inr] is the state of the next turn. *)
Definition attrs_turn (attrs : gmap string string) (s : string) : Outcome (gmap string string * bool * string) + gmap string string * string :=
  let s := skip_whitespace s in
  match s with
  | EmptyString => inl (oerr (ParseError "未闭合的标签"))
  | String c rest =>
      if Ascii.eqb c ">" then inl (oret (attrs, false, rest))
      else if starts_with "/>" s then inl (oret (attrs, true, drop_bytes 2 s))
      else
        let '(attr_name, s) := read_name s in
        let s := skip_whitespace s in
        if starts_with "=" s then
          match read_attr_value (skip_whitespace (drop_bytes 1 s)) with
          | Returns (Ok (attr_value, s)) => inr (<[attr_name := attr_value]> attrs, s)
          | Returns (Err e) => inl (oerr e)
          | Panics => inl Panics
          | Spins => inl Spins
          end
        else inr (attrs, s)
  end.

Lemma read_attrs_turn n attrs s : read_attrs (S n) attrs s =
  match attrs_turn attrs s with inl r => r | inr (attrs, s) => read_attrs n attrs s end.
Proof.
  cbn [read_attrs]. unfold attrs_turn. destruct (skip_whitespace s) as [|c rest]; [done|]. destruct (Ascii.eqb c ">"); [done|].
  destruct (starts_with "/>" _); [done|]. destruct (read_name _) as [name s1]. destruct (starts_with "=" _); [|done].
  by destruct (read_attr_value _) as [[[v s2]|e]| |].
Qed.

(** A turn reads on, or the loop is where it was and will never end. *)
Lemma attrs_turn_reads attrs s attrs' s' : attrs_turn attrs s = inr (attrs', s') ->
  (String.length s' < String.length s)%nat \/ (attrs_turn attrs' s' = inr (attrs', s')).
Proof.
  unfold attrs_turn at 1. pose proof (skip_whitespace_length s) as Hsk. pose proof (skip_twice s) as Hidem. set (t := skip_whitespace s) in *.
  destruct t as [|c rest] eqn:Ht; [done|]. destruct (Ascii.eqb c ">") eqn:Hgt; [done|].
  destruct (starts_with "/>" (String c rest)) eqn:Hcl; [done|].
  pose proof (span_lengths name_char (String c rest)) as Hsp. unfold read_name. destruct (span name_char (String c rest)) as [name s1] eqn:Hspan.
  cbn [fst snd] in Hsp. pose proof (skip_whitespace_length s1) as Hs1. destruct (starts_with "=" (skip_whitespace s1)) eqn:Heq.
  - destruct (read_attr_value _) as [[[v s2]|e]| |] eqn:Hv; try done. intros [= <- <-]. left. apply read_attr_value_length in Hv.
    pose proof (skip_whitespace_length (drop_bytes 1 (skip_whitespace s1))). pose proof (drop_length 1 (skip_whitespace s1)). lia.
  - intros [= <- <-]. destruct (String.length name) eqn:Hname; [|left; lia]. right.
    destruct name; [|done]. pose proof (span_app name_char (String c rest)) as Happ. rewrite Hspan in Happ. cbn in Happ. subst s1.
    rewrite Hidem. unfold attrs_turn. rewrite Hidem, Hgt, Hcl. unfold read_name. rewrite Hidem in Heq. by rewrite Hspan, Hidem, Heq.
Qed.

Lemma attrs_turn_ends attrs s attrs' closed s' : attrs_turn attrs s = inl (oret (attrs', closed, s')) -> (String.length s' < String.length s)%nat.
Proof.
  unfold attrs_turn. pose proof (skip_whitespace_length s) as Hsk. destruct (skip_whitespace s) as [|c rest] eqn:Ht; [done|].
  destruct (Ascii.eqb c ">"); [intros [= <- <- <-]; cbn in *; lia|]. destruct (starts_with "/>" _).
  - intros [= <- <- <-]. pose proof (drop_length 2 (String c rest)). cbn in *. lia.
  - destruct (read_name _) as [name s1]. destruct (starts_with "=" _); [|done]. by destruct (read_attr_value _) as [[[v s2]|e]| |].
Qed.

Lemma read_attrs_stuck n attrs s : attrs_turn attrs s = inr (attrs, s) -> read_attrs n attrs s = Spins.
Proof. intros Hs. induction n as [|n IH]; [done|]. by rewrite read_attrs_turn, Hs. Qed.

Lemma read_attrs_length n attrs s attrs' closed s' : read_attrs n attrs s = oret (attrs', closed, s') -> (String.length s' < String.length s)%nat.
Proof.
  revert attrs s. induction n as [|n IH]; intros attrs s; [done|]. rewrite read_attrs_turn. destruct (attrs_turn attrs s) as [r|[attrs1 s1]] eqn:Ht.
  - intros ->. by apply attrs_turn_ends in Ht.
  - intros Hr. destruct (attrs_turn_reads _ _ _ _ Ht) as [Hl|Hst]; [apply IH in Hr; lia|]. by rewrite read_attrs_stuck in Hr.
Qed.

Lemma read_attrs_decided n m attrs s : (String.length s < n)%nat -> (String.length s < m)%nat -> read_attrs n attrs s = read_attrs m attrs s.
Proof.
  revert m attrs s. induction n as [|n IH]; intros m attrs s Hn Hm; [lia|]. destruct m as [|m]; [lia|]. rewrite !read_attrs_turn.
  destruct (attrs_turn attrs s) as [r|[attrs1 s1]] eqn:Ht; [done|]. destruct (attrs_turn_reads _ _ _ _ Ht) as [Hl|Hst]; [apply IH; lia|].
  by rewrite !read_attrs_stuck.
Qed.

(** ** The elements *)

Lemma starts_length p s : starts_with p s = true -> (String.length p <= String.length s)%nat.
Proof. intros Hp%prefix_drop%(f_equal String.length). rewrite str_app_length in Hp. lia. Qed.

Lemma starts_char a c s : starts_with (String a "") (String c s) = Ascii.eqb a c.
Proof. unfold starts_with. cbn [String.prefix]. destruct (ascii_dec a c) as [->|Hne]; [rewrite Ascii.eqb_refl; by destruct s|]. by rewrite (proj2 (Ascii.eqb_neq _ _)). Qed.

Lemma read_name_length s : (String.length (snd (read_name s)) <= String.length s)%nat.
Proof. unfold read_name. pose proof (span_lengths name_char s). lia. Qed.

(** The text after the end tag. *)
Definition end_tag (s : string) : string * string :=
  let '(end_name, s) := read_name (drop_bytes 2 s) in
  let s := skip_whitespace s in (end_name, if starts_with ">" s then drop_bytes 1 s else s).

Lemma end_tag_length s : (String.length (snd (end_tag s)) <= String.length s)%nat.
Proof.
  unfold end_tag. pose proof (read_name_length (drop_bytes 2 s)) as Hr. destruct (read_name _) as [en s1]. cbn [snd] in *.
  pose proof (drop_length 2 s). pose proof (skip_whitespace_length s1). pose proof (drop_length 1 (skip_whitespace s1)). destruct (starts_with ">" _); lia.
Qed.

(** An element without its children. *)
Definition open_tag (n : nat) (s : string) : Outcome (string * gmap string string * bool * string) :=
  let '(name, s) := read_name (drop_bytes 1 s) in
  let? (attrs, closed, s) := read_attrs n ∅ s in oret (name, attrs, closed, s).

Definition close_tag (name : string) (attrs : gmap string string) (children : list XmlNode) (s : string) : Outcome (XmlNode * string) :=
  if starts_with "</" s then
    let '(end_name, s) := end_tag s in
    if String.eqb name end_name then oret (mkXmlNode (Element name attrs) children, s)
    else oerr (ParseError ("标签不匹配: <" +:+ name +:+ "> vs </" +:+ end_name +:+ ">"))
  else oerr (ParseError ("未闭合的标签: <" +:+ name +:+ ">（缺少 </" +:+ name +:+ ">）")).

Lemma parse_element_tags n s : parse_element (S n) s =
  let? (name, attrs, closed, s) := open_tag n s in
  if (closed : bool) then oret (mkXmlNode (Element name attrs) [], s)
  else let? (children, s) := parse_children n [] s in close_tag name attrs children s.
Proof.
  cbn [parse_element]. unfold open_tag, close_tag, end_tag. destruct (read_name (drop_bytes 1 s)) as [name s1].
  destruct (read_attrs n ∅ s1) as [[[[attrs closed] s2]|e]| |]; try done. cbn [obind oret]. destruct closed; [done|].
  destruct (parse_children n [] s2) as [[[cs s3]|e]| |]; try done. cbn [obind oret]. destruct (starts_with "</" s3); [|done].
  by destruct (read_name _) as [en s4].
Qed.

(** What is at the head of the children that are left. *)
Inductive item : Type := NoChild | Comment | Child | Characters.
Definition next_item (s : string) : item :=
  if String.eqb s "" || starts_with "</" s then NoChild
  else if starts_with "<!--" s then Comment
  else if starts_with "<" s then Child
  else Characters.

Lemma parse_children_item n acc s : parse_children (S n) acc s =
  match next_item s with
  | NoChild => oret (acc, s)
  | Comment => let? s := skip_comment s in parse_children n acc s
  | Child => let? (element, s) := parse_element n s in parse_children n (acc ++ [element])%list s
  | Characters => parse_children n (acc ++ [mkXmlNode (Text (fst (parse_text s))) []])%list (snd (parse_text s))
  end.
Proof.
  cbn [parse_children]. unfold next_item. destruct (String.eqb s "" || starts_with "</" s); [done|]. destruct (starts_with "<!--" s); [done|].
  destruct (starts_with "<" s); [done|]. by destruct (parse_text s).
Qed.

Lemma open_tag_length n s name attrs closed s' : s <> "" -> open_tag n s = oret (name, attrs, closed, s') -> (S (String.length s') < String.length s)%nat.
Proof.
  intros Hs. unfold open_tag. pose proof (read_name_length (drop_bytes 1 s)) as Hr. destruct (read_name _) as [nm s1]. cbn [snd] in Hr.
  destruct (read_attrs n ∅ s1) as [[[[at_ cl] s2]|e]| |] eqn:Ha; try done. intros [= <- <- <- <-]. apply read_attrs_length in Ha.
  pose proof (drop_length 1 s). destruct s; [done|]. cbn in *. lia.
Qed.

Lemma next_item_nonempty s : next_item s <> NoChild -> s <> "".
Proof. unfold next_item. by destruct (String.eqb_spec s ""). Qed.

Lemma parse_text_length s : next_item s = Characters -> (String.length (snd (parse_text s)) < String.length s)%nat.
Proof.
  unfold next_item, parse_text. destruct s as [|c s]; [done|]. destruct (_ || _); [done|]. destruct (starts_with "<!--" _); [done|].
  destruct (starts_with "<" (String c s)) eqn:Hlt; [done|]. intros _. cbn [span].
  rewrite (starts_char "<" c s) in Hlt. rewrite Ascii.eqb_sym, Hlt. cbn [negb].
  pose proof (span_lengths (fun c => negb (Ascii.eqb c "<")) s) as Hl. destruct (span _ s) as [a b]. cbn in *. lia.
Qed.

Lemma close_tag_length name attrs children s e s' : close_tag name attrs children s = oret (e, s') -> (String.length s' <= String.length s)%nat.
Proof.
  unfold close_tag. destruct (starts_with "</" s); [|done]. pose proof (end_tag_length s) as He. destruct (end_tag s) as [en s1]. cbn [snd] in He.
  destruct (String.eqb name en); [|done]. by intros [= <- <-].
Qed.

Lemma parse_length n : (forall acc s cs s', parse_children n acc s = oret (cs, s') -> (String.length s' <= String.length s)%nat) /\
  (forall s e s', s <> "" -> parse_element n s = oret (e, s') -> (String.length s' < String.length s)%nat).
Proof.
  induction n as [|n [IHc IHe]]; [done|]. split.
  - intros acc s cs s'. rewrite parse_children_item. destruct (next_item s) eqn:Hi.
    + by intros [= _ <-].
    + destruct (skip_comment s) as [[s1|]| |] eqn:Hs; try done. cbn [obind]. intros Hc%IHc. apply skip_comment_length in Hs. lia.
    + destruct (parse_element n s) as [[[e s1]|]| |] eqn:Hs; try done. cbn [obind]. intros Hc%IHc.
      apply IHe in Hs; [lia|]. apply next_item_nonempty. by rewrite Hi.
    + intros Hc%IHc. pose proof (parse_text_length s Hi). lia.
  - intros s e s' Hne. rewrite parse_element_tags. destruct (open_tag n s) as [[[[[nm at_] cl] s1]|]| |] eqn:Ho; try done. cbn [obind oret].
    apply (open_tag_length _ _ _ _ _ _ Hne) in Ho. destruct cl; [intros [= <- <-]; lia|].
    destruct (parse_children n [] s1) as [[[cs s2]|]| |] eqn:Hc; try done. cbn [obind oret]. intros He%close_tag_length. apply IHc in Hc. lia.
Qed.

Lemma open_tag_decided n m s : s <> "" -> (String.length s <= n)%nat -> (String.length s <= m)%nat -> open_tag n s = open_tag m s.
Proof.
  intros Hs Hn Hm. unfold open_tag. pose proof (read_name_length (drop_bytes 1 s)) as Hr. destruct (read_name _) as [nm s1]. cbn [snd] in Hr.
  pose proof (drop_length 1 s). destruct s; [done|]. rewrite (read_attrs_decided n m); [done| |]; cbn in *; lia.
Qed.

(** More fuel than the text is long changes nothing. *)
Lemma parse_enough n :
  (forall m acc s, (String.length s + 2 <= n)%nat -> (String.length s + 2 <= m)%nat -> parse_children n acc s = parse_children m acc s) /\
  (forall m s, s <> "" -> (String.length s < n)%nat -> (String.length s < m)%nat -> parse_element n s = parse_element m s).
Proof.
  induction n as [|n [IHc IHe]]; [split; intros; lia|]. split.
  - intros m acc s Hn Hm. destruct m as [|m]; [lia|]. rewrite !parse_children_item. destruct (next_item s) eqn:Hi; [done| | |].
    + destruct (skip_comment s) as [[s1|]| |] eqn:Hs; try done. cbn [obind]. apply skip_comment_length in Hs. apply IHc; lia.
    + assert (Hne : s <> "") by (apply next_item_nonempty; by rewrite Hi). rewrite (IHe m s Hne) by lia.
      destruct (parse_element m s) as [[[e s1]|]| |] eqn:Hs; try done. cbn [obind]. apply (proj2 (parse_length m)) in Hs; [|done]. apply IHc; lia.
    + pose proof (parse_text_length s Hi). apply IHc; lia.
  - intros m s Hne Hn Hm. destruct m as [|m]; [lia|]. rewrite !parse_element_tags. rewrite (open_tag_decided n m s) by (done || lia).
    destruct (open_tag m s) as [[[[[nm at_] cl] s1]|]| |] eqn:Ho; try done. cbn [obind oret]. apply (open_tag_length _ _ _ _ _ _ Hne) in Ho.
    destruct cl; [done|]. by rewrite (IHc m [] s1) by lia.
Qed.

(** ** Calls that do not return *)

(** More fuel than the length of the text changes nothing: a call that has not returned within it
    does not return. *)
Lemma parse_decided n xml : (S (S (String.length xml)) <= n)%nat -> parse n xml = parse (S (S (String.length xml))) xml.
Proof. intros Hn. unfold parse. by rewrite (proj1 (parse_enough n) (S (S (String.length xml))) [] xml) by lia. Qed.

(** An XML declaration is never read to its end. *)
Lemma declaration_spins n rest : parse n ("<?" +:+ rest) = Spins.
Proof.
  unfold parse. destruct n as [|n]; [done|]. rewrite parse_children_item. change (next_item ("<?" +:+ rest)) with Child. cbn [obind].
  destruct n as [|n]; [done|]. rewrite parse_element_tags. unfold open_tag.
  assert (Hd : drop_bytes 1 ("<?" +:+ rest) = String "?" rest) by (apply (drop_app "<")). rewrite Hd.
  change (read_name (String "?" rest)) with ("", String "?" rest). cbv beta iota. by rewrite read_attrs_stuck.
Qed.

Definition ascii_byte (c : ascii) : bool := negb (ascii_in "128" "255" c).

Lemma ascii_not_continuation c : ascii_byte c = true -> continuation c = false.
Proof. destruct c as [[] [] [] [] [] [] [] []]; done. Qed.

Lemma comment_end_step s : comment_end s =
  match s with
  | String _ (String _ (String _ _) as s') =>
      match three_bytes s with None => Panics | Some t => if String.eqb t "-->" then oret (drop_bytes 3 s) else comment_end s' end
  | _ => oerr (ParseError "注释未闭合")
  end.
Proof. by destruct s as [|a [|b [|c s]]]. Qed.

(** A comment with a character outside ASCII before its end is a panic: [a] is the text before the
    character, [d] and [e] its first two bytes. *)
Lemma foreign_comment_panics a d e rest : all_chars ascii_byte a = true -> contains_text "-->" a = false ->
  ascii_byte d = false -> continuation d = false -> continuation e = true -> (2 <= String.length rest)%nat ->
  comment_end (a +:+ String d (String e rest)) = Panics.
Proof.
  intros Ha Hno Hd Hdc He Hlen. assert (Hdash : Ascii.eqb d "-" = false) by (by destruct d as [[] [] [] [] [] [] [] []]).
  destruct rest as [|r0 [|r1 rest]]; [cbn in Hlen; lia..|].
  induction a as [|x a IH].
  - cbn [String.append]. rewrite comment_end_step. unfold three_bytes. rewrite Hdc. cbn [orb]. destruct (continuation r1); [done|].
    cbn [String.eqb]. rewrite Hdash. rewrite comment_end_step. unfold three_bytes. by rewrite He.
  - cbn [all_chars] in Ha. apply andb_true_iff in Ha as [Hx Ha]. cbn [contains_text] in Hno. apply orb_false_iff in Hno as [Hno1 Hno].
    specialize (IH Ha Hno). apply ascii_not_continuation in Hx. rewrite str_app_cons, comment_end_step.
    destruct a as [|y [|z a]]; cbn [String.append] in *.
    + unfold three_bytes. rewrite Hx. cbn [orb]. destruct (continuation r0); [done|]. cbn [String.eqb]. rewrite Hdash.
      by destruct (Ascii.eqb x "-").
    + unfold three_bytes. by rewrite Hx, He.
    + assert (Hw : three_bytes (String x (String y (String z (a +:+ String d (String e (String r0 (String r1 rest))))))) = Some (String x (String y (String z "")))).
      { unfold three_bytes. rewrite Hx. cbn [orb]. destruct a as [|w a]; cbn [String.append]; [by rewrite Hdc|].
        cbn [all_chars] in Ha. apply andb_true_iff in Ha as [_ Ha]. apply andb_true_iff in Ha as [_ Ha]. apply andb_true_iff in Ha as [Hw _].
        by rewrite (ascii_not_continuation w Hw). }
      rewrite Hw. destruct (String.eqb_spec (String x (String y (String z ""))) "-->") as [Heq|_]; [|exact IH].
      injection Heq as -> -> ->. by destruct a.
Qed.

(** * Printing and reading back *)

Definition escape_char (c : ascii) : string :=
  if Ascii.eqb c "&" then "&amp;" else if Ascii.eqb c "<" then "&lt;" else if Ascii.eqb c dquote then "&quot;" else chr c.
Definition escape (s : string) : string := concat_map escape_char s.

Definition print_attr (kv : string * string) : string := " " +:+ kv.1 +:+ "=" +:+ chr dquote +:+ escape kv.2 +:+ chr dquote.
Definition concat_str (l : list string) : string := foldr String.append "" l.

Fixpoint print_node (node : XmlNode) : string :=
  match node with
  | mkXmlNode (Text text) _ => escape text
  | mkXmlNode (Element name attrs) children =>
      "<" +:+ name +:+ concat_str (print_attr <$> map_to_list attrs) +:+ ">" +:+ concat_str (print_node <$> children) +:+ "</" +:+ name +:+ ">"
  end.
Definition print_nodes (nodes : list XmlNode) : string := concat_str (print_node <$> nodes).

(** Texts that do not spell the two entities that are replaced after the ampersand. *)
Definition entity_free (s : string) : bool := negb (contains_text "&quot;" s) && negb (contains_text "&apos;" s).

Definition is_text (node : XmlNode) : bool := match node with mkXmlNode (Text _) _ => true | _ => false end.

Fixpoint texts_apart (nodes : list XmlNode) : bool :=
  match nodes with
  | a :: (b :: _) as nodes => negb (is_text a && is_text b) && texts_apart nodes
  | _ => true
  end.

(** Names of name characters, texts that are not empty and not next to each other. *)
Fixpoint printable (node : XmlNode) : bool :=
  match node with
  | mkXmlNode (Text text) children => is_nil children && negb (String.eqb text "") && entity_free text
  | mkXmlNode (Element name attrs) children =>
      all_chars name_char name
      && forallb (fun kv => all_chars name_char kv.1 && entity_free kv.2) (map_to_list attrs)
      && texts_apart children && forallb printable children
  end.

(** ** Entities *)

Lemma replace_enough n m p b s : (0 < String.length p)%nat -> (String.length s <= n)%nat -> (String.length s <= m)%nat ->
  replace_go n p b s = replace_go m p b s.
Proof.
  intros Hp. revert m s. induction n as [|n IH]; intros m s Hn Hm; [destruct s; [by destruct m|cbn in Hn; lia]|].
  destruct s as [|c s]; [by destruct m|]. destruct m as [|m]; [cbn in Hm; lia|]. cbn [replace_go]. cbn [String.length] in Hn, Hm.
  destruct (starts_with p (String c s)); f_equal; apply IH; pose proof (drop_length (String.length p) (String c s)) as Hd; cbn [String.length] in Hd; lia.
Qed.

Lemma replace_cons p b c s : (0 < String.length p)%nat -> replace_text p b (String c s) =
  if starts_with p (String c s) then b +:+ replace_text p b (drop_bytes (String.length p) (String c s)) else String c (replace_text p b s).
Proof.
  intros Hp. unfold replace_text at 1. cbn [String.length replace_go]. destruct (starts_with p (String c s)); [|done]. f_equal.
  unfold replace_text. apply replace_enough; [done| |done]. pose proof (drop_length (String.length p) (String c s)) as Hd. cbn [String.length] in Hd. lia.
Qed.

(** A text that the replacement passes over. *)
Definition inert (p b x : string) : Prop := forall r, replace_text p b (x +:+ r) = x +:+ replace_text p b r.

Lemma starts_other a p c s : a <> c -> starts_with (String a p) (String c s) = false.
Proof. intros Hne. unfold starts_with. cbn [String.prefix]. by destruct (ascii_dec a c). Qed.

Lemma inert_cons a p b c x : a <> c -> inert (String a p) b x -> inert (String a p) b (String c x).
Proof. intros Hne Hx r. rewrite str_app_cons, replace_cons by (cbn; lia). rewrite starts_other by done. by rewrite Hx. Qed.

Lemma inert_nil p b : inert p b "".
Proof. by intros r. Qed.

(** A replacement, character by character of what the text encodes. *)
Lemma replace_chunks p b f g s : (0 < String.length p)%nat ->
  (forall c, (f c = p /\ g c = b) \/ (f c = g c /\ inert p b (f c))) -> replace_text p b (concat_map f s) = concat_map g s.
Proof.
  intros Hp Hfg. induction s as [|c s IH]; [done|]. cbn [concat_map]. destruct (Hfg c) as [[-> ->]|[<- Hi]].
  - destruct p as [|a p]; [cbn in Hp; lia|]. rewrite str_app_cons, replace_cons by done. rewrite <- str_app_cons, starts_app, drop_app. by rewrite IH.
  - by rewrite Hi, IH.
Qed.

Lemma replace_absent p b s : (0 < String.length p)%nat -> contains_text p s = false -> replace_text p b s = s.
Proof.
  intros Hp. induction s as [|c s IH]; [done|]. cbn [contains_text]. intros [H1 H2]%orb_false_iff. rewrite replace_cons by done. by rewrite H1, IH.
Qed.

(** The text between two of the replacements. *)
Definition lt_left (c : ascii) : string := if Ascii.eqb c "&" then "&amp;" else if Ascii.eqb c dquote then "&quot;" else chr c.
Definition quot_left (c : ascii) : string := if Ascii.eqb c dquote then "&quot;" else chr c.

Lemma inert_char p b c : "&"%char <> c -> inert (String "&" p) b (chr c).
Proof. intros Hc. apply inert_cons; [done|apply inert_nil]. Qed.

(** Another entity. *)
Lemma inert_entity p b y : contains_char "&" y = false -> (forall r, starts_with p (y +:+ r) = false) -> inert (String "&" p) b (String "&" y).
Proof.
  intros Hy Hp r. rewrite str_app_cons, replace_cons by (cbn; lia).
  assert (Hs : starts_with (String "&" p) (String "&" (y +:+ r)) = false) by (specialize (Hp r); unfold starts_with in *; cbn; by destruct (ascii_dec "&" "&")).
  rewrite Hs. cbn [String.append]. f_equal. clear Hp Hs. induction y as [|c y IH]; [done|]. cbn [contains_char] in Hy. apply orb_false_iff in Hy as [Hc Hy].
  cbn [String.append]. rewrite replace_cons by (cbn; lia). rewrite starts_other by (intros <-; by rewrite Ascii.eqb_refl in Hc). by rewrite (IH Hy).
Qed.

(** The cases of a character: one of the three that are encoded, or another one. *)
Ltac encoded c := let Ha := fresh in destruct (Ascii.eqb_spec c "&") as [->|Ha]; [|destruct (Ascii.eqb_spec c "<") as [->|]; [|destruct (Ascii.eqb_spec c dquote) as [->|]]].
Ltac inert_chunk := first [apply inert_entity; [done|by intros r] | apply inert_char; congruence].

Lemma gt_pass s : replace_text "&gt;" ">" (concat_map escape_char s) = concat_map escape_char s.
Proof.
  apply replace_chunks; [cbn; lia|]. intros c. right. split; [done|]. unfold escape_char. encoded c; inert_chunk.
Qed.

Lemma lt_pass s : replace_text "&lt;" "<" (concat_map escape_char s) = concat_map lt_left s.
Proof.
  apply replace_chunks; [cbn; lia|]. intros c. unfold escape_char, lt_left. encoded c; [right|left; done|right|right]; (split; [done|inert_chunk]).
Qed.

Lemma amp_pass s : replace_text "&amp;" "&" (concat_map lt_left s) = concat_map quot_left s.
Proof.
  apply replace_chunks; [cbn; lia|]. intros c. unfold lt_left, quot_left. encoded c; [left; done|right..]; (split; [done|inert_chunk]).
Qed.

Lemma concat_chr s : concat_map chr s = s.
Proof. induction s as [|c s IH]; [done|]. cbn. by rewrite IH. Qed.

(** No entity begins where none began before. *)
Lemma quot_left_starts p s : contains_char "&" p = false -> contains_char dquote p = false ->
  starts_with p (concat_map quot_left s) = starts_with p s.
Proof.
  revert s. induction p as [|a p IH]; intros s Ha Hq; [by destruct (concat_map quot_left s), s|]. cbn [contains_char] in Ha, Hq.
  apply orb_false_iff in Ha as [Ha1 Ha2], Hq as [Hq1 Hq2]. destruct s as [|c s]; [done|]. cbn [concat_map]. unfold quot_left at 1.
  destruct (Ascii.eqb_spec c dquote) as [->|Hc].
  - rewrite str_app_cons. rewrite !starts_other; [done|by apply Ascii.eqb_neq|by apply Ascii.eqb_neq].
  - unfold chr. cbn [String.append]. unfold starts_with in *. cbn [String.prefix]. destruct (ascii_dec a c); [by apply IH|done].
Qed.

Lemma quot_pass s : contains_text "&quot;" s = false -> replace_text "&quot;" (chr dquote) (concat_map quot_left s) = s.
Proof.
  induction s as [|c s IH]; [done|]. intros Hno. cbn [contains_text] in Hno. apply orb_false_iff in Hno as [H1 H2]. specialize (IH H2).
  cbn [concat_map]. unfold quot_left at 1. destruct (Ascii.eqb_spec c dquote) as [->|Hc].
  - change ("&quot;" +:+ ?x) with (String "&" ("quot;" +:+ x)). rewrite replace_cons by (cbn; lia).
    change (String "&" ("quot;" +:+ ?x)) with ("&quot;" +:+ x). rewrite starts_app, drop_app, IH. done.
  - change (chr c +:+ ?x) with (String c x). rewrite replace_cons by (cbn; lia).
    assert (Hs : starts_with "&quot;" (String c (concat_map quot_left s)) = false).
    { destruct (Ascii.eqb_spec "&" c) as [<-|Hne]; [|by apply starts_other].
      assert (Hh : forall x, starts_with "&quot;" (String "&" x) = starts_with "quot;" x) by done.
      rewrite Hh in *. by rewrite quot_left_starts. }
    by rewrite Hs, IH.
Qed.

Lemma unescape_escape s : entity_free s = true -> unescape (escape s) = s.
Proof.
  unfold entity_free. rewrite andb_true_iff, !negb_true_iff. intros [Hq Ha]. unfold unescape, escape.
  rewrite gt_pass, lt_pass, amp_pass, quot_pass by done. apply replace_absent; [cbn; lia|done].
Qed.

(** ** Names and attributes *)

Lemma span_stop p a c r : all_chars p a = true -> p c = false -> span p (a +:+ String c r) = (a, String c r).
Proof.
  intros Ha Hc. induction a as [|x a IH]; [cbn [String.append span]; by rewrite Hc|]. cbn [all_chars] in Ha. apply andb_true_iff in Ha as [Hx Ha].
  cbn [String.append span]. by rewrite Hx, IH.
Qed.

Lemma span_whole p a : all_chars p a = true -> span p a = (a, "").
Proof. induction a as [|x a IH]; [done|]. cbn [all_chars span]. intros [Hx Ha]%andb_true_iff. by rewrite Hx, IH. Qed.

Lemma skip_other c s : is_ascii_whitespace c = false -> skip_whitespace (String c s) = String c s.
Proof. intros Hc. unfold skip_whitespace. cbn [span]. by rewrite Hc. Qed.

Lemma skip_space s : skip_whitespace (" " +:+ s) = skip_whitespace s.
Proof. unfold skip_whitespace. cbn. by destruct (span is_ascii_whitespace s). Qed.

Lemma name_char_kind c : name_char c = true -> is_ascii_whitespace c = false /\ Ascii.eqb c ">" = false /\ Ascii.eqb c "/" = false /\ Ascii.eqb c "!" = false.
Proof. destruct c as [[] [] [] [] [] [] [] []]; done. Qed.

(** A name and a character behind it that is none of a name: what the text begins with. *)
Lemma name_head a c r : all_chars name_char a = true -> exists h t, a +:+ String c r = String h t /\ (name_char h = true \/ h = c).
Proof.
  destruct a as [|h a]; [intros _; exists c, r; auto|]. cbn [all_chars]. intros [Hh _]%andb_true_iff. exists h, (a +:+ String c r). auto.
Qed.

Lemma escape_no_quote s : contains_char dquote (escape s) = false.
Proof.
  unfold escape. induction s as [|c s IH]; [done|]. cbn [concat_map]. unfold escape_char.
  destruct (Ascii.eqb c "&"), (Ascii.eqb c "<"); [exact IH..|]. destruct (Ascii.eqb c dquote) eqn:Hq; [exact IH|]. cbn. by rewrite Hq.
Qed.

Lemma escape_no_tag s : all_chars (fun c => negb (Ascii.eqb c "<")) (escape s) = true.
Proof.
  unfold escape. induction s as [|c s IH]; [done|]. cbn [concat_map]. rewrite all_chars_app, IH, andb_true_r. unfold escape_char.
  destruct (Ascii.eqb c "&"); [done|]. destruct (Ascii.eqb c "<") eqn:Hc; [done|]. destruct (Ascii.eqb c dquote); [done|]. cbn. by rewrite Hc.
Qed.

Lemma split_once_stop c a r : contains_char c a = false -> split_once c (a +:+ String c r) = Some (a, r).
Proof.
  induction a as [|x a IH]; [cbn; by rewrite Ascii.eqb_refl|]. cbn [contains_char]. intros [Hx Ha]%orb_false_iff. cbn [String.append split_once].
  rewrite Hx, (IH Ha). done.
Qed.

Lemma read_printed_value v r : entity_free v = true -> read_attr_value (chr dquote +:+ escape v +:+ chr dquote +:+ r) = oret (v, r).
Proof.
  intros Hv. change (chr dquote +:+ ?x) with (String dquote x). unfold read_attr_value. cbn [Ascii.eqb negb andb].
  change (negb (Ascii.eqb dquote dquote) && negb (Ascii.eqb dquote squote)) with false.
  change (chr dquote +:+ r) with (String dquote r). rewrite split_once_stop by apply escape_no_quote. by rewrite unescape_escape.
Qed.

Lemma turn_printed attrs k v r : all_chars name_char k = true -> entity_free v = true ->
  attrs_turn attrs (print_attr (k, v) +:+ r) = inr (<[k := v]> attrs, r).
Proof.
  intros Hk Hv. unfold print_attr. cbn [fst snd]. rewrite !str_app_assoc. change ("=" +:+ ?x) with (String "=" x).
  unfold attrs_turn. rewrite skip_space. destruct (name_head k "=" (chr dquote +:+ escape v +:+ chr dquote +:+ r) Hk) as (h & t & Heq & Hh).
  rewrite Heq. assert (Hkind : is_ascii_whitespace h = false /\ Ascii.eqb h ">" = false /\ Ascii.eqb h "/" = false).
  { destruct Hh as [Hh| ->]; [|done]. by destruct (name_char_kind h Hh) as (? & ? & ? & _). }
  destruct Hkind as (Hw & Hgt & Hsl). rewrite skip_other by done. rewrite Hgt. rewrite (starts_other "/" ">") by (intros <-; done).
  rewrite <- Heq. unfold read_name. rewrite span_stop by done. rewrite skip_other by done.
  change (starts_with "=" (String "=" ?x)) with (starts_with "=" ("=" +:+ x)). rewrite starts_app.
  change (drop_bytes 1 (String "=" ?x)) with (drop_bytes (String.length "=") ("=" +:+ x)). rewrite drop_app.
  assert (Hq : skip_whitespace (chr dquote +:+ escape v +:+ chr dquote +:+ r) = chr dquote +:+ escape v +:+ chr dquote +:+ r) by (by apply skip_other).
  by rewrite Hq, read_printed_value.
Qed.

Definition insert_pair (m : gmap string string) (kv : string * string) : gmap string string := <[kv.1 := kv.2]> m.

Lemma read_printed_attrs n l attrs r : (String.length (concat_str (print_attr <$> l) +:+ ">" +:+ r) < n)%nat ->
  Forall (fun kv => all_chars name_char kv.1 && entity_free kv.2 = true) l ->
  read_attrs n attrs (concat_str (print_attr <$> l) +:+ ">" +:+ r) = oret (foldl insert_pair attrs l, false, r).
Proof.
  intros Hn Hl. revert n attrs Hn. induction Hl as [|[k v] l [Hk Hv]%andb_true_iff Hl IH]; intros n attrs Hn.
  - destruct n as [|n]; [lia|]. by rewrite read_attrs_turn.
  - rewrite fmap_cons in Hn |- *. cbn [concat_str foldr] in Hn |- *. fold (concat_str (print_attr <$> l)) in Hn |- *.
    rewrite str_app_assoc in Hn |- *. destruct n as [|n]; [lia|]. rewrite read_attrs_turn, turn_printed by done. apply IH.
    rewrite str_app_length in Hn. assert (Hpos : (0 < String.length (print_attr (k, v)))%nat) by (cbn; lia). lia.
Qed.

Lemma foldl_insert_pairs (m : gmap string string) : foldl insert_pair ∅ (map_to_list m) = m.
Proof.
  assert (Hf : forall l, foldl insert_pair ∅ l = list_to_map (reverse l)).
  { induction l as [|[k v] l IH] using rev_ind; [done|]. rewrite foldl_snoc, reverse_snoc, IH. done. }
  rewrite Hf. rewrite <- (list_to_map_to_list m) at 2. apply list_to_map_proper; [|by rewrite reverse_Permutation].
  rewrite reverse_Permutation. apply NoDup_fst_map_to_list.
Qed.

(** ** Nodes *)

(** What may follow the children of an element. *)
Definition ends (r : string) : Prop := r = "" \/ starts_with "</" r = true.

Definition element_reads (node : XmlNode) : Prop := is_text node = false -> forall n r,
  (String.length (print_node node +:+ r) < n)%nat -> parse_element n (print_node node +:+ r) = oret (node, r).

Lemma print_nodes_cons node nodes : print_nodes (node :: nodes) = print_node node +:+ print_nodes nodes.
Proof. done. Qed.

(** An element, printed, begins with its tag. *)
Lemma element_head node : is_text node = false -> printable node = true ->
  exists h t, print_node node = String "<" (String h t) /\ Ascii.eqb h "/" = false /\ Ascii.eqb h "!" = false.
Proof.
  destruct node as [[text|name attrs] cs]; [done|]. intros _. cbn [printable print_node]. rewrite !andb_true_iff. intros [[[Hn _] _] _].
  set (tail := concat_str (print_node <$> cs) +:+ "</" +:+ name +:+ ">"). change ("<" +:+ ?x) with (String "<" x).
  destruct name as [|c name].
  - cbn [String.append]. destruct (map_to_list attrs) as [|kv l]; [by exists ">"%char, tail|].
    eexists _, _. split; [reflexivity|done].
  - cbn [all_chars] in Hn. apply andb_true_iff in Hn as [Hc _]. apply name_char_kind in Hc as (_ & _ & Hs & He).
    eexists c, _. split; [reflexivity|done].
Qed.

Lemma next_is_child node r : is_text node = false -> printable node = true -> next_item (print_node node +:+ r) = Child.
Proof.
  intros Ht Hp. destruct (element_head node Ht Hp) as (h & t & -> & Hs & He). cbn [String.append]. unfold next_item.
  assert (H1 : starts_with "</" (String "<" (String h (t +:+ r))) = false).
  { change (starts_with "/" (String h (t +:+ r)) = false). rewrite (starts_char "/" h). by rewrite Ascii.eqb_sym. }
  assert (H2 : starts_with "<!--" (String "<" (String h (t +:+ r))) = false).
  { change (starts_with "!--" (String h (t +:+ r)) = false). apply starts_other. intros <-. by rewrite Ascii.eqb_refl in He. }
  rewrite H1, H2. cbn [String.eqb orb]. by rewrite (starts_char "<" "<").
Qed.

Lemma ends_no_child r : ends r -> next_item r = NoChild.
Proof. intros [->|Hr]; [done|]. unfold next_item. by rewrite Hr, orb_true_r. Qed.

Lemma print_element name attrs cs r : print_node (mkXmlNode (Element name attrs) cs) +:+ r
  = "<" +:+ name +:+ concat_str (print_attr <$> map_to_list attrs) +:+ ">" +:+ print_nodes cs +:+ "</" +:+ name +:+ ">" +:+ r.
Proof. cbn [print_node]. unfold print_nodes. by rewrite !str_app_assoc. Qed.

Lemma text_head c t : exists h x, escape (String c t) = String h x /\ Ascii.eqb h "<" = false.
Proof.
  unfold escape. cbn [concat_map]. unfold escape_char at 1. destruct (Ascii.eqb c "&"); [by eexists _, _|].
  destruct (Ascii.eqb c "<") eqn:Hc; [by eexists _, _|]. destruct (Ascii.eqb c dquote); [by eexists _, _|]. by exists c, (concat_map escape_char t).
Qed.

Lemma next_is_text t x : t <> "" -> next_item (escape t +:+ x) = Characters.
Proof.
  destruct t as [|c t]; [done|]. intros _. destruct (text_head c t) as (h & y & -> & Hh). cbn [String.append]. unfold next_item.
  assert (Hne : "<"%char <> h) by (intros <-; by rewrite Ascii.eqb_refl in Hh). by rewrite !starts_other.
Qed.

(** What follows a text. *)
Definition tag_or_end (x : string) : Prop := x = "" \/ exists y, x = String "<" y.

Lemma parse_printed_text t x : entity_free t = true -> tag_or_end x -> parse_text (escape t +:+ x) = (t, x).
Proof.
  intros Ht Hx. unfold parse_text. pose proof (escape_no_tag t) as Hn.
  assert (Hs : span (fun c => negb (Ascii.eqb c "<")) (escape t +:+ x) = (escape t, x)).
  { destruct Hx as [->|[y ->]]; [by rewrite str_app_nil_r, span_whole|by apply span_stop]. }
  by rewrite Hs, unescape_escape.
Qed.

Lemma after_text cs r : ends r -> forallb printable cs = true -> match cs with c :: _ => is_text c = false | [] => True end ->
  tag_or_end (print_nodes cs +:+ r).
Proof.
  intros Hr Hp Hc. destruct cs as [|c cs].
  - destruct Hr as [->|Hr]; [by left|]. right. apply prefix_drop in Hr. cbn [print_nodes concat_str foldr fmap list_fmap]. cbn [String.append].
    eexists. rewrite Hr at 1. done.
  - right. cbn [forallb] in Hp. apply andb_true_iff in Hp as [Hp _]. destruct (element_head c Hc Hp) as (h & t & Hh & _).
    rewrite print_nodes_cons, Hh. by eexists.
Qed.

Lemma read_printed_nodes cs r : Forall element_reads cs -> forallb printable cs = true -> texts_apart cs = true -> ends r ->
  forall n acc, (String.length (print_nodes cs +:+ r) + 2 <= n)%nat -> parse_children n acc (print_nodes cs +:+ r) = oret ((acc ++ cs)%list, r).
Proof.
  intros He Hp Ha Hr. induction He as [|c cs Hc He IH]; intros n acc Hn.
  { destruct n as [|n]; [lia|]. change (print_nodes [] +:+ r) with r. by rewrite parse_children_item, ends_no_child, app_nil_r. }
  pose proof Hp as Hp'. cbn [forallb] in Hp'. apply andb_true_iff in Hp' as [Hpc Hps].
  assert (Ha' : texts_apart cs = true) by (cbn in Ha; destruct cs; [done|]; by apply andb_true_iff in Ha as [_ Ha]).
  rewrite print_nodes_cons, str_app_assoc in Hn |- *. destruct n as [|n]; [lia|]. rewrite parse_children_item. rewrite str_app_length in Hn.
  destruct (is_text c) eqn:Ht.
  - destruct c as [[text|name attrs] gs]; [|done]. cbn [printable] in Hpc. rewrite !andb_true_iff in Hpc. destruct Hpc as [[Hg Hne] Hfree].
    assert (text <> "") by (by destruct (String.eqb_spec text "")). destruct gs; [|done]. cbn [print_node] in *. rewrite next_is_text by done.
    rewrite parse_printed_text; [|done|apply after_text; try done].
    + cbn [fst snd]. rewrite IH; [by rewrite <- app_assoc|done|done|].
      destruct text as [|x text]; [done|]. destruct (text_head x text) as (h & y & Hh & _). rewrite Hh in Hn. cbn in Hn. lia.
    + destruct cs as [|c cs]; [done|]. cbn [texts_apart] in Ha. apply andb_true_iff in Ha as [Ha _]. by destruct (is_text c).
  - rewrite next_is_child by done. rewrite Hc; [|done|rewrite str_app_length; lia]. cbn [obind oret].
    rewrite IH; [by rewrite <- app_assoc|done|done|]. destruct (element_head c Ht Hpc) as (h & t & Hh & _). rewrite Hh in Hn. cbn in Hn. lia.
Qed.

Lemma end_tag_printed name r : all_chars name_char name = true -> end_tag ("</" +:+ name +:+ ">" +:+ r) = (name, r).
Proof.
  intros Hn. unfold end_tag. rewrite (drop_app "</"). change (">" +:+ r) with (String ">" r). unfold read_name. rewrite span_stop by done.
  rewrite skip_other by done. rewrite (starts_char ">" ">"). cbn [Ascii.eqb]. change (Ascii.eqb ">" ">") with true.
  change (drop_bytes 1 (String ">" r)) with (drop_bytes (String.length ">") (">" +:+ r)). by rewrite drop_app.
Qed.

Lemma read_printed_element node : printable node = true -> element_reads node.
Proof.
  induction node as [text cs|name attrs cs IH] using XmlNode_nested_ind; [done|]. intros Hp _ n r Hn. cbn [printable] in Hp.
  rewrite !andb_true_iff in Hp. destruct Hp as [[[Hname Hattrs] Hapart] Hcs]. destruct n as [|n]; [lia|]. rewrite parse_element_tags.
  rewrite print_element in Hn |- *. rewrite !str_app_length in Hn. cbn [String.length] in Hn.
  set (tail := print_nodes cs +:+ "</" +:+ name +:+ ">" +:+ r) in *.
  assert (Hopen : open_tag n ("<" +:+ name +:+ concat_str (print_attr <$> map_to_list attrs) +:+ ">" +:+ tail) = oret (name, attrs, false, tail)).
  { unfold open_tag. rewrite (drop_app "<").
    assert (Hr : read_name (name +:+ concat_str (print_attr <$> map_to_list attrs) +:+ ">" +:+ tail) = (name, concat_str (print_attr <$> map_to_list attrs) +:+ ">" +:+ tail)).
    { unfold read_name. destruct (map_to_list attrs) as [|kv l]; [by apply span_stop|]. rewrite fmap_cons. cbn [concat_str foldr]. rewrite str_app_assoc.
      by apply span_stop. }
    rewrite Hr. rewrite read_printed_attrs, foldl_insert_pairs; [done| |].
    - unfold tail. rewrite !str_app_length. cbn [String.length]. lia.
    - apply Forall_forall. intros kv Hkv%list_elem_of_In. rewrite forallb_forall in Hattrs. by apply Hattrs. }
  rewrite Hopen. cbn [obind oret]. unfold tail. rewrite read_printed_nodes; [|..].
  - cbn [obind oret app]. unfold close_tag. rewrite (starts_app "</"). rewrite end_tag_printed by done. by rewrite String.eqb_refl.
  - rewrite Forall_forall in IH |- *. intros c Hc. apply IH; [done|]. rewrite forallb_forall in Hcs. by apply Hcs, list_elem_of_In.
  - done.
  - done.
  - right. apply (starts_app "</").
  - rewrite !str_app_length. cbn [String.length]. lia.
Qed.

(** C20. Templates survive printing.  A document of elements and texts, printed with its entities,
    is read by the parser, within its fuel, as the same trees, and the statements registered are
    its elements with an [id]; the last one of an identifier wins, and an element without one is an error. *)
Theorem xml_round_trip (nodes : list XmlNode) : forallb printable nodes = true -> texts_apart nodes = true ->
  from_xml (print_nodes nodes) = Returns (register ∅ nodes).
Proof.
  intros Hp Ha. unfold from_xml, parse_xml, parse. rewrite <- (str_app_nil_r (print_nodes nodes)).
  rewrite read_printed_nodes; [done| |done|done|by left|lia].
  apply Forall_forall. intros c Hc. apply read_printed_element. rewrite forallb_forall in Hp. by apply Hp, list_elem_of_In.
Qed.

Lemma xml_round_trip_witness :
  let find := mkXmlNode (Element "select" {["id" := "find"]})
    [mkXmlNode (Text "SELECT a & b FROM t ") []; mkXmlNode (Element "if" {["test" := "x < 3"]}) [mkXmlNode (Text "WHERE a <> #{x}") []]] in
  from_xml (print_nodes [mkXmlNode (Text " ") []; find]) = oret {["find" := find]}.
Proof. cbv zeta. rewrite xml_round_trip by reflexivity. reflexivity. Defined.

(** The order of the replacements shows where an entity is spelled in a text. *)
Example unescape_once_more : unescape (escape "&quot;") = chr dquote.
Proof. vm_compute. reflexivity. Qed.

(** What is behind an end tag of the root is not read. *)
Example rest_ignored : from_xml "<select id='a'/></x><select id='b'/>" = oret {["a" := mkXmlNode (Element "select" {["id" := "a"]}) []]}.
Proof. vm_compute. reflexivity. Qed.
