(* ===== verification/L1Cache.v ===== *)
(** The session cache: [packages/sz-orm-core/src/l1_cache.rs].  An identity map with LRU
    eviction, its refinement of a reference LRU list, and the coordinator that puts it
    before the shared cache and the database. *)

From S2P Require Import Prelude Value.

(** * [L1Cache] *)

(** [A] is the [Arc<T>] of a value: its address and the value. *)
Record L1Cache (A : Type) : Type := mkL1 {
  data : gmap Z (A * Z);
  clock : Z;
  capacity : nat;
  hits : Z;
  misses : Z;
  evicts : Z;
}.
Arguments mkL1 {A}.
Arguments data {A}.
Arguments clock {A}.
Arguments capacity {A}.
Arguments hits {A}.
Arguments misses {A}.
Arguments evicts {A}.

Record L1CacheStats : Type := mkL1Stats {
  st_hits : Z;
  st_misses : Z;
  st_entry_count : nat;
  st_evict_count : Z;
}.

(** [min_by_key] over the entries: the first entry with the least timestamp in the
    iteration order, which [HashMap] leaves open and [map_to_list] stands for. *)
Definition min_entry {A} (acc : option (Z * (A * Z))) (kv : Z * (A * Z)) : option (Z * (A * Z)) :=
  match acc with
  | None => Some kv
  | Some kv0 => if (snd (snd kv) <? snd (snd kv0))%Z then Some kv else Some kv0
  end.

Definition victim {A} (m : gmap Z (A * Z)) : option Z :=
  fst <$> fold_left min_entry (map_to_list m) None.

Section Cache.
Context {A : Type}.
Implicit Types c : L1Cache A.

Definition l1_new (cap : nat) : L1Cache A := mkL1 ∅ 0 (Nat.max cap 1) 0 0 0.

Definition l1_put (key : Z) (value : A) c : L1Cache A :=
  let clk := wrap64 (clock c + 1) in
  match data c !! key with
  | Some _ =>
      mkL1 (<[key := (value, clk)]> (data c)) clk (capacity c) (hits c) (misses c) (evicts c)
  | None =>
      let '(m, ev) :=
        if (capacity c <=? size (data c))%nat then
          match victim (data c) with
          | Some v => (delete v (data c), wrap64 (evicts c + 1))
          | None => (data c, evicts c)
          end
        else (data c, evicts c) in
      mkL1 (<[key := (value, clk)]> m) clk (capacity c) (hits c) (misses c) ev
  end.

Definition l1_get (key : Z) c : option A * L1Cache A :=
  match data c !! key with
  | Some (value, _) =>
      let clk := wrap64 (clock c + 1) in
      (Some value, mkL1 (<[key := (value, clk)]> (data c)) clk (capacity c)
                     (wrap64 (hits c + 1)) (misses c) (evicts c))
  | None =>
      (None, mkL1 (data c) (clock c) (capacity c) (hits c) (wrap64 (misses c + 1)) (evicts c))
  end.

Definition l1_evict (key : Z) c : L1Cache A :=
  mkL1 (delete key (data c)) (clock c) (capacity c) (hits c) (misses c) (evicts c).

Definition l1_clear c : L1Cache A :=
  mkL1 ∅ (clock c) (capacity c) (hits c) (misses c) (evicts c).

Definition l1_len c : nat := size (data c).

Definition l1_stats c : L1CacheStats := mkL1Stats (hits c) (misses c) (size (data c)) (evicts c).

(** ** The reference: a list with the least recently used entry first *)

Definition lru_put (cap : nat) (key : Z) (value : A) (l : list (Z * A)) : list (Z * A) :=
  match assoc_find key l with
  | Some _ => assoc_drop key l ++ [(key, value)]
  | None => (if (cap <=? length l)%nat then tail l else l) ++ [(key, value)]
  end.

Definition lru_get (key : Z) (l : list (Z * A)) : option A * list (Z * A) :=
  match assoc_find key l with
  | Some value => (Some value, assoc_drop key l ++ [(key, value)])
  | None => (None, l)
  end.

(** ** Operations and runs *)

Inductive CacheOp : Type :=
| OpPut (key : Z) (value : A)
| OpGet (key : Z)
| OpEvict (key : Z)
| OpClear.

(** The answers of the [get]s of a run, and the state it ends in. *)
Definition l1_step (op : CacheOp) c : list (option A) * L1Cache A :=
  match op with
  | OpPut k v => ([], l1_put k v c)
  | OpGet k => let '(r, c') := l1_get k c in ([r], c')
  | OpEvict k => ([], l1_evict k c)
  | OpClear => ([], l1_clear c)
  end.

Definition lru_step (cap : nat) (op : CacheOp) (l : list (Z * A)) : list (option A) * list (Z * A) :=
  match op with
  | OpPut k v => ([], lru_put cap k v l)
  | OpGet k => let '(r, l') := lru_get k l in ([r], l')
  | OpEvict k => ([], assoc_drop k l)
  | OpClear => ([], [])
  end.

Fixpoint run_ops {St} (step : CacheOp -> St -> list (option A) * St) (ops : list CacheOp) (s : St) :
    list (option A) * St :=
  match ops with
  | [] => ([], s)
  | op :: ops =>
      let '(r1, s1) := step op s in
      let '(r2, s2) := run_ops step ops s1 in (r1 ++ r2, s2)
  end.

(** ** The refinement relation

    [e] is the entries of the map in the order of their timestamps. *)
Record represents c (e : list (Z * (A * Z))) : Prop := {
  rep_data : data c = list_to_map e;
  rep_nodup : NoDup e.*1;
  rep_sorted : StronglySorted (fun p q => snd (snd p) < snd (snd q))%Z e;
  rep_clock : Forall (fun p => 0 <= snd (snd p) <= clock c)%Z e;
  rep_clock_pos : (0 <= clock c)%Z;
}.

Definition forget (e : list (Z * (A * Z))) : list (Z * A) := (fun p => (fst p, fst (snd p))) <$> e.

Lemma represents_lookup c e key x :
  represents c e -> data c !! key = Some x <-> (key, x) ∈ e.
Proof. intros [-> Hn _ _ _]. symmetry. by apply elem_of_list_to_map. Qed.

Lemma represents_size c e : represents c e -> size (data c) = length e.
Proof. intros [-> Hn _ _ _]. by apply map_size_list_to_map. Qed.

Lemma forget_keys (e : list (Z * (A * Z))) : (forget e).*1 = e.*1.
Proof. unfold forget. by rewrite <- list_fmap_compose. Qed.

Lemma lru_find_represents c e key :
  represents c e -> assoc_find key (forget e) = fst <$> data c !! key.
Proof.
  intros Hr. assert (Hn : NoDup (forget e).*1) by (rewrite forget_keys; apply Hr).
  destruct (data c !! key) as [[v ts]|] eqn:Hd; cbn.
  - apply (represents_lookup _ _ _ _ Hr) in Hd. apply assoc_find_Some; [done|].
    apply list_elem_of_fmap. by exists (key, (v, ts)).
  - apply assoc_find_None. rewrite forget_keys. intros [[k x] [-> Hin]]%list_elem_of_fmap.
    apply (represents_lookup _ _ _ _ Hr) in Hin. cbn in Hd. congruence.
Qed.

Lemma forget_drop key e : forget (assoc_drop key e) = assoc_drop key (forget e).
Proof.
  unfold forget, assoc_drop. induction e as [|[k x] e IH]; [done|].
  rewrite filter_cons, fmap_cons, filter_cons. cbn [fst]. by repeat case_decide; rewrite ?fmap_cons, IH.
Qed.

Lemma StronglySorted_filter {B} (R : relation B) (P : B -> Prop) `{!forall x, Decision (P x)} l :
  StronglySorted R l -> StronglySorted R (filter P l).
Proof.
  induction 1 as [|x l Hs IH Hall]; [constructor|]. rewrite filter_cons. case_decide; [|done].
  constructor; [done|]. rewrite Forall_forall in *. intros y [_ Hy]%list_elem_of_filter. auto.
Qed.

Lemma StronglySorted_snoc {B} (R : relation B) l x :
  StronglySorted R l -> Forall (fun y => R y x) l -> StronglySorted R (l ++ [x]).
Proof.
  induction 1 as [|y l Hs IH Hall]; [repeat constructor|]. intros [Hy Hl]%Forall_cons. cbn.
  constructor; [by apply IH|]. apply Forall_app. auto.
Qed.

Lemma drop_entry_map key e :
  NoDup e.*1 -> list_to_map (assoc_drop key e) = delete key (list_to_map e : gmap Z (A * Z)).
Proof.
  intros Hn. apply map_eq. intros i. apply option_eq. intros x.
  rewrite lookup_delete_Some, <- !elem_of_list_to_map by
    (done || (eapply sublist_NoDup; [done|]; apply fmap_sublist, sublist_filter)).
  unfold assoc_drop. rewrite list_elem_of_filter. cbn. naive_solver.
Qed.

(** Every operation keeps the entries sorted when it drops one and appends one at a
    fresh timestamp. *)
Lemma represents_touch c e key value c' :
  represents c e -> (clock c + 1 < 2 ^ 64)%Z ->
  clock c' = wrap64 (clock c + 1) ->
  data c' = <[key := (value, wrap64 (clock c + 1))]> (data c) ->
  represents c' (assoc_drop key e ++ [(key, (value, clock c + 1)%Z)]).
Proof.
  intros [Hd Hn Hs Hc Hp] Hb Hclk Hdata. rewrite wrap64_small in * by lia.
  pose proof (assoc_drop_NoDup key e Hn) as Hnd. pose proof (assoc_drop_fresh key e) as Hk.
  assert (Hsub : Forall (fun p => 0 <= snd (snd p) <= clock c)%Z (assoc_drop key e)).
  { rewrite Forall_forall in *. intros y [_ Hy]%list_elem_of_filter. auto. }
  split.
  - rewrite Hdata, Hd, list_to_map_snoc by done. rewrite drop_entry_map by done.
    by rewrite insert_delete_eq.
  - rewrite fmap_app. apply NoDup_app. split_and!; [done| |apply NoDup_singleton].
    intros k Hin Hk2%list_elem_of_singleton. cbn in Hk2. congruence.
  - apply StronglySorted_snoc; [by apply StronglySorted_filter|].
    eapply Forall_impl; [exact Hsub|]. cbn. intros; lia.
  - apply Forall_app. split; [|constructor; [cbn; lia|constructor]].
    eapply Forall_impl; [exact Hsub|]. cbn. intros; lia.
  - lia.
Qed.

Lemma represents_sublist c e c' e' :
  represents c e -> clock c' = clock c -> data c' = list_to_map e' -> e' `sublist_of` e ->
  represents c' e'.
Proof.
  intros [Hd Hn Hs Hc Hp] Hclk Hdata Hsub. split; [done| | | |lia].
  - eapply sublist_NoDup; [exact Hn|]. by apply fmap_sublist.
  - clear -Hs Hsub. induction Hsub as [|x l k Hsub IH|x l k Hsub IH]; [done| |].
    + apply StronglySorted_inv in Hs as [Hs Hall]. constructor; [by apply IH|].
      rewrite Forall_forall in *. intros y Hy. apply Hall. by eapply elem_of_sublist.
    + apply StronglySorted_inv in Hs as [Hs _]. by apply IH.
  - rewrite Hclk, Forall_forall in *. intros y Hy. apply Hc. by eapply elem_of_sublist.
Qed.

(** The victim is the least recently used entry. *)
Lemma fold_min_entry (l : list (Z * (A * Z))) acc :
  match fold_left min_entry l acc with
  | None => acc = None /\ l = []
  | Some r => (acc = Some r \/ r ∈ l) /\
      Forall (fun p => snd (snd r) <= snd (snd p))%Z (option_list acc ++ l)
  end.
Proof.
  revert acc. induction l as [|x l IH]; intros acc; cbn [fold_left].
  { rewrite app_nil_r. destruct acc as [r|]; cbn; [|done]. split; [by left|]. constructor; [lia|constructor]. }
  specialize (IH (min_entry acc x)). destruct (fold_left min_entry l (min_entry acc x)) as [r|].
  - destruct IH as [Hr Hall]. destruct acc as [a|]; cbn [min_entry option_list app] in *.
    + destruct (Z.ltb_spec (snd (snd x)) (snd (snd a))); cbn [option_list app] in Hall;
        apply Forall_cons in Hall as [Hh Hall].
      * split; [right; rewrite elem_of_cons; destruct Hr as [[= ->]|?]; auto|].
        repeat constructor; [lia|done|done].
      * split; [rewrite elem_of_cons; destruct Hr as [[= ->]|?]; auto|].
        repeat constructor; [done|lia|done].
    + split; [right; rewrite elem_of_cons; destruct Hr as [[= ->]|?]; auto|done].
  - destruct IH as [H _]. destruct acc as [a|]; cbn in H; [case_match|]; done.
Qed.

Lemma victim_head c key x e : represents c ((key, x) :: e) -> victim (data c) = Some key.
Proof.
  intros Hr. unfold victim. pose proof (fold_min_entry (map_to_list (data c)) None) as Hf.
  assert (Hin : forall p, p ∈ map_to_list (data c) <-> p ∈ (key, x) :: e).
  { intros [k y]. rewrite elem_of_map_to_list. by apply represents_lookup. }
  destruct (fold_left min_entry (map_to_list (data c)) None) as [[k y]|]; cbn in *.
  - destruct Hf as [[Hf|Hf] Hall]; [done|]. apply Hin in Hf.
    apply elem_of_cons in Hf as [[= -> ->]|Hf]; [done|]. exfalso.
    rewrite Forall_forall in Hall. specialize (Hall (key, x)). cbn in Hall.
    assert (snd y <= snd x)%Z by (apply Hall, Hin; left).
    pose proof (rep_sorted _ _ Hr) as [_ Hs]%StronglySorted_inv.
    rewrite Forall_forall in Hs. specialize (Hs _ Hf). cbn in Hs. lia.
  - destruct Hf as [_ Hf]. specialize (Hin (key, x)). rewrite Hf in Hin.
    exfalso. apply (not_elem_of_nil (key, x)), Hin. left.
Qed.

(** ** One step of the refinement *)

Definition capacity_ok c (e : list (Z * (A * Z))) : Prop := (1 <= capacity c /\ length e <= capacity c)%nat.

Lemma put_represents c e key value :
  represents c e -> (clock c + 1 < 2 ^ 64)%Z -> capacity_ok c e ->
  exists e', represents (l1_put key value c) e' /\
    forget e' = lru_put (capacity c) key value (forget e) /\ capacity_ok (l1_put key value c) e' /\
    clock (l1_put key value c) = (clock c + 1)%Z.
Proof.
  intros Hr Hb [Hc1 Hc2]. pose proof (rep_clock_pos _ _ Hr).
  assert (Hw : wrap64 (clock c + 1) = (clock c + 1)%Z) by (apply wrap64_small; lia).
  unfold lru_put. rewrite (lru_find_represents _ _ _ Hr).
  destruct (data c !! key) as [x|] eqn:Hk; cbn [fmap option_fmap option_map].
  - exists (assoc_drop key e ++ [(key, (value, clock c + 1)%Z)]). split_and!.
    + apply (represents_touch c); [done|done| |]; unfold l1_put; by rewrite Hk.
    + unfold forget. rewrite fmap_app. fold (forget (assoc_drop key e)). by rewrite forget_drop.
    + unfold l1_put. rewrite Hk. split; [done|]. rewrite length_app. cbn.
      assert (length (assoc_drop key e) < length e)%nat; [|lia].
      apply (represents_lookup _ _ _ _ Hr) in Hk. unfold assoc_drop.
      eapply length_filter_lt; [exact Hk|]. cbn. by intros Hn.
    + unfold l1_put. by rewrite Hk.
  - assert (Hkn : key ∉ e.*1).
    { intros [[k x] [-> Hin]]%list_elem_of_fmap. apply (represents_lookup _ _ _ _ Hr) in Hin.
      cbn in Hk. congruence. }
    unfold l1_put. rewrite Hk, (represents_size _ _ Hr).
    assert (Hlen : length (forget e) = length e) by apply length_fmap. rewrite Hlen.
    set (e1 := if (capacity c <=? length e)%nat then tail e else e).
    assert (exists c1, represents c1 e1 /\ clock c1 = clock c /\
      data c1 = fst (if (capacity c <=? length e)%nat then
          match victim (data c) with
          | Some v => (delete v (data c), wrap64 (evicts c + 1))
          | None => (data c, evicts c)
          end else (data c, evicts c))) as (c1 & Hr1 & Hclk1 & Hd1).
    { unfold e1. destruct (Nat.leb_spec (capacity c) (length e)); [|by exists c].
      destruct e as [|[k x] e]; [cbn in *; lia|]. rewrite (victim_head _ _ _ _ Hr).
      exists (l1_evict k c). split; [|done]. apply (represents_sublist _ _ _ _ Hr); [done| |].
      - cbn [l1_evict data tail]. rewrite (rep_data _ _ Hr). cbn.
        rewrite delete_insert_id; [done|]. apply not_elem_of_list_to_map_1.
        pose proof (rep_nodup _ _ Hr) as Hn. cbn in Hn. by apply NoDup_cons in Hn as [? _].
      - cbn. by constructor. }
    match type of Hd1 with _ = fst ?t => revert Hd1; generalize t end. intros [m ev]. cbn [fst].
    intros <-.
    assert (Hk1 : key ∉ e1.*1).
    { unfold e1. destruct (capacity c <=? length e)%nat; [|done]. destruct e; [done|].
      cbn in *. intros ?. apply Hkn. by right. }
    assert (Hdrop : assoc_drop key e1 = e1).
    { by apply assoc_drop_absent. }
    exists (e1 ++ [(key, (value, clock c + 1)%Z)]). split_and!.
    + rewrite <- Hdrop, <- Hclk1. apply (represents_touch c1); [done|lia| |]; cbn; by rewrite Hclk1.
    + unfold forget. rewrite fmap_app. f_equal. unfold e1.
      destruct (capacity c <=? length e)%nat; [by destruct e|done].
    + split; [done|]. cbn [capacity]. rewrite length_app. unfold e1. cbn [length].
      destruct (Nat.leb_spec (capacity c) (length e)); [destruct e; cbn in *; lia|lia].
    + done.
Qed.

Lemma get_represents c e key :
  represents c e -> (clock c + 1 < 2 ^ 64)%Z -> capacity_ok c e ->
  let '(r, c') := l1_get key c in
  exists e', represents c' e' /\ lru_get key (forget e) = (r, forget e') /\ capacity_ok c' e' /\
    capacity c' = capacity c /\ (clock c' <= clock c + 1)%Z.
Proof.
  intros Hr Hb [Hc1 Hc2]. unfold l1_get, lru_get. rewrite (lru_find_represents _ _ _ Hr).
  pose proof (rep_clock_pos _ _ Hr).
  assert (Hw : wrap64 (clock c + 1) = (clock c + 1)%Z) by (apply wrap64_small; lia).
  destruct (data c !! key) as [[v ts]|] eqn:Hk; cbn.
  - exists (assoc_drop key e ++ [(key, (v, clock c + 1)%Z)]). split_and!; [| | |done|lia].
    + by apply (represents_touch c).
    + unfold forget at 2. rewrite fmap_app. fold (forget (assoc_drop key e)). by rewrite forget_drop.
    + split; [done|]. cbn. rewrite length_app. cbn.
      assert (length (assoc_drop key e) < length e)%nat; [|lia].
      apply (represents_lookup _ _ _ _ Hr) in Hk. unfold assoc_drop.
      eapply length_filter_lt; [exact Hk|]. cbn. by intros Hn.
  - exists e. split_and!; [|done|done|done|lia]. by apply (represents_sublist _ _ _ _ Hr); [|apply Hr|].
Qed.

Definition answers_hit (r : list (option A)) : Z := Z.of_nat (length (filter is_Some r)).
Definition answers_miss (r : list (option A)) : Z := Z.of_nat (length (filter (fun o => o = None) r)).

Lemma step_represents op c e :
  represents c e -> (clock c + 1 < 2 ^ 64)%Z -> capacity_ok c e ->
  let '(r, c') := l1_step op c in
  exists e', represents c' e' /\ lru_step (capacity c) op (forget e) = (r, forget e') /\
    capacity_ok c' e' /\ capacity c' = capacity c /\ (clock c' <= clock c + 1)%Z /\
    hits c' = (if decide (answers_hit r = 0) then hits c else wrap64 (hits c + 1))%Z /\
    misses c' = (if decide (answers_miss r = 0) then misses c else wrap64 (misses c + 1))%Z /\
    (answers_hit r + answers_miss r <= 1)%Z.
Proof.
  intros Hr Hb Hc. destruct op as [k v|k|k|]; cbn [l1_step lru_step].
  - destruct (put_represents _ _ k v Hr Hb Hc) as (e' & He' & Hf & Hc' & Hclk). exists e'.
    rewrite Hf. split_and!; try done; try lia.
    all: unfold l1_put; destruct (data c !! k); [done|]; by destruct (if (_ <=? _)%nat then _ else _).
  - pose proof (get_represents _ _ k Hr Hb Hc) as Hg. destruct (l1_get k c) as [r c'] eqn:Hget.
    destruct Hg as (e' & He' & Hf & Hc' & Hcap & Hclk). exists e'. rewrite Hf.
    unfold l1_get in Hget. destruct (data c !! k) as [[v ts]|]; injection Hget as <- <-;
      split_and!; try done.
  - exists (assoc_drop k e). rewrite forget_drop. split_and!; try done; try lia.
    + apply (represents_sublist _ _ _ _ Hr); [done| |apply sublist_filter].
      cbn. rewrite drop_entry_map by apply Hr. by rewrite (rep_data _ _ Hr).
    + destruct Hc. split; [done|]. cbn. pose proof (length_filter (fun p => fst p <> k) e).
      unfold assoc_drop. lia.
    + cbn. lia.
  - exists []. split_and!; try done; try lia.
    + apply (represents_sublist _ _ _ _ Hr); [done|done|apply sublist_nil_l].
    + destruct Hc. split; [done|]. cbn. lia.
    + cbn. lia.
Qed.

Lemma answers_app_hit r1 r2 : answers_hit (r1 ++ r2) = (answers_hit r1 + answers_hit r2)%Z.
Proof. unfold answers_hit. rewrite filter_app, length_app. lia. Qed.

Lemma answers_app_miss r1 r2 : answers_miss (r1 ++ r2) = (answers_miss r1 + answers_miss r2)%Z.
Proof. unfold answers_miss. rewrite filter_app, length_app. lia. Qed.

Lemma run_represents ops c e :
  represents c e -> (clock c + Z.of_nat (length ops) < 2 ^ 64)%Z -> capacity_ok c e ->
  (0 <= hits c /\ hits c + Z.of_nat (length ops) < 2 ^ 64)%Z ->
  (0 <= misses c /\ misses c + Z.of_nat (length ops) < 2 ^ 64)%Z ->
  let '(r, c') := run_ops l1_step ops c in
  exists e', represents c' e' /\ run_ops (lru_step (capacity c)) ops (forget e) = (r, forget e') /\
    capacity_ok c' e' /\ capacity c' = capacity c /\
    hits c' = (hits c + answers_hit r)%Z /\ misses c' = (misses c + answers_miss r)%Z.
Proof.
  revert c e. induction ops as [|op ops IH]; intros c e Hr Hb Hc Hh Hm; cbn [run_ops].
  { exists e. split_and!; try done; change (answers_hit []) with 0%Z; change (answers_miss []) with 0%Z; lia. }
  cbn [length] in *. pose proof (step_represents op c e Hr ltac:(lia) Hc) as Hs.
  destruct (l1_step op c) as [r1 c1].
  destruct Hs as (e1 & Hr1 & Hstep & Hc1 & Hcap & Hclk & Hh1 & Hm1 & Hone).
  assert (0 <= answers_hit r1 /\ 0 <= answers_miss r1)%Z as [? ?]
    by (unfold answers_hit, answers_miss; lia).
  assert (hits c1 = hits c + answers_hit r1)%Z as Hh1'
    by (rewrite Hh1; clear Hm1; case_decide; [lia|rewrite wrap64_small; lia]).
  assert (misses c1 = misses c + answers_miss r1)%Z as Hm1'
    by (rewrite Hm1; clear Hh1; case_decide; [lia|rewrite wrap64_small; lia]).
  specialize (IH c1 e1 Hr1 ltac:(lia) Hc1 ltac:(lia) ltac:(lia)).
  destruct (run_ops l1_step ops c1) as [r2 c2]. destruct IH as (e2 & Hr2 & Hrun & Hc2 & Hcap2 & Hh2 & Hm2).
  exists e2. rewrite Hstep. rewrite Hcap in Hrun. rewrite Hrun.
  rewrite answers_app_hit, answers_app_miss. split_and!; try done; lia || congruence.
Qed.

(** C28. [L1Cache] is an LRU cache.  Over every sequence of fewer than 2^64 puts, gets,
    invalidations and clears, the answers of a new cache are those of a list that keeps its
    entries from the least to the most recently used one and drops the first when it is full;
    the map holds the entries of that list, never more than [max(capacity, 1)], and the
    counters are the numbers of hits and misses. *)
Theorem l1_cache_is_lru (cap : nat) (ops : list CacheOp) :
  (Z.of_nat (length ops) < 2 ^ 64)%Z ->
  let '(r, c) := run_ops l1_step ops (l1_new cap) in
  let '(r', l) := run_ops (lru_step (Nat.max cap 1)) ops [] in
  r = r' /\ (forall k, fst <$> data c !! k = assoc_find k l) /\
  l1_len c = length l /\ (l1_len c <= Nat.max cap 1)%nat /\
  hits c = answers_hit r /\ misses c = answers_miss r.
Proof.
  intros Hn.
  pose proof (run_represents ops (l1_new cap) []) as Hrun. cbn [clock hits misses l1_new] in Hrun.
  assert (represents (l1_new cap) []) as Hr0 by (split; cbn; try done; constructor).
  specialize (Hrun Hr0 ltac:(lia) ltac:(split; cbn; lia) ltac:(lia) ltac:(lia)).
  destruct (run_ops l1_step ops (l1_new cap)) as [r c].
  destruct Hrun as (e & Hr & Hl & [Hc1 Hc2] & Hcap & Hh & Hm). cbn in Hl, Hcap, Hh, Hm.
  rewrite Hl. unfold l1_len. rewrite (represents_size _ _ Hr).
  split_and!; try done; [|by unfold forget; rewrite length_fmap|lia].
  intros k. by rewrite (lru_find_represents _ _ _ Hr).
Qed.
End Cache.

Lemma l1_cache_is_lru_witness :
  let ops := [OpPut 1 "a"; OpPut 2 "b"; OpGet 1; OpPut 3 "c"; OpGet 2; OpGet 1]%Z in
  fst (run_ops l1_step ops (l1_new 2)) = [Some "a"; None; Some "a"].
Proof.
  intros ops. pose proof (l1_cache_is_lru 2 ops eq_refl) as H.
  destruct (run_ops l1_step ops (l1_new 2)) as [r c]. cbn [fst].
  destruct (run_ops (lru_step (Nat.max 2 1)) ops []) as [r' l] eqn:E.
  destruct H as [-> _]. vm_compute in E. by injection E as <- _.
Defined.

(** * [L1L2Coordinator] *)

(** What the coordinator uses of the shared cache: [get] and [put] at the key
    [CacheKey::by_pk(table, pk)], without an expiry. *)
Record SharedCache (W : Type) : Type := mkShared {
  shared_get : string -> Z -> Eff W (option Value);
  shared_put : string -> Z -> Value -> Eff W unit;
}.
Arguments shared_get {W}.
Arguments shared_put {W}.

(** [Arc::new]: an address no live [Arc] has. *)
Class Heap (W : Type) : Type := new_addr : Eff W Z.

(** An [Arc<T>]: its address and the value. *)
Definition Arc (T : Type) : Type := (Z * T)%type.

Record Coordinator (W T : Type) : Type := mkCoord {
  l1 : L1Cache (Arc T);
  l2 : option (SharedCache W);
}.
Arguments mkCoord {W T}.
Arguments l1 {W T}.
Arguments l2 {W T}.

Section Coordinator.
Context {W T : Type} `{Heap W}.
Implicit Types s : SharedCache W.
Local Open Scope eff_scope.

Definition arc_new (v : T) : Eff W (Arc T) := let* a := new_addr in eret (a, v).

Definition coord_new (l1_capacity : nat) : Coordinator W T := mkCoord (l1_new l1_capacity) None.

Definition with_l2 (store : SharedCache W) (co : Coordinator W T) : Coordinator W T :=
  mkCoord (l1 co) (Some store).

(** Step 3: the database, then both caches. *)
Definition load_and_fill (table : string) (pk : Z) (db_loader : Eff W (option T))
    (co : Coordinator W T) : Eff W (option (option (Arc T)) * Coordinator W T) :=
  let* loaded := db_loader in
  match loaded with
  | Some val =>
      let* arc_val := arc_new val in
      let co := mkCoord (l1_put pk arc_val (l1 co)) (l2 co) in
      match l2 co with
      | Some store =>
          let* _ := shared_put store table pk (VString (pretty pk)) in
          eret (Some (Some arc_val), co)
      | None => eret (Some (Some arc_val), co)
      end
  | None => eret (Some None, co)
  end.

(** The outer [None] is the panic of [unwrap]. *)
Definition get_or_load (table : string) (pk : Z) (db_loader : Eff W (option T))
    (co : Coordinator W T) : Eff W (option (option (Arc T)) * Coordinator W T) :=
  let '(found, l1') := l1_get pk (l1 co) in
  let co := mkCoord l1' (l2 co) in
  match found with
  | Some val => eret (Some (Some val), co)
  | None =>
      match l2 co with
      | Some store =>
          let* cached := shared_get store table pk in
          match cached with
          | Some (VString _) =>
              let* loaded := db_loader in
              match loaded with
              | None => eret (None, co)
              | Some v =>
                  let* val := arc_new v in
                  eret (Some (Some val), mkCoord (l1_put pk val (l1 co)) (l2 co))
              end
          | _ => load_and_fill table pk db_loader co
          end
      | None => load_and_fill table pk db_loader co
      end
  end.

Definition invalidate (pk : Z) (co : Coordinator W T) : Coordinator W T :=
  mkCoord (l1_evict pk (l1 co)) (l2 co).

Definition coord_clear (co : Coordinator W T) : Coordinator W T :=
  mkCoord (l1_clear (l1 co)) (l2 co).

(** An entry of the first level answers without touching the world. *)
Lemma get_or_load_hit table pk loader co v w :
  fst <$> data (l1 co) !! pk = Some v ->
  exists co', get_or_load table pk loader co w = ((Some (Some v), co'), w).
Proof.
  intros Hd. unfold get_or_load, l1_get. destruct (data (l1 co) !! pk) as [[v' ts]|]; [|done].
  injection Hd as ->. by eexists.
Qed.

Lemma l1_put_lookup (c : L1Cache (Arc T)) pk v : fst <$> data (l1_put pk v c) !! pk = Some v.
Proof.
  unfold l1_put. destruct (data c !! pk); cbn; [by rewrite lookup_insert_eq|].
  destruct (if (_ <=? _)%nat then _ else _) as [m ev]. cbn. by rewrite lookup_insert_eq.
Qed.

(** What [get_or_load] returns.  A key of the first level is answered with the same
    [Arc] whatever table is named and without calling the shared cache or the loader.  On a
    miss the loader decides: the value it returns is put into the first level under a new
    [Arc], so the next call returns that [Arc], also for another table.  The shared cache
    never saves a load: when it has the key the loader still runs, and a row the loader no
    longer finds is a panic, where without the entry it is [None]. *)
Theorem get_or_load_spec (table table2 : string) (pk : Z) (loader loader2 : Eff W (option T))
    (co : Coordinator W T) (w : W) :
  (forall v, fst <$> data (l1 co) !! pk = Some v ->
     exists co', get_or_load table pk loader co w = ((Some (Some v), co'), w)) /\
  (data (l1 co) !! pk = None ->
     let '(cached, w1) := match l2 co with Some s => shared_get s table pk w | None => (None, w) end in
     let stored := match cached with Some (VString _) => true | _ => false end in
     let '((r, co'), w3) := get_or_load table pk loader co w in
     match loader w1 with
     | (None, w2) => w3 = w2 /\ r = (if stored then None else Some None) /\
         data (l1 co') = data (l1 co)
     | (Some t, w2) =>
         let '(a, w2') := new_addr w2 in
         r = Some (Some (a, t)) /\
         (stored = true -> w3 = w2') /\
         forall w4, exists co'',
           get_or_load table2 pk loader2 co' w4 = ((Some (Some (a, t)), co''), w4)
     end).
Proof.
  split; [intros v; apply get_or_load_hit|]. intros Hd.
  assert (Hfill : forall (store : option (SharedCache W)) co0 w1,
    data (l1 co0) = data (l1 co) ->
    let '((r, co'), w3) := load_and_fill table pk loader co0 w1 in
    match loader w1 with
    | (None, w2) => w3 = w2 /\ r = Some None /\ data (l1 co') = data (l1 co)
    | (Some t, w2) => let '(a, w2') := new_addr w2 in r = Some (Some (a, t)) /\
        forall w4, exists co'',
          get_or_load table2 pk loader2 co' w4 = ((Some (Some (a, t)), co''), w4)
    end).
  { intros _ co0 w1 Hco. unfold load_and_fill, ebind. destruct (loader w1) as [[t|] w2]; [|done].
    unfold arc_new, ebind, eret. destruct (new_addr w2) as [a w2']. cbn [l2].
    destruct (l2 co0) as [s|]; [destruct (shared_put s table pk _ w2') as [u w3]|];
      (split; [done|]; intros w4; apply get_or_load_hit, l1_put_lookup). }
  unfold get_or_load at 1, l1_get. rewrite Hd. cbn [l2 l1].
  set (co1 := mkCoord _ (l2 co)). assert (Hco1 : data (l1 co1) = data (l1 co)) by done.
  destruct (l2 co) as [s|]; [|].
  - unfold ebind at 1. destruct (shared_get s table pk w) as [cached w1].
    destruct cached as [[]|]; try (specialize (Hfill None co1 w1 Hco1);
      destruct (load_and_fill table pk loader co1 w1) as [[r co'] w3];
      destruct (loader w1) as [[t|] w2]; [destruct (new_addr w2) as [a w2']|];
      destruct_and?; split_and!; done).
    unfold ebind. destruct (loader w1) as [[t|] w2]; [|done].
    unfold arc_new, ebind, eret. destruct (new_addr w2) as [a w2'].
    split; [done|]. split; [done|]. intros w4. apply get_or_load_hit, l1_put_lookup.
  - specialize (Hfill None co1 w Hco1).
    destruct (load_and_fill table pk loader co1 w) as [[r co'] w3];
      destruct (loader w) as [[t|] w2]; [destruct (new_addr w2) as [a w2']|];
      destruct_and?; split_and!; done.
Qed.
End Coordinator.

#[export] Instance Z_heap : Heap Z := fun n => (n, n + 1)%Z.

(** A shared cache that has every key. *)
Definition full_l2 : SharedCache Z :=
  {| shared_get _ pk := eret (Some (VString (pretty pk))); shared_put _ _ _ := eret tt |}.

Lemma get_or_load_spec_witness :
  let co := with_l2 full_l2 (coord_new (T := string) 4) in
  fst (fst (get_or_load "users" 7 (eret None) co 0%Z)) = None /\
  fst (fst (get_or_load "users" 7 (eret (Some "Ann")) co 0%Z)) = Some (Some (0%Z, "Ann")).
Proof.
  intros co. split.
  - pose proof (proj2 (get_or_load_spec "users" "users" 7 (eret None) (eret None) co 0%Z) eq_refl) as H.
    cbn [l2 co with_l2 shared_get full_l2 eret] in H.
    destruct (get_or_load "users" 7 (eret None) co 0%Z) as [[r co'] w3]. by destruct H as (_ & -> & _).
  - pose proof (proj2 (get_or_load_spec "users" "users" 7 (eret (Some "Ann")) (eret None) co 0%Z)
      eq_refl) as H.
    cbn [l2 co with_l2 shared_get full_l2 eret] in H.
    destruct (get_or_load "users" 7 (eret (Some "Ann")) co 0%Z) as [[r co'] w3].
    by destruct H as (-> & _).
Defined.
