(* ===== verification/LruOrder.v ===== *)
(** The order of use of the shared cache: [LruOrder] of
    [packages/sz-orm-core/src/l2_cache.rs], a doubly linked list in an arena with an index and
    a list of free slots, and its refinement of a list of keys. *)

From S2P Require Import Prelude.

(** * The structure *)

Record LruNode : Type := mkNode {
  node_key : string;
  node_prev : option nat;
  node_next : option nat;
}.

(** [free_list] is a [Vec] used as a stack; its last element comes first here. *)
Record LruOrder : Type := mkLru {
  nodes : list LruNode;
  free_list : list nat;
  index : gmap string nat;
  head_ix : option nat;
  tail_ix : option nat;
}.

Definition lru_new : LruOrder := mkLru [] [] ∅ None None.

Definition set_nodes (ns : list LruNode) (o : LruOrder) : LruOrder :=
  mkLru ns (free_list o) (index o) (head_ix o) (tail_ix o).
Definition set_index (m : gmap string nat) (o : LruOrder) : LruOrder :=
  mkLru (nodes o) (free_list o) m (head_ix o) (tail_ix o).
Definition set_head (h : option nat) (o : LruOrder) : LruOrder :=
  mkLru (nodes o) (free_list o) (index o) h (tail_ix o).
Definition set_tail (t : option nat) (o : LruOrder) : LruOrder :=
  mkLru (nodes o) (free_list o) (index o) (head_ix o) t.

(** [self.nodes[i].next = v] and [self.nodes[i].prev = v], which panic out of range. *)
Definition set_next (i : nat) (v : option nat) (o : LruOrder) : option LruOrder :=
  n ← nodes o !! i;
  Some (set_nodes (<[i := mkNode (node_key n) (node_prev n) v]> (nodes o)) o).
Definition set_prev (i : nat) (v : option nat) (o : LruOrder) : option LruOrder :=
  n ← nodes o !! i;
  Some (set_nodes (<[i := mkNode (node_key n) v (node_next n)]> (nodes o)) o).

(** A popped index that is out of range would panic. *)
Definition alloc_node (key : string) (o : LruOrder) : option (nat * LruOrder) :=
  match free_list o with
  | idx :: free =>
      _ ← nodes o !! idx;
      Some (idx, mkLru (<[idx := mkNode key None None]> (nodes o)) free (index o) (head_ix o) (tail_ix o))
  | [] => Some (length (nodes o), set_nodes (nodes o ++ [mkNode key None None]) o)
  end.

Definition free_node (idx : nat) (o : LruOrder) : LruOrder :=
  mkLru (nodes o) (idx :: free_list o) (index o) (head_ix o) (tail_ix o).

Definition unlink (idx : nat) (o : LruOrder) : option LruOrder :=
  n ← nodes o !! idx;
  let prev := node_prev n in
  let next := node_next n in
  o ← match prev with Some p => set_next p next o | None => Some (set_head next o) end;
  o ← match next with Some n => set_prev n prev o | None => Some (set_tail prev o) end;
  o ← set_prev idx None o;
  set_next idx None o.

Definition link_tail (idx : nat) (o : LruOrder) : option LruOrder :=
  o ← match tail_ix o with
      | Some t => o ← set_next t (Some idx) o; set_prev idx (Some t) o
      | None => Some (set_head (Some idx) o)
      end;
  o ← set_next idx None o;
  Some (set_tail (Some idx) o).

Definition touch (key : string) (o : LruOrder) : option LruOrder :=
  match index o !! key with
  | Some idx => o ← unlink idx o; link_tail idx o
  | None =>
      '(idx, o) ← alloc_node key o;
      o ← link_tail idx o;
      Some (set_index (<[key := idx]> (index o)) o)
  end.

Definition lru_remove (key : string) (o : LruOrder) : option LruOrder :=
  match index o !! key with
  | Some idx =>
      o ← unlink idx (set_index (delete key (index o)) o);
      Some (free_node idx o)
  | None => Some o
  end.

(** The outer [None] is an index out of range. *)
Definition lru_key (o : LruOrder) : option (option string) :=
  match head_ix o with
  | None => Some None
  | Some idx => n ← nodes o !! idx; Some (Some (node_key n))
  end.

(** [LruIter::next], [fuel] times: the walk visits each node once. *)
Fixpoint lru_walk (fuel : nat) (ns : list LruNode) (current : option nat) : option (list string) :=
  match current, fuel with
  | None, _ => Some []
  | Some _, O => None
  | Some idx, S fuel =>
      n ← ns !! idx;
      ks ← lru_walk fuel ns (node_next n);
      Some (node_key n :: ks)
  end.

Definition iter_keys (o : LruOrder) : option (list string) :=
  lru_walk (length (nodes o)) (nodes o) (head_ix o).

Definition lru_clear (o : LruOrder) : LruOrder := lru_new.

Definition lru_len (o : LruOrder) : nat := size (index o).

Example touch_example :
  (o ← touch "a"%string lru_new; o ← touch "b"%string o; o ← touch "c"%string o; o ← touch "a"%string o;
   o ← lru_remove "c"%string o; o ← touch "d"%string o; iter_keys o) = Some ["b"%string; "a"%string; "d"%string].
Proof. vm_compute. reflexivity. Qed.

(** * Chains of nodes

    [chain ns p l nx]: the slots and keys of [l] are linked in this order, after the slot [p]
    and before the slot [nx]. *)

Definition first_ix (l : list (nat * string)) (nx : option nat) : option nat :=
  match l with [] => nx | (i, _) :: _ => Some i end.
Definition last_ix (p : option nat) (l : list (nat * string)) : option nat :=
  match last l with Some (i, _) => Some i | None => p end.

Fixpoint chain (ns : list LruNode) (p : option nat) (l : list (nat * string)) (nx : option nat) : Prop :=
  match l with
  | [] => True
  | (i, k) :: l => ns !! i = Some (mkNode k p (first_ix l nx)) /\ chain ns (Some i) l nx
  end.

Lemma last_ix_cons p i k l : last_ix p ((i, k) :: l) = last_ix (Some i) l.
Proof. unfold last_ix. by destruct l as [|[j q] l]; [|rewrite last_cons_cons; destruct (last _) eqn:E; [|apply last_None in E]]. Qed.

Lemma last_ix_snoc p l i k : last_ix p (l ++ [(i, k)]) = Some i.
Proof. unfold last_ix. by rewrite last_snoc. Qed.

Lemma chain_app ns p l1 l2 nx :
  chain ns p (l1 ++ l2) nx <-> chain ns p l1 (first_ix l2 nx) /\ chain ns (last_ix p l1) l2 nx.
Proof.
  revert p. induction l1 as [|[i k] l1 IH]; intros p; [cbn; tauto|].
  cbn [app chain]. rewrite IH, last_ix_cons.
  assert (first_ix (l1 ++ l2) nx = first_ix l1 (first_ix l2 nx)) as -> by by destruct l1 as [|[]].
  tauto.
Qed.

Lemma chain_frame ns p l nx i n :
  i ∉ l.*1 -> chain ns p l nx -> chain (<[i := n]> ns) p l nx.
Proof.
  revert p. induction l as [|[j k] l IH]; intros p; [done|]. cbn.
  rewrite not_elem_of_cons. intros [Hij Hi] [Hj Hl].
  split; [by rewrite list_lookup_insert_ne|]. by apply IH.
Qed.

Lemma chain_push ns p l nx n : chain ns p l nx -> chain (ns ++ [n]) p l nx.
Proof.
  revert p. induction l as [|[j k] l IH]; intros p; [done|]. cbn. intros [Hj Hl].
  split; [by apply lookup_app_l_Some|]. by apply IH.
Qed.

Lemma chain_set_prev ns p p' i k l nx :
  i ∉ l.*1 -> chain ns p ((i, k) :: l) nx ->
  chain (<[i := mkNode k p' (first_ix l nx)]> ns) p' ((i, k) :: l) nx.
Proof.
  intros Hi [Hk Hl]. split; [|by apply chain_frame].
  apply list_lookup_insert_eq. by eapply lookup_lt_Some.
Qed.

Lemma chain_set_next ns p l i k nx nx' :
  i ∉ l.*1 -> chain ns p (l ++ [(i, k)]) nx ->
  chain (<[i := mkNode k (last_ix p l) nx']> ns) p (l ++ [(i, k)]) nx'.
Proof.
  intros Hi [Hl [Hk _]]%chain_app. apply chain_app. split; [by apply chain_frame|].
  split; [|done]. apply list_lookup_insert_eq. by eapply lookup_lt_Some.
Qed.

(** ** The linked part of an order *)

Record linked (o : LruOrder) (l : list (nat * string)) : Prop := {
  linked_chain : chain (nodes o) None l None;
  linked_head : head_ix o = first_ix l None;
  linked_tail : tail_ix o = last_ix None l;
  linked_nodup : NoDup l.*1;
}.

Definition same_slots (o o' : LruOrder) : Prop :=
  free_list o' = free_list o /\ index o' = index o /\ length (nodes o') = length (nodes o).

Lemma set_next_lookup o i v n :
  nodes o !! i = Some n ->
  set_next i v o = Some (set_nodes (<[i := mkNode (node_key n) (node_prev n) v]> (nodes o)) o).
Proof. intros H. unfold set_next. by rewrite H. Qed.

Lemma set_prev_lookup o i v n :
  nodes o !! i = Some n ->
  set_prev i v o = Some (set_nodes (<[i := mkNode (node_key n) v (node_next n)]> (nodes o)) o).
Proof. intros H. unfold set_prev. by rewrite H. Qed.

Lemma chain_ext ns ns' p l nx :
  (forall j, j ∈ l.*1 -> ns' !! j = ns !! j) -> chain ns p l nx -> chain ns' p l nx.
Proof.
  revert p. induction l as [|[j k] l IH]; intros p Hext; [done|]. cbn. intros [Hj Hl]. split.
  - rewrite Hext; [done|]. cbn. left.
  - apply IH; [|done]. intros i Hi. apply Hext. cbn. by right.
Qed.

(** Redirecting the end of a chain, as [unlink] and [link_tail] do. *)
Lemma redirect_end o l nx nx' :
  chain (nodes o) None l nx -> NoDup l.*1 -> head_ix o = first_ix l nx ->
  exists o', match last_ix None l with
    | Some p => set_next p nx' o
    | None => Some (set_head nx' o)
    end = Some o' /\
    chain (nodes o') None l nx' /\ head_ix o' = first_ix l nx' /\ tail_ix o' = tail_ix o /\
    same_slots o o' /\ forall j, j ∉ l.*1 -> nodes o' !! j = nodes o !! j.
Proof.
  destruct l as [|[i k] l _] using rev_ind; intros Hc Hn Hh; [by eexists|].
  rewrite last_ix_snoc. pose proof Hc as [_ [Hk _]]%chain_app. cbn in Hk.
  rewrite (set_next_lookup _ _ _ _ Hk). eexists. split; [done|]. cbn.
  rewrite fmap_app in Hn. apply NoDup_app in Hn as (_ & Hi & _).
  split_and!; [|by destruct l as [|[]]|done|unfold same_slots; cbn; by rewrite length_insert|].
  - apply chain_set_next with nx; [|done]. intros Hin. apply (Hi _ Hin). cbn. left.
  - intros j. rewrite fmap_app. intros Hj. apply list_lookup_insert_ne. intros <-.
    apply Hj, elem_of_app. right. cbn. left.
Qed.

Lemma redirect_start o l p p' t :
  chain (nodes o) p l None -> NoDup l.*1 -> tail_ix o = last_ix t l ->
  exists o', match first_ix l None with
    | Some n => set_prev n p' o
    | None => Some (set_tail p' o)
    end = Some o' /\
    chain (nodes o') p' l None /\ tail_ix o' = last_ix p' l /\ head_ix o' = head_ix o /\
    same_slots o o' /\ forall j, j ∉ l.*1 -> nodes o' !! j = nodes o !! j.
Proof.
  destruct l as [|[i k] l]; intros Hc Hn Ht; [by eexists|].
  cbn [first_ix]. pose proof Hc as [Hk _]. rewrite (set_prev_lookup _ _ _ _ Hk).
  eexists. split; [done|]. cbn [fmap list_fmap] in Hn. apply NoDup_cons in Hn as [Hi Hn].
  unfold same_slots. cbn [nodes free_list index tail_ix head_ix set_nodes].
  rewrite length_insert, !last_ix_cons in *. split_and!; try done.
  - by apply chain_set_prev with p.
  - intros j. cbn. rewrite not_elem_of_cons. intros [? _]. by rewrite list_lookup_insert_ne.
Qed.

Lemma unlink_linked o l1 i k l2 :
  linked o (l1 ++ (i, k) :: l2) ->
  exists o', unlink i o = Some o' /\ linked o' (l1 ++ l2) /\ same_slots o o' /\
    nodes o' !! i = Some (mkNode k None None).
Proof.
  intros [Hc Hh Ht Hn]. apply chain_app in Hc as [Hc1 [Hk Hc2]].
  rewrite fmap_app in Hn. apply NoDup_app in Hn as (Hn1 & Hdis & Hn2).
  cbn [fmap list_fmap fst] in Hdis, Hn2. apply NoDup_cons in Hn2 as [Hi2 Hn2].
  assert (Hi1 : i ∉ l1.*1) by (intros Hi; by apply (Hdis _ Hi); left).
  unfold unlink. rewrite Hk. cbn [mbind option_bind node_prev node_next].
  destruct (redirect_end o l1 (Some i) (first_ix l2 None)) as (o1 & -> & Hc1' & Hh1 & Ht1 & Hs1 & Hf1);
    [done|done|by rewrite Hh; destruct l1 as [|[]]|]. cbn [mbind option_bind].
  destruct (redirect_start o1 l2 (Some i) (last_ix None l1) (Some i))
    as (o2 & -> & Hc2' & Ht2 & Hh2 & Hs2 & Hf2); [|done| |].
  { eapply chain_ext; [|exact Hc2]. intros j Hj. apply Hf1. intros Hj1. by apply (Hdis _ Hj1); right. }
  { rewrite Ht1, Ht. unfold last_ix. rewrite last_app. cbn.
    by destruct l2 as [|a l2]; [|rewrite last_cons; destruct (last (a :: l2)) as [[]|] eqn:E; [|apply last_None in E]]. }
  cbn [mbind option_bind].
  assert (Hk2 : nodes o2 !! i = Some (mkNode k (last_ix None l1) (first_ix l2 None)))
    by by rewrite Hf2, Hf1.
  rewrite (set_prev_lookup _ _ _ _ Hk2). cbn [mbind option_bind node_key node_next].
  erewrite set_next_lookup by (cbn; apply list_lookup_insert_eq; by eapply lookup_lt_Some).
  eexists. split; [done|]. cbn. rewrite list_insert_insert_eq.
  assert (Hframe : forall p l nx, i ∉ l.*1 -> chain (nodes o2) p l nx ->
    chain (<[i := mkNode k None None]> (nodes o2)) p l nx) by (intros; by apply chain_frame).
  split_and!.
  - split; cbn.
    + apply chain_app. split; apply Hframe; try done.
      eapply chain_ext; [|exact Hc1']. intros j Hj. apply Hf2. intros Hj2. by apply (Hdis _ Hj); right.
    + rewrite Hh2, Hh1. by destruct l1 as [|[]].
    + rewrite Ht2. unfold last_ix. rewrite last_app. by destruct (last l2) as [[]|].
    + rewrite fmap_app. apply NoDup_app. split_and!; [done| |done].
      intros j Hj Hj2. by apply (Hdis _ Hj); right.
  - unfold same_slots in *. cbn. rewrite length_insert. naive_solver congruence.
  - apply list_lookup_insert_eq. by eapply lookup_lt_Some.
Qed.

Lemma link_tail_linked o l i k :
  linked o l -> i ∉ l.*1 -> nodes o !! i = Some (mkNode k None None) ->
  exists o', link_tail i o = Some o' /\ linked o' (l ++ [(i, k)]) /\ same_slots o o'.
Proof.
  intros [Hc Hh Ht Hn] Hi Hk. unfold link_tail. rewrite Ht.
  destruct (redirect_end o l None (Some i)) as (o1 & H1 & Hc1 & Hh1 & Ht1 & Hs1 & Hf1); [done..|].
  assert (Hk1 : nodes o1 !! i = Some (mkNode k None None)) by by rewrite Hf1.
  assert (Hstep : exists o2, match last_ix None l with
      | Some t => o ← set_next t (Some i) o; set_prev i (Some t) o
      | None => Some (set_head (Some i) o)
      end = Some o2 /\ nodes o2 = <[i := mkNode k (last_ix None l) None]> (nodes o1) /\
      head_ix o2 = head_ix o1 /\ free_list o2 = free_list o1 /\ index o2 = index o1).
  { destruct (last_ix None l) as [t|].
    - rewrite H1. cbn. rewrite (set_prev_lookup _ _ _ _ Hk1). by eexists.
    - rewrite H1. exists o1. by rewrite list_insert_id. }
  destruct Hstep as (o2 & -> & Hn2 & Hh2 & Hfl & Hix). cbn [mbind option_bind].
  erewrite set_next_lookup by (rewrite Hn2; apply list_lookup_insert_eq; by eapply lookup_lt_Some).
  cbn. eexists. split; [done|]. split.
  - split; cbn; rewrite ?Hn2, ?list_insert_insert_eq.
    + apply chain_app. split; [by apply chain_frame|]. split; [|done].
      apply list_lookup_insert_eq. by eapply lookup_lt_Some.
    + rewrite Hh2, Hh1. by destruct l as [|[]].
    + by rewrite last_ix_snoc.
    + rewrite fmap_app. apply NoDup_app. split_and!; [done| |apply NoDup_singleton].
      intros j Hj ->%list_elem_of_singleton. done.
  - unfold same_slots in *. cbn. rewrite Hn2, !length_insert. naive_solver congruence.
Qed.

(** * The order as a list of keys *)

(** Every slot of the arena is linked or free. *)
Record slots (o : LruOrder) (l : list (nat * string)) : Prop := {
  slots_linked : linked o l;
  slots_keys : NoDup l.*2;
  slots_index : forall k i, index o !! k = Some i <-> (i, k) ∈ l;
  slots_all : l.*1 ++ free_list o ≡ₚ seq 0 (length (nodes o));
}.

Definition orders (o : LruOrder) (keys : list string) : Prop :=
  exists l, slots o l /\ keys = l.*2.

Definition drop_key (key : string) (keys : list string) : list string :=
  filter (fun k => k <> key) keys.

Lemma drop_key_absent key keys : key ∉ keys -> drop_key key keys = keys.
Proof.
  intros Hk. unfold drop_key. induction keys as [|k keys IH]; [done|].
  rewrite not_elem_of_cons in Hk. destruct Hk as [Hne Hk].
  rewrite filter_cons_True by congruence. by rewrite IH.
Qed.

Lemma drop_key_middle key l1 l2 :
  NoDup (l1 ++ key :: l2) -> drop_key key (l1 ++ key :: l2) = l1 ++ l2.
Proof.
  intros (_ & Hd & [Hk _]%NoDup_cons)%NoDup_app. unfold drop_key.
  rewrite filter_app, filter_cons_False by tauto.
  f_equal; apply drop_key_absent; [|done]. intros H. apply (Hd _ H). left.
Qed.

Lemma slots_new : slots lru_new [].
Proof. split; [split; done || constructor|constructor| |done]. intros k i. cbn. by rewrite lookup_empty, elem_of_nil. Qed.

Lemma slots_key_in o l k : slots o l -> k ∈ l.*2 -> exists i l1 l2,
  l = l1 ++ (i, k) :: l2 /\ index o !! k = Some i.
Proof.
  intros Hs ([i k'] & -> & Hin)%list_elem_of_fmap. cbn.
  pose proof Hin as (l1 & l2 & ->)%list_elem_of_split. exists i, l1, l2.
  split; [done|]. by apply (slots_index _ _ Hs).
Qed.

Lemma slots_key_out o l k : slots o l -> index o !! k = None -> k ∉ l.*2.
Proof.
  intros Hs Hk ([i k'] & -> & Hin)%list_elem_of_fmap. cbn in Hk.
  apply (slots_index _ _ Hs) in Hin. congruence.
Qed.

(** Reordering the entries changes neither the index nor the slots. *)
Lemma slots_reorder o o' l l' :
  slots o l -> l' ≡ₚ l -> linked o' l' -> same_slots o o' -> slots o' l'.
Proof.
  intros [_ Hk Hi Ha] Hp Hl (Hf & Hix & Hn). split; [done| | |].
  - by rewrite Hp.
  - intros k i. by rewrite Hix, Hp.
  - by rewrite Hp, Hf, Hn.
Qed.

Lemma touch_known o l1 i k l2 :
  slots o (l1 ++ (i, k) :: l2) ->
  exists o', touch k o = Some o' /\ slots o' (l1 ++ l2 ++ [(i, k)]) /\ length (nodes o') = length (nodes o).
Proof.
  intros Hs. unfold touch. assert (index o !! k = Some i) as -> by (apply (slots_index _ _ Hs); set_solver).
  destruct (unlink_linked _ _ _ _ _ (slots_linked _ _ Hs)) as (o1 & -> & Hl1 & Hs1 & Hk1).
  cbn [mbind option_bind]. destruct (link_tail_linked o1 (l1 ++ l2) i k) as (o2 & -> & Hl2 & Hs2); [done| |done|].
  { pose proof (linked_nodup _ _ (slots_linked _ _ Hs)) as Hn. rewrite fmap_app in *. cbn in Hn.
    rewrite <- Permutation_middle in Hn. by apply NoDup_cons in Hn as []. }
  exists o2. rewrite <- app_assoc in Hl2. split; [done|].
  assert (same_slots o o2) as Hsame by (unfold same_slots in *; naive_solver congruence).
  split; [|apply Hsame]. eapply slots_reorder; [done| |done|done].
  rewrite app_assoc, <- Permutation_cons_append. by rewrite Permutation_middle.
Qed.

Lemma free_slot o l i : slots o l -> i ∈ free_list o -> i ∉ l.*1 /\ (i < length (nodes o))%nat.
Proof.
  intros Hs Hi. pose proof (slots_all _ _ Hs) as Ha. split.
  - assert (NoDup (l.*1 ++ free_list o)) as (_ & Hd & _)%NoDup_app by (rewrite Ha; apply NoDup_seq).
    intros Hl. by apply (Hd _ Hl).
  - assert (i ∈ seq 0 (length (nodes o))) as Hin by (rewrite <- Ha; set_solver).
    apply elem_of_seq in Hin. lia.
Qed.

Lemma alloc_slot o l k :
  slots o l ->
  exists i o1, alloc_node k o = Some (i, o1) /\ linked o1 l /\ i ∉ l.*1 /\
    nodes o1 !! i = Some (mkNode k None None) /\ index o1 = index o /\
    i :: l.*1 ++ free_list o1 ≡ₚ seq 0 (length (nodes o1)) /\
    length (nodes o1) = Nat.max (length (nodes o)) (S (length l)).
Proof.
  intros Hs. pose proof (slots_linked _ _ Hs) as [Hc Hh Ht Hn].
  pose proof (slots_all _ _ Hs) as Ha. pose proof (Permutation_length Ha) as Hlen.
  rewrite length_app, length_fmap, length_seq in Hlen.
  unfold alloc_node. destruct (free_list o) as [|i free] eqn:Hfree.
  - exists (length (nodes o)). eexists. split; [done|]. cbn in *.
    rewrite length_app. cbn [length]. rewrite app_nil_r in Ha.
    split_and!; [split; try done; by apply chain_push| |by apply list_lookup_middle|done| |lia].
    + rewrite Ha. intros Hin%elem_of_seq. lia.
    + rewrite Hfree, app_nil_r, Ha, seq_app. cbn. by rewrite <- Permutation_cons_append.
  - destruct (free_slot o l i Hs) as [Hi Hlt]; [rewrite Hfree; left|].
    destruct (lookup_lt_is_Some_2 _ _ Hlt) as [n ->]. cbn [mbind option_bind].
    exists i. eexists. split; [done|]. cbn in *. rewrite length_insert.
    split_and!; [split; try done; by apply chain_frame|done|by apply list_lookup_insert_eq|done| |lia].
    rewrite <- Ha. by rewrite Permutation_middle.
Qed.

Lemma touch_new o l k :
  slots o l -> index o !! k = None ->
  exists i o', touch k o = Some o' /\ slots o' (l ++ [(i, k)]) /\
    length (nodes o') = Nat.max (length (nodes o)) (S (length l)).
Proof.
  intros Hs Hk. pose proof (slots_key_out _ _ _ Hs Hk) as Hout. unfold touch. rewrite Hk.
  destruct (alloc_slot o l k Hs) as (i & o1 & -> & Hl1 & Hi & Hn1 & Hix & Ha & Hlen).
  cbn [mbind option_bind]. destruct (link_tail_linked _ _ _ _ Hl1 Hi Hn1) as (o2 & -> & Hl2 & Hf & Hix2 & Hlen2).
  cbn [mbind option_bind]. exists i. eexists. split; [done|]. cbn. split; [|lia].
  split; cbn.
  - by destruct Hl2; split.
  - rewrite fmap_app. apply NoDup_app. split_and!; [apply Hs| |apply NoDup_singleton].
    intros q Hq ->%list_elem_of_singleton. done.
  - intros q j. rewrite Hix2, Hix, elem_of_app, list_elem_of_singleton.
    destruct (decide (q = k)) as [->|Hne].
    + rewrite lookup_insert_eq. split; [intros [= ->]; by right|]. intros [Hin|[= ->]]; [|done].
      destruct Hout. apply list_elem_of_fmap. by exists (j, k).
    + rewrite lookup_insert_ne by done. rewrite (slots_index _ _ Hs). naive_solver.
  - rewrite Hf, Hlen2, fmap_app, <- Ha. rewrite <- app_assoc. cbn. by rewrite Permutation_middle.
Qed.

Lemma remove_known o l1 i k l2 :
  slots o (l1 ++ (i, k) :: l2) ->
  exists o', lru_remove k o = Some o' /\ slots o' (l1 ++ l2) /\ length (nodes o') = length (nodes o).
Proof.
  intros Hs. unfold lru_remove.
  assert (index o !! k = Some i) as -> by (apply (slots_index _ _ Hs); set_solver).
  destruct (unlink_linked (set_index (delete k (index o)) o) l1 i k l2) as (o1 & -> & Hl1 & (Hf & Hix & Hn) & _).
  { by destruct (slots_linked _ _ Hs); split. }
  cbn [mbind option_bind] in *. eexists. split; [done|]. cbn in *. split; [|done].
  pose proof (slots_keys _ _ Hs) as Hk. rewrite fmap_app in Hk. cbn in Hk.
  rewrite <- Permutation_middle in Hk. apply NoDup_cons in Hk as [Hk Hnd].
  split; cbn.
  - by destruct Hl1; split.
  - by rewrite fmap_app.
  - intros q j. rewrite Hix. destruct (decide (q = k)) as [->|Hne].
    + rewrite lookup_delete_eq. split; [done|]. intros Hin. destruct Hk.
      rewrite <- fmap_app. apply list_elem_of_fmap. by exists (j, k).
    + rewrite lookup_delete_ne by done. rewrite (slots_index _ _ Hs). set_solver.
  - rewrite Hf, Hn, <- (slots_all _ _ Hs). rewrite !fmap_app. cbn.
    by rewrite <- !Permutation_middle.
Qed.

(** The walk of the iterator visits the linked nodes and ends. *)
Lemma walk_chain ns p l fuel :
  chain ns p l None -> (length l <= fuel)%nat ->
  lru_walk fuel ns (first_ix l None) = Some l.*2.
Proof.
  revert p fuel. induction l as [|[i k] l IH]; intros p fuel Hc Hf; [by destruct fuel|].
  destruct fuel as [|fuel]; [cbn in Hf; lia|]. destruct Hc as [Hk Hc]. cbn [first_ix lru_walk].
  rewrite Hk. cbn [mbind option_bind node_next node_key].
  by rewrite (IH (Some i)) by (done || cbn in Hf; lia).
Qed.

Lemma slots_length o l : slots o l -> (length l <= length (nodes o))%nat.
Proof.
  intros Hs. pose proof (Permutation_length (slots_all _ _ Hs)) as Hlen.
  rewrite length_app, length_fmap, length_seq in Hlen. lia.
Qed.

Lemma slots_size o l : slots o l -> size (index o) = length l.
Proof.
  intros [_ Hk Hi _].
  assert (index o = list_to_map ((fun p => (snd p, fst p)) <$> l)) as ->.
  { apply map_eq. intros k. apply option_eq. intros i. rewrite Hi, <- elem_of_list_to_map.
    - rewrite list_elem_of_fmap. split; [intros; by exists (i, k)|]. by intros ([? ?] & [= -> ->] & ?).
    - by rewrite <- list_fmap_compose. }
  rewrite map_size_list_to_map; [by rewrite length_fmap|]. by rewrite <- list_fmap_compose.
Qed.

Lemma orders_observed o keys :
  orders o keys ->
  iter_keys o = Some keys /\ lru_key o = Some (keys !! 0) /\ lru_len o = length keys.
Proof.
  intros (l & Hs & ->). pose proof (slots_linked _ _ Hs) as [Hc Hh _ _]. split_and!.
  - unfold iter_keys. rewrite Hh. eapply walk_chain; [done|]. by apply slots_length.
  - unfold lru_key. rewrite Hh. destruct l as [|[i k] l]; [done|]. cbn. by rewrite (proj1 Hc).
  - unfold lru_len. rewrite length_fmap. by apply slots_size.
Qed.

Lemma orders_NoDup o keys : orders o keys -> NoDup keys.
Proof. intros (l & Hs & ->). apply Hs. Qed.

Lemma orders_new : orders lru_new [].
Proof. exists []. split; [apply slots_new|done]. Qed.

Lemma touch_orders o keys k :
  orders o keys ->
  exists o', touch k o = Some o' /\ orders o' (drop_key k keys ++ [k]) /\
    length (nodes o') = Nat.max (length (nodes o)) (length (drop_key k keys ++ [k])).
Proof.
  intros (l & Hs & ->). pose proof (slots_length _ _ Hs) as Hlen.
  destruct (decide (k ∈ l.*2)) as [Hin|Hout].
  - destruct (slots_key_in _ _ _ Hs Hin) as (i & l1 & l2 & -> & Hix).
    destruct (touch_known _ _ _ _ _ Hs) as (o' & Ht & Hs' & Hn). exists o'. split; [done|].
    pose proof (slots_keys _ _ Hs) as Hnd. rewrite fmap_app in Hnd |- *. cbn in Hnd |- *.
    rewrite drop_key_middle by done. split.
    + exists (l1 ++ l2 ++ [(i, k)]). split; [done|]. by rewrite !fmap_app, app_assoc.
    + rewrite Hn. rewrite !length_app in *. cbn in *. rewrite !length_fmap. lia.
  - rewrite drop_key_absent by done. destruct (index o !! k) as [i|] eqn:Hk.
    { destruct Hout. apply (slots_index _ _ Hs) in Hk. apply list_elem_of_fmap. by exists (i, k). }
    destruct (touch_new _ _ _ Hs Hk) as (i & o' & Ht & Hs' & Hn). exists o'. split; [done|]. split.
    + eexists. split; [done|]. by rewrite fmap_app.
    + rewrite Hn, length_app, length_fmap. cbn. lia.
Qed.

Lemma remove_orders o keys k :
  orders o keys ->
  exists o', lru_remove k o = Some o' /\ orders o' (drop_key k keys) /\ length (nodes o') = length (nodes o).
Proof.
  intros (l & Hs & ->). destruct (decide (k ∈ l.*2)) as [Hin|Hout].
  - destruct (slots_key_in _ _ _ Hs Hin) as (i & l1 & l2 & -> & Hix).
    destruct (remove_known _ _ _ _ _ Hs) as (o' & Ht & Hs' & Hn). exists o'. split_and!; [done| |done].
    pose proof (slots_keys _ _ Hs) as Hnd. rewrite fmap_app in Hnd |- *. cbn in Hnd |- *.
    rewrite drop_key_middle by done. eexists. split; [done|]. by rewrite fmap_app.
  - rewrite drop_key_absent by done. exists o. unfold lru_remove. destruct (index o !! k) as [i|] eqn:Hk.
    { destruct Hout. apply (slots_index _ _ Hs) in Hk. apply list_elem_of_fmap. by exists (i, k). }
    split_and!; [done| |done]. by exists l.
Qed.

(** ** Runs *)

Inductive LruOp : Type :=
| OpTouch (key : string)
| OpRemove (key : string)
| OpClear.

Definition lru_op (op : LruOp) (o : LruOrder) : option LruOrder :=
  match op with
  | OpTouch k => touch k o
  | OpRemove k => lru_remove k o
  | OpClear => Some (lru_clear o)
  end.

(** The reference: the keys from the least to the most recently used one. *)
Definition keys_op (op : LruOp) (keys : list string) : list string :=
  match op with
  | OpTouch k => drop_key k keys ++ [k]
  | OpRemove k => drop_key k keys
  | OpClear => []
  end.

Fixpoint lru_run (ops : list LruOp) (o : LruOrder) : option LruOrder :=
  match ops with
  | [] => Some o
  | op :: ops => o ← lru_op op o; lru_run ops o
  end.

(** The keys after the operations, and the largest number of keys on the way. *)
Fixpoint keys_run (ops : list LruOp) (keys : list string) (peak : nat) : list string * nat :=
  match ops with
  | [] => (keys, peak)
  | op :: ops =>
      let keys := keys_op op keys in keys_run ops keys (Nat.max peak (length keys))
  end.

Lemma lru_run_orders ops o keys peak :
  orders o keys -> (length (nodes o) <= peak)%nat ->
  exists o', lru_run ops o = Some o' /\ orders o' (fst (keys_run ops keys peak)) /\
    (length (nodes o') <= snd (keys_run ops keys peak))%nat.
Proof.
  revert o keys peak. induction ops as [|op ops IH]; intros o keys peak Ho Hp; [by exists o|].
  cbn [lru_run keys_run].
  assert (exists o1, lru_op op o = Some o1 /\ orders o1 (keys_op op keys) /\
    (length (nodes o1) <= Nat.max peak (length (keys_op op keys)))%nat) as (o1 & -> & Ho1 & Hp1).
  { destruct op as [k|k|]; cbn [lru_op keys_op].
    - destruct (touch_orders _ _ k Ho) as (o' & ? & ? & ?). exists o'. split_and!; [done..|]. lia.
    - destruct (remove_orders _ _ k Ho) as (o' & ? & ? & ?). exists o'. split_and!; [done..|]. lia.
    - exists lru_new. split_and!; [done|apply orders_new|cbn; lia]. }
  cbn [mbind option_bind]. by apply IH.
Qed.

(** The arena of [LruOrder] is a list of keys in the order of use.  After any sequence of
    [touch], [remove] and [clear] on a new order no index was out of range, the iterator ends
    and yields exactly the keys of the reference list, [lru_key] is its first key and [len]
    its length; and the arena has at most as many slots as there were ever keys at once, so
    freed slots are reused. *)
Theorem lru_order_is_list (ops : list LruOp) :
  let '(keys, peak) := keys_run ops [] 0 in
  exists o, lru_run ops lru_new = Some o /\
    iter_keys o = Some keys /\ lru_key o = Some (keys !! 0) /\ lru_len o = length keys /\
    NoDup keys /\ (length (nodes o) <= peak)%nat.
Proof.
  destruct (lru_run_orders ops lru_new [] 0 orders_new) as (o & Hrun & Ho & Hp); [cbn; lia|].
  destruct (keys_run ops [] 0) as [keys peak]. cbn in Ho, Hp. exists o.
  destruct (orders_observed _ _ Ho) as (? & ? & ?). pose proof (orders_NoDup _ _ Ho). by split_and!.
Qed.
