(* ===== verification/L2Cache.v ===== *)
(** The shared cache: [packages/sz-orm-core/src/l2_cache.rs].  Keys, entries with an expiry,
    the cache with its table index, its statistics and its order of use, and its refinement
    of a list of keys and entries. *)

From Stdlib Require Import Ascii String SpecFloat.
From S2P Require Import Prelude SqlText Value LruOrder.
Local Open Scope string_scope.
Local Open Scope eff_scope.

(** * Keys *)

Inductive CacheKeyKind : Type := ByPk | ByQuery | ByRelation.

Record CacheKey : Type := mkKey {
  key_table : string;
  key_kind : CacheKeyKind;
  identifier : string;
}.

#[export] Instance CacheKeyKind_eq_dec : EqDecision CacheKeyKind.
Proof. solve_decision. Defined.
#[export] Instance CacheKey_eq_dec : EqDecision CacheKey.
Proof. solve_decision. Defined.

(** The [Display] text of the primary key, the hash or the relation is the argument. *)
Definition by_pk (table pk : string) : CacheKey := mkKey table ByPk pk.
Definition by_query (table query_hash : string) : CacheKey := mkKey table ByQuery query_hash.
Definition by_relation (table relation : string) : CacheKey := mkKey table ByRelation relation.

Definition kind_str (k : CacheKeyKind) : string :=
  match k with ByPk => "pk" | ByQuery => "q" | ByRelation => "rel" end.

Definition to_string_key (k : CacheKey) : string :=
  "l2:" +:+ key_table k +:+ ":" +:+ kind_str (key_kind k) +:+ ":" +:+ identifier k.

(** ** When the text of a key identifies it *)

Definition plain_table (t : string) : bool := negb (contains_char ":"%char t).

Lemma split_colon (t1 t2 r1 r2 : string) :
  plain_table t1 = true -> plain_table t2 = true ->
  t1 +:+ ":" +:+ r1 = t2 +:+ ":" +:+ r2 -> t1 = t2 /\ r1 = r2.
Proof.
  unfold plain_table. revert t2. induction t1 as [|a t1 IH]; intros [|b t2] H1 H2 E;
    cbn in H1, H2, E; [by injection E|by injection E as <- _|by injection E as -> _|].
  injection E as -> E. destruct (Ascii.eqb b ":"%char); [done|].
  by destruct (IH t2 H1 H2 E) as [-> ->].
Qed.

Lemma to_string_key_inj k1 k2 :
  plain_table (key_table k1) = true -> plain_table (key_table k2) = true ->
  to_string_key k1 = to_string_key k2 -> k1 = k2.
Proof.
  destruct k1 as [t1 k1 i1], k2 as [t2 k2 i2]. unfold to_string_key. cbn [key_table key_kind identifier].
  intros H1 H2 H. cbn in H. injection H as H.
  apply split_colon in H as [Ht H]; [|done|done]. subst t2. by destruct k1, k2; simplify_eq/=.
Qed.

#[local] Arguments to_string_key : simpl never.

(** The source says the triple identifies an entry; a colon in a table name defeats it. *)
Lemma key_texts_collide :
  to_string_key (by_pk "a" "q:1") = to_string_key (by_query "a:pk" "1").
Proof. reflexivity. Qed.

(** * Statistics *)

Record L2CacheStats : Type := mkStats {
  hits : Z; misses : Z; sets : Z; evictions : Z; stats_size : nat;
}.

Record PerTableStats : Type := mkTableStats {
  table_hits : Z; table_misses : Z; table_sets : Z; table_evictions : Z;
}.

Definition stats_default : L2CacheStats := mkStats 0 0 0 0 0.
Definition table_stats_default : PerTableStats := mkTableStats 0 0 0 0.

(** Both structs have these two methods. *)
Definition total_lookups (h m : Z) : Z := wrap64 (h + m).

Definition hit_rate (h m : Z) : spec_float :=
  let total := total_lookups h m in
  if (total =? 0)%Z then S754_zero false
  else SFdiv 53 1024 (int_to_f64 h) (int_to_f64 total).

Definition miss_rate (s : L2CacheStats) : spec_float :=
  SFsub 53 1024 (int_to_f64 1) (hit_rate (hits s) (misses s)).

Definition merge (s other : L2CacheStats) : L2CacheStats :=
  mkStats (wrap64 (hits s + hits other)) (wrap64 (misses s + misses other))
    (wrap64 (sets s + sets other)) (wrap64 (evictions s + evictions other))
    (stats_size s + stats_size other).

(** The counters the operations add to. *)
Inductive counter : Type := Hit | Miss | Sets | Evicted.

Definition count (c : counter) (n : Z) (s : L2CacheStats) : L2CacheStats :=
  match c with
  | Hit => mkStats (wrap64 (hits s + n)) (misses s) (sets s) (evictions s) (stats_size s)
  | Miss => mkStats (hits s) (wrap64 (misses s + n)) (sets s) (evictions s) (stats_size s)
  | Sets => mkStats (hits s) (misses s) (wrap64 (sets s + n)) (evictions s) (stats_size s)
  | Evicted => mkStats (hits s) (misses s) (sets s) (wrap64 (evictions s + n)) (stats_size s)
  end.

Definition count_table (c : counter) (n : Z) (s : PerTableStats) : PerTableStats :=
  match c with
  | Hit => mkTableStats (wrap64 (table_hits s + n)) (table_misses s) (table_sets s) (table_evictions s)
  | Miss => mkTableStats (table_hits s) (wrap64 (table_misses s + n)) (table_sets s) (table_evictions s)
  | Sets => mkTableStats (table_hits s) (table_misses s) (wrap64 (table_sets s + n)) (table_evictions s)
  | Evicted => mkTableStats (table_hits s) (table_misses s) (table_sets s) (wrap64 (table_evictions s + n))
  end.

(** * The cache *)

Inductive InvalidationMessage : Type :=
| InvalidateKey (key : string)
| InvalidateTable (table : string)
| InvalidateAll.

Record CacheEntry : Type := mkEntry { entry_value : Value; expires_at : option Z }.

(** The bus is a trait object, of which the cache calls [publish]. *)
Record L2Cache (W : Type) : Type := mkL2 {
  data : gmap string CacheEntry;
  table_index : gmap string (list string);
  access_order : LruOrder;
  stats : L2CacheStats;
  table_stats : gmap string PerTableStats;
  default_ttl : option Z;
  max_size : nat;
  invalidation_bus : option (InvalidationMessage -> Eff W unit);
}.
Arguments mkL2 {W}.
Arguments data {W}.
Arguments table_index {W}.
Arguments access_order {W}.
Arguments stats {W}.
Arguments table_stats {W}.
Arguments default_ttl {W}.
Arguments max_size {W}.
Arguments invalidation_bus {W}.

Section Cache.
Context {W : Type} `{Clock W}.

Definition set_data d (c : L2Cache W) : L2Cache W :=
  mkL2 d (table_index c) (access_order c) (stats c) (table_stats c) (default_ttl c) (max_size c)
    (invalidation_bus c).
Definition set_table_index i (c : L2Cache W) : L2Cache W :=
  mkL2 (data c) i (access_order c) (stats c) (table_stats c) (default_ttl c) (max_size c)
    (invalidation_bus c).
Definition set_access_order o (c : L2Cache W) : L2Cache W :=
  mkL2 (data c) (table_index c) o (stats c) (table_stats c) (default_ttl c) (max_size c)
    (invalidation_bus c).
Definition set_stats s ts (c : L2Cache W) : L2Cache W :=
  mkL2 (data c) (table_index c) (access_order c) s ts (default_ttl c) (max_size c)
    (invalidation_bus c).

Definition l2_new : L2Cache W :=
  mkL2 ∅ ∅ lru_new stats_default ∅ None (Z.to_nat 10000) None.
Definition with_default_ttl (ttl : Z) (c : L2Cache W) : L2Cache W :=
  mkL2 (data c) (table_index c) (access_order c) (stats c) (table_stats c) (Some ttl) (max_size c)
    (invalidation_bus c).
Definition with_max_size (n : nat) (c : L2Cache W) : L2Cache W :=
  mkL2 (data c) (table_index c) (access_order c) (stats c) (table_stats c) (default_ttl c) n
    (invalidation_bus c).
Definition with_invalidation_bus bus (c : L2Cache W) : L2Cache W :=
  mkL2 (data c) (table_index c) (access_order c) (stats c) (table_stats c) (default_ttl c) (max_size c)
    (Some bus).

(** [entry(table).or_default()] and an addition, next to the global counter. *)
Definition count_for (table : string) (k : counter) (n : Z) (c : L2Cache W) : L2Cache W :=
  set_stats (count k n (stats c))
    (<[table := count_table k n (default table_stats_default (table_stats c !! table))]> (table_stats c)) c.

(** ** Entries *)

Definition entry_new (value : Value) (ttl : option Z) : Pan W CacheEntry :=
  match ttl with
  | Some d =>
      if (d =? duration_max)%Z then pret (mkEntry value None)
      else
        let! now := pcall instant_now in
        let! t := plift (instant_add now d) in
        pret (mkEntry value (Some t))
  | None => pret (mkEntry value None)
  end.

Definition is_expired (e : CacheEntry) : Eff W bool :=
  match expires_at e with
  | Some t => let* now := instant_now in eret (t <=? now)%Z
  | None => eret false
  end.

(** ** [put] *)

Fixpoint first_expired (keys : list string) (d : gmap string CacheEntry) : Eff W (option string) :=
  match keys with
  | [] => eret None
  | k :: keys =>
      match d !! k with
      | Some e =>
          let* b := is_expired e in
          if (b : bool) then eret (Some k) else first_expired keys d
      | None => first_expired keys d
      end
  end.

Definition choose_victim (c : L2Cache W) : Pan W (option string) :=
  let! keys := plift (iter_keys (access_order c)) in
  let! expired := pcall (first_expired keys (data c)) in
  let! lru := plift (lru_key (access_order c)) in
  pret (match expired with Some k => Some k | None => lru end).

Definition evict_victim (victim : string) (c : L2Cache W) : Pan W (L2Cache W) :=
  let! o := plift (lru_remove victim (access_order c)) in
  pret (set_table_index (filter (fun k => k <> victim) <$> table_index c)
         (set_access_order o (set_data (delete victim (data c)) c))).

(** The four regions of [put], each under its own locks. *)
Definition put_data (key_str : string) (entry : CacheEntry) (c : L2Cache W) : Pan W (L2Cache W) :=
  let exists_ := is_some (data c !! key_str) in
  let! c :=
    if negb exists_ && (max_size c <=? size (data c))%nat then
      let! victim := choose_victim c in
      match victim with Some v => evict_victim v c | None => pret c end
    else pret c in
  pret (set_data (<[key_str := entry]> (data c)) c).

Definition touch_order (key_str : string) (c : L2Cache W) : Pan W (L2Cache W) :=
  let! o := plift (touch key_str (access_order c)) in
  pret (set_access_order o c).

Definition index_key (table key_str : string) (c : L2Cache W) : L2Cache W :=
  let keys := default [] (table_index c !! table) in
  set_table_index
    (<[table := if decide (key_str ∈ keys) then keys else (keys ++ [key_str])%list]> (table_index c)) c.

Definition put (key : CacheKey) (value : Value) (ttl : option Z) (c : L2Cache W) : Pan W (L2Cache W) :=
  let actual_ttl := match ttl with Some d => Some d | None => default_ttl c end in
  let! entry := entry_new value actual_ttl in
  let key_str := to_string_key key in
  let! c := put_data key_str entry c in
  let! c := touch_order key_str c in
  let c := index_key (key_table key) key_str c in
  pret (count_for (key_table key) Sets 1 c).

(** ** [get] *)

Definition live_value (key_str : string) (c : L2Cache W) : Eff W (option Value) :=
  match data c !! key_str with
  | Some e =>
      let* b := is_expired e in
      eret (if (b : bool) then None else Some (entry_value e))
  | None => eret None
  end.

Definition get (key : CacheKey) (c : L2Cache W) : Pan W (option Value * L2Cache W) :=
  let key_str := to_string_key key in
  let! result := pcall (live_value key_str c) in
  let! c := match result with Some _ => touch_order key_str c | None => pret c end in
  pret (result, count_for (key_table key) (match result with Some _ => Hit | None => Miss end) 1 c).

(** ** Invalidation *)

Definition invalidate (key : CacheKey) (c : L2Cache W) : Pan W (L2Cache W) :=
  let key_str := to_string_key key in
  match data c !! key_str with
  | None => pret c
  | Some _ =>
      let c := set_data (delete key_str (data c)) c in
      let! o := plift (lru_remove key_str (access_order c)) in
      let c := set_access_order o c in
      let c := set_table_index (alter (filter (fun k => k <> key_str)) (key_table key) (table_index c)) c in
      pret (count_for (key_table key) Evicted 1 c)
  end.

(** [for k in keys { if data.remove(k).is_some() { n += 1 } }] *)
Fixpoint remove_all (keys : list string) (d : gmap string CacheEntry) (n : nat) :
    gmap string CacheEntry * nat :=
  match keys with
  | [] => (d, n)
  | k :: keys => remove_all keys (delete k d) (if is_some (d !! k) then S n else n)
  end.

Fixpoint lru_remove_all (keys : list string) (o : LruOrder) : option LruOrder :=
  match keys with
  | [] => Some o
  | k :: keys => o ← lru_remove k o; lru_remove_all keys o
  end.

Definition invalidate_table (table : string) (c : L2Cache W) : Pan W (L2Cache W) :=
  let keys_to_remove := default [] (table_index c !! table) in
  let '(d, actually_removed) := remove_all keys_to_remove (data c) 0 in
  let c := set_data d c in
  let! c :=
    if (0 <? actually_removed)%nat then
      let! o := plift (lru_remove_all keys_to_remove (access_order c)) in
      pret (set_access_order o c)
    else pret c in
  let c := set_table_index (delete table (table_index c)) c in
  let c :=
    if (0 <? actually_removed)%nat then count_for table Evicted (Z.of_nat actually_removed) c else c in
  match invalidation_bus c with
  | Some publish => let* _ := publish (InvalidateTable table) in pret c
  | None => pret c
  end.

Definition clear (c : L2Cache W) : L2Cache W :=
  let removed := size (data c) in
  let s := stats c in
  let s :=
    if (0 <? removed)%nat then
      mkStats (hits s) (misses s) (sets s) (wrap64 (evictions s + Z.of_nat removed)) 0
    else s in
  set_stats s ∅ (set_table_index ∅ (set_access_order (lru_clear (access_order c)) (set_data ∅ c))).

(** ** Statistics and expiry *)

Definition l2_size (c : L2Cache W) : nat := size (data c).

Definition get_stats (c : L2Cache W) : L2CacheStats :=
  mkStats (hits (stats c)) (misses (stats c)) (sets (stats c)) (evictions (stats c)) (l2_size c).

Definition reset_stats (c : L2Cache W) : L2Cache W := set_stats stats_default ∅ c.

Definition get_table_stats (table : string) (c : L2Cache W) : option PerTableStats := table_stats c !! table.
Definition all_table_stats (c : L2Cache W) : gmap string PerTableStats := table_stats c.

Definition contains (key : CacheKey) (c : L2Cache W) : Eff W bool :=
  match data c !! to_string_key key with
  | Some e => let* b := is_expired e in eret (negb b)
  | None => eret false
  end.

Fixpoint expired_keys (entries : list (string * CacheEntry)) : Eff W (list string) :=
  match entries with
  | [] => eret []
  | (k, e) :: entries =>
      let* b := is_expired e in
      let* ks := expired_keys entries in
      eret (if (b : bool) then k :: ks else ks)
  end.

(** [key_to_table]: a later table overwrites an earlier one. *)
Definition key_to_table (idx : gmap string (list string)) : gmap string string :=
  fold_left (fun m (tk : string * list string) =>
      fold_left (fun (m : gmap string string) k => <[k := fst tk]> m) (snd tk) m)
    (map_to_list idx) ∅.

Definition evict_expired (c : L2Cache W) : Pan W (nat * L2Cache W) :=
  let! expired := pcall (expired_keys (map_to_list (data c))) in
  let tables := key_to_table (table_index c) in
  let '(d, removed) := remove_all expired (data c) 0 in
  let c := set_data d c in
  if (0 <? removed)%nat then
    let! o := plift (lru_remove_all expired (access_order c)) in
    let c := set_access_order o c in
    let ts := fold_left (fun (m : gmap string PerTableStats) k =>
        match tables !! k with
        | Some t => <[t := count_table Evicted 1 (default table_stats_default (m !! t))]> m
        | None => m
        end) expired (table_stats c) in
    pret (removed, set_stats (count Evicted (Z.of_nat removed) (stats c)) ts c)
  else pret (removed, c).

Definition update_ttl (key : CacheKey) (ttl : Z) (c : L2Cache W) : Pan W (bool * L2Cache W) :=
  match data c !! to_string_key key with
  | Some e =>
      let! now := pcall instant_now in
      let! t := plift (instant_add now ttl) in
      pret (true, set_data (<[to_string_key key := mkEntry (entry_value e) (Some t)]> (data c)) c)
  | None => pret (false, c)
  end.

Definition remaining_ttl (key : CacheKey) (c : L2Cache W) : Eff W (option (option Z)) :=
  match data c !! to_string_key key with
  | Some e =>
      match expires_at e with
      | Some t =>
          let* now := instant_now in
          eret (if (t <=? now)%Z then None else Some (Some (t - now)%Z))
      | None => eret (Some None)
      end
  | None => eret None
  end.
End Cache.

(** * The reference

    The keys with their entries, the least recently used first. *)

Notation Entries := (list (CacheKey * CacheEntry)).

Section Reference.
Context {W : Type} `{Clock W}.
Variable ttl0 : option Z.
Variable cap : nat.
Variable bus : option (InvalidationMessage -> Eff W unit).

Fixpoint ref_first_expired (l : Entries) : Eff W (option CacheKey) :=
  match l with
  | [] => eret None
  | (k, e) :: l =>
      let* b := is_expired e in
      if (b : bool) then eret (Some k) else ref_first_expired l
  end.

(** A full cache loses the first expired entry, or else the least recently used one. *)
Definition ref_make_room (l : Entries) : Eff W Entries :=
  if (cap <=? length l)%nat then
    let* expired := ref_first_expired l in
    eret (match expired with
          | Some k => assoc_drop k l
          | None => tail l
          end)
  else eret l.

Definition ref_put (key : CacheKey) (value : Value) (ttl : option Z) (l : Entries) : Pan W Entries :=
  let! entry := entry_new value (match ttl with Some d => Some d | None => ttl0 end) in
  let! l :=
    match assoc_find key l with
    | Some _ => pret l
    | None => pcall (ref_make_room l)
    end in
  pret (assoc_drop key l ++ [(key, entry)])%list.

Definition ref_value (key : CacheKey) (l : Entries) : Eff W (option Value) :=
  match assoc_find key l with
  | Some e => let* b := is_expired e in eret (if (b : bool) then None else Some (entry_value e))
  | None => eret None
  end.

(** A key that is used becomes the last one. *)
Definition ref_touch (key : CacheKey) (l : Entries) : Entries :=
  match assoc_find key l with
  | Some e => (assoc_drop key l ++ [(key, e)])%list
  | None => l
  end.

Definition ref_get (key : CacheKey) (l : Entries) : Pan W (option Value * Entries) :=
  let! result := pcall (ref_value key l) in
  pret (result, match result with Some _ => ref_touch key l | None => l end).

Definition ref_invalidate_table (table : string) (l : Entries) : Pan W Entries :=
  let l := filter (fun p => key_table p.1 <> table) l in
  match bus with
  | Some publish => let* _ := publish (InvalidateTable table) in pret l
  | None => pret l
  end.

Definition set_expiry (key : CacheKey) (t : Z) (l : Entries) : Entries :=
  (fun p => if decide (p.1 = key) then (p.1, mkEntry (entry_value p.2) (Some t)) else p) <$> l.

Definition ref_update_ttl (key : CacheKey) (ttl : Z) (l : Entries) : Pan W (bool * Entries) :=
  match assoc_find key l with
  | Some _ =>
      let! now := pcall instant_now in
      let! t := plift (instant_add now ttl) in
      pret (true, set_expiry key t l)
  | None => pret (false, l)
  end.

(** ** Operations of both *)

Inductive L2Op : Type :=
| OpPut (key : CacheKey) (value : Value) (ttl : option Z)
| OpGet (key : CacheKey)
| OpInvalidate (key : CacheKey)
| OpInvalidateTable (table : string)
| OpClear
| OpUpdateTtl (key : CacheKey) (ttl : Z)
| OpSize.

Inductive Answer : Type :=
| NoAnswer
| AnsValue (v : option Value)
| AnsBool (b : bool)
| AnsSize (n : nat).

Definition l2_op (op : L2Op) (c : L2Cache W) : Pan W (Answer * L2Cache W) :=
  match op with
  | OpPut key value ttl => let! c := put key value ttl c in pret (NoAnswer, c)
  | OpGet key => let! (v, c) := get key c in pret (AnsValue v, c)
  | OpInvalidate key => let! c := invalidate key c in pret (NoAnswer, c)
  | OpInvalidateTable table => let! c := invalidate_table table c in pret (NoAnswer, c)
  | OpClear => pret (NoAnswer, clear c)
  | OpUpdateTtl key ttl => let! (b, c) := update_ttl key ttl c in pret (AnsBool b, c)
  | OpSize => pret (AnsSize (l2_size c), c)
  end.

Definition ref_op (op : L2Op) (l : Entries) : Pan W (Answer * Entries) :=
  match op with
  | OpPut key value ttl => let! l := ref_put key value ttl l in pret (NoAnswer, l)
  | OpGet key => let! (v, l) := ref_get key l in pret (AnsValue v, l)
  | OpInvalidate key => pret (NoAnswer, assoc_drop key l)
  | OpInvalidateTable table => let! l := ref_invalidate_table table l in pret (NoAnswer, l)
  | OpClear => pret (NoAnswer, [])
  | OpUpdateTtl key ttl => let! (b, l) := ref_update_ttl key ttl l in pret (AnsBool b, l)
  | OpSize => pret (AnsSize (length l), l)
  end.

Fixpoint run_steps {St} (step : L2Op -> St -> Pan W (Answer * St)) (ops : list L2Op) (s : St) :
    Pan W (list Answer * St) :=
  match ops with
  | [] => pret ([], s)
  | op :: ops =>
      let! (a, s) := step op s in
      let! (rest, s) := run_steps step ops s in
      pret (a :: rest, s)
  end.

Definition op_plain (op : L2Op) : bool :=
  match op with
  | OpPut key _ _ | OpGet key | OpInvalidate key | OpUpdateTtl key _ => plain_table (key_table key)
  | OpInvalidateTable table => plain_table table
  | OpClear | OpSize => true
  end.
End Reference.

(** * The refinement *)

Definition texts (l : Entries) : list string := to_string_key <$> l.*1.
Definition by_text (l : Entries) : list (string * CacheEntry) :=
  (fun p => (to_string_key p.1, p.2)) <$> l.
Definition plain_entries (l : Entries) : Prop := Forall (fun p => plain_table (key_table p.1) = true) l.

Lemma by_text_keys l : (by_text l).*1 = texts l.
Proof. unfold by_text, texts. by rewrite <- !list_fmap_compose. Qed.

Lemma texts_NoDup l : NoDup (texts l) -> NoDup l.*1.
Proof. apply NoDup_fmap_1. Qed.

Lemma plain_drop key l : plain_entries l -> plain_entries (assoc_drop key l).
Proof. unfold plain_entries. rewrite !Forall_forall. intros Hl p [_ Hp]%elem_of_assoc_drop. auto. Qed.

Lemma text_in key l :
  plain_table (key_table key) = true -> plain_entries l ->
  to_string_key key ∈ texts l <-> key ∈ l.*1.
Proof.
  intros Hk Hl. unfold texts. rewrite list_elem_of_fmap. split; [|by exists key].
  intros (k & Heq & Hin). apply to_string_key_inj in Heq as ->; [done|done|].
  apply list_elem_of_fmap in Hin as (p & -> & Hp). by apply (proj1 (Forall_forall _ _) Hl).
Qed.

Section Lookup.
Variables (key : CacheKey) (l : Entries).
Hypothesis Hkey : plain_table (key_table key) = true.
Hypothesis Hl : plain_entries l.
Hypothesis Hnodup : NoDup (texts l).

Lemma data_lookup :
  (list_to_map (by_text l) : gmap string CacheEntry) !! to_string_key key = assoc_find key l.
Proof.
  apply option_eq. intros e. rewrite <- elem_of_list_to_map by by rewrite by_text_keys.
  rewrite assoc_find_Some by by apply texts_NoDup. unfold by_text. rewrite list_elem_of_fmap.
  split; [|by exists (key, e)]. intros ([k e'] & Heq & Hin). apply pair_equal_spec in Heq as [Heq ->]. cbn in Heq.
  apply to_string_key_inj in Heq as ->; [done|done|].
  by apply (proj1 (Forall_forall _ _) Hl (k, e')).
Qed.

Lemma order_drop : drop_key (to_string_key key) (texts l) = texts (assoc_drop key l).
Proof.
  unfold drop_key, texts, assoc_drop. clear Hnodup. induction Hl as [|[k e] l' Hp Hl' IH]; [done|].
  cbn [fmap list_fmap fst]. rewrite !filter_cons. cbn [fst]. destruct (decide (k = key)) as [->|Hne].
  - rewrite !decide_False by tauto. by rewrite IH.
  - rewrite !decide_True; [|done|]. { cbn. by rewrite IH. }
    intros Heq%to_string_key_inj; done.
Qed.

Lemma data_drop :
  delete (to_string_key key) (list_to_map (by_text l) : gmap string CacheEntry) =
  list_to_map (by_text (assoc_drop key l)).
Proof.
  assert (Hn : NoDup (by_text (assoc_drop key l)).*1).
  { rewrite by_text_keys, <- order_drop. by apply NoDup_filter. }
  apply map_eq. intros s. apply option_eq. intros e.
  rewrite lookup_delete_Some, <- !elem_of_list_to_map by (done || by rewrite by_text_keys).
  unfold by_text. rewrite !list_elem_of_fmap. setoid_rewrite elem_of_assoc_drop. split.
  - intros (Hs & p & [= -> ->] & Hp). exists p. split_and!; [done| |done]. congruence.
  - intros (p & [= -> ->] & Hne & Hp). split; [|by exists p].
    intros Heq%to_string_key_inj; [done|done|]. by apply (proj1 (Forall_forall _ _) Hl p).
Qed.

Lemma text_fresh : to_string_key key ∉ texts (assoc_drop key l).
Proof.
  rewrite text_in by (done || by apply plain_drop). apply assoc_drop_fresh.
Qed.

Lemma data_use e :
  <[to_string_key key := e]> (list_to_map (by_text l) : gmap string CacheEntry) =
  list_to_map (by_text (assoc_drop key l ++ [(key, e)])%list).
Proof.
  unfold by_text at 2. rewrite fmap_app. cbn. rewrite list_to_map_snoc.
  - fold (by_text (assoc_drop key l)). by rewrite <- data_drop, insert_delete_eq.
  - fold (by_text (assoc_drop key l)). rewrite by_text_keys. apply text_fresh.
Qed.

Lemma order_use e :
  (drop_key (to_string_key key) (texts l) ++ [to_string_key key])%list =
  texts (assoc_drop key l ++ [(key, e)])%list.
Proof. unfold texts at 2. by rewrite !fmap_app, order_drop. Qed.
End Lookup.

Section Refinement.
Context {W : Type} `{Clock W}.
Variable ttl0 : option Z.
Variable cap : nat.
Variable bus : option (InvalidationMessage -> Eff W unit).

Definition indexed (c : L2Cache W) (t : string) : list string := default [] (table_index c !! t).

(** What the cache [c] holds when the reference holds [l]. *)
Record repr (c : L2Cache W) (l : Entries) : Prop := {
  repr_data : data c = list_to_map (by_text l);
  repr_order : orders (access_order c) (texts l);
  repr_plain : plain_entries l;
  repr_index : forall p, p ∈ l -> to_string_key p.1 ∈ indexed c (key_table p.1);
  repr_listed : forall t s, s ∈ indexed c t ->
    plain_table t = true /\ exists k, key_table k = t /\ s = to_string_key k;
  repr_config : default_ttl c = ttl0 /\ max_size c = cap /\ invalidation_bus c = bus;
  repr_size : (length l <= Nat.max 1 cap)%nat;
}.

Lemma repr_nodup c l : repr c l -> NoDup (texts l).
Proof. intros Hr. eapply orders_NoDup, repr_order, Hr. Qed.

Lemma repr_lookup c l key :
  repr c l -> plain_table (key_table key) = true -> data c !! to_string_key key = assoc_find key l.
Proof.
  intros Hr Hk. rewrite (repr_data _ _ Hr). apply data_lookup; [done|by apply Hr|by eapply repr_nodup].
Qed.

Lemma repr_length c l : repr c l -> size (data c) = length l.
Proof.
  intros Hr. rewrite (repr_data _ _ Hr), map_size_list_to_map.
  - unfold by_text. by rewrite length_fmap.
  - rewrite by_text_keys. by eapply repr_nodup.
Qed.

(** Dropping a key from the data, the order and possibly the index. *)
Lemma repr_drop c l key :
  repr c l -> plain_table (key_table key) = true ->
  exists o, lru_remove (to_string_key key) (access_order c) = Some o /\
    forall c', data c' = delete (to_string_key key) (data c) -> access_order c' = o ->
      (forall t s, s ∈ indexed c' t -> s ∈ indexed c t) ->
      (forall t s, s ∈ indexed c t -> s <> to_string_key key -> s ∈ indexed c' t) ->
      default_ttl c' = default_ttl c /\ max_size c' = max_size c /\
      invalidation_bus c' = invalidation_bus c ->
      repr c' (assoc_drop key l).
Proof.
  intros Hr Hk. pose proof (repr_nodup _ _ Hr) as Hn. pose proof (repr_plain _ _ Hr) as Hp.
  destruct (remove_orders _ _ (to_string_key key) (repr_order _ _ Hr)) as (o & Ho & Hord & _).
  exists o. split; [done|]. intros c' Hd Hao Hi1 Hi2 Hcfg.
  split.
  - rewrite Hd, (repr_data _ _ Hr). by apply data_drop.
  - rewrite Hao, <- order_drop; done.
  - by apply plain_drop.
  - intros p [Hne Hin]%elem_of_assoc_drop. apply Hi2; [by apply (repr_index _ _ Hr)|].
    intros Heq%to_string_key_inj; [done| |done]. by apply (proj1 (Forall_forall _ _) Hp).
  - intros t s Hs%Hi1. by apply (repr_listed _ _ Hr).
  - pose proof (repr_config _ _ Hr). naive_solver congruence.
  - etrans; [|apply (repr_size _ _ Hr)]. apply sublist_length, assoc_drop_sublist.
Qed.

(** Writing a key as the most recently used one. *)
Lemma repr_use c l key :
  repr c l -> plain_table (key_table key) = true -> (length (assoc_drop key l) < Nat.max 1 cap)%nat ->
  exists o, touch (to_string_key key) (access_order c) = Some o /\
    forall c' e, data c' = <[to_string_key key := e]> (data c) -> access_order c' = o ->
      to_string_key key ∈ indexed c' (key_table key) ->
      (forall t s, s ∈ indexed c' t ->
        s ∈ indexed c t \/ (t = key_table key /\ s = to_string_key key)) ->
      (forall t s, s ∈ indexed c t -> s ∈ indexed c' t) ->
      default_ttl c' = default_ttl c /\ max_size c' = max_size c /\
      invalidation_bus c' = invalidation_bus c ->
      repr c' (assoc_drop key l ++ [(key, e)])%list.
Proof.
  intros Hr Hk Hlen. pose proof (repr_nodup _ _ Hr) as Hn. pose proof (repr_plain _ _ Hr) as Hp.
  destruct (touch_orders _ _ (to_string_key key) (repr_order _ _ Hr)) as (o & Ho & Hord & _).
  exists o. split; [done|]. intros c' e Hd Hao Hi0 Hi1 Hi2 Hcfg. split.
  - rewrite Hd, (repr_data _ _ Hr). by apply data_use.
  - rewrite Hao. erewrite <- order_use; done.
  - apply Forall_app. split; [by apply plain_drop|by repeat constructor].
  - intros p. rewrite elem_of_app, list_elem_of_singleton. intros [[_ Hin]%elem_of_assoc_drop| ->]; [|done].
    by apply Hi2, (repr_index _ _ Hr).
  - intros t s [Hs|[-> ->]]%Hi1; [by apply (repr_listed _ _ Hr)|]. split; [done|by exists key].
  - pose proof (repr_config _ _ Hr). naive_solver congruence.
  - rewrite length_app. cbn. lia.
Qed.

(** ** Victims *)

Lemma first_expired_ref (d : gmap string CacheEntry) (l : Entries) w :
  (forall p, p ∈ l -> d !! to_string_key p.1 = Some p.2) ->
  first_expired (texts l) d w =
  let '(r, w') := ref_first_expired l w in (to_string_key <$> r, w').
Proof.
  revert w. induction l as [|[k e] l IH]; intros w Hd; [done|].
  cbn [texts fmap list_fmap fst first_expired ref_first_expired].
  pose proof (Hd (k, e) ltac:(left)) as Hk. cbn in Hk. rewrite Hk. unfold ebind. destruct (is_expired e w) as [[] w1]; [done|].
  apply IH. intros p Hp. apply Hd. by right.
Qed.

Lemma ref_first_expired_in l w k w' : ref_first_expired l w = (Some k, w') -> k ∈ l.*1.
Proof.
  revert w. induction l as [|[k' e] l IH]; intros w; [done|]. cbn. unfold ebind.
  destruct (is_expired e w) as [[] w1]; [intros [= -> _]; left|]. intros Hr. right. by eapply IH.
Qed.

Lemma repr_entry c l p : repr c l -> p ∈ l -> data c !! to_string_key p.1 = Some p.2.
Proof.
  intros Hr Hp. rewrite (repr_lookup _ _ _ Hr).
  - apply assoc_find_Some; [by eapply texts_NoDup, repr_nodup|]. by destruct p.
  - by apply (proj1 (Forall_forall _ _) (repr_plain _ _ Hr)).
Qed.

Lemma length_drop_in key (l : Entries) : key ∈ l.*1 -> (length (assoc_drop key l) < length l)%nat.
Proof.
  intros (p & -> & Hp)%list_elem_of_fmap. unfold assoc_drop.
  apply length_filter_lt with p; [done|]. tauto.
Qed.

Lemma indexed_filter (c : L2Cache W) v t s :
  s ∈ default [] ((filter (fun k => k <> v) <$> table_index c) !! t) <->
  s <> v /\ s ∈ default [] (table_index c !! t).
Proof.
  rewrite lookup_fmap. destruct (table_index c !! t); cbn;
    [by rewrite list_elem_of_filter|]. split; [by intros ?%not_elem_of_nil|by intros [_ ?%not_elem_of_nil]].
Qed.

Lemma evict_victim_repr c l key :
  repr c l -> plain_table (key_table key) = true ->
  exists c', evict_victim (to_string_key key) c = pret c' /\ repr c' (assoc_drop key l).
Proof.
  intros Hr Hk. destruct (repr_drop _ _ _ Hr Hk) as (o & Ho & Hc').
  eexists. split; [unfold evict_victim; by rewrite Ho|].
  apply Hc'; try done; intros t s; unfold indexed; cbn -[lookup filter fmap];
    rewrite indexed_filter; tauto.
Qed.

Lemma choose_victim_ref c l w :
  repr c l ->
  choose_victim c w =
  let '(r, w') := ref_first_expired l w in
  (Some (to_string_key <$> match r with Some k => Some k | None => l.*1 !! 0 end), w').
Proof.
  intros Hr. destruct (orders_observed _ _ (repr_order _ _ Hr)) as (Hiter & Hlru & _).
  unfold choose_victim. rewrite Hiter, Hlru. unfold plift, pcall, pbind, ebind, eret, pret.
  rewrite (first_expired_ref _ l) by (intros p Hp; by eapply repr_entry).
  destruct (ref_first_expired l w) as [[k|] w']; [done|]. cbn. unfold eret, texts.
  by rewrite list_lookup_fmap.
Qed.

(** What [put] leaves before it writes. *)
Definition room (key : CacheKey) (c : L2Cache W) (l : Entries) : Prop :=
  repr c l /\ (length (assoc_drop key l) < Nat.max 1 cap)%nat.

Lemma assoc_drop_le key (l : Entries) : (length (assoc_drop key l) <= length l)%nat.
Proof. apply sublist_length, assoc_drop_sublist. Qed.

Lemma make_room_repr c l key :
  repr c l -> plain_table (key_table key) = true ->
  pan_rel (room key)
    (if negb (is_some (data c !! to_string_key key)) && (max_size c <=? size (data c))%nat then
       let! victim := choose_victim c in
       match victim with Some v => evict_victim v c | None => pret c end
     else pret c)
    (match assoc_find key l with Some _ => pret l | None => pcall (ref_make_room cap l) end).
Proof.
  intros Hr Hk. pose proof (repr_size _ _ Hr) as Hsize. pose proof (assoc_drop_le key l) as Hle.
  rewrite (repr_lookup _ _ _ Hr Hk), (repr_length _ _ Hr).
  destruct (repr_config _ _ Hr) as (_ & -> & _).
  destruct (assoc_find key l) as [e|] eqn:Hf; cbn [is_some negb andb].
  { apply pan_rel_ret. split; [done|]. enough (length (assoc_drop key l) < length l)%nat by lia.
    apply length_drop_in. apply assoc_find_Some in Hf; [|by eapply texts_NoDup, repr_nodup].
    apply list_elem_of_fmap. by exists (key, e). }
  unfold ref_make_room. destruct (Nat.leb_spec cap (length l)) as [Hfull|Hfree];
    [|intros w; split; [done|]; constructor; split; [done|]; lia].
  intros w. unfold pcall, pbind, ebind. rewrite (choose_victim_ref _ _ _ Hr).
  destruct (ref_first_expired l w) as [r w1] eqn:He.
  assert (Hvictim : forall v, v ∈ l.*1 -> snd (evict_victim (to_string_key v) c w1) = w1 /\
    option_Forall2 (room key) (fst (evict_victim (to_string_key v) c w1)) (Some (assoc_drop v l))).
  { intros v Hv. destruct (evict_victim_repr c l v Hr) as (c' & -> & Hc').
    - apply list_elem_of_fmap in Hv as (p & -> & Hp). by apply (proj1 (Forall_forall _ _) (repr_plain _ _ Hr)).
    - split; [done|]. constructor. split; [done|]. pose proof (assoc_drop_le key (assoc_drop v l)).
      pose proof (length_drop_in _ _ Hv). lia. }
  destruct r as [k|].
  - apply ref_first_expired_in in He. cbn. by apply Hvictim.
  - destruct l as [|[k e] l]; cbn.
    + split; [done|]. constructor. split; [done|]. cbn. lia.
    + destruct (Hvictim k) as [H1 H2]; [left|]. cbn. split; [done|].
      assert (assoc_drop k ((k, e) :: l) = l) as Hd; [|by rewrite Hd in H2].
      unfold assoc_drop. rewrite filter_cons_False by (cbn; tauto). apply assoc_drop_absent.
      pose proof (texts_NoDup _ (repr_nodup _ _ Hr)) as Hn. by apply NoDup_cons in Hn as [? _].
Qed.

Lemma indexed_after_put (c : L2Cache W) table key_str t :
  indexed (index_key table key_str c) t =
  if decide (t = table) then
    (if decide (key_str ∈ indexed c table) then indexed c table else indexed c table ++ [key_str])%list
  else indexed c t.
Proof.
  unfold indexed, index_key. cbn -[lookup]. destruct (decide (t = table)) as [->|Hne].
  - by rewrite lookup_insert_eq.
  - by rewrite lookup_insert_ne.
Qed.

Lemma indexed_key_in (c : L2Cache W) table key_str :
  key_str ∈ indexed (index_key table key_str c) table.
Proof.
  rewrite indexed_after_put, decide_True by done. case_decide; [done|].
  apply elem_of_app. right. left.
Qed.

Lemma indexed_key_old (c : L2Cache W) table key_str t s :
  s ∈ indexed c t -> s ∈ indexed (index_key table key_str c) t.
Proof.
  intros Hs. rewrite indexed_after_put. repeat case_decide; subst; [done| |done].
  apply elem_of_app. by left.
Qed.

Lemma indexed_key_new (c : L2Cache W) table key_str t s :
  s ∈ indexed (index_key table key_str c) t -> s ∈ indexed c t \/ (t = table /\ s = key_str).
Proof.
  rewrite indexed_after_put. repeat case_decide; subst; [by left| |by left].
  rewrite elem_of_app, list_elem_of_singleton. tauto.
Qed.

Lemma put_repr c l key value ttl :
  repr c l -> plain_table (key_table key) = true ->
  pan_rel repr (put key value ttl c) (ref_put ttl0 cap key value ttl l).
Proof.
  intros Hr Hk. unfold put, ref_put. destruct (repr_config _ _ Hr) as (-> & _ & _).
  apply pan_rel_same. intros entry. unfold put_data. apply pan_rel_assoc.
  eapply pan_rel_bind; [by apply make_room_repr|]. intros c1 l1 [Hr1 Hlen].
  destruct (repr_use _ _ _ Hr1 Hk Hlen) as (o & Ho & Hc').
  unfold touch_order. intros w. unfold pbind, plift, ebind, pret, eret. cbn. rewrite Ho. cbn.
  split; [done|]. constructor.
  apply Hc'; [done|done|apply indexed_key_in| | |done]; intros t s Hs.
  - by apply indexed_key_new in Hs.
  - by apply indexed_key_old.
Qed.

Lemma live_value_ref c l key :
  repr c l -> plain_table (key_table key) = true ->
  live_value (to_string_key key) c = ref_value key l.
Proof. intros Hr Hk. unfold live_value, ref_value. by rewrite (repr_lookup _ _ _ Hr Hk). Qed.

Lemma get_repr c l key :
  repr c l -> plain_table (key_table key) = true ->
  pan_rel (fun x y => x.1 = y.1 /\ repr x.2 y.2) (get key c) (ref_get key l).
Proof.
  intros Hr Hk. unfold get, ref_get. rewrite (live_value_ref _ _ _ Hr Hk).
  assert (Hmiss : forall k n, repr (count_for (key_table key) k n c) l) by (intros; by destruct Hr; split).
  destruct (assoc_find key l) as [e|] eqn:Hf.
  - apply pan_rel_same. intros [v|]; [|intros w; cbn; split; [done|]; constructor; split; [done|apply Hmiss]]. unfold ref_touch. rewrite Hf.
    assert (Hin : (key, e) ∈ l) by (apply assoc_find_Some; [by eapply texts_NoDup, repr_nodup|done]).
    destruct (repr_use c l key Hr Hk) as (o & Ho & Hc').
    { pose proof (repr_size _ _ Hr). enough (length (assoc_drop key l) < length l)%nat by lia.
      apply length_drop_in, list_elem_of_fmap. by exists (key, e). }
    unfold touch_order. rewrite Ho. intros w. cbn. split; [done|]. constructor. cbn. split; [done|].
    apply Hc'; try done; [|by apply (repr_index _ _ Hr) in Hin|by intros; left].
    cbn. rewrite insert_id; [done|]. by rewrite (repr_lookup _ _ _ Hr Hk).
  - unfold ref_value. rewrite Hf. intros w. cbn. split; [done|]. constructor. split; [done|apply Hmiss].
Qed.

Lemma invalidate_repr c l key :
  repr c l -> plain_table (key_table key) = true ->
  exists c', invalidate key c = pret c' /\ repr c' (assoc_drop key l).
Proof.
  intros Hr Hk. unfold invalidate. rewrite (repr_lookup _ _ _ Hr Hk).
  destruct (assoc_find key l) as [e|] eqn:Hf.
  - destruct (repr_drop _ _ _ Hr Hk) as (o & Ho & Hc'). cbn [access_order set_data]. rewrite Ho.
    eexists. split; [done|].
    assert (Hi : forall t s, s ∈ default [] (alter (filter (fun k => k <> to_string_key key))
        (key_table key) (table_index c) !! t) <->
      s ∈ indexed c t /\ (t = key_table key -> s <> to_string_key key)).
    { intros t s. unfold indexed. destruct (decide (t = key_table key)) as [->|Hne].
      - rewrite lookup_alter_eq. destruct (table_index c !! _) as [ks|]; cbn.
        + rewrite list_elem_of_filter. tauto.
        + split; [by intros ?%not_elem_of_nil|by intros [?%not_elem_of_nil _]].
      - rewrite lookup_alter_ne by done. tauto. }
    apply Hc'; try done; intros t s; unfold indexed at 1 2; cbn -[lookup alter]; fold (indexed c t);
      rewrite Hi; tauto.
  - exists c. split; [done|]. by rewrite assoc_drop_absent by by apply assoc_find_None.
Qed.

(** ** Removal of many keys *)

Lemma sublist_same_length {A} (l1 l2 : list A) :
  l1 `sublist_of` l2 -> (length l2 <= length l1)%nat -> l1 = l2.
Proof.
  induction 1 as [|x l1 l2 Hs IH|x l1 l2 Hs IH]; cbn; intros Hlen; [done| |].
  - f_equal. apply IH. lia.
  - apply sublist_length in Hs. lia.
Qed.

Fixpoint drop_all (keys : list CacheKey) (l : Entries) : Entries :=
  match keys with [] => l | k :: keys => drop_all keys (assoc_drop k l) end.

Definition plain_keys (keys : list CacheKey) : Prop := Forall (fun k => plain_table (key_table k) = true) keys.

Lemma drop_all_filter keys l : drop_all keys l = filter (fun p => p.1 ∉ keys) l.
Proof.
  revert l. induction keys as [|k keys IH]; intros l; cbn [drop_all].
  - symmetry. induction l as [|p l IHl]; [done|].
    rewrite filter_cons_True by apply not_elem_of_nil. by rewrite IHl.
  - rewrite IH. unfold assoc_drop. rewrite list_filter_filter. apply list_filter_iff. intros p.
    rewrite not_elem_of_cons. tauto.
Qed.

Lemma drop_all_sublist keys l : drop_all keys l `sublist_of` l.
Proof. rewrite drop_all_filter. apply sublist_filter. Qed.

Lemma drop_all_texts keys l : NoDup (texts l) -> NoDup (texts (drop_all keys l)).
Proof.
  intros Hn. eapply sublist_NoDup; [exact Hn|]. apply fmap_sublist, fmap_sublist, drop_all_sublist.
Qed.

Lemma remove_all_ref keys l n :
  plain_keys keys -> plain_entries l -> NoDup (texts l) ->
  remove_all (to_string_key <$> keys) (list_to_map (by_text l)) n =
  (list_to_map (by_text (drop_all keys l)), n + (length l - length (drop_all keys l)))%nat.
Proof.
  revert l n. induction keys as [|k keys IH]; intros l n Hk Hl Hn.
  { cbn. f_equal. lia. }
  apply Forall_cons in Hk as [Hk Hks]. cbn [fmap list_fmap remove_all drop_all].
  rewrite data_lookup, data_drop by done. rewrite IH; [|done|by apply plain_drop|].
  2:{ rewrite <- order_drop by done. by apply NoDup_filter. }
  f_equal. pose proof (sublist_length _ _ (drop_all_sublist keys (assoc_drop k l))).
  destruct (assoc_find k l) as [e|] eqn:Hf; cbn [is_some].
  - apply assoc_find_Some in Hf; [|by apply texts_NoDup].
    assert (length l = S (length (assoc_drop k l))) as ->; [|lia].
    apply list_elem_of_split in Hf as (l1 & l2 & ->). unfold assoc_drop.
    pose proof (texts_NoDup _ Hn) as Hd. rewrite fmap_app in Hd. cbn in Hd.
    rewrite filter_app, filter_cons_False by (cbn; tauto).
    apply NoDup_app in Hd as (_ & Hd1 & [Hd2 _]%NoDup_cons).
    pose proof (assoc_drop_absent k l1) as H1. pose proof (assoc_drop_absent k l2 Hd2) as H2.
    unfold assoc_drop in H1, H2. rewrite H1, H2, !length_app; [cbn; lia|].
    intros Hin. apply (Hd1 _ Hin). left.
  - apply assoc_find_None in Hf. by rewrite assoc_drop_absent by done.
Qed.

Lemma lru_remove_all_ref keys l o :
  plain_keys keys -> plain_entries l -> orders o (texts l) ->
  exists o', lru_remove_all (to_string_key <$> keys) o = Some o' /\ orders o' (texts (drop_all keys l)).
Proof.
  revert l o. induction keys as [|k keys IH]; intros l o Hk Hl Ho; [by exists o|].
  apply Forall_cons in Hk as [Hk Hks]. cbn [fmap list_fmap lru_remove_all drop_all].
  destruct (remove_orders _ _ (to_string_key k) Ho) as (o1 & -> & Ho1 & _). cbn [mbind option_bind].
  apply IH; [done|by apply plain_drop|]. by rewrite <- order_drop.
Qed.

(** Removing [keys] from the data and, when one was there, from the order. *)
Lemma repr_drop_all c l keys :
  repr c l -> plain_keys keys ->
  let '(d, n) := remove_all (to_string_key <$> keys) (data c) 0 in
  exists o, (if (0 <? n)%nat then lru_remove_all (to_string_key <$> keys) (access_order c) else Some (access_order c))
      = Some o /\ n = (length l - length (drop_all keys l))%nat /\
    forall c', data c' = d -> access_order c' = o ->
      (forall t s, s ∈ indexed c' t -> s ∈ indexed c t) ->
      (forall p, p ∈ drop_all keys l -> to_string_key p.1 ∈ indexed c' (key_table p.1)) ->
      default_ttl c' = default_ttl c /\ max_size c' = max_size c /\
      invalidation_bus c' = invalidation_bus c ->
      repr c' (drop_all keys l).
Proof.
  intros Hr Hk. pose proof (repr_nodup _ _ Hr) as Hn. pose proof (repr_plain _ _ Hr) as Hp.
  rewrite (repr_data _ _ Hr), remove_all_ref by done. cbn [plus].
  pose proof (drop_all_sublist keys l) as Hsub.
  destruct (lru_remove_all_ref keys l _ Hk Hp (repr_order _ _ Hr)) as (o1 & Ho1 & Hord).
  assert (exists o, (if (0 <? length l - length (drop_all keys l))%nat
      then lru_remove_all (to_string_key <$> keys) (access_order c) else Some (access_order c)) = Some o /\
      orders o (texts (drop_all keys l))) as (o & -> & Ho).
  { destruct (Nat.ltb_spec 0 (length l - length (drop_all keys l))); [by exists o1|].
    exists (access_order c). split; [done|].
    rewrite (sublist_same_length _ _ Hsub) by lia. apply (repr_order _ _ Hr). }
  exists o. split_and!; [done|done|]. intros c' Hd Hao Hi1 Hi2 Hcfg. split; [done|by rewrite Hao| |done| | |].
  - unfold plain_entries in *. rewrite Forall_forall in *. intros p Hpp. apply Hp. by eapply elem_of_sublist.
  - intros t s Hs%Hi1. by apply (repr_listed _ _ Hr).
  - pose proof (repr_config _ _ Hr). naive_solver congruence.
  - etrans; [by apply sublist_length|apply (repr_size _ _ Hr)].
Qed.

Lemma texts_of_keys (P : CacheKey -> Prop) (ss : list string) :
  (forall s, s ∈ ss -> exists k, s = to_string_key k /\ P k) ->
  exists keys, ss = to_string_key <$> keys /\ Forall P keys.
Proof.
  induction ss as [|s ss IH]; intros Hall; [exists []; by repeat constructor|].
  destruct IH as (keys & -> & Hkeys); [intros s' Hs'; apply Hall; by right|].
  destruct (Hall s ltac:(left)) as (k & -> & Hk). exists (k :: keys). by rewrite Forall_cons.
Qed.

(** The texts listed for a table are those of keys of the table. *)
Lemma indexed_keys c l table :
  repr c l -> exists keys, indexed c table = to_string_key <$> keys /\
    plain_keys keys /\ Forall (fun k => key_table k = table) keys.
Proof.
  intros Hr. unfold plain_keys. setoid_rewrite <- Forall_and. apply texts_of_keys. intros s Hs.
  destruct (repr_listed _ _ Hr _ _ Hs) as (Hp & k & <- & ->). by exists k.
Qed.

Lemma drop_table c l table keys :
  repr c l -> indexed c table = to_string_key <$> keys -> plain_keys keys ->
  Forall (fun k => key_table k = table) keys ->
  drop_all keys l = filter (fun p => key_table p.1 <> table) l.
Proof.
  intros Hr Hi Hp Ht. rewrite drop_all_filter. pose proof (repr_plain _ _ Hr) as Hpl.
  pose proof (repr_index _ _ Hr) as Hin. clear Hr. induction l as [|p l IH]; [done|].
  apply Forall_cons in Hpl as [Hpp Hpl]. rewrite !filter_cons, IH; [|done|intros; by apply Hin; right].
  assert (p.1 ∉ keys <-> key_table p.1 <> table) as Hiff; [|by repeat case_decide; try done; tauto].
  rewrite Forall_forall in Ht. split; [|naive_solver]. intros Hout Heq. apply Hout.
  specialize (Hin p ltac:(left)). rewrite Heq, Hi in Hin.
  apply list_elem_of_fmap in Hin as (k & Hkeq & Hk). apply to_string_key_inj in Hkeq; [congruence|done|].
  by apply (proj1 (Forall_forall _ _) Hp).
Qed.

Lemma invalidate_table_repr c l table :
  repr c l -> pan_rel repr (invalidate_table table c) (ref_invalidate_table bus table l).
Proof.
  intros Hr. destruct (indexed_keys _ _ table Hr) as (keys & Hi & Hp & Ht).
  pose proof (repr_drop_all _ _ _ Hr Hp) as Hd. pose proof (drop_table _ _ _ _ Hr Hi Hp Ht) as Hf.
  unfold invalidate_table, ref_invalidate_table. fold (indexed c table). rewrite Hi.
  destruct (remove_all (to_string_key <$> keys) (data c) 0) as [d n].
  destruct Hd as (o & Ho & _ & Hc'). rewrite Hf in Hc'. destruct (repr_config _ _ Hr) as (_ & _ & Hbus).
  set (c1 := set_table_index (delete table (table_index c)) (set_access_order o (set_data d c))).
  assert (Hc1 : forall st, repr (st c1) (filter (fun p => key_table p.1 <> table) l) ->
    pan_rel repr (match invalidation_bus (st c1) with
      | Some publish => let* _ := publish (InvalidateTable table) in pret (st c1) | None => pret (st c1) end)
      (match bus with
      | Some publish => let* _ := publish (InvalidateTable table) in
          pret (filter (fun p => key_table p.1 <> table) l)
      | None => pret (filter (fun p => key_table p.1 <> table) l) end)).
  { intros st Hst. destruct (repr_config _ _ Hst) as (_ & _ & ->). destruct bus as [publish|]; intros w.
    - unfold ebind. destruct (publish (InvalidateTable table) w) as [u w1]. split; [done|by constructor].
    - split; [done|by constructor]. }
  assert (Hsub : forall t s, s ∈ default [] (delete table (table_index c) !! t) <->
    t <> table /\ s ∈ indexed c t).
  { intros t s. unfold indexed. destruct (decide (t = table)) as [->|Hne].
    - rewrite lookup_delete_eq. cbn. split; [by intros ?%not_elem_of_nil|tauto].
    - rewrite lookup_delete_ne by done. tauto. }
  assert (Hr1 : repr c1 (filter (fun p => key_table p.1 <> table) l)).
  { apply Hc'; try done.
    - intros t s. unfold indexed at 1. cbn -[lookup delete]. rewrite Hsub. tauto.
    - intros p [Hne Hin]%list_elem_of_filter. unfold indexed. cbn -[lookup delete]. rewrite Hsub.
      split; [done|]. by apply (repr_index _ _ Hr). }
  destruct (0 <? n)%nat.
  - cbn [access_order set_data]. apply pan_rel_assoc. apply pan_rel_lift with o; [done|].
    apply (Hc1 (count_for table Evicted (Z.of_nat n))). by destruct Hr1; split.
  - injection Ho as <-. apply (Hc1 (fun c => c) Hr1).
Qed.

Lemma clear_repr c l : repr c l -> repr (clear c) [].
Proof.
  intros Hr. split; [done|apply orders_new|constructor| | |by destruct Hr|cbn; lia].
  - by intros p ?%not_elem_of_nil.
  - intros t s. unfold indexed. cbn. rewrite lookup_empty. by intros ?%not_elem_of_nil.
Qed.

Lemma set_expiry_texts key t l : texts (set_expiry key t l) = texts l.
Proof.
  unfold texts, set_expiry. f_equal. rewrite <- list_fmap_compose.
  apply list_fmap_ext. intros i [k e] _. cbn. by case_decide.
Qed.

Lemma set_expiry_lookup key t l s :
  plain_table (key_table key) = true -> plain_entries l ->
  (list_to_map (by_text (set_expiry key t l)) : gmap string CacheEntry) !! s =
  if decide (s = to_string_key key)
  then (fun e => mkEntry (entry_value e) (Some t)) <$> (list_to_map (by_text l) : gmap string CacheEntry) !! s
  else (list_to_map (by_text l) : gmap string CacheEntry) !! s.
Proof.
  intros Hk. induction l as [|[k e] l IH]; intros Hl; [by case_decide|].
  apply Forall_cons in Hl as [Hkl Hl]. specialize (IH Hl). cbn in Hkl.
  unfold set_expiry. cbn [fmap list_fmap by_text fst snd list_to_map foldr uncurry].
  fold (by_text l) (set_expiry key t l) (by_text (set_expiry key t l)).
  destruct (decide (to_string_key k = s)) as [<-|Hne].
  - destruct (decide (k = key)) as [->|Hk2]; cbn.
    + by rewrite !lookup_insert_eq, decide_True.
    + rewrite !lookup_insert_eq, decide_False; [done|]. by intros ?%to_string_key_inj.
  - rewrite (lookup_insert_ne _ (to_string_key k)), <- IH by done. apply lookup_insert_ne. by destruct (decide (k = key)).
Qed.

Lemma update_ttl_repr c l key ttl :
  repr c l -> plain_table (key_table key) = true ->
  pan_rel (fun x y => x.1 = y.1 /\ repr x.2 y.2) (update_ttl key ttl c) (ref_update_ttl key ttl l).
Proof.
  intros Hr Hk. unfold update_ttl, ref_update_ttl. rewrite (repr_lookup _ _ _ Hr Hk).
  destruct (assoc_find key l) as [e|] eqn:Hf; [|by apply pan_rel_ret].
  apply pan_rel_same. intros now. apply pan_rel_same. intros t. apply pan_rel_ret. split; [done|].
  assert (Hn : NoDup (by_text (set_expiry key t l)).*1)
    by (rewrite by_text_keys, set_expiry_texts; by eapply repr_nodup).
  pose proof (repr_plain _ _ Hr) as Hp. pose proof (repr_nodup _ _ Hr) as Hnd.
  destruct Hr as [Hd Ho _ Hi Hl Hcfg Hs]. split; cbn [snd data access_order set_data default_ttl max_size invalidation_bus].
  - apply map_eq. intros s. etrans; [|symmetry; by apply set_expiry_lookup]. rewrite <- Hd.
    assert (data c !! to_string_key key = Some e) as Hde.
    by (by rewrite Hd, data_lookup).
    destruct (decide (s = to_string_key key)) as [->|Hne]; [|by rewrite lookup_insert_ne]. rewrite Hde. by rewrite lookup_insert_eq.
  - by rewrite set_expiry_texts.
  - unfold plain_entries, set_expiry in *. apply Forall_fmap. eapply Forall_impl; [exact Hp|].
    intros p Hpp. cbn. by case_decide.
  - intros p. unfold set_expiry. rewrite list_elem_of_fmap. intros (q & -> & Hq).
    destruct (decide (q.1 = key)); exact (Hi q Hq).
  - done.
  - done.
  - unfold set_expiry. by rewrite length_fmap.
Qed.

(** ** Runs *)

Lemma l2_op_repr op c l :
  repr c l -> op_plain op = true ->
  pan_rel (fun x y => x.1 = y.1 /\ repr x.2 y.2) (l2_op op c) (ref_op ttl0 cap bus op l).
Proof.
  intros Hr Hp. destruct op as [key v ttl|key|key|table| |key ttl|]; cbn [l2_op ref_op op_plain] in *.
  - eapply pan_rel_bind; [by apply put_repr|]. intros c1 l1 Hr1. by apply pan_rel_ret.
  - eapply pan_rel_bind; [by apply get_repr|]. intros [v c1] [v' l1] [Hv Hr1]. cbn in *. subst.
    by apply pan_rel_ret.
  - destruct (invalidate_repr _ _ _ Hr Hp) as (c' & -> & Hr'). by apply pan_rel_ret.
  - eapply pan_rel_bind; [by apply invalidate_table_repr|]. intros c1 l1 Hr1. by apply pan_rel_ret.
  - apply pan_rel_ret. split; [done|]. by eapply clear_repr.
  - eapply pan_rel_bind; [by apply update_ttl_repr|]. intros [v c1] [v' l1] [Hv Hr1]. cbn in *. subst.
    by apply pan_rel_ret.
  - apply pan_rel_ret. unfold l2_size. by rewrite (repr_length _ _ Hr).
Qed.

Lemma run_steps_repr ops c l :
  repr c l -> forallb op_plain ops = true ->
  pan_rel (fun x y => x.1 = y.1 /\ repr x.2 y.2)
    (run_steps l2_op ops c) (run_steps (ref_op ttl0 cap bus) ops l).
Proof.
  revert c l. induction ops as [|op ops IH]; intros c l Hr Hp; [by apply pan_rel_ret|].
  cbn in Hp. apply andb_true_iff in Hp as [Hop Hops]. cbn [run_steps].
  eapply pan_rel_bind; [by apply l2_op_repr|]. intros [a c1] [a' l1] [Ha Hr1]. cbn in Ha, Hr1. subst a'.
  eapply pan_rel_bind; [by apply IH|]. intros [b c2] [b' l2] [Hb Hr2]. cbn in Hb, Hr2. subst b'.
  by apply pan_rel_ret.
Qed.

Definition configured : L2Cache W := mkL2 ∅ ∅ lru_new stats_default ∅ ttl0 cap bus.

Lemma configured_repr : repr configured [].
Proof.
  split; [done|apply orders_new|constructor| | |done|cbn; lia].
  - by intros p ?%not_elem_of_nil.
  - intros t s. unfold indexed. cbn. rewrite lookup_empty. by intros ?%not_elem_of_nil.
Qed.

(** C6. [L2Cache] is an LRU cache with expiry and invalidation by table.  On keys whose table
    names have no colon, every sequence of [put], [get], [invalidate], [invalidate_table],
    [clear], [update_ttl] and [size] on a new cache, whatever its default time to live, its
    capacity and its bus, gives the answers and has the effects (clock readings, messages) of
    the reference: a list of keys in the order of use, in which a full cache drops the first
    expired entry or else the first one, and [invalidate_table] drops the entries of the
    table.  It panics exactly when the reference does, which is when an expiry is past the end
    of [Instant]: the arena never does.  The map and the order hold exactly the entries of the
    list, at most [max(1, max_size)] of them. *)
Theorem l2_cache_refines (ops : list L2Op) (w : W) :
  forallb op_plain ops = true ->
  match run_steps l2_op ops configured w, run_steps (ref_op ttl0 cap bus) ops [] w with
  | (Some (answers, c), w1), (Some (answers', l), w2) =>
      answers = answers' /\ w1 = w2 /\
      (forall key, plain_table (key_table key) = true ->
         data c !! to_string_key key = assoc_find key l) /\
      iter_keys (access_order c) = Some (texts l) /\
      l2_size c = length l /\ (l2_size c <= Nat.max 1 cap)%nat
  | (None, w1), (None, w2) => w1 = w2
  | _, _ => False
  end.
Proof.
  intros Hp. pose proof (run_steps_repr ops _ _ configured_repr Hp w) as [Hw Hrel].
  destruct (run_steps l2_op ops configured w) as [o1 w1].
  destruct (run_steps (ref_op ttl0 cap bus) ops [] w) as [o2 w2]. cbn in Hw, Hrel.
  destruct Hrel as [[a c] [a' l] [Ha Hr]|]; [|done]. cbn in Ha, Hr.
  unfold l2_size. rewrite (repr_length _ _ Hr). split_and!; try done; [| |apply Hr].
  - intros key. by apply repr_lookup.
  - by apply orders_observed, Hr.
Qed.

(** ** [evict_expired]

    The entries are examined in the order of the map, and the clock may move between them:
    what was expired at the start goes, what is not expired at the end stays. *)
Context `{!MonotoneClock W}.

Lemma is_expired_spec e w :
  let '(b, w') := is_expired e w in
  (time_of w <= time_of w')%Z /\
  match expires_at e with
  | Some t => if b then (t <= time_of w')%Z else (time_of w < t)%Z
  | None => b = false
  end.
Proof.
  unfold is_expired. destruct (expires_at e) as [t|]; [|by split].
  unfold ebind, eret. pose proof (instant_now_mono w) as Hm. destruct (instant_now w) as [now w'].
  cbn in *. split; [lia|]. destruct (Z.leb_spec t now); lia.
Qed.

Lemma expired_keys_spec entries w :
  let '(ks, w') := expired_keys entries w in
  (time_of w <= time_of w')%Z /\
  (forall s, s ∈ ks -> exists e t, (s, e) ∈ entries /\ expires_at e = Some t /\ (t <= time_of w')%Z) /\
  (forall s e t, (s, e) ∈ entries -> expires_at e = Some t -> s ∈ ks \/ (time_of w < t)%Z).
Proof.
  revert w. induction entries as [|[s e] entries IH]; intros w.
  { cbn. split_and!; [lia|by intros s ?%not_elem_of_nil|by intros s e t ?%not_elem_of_nil]. }
  cbn [expired_keys]. unfold ebind at 1. pose proof (is_expired_spec e w) as He.
  destruct (is_expired e w) as [b w1]. destruct He as [Ht1 He]. unfold ebind.
  specialize (IH w1). destruct (expired_keys entries w1) as [ks w2]. destruct IH as (Ht2 & Hin & Hout).
  cbn. split_and!; [lia| |].
  - intros s' Hs'. assert (Hs2 : s' ∈ ks \/ (s' = s /\ b = true)).
    { destruct b; [|by left]. apply elem_of_cons in Hs' as [->|?]; auto. }
    destruct Hs2 as [(e' & t & ? & ? & ?)%Hin|[-> ->]]; [exists e', t; split_and!; [by right|done|done]|].
    destruct (expires_at e) as [t|] eqn:Het; [|done]. exists e, t. split_and!; [left|done|lia].
  - intros s' e' t [[= -> ->]|Hse]%elem_of_cons Het; rewrite ?Het in *.
    + destruct b; [left; left|by right].
    + destruct (Hout _ _ _ Hse Het); [left|right; lia]. destruct b; [by right|done].
Qed.

Lemma evict_expired_repr c l w :
  repr c l ->
  exists n c' w' l', evict_expired c w = (Some (n, c'), w') /\ repr c' l' /\ l' `sublist_of` l /\
    n = (length l - length l')%nat /\
    (forall p, p ∈ l -> p ∉ l' -> exists t, expires_at p.2 = Some t /\ (t <= time_of w')%Z) /\
    (forall p t, p ∈ l' -> expires_at p.2 = Some t -> (time_of w < t)%Z).
Proof.
  intros Hr. pose proof (repr_nodup _ _ Hr) as Hn. pose proof (repr_plain _ _ Hr) as Hp.
  unfold evict_expired, pcall, pbind, ebind, eret, pret, plift.
  pose proof (expired_keys_spec (map_to_list (data c)) w) as Hk.
  destruct (expired_keys (map_to_list (data c)) w) as [ks w']. cbv beta iota delta [eret].
  destruct Hk as (Ht & Hin & Hout).
  assert (Hentry : forall s e, (s, e) ∈ map_to_list (data c) <-> exists p, p ∈ l /\ s = to_string_key p.1 /\ e = p.2).
  { intros s e. rewrite elem_of_map_to_list, (repr_data _ _ Hr), <- elem_of_list_to_map
      by by rewrite by_text_keys. unfold by_text. rewrite list_elem_of_fmap. naive_solver. }
  destruct (texts_of_keys (fun k => plain_table (key_table k) = true /\
      exists p t, p ∈ l /\ p.1 = k /\ expires_at p.2 = Some t /\ (t <= time_of w')%Z) ks) as (keys & -> & Hkeys).
  { intros s (e & t & (p & Hpl & -> & ->)%Hentry & He & Hle)%Hin. exists p.1. split; [done|].
    split; [by apply (proj1 (Forall_forall _ _) Hp)|by exists p, t]. }
  apply Forall_and in Hkeys as [Hplain Hexp].
  pose proof (repr_drop_all _ _ _ Hr Hplain) as Hd.
  destruct (remove_all (to_string_key <$> keys) (data c) 0) as [d n].
  destruct Hd as (o & Ho & Hnum & Hc'). pose proof (drop_all_sublist keys l) as Hsub.
  assert (Hsame : forall c', data c' = d -> access_order c' = o -> table_index c' = table_index c ->
    default_ttl c' = default_ttl c /\ max_size c' = max_size c /\ invalidation_bus c' = invalidation_bus c ->
    repr c' (drop_all keys l)).
  { intros c' Hd' Ho' Hi' Hcfg. apply Hc'; try done; unfold indexed; rewrite Hi'; [done|].
    intros p Hpl. apply (repr_index _ _ Hr). by eapply elem_of_sublist. }
  assert (Hgone : forall p, p ∈ l -> p ∉ drop_all keys l -> exists t, expires_at p.2 = Some t /\ (t <= time_of w')%Z).
  { intros p Hpl Hpd. rewrite drop_all_filter, list_elem_of_filter in Hpd.
    assert (p.1 ∈ keys) as Hpk by (destruct (decide (p.1 ∈ keys)); [done|tauto]).
    rewrite Forall_forall in Hexp. destruct (Hexp _ Hpk) as (q & t & Hq & Hqp & He & Hle).
    exists t. rewrite <- He. split; [|done]. f_equal.
    pose proof (texts_NoDup _ Hn) as Hnd. destruct p as [k e], q as [k' e']. cbn in *. subst k'.
    apply (assoc_find_Some k e) in Hpl; [|done]. apply (assoc_find_Some k e') in Hq; [|done]. congruence. }
  assert (Hkept : forall p t, p ∈ drop_all keys l -> expires_at p.2 = Some t -> (time_of w < t)%Z).
  { intros p t Hpd He. rewrite drop_all_filter, list_elem_of_filter in Hpd. destruct Hpd as [Hpk Hpl].
    destruct (Hout (to_string_key p.1) p.2 t) as [Hk|?]; [apply Hentry; by exists p|done| |done].
    apply list_elem_of_fmap in Hk as (k & Heq & Hk). apply to_string_key_inj in Heq; [congruence| |].
    - by apply (proj1 (Forall_forall _ _) Hp).
    - by apply (proj1 (Forall_forall _ _) Hplain). }
  destruct (0 <? n)%nat.
  - change (access_order (set_data d c)) with (access_order c). rewrite Ho. do 4 eexists. split; [done|]. split; [by apply Hsame|]. done.
  - injection Ho as <-. do 4 eexists. split; [done|]. split; [by apply Hsame|]. done.
Qed.
End Refinement.

Definition two_puts : list L2Op :=
  [OpPut (by_pk "users" "1") (VString "Ann") None; OpPut (by_pk "posts" "1") (VString "Hi") (Some 2%Z);
   OpGet (by_pk "users" "1"); OpSize; OpPut (by_pk "users" "2") (VString "Bob") None;
   OpGet (by_pk "posts" "1"); OpInvalidateTable "users"; OpGet (by_pk "users" "2"); OpSize].

(** The post expires while the cache is full and makes room. *)
Lemma l2_cache_refines_witness :
  fst <$> fst (run_steps l2_op two_puts (configured None 2 None) sim0) =
  Some [NoAnswer; NoAnswer; AnsValue (Some (VString "Ann")); AnsSize 2; NoAnswer;
        AnsValue None; NoAnswer; AnsValue None; AnsSize 0].
Proof.
  pose proof (l2_cache_refines None 2 None two_puts sim0 eq_refl) as H.
  destruct (run_steps l2_op two_puts (configured None 2 None) sim0) as [[[a c]|] w1].
  - destruct (run_steps (ref_op None 2 None) two_puts [] sim0) as [[[a' l]|] w2] eqn:E; [|done].
    destruct H as [-> _]. vm_compute in E. injection E as <- _. reflexivity.
  - destruct (run_steps (ref_op None 2 None) two_puts [] sim0) as [[[a' l]|] w2] eqn:E; [done|].
    vm_compute in E. discriminate E.
Defined.

(** * The regions of [put] interleaved with another thread

    Each region of [put] takes its own locks.  When [invalidate] runs after the data was
    written and before the order is updated, the order keeps a key the data lacks; a later
    eviction spends itself on that key and the cache outgrows its capacity. *)

Definition interrupted_put {W} `{Clock W} (key : CacheKey) (value : Value) (c : L2Cache W) :
    Pan W (L2Cache W) :=
  let! entry := entry_new value None in
  let! c := put_data (to_string_key key) entry c in
  let! c := invalidate key c in
  let! c := touch_order (to_string_key key) c in
  let c := index_key (key_table key) (to_string_key key) c in
  pret (count_for (key_table key) Sets 1 c).

Lemma stale_order_exceeds_capacity :
  l2_size <$> fst ((let! c := interrupted_put (by_pk "t" "1") VNull (configured None 1 None) in
                   let! c := put (by_pk "t" "2") VNull None c in
                   put (by_pk "t" "3") VNull None c) sim0) = Some 2.
Proof. vm_compute. reflexivity. Qed.

(** ** What the operations do to the data *)

Section Data.
Context {W : Type} `{Clock W}.

Lemma get_data (key : CacheKey) (c c' : L2Cache W) r w w' :
  get key c w = (Some (r, c'), w') ->
  data c' = data c /\ (data c !! to_string_key key = None -> r = None).
Proof.
  unfold get, pcall, pbind, ebind, pret, eret. intros Hg. split.
  - destruct (live_value (to_string_key key) c w) as [[v|] w1];
      [|by injection Hg as <- <- <-].
    unfold touch_order, pbind, ebind, plift, eret in Hg. destruct (touch _ _); [|done].
    by injection Hg as <- <- <-.
  - intros Hk. unfold live_value in Hg. rewrite Hk in Hg. by injection Hg as <- _ _.
Qed.

Lemma put_data_other (key : CacheKey) value ttl (c c' : L2Cache W) s w w' :
  put key value ttl c w = (Some c', w') -> s <> to_string_key key ->
  data c !! s = None -> data c' !! s = None.
Proof.
  unfold put, put_data. unfold pbind at 1, ebind at 1. intros Hp Hne Hs.
  destruct (entry_new _ _ w) as [[e|] w1]; [|done]. rewrite pbind_assoc in Hp.
  unfold pbind at 1, ebind at 1 in Hp.
  assert (Hroom : forall c1 w2, (if negb (is_some (data c !! to_string_key key)) && (max_size c <=? size (data c))%nat
      then let! victim := choose_victim c in
        match victim with Some v => evict_victim v c | None => pret c end
      else pret c) w1 = (Some c1, w2) -> data c1 !! s = None).
  { intros c1 w2 Hc. destruct (_ && _); [|by injection Hc as <- <-].
    unfold pbind, ebind in Hc. destruct (choose_victim c w1) as [[[v|]|] w3]; [|by injection Hc as <- <-|done].
    unfold evict_victim, pbind, ebind, plift, eret, pret in Hc. destruct (lru_remove _ _); [|done].
    injection Hc as <- <-. cbn. rewrite lookup_delete. by case_decide. }
  destruct (_ w1) as [[c1|] w2]; [|done]. specialize (Hroom c1 w2 eq_refl).
  unfold touch_order, pbind, ebind, plift, pret, eret in Hp. cbn in Hp. destruct (touch _ _); [|done].
  cbn in Hp. injection Hp as <- <-. cbn. by rewrite lookup_insert_ne.
Qed.
End Data.

(** * [impl Cache for L2Cache]

    [serde_json::to_vec] is the parameter [to_json]. *)

Inductive CacheError : Type :=
| CacheNotFound (key : string)
| SerializationError (message : string)
| DeserializationError (message : string)
| ConnectionError (message : string)
| CacheTimeout (message : string)
| CacheInternal (message : string).

Section CacheTrait.
Context {W : Type} `{Clock W}.
Variable to_json : Value -> result (list Ascii.ascii) string.

Definition cache_key (key : string) : CacheKey := by_pk "__cache__" key.

Definition cache_get (key : string) (c : L2Cache W) :
    Pan W (result (option (list Ascii.ascii)) CacheError * L2Cache W) :=
  let! (found, c) := get (cache_key key) c in
  pret (match found with
        | Some (VBytes bytes) => Ok (Some bytes)
        | Some other =>
            match to_json other with
            | Ok json => Ok (Some json)
            | Err e => Err (SerializationError e)
            end
        | None => Ok None
        end, c).

Definition cache_set (key : string) (value : list Ascii.ascii) (ttl : option Z) (c : L2Cache W) :
    Pan W (result unit CacheError * L2Cache W) :=
  let! c := put (cache_key key) (VBytes value) ttl c in pret (Ok tt, c).

Definition cache_delete (key : string) (c : L2Cache W) : Pan W (result unit CacheError * L2Cache W) :=
  let! c := invalidate (cache_key key) c in pret (Ok tt, c).

Definition cache_clear (c : L2Cache W) : Pan W (result unit CacheError * L2Cache W) :=
  let! c := invalidate_table "__cache__" c in pret (Ok tt, c).

Definition cache_exists (key : string) (c : L2Cache W) : Eff W (result bool CacheError) :=
  let* b := contains (cache_key key) c in eret (Ok b).

Definition cache_expire (key : string) (ttl : Z) (c : L2Cache W) :
    Pan W (result unit CacheError * L2Cache W) :=
  let! (b, c) := update_ttl (cache_key key) ttl c in
  pret (if (b : bool) then Ok tt else Err (CacheNotFound key), c).

Definition cache_ttl (key : string) (c : L2Cache W) : Eff W (result (option Z) CacheError) :=
  let* r := remaining_ttl (cache_key key) c in
  eret (match r with None => Err (CacheNotFound key) | Some r => Ok r end).
End CacheTrait.

(** [put] takes [Duration::MAX] for no expiry; [expire] adds it to the clock and panics, with
    the lock of the data held. *)
Lemma expire_max_panics :
  let run m := fst ((let! (_, c) := cache_set "k" [] (Some duration_max) (configured None 1 None) in m c) sim0) in
  run (fun c => pret c) <> None /\
  run (fun c => let! (_, c) := cache_expire "k" duration_max c in pret c) = None.
Proof. split; [|vm_compute; reflexivity]. vm_compute. discriminate. Qed.
