(* ===== verification/SingleFlight.v ===== *)
(** Merging of concurrent loads: [L2Cache::get_or_load_query] of
    [packages/sz-orm-core/src/l2_cache.rs], as the interleaved steps of the tasks that run it
    over one cache. *)

From S2P Require Import Prelude SqlText Value LruOrder L2Cache.
Local Open Scope string_scope.
Local Open Scope eff_scope.

(** * The pieces of a call *)

(** The key of a query; [DefaultHasher] over the text and the parameters is [hash]. *)
Definition query_key (hash : string -> list Value -> Z) (table sql : string) (params : list Value) :
    CacheKey :=
  by_query table (pretty (hash sql params)).

Definition invalidate_query {W} (hash : string -> list Value -> Z) (table sql : string)
    (params : list Value) (c : L2Cache W) : Pan W (L2Cache W) :=
  invalidate (query_key hash table sql params) c.

(** An empty result is kept a tenth of the time, at least a second (in nanoseconds). *)
Definition query_ttl (empty : bool) (ttl : Z) : Z :=
  if empty then Z.max (ttl / 10)%Z (10 ^ 9)%Z else ttl.

Inductive SharedOutcome (Rows : Type) : Type :=
| Success (rows : Rows)
| Failed (message : string).
Arguments Success {Rows}.
Arguments Failed {Rows}.

Inductive Received (Rows : Type) : Type :=
| Message (o : SharedOutcome Rows)
| Closed
| Lagged.
Arguments Message {Rows}.
Arguments Closed {Rows}.
Arguments Lagged {Rows}.

(** What the program relies on of a [tokio::sync::broadcast] channel with one sender, seen by
    receivers that subscribed before anything was sent: nothing to receive at first, then the
    message sent, or [Closed] once the sender is dropped without a message. *)
Class Broadcast (Rows Ch : Type) := {
  ch_new : Ch;
  ch_send : SharedOutcome Rows -> Ch -> Ch;
  ch_drop_sender : Ch -> Ch;
  ch_recv : Ch -> option (Received Rows);
  recv_new : ch_recv ch_new = None;
  recv_send : forall o ch, ch_recv ch = None -> ch_recv (ch_send o ch) = Some (Message o);
  recv_drop : forall ch, ch_recv (ch_drop_sender ch) = Some (default Closed (ch_recv ch));
}.

(** A channel for the closed instances of the theorems. *)
Record SimChannel (Rows : Type) : Type := mkChannel {
  sim_sent : option (SharedOutcome Rows); sim_closed : bool }.
Arguments mkChannel {Rows}.
Arguments sim_sent {Rows}.
Arguments sim_closed {Rows}.

#[export] Instance SimChannel_broadcast Rows : Broadcast Rows (SimChannel Rows).
Proof.
  refine {|
    ch_new := mkChannel None false;
    ch_send o ch := mkChannel (Some o) (sim_closed ch);
    ch_drop_sender ch := mkChannel (sim_sent ch) true;
    ch_recv ch := match sim_sent ch with
                  | Some o => Some (Message o)
                  | None => if sim_closed ch then Some Closed else None
                  end |}; [done|done|].
  intros [[o|] []]; done.
Defined.

Section SingleFlight.
Context {V : Type} `{Clock V}.
Context {Rows E Ch : Type} `{!Broadcast Rows Ch}.
Variable is_empty : Rows -> bool.
(** [serde_json] on rows, and [to_string] of a [DbError]. *)
Variable to_json : Rows -> result string string.
Variable from_json : string -> result Rows string.
Variable error_text : E -> string.

(** * Tasks *)

Inductive Returned : Type :=
| Returns (r : result Rows E)
| ReturnsQueryError (message : string).

(** Where a task is, between two of its awaits. *)
Inductive Point : Type :=
| CheckCache
| CheckInflight
| Waiting (ch : nat)
| LoadAlone
| InsertInflight
| Loading
| Publishing (r : result Rows E) (o : SharedOutcome Rows)
| Finished (r : Returned)
| Dropped.

Record Task : Type := mkTask { task_key : CacheKey; task_ttl : Z; task_point : Point }.

Definition at_point (p : Point) (t : Task) : Task := mkTask (task_key t) (task_ttl t) p.
Definition task_text (t : Task) : string := to_string_key (task_key t).

(** [channels] pairs each channel with the key it was made for and [loads] lists the outcomes
    of the loads; the program keeps neither, the theorems refer to them. *)
Record State : Type := mkState {
  cache : L2Cache V;
  world : V;
  inflight : gmap string nat;
  channels : list (string * Ch);
  tasks : gmap nat Task;
  loads : list (string * SharedOutcome Rows);
}.

Definition set_point (tid : nat) (t : Task) (p : Point) (s : State) : State :=
  mkState (cache s) (world s) (inflight s) (channels s) (<[tid := at_point p t]> (tasks s)) (loads s).

Definition set_inflight (m : gmap string nat) (chs : list (string * Ch)) (s : State) : State :=
  mkState (cache s) (world s) m chs (tasks s) (loads s).

Definition set_cache (c : L2Cache V) (v : V) (s : State) : State :=
  mkState c v (inflight s) (channels s) (tasks s) (loads s).

Definition add_load (key : string) (o : SharedOutcome Rows) (s : State) : State :=
  mkState (cache s) (world s) (inflight s) (channels s) (tasks s) (loads s ++ [(key, o)])%list.

Definition on_channel (f : Ch -> Ch) (ch : nat) (chs : list (string * Ch)) : list (string * Ch) :=
  alter (fun p => (p.1, f p.2)) ch chs.

(** ** The steps of a task *)

Definition check_cache (tid : nat) (t : Task) (s : State) : option State :=
  match get (task_key t) (cache s) (world s) with
  | (None, v) => Some (set_point tid t Dropped (set_cache (cache s) v s))
  | (Some (found, c), v) =>
      let s := set_cache c v s in
      Some (match found with
            | Some (VJson json) =>
                match from_json json with
                | Ok rows => set_point tid t (Finished (Returns (Ok rows))) s
                | Err _ => set_point tid t CheckInflight s
                end
            | _ => set_point tid t CheckInflight s
            end)
  end.

(** Under the lock of [inflight]: subscribe to the load in flight, if there is one. *)
Definition check_inflight (tid : nat) (t : Task) (s : State) : State :=
  match inflight s !! task_text t with
  | Some ch => set_point tid t (Waiting ch) s
  | None => set_point tid t InsertInflight s
  end.

Definition receive (tid : nat) (t : Task) (ch : nat) (s : State) : option State :=
  match channels s !! ch with
  | None => None
  | Some (_, c) =>
      match ch_recv c with
      | None => None
      | Some (Message (Success rows)) => Some (set_point tid t (Finished (Returns (Ok rows))) s)
      | Some (Message (Failed message)) => Some (set_point tid t (Finished (ReturnsQueryError message)) s)
      | Some Closed =>
          Some (set_point tid t
            (Finished (ReturnsQueryError "singleflight leader closed (panic or drop)")) s)
      | Some Lagged => Some (set_point tid t LoadAlone s)
      end
  end.

(** Under the lock again: a new channel takes the place of one another task may have put there
    since, whose sender is dropped. *)
Definition insert_inflight (tid : nat) (t : Task) (s : State) : State :=
  let chs :=
    match inflight s !! task_text t with
    | Some old => on_channel ch_drop_sender old (channels s)
    | None => channels s
    end in
  let idx := length (channels s) in
  set_point tid t Loading
    (set_inflight (<[task_text t := idx]> (inflight s)) (chs ++ [(task_text t, ch_new)])%list s).

Definition outcome_of (r : result Rows E) : SharedOutcome Rows :=
  match r with Ok rows => Success rows | Err e => Failed (error_text e) end.

(** The loader has answered: fill the cache. *)
Definition loaded (tid : nat) (t : Task) (r : result Rows E) (s : State) : option State :=
  let s := add_load (task_text t) (outcome_of r) s in
  let next := set_point tid t (Publishing r (outcome_of r)) in
  match r with
  | Ok rows =>
      match to_json rows with
      | Ok json =>
          match put (task_key t) (VJson json) (Some (query_ttl (is_empty rows) (task_ttl t)))
                  (cache s) (world s) with
          | (Some c, v) => Some (next (set_cache c v s))
          | (None, v) => Some (set_point tid t Dropped (set_cache (cache s) v s))
          end
      | Err _ => Some (next s)
      end
  | Err _ => Some (next s)
  end.

Definition publish (tid : nat) (t : Task) (r : result Rows E) (o : SharedOutcome Rows) (s : State) : State :=
  let s :=
    match inflight s !! task_text t with
    | Some ch =>
        set_inflight (delete (task_text t) (inflight s))
          (on_channel (fun c => ch_drop_sender (ch_send o c)) ch (channels s)) s
    | None => s
    end in
  set_point tid t (Finished (Returns r)) s.

(** ** Runs *)

Inductive Event : Type :=
| Call (tid : nat) (key : CacheKey) (ttl : Z)
| Step (tid : nat)
| Loaded (tid : nat) (r : result Rows E)
| Cancel (tid : nat).

Definition finished (p : Point) : bool :=
  match p with Finished _ | Dropped => true | _ => false end.

(** [None]: the event is not possible.  [Cancel] drops the future at one of its awaits, or is a
    loader that panics; a task whose own step panics is dropped as well. *)
Definition step (e : Event) (s : State) : option State :=
  match e with
  | Call tid key ttl =>
      match tasks s !! tid with
      | Some _ => None
      | None => Some (mkState (cache s) (world s) (inflight s) (channels s)
                        (<[tid := mkTask key ttl CheckCache]> (tasks s)) (loads s))
      end
  | Step tid =>
      t ← tasks s !! tid;
      match task_point t with
      | CheckCache => check_cache tid t s
      | CheckInflight => Some (check_inflight tid t s)
      | Waiting ch => receive tid t ch s
      | InsertInflight => Some (insert_inflight tid t s)
      | Publishing r o => Some (publish tid t r o s)
      | LoadAlone | Loading | Finished _ | Dropped => None
      end
  | Loaded tid r =>
      t ← tasks s !! tid;
      match task_point t with
      | Loading => loaded tid t r s
      | LoadAlone => Some (set_point tid t (Finished (Returns r)) (add_load (task_text t) (outcome_of r) s))
      | _ => None
      end
  | Cancel tid =>
      t ← tasks s !! tid;
      if finished (task_point t) then None else Some (set_point tid t Dropped s)
  end.

Fixpoint run (es : list Event) (s : State) : option State :=
  match es with
  | [] => Some s
  | e :: es => s ← step e s; run es s
  end.

Definition start (c : L2Cache V) (v : V) : State := mkState c v ∅ [] ∅ [].

(** * The invariant *)

Definition leading (p : Point) : Prop :=
  match p with Loading | Publishing _ _ => True | _ => False end.

Definition none_dropped (s : State) : Prop :=
  forall tid t, tasks s !! tid = Some t -> task_point t <> Dropped.

(** A channel delivers a message, or was closed because a later leader of its key put a channel of
    its own in its place. *)
Definition delivers_or_replaced (s : State) (ch : nat) (k : string) (m : option (Received Rows)) : Prop :=
  match m with
  | None | Some (Message _) => True
  | Some Closed => exists ch' c', ch < ch' /\ channels s !! ch' = Some (k, c')
  | Some Lagged => False
  end.

Record inv (s : State) : Prop := {
  inv_waiting : forall tid t ch, tasks s !! tid = Some t -> task_point t = Waiting ch ->
    exists c, channels s !! ch = Some (task_text t, c) /\
      (ch_recv c = None -> inflight s !! task_text t = Some ch);
  inv_inflight : forall k ch, inflight s !! k = Some ch ->
    exists c, channels s !! ch = Some (k, c) /\ ch_recv c = None;
  inv_leader : none_dropped s -> forall k ch, inflight s !! k = Some ch ->
    exists tid t, tasks s !! tid = Some t /\ task_text t = k /\ leading (task_point t);
  inv_sent : forall ch k c o, channels s !! ch = Some (k, c) -> ch_recv c = Some (Message o) ->
    (k, o) ∈ loads s;
  inv_publishing : forall tid t r o, tasks s !! tid = Some t -> task_point t = Publishing r o ->
    (task_text t, o) ∈ loads s;
  inv_closed : forall ch k c, channels s !! ch = Some (k, c) -> delivers_or_replaced s ch k (ch_recv c);
}.

Lemma start_inv c v : inv (start c v).
Proof. by split; cbn; intros *; rewrite ?lookup_empty, ?lookup_nil. Qed.

Lemma none_dropped_before tid t p s :
  tasks s !! tid = Some t -> task_point t <> Dropped ->
  none_dropped (set_point tid t p s) -> none_dropped s.
Proof.
  intros Ht Hp Hn tid' t' Ht'. destruct (decide (tid' = tid)) as [->|Hne]; [congruence|].
  apply (Hn tid'). cbn. by rewrite lookup_insert_ne.
Qed.

Lemma inv_set_point tid t p s :
  inv s -> tasks s !! tid = Some t -> task_point t <> Dropped ->
  (leading (task_point t) -> leading p \/ p = Dropped \/ inflight s !! task_text t = None) ->
  (forall ch, p = Waiting ch -> exists c, channels s !! ch = Some (task_text t, c) /\
     (ch_recv c = None -> inflight s !! task_text t = Some ch)) ->
  (forall r o, p = Publishing r o -> (task_text t, o) ∈ loads s) ->
  inv (set_point tid t p s).
Proof.
  intros Hi Ht Hdr Hlead Hwait Hpub. split; cbn.
  - intros tid' t' ch. rewrite lookup_insert_Some. intros [[<- <-]|[_ Ht']]; cbn; [apply Hwait|].
    by apply (inv_waiting _ Hi tid').
  - apply (inv_inflight _ Hi).
  - intros Hn k ch Hk.
    destruct (inv_leader _ Hi (none_dropped_before _ _ _ _ Ht Hdr Hn) k ch Hk) as (tid' & t' & Ht' & Hk' & Hl).
    destruct (decide (tid' = tid)) as [->|Hne]; [|exists tid', t'; by rewrite lookup_insert_ne].
    simplify_eq. destruct (Hlead Hl) as [Hp|[->|Hno]]; [|exfalso|congruence].
    + exists tid, (at_point p t). by rewrite lookup_insert_eq.
    + apply (Hn tid (at_point Dropped t)); [|done]. cbn. by rewrite lookup_insert_eq.
  - apply (inv_sent _ Hi).
  - intros tid' t' r o. rewrite lookup_insert_Some. intros [[<- <-]|[_ Ht']]; cbn; [apply Hpub|].
    by apply (inv_publishing _ Hi tid').
  - apply (inv_closed _ Hi).
Qed.

Lemma inv_set_cache c v s : inv s -> inv (set_cache c v s).
Proof. intros Hi. by destruct Hi; split. Qed.

Lemma inv_add_load k o s : inv s -> inv (add_load k o s).
Proof. intros [Hw Hf Hl Hs Hp Hc]. split; cbn; try done; intros; apply elem_of_app; left; eauto. Qed.

Lemma inv_call tid key ttl s :
  inv s -> tasks s !! tid = None ->
  inv (mkState (cache s) (world s) (inflight s) (channels s)
         (<[tid := mkTask key ttl CheckCache]> (tasks s)) (loads s)).
Proof.
  intros Hi Hnew. split; cbn; try apply Hi.
  - intros tid' t' ch. rewrite lookup_insert_Some. intros [[<- <-]|[_ Ht']]; [done|].
    by apply (inv_waiting _ Hi tid').
  - intros Hn k ch Hk. destruct (inv_leader _ Hi) with k ch as (tid' & t' & Ht' & Hk' & Hl); [|done|].
    + intros tid' t' Ht'. apply (Hn tid'). cbn. rewrite lookup_insert_ne by congruence. done.
    + exists tid', t'. rewrite lookup_insert_ne by congruence. done.
  - intros tid' t' r o. rewrite lookup_insert_Some. intros [[<- <-]|[_ Ht']]; [done|].
    by apply (inv_publishing _ Hi tid').
Qed.

Lemma on_channel_lookup f ch chs i k c :
  on_channel f ch chs !! i = Some (k, c) ->
  exists c0, chs !! i = Some (k, c0) /\ ((i <> ch /\ c = c0) \/ (i = ch /\ c = f c0)).
Proof.
  unfold on_channel. destruct (decide (i = ch)) as [->|Hne].
  - rewrite list_lookup_alter_eq. destruct (chs !! ch) as [[k0 c0]|]; [|done].
    intros [= -> <-]. exists c0. auto.
  - rewrite list_lookup_alter_ne by done. intros ->. exists c. auto.
Qed.

Lemma on_channel_at f ch chs i k c :
  chs !! i = Some (k, c) ->
  on_channel f ch chs !! i = Some (k, if decide (i = ch) then f c else c).
Proof.
  intros Hi. unfold on_channel. destruct (decide (i = ch)) as [->|Hne].
  - by rewrite list_lookup_alter_eq, Hi.
  - by rewrite list_lookup_alter_ne.
Qed.

Lemma recv_drop_new c : ch_recv c = None -> ch_recv (ch_drop_sender c) = Some Closed.
Proof. intros Hc. by rewrite recv_drop, Hc. Qed.

Lemma recv_publish o c :
  ch_recv c = None -> ch_recv (ch_drop_sender (ch_send o c)) = Some (Message o).
Proof. intros Hc. by rewrite recv_drop, recv_send. Qed.

Lemma inv_insert tid t s :
  inv s -> tasks s !! tid = Some t -> task_point t = InsertInflight -> inv (insert_inflight tid t s).
Proof.
  intros Hi Ht Hp. assert (Hi1 : inv (set_point tid t Loading s))
    by (apply inv_set_point; rewrite ?Hp; (done || by intros; left)).
  unfold insert_inflight. set (key := task_text t). set (new := length (channels s)).
  set (chs := match inflight s !! key with
    | Some old => on_channel ch_drop_sender old (channels s) | None => channels s end).
  assert (Hlen : length chs = new).
  { unfold chs. destruct (inflight s !! key); [unfold on_channel; apply length_alter|done]. }
  assert (Hat : forall i k c, channels s !! i = Some (k, c) ->
    exists c', (chs ++ [(key, ch_new)])%list !! i = Some (k, c') /\
      ((k <> key \/ inflight s !! key <> Some i) -> c' = c) /\ (ch_recv c' = None -> ch_recv c = None /\ inflight s !! key <> Some i)).
  { intros i k c Hk. unfold chs. destruct (inflight s !! key) as [old|] eqn:Hold.
    - exists (if decide (i = old) then ch_drop_sender c else c).
      split; [apply lookup_app_l_Some; by apply on_channel_at|]. case_decide; subst.
      + destruct (inv_inflight _ Hi _ _ Hold) as (c0 & Hc0 & _). split; [intros [|]; congruence|].
        rewrite recv_drop. done.
      + split; [done|]. intros ?. split; congruence.
    - exists c. split; [by apply lookup_app_l_Some|]. done. }
  assert (Hnew : (chs ++ [(key, ch_new)])%list !! new = Some (key, ch_new)).
  { rewrite lookup_app_r, Hlen, Nat.sub_diag by lia. done. }
  split; cbn.
  - intros tid' t' ch Ht' Hw. destruct (inv_waiting _ Hi1 tid' t' ch Ht' Hw) as (c & Hc & Hopen).
    cbn in Hc, Hopen. destruct (Hat _ _ _ Hc) as (c' & Hc' & _ & Hopen'). exists c'. split; [done|].
    intros [Hr Hne]%Hopen'. specialize (Hopen Hr). rewrite lookup_insert_ne; [done|]. intros Heq.
    apply Hne. by rewrite Heq.
  - intros k ch. rewrite lookup_insert_Some. intros [[<- <-]|[Hne Hk]].
    + exists ch_new. split; [done|]. apply recv_new.
    + destruct (inv_inflight _ Hi _ _ Hk) as (c & Hc & Hr). destruct (Hat _ _ _ Hc) as (c' & Hc' & Hsame & _).
      rewrite (Hsame (or_introl (not_eq_sym Hne))) in Hc'. by exists c.
  - intros Hn k ch. rewrite lookup_insert_Some. intros [[<- <-]|[Hne Hk]].
    + exists tid, (at_point Loading t). by rewrite lookup_insert_eq.
    + by apply (inv_leader _ Hi1 Hn k ch).
  - intros ch k c o. rewrite lookup_app_Some. intros [Hc|[_ Hc]] Hr.
    + unfold chs in Hc. destruct (inflight s !! key) as [old|] eqn:Hold; [|by eapply (inv_sent _ Hi)].
      apply on_channel_lookup in Hc as (c0 & Hc0 & [[_ ->]|[-> ->]]); [by eapply (inv_sent _ Hi)|].
      destruct (inv_inflight _ Hi _ _ Hold) as (c1 & Hc1 & Hr1). simplify_eq.
      by rewrite recv_drop_new in Hr.
    + destruct (ch - length chs) as [|n]; [|by destruct n]. injection Hc as <- <-. by rewrite recv_new in Hr.
  - apply (inv_publishing _ Hi1).
  - intros ch k c. cbn. rewrite lookup_app_Some. intros [Hc|[_ Hc]].
    + assert (Hlt : ch < new) by (rewrite <- Hlen; by eapply lookup_lt_Some).
      unfold delivers_or_replaced. cbn. destruct (ch_recv c) as [[o| |]|] eqn:Hr; [done|..|done].
      * unfold chs in Hc. destruct (inflight s !! key) as [old|] eqn:Hold.
        -- apply on_channel_lookup in Hc as (c0 & Hc0 & [[Hne ->]|[-> ->]]).
           ++ pose proof (inv_closed _ Hi _ _ _ Hc0) as Hcl. rewrite Hr in Hcl. destruct Hcl as (ch' & c' & Hlt' & Hc').
              destruct (Hat _ _ _ Hc') as (c2 & Hc2 & _). by exists ch', c2.
           ++ destruct (inv_inflight _ Hi _ _ Hold) as (c1 & Hc1 & _). exists (length chs), ch_new. rewrite Hlen. split; [done|]. simplify_eq. exact Hnew.
        -- pose proof (inv_closed _ Hi _ _ _ Hc) as Hcl. rewrite Hr in Hcl. destruct Hcl as (ch' & c' & Hlt' & Hc').
           destruct (Hat _ _ _ Hc') as (c2 & Hc2 & _). by exists ch', c2.
      * unfold chs in Hc. destruct (inflight s !! key) as [old|] eqn:Hold.
        -- apply on_channel_lookup in Hc as (c0 & Hc0 & [[Hne ->]|[-> ->]]).
           ++ pose proof (inv_closed _ Hi _ _ _ Hc0) as Hcl. by rewrite Hr in Hcl.
           ++ destruct (inv_inflight _ Hi _ _ Hold) as (c1 & Hc1 & Hr1). simplify_eq. by rewrite recv_drop_new in Hr.
        -- pose proof (inv_closed _ Hi _ _ _ Hc) as Hcl. by rewrite Hr in Hcl.
    + destruct (ch - length chs) as [|n]; [|by destruct n]. injection Hc as <- <-. by rewrite recv_new.
Qed.

Lemma inv_publish tid t r o s :
  inv s -> tasks s !! tid = Some t -> task_point t = Publishing r o -> inv (publish tid t r o s).
Proof.
  intros Hi Ht Hp. unfold publish. destruct (inflight s !! task_text t) as [ch|] eqn:Hk.
  2:{ apply inv_set_point; rewrite ?Hp; try done. by intros _; right; right. }
  destruct (inv_inflight _ Hi _ _ Hk) as (c & Hc & Hr).
  assert (Hlen : forall i k c0, channels s !! i = Some (k, c0) ->
    i = ch /\ k = task_text t /\ c0 = c \/ i <> ch) by (intros i k c0 Hi0; destruct (decide (i = ch)); [left|right; done]; naive_solver).
  apply inv_set_point; cbn; rewrite ?Hp; try done; [|by intros _; right; right; apply lookup_delete_eq].
  split; cbn.
  - intros tid' t' i Ht' Hw. destruct (inv_waiting _ Hi _ _ _ Ht' Hw) as (c' & Hc' & Hopen).
    eexists. split; [by apply on_channel_at|]. case_decide as Hch.
    + subst i. rewrite Hc in Hc'. simplify_eq. by rewrite recv_publish.
    + intros Hr'. rewrite lookup_delete_ne; [by apply Hopen|]. intros Heq. apply Hch.
      specialize (Hopen Hr'). congruence.
  - intros k i. rewrite lookup_delete_Some. intros [Hne Hi'].
    destruct (inv_inflight _ Hi _ _ Hi') as (c' & Hc' & Hr'). exists c'. split; [|done].
    rewrite (on_channel_at _ _ _ _ _ _ Hc'), decide_False; [done|]. intros ->. congruence.
  - intros Hn k i [_ Hi']%lookup_delete_Some. by apply (inv_leader _ Hi Hn k i).
  - intros i k c' o' Hc' Hr'. apply on_channel_lookup in Hc' as (c0 & Hc0 & [[_ ->]|[-> ->]]).
    + by eapply (inv_sent _ Hi).
    + rewrite Hc in Hc0. simplify_eq. rewrite recv_publish in Hr' by done. simplify_eq.
      by apply (inv_publishing _ Hi tid t r).
  - apply (inv_publishing _ Hi).
  - intros i k c' Hc'. unfold delivers_or_replaced. cbn.
    assert (Hlater : (exists ch' c0, i < ch' /\ channels s !! ch' = Some (k, c0)) -> exists ch' c0, i < ch' /\
      on_channel (fun c => ch_drop_sender (ch_send o c)) ch (channels s) !! ch' = Some (k, c0)).
    { intros (ch' & c0 & Hlt & H0). eexists ch', _. split; [done|by apply on_channel_at]. }
    apply on_channel_lookup in Hc' as (c0 & Hc0 & [[_ ->]|[-> ->]]).
    + pose proof (inv_closed _ Hi _ _ _ Hc0) as Hcl. destruct (ch_recv c0) as [[]|]; try done. by apply Hlater.
    + rewrite Hc in Hc0. simplify_eq. by rewrite recv_publish.
Qed.

Lemma inv_step e s s' : inv s -> step e s = Some s' -> inv s'.
Proof.
  intros Hi Hs. destruct e as [tid key ttl|tid|tid r|tid]; cbn in Hs.
  - destruct (tasks s !! tid) eqn:Ht; [done|]. injection Hs as <-. by apply inv_call.
  - destruct (tasks s !! tid) as [t|] eqn:Ht; [|done]. cbn in Hs.
    assert (Hmove : forall p, task_point t <> Dropped -> ~ leading (task_point t) ->
      (forall ch, p <> Waiting ch) -> (forall r o, p <> Publishing r o) ->
      forall s1, inv s1 -> tasks s1 = tasks s -> inv (set_point tid t p s1)).
    { intros p Hd Hl Hw Hp s1 Hi1 Hts. apply inv_set_point; rewrite ?Hts; try done; naive_solver. }
    destruct (task_point t) as [| |ch| | | |r o| |] eqn:Hp; try done.
    + unfold check_cache in Hs. destruct (get _ _ _) as [[[found c]|] v];
        [destruct found as [[]|]; try case_match|]; injection Hs as <-;
        apply Hmove; rewrite ?Hp; try (done || by intros []); by apply inv_set_cache.
    + injection Hs as <-. unfold check_inflight. destruct (inflight s !! task_text t) as [ch|] eqn:Hk.
      * apply inv_set_point; rewrite ?Hp; try done. intros ch' [= <-].
        destruct (inv_inflight _ Hi _ _ Hk) as (c & Hc & _). by exists c.
      * apply Hmove; rewrite ?Hp; (done || by intros []).
    + unfold receive in Hs. destruct (channels s !! ch) as [[k c]|]; [|done].
      destruct (ch_recv c) as [[[]| |]|]; simplify_eq; apply Hmove; rewrite ?Hp; (done || by intros []).
    + injection Hs as <-. by apply inv_insert.
    + injection Hs as <-. by apply inv_publish.
  - destruct (tasks s !! tid) as [t|] eqn:Ht; [|done]. cbn in Hs.
    assert (Hload : inv (add_load (task_text t) (outcome_of r) s)) by by apply inv_add_load.
    destruct (task_point t) eqn:Hp; try done.
    + injection Hs as <-. apply inv_set_point; rewrite ?Hp; done.
    + assert (Hnext : forall p s1, inv s1 -> tasks s1 = tasks s -> (task_text t, outcome_of r) ∈ loads s1 ->
        p = Publishing r (outcome_of r) \/ p = Dropped -> inv (set_point tid t p s1)).
      { intros p s1 Hi1 Hts Hin Hpp. apply inv_set_point; rewrite ?Hts, ?Hp; try done; [|naive_solver..].
        intros _. destruct Hpp as [->| ->]; [by left|by right; left]. }
      assert (Hin : (task_text t, outcome_of r) ∈ (loads s ++ [(task_text t, outcome_of r)])%list)
        by (apply elem_of_app; right; left).
      unfold loaded in Hs. destruct r as [rows|e]; [|injection Hs as <-; apply Hnext; auto].
      destruct (to_json rows); [|injection Hs as <-; apply Hnext; auto].
      destruct (put _ _ _ _ _) as [[c|] v]; injection Hs as <-; apply Hnext; auto using inv_set_cache.
  - destruct (tasks s !! tid) as [t|] eqn:Ht; [|done]. cbn in Hs.
    destruct (finished (task_point t)) eqn:Hf; [done|]. injection Hs as <-.
    apply inv_set_point; try done; [by intros Hd; rewrite Hd in Hf|by intros _; right; left].
Qed.

Lemma run_inv es s s' : inv s -> run es s = Some s' -> inv s'.
Proof.
  revert s. induction es as [|e es IH]; intros s Hi Hr; cbn in Hr; [by injection Hr as <-|].
  destruct (step e s) as [s1|] eqn:Hs; [|done]. cbn in Hr. eapply IH; [|done]. by eapply inv_step.
Qed.

(** * Every follower is answered

    A bound on the steps the tasks still take. *)

Definition rank (p : Point) : nat :=
  match p with
  | CheckCache => 6 | CheckInflight => 5 | InsertInflight => 4
  | Waiting _ => 3 | Loading => 3 | LoadAlone => 2 | Publishing _ _ => 1
  | Finished _ | Dropped => 0
  end.

Definition work (s : State) : nat := msum (fun t => rank (task_point t)) (tasks s).

(** A step of the program itself: not a new call, not a cancellation. *)
Definition advances (e : Event) : Prop :=
  match e with Step _ | Loaded _ _ => True | _ => False end.

Lemma work_set_point tid t p s s1 :
  tasks s !! tid = Some t -> tasks s1 = tasks s -> rank p < rank (task_point t) ->
  work (set_point tid t p s1) < work s.
Proof.
  intros Ht Hs Hr. unfold work. cbn. rewrite Hs.
  pose proof (msum_replace (fun t => rank (task_point t)) _ _ _ (at_point p t) Ht) as Hsum.
  cbn in Hsum. lia.
Qed.

Lemma step_decreases e s s' : advances e -> step e s = Some s' -> work s' < work s.
Proof.
  intros Ha Hs. destruct e as [tid key ttl|tid|tid r|tid]; try done; cbn in Hs;
    destruct (tasks s !! tid) as [t|] eqn:Ht; try done; cbn in Hs.
  - assert (Hw : forall p s1, tasks s1 = tasks s -> rank p < rank (task_point t) ->
      work (set_point tid t p s1) < work s) by (intros; by apply work_set_point).
    destruct (task_point t) as [| |ch| | | |r o| |] eqn:Hp; try done.
    + unfold check_cache in Hs. destruct (get _ _ _) as [[[found c]|] v];
        [destruct found as [[]|]; try case_match|]; injection Hs as <-; apply Hw; cbn; (done || lia).
    + injection Hs as <-. unfold check_inflight. case_match; apply Hw; cbn; (done || lia).
    + unfold receive in Hs. destruct (channels s !! ch) as [[k c]|]; [|done].
      destruct (ch_recv c) as [[[]| |]|]; simplify_eq; apply Hw; cbn; (done || lia).
    + injection Hs as <-. apply Hw; cbn; (done || lia).
    + injection Hs as <-. unfold publish. case_match; apply Hw; cbn; (done || lia).
  - assert (Hw : forall p s1, tasks s1 = tasks s -> rank p < rank (task_point t) ->
      work (set_point tid t p s1) < work s) by (intros; by apply work_set_point).
    destruct (task_point t) eqn:Hp; try done; [injection Hs as <-; apply Hw; cbn; (done || lia)|].
    unfold loaded in Hs. repeat case_match; simplify_eq; apply Hw; cbn; (done || lia).
Qed.

(** The task can take a step, given what its loader would answer. *)
Definition can_advance (tid : nat) (r : result Rows E) (s : State) : Prop :=
  exists e s', (e = Step tid \/ e = Loaded tid r) /\ step e s = Some s'.

Lemma leading_advances tid t r s :
  tasks s !! tid = Some t -> leading (task_point t) -> can_advance tid r s.
Proof.
  intros Ht Hl. destruct (task_point t) eqn:Hp; try done.
  - assert (exists s', step (Loaded tid r) s = Some s') as [s' Hs'].
    { cbn. rewrite Ht. cbn. rewrite Hp. unfold loaded. repeat case_match; eauto. }
    exists (Loaded tid r), s'. auto.
  - eexists (Step tid), _. split; [by left|]. cbn. rewrite Ht. cbn. by rewrite Hp.
Qed.

Lemma unfinished_advances tid t r s :
  inv s -> none_dropped s -> tasks s !! tid = Some t -> finished (task_point t) = false ->
  exists tid', can_advance tid' r s.
Proof.
  intros Hi Hn Ht Hf. destruct (task_point t) as [| |ch| | | |r' o| |] eqn:Hp; try done.
  - exists tid. assert (exists s', step (Step tid) s = Some s') as [s' Hs'].
    { cbn. rewrite Ht. cbn. rewrite Hp. unfold check_cache. repeat case_match; eauto. }
    exists (Step tid), s'. auto.
  - exists tid. eexists (Step tid), _. split; [by left|]. cbn. rewrite Ht. cbn. by rewrite Hp.
  - destruct (inv_waiting _ Hi _ _ _ Ht Hp) as (c & Hc & Hopen).
    destruct (ch_recv c) as [m|] eqn:Hr.
    + exists tid. assert (exists s', step (Step tid) s = Some s') as [s' Hs'].
      { cbn. rewrite Ht. cbn. rewrite Hp. unfold receive. rewrite Hc, Hr. repeat case_match; eauto. }
      exists (Step tid), s'. auto.
    + destruct (inv_leader _ Hi Hn _ _ (Hopen eq_refl)) as (tid' & t' & Ht' & _ & Hl).
      exists tid'. by eapply leading_advances.
  - exists tid. eexists (Loaded tid r), _. split; [by right|]. cbn. rewrite Ht. cbn. by rewrite Hp.
  - exists tid. eexists (Step tid), _. split; [by left|]. cbn. rewrite Ht. cbn. by rewrite Hp.
  - exists tid. by eapply leading_advances; [|rewrite Hp].
  - exists tid. by eapply leading_advances; [|rewrite Hp].
Qed.

(** C12. Concurrent loads are merged and nobody waits in vain.  In every state reached without a
    dropped task: a task that is blocked on a channel has a task of the same key that is
    loading or publishing; a channel delivers the outcome of a load of the receiver's key, unless
    it was closed without one because a second leader of the key replaced it, by a channel made later;
    while a task is unfinished some task can step, whatever the loaders answer; and a step
    always brings the end nearer, so without new calls every schedule ends with all tasks
    finished. *)
Theorem followers_are_answered (es : list Event) (c : L2Cache V) (v : V) (s : State) :
  run es (start c v) = Some s -> none_dropped s ->
  (forall tid t ch, tasks s !! tid = Some t -> task_point t = Waiting ch ->
     exists cell, channels s !! ch = Some (task_text t, cell) /\
     match ch_recv cell with
     | None => exists tid' t', tasks s !! tid' = Some t' /\ task_text t' = task_text t /\
                 leading (task_point t')
     | Some (Message o) => (task_text t, o) ∈ loads s
     | Some Closed => exists ch' cell', ch < ch' /\ channels s !! ch' = Some (task_text t, cell')
     | Some Lagged => False
     end) /\
  (forall tid t r, tasks s !! tid = Some t -> finished (task_point t) = false ->
     exists tid', can_advance tid' r s) /\
  (forall e s', advances e -> step e s = Some s' -> work s' < work s).
Proof.
  intros Hrun Hn. pose proof (run_inv _ _ _ (start_inv c v) Hrun) as Hi. split_and!.
  - intros tid t ch Ht Hw. destruct (inv_waiting _ Hi _ _ _ Ht Hw) as (cell & Hc & Hopen).
    exists cell. split; [done|]. pose proof (inv_closed _ Hi _ _ _ Hc) as Hcl.
    destruct (ch_recv cell) as [[o| |]|] eqn:Hr; [|done|done|].
    + by eapply (inv_sent _ Hi).
    + by apply (inv_leader _ Hi Hn _ _ (Hopen eq_refl)).
  - intros tid t r Ht Hf. by eapply unfinished_advances.
  - intros e s'. apply step_decreases.
Qed.

(** * A cancelled leader

    The key has an entry whose leader is gone: nothing was sent, nobody is loading, and the
    cache does not have the key. *)
Record orphan (key : string) (ch : nat) (s : State) : Prop := {
  orphan_entry : inflight s !! key = Some ch;
  orphan_open : exists c, channels s !! ch = Some (key, c) /\ ch_recv c = None;
  orphan_cold : data (cache s) !! key = None;
  orphan_tasks : forall tid t, tasks s !! tid = Some t -> task_text t = key ->
    match task_point t with
    | CheckCache | CheckInflight | Finished _ | Dropped => True
    | Waiting ch' => ch' = ch
    | _ => False
    end;
}.

(** The next state, as seen by the tasks of the key: no task of the key that was not finished
    is finished. *)
Definition none_finishes (key : string) (s s' : State) : Prop :=
  forall tid t r, tasks s' !! tid = Some t -> task_text t = key -> task_point t = Finished r ->
    tasks s !! tid = Some t.

Lemma none_finishes_set_point key tid t p s s1 :
  tasks s1 = tasks s -> (task_text t = key -> forall r, p <> Finished r) ->
  none_finishes key s (set_point tid t p s1).
Proof.
  intros Hs Hp tid' t' r. cbn. rewrite Hs, lookup_insert_Some.
  intros [[<- <-]|[_ Ht']] Hk Hr; [by destruct (Hp Hk r)|done].
Qed.

Lemma orphan_set_point key ch tid t p s s1 :
  orphan key ch s -> tasks s1 = tasks s -> inflight s1 !! key = Some ch ->
  channels s1 !! ch = channels s !! ch -> data (cache s1) !! key = None ->
  (task_text t = key -> match p with
    | CheckInflight | Dropped => True | Waiting ch' => ch' = ch | _ => False end) ->
  orphan key ch (set_point tid t p s1) /\ none_finishes key s (set_point tid t p s1).
Proof.
  intros [_ Ho _ Ht] Hs Hk Hc Hd Hp. split.
  - split; cbn; [done|by rewrite Hc|done|]. intros tid' t'. rewrite Hs, lookup_insert_Some.
    intros [[<- <-]|[_ Ht']] Hkey; [|by apply (Ht tid')]. specialize (Hp Hkey). by destruct p.
  - apply none_finishes_set_point; [done|]. intros Hkey r ->. by apply Hp in Hkey.
Qed.

Lemma other_channel key ch s k ch' f :
  inv s -> inflight s !! key = Some ch -> inflight s !! k = Some ch' -> k <> key ->
  on_channel f ch' (channels s) !! ch = channels s !! ch.
Proof.
  intros Hi Hk Hk' Hne. destruct (inv_inflight _ Hi _ _ Hk) as (c & Hc & _).
  destruct (inv_inflight _ Hi _ _ Hk') as (c' & Hc' & _).
  rewrite (on_channel_at _ _ _ _ _ _ Hc), decide_False; [done|]. congruence.
Qed.

Lemma orphan_step key ch e s s' :
  inv s -> orphan key ch s -> step e s = Some s' -> orphan key ch s' /\ none_finishes key s s'.
Proof.
  intros Hi Ho Hs. pose proof Ho as [Hk (c0 & Hc0 & Hr0) Hd Ht].
  destruct e as [tid k ttl|tid|tid r|tid]; cbn in Hs.
  - destruct (tasks s !! tid) eqn:Hnew; [done|]. injection Hs as <-. split.
    + split; cbn; [done|by exists c0|done|]. intros tid' t'. rewrite lookup_insert_Some.
      intros [[<- <-]|[_ Ht']]; [done|by apply (Ht tid')].
    + intros tid' t' r. cbn. rewrite lookup_insert_Some. by intros [[<- <-]|[_ Ht']].
  - destruct (tasks s !! tid) as [t|] eqn:Htid; [|done]. cbn in Hs. specialize (Ht tid t Htid).
    destruct (task_point t) as [| |ch'| | | |r o| |] eqn:Hp; try done.
    + unfold check_cache in Hs. destruct (get (task_key t) (cache s) (world s)) as [[[found c]|] v] eqn:Hg.
      * apply get_data in Hg as [Hdata Hnone].
        assert (Hcold : task_text t = key -> found = None) by (intros Heq; apply Hnone; unfold task_text in Heq; congruence).
        assert (Hd' : data c !! key = None) by congruence.
        destruct found as [[]|]; try case_match; injection Hs as <-; apply orphan_set_point; try done;
          intros Heq; by specialize (Hcold Heq).
      * injection Hs as <-. by apply orphan_set_point.
    + injection Hs as <-. unfold check_inflight. destruct (inflight s !! task_text t) as [ch'|] eqn:Hk';
        apply orphan_set_point; try done; intros Heq; rewrite Heq in Hk'; congruence.
    + unfold receive in Hs. destruct (channels s !! ch') as [[k c]|] eqn:Hc; [|done].
      destruct (ch_recv c) as [m|] eqn:Hr; [|done].
      assert (Hkt : task_text t <> key) by (intros Heq; rewrite (Ht Heq) in Hc; congruence).
      destruct m as [[]| |]; injection Hs as <-; by apply orphan_set_point.
    + injection Hs as <-. assert (Hkt : task_text t <> key) by (intros Heq; by apply Ht in Heq).
      unfold insert_inflight. apply orphan_set_point; cbn; try done; [by rewrite lookup_insert_ne|].
      destruct (inflight s !! task_text t) as [old|] eqn:Hold.
      * rewrite lookup_app_l; [by eapply other_channel|].
        unfold on_channel. rewrite length_alter. by eapply lookup_lt_Some.
      * rewrite lookup_app_l; [done|]. by eapply lookup_lt_Some.
    + injection Hs as <-. assert (Hkt : task_text t <> key) by (intros Heq; by apply Ht in Heq).
      unfold publish. destruct (inflight s !! task_text t) as [ch'|] eqn:Hk'; apply orphan_set_point;
        cbn; try done; [by rewrite lookup_delete_ne|by eapply other_channel].
  - destruct (tasks s !! tid) as [t|] eqn:Htid; [|done]. cbn in Hs. specialize (Ht tid t Htid).
    destruct (task_point t) eqn:Hp; try done; (assert (Hkt : task_text t <> key) by (intros Heq; by apply Ht in Heq)).
    + injection Hs as <-. by apply orphan_set_point.
    + unfold loaded in Hs. destruct r as [rows|er]; [|injection Hs as <-; by apply orphan_set_point].
      destruct (to_json rows) as [json|]; [|injection Hs as <-; by apply orphan_set_point].
      destruct (put _ _ _ _ _) as [[c|] v] eqn:Hput; injection Hs as <-; apply orphan_set_point; try done.
      cbn. eapply put_data_other; [exact Hput| |exact Hd]. intros Heq. by apply Hkt.
  - destruct (tasks s !! tid) as [t|] eqn:Htid; [|done]. cbn in Hs.
    destruct (finished _); [done|]. injection Hs as <-. by apply orphan_set_point.
Qed.

(** A leader that is cancelled while it loads takes its key with it.  Its entry stays in
    [inflight] with a sender that is never used: in every later state, whatever calls are made
    and whatever else happens, no call for the key has returned that had not returned before;
    each waits for a message that never comes. *)
Theorem cancelled_leader_blocks (es es' : list Event) (c : L2Cache V) (v : V) (s s' : State)
    (key : string) (ch : nat) :
  run es (start c v) = Some s -> orphan key ch s -> run es' s = Some s' ->
  orphan key ch s' /\ none_finishes key s s'.
Proof.
  intros Hs Ho. pose proof (run_inv _ _ _ (start_inv c v) Hs) as Hi. clear Hs es.
  revert s Hi Ho. induction es' as [|e es IH]; intros s Hi Ho Hr; cbn in Hr.
  { injection Hr as <-. split; [done|]. by intros tid t r Ht. }
  destruct (step e s) as [s1|] eqn:Hs; [|done]. cbn in Hr.
  destruct (orphan_step _ _ _ _ _ Hi Ho Hs) as [Ho1 Hf1].
  destruct (IH s1 (inv_step _ _ _ Hi Hs) Ho1 Hr) as [Ho2 Hf2]. split; [done|].
  intros tid t r Ht Hk Hp. eapply Hf1; [|done|done]. by eapply Hf2.
Qed.
End SingleFlight.

(** * Closed runs: rows are numbers, errors texts *)

Definition sim_from (s : string) : result Z string := match s with "0" => Ok 0%Z | _ => Err "?" end.
Definition sim_cache : L2Cache SimWorld := configured None 10 None.
Definition sim_run (es : list (Event (Rows := Z) (E := string))) : option (State (Ch := SimChannel Z)) :=
  run (fun z => (z =? 0)%Z) (fun z => Ok (pretty z)) sim_from (fun e => e) es (start sim_cache sim0).

Definition q1 : CacheKey := by_query "users" "1".

(** Two calls of one key: the second follows the first and both return its rows. *)
Lemma followers_are_answered_witness :
  let es := [Call 0 q1 9; Step 0; Step 0; Step 0; Call 1 q1 9; Step 1; Step 1]%Z in
  exists s, sim_run es = Some s /\ none_dropped s /\
    (exists tid', can_advance (fun z => (z =? 0)%Z) (fun z => Ok (pretty z)) sim_from (fun e => e)
       tid' (Ok 5%Z) s) /\
    task_point <$> tasks s !! 1 = Some (Waiting 0).
Proof.
  intros es. destruct (sim_run es) as [s|] eqn:Hs; [|by vm_compute in Hs].
  assert (Hn : none_dropped s).
  { vm_compute in Hs. injection Hs as <-. unfold none_dropped.
    apply (map_Forall_to_list (fun _ t => task_point t <> Dropped)). vm_compute.
    repeat constructor; discriminate. }
  exists s. split; [done|]. split; [done|].
  destruct (followers_are_answered (fun z => (z =? 0)%Z) (fun z => Ok (pretty z)) sim_from (fun e => e)
    es sim_cache sim0 s Hs Hn) as (_ & Hadv & _).
  assert (Ht : tasks s !! 1 = Some (mkTask q1 9 (Waiting 0)))
    by (vm_compute in Hs; injection Hs as <-; vm_compute; reflexivity).
  split; [by apply (Hadv 1 _ (Ok 5%Z) Ht)|by rewrite Ht].
Defined.

(** The leader is cancelled while it loads; the next call of the key waits for ever. *)
Lemma cancelled_leader_blocks_witness :
  let es := [Call 0 q1 9; Step 0; Step 0; Step 0; Cancel 0]%Z in
  let es' := [Call 1 q1 9; Step 1; Step 1]%Z in
  exists s s', sim_run es = Some s /\
    run (fun z => (z =? 0)%Z) (fun z => Ok (pretty z)) sim_from (fun e => e) es' s = Some s' /\
    orphan (to_string_key q1) 0 s' /\ none_finishes (to_string_key q1) s s' /\
    task_point <$> tasks s' !! 1 = Some (Waiting 0).
Proof.
  intros es es'. destruct (sim_run es) as [s|] eqn:Hs; [|by vm_compute in Hs].
  destruct (run (fun z => (z =? 0)%Z) (fun z => Ok (pretty z)) sim_from (fun e => e) es' s) as [s'|] eqn:Hs';
    [|by vm_compute in Hs; injection Hs as <-; vm_compute in Hs'].
  assert (Ho : orphan (to_string_key q1) 0 s).
  { vm_compute in Hs. injection Hs as <-. split; [by vm_compute|by eexists|by vm_compute|].
    apply (map_Forall_to_list (fun _ t => task_text t = to_string_key q1 -> match task_point t with
      | CheckCache | CheckInflight | Finished _ | Dropped => True | Waiting ch' => ch' = 0 | _ => False end)).
    vm_compute. by repeat constructor. }
  exists s, s'. split; [done|]. split; [done|].
  destruct (cancelled_leader_blocks (fun z => (z =? 0)%Z) (fun z => Ok (pretty z)) sim_from (fun e => e)
    es es' sim_cache sim0 s s' _ _ Hs Ho Hs') as [Ho' Hf].
  split; [done|]. split; [done|]. vm_compute in Hs. injection Hs as <-.
  vm_compute in Hs'. injection Hs' as <-. vm_compute. reflexivity.
Defined.

(** Between the check and the insertion the lock is free: two calls lead at once, and a
    follower of the first gets an error although both loads succeed. *)
Lemma two_leaders_fail_a_follower :
  (fun s => (task_point <$> tasks s !! 2, loads s)) <$>
  sim_run [Call 0 q1 9; Call 1 q1 9; Step 0; Step 0; Step 1; Step 1; Step 0;
           Call 2 q1 9; Step 2; Step 2; Step 1; Step 2; Loaded 0 (Ok 5); Loaded 1 (Ok 5)]%Z =
  Some (Some (Finished (ReturnsQueryError "singleflight leader closed (panic or drop)")),
        [(to_string_key q1, Success 5); (to_string_key q1, Success 5)]%Z).
Proof. vm_compute. reflexivity. Qed.
