(* ===== verification/WriteBehind.v ===== *)
(** The write-behind writer: [InMemoryBackend] and [WriteBehindWriter] of
    [packages/sz-orm-core/src/l2_cache.rs], the writer as the interleaved steps of its callers
    and of its flushes. *)

From Stdlib Require Import Ascii String.
From S2P Require Import Prelude SqlText LruOrder L2Cache.
Local Open Scope eff_scope.

(** * [InMemoryBackend] *)

Definition Bytes : Type := list ascii.

Notation InMemoryBackend := (gmap string (Bytes * option Z)).

Section Backend.
Context {W : Type} `{Clock W}.

Definition backend_new : InMemoryBackend := ∅.

Definition backend_get (key : string) (b : InMemoryBackend) : Eff W (option Bytes) :=
  match b !! key with
  | Some (value, Some t) =>
      let* now := instant_now in eret (if (t <=? now)%Z then None else Some value)
  | Some (value, None) => eret (Some value)
  | None => eret None
  end.

Definition backend_set (key : string) (value : Bytes) (ttl : option Z) (b : InMemoryBackend) :
    Pan W InMemoryBackend :=
  match ttl with
  | Some d =>
      let! now := pcall instant_now in
      let! t := plift (instant_add now d) in
      pret (<[key := (value, Some t)]> b)
  | None => pret (<[key := (value, None)]> b)
  end.

Definition backend_delete (key : string) (b : InMemoryBackend) : InMemoryBackend := delete key b.

Definition invalidate_prefix (prefix : string) (b : InMemoryBackend) : InMemoryBackend :=
  fold_left (fun m k => delete k m)
    (filter (fun k => starts_with prefix k = true) (map_to_list b).*1) b.
End Backend.

Lemma fold_delete_lookup (ks : list string) (b : InMemoryBackend) key :
  fold_left (fun m k => delete k m) ks b !! key = if decide (key ∈ ks) then None else b !! key.
Proof.
  revert b. induction ks as [|k ks IH]; intros b; cbn; [by rewrite decide_False by apply not_elem_of_nil|].
  rewrite IH. destruct (decide (key = k)) as [->|Hne].
  - rewrite lookup_delete_eq. rewrite (decide_True (P := k ∈ k :: ks)) by left. by case_decide.
  - rewrite lookup_delete_ne by done. destruct (decide (key ∈ ks)) as [Hin|Hout].
    + by rewrite decide_True by by right.
    + by rewrite decide_False by (rewrite not_elem_of_cons; done).
Qed.

(** The prefix alone decides, also across tables: [invalidate_prefix] of a table named like the
    start of another one drops both. *)
Lemma invalidate_prefix_spec prefix (b : InMemoryBackend) key :
  invalidate_prefix prefix b !! key = if starts_with prefix key then None else b !! key.
Proof.
  unfold invalidate_prefix. rewrite fold_delete_lookup.
  destruct (starts_with prefix key) eqn:Hp; case_decide as Hin; try done.
  - destruct (b !! key) as [x|] eqn:Hb; [|done]. destruct Hin. apply list_elem_of_filter.
    split; [done|]. apply list_elem_of_fmap. exists (key, x). by rewrite elem_of_map_to_list.
  - apply list_elem_of_filter in Hin as [Hp' _]. congruence.
Qed.

(** * [WriteBehindWriter] *)

Inductive WriteOp : Type :=
| OpSet (key : string) (value : Bytes) (ttl : option Z)
| OpDelete (key : string).

Definition op_key (op : WriteOp) : string :=
  match op with OpSet k _ _ => k | OpDelete k => k end.

(** What a sequence of operations leaves at each key. *)
Definition apply_op (op : WriteOp) (m : gmap string Bytes) : gmap string Bytes :=
  match op with OpSet k v _ => <[k := v]> m | OpDelete k => delete k m end.

Definition replay (ops : list WriteOp) : gmap string Bytes :=
  fold_left (fun m op => apply_op op m) ops ∅.

(** The queue, the operations taken by each running flush and the operations whose writer has
    set the cache and not yet pushed them.  The theorems also refer to the operations the
    cache took, those [on_flush] accepted, those handed to [on_error], and those of flushes
    that were dropped while [on_flush] ran and of writers dropped before they had the queue. *)
Record Writer : Type := mkWriter {
  queue : list WriteOp;
  flushing : gmap nat (list WriteOp);
  pushing : gmap nat WriteOp;
  cached : list WriteOp;
  stored : list WriteOp;
  reported : list (list WriteOp);
  lost : list WriteOp;
}.

Definition writer_new : Writer := mkWriter [] ∅ ∅ [] [] [] [].

(** [write] and [delete]: the backend took the operation; then it is pushed. *)
Definition backend_took (tid : nat) (op : WriteOp) (s : Writer) : Writer :=
  mkWriter (queue s) (flushing s) (<[tid := op]> (pushing s)) (cached s ++ [op]) (stored s)
    (reported s) (lost s).

Definition push (tid : nat) (op : WriteOp) (s : Writer) : Writer :=
  mkWriter (queue s ++ [op]) (flushing s) (delete tid (pushing s)) (cached s) (stored s)
    (reported s) (lost s).

(** [flush] takes the queue; an empty one ends it. *)
Definition take_queue (fid : nat) (s : Writer) : Writer :=
  if is_nil (queue s) then s
  else mkWriter [] (<[fid := queue s]> (flushing s)) (pushing s) (cached s) (stored s)
         (reported s) (lost s).

(** [on_flush] has answered. *)
Definition end_flush (fid : nat) (ops : list WriteOp) (ok : bool) (s : Writer) : Writer :=
  if ok
  then mkWriter (queue s) (delete fid (flushing s)) (pushing s) (cached s) (stored s ++ ops)
         (reported s) (lost s)
  else mkWriter (queue s ++ ops) (delete fid (flushing s)) (pushing s) (cached s) (stored s)
         (reported s ++ [ops]) (lost s).

Definition drop_flush (fid : nat) (ops : list WriteOp) (s : Writer) : Writer :=
  mkWriter (queue s) (delete fid (flushing s)) (pushing s) (cached s) (stored s) (reported s)
    (lost s ++ ops).

(** The future of a [write] or [delete] is dropped while it waits for the lock of the queue. *)
Definition drop_push (tid : nat) (op : WriteOp) (s : Writer) : Writer :=
  mkWriter (queue s) (flushing s) (delete tid (pushing s)) (cached s) (stored s) (reported s)
    (lost s ++ [op]).

Definition pending_count (s : Writer) : nat := length (queue s).

Inductive WriterEvent : Type :=
| BackendTook (tid : nat) (op : WriteOp)
| Push (tid : nat)
| TakeQueue (fid : nat)
| EndFlush (fid : nat) (ok : bool)
| DropFlush (fid : nat)
| DropPush (tid : nat).

Definition writer_step (e : WriterEvent) (s : Writer) : option Writer :=
  match e with
  | BackendTook tid op =>
      match pushing s !! tid with Some _ => None | None => Some (backend_took tid op s) end
  | Push tid => op ← pushing s !! tid; Some (push tid op s)
  | TakeQueue fid =>
      match flushing s !! fid with Some _ => None | None => Some (take_queue fid s) end
  | EndFlush fid ok => ops ← flushing s !! fid; Some (end_flush fid ops ok s)
  | DropFlush fid => ops ← flushing s !! fid; Some (drop_flush fid ops s)
  | DropPush tid => op ← pushing s !! tid; Some (drop_push tid op s)
  end.

Fixpoint writer_run (es : list WriterEvent) (s : Writer) : option Writer :=
  match es with
  | [] => Some s
  | e :: es => s ← writer_step e s; writer_run es s
  end.

(** ** What becomes of the operations *)

Definition in_flight (s : Writer) : list WriteOp := concat (map_to_list (flushing s)).*2.
Definition in_push (s : Writer) : list WriteOp := (map_to_list (pushing s)).*2.

Lemma values_insert {A} (m : gmap nat A) i x :
  m !! i = None -> (map_to_list (<[i := x]> m)).*2 ≡ₚ x :: (map_to_list m).*2.
Proof. intros Hi. by rewrite map_to_list_insert. Qed.

Lemma values_delete {A} (m : gmap nat A) i x :
  m !! i = Some x -> (map_to_list m).*2 ≡ₚ x :: (map_to_list (delete i m)).*2.
Proof. intros Hi. by rewrite <- map_to_list_delete by done. Qed.

Definition accounted (s : Writer) : Prop :=
  cached s ≡ₚ stored s ++ in_flight s ++ queue s ++ in_push s ++ lost s.

Lemma step_accounted e s s' : accounted s -> writer_step e s = Some s' -> accounted s'.
Proof.
  unfold accounted. intros Ha Hs.
  destruct e as [tid op|tid|fid|fid ok|fid|tid]; cbn in Hs.
  - destruct (pushing s !! tid) eqn:Ht; [done|]. injection Hs as <-. unfold in_push, in_flight in *. cbn.
    rewrite (values_insert _ _ _ Ht), Ha. solve_Permutation.
  - destruct (pushing s !! tid) as [op|] eqn:Ht; [|done]. injection Hs as <-. unfold in_push, in_flight in *. cbn.
    rewrite Ha, (values_delete _ _ _ Ht). solve_Permutation.
  - destruct (flushing s !! fid) eqn:Ht; [done|]. injection Hs as <-. unfold take_queue.
    destruct (is_nil (queue s)); [done|]. unfold in_push, in_flight in *. cbn.
    rewrite (values_insert _ _ _ Ht), Ha. cbn. solve_Permutation.
  - destruct (flushing s !! fid) as [ops|] eqn:Ht; [|done]. injection Hs as <-. unfold end_flush.
    unfold in_push, in_flight in *.
    destruct ok; cbn; rewrite Ha, (values_delete _ _ _ Ht); cbn; solve_Permutation.
  - destruct (flushing s !! fid) as [ops|] eqn:Ht; [|done]. injection Hs as <-. unfold drop_flush.
    unfold in_push, in_flight in *. cbn.
    rewrite Ha, (values_delete _ _ _ Ht). cbn. solve_Permutation.
  - destruct (pushing s !! tid) as [op|] eqn:Ht; [|done]. injection Hs as <-. unfold drop_push, in_push, in_flight in *. cbn.
    rewrite Ha, (values_delete _ _ _ Ht). cbn. solve_Permutation.
Qed.

Definition no_drop (e : WriterEvent) : bool := match e with DropFlush _ | DropPush _ => false | _ => true end.

Lemma run_accounted es s s' :
  accounted s -> writer_run es s = Some s' ->
  accounted s' /\ (forallb no_drop es = true -> lost s' = lost s).
Proof.
  revert s. induction es as [|e es IH]; intros s Ha Hr; cbn in Hr; [by injection Hr as <-|].
  destruct (writer_step e s) as [s1|] eqn:Hs; [|done]. cbn in Hr.
  destruct (IH s1 (step_accounted _ _ _ Ha Hs) Hr) as [Ha' Hl]. split; [done|].
  cbn. intros [He Hes]%andb_true_iff. rewrite (Hl Hes).
  destruct e as [tid op|tid|fid|fid ok|fid|tid]; try done; cbn in Hs; repeat case_match; simplify_option_eq; try done.
  - unfold take_queue. by case_match.
  - unfold end_flush. by case_match.
Qed.

(** ** When the order is kept

    Writers push before another one sets the cache, flushes do not overlap, nothing is dropped, and
    a flush that fails finds nothing new in the queue. *)

Definition orderly (e : WriterEvent) (s : Writer) : bool :=
  match e with
  | BackendTook _ _ => bool_decide (pushing s = ∅)
  | Push _ => true
  | TakeQueue _ => bool_decide (flushing s = ∅)
  | EndFlush _ ok => ok || is_nil (queue s)
  | DropFlush _ | DropPush _ => false
  end.

Fixpoint orderly_run (es : list WriterEvent) (s : Writer) : bool :=
  match es with
  | [] => true
  | e :: es =>
      orderly e s && match writer_step e s with Some s => orderly_run es s | None => false end
  end.

(** At most one flush and one push at a time, and everything in order. *)
Record in_order (s : Writer) : Prop := {
  one_flush : flushing s = ∅ \/ exists i ops, flushing s = {[i := ops]};
  one_push : pushing s = ∅ \/ exists i op, pushing s = {[i := op]};
  all_in_order : (stored s ++ in_flight s ++ queue s ++ in_push s)%list = cached s;
}.

Lemma step_in_order e s s' :
  in_order s -> orderly e s = true -> writer_step e s = Some s' -> in_order s'.
Proof.
  intros [Hf Hp Ho] He Hs. unfold in_flight, in_push in Ho.
  destruct e as [tid op|tid|fid|fid ok|fid|tid]; cbn in He, Hs; try done.
  - apply bool_decide_eq_true in He. rewrite He, lookup_empty in Hs. injection Hs as <-.
    rewrite He, map_to_list_empty in Ho. cbn in Ho. rewrite app_nil_r in Ho. split; cbn.
    + done.
    + right. exists tid, op. by rewrite He, insert_empty.
    + unfold in_flight, in_push. cbn. rewrite He, insert_empty, map_to_list_singleton. cbn.
      by rewrite <- Ho, <- !app_assoc.
  - destruct (pushing s !! tid) as [op|] eqn:Ht; [|done]. injection Hs as <-.
    destruct Hp as [Hp|(i & op' & Hp)]; [by rewrite Hp, lookup_empty in Ht|].
    rewrite Hp, lookup_singleton_Some in Ht. destruct Ht as [-> ->].
    rewrite Hp, map_to_list_singleton in Ho. split; cbn; [done|by left; rewrite Hp, delete_singleton_eq|].
    unfold in_flight, in_push. cbn. rewrite Hp, delete_singleton_eq, map_to_list_empty, app_nil_r.
    by rewrite <- Ho.
  - apply bool_decide_eq_true in He. rewrite He, lookup_empty in Hs. injection Hs as <-.
    unfold take_queue. destruct (is_nil (queue s)); [by split|]. split; cbn.
    + right. exists fid, (queue s). by rewrite He, insert_empty.
    + done.
    + unfold in_flight, in_push. cbn. rewrite He, insert_empty, map_to_list_singleton. cbn.
      rewrite He, map_to_list_empty in Ho. cbn in Ho. by rewrite app_nil_r.
  - destruct (flushing s !! fid) as [ops|] eqn:Ht; [|done]. injection Hs as <-.
    destruct Hf as [Hf|(i & ops' & Hf)]; [by rewrite Hf, lookup_empty in Ht|].
    rewrite Hf, lookup_singleton_Some in Ht. destruct Ht as [-> ->].
    rewrite Hf, map_to_list_singleton in Ho. cbn in Ho. rewrite app_nil_r in Ho.
    unfold end_flush. destruct ok; (split; cbn; [left; by rewrite Hf, delete_singleton_eq|exact Hp|]);
      unfold in_flight, in_push; cbn; rewrite Hf, delete_singleton_eq, map_to_list_empty; cbn.
    + by rewrite <- Ho, <- app_assoc.
    + cbn in He. destruct (queue s); [|done]. by rewrite <- Ho.
Qed.

Lemma run_in_order es s s' :
  in_order s -> orderly_run es s = true -> writer_run es s = Some s' -> in_order s'.
Proof.
  revert s. induction es as [|e es IH]; intros s Hi Ho Hr; cbn in Ho, Hr; [by injection Hr as <-|].
  apply andb_true_iff in Ho as [He Ho]. destruct (writer_step e s) as [s1|] eqn:Hs; [|done].
  cbn in Hr. eapply IH; [|done|done]. by eapply step_in_order.
Qed.

(** C36. What the write-behind writer does with the operations the cache took.  However calls
    and flushes interleave, each operation is stored, in a running flush, in the queue, about
    to be pushed, or was lost with a flush that was dropped while it ran or a call that was dropped
    before its push: none is duplicated, and none is lost unless one is dropped.  When the steps are orderly the store gets them in the
    order the cache did, and with nothing pending both hold the same values. *)
Theorem write_behind_keeps_operations (es : list WriterEvent) (s : Writer) :
  writer_run es writer_new = Some s ->
  cached s ≡ₚ stored s ++ in_flight s ++ queue s ++ in_push s ++ lost s /\
  (forallb no_drop es = true -> lost s = []) /\
  (orderly_run es writer_new = true ->
     cached s = (stored s ++ in_flight s ++ queue s ++ in_push s)%list /\
     (in_flight s = [] -> queue s = [] -> in_push s = [] -> replay (stored s) = replay (cached s))).
Proof.
  intros Hr. destruct (run_accounted es writer_new s) as [Ha Hl]; [by vm_compute|done|].
  split; [exact Ha|]. split; [exact Hl|]. intros Ho.
  destruct (run_in_order es writer_new s) as [_ _ Hall]; [split; [by left|by left|by vm_compute]|done|done|].
  split; [done|]. intros Hf Hq Hp. rewrite <- Hall, Hf, Hq, Hp. by rewrite !app_nil_r.
Qed.

Definition set_k (v : string) : WriteOp := OpSet "k" (list_ascii_of_string v) None.

Lemma write_behind_keeps_operations_witness :
  let es := [BackendTook 0 (set_k "1"); Push 0; TakeQueue 0; EndFlush 0 false;
             BackendTook 1 (set_k "2"); Push 1; TakeQueue 1; EndFlush 1 true] in
  exists s, writer_run es writer_new = Some s /\ replay (stored s) = replay (cached s) /\
    replay (cached s) !! "k"%string = Some (list_ascii_of_string "2").
Proof.
  intros es. destruct (writer_run es writer_new) as [s|] eqn:Hs; [|by vm_compute in Hs].
  exists s. split; [done|].
  destruct (write_behind_keeps_operations es s Hs) as (_ & _ & Ho).
  destruct (Ho eq_refl) as [_ Hsame]. split.
  - vm_compute in Hs. injection Hs as <-. by apply Hsame.
  - vm_compute in Hs. injection Hs as <-. reflexivity.
Defined.

(** A flush that fails puts its operations behind those that were written while it ran: the
    next flush stores the older value last, and nothing is left to repair it. *)
Lemma failed_flush_reorders :
  (fun s => (queue s, flushing s, (replay (stored s) !! "k"%string), replay (cached s) !! "k"%string)) <$>
  writer_run [BackendTook 0 (set_k "1"); Push 0; TakeQueue 0; BackendTook 1 (set_k "2"); Push 1;
              EndFlush 0 false; TakeQueue 1; EndFlush 1 true] writer_new =
  Some ([], ∅, Some (list_ascii_of_string "1"), Some (list_ascii_of_string "2")).
Proof. vm_compute. reflexivity. Qed.
