(* ===== verification/PreparedCache.v ===== *)
(** The prepared statement cache: [packages/sz-orm-core/src/prepared_cache.rs].  Handles are
    kept by connection and by the hash of the statement; an index by table invalidates them. *)

From Stdlib Require Import String.
From S2P Require Import Prelude SqlText Value.
Local Open Scope string_scope.
Local Open Scope eff_scope.

(** * Data *)

(** [search_path], [schema] and character set: what a plan depends on. *)
Record ConnContext : Type := mkContext { search_path : string; schema : string; charset : string }.

#[export] Instance ConnContext_eq_dec : EqDecision ConnContext.
Proof. solve_decision. Defined.

Definition default_context : ConnContext := mkContext "public" "public" "utf8".

Definition check_consistency (ctx1 ctx2 : ConnContext) : bool := bool_decide (ctx1 = ctx2).

Section PreparedCache.
(** [ExecuteFn]: a handle of the driver. *)
Context {H : Type}.

Record PreparedStatementBucket : Type := mkBucket {
  entries : gmap Z H;
  lru : gmap Z Z;
  table_index : gmap string (list Z);
}.

Record PreparedStats : Type := mkStats {
  hits : Z; misses : Z; evictions : Z; degradations : Z; invalidations : Z }.

Record SharedPlanEntry : Type := mkPlan { plan_fn : H; plan_context : ConnContext; create_time : Z }.

Record CrossConnPlanShare : Type := mkShare {
  shared_plans : gmap Z SharedPlanEntry;
  shared_hits : Z;
  context_mismatches : Z;
}.

Record PreparedStatementCache : Type := mkPrepared {
  buckets : gmap Z PreparedStatementBucket;
  stats : PreparedStats;
  max_size_per_conn : nat;
  cross_conn_share : option CrossConnPlanShare;
}.

Implicit Types (b : PreparedStatementBucket) (c : PreparedStatementCache).

Definition bucket_new : PreparedStatementBucket := mkBucket ∅ ∅ ∅.
Definition share_new : CrossConnPlanShare := mkShare ∅ 0 0.
Definition prepared_new (max_size : nat) : PreparedStatementCache :=
  mkPrepared ∅ (mkStats 0 0 0 0 0) max_size None.
Definition new_with_cross_share (max_size : nat) : PreparedStatementCache :=
  mkPrepared ∅ (mkStats 0 0 0 0 0) max_size (Some share_new).

Definition record_hit (s : PreparedStats) : PreparedStats :=
  mkStats (wrap64 (hits s + 1)) (misses s) (evictions s) (degradations s) (invalidations s).
Definition record_miss (s : PreparedStats) : PreparedStats :=
  mkStats (hits s) (wrap64 (misses s + 1)) (evictions s) (degradations s) (invalidations s).
Definition record_eviction (s : PreparedStats) : PreparedStats :=
  mkStats (hits s) (misses s) (wrap64 (evictions s + 1)) (degradations s) (invalidations s).
Definition record_degradation (s : PreparedStats) : PreparedStats :=
  mkStats (hits s) (misses s) (evictions s) (wrap64 (degradations s + 1)) (invalidations s).
Definition record_invalidation (n : nat) (s : PreparedStats) : PreparedStats :=
  mkStats (hits s) (misses s) (evictions s) (degradations s) (wrap64 (invalidations s + Z.of_nat n)).

Definition set_buckets (m : gmap Z PreparedStatementBucket) c : PreparedStatementCache :=
  mkPrepared m (stats c) (max_size_per_conn c) (cross_conn_share c).
Definition set_stats (f : PreparedStats -> PreparedStats) c : PreparedStatementCache :=
  mkPrepared (buckets c) (f (stats c)) (max_size_per_conn c) (cross_conn_share c).
Definition set_share (s : option CrossConnPlanShare) c : PreparedStatementCache :=
  mkPrepared (buckets c) (stats c) (max_size_per_conn c) s.

(** * Operations

    [now] is the reading of the clock an operation takes; each operation up to
    [get_or_prepare] is what happens under one lock. *)

(** The hash of the trimmed lower case text; the case tables of Unicode and [DefaultHasher] are
    the standard library's. *)
Definition compute_sql_hash (to_lowercase : string -> string) (hasher : string -> Z) (sql : string) : Z :=
  hasher (to_lowercase (trim sql)).

(** [min_by_key]: the first entry with the least time. *)
Definition older (acc : option (Z * Z)) (kv : Z * Z) : option (Z * Z) :=
  match acc with
  | None => Some kv
  | Some kv0 => if (kv.2 <? kv0.2)%Z then Some kv else Some kv0
  end.

Definition find_lru_key b : option Z := fst <$> fold_left older (map_to_list (lru b)) None.

Definition lookup_handle (conn hash : Z) c : option H :=
  b ← buckets c !! conn; entries b !! hash.

Definition touch_lru (conn hash now : Z) c : PreparedStatementCache :=
  match buckets c !! conn with
  | Some b => set_buckets (<[conn := mkBucket (entries b) (<[hash := now]> (lru b)) (table_index b)]> (buckets c)) c
  | None => c
  end.

Definition evict_key (hash : Z) b : PreparedStatementBucket :=
  mkBucket (delete hash (entries b)) (delete hash (lru b)) (filter (fun h => h <> hash) <$> table_index b).

(** The eviction of [store_handle], and whether it happened. *)
Definition make_room (max_size : nat) (hash : Z) b : PreparedStatementBucket * bool :=
  if (max_size <=? size (entries b))%nat && negb (is_some (entries b !! hash)) then
    match find_lru_key b with
    | Some evict_hash => (evict_key evict_hash b, true)
    | None => (b, false)
    end
  else (b, false).

Definition index_table (hash : Z) (idx : gmap string (list Z)) (table : string) : gmap string (list Z) :=
  <[table := (default [] (idx !! table) ++ [hash])%list]> idx.

Definition insert_handle (hash : Z) (tables : list string) (fn : H) (now : Z) b : PreparedStatementBucket :=
  mkBucket (<[hash := fn]> (entries b)) (<[hash := now]> (lru b)) (fold_left (index_table hash) tables (table_index b)).

Definition store_handle (conn hash : Z) (tables : list string) (fn : H) (now : Z) c : PreparedStatementCache :=
  let '(b, evicted) := make_room (max_size_per_conn c) hash (default bucket_new (buckets c !! conn)) in
  let c := if (evicted : bool) then set_stats record_eviction c else c in
  set_buckets (<[conn := insert_handle hash tables fn now b]> (buckets c)) c.

Definition invalidate_conn (conn : Z) c : nat * PreparedStatementCache :=
  match buckets c !! conn with
  | Some b =>
      (size (entries b), set_stats (record_invalidation (size (entries b))) (set_buckets (delete conn (buckets c)) c))
  | None => (0, c)
  end.

Definition drop_hash b (hash : Z) : PreparedStatementBucket :=
  mkBucket (delete hash (entries b)) (delete hash (lru b)) (table_index b).

Definition invalidate_bucket (table : string) b : PreparedStatementBucket :=
  match table_index b !! table with
  | Some hashes => fold_left drop_hash hashes (mkBucket (entries b) (lru b) (delete table (table_index b)))
  | None => b
  end.

(** The hashes found in the index of the buckets; the order of the buckets is unspecified. *)
Definition invalidated_hashes (table : string) c : list Z :=
  concat ((fun p => default [] (table_index p.2 !! table)) <$> map_to_list (buckets c)).

Definition get_shared_plan (fingerprint : Z) (ctx : ConnContext) (s : CrossConnPlanShare) :
    option H * CrossConnPlanShare :=
  match shared_plans s !! fingerprint with
  | Some e =>
      if check_consistency (plan_context e) ctx
      then (Some (plan_fn e), mkShare (shared_plans s) (wrap64 (shared_hits s + 1)) (context_mismatches s))
      else (None, mkShare (shared_plans s) (shared_hits s) (wrap64 (context_mismatches s + 1)))
  | None => (None, s)
  end.

Definition store_shared_plan (fingerprint : Z) (fn : H) (ctx : ConnContext) (now : Z) (s : CrossConnPlanShare) :
    CrossConnPlanShare :=
  mkShare (<[fingerprint := mkPlan fn ctx now]> (shared_plans s)) (shared_hits s) (context_mismatches s).

Definition invalidate_by_fingerprint (fingerprint : Z) (s : CrossConnPlanShare) : bool * CrossConnPlanShare :=
  (is_some (shared_plans s !! fingerprint),
   mkShare (delete fingerprint (shared_plans s)) (shared_hits s) (context_mismatches s)).

Fixpoint invalidate_shared (hashes : list Z) (s : CrossConnPlanShare) : nat * CrossConnPlanShare :=
  match hashes with
  | [] => (0, s)
  | h :: hashes =>
      let '(removed, s) := invalidate_by_fingerprint h s in
      let '(n, s) := invalidate_shared hashes s in
      ((if (removed : bool) then S n else n), s)
  end.

Definition prepared_invalidate_table (table : string) c : nat * PreparedStatementCache :=
  let hashes := invalidated_hashes table c in
  let '(shared, share) :=
    match cross_conn_share c with
    | Some s => let '(n, s) := invalidate_shared hashes s in (n, Some s)
    | None => (0, None)
    end in
  let total := (length hashes + shared)%nat in
  (total, set_stats (record_invalidation total)
            (set_share share (set_buckets (invalidate_bucket table <$> buckets c) c))).

Definition store_handle_with_context (conn hash : Z) (tables : list string) (fn : H) (ctx : ConnContext)
    (now : Z) c : PreparedStatementCache :=
  let c := store_handle conn hash tables fn now c in
  set_share (store_shared_plan hash fn ctx now <$> cross_conn_share c) c.

Definition prepared_len c : nat := msum (fun b => size (entries b)) (buckets c).

(** ** Execution

    [execute_fn] runs a handle; other tasks may use the cache between the lookup, the end of the
    execution and the update of the time. *)

Inductive PreparedLookup (Rows : Type) : Type :=
| Hit (rows : Rows)
| Miss.
Arguments Hit {Rows}.
Arguments Miss {Rows}.

Definition get_or_prepare {W Rows E} `{Clock W} (execute_fn : H -> list Value -> Eff W (result Rows E))
    (conn hash : Z) (params : list Value) c : Eff W (result (PreparedLookup Rows) E * PreparedStatementCache) :=
  match lookup_handle conn hash c with
  | Some fn =>
      let* r := execute_fn fn params in
      match r with
      | Ok rows =>
          let* now := instant_now in
          eret (Ok (Hit rows), touch_lru conn hash now (set_stats record_hit c))
      | Err e => eret (Err e, set_stats record_degradation c)
      end
  | None => eret (Ok Miss, set_stats record_miss c)
  end.

Definition get_or_prepare_with_context {W Rows E} `{Clock W}
    (execute_fn : H -> list Value -> Eff W (result Rows E))
    (conn hash : Z) (params : list Value) (ctx : ConnContext) c :
    Eff W (result (PreparedLookup Rows) E * PreparedStatementCache) :=
  match cross_conn_share c with
  | Some s =>
      let '(found, s) := get_shared_plan hash ctx s in
      let c := set_share (Some s) c in
      match found with
      | Some fn =>
          let* r := execute_fn fn params in
          match r with
          | Ok rows => eret (Ok (Hit rows), set_stats record_hit c)
          | Err e => eret (Err e, set_stats record_degradation c)
          end
      | None => get_or_prepare execute_fn conn hash params c
      end
  | None => get_or_prepare execute_fn conn hash params c
  end.

(** ** Interleavings

    What the tasks that share a cache do to it, one lock at a time. *)
Inductive PreparedEvent : Type :=
| Touched (conn hash now : Z)
| Stored (conn hash : Z) (tables : list string) (fn : H) (now : Z)
| StoredWith (conn hash : Z) (tables : list string) (fn : H) (ctx : ConnContext) (now : Z)
| TableInvalidated (table : string)
| ConnInvalidated (conn : Z)
| Counted (f : PreparedStats -> PreparedStats).

Definition prepared_step c (e : PreparedEvent) : PreparedStatementCache :=
  match e with
  | Touched conn hash now => touch_lru conn hash now c
  | Stored conn hash tables fn now => store_handle conn hash tables fn now c
  | StoredWith conn hash tables fn ctx now => store_handle_with_context conn hash tables fn ctx now c
  | TableInvalidated table => snd (prepared_invalidate_table table c)
  | ConnInvalidated conn => snd (invalidate_conn conn c)
  | Counted f => set_stats f c
  end.

Definition prepared_run (es : list PreparedEvent) c : PreparedStatementCache := fold_left prepared_step es c.

(** * Invalidation by table

    [tables_of] gives the tables a handle was stored with. *)

Section Tables.
Variable tables_of : H -> list string.

Definition stored_by_tables (e : PreparedEvent) : Prop :=
  match e with
  | Stored _ _ tables fn _ | StoredWith _ _ tables fn _ _ => tables = tables_of fn
  | _ => True
  end.

(** Every handle is in the index of each of its tables. *)
Definition indexed b : Prop :=
  forall hash fn t, entries b !! hash = Some fn -> t ∈ tables_of fn ->
    exists l, table_index b !! t = Some l /\ hash ∈ l.

Definition all_indexed c : Prop := map_Forall (fun _ b => indexed b) (buckets c).

Lemma bucket_new_indexed : indexed bucket_new.
Proof. intros hash fn t. cbn. by rewrite lookup_empty. Qed.

Lemma evict_key_indexed hash b : indexed b -> indexed (evict_key hash b).
Proof.
  intros Hb h fn t. cbn. rewrite lookup_delete_Some. intros [Hne Hh] Ht.
  destruct (Hb h fn t Hh Ht) as (l & Hl & Hin). exists (filter (fun h => h <> hash) l).
  rewrite lookup_fmap, Hl. split; [done|]. by apply list_elem_of_filter.
Qed.

Lemma make_room_indexed max_size hash b : indexed b -> indexed (fst (make_room max_size hash b)).
Proof.
  intros Hb. unfold make_room. case_match; [|done]. case_match; [|done]. by apply evict_key_indexed.
Qed.

Lemma index_tables_keep hash tables idx t l h :
  idx !! t = Some l -> h ∈ l ->
  exists l', fold_left (index_table hash) tables idx !! t = Some l' /\ h ∈ l'.
Proof.
  revert idx l. induction tables as [|t' tables IH]; intros idx l Hl Hh; [by exists l|].
  cbn [fold_left]. destruct (decide (t' = t)) as [->|Hne].
  - apply (IH _ (l ++ [hash])%list); [|apply elem_of_app; by left].
    unfold index_table. by rewrite Hl, lookup_insert_eq.
  - apply (IH _ l); [|done]. unfold index_table. by rewrite lookup_insert_ne.
Qed.

Lemma index_tables_add hash tables idx t :
  t ∈ tables -> exists l, fold_left (index_table hash) tables idx !! t = Some l /\ hash ∈ l.
Proof.
  revert idx. induction tables as [|t' tables IH]; intros idx; [by intros ?%not_elem_of_nil|].
  cbn [fold_left]. intros [->|Ht]%elem_of_cons; [|by apply IH].
  eapply index_tables_keep; [by apply lookup_insert_eq|]. apply elem_of_app. right. apply elem_of_cons. by left.
Qed.

Lemma insert_handle_indexed hash fn now b : indexed b -> indexed (insert_handle hash (tables_of fn) fn now b).
Proof.
  intros Hb h f t. cbn. rewrite lookup_insert_Some. intros [[<- <-]|[Hne Hh]] Ht.
  - by apply index_tables_add.
  - destruct (Hb h f t Hh Ht) as (l & Hl & Hin). by eapply index_tables_keep.
Qed.

Lemma store_handle_indexed conn hash fn now c :
  all_indexed c -> all_indexed (store_handle conn hash (tables_of fn) fn now c).
Proof.
  intros Hc. unfold store_handle.
  assert (Hb : indexed (default bucket_new (buckets c !! conn))).
  { destruct (buckets c !! conn) as [b|] eqn:E; cbn; [by apply (Hc conn)|apply bucket_new_indexed]. }
  apply (make_room_indexed (max_size_per_conn c) hash) in Hb.
  destruct (make_room _ _ _) as [b []]; cbn in *;
    (intros k b'; cbn; rewrite lookup_insert_Some; intros [[<- <-]|[_ Hk]];
     [by apply insert_handle_indexed|by apply (Hc k)]).
Qed.

(** Dropping hashes: what is left, and that the times and the index follow. *)
Lemma drop_hashes_spec hashes b :
  let b' := fold_left drop_hash hashes b in
  table_index b' = table_index b /\
  forall h, (entries b' !! h = if decide (h ∈ hashes) then None else entries b !! h) /\
            (lru b' !! h = if decide (h ∈ hashes) then None else lru b !! h).
Proof.
  revert b. induction hashes as [|x hashes IH]; intros b; cbn [fold_left].
  { split; [done|]. intros h. by rewrite decide_False by apply not_elem_of_nil. }
  destruct (IH (drop_hash b x)) as [Hi Hh]. split; [done|]. intros h.
  destruct (Hh h) as [-> ->]. cbn [entries lru drop_hash]. destruct (decide (h = x)) as [->|Hne].
  - rewrite !lookup_delete_eq. split; repeat case_decide; set_solver.
  - rewrite !lookup_delete_ne by done. split; repeat case_decide; set_solver.
Qed.

Lemma invalidate_bucket_entries table b h fn :
  entries (invalidate_bucket table b) !! h = Some fn ->
  entries b !! h = Some fn /\ forall l, table_index b !! table = Some l -> h ∉ l.
Proof.
  unfold invalidate_bucket. destruct (table_index b !! table) as [l|]; [|by intros].
  destruct (drop_hashes_spec l (mkBucket (entries b) (lru b) (delete table (table_index b)))) as [_ Hh].
  destruct (Hh h) as [-> _]. cbn. case_decide; [done|]. intros. split; [done|]. by intros ? [= <-].
Qed.

Lemma invalidate_bucket_index table b :
  table_index (invalidate_bucket table b) = delete table (table_index b).
Proof.
  unfold invalidate_bucket. destruct (table_index b !! table) as [l|] eqn:E.
  - by destruct (drop_hashes_spec l (mkBucket (entries b) (lru b) (delete table (table_index b)))) as [-> _].
  - by rewrite delete_id.
Qed.

(** An indexed bucket keeps no handle of the table. *)
Lemma invalidate_bucket_gone table b h fn :
  indexed b -> entries (invalidate_bucket table b) !! h = Some fn -> table ∉ tables_of fn.
Proof.
  intros Hb [Hh Hl]%invalidate_bucket_entries Ht. destruct (Hb h fn table Hh Ht) as (l & El & Hin).
  by apply (Hl l).
Qed.

Lemma invalidate_bucket_indexed table b : indexed b -> indexed (invalidate_bucket table b).
Proof.
  intros Hb h fn t Hh Ht. pose proof (invalidate_bucket_gone table b h fn Hb Hh) as Hno.
  apply invalidate_bucket_entries in Hh as [Hh _]. rewrite invalidate_bucket_index.
  rewrite lookup_delete_ne by (intros ->; done). by apply (Hb h fn).
Qed.

Lemma prepared_step_indexed c e : stored_by_tables e -> all_indexed c -> all_indexed (prepared_step c e).
Proof.
  intros He Hc. destruct e as [conn hash now|conn hash tables fn now|conn hash tables fn ctx now|table|conn|f];
    cbn in He |- *; subst.
  - unfold touch_lru. destruct (buckets c !! conn) as [b|] eqn:E; [|done].
    apply map_Forall_insert_2; [|done]. apply (Hc conn b E).
  - by apply store_handle_indexed.
  - by apply (store_handle_indexed conn hash fn now c).
  - unfold prepared_invalidate_table. destruct (cross_conn_share c) as [s|]; [destruct (invalidate_shared _ s)|];
      cbn; (intros k b'; cbn; rewrite lookup_fmap_Some; intros (b & <- & Hb);
        apply invalidate_bucket_indexed; by apply (Hc k)).
  - unfold invalidate_conn. destruct (buckets c !! conn); [|done]. cbn. by apply map_Forall_delete.
  - done.
Qed.

Lemma prepared_run_indexed es c : Forall stored_by_tables es -> all_indexed c -> all_indexed (prepared_run es c).
Proof.
  revert c. induction es as [|e es IH]; intros c; [by intros|].
  intros [He Hes]%Forall_cons Hc. apply IH; [done|]. by apply prepared_step_indexed.
Qed.

(** A handle of the buckets after the invalidation was not stored with the table. *)
Lemma invalidated_buckets c table conn hash fn : all_indexed c ->
  lookup_handle conn hash (snd (prepared_invalidate_table table c)) = Some fn -> table ∉ tables_of fn.
Proof.
  intros Hc. unfold lookup_handle, prepared_invalidate_table.
  destruct (match cross_conn_share c with Some s => _ | None => _ end) as [n s]; cbn. rewrite lookup_fmap.
  destruct (buckets c !! conn) as [b|] eqn:Hb; [|done]. cbn. intros Hh.
  apply (invalidate_bucket_gone table b hash); [by apply (Hc conn)|done].
Qed.

(** A hash not indexed under the table keeps its handle. *)
Lemma invalidated_keeps c table conn hash b : buckets c !! conn = Some b ->
  hash ∉ default [] (table_index b !! table) ->
  lookup_handle conn hash (snd (prepared_invalidate_table table c)) = entries b !! hash.
Proof.
  intros Hb Hn. unfold lookup_handle, prepared_invalidate_table.
  destruct (match cross_conn_share c with Some s => _ | None => _ end) as [n s]; cbn. rewrite lookup_fmap, Hb. cbn.
  unfold invalidate_bucket. destruct (table_index b !! table) as [l|]; [|done].
  destruct (drop_hashes_spec l (mkBucket (entries b) (lru b) (delete table (table_index b)))) as [_ Hh].
  rewrite (proj1 (Hh hash)). by rewrite decide_False.
Qed.

(** The plans still shared are those of the hashes no bucket has under the table. *)
Lemma invalidate_shared_plans hashes s hash e :
  shared_plans (snd (invalidate_shared hashes s)) !! hash = Some e -> shared_plans s !! hash = Some e /\ hash ∉ hashes.
Proof.
  revert s. induction hashes as [|h hashes IH]; intros s; [split; [done|apply not_elem_of_nil]|].
  cbn [invalidate_shared invalidate_by_fingerprint]. specialize (IH (mkShare (delete h (shared_plans s)) (shared_hits s) (context_mismatches s))).
  destruct (invalidate_shared hashes _) as [n s']. cbn. intros (Hl & Hn)%IH. cbn in Hl.
  apply lookup_delete_Some in Hl as [Hne Hl]. split; [done|]. by intros [->|?]%elem_of_cons.
Qed.

Lemma invalidated_share c table : cross_conn_share (snd (prepared_invalidate_table table c)) =
  (fun s => snd (invalidate_shared (invalidated_hashes table c) s)) <$> cross_conn_share c.
Proof.
  unfold prepared_invalidate_table. destruct (cross_conn_share c) as [s|]; [|done]. cbn. by destruct (invalidate_shared _ s).
Qed.

Lemma not_invalidated c table hash : all_indexed c -> hash ∉ invalidated_hashes table c ->
  forall conn fn, lookup_handle conn hash c = Some fn -> table ∉ tables_of fn.
Proof.
  intros Hc Hn conn fn. unfold lookup_handle. destruct (buckets c !! conn) as [b|] eqn:Hb; [|done]. cbn. intros Hf Ht.
  destruct (Hc conn b Hb hash fn table Hf Ht) as (l & El & Hl). apply Hn. unfold invalidated_hashes.
  apply list_elem_of_In, in_concat. exists l. rewrite <- !list_elem_of_In. split; [|done].
  apply list_elem_of_fmap. exists (conn, b). split; [cbn; by rewrite El|by apply elem_of_map_to_list].
Qed.

(** An execution that returns the handle it was given. *)
Definition report {W E} (fn : H) (params : list Value) : Eff W (result H E) := eret (Ok fn).

Lemma get_or_prepare_handle {W E} `{Clock W} conn hash params c (w : W) fn c' w' :
  get_or_prepare (E := E) report conn hash params c w = ((Ok (Hit fn), c'), w') -> lookup_handle conn hash c = Some fn.
Proof.
  unfold get_or_prepare. destruct (lookup_handle conn hash c) as [f|]; [|by intros]. unfold report, ebind, eret.
  destruct (instant_now w) as [now w1]. intros. by simplify_eq.
Qed.

Lemma get_or_prepare_with_context_handle {W E} `{Clock W} conn hash params ctx c (w : W) fn c' w' :
  get_or_prepare_with_context (E := E) report conn hash params ctx c w = ((Ok (Hit fn), c'), w') ->
  lookup_handle conn hash c = Some fn \/
  exists s e, cross_conn_share c = Some s /\ shared_plans s !! hash = Some e /\ plan_fn e = fn.
Proof.
  unfold get_or_prepare_with_context. destruct (cross_conn_share c) as [s|] eqn:Hs; [|intros Hg; left; exact (get_or_prepare_handle _ _ _ _ _ _ _ _ Hg)].
  unfold get_shared_plan. destruct (shared_plans s !! hash) as [e|] eqn:He; [destruct (check_consistency _ _)|];
    try (intros Hg%get_or_prepare_handle; left; exact Hg).
  unfold report, ebind, eret. intros. simplify_eq. right. by exists s, e.
Qed.


End Tables.

(** * Size of the buckets *)

(** The times are those of the handles, and there are not too many. *)
Definition bucket_ok (max_size : nat) b : Prop :=
  (forall h, is_Some (lru b !! h) <-> is_Some (entries b !! h)) /\ (size (entries b) <= Nat.max 1 max_size)%nat.

Definition all_bucket_ok c : Prop := map_Forall (fun _ b => bucket_ok (max_size_per_conn c) b) (buckets c).

(** No handle disappears between its execution and the update of its time. *)
Fixpoint orderly c (es : list PreparedEvent) : Prop :=
  match es with
  | [] => True
  | e :: es =>
      match e with Touched conn hash _ => is_Some (lookup_handle conn hash c) | _ => True end /\
      orderly (prepared_step c e) es
  end.

Lemma fold_older_time (l : list (Z * Z)) acc :
  match fold_left older l acc with
  | None => acc = None /\ l = []
  | Some r => acc = Some r \/ r ∈ l
  end.
Proof.
  revert acc. induction l as [|x l IH]; intros acc; cbn [fold_left].
  { destruct acc; [by left|done]. }
  specialize (IH (older acc x)). destruct (fold_left older l (older acc x)) as [r|].
  - destruct IH as [E|Hr]; [|right; apply elem_of_cons; by right].
    destruct acc as [a|]; cbn in E; [case_match|]; simplify_eq; [right|by left|right]; apply elem_of_cons; by left.
  - destruct IH as [E _]. destruct acc as [a|]; cbn in E; [case_match|]; done.
Qed.

Lemma find_lru_key_spec b :
  match find_lru_key b with Some h => is_Some (lru b !! h) | None => lru b = ∅ end.
Proof.
  unfold find_lru_key. pose proof (fold_older_time (map_to_list (lru b)) None) as Hf.
  destruct (fold_left older (map_to_list (lru b)) None) as [[h t]|]; cbn.
  - destruct Hf as [|Hin]; [done|]. apply elem_of_map_to_list in Hin. by exists t.
  - destruct Hf as [_ Hf]. by apply map_to_list_empty_iff.
Qed.

(** After [make_room] the handle to store fits. *)
Lemma make_room_ok max_size hash b :
  bucket_ok max_size b ->
  let b' := fst (make_room max_size hash b) in
  bucket_ok max_size b' /\
  (is_Some (entries b' !! hash) \/ (size (entries b') < Nat.max 1 max_size)%nat).
Proof.
  intros [Hd Hs]. unfold make_room. destruct (entries b !! hash) as [fn|] eqn:Hh; cbn [is_some negb].
  { rewrite andb_false_r. cbn [fst]. split; [done|]. left. by rewrite Hh. }
  rewrite andb_true_r. destruct (Nat.leb_spec max_size (size (entries b))) as [Hle|Hlt]; cbn [fst].
  2: { split; [done|]. right. lia. }
  pose proof (find_lru_key_spec b) as Hk. destruct (find_lru_key b) as [k|]; cbn [fst].
  - destruct (proj1 (Hd k) Hk) as [fn Hfn].
    assert (Hsz : size (delete k (entries b)) = pred (size (entries b))) by (rewrite map_size_delete; by rewrite Hfn).
    assert (size (entries b) <> 0%nat) by (intros E; apply map_size_empty_inv in E; rewrite E in Hfn; by rewrite lookup_empty in Hfn).
    split; [split|].
    + intros h. cbn. destruct (decide (h = k)) as [->|Hne]; [by rewrite !lookup_delete_eq|].
      rewrite !lookup_delete_ne by done. apply Hd.
    + cbn. lia.
    + right. cbn. lia.
  - split; [done|]. right. enough (entries b = ∅) as -> by (rewrite map_size_empty; lia).
    apply map_empty. intros h. apply eq_None_not_Some. intros Hf. apply Hd in Hf as [t Ht].
    rewrite Hk, lookup_empty in Ht. done.
Qed.

Lemma store_handle_ok conn hash tables fn now c :
  all_bucket_ok c -> all_bucket_ok (store_handle conn hash tables fn now c).
Proof.
  intros Hc. unfold store_handle.
  assert (Hb : bucket_ok (max_size_per_conn c) (default bucket_new (buckets c !! conn))).
  { destruct (buckets c !! conn) as [b|] eqn:E; cbn [default]; [by apply (Hc conn)|]. split.
    - intros h. cbn. rewrite !lookup_empty. by split; intros [].
    - cbn. rewrite map_size_empty. lia. }
  apply (make_room_ok _ hash) in Hb. destruct (make_room _ _ _) as [b ev]. cbn [fst] in Hb.
  destruct Hb as [[Hd Hs] Hroom].
  assert (Hok : bucket_ok (max_size_per_conn c) (insert_handle hash tables fn now b)).
  { split.
    - intros h. cbn. destruct (decide (h = hash)) as [->|Hne]; [by rewrite !lookup_insert_eq|].
      rewrite !lookup_insert_ne by done. apply Hd.
    - cbn. rewrite map_size_insert. destruct (entries b !! hash); [done|].
      destruct Hroom as [[? ?]|]; [done|lia]. }
  destruct ev; (intros k b'; cbn; rewrite lookup_insert_Some; intros [[<- <-]|[_ Hk]]; [done|by apply (Hc k)]).
Qed.

Lemma invalidate_bucket_ok max_size table b :
  bucket_ok max_size b -> bucket_ok max_size (invalidate_bucket table b).
Proof.
  intros [Hd Hs]. unfold invalidate_bucket. destruct (table_index b !! table) as [l|]; [|done].
  destruct (drop_hashes_spec l (mkBucket (entries b) (lru b) (delete table (table_index b)))) as [_ Hh].
  split.
  - intros h. destruct (Hh h) as [-> ->]. cbn [entries lru]. case_decide; [done|apply Hd].
  - etrans; [|exact Hs]. apply map_subseteq_size, map_subseteq_spec. intros h fn.
    destruct (Hh h) as [-> _]. cbn [entries]. by case_decide.
Qed.

Lemma prepared_step_ok c e : orderly c [e] -> all_bucket_ok c -> all_bucket_ok (prepared_step c e).
Proof.
  intros [He _] Hc. destruct e as [conn hash now|conn hash tables fn now|conn hash tables fn ctx now|table|conn|f];
    cbn in He |- *.
  - unfold touch_lru, lookup_handle in *. destruct (buckets c !! conn) as [b|] eqn:E; [|done]. cbn in He.
    destruct (Hc conn b E) as [Hd Hs]. intros k b'. cbn. rewrite lookup_insert_Some.
    intros [[<- <-]|[_ Hk]]; [|by apply (Hc k)]. split; [|done]. intros h. cbn.
    destruct (decide (h = hash)) as [->|Hne]; [|rewrite lookup_insert_ne by done; apply Hd].
    by rewrite lookup_insert_eq.
  - by apply store_handle_ok.
  - by apply (store_handle_ok conn hash tables fn now c).
  - unfold prepared_invalidate_table. destruct (cross_conn_share c) as [s|]; [destruct (invalidate_shared _ s)|];
      cbn; (intros k b'; cbn; rewrite lookup_fmap_Some; intros (b & <- & Hb);
        apply invalidate_bucket_ok; by apply (Hc k)).
  - unfold invalidate_conn. destruct (buckets c !! conn); [|done]. cbn. by apply map_Forall_delete.
  - done.
Qed.

(** While no handle disappears between its execution and the update of its time, a bucket holds
    at most [max(1, max_size_per_conn)] handles. *)
Lemma prepared_cache_bounded max_size es conn b :
  orderly (prepared_new max_size) es ->
  buckets (prepared_run es (prepared_new max_size)) !! conn = Some b -> (size (entries b) <= Nat.max 1 max_size)%nat.
Proof.
  intros Hes Hb.
  enough (Hok : all_bucket_ok (prepared_run es (prepared_new max_size)) /\
                max_size_per_conn (prepared_run es (prepared_new max_size)) = max_size).
  { destruct Hok as [Hok Hm]. rewrite <- Hm. by apply (Hok conn). }
  assert (Hc : all_bucket_ok (prepared_new max_size) /\ max_size_per_conn (prepared_new max_size) = max_size).
  { split; [apply map_Forall_empty|done]. }
  clear Hb. revert Hc Hes. generalize (prepared_new max_size). induction es as [|e es IH]; intros c Hc; [done|].
  intros [He Hes].
  apply IH; [|done]. destruct Hc as [Hc <-]. split; [by apply prepared_step_ok; [split|]|].
  destruct e as [conn' h now| | | |conn' |]; cbn [prepared_step]; try done.
  - unfold touch_lru. by destruct (buckets c !! conn').
  - unfold store_handle. destruct (make_room _ _ _) as [? []]; done.
  - unfold store_handle_with_context, store_handle. destruct (make_room _ _ _) as [? []]; done.
  - unfold prepared_invalidate_table. destruct (cross_conn_share c) as [s|]; [destruct (invalidate_shared _ s)|]; done.
  - unfold invalidate_conn. by destruct (buckets c !! conn').
Qed.
End PreparedCache.
Arguments Hit {Rows} rows.
Arguments Miss {Rows}.

(** ** What escapes

    The time of a handle updated after its eviction stays behind without a handle; the next
    eviction removes that and not a handle, and the bucket exceeds its size for good. *)
Lemma late_touch_exceeds_size :
  size (entries (default bucket_new (buckets (prepared_run
    [Stored 7 10 [] "a" 1; Stored 7 20 [] "b" 2; Touched 7 10 3; Stored 7 30 [] "c" 4; Stored 7 40 [] "d" 5]
    (prepared_new 1)) !! 7%Z))) = 2%nat.
Proof. vm_compute. reflexivity. Qed.

(** A shared plan is dropped with its table only through a bucket that still has the statement:
    once the connection that stored it is closed, [invalidate_table] leaves it to be executed. *)
Lemma shared_plan_survives_invalidation :
  let c := prepared_run [StoredWith 7 10 ["users"] "a" default_context 1; ConnInvalidated 7; TableInvalidated "users"]
             (new_with_cross_share 256) in
  fst (get_shared_plan 10 default_context (default share_new (cross_conn_share c))) = Some "a".
Proof. vm_compute. reflexivity. Qed.

(** A statement stored twice is counted twice by the invalidation of its table. *)
Lemma invalidation_counts_twice :
  fst (prepared_invalidate_table "users"
    (prepared_run [Stored 7 10 ["users"] "a" 1; Stored 7 10 ["users"] "a" 2] (prepared_new 256))) = 2%nat.
Proof. vm_compute. reflexivity. Qed.

