(* ===== verification/Pool.v ===== *)
(** The connection pool: [packages/sz-orm-core/src/pool.rs] with the default features.  A task
    that uses the pool is a program point; [advance] is what it does up to its next operation on
    the shared state or its next await, so that runs interleave tasks at every atomic
    operation. *)

From Stdlib Require Import String.
From S2P Require Import Prelude SqlText Value PreparedCache.
Local Open Scope string_scope.
Local Open Scope Z_scope.

(** * Configuration *)

(** Times are in nanoseconds. *)
Record PoolConfig : Type := mkConfig {
  max_size : Z;
  min_idle : Z;
  acquire_timeout : Z;
  idle_timeout : Z;
  max_lifetime : Z;
  connection_timeout : Z;
  test_before_acquire : bool;
  prewarm : bool;
}.

Definition secs (n : Z) : Z := n * 10 ^ 9.

Definition default_config : PoolConfig :=
  mkConfig 100 0 (secs 30) (secs 600) (secs 1800) (secs 10) false false.

(** The message of the driver in [ConnectionFailed] is left out, and [InvalidConfig] names the
    duration instead of printing it. *)
Inductive PoolError : Type :=
| Exhausted
| Timeout
| AlreadyAcquired
| NotAcquired
| InvalidConfig (why : string)
| Internal (message : string)
| Closed
| ConnectionFailed
| CircuitOpen
| RateLimited (remaining reset_at : Z).

Definition MAX_DURATION_SECS : Z := 2 ^ 32 - 1.

(** [dur.as_secs() > MAX_DURATION_SECS] for one of the named durations. *)
Fixpoint check_durations (ds : list (string * Z)) : result unit PoolError :=
  match ds with
  | [] => Ok tt
  | (name, dur) :: ds =>
      if MAX_DURATION_SECS <? dur / 10 ^ 9 then Err (InvalidConfig name) else check_durations ds
  end.

Definition validate (cfg : PoolConfig) : result unit PoolError :=
  if max_size cfg =? 0 then Err (InvalidConfig "max_size cannot be 0")
  else if max_size cfg <? min_idle cfg then Err (InvalidConfig "min_idle cannot exceed max_size")
  else check_durations [("acquire_timeout", acquire_timeout cfg); ("idle_timeout", idle_timeout cfg);
                        ("max_lifetime", max_lifetime cfg); ("connection_timeout", connection_timeout cfg)].

(** * Connections and the queue *)

(** A [PooledConnection].  [physical] is which connection of the driver it holds, a name the
    program does not have; [armed] is whether its [pool] field is [Some]. *)
Record Conn : Type := mkConn {
  physical : nat;
  created_at : Z;
  last_used_at : Z;
  armed : bool;
  known_good : bool;
  conn_id : Z;
}.

#[export] Instance Conn_eq_dec : EqDecision Conn.
Proof. solve_decision. Defined.

Definition set_armed (a : bool) (c : Conn) : Conn :=
  mkConn (physical c) (created_at c) (last_used_at c) a (known_good c) (conn_id c).
Definition set_known_good (g : bool) (c : Conn) : Conn :=
  mkConn (physical c) (created_at c) (last_used_at c) (armed c) g (conn_id c).
Definition set_last_used (now : Z) (c : Conn) : Conn :=
  mkConn (physical c) (created_at c) now (armed c) (known_good c) (conn_id c).

(** [elapsed] saturates at zero. *)
Definition elapsed (now since : Z) : Z := Z.max 0 (now - since).
Definition is_expired (cfg : PoolConfig) (now : Z) (c : Conn) : bool := max_lifetime cfg <=? elapsed now (created_at c).
Definition is_idle_too_long (cfg : PoolConfig) (now : Z) (c : Conn) : bool :=
  idle_timeout cfg <=? elapsed now (last_used_at c).

(** What the pool relies on of [crossbeam_queue::ArrayQueue]: a bounded queue, first in first
    out, that gives a value back when it is full. *)
Class ArrayQueue (Q : Type) := {
  queue_new : nat -> Q;
  queue_push : Conn -> Q -> option Conn * Q;
  queue_pop : Q -> option Conn * Q;
  queued : Q -> list Conn;
  queue_capacity : Q -> nat;
  queue_new_spec : forall n, queued (queue_new n) = [] /\ queue_capacity (queue_new n) = n;
  queue_push_spec : forall c q, queue_capacity (snd (queue_push c q)) = queue_capacity q /\
    if (length (queued q) <? queue_capacity q)%nat
    then fst (queue_push c q) = None /\ queued (snd (queue_push c q)) = (queued q ++ [c])%list
    else fst (queue_push c q) = Some c /\ queued (snd (queue_push c q)) = queued q;
  queue_pop_spec : forall q, queue_capacity (snd (queue_pop q)) = queue_capacity q /\
    fst (queue_pop q) = head (queued q) /\ queued (snd (queue_pop q)) = tail (queued q);
}.

(** A queue for the closed instances of the theorems. *)
#[export] Instance list_queue : ArrayQueue (nat * list Conn).
Proof.
  refine {|
    queue_new n := (n, []);
    queue_push c q := if (length q.2 <? q.1)%nat then (None, (q.1, (q.2 ++ [c])%list)) else (Some c, q);
    queue_pop q := (head q.2, (q.1, tail q.2));
    queued q := q.2;
    queue_capacity q := q.1;
  |}; [done| |done].
  intros c q. by destruct (length q.2 <? q.1)%nat.
Defined.

(** * The shared state *)

Inductive PoolEvent : Type :=
| ConnectionCreated
| ConnectionClosed
| ConnectionReleased
| ConnectionAcquired
| AcquireTimeout.

Record PoolMetrics : Type := mkMetrics {
  acquire_count : Z;
  acquire_failed_count : Z;
  acquire_wait_time : Z;
  release_count : Z;
  connection_created_count : Z;
  connection_closed_count : Z;
  (* [FastPathStats] *)
  fast_acquires : Z;
  fast_releases : Z;
  cache_misses : Z;
}.

Definition metrics_new : PoolMetrics := mkMetrics 0 0 0 0 0 0 0 0 0.

Inductive Metric : Type :=
| MAcquire | MAcquireFailed | MWait (ns : Z) | MRelease | MCreated | MClosed
| MFastAcquire | MFastRelease | MCacheMiss.

Definition count (k : Metric) (m : PoolMetrics) : PoolMetrics :=
  let 'mkMetrics a f w r cr cl fa fr cm := m in
  match k with
  | MAcquire => mkMetrics (wrap64 (a + 1)) f w r cr cl fa fr cm
  | MAcquireFailed => mkMetrics a (wrap64 (f + 1)) w r cr cl fa fr cm
  | MWait ns => mkMetrics a f (wrap64 (w + ns)) r cr cl fa fr cm
  | MRelease => mkMetrics a f w (wrap64 (r + 1)) cr cl fa fr cm
  | MCreated => mkMetrics a f w r (wrap64 (cr + 1)) cl fa fr cm
  | MClosed => mkMetrics a f w r cr (wrap64 (cl + 1)) fa fr cm
  | MFastAcquire => mkMetrics a f w r cr cl (wrap64 (fa + 1)) fr cm
  | MFastRelease => mkMetrics a f w r cr cl fa (wrap64 (fr + 1)) cm
  | MCacheMiss => mkMetrics a f w r cr cl fa fr (wrap64 (cm + 1))
  end.

(** [NEXT_POOLED_CONN_ID] is [next_conn_id].  The program does not keep the last four fields:
    [log] lists the pool events and the notifications, [next_physical] names the connections
    the factory makes, [gone] lists those that were closed, dropped or lost, and [leaked] counts
    the slots of [total_count] nobody will give back. *)
Inductive Logged : Type := Emitted (e : PoolEvent) | NotifyOne | NotifyWaiters.

Record Shared (Q H : Type) : Type := mkShared {
  idle : Q;
  total_count : Z;
  closed : bool;
  waiters_count : Z;
  dynamic_max_size : Z;
  next_conn_id : Z;
  metrics : PoolMetrics;
  prepared_cache : option (PreparedStatementCache (H := H));
  log : list Logged;
  next_physical : nat;
  gone : list nat;
  leaked : nat;
}.
Arguments mkShared {Q H}.
Arguments idle {Q H}.
Arguments total_count {Q H}.
Arguments closed {Q H}.
Arguments waiters_count {Q H}.
Arguments dynamic_max_size {Q H}.
Arguments next_conn_id {Q H}.
Arguments metrics {Q H}.
Arguments prepared_cache {Q H}.
Arguments log {Q H}.
Arguments next_physical {Q H}.
Arguments gone {Q H}.
Arguments leaked {Q H}.

(** * Program points *)

(** The state of a call of [acquire]: the deadline once it had to wait, the next pause, and in a
    call of [acquire_batch] how many connections are still wanted after this one and those it
    has. *)
Record Acquiring : Type := mkAcquiring {
  deadline : option Z;
  backoff : Z;
  batch : option (nat * list Conn);
}.

(** The state of a call of [progressive_prewarm], with what it has put into its
    [PrewarmProgress]. *)
Record Progressive : Type := mkProgressive {
  pr_batch : Z; pr_interval : Z; pr_timeout : Z; pr_start : Z;
  pr_warmed_total : Z;
  pr_warmed : Z; pr_failed : Z; pr_elapsed : Z; pr_completed : bool;
}.

(** [k] is where a task goes on. *)
Inductive Point : Type :=
| Done (r : result Z PoolError)
| Lent (cs : list Conn)
| Raw (p : nat)
| Progressed (pr : Progressive)
| Panicked
| Cancelled
(* shared pieces *)
| FetchSub (n : nat) (e : option PoolEvent) (k : Point)
| NotifyWaiter (k : Point)
| CloseConn (c : Conn) (k : Point)
| ClosingConn (c : Conn) (k : Point)
| CloseEach (cs : list Conn) (k : Point)
| DropEach (cs : list Conn) (k : Point)
| DropPush (c : Conn) (cs : list Conn) (k : Point)
(* acquire, acquire_batch *)
| AcqEnter (b : option (nat * list Conn))
| AcqLoop (a : Acquiring)
| AcqScan (a : Acquiring) (to_close : list Conn)
| AcqTook (a : Acquiring) (acquired : option Conn)
| AcqPing (a : Acquiring) (c : Conn)
| AcqReserve (a : Acquiring) (current_max : Z)
| AcqReserved (a : Acquiring)
| AcqCreate (a : Acquiring)
| AcqWait (a : Acquiring)
| AcqParked (a : Acquiring) (wait : Z)
(* release *)
| RelEnter (c : Conn)
| RelTx (c : Conn)
| RelRollback (c : Conn)
| RelReset (c : Conn)
| RelResetting (c : Conn)
| RelPush (c : Conn)
(* return_raw *)
| RawEnter (p : nat)
| RawTx (p : nat)
| RawRollback (p : nat)
| RawReset (p : nat)
| RawResetting (p : nat)
| RawMax (p : nat)
| RawReserve (p : nat) (current_max : Z)
| RawPush (p : nat)
| RawClose (p : nat) (e : PoolError)
(* reap_idle *)
| ReapScan (to_close : list Conn)
| ReapPush (c : Conn) (to_close : list Conn)
(* close_all, shutdown_with_timeout *)
| CloseAll (k : Point)
| CloseScan (to_close : list Conn) (k : Point)
| CloseIdle (to_close : list Conn) (n : nat) (k : Point)
| ShutEnter (timeout : Z)
| ShutDeadline (timeout : Z)
| ShutWait (deadline : Z)
| ShutSleep (deadline : Z)
(* health_check *)
| HealthScan (to_check : list Conn)
| HealthEach (to_check alive : list Conn) (removed : nat)
| HealthPing (c : Conn) (to_check alive : list Conn) (removed : nat)
| HealthPush (alive : list Conn) (removed alive_count : nat)
| HealthSub (removed alive_count : nat)
| HealthNotify (removed alive_count : nat)
(* warmup, prewarm, progressive_prewarm *)
| WarmTop (n : nat)
| WarmLoad (n : nat) (current_max : Z)
| WarmCas (n : nat) (current : Z)
| WarmCreate (n : nat)
| WarmPush (n : nat) (c : Conn)
| WarmSub (n : nat)
| PrewTop (n : nat)
| PrewMax (n : nat)
| PrewLoad (n : nat) (current_max : Z)
| PrewReserve (n : nat) (current_max : Z)
| PrewCreate (n : nat)
| PrewPush (n : nat) (c : Conn)
| ProgTop (pr : Progressive)
| ProgMax (n : nat) (pr : Progressive)
| ProgLoad (n : nat) (current_max : Z) (pr : Progressive)
| ProgReserve (n : nat) (current_max : Z) (pr : Progressive)
| ProgCreate (n : nat) (pr : Progressive)
| ProgPush (n : nat) (c : Conn) (pr : Progressive)
| ProgSleep (pr : Progressive).

(** What is outside the pool answers a step: nothing is asked ([Tick]); [is_connected],
    [in_transaction] or [session_reset_sql().is_some()] ([Says]); an awaited call returned, with
    success or not, or its timeout elapsed ([Awaited]; the result of [close] does not matter); a
    [PooledConnection] is dropped, inside a runtime or not ([Dropped]). *)
Inductive Answer : Type :=
| Tick
| Says (b : bool)
| Awaited (r : option bool)
| Dropped (in_transaction needs_reset runtime : bool).

Section Pool.
Context {Q H : Type} `{ArrayQueue Q}.
Implicit Types (sh : Shared Q H) (c : Conn) (a : Acquiring).

(** ** Operations on the shared state *)

Definition with_idle (q : Q) sh : Shared Q H :=
  mkShared q (total_count sh) (closed sh) (waiters_count sh) (dynamic_max_size sh) (next_conn_id sh)
    (metrics sh) (prepared_cache sh) (log sh) (next_physical sh) (gone sh) (leaked sh).
Definition with_total (t : Z) sh : Shared Q H :=
  mkShared (idle sh) t (closed sh) (waiters_count sh) (dynamic_max_size sh) (next_conn_id sh)
    (metrics sh) (prepared_cache sh) (log sh) (next_physical sh) (gone sh) (leaked sh).
Definition with_closed (b : bool) sh : Shared Q H :=
  mkShared (idle sh) (total_count sh) b (waiters_count sh) (dynamic_max_size sh) (next_conn_id sh)
    (metrics sh) (prepared_cache sh) (log sh) (next_physical sh) (gone sh) (leaked sh).
Definition with_waiters (w : Z) sh : Shared Q H :=
  mkShared (idle sh) (total_count sh) (closed sh) w (dynamic_max_size sh) (next_conn_id sh)
    (metrics sh) (prepared_cache sh) (log sh) (next_physical sh) (gone sh) (leaked sh).
Definition with_max (m : Z) sh : Shared Q H :=
  mkShared (idle sh) (total_count sh) (closed sh) (waiters_count sh) m (next_conn_id sh)
    (metrics sh) (prepared_cache sh) (log sh) (next_physical sh) (gone sh) (leaked sh).
Definition counted (k : Metric) sh : Shared Q H :=
  mkShared (idle sh) (total_count sh) (closed sh) (waiters_count sh) (dynamic_max_size sh) (next_conn_id sh)
    (count k (metrics sh)) (prepared_cache sh) (log sh) (next_physical sh) (gone sh) (leaked sh).
Definition with_cache (pc : option PreparedStatementCache) sh : Shared Q H :=
  mkShared (idle sh) (total_count sh) (closed sh) (waiters_count sh) (dynamic_max_size sh) (next_conn_id sh)
    (metrics sh) pc (log sh) (next_physical sh) (gone sh) (leaked sh).
Definition logged (l : Logged) sh : Shared Q H :=
  mkShared (idle sh) (total_count sh) (closed sh) (waiters_count sh) (dynamic_max_size sh) (next_conn_id sh)
    (metrics sh) (prepared_cache sh) (log sh ++ [l]) (next_physical sh) (gone sh) (leaked sh).
Definition lose (ps : list nat) sh : Shared Q H :=
  mkShared (idle sh) (total_count sh) (closed sh) (waiters_count sh) (dynamic_max_size sh) (next_conn_id sh)
    (metrics sh) (prepared_cache sh) (log sh) (next_physical sh) (ps ++ gone sh) (leaked sh).
Definition leak (n : nat) sh : Shared Q H :=
  mkShared (idle sh) (total_count sh) (closed sh) (waiters_count sh) (dynamic_max_size sh) (next_conn_id sh)
    (metrics sh) (prepared_cache sh) (log sh) (next_physical sh) (gone sh) (n + leaked sh).

Definition pool_new (cfg : PoolConfig) (pc : option PreparedStatementCache) : result (Shared Q H) PoolError :=
  match validate cfg with
  | Ok _ => Ok (mkShared (queue_new (Z.to_nat (max_size cfg))) 0 false 0 (max_size cfg) 1 metrics_new pc [] 0 [] 0)
  | Err e => Err e
  end.

(** [fetch_sub] and [fetch_add] of [u32] wrap. *)
Definition fetch_sub (n : nat) sh : Shared Q H := with_total (wrap32 (total_count sh - Z.of_nat n)) sh.

Definition set_max_size (new_max : Z) sh : Shared Q H := with_max new_max sh.
Definition resize (new_max : Z) sh : Shared Q H := set_max_size (wrap32 new_max) sh.

Definition emit_event (e : PoolEvent) sh : Shared Q H :=
  let sh := match e with ConnectionCreated => counted MCreated sh | _ => sh end in
  logged (Emitted e) sh.

(** The loop around [compare_exchange]: its exchange succeeds when nobody changed the count since
    it was read, so it decides on the count of one moment.  [None]: the limit is reached. *)
Definition reserve (current_max : Z) sh : option (Shared Q H) :=
  if current_max <=? total_count sh then None else Some (with_total (total_count sh + 1) sh).

(** [PooledConnection::new]; a global counter names the connections. *)
Definition pooled_new (p : nat) (now : Z) (arm : bool) sh : Conn * Shared Q H :=
  (mkConn p now now arm false (next_conn_id sh),
   mkShared (idle sh) (total_count sh) (closed sh) (waiters_count sh) (dynamic_max_size sh)
     (wrap64 (next_conn_id sh + 1)) (metrics sh) (prepared_cache sh) (log sh) (next_physical sh) (gone sh) (leaked sh)).

(** [factory.create()] succeeded: a connection that did not exist before. *)
Definition created (sh : Shared Q H) : nat * Shared Q H :=
  (next_physical sh,
   mkShared (idle sh) (total_count sh) (closed sh) (waiters_count sh) (dynamic_max_size sh) (next_conn_id sh)
     (metrics sh) (prepared_cache sh) (log sh) (S (next_physical sh)) (gone sh) (leaked sh)).

Definition pop (sh : Shared Q H) : option Conn * Shared Q H :=
  let '(o, q) := queue_pop (idle sh) in (o, with_idle q sh).
Definition push c sh : option Conn * Shared Q H :=
  let '(o, q) := queue_push c (idle sh) in (o, with_idle q sh).

(** [close_connection] up to the await of [close]. *)
Definition begin_close c sh : Shared Q H :=
  with_cache (match prepared_cache sh with
              | Some pc => Some (snd (invalidate_conn (conn_id c) pc))
              | None => None
              end) sh.

Record PoolStatus : Type := mkStatus { st_idle : Z; st_active : Z; st_max : Z; st_min : Z; st_waiters : Z }.

Definition status (cfg : PoolConfig) sh : PoolStatus :=
  mkStatus (wrap32 (Z.of_nat (length (queued (idle sh))))) (total_count sh) (dynamic_max_size sh) (min_idle cfg) (waiters_count sh).

(** ** Steps

    Each definition is one method; [None] is an answer that does not fit the point.  A step gives
    the next point and the tasks it spawned. *)

Definition Stepped : Type := option (Shared Q H * Point * list Point).

Definition goes sh (p : Point) : Stepped := Some (sh, p, []).

Definition finished : Point := Done (Ok 0).

(** [PooledConnection::drop] and the pieces the methods share. *)
Definition advance_shared (now : Z) (ans : Answer) (pt : Point) sh : Stepped :=
  match pt, ans with
  | FetchSub n e k, Tick =>
      let sh := fetch_sub n sh in
      goes (match e with Some e => emit_event e sh | None => sh end) k
  | NotifyWaiter k, Tick => goes (if 0 <? waiters_count sh then logged NotifyOne sh else sh) k
  | CloseConn c k, Tick => goes (begin_close c sh) (ClosingConn (set_armed false c) k)
  | ClosingConn c k, Awaited _ => goes (counted MClosed (lose [physical c] sh)) k
  | CloseEach [] k, Tick => goes sh k
  | CloseEach (c :: cs) k, Tick => goes sh (CloseConn c (FetchSub 1 None (CloseEach cs k)))
  | DropEach [] k, Tick => goes sh k
  | DropEach (c :: cs) k, Dropped in_transaction needs_reset runtime =>
      if armed c then
        let pooled := set_known_good true (set_armed false c) in
        if closed sh || in_transaction || needs_reset then
          if (runtime : bool) then Some (sh, DropEach cs k, [RelEnter pooled])
          else goes (lose [physical c] sh) (FetchSub 1 None (DropEach cs k))
        else goes sh (DropPush (set_last_used now pooled) cs k)
      else goes (leak 1 (lose [physical c] sh)) (DropEach cs k)
  | DropPush c cs k, Tick =>
      let sh := counted MRelease (counted MFastRelease sh) in
      match push c sh with
      | (Some rejected, sh) =>
          goes (counted MClosed (lose [physical rejected] sh))
            (FetchSub 1 (Some ConnectionClosed) (NotifyWaiter (DropEach cs k)))
      | (None, sh) => goes (emit_event ConnectionReleased sh) (NotifyWaiter (DropEach cs k))
      end
  | _, _ => None
  end.

(** The end of [acquire], or of one turn of [acquire_batch]. *)
Definition deliver (b : option (nat * list Conn)) c : Point :=
  match b with
  | None => Lent [c]
  | Some (O, got) => Lent (got ++ [c])
  | Some (S n, got) => AcqEnter (Some (n, got ++ [c])%list)
  end.

Definition got (b : option (nat * list Conn)) : list Conn :=
  match b with Some (_, cs) => cs | None => [] end.

Definition fail (b : option (nat * list Conn)) (e : PoolError) : Point := DropEach (got b) (Done (Err e)).

Definition MAX_BACKOFF : Z := 100 * 10 ^ 6.

Definition ping_idle_threshold : Z := secs 30.

Definition hand_out c : Conn := set_known_good false (set_armed true c).

Definition advance_acquire (cfg : PoolConfig) (now : Z) (ans : Answer) (pt : Point) sh : Stepped :=
  match pt, ans with
  | AcqEnter b, Tick =>
      let sh := counted MFastAcquire sh in
      if closed sh then goes (counted MAcquireFailed sh) (fail b Closed)
      else goes sh (AcqLoop (mkAcquiring None (10 ^ 6) b))
  | AcqLoop a, Tick =>
      if closed sh then goes (counted MAcquireFailed sh) (fail (batch a) Closed)
      else goes sh (AcqScan a [])
  | AcqScan a to_close, Says is_connected =>
      match pop sh with
      | (Some c, sh) =>
          if is_expired cfg now c || is_idle_too_long cfg now c || negb is_connected
          then goes sh (AcqScan a (to_close ++ [c]))
          else goes sh (CloseEach to_close (AcqTook a (Some c)))
      | (None, sh) => goes sh (CloseEach to_close (AcqTook a None))
      end
  | AcqTook a (Some c), Tick =>
      if test_before_acquire cfg && (ping_idle_threshold <=? elapsed now (last_used_at c))
      then goes sh (AcqPing a c)
      else goes (counted MAcquire sh) (deliver (batch a) (hand_out c))
  | AcqPing a c, Awaited alive =>
      if default false alive
      then goes (counted MAcquire sh) (deliver (batch a) (hand_out c))
      else goes sh (CloseConn c (FetchSub 1 None (AcqLoop a)))
  | AcqTook a None, Tick => goes (counted MCacheMiss sh) (AcqReserve a (dynamic_max_size sh))
  | AcqReserve a current_max, Tick =>
      match reserve current_max sh with
      | Some sh => goes sh (AcqReserved a)
      | None => goes sh (AcqWait a)
      end
  | AcqReserved a, Tick =>
      if closed sh then goes sh (FetchSub 1 None (fail (batch a) Closed)) else goes sh (AcqCreate a)
  | AcqCreate a, Awaited (Some true) =>
      let sh := emit_event ConnectionAcquired (emit_event ConnectionCreated sh) in
      let '(p, sh) := created (counted MAcquire sh) in
      let '(c, sh) := pooled_new p now true sh in
      goes sh (deliver (batch a) c)
  | AcqCreate a, Awaited (Some false) => goes (fetch_sub 1 (counted MAcquireFailed sh)) (fail (batch a) ConnectionFailed)
  | AcqCreate a, Awaited None => goes (fetch_sub 1 (counted MAcquireFailed sh)) (fail (batch a) Timeout)
  | AcqWait a, Tick =>
      match match deadline a with Some dl => Some dl | None => instant_add now (acquire_timeout cfg) end with
      | None => goes sh (DropEach (got (batch a)) Panicked)
      | Some dl =>
          if dl <=? now then goes (counted MAcquireFailed (emit_event AcquireTimeout sh)) (fail (batch a) Timeout)
          else goes (with_waiters (wrap32 (waiters_count sh + 1)) sh)
                 (AcqParked (mkAcquiring (Some dl) (backoff a) (batch a)) (Z.min (backoff a) (dl - now)))
      end
  | AcqParked a wait, Awaited notified =>
      let backoff' := if is_some notified then 10 ^ 6 else Z.min (backoff a * 2) MAX_BACKOFF in
      goes (counted (MWait wait) (with_waiters (wrap32 (waiters_count sh - 1)) sh))
        (AcqLoop (mkAcquiring (deadline a) backoff' (batch a)))
  | _, _ => None
  end.

(** A connection that is closed instead of being returned. *)
Definition rel_close c : Point := CloseConn c (FetchSub 1 (Some ConnectionClosed) finished).

Definition advance_release (now : Z) (ans : Answer) (pt : Point) sh : Stepped :=
  match pt, ans with
  | RelEnter c, Tick =>
      let sh := counted MRelease (counted MFastRelease sh) in
      let c := set_armed false c in
      if closed sh then goes sh (rel_close c)
      else goes sh (RelTx (set_known_good true (set_last_used now c)))
  | RelTx c, Says in_transaction => goes sh (if (in_transaction : bool) then RelRollback c else RelReset c)
  | RelRollback c, Awaited r => goes sh (if default false r then RelReset c else rel_close c)
  | RelReset c, Says needs_reset => goes sh (if (needs_reset : bool) then RelResetting c else RelPush c)
  | RelResetting c, Awaited r => goes sh (if default false r then RelPush c else rel_close c)
  | RelPush c, Tick =>
      match push c sh with
      | (Some rejected, sh) =>
          goes sh (CloseConn rejected (FetchSub 1 (Some ConnectionClosed) (NotifyWaiter finished)))
      | (None, sh) => goes (emit_event ConnectionReleased sh) (NotifyWaiter finished)
      end
  | _, _ => None
  end.

Definition advance_return_raw (now : Z) (ans : Answer) (pt : Point) sh : Stepped :=
  match pt, ans with
  | RawEnter p, Tick => goes sh (if closed sh then RawClose p Closed else RawTx p)
  | RawTx p, Says in_transaction => goes sh (if (in_transaction : bool) then RawRollback p else RawReset p)
  | RawRollback p, Awaited r => goes sh (if default false r then RawReset p else RawClose p ConnectionFailed)
  | RawReset p, Says needs_reset => goes sh (if (needs_reset : bool) then RawResetting p else RawMax p)
  | RawResetting p, Awaited r => goes sh (if default false r then RawMax p else RawClose p ConnectionFailed)
  | RawMax p, Tick => goes sh (RawReserve p (dynamic_max_size sh))
  | RawReserve p current_max, Tick =>
      match reserve current_max sh with
      | Some sh => goes sh (RawPush p)
      | None => goes sh (RawClose p Exhausted)
      end
  | RawPush p, Tick =>
      let '(c, sh) := pooled_new p now true sh in
      match push c sh with
      | (Some rejected, sh) =>
          goes sh (CloseConn rejected (FetchSub 1 (Some ConnectionClosed) (Done (Err Exhausted))))
      | (None, sh) => goes (emit_event ConnectionReleased sh) (NotifyWaiter finished)
      end
  | RawClose p e, Awaited _ => goes (lose [p] sh) (Done (Err e))
  | _, _ => None
  end.

Definition advance_reap (cfg : PoolConfig) (now : Z) (ans : Answer) (pt : Point) sh : Stepped :=
  match pt, ans with
  | ReapScan to_close, Tick =>
      match pop sh with
      | (Some c, sh) =>
          if is_idle_too_long cfg now c || is_expired cfg now c
          then goes sh (ReapScan (to_close ++ [c]))
          else goes sh (ReapPush c to_close)
      | (None, sh) => goes sh (CloseEach to_close finished)
      end
  | ReapPush c to_close, Tick =>
      match push c sh with
      | (Some rejected, sh) => goes sh (CloseConn rejected (FetchSub 1 None (CloseEach to_close finished)))
      | (None, sh) => goes sh (CloseEach to_close finished)
      end
  | _, _ => None
  end.

Definition advance_close_all (now : Z) (ans : Answer) (pt : Point) sh : Stepped :=
  match pt, ans with
  | CloseAll k, Tick => goes (with_closed true sh) (CloseScan [] k)
  | CloseScan to_close k, Tick =>
      match pop sh with
      | (Some c, sh) => goes sh (CloseScan (to_close ++ [c]) k)
      | (None, sh) => goes sh (CloseIdle to_close 0 k)
      end
  | CloseIdle [] n k, Tick => goes sh (FetchSub n None k)
  | CloseIdle (c :: to_close) n k, Tick => goes sh (CloseConn c (CloseIdle to_close (S n) k))
  | ShutEnter timeout, Tick =>
      if closed sh then goes sh finished
      else goes (logged NotifyWaiters (with_closed true sh)) (CloseAll (ShutDeadline timeout))
  | ShutDeadline timeout, Tick =>
      goes sh (match instant_add now timeout with Some dl => ShutWait dl | None => Panicked end)
  | ShutWait dl, Tick =>
      goes sh (if total_count sh <=? 0 then finished else if dl <=? now then finished else ShutSleep dl)
  | ShutSleep dl, Awaited _ => goes sh (ShutWait dl)
  | _, _ => None
  end.

Definition advance_health_check (ans : Answer) (pt : Point) sh : Stepped :=
  match pt, ans with
  | HealthScan to_check, Tick =>
      match pop sh with
      | (Some c, sh) => goes sh (HealthScan (to_check ++ [c]))
      | (None, sh) => goes sh (HealthEach to_check [] 0)
      end
  | HealthEach [] alive removed, Tick => goes sh (HealthPush alive removed (length alive))
  | HealthEach (c :: to_check) alive removed, Says is_connected =>
      if (is_connected : bool) then goes sh (HealthPing c to_check alive removed)
      else goes sh (CloseConn c (HealthEach to_check alive (S removed)))
  | HealthPing c to_check alive removed, Awaited r =>
      if default false r then goes sh (HealthEach to_check (alive ++ [c]) removed)
      else goes sh (CloseConn c (HealthEach to_check alive (S removed)))
  | HealthPush [] removed alive_count, Tick => goes sh (HealthSub removed alive_count)
  | HealthPush (c :: alive) removed alive_count, Tick =>
      match push c sh with
      | (Some rejected, sh) => goes sh (CloseConn rejected (HealthPush alive (S removed) alive_count))
      | (None, sh) => goes sh (HealthPush alive removed alive_count)
      end
  | HealthSub removed alive_count, Tick =>
      goes (if (0 <? removed)%nat then fetch_sub removed sh else sh) (HealthNotify removed alive_count)
  | HealthNotify removed alive_count, Tick =>
      goes (if (0 <? alive_count)%nat then logged NotifyOne sh else sh) (Done (Ok (Z.of_nat removed)))
  | _, _ => None
  end.

(** Unlike the other callers, [warmup] gives a turn up when its exchange fails. *)
Definition advance_warmup (now : Z) (ans : Answer) (pt : Point) sh : Stepped :=
  match pt, ans with
  | WarmTop O, Tick => goes sh finished
  | WarmTop (S n), Tick => goes sh (WarmLoad n (dynamic_max_size sh))
  | WarmLoad n current_max, Tick =>
      goes sh (if current_max <=? total_count sh then finished else WarmCas n (total_count sh))
  | WarmCas n current, Tick =>
      if total_count sh =? current then goes (with_total (current + 1) sh) (WarmCreate n) else goes sh (WarmTop n)
  | WarmCreate n, Awaited (Some true) =>
      let '(p, sh) := created sh in
      let '(c, sh) := pooled_new p now false sh in
      goes sh (WarmPush n c)
  | WarmCreate n, Awaited (Some false) => goes (fetch_sub 1 sh) finished
  | WarmPush n c, Tick =>
      match push c sh with
      | (Some rejected, sh) => goes sh (CloseConn rejected (WarmSub n))
      | (None, sh) => goes (emit_event ConnectionCreated sh) (WarmTop n)
      end
  | WarmSub n, Tick => goes (fetch_sub 1 sh) (WarmTop n)
  | _, _ => None
  end.

(** A rejected connection is dropped before the count is decreased. *)
Definition advance_prewarm (now : Z) (ans : Answer) (pt : Point) sh : Stepped :=
  match pt, ans with
  | PrewTop O, Tick => goes sh finished
  | PrewTop (S n), Tick => goes sh (if closed sh then finished else PrewMax n)
  | PrewMax n, Tick => goes sh (PrewLoad n (dynamic_max_size sh))
  | PrewLoad n current_max, Tick =>
      goes sh (if current_max <=? total_count sh then finished else PrewReserve n current_max)
  | PrewReserve n current_max, Tick =>
      match reserve current_max sh with
      | Some sh => goes sh (PrewCreate n)
      | None => goes sh (PrewTop n)
      end
  | PrewCreate n, Awaited (Some true) =>
      let '(p, sh) := created (emit_event ConnectionCreated sh) in
      let '(c, sh) := pooled_new p now true sh in
      goes sh (PrewPush n c)
  | PrewCreate n, Awaited _ => goes (fetch_sub 1 sh) (PrewTop n)
  | PrewPush n c, Tick =>
      match push c sh with
      | (Some rejected, sh) => goes sh (DropEach [rejected] (FetchSub 1 None (PrewTop n)))
      | (None, sh) => goes (logged NotifyOne sh) (PrewTop n)
      end
  | _, _ => None
  end.

Definition pr_record_failure (pr : Progressive) : Progressive :=
  let 'mkProgressive b i t s w ok ko el cp := pr in mkProgressive b i t s w ok (wrap32 (ko + 1)) el cp.
Definition pr_record_success (pr : Progressive) : Progressive :=
  let 'mkProgressive b i t s w ok ko el cp := pr in mkProgressive b i t s (wrap32 (w + 1)) (wrap32 (ok + 1)) ko el cp.
Definition pr_finish (now : Z) (pr : Progressive) : Progressive :=
  let 'mkProgressive b i t s w ok ko el cp := pr in mkProgressive b i t s w ok ko (wrap64 (elapsed now s)) true.

Definition prog_after_batch (cfg : PoolConfig) (pr : Progressive) : Point :=
  if (pr_warmed_total pr <? min_idle cfg) && (0 <? pr_interval pr) then ProgSleep pr else ProgTop pr.

Definition advance_progressive (cfg : PoolConfig) (now : Z) (ans : Answer) (pt : Point) sh : Stepped :=
  match pt, ans with
  | ProgTop pr, Tick =>
      goes sh (if (min_idle cfg <=? pr_warmed_total pr) || (pr_timeout pr <=? elapsed now (pr_start pr)) || closed sh
               then Progressed (pr_finish now pr)
               else ProgMax (Z.to_nat (Z.min (pr_batch pr) (min_idle cfg - pr_warmed_total pr))) pr)
  | ProgMax O pr, Tick => goes sh (prog_after_batch cfg pr)
  | ProgMax (S n) pr, Tick => goes sh (ProgLoad n (dynamic_max_size sh) pr)
  | ProgLoad n current_max pr, Tick =>
      goes sh (if current_max <=? total_count sh then prog_after_batch cfg pr else ProgReserve n current_max pr)
  | ProgReserve n current_max pr, Tick =>
      match reserve current_max sh with
      | Some sh => goes sh (ProgCreate n pr)
      | None => goes sh (ProgMax n pr)
      end
  | ProgCreate n pr, Awaited (Some true) =>
      let '(p, sh) := created (emit_event ConnectionCreated sh) in
      let '(c, sh) := pooled_new p now true sh in
      goes sh (ProgPush n c pr)
  | ProgCreate n pr, Awaited _ => goes (fetch_sub 1 sh) (ProgMax n (pr_record_failure pr))
  | ProgPush n c pr, Tick =>
      match push c sh with
      | (Some rejected, sh) => goes sh (DropEach [rejected] (FetchSub 1 None (ProgMax n (pr_record_failure pr))))
      | (None, sh) => goes (logged NotifyOne sh) (ProgMax n (pr_record_success pr))
      end
  | ProgSleep pr, Awaited _ => goes sh (ProgTop pr)
  | _, _ => None
  end.

Definition or_else (o1 o2 : Stepped) : Stepped := match o1 with Some r => Some r | None => o2 end.

Definition advance (cfg : PoolConfig) (now : Z) (ans : Answer) (pt : Point) sh : Stepped :=
  or_else (advance_shared now ans pt sh)
  (or_else (advance_acquire cfg now ans pt sh)
  (or_else (advance_release now ans pt sh)
  (or_else (advance_return_raw now ans pt sh)
  (or_else (advance_reap cfg now ans pt sh)
  (or_else (advance_close_all now ans pt sh)
  (or_else (advance_health_check ans pt sh)
  (or_else (advance_warmup now ans pt sh)
  (or_else (advance_prewarm now ans pt sh)
           (advance_progressive cfg now ans pt sh))))))))).

(** ** What a task holds

    [locals] are the connections its frames own and drop when the task is cancelled, [closing]
    the ones being closed, [raws] the bare connections; [guarded] counts the slots a [SlotGuard]
    gives back and [pending] those a later [fetch_sub] of the task itself would. *)

Fixpoint locals (pt : Point) : list Conn :=
  match pt with
  | Lent cs => cs
  | FetchSub _ _ k | NotifyWaiter k | CloseConn _ k | ClosingConn _ k | CloseAll k => locals k
  | CloseEach cs k | DropEach cs k | CloseScan cs k | CloseIdle cs _ k => cs ++ locals k
  | DropPush c cs k => c :: cs ++ locals k
  | AcqEnter b => got b
  | AcqScan a to_close => to_close ++ got (batch a)
  | AcqTook a o => option_list o ++ got (batch a)
  | AcqPing a c => c :: got (batch a)
  | AcqLoop a | AcqReserve a _ | AcqReserved a | AcqCreate a | AcqWait a | AcqParked a _ => got (batch a)
  | RelEnter c | RelTx c | RelRollback c | RelReset c | RelResetting c | RelPush c => [c]
  | ReapScan cs => cs
  | ReapPush c cs => c :: cs
  | HealthScan cs => cs
  | HealthEach cs alive _ => cs ++ alive
  | HealthPing c cs alive _ => c :: cs ++ alive
  | HealthPush alive _ _ => alive
  | WarmPush _ c | PrewPush _ c | ProgPush _ c _ => [c]
  | _ => []
  end.

Fixpoint closing (pt : Point) : list Conn :=
  match pt with
  | CloseConn c k | ClosingConn c k => c :: closing k
  | FetchSub _ _ k | NotifyWaiter k | CloseEach _ k | DropEach _ k | DropPush _ _ k | CloseAll k | CloseScan _ k
  | CloseIdle _ _ k => closing k
  | _ => []
  end.

Fixpoint raws (pt : Point) : list nat :=
  match pt with
  | FetchSub _ _ k | NotifyWaiter k | CloseConn _ k | ClosingConn _ k | CloseEach _ k | DropEach _ k | DropPush _ _ k
  | CloseAll k | CloseScan _ k | CloseIdle _ _ k => raws k
  | Raw p | RawEnter p | RawTx p | RawRollback p | RawReset p | RawResetting p | RawMax p | RawReserve p _
  | RawPush p | RawClose p _ => [p]
  | _ => []
  end.

Fixpoint pending (pt : Point) : nat :=
  match pt with
  | FetchSub n _ k | CloseIdle _ n k => n + pending k
  | NotifyWaiter k | CloseConn _ k | ClosingConn _ k | CloseEach _ k | DropEach _ k | DropPush _ _ k | CloseAll k
  | CloseScan _ k => pending k
  | AcqReserved _ | RawPush _ => 1
  | HealthEach _ _ removed | HealthPing _ _ _ removed | HealthPush _ removed _ | HealthSub removed _ => removed
  | _ => 0
  end.

Fixpoint guarded (pt : Point) : nat :=
  match pt with
  | FetchSub _ _ k | NotifyWaiter k | CloseConn _ k | ClosingConn _ k | CloseEach _ k | DropEach _ k
  | DropPush _ _ k | CloseAll k | CloseScan _ k | CloseIdle _ _ k => guarded k
  | AcqCreate _ | WarmCreate _ | WarmSub _ | PrewCreate _ | ProgCreate _ _ => 1
  | _ => 0
  end.

Definition held (pt : Point) : nat := (length (locals pt) + pending pt + guarded pt)%nat.
Definition physicals (pt : Point) : list nat :=
  ((physical <$> locals pt ++ closing pt) ++ raws pt)%list.

(** The points at an await, where the future can be dropped. *)
Definition awaiting (pt : Point) : bool :=
  match pt with
  | ClosingConn _ _ | AcqPing _ _ | AcqCreate _ | AcqParked _ _ | RelRollback _ | RelResetting _ | RawRollback _
  | RawResetting _ | RawClose _ _ | ShutSleep _ | HealthPing _ _ _ _ | WarmCreate _ | PrewCreate _
  | ProgCreate _ _ | ProgSleep _ => true
  | _ => false
  end.

(** Dropping the future: a guard gives its slot back, a connection being closed and a bare one
    are dropped, the others go through [PooledConnection::drop]; nobody gives the pending slots
    back. *)
Definition cancel (pt : Point) sh : option (Shared Q H * Point) :=
  if awaiting pt then
    Some (leak (pending pt) (lose ((physical <$> closing pt) ++ raws pt) (fetch_sub (guarded pt) sh)),
          DropEach (locals pt) Cancelled)
  else None.

(** * Runs *)

Inductive Call : Type :=
| CallAcquire
| CallAcquireBatch (n : nat)
| CallReapIdle
| CallCloseAll
| CallHealthCheck
| CallShutdown (timeout : Z)
| CallWarmup (min_idle : nat)
| CallPrewarm
| CallProgressivePrewarm (batch_size interval total_timeout : Z).

(** Where a call starts; [acquire_batch] and [progressive_prewarm] look at the pool first. *)
Definition enter (cfg : PoolConfig) (now : Z) (call : Call) sh : Point :=
  match call with
  | CallAcquire => AcqEnter None
  | CallAcquireBatch O => Lent []
  | CallAcquireBatch (S n) =>
      if dynamic_max_size sh <? Z.of_nat (S n) then Done (Err Exhausted) else AcqEnter (Some (n, []))
  | CallReapIdle => ReapScan []
  | CallCloseAll => CloseAll finished
  | CallHealthCheck => HealthScan []
  | CallShutdown timeout => ShutEnter timeout
  | CallWarmup n => WarmTop n
  | CallPrewarm => if prewarm cfg then PrewTop (Z.to_nat (min_idle cfg)) else finished
  | CallProgressivePrewarm batch_size interval total_timeout =>
      let pr := mkProgressive (Z.max batch_size 1) interval total_timeout now 0 0 0 0 false in
      if (min_idle cfg =? 0) || negb (prewarm cfg)
      then Progressed (mkProgressive (Z.max batch_size 1) interval total_timeout now 0 0 0 0 true)
      else ProgTop pr
  end.

(** What the owner of a connection does with it.  [release] borrows the pool, so it runs beside
    whatever its caller does next. *)
Inductive Use : Type := Release | DropIt | IntoInner | ReturnRaw | DropRaw.

Definition use (u : Use) (pt : Point) sh : Stepped :=
  match u, pt with
  | Release, Lent (c :: cs) => Some (sh, Lent cs, [RelEnter c])
  | DropIt, Lent (c :: cs) => goes sh (DropEach [c] (Lent cs))
  | IntoInner, Lent (c :: cs) =>
      Some (if armed c then fetch_sub 1 sh else leak 1 sh, Lent cs, [Raw (physical c)])
  | ReturnRaw, Raw p => goes sh (RawEnter p)
  | DropRaw, Raw p => goes (lose [p] sh) Cancelled
  | _, _ => None
  end.

Record System : Type := mkSystem { shared : Shared Q H; tasks : list Point }.

Inductive Event : Type :=
| Start (now : Z) (call : Call)
| Step (tid : nat) (now : Z) (ans : Answer)
| Cancel (tid : nat)
| Uses (tid : nat) (u : Use)
| SetMaxSize (new_max : Z).

Definition put (tid : nat) (r : Shared Q H * Point * list Point) (s : System) : System :=
  mkSystem (fst (fst r)) (<[tid := snd (fst r)]> (tasks s) ++ snd r).

Definition step (cfg : PoolConfig) (e : Event) (s : System) : option System :=
  match e with
  | Start now call => Some (mkSystem (shared s) (tasks s ++ [enter cfg now call (shared s)]))
  | Step tid now ans => pt ← tasks s !! tid; r ← advance cfg now ans pt (shared s); Some (put tid r s)
  | Cancel tid => pt ← tasks s !! tid; r ← cancel pt (shared s); Some (put tid (r, []) s)
  | Uses tid u => pt ← tasks s !! tid; r ← use u pt (shared s); Some (put tid r s)
  | SetMaxSize m => Some (mkSystem (set_max_size m (shared s)) (tasks s))
  end.

Fixpoint run (cfg : PoolConfig) (es : list Event) (s : System) : option System :=
  match es with
  | [] => Some s
  | e :: es => s ← step cfg e s; run cfg es s
  end.

End Pool.
