(* ===== verification/PoolFacts.v ===== *)
(** What the pool of [Pool.v] promises under every interleaving: the accounting of slots and
    connections, what cancellation loses, and what one [acquire] does. *)

From Stdlib Require Import ZifyBool.
From S2P Require Import Prelude SqlText Value PreparedCache Pool.
Local Open Scope nat_scope.

Section Accounting.
Context {Q H : Type} `{ArrayQueue Q}.
Implicit Types (sh : Shared Q H) (c : Conn) (pt : Point) (s : System (Q := Q) (H := H)).

(** * The steps on the shared state *)

Lemma pop_cases sh :
  (exists q, pop sh = (None, with_idle q sh) /\ queued (idle sh) = [] /\ queued q = [] /\
     queue_capacity q = queue_capacity (idle sh)) \/
  (exists c q, pop sh = (Some c, with_idle q sh) /\ queued (idle sh) = c :: queued q /\
     queue_capacity q = queue_capacity (idle sh)).
Proof.
  unfold pop. destruct (queue_pop_spec (idle sh)) as (Hcap & Hh & Ht).
  destruct (queue_pop (idle sh)) as [o q]. cbn in *. destruct (queued (idle sh)) as [|c l]; cbn in *; subst.
  - left. by exists q.
  - right. by exists c, q.
Qed.

(** A push into a queue that is not full is accepted. *)
Lemma push_accepted c sh :
  length (queued (idle sh)) < queue_capacity (idle sh) ->
  exists q, push c sh = (None, with_idle q sh) /\ queued q = queued (idle sh) ++ [c] /\
    queue_capacity q = queue_capacity (idle sh).
Proof.
  intros Hlt%Nat.ltb_lt. unfold push. destruct (queue_push_spec c (idle sh)) as [Hcap Hp].
  rewrite Hlt in Hp. destruct (queue_push c (idle sh)) as [o q]. cbn in *. destruct Hp as [-> Hq]. by exists q.
Qed.

Lemma reserve_cases m sh :
  (reserve m sh = None /\ (m <= total_count sh)%Z) \/
  (reserve m sh = Some (with_total (total_count sh + 1)%Z sh) /\ (total_count sh < m)%Z).
Proof. unfold reserve. destruct (Z.leb_spec m (total_count sh)); [by left|by right]. Qed.

Lemma fetch_sub_exact n sh :
  (Z.of_nat n <= total_count sh < 2 ^ 32)%Z ->
  fetch_sub n sh = with_total (total_count sh - Z.of_nat n)%Z sh.
Proof. intros Hn. unfold fetch_sub. by rewrite wrap32_small by lia. Qed.

(** * Accounting of one step *)

Variable cfg : PoolConfig.
Variable cap : nat.
Hypothesis cap_u32 : (Z.of_nat cap < 2 ^ 32)%Z.

(** The limits a task has read are not above the capacity of the queue. *)
Fixpoint within pt : Prop :=
  match pt with
  | FetchSub _ _ k | NotifyWaiter k | CloseConn _ k | ClosingConn _ k | CloseEach _ k | DropEach _ k
  | DropPush _ _ k | CloseAll k | CloseScan _ k | CloseIdle _ _ k => within k
  | AcqReserve _ m | RawReserve _ m | WarmLoad _ m | PrewLoad _ m | PrewReserve _ m | ProgLoad _ m _
  | ProgReserve _ m _ => (m <= Z.of_nat cap)%Z
  | WarmCas _ current => (current < Z.of_nat cap)%Z
  | _ => True
  end.

Definition slots sh pt : nat := length (queued (idle sh)) + held pt + leaked sh.
Definition owned sh pt : list nat := (physical <$> queued (idle sh)) ++ physicals pt ++ gone sh.

Definition sound sh : Prop :=
  queue_capacity (idle sh) = cap /\ (dynamic_max_size sh <= Z.of_nat cap)%Z /\ (total_count sh <= Z.of_nat cap)%Z.

(** A step from [sh, pt] to [sh', pt', spawned]: the count changes as the slots do, and the
    connections are those of before and the new one, if one was made. *)
Record accounted sh pt sh' pt' (spawned : list Point) : Prop := {
  acc_sound : sound sh';
  acc_within : within pt' /\ Forall within spawned;
  acc_slots : (total_count sh' - Z.of_nat (slots sh' pt' + sum_list_with held spawned) =
               total_count sh - Z.of_nat (slots sh pt))%Z;
  acc_leaked : leaked sh <= leaked sh';
  acc_owned : next_physical sh <= next_physical sh' /\
    owned sh' pt' ++ (spawned ≫= physicals) ≡ₚ
    owned sh pt ++ seq (next_physical sh) (next_physical sh' - next_physical sh);
}.

#[local] Arguments Z.of_nat : simpl never.
#[local] Arguments Nat.sub : simpl never.
#[local] Arguments Nat.ltb : simpl never.
#[local] Arguments wrap32 : simpl never.

Ltac queue_eqs := repeat match goal with Hq : queued ?q = _ |- context [queued ?q] => rewrite Hq end.

Ltac account_perm :=
  rewrite ?fmap_app, ?app_nil_r, ?Nat.sub_diag, ?Nat.sub_succ_l by lia; cbn;
  rewrite ?fmap_app, ?app_nil_r, ?Nat.sub_diag; cbn; try solve_Permutation.

Ltac account :=
  simplify_eq; unfold sound, slots, owned, held, physicals in *; cbn in *;
  split; [repeat split; cbn in *; try lia; try done
         |split; [cbn in *; try lia; try done; auto|rewrite ?Forall_cons, ?Forall_nil; cbn in *; tauto]
         |unfold slots, held; cbn in *; queue_eqs; rewrite ?length_app in *; cbn in *; lia
         |cbn; lia
         |split; [cbn; lia|unfold owned, physicals; cbn; queue_eqs; account_perm]].

Lemma advance_shared_accounted now ans pt sh sh' pt' sp :
  sound sh -> within pt -> (Z.of_nat (slots sh pt) <= total_count sh)%Z ->
  advance_shared now ans pt sh = Some (sh', pt', sp) -> accounted sh pt sh' pt' sp.
Proof.
  intros (Hcap & Hmax & Hb) Hw Hle Hstep. destruct pt; destruct ans; try discriminate Hstep; cbn in Hstep.
  all: try (destruct cs as [|c cs]; try discriminate Hstep).
  all: unfold goes in Hstep.
  - assert (fetch_sub n sh = with_total (total_count sh - Z.of_nat n)%Z sh) as Hf.
    { apply fetch_sub_exact. unfold slots, held in Hle. cbn in Hle. lia. }
    rewrite Hf in Hstep. destruct e as [[]|]; account.
  - destruct (0 <? waiters_count sh)%Z; account.
  - account.
  - account.
  - account.
  - account.
  - account.
  - destruct (armed c); [destruct (closed sh || in_transaction || needs_reset); [destruct runtime|]|]; account.
  - destruct (push_accepted c (counted MRelease (counted MFastRelease sh))) as (q & Hp & Hq & Hqc).
    { unfold slots, held in Hle. cbn in *. lia. }
    rewrite Hp in Hstep. account.
Qed.
Ltac room := unfold slots, held in *; cbn in *; lia.

Ltac run_step Hstep :=
  repeat match type of Hstep with
  | context [push ?c ?sh] =>
      let q := fresh "q" in let Hp := fresh "Hp" in
      destruct (push_accepted c sh) as (q & Hp & ? & ?); [room|rewrite Hp in Hstep; clear Hp]
  | context [pop ?sh] =>
      let Hp := fresh "Hp" in
      destruct (pop_cases sh) as [(? & Hp & ? & ? & ?)|(? & ? & Hp & ? & ?)]; rewrite Hp in Hstep; clear Hp
  | context [reserve ?m ?sh] =>
      let Hr := fresh "Hr" in
      destruct (reserve_cases m sh) as [[Hr ?]|[Hr ?]]; rewrite Hr in Hstep; clear Hr
  | context [fetch_sub ?n ?sh] => rewrite (fetch_sub_exact n sh) in Hstep by room
  | context [if ?b then _ else _] => destruct b eqn:?
  | context [match ?x with _ => _ end] => destruct x eqn:?; try discriminate Hstep
  end.

(** Case analysis on the point, the answer and the branches of a family of steps. *)
Ltac account_family pt ans :=
  intros (Hcap & Hmax & Hb) Hw Hle Hstep;
  destruct pt; destruct ans;
  try discriminate Hstep;
  repeat match goal with a : Acquiring |- _ => destruct a as [? ? ?] end; cbn in Hstep;
  unfold goes, fail, rel_close, deliver, prog_after_batch, created, pooled_new in Hstep; cbn in Hstep; run_step Hstep;
  try discriminate Hstep; account.

Lemma advance_acquire_accounted now ans pt sh sh' pt' sp :
  sound sh -> within pt -> (Z.of_nat (slots sh pt) <= total_count sh)%Z ->
  advance_acquire cfg now ans pt sh = Some (sh', pt', sp) -> accounted sh pt sh' pt' sp.
Proof. account_family pt ans. Qed.

Lemma advance_release_accounted now ans pt sh sh' pt' sp :
  sound sh -> within pt -> (Z.of_nat (slots sh pt) <= total_count sh)%Z ->
  advance_release now ans pt sh = Some (sh', pt', sp) -> accounted sh pt sh' pt' sp.
Proof. account_family pt ans. Qed.

Lemma advance_return_raw_accounted now ans pt sh sh' pt' sp :
  sound sh -> within pt -> (Z.of_nat (slots sh pt) <= total_count sh)%Z ->
  advance_return_raw now ans pt sh = Some (sh', pt', sp) -> accounted sh pt sh' pt' sp.
Proof. account_family pt ans. Qed.

Lemma advance_reap_accounted now ans pt sh sh' pt' sp :
  sound sh -> within pt -> (Z.of_nat (slots sh pt) <= total_count sh)%Z ->
  advance_reap cfg now ans pt sh = Some (sh', pt', sp) -> accounted sh pt sh' pt' sp.
Proof. account_family pt ans. Qed.

Lemma advance_close_all_accounted now ans pt sh sh' pt' sp :
  sound sh -> within pt -> (Z.of_nat (slots sh pt) <= total_count sh)%Z ->
  advance_close_all now ans pt sh = Some (sh', pt', sp) -> accounted sh pt sh' pt' sp.
Proof. account_family pt ans. Qed.

Lemma advance_health_check_accounted ans pt sh sh' pt' sp :
  sound sh -> within pt -> (Z.of_nat (slots sh pt) <= total_count sh)%Z ->
  advance_health_check ans pt sh = Some (sh', pt', sp) -> accounted sh pt sh' pt' sp.
Proof. account_family pt ans. Qed.

Lemma advance_warmup_accounted now ans pt sh sh' pt' sp :
  sound sh -> within pt -> (Z.of_nat (slots sh pt) <= total_count sh)%Z ->
  advance_warmup now ans pt sh = Some (sh', pt', sp) -> accounted sh pt sh' pt' sp.
Proof. account_family pt ans. Qed.

Lemma advance_prewarm_accounted now ans pt sh sh' pt' sp :
  sound sh -> within pt -> (Z.of_nat (slots sh pt) <= total_count sh)%Z ->
  advance_prewarm now ans pt sh = Some (sh', pt', sp) -> accounted sh pt sh' pt' sp.
Proof. account_family pt ans. Qed.

Lemma advance_progressive_accounted now ans pt sh sh' pt' sp :
  sound sh -> within pt -> (Z.of_nat (slots sh pt) <= total_count sh)%Z ->
  advance_progressive cfg now ans pt sh = Some (sh', pt', sp) -> accounted sh pt sh' pt' sp.
Proof. account_family pt ans. Qed.

Lemma advance_accounted now ans pt sh sh' pt' sp :
  sound sh -> within pt -> (Z.of_nat (slots sh pt) <= total_count sh)%Z ->
  advance cfg now ans pt sh = Some (sh', pt', sp) -> accounted sh pt sh' pt' sp.
Proof.
  intros Hs Hw Hle. unfold advance, or_else. intros Hstep.
  repeat match type of Hstep with
  | match ?o with _ => _ end = _ => let E := fresh "E" in destruct o as [r|] eqn:E; [simplify_eq|]
  end;
  eauto using advance_shared_accounted, advance_acquire_accounted, advance_release_accounted,
    advance_return_raw_accounted, advance_reap_accounted, advance_close_all_accounted,
    advance_health_check_accounted, advance_warmup_accounted, advance_prewarm_accounted,
    advance_progressive_accounted.
Qed.

Lemma cancel_accounted pt sh sh' pt' :
  sound sh -> (Z.of_nat (slots sh pt) <= total_count sh)%Z ->
  cancel pt sh = Some (sh', pt') -> accounted sh pt sh' pt' [].
Proof.
  intros (Hcap & Hmax & Hb) Hle Hstep. unfold cancel in Hstep. destruct (awaiting pt); [|done].
  rewrite fetch_sub_exact in Hstep by room. account.
Qed.

Lemma use_accounted u pt sh sh' pt' sp :
  sound sh -> within pt -> (Z.of_nat (slots sh pt) <= total_count sh)%Z ->
  use u pt sh = Some (sh', pt', sp) -> accounted sh pt sh' pt' sp.
Proof.
  intros (Hcap & Hmax & Hb) Hw Hle Hstep. destruct u, pt; try discriminate Hstep;
    cbn in Hstep; try (destruct cs as [|c cs]; [discriminate Hstep|]); unfold goes in Hstep; run_step Hstep; account.
Qed.

(** * The invariant of runs *)

Definition total_held s : nat := length (queued (idle (shared s))) + sum_list_with held (tasks s) + leaked (shared s).
Definition everywhere s : list nat :=
  (physical <$> queued (idle (shared s))) ++ (tasks s ≫= physicals) ++ gone (shared s).

Record pool_inv s : Prop := {
  inv_sound : sound (shared s);
  inv_within : Forall within (tasks s);
  inv_slots : total_count (shared s) = Z.of_nat (total_held s);
  inv_owned : everywhere s ≡ₚ seq 0 (next_physical (shared s));
}.

Lemma sum_list_with_app {A} (f : A -> nat) l1 l2 : sum_list_with f (l1 ++ l2) = sum_list_with f l1 + sum_list_with f l2.
Proof. induction l1 as [|x l1 IH]; cbn; [done|]. rewrite IH. lia. Qed.

Lemma tasks_split s tid pt : tasks s !! tid = Some pt ->
  exists l1 l2, tasks s = l1 ++ pt :: l2 /\ forall pt', <[tid := pt']> (tasks s) = l1 ++ pt' :: l2.
Proof.
  intros Ht. exists (take tid (tasks s)), (drop (S tid) (tasks s)). rewrite take_drop_middle by done.
  split; [done|]. intros pt'. apply insert_take_drop. by eapply lookup_lt_Some.
Qed.

(** The invariant of the whole gives the premises of one step, and takes back its conclusion. *)
Lemma inv_task s tid pt :
  pool_inv s -> tasks s !! tid = Some pt ->
  sound (shared s) /\ within pt /\ (Z.of_nat (slots (shared s) pt) <= total_count (shared s))%Z.
Proof.
  intros Hi Ht. destruct (tasks_split _ _ _ Ht) as (l1 & l2 & Hl & _).
  split; [apply Hi|]. split.
  - pose proof (inv_within _ Hi) as Hw. rewrite Forall_lookup in Hw. by apply (Hw tid).
  - rewrite (inv_slots _ Hi). unfold slots, total_held. rewrite Hl, sum_list_with_app. cbn. lia.
Qed.

Lemma inv_put s tid pt sh' pt' sp :
  pool_inv s -> tasks s !! tid = Some pt -> accounted (shared s) pt sh' pt' sp -> pool_inv (put tid (sh', pt', sp) s).
Proof.
  intros Hi Ht [Hs [Hw Hws] Hsl _ [Hn Ho]]. destruct (tasks_split _ _ _ Ht) as (l1 & l2 & Hl & Hput).
  unfold put. cbn. rewrite Hput. split; cbn.
  - done.
  - pose proof (inv_within _ Hi) as Hall. rewrite Hl in Hall. apply Forall_app in Hall as [? [? ?]%Forall_cons].
    rewrite !Forall_app, Forall_cons. done.
  - pose proof (inv_slots _ Hi) as Htot. unfold total_held, slots in *. cbn. rewrite Hl in Htot.
    rewrite !sum_list_with_app in *. cbn in *. lia.
  - pose proof (inv_owned _ Hi) as Hall. unfold everywhere, owned in *. cbn. rewrite Hl in Hall.
    rewrite !bind_app in *. cbn in *. rewrite <- app_assoc.
    replace (next_physical sh') with (next_physical (shared s) + (next_physical sh' - next_physical (shared s))) by lia.
    rewrite seq_app, <- Hall. cbn. set (new := seq _ _) in *.
    transitivity (((physical <$> queued (idle sh')) ++ physicals pt' ++ gone sh') ++ (sp ≫= physicals) ++
                  (l1 ≫= physicals) ++ (l2 ≫= physicals)); [solve_Permutation|].
    rewrite (app_assoc _ (sp ≫= physicals)), Ho. solve_Permutation.
Qed.

Lemma enter_free now call sh : held (enter cfg now call sh) = 0 /\ physicals (enter cfg now call sh) = [] /\
  within (enter cfg now call sh).
Proof. destruct call as [|[|n]| | | | | | |]; cbn; repeat case_match; done. Qed.

(** The maximum is never set above the configured one. *)
Definition resized_within (e : Event) : Prop :=
  match e with SetMaxSize m => (m <= Z.of_nat cap)%Z | _ => True end.

Lemma step_inv e s s' : resized_within e -> pool_inv s -> step cfg e s = Some s' -> pool_inv s'.
Proof.
  intros Hr Hi. destruct e as [now call|tid now ans|tid|tid u|m]; cbn; intros Hstep.
  - simplify_eq. destruct (enter_free now call (shared s)) as (Hh & Hp & Hw). destruct Hi as [Hs Hws Hsl Ho].
    split; cbn.
    + done.
    + apply Forall_app. by rewrite Forall_singleton.
    + unfold total_held in *. cbn. rewrite sum_list_with_app. cbn. lia.
    + unfold everywhere in *. cbn. rewrite bind_app. cbn. by rewrite Hp, !app_nil_r.
  - destruct (tasks s !! tid) as [pt|] eqn:Ht; [|done]. cbn in Hstep.
    destruct (advance cfg now ans pt (shared s)) as [[[sh' pt'] sp]|] eqn:Ha; [|done]. simplify_eq/=.
    destruct (inv_task _ _ _ Hi Ht) as (Hs & Hw & Hle). eauto using inv_put, advance_accounted.
  - destruct (tasks s !! tid) as [pt|] eqn:Ht; [|done]. cbn in Hstep.
    destruct (cancel pt (shared s)) as [[sh' pt']|] eqn:Ha; [|done]. simplify_eq/=.
    destruct (inv_task _ _ _ Hi Ht) as (Hs & Hw & Hle). eauto using inv_put, cancel_accounted.
  - destruct (tasks s !! tid) as [pt|] eqn:Ht; [|done]. cbn in Hstep.
    destruct (use u pt (shared s)) as [[[sh' pt'] sp]|] eqn:Ha; [|done]. simplify_eq/=.
    destruct (inv_task _ _ _ Hi Ht) as (Hs & Hw & Hle). eauto using inv_put, use_accounted.
  - simplify_eq. destruct Hi as [(? & ? & ?) Hws Hsl Ho]. by repeat split.
Qed.

Lemma events_keep_inv es s s' : Forall resized_within es -> pool_inv s -> run cfg es s = Some s' -> pool_inv s'.
Proof.
  revert s. induction es as [|e es IH]; intros s Hr Hi Hrun; cbn in Hrun; [by simplify_eq|].
  apply Forall_cons in Hr as [He Hr]. destruct (step cfg e s) as [s1|] eqn:E; [|done]. eauto using step_inv.
Qed.

(** Slots are only ever lost. *)
Lemma step_leaked e s s' :
  pool_inv s -> step cfg e s = Some s' -> leaked (shared s) <= leaked (shared s').
Proof.
  intros Hi. destruct e as [now call|tid now ans|tid|tid u|m]; cbn; intros Hstep.
  - by simplify_eq.
  - destruct (tasks s !! tid) as [pt|] eqn:Ht; [|done]. cbn in Hstep.
    destruct (advance cfg now ans pt (shared s)) as [[[sh' pt'] sp]|] eqn:Ha; [|done]. simplify_eq/=.
    destruct (inv_task _ _ _ Hi Ht) as (Hs & Hw & Hle). by eapply acc_leaked, advance_accounted.
  - destruct (tasks s !! tid) as [pt|] eqn:Ht; [|done]. cbn in Hstep.
    destruct (cancel pt (shared s)) as [[sh' pt']|] eqn:Ha; [|done]. simplify_eq/=.
    destruct (inv_task _ _ _ Hi Ht) as (Hs & Hw & Hle). by eapply acc_leaked, cancel_accounted.
  - destruct (tasks s !! tid) as [pt|] eqn:Ht; [|done]. cbn in Hstep.
    destruct (use u pt (shared s)) as [[[sh' pt'] sp]|] eqn:Ha; [|done]. simplify_eq/=.
    destruct (inv_task _ _ _ Hi Ht) as (Hs & Hw & Hle). by eapply acc_leaked, use_accounted.
  - by simplify_eq.
Qed.

Lemma run_leaked es s s' :
  Forall resized_within es -> pool_inv s -> run cfg es s = Some s' -> leaked (shared s) <= leaked (shared s').
Proof.
  revert s. induction es as [|e es IH]; intros s Hr Hi Hrun; cbn in Hrun; [by simplify_eq|].
  apply Forall_cons in Hr as [He Hr]. destruct (step cfg e s) as [s1|] eqn:E; [|done].
  transitivity (leaked (shared s1)); [by eapply step_leaked|]. eauto using step_inv.
Qed.

(** When as many slots are lost as there are, nobody holds any. *)
Lemma all_lost s : pool_inv s -> cap <= leaked (shared s) ->
  queued (idle (shared s)) = [] /\ total_count (shared s) = Z.of_nat cap /\ Forall (fun pt => held pt = 0) (tasks s).
Proof.
  intros Hi Hl. pose proof (inv_slots _ Hi) as Ht. pose proof (inv_sound _ Hi) as (_ & _ & Hb).
  unfold total_held in Ht.
  assert (Hq : length (queued (idle (shared s))) = 0) by lia. split; [by apply length_zero_iff_nil|].
  split; [lia|]. assert (Hsum : sum_list_with held (tasks s) = 0) by lia. clear -Hsum.
  induction (tasks s) as [|pt l IH]; cbn in Hsum; constructor; [lia|apply IH; lia].
Qed.
End Accounting.

(** A pool that was just made satisfies the invariant. *)
Lemma pool_new_inv {Q H} `{ArrayQueue Q} cfg (pc : option (PreparedStatementCache (H := H))) (sh : Shared Q H) :
  pool_new cfg pc = Ok sh -> (0 <= max_size cfg)%Z -> pool_inv (Z.to_nat (max_size cfg)) (mkSystem sh []).
Proof.
  unfold pool_new. destruct (validate cfg); [|done]. intros [= <-] Hm.
  destruct (queue_new_spec (Z.to_nat (max_size cfg))) as [Hq Hc].
  split; cbn; [split; [done|cbn; lia]|constructor|unfold total_held; cbn; by rewrite Hq|].
  unfold everywhere. cbn. by rewrite Hq.
Qed.

Lemma pool_run_inv {Q H} `{ArrayQueue Q} cfg (pc : option (PreparedStatementCache (H := H))) (sh : Shared Q H) es s :
  (0 <= max_size cfg < 2 ^ 32)%Z -> pool_new cfg pc = Ok sh ->
  Forall (resized_within (Z.to_nat (max_size cfg))) es -> run cfg es (mkSystem sh []) = Some s ->
  pool_inv (Z.to_nat (max_size cfg)) s.
Proof.
  intros Hm Hnew Hr Hrun. assert (Hc : (Z.of_nat (Z.to_nat (max_size cfg)) < 2 ^ 32)%Z) by lia.
  apply (events_keep_inv cfg _ Hc es (mkSystem sh [])); [done| |done]. apply (pool_new_inv cfg pc); [done|lia].
Qed.

(** * Only cancellation loses slots *)

Section NoLoss.
Context {Q H : Type} `{ArrayQueue Q}.
Variable cfg : PoolConfig.
Implicit Types (sh : Shared Q H) (c : Conn) (pt : Point) (s : System (Q := Q) (H := H)).

Definition all_armed (cs : list Conn) : Prop := Forall (fun c => armed c = true) cs.

(** The connections that clients and unfinished batches own, or that are dropped, still know
    their pool. *)
Fixpoint armed_in pt : Prop :=
  match pt with
  | Lent cs => all_armed cs
  | FetchSub _ _ k | NotifyWaiter k | CloseConn _ k | ClosingConn _ k | CloseEach _ k | CloseAll k | CloseScan _ k
  | CloseIdle _ _ k => armed_in k
  | DropEach cs k | DropPush _ cs k => all_armed cs /\ armed_in k
  | AcqEnter b => all_armed (got b)
  | AcqScan a _ | AcqTook a _ | AcqPing a _ | AcqLoop a | AcqReserve a _ | AcqReserved a | AcqCreate a | AcqWait a
  | AcqParked a _ => all_armed (got (batch a))
  | PrewPush _ c | ProgPush _ c _ => armed c = true
  | _ => True
  end.

Lemma push_cases c sh :
  exists q, push c sh = (None, with_idle q sh) \/ push c sh = (Some c, with_idle q sh).
Proof.
  unfold push. destruct (queue_push_spec c (idle sh)) as [_ Hp].
  destruct (queue_push c (idle sh)) as [o q]. exists q. case_match; destruct Hp as [Ho _]; cbn in Ho; subst; auto.
Qed.

Lemma emit_event_leaked e sh : leaked (emit_event e sh) = leaked sh.
Proof. by destruct e. Qed.

Ltac armed_step Hstep :=
  repeat match type of Hstep with
  | context [push ?c ?sh] =>
      let q := fresh "q" in let Hp := fresh "Hp" in
      destruct (push_cases c sh) as (q & [Hp|Hp]); rewrite Hp in Hstep; clear Hp
  | context [pop ?sh] =>
      let Hp := fresh "Hp" in
      destruct (pop_cases sh) as [(? & Hp & _)|(? & ? & Hp & _)]; rewrite Hp in Hstep; clear Hp
  | context [reserve ?m ?sh] =>
      let Hr := fresh "Hr" in
      destruct (reserve_cases m sh) as [[Hr _]|[Hr _]]; rewrite Hr in Hstep; clear Hr
  | context [if ?b then _ else _] => destruct b eqn:?
  | context [match ?x with _ => _ end] =>
      lazymatch x with context [match _ with _ => _ end] => fail | _ => destruct x eqn:?; try discriminate Hstep end
  end.

Lemma all_armed_app cs1 cs2 : all_armed (cs1 ++ cs2) <-> all_armed cs1 /\ all_armed cs2.
Proof. apply Forall_app. Qed.
Lemma all_armed_cons c cs : all_armed (c :: cs) <-> armed c = true /\ all_armed cs.
Proof. apply (Forall_cons (fun c => armed c = true)). Qed.
Lemma all_armed_nil : all_armed [].
Proof. constructor. Qed.

Ltac armed_solve :=
  simplify_eq; rewrite ?emit_event_leaked; cbn in *; rewrite ?all_armed_app, ?all_armed_cons in *; cbn in *;
  split; [|split; [repeat constructor|]]; pose proof all_armed_nil; first [done | tauto | intuition congruence].

Lemma advance_armed now ans pt sh sh' pt' sp :
  armed_in pt -> advance cfg now ans pt sh = Some (sh', pt', sp) ->
  armed_in pt' /\ Forall armed_in sp /\ leaked sh' = leaked sh.
Proof.
  intros Hp Hstep. unfold advance, or_else in Hstep.
  destruct pt; destruct ans; try discriminate Hstep;
    repeat match goal with a : Acquiring |- _ => destruct a as [? ? ?] end; cbn in Hstep;
    unfold goes, fail, rel_close, deliver, prog_after_batch, created, pooled_new in Hstep; cbn in Hstep;
    armed_step Hstep; try discriminate Hstep; armed_solve.
Qed.

Definition armed_inv s : Prop := Forall armed_in (tasks s) /\ leaked (shared s) = 0.

Lemma armed_put s tid pt sh' pt' sp :
  armed_inv s -> tasks s !! tid = Some pt ->
  (armed_in pt -> armed_in pt' /\ Forall armed_in sp /\ leaked sh' = leaked (shared s)) ->
  armed_inv (put tid (sh', pt', sp) s).
Proof.
  intros [Ha Hl] Ht Hstep. rewrite Forall_lookup in Ha. destruct (Hstep (Ha tid pt Ht)) as (Hp & Hsp & Hl').
  split; cbn; [|congruence]. apply Forall_app. split; [|done]. apply Forall_insert; [by apply Forall_lookup|done].
Qed.

Lemma use_armed u pt sh sh' pt' sp :
  armed_in pt -> use u pt sh = Some (sh', pt', sp) -> armed_in pt' /\ Forall armed_in sp /\ leaked sh' = leaked sh.
Proof.
  intros Hp Hstep. destruct u, pt; try discriminate Hstep; cbn in Hstep; unfold goes in Hstep; armed_step Hstep;
    try discriminate Hstep; armed_solve.
Qed.

Definition is_cancel (e : Event) : bool := match e with Cancel _ => true | _ => false end.

Lemma step_armed e s s' : is_cancel e = false -> armed_inv s -> step cfg e s = Some s' -> armed_inv s'.
Proof.
  intros Hc Hi. destruct e as [now call|tid now ans|tid|tid u|m]; cbn; intros Hstep; [|..].
  - simplify_eq. destruct Hi as [Ha Hl]. split; cbn; [|done]. apply Forall_app. split; [done|].
    apply Forall_singleton. destruct call as [|[|n]| | | | | | |]; cbn; repeat case_match; cbn; done || constructor.
  - destruct (tasks s !! tid) as [pt|] eqn:Ht; [|done]. cbn in Hstep.
    destruct (advance cfg now ans pt (shared s)) as [[[sh' pt'] sp]|] eqn:Ha; [|done]. simplify_eq/=.
    eapply armed_put; [done..|]. intros. by eapply advance_armed.
  - done.
  - destruct (tasks s !! tid) as [pt|] eqn:Ht; [|done]. cbn in Hstep.
    destruct (use u pt (shared s)) as [[[sh' pt'] sp]|] eqn:Ha; [|done]. simplify_eq/=.
    eapply armed_put; [done..|]. intros. by eapply use_armed.
  - by simplify_eq.
Qed.

(** While no task is cancelled no slot is lost. *)
Lemma no_cancel_no_loss es s s' :
  Forall (fun e => is_cancel e = false) es -> armed_inv s -> run cfg es s = Some s' -> leaked (shared s') = 0.
Proof.
  revert s. induction es as [|e es IH]; intros s Hc Hi Hrun; cbn in Hrun; [simplify_eq; apply Hi|].
  apply Forall_cons in Hc as [He Hc]. destruct (step cfg e s) as [s1|] eqn:E; [|done]. eauto using step_armed.
Qed.
End NoLoss.

(** * The accounting of the pool *)

(** C7. As long as the maximum is not set above the configured one, under every interleaving of calls,
    cancellations and uses of the connections, [total_count] is the number of idle connections,
    of slots in use and of slots lost, and at most the maximum; and every connection the factory
    ever made is in exactly one place: idle, with one task or client, or gone.  So no connection is
    lent twice.  Without cancellations no slot is lost. *)
Theorem pool_accounting {Q H} `{ArrayQueue Q} cfg (pc : option (PreparedStatementCache (H := H))) (sh : Shared Q H) es s :
  (0 <= max_size cfg < 2 ^ 32)%Z -> pool_new cfg pc = Ok sh ->
  Forall (resized_within (Z.to_nat (max_size cfg))) es -> run cfg es (mkSystem sh []) = Some s ->
  total_count (shared s) =
    Z.of_nat (length (queued (idle (shared s))) + sum_list_with held (tasks s) + leaked (shared s)) /\
  (total_count (shared s) <= max_size cfg)%Z /\
  (physical <$> queued (idle (shared s))) ++ (tasks s ≫= physicals) ++ gone (shared s)
    ≡ₚ seq 0 (next_physical (shared s)) /\
  NoDup ((physical <$> queued (idle (shared s))) ++ (tasks s ≫= physicals)) /\
  (Forall (fun e => is_cancel e = false) es -> leaked (shared s) = 0).
Proof.
  intros Hm Hnew Hr Hrun.
  pose proof (pool_run_inv cfg pc sh es s Hm Hnew Hr Hrun) as Hi.
  destruct Hi as [(_ & _ & Hb) _ Hsl Ho]. repeat split; [done|lia|done| |].
  2: { intros Hc. apply (no_cancel_no_loss cfg es (mkSystem sh [])); [done| |done].
       split; [constructor|]. unfold pool_new in Hnew. destruct (validate cfg); by simplify_eq. }
  assert (Hn : NoDup (everywhere s)) by (rewrite Ho; apply NoDup_seq). unfold everywhere in Hn.
  rewrite app_assoc in Hn. by apply NoDup_app in Hn as [? _].
Qed.

(** A lost slot is lost for good: once as many were lost as the pool has, no connection is idle and
    none is held by a task or a client, whatever happens later. *)
Theorem lost_slots_block {Q H} `{ArrayQueue Q} cfg (pc : option (PreparedStatementCache (H := H))) (sh : Shared Q H) es s es' s' :
  (0 <= max_size cfg < 2 ^ 32)%Z -> pool_new cfg pc = Ok sh ->
  Forall (resized_within (Z.to_nat (max_size cfg))) (es ++ es') -> run cfg es (mkSystem sh []) = Some s ->
  Z.of_nat (leaked (shared s)) = max_size cfg -> run cfg es' s = Some s' ->
  queued (idle (shared s')) = [] /\ total_count (shared s') = max_size cfg /\
  Forall (fun pt => held pt = 0) (tasks s').
Proof.
  intros Hm Hnew [Hr Hr']%Forall_app Hrun Hl Hrun'.
  pose proof (pool_run_inv cfg pc sh es s Hm Hnew Hr Hrun) as Hi.
  assert (leaked (shared s) <= leaked (shared s')) by (eapply run_leaked; [|exact Hr'|exact Hi|exact Hrun']; lia).
  assert (Hi' : pool_inv (Z.to_nat (max_size cfg)) s') by (eapply events_keep_inv; [|exact Hr'|exact Hi|exact Hrun']; lia).
  rewrite <- (Z2Nat.id (max_size cfg)) by lia. eapply all_lost; [done|lia].
Qed.

(** ** Runs of a small pool *)

Definition small_config : PoolConfig := mkConfig 1 1 (secs 30) (secs 600) (secs 1800) (secs 10) false true.
Definition small_pool : Shared (nat * list Conn) unit :=
  mkShared (1, []) 0 false 0 1 1 metrics_new None [] 0 [] 0.

Definition steps (tid : nat) (answers : list Answer) : list Event := Step tid 0 <$> answers.

(** [acquire] of a new connection; the start of a [release] of it by a client whose task is
    [client], as the task [tid]. *)
Definition acquire_new (tid : nat) : list Event :=
  Start 0 CallAcquire ::
  steps tid [Tick; Tick; Says true; Tick; Tick; Tick; Tick; Awaited (Some true)].
Definition release_at_rollback (client tid : nat) : list Event :=
  Uses client Release :: steps tid [Tick; Says true].

(** A [release] cancelled during its rollback: the only slot of the pool is lost. *)
Definition cancelled_release : list Event :=
  acquire_new 0 ++ release_at_rollback 0 1 ++ Cancel 1 :: steps 1 [Dropped true false true; Tick].

Definition refused_acquire : list Event :=
  Start 0 CallAcquire :: steps 2 [Tick; Tick; Says true; Tick; Tick; Tick; Tick].

Definition after (es : list Event) : System (Q := nat * list Conn) (H := unit) :=
  default (mkSystem small_pool []) (run small_config es (mkSystem small_pool [])).

Lemma pool_accounting_witness :
  total_count (shared (after (acquire_new 0 ++ release_at_rollback 0 1))) = 1%Z.
Proof.
  destruct (pool_accounting small_config None small_pool (acquire_new 0 ++ release_at_rollback 0 1)
    (after (acquire_new 0 ++ release_at_rollback 0 1))) as (-> & _).
  - vm_compute. done.
  - reflexivity.
  - apply Forall_forall. vm_compute. intros e He.
    repeat (apply elem_of_cons in He as [->|He]; [exact I|]). by apply not_elem_of_nil in He.
  - vm_compute. reflexivity.
  - vm_compute. reflexivity.
Defined.

Lemma lost_slots_block_witness :
  total_count (shared (after (cancelled_release ++ refused_acquire))) = 1%Z /\
  Forall (fun pt => held pt = 0) (tasks (after (cancelled_release ++ refused_acquire))).
Proof.
  destruct (lost_slots_block small_config None small_pool cancelled_release (after cancelled_release)
    refused_acquire (after (cancelled_release ++ refused_acquire))) as (_ & -> & Hh).
  - vm_compute. done.
  - reflexivity.
  - apply Forall_forall. vm_compute. intros e He.
    repeat (apply elem_of_cons in He as [->|He]; [exact I|]). by apply not_elem_of_nil in He.
  - vm_compute. reflexivity.
  - vm_compute. reflexivity.
  - vm_compute. reflexivity.
  - by split.
Defined.

(** ** What else goes wrong *)

(** A maximum above the configured one makes [prewarm] fill the queue; a rejected connection then
    decreases the count twice, once when it is dropped, and the count wraps: no connection is
    made again. *)
Definition prewarm_one (tid : nat) : list Event :=
  Start 0 CallPrewarm :: steps tid [Tick; Tick; Tick; Tick; Awaited (Some true); Tick].
Definition prewarm_rejected (tid : nat) : list Event :=
  prewarm_one tid ++ steps tid [Dropped false false true; Tick; Tick; Tick; Tick; Tick; Tick].

Lemma prewarm_count_wraps :
  let s := after (SetMaxSize 3 :: prewarm_one 0 ++ prewarm_rejected 1 ++ prewarm_rejected 2) in
  length (queued (idle (shared s))) = 1 /\ total_count (shared s) = (2 ^ 32 - 1)%Z.
Proof. vm_compute. done. Qed.

(** A task cancelled while it waits stays counted as a waiter. *)
Lemma cancelled_waiter_counted :
  waiters_count (shared (after (acquire_new 0 ++
    Start 0 CallAcquire :: steps 1 [Tick; Tick; Says true; Tick; Tick; Tick; Tick] ++ [Cancel 1]))) = 1%Z.
Proof. vm_compute. done. Qed.

(** A [release] that read [closed] before [close_all] puts its connection into the closed pool,
    where nobody takes it out; [shutdown] waits for it until its timeout. *)
Lemma release_into_closed_pool :
  let s := after (acquire_new 0 ++ Uses 0 Release :: steps 1 [Tick; Says false; Says false] ++
    Start 0 (CallShutdown 5) :: steps 2 [Tick; Tick; Tick; Tick; Tick; Tick] ++ steps 1 [Tick; Tick] ++
    steps 2 [Tick]) in
  length (queued (idle (shared s))) = 1 /\ closed (shared s) = true /\ tasks s !! 2 = Some (ShutSleep 5).
Proof. vm_compute. done. Qed.

(** * One [acquire] by itself *)

Section Alone.
Context {Q H : Type} `{ArrayQueue Q}.
Variable cfg : PoolConfig.
Variable now : Z.
#[local] Arguments Z.of_nat : simpl never.
#[local] Arguments wrap32 : simpl never.

(** What [is_connected] answers; calls to [close] and [create] return, the latter with success. *)
Variable up : nat -> bool.
Implicit Types (sh : Shared Q H) (c : Conn) (pt : Point).

Definition answers sh pt : Answer :=
  match pt with
  | AcqScan _ _ => Says (match queued (idle sh) with c :: _ => up (physical c) | [] => true end)
  | ClosingConn _ _ | AcqCreate _ => Awaited (Some true)
  | _ => Tick
  end.

Fixpoint solo (fuel : nat) sh pt : Shared Q H * Point :=
  match fuel with
  | O => (sh, pt)
  | S fuel =>
      match advance cfg now (answers sh pt) pt sh with
      | Some (sh', pt', _) => solo fuel sh' pt'
      | None => (sh, pt)
      end
  end.

Definition reaches (x y : Shared Q H * Point) : Prop := exists n, solo n x.1 x.2 = y.

#[local] Instance reaches_preorder : PreOrder reaches.
Proof.
  split; [intros [sh pt]; by exists 0|]. intros [sh1 pt1] y z [n Hn] [m Hm]. exists (n + m). cbn in *.
  revert sh1 pt1 Hn. induction n as [|n IH]; intros sh1 pt1 Hn; cbn in Hn |- *; [by subst y|].
  destruct (advance cfg now (answers sh1 pt1) pt1 sh1) as [[[sh' pt'] sp]|] eqn:E; [by apply IH|].
  subst y. cbn in Hm. destruct m; cbn in Hm; [done|]. by rewrite E in Hm.
Qed.

Lemma reaches_step sh pt sh' pt' sp y :
  advance cfg now (answers sh pt) pt sh = Some (sh', pt', sp) -> reaches (sh', pt') y -> reaches (sh, pt) y.
Proof. intros Hs [n Hn]. exists (S n). cbn. by rewrite Hs. Qed.

Definition usable c : bool := negb (is_expired cfg now c || is_idle_too_long cfg now c) && up (physical c).

(** What closing [cs] one by one leaves. *)
Definition swept (cs : list Conn) sh sh' : Prop :=
  idle sh' = idle sh /\ closed sh' = closed sh /\ dynamic_max_size sh' = dynamic_max_size sh /\
  next_physical sh' = next_physical sh /\ next_conn_id sh' = next_conn_id sh /\ waiters_count sh' = waiters_count sh /\
  total_count sh' = (total_count sh - Z.of_nat (length cs))%Z /\
  gone sh' = rev (physical <$> cs) ++ gone sh.

Lemma close_each cs sh k :
  (Z.of_nat (length cs) <= total_count sh < 2 ^ 32)%Z ->
  exists sh', swept cs sh sh' /\ reaches (sh, CloseEach cs k) (sh', k).
Proof.
  revert sh. induction cs as [|c cs IH]; intros sh Ht.
  { exists sh. split; [repeat split; cbn; lia|]. by eapply reaches_step. }
  cbn in Ht. set (sh1 := counted MClosed (lose [physical c] (begin_close c sh))).
  destruct (IH (with_total (total_count sh1 - 1)%Z sh1)) as (sh' & (H1 & H2 & H3 & H4 & Hid & H5 & H6 & H7) & Hr); [cbn; lia|].
  exists sh'. split.
  - repeat split; [done..| |]; [rewrite H6; cbn; lia|]. rewrite H7. cbn. by rewrite <- app_assoc.
  - eapply reaches_step; [reflexivity|]. eapply reaches_step; [reflexivity|]. eapply reaches_step; [reflexivity|].
    eapply reaches_step; [cbn; unfold goes; by rewrite fetch_sub_exact by (cbn; lia)|]. done.
Qed.

(** The scan takes the connections that cannot be used off the front of the queue. *)
Lemma scan_to bad rest a tc sh :
  queued (idle sh) = bad ++ rest -> Forall (fun c => usable c = false) bad ->
  Forall (fun c => usable c = true) (take 1 rest) ->
  exists q, queued q = tail rest /\ queue_capacity q = queue_capacity (idle sh) /\
    reaches (sh, AcqScan a tc) (with_idle q sh, CloseEach (tc ++ bad) (AcqTook a (head rest))).
Proof.
  revert tc sh. induction bad as [|c bad IH]; intros tc sh Hq Hbad Hrest; cbn in Hq.
  - destruct (pop_cases sh) as [(q & Hp & Hq1 & Hq2 & Hc)|(c & q & Hp & Hq1 & Hc)]; rewrite Hq1 in Hq; subst rest.
    + exists q. split; [done|]. split; [done|]. rewrite app_nil_r. eapply reaches_step; [|reflexivity].
      cbn. by rewrite Hp.
    + exists q. split; [done|]. split; [done|]. rewrite app_nil_r. eapply reaches_step; [|reflexivity].
      apply (Forall_cons (fun c => usable c = true) c []) in Hrest as [Hrest _]. unfold usable in Hrest. cbn. rewrite Hq1, Hp.
      apply andb_true_iff in Hrest as [Hr1%negb_true_iff Hr2]. by rewrite Hr1, Hr2.
  - apply Forall_cons in Hbad as [Hc Hbad].
    destruct (pop_cases sh) as [(q & Hp & Hq1 & _)|(c' & q & Hp & Hq1 & Hcap)]; rewrite Hq in Hq1; [done|].
    injection Hq1 as <- Hq1.
    destruct (IH (tc ++ [c]) (with_idle q sh) (eq_sym Hq1) Hbad Hrest) as (q' & Hq' & Hc' & Hr).
    exists q'. split; [done|]. split; [by rewrite Hc'|]. rewrite <- app_assoc in Hr. eapply reaches_step; [|exact Hr].
    cbn. rewrite Hq, Hp. unfold usable in Hc. destruct (is_expired cfg now c || is_idle_too_long cfg now c); [done|].
    cbn in Hc |- *. by rewrite Hc.
Qed.
(** [acquire] by itself closes the connections at the front of the queue that expired, were idle
    for too long or are not connected, and then returns the first other one; if there is none it
    makes a connection when the count allows one, and waits otherwise. *)
Theorem acquire_alone sh bad rest dl :
  closed sh = false -> test_before_acquire cfg = false ->
  instant_add now (acquire_timeout cfg) = Some dl -> (now < dl)%Z ->
  (Z.of_nat (length (queued (idle sh))) <= total_count sh < 2 ^ 32)%Z ->
  queued (idle sh) = bad ++ rest -> Forall (fun c => usable c = false) bad ->
  Forall (fun c => usable c = true) (take 1 rest) ->
  let left := (total_count sh - Z.of_nat (length bad))%Z in
  exists sh' pt', reaches (sh, AcqEnter None) (sh', pt') /\
    queued (idle sh') = tail rest /\ gone sh' = rev (physical <$> bad) ++ gone sh /\
    match rest with
    | c :: _ => pt' = Lent [hand_out c] /\ total_count sh' = left
    | [] =>
        if (left <? dynamic_max_size sh)%Z
        then pt' = Lent [mkConn (next_physical sh) now now true false (next_conn_id sh)] /\ total_count sh' = (left + 1)%Z
        else pt' = AcqParked (mkAcquiring (Some dl) (10 ^ 6) None) (Z.min (10 ^ 6) (dl - now)) /\
             total_count sh' = left /\ waiters_count sh' = wrap32 (waiters_count sh + 1)
    end.
Proof.
  intros Hopen Htest Hdl Hlt Ht Hq Hbad Hrest left.
  set (a := mkAcquiring None (10 ^ 6) None). set (sh1 := counted MFastAcquire sh).
  destruct (scan_to bad rest a [] sh1 Hq Hbad Hrest) as (q & Hq' & Hcap & Hscan).
  destruct (close_each bad (with_idle q sh1) (AcqTook a (head rest)))
    as (sh2 & (Hi & Hc & Hd & Hn & Hid & Hw & Htot & Hg) & Hclose).
  { cbn. rewrite Hq, length_app in Ht. lia. }
  assert (Hto : reaches (sh, AcqEnter None) (sh2, AcqTook a (head rest))).
  { eapply reaches_step; [cbn; by rewrite Hopen|]. eapply reaches_step; [cbn; by rewrite Hopen|]. by etrans. }
  cbn in Hi, Hc, Hd, Hn, Hid, Hw, Htot, Hg. destruct rest as [|c rest].
  - destruct (Z.ltb_spec left (dynamic_max_size sh)) as [Hroom|Hfull]; subst left.
    + eexists _, _. split; [etrans; [exact Hto|]|].
      * eapply reaches_step; [reflexivity|]. eapply reaches_step.
        { cbn. unfold reserve. rewrite (proj2 (Z.leb_gt _ _)) by (cbn; lia). reflexivity. }
        eapply reaches_step; [cbn; rewrite Hc, Hopen; reflexivity|]. eapply reaches_step; reflexivity.
      * cbn. by rewrite Hi, Hn, Hid, Htot, Hg.
    + eexists _, _. split; [etrans; [exact Hto|]|].
      * eapply reaches_step; [reflexivity|]. eapply reaches_step.
        { cbn. unfold reserve. rewrite (proj2 (Z.leb_le _ _)) by (cbn; lia). reflexivity. }
        eapply reaches_step; [|reflexivity]. cbn. rewrite Hdl. rewrite (proj2 (Z.leb_gt _ _)) by lia. reflexivity.
      * cbn. by rewrite Hi, Hw, Htot, Hg.
  - eexists _, _. split; [etrans; [exact Hto|]|].
    + eapply reaches_step; [cbn; rewrite Htest; reflexivity|reflexivity].
    + cbn. rewrite Hi, Htot, Hg. done.
Qed.
End Alone.

Lemma acquire_alone_witness :
  exists sh' pt', reaches small_config (secs 700) (fun _ => true)
    (mkShared (1, [mkConn 0 0 0 false true 1]) 1 false 0 1 2 metrics_new (@None (PreparedStatementCache (H := unit))) [] 1 [] 0,
     AcqEnter None) (sh', pt') /\
  pt' = Lent [mkConn 1 (secs 700) (secs 700) true false 2].
Proof.
  destruct (acquire_alone small_config (secs 700) (fun _ => true)
    (mkShared (1, [mkConn 0 0 0 false true 1]) 1 false 0 1 2 metrics_new (@None (PreparedStatementCache (H := unit))) [] 1 [] 0)
    [mkConn 0 0 0 false true 1] [] (secs 730)) as (sh' & pt' & Hr & _ & _ & -> & _).
  - reflexivity.
  - reflexivity.
  - vm_compute. reflexivity.
  - vm_compute. reflexivity.
  - vm_compute. done.
  - reflexivity.
  - repeat constructor.
  - constructor.
  - eexists _, _. split; [exact Hr|]. reflexivity.
Defined.
