(* ===== verification/RateLimit.v ===== *)
(** In-process rate limiting: the sliding and the fixed window limiters of
    [packages/sz-orm-limit/src/lib.rs]. *)

From S2P Require Import Prelude.
Local Open Scope eff_scope.

(** * Results *)

Record RateLimitResult : Type := mkRateResult {
  allowed : bool;
  remaining : Z;
  reset_at : Z;
}.

Definition allow (remaining reset_at : Z) : RateLimitResult := mkRateResult true remaining reset_at.
Definition reject (remaining reset_at : Z) : RateLimitResult := mkRateResult false remaining reset_at.

(** [as i64], and [i64] sums *)
Definition wrap_i64 (z : Z) : Z := (z + 2 ^ 63) mod 2 ^ 64 - 2 ^ 63.

(** [Instant::duration_since], zero for a later instant; instants and durations are in
    nanoseconds. *)
Definition duration_since (now t : Z) : Z := Z.max 0 (now - t).

(** [Duration::as_millis() as i64] *)
Definition as_millis (d : Z) : Z := wrap_i64 (d / 1000000).

Definition DEFAULT_MAX_KEYS : nat := Z.to_nat 10000.

(** * Eviction of keys

    [min_by_key] over the entries: the first with the least measure, in the iteration order
    that [HashMap] leaves open. *)
Definition older {V} (f : V -> Z) (acc : option (string * V)) (kv : string * V) :
    option (string * V) :=
  match acc with
  | None => Some kv
  | Some kv0 => if (f (snd kv) <? f (snd kv0))%Z then Some kv else Some kv0
  end.

Definition oldest_key {V} (f : V -> Z) (m : gmap string V) : option string :=
  fst <$> fold_left (older f) (map_to_list m) None.

Lemma fold_older {V} (f : V -> Z) (l : list (string * V)) acc :
  match fold_left (older f) l acc with
  | None => acc = None /\ l = []
  | Some r => acc = Some r \/ r ∈ l
  end.
Proof.
  revert acc. induction l as [|x l IH]; intros acc; cbn [fold_left].
  { destruct acc; [by left|done]. }
  specialize (IH (older f acc x)). destruct (fold_left (older f) l (older f acc x)) as [r|].
  - rewrite elem_of_cons. destruct acc as [a|]; cbn [older] in IH; [case_match|];
      destruct IH as [[= ->]|?]; auto.
  - destruct IH as [Hn _]. destruct acc; cbn in Hn; [case_match|]; done.
Qed.

Lemma oldest_key_Some {V} (f : V -> Z) (m : gmap string V) :
  m <> ∅ -> exists k, oldest_key f m = Some k /\ is_Some (m !! k).
Proof.
  intros Hm. unfold oldest_key. pose proof (fold_older f (map_to_list m) None) as Hf.
  destruct (fold_left (older f) (map_to_list m) None) as [[k v]|]; cbn.
  - exists k. split; [done|]. destruct Hf as [?|Hin]; [done|]. apply elem_of_map_to_list in Hin. eauto.
  - destruct Hf as [_ Hf]. by apply map_to_list_empty_iff in Hf.
Qed.

Section Limiters.
Context {W : Type} `{Clock W}.

(** * Sliding window *)

Record SlidingWindowEntry : Type := mkSliding { requests : list Z }.

Record SlidingWindowRateLimiter : Type := mkSlidingLimiter {
  sw_max_requests : Z;
  sw_window_size : Z;
  sw_entries : gmap string SlidingWindowEntry;
  sw_max_keys : nat;
  allowed_count : Z;
  rejected_count : Z;
}.

Definition sw_new (max_requests window_size : Z) : SlidingWindowRateLimiter :=
  mkSlidingLimiter max_requests window_size ∅ DEFAULT_MAX_KEYS 0 0.

Definition sw_with_max_keys (max_keys : nat) (l : SlidingWindowRateLimiter) :
    SlidingWindowRateLimiter :=
  mkSlidingLimiter (sw_max_requests l) (sw_window_size l) (sw_entries l) max_keys
    (allowed_count l) (rejected_count l).

Definition sw_key_count (l : SlidingWindowRateLimiter) : nat := size (sw_entries l).

Definition cleanup_old_requests (window_size : Z) (entry : SlidingWindowEntry) :
    Eff W SlidingWindowEntry :=
  let* now := instant_now in
  eret (mkSliding (filter (fun time => duration_since now time < window_size)%Z (requests entry))).

(** [while entries.len() > max_keys]: each turn removes an entry, so the number of
    entries is fuel enough. *)
Fixpoint sw_enforce_max_keys (fuel : nat) (max_keys : nat) (entries : gmap string SlidingWindowEntry) :
    Eff W (gmap string SlidingWindowEntry) :=
  match fuel with
  | O => eret entries
  | S fuel =>
      if (max_keys <? size entries)%nat then
        let* now := instant_now in
        match oldest_key (fun e => default now (head (requests e))) entries with
        | Some k => sw_enforce_max_keys fuel max_keys (delete k entries)
        | None => eret entries
        end
      else eret entries
  end.

(** The eviction before a key is inserted. *)
Definition sw_make_room (key : string) (l : SlidingWindowRateLimiter) :
    Eff W (gmap string SlidingWindowEntry) :=
  if ((sw_max_keys l <=? size (sw_entries l))%nat && negb (is_some (sw_entries l !! key)))
  then sw_enforce_max_keys (size (sw_entries l)) (sw_max_keys l) (sw_entries l)
  else eret (sw_entries l).

(** The decision on the entry of [key] in [entries]. *)
Definition sw_admit (key : string) (entries : gmap string SlidingWindowEntry)
    (l : SlidingWindowRateLimiter) : Eff W (RateLimitResult * SlidingWindowRateLimiter) :=
  let* entry := cleanup_old_requests (sw_window_size l) (default (mkSliding []) (entries !! key)) in
  if (Z.of_nat (length (requests entry)) <? sw_max_requests l)%Z then
    let* t := instant_now in
    let entry := mkSliding (requests entry ++ [t]) in
    let remaining := (sw_max_requests l - Z.of_nat (length (requests entry)))%Z in
    let* ts := system_millis in
    let reset_at := wrap_i64 (ts + as_millis (sw_window_size l)) in
    eret (allow remaining reset_at,
          mkSlidingLimiter (sw_max_requests l) (sw_window_size l) (<[key := entry]> entries)
            (sw_max_keys l) (wrap64 (allowed_count l + 1)) (rejected_count l))
  else
    let* oldest :=
      match head (requests entry) with
      | Some t =>
          let* now := instant_now in
          let elapsed := as_millis (duration_since now t) in
          let window_ms := as_millis (sw_window_size l) in
          let* ts := system_millis in
          eret (Some (wrap_i64 (ts + wrap_i64 (window_ms - elapsed))))
      | None => eret None
      end in
    let* ts := system_millis in
    eret (reject 0 (default ts oldest),
          mkSlidingLimiter (sw_max_requests l) (sw_window_size l) (<[key := entry]> entries)
            (sw_max_keys l) (allowed_count l) (wrap64 (rejected_count l + 1))).

Definition sw_acquire (key : string) (l : SlidingWindowRateLimiter) :
    Eff W (RateLimitResult * SlidingWindowRateLimiter) :=
  let* entries := sw_make_room key l in sw_admit key entries l.

Definition sw_reset (key : string) (l : SlidingWindowRateLimiter) : SlidingWindowRateLimiter :=
  mkSlidingLimiter (sw_max_requests l) (sw_window_size l) (delete key (sw_entries l))
    (sw_max_keys l) (allowed_count l) (rejected_count l).

(** * Fixed window *)

Record FixedWindowEntry : Type := mkFixed { count : Z; window_start : Z }.

Record FixedWindowRateLimiter : Type := mkFixedLimiter {
  fw_max_requests : Z;
  fw_window_size : Z;
  fw_entries : gmap string FixedWindowEntry;
  fw_max_keys : nat;
}.

Definition fw_new (max_requests window_size : Z) : FixedWindowRateLimiter :=
  mkFixedLimiter max_requests window_size ∅ DEFAULT_MAX_KEYS.

Definition fw_with_max_keys (max_keys : nat) (l : FixedWindowRateLimiter) : FixedWindowRateLimiter :=
  mkFixedLimiter (fw_max_requests l) (fw_window_size l) (fw_entries l) max_keys.

Definition fw_key_count (l : FixedWindowRateLimiter) : nat := size (fw_entries l).

Fixpoint fw_enforce_max_keys (fuel : nat) (max_keys : nat) (entries : gmap string FixedWindowEntry) :
    gmap string FixedWindowEntry :=
  match fuel with
  | O => entries
  | S fuel =>
      if (max_keys <? size entries)%nat then
        match oldest_key window_start entries with
        | Some k => fw_enforce_max_keys fuel max_keys (delete k entries)
        | None => entries
        end
      else entries
  end.

Definition fw_make_room (key : string) (l : FixedWindowRateLimiter) : gmap string FixedWindowEntry :=
  if ((fw_max_keys l <=? size (fw_entries l))%nat && negb (is_some (fw_entries l !! key)))
  then fw_enforce_max_keys (size (fw_entries l)) (fw_max_keys l) (fw_entries l)
  else fw_entries l.

Definition fw_acquire (key : string) (l : FixedWindowRateLimiter) :
    Eff W (RateLimitResult * FixedWindowRateLimiter) :=
  let entries := fw_make_room key l in
  let* now := instant_now in
  let entry := default (mkFixed 0 now) (entries !! key) in
  let entry :=
    if (fw_window_size l <=? duration_since now (window_start entry))%Z then mkFixed 0 now
    else entry in
  if (count entry <? fw_max_requests l)%Z then
    let entry := mkFixed (count entry + 1) (window_start entry) in
    let remaining := (fw_max_requests l - count entry)%Z in
    let* ts := system_millis in
    let reset_at := wrap_i64 (ts + as_millis (fw_window_size l)) in
    eret (allow remaining reset_at,
          mkFixedLimiter (fw_max_requests l) (fw_window_size l) (<[key := entry]> entries)
            (fw_max_keys l))
  else
    let elapsed := duration_since now (window_start entry) in
    let remaining_window := Z.max 0 (fw_window_size l - elapsed) in
    let* ts := system_millis in
    let reset_at := wrap_i64 (ts + as_millis remaining_window) in
    eret (reject 0 reset_at,
          mkFixedLimiter (fw_max_requests l) (fw_window_size l) (<[key := entry]> entries)
            (fw_max_keys l)).

Definition fw_reset (key : string) (l : FixedWindowRateLimiter) : FixedWindowRateLimiter :=
  mkFixedLimiter (fw_max_requests l) (fw_window_size l) (delete key (fw_entries l)) (fw_max_keys l).

(** * The number of keys *)

Lemma sw_enforce_spec fuel mk (m : gmap string SlidingWindowEntry) w :
  (size m <= fuel + mk)%nat ->
  (size (fst (sw_enforce_max_keys fuel mk m w)) <= mk)%nat /\
  ((size m <= mk)%nat -> sw_enforce_max_keys fuel mk m w = (m, w)).
Proof.
  revert m w. induction fuel as [|fuel IH]; intros m w Hf; [done|]. cbn [sw_enforce_max_keys].
  destruct (Nat.ltb_spec mk (size m)) as [Hlt|Hle]; [|done]. split; [|lia].
  unfold ebind. destruct (instant_now w) as [now w1].
  destruct (oldest_key_Some (fun e => default now (head (requests e))) m) as (k & -> & [v Hk]).
  { intros ->. rewrite map_size_empty in Hlt. lia. }
  apply IH. rewrite map_size_delete_Some by eauto. lia.
Qed.

Lemma fw_enforce_spec fuel mk (m : gmap string FixedWindowEntry) :
  (size m <= fuel + mk)%nat -> (size (fw_enforce_max_keys fuel mk m) <= mk)%nat.
Proof.
  revert m. induction fuel as [|fuel IH]; intros m Hf; [done|]. cbn [fw_enforce_max_keys].
  destruct (Nat.ltb_spec mk (size m)) as [Hlt|Hle]; [|done].
  destruct (oldest_key_Some window_start m) as (k & -> & [v Hk]).
  { intros ->. rewrite map_size_empty in Hlt. lia. }
  apply IH. rewrite map_size_delete_Some by eauto. lia.
Qed.

(** Room is made for a new key: at most [max_keys] entries stay. *)
Lemma sw_make_room_size key l w :
  (size (sw_entries l) <= S (sw_max_keys l))%nat ->
  let m := fst (sw_make_room key l w) in
  (size m <= sw_max_keys l)%nat \/ (m = sw_entries l /\ is_Some (m !! key)).
Proof.
  intros Hs. unfold sw_make_room. destruct (Nat.leb_spec (sw_max_keys l) (size (sw_entries l))).
  - destruct (sw_entries l !! key) eqn:Hk; cbn; [right; rewrite Hk; eauto|left].
    apply sw_enforce_spec. lia.
  - cbn. left. lia.
Qed.

Lemma fw_make_room_size key l :
  (size (fw_entries l) <= S (fw_max_keys l))%nat ->
  let m := fw_make_room key l in
  (size m <= fw_max_keys l)%nat \/ (m = fw_entries l /\ is_Some (m !! key)).
Proof.
  intros Hs. unfold fw_make_room. destruct (Nat.leb_spec (fw_max_keys l) (size (fw_entries l))).
  - destruct (fw_entries l !! key) eqn:Hk; cbn; [right; rewrite Hk; eauto|left].
    apply fw_enforce_spec. lia.
  - cbn. left. lia.
Qed.

(** What [sw_admit] does, between two readings of the clock. *)
Lemma sw_admit_spec `{!MonotoneClock W} key entries l w :
  let '((r, l'), w') := sw_admit key entries l w in
  exists now t, (time_of w <= now <= t)%Z /\ (t <= time_of w')%Z /\
    sw_max_requests l' = sw_max_requests l /\ sw_window_size l' = sw_window_size l /\
    sw_max_keys l' = sw_max_keys l /\
    let kept := filter (fun x => duration_since now x < sw_window_size l)%Z
                  (requests (default (mkSliding []) (entries !! key))) in
    allowed r = (Z.of_nat (length kept) <? sw_max_requests l)%Z /\
    sw_entries l' = <[key := mkSliding (if allowed r then kept ++ [t] else kept)]> entries.
Proof.
  unfold sw_admit, cleanup_old_requests, ebind, eret.
  pose proof (instant_now_mono w) as Hm1. destruct (instant_now w) as [now w1]. cbn [fst snd requests] in *.
  set (kept := filter _ _). destruct (Z.of_nat (length kept) <? sw_max_requests l)%Z eqn:Hb.
  - pose proof (instant_now_mono w1) as Hm2. destruct (instant_now w1) as [t w2]. cbn [fst snd] in Hm2.
    pose proof (system_millis_mono w2) as Hm3. destruct (system_millis w2) as [ts w3]. cbn [fst snd] in Hm3.
    exists now, t. cbv zeta. fold kept. rewrite Hb. cbn. split_and!; done || lia.
  - destruct (head kept) as [t0|].
    + pose proof (instant_now_mono w1) as Hm2. destruct (instant_now w1) as [t w2]. cbn [fst snd] in Hm2.
      pose proof (system_millis_mono w2) as Hm3. destruct (system_millis w2) as [ts w3]. cbn [fst snd] in Hm3.
      pose proof (system_millis_mono w3) as Hm4. destruct (system_millis w3) as [ts' w4]. cbn [fst snd] in Hm4.
      exists now, now. cbv zeta. fold kept. rewrite Hb. cbn. split_and!; done || lia.
    + pose proof (system_millis_mono w1) as Hm2. destruct (system_millis w1) as [ts w2]. cbn [fst snd] in Hm2.
      exists now, now. cbv zeta. fold kept. rewrite Hb. cbn. split_and!; done || lia.
Qed.

(** * The sliding window bound *)

Inductive LimiterCall : Type := CallAcquire (key : string) | CallReset (key : string).

Definition call_key (c : LimiterCall) : string :=
  match c with CallAcquire key => key | CallReset key => key end.

(** What a caller sees of a call: the answer, between two readings of the clock. *)
Record Answer : Type := mkAnswer { granted : bool; from : Z; til : Z }.

Inductive LimiterEvent : Type := Answered (key : string) (a : Answer) | WasReset (key : string).

(** A sequence of calls: what their caller sees, and the limiter they leave. *)
Fixpoint sw_run (cs : list LimiterCall) (l : SlidingWindowRateLimiter) :
    Eff W (list LimiterEvent * SlidingWindowRateLimiter) :=
  match cs with
  | [] => eret ([], l)
  | CallAcquire key :: cs =>
      let* t0 := instant_now in
      let* (r, l1) := sw_acquire key l in
      let* t1 := instant_now in
      let* (log, l2) := sw_run cs l1 in
      eret (Answered key (mkAnswer (allowed r) t0 t1) :: log, l2)
  | CallReset key :: cs =>
      let* (log, l2) := sw_run cs (sw_reset key l) in eret (WasReset key :: log, l2)
  end.

(** The answers for [key] since it was last reset. *)
Definition hear (key : string) (l : list Answer) (e : LimiterEvent) : list Answer :=
  match e with
  | Answered k a => if decide (k = key) then l ++ [a] else l
  | WasReset k => if decide (k = key) then [] else l
  end.

Definition answers (key : string) (log : list LimiterEvent) : list Answer := foldl (hear key) [] log.

(** The requests allowed from [a] until [window] later; those allowed less than [window] before [t]. *)
Definition allowed_within (a window : Z) (l : list Answer) : list Answer :=
  filter (fun x => granted x = true /\ a <= from x /\ til x < a + window)%Z l.

Definition allowed_before (t window : Z) (l : list Answer) : list Answer :=
  filter (fun x => granted x = true /\ t < til x + window)%Z l.

(** Who is rejected has had all requests of a window allowed. *)
Definition rejections_due (max window : Z) (l : list Answer) : Prop :=
  forall pre x post, l = pre ++ x :: post -> granted x = false ->
    (max <= Z.of_nat (length (allowed_before (from x) window pre)))%Z.

Lemma answers_snoc key log e : answers key (log ++ [e]) = hear key (answers key log) e.
Proof. unfold answers. by rewrite foldl_app. Qed.

Lemma rejections_due_snoc max window l x : rejections_due max window l ->
  (granted x = false -> max <= Z.of_nat (length (allowed_before (from x) window l)))%Z ->
  rejections_due max window (l ++ [x]).
Proof.
  intros Hl Hx pre y post Heq Hy. destruct post as [|z post' _] using rev_ind.
  - apply app_inj_tail in Heq as [<- <-]. by apply Hx.
  - rewrite app_comm_cons, app_assoc in Heq. apply app_inj_tail in Heq as [-> _]. by eapply Hl.
Qed.

Definition recent (T window : Z) (l : list Z) : list Z :=
  filter (fun x => duration_since T x < window)%Z l.

Definition in_window (a window : Z) (l : list Z) : list Z :=
  filter (fun x => a <= x /\ x < a + window)%Z l.

Lemma recent_app T window l1 l2 : recent T window (l1 ++ l2) = recent T window l1 ++ recent T window l2.
Proof. apply filter_app. Qed.

Lemma recent_recent now T window l : (now <= T)%Z -> recent T window (recent now window l) = recent T window l.
Proof.
  intros HT. unfold recent. induction l as [|x l IH]; [done|]. rewrite !filter_cons.
  destruct (decide (duration_since now x < window)%Z) as [Hn|Hn].
  - rewrite filter_cons. by rewrite IH.
  - rewrite (decide_False (P := (duration_since T x < window)%Z)); [done|].
    unfold duration_since in *. lia.
Qed.

(** What holds of the requests kept for a key and the grants [g] of that key up to [now]. *)
Record key_inv (max window : Z) (rs g : list Z) (now : Z) : Prop := {
  ki_len : (Z.of_nat (length rs) <= max)%Z;
  ki_recent : forall T, (now <= T)%Z -> recent T window g = recent T window rs;
  ki_past : Forall (fun x => x <= now)%Z g;
  ki_bound : forall a, (Z.of_nat (length (in_window a window g)) <= max)%Z;
}.

Lemma key_inv_later max window rs g now now' :
  (now <= now')%Z -> key_inv max window rs g now -> key_inv max window rs g now'.
Proof.
  intros Hle [Hl Hr Hp Hb]. split; [done| | |done].
  - intros T HT. apply Hr. lia.
  - eapply Forall_impl; [exact Hp|]. cbn. lia.
Qed.

Lemma key_inv_cleanup max window rs g now : key_inv max window rs g now ->
  key_inv max window (recent now window rs) g now.
Proof.
  intros [Hl Hr Hp Hb]. split; [| |done|done].
  - unfold recent. pose proof (length_filter (fun x => duration_since now x < window)%Z rs). lia.
  - intros T HT. rewrite recent_recent by done. by apply Hr.
Qed.

Lemma in_window_recent a window t l :
  (a <= t < a + window)%Z -> Forall (fun x => x <= t)%Z l ->
  (length (in_window a window l) <= length (recent t window l))%nat.
Proof.
  intros Ht. unfold in_window, recent. induction 1 as [|x l Hx Hl IH]; [done|].
  rewrite !filter_cons. destruct (decide (a <= x /\ x < a + window)%Z) as [Hin|Hin].
  - rewrite decide_True by (unfold duration_since; lia). cbn. lia.
  - case_decide; cbn; lia.
Qed.

Lemma key_inv_grant max window rs g now t :
  key_inv max window rs g now -> (now <= t)%Z ->
  (Z.of_nat (length (recent now window rs)) < max)%Z ->
  key_inv max window (recent now window rs ++ [t]) (g ++ [t]) t.
Proof.
  intros Hi Ht Hlen. pose proof (key_inv_cleanup _ _ _ _ _ Hi) as [_ Hr Hp Hb].
  assert (Hp' : Forall (fun x => x <= t)%Z (g ++ [t])).
  { apply Forall_app. split; [|by repeat constructor]. eapply Forall_impl; [exact Hp|]. cbn. lia. }
  split; [rewrite length_app; cbn; lia| |done|].
  - intros T HT. rewrite !recent_app. f_equal. apply Hr. lia.
  - intros a. destruct (decide (a <= t < a + window)%Z) as [Hin|Hout].
    + pose proof (in_window_recent a window t (g ++ [t]) Hin Hp') as Hle.
      rewrite recent_app, (Hr t ltac:(lia)), length_app in Hle.
      pose proof (length_filter (fun x => duration_since t x < window)%Z (recent now window rs)) as H1.
      pose proof (length_filter (fun x => duration_since t x < window)%Z [t]) as H2.
      unfold recent at 1 in Hle. unfold recent at 2 in Hle. cbn [length] in H2. lia.
    + unfold in_window. rewrite filter_app, length_app.
      rewrite (filter_cons_False _ t) by lia. cbn. specialize (Hb a). unfold in_window in Hb. lia.
Qed.

Definition kept (key : string) (l : SlidingWindowRateLimiter) : list Z :=
  requests (default (mkSliding []) (sw_entries l !! key)).

(** The instants [g] recorded for the requests allowed, each between the readings of its caller. *)
Definition recorded (l : list Answer) (g : list Z) : Prop :=
  Forall2 (fun x t => from x <= t <= til x)%Z (filter (fun x => granted x = true) l) g.

Lemma recorded_within l g a window : recorded l g ->
  (length (allowed_within a window l) <= length (in_window a window g))%nat.
Proof.
  unfold recorded, allowed_within, in_window. revert g. induction l as [|x l IH]; intros g Hg; [cbn; lia|].
  rewrite filter_cons in *. destruct (decide (granted x = true)) as [Hx|Hx].
  - apply Forall2_cons_inv_l in Hg as (t & g' & Ht & Hg & ->). specialize (IH g' Hg). rewrite filter_cons.
    case_decide as Hin; [rewrite decide_True by lia; cbn; lia|]. case_decide; cbn; lia.
  - specialize (IH g Hg). rewrite decide_False by naive_solver. lia.
Qed.

Lemma recorded_before l g now t window : recorded l g -> (t <= now)%Z ->
  (length (recent now window g) <= length (allowed_before t window l))%nat.
Proof.
  intros Hg Ht. unfold recorded, allowed_before, recent in *. revert g Hg. induction l as [|x l IH]; intros g Hg.
  { apply Forall2_nil_inv_l in Hg as ->. done. }
  rewrite filter_cons in *. destruct (decide (granted x = true)) as [Hx|Hx].
  - apply Forall2_cons_inv_l in Hg as (s & g' & Hs & Hg & ->). specialize (IH g' Hg). rewrite filter_cons.
    case_decide as Hin; [rewrite decide_True by (unfold duration_since in *; split; [done|lia]); cbn; lia|].
    case_decide; cbn; lia.
  - specialize (IH g Hg). rewrite decide_False by naive_solver. lia.
Qed.

(** What holds of the requests kept for a key and the answers for it up to [now]. *)
Definition key_ok (max window : Z) (rs : list Z) (as_ : list Answer) (now : Z) : Prop :=
  (exists g, recorded as_ g /\ key_inv max window rs g now) /\ rejections_due max window as_.

Lemma key_ok_empty max window now : (0 <= max)%Z -> key_ok max window [] [] now.
Proof.
  intros Hm. split; [exists []; split; [constructor|by split]|]. by intros [|? ?] ? ?.
Qed.

Lemma key_ok_later max window rs as_ now now' :
  (now <= now')%Z -> key_ok max window rs as_ now -> key_ok max window rs as_ now'.
Proof. intros Hle [(g & Hg & Hi) Hr]. split; [|done]. exists g. split; [done|]. by eapply key_inv_later. Qed.

(** One decision: the requests older than the window are forgotten, and when fewer than [max] are left
    the request is allowed and recorded. *)
Lemma key_ok_decision max window rs as_ t0 now t t1 :
  let left := recent now window rs in
  let ok := (Z.of_nat (length left) <? max)%Z in
  (t0 <= now <= t)%Z -> (t <= t1)%Z -> key_ok max window rs as_ t0 ->
  key_ok max window (if ok then left ++ [t] else left) (as_ ++ [mkAnswer ok t0 t1]) t1.
Proof.
  intros left ok Hnow Ht [(g & Hg & Hi) Hr]. apply (key_inv_later _ _ _ _ _ now) in Hi; [|lia]. split.
  - unfold recorded. rewrite filter_app, filter_cons. cbn [granted]. destruct ok eqn:Hok; cbn [decide].
    + exists (g ++ [t]). split.
      * rewrite decide_True by done. apply Forall2_app; [exact Hg|]. repeat constructor; cbn; lia.
      * apply (key_inv_later _ _ _ _ t); [lia|]. apply key_inv_grant; [done|lia|]. unfold ok in Hok. fold left. lia.
    + exists g. split; [by rewrite decide_False, app_nil_r by done|].
      apply (key_inv_later _ _ _ _ now); [lia|]. by apply key_inv_cleanup.
  - apply rejections_due_snoc; [done|]. cbn [granted from]. intros Hok.
    pose proof (recorded_before _ _ now t0 window Hg ltac:(lia)) as Hle. rewrite (ki_recent _ _ _ _ _ Hi now) in Hle by lia.
    unfold ok, left in Hok. lia.
Qed.

Section Bound.
Context `{!MonotoneClock W} (max window : Z) (mk : nat) (S : gset string).
Hypothesis keys_fit : (size S <= mk)%nat.
Hypothesis max_nonneg : (0 <= max)%Z.

Record sw_inv (l : SlidingWindowRateLimiter) (log : list LimiterEvent) (w : W) : Prop := {
  si_max : sw_max_requests l = max;
  si_window : sw_window_size l = window;
  si_keys : sw_max_keys l = mk;
  si_dom : dom (sw_entries l) ⊆ S;
  si_key : forall k, key_ok max window (kept k l) (answers k log) (time_of w);
}.

Lemma sw_make_room_fits key l log w : sw_inv l log w -> sw_make_room key l w = (sw_entries l, w).
Proof using keys_fit.
  intros Hi. unfold sw_make_room. destruct (_ && _); [|done].
  apply sw_enforce_spec; [lia|]. rewrite (si_keys _ _ _ Hi), <- size_dom.
  etransitivity; [apply subseteq_size, (si_dom _ _ _ Hi)|exact keys_fit].
Qed.

(** An [acquire] between two readings of the clock. *)
Lemma sw_acquire_inv key l log w :
  key ∈ S -> sw_inv l log w ->
  let '(t0, w0) := instant_now w in
  let '((r, l'), w1) := sw_acquire key l w0 in
  let '(t1, w2) := instant_now w1 in
  sw_inv l' (log ++ [Answered key (mkAnswer (allowed r) t0 t1)]) w2.
Proof using keys_fit max_nonneg.
  intros Hk Hi. pose proof (instant_now_mono w) as Hm0. destruct (instant_now w) as [t0 w0]. cbn [fst snd] in Hm0.
  assert (Hi0 : sw_inv l log w0).
  { destruct Hi as [? ? ? ? Hkey]. split; [done..|]. intros k. eapply key_ok_later; [|apply Hkey]. lia. }
  unfold sw_acquire. rewrite (ebind_run _ _ _ _ _ (sw_make_room_fits key l log w0 Hi0)).
  pose proof (sw_admit_spec key (sw_entries l) l w0) as Ha.
  destruct (sw_admit key (sw_entries l) l w0) as [[r l'] w1].
  destruct Ha as (now & t & Hnow & Ht & Hmax & Hwin & Hkeys & Hal & He). cbv zeta in Hal, He.
  rewrite (si_max _ _ _ Hi) in *. rewrite (si_window _ _ _ Hi) in *.
  fold (kept key l) (recent now window (kept key l)) in Hal, He.
  pose proof (instant_now_mono w1) as Hm1. destruct (instant_now w1) as [t1 w2]. cbn [fst snd] in Hm1.
  split; [congruence..|by rewrite Hkeys, (si_keys _ _ _ Hi)| |].
  - rewrite He, dom_insert. pose proof (si_dom _ _ _ Hi). set_solver.
  - intros k. rewrite answers_snoc. unfold kept. rewrite He. cbn [hear]. destruct (decide (key = k)) as [<-|Hne].
    + rewrite lookup_insert_eq. cbn [default from_option requests id]. rewrite Hal. apply (key_ok_later _ _ _ _ t1); [lia|].
      apply (key_ok_decision _ _ _ _ t0 now t t1); [lia|lia|]. eapply key_ok_later; [|apply (si_key _ _ _ Hi)]. lia.
    + rewrite lookup_insert_ne by done. eapply key_ok_later; [|apply (si_key _ _ _ Hi)]. lia.
Qed.

Lemma sw_reset_inv key l log w : sw_inv l log w -> sw_inv (sw_reset key l) (log ++ [WasReset key]) w.
Proof using keys_fit max_nonneg.
  intros [? ? ? ? Hkey]. split; [done..| |].
  - cbn. rewrite dom_delete. set_solver.
  - intros k. rewrite answers_snoc. unfold kept. cbn [hear sw_entries sw_reset]. destruct (decide (key = k)) as [<-|Hne].
    + rewrite lookup_delete_eq. by apply key_ok_empty.
    + rewrite lookup_delete_ne by done. apply Hkey.
Qed.

Lemma sw_run_inv cs l log w : (forall c, c ∈ cs -> call_key c ∈ S) -> sw_inv l log w ->
  let '((log', l'), w') := sw_run cs l w in sw_inv l' (log ++ log') w'.
Proof using keys_fit max_nonneg.
  revert l log w. induction cs as [|c cs IH]; intros l log w HS Hi.
  { cbn. by rewrite app_nil_r. }
  assert (HS' : forall c, c ∈ cs -> call_key c ∈ S) by (intros; apply HS; by right).
  pose proof (HS c ltac:(left)) as Hc. destruct c as [key|key]; cbn [sw_run call_key] in *; unfold ebind, eret.
  - pose proof (sw_acquire_inv key l log w Hc Hi) as Ha. destruct (instant_now w) as [t0 w0].
    destruct (sw_acquire key l w0) as [[r l1] w1]. destruct (instant_now w1) as [t1 w2].
    specialize (IH l1 _ w2 HS' Ha). destruct (sw_run cs l1 w2) as [[log' l2] w3]. by rewrite <- app_assoc in IH.
  - specialize (IH _ _ w HS' (sw_reset_inv key l log w Hi)).
    destruct (sw_run cs (sw_reset key l) w) as [[log' l2] w3]. by rewrite <- app_assoc in IH.
Qed.
End Bound.

(** C30. The sliding window, seen by its callers.  They note each answer with a reading of the clock
    before and one after the call; the keys used fit into [max_keys], and the clock advances in any way.
    Since its last reset, no interval of the length of the window contains more than [max_requests]
    requests of a key that were allowed, and a request is rejected only when at least [max_requests]
    were allowed before it of which each was answered less than a window before the rejected call began.  No key keeps more
    than [max_requests] instants. *)
Theorem sliding_window_bound `{!MonotoneClock W} (max window : Z) (mk : nat) (cs : list LimiterCall)
    (w : W) :
  (0 <= max)%Z -> (size (list_to_set (call_key <$> cs) : gset string) <= mk)%nat ->
  let '((log, l), w') := sw_run cs (sw_with_max_keys mk (sw_new max window)) w in
  forall k,
    (forall a, Z.of_nat (length (allowed_within a window (answers k log))) <= max)%Z /\
    rejections_due max window (answers k log) /\
    (Z.of_nat (length (kept k l)) <= max)%Z.
Proof.
  intros Hmax Hfit.
  pose proof (sw_run_inv max window mk (list_to_set (call_key <$> cs)) Hfit Hmax cs
    (sw_with_max_keys mk (sw_new max window)) [] w) as Hrun.
  destruct (sw_run cs _ w) as [[log l] w'].
  assert (sw_inv max window mk (list_to_set (call_key <$> cs)) l log w') as Hi.
  { apply Hrun; [intros c Hc; apply elem_of_list_to_set, list_elem_of_fmap; eauto|].
    split; [done..|cbn; rewrite dom_empty; apply empty_subseteq|]. intros k.
    unfold kept. cbn. rewrite lookup_empty. by by apply key_ok_empty. }
  intros k. destruct (si_key _ _ _ _ _ _ _ Hi k) as [(g & Hg & Hkey) Hr]. split_and!; [|done|apply (ki_len _ _ _ _ _ Hkey)].
  intros a. pose proof (recorded_within _ _ a window Hg). pose proof (ki_bound _ _ _ _ _ Hkey a). lia.
Qed.

(** * The number of keys *)

Definition sw_call (c : LimiterCall) (l : SlidingWindowRateLimiter) : Eff W SlidingWindowRateLimiter :=
  match c with
  | CallAcquire key => let* (_, l') := sw_acquire key l in eret l'
  | CallReset key => eret (sw_reset key l)
  end.

Definition fw_call (c : LimiterCall) (l : FixedWindowRateLimiter) : Eff W FixedWindowRateLimiter :=
  match c with
  | CallAcquire key => let* (_, l') := fw_acquire key l in eret l'
  | CallReset key => eret (fw_reset key l)
  end.

Fixpoint run_calls {L} (call : LimiterCall -> L -> Eff W L) (cs : list LimiterCall) (l : L) : Eff W L :=
  match cs with
  | [] => eret l
  | c :: cs => let* l' := call c l in run_calls call cs l'
  end.

Lemma run_calls_invariant {L} (call : LimiterCall -> L -> Eff W L) (P : L -> Prop) cs l w :
  (forall c l w, P l -> P (fst (call c l w))) -> P l -> P (fst (run_calls call cs l w)).
Proof.
  intros Hstep. revert l w. induction cs as [|c cs IH]; intros l w Hl; [done|].
  cbn [run_calls]. unfold ebind. specialize (Hstep c l w Hl).
  destruct (call c l w) as [l' w']. by apply IH.
Qed.

Lemma sw_acquire_size `{!MonotoneClock W} key l w :
  (size (sw_entries l) <= S (sw_max_keys l))%nat ->
  let '((_, l'), _) := sw_acquire key l w in
  sw_max_keys l' = sw_max_keys l /\ (size (sw_entries l') <= S (sw_max_keys l))%nat /\
  (size (sw_entries l) = sw_max_keys l -> sw_entries l !! key = None ->
     size (sw_entries l') = S (sw_max_keys l)).
Proof.
  intros Hs. unfold sw_acquire, ebind. pose proof (sw_make_room_size key l w Hs) as Hr. cbv zeta in Hr.
  assert (Hfull : size (sw_entries l) = sw_max_keys l -> fst (sw_make_room key l w) = sw_entries l).
  { intros Hf. unfold sw_make_room. destruct (_ && _); [|done].
    by rewrite (proj2 (sw_enforce_spec (size (sw_entries l)) (sw_max_keys l) (sw_entries l) w
      ltac:(lia))) by lia. }
  destruct (sw_make_room key l w) as [m w1]. cbn [fst] in *.
  pose proof (sw_admit_spec key m l w1) as Ha. destruct (sw_admit key m l w1) as [[r l'] w'].
  destruct Ha as (now & t & _ & _ & _ & _ & Hk & _ & He). cbv zeta in He. rewrite He.
  split; [done|]. rewrite map_size_insert. split.
  - destruct Hr as [Hr|[-> [e Hr]]]; [destruct (m !! key); cbn; lia|by rewrite Hr].
  - intros Hf Hn. rewrite (Hfull Hf), Hn. cbn. lia.
Qed.

Lemma fw_acquire_size key l w :
  (size (fw_entries l) <= S (fw_max_keys l))%nat ->
  let '((_, l'), _) := fw_acquire key l w in
  fw_max_keys l' = fw_max_keys l /\ (size (fw_entries l') <= S (fw_max_keys l))%nat /\
  (size (fw_entries l) = fw_max_keys l -> fw_entries l !! key = None ->
     size (fw_entries l') = S (fw_max_keys l)).
Proof.
  intros Hs. pose proof (fw_make_room_size key l Hs) as Hr. cbv zeta in Hr.
  assert (Hfull : size (fw_entries l) = fw_max_keys l -> fw_make_room key l = fw_entries l).
  { intros Hf. unfold fw_make_room. destruct (_ && _); [|done].
    destruct (size (fw_entries l)) as [|n] eqn:Hn; [done|]. cbn [fw_enforce_max_keys].
    by rewrite (proj2 (Nat.ltb_ge _ _)) by lia. }
  unfold fw_acquire, ebind, eret. destruct (instant_now w) as [now w1].
  generalize (if (fw_window_size l <=?
    duration_since now (window_start (default (mkFixed 0 now) (fw_make_room key l !! key))))%Z
    then mkFixed 0 now else default (mkFixed 0 now) (fw_make_room key l !! key)) as e. intros e.
  assert (Hfin : forall e', (size (<[key := e']> (fw_make_room key l)) <= S (fw_max_keys l))%nat /\
    (size (fw_entries l) = fw_max_keys l -> fw_entries l !! key = None ->
      size (<[key := e']> (fw_make_room key l)) = S (fw_max_keys l))).
  { intros e'. rewrite map_size_insert. split.
    - destruct Hr as [Hr|[Heq [e0 Hr]]]; [destruct (fw_make_room key l !! key); cbn; lia|].
      rewrite Hr, Heq. done.
    - intros Hf Hn. rewrite (Hfull Hf), Hn. cbn. lia. }
  destruct (count e <? fw_max_requests l)%Z; destruct (system_millis w1) as [ts w2];
    (split; [done|apply Hfin]).
Qed.

(** The number of keys kept.  Both limiters hold at most [max_keys + 1] keys after any
    calls, and the bound is reached: eviction runs before the insertion and only above
    [max_keys], so a new key on a limiter with [max_keys] keys makes one more. *)
Theorem key_count_bound `{!MonotoneClock W} (max window : Z) (mk : nat) (calls : list LimiterCall)
    (key : string) (w : W) :
  let s := run_calls sw_call calls (sw_with_max_keys mk (sw_new max window)) w in
  let f := run_calls fw_call calls (fw_with_max_keys mk (fw_new max window)) w in
  (sw_key_count (fst s) <= S mk)%nat /\ (fw_key_count (fst f) <= S mk)%nat /\
  (sw_key_count (fst s) = mk -> sw_entries (fst s) !! key = None ->
     sw_key_count (snd (fst (sw_acquire key (fst s) (snd s)))) = S mk) /\
  (fw_key_count (fst f) = mk -> fw_entries (fst f) !! key = None ->
     fw_key_count (snd (fst (fw_acquire key (fst f) (snd f)))) = S mk).
Proof.
  cbv zeta.
  assert (Hs : (fun l => sw_max_keys l = mk /\ size (sw_entries l) <= S mk)%nat
    (fst (run_calls sw_call calls (sw_with_max_keys mk (sw_new max window)) w))).
  { apply run_calls_invariant.
    - intros [k|k] l w' [Hk Hl].
      + cbn [sw_call]. unfold ebind. pose proof (sw_acquire_size k l w' ltac:(lia)) as Ha.
        destruct (sw_acquire k l w') as [[r l'] w'']. cbn. destruct Ha as (? & ? & _). lia.
      + cbn. split; [done|]. rewrite map_size_delete. case_match; cbn; lia.
    - cbn. split; [done|]. rewrite map_size_empty. lia. }
  assert (Hf : (fun l => fw_max_keys l = mk /\ size (fw_entries l) <= S mk)%nat
    (fst (run_calls fw_call calls (fw_with_max_keys mk (fw_new max window)) w))).
  { apply run_calls_invariant.
    - intros [k|k] l w' [Hk Hl].
      + cbn [fw_call]. unfold ebind. pose proof (fw_acquire_size k l w' ltac:(lia)) as Ha.
        destruct (fw_acquire k l w') as [[r l'] w'']. cbn. destruct Ha as (? & ? & _). lia.
      + cbn. split; [done|]. rewrite map_size_delete. case_match; cbn; lia.
    - cbn. split; [done|]. rewrite map_size_empty. lia. }
  destruct (run_calls sw_call calls _ w) as [l w1], (run_calls fw_call calls _ w) as [l2 w2].
  cbn [fst snd] in *. destruct Hs as [Hs1 Hs2], Hf as [Hf1 Hf2]. split; [done|]. split; [done|].
  unfold sw_key_count, fw_key_count. rewrite <- Hs1 at 1 2. split.
  - pose proof (sw_acquire_size key l w1 ltac:(lia)) as Ha.
    destruct (sw_acquire key l w1) as [[r l'] w']. apply Ha.
  - pose proof (fw_acquire_size key l2 w2 ltac:(lia)) as Ha.
    destruct (fw_acquire key l2 w2) as [[r l'] w']. cbn. rewrite <- Hf1. apply Ha.
Qed.
End Limiters.

(** Two requests are allowed, the third is not until a reset. *)
Lemma sliding_window_bound_witness :
  let cs := CallAcquire <$> ["a"; "b"; "a"; "a"] in
  let as_ := answers "a" (fst (fst (sw_run cs (sw_with_max_keys 2 (sw_new 2 1000)) sim0))) in
  granted <$> as_ = [true; true; false] /\
  (Z.of_nat (length (allowed_within 0 1000 as_)) <= 2)%Z /\ rejections_due 2 1000 as_.
Proof.
  intros cs as_. pose proof (sliding_window_bound 2 1000 2 cs sim0 ltac:(lia) ltac:(vm_compute; lia)) as H.
  assert (Hg : granted <$> as_ = [true; true; false]) by (vm_compute; reflexivity).
  subst as_. destruct (sw_run cs _ sim0) as [[log l] w']. destruct (H "a") as (H1 & H2 & _).
  split; [exact Hg|]. split; [apply H1|exact H2].
Defined.

Lemma key_count_bound_witness :
  let s := run_calls sw_call [CallAcquire "a"] (sw_with_max_keys 1 (sw_new 5 1000)) sim0 in
  sw_key_count (snd (fst (sw_acquire "b" (fst s) (snd s)))) = 2%nat.
Proof.
  apply (key_count_bound 5 1000 1 [CallAcquire "a"] "b" sim0); reflexivity.
Defined.
