(* ===== verification/AuditChain.v ===== *)
(** The audit log: [packages/sz-orm-audit/src/hash_chain_enhanced.rs].  The hash chain, the
    masking of sensitive values, Merkle trees and proofs, and the auditor that combines
    them. *)

From Stdlib Require Import Ascii String.
From S2P Require Import Prelude SqlText Value.
Local Open Scope string_scope.
#[local] Arguments String.append !_ _ : simpl nomatch.

(** * Entries *)

Inductive AuditOpType : Type :=
| OpSelect | OpInsert | OpUpdate | OpDelete | OpDdl | OpPermissionChange | OpMaskingConfigChange.

Inductive AuditResult : Type := AuditSuccess | AuditFailed.

(** [s.trim_start()] *)
Definition trim_start (s : string) : string := strip_prefixes (String.length s) whitespace s.

Definition from_sql (sql : string) : AuditOpType :=
  let lower := lowercase (trim_start sql) in
  if starts_with "select" lower then OpSelect
  else if starts_with "insert" lower then OpInsert
  else if starts_with "update" lower then OpUpdate
  else if starts_with "delete" lower then OpDelete
  else if starts_with "create" lower || starts_with "alter" lower || starts_with "drop" lower
          || starts_with "truncate" lower then OpDdl
  else if starts_with "grant" lower || starts_with "revoke" lower then OpPermissionChange
  else if starts_with "masking_rule_update" lower then OpMaskingConfigChange
  else OpSelect.

Definition debug_op_type (t : AuditOpType) : string :=
  match t with
  | OpSelect => "Select" | OpInsert => "Insert" | OpUpdate => "Update" | OpDelete => "Delete"
  | OpDdl => "Ddl" | OpPermissionChange => "PermissionChange"
  | OpMaskingConfigChange => "MaskingConfigChange"
  end.

Definition debug_result (r : AuditResult) : string :=
  match r with AuditSuccess => "Success" | AuditFailed => "Failed" end.

Record EnhancedAuditEntry : Type := mkAudit {
  subject : string;
  object : string;
  timestamp : Z;
  op_type : AuditOpType;
  au_result : AuditResult;
  source_ip : string;
  sql : string;
}.

Record HashChainEnhancedEntry : Type := mkChainEntry {
  entry : EnhancedAuditEntry;
  prev_hash : string;
  hash : string;
}.

(** [i64::to_le_bytes] *)
Fixpoint le_bytes (n : nat) (z : Z) : string :=
  match n with
  | O => EmptyString
  | S n => String (ascii_of_nat (Z.to_nat (z mod 256))) (le_bytes n (z / 256))
  end.

Definition to_le_bytes (z : Z) : string := le_bytes 8 (z mod 2 ^ 64).

(** ["0".repeat(64)] *)
Definition zeros : string := "0000000000000000000000000000000000000000000000000000000000000000".

(** * Masking *)

Definition ZK_SENSITIVE_KEYWORDS : list string :=
  ["password"; "pwd"; "secret"; "token"; "api_key"; "access_key"; "credit_card"; "cvv"; "ssn"].

Record DesensitizedEntry : Type := mkDesensitized {
  d_subject : string;
  d_object : string;
  d_timestamp : Z;
  d_op_type : string;
  d_result : string;
  d_source_ip : string;
  desensitized_sql : string;
}.

Definition is_ident (c : ascii) : bool := is_ascii_alphanumeric c || Ascii.eqb c "_".

Definition is_blank (c : ascii) : bool := Ascii.eqb c " " || Ascii.eqb c "009".

(** The longest prefix whose characters satisfy [p], and the rest. *)
Fixpoint span (p : ascii -> bool) (s : string) : string * string :=
  match s with
  | String c s' => if p c then let '(a, b) := span p s' in (String c a, b) else (EmptyString, s)
  | EmptyString => (EmptyString, EmptyString)
  end.

(** The character before a position, after the text [s] from [prev]. *)
Fixpoint last_char (prev : option ascii) (s : string) : option ascii :=
  match s with EmptyString => prev | String c s => last_char (Some c) s end.

(** The text after its first [n] characters. *)
Fixpoint skip (n : nat) (s : string) : string :=
  match n, s with S n, String _ s => skip n s | _, _ => s end.

Definition head_is (p : ascii -> bool) (s : string) : bool :=
  match s with String c _ => p c | EmptyString => false end.

(** The keyword at the head of [s], not inside a longer word. *)
Definition keyword_at (prev : option ascii) (s : string) : option string :=
  snd <$> list_find (fun kw =>
    starts_with kw (to_lowercase s)
    && negb (match prev with Some c => is_ident c | None => false end)
    && negb (head_is is_ident (skip (String.length kw) s)) = true) ZK_SENSITIVE_KEYWORDS.

(** The loop of [zk_mask_sql] from a position: [prev] is the character before it, [s] the
    text from it on.  Every turn consumes a character, so the length of the text is fuel
    enough.  A character of several bytes is pushed byte by byte. *)
Fixpoint mask_loop (fuel : nat) (prev : option ascii) (s : string) : string :=
  match fuel with
  | O => EmptyString
  | S fuel =>
      match s with
      | EmptyString => EmptyString
      | String c s' =>
          match keyword_at prev s with
          | None => String c (mask_loop fuel (Some c) s')
          | Some kw =>
              let rest := skip (String.length kw) s in
              let prev := last_char None kw in
              let '(ws, s2) := span is_blank rest in
              "******" +:+ ws +:+
              match s2 with
              | String "=" s3 =>
                  let '(ws2, s4) := span is_blank s3 in
                  "=" +:+ ws2 +:+
                  match s4 with
                  | String q s5 =>
                      if Ascii.eqb q squote || Ascii.eqb q dquote then
                        let '(_, s6) := span (fun x => negb (Ascii.eqb x q)) s5 in
                        chr q +:+ "******" +:+
                        match s6 with
                        | String q' s7 => chr q' +:+ mask_loop fuel (Some q') s7
                        | EmptyString => EmptyString
                        end
                      else mask_loop fuel (last_char (Some "="%char) ws2) s4
                  | EmptyString => EmptyString
                  end
              | _ => mask_loop fuel prev rest
              end
          end
      end
  end.

Definition zk_mask_sql (s : string) : string := mask_loop (String.length s) None s.

Definition from_enhanced (e : EnhancedAuditEntry) : DesensitizedEntry :=
  mkDesensitized (subject e) (object e) (timestamp e) (debug_op_type (op_type e))
    (debug_result (au_result e)) (source_ip e) (zk_mask_sql (sql e)).

Definition contains_sensitive (d : DesensitizedEntry) : bool :=
  let lower := to_lowercase (desensitized_sql d) in
  existsb (fun kw => contains_text kw lower) ZK_SENSITIVE_KEYWORDS.

Example mask_example :
  zk_mask_sql "UPDATE u SET Password = 'x;y', pwd_hash = 'k' WHERE token  1"
  = "UPDATE u SET ****** = '******', pwd_hash = 'k' WHERE ******    1".
Proof. reflexivity. Qed.

(** * Hashing *)

Record MerkleNode : Type := mkNode { sibling_hash : string; is_left : bool }.

Record MerkleProof : Type := mkProof {
  root_hash : string;
  leaf_hash_of : string;
  path : list MerkleNode;
  leaf_index : nat;
}.

Inductive ZkAuditError : Type := EmptyChain | IndexOutOfRange | VerifyFailed | WriteFailed.

Record HashChainEnhancedAuditor : Type := mkAuditor {
  entries : list HashChainEnhancedEntry;
  write_failed : bool;
}.

Section Hashing.
(** [Sha256::digest], of the crate [sha2]: the 32 bytes of the digest. *)
Context (sha256 : string -> list ascii).

(** [compute_hash] and the Merkle hashes render the digest in hexadecimal. *)
Definition hex_string (bytes : list ascii) : string := hex_encode bytes.

(** The fields in the order they are fed to the hasher. *)
Definition payload (e : EnhancedAuditEntry) : string :=
  subject e +:+ object e +:+ to_le_bytes (timestamp e) +:+ debug_op_type (op_type e)
  +:+ debug_result (au_result e) +:+ source_ip e +:+ sql e.

Definition compute_hash (prev : string) (e : EnhancedAuditEntry) : string :=
  hex_string (sha256 (prev +:+ payload e)).

Definition genesis (e : EnhancedAuditEntry) : HashChainEnhancedEntry :=
  mkChainEntry e zeros (compute_hash zeros e).

Definition chain_append (prev : string) (e : EnhancedAuditEntry) : HashChainEnhancedEntry :=
  mkChainEntry e prev (compute_hash prev e).

(** ** The chain *)

Definition auditor_new : HashChainEnhancedAuditor := mkAuditor [] false.

Definition log (e : EnhancedAuditEntry) (a : HashChainEnhancedAuditor) :
    result unit string * HashChainEnhancedAuditor :=
  if write_failed a then (Err "AUDIT_LOG_FAILED: 审计日志写入失败，查询拒绝执行", a)
  else
    let prev := match last (entries a) with Some x => hash x | None => zeros end in
    let chain_entry :=
      match entries a with [] => genesis e | _ => chain_append prev e end in
    (Ok tt, mkAuditor (entries a ++ [chain_entry])%list (write_failed a)).

(** The loop of [verify_chain] from an index, with the hash expected before it. *)
Fixpoint verify_from (expected_prev : string) (l : list HashChainEnhancedEntry) : bool :=
  match l with
  | [] => true
  | x :: l =>
      if negb (String.eqb (prev_hash x) expected_prev) then false
      else if negb (String.eqb (hash x) (compute_hash (prev_hash x) (entry x))) then false
      else verify_from (hash x) l
  end.

Definition verify_chain (a : HashChainEnhancedAuditor) : bool := verify_from zeros (entries a).

Definition set_write_failed (a : HashChainEnhancedAuditor) : HashChainEnhancedAuditor :=
  mkAuditor (entries a) true.

Definition clear_write_failed (a : HashChainEnhancedAuditor) : HashChainEnhancedAuditor :=
  mkAuditor (entries a) false.

(** ** Merkle trees *)

Definition leaf_hash (d : DesensitizedEntry) : string :=
  hex_string (sha256 (d_subject d +:+ d_object d +:+ to_le_bytes (d_timestamp d) +:+ d_op_type d
    +:+ d_result d +:+ d_source_ip d +:+ desensitized_sql d)).

Definition parent_hash (x y : string) : string := hex_string (sha256 (x +:+ y)).

(** The layer above: an odd node is paired with itself. *)
Fixpoint next_layer (layer : list string) : list string :=
  match layer with
  | x :: y :: rest => parent_hash x y :: next_layer rest
  | [x] => [parent_hash x x]
  | [] => []
  end.

(** [while layer.len() > 1]: a layer of more than one node is shorter by the next, so its
    length is fuel enough. *)
Fixpoint climb (fuel : nat) (layer : list string) : list string :=
  match fuel with
  | O => layer
  | S fuel => if (1 <? length layer)%nat then climb fuel (next_layer layer) else layer
  end.

Definition build_root (l : list DesensitizedEntry) : string :=
  match l with
  | [] => zeros
  | _ => default "" (head (climb (length l) (leaf_hash <$> l)))
  end.

Definition sibling_index (len idx : nat) : nat :=
  if (idx mod 2 =? 0)%nat then (if (idx + 1 <? len)%nat then idx + 1 else idx)%nat else (idx - 1)%nat.

Fixpoint proof_loop (fuel : nat) (layer : list string) (idx : nat) : list MerkleNode * list string :=
  match fuel with
  | O => ([], layer)
  | S fuel =>
      if (1 <? length layer)%nat then
        let node := mkNode (default "" (layer !! sibling_index (length layer) idx))
                      (idx mod 2 =? 1)%nat in
        let '(p, top) := proof_loop fuel (next_layer layer) (idx / 2) in
        (node :: p, top)
      else ([], layer)
  end.

Definition generate_proof (l : list DesensitizedEntry) (index : nat) : result MerkleProof ZkAuditError :=
  match l with
  | [] => Err EmptyChain
  | _ =>
      match l !! index with
      | None => Err IndexOutOfRange
      | Some d =>
          let '(p, top) := proof_loop (length l) (leaf_hash <$> l) index in
          Ok (mkProof (default "" (head top)) (leaf_hash d) p index)
      end
  end.

Definition verify_step (computed : string) (node : MerkleNode) : string :=
  if is_left node then parent_hash (sibling_hash node) computed
  else parent_hash computed (sibling_hash node).

Definition verify (proof : MerkleProof) (expected_root : string) : bool :=
  String.eqb (fold_left verify_step (path proof) (leaf_hash_of proof)) expected_root.

(** ** The zero-knowledge auditor *)

Record ZkAuditResult : Type := mkZkResult {
  zk_entry : DesensitizedEntry;
  merkle_proof : MerkleProof;
  chain_hash : string;
  entry_index : nat;
}.

Record ZeroKnowledgeAuditor : Type := mkZk {
  chain : HashChainEnhancedAuditor;
  desensitized_entries : list DesensitizedEntry;
}.

Definition zk_new : ZeroKnowledgeAuditor := mkZk auditor_new [].

Definition log_zero_knowledge (e : EnhancedAuditEntry) (z : ZeroKnowledgeAuditor) :
    result ZkAuditResult ZkAuditError * ZeroKnowledgeAuditor :=
  let desensitized := from_enhanced e in
  let '(r, chain') := log e (chain z) in
  match r with
  | Err _ => (Err WriteFailed, mkZk chain' (desensitized_entries z))
  | Ok _ =>
      let es := (desensitized_entries z ++ [desensitized])%list in
      let z' := mkZk chain' es in
      let index := (length es - 1)%nat in
      match generate_proof es index with
      | Err _ => (Err IndexOutOfRange, z')
      | Ok proof =>
          let chain_hash := match last (entries chain') with Some x => hash x | None => zeros end in
          (Ok (mkZkResult desensitized proof chain_hash index), z')
      end
  end.

Definition verify_integrity (proof : MerkleProof) : result bool ZkAuditError :=
  Ok (verify proof (root_hash proof)).

Definition zk_verify_chain (z : ZeroKnowledgeAuditor) : bool := verify_chain (chain z).

Definition merkle_root (z : ZeroKnowledgeAuditor) : string := build_root (desensitized_entries z).

(** * The chain *)

Inductive AuditOp : Type := ALog (e : EnhancedAuditEntry) | ASetFailed | AClearFailed.

Definition audit_step (a : HashChainEnhancedAuditor) (op : AuditOp) : HashChainEnhancedAuditor :=
  match op with
  | ALog e => snd (log e a)
  | ASetFailed => set_write_failed a
  | AClearFailed => clear_write_failed a
  end.

(** The entries logged while writing was possible. *)
Fixpoint accepted (failed : bool) (ops : list AuditOp) : list EnhancedAuditEntry :=
  match ops with
  | [] => []
  | ALog e :: ops => if failed then accepted failed ops else e :: accepted failed ops
  | ASetFailed :: ops => accepted true ops
  | AClearFailed :: ops => accepted false ops
  end.

Definition last_hash (p : string) (l : list HashChainEnhancedEntry) : string :=
  match last l with Some x => hash x | None => p end.

Lemma last_hash_cons p x l : last_hash p (x :: l) = last_hash (hash x) l.
Proof. unfold last_hash. rewrite last_cons. by destruct (last l). Qed.

Lemma verify_from_cons p x l :
  verify_from p (x :: l) = true <->
  prev_hash x = p /\ hash x = compute_hash p (entry x) /\ verify_from (hash x) l = true.
Proof.
  cbn. destruct (String.eqb_spec (prev_hash x) p) as [->|?]; cbn; [|split; [done|tauto]].
  destruct (String.eqb_spec (hash x) (compute_hash p (entry x))); cbn; [|split; [done|tauto]].
  split; [done|tauto].
Qed.

Lemma verify_from_snoc p l x :
  verify_from p l = true -> prev_hash x = last_hash p l ->
  hash x = compute_hash (last_hash p l) (entry x) -> verify_from p (l ++ [x])%list = true.
Proof.
  revert p. induction l as [|y l IH]; intros p Hl Hp Hh.
  - apply verify_from_cons. by rewrite Hp, Hh.
  - apply verify_from_cons in Hl as (Hy1 & Hy2 & Hl). rewrite last_hash_cons in *.
    apply verify_from_cons. auto.
Qed.

Lemma log_accepted e a : write_failed a = false ->
  log e a = (Ok tt, mkAuditor (entries a ++ [chain_append (last_hash zeros (entries a)) e])%list false).
Proof.
  intros Hf. unfold log. rewrite Hf. unfold last_hash. destruct (entries a) as [|x l] eqn:He; [done|].
  destruct (last (x :: l)) eqn:Hl; [done|]. by apply last_None in Hl.
Qed.

Lemma log_verifies e a :
  verify_chain a = true -> verify_chain (snd (log e a)) = true.
Proof.
  intros Hv. destruct (write_failed a) eqn:Hf; [unfold log; by rewrite Hf|].
  rewrite (log_accepted _ _ Hf). by apply verify_from_snoc.
Qed.

(** The chain an auditor builds verifies.  After any sequence of logs and changes of the
    failure flag, [verify_chain] holds and the chain contains, in order, the entries logged
    while the flag was off; while it is on every [log] is an error that changes nothing. *)
Theorem audit_chain_verifies (ops : list AuditOp) (e : EnhancedAuditEntry) :
  let a := fold_left audit_step ops auditor_new in
  verify_chain a = true /\ entry <$> entries a = accepted false ops /\
  is_ok (fst (log e a)) = negb (write_failed a) /\ (write_failed a = true -> snd (log e a) = a).
Proof.
  assert (Hgen : forall a, verify_chain a = true -> let a' := fold_left audit_step ops a in
    verify_chain a' = true /\
    entry <$> entries a' = ((entry <$> entries a) ++ accepted (write_failed a) ops)%list).
  { induction ops as [|op ops IH]; intros a Ha; cbn [fold_left].
    { split; [done|]. cbn. by rewrite app_nil_r. }
    destruct op as [e'| |]; cbn [audit_step accepted].
    - destruct (IH (snd (log e' a)) (log_verifies _ _ Ha)) as [H1 H2]. split; [done|].
      rewrite H2. destruct (write_failed a) eqn:Hf; [unfold log; by rewrite Hf; cbn; rewrite Hf|].
      rewrite (log_accepted _ _ Hf). cbn [snd entries write_failed]. rewrite fmap_app.
      by rewrite <- app_assoc.
    - exact (IH (set_write_failed a) Ha).
    - exact (IH (clear_write_failed a) Ha). }
  cbv zeta. destruct (Hgen auditor_new eq_refl) as [H1 H2]. split; [done|]. split; [exact H2|].
  generalize (fold_left audit_step ops auditor_new). intros a. unfold log.
  destruct (write_failed a); done.
Qed.

(** * Tampering *)

Lemma hex_byte_inj x y : hex_byte x = hex_byte y -> x = y.
Proof.
  intros Heq. pose (value c := default 0%nat (fst <$> list_find (fun d => d = c)
    (String.list_ascii_of_string "0123456789abcdef"))).
  enough (forall z, ascii_of_nat (value (hex_digit (nat_of_ascii z / 16)) * 16
    + value (hex_digit (nat_of_ascii z mod 16))) = z) as Hz.
  { unfold hex_byte, chr in Heq.
    assert (hex_digit (nat_of_ascii x / 16) = hex_digit (nat_of_ascii y / 16) /\
      hex_digit (nat_of_ascii x mod 16) = hex_digit (nat_of_ascii y mod 16)) as [H1 H2]
      by (split; congruence).
    rewrite <- (Hz x), <- (Hz y). by rewrite H1, H2. }
  intros [[] [] [] [] [] [] [] []]; reflexivity.
Qed.

Lemma hex_encode_inj (a b : list ascii) : hex_encode a = hex_encode b -> a = b.
Proof.
  revert b. induction a as [|x a IH]; intros [|y b]; rewrite ?hex_encode_cons; try done.
  intros Heq. assert (hex_byte x = hex_byte y /\ hex_encode a = hex_encode b) as [Hx Hab].
  { unfold hex_byte, chr in *. rewrite !str_app_cons in Heq.
    split; [congruence|]. by injection Heq. }
  f_equal; [by apply hex_byte_inj|by apply IH].
Qed.

Lemma hex_encode_length (a : list ascii) : String.length (hex_encode a) = (2 * length a)%nat.
Proof.
  induction a as [|x a IH]; [done|]. rewrite hex_encode_cons, str_app_length, IH. cbn. lia.
Qed.

Lemma str_app_inj_len (a b c d : string) :
  String.length a = String.length b -> a +:+ c = b +:+ d -> a = b /\ c = d.
Proof.
  revert b. induction a as [|x a IH]; intros [|y b]; cbn; try done.
  intros [= Hl] [= -> H]. destruct (IH b Hl H) as [-> ->]. done.
Qed.

Lemma str_app_inj_r (a b c : string) : a +:+ c = b +:+ c -> a = b.
Proof.
  intros H. apply (str_app_inj_len a b c c); [|done]. apply (f_equal String.length) in H.
  rewrite !str_app_length in H. lia.
Qed.

Lemma le_bytes_inj n x y : le_bytes n x = le_bytes n y -> (x mod 256 ^ Z.of_nat n = y mod 256 ^ Z.of_nat n)%Z.
Proof.
  revert x y. induction n as [|n IH]; intros x y; [by rewrite !Z.mod_1_r|]. cbn [le_bytes]. intros [= Hb Hr].
  apply IH in Hr. apply (f_equal nat_of_ascii) in Hb.
  pose proof (Z.mod_pos_bound x 256 ltac:(lia)). pose proof (Z.mod_pos_bound y 256 ltac:(lia)).
  rewrite !nat_ascii_embedding in Hb by lia. rewrite Nat2Z.inj_succ, Z.pow_succ_r by lia.
  rewrite !Z.rem_mul_r by lia. apply (f_equal Z.of_nat) in Hb. rewrite !Z2Nat.id in Hb by lia. by rewrite Hb, Hr.
Qed.

Definition is_i64 (z : Z) : Prop := (- 2 ^ 63 <= z < 2 ^ 63)%Z.

Lemma to_le_bytes_inj x y : is_i64 x -> is_i64 y -> to_le_bytes x = to_le_bytes y -> x = y.
Proof.
  unfold is_i64, to_le_bytes. intros Hx Hy H%le_bytes_inj. change (256 ^ Z.of_nat 8)%Z with (2 ^ 64)%Z in H.
  rewrite !Z.mod_mod in H by lia. pose proof (Z.div_mod x (2 ^ 64) ltac:(lia)) as Ex.
  pose proof (Z.div_mod y (2 ^ 64) ltac:(lia)) as Ey. rewrite H in Ex. lia.
Qed.

(** Two entries that differ in one field. *)
Inductive one_field_changed : EnhancedAuditEntry -> EnhancedAuditEntry -> Prop :=
| subject_changed s s' o t ty r ip q : s <> s' -> one_field_changed (mkAudit s o t ty r ip q) (mkAudit s' o t ty r ip q)
| object_changed s o o' t ty r ip q : o <> o' -> one_field_changed (mkAudit s o t ty r ip q) (mkAudit s o' t ty r ip q)
| timestamp_changed s o t t' ty r ip q : t <> t' -> is_i64 t -> is_i64 t' ->
    one_field_changed (mkAudit s o t ty r ip q) (mkAudit s o t' ty r ip q)
| op_type_changed s o t ty ty' r ip q : ty <> ty' -> one_field_changed (mkAudit s o t ty r ip q) (mkAudit s o t ty' r ip q)
| result_changed s o t ty r r' ip q : r <> r' -> one_field_changed (mkAudit s o t ty r ip q) (mkAudit s o t ty r' ip q)
| source_ip_changed s o t ty r ip ip' q : ip <> ip' -> one_field_changed (mkAudit s o t ty r ip q) (mkAudit s o t ty r ip' q)
| sql_changed s o t ty r ip q q' : q <> q' -> one_field_changed (mkAudit s o t ty r ip q) (mkAudit s o t ty r ip q').

(** All fields of an entry in a row. *)
Definition record_text (e : EnhancedAuditEntry) : string :=
  String.concat "" [subject e; object e; to_le_bytes (timestamp e); debug_op_type (op_type e);
    debug_result (au_result e); source_ip e; sql e].

Lemma payload_record_text e : payload e = record_text e.
Proof. reflexivity. Qed.

Ltac cut_text H := repeat first [apply (inj (String.append _)) in H | apply str_app_inj_r in H].

Lemma one_field_changed_text e e' : one_field_changed e e' -> payload e <> payload e'.
Proof.
  unfold payload. intros Hc H. destruct Hc; cbn [subject object timestamp op_type au_result source_ip sql] in H; cut_text H; try congruence.
  - by apply to_le_bytes_inj in H.
  - destruct ty, ty'; cbn in H; congruence.
  - destruct r, r'; cbn in H; congruence.
Qed.

Section Tampering.
(** The digest has 32 bytes. *)
Hypothesis sha256_length : forall s, length (sha256 s) = 32%nat.

Definition collision : Prop := exists x y, x <> y /\ sha256 x = sha256 y.

Lemma chain_hash_length p l :
  String.length p = 64%nat -> verify_from p l = true -> String.length (last_hash p l) = 64%nat.
Proof using sha256_length.
  revert p. induction l as [|x l IH]; intros p Hp; [done|].
  intros (_ & Hh & Hl)%verify_from_cons. rewrite last_hash_cons. apply IH; [|done].
  rewrite Hh. unfold compute_hash, hex_string. by rewrite hex_encode_length, sha256_length.
Qed.

Lemma verify_from_split p l x :
  verify_from p (l ++ [x])%list = true ->
  verify_from p l = true /\ prev_hash x = last_hash p l /\
  hash x = compute_hash (last_hash p l) (entry x).
Proof.
  revert p. induction l as [|y l IH]; intros p.
  - intros (Hp & Hh & _)%verify_from_cons. by rewrite <- Hp in *.
  - intros (Hp & Hh & Hl)%verify_from_cons. apply IH in Hl as (Hl & H1 & H2).
    rewrite last_hash_cons. split; [|done]. apply verify_from_cons. auto.
Qed.

Lemma same_hash_same_chain l1 l2 :
  length l1 = length l2 -> verify_from zeros l1 = true -> verify_from zeros l2 = true ->
  last_hash zeros l1 = last_hash zeros l2 ->
  ((fun x => (prev_hash x, payload (entry x), hash x)) <$> l1)
    = ((fun x => (prev_hash x, payload (entry x), hash x)) <$> l2) \/ collision.
Proof using sha256_length.
  revert l2. induction l1 as [|x l1 IH] using rev_ind; intros l2.
  { destruct l2; [by left|done]. }
  destruct l2 as [|y l2 _] using rev_ind; [rewrite length_app; cbn; lia|].
  rewrite !length_app. cbn. intros Hlen (Hv1 & Hp1 & Hh1)%verify_from_split
    (Hv2 & Hp2 & Hh2)%verify_from_split Heq.
  unfold last_hash in Heq. rewrite !last_snoc in Heq.
  pose proof Heq as Hxy. rewrite Hh1, Hh2 in Heq.
  unfold compute_hash, hex_string in Heq. apply hex_encode_inj in Heq.
  destruct (String.eq_dec (last_hash zeros l1 +:+ payload (entry x))
    (last_hash zeros l2 +:+ payload (entry y))) as [Hin|Hne]; [|right; by eexists _, _].
  apply str_app_inj_len in Hin as [Hl Hpl];
    [|by rewrite !(chain_hash_length zeros) by done].
  destruct (IH l2) as [Hrec|?]; [lia|done|done|done| |by right]. left.
  rewrite !fmap_app, Hrec. cbn. by rewrite Hp1, Hp2, Hl, Hpl, Hxy.
Qed.

(** The entry with the last part of its subject moved to the object. *)
Definition move_boundary (s1 s2 : string) (e : EnhancedAuditEntry) : EnhancedAuditEntry :=
  mkAudit s1 (s2 +:+ object e) (timestamp e) (op_type e) (au_result e) (source_ip e) (sql e).

End Tampering.

(** * Merkle trees *)

(** Induction two elements at a time. *)
Lemma list_pair_ind {A} (P : list A -> Prop) :
  P [] -> (forall x, P [x]) -> (forall x y l, P l -> P (x :: y :: l)) -> forall l, P l.
Proof.
  intros H0 H1 H2. fix IH 1. intros [|x [|y l]]; [exact H0|exact (H1 x)|exact (H2 x y l (IH l))].
Qed.

Lemma next_layer_length l : length (next_layer l) = ((length l + 1) / 2)%nat.
Proof.
  induction l as [|x|x y l IH] using list_pair_ind; [done|done|]. cbn [next_layer length].
  rewrite IH. replace (S (S (length l)) + 1)%nat with (length l + 1 + 1 * 2)%nat by lia.
  rewrite Nat.div_add by done. lia.
Qed.

Lemma half_lt n : (1 < n)%nat -> (0 < (n + 1) / 2 < n)%nat.
Proof.
  intros Hn. split; [apply Nat.div_str_pos; lia|]. apply Nat.Div0.div_lt_upper_bound. lia.
Qed.

Lemma climb_fuel fuel l : (length l <= fuel)%nat -> climb fuel l = climb (length l) l.
Proof.
  revert l. induction fuel as [fuel IH] using lt_wf_ind. intros l Hl.
  destruct (Nat.lt_ge_cases 1 (length l)) as [H1|H1].
  - destruct fuel as [|fuel]; [lia|]. destruct (length l) as [|n] eqn:Hn; [lia|]. cbn [climb].
    rewrite Hn, (proj2 (Nat.ltb_lt _ _)) by done.
    pose proof (half_lt (S n) H1). pose proof (next_layer_length l) as Hnl. rewrite Hn in Hnl.
    rewrite (IH fuel), (IH n); lia || done.
  - assert (Hb : (1 <? length l)%nat = false) by (apply Nat.ltb_ge; lia).
    assert (Hc : forall f, climb f l = l) by (intros [|f]; cbn [climb]; [done|by rewrite Hb]).
    by rewrite !Hc.
Qed.

Lemma climb_next l : (1 < length l)%nat -> climb (length l) l = climb (length (next_layer l)) (next_layer l).
Proof.
  intros Hl. pose proof (half_lt _ Hl). pose proof (next_layer_length l).
  destruct (length l) as [|n] eqn:Hn; [lia|]. cbn [climb].
  rewrite Hn, (proj2 (Nat.ltb_lt _ _)) by done. apply climb_fuel. lia.
Qed.

Lemma climb_single fuel l : l <> [] -> (length l <= fuel)%nat -> length (climb fuel l) = 1%nat.
Proof.
  revert l. induction fuel as [|fuel IH]; intros l Hne Hl; [destruct l; [done|cbn in *; lia]|].
  cbn [climb]. destruct (Nat.ltb_spec 1 (length l)) as [H1|H1].
  - pose proof (half_lt _ H1). pose proof (next_layer_length l). apply IH; [|lia].
    intros Hn. rewrite Hn in *. cbn in *. lia.
  - destruct l; [done|cbn in *; lia].
Qed.

(** One step of a proof: the node of the next layer. *)
Lemma next_layer_lookup l idx x :
  l !! idx = Some x ->
  next_layer l !! (idx / 2)%nat = Some (verify_step x
    (mkNode (default "" (l !! sibling_index (length l) idx)) (idx mod 2 =? 1)%nat)).
Proof.
  revert idx. induction l as [|y|y z l IH] using list_pair_ind; intros idx Hx; [done| |].
  { destruct idx as [|idx]; [|done]. by injection Hx as ->. }
  destruct idx as [|[|idx]]; [by injection Hx as ->|by injection Hx as ->|].
  change (y :: z :: l) with ([y; z] ++ l)%list in Hx. rewrite lookup_app_r in Hx by (cbn; lia).
  cbn [length Nat.sub] in Hx. rewrite Nat.sub_0_r in Hx. specialize (IH idx Hx). pose proof (lookup_lt_Some _ _ _ Hx) as Hlt.
  replace (S (S idx) / 2)%nat with (S (idx / 2))
    by (replace (S (S idx)) with (idx + 1 * 2)%nat by lia; rewrite Nat.div_add by done; lia).
  replace (S (S idx) mod 2)%nat with (idx mod 2)%nat
    by (replace (S (S idx)) with (idx + 1 * 2)%nat by lia; by rewrite Nat.Div0.mod_add).
  replace (sibling_index (length (y :: z :: l)) (S (S idx))) with (S (S (sibling_index (length l) idx))).
  { exact IH. }
  unfold sibling_index. cbn [length].
  replace (S (S idx) mod 2)%nat with (idx mod 2)%nat
    by (replace (S (S idx)) with (idx + 1 * 2)%nat by lia; by rewrite Nat.Div0.mod_add).
  destruct (Nat.eqb_spec (idx mod 2) 0) as [H0|H0].
  - destruct (Nat.ltb_spec (idx + 1) (length l)), (Nat.ltb_spec (S (S idx) + 1) (S (S (length l)))); lia.
  - destruct idx; [by cbn in H0|lia].
Qed.

Lemma proof_loop_spec fuel l idx x :
  l !! idx = Some x -> (length l <= fuel)%nat ->
  let '(p, top) := proof_loop fuel l idx in
  top = climb fuel l /\ head top = Some (fold_left verify_step p x).
Proof.
  revert l idx x. induction fuel as [|fuel IH]; intros l idx x Hx Hl.
  { apply lookup_lt_Some in Hx. lia. }
  cbn [proof_loop climb]. destruct (Nat.ltb_spec 1 (length l)) as [H1|H1].
  - pose proof (half_lt _ H1). pose proof (next_layer_length l).
    specialize (IH (next_layer l) (idx / 2)%nat _ (next_layer_lookup _ _ _ Hx) ltac:(lia)).
    destruct (proof_loop fuel (next_layer l) (idx / 2)) as [p top]. exact IH.
  - split; [done|]. destruct l as [|y [|z l]]; [done| |cbn in *; lia].
    destruct idx; [|done]. cbn in *. congruence.
Qed.

Lemma generate_proof_spec l index d :
  l !! index = Some d ->
  exists proof, generate_proof l index = Ok proof /\ leaf_hash_of proof = leaf_hash d /\
    root_hash proof = build_root l /\ verify proof (build_root l) = true.
Proof.
  intros Hd. unfold generate_proof, build_root. destruct l as [|d0 l]; [done|]. rewrite Hd.
  pose proof (proof_loop_spec (length (d0 :: l)) (leaf_hash <$> d0 :: l) index (leaf_hash d)) as Hp.
  rewrite list_lookup_fmap, Hd, length_fmap in Hp. specialize (Hp eq_refl ltac:(lia)).
  destruct (proof_loop _ _ index) as [p top]. destruct Hp as [-> Hh].
  eexists. split; [reflexivity|]. rewrite Hh. cbn. split_and!; [done|done|].
  unfold verify. cbn. apply String.eqb_refl.
Qed.

(** Merkle proofs are complete.  A proof exists exactly for the indices of the list; it
    carries the hash of that leaf and the root of the tree, and verifies against the root
    [build_root] computes, for every number of leaves. *)
Theorem merkle_proof_complete (l : list DesensitizedEntry) (index : nat) :
  match l !! index with
  | Some d =>
      exists proof, generate_proof l index = Ok proof /\ leaf_hash_of proof = leaf_hash d /\
        root_hash proof = build_root l /\ verify proof (build_root l) = true
  | None => generate_proof l index = Err (match l with [] => EmptyChain | _ => IndexOutOfRange end)
  end.
Proof.
  destruct (l !! index) as [d|] eqn:Hd; [by apply generate_proof_spec|].
  unfold generate_proof. destruct l; [done|]. by rewrite Hd.
Qed.

Lemma next_layer_app l1 l2 :
  Nat.Even (length l1) -> next_layer (l1 ++ l2) = (next_layer l1 ++ next_layer l2)%list.
Proof.
  induction l1 as [|x|x y l IH] using list_pair_ind; intros He; [done| |].
  - destruct He as [m Hm]. cbn in Hm. lia.
  - cbn [app next_layer]. rewrite IH; [done|]. destruct He as [m Hm]. exists (m - 1)%nat. cbn in Hm. lia.
Qed.

(** What a proof does not show.  The root does not determine the leaves: after an even,
    positive number of entries one entry has the same root as that entry twice.  And
    [verify_integrity] compares a proof with the root it carries itself, so it accepts any
    hash as leaf, with that hash as root and an empty path. *)
Theorem merkle_root_ambiguous (l : list DesensitizedEntry) (d : DesensitizedEntry) (h : string)
    (index : nat) :
  (Nat.Even (length l) -> l <> [] -> build_root (l ++ [d])%list = build_root (l ++ [d; d])%list) /\
  verify_integrity (mkProof h h [] index) = Ok true.
Proof.
  split.
  - intros He Hne.
    assert (Hr : forall t : list DesensitizedEntry, t <> [] -> build_root (l ++ t)%list =
      default "" (head (climb (length (leaf_hash <$> (l ++ t)%list)) (leaf_hash <$> (l ++ t)%list)))).
    { intros t Ht. rewrite length_fmap. unfold build_root. destruct (l ++ t)%list eqn:Hlt; [|done].
      by apply app_nil in Hlt as [_ ?]. }
    rewrite !Hr by done. do 2 f_equal.
    assert (1 <= length l)%nat by (destruct l; [done|cbn; lia]).
    assert (Hlen : forall t : list DesensitizedEntry, t <> [] -> (1 < length (leaf_hash <$> (l ++ t)%list))%nat).
    { intros t Ht. rewrite length_fmap, length_app. destruct t; [done|cbn; lia]. }
    rewrite (climb_next (leaf_hash <$> (l ++ [d])%list)), (climb_next (leaf_hash <$> (l ++ [d; d])%list))
      by (by apply Hlen).
    rewrite !fmap_app, !next_layer_app by (by rewrite length_fmap). reflexivity.
  - unfold verify_integrity, verify. cbn. by rewrite String.eqb_refl.
Qed.

(** * The zero-knowledge auditor *)

(** [log_zero_knowledge] keeps its evidence consistent.  While writing is possible it
    returns the masked entry, a proof of it that verifies against the new [merkle_root], and the
    hash of the new last entry of the chain, which still verifies when it did before; but
    that chain entry is the original one, with the statement unmasked.  While writing fails
    it is an error that changes nothing. *)
Theorem log_zero_knowledge_spec (e : EnhancedAuditEntry) (z : ZeroKnowledgeAuditor) :
  if write_failed (chain z)
  then log_zero_knowledge e z = (Err WriteFailed, z)
  else exists res z', log_zero_knowledge e z = (Ok res, z') /\
    zk_entry res = from_enhanced e /\
    desensitized_entries z' = (desensitized_entries z ++ [from_enhanced e])%list /\
    leaf_hash_of (merkle_proof res) = leaf_hash (from_enhanced e) /\
    verify (merkle_proof res) (merkle_root z') = true /\
    (zk_verify_chain z = true -> zk_verify_chain z' = true) /\
    exists x, last (entries (chain z')) = Some x /\ hash x = chain_hash res /\ entry x = e.
Proof.
  unfold log_zero_knowledge. destruct (write_failed (chain z)) eqn:Hf.
  { unfold log. rewrite Hf. by destruct z. }
  rewrite (log_accepted _ _ Hf). cbn [entries]. rewrite length_app. cbn [length].
  rewrite Nat.add_sub.
  destruct (generate_proof_spec (desensitized_entries z ++ [from_enhanced e])%list
    (length (desensitized_entries z)) (from_enhanced e)) as (proof & -> & Hleaf & _ & Hv).
  { rewrite lookup_app_r by lia. by rewrite Nat.sub_diag. }
  eexists _, _. split; [reflexivity|]. cbn [zk_entry merkle_proof chain_hash desensitized_entries chain entries].
  split_and!; [done|done|done|exact Hv| |].
  - unfold zk_verify_chain. cbn [chain]. intros Hc. pose proof (log_verifies e _ Hc) as Hl.
    by rewrite (log_accepted _ _ Hf) in Hl.
  - rewrite last_snoc. eexists. split; [done|]. done.
Qed.
End Hashing.

(** * What masking covers *)

Lemma span_length p (s : string) : (String.length (snd (span p s)) <= String.length s)%nat.
Proof.
  induction s as [|c s IH]; [done|]. cbn. destruct (p c); [|done].
  destruct (span p s) as [a b]. cbn in *. lia.
Qed.

Lemma skip_length n (s : string) : (String.length (skip n s) <= String.length s - n)%nat.
Proof.
  revert s. induction n as [|n IH]; intros [|c s]; cbn; try lia. apply IH.
Qed.

Lemma keyword_at_length prev s kw : keyword_at prev s = Some kw -> (1 <= String.length kw)%nat.
Proof.
  unfold keyword_at. destruct (list_find _ ZK_SENSITIVE_KEYWORDS) as [[i k]|] eqn:Hf; [|done].
  intros [= <-]. apply list_find_Some in Hf as (Hk & _ & _). apply list_elem_of_lookup_2 in Hk.
  revert Hk. unfold ZK_SENSITIVE_KEYWORDS. rewrite !elem_of_cons, elem_of_nil.
  intros Hk. repeat destruct Hk as [ -> | Hk ]; try done; cbn; lia.
Qed.

(** The length of the text is fuel enough for the masking loop. *)
Lemma mask_loop_fuel f1 f2 prev (s : string) :
  (String.length s <= f1)%nat -> (String.length s <= f2)%nat ->
  mask_loop f1 prev s = mask_loop f2 prev s.
Proof.
  revert f2 prev s. induction f1 as [|f1 IH]; intros f2 prev s H1 H2.
  { destruct s; [by destruct f2|cbn in H1; lia]. }
  destruct s as [|c s']; [by destruct f2|]. destruct f2 as [|f2]; [cbn in H2; lia|].
  cbn [mask_loop]. destruct (keyword_at prev (String c s')) as [kw|] eqn:Hkw;
    [|cbn in *; f_equal; apply IH; lia].
  apply keyword_at_length in Hkw.
  pose proof (skip_length (String.length kw) (String c s')) as Hsk. cbn in H1, H2, Hsk.
  set (rest := skip (String.length kw) (String c s')) in *.
  assert (Hrest : mask_loop f1 (last_char None kw) rest = mask_loop f2 (last_char None kw) rest)
    by (apply IH; lia).
  pose proof (span_length is_blank rest) as Hsp. destruct (span is_blank rest) as [ws s2].
  cbn [snd] in Hsp. do 2 f_equal. destruct s2 as [|e s3]; [exact Hrest|].
  destruct e as [[] [] [] [] [] [] [] []]; try exact Hrest. cbn in Hsp.
  pose proof (span_length is_blank s3) as Hsp3. destruct (span is_blank s3) as [ws2 s4].
  cbn [snd] in Hsp3. do 2 f_equal. destruct s4 as [|q s5]; [done|]. cbn in Hsp3.
  destruct (Ascii.eqb q squote || Ascii.eqb q dquote); [|apply IH; cbn; lia].
  pose proof (span_length (fun x => negb (Ascii.eqb x q)) s5) as Hsp5.
  destruct (span (fun x => negb (Ascii.eqb x q)) s5) as [sk s6]. cbn [snd] in Hsp5.
  do 2 f_equal. destruct s6 as [|q' s7]; [done|]. cbn in Hsp5. f_equal. apply IH; lia.
Qed.

Lemma span_all p q (v rest : string) :
  all_chars p v = true -> p q = false -> span p (v +:+ String q rest) = (v, String q rest).
Proof.
  intros Hv Hq. induction v as [|c v IH]; cbn; [by rewrite Hq|].
  cbn in Hv. apply andb_true_iff in Hv as [Hc Hv]. by rewrite Hc, IH.
Qed.

Lemma span_none p c s : p c = false -> span p (String c s) = (EmptyString, String c s).
Proof. cbn. by intros ->. Qed.

Lemma keyword_at_digit prev c s : is_ascii_digit c = true -> keyword_at prev (String c s) = None.
Proof. intros Hc. destruct c as [[] [] [] [] [] [] [] []]; try discriminate Hc; reflexivity. Qed.

(** Digits, and what follows them, are copied. *)
Lemma mask_loop_digits fuel prev (w : string) :
  all_chars is_ascii_digit w = true -> (String.length w <= fuel)%nat -> mask_loop fuel prev w = w.
Proof.
  revert fuel prev. induction w as [|c w IH]; intros [|fuel] prev Hw Hl; cbn in Hl; try done; [lia|].
  cbn in Hw. apply andb_true_iff in Hw as [Hc Hw]. cbn [mask_loop].
  rewrite keyword_at_digit by done. by rewrite IH by (done || lia).
Qed.

(** A keyword before an equals sign is found. *)
Lemma keyword_at_equals kw s : kw ∈ ZK_SENSITIVE_KEYWORDS ->
  keyword_at None (kw +:+ String "=" s) = Some kw /\
  skip (String.length kw) (kw +:+ String "=" s) = String "=" s /\
  exists c r, kw = String c r.
Proof.
  unfold ZK_SENSITIVE_KEYWORDS. rewrite !elem_of_cons, elem_of_nil.
  intros Hk. repeat destruct Hk as [ -> | Hk ]; try done; (split; [reflexivity|]; split; [reflexivity|by eexists _, _]).
Qed.

Lemma zk_mask_equals kw s : kw ∈ ZK_SENSITIVE_KEYWORDS ->
  exists fuel, (String.length s <= fuel)%nat /\
  zk_mask_sql (kw +:+ String "=" s) =
  "******=" +:+
  let '(ws2, s4) := span is_blank s in
  ws2 +:+
  match s4 with
  | String q s5 =>
      if Ascii.eqb q squote || Ascii.eqb q dquote then
        let '(_, s6) := span (fun x => negb (Ascii.eqb x q)) s5 in
        chr q +:+ "******" +:+
        match s6 with
        | String q' s7 => chr q' +:+ mask_loop fuel (Some q') s7
        | EmptyString => EmptyString
        end
      else mask_loop fuel (last_char (Some "="%char) ws2) s4
  | EmptyString => EmptyString
  end.
Proof.
  intros Hk. destruct (keyword_at_equals kw s Hk) as (Hkw & Hskip & c & r & Hcr).
  exists (String.length (r +:+ String "=" s)). split.
  { rewrite str_app_length. cbn. lia. }
  assert (Ht : kw +:+ String "=" s = String c (r +:+ String "=" s)) by (by rewrite Hcr).
  unfold zk_mask_sql. rewrite Ht. cbn [String.length mask_loop].
  rewrite <- Ht, Hkw, Hskip. rewrite span_none by done. cbn [String.append].
  destruct (span is_blank s) as [ws2 s4]. reflexivity.
Qed.

(** What [zk_mask_sql] hides.  The value of a sensitive field is masked when it is one
    quoted string.  A value that is not quoted stays in the text, although the masked entry
    then passes [contains_sensitive]; and of a quoted value with a doubled quote in it the
    part after the doubled quote stays. *)
Theorem masking_covers_quoted (kw v w : string) :
  kw ∈ ZK_SENSITIVE_KEYWORDS -> contains_char squote v = false -> all_chars is_ascii_digit w = true ->
  zk_mask_sql (kw +:+ "='" +:+ v +:+ "'") = "******='******'" /\
  zk_mask_sql (kw +:+ "=" +:+ w) = "******=" +:+ w /\
  zk_mask_sql (kw +:+ "='" +:+ v +:+ "''" +:+ w) = "******='******''" +:+ w.
Proof.
  intros Hk Hv Hw.
  assert (Hall : all_chars (fun x => negb (Ascii.eqb x squote)) v = true).
  { clear -Hv. induction v as [|c v IH]; [done|]. cbn in Hv |- *.
    apply orb_false_iff in Hv as [-> Hv]. by rewrite IH. }
  split_and!.
  - change ("='" +:+ v +:+ "'") with (String "=" (String squote (v +:+ "'"))).
    destruct (zk_mask_equals kw (String squote (v +:+ "'")) Hk) as (fuel & _ & ->).
    rewrite span_none by done. cbv beta iota. rewrite (span_all _ squote v "") by done.
    by destruct fuel.
  - change ("=" +:+ w) with (String "=" w).
    destruct (zk_mask_equals kw w Hk) as (fuel & Hf & ->). f_equal.
    destruct w as [|c w]; [done|]. cbn in Hw. apply andb_true_iff in Hw as [Hc Hw].
    rewrite span_none by (by destruct c as [[] [] [] [] [] [] [] []]).
    cbv beta iota. replace (Ascii.eqb c squote || Ascii.eqb c dquote) with false
      by (by destruct c as [[] [] [] [] [] [] [] []]).
    apply mask_loop_digits; [cbn; by rewrite Hc|done].
  - change ("='" +:+ v +:+ "''" +:+ w) with (String "=" (String squote (v +:+ "''" +:+ w))).
    destruct (zk_mask_equals kw (String squote (v +:+ "''" +:+ w)) Hk) as (fuel & Hf & ->).
    rewrite span_none by done. cbv beta iota.
    change ("''" +:+ w) with (String squote (String squote w)).
    rewrite (span_all _ squote v (String squote w)) by done.
    cbn [String.length] in Hf. rewrite str_app_length in Hf. cbn [String.length String.append] in Hf.
    destruct fuel as [|fuel]; [lia|]. cbn [mask_loop].
    replace (keyword_at (Some squote) (String squote w)) with (@None string) by reflexivity.
    rewrite mask_loop_digits by (done || lia). reflexivity.
Qed.

(** * Closed instances *)

(** A digest of 32 bytes for the closed instances: the head of the text. *)
Definition head32 (s : string) : list ascii :=
  take 32 (String.list_ascii_of_string s ++ replicate 32 "000"%char).

Definition sample : EnhancedAuditEntry :=
  mkAudit "alice" "users" 1000 OpSelect AuditSuccess "10.0.0.1" "SELECT 1".


Lemma masking_covers_quoted_witness : zk_mask_sql "cvv=123" = "******=123".
Proof.
  refine (proj1 (proj2 (masking_covers_quoted "cvv" "" "123" _ eq_refl eq_refl))).
  unfold ZK_SENSITIVE_KEYWORDS. by repeat (left || right).
Defined.

Lemma merkle_root_ambiguous_witness :
  let d := from_enhanced sample in
  build_root head32 [d; d; d] = build_root head32 [d; d; d; d].
Proof.
  intros d. refine (proj1 (merkle_root_ambiguous head32 [d; d] d "" 0) _ _); [by exists 1%nat|discriminate].
Defined.
