(* ===== verification/Sharding.v ===== *)
(** Sharding: [packages/sz-orm-sharding/src]: the routers of [lib.rs] and [enhanced.rs], the
    composite keys of [routing.rs], the grouping of keys of [scatter.rs] and the coordinator of
    [cross_shard_tx.rs]. *)

From Stdlib Require Import Ascii String.
From S2P Require Import Prelude SqlText Value.
Local Open Scope Z_scope.
Local Open Scope string_scope.

(** * The hash *)

Module Hash.

Definition FNV_OFFSET_BASIS : Z := 0xcbf29ce484222325.
Definition FNV_PRIME : Z := 0x100000001b3.

Fixpoint bytes (s : string) : list Z :=
  match s with String c s => Z.of_nat (nat_of_ascii c) :: bytes s | EmptyString => [] end.

Definition fnv_step (hash byte : Z) : Z := wrap64 (Z.lxor hash byte * FNV_PRIME).

Definition xor_shift (hash : Z) : Z := Z.lxor hash (Z.shiftr hash 33).

Definition fmix64 (hash : Z) : Z :=
  let hash := xor_shift hash in
  let hash := wrap64 (hash * 0xff51afd7ed558ccd) in
  let hash := xor_shift hash in
  let hash := wrap64 (hash * 0xc4ceb9fe1a85ec53) in
  xor_shift hash.

Definition fnv1a_hash (data : string) : Z := fmix64 (fold_left fnv_step (bytes data) FNV_OFFSET_BASIS).

Lemma lxor_range a b : 0 <= a < 2 ^ 64 -> 0 <= b < 2 ^ 64 -> 0 <= Z.lxor a b < 2 ^ 64.
Proof.
  intros Ha Hb. assert (Hn : 0 <= Z.lxor a b) by (apply Z.lxor_nonneg; lia). split; [done|].
  destruct (Z.eq_dec (Z.lxor a b) 0) as [->|Hz]; [lia|]. apply Z.log2_lt_pow2; [lia|].
  assert (forall x, 0 <= x < 2 ^ 64 -> Z.log2 x < 64) as Hl.
  { intros x Hx. destruct (Z.eq_dec x 0) as [->|]; [done|]. apply Z.log2_lt_pow2; lia. }
  pose proof (Z.log2_lxor a b ltac:(lia) ltac:(lia)). pose proof (Hl a Ha). pose proof (Hl b Hb). lia.
Qed.

Lemma xor_shift_range x : 0 <= x < 2 ^ 64 -> 0 <= xor_shift x < 2 ^ 64.
Proof.
  intros Hx. apply lxor_range; [done|]. rewrite Z.shiftr_div_pow2 by lia.
  split; [apply Z.div_pos; lia|]. apply Z.div_lt_upper_bound; lia.
Qed.

(** Half of the bits are shifted, so a second shift shows them again. *)
Lemma xor_shift_twice x : 0 <= x < 2 ^ 64 -> xor_shift (xor_shift x) = x.
Proof.
  intros Hx. apply Z.bits_inj'. intros i Hi. unfold xor_shift. rewrite !Z.lxor_spec, !Z.shiftr_spec, !Z.lxor_spec by lia.
  rewrite Z.shiftr_spec by lia. assert (Hz : Z.testbit x (i + 33 + 33) = false).
  { destruct (Z.eq_dec x 0) as [->|]; [apply Z.bits_0|]. apply Z.bits_above_log2; [lia|].
    assert (Z.log2 x < 64) by (apply Z.log2_lt_pow2; lia). lia. }
  rewrite Hz. by destruct (Z.testbit x i), (Z.testbit x (i + 33)).
Qed.

(** Multiplication by a number that has an inverse modulo [2 ^ 64]. *)
Lemma wrap_mul_inverse m inv x : wrap64 (m * inv) = 1 -> 0 <= x < 2 ^ 64 -> wrap64 (wrap64 (x * m) * inv) = x.
Proof.
  unfold wrap64. intros Hm Hx. rewrite Z.mul_mod_idemp_l, <- Z.mul_assoc, <- Z.mul_mod_idemp_r, Hm, Z.mul_1_r by lia.
  by apply Z.mod_small.
Qed.

(** The mixing backwards. *)
Definition unmix64 (hash : Z) : Z :=
  let hash := xor_shift hash in
  let hash := wrap64 (hash * 0x9cb4b2f8129337db) in
  let hash := xor_shift hash in
  let hash := wrap64 (hash * 0x4f74430c22a54005) in
  xor_shift hash.

Lemma fmix64_inverse x : 0 <= x < 2 ^ 64 -> 0 <= fmix64 x < 2 ^ 64 /\ unmix64 (fmix64 x) = x.
Proof.
  intros Hx. unfold fmix64, unmix64. cbn zeta.
  pose proof (xor_shift_range x Hx) as H1. pose proof (wrap64_range (xor_shift x * 0xff51afd7ed558ccd)) as H2.
  set (y := wrap64 (xor_shift x * 0xff51afd7ed558ccd)) in *. pose proof (xor_shift_range y H2) as H3.
  pose proof (wrap64_range (xor_shift y * 0xc4ceb9fe1a85ec53)) as H4. set (z := wrap64 (xor_shift y * 0xc4ceb9fe1a85ec53)) in *.
  split; [by apply xor_shift_range|]. rewrite xor_shift_twice by done.
  replace (wrap64 (z * 0x9cb4b2f8129337db)) with (xor_shift y) by (symmetry; by apply wrap_mul_inverse).
  rewrite xor_shift_twice by done.
  replace (wrap64 (y * 0x4f74430c22a54005)) with (xor_shift x) by (symmetry; by apply wrap_mul_inverse).
  by rewrite xor_shift_twice.
Qed.

Lemma fnv_range l h : 0 <= h < 2 ^ 64 -> 0 <= fold_left fnv_step l h < 2 ^ 64.
Proof. revert h. induction l as [|b l IH]; intros h Hh; [done|]. apply IH, wrap64_range. Qed.

Lemma fnv1a_hash_range data : 0 <= fnv1a_hash data < 2 ^ 64.
Proof. apply fmix64_inverse, fnv_range. done. Qed.

End Hash.

(** * The router *)

Module Router.

Inductive ShardingStrategy : Type :=
| SHash
| SRange
| SDate
| SEnum (mapping : gmap string string) (default : option string)
| SList (keys : gset string) (target : string) (default : option string)
| SDirectory (table : gmap string string)
| SComposite (primary : ShardingStrategy) (primary_shards : list string)
    (secondary : ShardingStrategy) (secondary_shards : list string).

Inductive ShardingError : Type :=
| NoShardsConfigured
| NoMappingForKey (key : string)
| ThreadPanic.

#[export] Instance sharding_error_eq_dec : EqDecision ShardingError.
Proof. solve_decision. Defined.

Record ShardingRouter : Type := mkRouter { router_strategy : ShardingStrategy; shards : list string }.

Definition router_new (strategy : ShardingStrategy) (shards : list string) : ShardingRouter := mkRouter strategy shards.
Definition new_enum (mapping : gmap string string) (default : option string) : ShardingRouter :=
  mkRouter (SEnum mapping default) [].
Definition new_list (keys : gset string) (target : string) (default : option string) : ShardingRouter :=
  mkRouter (SList keys target default) [].
Definition new_directory (table : gmap string string) : ShardingRouter := mkRouter (SDirectory table) [].
Definition new_composite (primary : ShardingStrategy) (primary_shards : list string)
    (secondary : ShardingStrategy) (secondary_shards : list string) : ShardingRouter :=
  mkRouter (SComposite primary primary_shards secondary secondary_shards) [].

Definition query_all (r : ShardingRouter) : list string := shards r.
Definition shard_count (r : ShardingRouter) : nat := length (shards r).

(** [hash % shards.len()] *)
Definition hash_index (n : nat) (data : string) : nat := Z.to_nat (Hash.fnv1a_hash data mod Z.of_nat n).

(** Indexing a slice; [None] is its panic. *)
Definition route_hash (shards : list string) (key : string) : option string := shards !! hash_index (length shards) key.

Definition first_byte (key : string) : nat := match key with String c _ => nat_of_ascii c | EmptyString => 0%nat end.
Definition range_index (n : nat) (key : string) : nat := Nat.min (first_byte key * n / 256) (n - 1).
Definition route_range (shards : list string) (key : string) : option string := shards !! range_index (length shards) key.

Definition byte_at (p : ascii -> bool) (i : nat) (s : string) : bool :=
  match String.get i s with Some c => p c | None => false end.

(** The next ten bytes are a date [YYYY-MM-DD]. *)
Definition date_at (s : string) : bool :=
  forallb (fun i => byte_at is_ascii_digit i s) [0; 1; 2; 3; 5; 6; 8; 9]%nat
  && byte_at (Ascii.eqb "-") 4 s && byte_at (Ascii.eqb "-") 7 s.

Fixpoint extract_date (key : string) : option string :=
  if date_at key then Some (String.substring 0 10 key)
  else match key with String _ key => extract_date key | EmptyString => None end.

Definition day_of (date : string) : option Z := parse_int false 0 (2 ^ 64 - 1) (String.substring 8 2 date).

Definition route_date (shards : list string) (key : string) : option string :=
  match extract_date key with
  | Some date =>
      match day_of date with
      | Some day =>
          if (1 <=? day)%Z then shards !! Z.to_nat ((day - 1) mod Z.of_nat (length shards))
          else shards !! hash_index (length shards) date
      | None => shards !! hash_index (length shards) date
      end
  | None => shards !! hash_index (length shards) key
  end.

Definition on_shards (route : list string -> string -> option string) (shards : list string) (key : string) :
    option (result string ShardingError) :=
  match shards with [] => Some (Err NoShardsConfigured) | _ => Ok <$> route shards key end.

Definition or_default (default : option string) (key : string) : result string ShardingError :=
  match default with Some d => Ok d | None => Err (NoMappingForKey key) end.

(** [None] is a panic. *)
Fixpoint route_strategy (strategy : ShardingStrategy) (shards : list string) (key : string) :
    option (result string ShardingError) :=
  match strategy with
  | SHash => on_shards route_hash shards key
  | SRange => on_shards route_range shards key
  | SDate => on_shards route_date shards key
  | SEnum mapping default => Some (match mapping !! key with Some shard => Ok shard | None => or_default default key end)
  | SList keys target default => Some (if decide (key ∈ keys) then Ok target else or_default default key)
  | SDirectory table => Some (or_default (table !! key) key)
  | SComposite primary primary_shards secondary secondary_shards =>
      r ← route_strategy primary primary_shards key;
      match r with
      | Err e => Some (Err e)
      | Ok group => route_strategy secondary secondary_shards (group +:+ ":" +:+ key)
      end
  end.

Definition route (r : ShardingRouter) (key : string) : option (result string ShardingError) :=
  route_strategy (router_strategy r) (shards r) key.

(** [routing.rs]: an extractor of a part of the key of data [D]. *)
Definition Extractor (D : Type) : Type := D -> result string ShardingError.

Fixpoint extract_parts {D} (extractors : list (Extractor D)) (data : D) : result (list string) ShardingError :=
  match extractors with
  | [] => Ok []
  | ext :: extractors =>
      result_bind (ext data) (fun part => result_bind (extract_parts extractors data) (fun parts => Ok (part :: parts)))
  end.

Definition composite_extract {D} (extractors : list (Extractor D)) (data : D) : result string ShardingError :=
  result_bind (extract_parts extractors data) (fun parts => Ok (join ":" parts)).

Definition route_by_data {D} (r : ShardingRouter) (data : D) (extractor : Extractor D) :
    option (result string ShardingError) :=
  match extractor data with Ok key => route r key | Err e => Some (Err e) end.

Example route_dates :
  (fun k => route (router_new SDate ["s0"; "s1"; "s2"]) k) <$> ["2026-07-01"; "log 2026-07-02.txt"; "2026-07-31"]
  = [Some (Ok "s0"); Some (Ok "s1"); Some (Ok "s0")].
Proof. vm_compute. reflexivity. Qed.
Example route_ranges :
  (fun k => route (router_new SRange ["s0"; "s1"; "s2"]) k) <$> ["A"; "a"; "é"; ""]
  = [Some (Ok "s0"); Some (Ok "s1"); Some (Ok "s2"); Some (Ok "s0")].
Proof. vm_compute. reflexivity. Qed.

(** ** Every key has its shard *)

(** The shards a strategy can name. *)
Fixpoint names (strategy : ShardingStrategy) (shards : list string) (s : string) : Prop :=
  match strategy with
  | SHash | SRange | SDate => s ∈ shards
  | SEnum mapping default => (exists k, mapping !! k = Some s) \/ default = Some s
  | SList _ target default => s = target \/ default = Some s
  | SDirectory table => exists k, table !! k = Some s
  | SComposite _ _ secondary secondary_shards => names secondary secondary_shards s
  end.

(** A strategy with a shard for every key. *)
Fixpoint covers (strategy : ShardingStrategy) (shards : list string) : bool :=
  match strategy with
  | SHash | SRange | SDate => negb (is_nil shards)
  | SEnum _ default | SList _ _ default => is_some default
  | SDirectory _ => false
  | SComposite primary primary_shards secondary secondary_shards =>
      covers primary primary_shards && covers secondary secondary_shards
  end.

Lemma mod_index n z : n <> 0%nat -> (Z.to_nat (z mod Z.of_nat n) < n)%nat.
Proof. intros Hn. pose proof (Z.mod_pos_bound z (Z.of_nat n)). lia. Qed.

Lemma hash_index_lt n data : n <> 0%nat -> (hash_index n data < n)%nat.
Proof. apply mod_index. Qed.

Lemma range_index_lt n key : n <> 0%nat -> (range_index n key < n)%nat.
Proof. unfold range_index. lia. Qed.

(** The guard of [route_range] never applies. *)
Lemma range_index_exact n key : n <> 0%nat -> range_index n key = (first_byte key * n / 256)%nat.
Proof.
  intros Hn. unfold range_index. apply Nat.min_l. enough (first_byte key * n / 256 < n)%nat by lia.
  apply Nat.Div0.div_lt_upper_bound. assert (first_byte key < 256)%nat; [|nia].
  unfold first_byte. destruct key as [|c]; [lia|]. apply nat_ascii_bounded.
Qed.

Lemma on_shards_ok route shards key :
  (forall n, n = length shards -> n <> 0%nat -> exists i, (i < n)%nat /\ route shards key = shards !! i) ->
  exists r, on_shards route shards key = Some r /\
    match r with Ok s => s ∈ shards | Err e => e = NoShardsConfigured /\ shards = [] end.
Proof.
  intros Hr. unfold on_shards. destruct shards as [|x l]; [by exists (Err NoShardsConfigured)|].
  destruct (Hr (length (x :: l)) eq_refl ltac:(done)) as (i & Hi & ->). destruct (lookup_lt_is_Some_2 _ _ Hi) as [s Hs].
  rewrite Hs. exists (Ok s). split; [done|]. by eapply list_elem_of_lookup_2.
Qed.

Lemma route_date_index shards key : length shards <> 0%nat -> exists i, (i < length shards)%nat /\ route_date shards key = shards !! i.
Proof.
  intros Hn. unfold route_date. pose proof (fun d => hash_index_lt _ d Hn) as Hh.
  destruct (extract_date key) as [date|]; [|by exists (hash_index (length shards) key)].
  destruct (day_of date) as [day|]; [|by exists (hash_index (length shards) date)].
  destruct (1 <=? day)%Z; [|by exists (hash_index (length shards) date)]. eexists. split; [|done]. by apply mod_index.
Qed.

Lemma route_strategy_ok strategy : forall shards key, exists r, route_strategy strategy shards key = Some r /\
  match r with
  | Ok s => names strategy shards s
  | Err _ => covers strategy shards = false
  end.
Proof.
  assert (Hd : forall (P : string -> Prop) d key b, (forall s, d = Some s -> P s) -> (is_some d = false -> b = false) ->
    match or_default d key with Ok s => P s | Err _ => b = false end).
  { intros P [s|] key b Hs Hb; [by apply Hs|by apply Hb]. }
  induction strategy as [| | |mapping default|keys target default|table|p IHp ps s IHs ss]; intros shards key; cbn [route_strategy names covers].
  1-3: match goal with |- context [on_shards ?f] => destruct (on_shards_ok f shards key) as (r & -> & Hr) end.
  - intros n -> Hn. eexists. split; [by apply hash_index_lt|done].
  - exists r. split; [done|]. destruct r; [done|]. destruct Hr as [_ ->]. done.
  - intros n -> Hn. eexists. split; [by apply range_index_lt|done].
  - exists r. split; [done|]. destruct r; [done|]. destruct Hr as [_ ->]. done.
  - intros n -> Hn. by apply route_date_index.
  - exists r. split; [done|]. destruct r; [done|]. destruct Hr as [_ ->]. done.
  - eexists. split; [done|]. destruct (mapping !! key) as [s|] eqn:Hm; [left; eauto|]. apply Hd; [by right|done].
  - eexists. split; [done|]. destruct (decide (key ∈ keys)); [by left|]. apply Hd; [by right|done].
  - eexists. split; [done|]. apply Hd; [eauto|done].
  - destruct (IHp ps key) as (r & -> & Hr). cbn [mbind option_bind]. destruct r as [group|e].
    + destruct (IHs ss (group +:+ ":" +:+ key)) as (r2 & -> & Hr2). exists r2. split; [done|]. destruct r2; [done|].
      by rewrite Hr2, andb_false_r.
    + exists (Err e). split; [done|]. by rewrite Hr.
Qed.

(** Every key has a shard.  A router never panics, whatever its strategy and the key: no
    index is out of range.  When its strategies cover all keys (a shard list that is not empty, a
    default) each key is routed to one of the shards they name; otherwise an error is the only
    other outcome, and in the composite strategy the shard is always one of the second level. *)
Theorem every_key_has_a_shard (r : ShardingRouter) (key : string) :
  exists res, route r key = Some res /\
    (covers (router_strategy r) (shards r) = true -> is_ok res = true) /\
    (forall s, res = Ok s -> names (router_strategy r) (shards r) s).
Proof.
  destruct (route_strategy_ok (router_strategy r) (shards r) key) as (res & Hr & Hres). exists res. split; [done|].
  destruct res as [s|e]; [by split; [|intros ? [= <-]]|]. split; [congruence|done].
Qed.

(** Keys in the order of their first bytes are in the order of their shards. *)
Lemma range_index_mono n k1 k2 : n <> 0%nat -> (first_byte k1 <= first_byte k2)%nat -> (range_index n k1 <= range_index n k2)%nat.
Proof.
  intros Hn Hb. rewrite !range_index_exact by done. apply Nat.Div0.div_le_mono. nia.
Qed.

(** The first byte of a text in UTF-8 is not a continuation byte. *)
Definition utf8_start (key : string) : bool := negb ((128 <=? first_byte key) && (first_byte key <? 192))%nat.

(** Of four shards the third gets no key. *)
Lemma third_of_four_unused key : utf8_start key = true -> range_index 4 key <> 2%nat.
Proof.
  unfold utf8_start. rewrite negb_true_iff, andb_false_iff, Nat.leb_gt, Nat.ltb_ge. intros Hb.
  rewrite range_index_exact by done. intros Hi. assert (2 * 256 <= first_byte key * 4 < 3 * 256)%nat; [|lia].
  pose proof (Nat.div_mod_eq (first_byte key * 4) 256). pose proof (Nat.mod_upper_bound (first_byte key * 4) 256). lia.
Qed.
End Router.

(** * Consistent hashing *)

Module Ring.

Inductive EnhancedShardingError : Type :=
| NoNodes
| NoGroupMatch (key : string)
| NoListMatch (key : string).

(** The [BTreeMap<u64, String>] is the list of its entries in the order of their keys. *)

Record ConsistentHashRouter : Type := mkRing { ring : list (Z * string); nodes : list string; vnodes_per_node : nat }.

(** [ring.entry(hash).or_insert(node)] *)
Fixpoint ring_insert (r : list (Z * string)) (hash : Z) (node : string) : list (Z * string) :=
  match r with
  | [] => [(hash, node)]
  | (h, n) :: r' =>
      if (hash <? h)%Z then (hash, node) :: r
      else if (hash =? h)%Z then r
      else (h, n) :: ring_insert r' hash node
  end.

Definition hash_str (s : string) : Z := Hash.fnv1a_hash s.

Definition vnode_key (node : string) (i : nat) : string := node +:+ "#" +:+ pretty i.

(** [for i in 0..n { .. }] *)
Definition add_vnodes (n : nat) (node : string) (r : list (Z * string)) : list (Z * string) :=
  fold_left (fun r i => ring_insert r (hash_str (vnode_key node i)) node) (seq 0 n) r.

Definition ring_new (nodes : list string) (vnodes_per_node : nat) : ConsistentHashRouter :=
  let vnodes_per_node := Nat.max vnodes_per_node 1 in
  mkRing (fold_left (fun r node => add_vnodes vnodes_per_node node r) nodes []) nodes vnodes_per_node.

Definition add_node (node : string) (r : ConsistentHashRouter) : ConsistentHashRouter :=
  if existsb (String.eqb node) (nodes r) then r
  else mkRing (add_vnodes (vnodes_per_node r) node (ring r)) (nodes r ++ [node]) (vnodes_per_node r).

(** The entries to remove are collected first; removing their hashes leaves the others. *)
Definition remove_node (node : string) (r : ConsistentHashRouter) : ConsistentHashRouter :=
  let to_remove := (base.filter (fun e => e.2 = node) (ring r)).*1 in
  mkRing (fold_left (fun rg k => base.filter (fun e => e.1 <> k) rg) to_remove (ring r))
    (base.filter (fun n => n <> node) (nodes r)) (vnodes_per_node r).

(** [range(hash..).next()] *)
Definition range_from (hash : Z) (r : list (Z * string)) : option (Z * string) := find (fun e => (hash <=? e.1)%Z) r.

Definition owner (r : list (Z * string)) (hash : Z) : option string :=
  snd <$> match range_from hash r with Some e => Some e | None => head r end.

Definition ring_route (r : ConsistentHashRouter) (key : string) : result string EnhancedShardingError :=
  match owner (ring r) (hash_str key) with Some node => Ok node | None => Err NoNodes end.

Definition ring_size (r : ConsistentHashRouter) : nat := length (ring r).

Example ring_example :
  let r := ring_new ["n1"; "n2"; "n3"] 5 in
  (ring_size r, ring_size (add_node "n4" r), ring_size (remove_node "n2" r), ring_route (ring_new [] 5) "k")
  = (15, 20, 10, Err NoNodes)%nat.
Proof. vm_compute. reflexivity. Qed.

(** ** Who owns a hash *)

Definition ring_sorted (r : list (Z * string)) : Prop := StronglySorted (fun e1 e2 => (e1.1 < e2.1)%Z) r.

Lemma elem_of_ring_insert r h n e : e ∈ ring_insert r h n -> e = (h, n) \/ e ∈ r.
Proof.
  induction r as [|[h' n'] r IH]; cbn; [set_solver|]. destruct (h <? h')%Z; [set_solver|]. destruct (h =? h')%Z; set_solver.
Qed.

Lemma ring_insert_sorted r h n : ring_sorted r -> ring_sorted (ring_insert r h n).
Proof.
  induction 1 as [|[h' n'] r Hr IH Hlt]; cbn; [by repeat constructor|].
  destruct (Z.ltb_spec h h'); [constructor; [by constructor|]|destruct (Z.eqb_spec h h'); [by constructor|constructor; [done|]]].
  - constructor; [done|]. eapply Forall_impl; [exact Hlt|]. cbn. lia.
  - rewrite Forall_forall in Hlt |- *. intros e [->|He]%elem_of_ring_insert; [cbn; lia|by apply Hlt].
Qed.

Lemma find_ring_insert p r h n : find p (ring_insert r h n) = find p r \/ find p (ring_insert r h n) = Some (h, n).
Proof.
  induction r as [|[h' n'] r IH]; cbn; [destruct (p (h, n)); auto|]. destruct (h <? h')%Z; cbn; [destruct (p (h, n)); auto|].
  destruct (h =? h')%Z; cbn; [auto|]. destruct (p (h', n')); auto.
Qed.

Lemma head_ring_insert r h n : head (ring_insert r h n) = head r \/ head (ring_insert r h n) = Some (h, n).
Proof. destruct r as [|[h' n'] r]; cbn; [auto|]. destruct (h <? h')%Z; [auto|]. destruct (h =? h')%Z; auto. Qed.

(** An entry takes hashes only for its own node. *)
Lemma owner_ring_insert r h n x : owner (ring_insert r h n) x = owner r x \/ owner (ring_insert r h n) x = Some n.
Proof.
  unfold owner, range_from. destruct (find_ring_insert (fun e => (x <=? e.1)%Z) r h n) as [->| ->]; [|by right].
  destruct (find _ r); [by left|]. destruct (head_ring_insert r h n) as [->| ->]; [by left|by right].
Qed.

Lemma owner_add_vnodes v node r x : owner (add_vnodes v node r) x = owner r x \/ owner (add_vnodes v node r) x = Some node.
Proof.
  unfold add_vnodes. generalize (seq 0 v). intros ix. revert r. induction ix as [|i ix IH]; intros r; cbn [fold_left]; [by left|].
  destruct (IH (ring_insert r (hash_str (vnode_key node i)) node)) as [->| ->]; [|by right]. apply owner_ring_insert.
Qed.

Lemma find_first (p : Z * string -> bool) r e : ring_sorted r -> find p r = Some e ->
  e ∈ r /\ p e = true /\ forall e', e' ∈ r -> p e' = true -> (e.1 <= e'.1)%Z.
Proof.
  induction 1 as [|a r Hr IH Hlt]; cbn; [done|]. destruct (p a) eqn:Hp.
  - intros [= <-]. split; [by left|]. split; [done|]. rewrite Forall_forall in Hlt.
    intros e' [->|He]%elem_of_cons _; [lia|]. specialize (Hlt e' He). lia.
  - intros Hf. destruct (IH Hf) as (He & Hpe & Hmin). split; [by right|]. split; [done|].
    intros e' [->|He']%elem_of_cons Hpe'; [congruence|by apply Hmin].
Qed.

Lemma find_none_all (p : Z * string -> bool) r : find p r = None -> forall e, e ∈ r -> p e = false.
Proof. intros Hf e He. eapply find_none; [exact Hf|]. by apply list_elem_of_In. Qed.

(** The entry is the first one clockwise from [x]. *)
Definition clockwise (r : list (Z * string)) (x : Z) (e : Z * string) : Prop :=
  e ∈ r /\ ((x <= e.1 /\ forall e', e' ∈ r -> x <= e'.1 -> e.1 <= e'.1)
            \/ ((forall e', e' ∈ r -> e'.1 < x) /\ forall e', e' ∈ r -> e.1 <= e'.1))%Z.

Lemma owner_clockwise r x n : ring_sorted r -> owner r x = Some n -> exists h, clockwise r x (h, n).
Proof.
  intros Hs. unfold owner, range_from. destruct (find _ r) as [[h n']|] eqn:Hf; cbn.
  - intros [= ->]. destruct (find_first _ _ _ Hs Hf) as (He & Hp & Hmin). exists h. split; [done|]. left. cbn in *.
    apply Z.leb_le in Hp. split; [done|]. intros e' He' Hx. apply Hmin; [done|]. by apply Z.leb_le.
  - destruct Hs as [|[h n'] r Hr Hlt]; [done|]. cbn. intros [= ->]. exists h. split; [by left|]. right. split.
    + intros e' He'. pose proof (find_none_all _ _ Hf e' He') as Hx. cbn in Hx. apply Z.leb_gt in Hx. lia.
    + rewrite Forall_forall in Hlt. intros e' [->|He']%elem_of_cons; [cbn; lia|]. specialize (Hlt e' He'). cbn in *. lia.
Qed.

Lemma owner_in r x n : owner r x = Some n -> exists h, (h, n) ∈ r.
Proof.
  unfold owner, range_from. destruct (find _ r) as [[h n']|] eqn:Hf; cbn.
  - intros [= ->]. exists h. apply list_elem_of_In. by eapply find_some.
  - destruct r as [|[h n'] r]; [done|]. cbn. intros [= ->]. exists h. by left.
Qed.

Lemma owner_none r x : owner r x = None <-> r = [].
Proof. unfold owner, range_from. split; [|by intros ->]. destruct r; [done|]. by destruct (find _ _). Qed.

(** ** Removing a node *)

Lemma filter_keep {A} (P : A -> Prop) `{forall x, Decision (P x)} (l : list A) : Forall P l -> base.filter P l = l.
Proof. induction 1 as [|x l Hx Hl IH]; [done|]. rewrite filter_cons_True by done. by rewrite IH. Qed.

Lemma fold_remove keys (r : list (Z * string)) :
  fold_left (fun rg k => base.filter (fun e => e.1 <> k) rg) keys r = base.filter (fun e => e.1 ∉ keys) r.
Proof.
  revert r. induction keys as [|k keys IH]; intros r; cbn [fold_left].
  - symmetry. apply filter_keep, Forall_forall. set_solver.
  - rewrite IH, list_filter_filter. apply list_filter_iff. set_solver.
Qed.

Definition others (node : string) (r : list (Z * string)) : list (Z * string) := base.filter (fun e => e.2 <> node) r.

Lemma sorted_unique r e1 e2 : ring_sorted r -> e1 ∈ r -> e2 ∈ r -> e1.1 = e2.1 -> e1 = e2.
Proof.
  induction 1 as [|a r Hr IH Hlt]; [by intros ?%elem_of_nil|]. rewrite Forall_forall in Hlt.
  intros [->|H1]%elem_of_cons [->|H2]%elem_of_cons He; [done| | |by apply IH].
  - specialize (Hlt _ H2). lia.
  - specialize (Hlt _ H1). lia.
Qed.

Lemma filter_ext_in {A} (P Q : A -> Prop) `{forall x, Decision (P x), forall x, Decision (Q x)} (l : list A) :
  (forall x, x ∈ l -> P x <-> Q x) -> base.filter P l = base.filter Q l.
Proof.
  induction l as [|x l IH]; intros Hpq; [done|]. rewrite !filter_cons, IH by set_solver.
  apply decide_ext. apply Hpq. by left.
Qed.

(** Hashes are unique, so the entries that go are those of the node. *)
Lemma remove_node_ring node r : ring_sorted (ring r) -> ring (remove_node node r) = others node (ring r).
Proof.
  intros Hs. unfold remove_node, others. cbn [ring]. rewrite fold_remove. apply filter_ext_in. intros e He.
  rewrite list_elem_of_fmap. split.
  - intros Hn Heq. apply Hn. exists e. split; [done|]. by apply list_elem_of_filter.
  - intros Hn (e' & He' & [Hv Hin]%list_elem_of_filter). apply Hn. by rewrite (sorted_unique _ _ _ Hs He Hin He').
Qed.

Lemma others_sorted node r : ring_sorted r -> ring_sorted (others node r).
Proof.
  unfold others. induction 1 as [|a r Hr IH Hlt]; [constructor|]. rewrite filter_cons. case_decide; [|done].
  constructor; [done|]. rewrite Forall_forall in Hlt |- *. intros e [_ He]%list_elem_of_filter. by apply Hlt.
Qed.

Lemma find_others p node r e : find p r = Some e -> e.2 <> node -> find p (others node r) = Some e.
Proof.
  unfold others. induction r as [|a r IH]; [done|]. cbn [find]. rewrite filter_cons. destruct (p a) eqn:Hp.
  - intros [= <-] Hn. rewrite decide_True by done. cbn. by rewrite Hp.
  - intros Hf Hn. case_decide; [cbn; rewrite Hp|]; by apply IH.
Qed.

Lemma find_others_none p node r : find p r = None -> find p (others node r) = None.
Proof.
  unfold others. induction r as [|a r IH]; [done|]. cbn [find]. rewrite filter_cons. destruct (p a) eqn:Hp; [done|].
  intros Hf. case_decide; [cbn; rewrite Hp|]; by apply IH.
Qed.

(** What other nodes own stays with them. *)
Lemma owner_others node r x n : owner r x = Some n -> n <> node -> owner (others node r) x = Some n.
Proof.
  unfold owner, range_from. destruct (find _ r) as [e|] eqn:Hf.
  - intros [= <-] Hn. by rewrite (find_others _ _ _ _ Hf Hn).
  - rewrite (find_others_none _ _ _ Hf). destruct r as [|e r]; [done|]. intros Ho Hn.
    assert (e.2 = n) as <- by (by injection Ho). unfold others. by rewrite filter_cons_True.
Qed.

Lemma others_insert r h node : others node (ring_insert r h node) = others node r.
Proof.
  assert (Hnew : forall r, base.filter (fun e => e.2 <> node) ((h, node) :: r) = others node r).
  { intros r'. unfold others. rewrite filter_cons_False; [done|]. cbn. tauto. }
  induction r as [|[h' n'] r IH]; cbn [ring_insert]; [apply Hnew|].
  destruct (h <? h')%Z; [apply Hnew|]. destruct (h =? h')%Z; [done|].
  unfold others in *. rewrite !filter_cons. by rewrite IH.
Qed.

Lemma others_add_vnodes v node r : others node (add_vnodes v node r) = others node r.
Proof.
  unfold add_vnodes. generalize (seq 0 v). intros ix. revert r. induction ix as [|i ix IH]; intros r; cbn [fold_left]; [done|].
  by rewrite IH, others_insert.
Qed.

Lemma add_vnodes_sorted v node r : ring_sorted r -> ring_sorted (add_vnodes v node r).
Proof.
  unfold add_vnodes. generalize (seq 0 v). intros ix. revert r. induction ix as [|i ix IH]; intros r Hr; cbn [fold_left]; [done|].
  by apply IH, ring_insert_sorted.
Qed.

Lemma elem_of_add_vnodes v node r e : e ∈ add_vnodes v node r -> e ∈ r \/ e.2 = node.
Proof.
  unfold add_vnodes. generalize (seq 0 v). intros ix. revert r. induction ix as [|i ix IH]; intros r; cbn [fold_left]; [by left|].
  intros [He|He]%IH; [|by right]. apply elem_of_ring_insert in He as [->|He]; [by right|by left].
Qed.

(** ** Every router that calls make *)

Inductive ring_call : Type := CallAdd (node : string) | CallRemove (node : string).

Definition ring_step (r : ConsistentHashRouter) (c : ring_call) : ConsistentHashRouter :=
  match c with CallAdd n => add_node n r | CallRemove n => remove_node n r end.

Definition ring_run (nodes : list string) (vnodes : nat) (calls : list ring_call) : ConsistentHashRouter :=
  fold_left ring_step calls (ring_new nodes vnodes).

Record ring_ok (r : ConsistentHashRouter) : Prop := {
  ok_sorted : ring_sorted (ring r);
  ok_nodes : forall e, e ∈ ring r -> e.2 ∈ nodes r;
}.

Lemma ring_new_ok nodes vnodes : ring_ok (ring_new nodes vnodes).
Proof.
  unfold ring_new. set (v := Nat.max vnodes 1). assert (Hgen : forall l r, ring_sorted r -> (forall e, e ∈ r -> e.2 ∈ nodes) ->
    (forall n, n ∈ l -> n ∈ nodes) ->
    ring_ok (mkRing (fold_left (fun r node => add_vnodes v node r) l r) nodes v)).
  { induction l as [|n l IH]; intros r Hs Hn Hl; cbn [fold_left]; [by split|]. apply IH; [by apply add_vnodes_sorted| |set_solver].
    intros e [He| ->]%elem_of_add_vnodes; [by apply Hn|]. apply Hl. by left. }
  apply Hgen; [constructor|by intros ? ?%elem_of_nil|done].
Qed.

Lemma not_a_node node l : existsb (String.eqb node) l = false <-> node ∉ l.
Proof.
  rewrite <- not_true_iff_false, existsb_exists. split.
  - intros Hn Hin. apply Hn. exists node. split; [by apply list_elem_of_In|apply String.eqb_refl].
  - intros Hn (x & Hx & ->%String.eqb_eq). apply Hn. by apply list_elem_of_In.
Qed.

Lemma ring_step_ok r c : ring_ok r -> ring_ok (ring_step r c).
Proof.
  intros [Hs Hn]. destruct c as [node|node]; cbn [ring_step].
  - unfold add_node. destruct (existsb _ _); [by split|]. split; cbn; [by apply add_vnodes_sorted|].
    intros e [He| ->]%elem_of_add_vnodes; rewrite elem_of_app; [left; by apply Hn|right; by left].
  - split; [rewrite remove_node_ring by done; by apply others_sorted|]. rewrite remove_node_ring by done.
    intros e [Hne He]%list_elem_of_filter. apply list_elem_of_filter. split; [done|by apply Hn].
Qed.

Lemma ring_run_ok nodes vnodes calls : ring_ok (ring_run nodes vnodes calls).
Proof.
  unfold ring_run. generalize (ring_new_ok nodes vnodes). generalize (ring_new nodes vnodes). induction calls as [|c calls IH]; [done|].
  intros r Hr. cbn. by apply IH, ring_step_ok.
Qed.

Lemma ring_route_ok r key n : ring_route r key = Ok n <-> owner (ring r) (hash_str key) = Some n.
Proof. unfold ring_route. destruct (owner _ _); split; congruence. Qed.

(** C23. Consistent hashing moves as little as it can.  For a router that any sequence of
    additions and removals made: a key is routed to a node of the router, the one whose entry is
    the first clockwise from the hash of the key, and the route fails only when the ring is
    empty; adding a node moves keys to that node alone; removing one moves its keys alone, and
    none is routed to it any more; adding a node and removing it restores the router. *)
Theorem consistent_hashing nodes0 vnodes calls : let r := ring_run nodes0 vnodes calls in
  (forall key, match ring_route r key with
     | Ok n => n ∈ nodes r /\ exists h, clockwise (ring r) (hash_str key) (h, n)
     | Err e => e = NoNodes /\ ring r = []
     end) /\
  (forall node key, ring_route (add_node node r) key = ring_route r key \/ ring_route (add_node node r) key = Ok node) /\
  (forall node key n, ring_route r key = Ok n -> n <> node -> ring_route (remove_node node r) key = Ok n) /\
  (forall node key, ring_route (remove_node node r) key <> Ok node) /\
  (forall node, node ∉ nodes r -> remove_node node (add_node node r) = r).
Proof.
  intros r. destruct (ring_run_ok nodes0 vnodes calls) as [Hs Hn]. fold r in Hs, Hn. split; [|split; [|split; [|split]]].
  - intros key. destruct (ring_route r key) as [n|e] eqn:Hr.
    + apply ring_route_ok in Hr. split; [|by apply owner_clockwise]. destruct (owner_in _ _ _ Hr) as [h Hin]. by apply (Hn (h, n)).
    + unfold ring_route in Hr. destruct (owner _ _) eqn:Ho; [done|]. injection Hr as <-. split; [done|]. by apply owner_none in Ho.
  - intros node key. unfold ring_route, add_node. destruct (existsb _ _); [by left|]. cbn [ring].
    destruct (owner_add_vnodes (vnodes_per_node r) node (ring r) (hash_str key)) as [->| ->]; [by left|by right].
  - intros node key n Hr Hne. apply ring_route_ok in Hr. apply ring_route_ok. rewrite remove_node_ring by done. by apply owner_others.
  - intros node key Hr. apply ring_route_ok in Hr. rewrite remove_node_ring in Hr by done.
    destruct (owner_in _ _ _ Hr) as [h [Hne _]%list_elem_of_filter]. done.
  - intros node Hnew. pose proof (proj2 (not_a_node node (nodes r)) Hnew) as He. unfold add_node. rewrite He.
    assert (Hr : ring (remove_node node (mkRing (add_vnodes (vnodes_per_node r) node (ring r)) (nodes r ++ [node])%list (vnodes_per_node r))) = ring r).
    { rewrite remove_node_ring by (cbn; by apply add_vnodes_sorted). cbn [ring]. rewrite others_add_vnodes. apply filter_keep, Forall_forall.
      intros e Hin Heq. apply Hnew. rewrite <- Heq. by apply Hn. }
    destruct r as [rg ns v]. cbn in *. unfold remove_node in *. cbn in *. f_equal; [done|].
    rewrite filter_app. rewrite filter_cons_False by tauto. rewrite filter_nil, app_nil_r. apply filter_keep, Forall_forall. by intros x Hx ->.
Qed.

(** ** The other routers of [enhanced.rs] *)

Record ListRouter : Type := mkList { mapping : gmap string string; list_default : option string }.

Definition list_new : ListRouter := mkList ∅ None.
Definition list_add (key shard : string) (r : ListRouter) : ListRouter := mkList (<[key := shard]> (mapping r)) (list_default r).
Definition list_with_default (shard : string) (r : ListRouter) : ListRouter := mkList (mapping r) (Some shard).

Definition list_route (r : ListRouter) (key : string) : result string EnhancedShardingError :=
  match mapping r !! key with
  | Some shard => Ok shard
  | None => match list_default r with Some default => Ok default | None => Err (NoListMatch key) end
  end.

Record ShardGroup : Type := mkGroup { group_id : string; group_shards : list string }.

Record CompositeRouter : Type := mkComposite {
  groups : gmap string ShardGroup;
  default_group : option ShardGroup;
  group_vnodes : nat;
  group_rings : gmap string ConsistentHashRouter;
  default_ring : option ConsistentHashRouter;
}.

Definition composite_new : CompositeRouter := mkComposite ∅ None 100 ∅ None.

Definition with_vnodes (vnodes : nat) (r : CompositeRouter) : CompositeRouter :=
  mkComposite (groups r) (default_group r) (Nat.max vnodes 1) ∅ None.

Definition add_group (g : ShardGroup) (r : CompositeRouter) : CompositeRouter :=
  mkComposite (<[group_id g := g]> (groups r)) (default_group r) (group_vnodes r)
    (<[group_id g := ring_new (group_shards g) (group_vnodes r)]> (group_rings r)) (default_ring r).

Definition with_default_group (g : ShardGroup) (r : CompositeRouter) : CompositeRouter :=
  mkComposite (groups r) (Some g) (group_vnodes r) (group_rings r) (Some (ring_new (group_shards g) (group_vnodes r))).

Definition composite_route (r : CompositeRouter) (group secondary_key : string) : result string EnhancedShardingError :=
  match (match group_rings r !! group with Some ring => Some ring | None => default_ring r end) with
  | Some ring => ring_route ring secondary_key
  | None => Err (NoGroupMatch group)
  end.

Record RangeShardConfig : Type := mkRange { lower : Z; upper : Z; range_shard : string }.

(** [configs.sort_by_key(|c| c.lower)], which is stable. *)
Fixpoint insert_by_lower (c : RangeShardConfig) (l : list RangeShardConfig) : list RangeShardConfig :=
  match l with
  | [] => [c]
  | d :: l' => if (lower c <=? lower d)%Z then c :: l else d :: insert_by_lower c l'
  end.

Definition range_new (configs : list RangeShardConfig) : list RangeShardConfig := foldr insert_by_lower [] configs.

Definition in_range (key : Z) (c : RangeShardConfig) : bool := ((lower c <=? key) && (key <? upper c))%Z.

Definition range_route (configs : list RangeShardConfig) (key : Z) : result string EnhancedShardingError :=
  match find (in_range key) configs with
  | Some c => Ok (range_shard c)
  | None => Err (NoListMatch (pretty key))
  end.

(** *** The rings that the composite router keeps *)

(** Routing without the cache: the ring is made for each key. *)
Definition route_uncached (r : CompositeRouter) (group key : string) : result string EnhancedShardingError :=
  match (match groups r !! group with Some g => Some g | None => default_group r end) with
  | Some g => ring_route (ring_new (group_shards g) (group_vnodes r)) key
  | None => Err (NoGroupMatch group)
  end.

Inductive composite_call : Type :=
| CallVnodes (n : nat)
| CallGroup (g : ShardGroup)
| CallDefault (g : ShardGroup).

Definition composite_step (r : CompositeRouter) (c : composite_call) : CompositeRouter :=
  match c with
  | CallVnodes n => with_vnodes n r
  | CallGroup g => add_group g r
  | CallDefault g => with_default_group g r
  end.

Definition composite_run (calls : list composite_call) : CompositeRouter := fold_left composite_step calls composite_new.

Definition adds_group (c : composite_call) : bool := match c with CallVnodes _ => false | _ => true end.

(** Each group has its ring. *)
Record cached (r : CompositeRouter) : Prop := {
  cached_groups : group_rings r = (fun g => ring_new (group_shards g) (group_vnodes r)) <$> groups r;
  cached_default : default_ring r = (fun g => ring_new (group_shards g) (group_vnodes r)) <$> default_group r;
}.

Lemma adds_group_cached r c : adds_group c = true -> cached r -> cached (composite_step r c).
Proof.
  intros Hc [Hg Hd]. destruct c as [n|g|g]; [done| |]; split; cbn; try done.
  by rewrite Hg, fmap_insert.
Qed.

Lemma adds_groups_cached calls r : Forall (fun c => adds_group c = true) calls -> cached r -> cached (fold_left composite_step calls r).
Proof. intros Hc. revert r. induction Hc as [|c calls Hc Hcs IH]; intros r Hr; [done|]. cbn. by apply IH, adds_group_cached. Qed.

Lemma cached_route r group key : cached r -> composite_route r group key = route_uncached r group key.
Proof.
  intros [Hg Hd]. unfold composite_route, route_uncached. rewrite Hg, Hd, lookup_fmap.
  destruct (groups r !! group); [done|]. by destruct (default_group r).
Qed.

(** The cache of rings is invisible when the number of virtual nodes is set before the groups. *)
Theorem composite_cache_transparent n calls group key : Forall (fun c => adds_group c = true) calls ->
  composite_route (composite_run (CallVnodes n :: calls)) group key = route_uncached (composite_run (CallVnodes n :: calls)) group key.
Proof. intros Hc. apply cached_route. unfold composite_run. cbn. by apply adds_groups_cached. Qed.

(** Set after them, it leaves the router without any ring: no key of these groups is routed. *)
Theorem late_vnodes_lose_groups calls n group key :
  composite_route (composite_run (calls ++ [CallVnodes n])) group key = Err (NoGroupMatch group).
Proof. unfold composite_run. rewrite fold_left_app. done. Qed.

(** *** Ranges *)

Lemma elem_of_insert_by_lower c l x : x ∈ insert_by_lower c l <-> x = c \/ x ∈ l.
Proof. induction l as [|d l IH]; cbn; [set_solver|]. destruct (lower c <=? lower d)%Z; set_solver. Qed.

Lemma elem_of_range_new l x : x ∈ range_new l <-> x ∈ l.
Proof. induction l as [|c l IH]; [done|]. cbn. rewrite elem_of_insert_by_lower, IH. set_solver. Qed.

Definition by_lower (c d : RangeShardConfig) : Prop := (lower c <= lower d)%Z.

Lemma insert_by_lower_sorted c l : StronglySorted by_lower l -> StronglySorted by_lower (insert_by_lower c l).
Proof.
  induction 1 as [|d l Hl IH Hd]; cbn; [by repeat constructor|]. destruct (Z.leb_spec (lower c) (lower d)) as [Hle|Hlt].
  - constructor; [by constructor|]. constructor; [done|]. eapply Forall_impl; [exact Hd|]. unfold by_lower. lia.
  - constructor; [done|]. rewrite Forall_forall in Hd |- *. intros x [->|Hx]%elem_of_insert_by_lower; [unfold by_lower; lia|by apply Hd].
Qed.

Lemma range_new_sorted l : StronglySorted by_lower (range_new l).
Proof. induction l as [|c l IH]; [constructor|]. by apply insert_by_lower_sorted. Qed.

Definition disjoint_ranges (l : list RangeShardConfig) : Prop :=
  forall c d key, c ∈ l -> d ∈ l -> in_range key c = true -> in_range key d = true -> c = d.

(** When the ranges are disjoint a key is routed to the one it is in, in whatever order they were given. *)
Theorem range_route_exact l key : disjoint_ranges l ->
  match range_route (range_new l) key with
  | Ok s => exists c, c ∈ l /\ in_range key c = true /\ range_shard c = s /\ forall d, d ∈ l -> in_range key d = true -> d = c
  | Err e => e = NoListMatch (pretty key) /\ forall c, c ∈ l -> in_range key c = false
  end.
Proof.
  intros Hdis. unfold range_route. destruct (find (in_range key) (range_new l)) as [c|] eqn:Hf.
  - apply find_some in Hf as [Hin%list_elem_of_In Hr]. rewrite elem_of_range_new in Hin. exists c. split; [done|]. split; [done|].
    split; [done|]. intros d Hd Hdr. by apply (Hdis d c key).
  - split; [done|]. intros c Hc. eapply find_none; [exact Hf|]. by apply list_elem_of_In, elem_of_range_new.
Qed.
End Ring.

(** * Scatter and gather *)

Module Scatter.
Import Router.

(** A query on a shard; [None] is a panic of its thread. *)
Definition joined {T} (r : option (result T ShardingError)) : result T ShardingError :=
  match r with Some r => r | None => Err ThreadPanic end.

Definition broadcast {T} (r : ShardingRouter) (f : string -> option (result T ShardingError)) : list (result T ShardingError) :=
  (fun shard => joined (f shard)) <$> query_all r.

(** [groups.entry(shard).or_default().push(key)] for each key that is routed; [None] is a panic of [route]. *)
Definition group_step (r : ShardingRouter) (groups : gmap string (list string)) (key : string) : option (gmap string (list string)) :=
  res ← route r key;
  match res with
  | Ok shard => Some (<[shard := default [] (groups !! shard) ++ [key]]> groups)%list
  | Err _ => Some groups
  end.

Definition group_keys (r : ShardingRouter) (keys : list string) : option (gmap string (list string)) :=
  foldl (fun o key => groups ← o; group_step r groups key) (Some ∅) keys.

(** [iteration] is the order in which the [HashMap] of groups is turned into a vector. *)
Definition scatter_by_keys {T} (iteration : gmap string (list string) -> list (string * list string)) (r : ShardingRouter) (keys : list string)
    (f : string -> list string -> option (result T ShardingError)) : option (list (result T ShardingError)) :=
  groups ← group_keys r keys;
  Some ((fun '(shard, shard_keys) => joined (f shard shard_keys)) <$> iteration groups).

Fixpoint collect {T} (results : list (result T ShardingError)) : result (list T) ShardingError :=
  match results with
  | [] => Ok []
  | r :: results => result_bind r (fun t => result_bind (collect results) (fun ts => Ok (t :: ts)))
  end.

Definition merge {T} (results : list (result T ShardingError)) (merger : list T -> result T ShardingError) : result T ShardingError :=
  result_bind (collect results) merger.

(** The keys that are routed to [shard], in their order. *)
Definition routed_to (r : ShardingRouter) (keys : list string) (shard : string) : list string :=
  base.filter (fun key => route r key = Some (Ok shard)) keys.

Lemma group_keys_snoc r keys key : group_keys r (keys ++ [key])%list = (groups ← group_keys r keys; group_step r groups key).
Proof. unfold group_keys. by rewrite foldl_app. Qed.

(** A shard is asked exactly for the keys routed to it. *)
Theorem group_keys_exact r keys : exists groups, group_keys r keys = Some groups /\
  forall shard, default [] (groups !! shard) = routed_to r keys shard /\ groups !! shard <> Some [].
Proof.
  induction keys as [|key keys IH] using rev_ind; [by exists ∅|]. destruct IH as (groups & Hg & IH).
  rewrite group_keys_snoc, Hg. cbn [mbind option_bind]. unfold group_step.
  destruct (route_strategy_ok (router_strategy r) (shards r) key) as (res & Hr & _). fold (route r key) in Hr. rewrite Hr. cbn [mbind option_bind].
  unfold routed_to in *. destruct res as [shard|e]; (eexists; split; [done|]); intros s; rewrite filter_app, filter_cons, filter_nil, Hr.
  - destruct (decide (s = shard)) as [->|Hne].
    + rewrite lookup_insert_eq, decide_True by done. cbn. destruct (IH shard) as [-> _]. split; [done|]. by destruct (base.filter _ keys).
    + rewrite lookup_insert_ne by done. rewrite decide_False by congruence. rewrite app_nil_r. apply IH.
  - rewrite decide_False by done. rewrite app_nil_r. apply IH.
Qed.
End Scatter.

(** * Transactions over shards *)

Module ShardTx.

Record ShardParticipant (W : Type) : Type := mkShardParticipant {
  shard_id : string;
  prepare : Callback W;
  commit : Callback W;
  rollback : Callback W;
}.
Arguments mkShardParticipant {W} shard_id prepare commit rollback.
Arguments shard_id {W} s.
Arguments prepare {W} s.
Arguments commit {W} s.
Arguments rollback {W} s.

Inductive ShardTxError : Type :=
| PrepareFailed (shard_id reason : string)
| CommitFailed (shard_id reason : string)
| RollbackFailed (shard_id reason : string).

Record ShardTxResult : Type := mkTxResult { result_shard : string; success : bool; error : option string }.

Record ShardTransactionCoordinator (W : Type) : Type := mkShardTransactionCoordinator {
  participants : list (ShardParticipant W);
  max_retries : nat;
}.
Arguments mkShardTransactionCoordinator {W} participants max_retries.
Arguments participants {W} s.
Arguments max_retries {W} s.

Definition coordinator_new {W} : ShardTransactionCoordinator W := mkShardTransactionCoordinator [] 0.
Definition with_max_retries {W} (c : ShardTransactionCoordinator W) (n : nat) := mkShardTransactionCoordinator (participants c) n.
Definition add_participant {W} (c : ShardTransactionCoordinator W) (p : ShardParticipant W) :=
  mkShardTransactionCoordinator (participants c ++ [p])%list (max_retries c).

Section Coordinator.
Local Open Scope eff_scope.
Context {W : Type}.
Implicit Types ps : list (ShardParticipant W).

(** The order in which a [HashSet<usize>] is iterated. *)
Variable iteration : gset nat -> list nat.
Hypothesis iteration_perm : forall s, iteration s ≡ₚ elements s.

Definition rollbacks_at ps (is_ : list nat) : list (Callback W) := omap (fun i => rollback <$> ps !! i) is_.

Fixpoint prepare_loop (all ps : list (ShardParticipant W)) (i : nat) (prepared : gset nat) : Eff W (option ShardTxError) :=
  match ps with
  | [] => eret None
  | p :: ps =>
      let* r := prepare p in
      match r with
      | Ok _ => prepare_loop all ps (S i) ({[i]} ∪ prepared)
      | Err reason =>
          let* _ := run_best (rollbacks_at all (iteration prepared)) in
          eret (Some (PrepareFailed (shard_id p) reason))
      end
  end.

Fixpoint commit_loop ps : Eff W (result unit ShardTxError) :=
  match ps with
  | [] => eret (Ok tt)
  | p :: ps =>
      let* r := commit p in
      match r with
      | Ok _ => commit_loop ps
      | Err reason => eret (Err (CommitFailed (shard_id p) reason))
      end
  end.

Definition execute_2pc (c : ShardTransactionCoordinator W) : Eff W (result unit ShardTxError) :=
  let* e := prepare_loop (participants c) (participants c) 0 ∅ in
  match e with
  | Some e => eret (Err e)
  | None => commit_loop (participants c)
  end.

(** [for attempt in 0..=max_retries]: whether an attempt succeeded, and the last error. *)
Fixpoint attempts (n : nat) (cb : Callback W) (last_err : option string) : Eff W (bool * option string) :=
  match n with
  | O => eret (false, last_err)
  | S n =>
      let* r := cb in
      match r with
      | Ok _ => eret (true, None)
      | Err reason => attempts n cb (Some reason)
      end
  end.

Fixpoint best_effort_loop (max_retries : nat) ps : Eff W (list ShardTxResult) :=
  match ps with
  | [] => eret []
  | p :: ps =>
      let* (success, last_err) := attempts (S max_retries) (commit p) None in
      let* results := best_effort_loop max_retries ps in
      eret (mkTxResult (shard_id p) success last_err :: results)
  end.

Definition execute_best_effort (c : ShardTransactionCoordinator W) : Eff W (list ShardTxResult) :=
  best_effort_loop (max_retries c) (participants c).

(** ** Two phases *)

Definition id_at ps (n : nat) : string := default "" (shard_id <$> ps !! n).

Lemma prepare_loop_cons all p ps i prepared w :
  prepare_loop all (p :: ps) i prepared w =
  match prepare p w with
  | (Ok _, w1) => prepare_loop all ps (S i) ({[i]} ∪ prepared) w1
  | (Err reason, w1) => (Some (PrepareFailed (shard_id p) reason), snd (run_best (rollbacks_at all (iteration prepared)) w1))
  end.
Proof. cbn [prepare_loop]. unfold ebind at 1. destruct (prepare p w) as [[u|e] w1]; [done|]. unfold ebind, eret. by destruct (run_best _ w1). Qed.

Lemma shard_prepare_loop_spec all pre ps w prepared : all = (pre ++ ps)%list -> prepared = list_to_set (seq 0 (length pre)) ->
  let '((n, oe), w1) := run_seq (prepare <$> ps) w in
  match oe with
  | None => prepare_loop all ps (length pre) prepared w = (None, w1)
  | Some reason => exists order, order ≡ₚ seq 0 (length pre + n) /\
      prepare_loop all ps (length pre) prepared w
      = (Some (PrepareFailed (id_at ps n) reason), snd (run_best (rollbacks_at all order) w1))
  end.
Proof.
  revert pre w prepared. induction ps as [|p ps IH]; intros pre w prepared Hall Hprep; [done|].
  rewrite fmap_cons, run_seq_cons, prepare_loop_cons. destruct (prepare p w) as [[u|e] w1] eqn:Hp.
  - specialize (IH (pre ++ [p])%list w1 ({[length pre]} ∪ prepared)). rewrite length_app, Nat.add_1_r in IH.
    specialize (IH ltac:(by rewrite Hall, <- app_assoc)). rewrite Hprep in IH |- *.
    specialize (IH ltac:(rewrite seq_S, list_to_set_app_L; set_solver)).
    destruct (run_seq (prepare <$> ps) w1) as [[n [reason|]] w2]; [|done]. by rewrite Nat.add_succ_r.
  - cbn. exists (iteration prepared). rewrite Nat.add_0_r. split; [|done].
    rewrite iteration_perm, Hprep. apply elements_list_to_set, NoDup_seq.
Qed.

Lemma shard_commit_loop_spec ps w :
  commit_loop ps w = let '((n, oe), w1) := run_seq (commit <$> ps) w in
    (match oe with None => Ok tt | Some reason => Err (CommitFailed (id_at ps n) reason) end, w1).
Proof.
  revert w. induction ps as [|p ps IH]; intros w; [done|]. rewrite fmap_cons, run_seq_cons. cbn [commit_loop]. unfold ebind.
  destruct (commit p w) as [[u|e] w1]; [|done]. rewrite IH. by destruct (run_seq _ w1) as [[n [reason|]] w2].
Qed.

(** The participants are prepared in order; when one refuses, those before it, and no other, are
    rolled back once each, in some order, whatever the rollbacks answer, and nothing is
    committed. When all agree they are committed in order up to the first refusal, after which
    nothing is undone. *)
Theorem execute_2pc_spec c w :
  let ps := participants c in
  let '((n, refused), w1) := run_seq (prepare <$> ps) w in
  match refused with
  | Some reason => exists order, order ≡ₚ seq O n /\
      execute_2pc c w = (Err (PrepareFailed (id_at ps n) reason), snd (run_best (rollbacks_at ps order) w1))
  | None => let '((k, failed), w2) := run_seq (commit <$> ps) w1 in
      execute_2pc c w = (match failed with None => Ok tt | Some reason => Err (CommitFailed (id_at ps k) reason) end, w2)
  end.
Proof.
  intros ps. pose proof (shard_prepare_loop_spec ps [] ps w ∅ eq_refl eq_refl) as H. cbn [length plus] in H.
  unfold execute_2pc. fold ps. destruct (run_seq (prepare <$> ps) w) as [[n [reason|]] w1].
  - destruct H as (order & Ho & H). exists order. split; [done|]. by rewrite (ebind_run _ _ _ _ _ H).
  - rewrite (ebind_run _ _ _ _ _ H), shard_commit_loop_spec. by destruct (run_seq (commit <$> ps) w1) as [[k oc] w2].
Qed.

(** ** Best effort *)

(** [n] calls that all fail, the last with [e]; [w'] is the state they leave. *)
Inductive all_fail (cb : Callback W) : nat -> option string -> W -> option string -> W -> Prop :=
| no_call e w : all_fail cb 0 e w e w
| one_more n e w e1 w1 e2 w2 : cb w = (Err e1, w1) -> all_fail cb n (Some e1) w1 e2 w2 -> all_fail cb (S n) e w e2 w2.

Lemma attempts_succ n cb e w : attempts (S n) cb e w =
  match cb w with (Ok _, w1) => ((true, None), w1) | (Err reason, w1) => attempts n cb (Some reason) w1 end.
Proof. cbn [attempts]. unfold ebind, eret. by destruct (cb w) as [[u|e1] w1]. Qed.

(** At most [n] calls: failures and then a success, after which there is no error; or [n] failures. *)
Lemma attempts_spec (n : nat) cb e w : exists (k : nat) w1 e1, (k <= n)%nat /\ all_fail cb k e w e1 w1 /\
  (((k < n)%nat /\ exists w2, cb w1 = (Ok tt, w2) /\ attempts n cb e w = ((true, None), w2)) \/
   (k = n /\ attempts n cb e w = ((false, e1), w1))).
Proof.
  revert e w. induction n as [|n IH]; intros e w.
  { exists O, w, e. split; [done|]. split; [constructor|]. by right. }
  rewrite attempts_succ. destruct (cb w) as [[[]|e1] w1] eqn:Hcb.
  - exists O, w, e. split; [lia|]. split; [constructor|]. left. split; [lia|]. by exists w1.
  - destruct (IH (Some e1) w1) as (k & w2 & e2 & Hk & Hf & Hc). exists (S k), w2, e2. split; [lia|]. split; [by econstructor|].
    destruct Hc as [(Hlt & Hc)|(-> & Hc)]; [left; split; [lia|done]|by right].
Qed.

Lemma attempts_verdict n cb e w : let '((s, err), _) := attempts (S n) cb e w in s = true <-> err = None.
Proof.
  revert e w. induction n as [|n IH]; intros e w; rewrite attempts_succ; destruct (cb w) as [[[]|e1] w1]; try done. apply IH.
Qed.

(** Every participant gets one result, in order, and a result is a success exactly when it carries no error. *)
Theorem best_effort_results max_retries ps w :
  result_shard <$> (best_effort_loop max_retries ps w).1 = shard_id <$> ps /\
  Forall (fun r => success r = true <-> error r = None) (best_effort_loop max_retries ps w).1.
Proof.
  revert w. induction ps as [|p ps IH]; intros w; [done|]. cbn [best_effort_loop]. unfold ebind at 1 3.
  pose proof (attempts_verdict max_retries (commit p) None w) as Hv.
  destruct (attempts (S max_retries) (commit p) None w) as [[s e] w1]. destruct (IH w1) as [Hi Hf]. unfold ebind.
  destruct (best_effort_loop max_retries ps w1) as [rs w2]. cbn in *. split; [by f_equal|]. by constructor.
Qed.
End Coordinator.
End ShardTx.
