(* ===== verification/Queue.v ===== *)
(** Message queues: [packages/sz-orm-queue/src/queue.rs]: [InMemoryQueue] as the steps its
    methods take under the lock, [QueueWrapper] over the trait [MessageQueue], and the queues
    of the providers ([kafka.rs] and the five files like it). *)

From Stdlib Require Import SpecFloat.
From S2P Require Import Prelude Dialect Value.
Local Open Scope string_scope.
Local Open Scope Z_scope.

(** * Data *)

Inductive MqError : Type :=
| Publish (msg : string)
| Subscribe (msg : string)
| Connection (msg : string)
| NotSupported (msg : string)
| Json (msg : string).

#[export] Instance mq_error_eq_dec : EqDecision MqError.
Proof. solve_decision. Defined.

Definition mq_error_text (e : MqError) : string :=
  match e with
  | Publish msg => "Publish error: " +:+ msg
  | Subscribe msg => "Subscribe error: " +:+ msg
  | Connection msg => "Connection error: " +:+ msg
  | NotSupported msg => "Not supported: " +:+ msg
  | Json msg => "JSON error: " +:+ msg
  end.

(** [payload] is its bytes. *)
Record Message : Type := mkMessage {
  msg_topic : string;
  payload : string;
  msg_key : option string;
  timestamp : Z;
  headers : gmap string string;
  msg_id : string;
  retry_count : Z;
}.

#[export] Instance message_eq_dec : EqDecision Message.
Proof. solve_decision. Defined.

(** Milliseconds since the epoch as an [i64]; [None] is a clock before the epoch. *)
Definition current_timestamp (since : option Z) : Z :=
  match since with Some ms => (ms + 2 ^ 63) mod 2 ^ 64 - 2 ^ 63 | None => 0 end.

(** [now] is what [current_timestamp] answers. *)
Definition message_new (now : Z) (topic payload : string) : Message := mkMessage topic payload None now ∅ "" 0.
Definition with_key (key : string) (m : Message) : Message :=
  mkMessage (msg_topic m) (payload m) (Some key) (timestamp m) (headers m) (msg_id m) (retry_count m).
Definition text_message (now : Z) (topic text : string) : Message := message_new now topic text.

Definition with_id (id : string) (m : Message) : Message :=
  mkMessage (msg_topic m) (payload m) (msg_key m) (timestamp m) (headers m) id (retry_count m).
Definition with_retries (n : Z) (m : Message) : Message :=
  mkMessage (msg_topic m) (payload m) (msg_key m) (timestamp m) (headers m) (msg_id m) n.

Inductive OverflowStrategy : Type := Block | DropOldest | DropNewest | Reject.

#[export] Instance overflow_eq_dec : EqDecision OverflowStrategy.
Proof. solve_decision. Defined.

Record BackpressurePolicy : Type := mkPolicy { max_queue_size : Z; on_overflow : OverflowStrategy }.
Definition default_policy : BackpressurePolicy := mkPolicy 10000 Reject.

(** * Notifications

    What the program relies on of [tokio::sync::Notify], by its documentation: [notify_one]
    wakes the first waiting task or stores one permit; a task that polls its [notified] future
    takes the permit or joins the tasks that wait, in order; a woken task finds its future
    ready; dropping the future of a woken task passes its notification on.  The last three
    operations observe the state. *)
Class Notify (N : Type) := {
  notify_new : N;
  notify_one : N -> N;
  poll_notified : nat -> N -> bool * N;
  drop_notified : nat -> N -> N;
  permit : N -> bool;
  waiting : N -> list nat;
  woken : N -> gset nat;
}.

Class NotifyLaws (N : Type) `{Notify N} := {
  new_law : permit notify_new = false /\ waiting notify_new = [] /\ woken notify_new = ∅;
  one_law n :
    match waiting n with
    | [] => permit (notify_one n) = true /\ waiting (notify_one n) = [] /\ woken (notify_one n) = woken n
    | t :: ts => permit (notify_one n) = permit n /\ waiting (notify_one n) = ts /\ woken (notify_one n) = {[t]} ∪ woken n
    end;
  poll_law t n :
    if decide (t ∈ woken n) then
      (poll_notified t n).1 = true /\ permit (poll_notified t n).2 = permit n
      /\ waiting (poll_notified t n).2 = waiting n /\ woken (poll_notified t n).2 = woken n ∖ {[t]}
    else if decide (t ∈ waiting n) then poll_notified t n = (false, n)
    else
      (poll_notified t n).1 = permit n /\ permit (poll_notified t n).2 = false
      /\ waiting (poll_notified t n).2 = (if permit n then waiting n else (waiting n ++ [t])%list)
      /\ woken (poll_notified t n).2 = woken n;
  drop_law t n :
    if decide (t ∈ woken n) then
      exists n', permit n' = permit n /\ waiting n' = waiting n /\ woken n' = woken n ∖ {[t]}
        /\ drop_notified t n = notify_one n'
    else permit (drop_notified t n) = permit n /\ waiting (drop_notified t n) = filter (fun u => u <> t) (waiting n)
      /\ woken (drop_notified t n) = woken n;
}.

(** A notifier for the closed instances of the theorems. *)
Record SimNotify : Type := mkNotify { sim_permit : bool; sim_waiting : list nat; sim_woken : gset nat }.

Definition sim_one (n : SimNotify) : SimNotify :=
  match sim_waiting n with
  | [] => mkNotify true [] (sim_woken n)
  | t :: ts => mkNotify (sim_permit n) ts ({[t]} ∪ sim_woken n)
  end.

#[export] Instance SimNotify_notify : Notify SimNotify := {|
  notify_new := mkNotify false [] ∅;
  notify_one := sim_one;
  poll_notified t n :=
    if decide (t ∈ sim_woken n) then (true, mkNotify (sim_permit n) (sim_waiting n) (sim_woken n ∖ {[t]}))
    else if decide (t ∈ sim_waiting n) then (false, n)
    else if sim_permit n then (true, mkNotify false (sim_waiting n) (sim_woken n))
    else (false, mkNotify false (sim_waiting n ++ [t])%list (sim_woken n));
  drop_notified t n :=
    if decide (t ∈ sim_woken n) then sim_one (mkNotify (sim_permit n) (sim_waiting n) (sim_woken n ∖ {[t]}))
    else mkNotify (sim_permit n) (filter (fun u => u <> t) (sim_waiting n)) (sim_woken n);
  permit := sim_permit;
  waiting := sim_waiting;
  woken := sim_woken;
|}.

#[export] Instance SimNotify_laws : NotifyLaws SimNotify.
Proof.
  split; cbn; [done| | |].
  - intros [p [|t ts] w]; done.
  - intros t [p ws w]; cbn. case_decide; [done|]. case_decide; [done|]. by destruct p.
  - intros t [p ws w]; cbn. case_decide; [|done]. eexists. by repeat split.
Defined.

(** * The queue *)

Section Queue.
Context {N : Type} `{Notify N}.

Record Inner : Type := mkInner {
  queues : gmap string (list Message);
  in_flight : gmap string Message;
  subscribers : gmap string Z;
  next_id : Z;
  max_messages_per_topic : Z;
  dead_letters : gmap string (list Message);
  max_retries : Z;
  backpressure : option BackpressurePolicy;
  notify : gmap string N;
}.

Definition DEFAULT_MAX_MESSAGES_PER_TOPIC : Z := 100000.
Definition DEFAULT_MAX_RETRIES : Z := 3.

Definition with_max_messages_per_topic (max : Z) : Inner :=
  mkInner ∅ ∅ ∅ 1 max ∅ DEFAULT_MAX_RETRIES None ∅.
Definition queue_new : Inner := with_max_messages_per_topic DEFAULT_MAX_MESSAGES_PER_TOPIC.
Definition with_max_retries (retries : Z) : Inner :=
  mkInner ∅ ∅ ∅ 1 DEFAULT_MAX_MESSAGES_PER_TOPIC ∅ retries None ∅.
Definition with_backpressure (policy : BackpressurePolicy) : Inner :=
  mkInner ∅ ∅ ∅ 1 (max_queue_size policy) ∅ DEFAULT_MAX_RETRIES (Some policy) ∅.

Definition set_queues (m : gmap string (list Message)) (q : Inner) : Inner :=
  mkInner m (in_flight q) (subscribers q) (next_id q) (max_messages_per_topic q) (dead_letters q)
    (max_retries q) (backpressure q) (notify q).
Definition set_in_flight (m : gmap string Message) (q : Inner) : Inner :=
  mkInner (queues q) m (subscribers q) (next_id q) (max_messages_per_topic q) (dead_letters q)
    (max_retries q) (backpressure q) (notify q).
Definition set_dead_letters (m : gmap string (list Message)) (q : Inner) : Inner :=
  mkInner (queues q) (in_flight q) (subscribers q) (next_id q) (max_messages_per_topic q) m
    (max_retries q) (backpressure q) (notify q).
Definition set_subscribers (m : gmap string Z) (q : Inner) : Inner :=
  mkInner (queues q) (in_flight q) m (next_id q) (max_messages_per_topic q) (dead_letters q)
    (max_retries q) (backpressure q) (notify q).
Definition set_next_id (n : Z) (q : Inner) : Inner :=
  mkInner (queues q) (in_flight q) (subscribers q) n (max_messages_per_topic q) (dead_letters q)
    (max_retries q) (backpressure q) (notify q).
Definition set_notify (m : gmap string N) (q : Inner) : Inner :=
  mkInner (queues q) (in_flight q) (subscribers q) (next_id q) (max_messages_per_topic q) (dead_letters q)
    (max_retries q) (backpressure q) m.

(** [map.get(topic)] of a map of queues, and its length. *)
Definition messages_of (topic : string) (m : gmap string (list Message)) : list Message := default [] (m !! topic).
Definition count_of (topic : string) (m : gmap string (list Message)) : Z := Z.of_nat (length (messages_of topic m)).

(** [map.entry(topic).or_insert_with(VecDeque::new).push_back(msg)] *)
Definition push_back (topic : string) (m : Message) (qs : gmap string (list Message)) : gmap string (list Message) :=
  <[topic := (messages_of topic qs ++ [m])%list]> qs.

Definition message_count (topic : string) (q : Inner) : Z := count_of topic (queues q).
Definition subscriber_count (topic : string) (q : Inner) : Z := default 0 (subscribers q !! topic).
Definition in_flight_count (q : Inner) : Z := Z.of_nat (size (in_flight q)).
Definition dead_letter_count (topic : string) (q : Inner) : Z := count_of topic (dead_letters q).

Definition consume_dead_letter (topic : string) (q : Inner) : option Message * Inner :=
  match dead_letters q !! topic with
  | Some (m :: ms) => (Some m, set_dead_letters (<[topic := ms]> (dead_letters q)) q)
  | _ => (None, q)
  end.

Definition collect_all_dead_letters (q : Inner) : list Message := concat (map_to_list (dead_letters q)).*2.

(** The first queue that holds the message, and where. *)
Fixpoint find_letter (id : string) (qs : list (string * list Message)) : option (string * nat * Message * list Message) :=
  match qs with
  | [] => None
  | (topic, dq) :: qs =>
      match list_find (fun m => msg_id m = id) dq with
      | Some (pos, m) => Some (topic, pos, m, dq)
      | None => find_letter id qs
      end
  end.

Definition remove_dead_letter (id : string) (q : Inner) : bool * Inner :=
  match find_letter id (map_to_list (dead_letters q)) with
  | Some (topic, pos, _, dq) => (true, set_dead_letters (<[topic := delete pos dq]> (dead_letters q)) q)
  | None => (false, q)
  end.

Definition requeue_dead_letter (id : string) (q : Inner) : result unit MqError * Inner :=
  match find_letter id (map_to_list (dead_letters q)) with
  | Some (topic, pos, m, dq) =>
      let q := set_dead_letters (<[topic := delete pos dq]> (dead_letters q)) q in
      (Ok tt, set_queues (push_back (msg_topic m) (with_retries 0 m) (queues q)) q)
  | None => (Err (NotSupported ("Dead letter not found: " +:+ id)), q)
  end.

(** ** The trait's methods *)

Definition strategy_of (q : Inner) : OverflowStrategy :=
  match backpressure q with Some p => on_overflow p | None => Reject end.

Definition consume (topic : string) (q : Inner) : option Message * Inner :=
  match messages_of topic (queues q) with
  | m :: ms =>
      let q := set_queues (<[topic := ms]> (queues q)) q in
      let q := set_in_flight (<[msg_id m := m]> (in_flight q)) q in
      (Some m, match notify q !! topic with
               | Some n => set_notify (<[topic := notify_one n]> (notify q)) q
               | None => q
               end)
  | [] => (None, set_queues (<[topic := []]> (queues q)) q)
  end.

Definition ack (id : string) (q : Inner) : result unit MqError * Inner :=
  match in_flight q !! id with
  | None => (Err (NotSupported ("Message not found for ack: " +:+ id)), q)
  | Some _ => (Ok tt, set_in_flight (delete id (in_flight q)) q)
  end.

(** The release build wraps a [usize]. *)
Definition subscribe (topic : string) (q : Inner) : Inner :=
  set_subscribers (<[topic := wrap64 (subscriber_count topic q + 1)]> (subscribers q)) q.

Definition nack (id : string) (q : Inner) : result unit MqError * Inner :=
  match in_flight q !! id with
  | None => (Err (NotSupported ("Message not found for nack: " +:+ id)), q)
  | Some m =>
      let q := set_in_flight (delete id (in_flight q)) q in
      let m := with_retries (Z.min (retry_count m + 1) u32_max) m in
      (Ok tt, if max_retries q <=? retry_count m
              then set_dead_letters (push_back (msg_topic m) m (dead_letters q)) q
              else set_queues (push_back (msg_topic m) m (queues q)) q)
  end.

Definition reject (id : string) (q : Inner) : result unit MqError * Inner :=
  match in_flight q !! id with
  | None => (Err (NotSupported ("Message not found for reject: " +:+ id)), q)
  | Some m =>
      let q := set_in_flight (delete id (in_flight q)) q in
      (Ok tt, set_dead_letters (push_back (msg_topic m) m (dead_letters q)) q)
  end.

(** An identifier is taken and the message inserted. *)
Definition insert_new (now : Z) (topic payload : string) (q : Inner) : result unit MqError * Inner :=
  let id := "msg-" +:+ pretty (next_id q) in
  if next_id q =? u64_max then (Err (Publish "message id overflow: u64::MAX reached"), q)
  else
    let q := set_next_id (next_id q + 1) q in
    (Ok tt, set_queues (push_back topic (with_id id (message_new now topic payload)) (queues q)) q).

Definition publish_immediate (now : Z) (topic payload : string) (strategy : OverflowStrategy) (q : Inner) :
    result unit MqError * Inner :=
  let current_count := message_count topic q in
  if max_messages_per_topic q <=? current_count then
    match strategy with
    | DropOldest => insert_new now topic payload (set_queues (<[topic := tail (messages_of topic (queues q))]> (queues q)) q)
    | DropNewest => (Ok tt, q)
    | Reject =>
        (Err (Publish ("topic '" +:+ topic +:+ "' is full: " +:+ pretty current_count +:+ " >= "
                +:+ pretty (max_messages_per_topic q) +:+ " messages (H-3 protection)")), q)
    | Block =>
        (Err (Publish ("topic '" +:+ topic
                +:+ "' overflow with Block strategy: use publish_with_block instead")), q)
    end
  else insert_new now topic payload q.

(** One turn of the loop of [publish_with_block]: [None] goes on to wait for the notification. *)
Definition try_publish (now : Z) (topic payload : string) (q : Inner) : option (result unit MqError) * Inner :=
  if message_count topic q <? max_messages_per_topic q then
    let '(r, q) := insert_new now topic payload q in (Some r, q)
  else (None, set_notify (<[topic := default notify_new (notify q !! topic)]> (notify q)) q).

(** [publish] up to its first wait. *)
Definition publish (now : Z) (topic payload : string) (q : Inner) : option (result unit MqError) * Inner :=
  match strategy_of q with
  | Block => try_publish now topic payload q
  | strategy => let '(r, q) := publish_immediate now topic payload strategy q in (Some r, q)
  end.

End Queue.
Arguments Inner : clear implicits.

(** * Where the messages are *)

Arguments push_back : simpl never.
Arguments messages_of : simpl never.

Section Ledger.
Context {N : Type} `{Notify N}.
Implicit Types q : Inner N.

Definition flat (qs : gmap string (list Message)) : list Message := concat (map_to_list qs).*2.

Lemma flat_insert topic l qs : flat (<[topic := l]> qs) ≡ₚ l ++ flat (delete topic qs).
Proof.
  unfold flat. rewrite <- (insert_delete_eq qs topic l), map_to_list_insert by apply lookup_delete_eq. done.
Qed.

Lemma flat_split topic qs : flat qs ≡ₚ messages_of topic qs ++ flat (delete topic qs).
Proof.
  unfold messages_of. destruct (qs !! topic) as [l|] eqn:Hl; cbn.
  - rewrite <- flat_insert. by rewrite insert_id.
  - by rewrite delete_id.
Qed.

(** What is taken out of one queue is taken out of all of them. *)
Lemma flat_set topic x l qs : messages_of topic qs ≡ₚ x ++ l -> flat qs ≡ₚ x ++ flat (<[topic := l]> qs).
Proof. intros Hx. by rewrite (flat_split topic qs), flat_insert, Hx, (assoc_L (++)). Qed.

Lemma flat_push topic m qs : flat (push_back topic m qs) ≡ₚ m :: flat qs.
Proof. unfold push_back. rewrite flat_insert, (flat_split topic qs). by rewrite <- Permutation_middle, app_nil_r. Qed.

Definition all_messages q : list Message :=
  (flat (queues q) ++ (map_to_list (in_flight q)).*2 ++ flat (dead_letters q))%list.

Definition message_name (k : Z) : string := "msg-" +:+ pretty k.
Definition issued (n : Z) : list string := message_name <$> seqZ 1 (n - 1).

#[export] Instance message_name_inj : Inj (=) (=) message_name.
Proof. intros j k Hj. apply (inj (String.append "msg-")) in Hj. by apply (inj pretty) in Hj. Qed.

Lemma issued_NoDup n : NoDup (issued n).
Proof. apply NoDup_fmap_2; [apply _|apply NoDup_seqZ]. Qed.

Lemma issued_next n : 1 <= n -> issued (n + 1) ≡ₚ message_name n :: issued n.
Proof.
  intros Hn. unfold issued. replace (n + 1 - 1) with ((n - 1) + 1) by lia.
  rewrite seqZ_app by lia. rewrite fmap_app. replace (1 + (n - 1)) with n by lia.
  change (seqZ n 1) with [n]. cbn. by rewrite <- Permutation_cons_append.
Qed.

(** Nacked fewer times than the maximum since it was published or requeued. *)
Definition retries_left (max : Z) (m : Message) : Prop := retry_count m = 0 \/ retry_count m < max.

Ltac ids_permute := cbn; rewrite ?fmap_app, ?fmap_cons; cbn; rewrite ?fmap_app; solve_Permutation.

(** [settled] are the identifiers of the messages that left the queue. *)
Record wf (settled : list string) q : Prop := {
  wf_next : 1 <= next_id q <= u64_max;
  wf_ids : (msg_id <$> all_messages q) ++ settled ≡ₚ issued (next_id q);
  wf_queues : map_Forall (fun t => Forall (fun m => msg_topic m = t /\ retries_left (max_retries q) m)) (queues q);
  wf_flight : map_Forall (fun k m => msg_id m = k /\ retries_left (max_retries q) m) (in_flight q);
  wf_dead : map_Forall (fun t => Forall (fun m => msg_topic m = t)) (dead_letters q);
}.

Lemma start_wf max retries bp : wf [] (mkInner (N := N) ∅ ∅ ∅ 1 max ∅ retries bp ∅).
Proof.
  split; cbn; [done| |apply map_Forall_empty..]. unfold all_messages, flat. cbn. by rewrite !map_to_list_empty.
Qed.

Lemma messages_of_Forall (P : string -> Message -> Prop) topic qs :
  map_Forall (fun t => Forall (P t)) qs -> Forall (P topic) (messages_of topic qs).
Proof. intros Hq. unfold messages_of. destruct (qs !! topic) as [l|] eqn:Hl; [by apply (Hq topic)|constructor]. Qed.

Lemma push_back_Forall (P : string -> Message -> Prop) topic m qs :
  map_Forall (fun t => Forall (P t)) qs -> P topic m -> map_Forall (fun t => Forall (P t)) (push_back topic m qs).
Proof.
  intros Hq Hm. apply map_Forall_insert_2; [|done]. apply Forall_app. split; [by apply messages_of_Forall|].
  by constructor.
Qed.

Lemma wf_same_ids settled settled' q q' :
  wf settled q -> next_id q' = next_id q ->
  (msg_id <$> all_messages q') ++ settled' ≡ₚ (msg_id <$> all_messages q) ++ settled ->
  map_Forall (fun t => Forall (fun m => msg_topic m = t /\ retries_left (max_retries q') m)) (queues q') ->
  map_Forall (fun k m => msg_id m = k /\ retries_left (max_retries q') m) (in_flight q') ->
  map_Forall (fun t => Forall (fun m => msg_topic m = t)) (dead_letters q') -> wf settled' q'.
Proof. intros Hw Hn Hp Hq Hf Hd. split; try done; rewrite Hn; [apply Hw|]. by rewrite Hp, (wf_ids _ _ Hw). Qed.

(** No message of a queue has the identifier of one in flight. *)
Lemma queued_not_in_flight settled q topic m ms :
  wf settled q -> messages_of topic (queues q) = m :: ms -> in_flight q !! msg_id m = None.
Proof.
  intros Hw Hm. apply eq_None_not_Some. intros [m' Hm'].
  pose proof (wf_flight _ _ Hw _ _ Hm') as [Hid _].
  assert (Hn : NoDup ((msg_id <$> all_messages q) ++ settled)) by (rewrite (wf_ids _ _ Hw); apply issued_NoDup).
  apply NoDup_app in Hn as [Hn _]. unfold all_messages in Hn.
  rewrite fmap_app, (flat_set topic [m] ms) in Hn by (by rewrite Hm). cbn in Hn. apply NoDup_cons in Hn as [Hn _].
  apply Hn, elem_of_app. right. rewrite fmap_app. apply elem_of_app. left. rewrite <- Hid. apply list_elem_of_fmap_2.
  apply list_elem_of_fmap. exists (msg_id m, m'). split; [done|]. by apply elem_of_map_to_list.
Qed.

Lemma flight_insert id m (fl : gmap string Message) : fl !! id = None ->
  (map_to_list (<[id := m]> fl)).*2 ≡ₚ m :: (map_to_list fl).*2.
Proof. intros Hid. by rewrite map_to_list_insert. Qed.

Lemma flight_delete id m (fl : gmap string Message) : fl !! id = Some m ->
  (map_to_list fl).*2 ≡ₚ m :: (map_to_list (delete id fl)).*2.
Proof. intros Hid. by rewrite <- (map_to_list_delete fl id m Hid). Qed.

Lemma consume_wf settled topic q : wf settled q -> wf settled (consume topic q).2.
Proof.
  intros Hw. unfold consume. destruct (messages_of topic (queues q)) as [|m ms] eqn:Hm; cbn.
  - apply (wf_same_ids settled settled q); cbn; try done; try apply Hw.
    + unfold all_messages. cbn. by rewrite (flat_set topic [] [] (queues q)) by (by rewrite Hm).
    + apply map_Forall_insert_2; [constructor|apply Hw].
  - pose proof (messages_of_Forall _ topic _ (wf_queues _ _ Hw)) as Hq. rewrite Hm in Hq.
    apply Forall_cons in Hq as [[Ht Hr] Hq].
    destruct (notify q !! topic); apply (wf_same_ids settled settled q); cbn; try done; try apply Hw.
    1,4: unfold all_messages; cbn; rewrite (flight_insert _ _ _ (queued_not_in_flight _ _ _ _ _ Hw Hm));
      rewrite (flat_set topic [m] ms (queues q)) by (by rewrite Hm); ids_permute.
    all: apply map_Forall_insert_2; [done|apply Hw].
Qed.

Lemma subscribe_wf settled topic q : wf settled q -> wf settled (subscribe topic q).
Proof. intros Hw. by destruct Hw; split. Qed.

Lemma ack_wf settled id q : wf settled q ->
  match in_flight q !! id with Some _ => wf (id :: settled) (ack id q).2 | None => (ack id q).2 = q end.
Proof.
  intros Hw. unfold ack. destruct (in_flight q !! id) as [m|] eqn:Hm; [|done]. cbn.
  pose proof (wf_flight _ _ Hw _ _ Hm) as [<- _].
  apply (wf_same_ids settled _ q); cbn; try done; try apply Hw; [|by apply map_Forall_delete, Hw].
  unfold all_messages. cbn. rewrite (flight_delete _ _ (in_flight q) Hm). ids_permute.
Qed.

Lemma nack_wf settled id q : wf settled q -> wf settled (nack id q).2.
Proof.
  intros Hw. unfold nack. destruct (in_flight q !! id) as [m|] eqn:Hm; [|done]. cbn.
  pose proof (wf_flight _ _ Hw _ _ Hm) as [_ Hr]. case_match eqn:Hmax; apply (wf_same_ids settled _ q); cbn; try done; try apply Hw;
    try (by apply map_Forall_delete, Hw).
  - unfold all_messages. cbn. rewrite (flight_delete _ _ (in_flight q) Hm), flat_push. ids_permute.
  - apply (push_back_Forall (fun t m => msg_topic m = t)); [apply Hw|done].
  - unfold all_messages. cbn. rewrite (flight_delete _ _ (in_flight q) Hm), flat_push. ids_permute.
  - apply (push_back_Forall (fun t m => msg_topic m = t /\ retries_left (max_retries q) m)); [apply Hw|].
    split; [done|]. right. apply Z.leb_gt in Hmax. done.
Qed.

Lemma reject_wf settled id q : wf settled q -> wf settled (reject id q).2.
Proof.
  intros Hw. unfold reject. destruct (in_flight q !! id) as [m|] eqn:Hm; [|done]. cbn.
  apply (wf_same_ids settled _ q); cbn; try done; try apply Hw; [|by apply map_Forall_delete, Hw|].
  - unfold all_messages. cbn. rewrite (flight_delete _ _ (in_flight q) Hm), flat_push. ids_permute.
  - apply (push_back_Forall (fun t m => msg_topic m = t)); [apply Hw|done].
Qed.

Lemma insert_new_wf settled now topic payload q :
  wf settled q -> wf settled (insert_new now topic payload q).2.
Proof.
  intros Hw. unfold insert_new. case_match eqn:Hn; [done|]. apply Z.eqb_neq in Hn. cbn.
  pose proof (wf_next _ _ Hw). split; cbn; try apply Hw; [unfold u64_max in *; lia| |].
  - unfold all_messages. cbn. rewrite flat_push, issued_next by lia. cbn. by rewrite <- (wf_ids _ _ Hw).
  - apply (push_back_Forall (fun t m => msg_topic m = t /\ retries_left (max_retries q) m)); [apply Hw|].
    split; [done|by left].
Qed.

(** The message [DropOldest] drops. *)
Definition dropped (topic : string) (q : Inner N) : list string :=
  if bool_decide (strategy_of q = DropOldest) && (max_messages_per_topic q <=? message_count topic q)
  then msg_id <$> take 1 (messages_of topic (queues q)) else [].

Lemma drop_oldest_wf settled topic q : wf settled q ->
  wf ((msg_id <$> take 1 (messages_of topic (queues q))) ++ settled)
    (set_queues (<[topic := tail (messages_of topic (queues q))]> (queues q)) q).
Proof.
  intros Hw. apply (wf_same_ids settled _ q); cbn; try done; try apply Hw.
  - unfold all_messages. cbn. set (l := messages_of topic (queues q)).
    rewrite (flat_set topic (take 1 l) (tail l) (queues q)) by (fold l; by destruct l).
    ids_permute.
  - apply map_Forall_insert_2; [|apply Hw].
    pose proof (messages_of_Forall _ topic _ (wf_queues _ _ Hw)) as Hq. by destruct Hq.
Qed.

Lemma try_publish_wf settled now topic payload q :
  wf settled q -> wf settled (try_publish now topic payload q).2.
Proof.
  intros Hw. unfold try_publish. case_match.
  - pose proof (insert_new_wf settled now topic payload q Hw) as Hi. by destruct (insert_new _ _ _ _).
  - by destruct Hw; split.
Qed.

Lemma publish_wf settled now topic payload q :
  wf settled q -> wf (dropped topic q ++ settled) (publish now topic payload q).2.
Proof.
  intros Hw. unfold publish, dropped, publish_immediate.
  assert (Hi : wf settled (let '(r, q) := insert_new now topic payload q in (Some r, q)).2).
  { pose proof (insert_new_wf settled now topic payload q Hw) as Hi. by destruct (insert_new _ _ _ _). }
  destruct (strategy_of q); cbn; [by apply try_publish_wf| |by destruct (_ <=? _)|by destruct (_ <=? _)].
  destruct (max_messages_per_topic q <=? message_count topic q); cbn; [|done].
  pose proof (insert_new_wf _ now topic payload _ (drop_oldest_wf settled topic q Hw)) as Hd.
  clear Hi. rewrite bool_decide_true by done. by destruct (insert_new _ _ _ _).
Qed.

Lemma consume_dead_letter_wf settled topic q : wf settled q ->
  wf ((msg_id <$> option_list (consume_dead_letter topic q).1) ++ settled) (consume_dead_letter topic q).2.
Proof.
  intros Hw. unfold consume_dead_letter. destruct (dead_letters q !! topic) as [[|m ms]|] eqn:Hm; cbn; try done.
  apply (wf_same_ids settled _ q); cbn; try done; try apply Hw.
  - unfold all_messages. cbn. rewrite (flat_set topic [m] ms (dead_letters q)) by (unfold messages_of; by rewrite Hm).
    ids_permute.
  - apply map_Forall_insert_2; [|apply Hw]. pose proof (wf_dead _ _ Hw _ _ Hm) as Hd. by inversion Hd.
Qed.

Lemma find_letter_Some id qs topic pos m dq :
  find_letter id qs = Some (topic, pos, m, dq) -> (topic, dq) ∈ qs /\ dq !! pos = Some m /\ msg_id m = id.
Proof.
  induction qs as [|[t l] qs IH]; [done|]. cbn. destruct (list_find _ l) as [[p m']|] eqn:Hl.
  - intros [= <- <- <- <-]. apply list_find_Some in Hl as (Hp & Hid & _). split; [by left|done].
  - intros [Hin Hm]%IH. split; [by right|done].
Qed.

Lemma find_letter_None id qs : find_letter id qs = None -> id ∉ (msg_id <$> concat qs.*2).
Proof.
  induction qs as [|[t l] qs IH]; cbn; [intros _; apply not_elem_of_nil|].
  destruct (list_find _ l) as [[p m']|] eqn:Hl; [done|]. intros Hf%IH. rewrite fmap_app, not_elem_of_app. split; [|done].
  apply list_find_None in Hl. intros (m & -> & Hin)%list_elem_of_fmap. rewrite Forall_forall in Hl. by apply (Hl m).
Qed.

(** Where a dead letter was found, and what is left without it. *)
Lemma letter_found settled id q topic pos m dq :
  wf settled q -> find_letter id (map_to_list (dead_letters q)) = Some (topic, pos, m, dq) ->
  msg_id m = id /\ msg_topic m = topic
  /\ flat (dead_letters q) ≡ₚ m :: flat (<[topic := delete pos dq]> (dead_letters q))
  /\ map_Forall (fun t => Forall (fun m => msg_topic m = t)) (<[topic := delete pos dq]> (dead_letters q)).
Proof.
  intros Hw (Hin & Hpos & Hid)%find_letter_Some. apply elem_of_map_to_list in Hin.
  pose proof (wf_dead _ _ Hw _ _ Hin) as Hd. split; [done|]. split; [|split].
  - rewrite Forall_lookup in Hd. by apply (Hd pos).
  - apply (flat_set topic [m]). unfold messages_of. rewrite Hin. by apply delete_Permutation.
  - apply map_Forall_insert_2; [by apply Forall_delete|apply Hw].
Qed.

Lemma remove_dead_letter_wf settled id q : wf settled q ->
  wf ((if (remove_dead_letter id q).1 then [id] else []) ++ settled) (remove_dead_letter id q).2.
Proof.
  intros Hw. unfold remove_dead_letter.
  destruct (find_letter id _) as [[[[topic pos] m] dq]|] eqn:Hf; [|done]. cbn.
  destruct (letter_found _ _ _ _ _ _ _ Hw Hf) as (<- & _ & Hp & Hd).
  apply (wf_same_ids settled _ q); cbn; try done; try apply Hw.
  unfold all_messages. cbn. rewrite Hp. ids_permute.
Qed.

Lemma requeue_dead_letter_wf settled id q : wf settled q -> wf settled (requeue_dead_letter id q).2.
Proof.
  intros Hw. unfold requeue_dead_letter.
  destruct (find_letter id _) as [[[[topic pos] m] dq]|] eqn:Hf; [|done]. cbn.
  destruct (letter_found _ _ _ _ _ _ _ Hw Hf) as (_ & _ & Hp & Hd).
  apply (wf_same_ids settled _ q); cbn; try done; try apply Hw.
  - unfold all_messages. cbn. rewrite flat_push, Hp. ids_permute.
  - apply (push_back_Forall (fun t m => msg_topic m = t /\ retries_left (max_retries q) m)); [apply Hw|].
    split; [done|by left].
Qed.

End Ledger.

(** * The trait and the wrapper *)

(** [MessageQueue]; [None] is a future that is still waiting. *)
Record MessageQueue (W : Type) : Type := mkMessageQueue {
  mq_publish : string -> string -> Eff W (option (result unit MqError));
  mq_consume : string -> Eff W (option (result (option Message) MqError));
  mq_ack : string -> Eff W (option (result unit MqError));
  mq_subscribe : string -> Eff W (option (result unit MqError));
  mq_nack : string -> Eff W (option (result unit MqError));
  mq_reject : string -> Eff W (option (result unit MqError));
}.
Arguments mkMessageQueue {W}.
Arguments mq_publish {W}.
Arguments mq_consume {W}.
Arguments mq_ack {W}.
Arguments mq_subscribe {W}.
Arguments mq_nack {W}.
Arguments mq_reject {W}.

(** The methods a queue need not write. *)
Definition default_nack {W} (message_id : string) : Eff W (option (result unit MqError)) :=
  eret (Some (Err (NotSupported "nack not supported"))).
Definition default_reject {W} (message_id : string) : Eff W (option (result unit MqError)) :=
  eret (Some (Err (NotSupported "reject not supported"))).

Section Wrapper.
Context {W : Type} `{Clock W}.
Context {N : Type} `{Notify N}.
Local Open Scope eff_scope.

(** A method of a queue behind a lens of the world. *)
Definition locked {A} (l : Lens W (Inner N)) (f : Inner N -> A * Inner N) : Eff W A :=
  fun w => let '(a, q) := f (lget l w) in (a, lset l q w).

Definition in_memory (l : Lens W (Inner N)) : MessageQueue W := mkMessageQueue
  (fun topic payload => let* ms := system_millis in locked l (publish (current_timestamp (Some ms)) topic payload))
  (fun topic => let* m := locked l (consume topic) in eret (Some (Ok m)))
  (fun id => let* r := locked l (ack id) in eret (Some r))
  (fun topic => locked l (fun q => (Some (Ok tt), subscribe topic q)))
  (fun id => let* r := locked l (nack id) in eret (Some r))
  (fun id => let* r := locked l (reject id) in eret (Some r)).

(** [InMemoryKafkaQueue] and the five like it pass on four methods of their queue. *)
Definition provider_queue (l : Lens W (Inner N)) : MessageQueue W :=
  let inner := in_memory l in
  mkMessageQueue (mq_publish inner) (mq_consume inner) (mq_ack inner) (mq_subscribe inner) default_nack default_reject.

Record ReconnectPolicy : Type := mkReconnect {
  rp_max_retries : Z; initial_delay_ms : Z; max_delay_ms : Z; multiplier : spec_float }.

Definition default_reconnect : ReconnectPolicy := mkReconnect 5 100 10000 (int_to_f64 2).

(** [f64::max] and [f64::min] answer the other operand for a NaN. *)
Definition f64_max (x y : spec_float) : spec_float :=
  match x, y with
  | S754_nan, _ => y
  | _, S754_nan => x
  | _, _ => if SFltb x y then y else x
  end.
Definition f64_min (x y : spec_float) : spec_float :=
  match x, y with
  | S754_nan, _ => y
  | _, S754_nan => x
  | _, _ => if SFltb y x then y else x
  end.

(** [f64::powi], whose precision Rust leaves open. *)
Variable powi : spec_float -> Z -> spec_float.

(** In milliseconds. *)
Definition next_delay (policy : ReconnectPolicy) (attempt : Z) : Z :=
  let attempt := (attempt + 2 ^ 31) mod 2 ^ 32 - 2 ^ 31 in
  let delay := SFmul 53 1024 (int_to_f64 (initial_delay_ms policy)) (powi (multiplier policy) attempt) in
  let delay := f64_min (f64_max delay (S754_zero false)) (int_to_f64 (max_delay_ms policy)) in
  float_to_int 0 u64_max delay.

(** [tokio::time::sleep], in milliseconds. *)
Variable sleep : Z -> Eff W unit.

(** The loop of [publish] and [consume]; a loop out of fuel does not return. *)
Fixpoint retry_loop {A} (fuel : nat) (policy : ReconnectPolicy) (call : Eff W (option (result A MqError)))
    (attempts : Z) : Eff W (option (result A MqError)) :=
  match fuel with
  | O => eret None
  | S fuel =>
      let* r := call in
      match r with
      | Some (Err (Connection e)) =>
          if attempts <? rp_max_retries policy then
            let* _ := sleep (next_delay policy attempts) in
            retry_loop fuel policy call (attempts + 1)
          else eret (Some (Err (Connection e)))
      | _ => eret r
      end
  end.

Definition retry_fuel (policy : ReconnectPolicy) : nat := S (Z.to_nat (rp_max_retries policy)).

Record QueueWrapper : Type := mkWrapper { wrapped : MessageQueue W; reconnect : option ReconnectPolicy }.

(** Every provider of [MqProvider] has the same kind of queue. *)
Definition wrapper_new (l : Lens W (Inner N)) : QueueWrapper := mkWrapper (provider_queue l) None.
Definition with_reconnect (policy : ReconnectPolicy) (w : QueueWrapper) : QueueWrapper := mkWrapper (wrapped w) (Some policy).

Definition wrapper_publish (w : QueueWrapper) (topic message : string) : Eff W (option (result unit MqError)) :=
  match reconnect w with
  | Some policy => retry_loop (retry_fuel policy) policy (mq_publish (wrapped w) topic message) 0
  | None => mq_publish (wrapped w) topic message
  end.

Definition wrapper_consume (w : QueueWrapper) (topic : string) : Eff W (option (result (option Message) MqError)) :=
  match reconnect w with
  | Some policy => retry_loop (retry_fuel policy) policy (mq_consume (wrapped w) topic) 0
  | None => mq_consume (wrapped w) topic
  end.

Definition wrapper_ack (w : QueueWrapper) (id : string) := mq_ack (wrapped w) id.
Definition wrapper_subscribe (w : QueueWrapper) (topic : string) := mq_subscribe (wrapped w) topic.
Definition wrapper_nack (w : QueueWrapper) (id : string) := mq_nack (wrapped w) id.
Definition wrapper_reject (w : QueueWrapper) (id : string) := mq_reject (wrapped w) id.

(** ** How often the queue is asked *)

Definition is_connection {A} (r : option (result A MqError)) : bool :=
  match r with Some (Err (Connection _)) => true | _ => false end.

(** The answers of [n] calls, each after a sleep. *)
Fixpoint answers {A} (n : nat) (policy : ReconnectPolicy) (call : Eff W (option (result A MqError))) (attempts : Z) (w : W) :
    list (option (result A MqError) * W) :=
  match n with
  | O => []
  | S n =>
      let '(r, w) := call w in
      (r, w) :: answers n policy call (attempts + 1) (sleep (next_delay policy attempts) w).2
  end.

Lemma retry_loop_answers {A} fuel policy (call : Eff W (option (result A MqError))) attempts w :
  0 <= attempts <= rp_max_retries policy -> (Z.to_nat (rp_max_retries policy - attempts) < fuel)%nat ->
  let made := answers (S (Z.to_nat (rp_max_retries policy - attempts))) policy call attempts w in
  exists k, made !! k = Some (retry_loop fuel policy call attempts w)
    /\ (forall i a, (i < k)%nat -> made !! i = Some a -> is_connection a.1 = true)
    /\ (is_connection (retry_loop fuel policy call attempts w).1 = true -> k = Z.to_nat (rp_max_retries policy - attempts)).
Proof.
  revert attempts w. induction fuel as [|fuel IH]; intros attempts w Ha Hf; [lia|]. cbn zeta.
  cbn [answers retry_loop]. unfold ebind. destruct (call w) as [r w1] eqn:Hc.
  destruct (is_connection r) eqn:Hr.
  2:{ exists 0%nat. split; [|split; [intros; lia|]]; by destruct r as [[|[]]|]. }
  destruct r as [[|[| |e| |]]|]; try done. destruct (Z.ltb_spec attempts (rp_max_retries policy)) as [Hlt|Hge].
  - destruct (sleep (next_delay policy attempts) w1) as [[] w2] eqn:Hs. cbn [snd].
    replace (Z.to_nat (rp_max_retries policy - attempts)) with (S (Z.to_nat (rp_max_retries policy - (attempts + 1)))) in * by lia.
    destruct (IH (attempts + 1) w2) as (k & Hk & Hi & Hl); [lia..|]. exists (S k). split; [done|].
    split; [|by intros ->%Hl].
    intros [|i] a Hik; cbn; [by intros [= <-]|]. apply Hi. lia.
  - exists 0%nat. split; [done|]. split; [intros; lia|]. intros _. lia.
Qed.

(** With a policy, [publish] and [consume] answer the first answer of the queue that is no
    connection error, asking at most [max_retries] times more than once, and a connection
    error after that many alone. *)
Lemma wrapper_retries {A} policy (call : Eff W (option (result A MqError))) w :
  0 <= rp_max_retries policy ->
  let made := answers (retry_fuel policy) policy call 0 w in
  let answer := retry_loop (retry_fuel policy) policy call 0 w in
  exists k, made !! k = Some answer /\ (forall i a, (i < k)%nat -> made !! i = Some a -> is_connection a.1 = true)
    /\ (is_connection answer.1 = true -> k = Z.to_nat (rp_max_retries policy)).
Proof.
  intros Hp. pose proof (retry_loop_answers (retry_fuel policy) policy call 0 w) as Hr.
  rewrite !Z.sub_0_r in Hr. apply Hr; [lia|]. unfold retry_fuel. lia.
Qed.

(** The queue of a provider forgets the messages handed back to it: they stay in flight. *)
Lemma provider_cannot_nack l id w :
  wrapper_nack (wrapper_new l) id w = (Some (Err (NotSupported "nack not supported")), w)
  /\ wrapper_reject (wrapper_new l) id w = (Some (Err (NotSupported "reject not supported")), w).
Proof. done. Qed.

End Wrapper.

(** Under [DropNewest] a publication succeeds without a message. *)
Lemma drop_newest_answers_ok {N} `{Notify N} now topic payload (q : Inner N) :
  strategy_of q = DropNewest -> max_messages_per_topic q <= message_count topic q ->
  publish now topic payload q = (Some (Ok tt), q).
Proof.
  intros Hs Hm. unfold publish, publish_immediate. rewrite Hs. apply Z.leb_le in Hm. by rewrite Hm.
Qed.
