(* ===== verification/QueueTasks.v ===== *)
(** The tasks that share an [InMemoryQueue]: the calls of [Queue.v] interleaved, with the
    publishers of [publish_with_block] between their waits. *)

From S2P Require Import Prelude Dialect Queue.
Local Open Scope Z_scope.

(** * Sums over a map *)

Section Sums.
Context {K A : Type} `{Countable K}.
Implicit Types m : gmap K A.

Definition map_sum (f : A -> nat) m : nat := sum_list (f <$> (map_to_list m).*2).

Lemma sum_list_perm (l l' : list nat) : l ≡ₚ l' -> sum_list l = sum_list l'.
Proof. induction 1; cbn; lia. Qed.

Lemma map_sum_delete f m k a : m !! k = Some a -> map_sum f m = (f a + map_sum f (delete k m))%nat.
Proof.
  intros Hk. unfold map_sum. rewrite (sum_list_perm _ (f <$> ((k, a) :: map_to_list (delete k m)).*2)); [done|].
  by rewrite map_to_list_delete.
Qed.

Lemma map_sum_insert f m k a :
  (map_sum f (<[k := a]> m) + match m !! k with Some b => f b | None => 0 end = map_sum f m + f a)%nat.
Proof.
  rewrite (map_sum_delete f (<[k := a]> m) k a) by apply lookup_insert_eq. rewrite delete_insert_eq.
  destruct (m !! k) as [b|] eqn:Hk; [rewrite (map_sum_delete f m k b Hk); lia|]. rewrite delete_id by done. lia.
Qed.
End Sums.

(** * The system *)

Section Tasks.
Context {N : Type} `{Notify N}.

(** A publisher takes the lock next, has its notifier and not polled it yet, waits in it, has
    answered, or was dropped: while it waited, or before it got the lock. *)
Inductive Point : Type :=
| Trying
| Awaiting
| Waiting
| Returned (r : result unit MqError)
| Dropped
| DroppedTrying.

Record Publisher : Type := mkPublisher { pub_topic : string; pub_payload : string; pub_point : Point }.

Definition at_point (p : Point) (t : Publisher) : Publisher := mkPublisher (pub_topic t) (pub_payload t) p.

Record System : Type := mkSystem { inner : Inner N; publishers : gmap nat Publisher }.

Inductive Event : Type :=
| Call (tid : nat) (topic payload : string)
| Run (tid : nat) (now : Z)
| Cancel (tid : nat)
| Consume (topic : string)
| Ack (id : string)
| Nack (id : string)
| RejectMessage (id : string)
| SubscribeTo (topic : string)
| ConsumeDead (topic : string)
| RemoveDead (id : string)
| RequeueDead (id : string).

Definition set_inner (q : Inner N) (s : System) : System := mkSystem q (publishers s).
Definition set_point (tid : nat) (t : Publisher) (p : Point) (s : System) : System :=
  mkSystem (inner s) (<[tid := at_point p t]> (publishers s)).
Definition set_notifier (topic : string) (n : N) (s : System) : System :=
  set_inner (set_notify (<[topic := n]> (notify (inner s))) (inner s)) s.

(** A turn of [publish]. *)
Definition run_trying (tid : nat) (now : Z) (t : Publisher) (s : System) : System :=
  let '(r, q) := publish now (pub_topic t) (pub_payload t) (inner s) in
  set_point tid t (match r with Some r => Returned r | None => Awaiting end) (set_inner q s).

(** [notify.notified().await], polled for the first time and when the task is woken. *)
Definition run_awaiting (tid : nat) (t : Publisher) (s : System) : option System :=
  n ← notify (inner s) !! pub_topic t;
  let '(ready, n) := poll_notified tid n in
  Some (set_point tid t (if ready : bool then Trying else Waiting) (set_notifier (pub_topic t) n s)).

Definition run_waiting (tid : nat) (t : Publisher) (s : System) : option System :=
  n ← notify (inner s) !! pub_topic t;
  let '(ready, n) := poll_notified tid n in
  if ready : bool then Some (set_point tid t Trying (set_notifier (pub_topic t) n s)) else None.

Definition cancel (tid : nat) (t : Publisher) (s : System) : option System :=
  match pub_point t with
  | Trying => Some (set_point tid t DroppedTrying s)
  | Awaiting => Some (set_point tid t Dropped s)
  | Waiting =>
      n ← notify (inner s) !! pub_topic t;
      Some (set_point tid t Dropped (set_notifier (pub_topic t) (drop_notified tid n) s))
  | _ => None
  end.

(** [None]: the event is not possible. *)
Definition step (e : Event) (s : System) : option System :=
  match e with
  | Call tid topic payload =>
      match publishers s !! tid with
      | Some _ => None
      | None => Some (mkSystem (inner s) (<[tid := mkPublisher topic payload Trying]> (publishers s)))
      end
  | Run tid now =>
      t ← publishers s !! tid;
      match pub_point t with
      | Trying => Some (run_trying tid now t s)
      | Awaiting => run_awaiting tid t s
      | Waiting => run_waiting tid t s
      | _ => None
      end
  | Cancel tid => t ← publishers s !! tid; cancel tid t s
  | Consume topic => Some (set_inner (consume topic (inner s)).2 s)
  | Ack id => Some (set_inner (ack id (inner s)).2 s)
  | Nack id => Some (set_inner (nack id (inner s)).2 s)
  | RejectMessage id => Some (set_inner (reject id (inner s)).2 s)
  | SubscribeTo topic => Some (set_inner (subscribe topic (inner s)) s)
  | ConsumeDead topic => Some (set_inner (consume_dead_letter topic (inner s)).2 s)
  | RemoveDead id => Some (set_inner (remove_dead_letter id (inner s)).2 s)
  | RequeueDead id => Some (set_inner (requeue_dead_letter id (inner s)).2 s)
  end.

Fixpoint run (es : list Event) (s : System) : option System :=
  match es with
  | [] => Some s
  | e :: es => s ← step e s; run es s
  end.

Definition start (q : Inner N) : System := mkSystem q ∅.

(** ** Messages that leave

    An event acknowledges a message in flight, takes or removes a dead letter, or makes room by
    dropping the oldest message. *)
Definition leaves (e : Event) (s : System) : list string :=
  match e with
  | Run tid _ =>
      match publishers s !! tid with
      | Some (mkPublisher topic _ Trying) => dropped topic (inner s)
      | _ => []
      end
  | Ack id => if is_some (in_flight (inner s) !! id) then [id] else []
  | ConsumeDead topic => msg_id <$> option_list (consume_dead_letter topic (inner s)).1
  | RemoveDead id => if (remove_dead_letter id (inner s)).1 then [id] else []
  | _ => []
  end.

Fixpoint settled (es : list Event) (s : System) : list string :=
  match es with
  | [] => []
  | e :: es => (match step e s with Some s' => settled es s' | None => [] end ++ leaves e s)%list
  end.

End Tasks.
Arguments System : clear implicits.

(** * No message is lost or duplicated *)

Section Theorems.
Context {N : Type} `{NotifyLaws N}.
Implicit Types (s : System N) (q : Inner N).

(** The queues the constructors make. *)
Inductive configured : Inner N -> Prop :=
| ConfMax max : configured (with_max_messages_per_topic max)
| ConfRetries retries : configured (with_max_retries retries)
| ConfPolicy policy : configured (with_backpressure policy).

Lemma configured_wf q : configured q -> wf [] q.
Proof. intros []; apply start_wf. Qed.

Lemma set_notify_wf lost m q : wf lost q -> wf lost (set_notify m q).
Proof. intros Hw. by destruct Hw; split. Qed.

Lemma step_wf e s s' lost : wf lost (inner s) -> step e s = Some s' -> wf (leaves e s ++ lost) (inner s').
Proof.
  intros Hw. destruct e as [tid topic pl|tid now|tid|topic|id|id|id|topic|topic|id|id]; cbn.
  - destruct (publishers s !! tid); [done|]. by intros [= <-].
  - destruct (publishers s !! tid) as [[topic pl []]|]; cbn; try done.
    + intros [= <-]. unfold run_trying. cbn. pose proof (publish_wf lost now topic pl _ Hw) as Hp.
      by destruct (publish _ _ _ _).
    + unfold run_awaiting. destruct (notify (inner s) !! _); [|done]. cbn. destruct (poll_notified _ _) as [? ?].
      intros [= <-]. by apply set_notify_wf.
    + unfold run_waiting. destruct (notify (inner s) !! _); [|done]. cbn. destruct (poll_notified _ _) as [[] ?]; [|done].
      intros [= <-]. by apply set_notify_wf.
  - destruct (publishers s !! tid) as [[topic pl []]|]; cbn; try done; try (by intros [= <-]).
    unfold cancel. cbn. destruct (notify (inner s) !! _); [|done]. cbn. intros [= <-]. by apply set_notify_wf.
  - intros [= <-]. by apply consume_wf.
  - intros [= <-]. pose proof (ack_wf lost id (inner s) Hw) as Ha. cbn.
    destruct (in_flight (inner s) !! id); cbn; [done|]. by rewrite Ha.
  - intros [= <-]. by apply nack_wf.
  - intros [= <-]. by apply reject_wf.
  - intros [= <-]. by apply subscribe_wf.
  - intros [= <-]. by apply consume_dead_letter_wf.
  - intros [= <-]. by apply remove_dead_letter_wf.
  - intros [= <-]. by apply requeue_dead_letter_wf.
Qed.

Lemma run_wf es s s' lost : wf lost (inner s) -> run es s = Some s' -> wf (settled es s ++ lost) (inner s').
Proof.
  revert s lost. induction es as [|e es IH]; intros s lost Hw; cbn; [by intros [= <-]|].
  destruct (step e s) as [s1|] eqn:Hs; [|done]. cbn. rewrite <- (assoc_L (++)). apply IH. by eapply step_wf.
Qed.

(** What no call changes. *)
Definition configuration q : Z * Z * option BackpressurePolicy :=
  (max_messages_per_topic q, max_retries q, backpressure q).

Lemma insert_new_configuration now topic pl q :
  configuration (insert_new now topic pl q).2 = configuration q.
Proof. unfold insert_new. by case_match. Qed.

Lemma try_publish_configuration now topic pl q :
  configuration (try_publish now topic pl q).2 = configuration q.
Proof.
  unfold try_publish. case_match; [|done]. pose proof (insert_new_configuration now topic pl q) as Hi.
  by destruct (insert_new _ _ _ _).
Qed.

Lemma publish_configuration now topic pl q : configuration (publish now topic pl q).2 = configuration q.
Proof.
  unfold publish, publish_immediate.
  pose proof (insert_new_configuration now topic pl q) as Hi.
  assert (Hd : configuration (insert_new now topic pl
    (set_queues (<[topic := tail (messages_of topic (queues q))]> (queues q)) q)).2 = configuration q)
    by by rewrite insert_new_configuration.
  destruct (strategy_of q); [apply try_publish_configuration|..]; destruct (_ <=? _); try done;
    by case_match.
Qed.

Lemma step_configuration e s s' : step e s = Some s' -> configuration (inner s') = configuration (inner s).
Proof.
  destruct e as [tid topic pl|tid now|tid|topic|id|id|id|topic|topic|id|id]; cbn.
  2:{ destruct (publishers s !! tid) as [[topic pl []]|]; cbn; try done.
      - intros [= <-]. unfold run_trying. cbn. pose proof (publish_configuration now topic pl (inner s)).
        by destruct (publish _ _ _ _).
      - unfold run_awaiting. destruct (notify (inner s) !! _); [|done]. cbn. destruct (poll_notified _ _). by intros [= <-].
      - unfold run_waiting. destruct (notify (inner s) !! _); [|done]. cbn. destruct (poll_notified _ _) as [[] ?]; [|done].
        by intros [= <-]. }
  2:{ destruct (publishers s !! tid) as [[topic pl []]|]; unfold cancel; cbn; try done; try (by intros [= <-]).
      destruct (notify (inner s) !! _); [|done]. by intros [= <-]. }
  { case_match; [done|]. by intros [= <-]. }
  all: intros [= <-]; cbn;
    unfold consume, ack, nack, reject, subscribe, consume_dead_letter, remove_dead_letter, requeue_dead_letter;
    repeat case_match; done.
Qed.

Lemma run_configuration es s s' : run es s = Some s' -> configuration (inner s') = configuration (inner s).
Proof.
  revert s. induction es as [|e es IH]; intros s; cbn; [by intros [= <-]|].
  destruct (step e s) as [s1|] eqn:Hs; [|done]. intros Hr. rewrite (IH _ Hr). by eapply step_configuration.
Qed.

(** ** Answers *)

Definition accepted (t : Publisher) : nat := match pub_point t with Returned (Ok _) => 1 | _ => 0 end.

Lemma insert_new_counts now topic pl q :
  next_id (insert_new now topic pl q).2 = next_id q + (if is_ok (insert_new now topic pl q).1 then 1 else 0).
Proof. unfold insert_new. case_match; cbn; lia. Qed.

Lemma answered {A B} (p : A * B) : (let '(r, q) := p in (Some r, q)) = (Some p.1, p.2).
Proof. by destruct p. Qed.

Lemma publish_counts now topic pl q : strategy_of q <> DropNewest ->
  next_id (publish now topic pl q).2 =
    next_id q + match (publish now topic pl q).1 with Some (Ok _) => 1 | _ => 0 end.
Proof.
  intros Hs. assert (Hi : forall q, next_id (insert_new now topic pl q).2 =
      next_id q + match (insert_new now topic pl q).1 with Ok _ => 1 | _ => 0 end).
  { intros q'. rewrite insert_new_counts. by destruct (insert_new now topic pl q').1. }
  unfold publish, try_publish, publish_immediate.
  destruct (strategy_of q); [case_match| | |]; rewrite ?answered; try done; try (destruct (_ <=? _)); cbn [fst snd];
    rewrite ?Hi; cbn [next_id set_queues set_notify]; lia.
Qed.

Definition answers_ok s : nat := map_sum accepted (publishers s).

Lemma answers_set_point tid t p s : publishers s !! tid = Some t ->
  (answers_ok (set_point tid t p s) + accepted t = answers_ok s + accepted (at_point p t))%nat.
Proof.
  intros Ht. unfold answers_ok. cbn. pose proof (map_sum_insert accepted (publishers s) tid (at_point p t)) as Hs.
  by rewrite Ht in Hs.
Qed.

Lemma same_next_id q q' : next_id q' = next_id q -> forall n : nat, Z.of_nat n = next_id q - 1 -> Z.of_nat n = next_id q' - 1.
Proof. by intros ->. Qed.

Lemma step_answers e s s' :
  strategy_of (inner s) <> DropNewest -> step e s = Some s' ->
  Z.of_nat (answers_ok s) = next_id (inner s) - 1 -> Z.of_nat (answers_ok s') = next_id (inner s') - 1.
Proof.
  intros Hs. destruct e as [tid topic pl|tid now|tid|topic|id|id|id|topic|topic|id|id]; cbn.
  2:{ destruct (publishers s !! tid) as [t|] eqn:Ht; [|done]. cbn. destruct (pub_point t) eqn:Hp; try done.
      - intros [= <-]. unfold run_trying. pose proof (publish_counts now (pub_topic t) (pub_payload t) (inner s) Hs) as Hc.
        destruct (publish _ _ _ _) as [r q]. cbn [fst snd] in Hc.
        pose proof (answers_set_point tid t (match r with Some r => Returned r | None => Awaiting end) (set_inner q s) Ht) as Ha.
        unfold accepted in Ha at 1 2. rewrite Hp in Ha. cbn [inner set_point set_inner] in *. 
        destruct r as [[]|]; cbn in Ha; unfold answers_ok in *; cbn in *; lia.
      - unfold run_awaiting. destruct (notify (inner s) !! _); [|done]. cbn. destruct (poll_notified _ _) as [b n'].
        intros [= <-]. pose proof (answers_set_point tid t (if b then Trying else Waiting) s Ht) as Ha.
        unfold accepted in Ha at 1 2. rewrite Hp in Ha. unfold answers_ok in *. destruct b; cbn in *; lia.
      - unfold run_waiting. destruct (notify (inner s) !! _); [|done]. cbn. destruct (poll_notified _ _) as [[] n']; [|done].
        intros [= <-]. pose proof (answers_set_point tid t Trying s Ht) as Ha.
        unfold accepted in Ha at 1 2. rewrite Hp in Ha. unfold answers_ok in *. cbn in *; lia. }
  2:{ destruct (publishers s !! tid) as [t|] eqn:Ht; [|done]. cbn. unfold cancel.
      destruct (pub_point t) eqn:Hp; try done.
      1: intros [= <-]; pose proof (answers_set_point tid t DroppedTrying s Ht) as Ha.
      2: intros [= <-]; pose proof (answers_set_point tid t Dropped s Ht) as Ha.
      3: destruct (notify (inner s) !! _); [|done]; intros [= <-]; pose proof (answers_set_point tid t Dropped s Ht) as Ha.
      all: unfold accepted in Ha at 1 2; rewrite Hp in Ha; unfold answers_ok in *; cbn in *; lia. }
  { destruct (publishers s !! tid) eqn:Ht; [done|]. intros [= <-].
    pose proof (map_sum_insert accepted (publishers s) tid (mkPublisher topic pl Trying)) as Hm. rewrite Ht in Hm.
    unfold answers_ok. cbn in *. lia. }
  all: intros [= <-]; unfold answers_ok; cbn; apply same_next_id;
    unfold consume, ack, nack, reject, subscribe, consume_dead_letter, remove_dead_letter, requeue_dead_letter;
    repeat case_match; done.
Qed.

Lemma run_answers es s s' :
  strategy_of (inner s) <> DropNewest -> run es s = Some s' ->
  Z.of_nat (answers_ok s) = next_id (inner s) - 1 -> Z.of_nat (answers_ok s') = next_id (inner s') - 1.
Proof.
  revert s. induction es as [|e es IH]; intros s Hs; cbn; [by intros [= <-]|].
  destruct (step e s) as [s1|] eqn:He; [|done]. intros Hr Ha. apply (IH s1); [|done|by eapply step_answers].
  apply step_configuration in He as [=_ _ Hb]. unfold strategy_of in *. by rewrite Hb.
Qed.

(** C32. Whatever the tasks that share a queue of any configuration do, every identifier given
    out (one per publication answered without an error, unless the newest messages are dropped)
    is once and only once in a queue, in flight, among the dead letters, or settled: acknowledged,
    taken from the dead letters, or dropped as the oldest of a full topic; messages keep their
    topic and, in a queue or in flight, were handed back fewer times than the maximum. *)
Theorem messages_conserved q0 es s :
  configured q0 -> run es (start q0) = Some s ->
  let ids := ((msg_id <$> all_messages (inner s)) ++ settled es (start q0))%list in
  ids ≡ₚ message_name <$> seqZ 1 (next_id (inner s) - 1) /\ NoDup ids
  /\ (strategy_of q0 <> DropNewest -> length ids = answers_ok s)
  /\ (forall topic l m, queues (inner s) !! topic = Some l -> m ∈ l ->
       msg_topic m = topic /\ (retry_count m = 0 \/ retry_count m < max_retries q0))
  /\ (forall id m, in_flight (inner s) !! id = Some m ->
       msg_id m = id /\ (retry_count m = 0 \/ retry_count m < max_retries q0))
  /\ (forall topic l m, dead_letters (inner s) !! topic = Some l -> m ∈ l -> msg_topic m = topic).
Proof.
  intros Hc Hr. cbn zeta. pose proof (run_wf es (start q0) s [] (configured_wf q0 Hc) Hr) as Hw. rewrite app_nil_r in Hw.
  pose proof (run_configuration _ _ _ Hr) as [=_ <- _]. cbn [start inner].
  pose proof (wf_ids _ _ Hw) as Hp. split; [done|]. split; [by rewrite Hp; apply issued_NoDup|].
  split; [|split; [|split; [apply (wf_flight _ _ Hw)|]]].
  - intros Hs. rewrite Hp. unfold issued. rewrite length_fmap, length_seqZ.
    pose proof (run_answers es (start q0) s Hs Hr) as Ha. destruct Hc; specialize (Ha eq_refl); lia.
  - intros topic l m Hl Hm. pose proof (wf_queues _ _ Hw topic l Hl) as Hq. rewrite Forall_forall in Hq. by apply Hq.
  - intros topic l m Hl Hm. pose proof (wf_dead _ _ Hw topic l Hl) as Hq. rewrite Forall_forall in Hq. by apply Hq.
Qed.

(** * Who waits for whom *)

Definition member (n : N) (tid : nat) : Prop := tid ∈ waiting n \/ tid ∈ woken n.

(** The tasks that wait are not woken yet, and no permit lies beside them. *)
Definition apart (n : N) : Prop :=
  NoDup (waiting n) /\ (forall tid, tid ∈ waiting n -> tid ∉ woken n) /\ (permit n = true -> waiting n = []).

(** A task that polls next, or one that was woken, goes on. *)
Definition wakes (n : N) : Prop := permit n = true \/ woken n <> ∅.

Lemma new_spec : apart notify_new /\ forall u, ~ member notify_new u.
Proof.
  destruct (new_law (N := N)) as (Hp & Hw & Hk). unfold apart, member. rewrite Hp, Hw, Hk. split.
  - split; [constructor|]. by split; [intros ? ?%not_elem_of_nil|].
  - intros u [?%not_elem_of_nil|?%not_elem_of_empty]; done.
Qed.

Lemma one_spec n : apart n ->
  apart (notify_one n) /\ wakes (notify_one n) /\ forall u, member (notify_one n) u <-> member n u.
Proof.
  intros (Hn & Ha & Hp). pose proof (one_law n) as Ho. unfold apart, member, wakes.
  destruct (waiting n) as [|t ts] eqn:Hw; destruct Ho as (-> & -> & ->).
  - split; [|split]; [split; [constructor|]; by split; [intros ? ?%not_elem_of_nil|]|by left|done].
  - apply NoDup_cons in Hn as [Ht Hn]. split; [|split].
    + split; [done|]. split; [|by intros ?%Hp]. intros u Hu. rewrite elem_of_union, elem_of_singleton.
      intros [->|Hk]; [done|]. apply (Ha u); [by right|done].
    + right. set_solver.
    + intros u. set_solver.
Qed.

Lemma poll_spec tid n : apart n ->
  apart (poll_notified tid n).2
  /\ if (poll_notified tid n).1
     then (forall u, member (poll_notified tid n).2 u <-> member n u /\ u <> tid)
          /\ (permit n = true \/ tid ∈ woken n)
     else (forall u, member (poll_notified tid n).2 u <-> member n u \/ u = tid)
          /\ permit (poll_notified tid n).2 = permit n /\ woken (poll_notified tid n).2 = woken n.
Proof.
  intros (Hn & Ha & Hp). pose proof (poll_law tid n) as Ho. unfold apart, member.
  case_decide as Hk; [|case_decide as Hw].
  - destruct Ho as (-> & -> & -> & ->). split; [|split; [|by right]].
    + split; [done|]. split; [|done]. set_solver.
    + intros u. split; [|set_solver]. intros [Hu|Hu]; [|set_solver]. split; [by left|]. intros ->. by apply (Ha tid).
  - rewrite Ho. cbn. split; [done|]. split; [|done]. intros u. split; [tauto|]. intros [Hu | ->]; [done|by left].
  - destruct Ho as (-> & -> & -> & ->). destruct (permit n) eqn:Hperm.
    + split; [|split; [|by left]]; [by split|]. intros u. set_solver.
    + split; [|split; [|done]].
      * split; [|split; [|done]]; [apply NoDup_app; set_solver by eauto using NoDup_singleton|].
        intros u [Hu | ->%list_elem_of_singleton]%elem_of_app; [by apply Ha|done].
      * intros u. set_solver.
Qed.

Lemma drop_spec tid n : apart n ->
  apart (drop_notified tid n) /\ (wakes n -> wakes (drop_notified tid n))
  /\ forall u, member (drop_notified tid n) u <-> member n u /\ u <> tid.
Proof.
  intros (Hn & Ha & Hp). pose proof (drop_law tid n) as Ho. case_decide as Hk.
  - destruct Ho as (n' & Hp' & Hw' & Hk' & ->).
    assert (Hap : apart n') by (unfold apart; rewrite Hp', Hw', Hk'; split; [done|]; split; [set_solver|done]).
    destruct (one_spec n' Hap) as (H1 & H2 & H3). split; [done|]. split; [done|].
    intros u. rewrite H3. unfold member. rewrite Hw', Hk'. split; [|set_solver].
    intros [Hu|Hu]; [|set_solver]. split; [by left|]. intros ->. by apply (Ha tid).
  - destruct Ho as (Hp' & Hw' & Hk'). unfold apart, wakes, member. rewrite Hp', Hw', Hk'. split; [|split; [done|]].
    + split; [by apply NoDup_filter|]. split; [intros u [_ Hu]%list_elem_of_filter; by apply Ha|]. by intros ->%Hp.
    + intros u. rewrite list_elem_of_filter. split; [|tauto]. intros [?|Hu]; [tauto|]. split; [tauto|]. by intros ->.
Qed.

Definition blocked (t : Publisher) : Prop := pub_point t = Awaiting \/ pub_point t = Waiting.

Record notified_inv s : Prop := {
  ni_notifier : forall tid t, publishers s !! tid = Some t -> blocked t -> is_Some (notify (inner s) !! pub_topic t);
  ni_member : forall topic n tid, notify (inner s) !! topic = Some n -> member n tid ->
    exists t, publishers s !! tid = Some t /\ pub_topic t = topic /\ pub_point t = Waiting;
  ni_waiting : forall tid t n, publishers s !! tid = Some t -> pub_point t = Waiting ->
    notify (inner s) !! pub_topic t = Some n -> member n tid;
  ni_apart : forall topic n, notify (inner s) !! topic = Some n -> apart n;
}.

Lemma start_notified q : configured q -> notified_inv (start q).
Proof. intros []; split; cbn; intros *; by rewrite lookup_empty. Qed.

(** Notifiers that keep their tasks. *)
Definition same_members (m m' : gmap string N) : Prop :=
  forall topic, match m !! topic, m' !! topic with
    | None, None => True
    | Some n, Some n' => apart n' /\ forall u, member n' u <-> member n u
    | None, Some n' => apart n' /\ forall u, ~ member n' u
    | Some _, None => False
    end.

Lemma inner_notified q s : notified_inv s -> same_members (notify (inner s)) (notify q) -> notified_inv (set_inner q s).
Proof.
  intros Hi Hm. split; cbn.
  - intros tid t Ht [n Hn]%(ni_notifier _ Hi _ _ Ht). specialize (Hm (pub_topic t)). rewrite Hn in Hm. by case_match.
  - intros topic n' tid Hn' Hu. specialize (Hm topic). rewrite Hn' in Hm.
    destruct (notify (inner s) !! topic) as [n|] eqn:Hn; destruct Hm as [_ Hm].
    + apply (ni_member _ Hi topic n tid Hn). by apply Hm.
    + by destruct (Hm tid).
  - intros tid t n' Ht Hp Hn'. specialize (Hm (pub_topic t)). rewrite Hn' in Hm.
    destruct (ni_notifier _ Hi _ _ Ht (or_intror Hp)) as [n Hn]. rewrite Hn in Hm. apply Hm.
    by apply (ni_waiting _ Hi tid t n).
  - intros topic n' Hn'. specialize (Hm topic). rewrite Hn' in Hm. by case_match; destruct Hm.
Qed.

(** A task moves, and with it its place in the notifier of its topic. *)
Lemma move_notified tid t p n n' s :
  notified_inv s -> publishers s !! tid = Some t -> notify (inner s) !! pub_topic t = Some n ->
  apart n' -> (forall u, u <> tid -> member n' u <-> member n u) -> (member n' tid <-> p = Waiting) ->
  notified_inv (set_point tid t p (set_notifier (pub_topic t) n' s)).
Proof.
  intros Hi Ht Hn Ha Hother Hself. split; cbn.
  - intros tid' t'. rewrite lookup_insert_Some. intros [[<- <-]|[Hne Ht']] Hb; cbn.
    + by rewrite lookup_insert_eq.
    + rewrite lookup_insert_is_Some'. right. by apply (ni_notifier _ Hi tid').
  - intros topic m u. rewrite lookup_insert_Some. intros [[<- <-]|[Hne Hm]] Hu.
    + destruct (decide (u = tid)) as [->|Hut].
      * exists (at_point p t). rewrite lookup_insert_eq. split; [done|]. split; [done|]. by apply Hself.
      * rewrite lookup_insert_ne by done. apply (ni_member _ Hi _ n u Hn). by apply Hother.
    + destruct (ni_member _ Hi _ _ _ Hm Hu) as (t' & Ht' & <- & Hp). exists t'.
      rewrite lookup_insert_ne; [done|]. intros ->. congruence.
  - intros tid' t' m. rewrite lookup_insert_Some. intros [[<- <-]|[Hne Ht']] Hp; cbn.
    + rewrite lookup_insert_eq. intros [= <-]. by apply Hself.
    + rewrite lookup_insert_Some. intros [[Heq <-]|[_ Hm]].
      * apply Hother; [done|]. apply (ni_waiting _ Hi tid' t' n); [done..|congruence].
      * by apply (ni_waiting _ Hi tid' t').
  - intros topic m. rewrite lookup_insert_Some. intros [[<- <-]|[_ Hm]]; [done|]. by apply (ni_apart _ Hi topic).
Qed.

(** A task moves that no notifier knows. *)
Lemma plain_notified tid t p s :
  notified_inv s -> publishers s !! tid = Some t -> pub_point t <> Waiting -> p <> Waiting ->
  (p = Awaiting -> is_Some (notify (inner s) !! pub_topic t)) -> notified_inv (set_point tid t p s).
Proof.
  intros Hi Ht Hw Hp Hn. split; cbn.
  - intros tid' t'. rewrite lookup_insert_Some. intros [[<- <-]|[Hne Ht']] Hb; cbn; [|by apply (ni_notifier _ Hi tid')].
    destruct Hb as [Hb|Hb]; [by apply Hn|done].
  - intros topic m u Hm Hu. destruct (ni_member _ Hi _ _ _ Hm Hu) as (t' & Ht' & Htop & Hp'). exists t'.
    rewrite lookup_insert_ne; [done|]. intros ->. congruence.
  - intros tid' t' m. rewrite lookup_insert_Some. intros [[<- <-]|[Hne Ht']] Hp'; [done|].
    by apply (ni_waiting _ Hi tid' t').
  - apply (ni_apart _ Hi).
Qed.

Definition all_apart (m : gmap string N) : Prop := forall topic n, m !! topic = Some n -> apart n.

Lemma same_members_refl m : all_apart m -> same_members m m.
Proof. intros Ha topic. destruct (m !! topic) eqn:Hn; [|done]. split; [by apply (Ha topic)|done]. Qed.

Lemma same_members_insert m topic n' :
  all_apart m -> apart n' ->
  match m !! topic with Some n => forall u, member n' u <-> member n u | None => forall u, ~ member n' u end ->
  same_members m (<[topic := n']> m).
Proof.
  intros Ha Hn' Hm topic'. destruct (decide (topic' = topic)) as [->|Hne].
  - rewrite lookup_insert_eq. by destruct (m !! topic).
  - rewrite lookup_insert_ne by done. by apply same_members_refl.
Qed.

Lemma insert_new_notify now topic pl q : notify (insert_new now topic pl q).2 = notify q.
Proof. unfold insert_new. by case_match. Qed.

Lemma publish_notify now topic pl q :
  notify (publish now topic pl q).2 = notify q
  \/ notify (publish now topic pl q).2 = <[topic := default notify_new (notify q !! topic)]> (notify q).
Proof.
  unfold publish, try_publish, publish_immediate.
  destruct (strategy_of q); [case_match| | |]; rewrite ?answered; try (destruct (_ <=? _)); cbn [fst snd];
    rewrite ?insert_new_notify; auto.
Qed.

Lemma publish_members now topic pl q : all_apart (notify q) -> same_members (notify q) (notify (publish now topic pl q).2).
Proof.
  intros Ha. destruct (publish_notify now topic pl q) as [->| ->]; [by apply same_members_refl|].
  destruct new_spec as [Hn Hm]. apply same_members_insert; [done|..]; destruct (notify q !! topic) eqn:Ht; cbn; try done.
  by apply (Ha topic).
Qed.

(** A task that has to wait has its notifier. *)
Lemma publish_waits now topic pl q : (publish now topic pl q).1 = None ->
  is_Some (notify (publish now topic pl q).2 !! topic).
Proof.
  unfold publish, try_publish. destruct (strategy_of q); rewrite ?answered; try done. case_match; rewrite ?answered; [done|].
  intros _. cbn. by rewrite lookup_insert_eq.
Qed.

Lemma consume_members topic q : all_apart (notify q) -> same_members (notify q) (notify (consume topic q).2).
Proof.
  intros Ha. unfold consume. case_match; cbn; [by apply same_members_refl|].
  destruct (notify q !! topic) as [n|] eqn:Hn; [|by apply same_members_refl]. cbn.
  destruct (one_spec n (Ha _ _ Hn)) as (Ho & _ & Hm). apply same_members_insert; [done..|]. by rewrite Hn.
Qed.

Lemma run_awaiting_notified tid t s s' :
  notified_inv s -> publishers s !! tid = Some t -> pub_point t = Awaiting ->
  run_awaiting tid t s = Some s' -> notified_inv s'.
Proof.
  intros Hi Ht Hp. unfold run_awaiting. destruct (notify (inner s) !! pub_topic t) as [n|] eqn:Hn; [|done]. cbn.
  destruct (poll_spec tid n (ni_apart _ Hi _ _ Hn)) as [Ha Hm]. destruct (poll_notified tid n) as [[] n'].
  - intros [= <-]. destruct Hm as [Hm _]. apply (move_notified _ _ _ n); try done.
    + intros u Hu. rewrite Hm. cbn. tauto.
    + rewrite Hm. split; [by intros []|done].
  - intros [= <-]. destruct Hm as [Hm _]. apply (move_notified _ _ _ n); try done.
    + intros u Hu. rewrite Hm. cbn. tauto.
    + rewrite Hm. tauto.
Qed.

Lemma run_waiting_notified tid t s s' :
  notified_inv s -> publishers s !! tid = Some t -> run_waiting tid t s = Some s' -> notified_inv s'.
Proof.
  intros Hi Ht. unfold run_waiting. destruct (notify (inner s) !! pub_topic t) as [n|] eqn:Hn; [|done]. cbn.
  destruct (poll_spec tid n (ni_apart _ Hi _ _ Hn)) as [Ha Hm]. destruct (poll_notified tid n) as [[] n']; [|done].
  intros [= <-]. destruct Hm as [Hm _]. apply (move_notified _ _ _ n); try done.
  - intros u Hu. rewrite Hm. cbn. tauto.
  - rewrite Hm. split; [by intros []|done].
Qed.

Lemma cancel_notified tid t s s' :
  notified_inv s -> publishers s !! tid = Some t -> cancel tid t s = Some s' -> notified_inv s'.
Proof.
  intros Hi Ht. unfold cancel. destruct (pub_point t) eqn:Hp; try done.
  1,2: intros [= <-]; by apply plain_notified; rewrite ?Hp.
  destruct (notify (inner s) !! pub_topic t) as [n|] eqn:Hn; [|done]. intros [= <-].
  destruct (drop_spec tid n (ni_apart _ Hi _ _ Hn)) as (Ha & _ & Hm). apply (move_notified _ _ _ n); try done.
  - intros u Hu. rewrite Hm. tauto.
  - rewrite Hm. split; [by intros []|done].
Qed.

Lemma run_trying_notified tid now t s :
  notified_inv s -> publishers s !! tid = Some t -> pub_point t = Trying -> notified_inv (run_trying tid now t s).
Proof.
  intros Hi Ht Hp. unfold run_trying.
  pose proof (publish_members now (pub_topic t) (pub_payload t) _ (ni_apart _ Hi)) as Hm.
  pose proof (publish_waits now (pub_topic t) (pub_payload t) (inner s)) as Hw.
  destruct (publish _ _ _ _) as [r q]. cbn in Hm, Hw. apply plain_notified; cbn; rewrite ?Hp; try done.
  - by apply inner_notified.
  - by destruct r.
  - destruct r; [done|]. intros _. by apply Hw.
Qed.

Lemma step_notified e s s' : notified_inv s -> step e s = Some s' -> notified_inv s'.
Proof.
  intros Hi. pose proof (same_members_refl _ (ni_apart _ Hi)) as Hsame.
  destruct e as [tid topic pl|tid now|tid|topic|id|id|id|topic|topic|id|id]; cbn.
  - destruct (publishers s !! tid) eqn:Ht; [done|]. intros [= <-]. split; cbn; [| | |apply (ni_apart _ Hi)].
    + intros tid' t'. rewrite lookup_insert_Some. intros [[<- <-]|[_ Ht']]; [by intros []|]. by apply (ni_notifier _ Hi tid').
    + intros topic' n u Hn Hu. destruct (ni_member _ Hi _ _ _ Hn Hu) as (t' & Ht' & Hx). exists t'.
      rewrite lookup_insert_ne by congruence. done.
    + intros tid' t' n. rewrite lookup_insert_Some. intros [[<- <-]|[_ Ht']]; [done|]. by apply (ni_waiting _ Hi).
  - destruct (publishers s !! tid) as [t|] eqn:Ht; [|done]. cbn. destruct (pub_point t) eqn:Hp; try done.
    + intros [= <-]. by apply run_trying_notified.
    + by apply run_awaiting_notified.
    + by apply run_waiting_notified.
  - destruct (publishers s !! tid) as [t|] eqn:Ht; [|done]. by apply cancel_notified.
  - intros [= <-]. apply inner_notified; [done|]. apply consume_members. exact (ni_apart _ Hi).
  - intros [= <-]. apply inner_notified; [done|]. unfold ack. by case_match.
  - intros [= <-]. apply inner_notified; [done|]. unfold nack. by repeat case_match.
  - intros [= <-]. apply inner_notified; [done|]. unfold reject. by case_match.
  - intros [= <-]. by apply inner_notified.
  - intros [= <-]. apply inner_notified; [done|]. unfold consume_dead_letter. by repeat case_match.
  - intros [= <-]. apply inner_notified; [done|]. unfold remove_dead_letter. by repeat case_match.
  - intros [= <-]. apply inner_notified; [done|]. unfold requeue_dead_letter. by repeat case_match.
Qed.

(** ** Somebody can wake them

    A blocked publisher of a topic has a message of the topic before it, a notification under
    way, another publisher about to look, or no identifiers are left. *)
Definition supply s topic : Prop :=
  messages_of topic (queues (inner s)) <> []
  \/ (exists n, notify (inner s) !! topic = Some n /\ wakes n)
  \/ (exists tid t, publishers s !! tid = Some t /\ pub_topic t = topic /\ pub_point t = Trying)
  \/ next_id (inner s) = u64_max.

Definition blocked_on s topic : Prop := exists tid t, publishers s !! tid = Some t /\ pub_topic t = topic /\ blocked t.

Definition none_dropped_trying s : Prop :=
  forall tid t, publishers s !! tid = Some t -> pub_point t <> DroppedTrying.

Definition supplied s : Prop :=
  0 < max_messages_per_topic (inner s) -> none_dropped_trying s -> forall topic, blocked_on s topic -> supply s topic.

Lemma messages_of_insert topic l qs : messages_of topic (<[topic := l]> qs) = l.
Proof. unfold messages_of. by rewrite lookup_insert_eq. Qed.

Lemma messages_of_insert_ne topic topic' l qs : topic' <> topic -> messages_of topic' (<[topic := l]> qs) = messages_of topic' qs.
Proof. intros Hne. unfold messages_of. by rewrite lookup_insert_ne. Qed.

Lemma messages_of_push topic topic' m qs :
  messages_of topic' qs <> [] -> messages_of topic' (push_back topic m qs) <> [].
Proof.
  unfold push_back. destruct (decide (topic' = topic)) as [->|Hne].
  - rewrite messages_of_insert. by destruct (messages_of topic qs).
  - by rewrite messages_of_insert_ne.
Qed.

Lemma supply_mono s s' topic :
  (messages_of topic (queues (inner s)) <> [] -> messages_of topic (queues (inner s')) <> []) ->
  (forall n, notify (inner s) !! topic = Some n -> wakes n -> exists n', notify (inner s') !! topic = Some n' /\ wakes n') ->
  (forall tid t, publishers s !! tid = Some t -> pub_topic t = topic -> pub_point t = Trying ->
     exists tid' t', publishers s' !! tid' = Some t' /\ pub_topic t' = topic /\ pub_point t' = Trying) ->
  (next_id (inner s) = u64_max -> next_id (inner s') = u64_max) -> supply s topic -> supply s' topic.
Proof.
  intros Hq Hn Ht Hid [Hs|[(n & Hs & Hw)|[(tid & t & Hs & Htop & Hp)|Hs]]].
  - left. auto.
  - right; left. eauto.
  - right; right; left. eauto.
  - right; right; right. auto.
Qed.

(** What [publish] does to the queues: its own topic has a message or no identifier is left. *)
Definition filled (topic : string) (q q' : Inner N) : Prop :=
  (messages_of topic (queues q') <> [] \/ next_id q' = u64_max)
  /\ (forall topic', topic' <> topic -> messages_of topic' (queues q') = messages_of topic' (queues q))
  /\ (next_id q = u64_max -> next_id q' = u64_max).

Lemma insert_new_fills now topic pl q : filled topic q (insert_new now topic pl q).2.
Proof.
  unfold insert_new, filled. case_match eqn:Hm; cbn.
  - apply Z.eqb_eq in Hm. by split; [right|].
  - apply Z.eqb_neq in Hm. split; [left|split; [|done]].
    + unfold push_back. rewrite messages_of_insert. by destruct (messages_of _ _).
    + intros topic' Hne. by apply messages_of_insert_ne.
Qed.

Lemma full_has topic q : 0 < max_messages_per_topic q -> max_messages_per_topic q <= message_count topic q ->
  messages_of topic (queues q) <> [].
Proof. unfold message_count, count_of. intros Hm Hc Hn. rewrite Hn in Hc. cbn in Hc. lia. Qed.

Lemma publish_fills now topic pl q : 0 < max_messages_per_topic q -> filled topic q (publish now topic pl q).2.
Proof.
  intros Hm. pose proof (insert_new_fills now topic pl q) as Hi. pose proof (full_has topic q Hm) as Hfull.
  unfold publish, try_publish, publish_immediate. destruct (strategy_of q); rewrite ?answered; cbn [fst snd].
  - case_match eqn:Hlt; rewrite ?answered; [done|]. apply Z.ltb_ge in Hlt.
    unfold filled. cbn. auto.
  - destruct (_ <=? _); [|done].
    destruct (insert_new_fills now topic pl (set_queues (<[topic := tail (messages_of topic (queues q))]> (queues q)) q)) as (H1 & H2 & H3).
    split; [done|]. split; [|done]. intros topic' Hne. rewrite H2 by done. by apply messages_of_insert_ne.
  - destruct (_ <=? _) eqn:Hle; [|done]. apply Z.leb_le in Hle. unfold filled. cbn. auto.
  - destruct (_ <=? _) eqn:Hle; [|done]. apply Z.leb_le in Hle. unfold filled. cbn. auto.
Qed.

Lemma blocked_on_set_point tid t p s topic : publishers s !! tid = Some t ->
  blocked_on (set_point tid t p s) topic -> blocked_on s topic \/ (topic = pub_topic t /\ (p = Awaiting \/ p = Waiting)).
Proof.
  intros Ht (tid' & t' & Ht' & Htop & Hb). cbn in Ht'. apply lookup_insert_Some in Ht' as [[<- <-]|[_ Ht']].
  - right. by split.
  - left. by exists tid', t'.
Qed.

Lemma undropped_before tid t p s : publishers s !! tid = Some t -> pub_point t <> DroppedTrying ->
  none_dropped_trying (set_point tid t p s) -> none_dropped_trying s.
Proof.
  intros Ht Hp Hn tid' t' Ht'. destruct (decide (tid' = tid)) as [->|Hne]; [congruence|].
  apply (Hn tid' t'). cbn. by rewrite lookup_insert_ne.
Qed.

(** The publishers about to look, but for the one that moves. *)
Lemma trying_kept tid t p s topic :
  publishers s !! tid = Some t -> (pub_topic t = topic -> pub_point t = Trying -> p = Trying) ->
  forall tid' t', publishers s !! tid' = Some t' -> pub_topic t' = topic -> pub_point t' = Trying ->
  exists tid' t', publishers (set_point tid t p s) !! tid' = Some t' /\ pub_topic t' = topic /\ pub_point t' = Trying.
Proof.
  intros Ht Hp tid' t' Ht' Htop Hp'. destruct (decide (tid' = tid)) as [->|Hne].
  - simplify_eq. exists tid, (at_point p t). cbn. rewrite lookup_insert_eq. auto.
  - exists tid', t'. cbn. by rewrite lookup_insert_ne.
Qed.

Lemma run_trying_supplied tid now t s :
  supplied s -> publishers s !! tid = Some t -> pub_point t = Trying -> supplied (run_trying tid now t s).
Proof.
  intros Hs Ht Hp. unfold run_trying.
  pose proof (publish_configuration now (pub_topic t) (pub_payload t) (inner s)) as [=Hmax _ _].
  pose proof (publish_fills now (pub_topic t) (pub_payload t) (inner s)) as Hf.
  pose proof (publish_notify now (pub_topic t) (pub_payload t) (inner s)) as Hn.
  destruct (publish _ _ _ _) as [r q]. cbn in Hmax, Hf, Hn. set (p := match r with Some r => _ | None => _ end).
  intros Hm Hd topic Hb. cbn in Hm. rewrite Hmax in Hm. destruct (Hf Hm) as (Hown & Hother & Hid).
  destruct (decide (topic = pub_topic t)) as [->|Hne].
  { destruct Hown as [Hown|Hown]; [by left|]. by right; right; right. }
  apply (supply_mono s); cbn.
  - by rewrite Hother.
  - intros n Htop Hw. destruct Hn as [->| ->]; [by exists n|]. rewrite lookup_insert_ne by done. by exists n.
  - by apply (trying_kept tid t p (set_inner q s)).
  - done.
  - apply Hs; [done| |].
    + apply (undropped_before tid t p (set_inner q s)); [done|by rewrite Hp|done].
    + by destruct (blocked_on_set_point tid t p (set_inner q s) topic Ht Hb) as [?|[? _]].
Qed.

(** A blocked task is polled or dropped, and its notifier goes from [n] to [n']. *)
Lemma notifier_supplied tid t p n n' s :
  supplied s -> publishers s !! tid = Some t -> blocked t -> notify (inner s) !! pub_topic t = Some n ->
  (p = Trying \/ (wakes n -> wakes n')) ->
  supplied (set_point tid t p (set_notifier (pub_topic t) n' s)).
Proof.
  intros Hs Ht Hbl Hn Hp Hm Hd topic Hb.
  assert (Hsup : supply s topic).
  { apply Hs; [done| |].
    - apply (undropped_before tid t p (set_notifier (pub_topic t) n' s)); [done| |done]. by destruct Hbl as [->| ->].
    - destruct (blocked_on_set_point tid t p (set_notifier (pub_topic t) n' s) topic Ht Hb) as [?|[-> _]]; [done|].
      by exists tid, t. }
  destruct Hp as [->|Hp]; [destruct (decide (topic = pub_topic t)) as [->|Hne]|].
  - right; right; left. exists tid, (at_point Trying t). cbn. by rewrite lookup_insert_eq.
  - apply (supply_mono s); cbn; try done.
    + intros m Htop Hw. rewrite lookup_insert_ne by done. by exists m.
    + by apply (trying_kept tid t Trying (set_notifier (pub_topic t) n' s)).
  - apply (supply_mono s); cbn; try done.
    + intros m Htop Hw. destruct (decide (topic = pub_topic t)) as [->|Hne].
      * rewrite lookup_insert_eq. exists n'. simplify_eq. auto.
      * rewrite lookup_insert_ne by done. by exists m.
    + apply (trying_kept tid t p (set_notifier (pub_topic t) n' s)); [done|]. intros _ Htr.
      by destruct Hbl; congruence.
Qed.

(** A call that keeps the notifiers and takes no message from a queue. *)
Lemma inner_supplied q s :
  supplied s -> configuration q = configuration (inner s) ->
  (forall topic, messages_of topic (queues (inner s)) <> [] -> messages_of topic (queues q) <> []) ->
  notify q = notify (inner s) -> next_id q = next_id (inner s) -> supplied (set_inner q s).
Proof.
  intros Hs [=Hmax _ _] Hq Hn Hid Hm Hd topic Hb. cbn in Hm. rewrite Hmax in Hm.
  apply (supply_mono s); cbn; [apply Hq| | |by rewrite Hid|by apply Hs].
  - rewrite Hn. intros n Ht Hw. by exists n.
  - intros tid t Ht Htop Hp. by exists tid, t.
Qed.

Lemma consume_supplied topic s : notified_inv s -> supplied s -> supplied (set_inner (consume topic (inner s)).2 s).
Proof.
  intros Hi Hs Hm Hd topic' Hb.
  assert (Hm' : 0 < max_messages_per_topic (inner s)) by (unfold consume in Hm; by repeat case_match).
  destruct Hb as (tid & t & Ht & <- & Hbl). cbn in Ht.
  assert (Hsup : supply s (pub_topic t)) by (apply Hs; [done..|by exists tid, t]).
  destruct (ni_notifier _ Hi _ _ Ht Hbl) as [n Hn].
  unfold consume. destruct (messages_of topic (queues (inner s))) as [|m ms] eqn:Hq.
  - apply (supply_mono s); cbn; try done.
    + destruct (decide (pub_topic t = topic)) as [->|Hne]; [by rewrite Hq|]. by rewrite messages_of_insert_ne.
    + intros n' Hn' Hw. by exists n'.
    + intros tid' t' Ht' Htop Hp. by exists tid', t'.
  - destruct (decide (pub_topic t = topic)) as [<-|Hne].
    + right; left. cbn. rewrite Hn. cbn. exists (notify_one n). rewrite lookup_insert_eq. split; [done|].
      apply one_spec, (ni_apart _ Hi _ _ Hn).
    + apply (supply_mono s); cbn; try done.
      * destruct (notify (inner s) !! topic); cbn; by rewrite messages_of_insert_ne.
      * intros n' Hn' Hw. exists n'. split; [|done].
        destruct (notify (inner s) !! topic); cbn; by rewrite ?lookup_insert_ne.
      * intros tid' t' Ht' Htop Hp. by exists tid', t'.
      * by destruct (notify (inner s) !! topic).
Qed.

Lemma cancel_supplied tid t s s' :
  notified_inv s -> supplied s -> publishers s !! tid = Some t -> cancel tid t s = Some s' -> supplied s'.
Proof.
  intros Hi Hs Ht. unfold cancel. destruct (pub_point t) eqn:Hp; try done; cbn.
  - intros [= <-] Hm Hd. exfalso. apply (Hd tid (at_point DroppedTrying t)); [|done]. cbn. by rewrite lookup_insert_eq.
  - intros [= <-] Hm Hd topic Hb.
    assert (Hsup : supply s topic).
    { apply Hs; [done| |].
      - apply (undropped_before tid t Dropped s); [done|by rewrite Hp|done].
      - destruct (blocked_on_set_point tid t Dropped s topic Ht Hb) as [?|[_ [?|?]]]; done. }
    apply (supply_mono s); cbn; try done; [intros n Hn Hw; by exists n|].
    apply (trying_kept tid t Dropped s); [done|]. intros _ ?. congruence.
  - destruct (notify (inner s) !! pub_topic t) as [n|] eqn:Hn; [|done]. intros [= <-].
    apply (notifier_supplied _ _ _ n); try done; [by right|]. right. apply drop_spec, (ni_apart _ Hi _ _ Hn).
Qed.

Lemma step_supplied e s s' : notified_inv s -> supplied s -> step e s = Some s' -> supplied s'.
Proof.
  intros Hi Hs. destruct e as [tid topic pl|tid now|tid|topic|id|id|id|topic|topic|id|id]; cbn.
  - destruct (publishers s !! tid) eqn:Ht; [done|]. intros [= <-] Hm Hd topic' (tid' & t' & Ht' & Htop & Hb).
    cbn in Ht'. apply lookup_insert_Some in Ht' as [[<- <-]|[Hne Ht']]; [by destruct Hb|].
    apply (supply_mono s); cbn; try done; [intros n Hn Hw; by exists n| |].
    + intros u t Hu. exists u, t. by rewrite lookup_insert_ne by congruence.
    + apply Hs; [done| |by exists tid', t']. intros u t Hu. apply (Hd u t). cbn. by rewrite lookup_insert_ne by congruence.
  - destruct (publishers s !! tid) as [t|] eqn:Ht; [|done]. cbn. destruct (pub_point t) eqn:Hp; try done.
    + intros [= <-]. by apply run_trying_supplied.
    + unfold run_awaiting. destruct (notify (inner s) !! pub_topic t) as [n|] eqn:Hn; [|done]. cbn.
      destruct (poll_spec tid n (ni_apart _ Hi _ _ Hn)) as [Ha Hm]. destruct (poll_notified tid n) as [b n'].
      intros [= <-]. apply (notifier_supplied _ _ _ n); try done; [by left|]. destruct b; [by left|right].
      destruct Hm as (_ & Hpe & Hw). cbn in Hpe, Hw. unfold wakes. by rewrite Hpe, Hw.
    + unfold run_waiting. destruct (notify (inner s) !! pub_topic t) as [n|] eqn:Hn; [|done]. cbn.
      destruct (poll_notified tid n) as [[] n']; [|done]. intros [= <-].
      apply (notifier_supplied _ _ _ n); try done; [by right|by left].
  - destruct (publishers s !! tid) as [t|] eqn:Ht; [|done]. by apply cancel_supplied.
  - intros [= <-]. by apply consume_supplied.
  - intros [= <-]. apply inner_supplied; [done|..]; unfold ack; by case_match.
  - intros [= <-]. apply inner_supplied; [done|..]; unfold nack; repeat case_match; try done.
    intros topic. cbn. by apply messages_of_push.
  - intros [= <-]. apply inner_supplied; [done|..]; unfold reject; by case_match.
  - intros [= <-]. by apply inner_supplied.
  - intros [= <-]. apply inner_supplied; [done|..]; unfold consume_dead_letter; by repeat case_match.
  - intros [= <-]. apply inner_supplied; [done|..]; unfold remove_dead_letter; by repeat case_match.
  - intros [= <-]. apply inner_supplied; [done|..]; unfold requeue_dead_letter; repeat case_match; try done.
    intros topic. cbn. by apply messages_of_push.
Qed.

Lemma run_supplied es s s' :
  notified_inv s -> supplied s -> run es s = Some s' -> notified_inv s' /\ supplied s'.
Proof.
  revert s. induction es as [|e es IH]; intros s Hi Hs; cbn; [by intros [= <-]|].
  destruct (step e s) as [s1|] eqn:He; [|done]. intros Hr. apply (IH s1); [by eapply step_notified|by eapply step_supplied|done].
Qed.

(** * The work that is left *)

Definition publisher_work (t : Publisher) : nat :=
  match pub_point t with Waiting => 3 | Awaiting => 4 | Trying => 5 | _ => 0 end.

Definition notifier_work (n : N) : nat := (if permit n then 2 else 0) + 3 * size (woken n).

Definition work s : nat :=
  4 * length (flat (queues (inner s))) + map_sum notifier_work (notify (inner s)) + map_sum publisher_work (publishers s).

(** A publisher that moves, or a consumer that gets a message. *)
Definition useful (e : Event) s : Prop :=
  match e with
  | Run _ _ => True
  | Consume topic => messages_of topic (queues (inner s)) <> []
  | _ => False
  end.

Lemma notifier_work_new : notifier_work notify_new = 0%nat.
Proof. unfold notifier_work. destruct (new_law (N := N)) as (-> & _ & ->). by rewrite size_empty. Qed.

Lemma notifier_work_one n : apart n -> (notifier_work (notify_one n) <= notifier_work n + 3)%nat.
Proof.
  intros (Hn & Ha & Hp). unfold notifier_work. pose proof (one_law n) as Ho.
  destruct (waiting n) as [|t ts]; destruct Ho as (-> & _ & ->); [destruct (permit n); lia|].
  rewrite size_union, size_singleton; [destruct (permit n); lia|]. pose proof (Ha t). set_solver.
Qed.

Lemma notifier_work_poll tid n : apart n -> ~ member n tid ->
  (notifier_work (poll_notified tid n).2 + (if (poll_notified tid n).1 then 2 else 0) = notifier_work n)%nat.
Proof.
  intros Ha Hm. unfold notifier_work, member in *. pose proof (poll_law tid n) as Ho.
  rewrite decide_False in Ho by tauto. rewrite decide_False in Ho by tauto.
  destruct Ho as (-> & -> & _ & ->). destruct (permit n); lia.
Qed.

Lemma notifier_work_woken tid n : apart n -> member n tid -> (poll_notified tid n).1 = true ->
  (notifier_work (poll_notified tid n).2 + 3 = notifier_work n)%nat.
Proof.
  intros (Hn & Ha & Hp) Hm Hr. unfold notifier_work, member in *. pose proof (poll_law tid n) as Ho.
  destruct (decide (tid ∈ woken n)) as [Hk|Hk].
  - destruct Ho as (_ & -> & _ & ->). rewrite size_difference by set_solver. rewrite size_singleton.
    assert (0 < size (woken n))%nat; [|lia]. destruct (decide (size (woken n) = 0)%nat) as [Hz|]; [|lia].
    apply size_empty_inv in Hz. set_solver.
  - rewrite decide_True in Ho by tauto. by rewrite Ho in Hr.
Qed.

Lemma publishers_work tid t p (m : gmap nat Publisher) : m !! tid = Some t ->
  (map_sum publisher_work (<[tid := at_point p t]> m) + publisher_work t
    = map_sum publisher_work m + publisher_work (at_point p t))%nat.
Proof. intros Ht. pose proof (map_sum_insert publisher_work m tid (at_point p t)) as Hs. by rewrite Ht in Hs. Qed.

Lemma notifiers_work topic n n' (m : gmap string N) : m !! topic = Some n ->
  (map_sum notifier_work (<[topic := n']> m) + notifier_work n = map_sum notifier_work m + notifier_work n')%nat.
Proof. intros Hn. pose proof (map_sum_insert notifier_work m topic n') as Hs. by rewrite Hn in Hs. Qed.

Lemma insert_new_length now topic pl q :
  length (flat (queues (insert_new now topic pl q).2)) =
    (length (flat (queues q)) + match (insert_new now topic pl q).1 with Ok _ => 1 | Err _ => 0 end)%nat.
Proof. unfold insert_new. case_match; cbn; [lia|]. rewrite flat_push. cbn. lia. Qed.

Lemma flat_length_set topic x l (qs : gmap string (list Message)) : messages_of topic qs = (x ++ l)%list ->
  length (flat qs) = (length x + length (flat (<[topic := l]> qs)))%nat.
Proof. intros Hx. rewrite (flat_set topic x l) by (by rewrite Hx). apply length_app. Qed.

Lemma publish_length now topic pl q :
  (length (flat (queues (publish now topic pl q).2)) <=
    length (flat (queues q)) + match (publish now topic pl q).1 with Some _ => 1 | None => 0 end)%nat.
Proof.
  assert (Hi : forall q, (length (flat (queues (insert_new now topic pl q).2)) <= length (flat (queues q)) + 1)%nat).
  { intros q'. rewrite insert_new_length. case_match; lia. }
  unfold publish, try_publish, publish_immediate. destruct (strategy_of q); rewrite ?answered; cbn [fst snd].
  - case_match; rewrite ?answered; cbn [fst snd]; [apply Hi|cbn; lia].
  - destruct (_ <=? _); [|apply Hi]. etransitivity; [apply Hi|]. cbn. apply Nat.add_le_mono_r.
    rewrite (flat_length_set topic (take 1 (messages_of topic (queues q))) (tail (messages_of topic (queues q))) (queues q));
      [lia|by destruct (messages_of topic (queues q))].
  - destruct (_ <=? _); [cbn; lia|apply Hi].
  - destruct (_ <=? _); [cbn; lia|apply Hi].
Qed.

Lemma publish_notifiers now topic pl q :
  map_sum notifier_work (notify (publish now topic pl q).2) = map_sum notifier_work (notify q).
Proof.
  destruct (publish_notify now topic pl q) as [->| ->]; [done|].
  pose proof (map_sum_insert notifier_work (notify q) topic (default notify_new (notify q !! topic))) as Hs.
  destruct (notify q !! topic); cbn in Hs; rewrite ?notifier_work_new in Hs; cbn in Hs |- *; rewrite ?notifier_work_new in *; lia.
Qed.

Lemma consume_work topic s : all_apart (notify (inner s)) -> messages_of topic (queues (inner s)) <> [] ->
  (work (set_inner (consume topic (inner s)).2 s) < work s)%nat.
Proof.
  intros Ha Hq. unfold consume. destruct (messages_of topic (queues (inner s))) as [|m ms] eqn:Hm; [done|].
  pose proof (flat_length_set topic [m] ms _ Hm) as Hl. cbn in Hl. cbn.
  destruct (notify (inner s) !! topic) as [n|] eqn:Hn; unfold work; cbn; [|lia].
  pose proof (notifiers_work topic n (notify_one n) _ Hn). pose proof (notifier_work_one n (Ha _ _ Hn)). lia.
Qed.

Lemma step_work e s s' :
  notified_inv s -> useful e s -> step e s = Some s' -> (work s' < work s)%nat.
Proof.
  intros Hi Hu. destruct e as [| tid now| |topic| | | | | | |]; try done; cbn.
  2:{ intros [= <-]. apply consume_work; [exact (ni_apart _ Hi)|done]. }
  destruct (publishers s !! tid) as [t|] eqn:Ht; [|done]. cbn. destruct (pub_point t) eqn:Hp; try done.
  - intros [= <-]. unfold run_trying. pose proof (publish_length now (pub_topic t) (pub_payload t) (inner s)) as Hl.
    pose proof (publish_notifiers now (pub_topic t) (pub_payload t) (inner s)) as Hn.
    destruct (publish _ _ _ _) as [r q]. cbn in Hl, Hn. unfold work. cbn.
    pose proof (publishers_work tid t (match r with Some r => Returned r | None => Awaiting end) _ Ht) as Hw.
    unfold publisher_work in Hw at 2 4. rewrite Hp in Hw. destruct r; cbn in *; lia.
  - unfold run_awaiting. destruct (notify (inner s) !! pub_topic t) as [n|] eqn:Hn; [|done]. cbn.
    assert (Hm : ~ member n tid).
    { intros Hm. destruct (ni_member _ Hi _ _ _ Hn Hm) as (t' & Ht' & _ & Hp'). congruence. }
    pose proof (notifier_work_poll tid n (ni_apart _ Hi _ _ Hn) Hm) as Hpoll.
    destruct (poll_notified tid n) as [b n']. intros [= <-]. unfold work. cbn in *.
    pose proof (notifiers_work (pub_topic t) n n' _ Hn).
    pose proof (publishers_work tid t (if b then Trying else Waiting) _ Ht) as Hw.
    unfold publisher_work in Hw at 2 4. rewrite Hp in Hw. destruct b; cbn in *; lia.
  - unfold run_waiting. destruct (notify (inner s) !! pub_topic t) as [n|] eqn:Hn; [|done]. cbn.
    pose proof (ni_waiting _ Hi _ _ _ Ht Hp Hn) as Hm.
    pose proof (notifier_work_woken tid n (ni_apart _ Hi _ _ Hn) Hm) as Hpoll.
    destruct (poll_notified tid n) as [[] n']; [|done]. intros [= <-]. unfold work. cbn in *. specialize (Hpoll eq_refl).
    pose proof (notifiers_work (pub_topic t) n n' _ Hn).
    pose proof (publishers_work tid t Trying _ Ht) as Hw.
    unfold publisher_work in Hw at 2 4. rewrite Hp in Hw. cbn in *; lia.
Qed.

(** Runs in which publishers move and consumers get messages. *)
Inductive drains : nat -> System N -> System N -> Prop :=
| DrainsNone s : drains 0 s s
| DrainsStep k e s s1 s' : useful e s -> step e s = Some s1 -> drains k s1 s' -> drains (S k) s s'.

Lemma drains_run k s s' : drains k s s' -> exists es, run es s = Some s'.
Proof.
  induction 1 as [s|k e s s1 s' _ Hs _ [es Hes]]; [by exists []|]. exists (e :: es). cbn. by rewrite Hs.
Qed.

Lemma drains_work k s s' : notified_inv s -> drains k s s' -> (k + work s' <= work s)%nat.
Proof.
  intros Hi Hd. induction Hd as [s|k e s s1 s' Hu Hs _ IH]; [done|].
  pose proof (step_work e s s1 Hi Hu Hs). specialize (IH (step_notified _ _ _ Hi Hs)). lia.
Qed.

Lemma run_app es1 es2 s s1 : run es1 s = Some s1 -> run (es1 ++ es2) s = run es2 s1.
Proof.
  revert s. induction es1 as [|e es IH]; intros s; cbn; [by intros [= ->]|]. destruct (step e s); [|done]. apply IH.
Qed.

Definition answered_task (t : Publisher) : Prop := pub_point t = Dropped \/ exists r, pub_point t = Returned r.

Lemma woken_moves topic n u s : notified_inv s -> notify (inner s) !! topic = Some n -> u ∈ woken n ->
  exists s', step (Run u 0) s = Some s'.
Proof.
  intros Hi Hn Hu. destruct (ni_member _ Hi _ _ _ Hn (or_intror Hu)) as (t & Ht & <- & Hp).
  cbn. rewrite Ht. cbn. rewrite Hp. unfold run_waiting. rewrite Hn. cbn.
  pose proof (poll_law u n) as Ho. rewrite decide_True in Ho by done. destruct Ho as (Hr & _).
  destruct (poll_notified u n) as [b n']. cbn in Hr. subst b. by eexists.
Qed.

(** C37. From every state that tasks sharing a queue reach, with room for a message and no
    publisher dropped before it got the lock: publishers that move and consumers that get
    messages can take no more than [work] steps, and when none of them can take another, every
    publisher has its answer and the queues are empty, unless the identifiers ran out. *)
Theorem blocked_publishers_drain q0 es s k s' :
  configured q0 -> 0 < max_messages_per_topic q0 -> run es (start q0) = Some s -> drains k s s' ->
  (k <= work s)%nat
  /\ (none_dropped_trying s' -> next_id (inner s') < u64_max -> (forall e s'', useful e s' -> step e s' <> Some s'') ->
      (forall tid t, publishers s' !! tid = Some t -> answered_task t)
      /\ (forall topic, messages_of topic (queues (inner s')) = [])).
Proof.
  intros Hc Hmax Hr Hd. pose proof (start_notified q0 Hc) as Hi0.
  assert (Hs0 : supplied (start q0)).
  { intros _ _ topic (tid & t & Ht & _). cbn in Ht. by rewrite lookup_empty in Ht. }
  destruct (run_supplied _ _ _ Hi0 Hs0 Hr) as [Hi Hs]. split.
  { pose proof (drains_work _ _ _ Hi Hd). lia. }
  destruct (drains_run _ _ _ Hd) as [es' Hr']. destruct (run_supplied _ _ _ Hi Hs Hr') as [Hi' Hs'].
  intros Hn Hid Hstop.
  assert (Hempty : forall topic, messages_of topic (queues (inner s')) = []).
  { intros topic. destruct (messages_of topic (queues (inner s'))) eqn:Hq; [done|].
    destruct (Hstop (Consume topic) _ ltac:(cbn; by rewrite Hq) eq_refl). }
  assert (Hmax' : 0 < max_messages_per_topic (inner s')).
  { pose proof (run_configuration _ _ _ Hr') as [=Hm1 _ _]. pose proof (run_configuration _ _ _ Hr) as [=Hm2 _ _].
    cbn in Hm2. lia. }
  split; [|done]. intros tid t Ht.
  assert (Hmoves : forall tid t, publishers s' !! tid = Some t -> pub_point t <> Trying /\ pub_point t <> Awaiting).
  { intros u v Hv. split; intros Hp.
    - apply (Hstop (Run u 0) (run_trying u 0 v s')); [done|]. cbn. rewrite Hv. cbn. by rewrite Hp.
    - destruct (ni_notifier _ Hi' _ _ Hv (or_introl Hp)) as [n Hn']. destruct (poll_notified u n) as [b n'] eqn:Hpoll.
      eapply (Hstop (Run u 0)); [done|]. cbn. rewrite Hv. cbn. rewrite Hp. unfold run_awaiting. rewrite Hn'. cbn.
      by rewrite Hpoll. }
  destruct (Hmoves _ _ Ht) as [Htr Haw]. unfold answered_task.
  destruct (pub_point t) eqn:Hp; try done; [|by right; eexists|by left|by destruct (Hn _ _ Ht)].
  exfalso. destruct (Hs' Hmax' Hn (pub_topic t)) as [Hq|[(n & Hn' & Hw)|[(u & v & Hv & _ & Hpv)|Hfull]]].
  - exists tid, t. split; [done|]. split; [done|by right].
  - by rewrite Hempty in Hq.
  - assert (Hwoken : exists u, u ∈ woken n).
    { destruct Hw as [Hperm|Hwoken]; [|by apply set_choose_L].
      destruct (ni_waiting _ Hi' _ _ _ Ht Hp Hn') as [Hin|Hin]; [|by exists tid].
      destruct (ni_apart _ Hi' _ _ Hn') as (_ & _ & Hx). rewrite (Hx Hperm) in Hin. by apply not_elem_of_nil in Hin. }
    destruct Hwoken as [u Hu]. destruct (woken_moves _ _ _ _ Hi' Hn' Hu) as [s'' Hs'']. by apply (Hstop (Run u 0) s'').
  - by destruct (Hmoves _ _ Hv).
  - lia.
Qed.
End Theorems.

(** * Instances *)

#[export] Instance point_eq_dec : EqDecision Point.
Proof. solve_decision. Defined.

Definition sim_queue (policy : BackpressurePolicy) : System SimNotify := start (with_backpressure policy).

(** A topic of two messages that drops the oldest: three publications, a message handed back
    for good, another in flight. *)
Definition drop_oldest_run : list Event :=
  [Call 1 "orders" "a"; Call 2 "orders" "b"; Call 3 "orders" "c"; Run 2 5; Run 1 6; Run 3 7;
   Consume "orders"; RejectMessage "msg-2"; Consume "orders"; ConsumeDead "orders"]%string.

Lemma messages_conserved_witness :
  match run drop_oldest_run (sim_queue (mkPolicy 2 DropOldest)) with
  | Some s => settled drop_oldest_run (sim_queue (mkPolicy 2 DropOldest)) = ["msg-2"; "msg-1"]%string
      /\ ((msg_id <$> all_messages (inner s)) ++ ["msg-2"; "msg-1"])%list ≡ₚ ["msg-1"; "msg-2"; "msg-3"]%string
  | None => False
  end.
Proof.
  destruct (run _ _) as [s|] eqn:Hr; [|by vm_compute in Hr].
  assert (Hs : settled drop_oldest_run (sim_queue (mkPolicy 2 DropOldest)) = ["msg-2"; "msg-1"]%string)
    by (vm_compute; reflexivity).
  assert (Hn : next_id (inner s) = 4) by (vm_compute in Hr; injection Hr as <-; reflexivity).
  split; [done|]. pose proof (messages_conserved _ _ _ (ConfPolicy _) Hr) as [Hp _].
  unfold sim_queue in Hs. rewrite Hs, Hn in Hp. exact Hp.
Defined.

(** A full topic of one message and two publishers that wait, and how they get on. *)
Definition two_wait : list Event :=
  [Call 1 "t" "a"; Run 1 0; Call 2 "t" "b"; Call 3 "t" "c"; Run 2 0; Run 3 0; Run 2 0; Run 3 0]%string.
Definition two_served : list Event :=
  [Consume "t"; Run 2 0; Run 2 0; Consume "t"; Run 3 0; Run 3 0; Consume "t"]%string.

Definition usefulb {N} (e : Event) (s : System N) : bool :=
  match e with
  | Run _ _ => true
  | Consume topic => negb (is_nil (messages_of topic (queues (inner s))))
  | _ => false
  end.

Fixpoint all_useful {N} `{Notify N} (es : list Event) (s : System N) : bool :=
  match es with
  | [] => true
  | e :: es => usefulb e s && match step e s with Some s => all_useful es s | None => false end
  end.

Lemma usefulb_useful {N} `{Notify N} e (s : System N) : usefulb e s = true -> useful e s.
Proof. destruct e; cbn; try done. by destruct (messages_of _ _). Qed.

Lemma all_useful_drains {N} `{Notify N} es (s s' : System N) :
  all_useful es s = true -> run es s = Some s' -> drains (length es) s s'.
Proof.
  revert s. induction es as [|e es IH]; intros s; cbn; [intros _ [= ->]; constructor|].
  intros [Hu Hes]%andb_prop. destruct (step e s) as [s1|] eqn:Hs; [|done]. intros Hr.
  eapply DrainsStep; [by apply usefulb_useful|done|by apply IH].
Qed.

Definition restsb {N} (s : System N) : bool :=
  bool_decide (map_Forall (fun _ t => pub_point t = Returned (Ok tt)) (publishers s))
  && bool_decide (map_Forall (fun _ l => l = []) (queues (inner s))).

(** Nothing useful is left when every publisher has answered and every queue is empty. *)
Lemma at_rest {N} `{Notify N} (s : System N) :
  restsb s = true ->
  none_dropped_trying s /\ forall e s', useful e s -> step e s <> Some s'.
Proof.
  intros [Hp%bool_decide_eq_true Hq%bool_decide_eq_true]%andb_prop. split; [intros tid t Ht; by rewrite (Hp tid t Ht)|]. intros [] s'; cbn; try done.
  - intros _. destruct (publishers s !! tid) as [t|] eqn:Ht; [|done]. cbn. by rewrite (Hp tid t Ht).
  - unfold messages_of. destruct (queues (inner s) !! topic) as [l|] eqn:Hl; [|done]. cbn. by rewrite (Hq topic l Hl).
Qed.

Lemma blocked_publishers_drain_witness :
  match run two_wait (sim_queue (mkPolicy 1 Block)) with
  | Some s =>
      match run two_served s with
      | Some s' => (7 <= work s)%nat /\ (forall tid t, publishers s' !! tid = Some t -> answered_task t)
      | None => False
      end
  | None => False
  end.
Proof.
  destruct (run two_wait _) as [s|] eqn:Hr; [|by vm_compute in Hr].
  destruct (run two_served s) as [s'|] eqn:Hr'; [|by vm_compute in Hr; injection Hr as <-; vm_compute in Hr'].
  assert (Hu : all_useful two_served s = true) by (vm_compute in Hr; injection Hr as <-; vm_compute; reflexivity).
  destruct (blocked_publishers_drain _ _ _ _ _ (ConfPolicy (mkPolicy 1 Block)) ltac:(done) Hr (all_useful_drains _ _ _ Hu Hr'))
    as [Hk Hdone].
  assert (Hrest : none_dropped_trying s' /\ forall e s'', useful e s' -> step e s' <> Some s'').
  { vm_compute in Hr. injection Hr as <-. vm_compute in Hr'. injection Hr' as <-.
    apply at_rest. vm_compute. reflexivity. }
  split; [exact Hk|]. apply Hdone; [apply Hrest| |apply Hrest].
  vm_compute in Hr. injection Hr as <-. vm_compute in Hr'. injection Hr' as <-. reflexivity.
Defined.

(** ** Notifications are lost

    Two messages leave a full topic of two before the two publishers that found it full have
    polled: both notifications make one permit.  One publisher goes on, the other waits beside
    a free place and no step of a publisher is possible. *)
Lemma two_notifications_one_permit :
  match run ([Call 1 "t" "a"; Run 1 0; Call 2 "t" "b"; Run 2 0; Call 3 "t" "c"; Call 4 "t" "d"; Run 3 0; Run 4 0;
              Consume "t"; Consume "t"; Run 3 0; Run 3 0; Run 4 0]%string) (sim_queue (mkPolicy 2 Block)) with
  | Some s => message_count "t" (inner s) = 1 /\ max_messages_per_topic (inner s) = 2
      /\ (pub_point <$> publishers s !! 4%nat) = Some Waiting
      /\ (forall now, step (Run 4 now) s = None) /\ pub_point <$> publishers s !! 3%nat = Some (Returned (Ok tt))
  | None => False
  end.
Proof. vm_compute. by repeat split. Qed.

(** A publisher is woken and dropped before it gets the lock: the other one waits for ever
    beside an empty queue. *)
Lemma dropped_publisher_strands :
  match run (two_wait ++ [Consume "t"; Run 2 0; Cancel 2]%string) (sim_queue (mkPolicy 1 Block)) with
  | Some s => message_count "t" (inner s) = 0 /\ (pub_point <$> publishers s !! 3%nat) = Some Waiting
      /\ (forall now, step (Run 3 now) s = None) /\ step (Consume "t"%string) s = Some s
  | None => False
  end.
Proof. vm_compute. by repeat split. Qed.

(** A message handed back joins its queue without regard to the limit. *)
Lemma nack_ignores_the_limit :
  match run ([Call 1 "t" "a"; Run 1 0; Consume "t"; Call 2 "t" "b"; Run 2 0; Nack "msg-1"]%string)
          (sim_queue (mkPolicy 1 Reject)) with
  | Some s => message_count "t" (inner s) = 2
  | None => False
  end.
Proof. vm_compute. done. Qed.
