(* ===== verification/DeadLetters.v ===== *)
(** Redelivery of dead letters: [packages/sz-orm-queue/src/dlx.rs]: the back-off policies and
    [RedeliveryScheduler] over the queue of [Queue.v]. *)

From Stdlib Require Import SpecFloat.
From S2P Require Import Prelude Dialect Value Queue.
Local Open Scope string_scope.
Local Open Scope Z_scope.
Local Open Scope eff_scope.

(** * Back-off *)

Inductive BackoffPolicy : Type := Fixed | Exponential | Linear | RandomJitter.

(** [random_jitter_factor] over its thread-local seed. *)
Definition jitter_seed : Z := 12345.

Definition random_jitter_factor (seed : Z) : spec_float * Z :=
  let seed := wrap64 (wrap64 (seed * 6364136223846793005) + 1442695040888963407) in
  let normalized := SFdiv 53 1024 (int_to_f64 (Z.shiftr seed 11)) (int_to_f64 (Z.shiftl 1 53)) in
  (SFadd 53 1024 (SFdiv 53 1024 (int_to_f64 1) (int_to_f64 2)) normalized, seed).

(** The delay in milliseconds and the next seed. *)
Definition calculate (policy : BackoffPolicy) (retry_count initial_ms max_ms seed : Z) : Z * Z :=
  match policy with
  | Fixed => (initial_ms, seed)
  | Exponential =>
      if retry_count =? 0 then (initial_ms, seed)
      else if 64 <=? retry_count then (max_ms, seed)
      else (Z.min (wrap64 (Z.shiftl initial_ms (Z.min retry_count 63))) max_ms, seed)
  | Linear => (Z.min (Z.min (initial_ms * Z.max retry_count 1) u64_max) max_ms, seed)
  | RandomJitter =>
      let '(factor, seed) := random_jitter_factor seed in
      (Z.min (float_to_int 0 u64_max (SFmul 53 1024 (int_to_f64 initial_ms) factor)) max_ms, seed)
  end.

(** The delay of each policy where nothing overflows; every policy but [Fixed] keeps to the
    maximum once it retries. *)
Lemma backoff_spec retry initial max seed :
  0 <= retry <= u32_max -> 0 <= initial <= u64_max -> 0 <= max <= u64_max ->
  fst (calculate Fixed retry initial max seed) = initial
  /\ (0 < retry < 64 -> initial * 2 ^ retry <= u64_max ->
        fst (calculate Exponential retry initial max seed) = Z.min (initial * 2 ^ retry) max)
  /\ (64 <= retry -> fst (calculate Exponential retry initial max seed) = max)
  /\ fst (calculate Linear retry initial max seed) = Z.min (initial * Z.max retry 1) max
  /\ (forall policy, policy <> Fixed -> (policy = Exponential -> 0 < retry) -> fst (calculate policy retry initial max seed) <= max).
Proof.
  intros Hr Hi Hm. unfold calculate, u64_max, u32_max in *. split; [done|]. split; [|split; [|split]].
  - intros Hlt Hov. destruct (Z.eqb_spec retry 0); [lia|]. destruct (Z.leb_spec 64 retry); [lia|]. cbn [fst].
    assert (0 <= initial * 2 ^ retry) by (apply Z.mul_nonneg_nonneg; lia).
    rewrite (Z.min_l retry 63), Z.shiftl_mul_pow2, wrap64_small by lia. done.
  - intros Hge. destruct (Z.eqb_spec retry 0); [lia|]. by destruct (Z.leb_spec 64 retry); [|lia].
  - cbn [fst]. lia.
  - intros [] Hp He; try done; cbn [fst].
    + specialize (He eq_refl). destruct (Z.eqb_spec retry 0); [lia|]. destruct (Z.leb_spec 64 retry); cbn [fst]; lia.
    + lia.
    + destruct (random_jitter_factor seed). cbn [fst]. lia.
Qed.

(** [checked_shl] checks the distance alone: the bits shifted out are lost, and a delay that
    should be at its maximum is none at all. *)
Lemma exponential_backoff_wraps seed : calculate Exponential 61 1000 60000 seed = (0, seed).
Proof. reflexivity. Qed.

(** * The scheduler *)

Inductive DlxRoutingStrategy : Type := RequeueToOriginal | ForwardToDlxTopic | ForwardToDlxQueue | DropLetter.

Record DlxConfig : Type := mkDlxConfig {
  enabled : bool;
  backoff_policy : BackoffPolicy;
  initial_backoff_ms : Z;
  max_backoff_ms : Z;
  max_redelivery_count : Z;
  routing_strategy : DlxRoutingStrategy;
  dlx_topic : option string;
  dlx_queue : option string;
}.

Definition dlx_config_new : DlxConfig := mkDlxConfig false Exponential 1000 60000 10 RequeueToOriginal None None.
Definition with_backoff_policy (policy : BackoffPolicy) (c : DlxConfig) : DlxConfig :=
  mkDlxConfig (enabled c) policy (initial_backoff_ms c) (max_backoff_ms c) (max_redelivery_count c) (routing_strategy c) (dlx_topic c) (dlx_queue c).
Definition with_initial_backoff_ms (ms : Z) (c : DlxConfig) : DlxConfig :=
  mkDlxConfig (enabled c) (backoff_policy c) ms (max_backoff_ms c) (max_redelivery_count c) (routing_strategy c) (dlx_topic c) (dlx_queue c).
Definition with_max_backoff_ms (ms : Z) (c : DlxConfig) : DlxConfig :=
  mkDlxConfig (enabled c) (backoff_policy c) (initial_backoff_ms c) ms (max_redelivery_count c) (routing_strategy c) (dlx_topic c) (dlx_queue c).
Definition with_max_redelivery_count (count : Z) (c : DlxConfig) : DlxConfig :=
  mkDlxConfig (enabled c) (backoff_policy c) (initial_backoff_ms c) (max_backoff_ms c) count (routing_strategy c) (dlx_topic c) (dlx_queue c).
Definition with_routing_strategy (strategy : DlxRoutingStrategy) (c : DlxConfig) : DlxConfig :=
  mkDlxConfig (enabled c) (backoff_policy c) (initial_backoff_ms c) (max_backoff_ms c) (max_redelivery_count c) strategy (dlx_topic c) (dlx_queue c).
Definition with_dlx_topic (topic : string) (c : DlxConfig) : DlxConfig :=
  mkDlxConfig (enabled c) (backoff_policy c) (initial_backoff_ms c) (max_backoff_ms c) (max_redelivery_count c) (routing_strategy c) (Some topic) (dlx_queue c).
Definition with_dlx_queue (queue : string) (c : DlxConfig) : DlxConfig :=
  mkDlxConfig (enabled c) (backoff_policy c) (initial_backoff_ms c) (max_backoff_ms c) (max_redelivery_count c) (routing_strategy c) (dlx_topic c) (Some queue).
Definition dlx_enabled (c : DlxConfig) : DlxConfig :=
  mkDlxConfig true (backoff_policy c) (initial_backoff_ms c) (max_backoff_ms c) (max_redelivery_count c) (routing_strategy c) (dlx_topic c) (dlx_queue c).

Record DlxEntry : Type := mkEntry {
  message : Message; redelivery_count : Z; last_redelivery_at : Z; next_redelivery_at : Z }.

Definition entry_of (now : Z) (m : Message) : DlxEntry := mkEntry m 0 0 now.
Definition should_redeliver (max_count : Z) (e : DlxEntry) : bool := redelivery_count e <? max_count.
Definition record_redelivery (now : Z) (e : DlxEntry) : DlxEntry :=
  mkEntry (message e) (Z.min (redelivery_count e + 1) u32_max) now (next_redelivery_at e).
Definition schedule_next (now backoff_ms : Z) (e : DlxEntry) : DlxEntry :=
  mkEntry (message e) (redelivery_count e) (last_redelivery_at e) (Z.min (now + backoff_ms) u64_max).

Inductive RedeliveryOutcome : Type :=
| Requeued
| ForwardedToDlxTopic
| ForwardedToDlxQueue
| DroppedLetter
| LimitReached
| Skipped (reason : string).

Record RedeliveryLog : Type := mkLog {
  log_message_id : string; log_count : Z; log_backoff_ms : Z; log_strategy : DlxRoutingStrategy;
  log_outcome : RedeliveryOutcome; log_timestamp : Z }.

Section Scheduler.
Context {N : Type} `{Notify N}.
Context {V : Type} `{Clock V}.

(** What the scheduler shares: the queue, its flag and its logs; the seed is of the thread. *)
Record Shared : Type := mkShared {
  letters_queue : Inner N; running : bool; logs : list RedeliveryLog; seed : Z; outside : V }.

Definition set_letters_queue (q : Inner N) (s : Shared) : Shared := mkShared q (running s) (logs s) (seed s) (outside s).
Definition set_running (b : bool) (s : Shared) : Shared := mkShared (letters_queue s) b (logs s) (seed s) (outside s).
Definition set_logs (l : list RedeliveryLog) (s : Shared) : Shared := mkShared (letters_queue s) (running s) l (seed s) (outside s).
Definition set_seed (n : Z) (s : Shared) : Shared := mkShared (letters_queue s) (running s) (logs s) n (outside s).
Definition set_outside (v : V) (s : Shared) : Shared := mkShared (letters_queue s) (running s) (logs s) (seed s) v.

Variable config : DlxConfig.
(** [tokio::time::sleep] in milliseconds, and whatever other tasks do meanwhile. *)
Variable sleep : Z -> Eff Shared unit.

Definition now_ms : Eff Shared Z := fun s =>
  let '(ms, v) := system_millis (outside s) in (wrap64 ms, set_outside v s).

Definition on_queue {A} (f : Inner N -> A * Inner N) : Eff Shared A := fun s =>
  let '(a, q) := f (letters_queue s) in (a, set_letters_queue q s).

Definition scheduler_new (q : Inner N) (v : V) : Shared := mkShared q false [] jitter_seed v.

Definition start : Eff Shared (result unit MqError) := fun s => (Ok tt, set_running true s).
Definition stop : Eff Shared unit := fun s => (tt, set_running false s).

Definition calculate_backoff (retry_count : Z) : Eff Shared Z := fun s =>
  let '(ms, n) := calculate (backoff_policy config) retry_count (initial_backoff_ms config) (max_backoff_ms config) (seed s) in
  (ms, set_seed n s).

Fixpoint entries_of (ms : list Message) : Eff Shared (list DlxEntry) :=
  match ms with
  | [] => eret []
  | m :: ms => let* now := now_ms in let* es := entries_of ms in eret (entry_of now m :: es)
  end.

Definition collect_dead_letters : Eff Shared (list DlxEntry) := fun s =>
  entries_of (collect_all_dead_letters (letters_queue s)) s.

Definition remove_from_dead_letters (id : string) : Eff Shared unit :=
  let* _ := on_queue (remove_dead_letter id) in eret tt.

(** Forwarding publishes the payload and removes the letter; [None] waits for a full topic. *)
Definition forward (target : option string) (missing : string) (outcome : RedeliveryOutcome) (m : Message) :
    Pan Shared (result RedeliveryOutcome MqError) :=
  match target with
  | None => pret (Err (NotSupported missing))
  | Some topic =>
      let* now := now_ms in
      let! r := on_queue (publish now topic (payload m)) in
      match r with
      | Err e => pret (Err e)
      | Ok _ => let* _ := remove_from_dead_letters (msg_id m) in pret (Ok outcome)
      end
  end.

Definition execute_routing (m : Message) : Pan Shared (result RedeliveryOutcome MqError) :=
  match routing_strategy config with
  | RequeueToOriginal =>
      let* r := on_queue (requeue_dead_letter (msg_id m)) in
      pret (match r with Ok _ => Ok Requeued | Err e => Err e end)
  | ForwardToDlxTopic => forward (dlx_topic config) "dlx_topic required but not configured" ForwardedToDlxTopic m
  | ForwardToDlxQueue => forward (dlx_queue config) "dlx_queue required but not configured" ForwardedToDlxQueue m
  | DropLetter => let* _ := remove_from_dead_letters (msg_id m) in pret (Ok DroppedLetter)
  end.

Definition log_redelivery (m : Message) (count backoff_ms : Z) (outcome : RedeliveryOutcome) : Eff Shared unit :=
  let* now := now_ms in
  fun s =>
    let l := (logs s ++ [mkLog (msg_id m) count backoff_ms (routing_strategy config) outcome now])%list in
    (tt, set_logs (if 10000 <? Z.of_nat (length l) then tail l else l) s).

Definition schedule_redelivery (e : DlxEntry) : Pan Shared (result RedeliveryOutcome MqError * DlxEntry) :=
  if should_redeliver (max_redelivery_count config) e then
    let* backoff := calculate_backoff (redelivery_count e) in
    let* _ := sleep backoff in
    let! r := execute_routing (message e) in
    match r with
    | Err err => pret (Err err, e)
    | Ok outcome =>
        let* now := now_ms in
        let e := record_redelivery now e in
        let* next_backoff := calculate_backoff (redelivery_count e) in
        let* now := now_ms in
        let e := schedule_next now next_backoff e in
        let* _ := log_redelivery (message e) (redelivery_count e) backoff outcome in
        pret (Ok outcome, e)
    end
  else pret (Ok LimitReached, e).

Fixpoint deliver_each (entries : list DlxEntry) (processed : Z) : Pan Shared Z :=
  match entries with
  | [] => pret processed
  | e :: entries => fun s =>
      if running s then
        (let! p := schedule_redelivery e in
         deliver_each entries (match fst p with Ok _ => processed + 1 | Err _ => processed end)) s
      else pret processed s
  end.

Definition run_once : Pan Shared (result Z MqError) := fun s =>
  if running s then
    (let* entries := collect_dead_letters in
     match entries with
     | [] => pret (Ok 0)
     | _ => let! processed := deliver_each entries 0 in pret (Ok processed)
     end) s
  else pret (Ok 0) s.

(** [run_loop] for a number of turns: it goes on while the flag stands. *)
Fixpoint run_loop (turns : nat) (interval : Z) : Pan Shared unit := fun s =>
  match turns with
  | O => (None, s)
  | S turns =>
      if running s then
        (let! _ := run_once in let* _ := sleep interval in run_loop turns interval) s
      else pret tt s
  end.

End Scheduler.

(** * Requeueing everything *)

Lemma NoDup_fmap_inj {A B} (f : A -> B) (l : list A) a b :
  NoDup (f <$> l) -> a ∈ l -> b ∈ l -> f a = f b -> a = b.
Proof.
  intros Hn [i Ha]%list_elem_of_lookup [j Hb]%list_elem_of_lookup Hf.
  assert (i = j) as ->; [|congruence]. apply (NoDup_lookup (f <$> l) i j (f a)); [done|..];
    rewrite list_lookup_fmap; [by rewrite Ha|by rewrite Hb, Hf].
Qed.

Lemma filter_Forall {A} (P : A -> Prop) `{forall a, Decision (P a)} (l : list A) : Forall P l -> filter P l = l.
Proof. induction 1 as [|a l Ha _ IH]; [done|]. by rewrite filter_cons_True, IH. Qed.

Lemma filter_Forall_not {A} (P : A -> Prop) `{forall a, Decision (P a)} (l : list A) :
  Forall (fun a => ~ P a) l -> filter P l = [].
Proof. induction 1 as [|a l Ha _ IH]; [done|]. by rewrite filter_cons_False. Qed.

(** The letters of a topic among those of all topics. *)
Lemma filter_flat topic (l : list (string * list Message)) :
  NoDup l.*1 -> Forall (fun p => Forall (fun m => msg_topic m = p.1) p.2) l ->
  filter (fun m => msg_topic m = topic) (concat l.*2) = default [] ((list_to_map l : gmap _ _) !! topic).
Proof.
  induction l as [|[t ms] l IH]; [done|]. intros [Ht Hn]%NoDup_cons [Hms Hl]%Forall_cons. cbn in Ht, Hms |- *.
  rewrite filter_app, IH by done. destruct (decide (topic = t)) as [->|Hne].
  - rewrite lookup_insert_eq, not_elem_of_list_to_map_1 by done. cbn. rewrite app_nil_r.
    by apply filter_Forall.
  - rewrite lookup_insert_ne by done. rewrite filter_Forall_not; [done|].
    eapply Forall_impl; [exact Hms|]. cbn. congruence.
Qed.

Section Redelivery.
Context {N : Type} `{Notify N}.
Context {V : Type} `{Clock V}.
Implicit Types q : Inner N.

Lemma letters_of_topic lost q topic : wf lost q ->
  filter (fun m => msg_topic m = topic) (collect_all_dead_letters q) = messages_of topic (dead_letters q).
Proof.
  intros Hw. unfold collect_all_dead_letters. rewrite filter_flat.
  - by rewrite list_to_map_to_list.
  - apply NoDup_fst_map_to_list.
  - apply Forall_forall. intros [t l] Hin%elem_of_map_to_list. apply (wf_dead _ _ Hw _ _ Hin).
Qed.

(** The first letter of a topic is found at its place. *)
Lemma requeue_head lost q topic m dq : wf lost q -> dead_letters q !! topic = Some (m :: dq) ->
  requeue_dead_letter (msg_id m) q =
    (Ok tt, set_queues (push_back topic (with_retries 0 m) (queues q))
              (set_dead_letters (<[topic := dq]> (dead_letters q)) q)).
Proof.
  intros Hw Hd. assert (Hm : m ∈ flat (dead_letters q)).
  { rewrite (flat_split topic). unfold messages_of. rewrite Hd. by left. }
  assert (Hn : NoDup (msg_id <$> flat (dead_letters q))).
  { pose proof (wf_ids _ _ Hw) as Hp. assert (Hall : NoDup ((msg_id <$> all_messages q) ++ lost)%list) by (rewrite Hp; apply issued_NoDup).
    apply NoDup_app in Hall as [Hall _]. unfold all_messages in Hall. rewrite !fmap_app in Hall.
    apply NoDup_app in Hall as (_ & _ & Hall). by apply NoDup_app in Hall as (_ & _ & Hall). }
  unfold requeue_dead_letter. destruct (find_letter _ _) as [[[[t pos] m'] dq']|] eqn:Hf.
  2:{ apply find_letter_None in Hf. destruct Hf. by apply list_elem_of_fmap_2. }
  destruct (letter_found _ _ _ _ _ _ _ Hw Hf) as (Hid & Ht & _ & _).
  apply find_letter_Some in Hf as (Hin & Hpos & _). apply elem_of_map_to_list in Hin.
  assert (m' = m) as ->.
  { apply (NoDup_fmap_inj msg_id (flat (dead_letters q))); [done| |done|done]. rewrite (flat_split t).
    apply elem_of_app. left. unfold messages_of. rewrite Hin. by eapply list_elem_of_lookup_2. }
  assert (msg_topic m = topic) as Htopic by (pose proof (wf_dead _ _ Hw _ _ Hd) as Hx; by apply Forall_cons in Hx as [Hx _]).
  assert (t = topic) as -> by congruence. assert (dq' = m :: dq) as -> by congruence.
  assert (pos = 0%nat) as ->.
  { apply (NoDup_lookup (msg_id <$> m :: dq) _ _ (msg_id m)); [|by rewrite list_lookup_fmap, Hpos|done].
    rewrite (flat_split topic) in Hn. unfold messages_of in Hn. rewrite Hd, fmap_app in Hn. by apply NoDup_app in Hn as [Hn _]. }
  cbn. by rewrite Htopic.
Qed.

Variable config : DlxConfig.
Variable sleep : Z -> Eff (Shared (N := N) (V := V)) unit.

(** No other task touches the queue or the flag while the scheduler sleeps. *)
Definition undisturbed : Prop :=
  forall d s, letters_queue (snd (sleep d s)) = letters_queue s /\ running (snd (sleep d s)) = running s.

Lemma schedule_requeues e s lost topic m dq :
  undisturbed -> routing_strategy config = RequeueToOriginal -> should_redeliver (max_redelivery_count config) e = true ->
  message e = m -> wf lost (letters_queue s) -> dead_letters (letters_queue s) !! topic = Some (m :: dq) ->
  exists e' s', schedule_redelivery config sleep e s = (Some (Ok Requeued, e'), s') /\ running s' = running s
    /\ letters_queue s' = set_queues (push_back topic (with_retries 0 m) (queues (letters_queue s)))
         (set_dead_letters (<[topic := dq]> (dead_letters (letters_queue s))) (letters_queue s)).
Proof.
  intros Hq Hr He <- Hw Hd. unfold schedule_redelivery. rewrite He. unfold ebind at 1, calculate_backoff at 1.
  destruct (calculate _ _ _ _ _) as [backoff n]. unfold ebind at 1. destruct (sleep backoff _) as [[] s1] eqn:Hs.
  pose proof (Hq backoff (set_seed n s)) as [Hq1 Hr1]. rewrite Hs in Hq1, Hr1. cbn in Hq1, Hr1.
  unfold execute_routing. rewrite Hr. unfold pbind, ebind, on_queue, pret, eret.
  rewrite Hq1, (requeue_head lost _ topic _ dq) by done. cbn.
  unfold log_redelivery, now_ms, calculate_backoff, ebind. cbn.
  repeat (destruct (system_millis _) as [? ?]; cbn). destruct (calculate _ _ _ _ _) as [? ?]. cbn.
  repeat (destruct (system_millis _) as [? ?]; cbn). by eexists _, _.
Qed.

Definition requeued (ms : list Message) (topic : string) : list Message :=
  with_retries 0 <$> filter (fun m => msg_topic m = topic) ms.

(** What is left of the letters [ms] that are still to go. *)
Lemma deliver_each_requeues es s lost processed :
  undisturbed -> routing_strategy config = RequeueToOriginal ->
  Forall (fun e => should_redeliver (max_redelivery_count config) e = true) es ->
  running s = true -> wf lost (letters_queue s) ->
  (forall topic, messages_of topic (dead_letters (letters_queue s)) = filter (fun m => msg_topic m = topic) (message <$> es)) ->
  exists s', deliver_each config sleep es processed s = (Some (processed + Z.of_nat (length es)), s')
    /\ in_flight (letters_queue s') = in_flight (letters_queue s)
    /\ forall topic, messages_of topic (dead_letters (letters_queue s')) = []
       /\ messages_of topic (queues (letters_queue s')) =
            (messages_of topic (queues (letters_queue s)) ++ requeued (message <$> es) topic)%list.
Proof.
  intros Hq Hr. revert s processed. induction es as [|e es IH]; intros s processed He Hrun Hw Hd.
  { exists s. cbn. rewrite Z.add_0_r. split; [done|]. split; [done|]. intros topic. by rewrite Hd, app_nil_r. }
  apply Forall_cons in He as [He Hes]. set (m := message e). set (topic := msg_topic m).
  set (dq := filter (fun m => msg_topic m = topic) (message <$> es)).
  assert (Hm : dead_letters (letters_queue s) !! topic = Some (m :: dq)).
  { specialize (Hd topic). rewrite fmap_cons, filter_cons_True in Hd by done. unfold messages_of in Hd.
    destruct (dead_letters (letters_queue s) !! topic); cbn in Hd; [by rewrite Hd|done]. }
  destruct (schedule_requeues e s lost topic m dq Hq Hr He eq_refl Hw Hm) as (e' & s1 & Hs1 & Hrun1 & Hq1).
  pose proof (requeue_dead_letter_wf lost (msg_id m) _ Hw) as Hw1. rewrite (requeue_head lost _ topic m dq Hw Hm) in Hw1.
  cbn [snd] in Hw1. rewrite <- Hq1 in Hw1.
  assert (Hd1 : forall t, messages_of t (dead_letters (letters_queue s1)) = filter (fun m => msg_topic m = t) (message <$> es)).
  { intros t. rewrite Hq1. cbn. unfold messages_of. destruct (decide (t = topic)) as [->|Hne].
    - by rewrite lookup_insert_eq.
    - rewrite lookup_insert_ne by done. specialize (Hd t). rewrite fmap_cons, filter_cons_False in Hd by (by intros <-).
      exact Hd. }
  rewrite <- Hrun1 in Hrun.
  destruct (IH s1 (processed + 1) Hes Hrun Hw1 Hd1) as (s' & Hs' & Hfl & Htop). exists s'.
  cbn [deliver_each]. rewrite <- Hrun1, Hrun. unfold pbind, ebind. rewrite Hs1. cbn [fst]. rewrite Hs'.
  split; [cbn [length]; do 2 f_equal; lia|]. split; [by rewrite Hfl, Hq1|].
  intros t. destruct (Htop t) as [Ht1 Ht2]. split; [done|]. rewrite Ht2, Hq1, fmap_cons. cbn [queues set_queues set_dead_letters]. unfold requeued, push_back, messages_of.
  destruct (decide (t = topic)) as [->|Hne].
  - rewrite lookup_insert_eq, filter_cons_True by done. cbn. by rewrite <- (assoc_L (++)).
  - rewrite lookup_insert_ne, filter_cons_False by (done || by intros <-). done.
Qed.

(** The entries made of the letters, none of them redelivered yet. *)
Lemma entries_of_spec ms (s : Shared (N := N) (V := V)) : exists es s', entries_of ms s = (es, s') /\ message <$> es = ms
  /\ Forall (fun e => redelivery_count e = 0) es /\ letters_queue s' = letters_queue s /\ running s' = running s /\ logs s' = logs s.
Proof.
  revert s. induction ms as [|m ms IH]; intros s; [by exists [], s|]. cbn. unfold ebind, now_ms.
  destruct (system_millis (outside s)) as [t v]. destruct (IH (set_outside v s)) as (es & s' & -> & <- & Hes & Hx).
  eexists _, s'. split; [done|]. split; [done|]. split; [|done]. by constructor.
Qed.

(** One turn of a running scheduler, undisturbed: every dead letter goes back to the end of the
    queue of its topic, in the order of the dead letters, with no retries counted. *)
Lemma run_once_requeues s lost :
  undisturbed -> routing_strategy config = RequeueToOriginal -> 0 < max_redelivery_count config ->
  running s = true -> wf lost (letters_queue s) ->
  exists s', run_once config sleep s = (Some (Ok (Z.of_nat (length (collect_all_dead_letters (letters_queue s))))), s')
    /\ in_flight (letters_queue s') = in_flight (letters_queue s)
    /\ forall topic, messages_of topic (dead_letters (letters_queue s')) = []
       /\ messages_of topic (queues (letters_queue s')) =
            (messages_of topic (queues (letters_queue s))
             ++ (with_retries 0 <$> messages_of topic (dead_letters (letters_queue s))))%list.
Proof.
  intros Hq Hr Hmax Hrun Hw. unfold run_once, collect_dead_letters. rewrite Hrun. unfold ebind at 1.
  destruct (entries_of_spec (collect_all_dead_letters (letters_queue s)) s) as (es & s1 & -> & Hes & Hz & Hq1 & Hrun1 & _).
  pose proof (fun t => letters_of_topic lost (letters_queue s) t Hw) as Hlet. rewrite <- Hes in *. rewrite length_fmap.
  destruct (deliver_each_requeues es s1 lost 0 Hq Hr) as (s' & Hs' & Hfl & Htop).
  - eapply Forall_impl; [exact Hz|]. intros e He. unfold should_redeliver. rewrite He. by apply Z.ltb_lt.
  - by rewrite Hrun1.
  - by rewrite Hq1.
  - intros t. by rewrite Hq1, Hlet.
  - exists s'. split; [|split; [by rewrite Hfl, Hq1|]].
    + destruct es; [by injection Hs' as <-|]. unfold pbind, ebind. by rewrite Hs'.
    + intros t. destruct (Htop t) as [H1 H2]. split; [done|]. by rewrite H2, Hq1, <- Hlet.
Qed.

(** Every turn makes new entries, so that the count of a message never gets past the first
    redelivery and the limit is reached by none: [schedule_redelivery] is called with the count
    0 alone and logs the count 1, in every turn. *)
Definition counted_one (s : Shared (N := N) (V := V)) : Prop := Forall (fun l => log_count l = 1) (logs s).

Lemma log_counted_one m backoff outcome s : counted_one s ->
  counted_one (snd (log_redelivery config m 1 backoff outcome s)).
Proof.
  intros Hl. unfold log_redelivery, ebind, now_ms, counted_one. destruct (system_millis _). cbn.
  assert (Hn : forall l, Forall (fun l => log_count l = 1) (logs s ++ [l])%list \/ log_count l <> 1).
  { intros l. destruct (decide (log_count l = 1)); [left|by right]. apply Forall_app. by split; [|constructor]. }
  case_match; [apply Forall_tail|]; by edestruct Hn.
Qed.

Lemma routing_keeps_logs m s : logs (snd (execute_routing config m s)) = logs s.
Proof.
  assert (Hf : forall target missing outcome s, logs (snd (forward target missing outcome m s)) = logs s).
  { intros [topic|] missing outcome s'; [|done]. unfold forward, ebind, now_ms, pbind, ebind, on_queue, remove_from_dead_letters.
    destruct (system_millis _). destruct (publish _ _ _ _) as [[[]|] ?]; [|done..]. unfold ebind, on_queue.
    by destruct (remove_dead_letter _ _). }
  unfold execute_routing. destruct (routing_strategy config); try apply Hf; unfold remove_from_dead_letters, ebind, on_queue.
  - by destruct (requeue_dead_letter _ _).
  - by destruct (remove_dead_letter _ _).
Qed.

Hypothesis others_count_one : forall d s, counted_one s -> counted_one (snd (sleep d s)).

Lemma schedule_counted_one e s : redelivery_count e = 0 -> counted_one s ->
  counted_one (snd (schedule_redelivery config sleep e s)).
Proof.
  intros He Hs. unfold schedule_redelivery. case_match; [|done]. unfold ebind at 1, calculate_backoff at 1.
  destruct (calculate _ _ _ _ _) as [backoff n]. unfold ebind at 1.
  pose proof (others_count_one backoff (set_seed n s) Hs) as Hlog1. destruct (sleep backoff _) as [[] s1]. cbn in Hlog1.
  unfold pbind, ebind at 1. pose proof (routing_keeps_logs (message e) s1) as Hlog2.
  destruct (execute_routing config (message e) s1) as [[[outcome|]|] s2]; cbn in Hlog2; unfold counted_one in *;
    [|by cbn; rewrite Hlog2..].
  unfold ebind, now_ms at 1. destruct (system_millis _) as [t1 v1]. unfold calculate_backoff. cbn [seed set_outside].
  destruct (calculate _ _ _ _ _) as [b2 n2]. unfold now_ms at 1. destruct (system_millis _) as [t2 v2].
  assert (Hcount : redelivery_count (schedule_next (wrap64 t2) b2 (record_redelivery (wrap64 t1) e)) = 1) by (cbn; by rewrite He).
  cbn zeta. rewrite Hcount.
  match goal with |- context [log_redelivery config ?m 1 backoff outcome ?s] =>
    pose proof (log_counted_one m backoff outcome s) as Hlog3; destruct (log_redelivery config m 1 backoff outcome s) as [[] s3] end.
  cbn. apply Hlog3. unfold counted_one. cbn. by rewrite Hlog2.
Qed.

Lemma redeliveries_counted_one s : counted_one s -> counted_one (snd (run_once config sleep s)).
Proof.
  intros Hs. unfold run_once. case_match; [|done]. unfold ebind at 1, collect_dead_letters.
  destruct (entries_of_spec (collect_all_dead_letters (letters_queue s)) s) as (es & s1 & -> & _ & Hz & _ & _ & Hl).
  assert (Hs1 : counted_one s1) by (unfold counted_one; by rewrite Hl).
  assert (Hd : forall es, Forall (fun e => redelivery_count e = 0) es -> forall processed s, counted_one s ->
    counted_one (snd (deliver_each config sleep es processed s))).
  { clear es s1 Hz Hl Hs1. induction es as [|e es IH]; [done|]. intros [He Hes]%Forall_cons processed s2 Hs2. cbn.
    case_match; [|done]. unfold pbind, ebind. pose proof (schedule_counted_one e s2 He Hs2) as Hx.
    destruct (schedule_redelivery config sleep e s2) as [[p|] s3]; [|done]. by apply IH. }
  destruct es as [|e es]; [done|]. unfold pbind, ebind. specialize (Hd _ Hz 0 s1 Hs1).
  by destruct (deliver_each config sleep (e :: es) 0 s1) as [[p|] s3].
Qed.
End Redelivery.

(** ** Two ways to lose or never lose a message *)

(** Forwarding to a topic that is full under [DropNewest] succeeds, and the letter is gone. *)
Lemma forward_loses_the_letter {N} `{Notify N} {V} `{Clock V} (config : DlxConfig) (m : Message) topic
    (s : Shared (N := N) (V := V)) :
  routing_strategy config = ForwardToDlxTopic -> dlx_topic config = Some topic ->
  strategy_of (letters_queue s) = DropNewest ->
  max_messages_per_topic (letters_queue s) <= message_count topic (letters_queue s) ->
  fst (execute_routing config m s) = Some (Ok ForwardedToDlxTopic)
  /\ letters_queue (snd (execute_routing config m s)) = snd (remove_dead_letter (msg_id m) (letters_queue s)).
Proof.
  intros Hr Ht Hs Hm. unfold execute_routing. rewrite Hr, Ht. unfold forward, ebind, now_ms, pbind, ebind, on_queue.
  destruct (system_millis _). cbn [letters_queue set_outside]. rewrite drop_newest_answers_ok by done.
  unfold remove_from_dead_letters, ebind, on_queue. cbn. by destruct (remove_dead_letter _ _).
Qed.

(** A message whose consumer always hands it back, one retry allowed, no more than three
    redeliveries: after any number of rounds it is redelivered once more. *)
Definition poison_config : DlxConfig := with_max_redelivery_count 3 (with_backoff_policy Fixed dlx_config_new).

Definition no_sleep (d : Z) : Eff (Shared (N := SimNotify) (V := SimWorld)) unit := eret tt.

Definition poison_round (s : Shared) : option Z * Shared :=
  let q := snd (nack "msg-1" (snd (consume "jobs" (letters_queue s)))) in
  match run_once poison_config no_sleep (set_letters_queue q s) with
  | (Some (Ok processed), s) => (Some processed, s)
  | (_, s) => (None, s)
  end.

Definition poison_queue : Inner SimNotify :=
  mkInner {[ "jobs" := [mkMessage "jobs" "boom" None 0 ∅ "msg-1" 0] ]} ∅ ∅ 2 10 {[ "jobs" := [] ]} 1 None ∅.

Lemma poison_message_loops rounds (s : Shared) :
  letters_queue s = poison_queue -> running s = true ->
  let s' := Nat.iter rounds (fun s => snd (poison_round s)) s in
  letters_queue s' = poison_queue /\ running s' = true /\ fst (poison_round s') = Some 1.
Proof.
  intros Hq Hrun. cbn zeta. assert (Hstep : forall s, letters_queue s = poison_queue -> running s = true ->
    letters_queue (snd (poison_round s)) = poison_queue /\ running (snd (poison_round s)) = true /\ fst (poison_round s) = Some 1).
  { clear. intros [q b l n w] Hq Hrun. cbn in Hq, Hrun. subst q b. vm_compute. by repeat split. }
  assert (Hall : letters_queue (Nat.iter rounds (fun s => snd (poison_round s)) s) = poison_queue
    /\ running (Nat.iter rounds (fun s => snd (poison_round s)) s) = true).
  { induction rounds as [|k IH]; [done|]. destruct IH as [H1 H2]. by destruct (Hstep _ H1 H2) as (H3 & H4 & _). }
  destruct Hall as [H1 H2]. split; [done|]. split; [done|]. by apply Hstep.
Qed.
