(* ===== verification/DelayQueue.v ===== *)
(** Delayed and prioritised messages: [packages/sz-orm-queue/src/delayed_priority.rs]:
    [PriorityQueue] and [DelayScheduler] over any [MessageQueue]. *)

From Stdlib Require Import SpecFloat.
From S2P Require Import Prelude SqlText Dialect Value Queue DeadLetters.
Local Open Scope string_scope.
Local Open Scope Z_scope.
Local Open Scope eff_scope.

(** * Times *)

Definition wrap_i32 (z : Z) : Z := (z + 2 ^ 31) mod 2 ^ 32 - 2 ^ 31.
Definition wrap_i64 (z : Z) : Z := (z + 2 ^ 63) mod 2 ^ 64 - 2 ^ 63.

(** [str::split_whitespace]; [word] is read backwards. *)
Fixpoint split_whitespace (fuel : nat) (word s : string) : list string :=
  let flush (ws : list string) := if String.eqb word "" then ws else rev_string word :: ws in
  match fuel, s with
  | S fuel, String c rest =>
      match list_find (fun p => String.prefix p s = true) whitespace with
      | Some (_, p) => flush (split_whitespace fuel "" (String.substring (String.length p) (String.length s) s))
      | None => split_whitespace fuel (String c word) rest
      end
  | _, _ => flush []
  end.

Definition fields (expr : string) : list string := split_whitespace (String.length expr) "" expr.

(** No field of [split_whitespace] is empty, so that the number of fields decides. *)
Definition validate_cron (expr : string) : result unit MqError :=
  if (length (fields expr) =? 5)%nat then Ok tt
  else Err (NotSupported ("invalid cron expression: expected 5 fields, got " +:+ pretty (length (fields expr)) +:+ ": " +:+ expr)).

(** The hour, the day, the month and the day of the week are parsed and forgotten. *)
Definition cron_next_ms (expr : string) (from_ms : Z) : Z :=
  match fields expr with
  | [minute; _; _; _; _] =>
      let minute := default 0 (parse_int true i64_min i64_max minute) in
      let secs_to_next := Z.max i64_min (Z.min i64_max (wrap_i64 (minute * 60) - Z.rem (Z.quot from_ms 1000) 3600)) in
      wrap_i64 (from_ms + wrap_i64 (Z.max secs_to_next 1 * 1000))
  | _ => wrap_i64 (from_ms + 60000)
  end.

Inductive PriorityPolicy : Type := Strict | Weighted | FairShare.

Record DelayedMessage : Type := mkDelayed { dm_message : Message; deliver_at : Z; dm_priority : Z }.

(** [interval] in milliseconds, what [as_millis] answers. *)
Record ScheduledMessage : Type := mkScheduled { sm_message : Message; cron : option string; interval : option Z }.

Definition with_cron (m : Message) (expr : string) : ScheduledMessage := mkScheduled m (Some expr) None.
Definition with_interval (m : Message) (ms : Z) : ScheduledMessage := mkScheduled m None (Some ms).

Definition next_deliver_ms (from_ms : Z) (sm : ScheduledMessage) : result Z MqError :=
  match cron sm, interval sm with
  | Some expr, _ => match validate_cron expr with Ok _ => Ok (cron_next_ms expr from_ms) | Err e => Err e end
  | None, Some ms => Ok (wrap_i64 (from_ms + wrap_i64 ms))
  | None, None => Err (NotSupported "scheduled message has no cron or interval")
  end.

Record ScheduleConfig : Type := mkScheduleConfig {
  schedule_enabled : bool; priority_policy : PriorityPolicy; aging_enabled : bool; aging_threshold_ms : Z;
  queue_capacity : Z; check_interval_ms : Z }.

Definition schedule_config_default : ScheduleConfig := mkScheduleConfig false Strict true 300000 100000 100.
Definition with_priority_policy (policy : PriorityPolicy) (c : ScheduleConfig) : ScheduleConfig :=
  mkScheduleConfig (schedule_enabled c) policy (aging_enabled c) (aging_threshold_ms c) (queue_capacity c) (check_interval_ms c).
Definition with_aging (on : bool) (threshold_ms : Z) (c : ScheduleConfig) : ScheduleConfig :=
  mkScheduleConfig (schedule_enabled c) (priority_policy c) on threshold_ms (queue_capacity c) (check_interval_ms c).
Definition with_queue_capacity (capacity : Z) (c : ScheduleConfig) : ScheduleConfig :=
  mkScheduleConfig (schedule_enabled c) (priority_policy c) (aging_enabled c) (aging_threshold_ms c) capacity (check_interval_ms c).
Definition with_check_interval_ms (ms : Z) (c : ScheduleConfig) : ScheduleConfig :=
  mkScheduleConfig (schedule_enabled c) (priority_policy c) (aging_enabled c) (aging_threshold_ms c) (queue_capacity c) ms.

(** * The priority queue *)

(** [enqueued_at] in nanoseconds. *)
Record PriorityEntry : Type := mkPriorityEntry {
  pe_message : Message; priority : Z; enqueued_at : Z; tenant_id : option string }.

(** What the program relies on of [std::collections::BinaryHeap], whose order among entries of
    one priority is open: [pop] takes an entry of the highest priority, [drain] lists the
    entries in some order. *)
Class BinaryHeap (H : Type) := {
  heap_new : H;
  heap_push : PriorityEntry -> H -> H;
  heap_pop : H -> option PriorityEntry * H;
  heap_drain : H -> list PriorityEntry;
}.

Class BinaryHeapLaws (H : Type) `{BinaryHeap H} := {
  drain_new : heap_drain heap_new = [];
  drain_push e h : heap_drain (heap_push e h) ≡ₚ e :: heap_drain h;
  pop_law h :
    match (heap_pop h).1 with
    | None => heap_drain h = [] /\ heap_drain (heap_pop h).2 = []
    | Some e => heap_drain h ≡ₚ e :: heap_drain (heap_pop h).2 /\ Forall (fun x => priority x <= priority e) (heap_drain h)
    end;
}.

(** [sort_by_key(|b| Reverse(b.priority))] *)
Definition before (a b : PriorityEntry) : Prop := priority b <= priority a.
#[export] Instance before_dec : RelDecision before.
Proof. intros a b. unfold before. apply _. Defined.
#[export] Instance before_trans : Transitive before.
Proof. unfold before. intros a b c. lia. Qed.
#[export] Instance before_total : Total before.
Proof. unfold before. intros a b. lia. Qed.

(** A list as a heap, for the closed instances. *)
Fixpoint take_max (e : PriorityEntry) (l : list PriorityEntry) : PriorityEntry * list PriorityEntry :=
  match l with
  | [] => (e, [])
  | x :: l =>
      if priority e <? priority x then let '(m, rest) := take_max x l in (m, e :: rest)
      else let '(m, rest) := take_max e l in (m, x :: rest)
  end.

#[export] Instance list_heap : BinaryHeap (list PriorityEntry) := {|
  heap_new := [];
  heap_push e h := h ++ [e];
  heap_pop h := match h with [] => (None, []) | e :: l => let '(m, rest) := take_max e l in (Some m, rest) end;
  heap_drain h := h;
|}%list.

Lemma take_max_spec e l : e :: l ≡ₚ (take_max e l).1 :: (take_max e l).2
  /\ Forall (fun x => priority x <= priority (take_max e l).1) (e :: l).
Proof.
  revert e. induction l as [|x l IH]; intros e; cbn; [split; [done|]; by repeat constructor|].
  destruct (Z.ltb_spec (priority e) (priority x)) as [Hlt|Hge].
  - destruct (IH x) as [Hp Hm]. destruct (take_max x l) as [m rest]. cbn in *. split.
    + rewrite Hp. apply Permutation_swap.
    + constructor; [|done]. apply Forall_cons in Hm as [Hm _]. lia.
  - destruct (IH e) as [Hp Hm]. destruct (take_max e l) as [m rest]. cbn in *. split.
    + rewrite (Permutation_swap x e), Hp. apply Permutation_swap.
    + apply Forall_cons in Hm as [Hm Hl]. constructor; [done|]. constructor; [lia|done].
Qed.

#[export] Instance list_heap_laws : BinaryHeapLaws (list PriorityEntry).
Proof.
  split; cbn; [done| |].
  - intros e h. by rewrite <- Permutation_cons_append.
  - intros [|e l]; [done|]. destruct (take_max_spec e l). by destruct (take_max e l).
Defined.

Section PriorityQueue.
Context {H : Type} `{BinaryHeap H}.

Record PriorityQueue : Type := mkPriorityQueue {
  heap : H; policy : PriorityPolicy; capacity : Z; pq_aging : bool; pq_threshold_ms : Z;
  fair_share_state : gmap string Z; total_dequeued : Z }.

Definition priority_queue_new (policy : PriorityPolicy) (capacity : Z) : PriorityQueue :=
  mkPriorityQueue heap_new policy capacity true 300000 ∅ 0.
Definition pq_with_aging (on : bool) (threshold_ms : Z) (q : PriorityQueue) : PriorityQueue :=
  mkPriorityQueue (heap q) (policy q) (capacity q) on threshold_ms (fair_share_state q) (total_dequeued q).

Definition set_heap (h : H) (q : PriorityQueue) : PriorityQueue :=
  mkPriorityQueue h (policy q) (capacity q) (pq_aging q) (pq_threshold_ms q) (fair_share_state q) (total_dequeued q).
Definition set_fair_share (m : gmap string Z) (q : PriorityQueue) : PriorityQueue :=
  mkPriorityQueue (heap q) (policy q) (capacity q) (pq_aging q) (pq_threshold_ms q) m (total_dequeued q).
Definition count_dequeued (q : PriorityQueue) : PriorityQueue :=
  mkPriorityQueue (heap q) (policy q) (capacity q) (pq_aging q) (pq_threshold_ms q) (fair_share_state q)
    (wrap64 (total_dequeued q + 1)).

Definition entries (q : PriorityQueue) : list PriorityEntry := heap_drain (heap q).
Definition pq_len (q : PriorityQueue) : Z := Z.of_nat (length (entries q)).
Definition pq_is_empty (q : PriorityQueue) : bool := is_nil (entries q).

(** [now] is [Instant::now()]. *)
Definition enqueue (now : Z) (m : Message) (prio : Z) (q : PriorityQueue) : result unit MqError * PriorityQueue :=
  if capacity q <=? pq_len q then
    (Err (NotSupported ("priority queue capacity exceeded (" +:+ pretty (capacity q)
            +:+ "), please increase capacity or drain queue")), q)
  else (Ok tt, set_heap (heap_push (mkPriorityEntry m prio now (headers m !! "tenant_id")) (heap q)) q).

Definition push_all (es : list PriorityEntry) (h : H) : H := fold_left (fun h e => heap_push e h) es h.

Definition age (threshold_ms now : Z) (e : PriorityEntry) : PriorityEntry :=
  if threshold_ms * 10 ^ 6 <? Z.max 0 (now - enqueued_at e)
  then mkPriorityEntry (pe_message e) (wrap_i32 (priority e + 1)) (enqueued_at e) (tenant_id e) else e.

Definition aged (now : Z) (q : PriorityQueue) : PriorityQueue :=
  set_heap (push_all (age (pq_threshold_ms q) now <$> entries q) heap_new) q.

Definition pop_highest (q : PriorityQueue) : option Message * PriorityQueue :=
  let '(e, h) := heap_pop (heap q) in
  match e with
  | Some e => (Some (pe_message e), count_dequeued (set_heap h q))
  | None => (None, set_heap h q)
  end.

Definition by_priority (q : PriorityQueue) : list PriorityEntry := merge_sort before (entries q).

(** [all.remove(i)] and the rest back into the heap. *)
Definition take_entry (i : nat) (all : list PriorityEntry) (q : PriorityQueue) : option (PriorityEntry * PriorityQueue) :=
  e ← all !! i; Some (e, set_heap (push_all (delete i all) heap_new) q).

Definition weight (e : PriorityEntry) : Z := Z.max (priority e) 1.

(** The first entry whose cumulative share is past [r]; the first of all when none is. *)
Fixpoint choose_weighted (i : nat) (r cumulative : spec_float) (total_weight : Z) (all : list PriorityEntry) : nat :=
  match all with
  | [] => 0
  | e :: all =>
      let cumulative := SFadd 53 1024 cumulative (SFdiv 53 1024 (int_to_f64 (weight e)) (int_to_f64 total_weight)) in
      if SFltb r cumulative then i else choose_weighted (S i) r cumulative total_weight all
  end.

Definition weighted_draw (total : Z) : spec_float :=
  let rng_state := wrap64 (wrap64 (total * 6364136223846793005) + 1442695040888963407) in
  SFdiv 53 1024 (int_to_f64 (Z.shiftr rng_state 11)) (int_to_f64 (Z.shiftl 1 53)).

(** Indexing and the panic of [remove] out of range: [None]. *)
Definition dequeue_weighted (q : PriorityQueue) : option (option Message * PriorityQueue) :=
  match by_priority q with
  | [] => Some (None, q)
  | all =>
      let total_weight := fold_left (fun n e => n + weight e) all 0 in
      if total_weight =? 0 then
        Some (pe_message <$> head all, count_dequeued (set_heap heap_new q))
      else
        let i := choose_weighted 0 (weighted_draw (total_dequeued q)) (S754_zero false) total_weight all in
        '(e, q) ← take_entry i all q; Some (Some (pe_message e), count_dequeued q)
  end.

Definition tenant_of (e : PriorityEntry) : string := default "default" (tenant_id e).

Fixpoint choose_fair (i chosen : nat) (min_last_served now : Z) (served : gmap string Z) (all : list PriorityEntry) : nat :=
  match all with
  | [] => chosen
  | e :: all =>
      let last_served := default 0 (served !! tenant_of e) in
      let wait := Z.max 0 (now - last_served) in
      if min_last_served <? wait then choose_fair (S i) chosen min_last_served now served all
      else choose_fair (S i) i last_served now served all
  end.

Definition dequeue_fair_share (now : Z) (q : PriorityQueue) : option (option Message * PriorityQueue) :=
  match by_priority q with
  | [] => Some (None, q)
  | all =>
      let i := choose_fair 0 0 u64_max now (fair_share_state q) all in
      '(e, q) ← take_entry i all q;
      Some (Some (pe_message e), count_dequeued (set_fair_share (<[tenant_of e := now]> (fair_share_state q)) q))
  end.

Context {W : Type} `{Clock W}.

Definition dequeue (q : PriorityQueue) : Pan W (option Message * PriorityQueue) :=
  match policy q with
  | Strict =>
      if pq_aging q then let* now := instant_now in pret (pop_highest (aged now q)) else pret (pop_highest q)
  | Weighted => plift (dequeue_weighted q)
  | FairShare =>
      if is_nil (entries q) then pret (None, q)
      else let* ms := system_millis in plift (dequeue_fair_share (wrap64 ms) q)
  end.

End PriorityQueue.
Arguments PriorityQueue : clear implicits.

(** * What a queue keeps *)

Section QueueTheorems.
Context {H : Type} `{BinaryHeapLaws H}.
Implicit Types q : PriorityQueue H.

Lemma push_all_drain es h : heap_drain (push_all es h) ≡ₚ es ++ heap_drain h.
Proof.
  unfold push_all. revert h. induction es as [|e es IH]; intros h; [done|]. cbn. rewrite IH, drain_push.
  by rewrite Permutation_middle.
Qed.

Lemma refill_drain es : heap_drain (push_all es heap_new) ≡ₚ es.
Proof. by rewrite push_all_drain, drain_new, app_nil_r. Qed.

Lemma choose_weighted_range i r c total all :
  (choose_weighted i r c total all < i + length all \/ choose_weighted i r c total all = 0)%nat.
Proof.
  revert i c. induction all as [|e all IH]; intros i c; [by right|]. cbn. case_match; [left; lia|].
  destruct (IH (S i) (SFadd 53 1024 c (SFdiv 53 1024 (int_to_f64 (weight e)) (int_to_f64 total)))); [left; lia|by right].
Qed.

Lemma choose_fair_range i chosen low now served all :
  (chosen <= i -> choose_fair i chosen low now served all < i + length all \/ choose_fair i chosen low now served all = chosen)%nat.
Proof.
  revert i chosen low. induction all as [|e all IH]; intros i chosen low Hc; [by right|]. cbn. case_match.
  - destruct (IH (S i) chosen low) as [|]; [lia|left; lia|by right].
  - destruct (IH (S i) i (default 0 (served !! tenant_of e))) as [| ->]; [lia|left; lia|left; lia].
Qed.

Lemma by_priority_perm q : by_priority q ≡ₚ entries q.
Proof. apply merge_sort_Permutation. Qed.

Lemma take_entry_spec i all q : (i < length all)%nat ->
  exists e, all !! i = Some e /\ take_entry i all q = Some (e, set_heap (push_all (delete i all) heap_new) q)
    /\ all ≡ₚ e :: entries (set_heap (push_all (delete i all) heap_new) q).
Proof.
  intros [e He]%lookup_lt_is_Some_2. exists e. unfold take_entry. rewrite He. split; [done|]. split; [done|].
  unfold entries. cbn. rewrite refill_drain. by apply delete_Permutation.
Qed.

Lemma pop_highest_spec q :
  match (pop_highest q).1 with
  | None => entries q = [] /\ entries (pop_highest q).2 = []
  | Some m => exists e, m = pe_message e /\ entries q ≡ₚ e :: entries (pop_highest q).2
      /\ Forall (fun x => priority x <= priority e) (entries q)
  end.
Proof.
  unfold pop_highest, entries. pose proof (pop_law (heap q)) as Hp.
  destruct (heap_pop (heap q)) as [[e|] h]; cbn in *; [|done]. exists e. by destruct Hp.
Qed.

Lemma age_message threshold now e : pe_message (age threshold now e) = pe_message e.
Proof. unfold age. by case_match. Qed.

Lemma aged_entries now q : entries (aged now q) ≡ₚ age (pq_threshold_ms q) now <$> entries q.
Proof. apply refill_drain. Qed.

(** What is in the queue but for its priority. *)
Definition held q : list Message := pe_message <$> entries q.

Lemma aged_held now q : held (aged now q) ≡ₚ held q.
Proof.
  unfold held. rewrite aged_entries, <- list_fmap_compose. erewrite list_fmap_ext; [done|]. intros ? e _. apply age_message.
Qed.

(** [dequeue] takes a message out of the queue and keeps every other. *)
Definition takes_one q (o : option Message) q' : Prop :=
  match o with None => held q = [] /\ held q' = [] | Some m => held q ≡ₚ m :: held q' end.

Lemma pop_highest_takes q : takes_one q (pop_highest q).1 (pop_highest q).2.
Proof.
  pose proof (pop_highest_spec q) as Hp. unfold takes_one, held. destruct (pop_highest q) as [[m|] q']; cbn in *.
  - destruct Hp as (e & -> & Hp & _). by rewrite Hp.
  - by destruct Hp as [-> ->].
Qed.

Lemma head_taken q all : by_priority q = all -> all <> [] -> (0 < length all)%nat.
Proof. intros _. destruct all; [done|]. cbn. lia. Qed.

Lemma dequeue_weighted_takes q : exists o q', dequeue_weighted q = Some (o, q') /\ takes_one q o q'.
Proof.
  unfold dequeue_weighted. pose proof (by_priority_perm q) as Hperm. destruct (by_priority q) as [|e0 all] eqn:Hall.
  { exists None, q. apply Permutation_nil_l in Hperm. unfold takes_one, held. by rewrite <- Hperm. }
  set (l := e0 :: all) in *. assert (Hw : forall l n, 0 <= n -> n <= fold_left (fun n e => n + weight e) l n).
  { clear. induction l as [|e l IH]; intros n Hn; cbn; [lia|]. specialize (IH (n + weight e)). unfold weight in *. lia. }
  assert (Hz : fold_left (fun n e => n + weight e) l 0 =? 0 = false).
  { apply Z.eqb_neq. cbn. pose proof (Hw all (0 + weight e0)) as Hx. unfold weight in *. lia. }
  rewrite Hz. set (i := choose_weighted _ _ _ _ _).
  assert (Hi : (i < length l)%nat).
  { destruct (choose_weighted_range 0 (weighted_draw (total_dequeued q)) (S754_zero false)
      (fold_left (fun n e => n + weight e) l 0) l) as [Hi|Hi]; fold i in Hi; [lia|]. rewrite Hi. cbn. lia. }
  destruct (take_entry_spec i l q Hi) as (e & _ & -> & Hp). cbn. eexists _, _. split; [done|]. unfold takes_one, held.
  apply (fmap_Permutation pe_message (entries q) (e :: entries (set_heap (push_all (delete i l) heap_new) q))).
  etransitivity; [symmetry; exact Hperm|exact Hp].
Qed.

Lemma dequeue_fair_share_takes now q : exists o q', dequeue_fair_share now q = Some (o, q') /\ takes_one q o q'.
Proof.
  unfold dequeue_fair_share. pose proof (by_priority_perm q) as Hperm. destruct (by_priority q) as [|e0 all] eqn:Hall.
  { exists None, q. apply Permutation_nil_l in Hperm. unfold takes_one, held. by rewrite <- Hperm. }
  set (l := e0 :: all) in *. set (i := choose_fair _ _ _ _ _ _).
  assert (Hi : (i < length l)%nat).
  { destruct (choose_fair_range 0 0 u64_max now (fair_share_state q) l ltac:(lia)) as [Hi|Hi]; fold i in Hi; [lia|]. rewrite Hi. cbn. lia. }
  destruct (take_entry_spec i l q Hi) as (e & _ & -> & Hp). cbn. eexists _, _. split; [done|]. unfold takes_one, held.
  apply (fmap_Permutation pe_message (entries q) (e :: entries (set_heap (push_all (delete i l) heap_new) q))).
  etransitivity; [symmetry; exact Hperm|exact Hp].
Qed.

(** Under every policy [dequeue] returns, answers a message exactly when the queue has one,
    takes that message and keeps the others. *)
Lemma dequeue_takes `{Clock W} q (w : W) : exists o q', fst (dequeue q w) = Some (o, q') /\ takes_one q o q'.
Proof.
  unfold dequeue. destruct (policy q).
  - case_match.
    + unfold ebind. destruct (instant_now w) as [now w']. cbn. eexists _, _. rewrite <- surjective_pairing. split; [done|].
      pose proof (pop_highest_takes (aged now q)) as Ht. unfold takes_one in *.
      destruct (pop_highest (aged now q)).1; [by rewrite <- aged_held|]. destruct Ht as [Ht1 Ht2]. split; [|done].
      apply Permutation_nil_r. by rewrite <- Ht1, aged_held.
    + eexists _, _. cbn. rewrite <- surjective_pairing. split; [done|]. apply pop_highest_takes.
  - apply dequeue_weighted_takes.
  - case_match eqn:Hn.
    + exists None, q. split; [done|]. unfold takes_one, held. by destruct (entries q).
    + unfold ebind. destruct (system_millis w) as [ms w']. apply dequeue_fair_share_takes.
Qed.

(** ** Fair shares are not fair

    The waiting time of a tenant is compared with the moment another one was served last: while
    the highest entry is of a tenant served before, and more than that moment has passed since
    the epoch, no tenant never served is chosen. *)
Lemma choose_fair_sticks now served i chosen low all :
  0 < low < now ->
  (forall e, e ∈ all -> served !! tenant_of e = None) ->
  choose_fair i chosen low now served all = chosen.
Proof.
  intros Hlow. revert i. induction all as [|e all IH]; intros i Hs; [done|]. cbn. rewrite (Hs e) by left. cbn.
  assert ((low <? Z.max 0 (now - 0)) = true) as -> by (apply Z.ltb_lt; lia). apply IH. intros x Hx. apply Hs. by right.
Qed.

Lemma fair_share_starves now q e all last : by_priority q = e :: all ->
  fair_share_state q !! tenant_of e = Some last -> 0 < last < now -> now <= u64_max ->
  (forall x, x ∈ all -> fair_share_state q !! tenant_of x = None) ->
  exists q', dequeue_fair_share now q = Some (Some (pe_message e), q') /\ fair_share_state q' !! tenant_of e = Some now.
Proof.
  intros Hb Hl Hlast Hnow Hall. unfold dequeue_fair_share. rewrite Hb. cbn [choose_fair]. rewrite Hl. change (default 0 (Some last)) with last.
  assert ((u64_max <? Z.max 0 (now - last)) = false) as -> by (apply Z.ltb_ge; lia).
  rewrite choose_fair_sticks by done. cbn. eexists. split; [done|]. cbn. by rewrite lookup_insert_eq.
Qed.
End QueueTheorems.

(** * Aging serves every message

    A run of [enqueue] and [dequeue] calls on a strict queue with aging; [served] are the
    messages its [dequeue] calls answered. *)

Inductive QueueCall : Type :=
| Enq (now : Z) (m : Message) (prio : Z)
| Deq (now : Z).

Fixpoint dequeues (cs : list QueueCall) : Z :=
  match cs with [] => 0 | Enq _ _ _ :: cs => dequeues cs | Deq _ :: cs => 1 + dequeues cs end.

Lemma dequeues_nonneg cs : 0 <= dequeues cs.
Proof. induction cs as [|[] cs IH]; cbn; lia. Qed.

Section Aging.
Context {H : Type} `{BinaryHeapLaws H}.
Implicit Types q : PriorityQueue H.

Definition call (c : QueueCall) q : option Message * PriorityQueue H :=
  match c with
  | Enq now m prio => (None, (enqueue now m prio q).2)
  | Deq now => pop_highest (aged now q)
  end.

(** [Deq] is [dequeue] of a strict queue with aging, at the instant it reads. *)
Lemma call_is_dequeue {W} `{Clock W} q (w : W) : policy q = Strict -> pq_aging q = true ->
  dequeue q w = (Some (call (Deq (fst (instant_now w))) q), snd (instant_now w)).
Proof. intros Hp Ha. unfold dequeue. rewrite Hp, Ha. unfold ebind. by destruct (instant_now w). Qed.

Fixpoint served (cs : list QueueCall) q : list Message :=
  match cs with
  | [] => []
  | c :: cs => option_list (call c q).1 ++ served cs (call c q).2
  end.

(** Priorities of the type, and no more than [high]. *)
Definition bounded (high : Z) (e : PriorityEntry) : Prop := i32_min <= priority e <= high.

(** New messages have a priority up to [high], and the threshold of a message of the time [t]
    has passed. *)
Definition timely (high threshold t : Z) (c : QueueCall) : Prop :=
  match c with
  | Enq _ _ prio => i32_min <= prio <= high
  | Deq now => threshold * 10 ^ 6 < now - t
  end.

Lemma wrap_i32_small z : i32_min <= z <= i32_max -> wrap_i32 z = z.
Proof. unfold wrap_i32, i32_min, i32_max. intros Hz. rewrite Z.mod_small by lia. lia. Qed.

Lemma age_bounds threshold now high e : bounded high e -> high + 1 <= i32_max ->
  priority e <= priority (age threshold now e) <= priority e + 1 /\ bounded (high + 1) (age threshold now e).
Proof.
  unfold bounded, age. intros Hb Hh. case_match; cbn; rewrite ?wrap_i32_small by lia; lia.
Qed.

Lemma age_timely threshold now high e : bounded high e -> high + 1 <= i32_max -> 0 <= threshold ->
  threshold * 10 ^ 6 < now - enqueued_at e ->
  priority (age threshold now e) = priority e + 1 /\ enqueued_at (age threshold now e) = enqueued_at e.
Proof.
  unfold bounded, age. intros Hb Hh Ht Hn. rewrite (proj2 (Z.ltb_lt _ _)) by lia. cbn.
  by rewrite wrap_i32_small by lia.
Qed.

Lemma age_all_bounded threshold now high l : Forall (bounded high) l -> high + 1 <= i32_max ->
  Forall (bounded (high + 1)) (age threshold now <$> l).
Proof. intros Hl Hh. apply Forall_fmap. eapply Forall_impl; [exact Hl|]. intros e He. by apply (age_bounds threshold now high). Qed.

(** An [enqueue] adds its entry or is refused. *)
Lemma enqueue_entries now m prio q :
  pq_threshold_ms (enqueue now m prio q).2 = pq_threshold_ms q /\ capacity (enqueue now m prio q).2 = capacity q
  /\ (entries (enqueue now m prio q).2 = entries q
      \/ entries (enqueue now m prio q).2 ≡ₚ mkPriorityEntry m prio now (headers m !! "tenant_id") :: entries q
         /\ pq_len q < capacity q).
Proof.
  unfold enqueue. case_match eqn:Hf; cbn; [auto|]. apply Z.leb_gt in Hf. split; [done|]. split; [done|]. right.
  split; [apply drain_push|done].
Qed.

(** A [dequeue] beside the entry [e]: it takes [e], or one of the others, which is not lower. *)
Lemma dequeue_beside now q e others : entries q ≡ₚ e :: others ->
  let g := age (pq_threshold_ms q) now in
  exists y, (call (Deq now) q).1 = Some (pe_message y)
    /\ pq_threshold_ms (call (Deq now) q).2 = pq_threshold_ms q /\ capacity (call (Deq now) q).2 = capacity q
    /\ (y = g e
        \/ exists l1 x l3, others = (l1 ++ x :: l3)%list /\ y = g x /\ priority (g e) <= priority y
             /\ entries (call (Deq now) q).2 ≡ₚ g e :: (g <$> (l1 ++ l3)%list)).
Proof.
  intros He g. cbn. pose proof (pop_highest_spec (aged now q)) as Hp.
  assert (Ha : entries (aged now q) ≡ₚ g e :: (g <$> others)) by (rewrite aged_entries, He; done).
  assert (Hcfg : pq_threshold_ms (pop_highest (aged now q)).2 = pq_threshold_ms q
    /\ capacity (pop_highest (aged now q)).2 = capacity q)
    by (unfold pop_highest; destruct (heap_pop _) as [[] ?]; done).
  destruct (pop_highest (aged now q)) as [[m|] q']; cbn in *.
  2:{ destruct Hp as [Hp _]. rewrite Hp in Ha. by apply Permutation_nil_cons in Ha. }
  destruct Hp as (y & -> & Hp & Hmax). exists y. split; [done|]. destruct Hcfg as [-> ->]. split; [done|]. split; [done|].
  rewrite Ha in Hp, Hmax. assert (Hin : y ∈ g e :: (g <$> others)) by (rewrite Hp; by left).
  apply elem_of_cons in Hin as [|Hin]; [by left|right].
  apply list_elem_of_fmap in Hin as (x & -> & (l1 & l3 & ->)%list_elem_of_split). exists l1, x, l3. split; [done|].
  split; [done|]. apply Forall_cons in Hmax as [Hmax _]. split; [done|].
  apply (Permutation_cons_inv (a := g x)). rewrite <- Hp, !fmap_app, fmap_cons. solve_Permutation.
Qed.

(** Once its priority is above that of every new message, a message waits only for the older
    entries. *)
Lemma overtaken cs q e old fresh high bound :
  entries q ≡ₚ e :: old ++ fresh -> high < priority e -> Forall (fun x => priority x < priority e) fresh ->
  Forall (bounded bound) (e :: old ++ fresh) -> bound + dequeues cs <= i32_max -> 0 <= pq_threshold_ms q ->
  Forall (timely high (pq_threshold_ms q) (enqueued_at e)) cs ->
  Z.of_nat (length old) < dequeues cs -> pe_message e ∈ served cs q.
Proof.
  revert q e old fresh bound. induction cs as [|c cs IH]; intros q e old fresh bound He Hhigh Hfresh Hb Hbound Hth Hcs Hn;
    [cbn in Hn; lia|].
  apply Forall_cons in Hcs as [Hc Hcs]. destruct c as [now m prio|now]; cbn [served dequeues timely] in *.
  - destruct (enqueue_entries now m prio q) as (Ht & _ & Hent). cbn [call fst snd option_list app].
    destruct Hent as [Hent|[Hent _]].
    + apply (IH _ e old fresh bound); rewrite ?Ht, ?Hent; done.
    + apply (IH _ e old (mkPriorityEntry m prio now (headers m !! "tenant_id") :: fresh) bound); rewrite ?Ht; try done.
      * rewrite Hent, He. solve_Permutation.
      * constructor; [cbn; lia|done].
      * rewrite <- Permutation_middle. apply Forall_cons in Hb as [Hbe Hb]. constructor; [done|]. constructor; [|done].
        unfold bounded in *. cbn. lia.
  - pose proof (dequeues_nonneg cs) as Hnn. apply Forall_cons in Hb as [Hbe Hb].
    assert (Hb1 : bound + 1 <= i32_max) by lia.
    destruct (age_timely (pq_threshold_ms q) now bound e Hbe Hb1 Hth Hc) as [Hprio Hat].
    destruct (dequeue_beside now q e (old ++ fresh) He) as (y & Hy & Ht & _ & Hcase). cbn zeta in Hcase. rewrite Hy.
    cbn [option_list app]. set (g := age (pq_threshold_ms q) now) in *.
    destruct Hcase as [->|(l1 & x & l3 & Hsplit & -> & Hge & Hent)]; [apply elem_of_cons; left; symmetry; apply age_message|].
    right. rewrite <- (age_message (pq_threshold_ms q) now e). fold g.
    assert (Hx : Forall (bounded (bound + 1)) (g <$> (l1 ++ l3)%list)).
    { apply age_all_bounded; [|done]. rewrite Hsplit in Hb. apply Forall_app in Hb as [Hl1 Hl3].
      apply Forall_app. split; [done|]. by apply Forall_cons in Hl3 as [_ Hl3]. }
    assert (Hge1 : bounded (bound + 1) (g e)) by (by apply age_bounds).
    assert (Hlow : forall z, z ∈ fresh -> priority (g z) < priority (g e)).
    { intros z Hz. rewrite Forall_forall in Hfresh. pose proof (Hfresh z Hz).
      destruct (age_bounds (pq_threshold_ms q) now bound z) as [Hgz _]; [|done|].
      - rewrite Forall_forall in Hb. apply Hb, elem_of_app. by right.
      - fold g in Hgz. lia. }
    assert (Hold : exists o1 o2, old = (o1 ++ x :: o2)%list /\ (l1 ++ l3 = o1 ++ o2 ++ fresh)%list).
    { apply app_eq_app in Hsplit as (k & [[-> Hk]|[-> Hk]]).
      - destruct k as [|k0 k].
        + cbn in Hk. assert (x ∈ fresh) as Hin by (rewrite <- Hk; by left). specialize (Hlow x Hin). lia.
        + injection Hk as -> ->. by exists l1, k.
      - assert (x ∈ fresh) as Hin by (rewrite Hk; apply elem_of_app; right; by left). specialize (Hlow x Hin). lia. }
    destruct Hold as (o1 & o2 & -> & Hrest). rewrite Hrest in *.
    apply (IH _ (g e) (g <$> (o1 ++ o2)%list) (g <$> fresh) (bound + 1)); rewrite ?Ht; try done.
    + rewrite Hent, !fmap_app. solve_Permutation.
    + lia.
    + apply Forall_fmap, Forall_forall. intros z Hz. by apply Hlow.
    + constructor; [done|]. by rewrite !fmap_app, <- (assoc_L (++)) in *.
    + lia.
    + by rewrite Hat.
    + rewrite length_fmap, length_app. rewrite length_app in Hn. cbn [length] in Hn. lia.
Qed.

(** C25. A message whose threshold has passed is served by a strict queue with aging before
    [high - priority + 1 + capacity] calls of [dequeue], whatever is enqueued between them with
    priorities up to [high], as long as no priority overflows. *)
Theorem aging_serves cs q e others high bound :
  entries q ≡ₚ e :: others -> pq_len q <= capacity q -> 0 <= pq_threshold_ms q ->
  Forall (bounded bound) (entries q) -> high <= bound -> bound + dequeues cs <= i32_max ->
  Forall (timely high (pq_threshold_ms q) (enqueued_at e)) cs ->
  Z.max 0 (high - priority e + 1) + capacity q <= dequeues cs ->
  pe_message e ∈ served cs q.
Proof.
  revert q e others bound. induction cs as [|c cs IH]; intros q e others bound He Hlen Hth Hb Hhigh Hbound Hcs Hn.
  { unfold pq_len in Hlen. rewrite He in Hlen. cbn in Hlen, Hn. lia. }
  pose proof Hlen as Hlen'. unfold pq_len in Hlen'. rewrite He in Hlen', Hb. cbn [length] in Hlen'.
  destruct (Z.lt_ge_cases high (priority e)) as [Habove|Hbelow].
  { apply (overtaken _ q e others [] high bound); rewrite ?app_nil_r; try done. lia. }
  apply Forall_cons in Hcs as [Hc Hcs]. destruct c as [now m prio|now]; cbn [served dequeues timely] in *.
  - destruct (enqueue_entries now m prio q) as (Ht & Hcap & Hent). cbn [call fst snd option_list app].
    destruct Hent as [Hent|[Hent Hroom]].
    + apply (IH _ e others bound); unfold pq_len; rewrite ?Ht, ?Hcap, ?Hent; try done. by rewrite He.
    + apply (IH _ e (mkPriorityEntry m prio now (headers m !! "tenant_id") :: others) bound);
        rewrite ?Ht, ?Hcap; try done.
      * rewrite Hent, He. solve_Permutation.
      * unfold pq_len in *. rewrite Hent. cbn [length]. lia.
      * rewrite Hent, He. constructor; [unfold bounded; cbn; lia|done].
  - pose proof (dequeues_nonneg cs) as Hnn. apply Forall_cons in Hb as [Hbe Hb].
    assert (Hb1 : bound + 1 <= i32_max) by lia.
    destruct (age_timely (pq_threshold_ms q) now bound e Hbe Hb1 Hth Hc) as [Hprio Hat].
    destruct (dequeue_beside now q e others He) as (y & Hy & Ht & Hcap & Hcase). cbn zeta in Hcase. rewrite Hy.
    cbn [option_list app]. set (g := age (pq_threshold_ms q) now) in *.
    destruct Hcase as [->|(l1 & x & l3 & -> & -> & Hge & Hent)]; [apply elem_of_cons; left; symmetry; apply age_message|].
    right. rewrite <- (age_message (pq_threshold_ms q) now e). fold g.
    apply (IH _ (g e) (g <$> (l1 ++ l3)%list) (bound + 1)); rewrite ?Ht, ?Hcap; try done; try lia.
    + unfold pq_len. rewrite Hent. cbn [length]. rewrite length_fmap, length_app in *. cbn [length] in Hlen'. lia.
    + rewrite Hent. constructor; [by apply age_bounds|]. apply age_all_bounded; [|done].
      apply Forall_app in Hb as [Hl1 Hl3]. apply Forall_app. split; [done|]. by apply Forall_cons in Hl3 as [_ Hl3].
    + by rewrite Hat.
Qed.
End Aging.

(** A message of priority 0 among ten of priority 5 keep coming: served by the eighth call. *)
Definition low_message : Message := mkMessage "jobs" "low" None 0 ∅ "low" 0.
Definition high_message : Message := mkMessage "jobs" "high" None 0 ∅ "high" 0.
Definition low_queue : PriorityQueue (list PriorityEntry) :=
  snd (enqueue 0 low_message 0 (pq_with_aging true 1 (priority_queue_new Strict 2))).
Definition busy_calls (n : nat) : list QueueCall :=
  concat (replicate n [Enq 2000000 high_message 5; Deq 2000000]).

Lemma aging_serves_witness :
  low_message ∈ served (busy_calls 8) low_queue /\ low_message ∉ served (busy_calls 4) low_queue.
Proof.
  split.
  - apply (aging_serves (busy_calls 8) low_queue (mkPriorityEntry low_message 0 0 None) [] 5 5); try done.
    + by repeat constructor.
    + by repeat constructor.
  - apply (proj1 (bool_decide_eq_false (low_message ∈ served (busy_calls 4) low_queue))). vm_compute. reflexivity.
Defined.

(** * The scheduler *)

Record ScheduleLog : Type := mkScheduleLog {
  sl_message_id : string; sl_deliver_at : Z; sl_priority : Z; sl_delivered_at : Z; sl_success : bool; sl_retry_count : Z }.

Section Scheduler.
Context {H : Type} `{BinaryHeap H}.
Context {W : Type} `{Clock W}.

Record DelayScheduler : Type := mkScheduler {
  delayed_messages : gmap Z (list DelayedMessage);
  priority_queue : PriorityQueue H;
  scheduled : list ScheduledMessage;
  sched_config : ScheduleConfig;
  shutdown : bool;
  sched_logs : list ScheduleLog;
  sched_backoff : BackoffPolicy;
  sched_max_retries : Z;
  backoff_seed : Z;
}.

Definition delay_scheduler_new (config : ScheduleConfig) : DelayScheduler :=
  mkScheduler ∅ (pq_with_aging (aging_enabled config) (aging_threshold_ms config)
                   (priority_queue_new (priority_policy config) (queue_capacity config)))
    [] config false [] Exponential 3 jitter_seed.
Definition with_backoff (policy : BackoffPolicy) (retries : Z) (s : DelayScheduler) : DelayScheduler :=
  mkScheduler (delayed_messages s) (priority_queue s) (scheduled s) (sched_config s) (shutdown s) (sched_logs s) policy retries (backoff_seed s).

Definition set_delayed (m : gmap Z (list DelayedMessage)) (s : DelayScheduler) : DelayScheduler :=
  mkScheduler m (priority_queue s) (scheduled s) (sched_config s) (shutdown s) (sched_logs s) (sched_backoff s) (sched_max_retries s) (backoff_seed s).
Definition set_priority_queue (q : PriorityQueue H) (s : DelayScheduler) : DelayScheduler :=
  mkScheduler (delayed_messages s) q (scheduled s) (sched_config s) (shutdown s) (sched_logs s) (sched_backoff s) (sched_max_retries s) (backoff_seed s).
Definition set_scheduled (l : list ScheduledMessage) (s : DelayScheduler) : DelayScheduler :=
  mkScheduler (delayed_messages s) (priority_queue s) l (sched_config s) (shutdown s) (sched_logs s) (sched_backoff s) (sched_max_retries s) (backoff_seed s).
Definition set_shutdown (s : DelayScheduler) : DelayScheduler :=
  mkScheduler (delayed_messages s) (priority_queue s) (scheduled s) (sched_config s) true (sched_logs s) (sched_backoff s) (sched_max_retries s) (backoff_seed s).
Definition add_log (l : ScheduleLog) (s : DelayScheduler) : DelayScheduler :=
  mkScheduler (delayed_messages s) (priority_queue s) (scheduled s) (sched_config s) (shutdown s) (sched_logs s ++ [l])%list (sched_backoff s) (sched_max_retries s) (backoff_seed s).
Definition set_backoff_seed (n : Z) (s : DelayScheduler) : DelayScheduler :=
  mkScheduler (delayed_messages s) (priority_queue s) (scheduled s) (sched_config s) (shutdown s) (sched_logs s) (sched_backoff s) (sched_max_retries s) n.

(** [delayed.entry(deliver_at).or_default().push(msg)] *)
Definition push_delayed (dm : DelayedMessage) (m : gmap Z (list DelayedMessage)) : gmap Z (list DelayedMessage) :=
  <[deliver_at dm := (default [] (m !! deliver_at dm) ++ [dm])%list]> m.

Definition publish_delayed (dm : DelayedMessage) (s : DelayScheduler) : DelayScheduler :=
  set_delayed (push_delayed dm (delayed_messages s)) s.

Definition publish_scheduled (sm : ScheduledMessage) (s : DelayScheduler) : result unit MqError * DelayScheduler :=
  match cron sm with
  | Some expr =>
      match validate_cron expr with
      | Err e => (Err e, s)
      | Ok _ => (Ok tt, set_scheduled (scheduled s ++ [sm])%list s)
      end
  | None =>
      match interval sm with
      | None => (Err (NotSupported "scheduled message must have cron or interval"), s)
      | Some _ => (Ok tt, set_scheduled (scheduled s ++ [sm])%list s)
      end
  end.

Definition pending_delayed_count (s : DelayScheduler) : Z :=
  Z.of_nat (length (concat (map_to_list (delayed_messages s)).*2)).
Definition ready_queue_len (s : DelayScheduler) : Z := pq_len (priority_queue s).

(** The keys of a [BTreeMap] are in order. *)
Definition ready_keys (now : Z) (m : gmap Z (list DelayedMessage)) : list Z :=
  merge_sort Z.le (filter (fun k => k <= now) (elements (dom m))).

(** [enqueue(...)?] of the messages of a key that was removed before. *)
Fixpoint enqueue_each (dms : list DelayedMessage) (q : PriorityQueue H) : Eff W (result unit MqError * PriorityQueue H) :=
  match dms with
  | [] => eret (Ok tt, q)
  | dm :: dms =>
      let* now := if capacity q <=? pq_len q then eret 0 else instant_now in
      match enqueue now (dm_message dm) (dm_priority dm) q with
      | (Ok _, q) => enqueue_each dms q
      | (Err e, q) => eret (Err e, q)
      end
  end.

Fixpoint release_keys (keys : list Z) (s : DelayScheduler) : Eff W (result unit MqError * DelayScheduler) :=
  match keys with
  | [] => eret (Ok tt, s)
  | key :: keys =>
      match delayed_messages s !! key with
      | None => release_keys keys s
      | Some dms =>
          let s := set_delayed (delete key (delayed_messages s)) s in
          let* (r, q) := enqueue_each dms (priority_queue s) in
          let s := set_priority_queue q s in
          match r with Ok _ => release_keys keys s | Err e => eret (Err e, s) end
      end
  end.

(** Every scheduled message is delayed once more, whenever its last copy is due. *)
Definition schedule_each (now : Z) (s : DelayScheduler) : DelayScheduler :=
  set_delayed (fold_left (fun m sm =>
    match next_deliver_ms now sm with
    | Ok next_ms => push_delayed (mkDelayed (sm_message sm) next_ms 0) m
    | Err _ => m
    end) (scheduled s) (delayed_messages s)) s.

Variable queue : MessageQueue W.
(** [tokio::time::sleep], in milliseconds. *)
Variable sleep : Z -> Eff W unit.

(** One message is published, and again after a back-off up to [max_retries] times: whether it
    succeeded, the retries and the seed.  [None] waits for ever. *)
Fixpoint deliver_retrying (fuel : nat) (m : Message) (policy : BackoffPolicy) (retries retry_count seed : Z) :
    Pan W (bool * Z * Z) :=
  match fuel with
  | O => eret None
  | S fuel =>
      let! r := mq_publish queue (msg_topic m) (payload m) in
      match r with
      | Ok _ => pret (true, retry_count, seed)
      | Err _ =>
          if retries <=? retry_count then pret (false, retry_count, seed)
          else
            let retry_count := retry_count + 1 in
            let '(backoff_ms, seed) := calculate policy retry_count 100 10000 seed in
            let* _ := sleep backoff_ms in
            deliver_retrying fuel m policy retries retry_count seed
      end
  end.

Definition now_ms_i64 : Eff W Z := let* ms := system_millis in eret (wrap_i64 ms).

Fixpoint deliver_all (fuel : nat) (now : Z) (s : DelayScheduler) (count : Z) : Pan W (Z * DelayScheduler) :=
  match fuel with
  | O => eret None
  | S fuel =>
      let! (o, q) := dequeue (priority_queue s) in
      let s := set_priority_queue q s in
      match o with
      | None => pret (count, s)
      | Some m =>
          let! (success, retries, seed) :=
            deliver_retrying (S (Z.to_nat (sched_max_retries s))) m (sched_backoff s) (sched_max_retries s) 0 (backoff_seed s) in
          let* delivered_at := now_ms_i64 in
          deliver_all fuel now
            (add_log (mkScheduleLog (msg_id m) now 0 delivered_at success retries) (set_backoff_seed seed s)) (count + 1)
      end
  end.

(** Each turn of the last loop takes a message out of the priority queue: the fuel is their number. *)
Definition check_and_deliver (s : DelayScheduler) : Pan W (result Z MqError * DelayScheduler) :=
  if shutdown s then pret (Ok 0, s)
  else
    let* now := now_ms_i64 in
    let* (r, s) := release_keys (ready_keys now (delayed_messages s)) s in
    match r with
    | Err e => pret (Err e, s)
    | Ok _ =>
        let s := schedule_each now s in
        let! (count, s) := deliver_all (S (length (entries (priority_queue s)))) now s 0 in
        pret (Ok count, s)
    end.

(** [run] for a number of turns. *)
Fixpoint run_scheduler (turns : nat) (s : DelayScheduler) : Pan W DelayScheduler :=
  match turns with
  | O => eret None
  | S turns =>
      if shutdown s then pret s
      else
        let! (_, s) := check_and_deliver s in
        let* _ := sleep (check_interval_ms (sched_config s)) in
        run_scheduler turns s
  end.

End Scheduler.
Arguments DelayScheduler : clear implicits.

(** ** What a check delivers *)

Section Checks.
Context {H : Type} `{BinaryHeapLaws H}.
Context {W : Type} `{Clock W}.
Implicit Types q : PriorityQueue H.
Implicit Types s : DelayScheduler H.

Lemma enqueue_held now m prio q :
  match enqueue now m prio q with
  | (Ok _, q') => held q' ≡ₚ m :: held q /\ pq_len q < capacity q /\ capacity q' = capacity q
  | (Err _, q') => q' = q /\ capacity q <= pq_len q
  end.
Proof.
  unfold enqueue. destruct (capacity q <=? pq_len q) eqn:Hf; [by apply Z.leb_le in Hf|]. apply Z.leb_gt in Hf. split; [|done].
  unfold held, entries. cbn. by rewrite drain_push.
Qed.

(** The messages of a key are enqueued up to the capacity; the others of the key are in no
    queue any more. *)
Lemma enqueue_each_spec dms q (w : W) :
  let '(r, q') := fst (enqueue_each dms q w) in
  exists n, (n <= length dms)%nat /\ held q' ≡ₚ held q ++ (dm_message <$> take n dms) /\ capacity q' = capacity q
    /\ if is_ok r then n = length dms else (n < length dms)%nat /\ capacity q <= pq_len q'.
Proof.
  revert q w. induction dms as [|dm dms IH]; intros q w.
  { exists 0%nat. cbn. by rewrite app_nil_r. }
  cbn [enqueue_each]. unfold ebind. destruct ((if capacity q <=? pq_len q then eret 0 else instant_now) w) as [now w1].
  pose proof (enqueue_held now (dm_message dm) (dm_priority dm) q) as He.
  destruct (enqueue now (dm_message dm) (dm_priority dm) q) as [[[]|err] q1].
  - destruct He as (Hh & _ & Hc). specialize (IH q1 w1). destruct (fst (enqueue_each dms q1 w1)) as [r q'].
    destruct IH as (n & Hn & Hh' & Hc' & Hr). exists (S n). rewrite Hc in Hc', Hr. split; [cbn; lia|].
    split; [rewrite Hh', Hh; cbn; by rewrite Permutation_middle|]. split; [done|].
    destruct (is_ok r); cbn [length]; lia.
  - destruct He as [-> Hc]. exists 0%nat. cbn. rewrite app_nil_r. split; [lia|]. split; [done|]. split; [done|]. split; [lia|done].
Qed.

Definition messages_at (keys : list Z) (m : gmap Z (list DelayedMessage)) : list Message :=
  dm_message <$> concat ((fun k => default [] (m !! k)) <$> keys).

Lemma messages_at_delete k keys m : k ∉ keys -> messages_at keys (delete k m) = messages_at keys m.
Proof.
  intros Hk. unfold messages_at. do 2 f_equal. apply list_fmap_ext. intros i k' Hi. rewrite lookup_delete_ne; [done|].
  intros ->. apply Hk. by eapply list_elem_of_lookup_2.
Qed.

Lemma release_keys_ok keys s (w : W) : NoDup keys ->
  let '(r, s') := fst (release_keys keys s w) in
  r = Ok tt ->
  held (priority_queue s') ≡ₚ held (priority_queue s) ++ messages_at keys (delayed_messages s)
  /\ (forall k, delayed_messages s' !! k = if decide (k ∈ keys) then None else delayed_messages s !! k)
  /\ scheduled s' = scheduled s /\ sched_logs s' = sched_logs s /\ sched_max_retries s' = sched_max_retries s.
Proof.
  revert s w. induction keys as [|k keys IH]; intros s w Hn.
  { cbn. intros _. rewrite app_nil_r. split; [done|]. split; [|done]. done. }
  apply NoDup_cons in Hn as [Hk Hn]. cbn [release_keys]. destruct (delayed_messages s !! k) as [dms|] eqn:Hm.
  - unfold ebind. set (s1 := set_delayed _ s).
    pose proof (enqueue_each_spec dms (priority_queue s1) w) as He.
    destruct (enqueue_each dms (priority_queue s1) w) as [[r q] w1]. cbn in He.
    destruct He as (n & _ & Hh & _ & Hr). destruct r as [[]|e]; [|done]. cbn in Hr. subst n. rewrite firstn_all in Hh.
    specialize (IH (set_priority_queue q s1) w1 Hn). destruct (fst (release_keys keys (set_priority_queue q s1) w1)) as [r s'].
    intros Hr. destruct (IH Hr) as (Hh' & Hd & Hx). cbn in Hh', Hd, Hx. split; [|split; [|done]].
    + rewrite Hh', Hh, messages_at_delete by done. unfold messages_at. cbn. rewrite Hm. cbn. rewrite fmap_app.
      by rewrite (assoc_L (++)).
    + intros k'. rewrite Hd. destruct (decide (k' = k)) as [->|Hne].
      * rewrite decide_False, lookup_delete_eq, decide_True by (done || by left). done.
      * rewrite lookup_delete_ne by done. apply decide_ext. rewrite elem_of_cons. naive_solver.
  - specialize (IH s w Hn). destruct (fst (release_keys keys s w)) as [r s']. intros Hr.
    destruct (IH Hr) as (Hh & Hd & Hx). split; [|split; [|done]].
    + rewrite Hh. unfold messages_at. cbn. by rewrite Hm.
    + intros k'. rewrite Hd. destruct (decide (k' = k)) as [->|Hne].
      * rewrite decide_False, decide_True by (done || by left). done.
      * apply decide_ext. rewrite elem_of_cons. naive_solver.
Qed.

(** An error means that the messages do not fit. *)
Lemma release_keys_err keys s e (w : W) : NoDup keys ->
  let '(r, s') := fst (release_keys keys s w) in
  r = Err e ->
  capacity (priority_queue s) <
    Z.of_nat (length (held (priority_queue s)) + length (messages_at keys (delayed_messages s))).
Proof.
  revert s w. induction keys as [|k keys IH]; intros s w Hn; [done|].
  apply NoDup_cons in Hn as [Hk Hn]. cbn [release_keys].
  assert (Hlen : length (messages_at (k :: keys) (delayed_messages s)) =
    (length (default [] (delayed_messages s !! k)) + length (messages_at keys (delayed_messages s)))%nat).
  { unfold messages_at. cbn. by rewrite fmap_app, length_app, length_fmap. }
  destruct (delayed_messages s !! k) as [dms|] eqn:Hm; cbn [default from_option id] in Hlen.
  - unfold ebind. set (s1 := set_delayed _ s).
    pose proof (enqueue_each_spec dms (priority_queue s1) w) as He.
    destruct (enqueue_each dms (priority_queue s1) w) as [[r q] w1]. cbn in He.
    destruct He as (n & Hnle & Hh & Hc & Hr). apply Permutation_length in Hh.
    rewrite length_app, length_fmap, length_take in Hh. destruct r as [[]|e']; cbn in Hr.
    + specialize (IH (set_priority_queue q s1) w1 Hn). destruct (fst (release_keys keys (set_priority_queue q s1) w1)) as [r s'].
      intros Hr'. specialize (IH Hr'). cbn in IH, Hc, Hh. rewrite messages_at_delete in IH by done. lia.
    + intros _. destruct Hr as [Hlt Hfull]. unfold pq_len in Hfull. unfold held in Hh at 1. rewrite length_fmap in Hh.
      cbn in Hfull, Hh. lia.
  - specialize (IH s w Hn). destruct (fst (release_keys keys s w)) as [r s']. intros Hr. specialize (IH Hr). rewrite Hlen. cbn [length]. lia.
Qed.

Variable queue : MessageQueue W.
Variable sleep : Z -> Eff W unit.

(** The queue behind the scheduler never keeps a publisher waiting. *)
Definition never_waits : Prop := forall topic payload w, fst (mq_publish queue topic payload w) <> None.

Lemma deliver_retrying_returns fuel m policy retries retry_count seed (w : W) :
  never_waits -> (Z.to_nat (retries - retry_count) < fuel)%nat ->
  exists b n seed' w', deliver_retrying queue sleep fuel m policy retries retry_count seed w = (Some (b, n, seed'), w').
Proof.
  intros Hw. revert retry_count seed w. induction fuel as [|fuel IH]; intros retry_count seed w Hf; [lia|]. cbn [deliver_retrying].
  unfold pbind at 1, ebind at 1. specialize (Hw (msg_topic m) (payload m) w).
  destruct (mq_publish queue _ _ w) as [[[[]|e]|] w1]; [by eexists _, _, _, _| |done].
  destruct (Z.leb_spec retries retry_count); [by eexists _, _, _, _|].
  destruct (calculate policy (retry_count + 1) 100 10000 seed) as [ms n]. unfold ebind.
  destruct (sleep ms w1) as [? w2]. apply IH. lia.
Qed.

Lemma deliver_all_spec fuel now s count (w : W) :
  never_waits -> (length (held (priority_queue s)) < fuel)%nat ->
  exists s' w' ls, deliver_all queue sleep fuel now s count w = (Some (count + Z.of_nat (length ls), s'), w')
    /\ held (priority_queue s') = [] /\ sched_logs s' = (sched_logs s ++ ls)%list
    /\ (sl_message_id <$> ls) ≡ₚ (msg_id <$> held (priority_queue s)) /\ delayed_messages s' = delayed_messages s.
Proof.
  intros Hw. revert s count w. induction fuel as [|fuel IH]; intros s count w Hf; [lia|]. cbn [deliver_all].
  unfold pbind at 1, ebind at 1. destruct (dequeue_takes (priority_queue s) w) as (o & q & Hd & Ht).
  destruct (dequeue (priority_queue s) w) as [d w1]. cbn in Hd. subst d. destruct o as [m|].
  - unfold takes_one in Ht. unfold pbind at 1, ebind at 1.
    destruct (deliver_retrying_returns (S (Z.to_nat (sched_max_retries s))) m (sched_backoff s) (sched_max_retries s) 0 (backoff_seed s) w1)
      as (b & n & seed' & w2 & Hr); [done|rewrite Z.sub_0_r; lia|].
    cbn [sched_max_retries sched_backoff backoff_seed set_priority_queue]. rewrite Hr. unfold ebind at 1, now_ms_i64, ebind at 1.
    destruct (system_millis w2) as [t w3]. cbn [eret].
    set (log := mkScheduleLog _ _ _ _ _ _). set (s1 := add_log log _).
    assert (Hlen : length (held (priority_queue s)) = S (length (held (priority_queue s1)))) by (by rewrite Ht).
    destruct (IH s1 (count + 1) w3) as (s' & w' & ls & Hs' & Hempty & Hlogs & Hids & Hdel); [lia|].
    exists s', w', (log :: ls). unfold eret. rewrite Hs'. split; [cbn [length]; do 2 f_equal; f_equal; lia|].
    split; [done|]. split; [rewrite Hlogs; cbn; by rewrite <- (assoc_L (++))|]. split; [|done].
    rewrite Ht. cbn. by rewrite Hids.
  - destruct Ht as [Ht1 Ht2]. exists (set_priority_queue q s), w1, []. cbn. rewrite Z.add_0_r, app_nil_r, Ht1. done.
Qed.

(** A check of a scheduler that runs, over a queue that never waits, returns.  When it answers a
    number, every message that was ready (in the priority queue, or delayed to a moment that has
    come) was handed to the queue once, with its retries, and logged, and none is left ready;
    an error means that the ready messages exceed the capacity. *)
Theorem check_delivers_ready s (w : W) :
  never_waits -> shutdown s = false ->
  exists r s' w' now, check_and_deliver queue sleep s w = (Some (r, s'), w') /\ fst (now_ms_i64 w) = now
    /\ match r with
       | Ok count => exists ls, sched_logs s' = (sched_logs s ++ ls)%list /\ count = Z.of_nat (length ls)
           /\ held (priority_queue s') = []
           /\ (sl_message_id <$> ls) ≡ₚ
                (msg_id <$> (held (priority_queue s) ++ messages_at (ready_keys now (delayed_messages s)) (delayed_messages s))%list)
           /\ forall k, k <= now -> scheduled s = [] -> delayed_messages s' !! k = None
       | Err _ => capacity (priority_queue s) < Z.of_nat (length (held (priority_queue s))
           + length (messages_at (ready_keys now (delayed_messages s)) (delayed_messages s)))
       end.
Proof.
  intros Hw Hrun. unfold check_and_deliver. rewrite Hrun. unfold ebind at 1.
  destruct (now_ms_i64 w) as [now w1] eqn:Hnow. unfold ebind at 1.
  assert (Hkeys : NoDup (ready_keys now (delayed_messages s))).
  { unfold ready_keys. rewrite merge_sort_Permutation. apply NoDup_filter, NoDup_elements. }
  pose proof (release_keys_ok (ready_keys now (delayed_messages s)) s w1 Hkeys) as Hrel.
  pose proof (fun e => release_keys_err (ready_keys now (delayed_messages s)) s e w1 Hkeys) as Herr.
  destruct (release_keys (ready_keys now (delayed_messages s)) s w1) as [[r s1] w2]. cbn [fst] in Hrel, Herr.
  destruct r as [[]|e]; [|eexists _, _, _, now; split; [reflexivity|]; split; [done|]; by apply (Herr e)].
  destruct (Hrel eq_refl) as (Hh & Hd & Hsch & Hl & _). unfold pbind, ebind.
  destruct (deliver_all_spec (S (length (entries (priority_queue (schedule_each now s1))))) now (schedule_each now s1) 0 w2)
    as (s' & w' & ls & Hs' & Hempty & Hlogs & Hids & Hdel); [done|unfold held; rewrite length_fmap; lia|].
  rewrite Hs'. eexists _, _, _, now. split; [reflexivity|]. split; [done|]. exists ls.
  split; [rewrite Hlogs; cbn; by rewrite Hl|]. split; [lia|]. split; [done|]. split.
  - rewrite Hids. cbn. by rewrite Hh.
  - intros k Hk Hnone. rewrite Hdel. unfold schedule_each. cbn. rewrite Hsch, Hnone. cbn. rewrite Hd.
    case_decide as Hin; [done|]. apply eq_None_not_Some. intros Hx. apply Hin. unfold ready_keys.
    rewrite merge_sort_Permutation. apply list_elem_of_filter. split; [done|]. apply elem_of_elements. by apply elem_of_dom.
Qed.
End Checks.

(** ** Instances, and what the scheduler does not do *)

(** A queue that accepts everything and counts, and a scheduler of two messages. *)
Definition accepting : MessageQueue SimWorld := mkMessageQueue
  (fun topic payload => fun w => (Some (Ok tt), mkSim (sim_time w) (sim_trace w ++ [payload])%list))
  (fun _ => eret (Some (Ok None))) (fun _ => eret (Some (Ok tt))) (fun _ => eret (Some (Ok tt))) default_nack default_reject.

Definition refusing : MessageQueue SimWorld := mkMessageQueue
  (fun topic payload => eret (Some (Err (Publish "down"))))
  (fun _ => eret (Some (Ok None))) (fun _ => eret (Some (Ok tt))) (fun _ => eret (Some (Ok tt))) default_nack default_reject.

Definition sim_sleep (ms : Z) : Eff SimWorld unit := sleep_ns ms.

Definition two_due (capacity : Z) : DelayScheduler (list PriorityEntry) :=
  publish_delayed (mkDelayed high_message 10 5) (publish_delayed (mkDelayed low_message 10 0)
    (delay_scheduler_new (with_queue_capacity capacity schedule_config_default))).

Lemma check_delivers_ready_witness :
  exists s' w', check_and_deliver accepting sim_sleep (two_due 10) (mkSim 10 []) = (Some (Ok 2, s'), w')
    /\ sim_trace w' = ["high"; "low"]
    /\ (sl_message_id <$> sched_logs s') ≡ₚ ["low"; "high"].
Proof.
  destruct (check_delivers_ready accepting sim_sleep (two_due 10) (mkSim 10 [])) as (r & s' & w' & now & Hs & Hnow & Hr); [done|done|].
  exists s', w'. assert (Hn : now = 10) by (rewrite <- Hnow; vm_compute; reflexivity). subst now. rewrite Hn in Hr.
  assert (r = Ok 2) as -> by (vm_compute in Hs; injection Hs as <- <- <-; reflexivity).
  split; [exact Hs|]. split; [vm_compute in Hs; injection Hs as <- <-; vm_compute; reflexivity|].
  destruct Hr as (ls & Hl & _ & _ & Hp & _). rewrite Hl. cbn [app]. exact Hp.
Defined.

(** Two messages of one moment and room for one: the check fails, and the next one finds neither
    delayed nor ready the message that did not fit. *)
Lemma full_check_loses :
  match check_and_deliver accepting sim_sleep (two_due 1) (mkSim 10 []) with
  | (Some (Err _, s), w) =>
      match check_and_deliver accepting sim_sleep s w with
      | (Some (Ok n, s), w) => n = 1 /\ sim_trace w = ["low"] /\ pending_delayed_count s = 0 /\ ready_queue_len s = 0
      | _ => False
      end
  | _ => False
  end.
Proof. vm_compute. by repeat split. Qed.

(** A queue that is down: the message is counted as delivered and kept nowhere. *)
Lemma failed_delivery_loses :
  match check_and_deliver refusing sim_sleep (two_due 10) (mkSim 10 []) with
  | (Some (Ok n, s), _) => n = 2 /\ pending_delayed_count s = 0 /\ ready_queue_len s = 0
      /\ (sl_success <$> sched_logs s) = [false; false]
  | _ => False
  end.
Proof. vm_compute. by repeat split. Qed.

(** A message every minute is delayed once more by every check, ten within a few milliseconds. *)
Definition every_minute : DelayScheduler (list PriorityEntry) :=
  snd (publish_scheduled (with_interval low_message 60000) (delay_scheduler_new schedule_config_default)).

Fixpoint checks (n : nat) (s : DelayScheduler (list PriorityEntry)) : Eff SimWorld (option (DelayScheduler (list PriorityEntry))) :=
  match n with
  | O => eret (Some s)
  | S n => let* r := check_and_deliver accepting sim_sleep s in
      match r with Some (_, s) => checks n s | None => eret None end
  end.

Lemma scheduled_copies_pile_up :
  match checks 10 every_minute (mkSim 0 []) with
  | (Some s, w) => pending_delayed_count s = 10 /\ sim_time w < 100
  | (None, _) => False
  end.
Proof. vm_compute. by split. Qed.

(** Half past nine, half past five and any other half hour are the same moment, and a minute of
    this hour that is gone is one second away. *)
Lemma cron_knows_minutes_only :
  cron_next_ms "30 9 * * *" 0 = 1800000 /\ cron_next_ms "30 17 1 1 *" 0 = 1800000
  /\ cron_next_ms "30 * * * *" 2700000 = 2701000.
Proof. vm_compute. by repeat split. Qed.
