(* ===== verification/SqlSplice.v ===== *)
(** The insertion of conditions into the text of a statement, as
    [sz-orm-core/src/data_permission.rs] and [dynamic_filter.rs] do it: the search of a keyword,
    the splice, and a reader of conditions against which [DataPermission.v] and
    [DynamicFilter.v] state what it achieves. *)

From Stdlib Require Import Ascii String.
From S2P Require Import Prelude SqlText DynamicSql DynamicFacts.
Local Open Scope string_scope.
#[local] Arguments String.append !_ _ : simpl nomatch.

(** * [str::to_uppercase]

    The code slices a text at positions found in its uppercase, so the width of every character
    counts. *)

(** The UTF-8 encoding of a code point. *)
Definition utf8 (n : N) : string :=
  let tail (k : N) := chr (ascii_of_N (128 + N.land (N.shiftr n k) 63)) in
  if (n <? 128)%N then chr (ascii_of_N n)
  else if (n <? 2048)%N then chr (ascii_of_N (192 + N.shiftr n 6)) +:+ tail 0%N
  else if (n <? 65536)%N then chr (ascii_of_N (224 + N.shiftr n 12)) +:+ tail 6%N +:+ tail 0%N
  else chr (ascii_of_N (240 + N.shiftr n 18)) +:+ tail 12%N +:+ tail 6%N +:+ tail 0%N.

(** The characters outside ASCII whose uppercase has another width or ASCII characters. *)
Definition uppercase_widths : list (N * list N) :=
  [ (223, [83; 83]); (305, [73]); (329, [700; 78]); (383, [83]); (411, [42972]); (496, [74; 780]);
    (575, [11390]); (576, [11391]); (592, [11375]); (593, [11373]); (594, [11376]); (604, [42923]);
    (609, [42924]); (612, [42955]); (613, [42893]); (614, [42922]); (618, [42926]); (619, [11362]);
    (620, [42925]); (625, [11374]); (637, [11364]); (642, [42949]); (647, [42929]); (669, [42930]);
    (670, [42928]); (912, [921; 776; 769]); (944, [933; 776; 769]); (1415, [1333; 1362]); (7296, [1042]);
    (7297, [1044]); (7298, [1054]); (7299, [1057]); (7300, [1058]); (7301, [1058]); (7302, [1066]);
    (7303, [1122]); (7830, [72; 817]); (7831, [84; 776]); (7832, [87; 778]); (7833, [89; 778]);
    (7834, [65; 702]); (8016, [933; 787]); (8018, [933; 787; 768]); (8020, [933; 787; 769]);
    (8022, [933; 787; 834]); (8064, [7944; 921]); (8065, [7945; 921]); (8066, [7946; 921]);
    (8067, [7947; 921]); (8068, [7948; 921]); (8069, [7949; 921]); (8070, [7950; 921]);
    (8071, [7951; 921]); (8072, [7944; 921]); (8073, [7945; 921]); (8074, [7946; 921]);
    (8075, [7947; 921]); (8076, [7948; 921]); (8077, [7949; 921]); (8078, [7950; 921]);
    (8079, [7951; 921]); (8080, [7976; 921]); (8081, [7977; 921]); (8082, [7978; 921]);
    (8083, [7979; 921]); (8084, [7980; 921]); (8085, [7981; 921]); (8086, [7982; 921]);
    (8087, [7983; 921]); (8088, [7976; 921]); (8089, [7977; 921]); (8090, [7978; 921]);
    (8091, [7979; 921]); (8092, [7980; 921]); (8093, [7981; 921]); (8094, [7982; 921]);
    (8095, [7983; 921]); (8096, [8040; 921]); (8097, [8041; 921]); (8098, [8042; 921]);
    (8099, [8043; 921]); (8100, [8044; 921]); (8101, [8045; 921]); (8102, [8046; 921]);
    (8103, [8047; 921]); (8104, [8040; 921]); (8105, [8041; 921]); (8106, [8042; 921]);
    (8107, [8043; 921]); (8108, [8044; 921]); (8109, [8045; 921]); (8110, [8046; 921]);
    (8111, [8047; 921]); (8114, [8122; 921]); (8115, [913; 921]); (8116, [902; 921]); (8118, [913; 834]);
    (8119, [913; 834; 921]); (8124, [913; 921]); (8126, [921]); (8130, [8138; 921]); (8131, [919; 921]);
    (8132, [905; 921]); (8134, [919; 834]); (8135, [919; 834; 921]); (8140, [919; 921]);
    (8146, [921; 776; 768]); (8147, [921; 776; 769]); (8150, [921; 834]); (8151, [921; 776; 834]);
    (8162, [933; 776; 768]); (8163, [933; 776; 769]); (8164, [929; 787]); (8166, [933; 834]);
    (8167, [933; 776; 834]); (8178, [8186; 921]); (8179, [937; 921]); (8180, [911; 921]);
    (8182, [937; 834]); (8183, [937; 834; 921]); (8188, [937; 921]); (11365, [570]); (11366, [574]);
    (64256, [70; 70]); (64257, [70; 73]); (64258, [70; 76]); (64259, [70; 70; 73]); (64260, [70; 70; 76]);
    (64261, [83; 84]); (64262, [83; 84]); (64275, [1348; 1350]); (64276, [1348; 1333]);
    (64277, [1348; 1339]); (64278, [1358; 1350]); (64279, [1348; 1341]) ]%N.

Definition upper_table : list (string * string) :=
  Eval vm_compute in ((fun '(c, u) => (utf8 c, join "" (utf8 <$> u))) <$> uppercase_widths).

Fixpoint to_uppercase_go (fuel : nat) (s : string) : string :=
  match fuel with
  | O => EmptyString
  | S fuel =>
      match list_find (fun p => starts_with (fst p) s = true) upper_table with
      | Some (_, (p, u)) => u +:+ to_uppercase_go fuel (drop_bytes (String.length p) s)
      | None =>
          match s with
          | EmptyString => EmptyString
          | String c s => String (to_ascii_uppercase c) (to_uppercase_go fuel s)
          end
      end
  end.

(** The other characters outside ASCII are left as they are: their uppercase has their width. *)
Definition to_uppercase (s : string) : string := to_uppercase_go (String.length s) s.

Example to_uppercase_example : to_uppercase (utf8 305 +:+ "d " +:+ utf8 223 +:+ utf8 233) = "ID SS" +:+ utf8 233.
Proof. reflexivity. Qed.

(** * The search of a keyword *)

(** [is_ascii_alphanumeric() || == b'_'] *)
Definition word_char (c : ascii) : bool := is_ascii_alphanumeric c || Ascii.eqb c "_".

Definition boundary (c : option ascii) : bool := match c with Some c => negb (word_char c) | None => true end.

Definition wrap_i32 (z : Z) : Z := ((z + 2 ^ 31) mod 2 ^ 32 - 2 ^ 31)%Z.

(** The loop of [find_keyword] from position [i]: [prev] is the byte before it, [s] the bytes
    from it on. *)
Fixpoint find_keyword_go (kw : string) (prev : option ascii) (depth : Z) (i : nat) (s : string) : option nat :=
  if (String.length s <? String.length kw)%nat then None
  else
    match s with
    | EmptyString => None
    | String b rest =>
        if Ascii.eqb b "(" then find_keyword_go kw (Some b) (wrap_i32 (depth + 1)) (S i) rest
        else if Ascii.eqb b ")" then
          find_keyword_go kw (Some b) (if (0 <? depth)%Z then wrap_i32 (depth - 1) else depth) (S i) rest
        else if (depth =? 0)%Z && starts_with kw s && boundary prev && boundary (String.get (String.length kw) s)
        then Some i
        else find_keyword_go kw (Some b) depth (S i) rest
    end.

Definition find_keyword (sql keyword : string) : option nat :=
  let upper_sql := to_uppercase sql in
  let kw_upper := to_uppercase keyword in
  if (String.length kw_upper =? 0)%nat || (String.length upper_sql <? String.length kw_upper)%nat then None
  else find_keyword_go kw_upper None 0 0 upper_sql.

(** [find_keyword_pos] of [dynamic_filter.rs], which does not count parentheses. *)
Fixpoint find_keyword_pos_go (kw : string) (prev : option ascii) (i : nat) (s : string) : option nat :=
  if (String.length s <? String.length kw)%nat then None
  else
    match s with
    | EmptyString => None
    | String b rest =>
        if starts_with kw s && boundary prev && boundary (String.get (String.length kw) s) then Some i
        else find_keyword_pos_go kw (Some b) (S i) rest
    end.

Definition find_keyword_pos (sql keyword : string) : option nat :=
  let upper_sql := to_uppercase sql in
  let kw_upper := to_uppercase keyword in
  if (String.length kw_upper =? 0)%nat || (String.length upper_sql <? String.length kw_upper)%nat then None
  else find_keyword_pos_go kw_upper None 0 upper_sql.

(** * The splice *)

(** [s[a..b]], [None] where it panics. *)
Definition slice (a b : nat) (s : string) : option string :=
  if (b <? a)%nat then None else s ← slice_to b s; slice_from a s.

(** [Iterator::min] of the positions that were found *)
Definition min_pos (l : list (option nat)) : option nat :=
  foldr (fun o m => match o, m with
                    | Some a, Some b => Some (Nat.min a b)
                    | Some a, None => Some a
                    | None, m => m
                    end) None l.

(** [append_where_clauses] and [append_filter_clauses], the same text but for the search;
    [None] where a slice panics. *)
Definition append_clauses (find : string -> string -> option nat) (sql : string) (clauses : list string)
    : option string :=
  if is_nil clauses then Some sql
  else
    let combined := join " AND " clauses in
    let upper := to_uppercase sql in
    let where_pos := find upper "WHERE" in
    let end_pos := min_pos [find upper "GROUP BY"; find upper "ORDER BY"; find upper "LIMIT"; find upper "HAVING"] in
    let insert_pos := default (String.length sql) end_pos in
    match where_pos with
    | Some wp =>
        before ← slice_to (wp + 5) sql;
        existing_clause ← slice (wp + 5) insert_pos sql;
        after ← slice_from insert_pos sql;
        let trimmed_existing := trim existing_clause in
        Some (if (trimmed_existing =? "")%string then before +:+ " " +:+ combined +:+ after
              else before +:+ " (" +:+ trimmed_existing +:+ " ) AND (" +:+ combined +:+ ")" +:+ after)
    | None =>
        before ← slice_to insert_pos sql;
        after ← slice_from insert_pos sql;
        let trimmed := trim_end before in
        let sep := if (trimmed =? "")%string then "" else " " in
        Some (trimmed +:+ sep +:+ "WHERE " +:+ combined +:+ after)
    end.

Definition append_where_clauses : string -> list string -> option string := append_clauses find_keyword.
Definition append_filter_clauses : string -> list string -> option string := append_clauses find_keyword_pos.

Example append_example :
  append_where_clauses "select * from t where a in (select b from u limit 3) order by c" ["t = 5"]
  = Some "select * from t where (a in (select b from u limit 3) ) AND (t = 5)order by c".
Proof. vm_compute. reflexivity. Qed.

(** * What the search finds

    The words of a text outside parentheses, in uppercase, and the depth it ends at. *)

Fixpoint ascii_uppercase (s : string) : string :=
  match s with String c s => String (to_ascii_uppercase c) (ascii_uppercase s) | EmptyString => EmptyString end.

Fixpoint depth_after (d : nat) (s : string) : nat :=
  match s with
  | EmptyString => d
  | String c s => depth_after (if Ascii.eqb c "(" then S d else if Ascii.eqb c ")" then pred d else d) s
  end.

(** [w] is the beginning of the word the text continues. *)
Fixpoint top_words (d : nat) (w s : string) : list string :=
  match s with
  | EmptyString => [w]
  | String c s =>
      if (d =? 0)%nat && word_char c then top_words d (w +:+ chr (to_ascii_uppercase c)) s
      else w :: top_words (if Ascii.eqb c "(" then S d else if Ascii.eqb c ")" then pred d else d) "" s
  end.

Example top_words_example :
  top_words 0 "" "select (limit), x_limit" = ["SELECT"; ""; ""; ""; ""; ""; ""; ""; ""; ""; "X_LIMIT"].
Proof. reflexivity. Qed.

Fixpoint last_char (prev : option ascii) (s : string) : option ascii :=
  match s with String c s => last_char (Some c) s | EmptyString => prev end.

(** Uppercasing changes nothing but ASCII letters. *)
Definition narrow (s : string) : bool := forallb (fun p => negb (contains_text (fst p) s)) upper_table.

(** ** Uppercase *)

Lemma narrow_none s : narrow s = true -> list_find (fun p : string * string => starts_with p.1 s = true) upper_table = None.
Proof.
  intros Hs. apply list_find_None. unfold narrow in Hs. apply Forall_forall. intros p Hp Hst.
  rewrite forallb_forall in Hs. apply list_elem_of_In in Hp. specialize (Hs p Hp). apply negb_true_iff in Hs.
  destruct s as [|c s]; cbn [contains_text] in Hs; rewrite Hst in Hs; done.
Qed.

Lemma narrow_tail c s : narrow (String c s) = true -> narrow s = true.
Proof.
  unfold narrow. rewrite !forallb_forall. intros Hs p Hp. specialize (Hs p Hp). rewrite negb_true_iff in *.
  cbn in Hs. by apply orb_false_iff in Hs as [_ Hs].
Qed.

Lemma to_uppercase_narrow s : narrow s = true -> to_uppercase s = ascii_uppercase s.
Proof.
  unfold to_uppercase. induction s as [|c s IH]; intros Hs; [done|]. cbn [String.length to_uppercase_go].
  rewrite narrow_none by done. cbn [ascii_uppercase]. f_equal. apply IH. by eapply narrow_tail.
Qed.

Lemma upper_twice c : to_ascii_uppercase (to_ascii_uppercase c) = to_ascii_uppercase c.
Proof. by destruct c as [[] [] [] [] [] [] [] []]. Qed.

Lemma upper_word c : word_char (to_ascii_uppercase c) = word_char c.
Proof. by destruct c as [[] [] [] [] [] [] [] []]. Qed.

Lemma upper_high c x : (128 <=? nat_of_ascii x)%nat = true -> Ascii.eqb x (to_ascii_uppercase c) = Ascii.eqb x c.
Proof.
  intros Hx.
  assert (Hc : (to_ascii_uppercase c =? c)%char || ((nat_of_ascii c <? 128)%nat && (nat_of_ascii (to_ascii_uppercase c) <? 128)%nat) = true)
    by (by destruct c as [[] [] [] [] [] [] [] []]).
  apply orb_true_iff in Hc as [->%Ascii.eqb_eq|[H1 H2]%andb_true_iff]; [done|].
  apply Nat.leb_le in Hx. apply Nat.ltb_lt in H1, H2.
  assert (x <> c /\ x <> to_ascii_uppercase c) as [E1%Ascii.eqb_neq E2%Ascii.eqb_neq] by (split; intros ->; lia).
  by rewrite E1, E2.
Qed.

Lemma upper_paren c x : In x ["("; ")"; " "; "'"]%char -> Ascii.eqb (to_ascii_uppercase c) x = Ascii.eqb c x.
Proof. intros Hx. repeat (destruct Hx as [<-|Hx]; [by destruct c as [[] [] [] [] [] [] [] []]|]). done. Qed.

Lemma ascii_uppercase_length s : String.length (ascii_uppercase s) = String.length s.
Proof. induction s as [|c s IH]; [done|]. cbn. by rewrite IH. Qed.

Lemma ascii_uppercase_app a b : ascii_uppercase (a +:+ b) = ascii_uppercase a +:+ ascii_uppercase b.
Proof. induction a as [|c a IH]; [done|]. cbn. by rewrite IH. Qed.

Lemma ascii_uppercase_twice s : ascii_uppercase (ascii_uppercase s) = ascii_uppercase s.
Proof. induction s as [|c s IH]; [done|]. cbn. by rewrite upper_twice, IH. Qed.

Lemma starts_cons c p x s : starts_with (String c p) (String x s) = Ascii.eqb c x && starts_with p s.
Proof. unfold starts_with. cbn. destruct (ascii_dec c x) as [->|Hn]; [by rewrite Ascii.eqb_refl|]. by apply Ascii.eqb_neq in Hn as ->. Qed.

Lemma narrow_upper s : narrow (ascii_uppercase s) = narrow s.
Proof.
  assert (Ht : forallb (fun p => all_chars (fun x => 128 <=? nat_of_ascii x)%nat p.1) upper_table = true) by (vm_compute; reflexivity).
  assert (Hst : forall p s, all_chars (fun x => 128 <=? nat_of_ascii x)%nat p = true -> starts_with p (ascii_uppercase s) = starts_with p s).
  { induction p as [|c p IH]; intros [|x t]; try done. cbn [all_chars ascii_uppercase]. intros [Hc Hp]%andb_true_iff.
    rewrite !starts_cons, upper_high by done. by rewrite IH. }
  assert (Hct : forall p s, all_chars (fun x => 128 <=? nat_of_ascii x)%nat p = true -> contains_text p (ascii_uppercase s) = contains_text p s).
  { intros p. induction s0 as [|c s0 IH]; intros Hp; [done|]. cbn [contains_text ascii_uppercase].
    rewrite <- (Hst p (String c s0)) by done. cbn [ascii_uppercase]. by rewrite IH. }
  unfold narrow. rewrite forallb_forall in Ht. revert Ht. induction upper_table as [|p l IH]; intros Ht; [done|]. cbn [forallb].
  rewrite IH by (intros; apply Ht; by right). rewrite (Hct p.1); [done|]. apply Ht. by left.
Qed.

(** ** Words *)

Lemma last_char_app prev a b : last_char prev (a +:+ b) = last_char (last_char prev a) b.
Proof. revert prev. induction a as [|c a IH]; intros prev; [done|]. apply IH. Qed.

Lemma last_char_upper prev a :
  last_char (to_ascii_uppercase <$> prev) (ascii_uppercase a) = to_ascii_uppercase <$> last_char prev a.
Proof. revert prev. induction a as [|c a IH]; intros prev; [done|]. apply (IH (Some c)). Qed.

Lemma boundary_upper o : boundary (to_ascii_uppercase <$> o) = boundary o.
Proof. destruct o as [c|]; [|done]. cbn. by rewrite upper_word. Qed.

Lemma get_upper n s : String.get n (ascii_uppercase s) = to_ascii_uppercase <$> String.get n s.
Proof. revert n. induction s as [|c s IH]; intros n; [by destruct n|]. destruct n as [|n]; [done|]. apply IH. Qed.

Lemma depth_after_app d a b : depth_after d (a +:+ b) = depth_after (depth_after d a) b.
Proof. revert d. induction a as [|c a IH]; intros d; [done|]. apply IH. Qed.

(** A word that is found where a text begins is the first one of the text. *)
Lemma first_word k0 : forall w a prev rest, all_chars word_char k0 = true -> a <> "" \/ boundary prev = false ->
  starts_with k0 (ascii_uppercase (a +:+ rest)) = true ->
  boundary (String.get (String.length k0) (a +:+ rest)) = true ->
  boundary (last_char prev a) || boundary (String.get 0 rest) = true -> (w +:+ k0) ∈ top_words 0 w a.
Proof.
  induction k0 as [|x k0 IH]; intros w a prev rest Hk Ha Hst Hb Hj.
  - rewrite str_app_nil_r. destruct a as [|c a]; [by left|]. cbn in Hb. cbn [top_words]. rewrite negb_true_iff in Hb.
    rewrite Hb. cbn [andb Nat.eqb]. left.
  - cbn in Hk. apply andb_true_iff in Hk as [Hx Hk]. destruct a as [|c a].
    + destruct Ha as [Ha|Ha]; [done|]. cbn [String.append] in *. destruct rest as [|r rest]; [done|].
      cbn [ascii_uppercase] in Hst. rewrite starts_cons in Hst. apply andb_true_iff in Hst as [He _]. apply Ascii.eqb_eq in He as ->.
      cbn in Hj. rewrite upper_word in Hx. rewrite Ha, Hx in Hj. done.
    + rewrite str_app_cons in *. cbn [ascii_uppercase] in Hst. rewrite starts_cons in Hst. apply andb_true_iff in Hst as [He Hst].
      apply Ascii.eqb_eq in He as ->. rewrite upper_word in Hx. cbn [top_words]. rewrite Hx. cbn [andb Nat.eqb].
      replace (w +:+ String (to_ascii_uppercase c) k0) with ((w +:+ chr (to_ascii_uppercase c)) +:+ k0) by (by rewrite str_app_assoc).
      apply (IH _ a (Some c) rest); try done. right. cbn. by rewrite Hx.
Qed.

(** ** The loop *)

Section Search.
(** A keyword is a word and what follows it in the keyword. *)
Variables k0 k1 : string.
Hypothesis Hk0 : all_chars word_char k0 = true.
Hypothesis Hne : k0 <> "".
Hypothesis Hk1 : boundary (String.get 0 k1) = true.
Let kw : string := k0 +:+ k1.

Lemma find_go_short prev d i s : (String.length s < String.length kw)%nat -> find_keyword_go kw prev d i s = None.
Proof. intros Hs. apply Nat.ltb_lt in Hs. destruct s; cbn [find_keyword_go]; by rewrite Hs. Qed.

Lemma find_go_ge prev d i s p : find_keyword_go kw prev d i s = Some p -> (i <= p)%nat.
Proof.
  revert prev d i. induction s as [|c s IH]; intros prev d i; cbn [find_keyword_go]; [by destruct (_ <? _)%nat|].
  destruct (_ <? _)%nat; [done|]. repeat (case_match; try (intros Hf%IH; lia)). intros [= <-]. lia.
Qed.

Lemma get_app_r n a b : String.get (String.length a + n) (a +:+ b) = String.get n b.
Proof. induction a as [|c a IH]; [done|]. apply IH. Qed.

Lemma starts_app_l a b s : starts_with (a +:+ b) s = true -> starts_with a s = true /\ exists r, s = a +:+ r /\ starts_with b r = true.
Proof.
  intros Hs. apply prefix_drop in Hs. revert Hs. generalize (drop_bytes (String.length (a +:+ b)) s). intros r ->.
  rewrite str_app_assoc. split; [apply starts_app|]. eexists. split; [done|]. apply starts_app.
Qed.

(** A keyword at the head of a text is a word of it. *)
Lemma keyword_word a prev rest : a <> "" -> boundary (last_char prev a) || boundary (String.get 0 rest) = true ->
  starts_with kw (ascii_uppercase (a +:+ rest)) = true ->
  boundary (String.get (String.length kw) (ascii_uppercase (a +:+ rest))) = true -> k0 ∈ top_words 0 "" a.
Proof.
  intros Ha Hj Hst Hb. change k0 with ("" +:+ k0). pose proof Hst as Hst0. apply starts_app_l in Hst as (Hst & r & Hr & Hr1).
  apply (first_word k0 "" a prev rest); try done; [by left|].
  rewrite <- boundary_upper, <- get_upper, Hr.
  replace (String.length k0) with (String.length k0 + 0)%nat by lia. rewrite get_app_r.
  destruct k1 as [|x k1'] eqn:E1.
  - unfold kw in Hb. rewrite str_app_nil_r, Hr in Hb.
    replace (String.length k0) with (String.length k0 + 0)%nat in Hb by lia. by rewrite get_app_r in Hb.
  - destruct r as [|y r]; [done|]. rewrite starts_cons in Hr1. apply andb_true_iff in Hr1 as [->%Ascii.eqb_eq _]. exact Hk1.
Qed.

Definition calm (a : string) : Prop := k0 ∉ top_words 0 "" a.

Lemma find_go_skip a : forall d prev w i rest, (Z.of_nat (d + String.length a) < 2 ^ 31)%Z ->
  (d = 0%nat -> boundary prev = bool_decide (w = "")) -> k0 ∉ top_words d w a ->
  boundary (last_char prev a) || boundary (String.get 0 rest) = true ->
  find_keyword_go kw (to_ascii_uppercase <$> prev) (Z.of_nat d) i (ascii_uppercase (a +:+ rest))
  = find_keyword_go kw (to_ascii_uppercase <$> last_char prev a) (Z.of_nat (depth_after d a)) (i + String.length a) (ascii_uppercase rest).
Proof.
  induction a as [|c a IH]; intros d prev w i rest Hlen Hprev Hk Hj.
  { cbn [String.length depth_after last_char]. by rewrite Nat.add_0_r. }
  destruct (Nat.ltb_spec (String.length (ascii_uppercase (String c a +:+ rest))) (String.length kw)) as [Hs|Hs].
  { rewrite !find_go_short; [done| |done]. rewrite !ascii_uppercase_length in *. rewrite str_app_length in Hs. lia. }
  cbn [String.length] in Hlen. rewrite str_app_cons in *. cbn [ascii_uppercase find_keyword_go depth_after last_char String.length].
  apply Nat.ltb_ge in Hs as Hs'. cbn [ascii_uppercase String.length] in Hs'. rewrite Hs'. rewrite <- Nat.add_succ_comm.
  change (Some (to_ascii_uppercase c)) with (to_ascii_uppercase <$> Some c).
  rewrite !upper_paren by (cbn; tauto). pose proof Hk as Hword. cbn [top_words] in Hk. destruct (Ascii.eqb_spec c "(") as [->|Hopen].
  { rewrite andb_false_r in Hk. cbn [orb] in Hk. replace (wrap_i32 (Z.of_nat d + 1)) with (Z.of_nat (S d)).
    - apply IH with (w := ""); [lia|done| |done]. intros Hin. apply Hk. by right.
    - unfold wrap_i32. rewrite Z.mod_small; lia. }
  destruct (Ascii.eqb_spec c ")") as [->|Hclose].
  { rewrite andb_false_r in Hk. replace (if (0 <? Z.of_nat d)%Z then _ else _) with (Z.of_nat (pred d)).
    - apply IH with (w := ""); [lia|done| |done]. intros Hin. apply Hk. by right.
    - unfold wrap_i32. destruct d as [|d]; [done|]. destruct (Z.ltb_spec 0 (Z.of_nat (S d))); [|lia]. rewrite Z.mod_small; lia. }
  destruct ((d =? 0)%nat && word_char c) eqn:Hw.
  - apply andb_true_iff in Hw as [->%Nat.eqb_eq Hw]. replace (_ && _) with false; cycle 1.
    { symmetry. apply not_true_iff_false. intros [[[_ Hst]%andb_true_iff Hb]%andb_true_iff Hg]%andb_true_iff.
      rewrite boundary_upper, Hprev in Hb by done. apply bool_decide_eq_true in Hb as ->. apply Hword.
      apply (keyword_word (String c a) prev rest); [done|done|exact Hst|exact Hg]. }
    apply IH with (w := w +:+ chr (to_ascii_uppercase c)); [cbn in *; lia| |done|done].
    intros _. cbn. rewrite Hw. symmetry. apply bool_decide_eq_false. by destruct w.
  - replace ((Z.of_nat d =? 0)%Z && starts_with kw (String (to_ascii_uppercase c) (ascii_uppercase (a +:+ rest)))
             && boundary (to_ascii_uppercase <$> prev) && boundary (String.get (String.length kw)
               (String (to_ascii_uppercase c) (ascii_uppercase (a +:+ rest))))) with false; cycle 1.
    { symmetry. apply not_true_iff_false. intros [[[Hd Hst]%andb_true_iff Hb]%andb_true_iff Hg]%andb_true_iff.
      apply Z.eqb_eq in Hd. assert (d = 0%nat) as -> by lia. cbn [Nat.eqb andb] in Hw.
      apply starts_app_l in Hst as (Hst & _). destruct k0 as [|x k0']; [done|]. rewrite starts_cons in Hst.
      apply andb_true_iff in Hst as [->%Ascii.eqb_eq _]. cbn in Hk0. rewrite upper_word, Hw in Hk0. done. }
    apply IH with (w := ""); [lia| | |done].
    + intros ->. cbn [Nat.eqb andb] in Hw. cbn. rewrite Hw. symmetry. by apply bool_decide_eq_true.
    + intros Hin. apply Hk. by right.
Qed.

Lemma find_go_found prev i rest : boundary prev = true -> boundary (String.get 0 rest) = true ->
  find_keyword_go kw prev 0 i (kw +:+ rest) = Some i.
Proof.
  intros Hp Hr. assert (Hlen : (String.length (kw +:+ rest) <? String.length kw)%nat = false) by (apply Nat.ltb_ge; rewrite str_app_length; lia).
  assert (Hg : boundary (String.get (String.length kw) (kw +:+ rest)) = true).
  { replace (String.length kw) with (String.length kw + 0)%nat by lia. by rewrite get_app_r. }
  pose proof (starts_app kw rest) as Hst. unfold kw in *. destruct k0 as [|c k0']; [done|]. cbn in Hk0. apply andb_true_iff in Hk0 as [Hc _].
  rewrite !str_app_cons in *. cbn [find_keyword_go]. rewrite Hlen, Hst, Hp, Hg.
  destruct (Ascii.eqb_spec c "(") as [->|_]; [done|]. destruct (Ascii.eqb_spec c ")") as [->|_]; done.
Qed.
End Search.

(** ** On statements *)

Definition short (s : string) : Prop := (Z.of_nat (String.length s) < 2 ^ 31)%Z.

(** The keywords with their first words. *)
Definition keyword (k0 kw : string) : Prop :=
  In (k0, kw) [("WHERE", "WHERE"); ("GROUP", "GROUP BY"); ("ORDER", "ORDER BY"); ("LIMIT", "LIMIT"); ("HAVING", "HAVING")].
Definition end_keyword (k0 kw : string) : Prop :=
  In (k0, kw) [("GROUP", "GROUP BY"); ("ORDER", "ORDER BY"); ("LIMIT", "LIMIT"); ("HAVING", "HAVING")].

Lemma end_keyword_keyword k0 kw : end_keyword k0 kw -> keyword k0 kw.
Proof. intros H. by right. Qed.

Lemma keyword_parts k0 kw : keyword k0 kw -> exists k1, kw = k0 +:+ k1 /\ all_chars word_char k0 = true /\ k0 <> "" /\
  boundary (String.get 0 k1) = true /\ to_uppercase kw = kw.
Proof.
  intros Hk. repeat (destruct Hk as [[= <- <-]|Hk]; [first [by exists ""; repeat split; vm_compute|by exists " BY"; repeat split; vm_compute]|]). done.
Qed.

Lemma find_keyword_narrow k0 kw s : keyword k0 kw -> narrow s = true ->
  find_keyword (to_uppercase s) kw = find_keyword_go kw None 0 0 (ascii_uppercase s).
Proof.
  intros Hk Hs. unfold find_keyword. rewrite (to_uppercase_narrow s Hs), (to_uppercase_narrow (ascii_uppercase s)) by (by rewrite narrow_upper).
  rewrite ascii_uppercase_twice. destruct (keyword_parts k0 kw Hk) as (k1 & -> & Hw & Hne & Hb & ->).
  destruct (Nat.eqb_spec (String.length (k0 +:+ k1)) 0) as [Hz|_].
  { rewrite str_app_length in Hz. destruct k0; [done|cbn in Hz; lia]. }
  cbn [orb]. destruct (_ <? _)%nat eqn:Hl; [|done]. apply Nat.ltb_lt in Hl. symmetry. by apply find_go_short.
Qed.

Section Find.
Variables k0 kw a : string.
Hypothesis Hk : keyword k0 kw.
Hypothesis Ha : calm k0 a.
Hypothesis Hd : depth_after 0 a = 0%nat.

Lemma find_keyword_skip rest : narrow (a +:+ rest) = true -> short (a +:+ rest) ->
  boundary (last_char None a) || boundary (String.get 0 rest) = true ->
  find_keyword (to_uppercase (a +:+ rest)) kw
  = find_keyword_go kw (to_ascii_uppercase <$> last_char None a) 0 (String.length a) (ascii_uppercase rest).
Proof.
  intros Hn Hs Hj. rewrite (find_keyword_narrow k0) by done. destruct (keyword_parts k0 kw Hk) as (k1 & -> & Hw & Hne & Hb & _).
  unfold short in Hs. rewrite str_app_length in Hs.
  pose proof (find_go_skip k0 k1 Hw Hne Hb a 0 None "" 0 rest) as E. rewrite Hd in E. apply E; try done. lia.
Qed.

Lemma find_keyword_at w rest : ascii_uppercase w = kw -> narrow (a +:+ w +:+ rest) = true -> short (a +:+ w +:+ rest) ->
  boundary (last_char None a) = true -> boundary (String.get 0 rest) = true ->
  find_keyword (to_uppercase (a +:+ w +:+ rest)) kw = Some (String.length a).
Proof.
  intros Hw Hn Hs Hl Hr. rewrite find_keyword_skip; [|done|done|by rewrite Hl]. rewrite ascii_uppercase_app, Hw.
  destruct (keyword_parts k0 kw Hk) as (k1 & -> & Hk0 & Hne & Hb & _). apply find_go_found; try done.
  - by rewrite boundary_upper.
  - by rewrite get_upper, boundary_upper.
Qed.

Lemma find_keyword_after rest : narrow (a +:+ rest) = true -> short (a +:+ rest) ->
  boundary (last_char None a) || boundary (String.get 0 rest) = true ->
  match find_keyword (to_uppercase (a +:+ rest)) kw with Some p => String.length a <= p | None => True end.
Proof.
  intros Hn Hs Hj. rewrite find_keyword_skip by done. destruct (find_keyword_go _ _ _ _ _) eqn:Hf; [|done].
  destruct (keyword_parts k0 kw Hk) as (k1 & -> & _). by apply find_go_ge in Hf.
Qed.

Lemma find_keyword_none : narrow a = true -> short a -> find_keyword (to_uppercase a) kw = None.
Proof.
  intros Hn Hs. rewrite <- (str_app_nil_r a) in Hn, Hs |- *. rewrite find_keyword_skip; [|done|done|by rewrite orb_true_r].
  destruct (keyword_parts k0 kw Hk) as (k1 & -> & _ & Hne & _). apply find_go_short. rewrite str_app_length. destruct k0; [done|cbn; lia].
Qed.
End Find.

(** A text ends before the clauses that follow the conditions, or with the statement. *)
Definition clause_start (tail : string) : Prop :=
  tail = "" \/ exists k0 kw w r, end_keyword k0 kw /\ ascii_uppercase w = kw /\ tail = w +:+ r /\ boundary (String.get 0 r) = true.

Definition calm_ends (a : string) : Prop := forall k0 kw, end_keyword k0 kw -> calm k0 a.

Definition end_positions (upper : string) : list (option nat) :=
  [find_keyword upper "GROUP BY"; find_keyword upper "ORDER BY"; find_keyword upper "LIMIT"; find_keyword upper "HAVING"].

Lemma min_pos_cons o l : min_pos (o :: l) =
  match o, min_pos l with Some a, Some b => Some (Nat.min a b) | Some a, None => Some a | None, m => m end.
Proof. done. Qed.

Lemma min_pos_least l n : Some n ∈ l -> Forall (fun o => match o with Some p => n <= p | None => True end)%nat l -> min_pos l = Some n.
Proof.
  intros Hin Hl. induction Hl as [|o l Ho Hl IH]; [by apply elem_of_nil in Hin|]. rewrite min_pos_cons.
  assert (Hm : match min_pos l with Some p => n <= p | None => True end).
  { clear -Hl. induction Hl as [|o l Ho Hl IH]; [done|]. rewrite min_pos_cons. destruct o, (min_pos l); lia || done. }
  apply elem_of_cons in Hin as [<-|Hin].
  - destruct (min_pos l); [|done]. f_equal. lia.
  - rewrite IH by done. destruct o; [|done]. f_equal. lia.
Qed.

Lemma min_pos_none l : Forall (fun o => o = None) l -> min_pos l = None.
Proof. induction 1 as [|o l -> Hl IH]; [done|exact IH]. Qed.

Lemma end_keyword_head k0 kw : end_keyword k0 kw -> exists x kw', kw = String x kw' /\ ascii_in "A" "Z" x = true.
Proof. intros Hk. repeat (destruct Hk as [[= <- <-]|Hk]; [by do 2 eexists|]). done. Qed.

Lemma insert_position body tail : calm_ends body -> depth_after 0 body = 0%nat -> clause_start tail ->
  narrow (body +:+ tail) = true -> short (body +:+ tail) -> boundary (last_char None body) = true \/ tail = "" ->
  default (String.length (body +:+ tail)) (min_pos (end_positions (to_uppercase (body +:+ tail)))) = String.length body.
Proof.
  intros Hc Hd Ht Hn Hs Hl. destruct Ht as [->|(k0 & kw & w & r & Hk & Hw & -> & Hr)].
  - rewrite str_app_nil_r in *. rewrite min_pos_none; [done|]. unfold end_positions.
    repeat constructor; eapply find_keyword_none; try done; try (by apply end_keyword_keyword; cbn; tauto); eapply Hc; cbn; tauto.
  - assert (Hl' : boundary (last_char None body) = true) by (destruct Hl as [Hl|Hl]; [done|by destruct w; [subst; cbn in Hk; intuition congruence|]]).
    rewrite (min_pos_least _ (String.length body)); [done| |].
    + pose proof (find_keyword_at k0 kw body (end_keyword_keyword _ _ Hk) (Hc _ _ Hk) Hd w r Hw Hn Hs Hl' Hr) as Hf.
      rewrite <- Hf. clear -Hk. apply list_elem_of_In. repeat (destruct Hk as [[= <- <-]|Hk]; [cbn; tauto|]). done.
    + unfold end_positions. repeat constructor; eapply find_keyword_after; try done;
        try (by apply end_keyword_keyword; cbn; tauto); try (eapply Hc; cbn; tauto); by rewrite Hl'.
Qed.

(** ** Slices *)

Definition separator (o : option ascii) : bool :=
  match o with Some c => negb (word_char c) && (nat_of_ascii c <? 128)%nat | None => true end.

Definition sliceable (s : string) : Prop := match s with String c _ => ascii_in "128" "191" c = false | EmptyString => True end.

Lemma slice_from_app a b : sliceable b -> slice_from (String.length a) (a +:+ b) = Some b.
Proof.
  intros Hb. unfold slice_from. rewrite str_app_length. destruct (Nat.ltb_spec (String.length a + String.length b) (String.length a)); [lia|].
  pose proof (drop_app a b) as Hd. unfold drop_bytes in Hd. rewrite str_app_length in Hd. rewrite Hd.
  destruct b as [|c b]; [done|]. cbn in Hb. by rewrite Hb.
Qed.

Lemma substring_app a b : String.substring 0 (String.length a) (a +:+ b) = a.
Proof. induction a as [|c a IH]; [by destruct b|]. cbn. by rewrite IH. Qed.

Lemma slice_to_app a b : sliceable b -> slice_to (String.length a) (a +:+ b) = Some a.
Proof. intros Hb. unfold slice_to. rewrite slice_from_app by done. cbn. by rewrite substring_app. Qed.

Lemma slice_app a b c : sliceable (b +:+ c) -> sliceable c ->
  slice (String.length a) (String.length a + String.length b) (a +:+ b +:+ c) = Some b.
Proof.
  intros Hbc Hc. unfold slice. destruct (Nat.ltb_spec (String.length a + String.length b) (String.length a)); [lia|].
  rewrite <- str_app_assoc, <- str_app_length, slice_to_app by done. cbn. apply slice_from_app.
  destruct b as [|x b]; [done|exact Hbc].
Qed.

Lemma clause_start_sliceable tail : clause_start tail -> sliceable tail.
Proof.
  intros [->|(k0 & kw & w & r & Hk & Hw & -> & _)]; [done|]. destruct (end_keyword_head k0 kw Hk) as (x & kw' & -> & Hx).
  destruct w as [|c w]; [done|]. cbn in *. injection Hw as Hc _. subst x. clear -Hx. by destruct c as [[] [] [] [] [] [] [] []].
Qed.

Lemma separator_sliceable s : separator (String.get 0 s) = true -> sliceable s.
Proof.
  destruct s as [|c s]; [done|]. cbn [String.get separator sliceable]. intros [_ Hc]%andb_true_iff. apply Nat.ltb_lt in Hc. unfold ascii_in.
  change (nat_of_ascii "128") with 128%nat. destruct (Nat.leb_spec 128 (nat_of_ascii c)); [lia|done].
Qed.

Lemma separator_boundary o : separator o = true -> boundary o = true.
Proof. destruct o as [c|]; [|done]. cbn. by intros [? _]%andb_true_iff. Qed.

(** ** The statement that comes out *)

(** A statement with a WHERE: what is before it, the keyword as it is written, the condition and
    the clauses that follow. *)
Record where_parts (head w cond tail : string) : Prop := {
  wp_keyword : ascii_uppercase w = "WHERE";
  wp_head : calm "WHERE" head;
  wp_head_depth : depth_after 0 head = 0%nat;
  wp_before : boundary (last_char None head) = true;
  wp_cond : separator (String.get 0 (cond +:+ tail)) = true;
  wp_body : calm_ends (head +:+ w +:+ cond);
  wp_body_depth : depth_after 0 (head +:+ w +:+ cond) = 0%nat;
  wp_tail : clause_start tail;
  wp_apart : boundary (last_char None (w +:+ cond)) = true \/ tail = "";
  wp_narrow : narrow (head +:+ w +:+ cond +:+ tail) = true;
  wp_short : short (head +:+ w +:+ cond +:+ tail);
}.

Lemma last_char_prev prev prev' s : s <> "" -> last_char prev s = last_char prev' s.
Proof. by destruct s. Qed.

Lemma append_where head w cond tail clauses : where_parts head w cond tail -> clauses <> [] ->
  append_where_clauses (head +:+ w +:+ cond +:+ tail) clauses =
  Some (head +:+ w +:+ (if (trim cond =? "")%string then " " +:+ join " AND " clauses
                        else " (" +:+ trim cond +:+ " ) AND (" +:+ join " AND " clauses +:+ ")") +:+ tail).
Proof.
  intros [] Hne. unfold append_where_clauses, append_clauses. destruct clauses as [|c cs]; [done|]. cbn [is_nil].
  set (sql := head +:+ w +:+ cond +:+ tail) in *. set (combined := join " AND " (c :: cs)).
  assert (Hw5 : String.length w = 5%nat) by (by rewrite <- (ascii_uppercase_length w), wp_keyword0).
  assert (Hwp : find_keyword (to_uppercase sql) "WHERE" = Some (String.length head)).
  { apply (find_keyword_at "WHERE"); try done; [by left|]. by apply separator_boundary. }
  assert (Hbody : sql = (head +:+ w +:+ cond) +:+ tail) by (unfold sql; by rewrite !str_app_assoc).
  assert (Hins : default (String.length sql) (min_pos (end_positions (to_uppercase sql))) = String.length (head +:+ w +:+ cond)).
  { rewrite Hbody in *. apply insert_position; try done. rewrite last_char_app, (last_char_prev _ None); [done|]. by destruct w. }
  unfold end_positions in Hins. rewrite Hins, Hwp.
  assert (Hbefore : slice_to (String.length head + 5) sql = Some (head +:+ w)).
  { rewrite <- Hw5, <- str_app_length. unfold sql. rewrite <- (str_app_assoc head). apply slice_to_app. by apply separator_sliceable. }
  assert (Hexisting : slice (String.length head + 5) (String.length (head +:+ w +:+ cond)) sql = Some cond).
  { rewrite <- Hw5, <- str_app_assoc, (str_app_length (head +:+ w)), <- str_app_length. unfold sql. rewrite <- (str_app_assoc head).
    apply slice_app; [by apply separator_sliceable|by apply clause_start_sliceable]. }
  assert (Hafter : slice_from (String.length (head +:+ w +:+ cond)) sql = Some tail).
  { rewrite Hbody. by apply slice_from_app, clause_start_sliceable. }
  rewrite Hbefore. cbn [mbind option_bind]. rewrite Hexisting. cbn [mbind option_bind]. rewrite Hafter. cbn [mbind option_bind].
  destruct (trim cond =? "")%string; by rewrite !str_app_assoc.
Qed.

(** A statement without one. *)
Record plain_parts (head tail : string) : Prop := {
  pp_where : calm "WHERE" (head +:+ tail);
  pp_where_depth : depth_after 0 (head +:+ tail) = 0%nat;
  pp_head : calm_ends head;
  pp_head_depth : depth_after 0 head = 0%nat;
  pp_tail : clause_start tail;
  pp_apart : boundary (last_char None head) = true \/ tail = "";
  pp_narrow : narrow (head +:+ tail) = true;
  pp_short : short (head +:+ tail);
}.

Lemma append_no_where head tail clauses : plain_parts head tail -> clauses <> [] ->
  append_where_clauses (head +:+ tail) clauses =
  Some (trim_end head +:+ (if (trim_end head =? "")%string then "" else " ") +:+ "WHERE " +:+ join " AND " clauses +:+ tail).
Proof.
  intros [] Hne. unfold append_where_clauses, append_clauses. destruct clauses as [|c cs]; [done|]. cbn [is_nil].
  rewrite (find_keyword_none "WHERE"); [|by left|done..]. fold (end_positions (to_uppercase (head +:+ tail))).
  rewrite insert_position by done. rewrite slice_to_app by (by apply clause_start_sliceable). cbn [mbind option_bind].
  rewrite slice_from_app by (by apply clause_start_sliceable). cbn [mbind option_bind]. by destruct (_ =? _)%string.
Qed.

(** * A reader of conditions

    Conditions are read by OR, then AND, outside parentheses and string literals (two quotes in
    a literal are a quote), then inside the parentheses around a whole; BETWEEN is not treated
    apart.  [n] levels are read, what is below is a condition [atom] decides. *)

(** The state after a text: inside a literal, and how many parentheses are open; [None] when it
    closes one it has not opened. *)
Fixpoint scan (q : bool) (d : nat) (s : string) : option (bool * nat) :=
  match s with
  | EmptyString => Some (q, d)
  | String c s =>
      if Ascii.eqb c "'" then scan (negb q) d s
      else if q then scan q d s
      else if Ascii.eqb c "(" then scan q (S d) s
      else if Ascii.eqb c ")" then match d with O => None | S d => scan q d s end
      else scan q d s
  end.

Definition closed (s : string) : bool := bool_decide (scan false 0 s = Some (false, 0%nat)).

(** The parts of a text between the words [kw]; [skip] bytes of such a word are still to pass. *)
Fixpoint split_word (kw : string) (q : bool) (d : nat) (prev : option ascii) (cur : string) (skip : nat) (s : string) : list string :=
  match s with
  | EmptyString => [cur]
  | String c r =>
      match skip with
      | S k => split_word kw q d (Some c) cur k r
      | O =>
          if Ascii.eqb c "'" then split_word kw (negb q) d (Some c) (cur +:+ chr c) 0 r
          else if q then split_word kw q d (Some c) (cur +:+ chr c) 0 r
          else if Ascii.eqb c "(" then split_word kw q (S d) (Some c) (cur +:+ chr c) 0 r
          else if Ascii.eqb c ")" then split_word kw q (pred d) (Some c) (cur +:+ chr c) 0 r
          else if (d =? 0)%nat && starts_with kw (ascii_uppercase s) && boundary prev && boundary (String.get (String.length kw) s)
          then cur :: split_word kw q d (Some c) "" (pred (String.length kw)) r
          else split_word kw q d (Some c) (cur +:+ chr c) 0 r
      end
  end.

Definition parts (kw s : string) : list string := split_word kw false 0 None "" 0 s.

(** The text between the parentheses around a whole text. *)
Definition unwrap (s : string) : option string :=
  match s with
  | String c r => if Ascii.eqb c "(" then
                    match strip_suffix ")" r with Some inner => if closed inner then Some inner else None | None => None end
                  else None
  | EmptyString => None
  end.

Fixpoint holds (atom : string -> bool) (n : nat) (s : string) : bool :=
  match n with
  | O => atom s
  | S n =>
      match parts "OR" s with
      | (_ :: _ :: _) as l => existsb (fun p => holds atom n (trim p)) l
      | _ =>
          match parts "AND" s with
          | (_ :: _ :: _) as l => forallb (fun p => holds atom n (trim p)) l
          | _ => match unwrap s with Some inner => holds atom n (trim inner) | None => atom s end
          end
      end
  end.

Example holds_example :
  let atom s := bool_decide (s ∈ ["a = 1"; "b IN (select x from y where p or q)"]) in
  (holds atom 4 "z = 2 or (a = 1 AND b IN (select x from y where p or q) )", holds atom 4 "a = 1 and c = ' or a = 1'")
  = (true, false).
Proof. vm_compute. reflexivity. Qed.

(** ** What it reads *)

Lemma scan_app q d a b : scan q d (a +:+ b) = '(q, d) ← scan q d a; scan q d b.
Proof.
  revert q d. induction a as [|c a IH]; intros q d; [done|]. cbn. destruct (Ascii.eqb c "'"); [apply IH|]. destruct q; [apply IH|].
  destruct (Ascii.eqb c "("); [apply IH|]. destruct (Ascii.eqb c ")"); [|apply IH]. destruct d; [done|apply IH].
Qed.

Lemma scan_deeper k q d s q' d' : scan q d s = Some (q', d') -> scan q (d + k) s = Some (q', (d' + k)%nat).
Proof.
  revert q d. induction s as [|c s IH]; intros q d; cbn; [by intros [= -> ->]|]. destruct (Ascii.eqb c "'"); [apply IH|].
  destruct q; [apply IH|]. destruct (Ascii.eqb c "("); [apply (IH _ (S d))|]. destruct (Ascii.eqb c ")"); [|apply IH].
  destruct d; [done|apply IH].
Qed.

(** Inside parentheses nothing is split. *)
Lemma split_inside kw s : forall q d prev cur r q' d', scan q d s = Some (q', d') ->
  split_word kw q (S d) prev cur 0 (s +:+ r) = split_word kw q' (S d') (last_char prev s) (cur +:+ s) 0 r.
Proof.
  induction s as [|c s IH]; intros q d prev cur r q' d'; cbn [scan].
  { intros [= -> ->]. by rewrite str_app_nil_r. }
  rewrite str_app_cons. cbn [split_word last_char]. replace (cur +:+ String c s) with ((cur +:+ chr c) +:+ s) by (by rewrite str_app_assoc).
  destruct (Ascii.eqb c "'"); [apply IH|]. destruct q; [apply IH|]. destruct (Ascii.eqb c "("); [apply IH|].
  destruct (Ascii.eqb c ")"); [destruct d; [done|]; cbn [pred]; apply IH|]. cbn [Nat.eqb andb]. apply IH.
Qed.

Lemma closed_scan s : closed s = true <-> scan false 0 s = Some (false, 0%nat).
Proof. apply bool_decide_eq_true. Qed.

Lemma split_group kw s prev cur r : closed s = true ->
  split_word kw false 0 prev cur 0 ("(" +:+ s +:+ ")" +:+ r) = split_word kw false 0 (Some ")"%char) (cur +:+ "(" +:+ s +:+ ")") 0 r.
Proof.
  intros Hs%closed_scan. cbn [String.append split_word Ascii.eqb]. change (split_word kw false 1 (Some "("%char) (cur +:+ chr "(") 0 (s +:+ String ")" r)
    = split_word kw false 0 (Some ")"%char) (cur +:+ String "(" (s +:+ ")")) 0 r).
  rewrite (split_inside kw s _ _ _ _ _ _ _ Hs). cbn [split_word Ascii.eqb pred]. change (split_word kw false 0 (Some ")"%char) (((cur +:+ chr "(") +:+ s) +:+ chr ")") 0 r
    = split_word kw false 0 (Some ")"%char) (cur +:+ String "(" (s +:+ ")")) 0 r). by rewrite !str_app_assoc.
Qed.

(** ** Trimming *)

Definition unpadded (ps : list string) (s : string) : Prop := Forall (fun p => starts_with p s = false) ps.

Definition spaces : list (list string) := [whitespace; rev_string <$> whitespace].

Lemma spaces_solid ps p : ps ∈ spaces -> p ∈ ps -> p <> "" /\ (contains_char " " p = true -> p = " ").
Proof.
  intros Hps Hp.
  assert (Hall : forallb (forallb (fun p => negb (p =? "")%string && (negb (contains_char " " p) || (p =? " ")%string))) spaces = true) by done.
  rewrite forallb_forall in Hall. specialize (Hall ps). rewrite forallb_forall in Hall.
  apply list_elem_of_In in Hps, Hp. specialize (Hall Hps p Hp). apply andb_true_iff in Hall as [H1%negb_true_iff H2].
  split; [by apply String.eqb_neq in H1|]. intros Hc. rewrite Hc in H2. by apply String.eqb_eq in H2.
Qed.

Lemma unpadded_none ps s : unpadded ps s <-> list_find (fun p => String.prefix p s = true) ps = None.
Proof.
  rewrite list_find_None. unfold unpadded, starts_with. split; intros H; (eapply Forall_impl; [exact H|]); intros p; cbn; by destruct (String.prefix p s).
Qed.

Lemma strip_unpadded fuel ps s : unpadded ps s -> strip_prefixes fuel ps s = s.
Proof. intros Hs%unpadded_none. destruct fuel; [done|]. cbn. by rewrite Hs. Qed.

Lemma unpadded_strip ps fuel s : ps ∈ spaces -> (String.length s <= fuel)%nat -> unpadded ps (strip_prefixes fuel ps s).
Proof.
  intros Hps. revert s. induction fuel as [|fuel IH]; intros s Hs.
  - destruct s; [|cbn in Hs; lia]. apply Forall_forall. intros p Hp. destruct (spaces_solid ps p Hps Hp) as [Hne _]. by destruct p.
  - cbn. destruct (list_find _ ps) as [[i p]|] eqn:Hf; [|by apply unpadded_none]. apply IH.
    apply list_find_Some in Hf as (Hi & Hp & _). apply prefix_drop, (f_equal String.length) in Hp. rewrite str_app_length in Hp.
    destruct (spaces_solid ps p Hps (list_elem_of_lookup_2 _ _ _ Hi)) as [Hne _]. destruct p; [done|]. cbn [String.length] in Hp.
    unfold drop_bytes in Hp. cbn [String.length] in *. lia.
Qed.

Lemma starts_shorter p a b : starts_with p a = true -> starts_with p (a +:+ b) = true.
Proof. intros Hp%prefix_drop. rewrite Hp, str_app_assoc. apply starts_app. Qed.

Lemma unpadded_prefix ps a b : unpadded ps (a +:+ b) -> unpadded ps a.
Proof.
  intros H. eapply Forall_impl; [exact H|]. intros p Hp. cbv beta in *. apply not_true_iff_false. intros Ha. by rewrite (starts_shorter p a b Ha) in Hp.
Qed.

Lemma starts_split p a b : starts_with p (a +:+ b) = true -> starts_with p a = true \/ exists y z, p = a +:+ String y z /\ starts_with (String y z) b = true.
Proof.
  revert a. induction p as [|c p IH]; intros a Hp; [left; by destruct a|]. destruct a as [|x a]; [right; exists c, p; split; [done|exact Hp]|].
  rewrite str_app_cons in Hp. rewrite starts_cons in *. apply andb_true_iff in Hp as [->%Ascii.eqb_eq Hp]. rewrite Ascii.eqb_refl.
  destruct (IH a Hp) as [Ha|(y & z & -> & Hb)]; [by left|]. right. by exists y, z.
Qed.

Lemma unpadded_space ps c r : ps ∈ spaces -> c <> "" -> unpadded ps c -> unpadded ps (c +:+ String " " r).
Proof.
  intros Hps Hne Hc. unfold unpadded in *. rewrite Forall_forall in *. intros p Hp. specialize (Hc p Hp). apply not_true_iff_false. intros Hs.
  apply starts_split in Hs as [Hs|(y & z & -> & Hs)]; [by rewrite Hs in Hc|].
  rewrite starts_cons in Hs. apply andb_true_iff in Hs as [->%Ascii.eqb_eq _].
  destruct (spaces_solid ps _ Hps Hp) as [_ Hsp]. assert (Hin : contains_char " " (c +:+ String " " z) = true).
  { clear. induction c as [|x c IH]; [done|]. cbn. rewrite IH. by rewrite orb_true_r. }
  specialize (Hsp Hin). destruct c as [|x c]; [done|]. injection Hsp as _ Hsp. by destruct c.
Qed.

(** No blank at either end. *)
Definition trimmed (s : string) : Prop := unpadded whitespace s /\ unpadded (rev_string <$> whitespace) (rev_string s).

Lemma rev_string_length s : String.length (rev_string s) = String.length s.
Proof.
  induction s as [|c s IH]; [done|]. change (String c s) with (chr c +:+ s). rewrite rev_string_app, !str_app_length, IH. cbn. lia.
Qed.

Lemma trim_trimmed s : trimmed s -> trim s = s.
Proof. intros [H1 H2]. unfold trim. rewrite (strip_unpadded _ _ s H1), strip_unpadded by done. apply rev_string_twice. Qed.

Lemma trimmed_trim s : trimmed (trim s).
Proof.
  unfold trim. set (t := strip_prefixes (String.length s) whitespace s).
  assert (Ht : unpadded whitespace t) by (apply unpadded_strip; [by left|done]).
  set (u := strip_prefixes (String.length t) (rev_string <$> whitespace) (rev_string t)).
  assert (Hu : unpadded (rev_string <$> whitespace) u) by (apply unpadded_strip; [by right; left|by rewrite rev_string_length]).
  split; [|by rewrite rev_string_twice]. destruct (strip_prefixes_suffix (String.length t) (rev_string <$> whitespace) (rev_string t)) as [p Hp].
  fold u in Hp. apply (f_equal rev_string) in Hp. rewrite rev_string_twice, rev_string_app in Hp.
  rewrite Hp in Ht. by eapply unpadded_prefix.
Qed.

Lemma trimmed_iff s : trimmed s <-> trim s = s.
Proof. split; [apply trim_trimmed|]. intros <-. apply trimmed_trim. Qed.

Lemma strip_space ps n s : ps ∈ spaces -> strip_prefixes (S n) ps (String " " s) = strip_prefixes n ps s.
Proof.
  intros Hps. change (match list_find (fun p => String.prefix p (String " " s) = true) ps with
    | Some (_, p) => strip_prefixes n ps (drop_bytes (String.length p) (String " " s)) | None => String " " s end = strip_prefixes n ps s).
  assert (Hf : list_find (fun p => String.prefix p (String " " s) = true) ps = Some (5%nat, " ")).
  { apply elem_of_cons in Hps as [->|Hps%list_elem_of_singleton]; [|subst ps]; by destruct s. }
  rewrite Hf. f_equal. exact (drop_app " " s).
Qed.

Lemma trim_space_l s : trim (" " +:+ s) = trim s.
Proof. unfold trim. change (" " +:+ s) with (String " " s). cbn [String.length]. rewrite strip_space by (by left). done. Qed.

Lemma trim_space_r s : trimmed s -> s <> "" -> trim (s +:+ " ") = s.
Proof.
  intros [H1 H2] Hne. unfold trim. rewrite (strip_unpadded _ whitespace).
  - rewrite rev_string_app, str_app_length, Nat.add_comm. change (rev_string " " +:+ rev_string s) with (" " +:+ rev_string s).
    change (1 + String.length s)%nat with (S (String.length s)). change (String.length " " + String.length s)%nat with (S (String.length s)).
    change (" " +:+ rev_string s) with (String " " (rev_string s)). rewrite strip_space by (by right; left). rewrite strip_unpadded by done. apply rev_string_twice.
  - apply unpadded_space; [by left|done|done].
Qed.

Lemma trimmed_app a b : trimmed a -> trimmed b -> a <> "" -> b <> "" -> trimmed (a +:+ " AND " +:+ b).
Proof.
  intros [A1 A2] [B1 B2] Ha Hb. split.
  - apply unpadded_space; [by left|done|done].
  - rewrite !rev_string_app. change (rev_string " AND ") with " DNA ". rewrite str_app_assoc. apply unpadded_space; [by right; left| |done].
    intros E. apply (f_equal rev_string) in E. rewrite rev_string_twice in E. done.
Qed.

(** ** Splitting *)

Lemma split_cur kw q d prev cur k s :
  split_word kw q d prev cur k s = match split_word kw q d prev "" k s with x :: l => (cur +:+ x) :: l | [] => [] end.
Proof.
  assert (H : forall s q d prev cur cur' k, split_word kw q d prev (cur +:+ cur') k s
    = match split_word kw q d prev cur' k s with x :: l => (cur +:+ x) :: l | [] => [] end).
  { clear. induction s as [|c s IH]; intros q d prev cur cur' k; [done|]. cbn [split_word]. destruct k as [|k]; [|apply IH].
    rewrite str_app_assoc. destruct (Ascii.eqb c "'"); [apply IH|]. destruct q; [apply IH|]. destruct (Ascii.eqb c "("); [apply IH|].
    destruct (Ascii.eqb c ")"); [apply IH|]. destruct (_ && _); [done|apply IH]. }
  rewrite <- (str_app_nil_r cur) at 1. apply H.
Qed.

Lemma split_prev kw q d prev prev' cur s : boundary prev = boundary prev' -> split_word kw q d prev cur 0 s = split_word kw q d prev' cur 0 s.
Proof. intros Hp. destruct s as [|c s]; [done|]. cbn [split_word]. by rewrite Hp. Qed.

Lemma split_nonempty kw q d prev cur k s : split_word kw q d prev cur k s <> [].
Proof.
  revert q d prev cur k. induction s as [|c s IH]; intros q d prev cur k; cbn [split_word]; [done|]. destruct k; [|apply IH].
  destruct (Ascii.eqb c "'"); [apply IH|]. destruct q; [apply IH|]. destruct (Ascii.eqb c "("); [apply IH|].
  destruct (Ascii.eqb c ")"); [apply IH|]. destruct (_ && _); [done|apply IH].
Qed.

(** A word that ends before a boundary is in the text before it. *)
Lemma word_before kw s r : all_chars word_char kw = true -> boundary (String.get 0 r) = true ->
  starts_with kw (ascii_uppercase (s +:+ r)) = true -> boundary (String.get (String.length kw) (s +:+ r)) = true ->
  starts_with kw (ascii_uppercase s) = true /\ boundary (String.get (String.length kw) s) = true.
Proof.
  revert s. induction kw as [|x kw IH]; intros s Hk Hr Hs Hb.
  - split; [by destruct s|]. destruct s as [|c s]; [done|exact Hb].
  - cbn in Hk. apply andb_true_iff in Hk as [Hx Hk]. destruct s as [|c s].
    + destruct r as [|y r]; [done|]. cbn [String.append ascii_uppercase] in Hs. rewrite starts_cons in Hs.
      apply andb_true_iff in Hs as [->%Ascii.eqb_eq _]. cbn in Hr. by rewrite upper_word in Hx; rewrite Hx in Hr.
    + rewrite str_app_cons in *. cbn [ascii_uppercase] in *. rewrite starts_cons in *. apply andb_true_iff in Hs as [He Hs]. rewrite He.
      by apply IH.
Qed.

Section Split.
Variable kw : string.
Hypothesis Hkw : all_chars word_char kw = true.

(** One part stays one with more behind it. *)
Lemma split_on s r : forall q d prev cur q' d', (exists x, split_word kw q d prev cur 0 s = [x]) -> scan q d s = Some (q', d') ->
  boundary (String.get 0 r) = true -> split_word kw q d prev cur 0 (s +:+ r) = split_word kw q' d' (last_char prev s) (cur +:+ s) 0 r.
Proof.
  induction s as [|c s IH]; intros q d prev cur q' d' [x Hx] Hs Hr.
  { cbn in Hs. injection Hs as -> ->. by rewrite str_app_nil_r. }
  cbn [scan] in Hs. cbn [split_word] in Hx. rewrite str_app_cons. cbn [split_word last_char].
  replace (cur +:+ String c s) with ((cur +:+ chr c) +:+ s) by (by rewrite str_app_assoc).
  destruct (Ascii.eqb c "'"); [eapply IH; eauto|]. destruct q; [eapply IH; eauto|]. destruct (Ascii.eqb c "("); [eapply IH; eauto|].
  destruct (Ascii.eqb c ")"); [destruct d; [done|]; eapply IH; eauto|].
  assert (Ht : (d =? 0)%nat && starts_with kw (ascii_uppercase (String c s)) && boundary prev && boundary (String.get (String.length kw) (String c s)) = false).
  { apply not_true_iff_false. intros Ht. rewrite Ht in Hx. injection Hx as _ Hx. by apply split_nonempty in Hx. }
  rewrite Ht in Hx. replace (_ && _) with false; [eapply IH; eauto|]. symmetry. apply not_true_iff_false.
  intros [[[Hd Hst]%andb_true_iff Hp]%andb_true_iff Hg]%andb_true_iff. rewrite <- str_app_cons in Hst, Hg.
  destruct (word_before kw (String c s) r Hkw Hr Hst Hg) as [H1 H2]. by rewrite Hd, H1, Hp, H2 in Ht.
Qed.

(** The parts of a text are one when its words do not have the word. *)
Lemma split_free s : forall d prev cur w, kw <> "" -> (d = 0%nat -> boundary prev = bool_decide (w = "")) -> contains_char "'" s = false ->
  kw ∉ top_words d w s -> split_word kw false d prev cur 0 s = [cur +:+ s].
Proof.
  induction s as [|c s IH]; intros d prev cur w Hne Hp Hq Hw; [by rewrite str_app_nil_r|].
  cbn [contains_char] in Hq. apply orb_false_iff in Hq as [Hc Hq]. cbn [split_word].
  replace (cur +:+ String c s) with ((cur +:+ chr c) +:+ s) by (by rewrite str_app_assoc). rewrite Hc.
  pose proof Hw as Hword. cbn [top_words] in Hw. destruct (Ascii.eqb_spec c "(") as [->|Ho].
  { rewrite andb_false_r in Hw. apply IH with (w := ""); try done. intros Hin. apply Hw. by right. }
  destruct (Ascii.eqb_spec c ")") as [->|Hcl].
  { rewrite andb_false_r in Hw. apply IH with (w := ""); try done. intros Hin. apply Hw. by right. }
  replace ((d =? 0)%nat && starts_with kw (ascii_uppercase (String c s)) && boundary prev && boundary (String.get (String.length kw) (String c s))) with false.
  - destruct ((d =? 0)%nat && word_char c) eqn:Hwc.
    + apply andb_true_iff in Hwc as [->%Nat.eqb_eq Hwc]. apply IH with (w := w +:+ chr (to_ascii_uppercase c)); try done.
      intros _. cbn. rewrite Hwc. symmetry. apply bool_decide_eq_false. by destruct w.
    + apply IH with (w := ""); try done; [|intros Hin; apply Hw; by right].
      intros ->. cbn [Nat.eqb andb] in Hwc. cbn. rewrite Hwc. symmetry. by apply bool_decide_eq_true.
  - symmetry. apply not_true_iff_false. intros [[[->%Nat.eqb_eq Hst]%andb_true_iff Hpr]%andb_true_iff Hg]%andb_true_iff.
    rewrite Hp in Hpr by done. apply bool_decide_eq_true in Hpr as ->. apply Hword. change kw with ("" +:+ kw).
    apply (first_word kw "" (String c s) prev ""); rewrite ?str_app_nil_r; try done; [by left|by rewrite orb_true_r].
Qed.
End Split.

(** ** Clauses that are one condition *)

Record single (c : string) : Prop := {
  single_trimmed : trimmed c;
  single_nonempty : c <> "";
  single_closed : closed c = true;
  single_or : parts "OR" c = [c];
  single_and : parts "AND" c = [c];
  single_bare : unwrap c = None;
}.

Lemma single_holds atom n c : single c -> holds atom n c = atom c.
Proof. intros []. destruct n; [done|]. cbn [holds]. by rewrite single_or0, single_and0, single_bare0. Qed.

Lemma join_and c cs : cs <> [] -> join " AND " (c :: cs) = c +:+ " AND " +:+ join " AND " cs.
Proof. by destruct cs. Qed.

Section Clauses.
Variable atom : string -> bool.
Variable cs : list string.
Hypothesis Hcs : Forall single cs.
Hypothesis Hne : cs <> [].

Lemma joined_trimmed : trimmed (join " AND " cs) /\ join " AND " cs <> "".
Proof.
  clear atom. induction Hcs as [|c cs' Hc Hcs' IH]; [done|]. destruct cs' as [|c2 cs'].
  - cbn. by destruct Hc.
  - destruct (IH Hcs' ltac:(done)) as [H1 H2]. rewrite join_and by done. destruct Hc. split; [by apply trimmed_app|].
    by destruct c.
Qed.

Lemma joined_closed : closed (join " AND " cs) = true.
Proof.
  clear atom. induction Hcs as [|c cs' Hc Hcs' IH]; [done|]. destruct cs' as [|c2 cs'].
  - cbn. by destruct Hc.
  - specialize (IH Hcs' ltac:(done)). rewrite join_and by done. destruct Hc as [_ _ Hc _ _ _]. apply closed_scan in Hc, IH. apply closed_scan.
    rewrite scan_app, Hc. cbn [mbind option_bind]. rewrite scan_app. cbn -[join]. exact IH.
Qed.

Lemma joined_or prev cur : boundary prev = true -> split_word "OR" false 0 prev cur 0 (join " AND " cs) = [cur +:+ join " AND " cs].
Proof.
  clear atom. revert prev cur. induction Hcs as [|c cs' Hc Hcs' IH]; intros prev cur Hp; [done|].
  destruct Hc as [_ _ Hc Ho _ _]. unfold parts in Ho. destruct cs' as [|c2 cs'].
  - cbn. rewrite (split_prev _ _ _ _ None) by done. rewrite split_cur. by rewrite Ho.
  - rewrite join_and by done. apply closed_scan in Hc. rewrite (split_prev _ _ _ _ None) by done.
    erewrite split_on; [|done| |exact Hc|done]; cycle 1. { rewrite split_cur, Ho. by eexists. }
    change (split_word "OR" false 0 (last_char None c) (cur +:+ c) 0 (" AND " +:+ join " AND " (c2 :: cs')))
      with (split_word "OR" false 0 (Some " "%char) ((((((cur +:+ c) +:+ " ") +:+ "A") +:+ "N") +:+ "D") +:+ " ") 0 (join " AND " (c2 :: cs'))).
    rewrite IH by done. by rewrite !str_app_assoc.
Qed.

(** Every clause is a part, with the blanks around it. *)
Lemma joined_and n prev cur : boundary prev = true -> cur = "" \/ cur = " " ->
  let l := split_word "AND" false 0 prev cur 0 (join " AND " cs) in
  forallb (fun p => holds atom n (trim p)) l = forallb atom cs /\ length l = length cs.
Proof.
  revert prev cur. induction Hcs as [|c cs' Hc Hcs' IH]; intros prev cur Hp Hcur; [done|]. cbn zeta.
  pose proof (single_holds atom n c Hc) as Hh. destruct Hc as [Ht Hn Hc _ Ha _]. unfold parts in Ha.
  assert (Htc : trim (cur +:+ c) = c) by (destruct Hcur as [->| ->]; rewrite ?trim_space_l; by apply trim_trimmed).
  destruct cs' as [|c2 cs'].
  - cbn [join String.concat]. rewrite (split_prev _ _ _ _ None) by done. rewrite split_cur, Ha. cbn [forallb length]. by rewrite Htc, Hh.
  - rewrite join_and by done. apply closed_scan in Hc. rewrite (split_prev _ _ _ _ None) by done.
    erewrite split_on; [|done| |exact Hc|done]; cycle 1. { rewrite split_cur, Ha. by eexists. }
    change (split_word "AND" false 0 (last_char None c) (cur +:+ c) 0 (" AND " +:+ join " AND " (c2 :: cs')))
      with (((cur +:+ c) +:+ " ") :: split_word "AND" false 0 (Some " "%char) " " 0 (join " AND " (c2 :: cs'))).
    destruct (IH Hcs' ltac:(done) (Some " "%char) " " eq_refl ltac:(by right)) as [H1 H2].
    cbn [forallb length] in *. rewrite H1, H2. split; [|done]. f_equal.
    assert (Ht' : trimmed (cur +:+ c) \/ cur = " ") by (destruct Hcur as [->| ->]; [by left|by right]).
    rewrite <- Hh. f_equal. destruct Ht' as [Ht'| ->].
    + rewrite trim_space_r; [|done|by destruct Hcur as [->| ->]; [|by destruct c]]. rewrite <- Htc at 2. symmetry. by apply trim_trimmed.
    + rewrite str_app_assoc, trim_space_l. by apply trim_space_r.
Qed.

Lemma joined_holds n : holds atom (S n) (join " AND " cs) = forallb atom cs.
Proof.
  destruct (joined_and n None "" eq_refl (or_introl eq_refl)) as [Hf Hl]. cbn zeta in *.
  pose proof (joined_or None "" eq_refl) as Ho.
  destruct cs as [|c [|c2 cs']] eqn:E; [done| |].
  - cbn [join String.concat forallb]. inversion Hcs. rewrite andb_true_r. by apply single_holds.
  - cbn [holds]. unfold parts. rewrite Ho.
    destruct (split_word "AND" false 0 None "" 0 (join " AND " (c :: c2 :: cs'))) as [|p [|p2 l]]; [done|done|exact Hf].
Qed.

(** ** The condition that comes out *)

Lemma unwrap_group s : closed s = true -> unwrap ("(" +:+ s +:+ ")") = Some s.
Proof.
  intros Hs. unfold unwrap. cbn [String.append Ascii.eqb]. change (String.append s ")") with (s +:+ ")").
  assert (He : ends_with ")" (s +:+ ")") = true) by (unfold ends_with; rewrite rev_string_app; apply starts_app).
  destruct (suffix_cut ")" (s +:+ ")") He) as (r & Hr & Hstrip). change (Bool.eqb true true) with true. cbn. rewrite Hstrip.
  assert (r = s) as ->; [|by rewrite Hs]. clear -Hr. revert r Hr. induction s as [|c s IH]; intros [|d r] Hr; try done.
  - injection Hr as _ Hr. by destruct r.
  - injection Hr as _ Hr. by destruct s.
  - injection Hr as -> Hr. f_equal. by apply IH.
Qed.

(** Both groups hold, at two levels more. *)
Lemma guarded_holds n c : trimmed c -> c <> "" -> closed c = true ->
  holds atom (S (S (S n))) ("(" +:+ c +:+ " ) AND (" +:+ join " AND " cs +:+ ")") = holds atom (S n) c && forallb atom cs.
Proof.
  intros Ht Hn Hc. destruct joined_trimmed as [Hjt Hjn]. set (j := join " AND " cs) in *.
  assert (Hc' : closed (c +:+ " ") = true).
  { apply closed_scan in Hc. apply closed_scan. by rewrite scan_app, Hc. }
  assert (Hg : forall kw, kw = "OR" \/ kw = "AND" -> forall s, closed s = true -> parts kw ("(" +:+ s +:+ ")") = ["(" +:+ s +:+ ")"]).
  { intros kw Hkw s Hs. unfold parts. rewrite <- (str_app_nil_r ("(" +:+ s +:+ ")")) at 1. rewrite !str_app_assoc.
    change (")" +:+ "") with (")" +:+ ("" : string)). rewrite split_group by done. done. }
  assert (Hgroup : forall s m, closed s = true -> holds atom (S m) ("(" +:+ s +:+ ")") = holds atom m (trim s)).
  { intros s m Hs. cbn [holds]. rewrite !Hg by (done || (by left) || by right). by rewrite unwrap_group. }
  assert (E : "(" +:+ c +:+ " ) AND (" +:+ j +:+ ")" = "(" +:+ (c +:+ " ") +:+ ")" +:+ " AND (" +:+ j +:+ ")").
  { by rewrite !str_app_assoc. }
  rewrite E. remember (S (S n)) as m. cbn [holds]. unfold parts. rewrite !(split_group _ (c +:+ " ")) by done.
  change (split_word "OR" false 0 (Some ")"%char) ("" +:+ "(" +:+ (c +:+ " ") +:+ ")") 0 (" AND (" +:+ j +:+ ")"))
    with (split_word "OR" false 0 (Some " "%char) (((((("(" +:+ (c +:+ " ") +:+ ")") +:+ " ") +:+ "A") +:+ "N") +:+ "D") +:+ " ") 0 ("(" +:+ j +:+ ")" +:+ "")).
  rewrite (split_group "OR" j) by apply joined_closed. cbn [split_word].
  change (split_word "AND" false 0 (Some ")"%char) ("" +:+ "(" +:+ (c +:+ " ") +:+ ")") 0 (" AND (" +:+ j +:+ ")"))
    with ((("(" +:+ (c +:+ " ") +:+ ")") +:+ " ") :: split_word "AND" false 0 (Some " "%char) " " 0 ("(" +:+ j +:+ ")" +:+ "")).
  rewrite (split_group "AND" j) by apply joined_closed. cbn [split_word forallb]. rewrite andb_true_r.
  assert (Hp : forall s, trimmed ("(" +:+ s +:+ ")")).
  { intros s. split; apply unpadded_none; [done|]. rewrite !rev_string_app. done. }
  rewrite (trim_space_r _ (Hp _)) by done. rewrite trim_space_l, (trim_trimmed _ (Hp _)). subst m.
  rewrite !Hgroup by (done || apply joined_closed). rewrite trim_space_r by done. rewrite (trim_trimmed j) by done.
  f_equal. apply joined_holds.
Qed.
End Clauses.
