(* ===== verification/DataPermission.v ===== *)
(** Data permissions, [sz-orm-core/src/data_permission.rs]: the context of a request, the rules
    that turn it into conditions, and the interceptor that puts these into statements with
    [append_where_clauses] of [SqlSplice.v]. *)

From Stdlib Require Import Ascii String.
From S2P Require Import Prelude SqlText DynamicSql DynamicFacts SqlSplice.
From S2P Require Import Value.
Local Open Scope string_scope.
#[local] Arguments String.append !_ _ : simpl nomatch.

(** * The context *)

Record PermissionContext : Type := mkContext {
  user_id : option Z;
  tenant_id : option Z;
  dept_id : option Z;
  roles : list string;
  permissions : list string;
  extras : gmap string string;
}.

Definition context_new : PermissionContext := mkContext None None None [] [] ∅.

Definition with_user_id (user_id : Z) (c : PermissionContext) : PermissionContext :=
  mkContext (Some user_id) (tenant_id c) (dept_id c) (roles c) (permissions c) (extras c).
Definition with_tenant_id (tenant_id : Z) (c : PermissionContext) : PermissionContext :=
  mkContext (user_id c) (Some tenant_id) (dept_id c) (roles c) (permissions c) (extras c).
Definition with_dept_id (dept_id : Z) (c : PermissionContext) : PermissionContext :=
  mkContext (user_id c) (tenant_id c) (Some dept_id) (roles c) (permissions c) (extras c).
Definition with_roles (roles : list string) (c : PermissionContext) : PermissionContext :=
  mkContext (user_id c) (tenant_id c) (dept_id c) roles (permissions c) (extras c).
Definition with_permissions (perms : list string) (c : PermissionContext) : PermissionContext :=
  mkContext (user_id c) (tenant_id c) (dept_id c) (roles c) perms (extras c).
Definition with_extra (key value : string) (c : PermissionContext) : PermissionContext :=
  mkContext (user_id c) (tenant_id c) (dept_id c) (roles c) (permissions c) (<[key := value]> (extras c)).

Definition has_role (role : string) (c : PermissionContext) : bool := existsb (fun r => r =? role)%string (roles c).
Definition has_permission (perm : string) (c : PermissionContext) : bool := existsb (fun p => p =? perm)%string (permissions c).
Definition is_admin (c : PermissionContext) : bool := has_role "admin" c || has_role "super_admin" c.

Inductive PermissionError : Type :=
| MissingContext (field : string)
| ConfigError (msg : string)
| Forbidden (msg : string).

Definition permission_error_display (e : PermissionError) : string :=
  match e with
  | MissingContext field => "Permission context missing field: `" +:+ field +:+ "`"
  | ConfigError msg => "Permission rule config error: " +:+ msg
  | Forbidden msg => "Forbidden: " +:+ msg
  end.

(** * The rules *)

(** [dyn PermissionRule] *)
Record PermissionRule : Type := mkRule {
  rule_name : string;
  rule_apply : PermissionContext -> result (option string) PermissionError;
}.

Definition condition_eq (field : string) (id : Z) : string := field +:+ " = " +:+ pretty id.

(** [TenantIsolation], [OwnerOnly]: the field of the rule is that of the struct. *)
Definition tenant_isolation_apply (field : string) (ctx : PermissionContext) : result (option string) PermissionError :=
  if is_admin ctx then Ok None
  else match tenant_id ctx with
       | Some tid => Ok (Some (condition_eq field tid))
       | None => Err (MissingContext "tenant_id")
       end.
Definition TenantIsolation (field : string) : PermissionRule := mkRule "TenantIsolation" (tenant_isolation_apply field).

Definition owner_only_apply (field : string) (ctx : PermissionContext) : result (option string) PermissionError :=
  if is_admin ctx then Ok None
  else match user_id ctx with
       | Some uid => Ok (Some (condition_eq field uid))
       | None => Err (MissingContext "user_id")
       end.
Definition OwnerOnly (field : string) : PermissionRule := mkRule "OwnerOnly" (owner_only_apply field).

Definition department_scope_apply (field : string) (include_sub_depts : list Z) (ctx : PermissionContext)
    : result (option string) PermissionError :=
  if is_admin ctx then Ok None
  else match dept_id ctx with
       | Some did =>
           if is_nil include_sub_depts then Ok (Some (condition_eq field did))
           else
             let all_depts := did :: include_sub_depts in
             let list := join ", " ((pretty : Z -> string) <$> all_depts) in
             Ok (Some (field +:+ " IN (" +:+ list +:+ ")"))
       | None => Err (MissingContext "dept_id")
       end.
(** [DepartmentScope] with [with_sub_depts] *)
Definition DepartmentScope (field : string) (include_sub_depts : list Z) : PermissionRule :=
  mkRule "DepartmentScope" (department_scope_apply field include_sub_depts).

Definition custom_condition_apply (generator : PermissionContext -> option string) (ctx : PermissionContext)
    : result (option string) PermissionError := Ok (generator ctx).
Definition CustomCondition (name_str : string) (generator : PermissionContext -> option string) : PermissionRule :=
  mkRule name_str (custom_condition_apply generator).

(** * The interceptor *)

Record DataPermissionInterceptor : Type := mkInterceptor { rules : list PermissionRule }.

Definition interceptor_new : DataPermissionInterceptor := mkInterceptor [].
Definition register (rule : PermissionRule) (i : DataPermissionInterceptor) : DataPermissionInterceptor :=
  mkInterceptor (rules i ++ [rule])%list.
Definition count (i : DataPermissionInterceptor) : nat := length (rules i).
Definition names (i : DataPermissionInterceptor) : list string := rule_name <$> rules i.

Fixpoint collect_clauses_go (rules : list PermissionRule) (ctx : PermissionContext) (clauses : list string)
    : result (list string) PermissionError :=
  match rules with
  | [] => Ok clauses
  | rule :: rules =>
      match rule_apply rule ctx with
      | Err e => Err e
      | Ok (Some clause) =>
          collect_clauses_go rules ctx (if negb (trim clause =? "")%string then clauses ++ [clause] else clauses)%list
      | Ok None => collect_clauses_go rules ctx clauses
      end
  end.

Definition collect_clauses (ctx : PermissionContext) (i : DataPermissionInterceptor) : result (list string) PermissionError :=
  collect_clauses_go (rules i) ctx [].

(** [None] where a slice panics. *)
Definition apply_to_select (sql : string) (ctx : PermissionContext) (i : DataPermissionInterceptor)
    : option (result string PermissionError) :=
  match collect_clauses ctx i with
  | Err e => Some (Err e)
  | Ok clauses =>
      if is_nil clauses then Some (Ok sql)
      else out ← append_where_clauses sql clauses; Some (Ok out)
  end.

Definition apply_to_update : string -> PermissionContext -> DataPermissionInterceptor -> option (result string PermissionError) :=
  apply_to_select.
Definition apply_to_delete : string -> PermissionContext -> DataPermissionInterceptor -> option (result string PermissionError) :=
  apply_to_select.

Definition example_context : PermissionContext := with_user_id 100 (with_tenant_id 5 context_new).
Definition example_interceptor : DataPermissionInterceptor :=
  register (OwnerOnly "user_id") (register (TenantIsolation "tenant_id") interceptor_new).

Example interceptor_example :
  apply_to_select "SELECT * FROM orders" example_context example_interceptor
  = Some (Ok "SELECT * FROM orders WHERE tenant_id = 5 AND user_id = 100").
Proof. vm_compute. reflexivity. Qed.

(** * The conditions of the rules *)

Definition plain_field (f : string) : Prop :=
  all_chars word_char f = true /\ f <> "" /\ ascii_uppercase f <> "OR" /\ ascii_uppercase f <> "AND".

Definition number_char (c : ascii) : bool := is_ascii_digit c || Ascii.eqb c "-".

Lemma pretty_number (z : Z) : all_chars number_char (pretty z) = true /\ (pretty z : string) <> "".
Proof.
  assert (Hn : forall x : N, all_chars number_char (pretty x) = true /\ (pretty x : string) <> "").
  { intros x. destruct (pretty_N_digits x) as (H & _ & Hne). split; [|done]. eapply all_chars_impl; [|exact H].
    intros c Hc. unfold number_char. by rewrite Hc. }
  destruct z as [|p|p]; [done|apply (Hn (Npos p))|]. change (pretty (Zneg p)) with ("-" +:+ pretty (Npos p)). by rewrite all_chars_app, (proj1 (Hn _)).
Qed.

(** Text without letters, quotes or parentheses. *)
Definition quiet (c : ascii) : bool :=
  negb (is_ascii_alphabetic c || Ascii.eqb c "'" || Ascii.eqb c "(" || Ascii.eqb c ")").

Lemma not_a p c x : p c = true -> p x = false -> Ascii.eqb c x = false.
Proof. intros Hc Hx. apply Ascii.eqb_neq. intros ->. congruence. Qed.

Lemma number_quiet c : number_char c = true -> quiet c = true.
Proof. by destruct c as [[] [] [] [] [] [] [] []]. Qed.

Lemma quiet_numbers (l : list Z) : all_chars quiet (join ", " ((pretty : Z -> string) <$> l)) = true.
Proof.
  assert (Hq : forall z : Z, all_chars quiet (pretty z) = true) by (intros z; eapply all_chars_impl; [exact number_quiet|apply pretty_number]).
  induction l as [|z l IH]; [done|]. destruct l as [|z2 l]; [apply Hq|].
  rewrite fmap_cons. change (join ", " (pretty z :: (pretty <$> z2 :: l))) with (pretty z +:+ ", " +:+ join ", " ((pretty : Z -> string) <$> z2 :: l)).
  rewrite !all_chars_app, Hq, IH. done.
Qed.

Lemma quiet_scan d s : all_chars quiet s = true -> scan false d s = Some (false, d) /\ contains_char "'" s = false.
Proof.
  induction s as [|c s IH]; [done|]. cbn [all_chars scan contains_char]. intros [Hc Hs]%andb_true_iff.
  destruct (IH Hs) as [-> ->]. by rewrite !(not_a quiet c).
Qed.

Lemma quiet_words k d w s : all_chars quiet s = true -> all_chars quiet w = true -> k ∈ top_words d w s -> all_chars quiet k = true.
Proof.
  revert d w. induction s as [|c s IH]; intros d w Hs Hw; cbn [top_words]; [by intros ->%list_elem_of_singleton|].
  cbn in Hs. apply andb_true_iff in Hs as [Hc Hs].
  assert (Hu : quiet (to_ascii_uppercase c) = true) by (clear -Hc; by destruct c as [[] [] [] [] [] [] [] []]).
  destruct (_ && _); [apply IH; [done|]; rewrite all_chars_app, Hw; cbn; by rewrite Hu|].
  intros [->|Hin]%elem_of_cons; [done|]. by eapply (IH _ ""); [| |exact Hin].
Qed.

(** Only the word that was begun can have letters. *)
Lemma quiet_tail k w s : all_chars quiet s = true -> k ∈ top_words 0 w (String " " s) -> k = w \/ all_chars quiet k = true.
Proof. cbn [top_words andb]. intros Hs [->|Hin]%elem_of_cons; [by left|]. right. by eapply quiet_words; [exact Hs| |exact Hin]. Qed.

Lemma field_words w f r : all_chars word_char f = true -> top_words 0 w (f +:+ r) = top_words 0 (w +:+ ascii_uppercase f) r.
Proof.
  revert w. induction f as [|c f IH]; intros w Hf; [by rewrite str_app_nil_r|]. cbn in Hf. apply andb_true_iff in Hf as [Hc Hf].
  rewrite str_app_cons. cbn [top_words ascii_uppercase Nat.eqb andb]. rewrite Hc, IH by done. by rewrite str_app_assoc.
Qed.

Lemma field_scan f r : all_chars word_char f = true ->
  scan false 0 (f +:+ r) = scan false 0 r /\ contains_char "'" (f +:+ r) = contains_char "'" r.
Proof.
  induction f as [|c f IH]; [done|]. cbn [all_chars]. intros [Hc Hf]%andb_true_iff. rewrite str_app_cons. cbn [scan contains_char].
  destruct (IH Hf) as [-> ->]. by rewrite !(not_a word_char c).
Qed.

(** No blank begins with the characters that begin or end a condition of a rule. *)
Definition solid (c : ascii) : bool := word_char c || Ascii.eqb c "-" || Ascii.eqb c ")".

Lemma solid_unpadded ps c r : ps ∈ spaces -> solid c = true -> unpadded ps (String c r).
Proof.
  intros Hps Hc.
  assert (Hall : forallb (forallb (fun p => match p with String x _ => negb (solid x) | EmptyString => false end)) spaces = true) by done.
  rewrite forallb_forall in Hall. specialize (Hall ps). rewrite forallb_forall in Hall. apply list_elem_of_In in Hps.
  apply Forall_forall. intros p Hp. apply list_elem_of_In in Hp. specialize (Hall Hps p Hp). destruct p as [|x p]; [done|].
  rewrite starts_cons. destruct (Ascii.eqb_spec x c) as [->|]; [by rewrite Hc in Hall|done].
Qed.

Lemma solid_trimmed c a b e : solid c = true -> solid e = true -> a = String c b -> (exists x, a = x +:+ chr e) -> trimmed a.
Proof.
  intros Hc He Ha [x Hx]. split; [rewrite Ha; apply solid_unpadded; [by left|done]|].
  rewrite Hx, rev_string_app. apply (solid_unpadded _ e); [by right; left|done].
Qed.

Lemma all_chars_last p s : all_chars p s = true -> s <> "" -> exists x e, s = x +:+ chr e /\ p e = true.
Proof.
  induction s as [|c s IH]; [done|]. cbn [all_chars]. intros [Hc Hs]%andb_true_iff _. destruct s as [|c2 s].
  - by exists "", c.
  - destruct (IH Hs ltac:(done)) as (x & e & -> & He). by exists (String c x), e.
Qed.

Lemma field_single f rest e : plain_field f -> scan false 0 rest = Some (false, 0%nat) -> contains_char "'" rest = false ->
  (forall k, k ∈ top_words 0 (ascii_uppercase f) rest -> k <> "OR" /\ k <> "AND") -> solid e = true -> (exists x, rest = x +:+ chr e) ->
  single (f +:+ rest).
Proof.
  intros (Hf & Hne & Ho & Ha) Hs Hq Hw He [x Hx]. destruct (field_scan f rest Hf) as [Hfs Hfq]. rewrite Hs in Hfs. rewrite Hq in Hfq.
  assert (Hparts : forall kw, kw = "OR" \/ kw = "AND" -> parts kw (f +:+ rest) = [f +:+ rest]).
  { intros kw Hkw. unfold parts. change [f +:+ rest] with ["" +:+ (f +:+ rest)]. apply (split_free kw) with (w := ""); [by destruct Hkw as [->| ->]|by destruct Hkw as [->| ->]|done|done|].
    rewrite field_words by done. intros Hin. destruct (Hw kw Hin). by destruct Hkw. }
  split.
  - destruct f as [|c f]; [done|]. cbn in Hf. apply andb_true_iff in Hf as [Hc _].
    apply (solid_trimmed c _ (f +:+ rest) e); [unfold solid; by rewrite Hc|done|done|]. exists (String c f +:+ x). by rewrite Hx, str_app_assoc.
  - by destruct f.
  - by apply closed_scan.
  - apply Hparts. by left.
  - apply Hparts. by right.
  - destruct f as [|c f]; [done|]. cbn in Hf. apply andb_true_iff in Hf as [Hc _]. rewrite str_app_cons. unfold unwrap. by rewrite (not_a word_char c).
Qed.

Lemma condition_eq_single f id : plain_field f -> single (condition_eq f id).
Proof.
  intros Hf. pose proof (pretty_number id) as [Hn Hne]. pose proof (all_chars_impl _ _ _ number_quiet Hn) as Hq.
  destruct (all_chars_last _ _ Hn Hne) as (x & e & Hx & He).
  apply (field_single f (" = " +:+ pretty id) e Hf).
  - exact (proj1 (quiet_scan 0 (" = " +:+ pretty id) Hq)).
  - exact (proj2 (quiet_scan 0 (" = " +:+ pretty id) Hq)).
  - intros k Hin. apply (quiet_tail k _ ("= " +:+ pretty id) Hq) in Hin. destruct Hf as (_ & _ & Ho & Ha).
    destruct Hin as [->|Hin]; [done|]. split; intros ->; discriminate Hin.
  - clear -He. by destruct e as [[] [] [] [] [] [] [] []].
  - exists (" = " +:+ x). by rewrite Hx, str_app_assoc.
Qed.

Lemma condition_in_single f ids : plain_field f -> single (f +:+ " IN (" +:+ join ", " ((pretty : Z -> string) <$> ids) +:+ ")").
Proof.
  intros Hf. pose proof (quiet_numbers ids) as Hq. set (l := join ", " ((pretty : Z -> string) <$> ids)) in *. clearbody l.
  destruct (quiet_scan 1 l Hq) as [Hs1 Hq1].
  apply (field_single f (" IN (" +:+ l +:+ ")") ")" Hf).
  - change (scan false 1 (l +:+ ")") = Some (false, 0%nat)). by rewrite scan_app, Hs1.
  - change (contains_char "'" (l +:+ ")") = false). clear -Hq1. induction l as [|c l IH]; [done|].
    rewrite str_app_cons. cbn [contains_char] in *. apply orb_false_iff in Hq1 as [-> H]. by apply IH.
  - intros k Hin. change (k ∈ ascii_uppercase f :: "IN" :: "" :: top_words 1 "" (l +:+ ")")) in Hin.
    destruct Hf as (_ & _ & Ho & Ha). apply elem_of_cons in Hin as [->|Hin]; [done|]. apply elem_of_cons in Hin as [->|Hin]; [done|].
    apply elem_of_cons in Hin as [->|Hin]; [done|]. assert (Hk : k = ""); [|by subst].
    clear -Hin Hq. revert Hin. induction l as [|c l IH].
    + intros Hin. cbn in Hin. set_solver.
    + cbn in Hq. apply andb_true_iff in Hq as [Hc Hq]. rewrite str_app_cons. cbn [top_words Nat.eqb andb].
      rewrite !(not_a quiet c) by done.
      intros [->|Hin]%elem_of_cons; [done|]. by apply IH.
  - done.
  - exists (" IN (" +:+ l). by rewrite str_app_assoc.
Qed.

(** * What a request sees *)

(** A rule whose clause is one condition, no disjunction or conjunction of its own. *)
Definition one_condition (rule : PermissionRule) : Prop :=
  forall ctx c, rule_apply rule ctx = Ok (Some c) -> trim c = "" \/ single c.

(** What a row must satisfy for a rule: [atom] decides conditions on the row. *)
Definition rule_allows (atom : string -> bool) (ctx : PermissionContext) (rule : PermissionRule) : bool :=
  match rule_apply rule ctx with
  | Ok (Some c) => (trim c =? "")%string || atom c
  | Ok None => true
  | Err _ => false
  end.

Definition rule_fails (ctx : PermissionContext) (e : PermissionError) (rule : PermissionRule) : Prop := rule_apply rule ctx = Err e.

Lemma built_in_one_condition f subs : plain_field f ->
  one_condition (TenantIsolation f) /\ one_condition (OwnerOnly f) /\ one_condition (DepartmentScope f subs).
Proof.
  intros Hf. split; [|split]; intros ctx c; cbn; unfold tenant_isolation_apply, owner_only_apply, department_scope_apply.
  all: destruct (is_admin ctx); [done|].
  - destruct (tenant_id ctx); [|done]. intros [= <-]. right. by apply condition_eq_single.
  - destruct (user_id ctx); [|done]. intros [= <-]. right. by apply condition_eq_single.
  - destruct (dept_id ctx) as [d|]; [|done]. destruct subs as [|s subs]; intros [= <-]; right; [by apply condition_eq_single|].
    by apply (condition_in_single f (d :: s :: subs)).
Qed.

(** The built-in rules let an administrator see everything, and nobody without an identity. *)
Lemma built_in_applies f subs ctx :
  (is_admin ctx = true -> forall r, r ∈ [TenantIsolation f; OwnerOnly f; DepartmentScope f subs] -> rule_apply r ctx = Ok None)
  /\ (is_admin ctx = false ->
      (tenant_id ctx = None -> rule_apply (TenantIsolation f) ctx = Err (MissingContext "tenant_id"))
      /\ (user_id ctx = None -> rule_apply (OwnerOnly f) ctx = Err (MissingContext "user_id"))
      /\ (dept_id ctx = None -> rule_apply (DepartmentScope f subs) ctx = Err (MissingContext "dept_id"))).
Proof.
  cbn. unfold tenant_isolation_apply, owner_only_apply, department_scope_apply. split.
  - intros Ha r Hr. repeat (apply elem_of_cons in Hr as [->|Hr]; [cbn; unfold tenant_isolation_apply, owner_only_apply, department_scope_apply; by rewrite Ha|]).
    by apply elem_of_nil in Hr.
  - intros ->. repeat split; by intros ->.
Qed.

Lemma collect_spec rs ctx acc : Forall one_condition rs ->
  match collect_clauses_go rs ctx acc with
  | Ok cs => exists l, cs = (acc ++ l)%list /\ Forall single l /\ (forall atom, forallb atom l = forallb (rule_allows atom ctx) rs)
             /\ Forall (fun r => forall e, ~ rule_fails ctx e r) rs
  | Err e => Exists (rule_fails ctx e) rs
  end.
Proof.
  unfold rule_fails. intros Hrs. revert acc. induction Hrs as [|r rs Hr Hrs IH]; intros acc; cbn [collect_clauses_go].
  { exists []. by rewrite app_nil_r. }
  destruct (rule_apply r ctx) as [[c|]|e] eqn:Ha; [| |by constructor].
  - destruct (trim c =? "")%string eqn:Hc; cbn [negb]; specialize (IH (if trim c =? "" then acc else acc ++ [c])%list); rewrite Hc in IH;
      destruct (collect_clauses_go rs ctx _) as [cs|e]; [|by right| |by right]; destruct IH as (l & -> & Hl & Hat & Hok).
    + exists l. split; [done|]. split; [done|]. split; [|constructor; [by rewrite Ha|done]].
      intros atom. cbn [forallb]. unfold rule_allows at 1. rewrite Ha, Hc. apply Hat.
    + exists (c :: l). rewrite <- app_assoc. split; [done|]. split.
      { constructor; [|done]. destruct (Hr ctx c Ha) as [E|E]; [|done]. by rewrite E in Hc. }
      split; [|constructor; [by rewrite Ha|done]]. intros atom. cbn [forallb]. unfold rule_allows at 1. rewrite Ha, Hc, Hat. done.
  - specialize (IH acc). destruct (collect_clauses_go rs ctx acc) as [cs|e]; [|by right]. destruct IH as (l & -> & Hl & Hat & Hok).
    exists l. split; [done|]. split; [done|]. split; [|constructor; [by rewrite Ha|done]].
    intros atom. cbn [forallb]. unfold rule_allows at 1. rewrite Ha. apply Hat.
Qed.

(** C27. An intercepted statement with one WHERE reads the rows that satisfy its own condition and every
    rule.  The statement has the keyword WHERE, and the keywords of the clauses behind it, nowhere but at
    these clauses, and letters that keep their width in upper case ([where_parts]); its condition is not
    empty and closes its parentheses and quotes; and the clause of every rule is one condition, as those
    of the built-in rules with plain columns are ([built_in_one_condition]).  Then the statement is
    refused exactly when a rule fails; otherwise, unless no rule applies, its condition becomes one that
    holds, to any depth of reading, exactly when the old one and the conditions of all rules do, and the
    rest of the statement stays.  What happens outside these conditions is shown by
    [permission_custom_or], [permission_keyword_column], [permission_literal], [permission_union],
    [permission_shifted] and [permission_glues]. *)
Theorem permission_guards (i : DataPermissionInterceptor) (ctx : PermissionContext) (head w cond tail : string) :
  Forall one_condition (rules i) -> where_parts head w cond tail -> trim cond <> "" -> closed (trim cond) = true ->
  match apply_to_select (head +:+ w +:+ cond +:+ tail) ctx i with
  | None => False
  | Some (Err e) => Exists (rule_fails ctx e) (rules i)
  | Some (Ok out) =>
      Forall (fun r => forall e, ~ rule_fails ctx e r) (rules i) /\
      ((out = head +:+ w +:+ cond +:+ tail /\ forall atom, forallb (rule_allows atom ctx) (rules i) = true)
       \/ exists g, out = head +:+ w +:+ " " +:+ g +:+ tail /\ forall atom n,
            holds atom (S (S (S n))) g = holds atom (S n) (trim cond) && forallb (rule_allows atom ctx) (rules i))
  end.
Proof.
  intros Hrs Hw Hne Hc. unfold apply_to_select, collect_clauses. pose proof (collect_spec (rules i) ctx [] Hrs) as Hcol.
  destruct (collect_clauses_go (rules i) ctx []) as [cs|e]; [|done]. destruct Hcol as (l & -> & Hl & Hat & Hok). cbn [app].
  destruct l as [|c l]; cbn [is_nil].
  - split; [done|]. left. split; [done|]. intros atom. by rewrite <- Hat.
  - rewrite append_where by done. cbn [mbind option_bind]. split; [done|]. right. apply String.eqb_neq in Hne as Hb. rewrite Hb.
    exists ("(" +:+ trim cond +:+ " ) AND (" +:+ join " AND " (c :: l) +:+ ")"). split; [by rewrite !str_app_assoc|].
    intros atom n. rewrite <- Hat. apply guarded_holds; try done. apply trimmed_trim.
Qed.

Definition wide_head : string := "SELECT a FROM t ".
Definition wide_cond : string := " x = 1 OR y = '('')' ".

Lemma permission_guards_witness :
  exists g, apply_to_select (wide_head +:+ "where" +:+ wide_cond +:+ "LIMIT 3") example_context example_interceptor
            = Some (Ok (wide_head +:+ "where" +:+ " " +:+ g +:+ "LIMIT 3"))
    /\ forall atom, holds atom 3 g = holds atom 1 "x = 1 OR y = '('')'" && (atom "tenant_id = 5" && (atom "user_id = 100" && true)).
Proof.
  assert (Hr : Forall one_condition (rules example_interceptor)).
  { constructor; [|constructor; [|constructor]]; [apply (built_in_one_condition "tenant_id" [])|apply (built_in_one_condition "user_id" [])]; by repeat split; vm_compute. }
  assert (Hw : where_parts wide_head "where" wide_cond "LIMIT 3").
  { split; try (by vm_compute); try (by left; vm_compute).
    - unfold calm. vm_compute. set_solver.
    - intros k0 kw Hk. unfold calm. repeat (destruct Hk as [[= <- <-]|Hk]; [vm_compute; set_solver|]). done.
    - right. exists "LIMIT", "LIMIT", "LIMIT", " 3". split; [by do 2 right; left|done]. }
  pose proof (permission_guards example_interceptor example_context wide_head "where" wide_cond "LIMIT 3" Hr Hw ltac:(by vm_compute) ltac:(by vm_compute)) as H.
  assert (E : apply_to_select (wide_head +:+ "where" +:+ wide_cond +:+ "LIMIT 3") example_context example_interceptor
    = Some (Ok "SELECT a FROM t where (x = 1 OR y = '('')' ) AND (tenant_id = 5 AND user_id = 100)LIMIT 3")) by (vm_compute; reflexivity).
  rewrite E in H |- *. destruct H as [_ [[_ H]|(g & Hg & H)]].
  - exfalso. specialize (H (fun _ => false)). vm_compute in H. discriminate H.
  - exists g. split; [by f_equal; f_equal|]. intros atom. exact (H atom 0%nat).
Defined.

(** Without a WHERE the conditions of the rules become one. *)
Lemma permission_no_where i ctx head tail : Forall one_condition (rules i) -> plain_parts head tail ->
  match apply_to_select (head +:+ tail) ctx i with
  | None => False
  | Some (Err e) => Exists (rule_fails ctx e) (rules i)
  | Some (Ok out) =>
      Forall (fun r => forall e, ~ rule_fails ctx e r) (rules i) /\
      ((out = head +:+ tail /\ forall atom, forallb (rule_allows atom ctx) (rules i) = true)
       \/ exists g, out = trim_end head +:+ (if (trim_end head =? "")%string then "" else " ") +:+ "WHERE " +:+ g +:+ tail /\
            forall atom n, holds atom (S n) g = forallb (rule_allows atom ctx) (rules i))
  end.
Proof.
  intros Hrs Hp. unfold apply_to_select, collect_clauses. pose proof (collect_spec (rules i) ctx [] Hrs) as Hcol.
  destruct (collect_clauses_go (rules i) ctx []) as [cs|e]; [|done]. destruct Hcol as (l & -> & Hl & Hat & Hok). cbn [app].
  destruct l as [|c l]; cbn [is_nil].
  - split; [done|]. left. split; [done|]. intros atom. by rewrite <- Hat.
  - rewrite append_no_where by done. cbn [mbind option_bind]. split; [done|]. right. eexists. split; [reflexivity|].
    intros atom n. rewrite <- Hat. by apply joined_holds.
Qed.

(** Where it fails: the clauses that follow are glued to the last number of the condition, so
    that their keyword is lost. *)
Lemma permission_glues :
  let out := "SELECT * FROM orders WHERE tenant_id = 5ORDER BY id" in
  apply_to_select "SELECT * FROM orders ORDER BY id" (with_tenant_id 5 context_new) (mkInterceptor [TenantIsolation "tenant_id"])
  = Some (Ok out) /\ find_keyword out "ORDER BY" = None.
Proof. split; vm_compute; reflexivity. Qed.

(** A rule with a disjunction of its own opens the others: the clauses are joined without parentheses. *)
Lemma permission_custom_or :
  let g := "tenant_id = 5 AND open = 1 OR archived = 1" in
  apply_to_select "SELECT * FROM orders" (with_tenant_id 5 context_new)
    (mkInterceptor [TenantIsolation "tenant_id"; CustomCondition "status" (fun _ => Some "open = 1 OR archived = 1")])
  = Some (Ok ("SELECT * FROM orders WHERE " +:+ g))
  /\ holds (fun s => bool_decide (s = "archived = 1")) 3 g = true.
Proof. split; vm_compute; reflexivity. Qed.

(** A column named like a keyword, quoted or not, before the WHERE makes it panic. *)
Lemma permission_keyword_column :
  apply_to_select "SELECT `limit` FROM plans WHERE id = 1" (with_tenant_id 5 context_new) (mkInterceptor [TenantIsolation "tenant_id"]) = None.
Proof. vm_compute. reflexivity. Qed.

(** A keyword in a literal ends the condition there, and one in a comment takes the condition. *)
Lemma permission_literal :
  apply_to_select "SELECT * FROM t WHERE note = 'over limit' OR x = 1" (with_tenant_id 5 context_new) (mkInterceptor [TenantIsolation "tenant_id"])
  = Some (Ok "SELECT * FROM t WHERE (note = 'over ) AND (tenant_id = 5)limit' OR x = 1")
  /\ apply_to_select "SELECT * FROM t -- all" (with_tenant_id 5 context_new) (mkInterceptor [TenantIsolation "tenant_id"])
  = Some (Ok "SELECT * FROM t -- all WHERE tenant_id = 5").
Proof. split; vm_compute; reflexivity. Qed.

(** Only the first of the statements joined by UNION is guarded. *)
Lemma permission_union :
  apply_to_select "SELECT a FROM t WHERE x = 1 UNION SELECT a FROM t WHERE y = 2" (with_tenant_id 5 context_new)
    (mkInterceptor [TenantIsolation "tenant_id"])
  = Some (Ok "SELECT a FROM t WHERE (x = 1 UNION SELECT a FROM t WHERE y = 2 ) AND (tenant_id = 5)")
  /\ apply_to_select "SELECT a FROM t UNION SELECT a FROM t WHERE y = 2" (with_tenant_id 5 context_new)
    (mkInterceptor [TenantIsolation "tenant_id"])
  = Some (Ok "SELECT a FROM t UNION SELECT a FROM t WHERE (y = 2 ) AND (tenant_id = 5)").
Proof. split; vm_compute; reflexivity. Qed.

(** A dotless i before the keyword moves every position by one. *)
Lemma permission_shifted :
  apply_to_select ("SELECT " +:+ utf8 305 +:+ " FROM t WHERE x = 1") (with_tenant_id 5 context_new) (mkInterceptor [TenantIsolation "tenant_id"])
  = Some (Ok ("SELECT " +:+ utf8 305 +:+ " FROM t WHER (E x = 1 ) AND (tenant_id = 5)")).
Proof. vm_compute. reflexivity. Qed.
