(* ===== verification/DynamicFilter.v ===== *)
(** Dynamic filters, [sz-orm-core/src/dynamic_filter.rs]: the registry of filter definitions and
    of the filters that are enabled, the rendering of their templates, and their insertion into
    statements by [append_filter_clauses] of [SqlSplice.v]. *)

From Stdlib Require Import Ascii String.
From S2P Require Import Prelude SqlText DynamicSql DynamicFacts SqlSplice.
From S2P Require Import Dialect VendorDialects AnalyticDialects Dialects Value.
Local Open Scope string_scope.
#[local] Arguments String.append !_ _ : simpl nomatch.

(** * Definitions of filters *)

Record FilterParam : Type := mkParam {
  param_name : string;
  default_value : option Value;
  param_description : string;
}.

Definition param_new (name : string) (default_value : Value) : FilterParam := mkParam name (Some default_value) "".
Definition param_required (name : string) : FilterParam := mkParam name None "".
Definition param_with_description (desc : string) (p : FilterParam) : FilterParam :=
  mkParam (param_name p) (default_value p) desc.

Record FilterDef : Type := mkDef {
  def_name : string;
  condition : string;
  params : list FilterParam;
  def_description : string;
  table : option string;
}.

Definition def_new (name : string) : FilterDef := mkDef name "" [] "" None.
Definition with_condition (condition : string) (d : FilterDef) : FilterDef :=
  mkDef (def_name d) condition (params d) (def_description d) (table d).
Definition with_param (p : FilterParam) (d : FilterDef) : FilterDef :=
  mkDef (def_name d) (condition d) (params d ++ [p])%list (def_description d) (table d).
Definition with_description (desc : string) (d : FilterDef) : FilterDef :=
  mkDef (def_name d) (condition d) (params d) desc (table d).
Definition with_table (table : string) (d : FilterDef) : FilterDef :=
  mkDef (def_name d) (condition d) (params d) (def_description d) (Some table).
Definition find_param (name : string) (d : FilterDef) : option FilterParam :=
  snd <$> list_find (fun p => param_name p = name) (params d).

Inductive FilterError : Type :=
| NotRegistered (name : string)
| MissingParam (filter param : string)
| ParamTypeMismatch (filter param expected : string)
| AlreadyEnabled (name : string)
| NotEnabled (name : string)
| TemplateError (msg : string).

Definition filter_error_display (e : FilterError) : string :=
  match e with
  | NotRegistered n => "Filter `" +:+ n +:+ "` not registered"
  | MissingParam filter param => "Filter `" +:+ filter +:+ "` missing required param: `" +:+ param +:+ "`"
  | ParamTypeMismatch filter param expected =>
      "Filter `" +:+ filter +:+ "` param `" +:+ param +:+ "` type mismatch, expected: " +:+ expected
  | AlreadyEnabled n => "Filter `" +:+ n +:+ "` already enabled"
  | NotEnabled n => "Filter `" +:+ n +:+ "` not enabled"
  | TemplateError msg => "Filter template error: " +:+ msg
  end.

(** * The registry *)

Record EnabledFilter : Type := mkEnabled {
  filter_name : string;
  filter_params : gmap string Value;
}.

Record FilterRegistry : Type := mkRegistry {
  defs : gmap string FilterDef;
  enabled : list EnabledFilter;
}.

Definition registry_new : FilterRegistry := mkRegistry ∅ [].

Definition register (def : FilterDef) (r : FilterRegistry) : FilterRegistry :=
  mkRegistry (<[def_name def := def]> (defs r)) (enabled r).

Definition unregister (name : string) (r : FilterRegistry) : bool * FilterRegistry :=
  (is_some (defs r !! name), mkRegistry (delete name (defs r)) (enabled r)).

Definition is_enabled (name : string) (r : FilterRegistry) : bool :=
  existsb (fun e => filter_name e =? name)%string (enabled r).

(** The parameters of a filter, the given ones before the defaults. *)
Fixpoint merge_params (name : string) (ps : list FilterParam) (given merged : gmap string Value)
    : result (gmap string Value) FilterError :=
  match ps with
  | [] => Ok merged
  | param_def :: ps =>
      match given !! param_name param_def, default_value param_def with
      | Some v, _ => merge_params name ps given (<[param_name param_def := v]> merged)
      | None, Some dv => merge_params name ps given (<[param_name param_def := dv]> merged)
      | None, None => Err (MissingParam name (param_name param_def))
      end
  end.

(** [enable] reads the definitions and the enabled filters under locks of their own, and pushes
    under a third one: what it decides, and what it does with the decision. *)
Definition enable_decide (name : string) (given : gmap string Value) (r : FilterRegistry) : result EnabledFilter FilterError :=
  match defs r !! name with
  | None => Err (NotRegistered name)
  | Some def =>
      if is_enabled name r then Err (AlreadyEnabled name)
      else match merge_params name (params def) given ∅ with
           | Ok merged => Ok (mkEnabled name merged)
           | Err e => Err e
           end
  end.

Definition enable_push (e : EnabledFilter) (r : FilterRegistry) : FilterRegistry := mkRegistry (defs r) (enabled r ++ [e])%list.

Definition enable (name : string) (given : gmap string Value) (r : FilterRegistry) : result unit FilterError * FilterRegistry :=
  match enable_decide name given r with
  | Ok e => (Ok tt, enable_push e r)
  | Err e => (Err e, r)
  end.

Definition disable (name : string) (r : FilterRegistry) : result unit FilterError * FilterRegistry :=
  let kept := filter (fun e => filter_name e <> name) (enabled r) in
  (if (length kept =? length (enabled r))%nat then Err (NotEnabled name) else Ok tt, mkRegistry (defs r) kept).

Definition enabled_count (r : FilterRegistry) : nat := length (enabled r).
Definition registered_count (r : FilterRegistry) : nat := size (defs r).
Definition registered_names (r : FilterRegistry) : list string := (map_to_list (defs r)).*1.
Definition enabled_names (r : FilterRegistry) : list string := filter_name <$> enabled r.
Definition clear_enabled (r : FilterRegistry) : FilterRegistry := mkRegistry (defs r) [].

(** * Templates *)

(** The letters, digits and underscores a text begins with. *)
Fixpoint take_word (s : string) : string :=
  match s with
  | String c s => if word_char c then String c (take_word s) else EmptyString
  | EmptyString => EmptyString
  end.

Section Render.
Context `{FloatText}.

(** The loop of [render_condition_with_dialect]: every turn takes a parameter or a byte, which
    is pushed [as char]; [fuel] is the number of bytes. *)
Fixpoint render_go (fuel : nat) (params : gmap string Value) (dialect : Dialect) (s acc : string) : option string :=
  match fuel, s with
  | S fuel, String c s =>
      let name := take_word s in
      if Ascii.eqb c ":" && negb (name =? "")%string then
        value ← params !! name;
        render_go fuel params dialect (drop_bytes (String.length name) s) (acc +:+ to_param_with_dialect dialect value)
      else render_go fuel params dialect s (acc +:+ utf8 (N_of_ascii c))
  | _, _ => Some acc
  end.

Definition render_condition_with_dialect (template : string) (params : gmap string Value) (dialect : Dialect) : option string :=
  render_go (String.length template) params dialect template "".

Definition render_condition (template : string) (params : gmap string Value) : option string :=
  render_condition_with_dialect template params PostgreSqlDialect.

(** The clauses in the order the filters were enabled, and whether one could not be rendered. *)
Fixpoint collect_clauses_go (defs : gmap string FilterDef) (dialect : Dialect) (enabled : list EnabledFilter)
    (clauses : list string) (has_error : bool) : list string * bool :=
  match enabled with
  | [] => (clauses, has_error)
  | ef :: enabled =>
      match defs !! filter_name ef with
      | None => collect_clauses_go defs dialect enabled clauses has_error
      | Some def =>
          match render_condition_with_dialect (condition def) (filter_params ef) dialect with
          | Some rendered =>
              collect_clauses_go defs dialect enabled
                (if negb (trim rendered =? "")%string then clauses ++ [rendered] else clauses)%list has_error
          | None => collect_clauses_go defs dialect enabled clauses true
          end
      end
  end.

Definition collect_clauses_with_dialect (dialect : Dialect) (r : FilterRegistry) : list string * bool :=
  collect_clauses_go (defs r) dialect (enabled r) [] false.

(** [None] where a slice panics. *)
Definition apply_with_dialect (sql : string) (dialect : Dialect) (r : FilterRegistry) : option string :=
  let (clauses, has_error) := collect_clauses_with_dialect dialect r in
  if has_error || is_nil clauses then Some sql else append_filter_clauses sql clauses.

Definition apply (sql : string) (r : FilterRegistry) : option string := apply_with_dialect sql PostgreSqlDialect r.
End Render.

Definition active_users : FilterDef :=
  with_param (param_new "status" (VString "active")) (with_condition "status = :status" (def_new "active_users")).

Example filter_example :
  let r := snd (enable "active_users" ∅ (register active_users registry_new)) in
  @apply no_digits "SELECT * FROM users" r = Some "SELECT * FROM users WHERE status = 'active'".
Proof. vm_compute. reflexivity. Qed.

(** * What a rendered template exposes *)

(** Two texts that leave a reader outside literals and show it the same outside them, wherever
    they follow text that ends outside. *)
Definition settled (st : lex_state) : Prop := st = LOut \/ st = LQuote.
Definition alike (bs : bool) (s t : string) : Prop :=
  forall st, settled st -> settled (fst (lex bs st s)) /\ lex bs st s = lex bs st t.

Lemma alike_app bs a a' b b' : alike bs a a' -> alike bs b b' -> alike bs (a +:+ b) (a' +:+ b').
Proof.
  intros Ha Hb st Hst. rewrite !lex_app. destruct (Ha st Hst) as [H1 <-]. destruct (lex bs st a) as [st1 o1].
  destruct (Hb st1 H1) as [H2 <-]. by destruct (lex bs st1 b).
Qed.

Lemma alike_plain bs s : contains_char squote s = false -> alike bs s s.
Proof.
  intros Hs st Hst. split; [|done]. revert st Hst. induction s as [|c s IH]; intros st Hst; [done|].
  cbn [contains_char] in Hs. apply orb_false_iff in Hs as [Hc Hs]. cbn [lex].
  assert (Hstep : fst (lex_step bs st c) = LOut) by (unfold lex_step; destruct Hst as [->| ->]; by rewrite Hc).
  destruct (lex_step bs st c) as [st1 o1]. cbn in Hstep. subst st1. specialize (IH Hs LOut (or_introl eq_refl)).
  by destruct (lex bs LOut s).
Qed.

Lemma alike_literal bs p b b' : contains_char squote p = false -> lex bs LIn b = (LIn, "") -> lex bs LIn b' = (LIn, "") ->
  alike bs (p +:+ "'" +:+ b +:+ "'") (p +:+ "'" +:+ b' +:+ "'").
Proof.
  intros Hp Hb Hb'. apply alike_app; [by apply alike_plain|]. intros st Hst.
  change ("'" +:+ b +:+ "'") with ("'" +:+ (b +:+ "'")). change ("'" +:+ b' +:+ "'") with ("'" +:+ (b' +:+ "'")).
  rewrite !(lex_app bs st "'"). assert (Hq : exists o, lex bs st "'" = (LIn, o)) by (destruct Hst as [->| ->]; by eexists).
  destruct Hq as [o ->]. rewrite !lex_app, Hb, Hb'. by split; [right|].
Qed.

Lemma alike_outside bs s t : alike bs s t -> outside bs s = outside bs t /\ outside bs s <> None.
Proof.
  intros H. destruct (H LOut (or_introl eq_refl)) as [Hs He]. unfold outside. rewrite <- He.
  destruct (lex bs LOut s) as [st o]. by destruct Hs as [E|E]; cbn in E; subst st.
Qed.

Section Exposure.
Context `{FloatText} (d : Dialect) `{L : DialectLaws d}.
Let bs : bool := backslash_escapes d.

Lemma value_alike (v : Value) : decimal_free v = true ->
  alike bs (to_param_with_dialect d v) (to_param_with_dialect d (mask v)).
Proof.
  assert (Hlit : forall s s', alike bs ("'" +:+ escape_string d s +:+ "'") ("'" +:+ escape_string d s' +:+ "'")).
  { intros s s'. apply (alike_literal bs ""); [done|apply escape_lex|apply escape_lex]. }
  induction v as [vs IH|v Hv] using Value_array_ind; intros Hdf.
  - cbn [mask to_param_with_dialect decimal_free] in *. apply alike_app; [by apply alike_plain|]. apply alike_app; [|by apply alike_plain].
    induction IH as [|v vs Hv Hvs IHvs]; [by apply alike_plain|]. cbn in Hdf. apply andb_true_iff in Hdf as [Hd1 Hd2].
    specialize (IHvs Hd2). destruct vs as [|v2 vs]; [by apply Hv|].
    change (alike bs (to_param_with_dialect d v +:+ ", " +:+ join ", " (to_param_with_dialect d <$> v2 :: vs))
      (to_param_with_dialect d (mask v) +:+ ", " +:+ join ", " (to_param_with_dialect d <$> (list_fmap Value Value mask (v2 :: vs))))).
    apply alike_app; [by apply Hv|]. by apply alike_app; [apply alike_plain|].
  - destruct v; try discriminate; cbn [mask to_param_with_dialect];
      try apply Hlit; try (by destruct b; apply alike_plain); try (by apply alike_plain);
      try (apply alike_plain, float_chars_plain, pretty_Z_chars).
    + apply alike_plain, float_chars_plain, f32_to_string_chars.
    + apply alike_plain, float_chars_plain, f64_to_string_chars.
    + apply (alike_literal bs "X"); [done|apply hex_encode_plain|done].
    + by destruct (Hv vs).
Qed.

Lemma byte_alike c : Ascii.eqb c squote = false -> alike bs (utf8 (N_of_ascii c)) (utf8 (N_of_ascii c)).
Proof. intros Hc. apply alike_plain. revert Hc. by destruct c as [[] [] [] [] [] [] [] []]. Qed.

Lemma contains_drop c n s : contains_char c s = false -> contains_char c (drop_bytes n s) = false.
Proof.
  unfold drop_bytes. revert n. induction s as [|x s IH]; intros n Hs; [by destruct n|].
  destruct n as [|n]; [by rewrite Nat.sub_0_r, substring_all|]. cbn [contains_char] in Hs. apply orb_false_iff in Hs as [_ Hs].
  cbn. by apply IH.
Qed.

Lemma render_alike fuel ps s acc acc' : contains_char squote s = false -> map_Forall (fun _ v => decimal_free v = true) ps ->
  alike bs acc acc' ->
  match render_go fuel ps d s acc, render_go fuel (mask <$> ps) d s acc' with
  | Some t, Some t' => alike bs t t'
  | None, None => True
  | _, _ => False
  end.
Proof.
  intros Hs Hps. revert s acc acc' Hs. induction fuel as [|fuel IH]; intros s acc acc' Hs Hacc; [done|]. destruct s as [|c s]; [done|].
  cbn [render_go]. cbn [contains_char] in Hs. apply orb_false_iff in Hs as [Hc Hs].
  destruct (_ && _).
  - rewrite lookup_fmap. destruct (ps !! take_word s) as [v|] eqn:Hv; [|done]. cbn [fmap option_fmap option_map mbind option_bind].
    apply IH; [by apply contains_drop|]. apply alike_app; [done|]. apply value_alike. by apply (Hps _ _ Hv).
  - apply IH; [done|]. apply alike_app; [done|]. by apply byte_alike.
Qed.
End Exposure.

(** The parameters of a filter cannot reach the text around them: for a template without
    literals of its own, in any database, what a reader sees outside literals does not depend on the
    strings and bytes among the values, and every literal is closed. *)
Theorem filter_params_inert `{FloatText} (t : DbType) (d : Dialect) (template : string) (ps : gmap string Value) :
  get_dialect t = Ok d -> contains_char squote template = false -> map_Forall (fun _ v => decimal_free v = true) ps ->
  match render_condition_with_dialect template ps d, render_condition_with_dialect template (mask <$> ps) d with
  | Some s, Some s' => outside (spec_backslash t) s = outside (spec_backslash t) s' /\ outside (spec_backslash t) s <> None
  | None, None => True
  | _, _ => False
  end.
Proof.
  intros Hd Ht Hps. destruct (get_dialect_laws t d Hd) as (_ & L & _ & Hb). rewrite <- Hb.
  pose proof (render_alike d (String.length template) ps template "" "" Ht Hps ltac:(by apply alike_plain)) as Hr.
  unfold render_condition_with_dialect. destruct (render_go _ _ _ _ _), (render_go _ _ _ _ _); try done. by apply alike_outside.
Qed.

Definition evil_params : gmap string Value := {["status" := VString "x' OR 1=1 -- \"; "age" := VI64 18]}.

Lemma filter_params_inert_witness :
  outside true (default "" (@render_condition_with_dialect no_digits "status = :status AND age >= :age" evil_params MySqlDialect))
  = Some "status = '' AND age >= 18".
Proof.
  pose proof (@filter_params_inert no_digits MySQL MySqlDialect "status = :status AND age >= :age" evil_params eq_refl eq_refl
    ltac:(apply map_Forall_insert_2; [done|by apply map_Forall_singleton])) as H.
  vm_compute (@render_condition_with_dialect no_digits _ evil_params _) in H |- *. exact (proj1 H).
Defined.

(** * The registry *)

(** What [enable] does, and on which conditions. *)
Lemma enable_spec name given r :
  match enable name given r with
  | (Ok _, r') => exists def merged, defs r !! name = Some def /\ is_enabled name r = false /\
      merge_params name (params def) given ∅ = Ok merged /\
      r' = mkRegistry (defs r) (enabled r ++ [mkEnabled name merged])
  | (Err e, r') => r' = r /\
      (e = NotRegistered name /\ defs r !! name = None
       \/ e = AlreadyEnabled name /\ is_enabled name r = true
       \/ exists def p, defs r !! name = Some def /\ p ∈ params def /\ given !! param_name p = None /\ default_value p = None
            /\ e = MissingParam name (param_name p))
  end.
Proof.
  unfold enable, enable_decide. destruct (defs r !! name) as [def|]; [|by split; [|left]].
  destruct (is_enabled name r); [by split; [|right; left]|].
  assert (Hm : forall ps m e, merge_params name ps given m = Err e ->
    exists p, p ∈ ps /\ given !! param_name p = None /\ default_value p = None /\ e = MissingParam name (param_name p)).
  { induction ps as [|p ps IH]; [done|]. intros m e. cbn [merge_params].
    destruct (given !! param_name p) eqn:Hg; [intros (q & Hq & Hr)%IH; exists q; split; [by right|done]|].
    destruct (default_value p) eqn:Hd; [intros (q & Hq & Hr)%IH; exists q; split; [by right|done]|].
    intros [= <-]. exists p. by split; [left|]. }
  destruct (merge_params name (params def) given ∅) as [merged|e] eqn:E; [by exists def, merged|].
  split; [done|]. right. right. destruct (Hm _ _ _ E) as (p & Hp). exists def, p. naive_solver.
Qed.

(** A given value comes before the default, and every declared parameter has a value. *)
Lemma merge_params_spec name ps given m m' : merge_params name ps given m = Ok m' -> NoDup (param_name <$> ps) ->
  forall k, m' !! k = match list_find (fun p => param_name p = k) ps with
                      | Some (_, p) => match given !! k with Some v => Some v | None => default_value p end
                      | None => m !! k
                      end.
Proof.
  revert m. induction ps as [|p ps IH]; intros m; cbn [merge_params]; [by intros [= <-]|]. rewrite fmap_cons, NoDup_cons.
  intros Hm [Hp Hps] k.
  assert (Hfresh : forall j q, list_find (fun p => param_name p = k) ps = Some (j, q) -> param_name p <> k).
  { intros j q (Hj & Hq & _)%list_find_Some E. apply Hp. rewrite E, <- Hq. apply list_elem_of_fmap_2. by eapply list_elem_of_lookup_2. }
  assert (Hstep : forall v, match given !! param_name p with Some x => Some x | None => default_value p end = Some v ->
    merge_params name ps given (<[param_name p := v]> m) = Ok m' ->
    m' !! k = match list_find (fun p => param_name p = k) (p :: ps) with
              | Some (_, q) => match given !! k with Some x => Some x | None => default_value q end | None => m !! k end).
  { intros v Hv E. rewrite (IH _ E Hps). cbn [list_find]. destruct (decide (param_name p = k)) as [<-|Hne].
    - rewrite Hv. destruct (list_find _ ps) as [[j q]|] eqn:Hf; [by destruct (Hfresh j q eq_refl eq_refl)|]. by rewrite lookup_insert_eq.
    - cbn. destruct (list_find _ ps) as [[j q]|]; [done|]. by rewrite lookup_insert_ne. }
  destruct (given !! param_name p) as [v|] eqn:Hg; [by apply (Hstep v)|]. destruct (default_value p) as [dv|] eqn:Hd; [|done].
  by apply (Hstep dv).
Qed.

(** ** Operations on the registry one after the other *)

Inductive filter_op : Type :=
| ORegister (def : FilterDef) | OUnregister (name : string) | OEnable (name : string) (given : gmap string Value)
| ODisable (name : string) | OClear.

Definition run_op (o : filter_op) (r : FilterRegistry) : FilterRegistry :=
  match o with
  | ORegister def => register def r
  | OUnregister name => snd (unregister name r)
  | OEnable name given => snd (enable name given r)
  | ODisable name => snd (disable name r)
  | OClear => clear_enabled r
  end.

Lemma is_enabled_spec name r : is_enabled name r = true <-> name ∈ enabled_names r.
Proof.
  unfold is_enabled, enabled_names. rewrite existsb_exists, list_elem_of_fmap. split.
  - intros (e & He & Hn%String.eqb_eq). exists e. split; [done|]. by apply list_elem_of_In.
  - intros (e & -> & He). exists e. split; [by apply list_elem_of_In|]. apply String.eqb_refl.
Qed.

(** No filter is enabled twice, and definitions are filed under their own names. *)
Definition registry_ok (r : FilterRegistry) : Prop :=
  NoDup (enabled_names r) /\ map_Forall (fun name def => def_name def = name) (defs r).

Lemma run_op_ok o r : registry_ok r -> registry_ok (run_op o r).
Proof.
  intros [He Hd]. destruct o as [def|name|name given|name|]; cbn [run_op].
  - split; [done|]. by apply map_Forall_insert_2.
  - split; [done|]. by apply map_Forall_delete.
  - pose proof (enable_spec name given r) as Hs. destruct (enable name given r) as [[u|e] r']; cbn [snd]; [|by destruct Hs as [-> _]].
    destruct Hs as (def & merged & _ & Hn & _ & ->). split; [|done]. unfold enabled_names. cbn [enabled]. rewrite fmap_app.
    apply NoDup_app. split; [done|]. split; [|by apply NoDup_singleton].
    intros x Hx ->%list_elem_of_singleton. apply is_enabled_spec in Hx. cbn in Hx. by rewrite Hn in Hx.
  - split; [|done]. unfold enabled_names, disable. cbn. eapply sublist_NoDup; [exact He|]. apply fmap_sublist, sublist_filter.
  - split; [apply NoDup_nil_2|done].
Qed.

(** [disable] undoes [enable], and says so when there is nothing to undo. *)
Lemma disable_spec name r :
  enabled_names (snd (disable name r)) = filter (fun n => n <> name) (enabled_names r)
  /\ (fst (disable name r) = Ok tt <-> name ∈ enabled_names r)
  /\ (fst (disable name r) = Err (NotEnabled name) <-> name ∉ enabled_names r).
Proof.
  unfold disable, enabled_names. cbn. induction (enabled r) as [|e l (IH1 & IH2 & IH3)]; [by cbn; set_solver|].
  rewrite !filter_cons, fmap_cons, filter_cons. pose proof (length_filter (fun e => filter_name e <> name) l) as Hlen.
  destruct (decide (filter_name e <> name)) as [Hne|He%dec_stable]; cbn [length fmap list_fmap].
  - rewrite IH1. split; [done|]. change (S (length ?x) =? S (length ?y))%nat with (length x =? length y)%nat in *. split.
    + rewrite elem_of_cons, <- IH2. naive_solver.
    + rewrite not_elem_of_cons, <- IH3. naive_solver.
  - rewrite IH1. split; [done|]. destruct (Nat.eqb_spec (length (filter (fun e => filter_name e <> name) l)) (S (length l))) as [E|_]; [lia|].
    rewrite He. split; (split; [|set_solver]); [set_solver|done].
Qed.

(** ** Where it fails *)

(** Two calls of [enable] whose checks come before either push enable a filter twice. *)
Lemma enable_race :
  let r := register active_users registry_new in
  match enable_decide "active_users" ∅ r, enable_decide "active_users" ∅ r with
  | Ok e1, Ok e2 => enabled_names (enable_push e2 (enable_push e1 r)) = ["active_users"; "active_users"]
  | _, _ => False
  end.
Proof. vm_compute. reflexivity. Qed.

(** A filter whose template names a parameter it does not have switches every other filter off:
    the statement is passed on as it came. *)
Lemma filters_fail_open :
  let tenant := with_param (param_new "t" (VI64 5)) (with_condition "tenant_id = :t" (def_new "tenant")) in
  let recent := with_condition "created_at::date > now()" (def_new "recent") in
  let r := register recent (register tenant registry_new) in
  let r1 := snd (enable "tenant" ∅ r) in let r2 := snd (enable "recent" ∅ r1) in
  @apply no_digits "SELECT * FROM orders" r1 = Some "SELECT * FROM orders WHERE tenant_id = 5"
  /\ @apply no_digits "SELECT * FROM orders" r2 = Some "SELECT * FROM orders".
Proof. split; vm_compute; reflexivity. Qed.

(** Unregistering the definition of an enabled filter switches it off silently. *)
Lemma filters_unregistered :
  let r := snd (unregister "active_users" (snd (enable "active_users" ∅ (register active_users registry_new)))) in
  is_enabled "active_users" r = true /\ @apply no_digits "SELECT * FROM users" r = Some "SELECT * FROM users".
Proof. split; vm_compute; reflexivity. Qed.

(** The filter of one table is put into statements on any other. *)
Lemma filters_any_table :
  let r := snd (enable "active_users" ∅ (register (with_table "users" active_users) registry_new)) in
  @apply no_digits "SELECT * FROM orders" r = Some "SELECT * FROM orders WHERE status = 'active'".
Proof. vm_compute. reflexivity. Qed.

(** Text outside ASCII is pushed byte by byte as characters. *)
Lemma filters_mangle_text :
  @render_condition no_digits ("city = 'Z" +:+ utf8 252 +:+ "rich'") ∅ = Some ("city = 'Z" +:+ utf8 195 +:+ utf8 188 +:+ "rich'").
Proof. vm_compute. reflexivity. Qed.

(** A parameter inside a literal of the template escapes from it. *)
Lemma filters_quoted_parameter :
  @render_condition no_digits "name LIKE '%:kw%'" {["kw" := VString " OR 1=1 -- "]} = Some "name LIKE '%' OR 1=1 -- '%'"
  /\ outside false "name LIKE '%' OR 1=1 -- '%'" = Some "name LIKE '' OR 1=1 -- ''".
Proof. split; vm_compute; reflexivity. Qed.

(** The search does not count parentheses: a keyword of a subquery takes the condition. *)
Lemma filters_subquery :
  append_filter_clauses "SELECT * FROM t WHERE id IN (SELECT id FROM u LIMIT 5)" ["x = 1"]
  = Some "SELECT * FROM t WHERE (id IN (SELECT id FROM u ) AND (x = 1)LIMIT 5)"
  /\ append_where_clauses "SELECT * FROM t WHERE id IN (SELECT id FROM u LIMIT 5)" ["x = 1"]
  = Some "SELECT * FROM t WHERE (id IN (SELECT id FROM u LIMIT 5) ) AND (x = 1)".
Proof. split; vm_compute; reflexivity. Qed.

(** ** Statements without parentheses *)

Lemma find_keyword_pos_go_flat kw prev i s : contains_char "(" s = false -> contains_char ")" s = false ->
  find_keyword_pos_go kw prev i s = find_keyword_go kw prev 0 i s.
Proof.
  revert prev i. induction s as [|c s IH]; intros prev i Ho Hc; cbn [find_keyword_pos_go find_keyword_go]; [done|].
  cbn [contains_char] in *. apply orb_false_iff in Ho as [Ho1 Ho], Hc as [Hc1 Hc]. rewrite Ho1, Hc1. cbn [Z.eqb andb].
  destruct (_ <? _)%nat; [done|]. destruct (_ && _); [done|]. by apply IH.
Qed.

(** There the insertion is that of the data permissions. *)
Lemma append_filter_flat sql clauses : narrow sql = true -> contains_char "(" sql = false -> contains_char ")" sql = false ->
  append_filter_clauses sql clauses = append_where_clauses sql clauses.
Proof.
  intros Hn Ho Hc. unfold append_filter_clauses, append_where_clauses, append_clauses. destruct (is_nil clauses); [done|].
  assert (Hu : forall x s, In x ["("; ")"; " "; "'"]%char -> contains_char x (ascii_uppercase s) = contains_char x s).
  { intros x s Hx. induction s as [|c s IH]; [done|]. cbn. by rewrite IH, upper_paren. }
  assert (Hf : forall kw, find_keyword_pos (to_uppercase sql) kw = find_keyword (to_uppercase sql) kw).
  { intros kw. unfold find_keyword_pos, find_keyword. destruct (_ || _); [done|].
    rewrite (to_uppercase_narrow sql Hn), (to_uppercase_narrow (ascii_uppercase sql)) by (by rewrite narrow_upper).
    apply find_keyword_pos_go_flat; rewrite !Hu by (cbn; tauto); done. }
  by rewrite !Hf.
Qed.
