(* ===== verification/SmallVec.v ===== *)
(** [SmallVec] of [sz-orm-core/src/smallvec.rs]: a vector whose first [N] elements live in the
    object itself, in storage that is initialised slot by slot with raw pointers.

    A slot is [Some] of its value while it is initialised, and [None] before it is written and
    after its value has been moved out; [None] of a result is undefined behaviour or a panic. *)

From S2P Require Import Prelude.

Section SmallVec.
Context {T : Type} (N : nat).

Record SmallVec : Type := mkSmallVec {
  stack : list (option T);
  heap : option (list T);
  len : nat;
}.

Definition small_new : SmallVec := mkSmallVec (replicate N None) None 0.

(** [ptr.add(i).write(value)] and [ptr.add(i).read()], which moves the value out. *)
Definition slot_write (i : nat) (value : T) (s : list (option T)) : option (list (option T)) :=
  if (i <? length s)%nat then Some (<[i := Some value]> s) else None.
Definition slot_read (i : nat) (s : list (option T)) : option (T * list (option T)) :=
  value ← mjoin (s !! i); Some (value, <[i := None]> s).

(** The loop that moves the slots from [i] on to the heap, [k] of them. *)
Fixpoint migrate (k i : nat) (s : list (option T)) (vec : list T) : option (list T * list (option T)) :=
  match k with
  | O => Some (vec, s)
  | S k => '(value, s) ← slot_read i s; migrate k (S i) s (vec ++ [value])
  end.

Definition small_push (value : T) (v : SmallVec) : option SmallVec :=
  match heap v with
  | Some vec => Some (mkSmallVec (stack v) (Some (vec ++ [value])) (len v + 1))
  | None =>
      if (len v <? N)%nat then
        s ← slot_write (len v) value (stack v); Some (mkSmallVec s None (len v + 1))
      else
        '(vec, s) ← migrate N 0 (stack v) [];
        Some (mkSmallVec s (Some (vec ++ [value])) (N + 1))
  end.

Definition small_pop (v : SmallVec) : option (option T * SmallVec) :=
  if (len v =? 0)%nat then Some (None, v)
  else
    match heap v with
    | Some vec => Some (last vec, mkSmallVec (stack v) (Some (removelast vec)) (len v - 1))
    | None =>
        '(value, s) ← slot_read (len v - 1) (stack v);
        Some (Some value, mkSmallVec s None (len v - 1))
    end.

Definition small_len (v : SmallVec) : nat := len v.
Definition small_is_empty (v : SmallVec) : bool := (len v =? 0)%nat.
Definition is_on_heap (v : SmallVec) : bool := is_some (heap v).

(** The first [n] slots as initialised memory. *)
Definition slots (n : nat) (s : list (option T)) : option (list T) :=
  if (n <=? length s)%nat then mapM id (take n s) else None.

Definition as_slice (v : SmallVec) : option (list T) :=
  match heap v with
  | Some vec => if (len v <=? length vec)%nat then Some (take (len v) vec) else None
  | None => slots (len v) (stack v)
  end.

(** [as_mut_slice], and what the caller makes of the slice. *)
Definition as_mut_slice (f : list T -> list T) (v : SmallVec) : option SmallVec :=
  slice ← as_slice v;
  Some (match heap v with
        | Some vec => mkSmallVec (stack v) (Some (f slice ++ drop (len v) vec)) (len v)
        | None => mkSmallVec ((Some <$> f slice) ++ drop (len v) (stack v)) None (len v)
        end).

(** The values [drop] drops, those of the vector on the heap by its own [drop]. *)
Definition small_drop (v : SmallVec) : option (list T) :=
  match heap v with
  | Some vec => Some vec
  | None => slots (len v) (stack v)
  end.

(** * The vector it stands for *)

Definition stands_for (v : SmallVec) (l : list T) : Prop :=
  len v = length l /\
  match heap v with
  | Some vec => vec = l /\ stack v = replicate N None
  | None => (length l <= N)%nat /\ stack v = (Some <$> l) ++ replicate (N - length l) None
  end.

Lemma slot_write_next (l : list T) value k :
  slot_write (length l) value ((Some <$> l) ++ replicate (S k) None) = Some ((Some <$> (l ++ [value])) ++ replicate k None).
Proof.
  unfold slot_write. rewrite length_app, length_fmap, length_replicate. destruct (Nat.ltb_spec (length l) (length l + S k)); [|lia].
  f_equal. rewrite <- (length_fmap Some l). cbn [replicate]. rewrite insert_middle, fmap_app. by rewrite <- (app_assoc (Some <$> l)).
Qed.

Lemma slot_read_at (a b : list (option T)) value : slot_read (length a) (a ++ Some value :: b) = Some (value, a ++ None :: b).
Proof. unfold slot_read. by rewrite lookup_middle, insert_middle. Qed.

Lemma migrate_all (l : list T) : forall (done_ : nat) vec,
  migrate (length l) done_ (replicate done_ None ++ (Some <$> l)) vec = Some (vec ++ l, replicate (done_ + length l) None).
Proof.
  induction l as [|x l IH]; intros n vec; [by rewrite app_nil_r, Nat.add_0_r, app_nil_r|]. cbn [length migrate fmap list_fmap].
  replace n with (length (replicate n (@None T))) at 1 by apply length_replicate. rewrite slot_read_at. cbn [mbind option_bind].
  rewrite cons_middle, app_assoc.
  change [None] with (replicate 1 (@None T)). rewrite <- replicate_add. replace (n + 1)%nat with (S n) by lia. rewrite IH.
  rewrite <- app_assoc. by replace (S n + length l)%nat with (n + S (length l))%nat by lia.
Qed.

Lemma slots_all (l : list T) rest : slots (length l) ((Some <$> l) ++ rest) = Some l.
Proof.
  unfold slots. rewrite length_app, length_fmap. destruct (Nat.leb_spec (length l) (length l + length rest)); [|lia].
  rewrite take_app_length' by (by rewrite length_fmap). clear. induction l as [|x l IH]; [done|]. cbn. by rewrite IH.
Qed.

Lemma new_stands : stands_for small_new [].
Proof. split; [done|]. split; cbn; [lia|]. by rewrite Nat.sub_0_r. Qed.

Lemma push_stands v l value : stands_for v l -> exists v', small_push value v = Some v' /\ stands_for v' (l ++ [value]).
Proof.
  intros [Hl Hh]. unfold small_push. destruct (heap v) as [vec|].
  - destruct Hh as [-> Hs]. eexists. split; [done|]. split; cbn; [rewrite length_app, Hl; done|done].
  - destruct Hh as [Hn Hs]. rewrite Hl, Hs. destruct (Nat.ltb_spec (length l) N).
    + replace (N - length l)%nat with (S (N - S (length l))) by lia. rewrite slot_write_next. cbn [mbind option_bind]. eexists. split; [done|].
      split; cbn; rewrite length_app; cbn; [done|]. split; [lia|]. by replace (N - (length l + 1))%nat with (N - S (length l))%nat by lia.
    + assert (E : N = length l) by lia. rewrite E, Nat.sub_diag. cbn [replicate]. rewrite app_nil_r.
      pose proof (migrate_all l 0 []) as Hm. cbn [replicate app Nat.add] in Hm. rewrite Hm. cbn [mbind option_bind]. eexists. split; [done|]. split; cbn; [by rewrite length_app|].
      split; [done|]. by rewrite E.
Qed.

Lemma pop_stands v l : stands_for v l -> exists v', small_pop v = Some (last l, v') /\ stands_for v' (removelast l).
Proof.
  intros Hv. pose proof Hv as [Hl Hh]. unfold small_pop. rewrite Hl. destruct l as [|x l' _] using rev_ind; [by exists v|].
  rewrite length_app, Nat.add_comm. cbn [length Nat.add Nat.eqb]. rewrite last_snoc, removelast_last. destruct (heap v) as [vec|].
  - destruct Hh as [-> Hs]. rewrite last_snoc, removelast_last. eexists. split; [done|]. split; cbn; [lia|done].
  - rewrite length_app, fmap_app in Hh. cbn in Hh. destruct Hh as [Hn Hs]. rewrite Hs, <- app_assoc. cbn [app].
    replace (S (length l') - 1)%nat with (length ((Some <$> l') : list (option T))) by (rewrite length_fmap; lia).
    rewrite slot_read_at. cbn [mbind option_bind]. eexists. split; [done|]. split; cbn; [rewrite length_fmap; lia|].
    split; [lia|]. replace (N - length l')%nat with (S (N - (length l' + 1))) by lia. done.
Qed.

Lemma slice_stands v l : stands_for v l -> as_slice v = Some l /\ small_drop v = Some l.
Proof.
  intros [Hl Hh]. unfold as_slice, small_drop. destruct (heap v) as [vec|].
  - destruct Hh as [-> _]. rewrite Hl, Nat.leb_refl. by rewrite take_ge.
  - destruct Hh as [_ Hs]. rewrite Hl, Hs. by rewrite !slots_all.
Qed.

Lemma mut_stands v l f : stands_for v l -> length (f l) = length l ->
  exists v', as_mut_slice f v = Some v' /\ stands_for v' (f l).
Proof.
  intros Hv Hf. destruct (slice_stands v l Hv) as [Hs _]. pose proof Hv as [Hl Hh]. unfold as_mut_slice. rewrite Hs. cbn [mbind option_bind].
  eexists. split; [done|]. destruct (heap v) as [vec|]; split; cbn; rewrite ?Hf; try done.
  - destruct Hh as [-> Hst]. rewrite drop_ge by lia. by rewrite app_nil_r.
  - destruct Hh as [Hn Hst]. split; [done|]. rewrite Hst, drop_app_length' by (by rewrite length_fmap). done.
Qed.

(** * Sequences of operations *)

Inductive small_op : Type := SPush (value : T) | SPop | SMut (f : list T -> list T).

Fixpoint run_small (ops : list small_op) (v : SmallVec) : option (list (option T) * SmallVec) :=
  match ops with
  | [] => Some ([], v)
  | SPush value :: ops => v ← small_push value v; run_small ops v
  | SPop :: ops => '(r, v) ← small_pop v; '(rs, v) ← run_small ops v; Some (r :: rs, v)
  | SMut f :: ops => v ← as_mut_slice f v; run_small ops v
  end.

(** The same on a list. *)
Fixpoint run_list (ops : list small_op) (l : list T) : list (option T) * list T :=
  match ops with
  | [] => ([], l)
  | SPush value :: ops => run_list ops (l ++ [value])
  | SPop :: ops => let '(rs, l') := run_list ops (removelast l) in (last l :: rs, l')
  | SMut f :: ops => run_list ops (f l)
  end.

Definition keeps_length (o : small_op) : Prop := match o with SMut f => forall l, length (f l) = length l | _ => True end.

(** The values that went in. *)
Definition pushed (ops : list small_op) : list T := omap (fun o => match o with SPush x => Some x | _ => None end) ops.

Lemma run_stands ops v l : Forall keeps_length ops -> stands_for v l ->
  exists v', run_small ops v = Some (fst (run_list ops l), v') /\ stands_for v' (snd (run_list ops l)).
Proof.
  intros Hops. revert v l. induction Hops as [|o ops Ho Hops IH]; intros v l Hv; [by exists v|]. destruct o as [x| |f]; cbn [run_small run_list].
  - destruct (push_stands v l x Hv) as (v1 & -> & Hv1). by apply IH.
  - destruct (pop_stands v l Hv) as (v1 & -> & Hv1). cbn [mbind option_bind]. destruct (IH v1 _ Hv1) as (v2 & -> & Hv2).
    cbn [mbind option_bind]. destruct (run_list ops (removelast l)) as [rs l']. by exists v2.
  - destruct (mut_stands v l f Hv (Ho l)) as (v1 & -> & Hv1). by apply IH.
Qed.

(** C39. A [SmallVec] is a vector: over any sequence of pushes, pops and changes through slices it
    never reads a slot that holds no value, answers as the list does, has the list as its slice, and
    when it is dropped drops exactly the elements of the list, so that without changes in place
    every value pushed is popped or dropped once. *)
Theorem small_vec_is_vec (ops : list small_op) : Forall keeps_length ops ->
  exists v, run_small ops small_new = Some (fst (run_list ops []), v) /\
    as_slice v = Some (snd (run_list ops [])) /\ small_len v = length (snd (run_list ops [])) /\
    small_drop v = Some (snd (run_list ops [])) /\
    (Forall (fun o => match o with SMut _ => False | _ => True end) ops ->
     pushed ops ≡ₚ omap id (fst (run_list ops [])) ++ snd (run_list ops [])).
Proof.
  intros Hops. destruct (run_stands ops small_new [] Hops new_stands) as (v & Hr & Hv). exists v. split; [done|].
  destruct (slice_stands v _ Hv) as [Hs Hd]. split; [done|]. split; [by destruct Hv|]. split; [done|]. intros Hno.
  assert (H : forall l, l ++ pushed ops ≡ₚ omap id (fst (run_list ops l)) ++ snd (run_list ops l)); [|by apply (H [])].
  clear -Hno. induction Hno as [|o ops Ho Hno IH]; intros l; [cbn; by rewrite app_nil_r|]. destruct o as [x| |f]; [| |done]; cbn [run_list].
  - rewrite <- IH. cbn. by rewrite <- app_assoc.
  - specialize (IH (removelast l)). destruct (run_list ops (removelast l)) as [rs l'] eqn:E. cbn [fst snd] in *.
    change (pushed (SPop :: ops)) with (pushed ops). destruct l as [|x l0 _] using rev_ind; [exact IH|].
    rewrite removelast_last in IH. rewrite last_snoc. cbn. rewrite <- IH, <- app_assoc. symmetry. apply Permutation_middle.
Qed.
End SmallVec.

Lemma small_vec_is_vec_witness :
  exists v, run_small 2 [SPush 1; SPush 2; SPop; SPush 3; SPush 4; SMut (fmap S); SPop] (small_new 2) = Some ([Some 2; Some 5], v)
    /\ small_drop v = Some [2; 4].
Proof.
  destruct (small_vec_is_vec 2 [SPush 1; SPush 2; SPop; SPush 3; SPush 4; SMut (fmap S); SPop]) as (v & Hr & _ & _ & Hd & _).
  { repeat constructor. intros l. apply length_fmap. }
  exists v. by split.
Defined.
