(* ===== verification/Bloom.v ===== *)
(** The Bloom filter of [sz-orm-core/src/bloom.rs], shared by threads: the bits are behind a
    lock, the count is an atomic beside it. *)

From Stdlib Require Import Ascii String.
From S2P Require Import Prelude.
Local Open Scope Z_scope.

Inductive BloomError : Type := CapacityExceeded (capacity requested : Z).

Record BloomFilter : Type := mkBloom {
  bits : list Z;
  num_bits : Z;
  num_hashes : nat;
  capacity : Z;
  count : Z;
}.

(** [new] with the values of its two formulas in floating point, [m] bits and [k] hashes. *)
Definition bloom_new (capacity m : Z) (k : nat) : BloomFilter :=
  let capacity := Z.max capacity 1 in
  let m := Z.max m 8 in
  let k := Nat.max k 1 in
  let num_words := (m + 63) / 64 in
  mkBloom (replicate (Z.to_nat num_words) 0) m k capacity 0.

(** The two hashes of a key. *)
Fixpoint hash_bytes (h1 h2 : Z) (key : string) : Z * Z :=
  match key with
  | EmptyString => (h1, h2)
  | String b key =>
      let b := Z.of_nat (nat_of_ascii b) in
      hash_bytes (wrap64 (Z.lxor h1 b * 0x100000001b3)) (wrap64 (wrap64 (h2 + b) * 0x100000001b3)) key
  end.

Definition hash (key : string) : Z * Z :=
  let '(h1, h2) := hash_bytes 0xcbf29ce484222325 0x9e3779b97f4a7c15 key in
  (h1, wrap64 (Z.lxor h2 (Z.shiftr h2 33) * 0xff51afd7ed558ccd)).

(** The position of the [i]th bit of a key. *)
Definition bit_index (f : BloomFilter) (h : Z * Z) (i : nat) : Z :=
  wrap64 (fst h + wrap64 (Z.of_nat i * snd h)) mod num_bits f.

Definition bit_mask (idx : Z) : Z := Z.shiftl 1 (idx mod 64).

(** The loops over the hashes from [i] on, [k] of them; [None] where an index panics. *)
Fixpoint set_bits (f : BloomFilter) (h : Z * Z) (k i : nat) (bits : list Z) : option (list Z) :=
  match k with
  | O => Some bits
  | S k =>
      let idx := bit_index f h i in
      w ← bits !! Z.to_nat (idx / 64);
      set_bits f h k (S i) (<[Z.to_nat (idx / 64) := Z.lor w (bit_mask idx)]> bits)
  end.

Fixpoint test_bits (f : BloomFilter) (h : Z * Z) (k i : nat) (bits : list Z) : option bool :=
  match k with
  | O => Some true
  | S k =>
      let idx := bit_index f h i in
      w ← bits !! Z.to_nat (idx / 64);
      if Z.land w (bit_mask idx) =? 0 then Some false else test_bits f h k (S i) bits
  end.

Definition with_bits (bits : list Z) (f : BloomFilter) : BloomFilter :=
  mkBloom bits (num_bits f) (num_hashes f) (capacity f) (count f).
Definition with_count (count : Z) (f : BloomFilter) : BloomFilter :=
  mkBloom (bits f) (num_bits f) (num_hashes f) (capacity f) count.

(** The three parts of [add]: the check of the count, the bits under the lock, the count. *)
Definition add_check (f : BloomFilter) : result unit BloomError :=
  if capacity f <=? count f then Err (CapacityExceeded (capacity f) (wrap64 (count f + 1))) else Ok tt.
Definition add_bits (key : string) (f : BloomFilter) : option BloomFilter :=
  b ← set_bits f (hash key) (num_hashes f) 0 (bits f); Some (with_bits b f).
Definition add_count (f : BloomFilter) : BloomFilter := with_count (wrap64 (count f + 1)) f.

Definition add (key : string) (f : BloomFilter) : option (result unit BloomError * BloomFilter) :=
  match add_check f with
  | Err e => Some (Err e, f)
  | Ok _ => f ← add_bits key f; Some (Ok tt, add_count f)
  end.

Definition might_contain (key : string) (f : BloomFilter) : option bool :=
  test_bits f (hash key) (num_hashes f) 0 (bits f).

Definition bloom_count (f : BloomFilter) : Z := count f.
Definition bloom_is_empty (f : BloomFilter) : bool := count f =? 0.
Definition bloom_capacity (f : BloomFilter) : Z := capacity f.

(** The two parts of [clear]. *)
Definition clear_bits (f : BloomFilter) : BloomFilter := with_bits ((fun _ => 0) <$> bits f) f.
Definition clear_count (f : BloomFilter) : BloomFilter := with_count 0 f.
Definition clear (f : BloomFilter) : BloomFilter := clear_count (clear_bits f).

(** * Threads *)

Inductive bloom_task : Type :=
| TAdd (key : string)
| TChecked (key : string)
| TWritten (key : string)
| TClear
| TCleared
| TDone (r : result unit BloomError).

(** The filter, its threads, the keys whose bits were written since the bits were cleared, and
    how often they were. *)
Record bloom_system : Type := mkSystem {
  filter : BloomFilter;
  threads : list bloom_task;
  written : list string;
  clears : nat;
}.

(** The write lock is held from the change of the bits to that of the count. *)
Definition holds_lock (t : bloom_task) : bool := match t with TWritten _ | TCleared => true | _ => false end.
Definition lock_free (ts : list bloom_task) : Prop := existsb holds_lock ts = false.

Inductive bloom_step : bloom_system -> bloom_system -> Prop :=
| step_spawn f ts ws n key : bloom_step (mkSystem f ts ws n) (mkSystem f (ts ++ [TAdd key]) ws n)
| step_spawn_clear f ts ws n : bloom_step (mkSystem f ts ws n) (mkSystem f (ts ++ [TClear]) ws n)
| step_check f ts ws n i key : ts !! i = Some (TAdd key) ->
    bloom_step (mkSystem f ts ws n)
      (mkSystem f (<[i := match add_check f with Ok _ => TChecked key | Err e => TDone (Err e) end]> ts) ws n)
| step_bits f ts ws n i key f' : ts !! i = Some (TChecked key) -> lock_free ts -> add_bits key f = Some f' ->
    bloom_step (mkSystem f ts ws n) (mkSystem f' (<[i := TWritten key]> ts) (key :: ws) n)
| step_count f ts ws n i key : ts !! i = Some (TWritten key) ->
    bloom_step (mkSystem f ts ws n) (mkSystem (add_count f) (<[i := TDone (Ok tt)]> ts) ws n)
| step_clear_bits f ts ws n i : ts !! i = Some TClear -> lock_free ts ->
    bloom_step (mkSystem f ts ws n) (mkSystem (clear_bits f) (<[i := TCleared]> ts) [] (S n))
| step_clear_count f ts ws n i : ts !! i = Some TCleared ->
    bloom_step (mkSystem f ts ws n) (mkSystem (clear_count f) (<[i := TDone (Ok tt)]> ts) ws n).

(** * Facts *)

(** Bit [idx] of the words. *)
Definition has_bit (bits : list Z) (idx : Z) : Prop :=
  exists w, bits !! Z.to_nat (idx / 64) = Some w /\ Z.testbit w (idx mod 64) = true.

Definition sized (f : BloomFilter) : Prop := 0 < num_bits f <= 64 * Z.of_nat (length (bits f)).

Lemma land_mask w idx : Z.land w (bit_mask idx) = 0 <-> Z.testbit w (idx mod 64) = false.
Proof.
  unfold bit_mask. pose proof (Z.mod_pos_bound idx 64 ltac:(lia)) as Hb. split.
  - intros H. apply (f_equal (fun z => Z.testbit z (idx mod 64))) in H. rewrite Z.land_spec, Z.shiftl_spec, Z.sub_diag, Z.bits_0 in H by lia.
    cbn in H. by rewrite andb_true_r in H.
  - intros H. apply Z.bits_inj'. intros n Hn. rewrite Z.land_spec, Z.shiftl_spec, Z.bits_0 by lia.
    destruct (decide (n = idx mod 64)) as [->|Hne]; [by rewrite H|]. destruct (Z.lt_trichotomy n (idx mod 64)) as [Hlt|[Hlt|Hlt]]; [|lia|].
    + rewrite (Z.testbit_neg_r 1) by lia. apply andb_false_r.
    + replace (Z.testbit 1 (n - idx mod 64)) with false; [apply andb_false_r|]. symmetry. apply (Z.bits_above_log2 1); cbn; lia.
Qed.

Lemma lor_mask w idx n : 0 <= n -> Z.testbit w n = true -> Z.testbit (Z.lor w (bit_mask idx)) n = true.
Proof. intros Hn H. by rewrite Z.lor_spec, H. Qed.

Lemma lor_mask_same w idx : Z.testbit (Z.lor w (bit_mask idx)) (idx mod 64) = true.
Proof.
  pose proof (Z.mod_pos_bound idx 64 ltac:(lia)) as Hb. unfold bit_mask. rewrite Z.lor_spec, Z.shiftl_spec, Z.sub_diag by lia. apply orb_true_r.
Qed.

Lemma has_bit_set bits n w idx j : bits !! n = Some w -> has_bit bits j -> has_bit (<[n := Z.lor w (bit_mask idx)]> bits) j.
Proof.
  intros Hn (v & Hv & Hb). pose proof (Z.mod_pos_bound j 64 ltac:(lia)). unfold has_bit. destruct (decide (n = Z.to_nat (j / 64))) as [->|Hne].
  - exists (Z.lor w (bit_mask idx)). split; [apply list_lookup_insert_eq; by eapply lookup_lt_Some|]. rewrite Hn in Hv. injection Hv as ->.
    apply lor_mask; [lia|done].
  - exists v. by rewrite list_lookup_insert_ne.
Qed.

Section Filter.
Variable f : BloomFilter.
Variable h : Z * Z.

Lemma index_in_range (bits : list Z) i : 0 < num_bits f <= 64 * Z.of_nat (length bits) ->
  is_Some ((bits !! Z.to_nat (bit_index f h i / 64)) : option Z).
Proof.
  intros Hs. apply lookup_lt_is_Some_2. unfold bit_index. pose proof (Z.mod_pos_bound (wrap64 (fst h + wrap64 (Z.of_nat i * snd h))) (num_bits f) ltac:(lia)).
  apply Nat2Z.inj_lt. rewrite Z2Nat.id by (apply Z.div_pos; lia). apply Z.div_lt_upper_bound; lia.
Qed.

Lemma set_bits_spec k : forall i bits, 0 < num_bits f <= 64 * Z.of_nat (length bits) ->
  exists bits', set_bits f h k i bits = Some bits' /\ length bits' = length bits /\
    (forall j, has_bit bits j -> has_bit bits' j) /\ (forall n, (i <= n < i + k)%nat -> has_bit bits' (bit_index f h n)).
Proof.
  induction k as [|k IH]; intros i bits Hs; [exists bits; repeat split; [done|lia]|]. cbn [set_bits].
  destruct (index_in_range bits i Hs) as [w Hw]. rewrite Hw. cbn [mbind option_bind].
  destruct (IH (S i) (<[Z.to_nat (bit_index f h i / 64) := Z.lor w (bit_mask (bit_index f h i))]> bits)) as (bits' & -> & Hl & Hk & Hn).
  { by rewrite length_insert. }
  rewrite length_insert in Hl. exists bits'. split; [done|]. split; [done|]. split.
  - intros j Hj. apply Hk. by apply has_bit_set.
  - intros n Hin. destruct (decide (n = i)) as [->|Hne]; [|apply Hn; lia]. apply Hk. eexists. split; [|apply lor_mask_same].
    apply list_lookup_insert_eq. by eapply lookup_lt_Some.
Qed.

Lemma test_bits_spec k : forall i bits, 0 < num_bits f <= 64 * Z.of_nat (length bits) ->
  exists b, test_bits f h k i bits = Some b /\ (b = true <-> forall n, (i <= n < i + k)%nat -> has_bit bits (bit_index f h n)).
Proof.
  induction k as [|k IH]; intros i bits Hs; [exists true; split; [done|]; split; [lia|done]|]. cbn [test_bits].
  destruct (index_in_range bits i Hs) as [w Hw]. rewrite Hw. cbn [mbind option_bind].
  destruct (Z.eqb_spec (Z.land w (bit_mask (bit_index f h i))) 0) as [E|E].
  - exists false. split; [done|]. split; [done|]. intros H. destruct (H i ltac:(lia)) as (v & Hv & Hb). rewrite Hw in Hv. injection Hv as <-.
    apply land_mask in E. congruence.
  - destruct (IH (S i) bits Hs) as (b & -> & Hb). exists b. split; [done|]. rewrite Hb. split; intros H n Hn; [|apply H; lia].
    destruct (decide (n = i)) as [->|]; [|apply H; lia]. exists w. split; [done|]. apply not_false_iff_true. intros Hf. by apply E, land_mask.
Qed.
End Filter.

(** A key is in the filter. *)
Definition holds_key (f : BloomFilter) (key : string) : Prop :=
  forall n, (n < num_hashes f)%nat -> has_bit (bits f) (bit_index f (hash key) n).

Lemma might_contain_spec f key : sized f -> exists b, might_contain key f = Some b /\ (b = true <-> holds_key f key).
Proof.
  intros Hs. destruct (test_bits_spec f (hash key) (num_hashes f) 0 (bits f) Hs) as (b & Hb & Hiff). exists b. split; [done|].
  rewrite Hiff. unfold holds_key. split; intros H n Hn; apply H; lia.
Qed.

Lemma add_bits_spec f key : sized f -> exists f', add_bits key f = Some f' /\ sized f' /\ holds_key f' key /\
  (forall k, holds_key f k -> holds_key f' k) /\ capacity f' = capacity f /\ count f' = count f.
Proof.
  intros Hs. destruct (set_bits_spec f (hash key) (num_hashes f) 0 (bits f) Hs) as (b & Hb & Hl & Hk & Hn).
  unfold add_bits. rewrite Hb. cbn [mbind option_bind]. eexists. split; [done|]. split; [unfold sized in *; cbn; by rewrite Hl|].
  split; [intros n Hlt; apply Hn; cbn in Hlt; lia|]. split; [intros k Hh n Hlt; apply Hk, Hh, Hlt|done].
Qed.

Lemma new_sized c m k : sized (bloom_new c m k).
Proof.
  unfold sized, bloom_new. cbn. rewrite length_replicate. pose proof (Z.div_mod (Z.max m 8 + 63) 64 ltac:(lia)).
  pose proof (Z.mod_pos_bound (Z.max m 8 + 63) 64 ltac:(lia)). rewrite Z2Nat.id by lia. lia.
Qed.

(** [add] is refused exactly when the count has reached the capacity. *)
Lemma add_spec f key : sized f ->
  exists r f', add key f = Some (r, f') /\
    (if capacity f <=? count f then r = Err (CapacityExceeded (capacity f) (wrap64 (count f + 1))) /\ f' = f
     else r = Ok tt /\ might_contain key f' = Some true /\ count f' = wrap64 (count f + 1)).
Proof.
  intros Hs. unfold add, add_check. destruct (capacity f <=? count f); [by do 2 eexists|].
  destruct (add_bits_spec f key Hs) as (f' & -> & Hs' & Hh & _ & _ & Hc). cbn [mbind option_bind]. do 2 eexists. split; [done|]. split; [done|].
  destruct (might_contain_spec (add_count f') key Hs') as (b & Hb & Hiff). rewrite Hb. split; [|cbn; by rewrite Hc]. f_equal. by apply Hiff.
Qed.

Definition system_ok (s : bloom_system) : Prop := sized (filter s) /\ Forall (holds_key (filter s)) (written s).

Lemma bloom_step_ok s s' : system_ok s -> bloom_step s s' -> system_ok s'.
Proof.
  intros [Hs Hw] Hst.
  destruct Hst as [f ts ws n key|f ts ws n|f ts ws n i key Hi|f ts ws n i key f' Hi Hl Hb|f ts ws n i key Hi|f ts ws n i Hi Hl|f ts ws n i Hi]; cbn in *; try done.
  - destruct (add_bits_spec f key Hs) as (f2 & Hb2 & Hs2 & Hh & Hk & _). rewrite Hb in Hb2. injection Hb2 as <-. split; [done|].
    constructor; [done|]. eapply Forall_impl; [exact Hw|]. exact Hk.
  - split; [|constructor]. unfold sized in *. cbn. by rewrite length_fmap.
Qed.

Lemma written_grows s s' : rtc bloom_step s s' -> (clears s <= clears s')%nat /\ (clears s = clears s' -> written s ⊆ written s').
Proof.
  induction 1 as [s|s s1 s' Hst Hr [IH1 IH2]]; [done|]. destruct Hst; cbn in *; split; try lia; try done.
  intros E x Hx. apply IH2; [done|]. by right.
Qed.

(** No false negatives under concurrency.  Whatever adds and clears threads run on a filter of
    any size, no index is out of bounds, so that no add is ever stuck, and a key whose bits were
    written is found from then on until the bits are cleared. *)
Theorem no_false_negatives (c m : Z) (k : nat) (s s' : bloom_system) :
  rtc bloom_step (mkSystem (bloom_new c m k) [] [] 0) s -> rtc bloom_step s s' -> clears s = clears s' ->
  (forall key, is_Some (might_contain key (filter s')) /\ is_Some (add_bits key (filter s'))) /\
  (forall key, key ∈ written s -> might_contain key (filter s') = Some true).
Proof.
  intros Hr Hr' Hc. assert (Hok : system_ok s').
  { apply (rtc_invariant bloom_step system_ok (mkSystem (bloom_new c m k) [] [] 0) s' bloom_step_ok); [|by etrans].
    split; [apply new_sized|constructor]. }
  destruct Hok as [Hs Hw]. split.
  - intros key. destruct (might_contain_spec _ key Hs) as (b & -> & _), (add_bits_spec _ key Hs) as (f' & -> & _). by split; eexists.
  - intros key Hk. destruct (might_contain_spec _ key Hs) as (b & -> & Hiff). f_equal. apply Hiff.
    apply written_grows in Hr' as [_ Hsub]. rewrite Forall_forall in Hw. apply Hw. by apply Hsub.
Qed.

Lemma no_false_negatives_witness :
  exists f1 f2, add_bits "a" (bloom_new 1 8 1) = Some f1 /\ add_bits "b" (add_count f1) = Some f2 /\ might_contain "a" f2 = Some true.
Proof.
  destruct (add_bits_spec (bloom_new 1 8 1) "a" (new_sized 1 8 1)) as (f1 & H1 & Hs1 & _).
  destruct (add_bits_spec (add_count f1) "b" Hs1) as (f2 & H2 & _). exists f1, f2. split; [done|]. split; [done|].
  pose (f0 := bloom_new 1 8 1).
  assert (R1 : rtc bloom_step (mkSystem f0 [] [] 0) (mkSystem f1 [TWritten "a"; TChecked "b"] ["a"] 0)).
  { eapply rtc_l; [apply (step_spawn f0 [] [] 0 "a")|]. eapply rtc_l; [apply (step_spawn f0 _ [] 0 "b")|].
    eapply rtc_l; [by apply (step_check f0 _ [] 0 0 "a")|]. eapply rtc_l; [by apply (step_check f0 _ [] 0 1 "b")|].
    eapply rtc_l; [by apply (step_bits f0 _ [] 0 0 "a" f1)|]. apply rtc_refl. }
  assert (R2 : rtc bloom_step (mkSystem f1 [TWritten "a"; TChecked "b"] ["a"] 0) (mkSystem f2 [TDone (Ok tt); TWritten "b"] ["b"; "a"] 0)).
  { eapply rtc_l; [by apply (step_count f1 _ _ 0 0 "a")|]. eapply rtc_l; [by apply (step_bits (add_count f1) _ _ 0 1 "b" f2)|]. apply rtc_refl. }
  apply (no_false_negatives 1 8 1 _ _ R1 R2 eq_refl). by left.
Defined.

(** Two threads that both pass the check before either counts exceed the capacity. *)
Lemma capacity_race : exists s,
  rtc bloom_step (mkSystem (bloom_new 1 8 1) [] [] 0) s /\ threads s = [TDone (Ok tt); TDone (Ok tt)] /\ count (filter s) = 2 /\ capacity (filter s) = 1.
Proof.
  pose (f0 := bloom_new 1 8 1). destruct (add_bits "a" f0) as [f1|] eqn:H1; [|by vm_compute in H1].
  destruct (add_bits "b" (add_count f1)) as [f2|] eqn:H2.
  2: { vm_compute in H1. injection H1 as <-. by vm_compute in H2. }
  exists (mkSystem (add_count f2) [TDone (Ok tt); TDone (Ok tt)] ["b"; "a"] 0). split.
  - eapply rtc_l; [apply (step_spawn f0 [] [] 0 "a")|]. eapply rtc_l; [apply (step_spawn f0 _ [] 0 "b")|].
    eapply rtc_l; [by apply (step_check f0 _ [] 0 0 "a")|]. eapply rtc_l; [by apply (step_check f0 _ [] 0 1 "b")|].
    eapply rtc_l; [by apply (step_bits f0 _ [] 0 0 "a" f1)|]. eapply rtc_l; [by apply (step_count f1 _ _ 0 0 "a")|].
    eapply rtc_l; [by apply (step_bits (add_count f1) _ _ 0 1 "b" f2)|]. eapply rtc_l; [by apply (step_count f2 _ _ 0 1 "b")|]. apply rtc_refl.
  - vm_compute in H1. injection H1 as <-. vm_compute in H2. injection H2 as <-. by vm_compute.
Qed.

(** A key that was never added may be found, and a key that is added again uses up the capacity. *)
Lemma false_positive :
  match add "0" (bloom_new 2 8 1) with Some (Ok _, f) => might_contain "8" f = Some true | _ => False end.
Proof. vm_compute. reflexivity. Qed.

Lemma duplicate_fills :
  match add "a" (bloom_new 1 8 1) with
  | Some (Ok _, f) => add "a" f = Some (Err (CapacityExceeded 1 2), f)
  | _ => False
  end.
Proof. vm_compute. reflexivity. Qed.
