(* ===== verification/Masking.v ===== *)
(** The masking rules of [sz-orm-masking/src/lib.rs].

    The code works on the characters of a text, so that a text to mask is the list of its
    characters here, by their code points ([str]); field names and specifications are strings. *)

From Stdlib Require Import Ascii String.
From S2P Require Import Prelude SqlText Value.
Local Open Scope Z_scope.

Abbreviation str := (list N).

Definition star : N := 42.
Definition at_sign : N := 64.
Definition full_stop : N := 46.
Definition colon : N := 58.
Definition stars (n : Z) : str := replicate (Z.to_nat n) star.
Definition fallback : str := stars 3.

Inductive MaskingRule : Type :=
| Phone | Email | IdCard | BankCard | Name | Address | Ip | Imei | Plate
| Custom (spec : string)
| Password | ApiKey.

Definition char_count (value : str) : Z := Z.of_nat (length value).

(** [mask_prefix_suffix]; [None] where a slice panics. *)
Definition mask_prefix_suffix (value : str) (prefix suffix : Z) : option str :=
  let len := char_count value in
  if len =? 0 then Some fallback
  else if len <=? wrap64 (prefix + suffix) then Some fallback
  else
    let hidden := wrap64 (wrap64 (len - prefix) - suffix) in
    let start := wrap64 (len - suffix) in
    if (len <? prefix) || (len <? start) then None
    else Some (take (Z.to_nat prefix) value ++ stars hidden ++ drop (Z.to_nat start) value)%list.

Definition mask_api_key (value : str) : option str := mask_prefix_suffix value 4 4.

(** [value.splitn(2, c)] *)
Fixpoint split_first (c : N) (value : str) : option (str * str) :=
  match value with
  | [] => None
  | x :: value => if (x =? c)%N then Some ([], value) else '(a, b) ← split_first c value; Some (x :: a, b)
  end.

Definition mask_email (value : str) : str :=
  match split_first at_sign value with
  | None => fallback
  | Some (local, domain) =>
      match local with
      | [] => fallback
      | c :: local => c :: stars (char_count local) ++ at_sign :: domain
      end
  end.

Definition mask_name (value : str) : str :=
  match value with [] => [] | c :: value => c :: stars (char_count value) end.

Definition mask_address (value : str) (keep : nat) : str :=
  if is_nil value then []
  else if (length value <=? keep)%nat then stars (char_count value)
  else (take keep value ++ stars (char_count value - Z.of_nat keep))%list.

(** [ip[..ip.rfind(c)]] *)
Fixpoint before_last (c : N) (value : str) : option str :=
  match value with
  | [] => None
  | x :: value =>
      match before_last c value with
      | Some a => Some (x :: a)
      | None => if (x =? c)%N then Some [] else None
      end
  end.

Definition mask_ip (ip : str) : str :=
  match before_last full_stop ip with
  | Some a => a ++ [full_stop; star]
  | None => match before_last colon ip with Some a => a ++ [colon; star] | None => ip end
  end.

Definition mask_imei (imei : str) : str :=
  if (length imei <? 7)%nat then stars (char_count imei)
  else (take 6 imei ++ stars 4 ++ drop (length imei - 1) imei)%list.

Definition mask_plate (plate : str) : str :=
  let len := length plate in
  if (len <? 4)%nat then stars (char_count plate)
  else (take (len - 2) plate ++ stars 2 ++ drop (len - 2) plate)%list.

Definition usize_max : Z := 2 ^ 64 - 1.

Definition parse_custom_spec (spec : string) : option (Z * Z) :=
  match split_char "," spec with
  | [a; b] =>
      prefix ← parse_int false 0 usize_max (trim a);
      suffix ← parse_int false 0 usize_max (trim b);
      Some (prefix, suffix)
  | _ => None
  end.

Definition mask_custom (value : str) (spec : string) : option str :=
  match parse_custom_spec spec with
  | Some (prefix, suffix) => mask_prefix_suffix value prefix suffix
  | None => Some fallback
  end.

(** * [DataMasker] *)

Definition apply (rule : MaskingRule) (value : str) : option str :=
  match rule with
  | Phone => mask_prefix_suffix value 3 4
  | Email => Some (mask_email value)
  | IdCard => mask_prefix_suffix value 4 4
  | BankCard => mask_prefix_suffix value 4 4
  | Name => Some (mask_name value)
  | Address => Some (mask_address value 6)
  | Ip => Some (mask_ip value)
  | Imei => Some (mask_imei value)
  | Plate => Some (mask_plate value)
  | Custom spec => mask_custom value spec
  | Password => Some fallback
  | ApiKey => mask_api_key value
  end.

Fixpoint apply_many (rules : list MaskingRule) (value : str) : option str :=
  match rules with
  | [] => Some value
  | rule :: rules => out ← apply rule value; apply_many rules out
  end.

(** Every field by its rule, all or a panic. *)
Definition mask_entries (rule_of : string -> option MaskingRule) (data : gmap string str) : option (gmap string str) :=
  list_to_map <$> mapM (fun '(k, v) => match rule_of k with
                                     | Some rule => w ← apply rule v; Some (k, w)
                                     | None => Some (k, v)
                                     end) (map_to_list data).

Definition mask_map (rules : gmap string MaskingRule) (data : gmap string str) : option (gmap string str) :=
  mask_entries (fun k => rules !! k) data.

(** * Policies, logs and statistics *)

Record MaskingPolicy : Type := mkPolicy { policy_rules : gmap string MaskingRule }.

Definition policy_new : MaskingPolicy := mkPolicy ∅.
Definition add_rule (field : string) (rule : MaskingRule) (p : MaskingPolicy) : MaskingPolicy :=
  mkPolicy (<[field := rule]> (policy_rules p)).
Definition get_rule (field : string) (p : MaskingPolicy) : option MaskingRule := policy_rules p !! field.
Definition remove_rule (field : string) (p : MaskingPolicy) : option MaskingRule * MaskingPolicy :=
  (policy_rules p !! field, mkPolicy (delete field (policy_rules p))).
Definition field_count (p : MaskingPolicy) : nat := size (policy_rules p).
Definition apply_to_map (data : gmap string str) (p : MaskingPolicy) : option (gmap string str) := mask_map (policy_rules p) data.

Record MaskAuditEntry : Type := mkMaskEntry { entry_field : string; original_len : Z; masked_len : Z }.
Definition was_truncated (e : MaskAuditEntry) : bool := masked_len e <? original_len e.

Record MaskAuditLog : Type := mkMaskLog { log_entries : list MaskAuditEntry }.
Definition mask_log_new : MaskAuditLog := mkMaskLog [].
Definition mask_log (field : string) (original_len masked_len : Z) (l : MaskAuditLog) : MaskAuditLog :=
  mkMaskLog (log_entries l ++ [mkMaskEntry field original_len masked_len])%list.
Definition entry_count (l : MaskAuditLog) : nat := length (log_entries l).
Definition total_masked_chars (l : MaskAuditLog) : Z :=
  foldr (fun e n => wrap64 (Z.max 0 (original_len e - masked_len e) + n)) 0 (log_entries l).
Definition mask_log_clear (l : MaskAuditLog) : MaskAuditLog := mkMaskLog [].

Record MaskingStats : Type := mkStats { counts : gmap string Z }.
Definition stats_new : MaskingStats := mkStats ∅.
Definition record_masking (field : string) (s : MaskingStats) : MaskingStats :=
  mkStats (<[field := wrap64 (default 0 (counts s !! field) + 1)]> (counts s)).
Definition field_operations (field : string) (s : MaskingStats) : Z := default 0 (counts s !! field).
Definition total_operations (s : MaskingStats) : Z := map_fold (fun _ n t => wrap64 (n + t)) 0 (counts s).

(** Code points of ASCII text, for the examples. *)
Fixpoint text (s : string) : str := match s with String c s => N_of_ascii c :: text s | EmptyString => [] end.

Example apply_example :
  (apply Phone (text "13812345678"), apply Email (text "test@example.com"), apply (Custom " 3, 2") (text "abcdefgh"))
  = (Some (text "138****5678"), Some (text "t***@example.com"), Some (text "abc***gh")).
Proof. vm_compute. reflexivity. Qed.

(** * What masking hides *)

(** Position [i] of a text of [n] characters cannot be seen in its masked form; positions that
    depend on the text ([Email], [Ip]) apart. *)
Definition between (p s n i : nat) : bool := (n <=? p + s)%nat || ((p <=? i)%nat && (i <? n - s)%nat).

Definition hides (rule : MaskingRule) (n i : nat) : bool :=
  match rule with
  | Phone => between 3 4 n i
  | IdCard | BankCard | ApiKey => between 4 4 n i
  | Name => (1 <=? i)%nat
  | Address => (n <=? 6)%nat || (6 <=? i)%nat
  | Imei => (n <? 7)%nat || ((6 <=? i)%nat && (i <? n - 1)%nat)
  | Plate => (n <? 4)%nat
  | Custom spec => match parse_custom_spec spec with
                   | Some (p, s) => (Z.of_nat n <=? p + s) || ((p <=? Z.of_nat i) && (Z.of_nat i <? Z.of_nat n - s))
                   | None => true
                   end
  | Password => true
  | Email | Ip => false
  end.

(** How many positions a rule may show. *)
Definition shown (rule : MaskingRule) (n : nat) : Z :=
  match rule with
  | Phone | Imei => 7
  | IdCard | BankCard | ApiKey => 8
  | Name => 1
  | Address => 6
  | Password => 0
  | Custom spec => match parse_custom_spec spec with Some (p, s) => p + s | None => 0 end
  | Email | Ip | Plate => Z.of_nat n
  end.

(** The numbers of a specification do not overflow together. *)
Definition rule_ok (rule : MaskingRule) : Prop :=
  match rule with Custom spec => match parse_custom_spec spec with Some (p, s) => p + s < 2 ^ 64 | None => True end | _ => True end.

Lemma parse_custom_range spec p s : parse_custom_spec spec = Some (p, s) -> 0 <= p <= usize_max /\ 0 <= s <= usize_max.
Proof.
  unfold parse_custom_spec. destruct (split_char "," spec) as [|a [|b [|]]]; try done.
  destruct (parse_int false 0 usize_max (trim a)) as [p'|] eqn:Hp; [|done]. cbn [mbind option_bind].
  destruct (parse_int false 0 usize_max (trim b)) as [s'|] eqn:Hs; [|done]. cbn [mbind option_bind]. intros [= <- <-].
  split; by eapply parse_int_range.
Qed.

(** Within the range of the machine the ends of a text are shown and the middle is counted. *)
Lemma prefix_suffix_spec v p s : 0 <= p -> 0 <= s -> p + s < 2 ^ 64 -> char_count v < 2 ^ 64 ->
  mask_prefix_suffix v p s = Some (if char_count v <=? p + s then fallback
    else take (Z.to_nat p) v ++ stars (char_count v - p - s) ++ drop (length v - Z.to_nat s) v)%list.
Proof.
  intros Hp Hs Hps Hv. unfold mask_prefix_suffix. rewrite (wrap64_small (p + s)) by lia. unfold char_count in *.
  destruct (Z.eqb_spec (Z.of_nat (length v)) 0) as [E|E]; [destruct (Z.leb_spec (Z.of_nat (length v)) (p + s)); [done|lia]|].
  destruct (Z.leb_spec (Z.of_nat (length v)) (p + s)); [done|].
  rewrite (wrap64_small (Z.of_nat (length v) - p)), (wrap64_small (Z.of_nat (length v) - p - s)), (wrap64_small (Z.of_nat (length v) - s)) by lia.
  destruct (Z.ltb_spec (Z.of_nat (length v)) p); [lia|]. destruct (Z.ltb_spec (Z.of_nat (length v)) (Z.of_nat (length v) - s)); [lia|].
  cbn [orb]. replace (Z.to_nat (Z.of_nat (length v) - s)) with (length v - Z.to_nat s)%nat by lia. done.
Qed.

Lemma prefix_suffix_hides v p s i c : 0 <= p -> 0 <= s -> p + s < 2 ^ 64 -> char_count v < 2 ^ 64 ->
  char_count v <= p + s \/ p <= Z.of_nat i < char_count v - s ->
  mask_prefix_suffix (<[i := c]> v) p s = mask_prefix_suffix v p s.
Proof.
  intros Hp Hs Hps Hv Hi. unfold char_count in *. rewrite !prefix_suffix_spec by (unfold char_count; rewrite ?length_insert; done).
  unfold char_count. rewrite length_insert. destruct (Z.leb_spec (Z.of_nat (length v)) (p + s)); [done|]. destruct Hi as [Hi|Hi]; [lia|].
  by rewrite take_insert_ge, drop_insert_lt by lia.
Qed.

(** At most [k] positions satisfy a predicate that holds only below [a] and from [b] on. *)
Lemma few_positions (P : nat -> bool) n a b : (forall i, (i < n)%nat -> P i = true -> (i < a \/ b <= i)%nat) ->
  (length (filter (fun i => P i = true) (seq 0 n)) <= a + (n - b))%nat.
Proof.
  intros HP. transitivity (length (seq 0 a ++ seq b (n - b))); [|rewrite length_app, !length_seq; done].
  apply submseteq_length, NoDup_submseteq; [apply NoDup_filter, NoDup_seq|]. intros i [Hi Hn]%list_elem_of_filter.
  apply elem_of_seq in Hn. apply elem_of_app. destruct (HP i ltac:(lia) Hi); [left|right]; apply elem_of_seq; lia.
Qed.

Lemma between_true p s n i : between p s n i = true <-> (n <= p + s \/ p <= i < n - s)%nat.
Proof. unfold between. rewrite orb_true_iff, andb_true_iff, !Nat.leb_le, Nat.ltb_lt. done. Qed.

(** Masked text tells nothing about the characters a rule hides: whatever is in a hidden position,
    the output is the same, and a phone number shows at most 7 characters, an identity card, a bank
    card or a key 8, a name 1, an address 6, an IMEI 7, a password none and a custom rule those it
    asks for. *)
Theorem masking_hides (rule : MaskingRule) (v : str) :
  rule_ok rule -> char_count v < 2 ^ 64 ->
  (forall i c, hides rule (length v) i = true -> apply rule (<[i := c]> v) = apply rule v) /\
  Z.of_nat (length (filter (fun i => negb (hides rule (length v) i) = true) (seq 0 (length v)))) <= shown rule (length v).
Proof.
  intros Hok Hv.
  assert (Hps : forall p s, (p + s < 16)%nat ->
    (forall i c, between p s (length v) i = true ->
       mask_prefix_suffix (<[i := c]> v) (Z.of_nat p) (Z.of_nat s) = mask_prefix_suffix v (Z.of_nat p) (Z.of_nat s))
    /\ Z.of_nat (length (filter (fun i => negb (between p s (length v) i) = true) (seq 0 (length v)))) <= Z.of_nat (p + s)).
  { intros p s Hlt. split.
    - intros i c Hi%between_true. apply prefix_suffix_hides; unfold char_count in *; lia.
    - transitivity (Z.of_nat (p + (length v - (length v - s)))); [|lia]. apply inj_le, few_positions.
      intros i Hi Hb. apply negb_true_iff, not_true_iff_false in Hb. rewrite between_true in Hb. lia. }
  assert (Hany : forall P : nat -> bool, Z.of_nat (length (filter (fun i => negb (P i) = true) (seq 0 (length v)))) <= Z.of_nat (length v)).
  { intros P. pose proof (length_filter (fun i => negb (P i) = true) (seq 0 (length v))) as H. rewrite length_seq in H. lia. }
  assert (Hnone : Z.of_nat (length (filter (fun i => negb true = true) (seq 0 (length v)))) <= 0).
  { transitivity (Z.of_nat (0 + (length v - length v))); [|lia]. by apply inj_le, few_positions. }
  destruct rule as [| | | | | | | | |spec| |]; cbn [apply hides shown rule_ok] in *.
  - exact (Hps 3%nat 4%nat ltac:(lia)).
  - split; [done|apply Hany].
  - exact (Hps 4%nat 4%nat ltac:(lia)).
  - exact (Hps 4%nat 4%nat ltac:(lia)).
  - split.
    + intros i c Hi%Nat.leb_le. destruct v as [|x v]; [done|]. destruct i as [|i]; [lia|].
      change (<[S i := c]> (x :: v)) with (x :: <[i := c]> v). cbn [mask_name]. unfold char_count. by rewrite length_insert.
    + transitivity (Z.of_nat (1 + (length v - length v))); [|lia].
      apply inj_le, few_positions. intros i Hi Hb%negb_true_iff%Nat.leb_gt. lia.
  - split.
    + intros i c Hi. unfold mask_address, char_count. rewrite length_insert. rewrite orb_true_iff, !Nat.leb_le in Hi.
      replace (is_nil (<[i := c]> v)) with (is_nil v) by (destruct v as [|? ?]; [done|by destruct i]).
      destruct (is_nil v); [done|]. destruct (Nat.leb_spec (length v) 6); [done|]. rewrite take_insert_ge by lia. done.
    + transitivity (Z.of_nat (6 + (length v - length v))); [|lia]. apply inj_le, few_positions. intros i Hi Hb%negb_true_iff.
      apply orb_false_iff in Hb as [_ Hb%Nat.leb_gt]. lia.
  - split; [done|apply Hany].
  - split.
    + intros i c Hi. unfold mask_imei, char_count. rewrite length_insert. rewrite orb_true_iff, andb_true_iff, !Nat.ltb_lt, Nat.leb_le in Hi.
      destruct (Nat.ltb_spec (length v) 7); [done|]. by rewrite take_insert_ge, drop_insert_lt by lia.
    + transitivity (Z.of_nat (6 + (length v - (length v - 1)))); [|lia]. apply inj_le, few_positions. intros i Hi Hb%negb_true_iff.
      apply orb_false_iff in Hb as [Hn%Nat.ltb_ge Hb]. apply andb_false_iff in Hb as [Hb%Nat.leb_gt|Hb%Nat.ltb_ge]; lia.
  - split; [|apply Hany]. intros i c Hi. unfold mask_plate, char_count. rewrite length_insert. by rewrite Hi.
  - unfold mask_custom. destruct (parse_custom_spec spec) as [[p s]|] eqn:Hspec.
    + destruct (parse_custom_range _ _ _ Hspec). split.
      * intros i c Hi. rewrite orb_true_iff, andb_true_iff, !Z.leb_le, Z.ltb_lt in Hi. apply prefix_suffix_hides; unfold char_count in *; lia.
      * transitivity (Z.of_nat (Z.to_nat p + (length v - (length v - Z.to_nat s)))); [|lia]. apply inj_le, few_positions.
        intros i Hi Hb%negb_true_iff. apply orb_false_iff in Hb as [Hn%Z.leb_gt Hb]. apply andb_false_iff in Hb as [Hb%Z.leb_gt|Hb%Z.ltb_ge]; lia.
    + split; [done|exact Hnone].
  - split; [done|exact Hnone].
  - exact (Hps 4%nat 4%nat ltac:(lia)).
Qed.

Lemma masking_hides_witness :
  apply Phone (text "13812345678") = apply Phone (text "13800005678") /\ apply (Custom "1,1") (text "ab*d") = apply (Custom "1,1") (text "abcd").
Proof.
  split.
  - pose proof (masking_hides Phone (text "13800005678") I eq_refl) as [H _].
    pose proof (masking_hides Phone (<[3%nat := 49%N]> (text "13800005678")) I eq_refl) as [H1 _].
    pose proof (masking_hides Phone (<[4%nat := 50%N]> (<[3%nat := 49%N]> (text "13800005678"))) I eq_refl) as [H2 _].
    pose proof (masking_hides Phone (<[5%nat := 51%N]> (<[4%nat := 50%N]> (<[3%nat := 49%N]> (text "13800005678")))) I eq_refl) as [H3 _].
    etrans; [exact (H3 6%nat 52%N eq_refl)|]. etrans; [exact (H2 5%nat 51%N eq_refl)|]. etrans; [exact (H1 4%nat 50%N eq_refl)|].
    exact (H 3%nat 49%N eq_refl).
  - exact (proj1 (masking_hides (Custom "1,1") (text "abcd") eq_refl eq_refl) 2%nat star eq_refl).
Defined.

Lemma split_first_spec c a b : c ∉ a -> split_first c (a ++ c :: b) = Some (a, b).
Proof.
  induction a as [|x a IH]; intros Ha; cbn; [by rewrite N.eqb_refl|]. apply not_elem_of_cons in Ha as [Hx Ha].
  destruct (N.eqb_spec x c) as [->|]; [done|]. by rewrite IH.
Qed.

(** An address shows the first character before the at sign, the number of the others, and what is behind it. *)
Lemma email_shows (x : N) (local domain : str) : at_sign ∉ x :: local ->
  apply Email (x :: local ++ at_sign :: domain) = Some (x :: stars (char_count local) ++ at_sign :: domain).
Proof. intros Hl. cbn [apply]. unfold mask_email. change (x :: local ++ at_sign :: domain) with ((x :: local) ++ at_sign :: domain). by rewrite split_first_spec. Qed.

Lemma before_last_spec c a b : c ∉ b -> before_last c (a ++ c :: b) = Some a.
Proof.
  intros Hb. assert (Hn : before_last c b = None).
  { clear a. induction b as [|x b IH]; [done|]. apply not_elem_of_cons in Hb as [Hx Hb]. cbn. rewrite IH by done. by destruct (N.eqb_spec x c). }
  induction a as [|x a IH]; cbn; [by rewrite Hn, N.eqb_refl|]. by rewrite IH.
Qed.

(** Of a dotted address only the last group is hidden. *)
Lemma ip_shows (a b : str) : full_stop ∉ b -> apply Ip (a ++ full_stop :: b) = Some (a ++ [full_stop; star]).
Proof. intros Hb. cbn [apply]. unfold mask_ip. by rewrite before_last_spec. Qed.

(** A map is masked field by field: fields without a rule keep their values. *)
Lemma mask_entries_spec rule_of data masked k : mask_entries rule_of data = Some masked ->
  masked !! k = match data !! k with
                | Some v => match rule_of k with Some rule => apply rule v | None => Some v end
                | None => None
                end.
Proof.
  unfold mask_entries. destruct (mapM _ (map_to_list data)) as [l|] eqn:Hl; [|done]. cbn. intros [= <-].
  apply mapM_Some in Hl.
  assert (Hkeys : l.*1 = (map_to_list data).*1).
  { clear -Hl. induction Hl as [|[k1 v1] [k2 v2] l1 l2 Hx Hl IH]; [done|]. cbn in *. rewrite IH. f_equal.
    destruct (rule_of k1) as [rule|]; [|by injection Hx as -> ->]. destruct (apply rule v1); [|done]. by injection Hx as -> ->. }
  destruct (data !! k) as [v|] eqn:Hk.
  - apply elem_of_map_to_list in Hk. apply list_elem_of_lookup in Hk as [i Hi]. destruct (Forall2_lookup_l _ _ _ _ _ Hl Hi) as ([k2 w] & Hj & Hx).
    assert (k2 = k /\ match rule_of k with Some rule => apply rule v | None => Some v end = Some w) as [-> ->].
    { cbn in Hx. destruct (rule_of k) as [rule|]; [|by injection Hx as -> ->]. destruct (apply rule v); [|done]. by injection Hx as -> ->. }
    apply elem_of_list_to_map; [rewrite Hkeys; apply NoDup_fst_map_to_list|]. by eapply list_elem_of_lookup_2.
  - apply not_elem_of_list_to_map. rewrite Hkeys. intros Hin. apply list_elem_of_fmap in Hin as ([k2 v] & -> & Hin).
    apply elem_of_map_to_list in Hin. cbn in Hk. by rewrite Hk in Hin.
Qed.

(** ** Where it fails *)

(** A plate is shown in full, with two stars between its characters. *)
Lemma plate_shows_all (v : str) : (4 <= length v)%nat ->
  exists a b, apply Plate v = Some (a ++ stars 2 ++ b) /\ a ++ b = v /\ length b = 2%nat.
Proof.
  intros Hv. cbn [apply]. unfold mask_plate. destruct (Nat.ltb_spec (length v) 4); [lia|]. do 2 eexists. split; [done|].
  rewrite take_drop, length_drop. split; [done|lia].
Qed.

(** The specification of a custom rule can make it panic. *)
Lemma custom_panics : apply (Custom "18446744073709551615,1") (text "secret") = None.
Proof. vm_compute. reflexivity. Qed.

(** A local part of one character is shown, as are texts that are no addresses. *)
Lemma short_values_shown :
  apply Email (text "a@example.com") = Some (text "a@example.com") /\ apply Ip (text "localhost") = Some (text "localhost")
  /\ apply Ip (text "::ffff:10.0.0.7") = Some (text "::ffff:10.0.0.*") /\ apply Name (text "X") = Some (text "X").
Proof. repeat split; vm_compute; reflexivity. Qed.
