(* ===== verification/MaskingRules.v ===== *)
(** The maskers of [sz-orm-masking/src/maskers.rs] and the strategies of [strategy.rs], over the
    rules of [Masking.v]. *)

From Stdlib Require Import Ascii String.
From S2P Require Import Prelude SqlText DynamicSql.
From S2P Require Import Masking.
Local Open Scope Z_scope.

(** * Hashes *)

Inductive HashAlgorithm : Type := SipHash | Fnv1a32 | Fnv1a64.

Definition algorithm_str (a : HashAlgorithm) : string :=
  match a with SipHash => "siphash" | Fnv1a32 => "fnv1a32" | Fnv1a64 => "fnv1a64" end.

Definition parse_name (name : string) : option HashAlgorithm :=
  let name := DynamicSql.to_lowercase name in
  if String.eqb name "siphash" then Some SipHash
  else if String.eqb name "fnv1a32" then Some Fnv1a32
  else if String.eqb name "fnv1a64" then Some Fnv1a64
  else None.

Fixpoint fnv1a (width : Z) (prime hash : Z) (bytes : string) : Z :=
  match bytes with
  | EmptyString => hash
  | String b bytes => fnv1a width prime (Z.lxor hash (Z.of_nat (nat_of_ascii b)) * prime mod 2 ^ width) bytes
  end.

Definition fnv1a_32 : string -> Z := fnv1a 32 0x01000193 0x811c9dc5.
Definition fnv1a_64 : string -> Z := fnv1a 64 0x00000100000001b3 0xcbf29ce484222325.

(** [{:08x}] and [{:016x}] of a hash of 4 or 8 bytes *)
Definition lower_hex (z : Z) : ascii := ascii_of_nat (Z.to_nat (if z <? 10 then 48 + z else 87 + z)).
Fixpoint hex_digits (n : nat) (z : Z) : string :=
  match n with
  | O => EmptyString
  | S n => String.append (hex_digits n (z / 16)) (chr (lower_hex (z mod 16)))
  end.

Section Hashing.
(** The hash of the standard library's [DefaultHasher], whose algorithm it does not specify. *)
Variable default_hasher : string -> Z.

Definition hash_hex (a : HashAlgorithm) (input : string) : string :=
  match a with
  | SipHash => hex_digits 16 (default_hasher input)
  | Fnv1a32 => hex_digits 8 (fnv1a_32 input)
  | Fnv1a64 => hex_digits 16 (fnv1a_64 input)
  end.

Record HashMasker : Type := mkHashMasker {
  algorithm : HashAlgorithm;
  keep_prefix : nat;
  hash_suffix : string;
}.

Definition hash_masker_new : HashMasker := mkHashMasker SipHash 12 "...".
Definition with_algorithm (a : HashAlgorithm) (m : HashMasker) : HashMasker := mkHashMasker a (keep_prefix m) (hash_suffix m).
Definition with_keep_prefix (n : nat) (m : HashMasker) : HashMasker := mkHashMasker (algorithm m) n (hash_suffix m).
Definition with_suffix (s : string) (m : HashMasker) : HashMasker := mkHashMasker (algorithm m) (keep_prefix m) s.

Definition hash_mask (m : HashMasker) (value : string) : string :=
  if String.eqb value "" then hash_suffix m
  else
    let hex := hash_hex (algorithm m) value in
    let prefix := if (String.length hex <=? keep_prefix m)%nat then hex else String.substring 0 (keep_prefix m) hex in
    String.append prefix (hash_suffix m).

Definition hash_mask_fields (m : HashMasker) (fields : list string) (data : gmap string string) : gmap string string :=
  map_imap (fun k v => Some (if bool_decide (k ∈ fields) then hash_mask m v else v)) data.

Definition hash_mask_batch (m : HashMasker) (values : list string) : list string := hash_mask m <$> values.
End Hashing.

Example fnv_example : hash_hex (fun _ => 0) Fnv1a32 "a" = "e40c292c".
Proof. vm_compute. reflexivity. Qed.

(** * Partial display *)

Record PartialDisplayMasker : Type := mkPartial {
  prefix_keep : Z;
  suffix_keep : Z;
  mask_char : N;
  min_mask_length : Z;
  partial_fallback : str;
}.

Definition partial_new : PartialDisplayMasker := mkPartial 3 4 star 3 fallback.
Definition with_prefix (n : Z) (m : PartialDisplayMasker) : PartialDisplayMasker :=
  mkPartial n (suffix_keep m) (mask_char m) (min_mask_length m) (partial_fallback m).
Definition with_suffix_keep (n : Z) (m : PartialDisplayMasker) : PartialDisplayMasker :=
  mkPartial (prefix_keep m) n (mask_char m) (min_mask_length m) (partial_fallback m).
Definition with_mask_char (c : N) (m : PartialDisplayMasker) : PartialDisplayMasker :=
  mkPartial (prefix_keep m) (suffix_keep m) c (min_mask_length m) (partial_fallback m).
Definition with_min_mask_length (n : Z) (m : PartialDisplayMasker) : PartialDisplayMasker :=
  mkPartial (prefix_keep m) (suffix_keep m) (mask_char m) n (partial_fallback m).
Definition with_fallback (f : str) (m : PartialDisplayMasker) : PartialDisplayMasker :=
  mkPartial (prefix_keep m) (suffix_keep m) (mask_char m) (min_mask_length m) f.

(** [None] where a slice panics. *)
Definition partial_mask (m : PartialDisplayMasker) (value : str) : option str :=
  let len := char_count value in
  if len =? 0 then Some (partial_fallback m)
  else
    let need := wrap64 (prefix_keep m + suffix_keep m) in
    if len <=? need then Some (partial_fallback m)
    else
      let hidden := len - need in
      let mask_len := Z.max hidden (min_mask_length m) in
      let start := wrap64 (len - suffix_keep m) in
      if (len <? prefix_keep m) || (len <? start) then None
      else Some (take (Z.to_nat (prefix_keep m)) value ++ replicate (Z.to_nat mask_len) (mask_char m) ++ drop (Z.to_nat start) value).

(** Every field, all or a panic. *)
Definition partial_mask_fields (m : PartialDisplayMasker) (fields : list string) (data : gmap string str) : option (gmap string str) :=
  list_to_map <$> mapM (fun '(k, v) => if bool_decide (k ∈ fields) then w ← partial_mask m v; Some (k, w) else Some (k, v)) (map_to_list data).

(** * Wildcards *)

Definition question_mark : N := 63.

(** The cells of a row of the table after its first: [prev] is the row above from the column to the
    left on, [left] the cell to the left. *)
Fixpoint dp_cells (c : N) (prev : list bool) (left : bool) (txt : str) : list bool :=
  match txt, prev with
  | x :: txt, p0 :: ((p1 :: _) as prev) =>
      let cell :=
        if (c =? star)%N then p1 || left
        else if (c =? question_mark)%N then p0
        else p0 && (c =? x)%N in
      cell :: dp_cells c prev cell txt
  | _, _ => []
  end.

Definition dp_row (txt : str) (prev : list bool) (c : N) : list bool :=
  let first := if (c =? star)%N then default false (head prev) else false in
  first :: dp_cells c prev first txt.

(** The rows of the table, from above, and its last cell. *)
Definition wildcard_match (pattern txt : str) : bool :=
  default false (last (foldl (dp_row txt) (true :: replicate (length txt) false) pattern)).

Record PatternMasker : Type := mkPattern { patterns : list (str * MaskingRule) }.

Definition pattern_new : PatternMasker := mkPattern [].
Definition add_pattern (p : str) (rule : MaskingRule) (m : PatternMasker) : PatternMasker := mkPattern (patterns m ++ [(p, rule)]).
Definition pattern_count (m : PatternMasker) : nat := length (patterns m).
Definition pattern_clear (m : PatternMasker) : PatternMasker := mkPattern [].

Definition match_rule (field : str) (m : PatternMasker) : option MaskingRule :=
  (fun p => p.2.2) <$> list_find (fun p => wildcard_match p.1 field = true) (patterns m).

(** The characters of the names of fields, which are strings here. *)
Definition pattern_mask_map (chars : string -> str) (data : gmap string str) (m : PatternMasker) : option (gmap string str) :=
  mask_entries (fun k => match_rule (chars k) m) data.

(** * Strategies *)

Record MaskingCondition : Type := mkCondition { condition_field : string; expected_value : str }.

Definition is_satisfied (data : gmap string str) (c : MaskingCondition) : bool :=
  match data !! condition_field c with Some v => bool_decide (v = expected_value c) | None => false end.

Record FieldMaskingRule : Type := mkFieldRule {
  rule_field : string;
  rule : MaskingRule;
  condition : option MaskingCondition;
  priority : Z;
}.

Definition field_rule_new (field : string) (rule : MaskingRule) : FieldMaskingRule := mkFieldRule field rule None 100.
Definition with_condition (c : MaskingCondition) (r : FieldMaskingRule) : FieldMaskingRule :=
  mkFieldRule (rule_field r) (rule r) (Some c) (priority r).
Definition with_priority (p : Z) (r : FieldMaskingRule) : FieldMaskingRule := mkFieldRule (rule_field r) (rule r) (condition r) p.

Definition should_apply (data : gmap string str) (r : FieldMaskingRule) : bool :=
  match condition r with Some c => is_satisfied data c | None => true end.

Record MaskingStrategyEngine : Type := mkEngine { engine_rules : list FieldMaskingRule }.

Definition engine_new : MaskingStrategyEngine := mkEngine [].
Definition engine_add_rule (r : FieldMaskingRule) (e : MaskingStrategyEngine) : MaskingStrategyEngine := mkEngine (engine_rules e ++ [r]).
Definition engine_add_rules (rs : list FieldMaskingRule) (e : MaskingStrategyEngine) : MaskingStrategyEngine := mkEngine (engine_rules e ++ rs).
Definition engine_rule_count (e : MaskingStrategyEngine) : nat := length (engine_rules e).
Definition engine_clear (e : MaskingStrategyEngine) : MaskingStrategyEngine := mkEngine [].

Definition effective_rule (field : string) (data : gmap string str) (e : MaskingStrategyEngine) : option MaskingRule :=
  let candidates := filter (fun r => rule_field r = field /\ should_apply data r = true) (engine_rules e) in
  rule <$> head (sort_by_key priority candidates).

Definition engine_apply_to_map (data : gmap string str) (e : MaskingStrategyEngine) : option (gmap string str) :=
  mask_entries (fun k => effective_rule k data e) data.

Definition remove_rules_for_field (field : string) (e : MaskingStrategyEngine) : nat * MaskingStrategyEngine :=
  let kept := filter (fun r => rule_field r <> field) (engine_rules e) in
  ((length (engine_rules e) - length kept)%nat, mkEngine kept).

(** ** Pipelines *)

Record PipelineStage : Type := mkStage { stage_name : string; stage_rules : gmap string MaskingRule }.

Definition stage_new (name : string) : PipelineStage := mkStage name ∅.
Definition with_rule (field : string) (r : MaskingRule) (s : PipelineStage) : PipelineStage :=
  mkStage (stage_name s) (<[field := r]> (stage_rules s)).
Definition stage_rule_count (s : PipelineStage) : nat := size (stage_rules s).
Definition stage_apply (data : gmap string str) (s : PipelineStage) : option (gmap string str) := mask_map (stage_rules s) data.

Record MaskingPipeline : Type := mkPipeline { stages : list PipelineStage }.

Definition pipeline_new : MaskingPipeline := mkPipeline [].
Definition add_stage (s : PipelineStage) (p : MaskingPipeline) : MaskingPipeline := mkPipeline (stages p ++ [s]).
Definition stage_count (p : MaskingPipeline) : nat := length (stages p).
Definition stage_names (p : MaskingPipeline) : list string := stage_name <$> stages p.
Definition pipeline_clear (p : MaskingPipeline) : MaskingPipeline := mkPipeline [].

Fixpoint run_stages (stages : list PipelineStage) (current : gmap string str) : option (gmap string str) :=
  match stages with
  | [] => Some current
  | s :: stages => next ← stage_apply current s; run_stages stages next
  end.
Definition pipeline_apply_to_map (data : gmap string str) (p : MaskingPipeline) : option (gmap string str) := run_stages (stages p) data.

(** ** The validator *)

Definition is_masked (original masked : str) : bool := negb (bool_decide (original = masked)) || is_nil original.
Definition contains_mask_char (masked : str) : bool := bool_decide (star ∈ masked).

(** The fields whose values are the same, or missing, and not empty. *)
Definition validate_map (data masked : gmap string str) : list string :=
  fst <$> filter (fun '(k, v) => (match masked !! k with Some m => bool_decide (m = v) | None => true end && negb (is_nil v)) = true)
            (map_to_list data).

(** * Wildcards *)

(** What a character of a pattern stands for, and the texts of a pattern: those cut into one piece
    for each of its characters. *)
Definition piece (c : N) (t : str) : Prop :=
  if (c =? star)%N then True
  else if (c =? question_mark)%N then length t = 1%nat
  else t = [c].

Definition matches (pattern txt : str) : Prop :=
  exists pieces, txt = mjoin pieces /\ Forall2 piece pattern pieces.

Lemma matches_nil txt : matches [] txt <-> txt = [].
Proof.
  split; [intros (ps & -> & H); apply Forall2_nil_inv_l in H as ->; done |].
  intros ->. by exists [].
Qed.

Lemma matches_snoc p c txt :
  matches (p ++ [c]) txt <-> exists a b, txt = a ++ b /\ matches p a /\ piece c b.
Proof.
  split.
  - intros (ps & -> & H). apply Forall2_app_inv_l in H as (qs & l & H & Hl & ->).
    apply Forall2_cons_inv_l in Hl as (b & [|] & Hb & Hl & ->); [| inversion Hl].
    exists (mjoin qs), b. rewrite join_app; simpl; rewrite app_nil_r. split_and!; [done | by exists qs | done].
  - intros (a & b & -> & (ps & -> & H) & Hb). exists (ps ++ [b]). rewrite join_app; simpl; rewrite app_nil_r.
    split; [done |]. apply Forall2_app; [done | by repeat constructor].
Qed.

(** The cells of the table: in the first column, and from the cells above and to the left. *)
Lemma matches_first p c : matches (p ++ [c]) [] <-> c = star /\ matches p [].
Proof.
  rewrite matches_snoc. split.
  - intros (a & b & E & Ha & Hb). symmetry in E. apply app_eq_nil in E as [-> ->].
    unfold piece in Hb. destruct (N.eqb_spec c star); [done |]. destruct (c =? question_mark)%N; done.
  - intros [-> H]. by exists [], [].
Qed.

Lemma matches_cell p c pre x : matches (p ++ [c]) (pre ++ [x]) <->
  (if (c =? star)%N then matches p (pre ++ [x]) \/ matches (p ++ [c]) pre
   else if (c =? question_mark)%N then matches p pre
   else matches p pre /\ c = x).
Proof.
  rewrite (matches_snoc p c (pre ++ [x])). unfold piece. destruct (N.eqb_spec c star) as [-> |].
  { rewrite (matches_snoc p star pre). unfold piece. simpl.
    split.
    + intros (a & b & E & Ha & _). destruct b as [| y b _] using rev_ind.
      * left. by rewrite app_nil_r in E; subst.
      * right. rewrite app_assoc in E. apply app_inj_tail in E as [-> _]. by exists a, b.
    + intros [H | (a & b & -> & H & _)].
      * exists (pre ++ [x]), []. by rewrite app_nil_r.
      * exists a, (b ++ [x]). by rewrite app_assoc. }
  destruct (c =? question_mark)%N.
  - split.
    + intros (a & b & E & Ha & Hb). destruct b as [| y [|]]; [done | | done].
      by apply app_inj_tail in E as [-> _].
    + intros H. by exists pre, [x].
  - split.
    + intros (a & b & E & Ha & ->). by apply app_inj_tail in E as [-> ->].
    + intros [H ->]. by exists pre, [x].
Qed.

(** A row of the table from the column after [pre] on says of which prefixes of the text [P] holds. *)
Fixpoint describes (P : str -> Prop) (pre suffix : str) (row : list bool) {struct row} : Prop :=
  match row with
  | [] => False
  | b :: row =>
      (b = true <-> P pre) /\
      match suffix with [] => row = [] | x :: suffix => describes P (pre ++ [x]) suffix row end
  end.

Lemma cells_describe p c suffix pre prev left :
  describes (matches p) pre suffix prev -> (left = true <-> matches (p ++ [c]) pre) ->
  describes (matches (p ++ [c])) pre suffix (left :: dp_cells c prev left suffix).
Proof.
  revert pre prev left. induction suffix as [| x suffix IH]; intros pre prev left Hp Hl.
  { by destruct prev. }
  destruct prev as [| p0 [| p1 prev]]; [done | by destruct Hp |].
  split; [done |]. destruct Hp as [H0 Hp]. apply (IH (pre ++ [x]) (p1 :: prev)); [done |].
  destruct Hp as [H1 _]. rewrite matches_cell.
  destruct (c =? star)%N; [| destruct (c =? question_mark)%N; [done |]].
  - rewrite orb_true_iff. by rewrite H1, Hl.
  - rewrite andb_true_iff, H0. by rewrite N.eqb_eq.
Qed.

Lemma row_describes p c txt row : describes (matches p) [] txt row ->
  describes (matches (p ++ [c])) [] txt (dp_row txt row c).
Proof.
  intros H. unfold dp_row. apply cells_describe; [done |]. rewrite matches_first.
  destruct row as [| b row]; [done |]. destruct H as [H _]. simpl.
  destruct (N.eqb_spec c star); [rewrite H; naive_solver | naive_solver].
Qed.

Lemma empty_pattern_row pre txt : pre <> [] -> describes (matches []) pre txt (replicate (S (length txt)) false).
Proof.
  revert pre. induction txt as [| x txt IH]; intros pre Hpre; split; try (rewrite matches_nil; naive_solver); [done |].
  apply (IH (pre ++ [x])). by destruct pre.
Qed.

Lemma first_row_describes txt : describes (matches []) [] txt (true :: replicate (length txt) false).
Proof.
  split; [by rewrite matches_nil |]. destruct txt as [| x txt]; [done |]. by apply empty_pattern_row.
Qed.

Lemma last_describes P pre suffix row : describes P pre suffix row ->
  (default false (last row) = true <-> P (pre ++ suffix)).
Proof.
  revert pre row. induction suffix as [| x suffix IH]; intros pre row H; destruct row as [| b row]; try done.
  - destruct H as [H ->]. by rewrite app_nil_r.
  - destruct H as [_ H]. destruct row as [| b' row]; [done |].
    rewrite last_cons_cons, (IH (pre ++ [x])) by done. by rewrite <- app_assoc.
Qed.

(** The table decides what the comment above [wildcard_match] promises: a text cut into a piece for
    each character of the pattern. *)
Lemma wildcard_matches (pattern txt : str) : wildcard_match pattern txt = true <-> matches pattern txt.
Proof.
  unfold wildcard_match. rewrite <- (app_nil_l txt) at 3. apply last_describes.
  assert (forall p row, describes (matches p) [] txt row ->
    describes (matches (p ++ pattern)) [] txt (foldl (dp_row txt) row pattern)) as H.
  { induction pattern as [| c pattern IH]; intros p row Hr; [by rewrite app_nil_r |].
    simpl. rewrite (cons_middle c p pattern), app_assoc. by apply IH, row_describes. }
  apply (H []), first_row_describes.
Qed.

Example wildcard_example :
  wildcard_match (text "user_*") (text "user_name") = true /\ wildcard_match (text "*_n?me") (text "user_name") = true /\
  wildcard_match (text "?") (text "") = false.
Proof. vm_compute. done. Qed.

(** The rule the pattern masker applies to a field is that of the first of its patterns that
    matches the name, and a pattern matches a name exactly when the name is a sequence of pieces, one
    for each character of the pattern: anything for a star, one character for a question mark, and
    the character itself for any other. A field no pattern matches has no rule. *)
Theorem match_rule_first name m :
  match match_rule name m with
  | Some r => exists i p, patterns m !! i = Some (p, r) /\ matches p name /\
      forall j p' r', (j < i)%nat -> patterns m !! j = Some (p', r') -> ~ matches p' name
  | None => forall p r, (p, r) ∈ patterns m -> ~ matches p name
  end.
Proof.
  unfold match_rule. destruct (list_find _ (patterns m)) as [[i [p r]] |] eqn:E; simpl.
  - apply list_find_Some in E as (Hi & Hp & Hj). exists i, p. split_and!; [done | by apply wildcard_matches |].
    intros j p' r' Hlt Hl Hm. apply (Hj j _ Hl Hlt). by apply wildcard_matches.
  - apply list_find_None in E. intros p r Hin Hm. rewrite Forall_forall in E. apply (E _ Hin).
    by apply wildcard_matches.
Qed.

(** * The effective rule of a field *)

Definition applies (field : string) (data : gmap string str) (r : FieldMaskingRule) : Prop :=
  rule_field r = field /\ should_apply data r = true.

(** The head of the sorted candidates is the first of those of the least priority. *)
Definition first_least (P : FieldMaskingRule -> Prop) (rules : list FieldMaskingRule) (r : FieldMaskingRule) : Prop :=
  exists i, rules !! i = Some r /\ P r /\
  forall j r', rules !! j = Some r' -> P r' -> priority r < priority r' \/ (priority r = priority r' /\ i <= j)%nat.

Lemma first_least_cons P x rules r : (P x -> priority r < priority x) ->
  first_least P rules r -> first_least P (x :: rules) r.
Proof.
  intros Hx (i & Hi & Pr & H). exists (S i). split_and!; [done | done |].
  intros [| j] r' Hj Pj; simpl in Hj; [simplify_eq; left; auto |].
  destruct (H j r' Hj Pj); [by left | right; lia].
Qed.

Lemma first_least_here (P : FieldMaskingRule -> Prop) x rules : P x ->
  (forall j r', rules !! j = Some r' -> P r' -> priority x <= priority r') -> first_least P (x :: rules) x.
Proof.
  intros Px H. exists O. split_and!; [done | done |].
  intros [| j] r' Hj Pj; simpl in Hj; [simplify_eq; right; lia |].
  specialize (H j r' Hj Pj). destruct (decide (priority x = priority r')); [right | left]; lia.
Qed.

Lemma sorted_head (P : FieldMaskingRule -> Prop) `{!forall r, Decision (P r)} rules :
  match head (sort_by_key priority (filter P rules)) with
  | Some r => first_least P rules r
  | None => forall r, r ∈ rules -> ~ P r
  end.
Proof.
  induction rules as [| x rules IH]; [intros r Hr; by apply not_elem_of_nil in Hr |].
  rewrite filter_cons. destruct (decide (P x)) as [Px | Px].
  - simpl. rewrite head_insert_by_key. destruct (head (sort_by_key priority (filter P rules))) as [r |].
    + pose proof IH as (i & Hi & Pr & Hl). destruct (Z.leb_spec (priority x) (priority r)).
      * apply first_least_here; [done |]. intros j r' Hj Pj. destruct (Hl j r' Hj Pj); lia.
      * apply first_least_cons; [by intros; lia | done].
    + apply first_least_here; [done |]. intros j r' Hj Pj. by apply list_elem_of_lookup_2 in Hj; apply IH in Hj.
  - destruct (head (sort_by_key priority (filter P rules))) as [r |].
    + by apply first_least_cons.
    + intros r [-> | Hr]%elem_of_cons; [done | by apply IH].
Qed.

(** The rule of a field is that of the first entry of the least priority among the entries of the
    field whose condition the data satisfies. *)
Lemma effective_rule_first field data e :
  match effective_rule field data e with
  | Some m => exists r, rule r = m /\ first_least (applies field data) (engine_rules e) r
  | None => forall r, r ∈ engine_rules e -> ~ applies field data r
  end.
Proof.
  unfold effective_rule.
  pose proof (sorted_head (fun r => rule_field r = field /\ should_apply data r = true) (engine_rules e)) as H.
  destruct (head _) as [r |]; simpl; [by exists r | exact H].
Qed.

(** A field no rule of the engine names is left as it is; conditions are judged on the data before
    any of it is masked. *)
Lemma engine_untouched data masked e k v : engine_apply_to_map data e = Some masked ->
  data !! k = Some v -> (forall r, r ∈ engine_rules e -> rule_field r <> k) -> masked !! k = Some v.
Proof.
  intros H Hk Hr. rewrite (mask_entries_spec _ _ _ k H), Hk. simpl.
  pose proof (effective_rule_first k data e) as He. destruct (effective_rule k data e) as [m |]; [| done].
  destruct He as (r & _ & i & Hi & [Hf _] & _). apply list_elem_of_lookup_2 in Hi. by apply Hr in Hi.
Qed.

Lemma remove_rules_spec field e n e' : remove_rules_for_field field e = (n, e') ->
  (forall r, r ∈ engine_rules e' <-> r ∈ engine_rules e /\ rule_field r <> field) /\
  (n + length (engine_rules e') = length (engine_rules e))%nat.
Proof.
  unfold remove_rules_for_field. intros [= <- <-]. split.
  - intros r. simpl. rewrite list_elem_of_filter. tauto.
  - simpl. pose proof (length_filter (fun r => rule_field r <> field) (engine_rules e)). lia.
Qed.

(** * Pipelines *)

Lemma run_stages_app l1 l2 data : run_stages (l1 ++ l2) data = (d ← run_stages l1 data; run_stages l2 d).
Proof.
  revert data. induction l1 as [| s l1 IH]; intros data; simpl; [done |].
  destruct (stage_apply data s); [apply IH | done].
Qed.

(** Adding a stage runs it on the output of the stages before. *)
Lemma add_stage_spec data s p :
  pipeline_apply_to_map data (add_stage s p) = (d ← pipeline_apply_to_map data p; stage_apply d s).
Proof.
  unfold pipeline_apply_to_map, add_stage. simpl. rewrite run_stages_app.
  destruct (run_stages (stages p) data) as [d |]; simpl; [by destruct (stage_apply d s) | done].
Qed.

(** The validator reports no field exactly when every text that is not empty has been changed. *)
Lemma validate_map_ok data masked : validate_map data masked = [] <->
  forall k v, data !! k = Some v -> v <> [] -> exists m, masked !! k = Some m /\ m <> v.
Proof.
  unfold validate_map. split.
  - intros Hn k v Hk Hv. apply fmap_nil_inv in Hn.
    assert ((k, v) ∉ (@nil (string * str))) as He by apply not_elem_of_nil.
    rewrite <- Hn, list_elem_of_filter, elem_of_map_to_list in He.
    assert (negb (is_nil v) = true) as Ev by by destruct v. rewrite Ev, andb_true_r in He.
    destruct (masked !! k) as [m |]; [| by destruct He]. exists m. split; [done |]. intros ->.
    apply He. by rewrite bool_decide_true.
  - intros H. destruct (filter _ _) as [| [k v] l] eqn:E; [done |]. exfalso.
    assert ((k, v) ∈ (k, v) :: l) as He by apply list_elem_of_here.
    rewrite <- E, list_elem_of_filter, elem_of_map_to_list in He. destruct He as [He Hk].
    apply andb_true_iff in He as [He Hv]. destruct (H k v Hk) as (m & Hm & Hne); [by destruct v |].
    rewrite Hm in He. by apply bool_decide_eq_true in He.
Qed.

(** * Partial display *)

(** Where the two lengths can be added, a text longer than both shows its ends around at least
    [min_mask_length] mask characters, and any other shows nothing. *)
Lemma partial_mask_spec m v : 0 <= prefix_keep m -> 0 <= suffix_keep m -> 0 <= min_mask_length m ->
  prefix_keep m + suffix_keep m < 2 ^ 64 -> char_count v < 2 ^ 64 ->
  partial_mask m v =
  if char_count v <=? prefix_keep m + suffix_keep m then Some (partial_fallback m)
  else Some (take (Z.to_nat (prefix_keep m)) v
             ++ replicate (Z.to_nat (Z.max (char_count v - (prefix_keep m + suffix_keep m)) (min_mask_length m))) (mask_char m)
             ++ drop (length v - Z.to_nat (suffix_keep m)) v).
Proof.
  intros Hp Hs Hm Hps Hv. unfold partial_mask, char_count in *. rewrite (wrap64_small (prefix_keep m + suffix_keep m)) by lia.
  destruct (Z.eqb_spec (Z.of_nat (length v)) 0) as [E |].
  { destruct (Z.leb_spec (Z.of_nat (length v)) (prefix_keep m + suffix_keep m)); [done | lia]. }
  destruct (Z.leb_spec (Z.of_nat (length v)) (prefix_keep m + suffix_keep m)); [done |].
  rewrite (wrap64_small (Z.of_nat (length v) - suffix_keep m)) by lia.
  destruct (Z.ltb_spec (Z.of_nat (length v)) (prefix_keep m)); [lia |].
  destruct (Z.ltb_spec (Z.of_nat (length v)) (Z.of_nat (length v) - suffix_keep m)); [lia |]. simpl.
  by replace (Z.to_nat (Z.of_nat (length v) - suffix_keep m)) with (length v - Z.to_nat (suffix_keep m))%nat by lia.
Qed.

Example partial_example :
  partial_mask partial_new (text "13812345678") = Some (text "138****5678") /\
  partial_mask partial_new (text "12345678") = Some (text "123***5678").
Proof. vm_compute. done. Qed.
