(* ===== verification/Conflict.v ===== *)
(** Conflicts between data sources, of [sz-orm-fusion/src/conflict.rs]: vector clocks, the
    strategies of the resolver and the log of conflicts. *)

From Stdlib Require Import Ascii String.
From S2P Require Import Prelude.
Local Open Scope Z_scope.

(** * Vector clocks *)

Record VectorClock : Type := mkClock { counters : gmap string Z }.

Definition clock_new : VectorClock := mkClock ∅.

(** The counter of a node, 0 where the clock has none. *)
Definition counter (c : VectorClock) (node : string) : Z := default 0 (counters c !! node).

Definition increment (node : string) (c : VectorClock) : VectorClock :=
  mkClock (<[node := wrap64 (counter c node + 1)]> (counters c)).

(** [self.merge(other)] *)
Definition merge_clock (self other : VectorClock) : VectorClock :=
  mkClock (map_fold (fun k v m => <[k := Z.max (default 0 (m !! k)) v]> m) (counters self) (counters other)).

Definition compare_clock (self other : VectorClock) : Z :=
  let self_greater := existsb (fun '(k, s) => counter other k <? s) (map_to_list (counters self)) in
  let other_greater :=
    existsb (fun '(k, s) => s <? counter other k) (map_to_list (counters self)) ||
    existsb (fun '(k, o) => negb (is_some (counters self !! k)) && (0 <? o)) (map_to_list (counters other)) in
  if self_greater && other_greater then 0 else if self_greater then 1 else if other_greater then -1 else 0.

(** ** Clocks by their counters

    A missing counter and a counter of 0 are the same to every operation. *)

#[export] Instance clock_equiv : Equiv VectorClock := fun c d => forall n, counter c n = counter d n.

#[export] Instance clock_equivalence : Equivalence (≡@{VectorClock}).
Proof. split; [by intros c n | by intros c d H n; rewrite (H n) | intros c d e H1 H2 n; by rewrite (H1 n)]. Qed.

#[export] Instance clock_le : SqSubsetEq VectorClock := fun c d => forall n, counter c n <= counter d n.

#[export] Instance clock_le_preorder : PreOrder (⊑@{VectorClock}).
Proof. split; [intros c n; lia | intros c d e H1 H2 n; specialize (H1 n); specialize (H2 n); lia]. Qed.

(** Counters are never negative. *)
Definition natural (c : VectorClock) : Prop := forall n v, counters c !! n = Some v -> 0 <= v.

Lemma counter_natural c n : natural c -> 0 <= counter c n.
Proof. intros H. unfold counter. destruct (counters c !! n) as [v |] eqn:E; simpl; [by apply (H n) | lia]. Qed.

Lemma counter_increment node c n :
  counter (increment node c) n = if decide (n = node) then wrap64 (counter c node + 1) else counter c n.
Proof.
  unfold counter at 1, increment. cbn [counters]. destruct (decide (n = node)) as [-> |]; [by rewrite lookup_insert_eq |].
  by rewrite lookup_insert_ne.
Qed.

Lemma counter_merge self other n : natural other -> natural self ->
  counter (merge_clock self other) n = Z.max (counter self n) (counter other n).
Proof.
  destruct self as [a], other as [b]. intros Hb Ha. unfold merge_clock, counter. cbn [counters].
  assert (0 <= default 0 (a !! n)) as Hn by apply (counter_natural (mkClock a) n Ha). clear Ha. revert Hb.
  induction b as [| k v b Hk Hf IH] using map_first_key_ind; intros Hb.
  { rewrite map_fold_empty, lookup_empty. simpl. lia. }
  assert (natural (mkClock b)) as Hb'.
  { intros k' v' H. apply (Hb k'). cbn [counters] in *. rewrite lookup_insert_ne; [done |]. by intros ->; rewrite Hk in H. }
  rewrite map_fold_insert_first_key by done.
  assert (0 <= v) as Hv by (apply (Hb k v); apply lookup_insert_eq).
  destruct (decide (k = n)) as [-> |].
  - rewrite !lookup_insert_eq, IH, Hk by done. simpl. lia.
  - rewrite !lookup_insert_ne by done. by apply IH.
Qed.

Lemma natural_increment node c : natural c -> natural (increment node c).
Proof.
  intros H n v. cbn [counters increment]. destruct (decide (n = node)) as [-> |].
  - rewrite lookup_insert_eq. intros [= <-]. apply wrap64_range.
  - rewrite lookup_insert_ne by done. apply H.
Qed.

Lemma natural_merge self other : natural self -> natural other -> natural (merge_clock self other).
Proof.
  destruct self as [a], other as [b]. intros Ha. unfold natural at 2, merge_clock. cbn [counters].
  induction b as [| k v b Hk Hf IH] using map_first_key_ind; intros Hb; [by rewrite map_fold_empty |].
  rewrite map_fold_insert_first_key by done. intros n w. destruct (decide (k = n)) as [-> |].
  - rewrite lookup_insert_eq. intros [= <-]. assert (0 <= v) by (apply (Hb n v); apply lookup_insert_eq). lia.
  - rewrite lookup_insert_ne by done. apply IH. intros k' v' H. apply (Hb k'). cbn [counters] in *.
    rewrite lookup_insert_ne; [done |]. by intros ->; rewrite Hk in H.
Qed.

(** Merging takes the least clock above both. *)
Lemma merge_least self other c : natural self -> natural other ->
  merge_clock self other ⊑ c <-> self ⊑ c /\ other ⊑ c.
Proof.
  intros Hs Ho. split.
  - intros H. split; intros n; specialize (H n); rewrite counter_merge in H by done; lia.
  - intros [H1 H2] n. specialize (H1 n). specialize (H2 n). rewrite counter_merge by done. lia.
Qed.

Lemma some_counter (P : string -> Z -> bool) (c : VectorClock) :
  existsb (fun '(k, v) => P k v) (map_to_list (counters c)) = true <-> exists k v, counters c !! k = Some v /\ P k v = true.
Proof.
  rewrite existsb_exists. split.
  - intros ([k v] & H & Hp). apply list_elem_of_In, elem_of_map_to_list in H. by exists k, v.
  - intros (k & v & H & Hp). exists (k, v). split; [| done]. by apply list_elem_of_In, elem_of_map_to_list.
Qed.

(** The sign [compare_clock] computes, by the order of the counters. *)
Lemma compare_sign self other : natural self -> natural other ->
  exists g o : bool, (g = true <-> exists n, counter other n < counter self n) /\
    (o = true <-> exists n, counter self n < counter other n) /\
    compare_clock self other = if g && o then 0 else if g then 1 else if o then -1 else 0.
Proof.
  intros Hs Ho. unfold compare_clock. eexists _, _. split_and!; [| | reflexivity].
  - rewrite (some_counter (fun k s => counter other k <? s)). split.
    + intros (k & v & Hk & Hv). exists k. unfold counter at 2. rewrite Hk. by apply Z.ltb_lt.
    + intros (n & H). destruct (counters self !! n) as [v |] eqn:E.
      * exists n, v. split; [done |]. unfold counter at 2 in H. rewrite E in H. by apply Z.ltb_lt.
      * unfold counter at 2 in H. rewrite E in H. pose proof (counter_natural other n Ho). simpl in H. lia.
  - rewrite orb_true_iff, (some_counter (fun k s => s <? counter other k)),
      (some_counter (fun k o => negb (is_some (counters self !! k)) && (0 <? o))). split.
    + intros [(k & v & Hk & Hv) | (k & v & Hk & Hv)]; exists k; unfold counter.
      * rewrite Hk. by apply Z.ltb_lt in Hv.
      * apply andb_true_iff in Hv as [Hn Hv]. rewrite Hk. destruct (counters self !! k); [done |]. by apply Z.ltb_lt in Hv.
    + intros (n & H). destruct (counters self !! n) as [v |] eqn:E.
      * left. exists n, v. split; [done |]. unfold counter at 1 in H. rewrite E in H. by apply Z.ltb_lt.
      * right. unfold counter in H. rewrite E in H. destruct (counters other !! n) as [v |] eqn:E'; simpl in H; [| lia].
        exists n, v. split; [done |]. rewrite E. by apply Z.ltb_lt.
Qed.

(** The order is decidable: it is enough to look at the nodes either clock has. *)
Lemma clock_le_maps c d : c ⊑ d <->
  map_Forall (fun n v => v <= counter d n) (counters c) /\ map_Forall (fun n w => counter c n <= w) (counters d).
Proof.
  split.
  - intros H. split; intros n v E; specialize (H n); unfold counter in *; by rewrite E in H.
  - intros [H1 H2] n. unfold counter at 1. destruct (counters c !! n) as [v |] eqn:E; simpl; [by apply H1 |].
    unfold counter. destruct (counters d !! n) as [w |] eqn:E'; simpl; [| lia].
    specialize (H2 n w E'). unfold counter in H2. by rewrite E in H2.
Qed.

#[export] Instance clock_le_decision : RelDecision (⊑@{VectorClock}).
Proof.
  intros c d. destruct (decide (map_Forall (fun n v => v <= counter d n) (counters c) /\
    map_Forall (fun n w => counter c n <= w) (counters d))) as [H | H]; [left | right]; by rewrite clock_le_maps.
Defined.

Lemma not_above c d : (exists n, counter d n < counter c n) <-> ~ c ⊑ d.
Proof.
  split; [intros (n & H) Hc; specialize (Hc n); lia |]. rewrite clock_le_maps. intros H.
  destruct (decide (map_Forall (fun n v => v <= counter d n) (counters c))) as [H1 | H1].
  - destruct (decide (map_Forall (fun n w => counter c n <= w) (counters d))) as [H2 | H2]; [by destruct H |].
    apply map_not_Forall in H2 as (n & w & E & Hw); [| apply _]. exists n. unfold counter at 1. rewrite E. simpl. lia.
  - apply map_not_Forall in H1 as (n & v & E & Hv); [| apply _]. exists n. unfold counter at 2. rewrite E. simpl. lia.
Qed.

(** What [compare_clock] answers: 1 and -1 for clocks of which one is strictly below the other, 0 for
    equal and for concurrent ones. *)
Lemma compare_spec c d : natural c -> natural d ->
  compare_clock c d = if decide (c ⊑ d) then (if decide (d ⊑ c) then 0 else -1) else if decide (d ⊑ c) then 1 else 0.
Proof.
  intros Hc Hd. destruct (compare_sign c d Hc Hd) as (g & o & Hg & Ho & ->).
  rewrite not_above in Hg, Ho. repeat case_decide; destruct g, o; simpl; intuition congruence.
Qed.

#[export] Instance clock_le_proper : Proper ((≡) ==> (≡) ==> iff) (⊑@{VectorClock}).
Proof. intros c c' Hc d d' Hd. by split; intros H n; specialize (H n); rewrite ?(Hc n), ?(Hd n), <- ?(Hc n), <- ?(Hd n) in *. Qed.

#[export] Instance clock_le_antisymm : AntiSymm (≡) (⊑@{VectorClock}).
Proof. intros c d H1 H2 n. specialize (H1 n). specialize (H2 n). lia. Qed.

(** ** Replicas

    The use a vector clock is for: nodes that count their own writes in a clock, send it along and
    merge the clocks they get. A snapshot has, beside the clock, the writes it knows of. *)

Record snapshot : Type := mkSnapshot { snap_clock : VectorClock; seen : gset (string * nat) }.

Record replica : Type := mkReplica { node : string; writes : nat; knows : snapshot }.

Record replicas_state : Type := mkReplicas { replicas : list replica; messages : list snapshot }.

Definition replica_new (node : string) : replica := mkReplica node 0 (mkSnapshot clock_new ∅).
Definition replicas_new (nodes : list string) : replicas_state := mkReplicas (replica_new <$> nodes) [].

Definition write_local (r : replica) : replica :=
  mkReplica (node r) (S (writes r))
    (mkSnapshot (increment (node r) (snap_clock (knows r))) ({[(node r, writes r)]} ∪ seen (knows r))).

Definition merge_snapshot (r : replica) (m : snapshot) : replica :=
  mkReplica (node r) (writes r)
    (mkSnapshot (merge_clock (snap_clock (knows r)) (snap_clock m)) (seen (knows r) ∪ seen m)).

Inductive replicas_step : replicas_state -> replicas_state -> Prop :=
| step_write s i r : replicas s !! i = Some r ->
    replicas_step s (mkReplicas (<[i := write_local r]> (replicas s)) (messages s))
| step_send s i r : replicas s !! i = Some r ->
    replicas_step s (mkReplicas (replicas s) (messages s ++ [knows r]))
| step_receive s i r m : replicas s !! i = Some r -> m ∈ messages s ->
    replicas_step s (mkReplicas (<[i := merge_snapshot r m]> (replicas s)) (messages s)).

Definition snapshots (s : replicas_state) : list snapshot := (knows <$> replicas s) ++ messages s.

(** A clock counts what its snapshot knows of: the first writes of every node. *)
Definition counts_seen (x : snapshot) : Prop :=
  natural (snap_clock x) /\ forall n k, (n, k) ∈ seen x <-> Z.of_nat k < counter (snap_clock x) n.

Record replicas_ok (s : replicas_state) : Prop := {
  ok_nodes : NoDup (node <$> replicas s);
  ok_counts : forall x, x ∈ snapshots s -> counts_seen x;
  ok_own : forall r, r ∈ replicas s -> counter (snap_clock (knows r)) (node r) = Z.of_nat (writes r);
  ok_bound : forall r x, r ∈ replicas s -> x ∈ snapshots s -> counter (snap_clock x) (node r) <= Z.of_nat (writes r);
}.

Definition within_u64 (s : replicas_state) : Prop := forall r, r ∈ replicas s -> Z.of_nat (writes r) < 2 ^ 64.

Lemma counts_seen_write r : counts_seen (knows r) -> counter (snap_clock (knows r)) (node r) = Z.of_nat (writes r) ->
  Z.of_nat (S (writes r)) < 2 ^ 64 -> counts_seen (knows (write_local r)) /\
  forall n, counter (snap_clock (knows (write_local r))) n =
    if decide (n = node r) then Z.of_nat (S (writes r)) else counter (snap_clock (knows r)) n.
Proof.
  intros [Hn Hs] Ho Hb.
  assert (forall n, counter (snap_clock (knows (write_local r))) n =
    if decide (n = node r) then Z.of_nat (S (writes r)) else counter (snap_clock (knows r)) n) as Hc.
  { intros n. cbn [knows write_local snap_clock]. rewrite counter_increment. case_decide; [| done].
    rewrite Ho, wrap64_small by lia. lia. }
  split; [| done]. split; [by apply natural_increment |]. intros n k. rewrite Hc.
  cbn [knows write_local seen]. rewrite elem_of_union, elem_of_singleton, Hs. case_decide as E.
  - subst. rewrite Ho. split; [intros [[= ->] | H]; lia |]. intros H.
    destruct (decide (k = writes r)) as [-> |]; [by left | right; lia].
  - split; [intros [[= -> ->] | H]; done | by right].
Qed.

Lemma counts_seen_merge r m : counts_seen (knows r) -> counts_seen m -> counts_seen (knows (merge_snapshot r m)).
Proof.
  intros [Hn Hs] [Hn' Hs']. split; [by apply natural_merge |]. intros n k. cbn [knows merge_snapshot seen snap_clock].
  rewrite counter_merge, elem_of_union, Hs, Hs' by done. lia.
Qed.

(** A step changes one replica, keeping its node, or adds the snapshot of one to the messages. *)
Lemma replica_insert s i r r' x : replicas s !! i = Some r -> node r' = node r ->
  NoDup (node <$> replicas s) ->
  NoDup (node <$> <[i := r']> (replicas s)) /\
  (x ∈ <[i := r']> (replicas s) -> x = r' \/ (x ∈ replicas s /\ node x <> node r)).
Proof.
  intros Hi Hn Hd. split.
  - rewrite list_fmap_insert, Hn. by rewrite list_insert_id; [| rewrite list_lookup_fmap, Hi].
  - intros (j & Hj)%list_elem_of_lookup. destruct (decide (i = j)) as [-> |].
    + rewrite list_lookup_insert_eq in Hj by (by eapply lookup_lt_Some). left. congruence.
    + rewrite list_lookup_insert_ne in Hj by done. right. split; [by eapply list_elem_of_lookup_2 |].
      intros E. rewrite NoDup_alt in Hd. apply n. apply (Hd i j (node r)); rewrite list_lookup_fmap; [by rewrite Hi | by rewrite Hj, <- E].
Qed.

Lemma snapshots_insert s i r' x : x ∈ snapshots (mkReplicas (<[i := r']> (replicas s)) (messages s)) ->
  x = knows r' \/ x ∈ snapshots s.
Proof.
  unfold snapshots. cbn [replicas messages]. rewrite !elem_of_app, list_fmap_insert. intros [H | H]; [| by right; right].
  apply list_elem_of_lookup in H as (j & Hj). destruct (decide (i = j)) as [-> |].
  - left. apply list_lookup_insert_Some in Hj. naive_solver.
  - rewrite list_lookup_insert_ne in Hj by done. right. left. by eapply list_elem_of_lookup_2.
Qed.

Lemma replicas_new_ok nodes : NoDup nodes -> replicas_ok (replicas_new nodes).
Proof.
  intros Hd. constructor; unfold replicas_new, snapshots; cbn [replicas messages].
  - by rewrite <- list_fmap_compose, list_fmap_id.
  - intros x. rewrite app_nil_r, <- list_fmap_compose. intros (n & -> & _)%list_elem_of_fmap. split; [intros m v; cbn; by rewrite lookup_empty |].
    intros n' k. cbn. rewrite elem_of_empty. unfold counter. cbn. rewrite lookup_empty. simpl. lia.
  - intros r (n & -> & _)%list_elem_of_fmap. cbn. unfold counter. cbn. by rewrite lookup_empty.
  - intros r x (n & -> & _)%list_elem_of_fmap. rewrite app_nil_r, <- list_fmap_compose.
    intros (n' & -> & _)%list_elem_of_fmap. cbn. unfold counter. cbn. by rewrite lookup_empty.
Qed.

Lemma replicas_step_ok s s' : replicas_ok s -> within_u64 s' -> replicas_step s s' -> replicas_ok s'.
Proof.
  intros Hok Hu Hst.
  destruct Hst as [s i r Hi | s i r Hi | s i r m Hi Hm]; pose proof Hok as [Hd Hc Ho Hb];
    assert (r ∈ replicas s) as Hr by (by eapply list_elem_of_lookup_2);
    assert (knows r ∈ snapshots s) as Hk by (apply elem_of_app; left; by apply list_elem_of_fmap_2).
  - assert (Z.of_nat (S (writes r)) < 2 ^ 64) as Hu'.
    { apply (Hu (write_local r)). apply list_elem_of_insert, (lookup_lt_Some _ _ _ Hi). }
    destruct (counts_seen_write r (Hc _ Hk) (Ho _ Hr) Hu') as [Hw Hcw].
    constructor.
    + by apply (replica_insert s i r).
    + intros x [-> | Hx]%snapshots_insert; [done | by apply Hc].
    + intros r' Hr'. cbn [replicas] in Hr'. apply (replica_insert s i r) in Hr' as [-> | [Hr' Hne]]; [| | done..].
      * rewrite Hcw. cbn [node write_local writes]. by rewrite decide_True.
      * by apply Ho.
    + intros r' x Hr' Hx. cbn [replicas] in Hr'. apply (replica_insert s i r) in Hr' as [-> | [Hr' Hne]]; [| | done..];
        apply snapshots_insert in Hx as [-> | Hx].
      * rewrite Hcw. cbn [node write_local writes]. rewrite decide_True by done. lia.
      * cbn [node write_local writes]. specialize (Hb _ _ Hr Hx). lia.
      * rewrite Hcw, decide_False by done. by apply Hb.
      * by apply Hb.
  - assert (forall x, x ∈ snapshots (mkReplicas (replicas s) (messages s ++ [knows r])) -> x ∈ snapshots s) as Hsub.
    { intros x. unfold snapshots. cbn [replicas messages]. rewrite !elem_of_app, list_elem_of_singleton.
      intros [H | [H | ->]]; [by left | by right | left; by apply list_elem_of_fmap_2]. }
    constructor; cbn [replicas]; [done | auto | done | auto].
  - assert (m ∈ snapshots s) as Hms by (apply elem_of_app; by right).
    assert (forall n, counter (snap_clock (knows (merge_snapshot r m))) n =
      Z.max (counter (snap_clock (knows r)) n) (counter (snap_clock m) n)) as Hcm.
    { intros n. apply counter_merge; [apply (Hc _ Hms) | apply (Hc _ Hk)]. }
    constructor.
    + by apply (replica_insert s i r).
    + intros x [-> | Hx]%snapshots_insert; [apply counts_seen_merge; by apply Hc | by apply Hc].
    + intros r' Hr'. cbn [replicas] in Hr'. apply (replica_insert s i r) in Hr' as [-> | [Hr' Hne]]; [| by apply Ho | done..].
      rewrite Hcm. cbn [node merge_snapshot writes]. specialize (Ho _ Hr). specialize (Hb _ _ Hr Hms). lia.
    + intros r' x Hr' Hx. cbn [replicas] in Hr'.
      assert (exists r0, r0 ∈ replicas s /\ node r0 = node r' /\ writes r0 = writes r') as (r0 & H0 & <- & <-).
      { apply (replica_insert s i r) in Hr' as [-> | [Hr' Hne]]; [by exists r | by exists r' | done..]. }
      apply snapshots_insert in Hx as [-> | Hx]; [| by apply Hb].
      rewrite Hcm. pose proof (Hb _ _ H0 Hk). pose proof (Hb _ _ H0 Hms). lia.
Qed.

(** Writes are never forgotten, so a bound of now was a bound before. *)
Lemma replicas_step_writes s s' : replicas_step s s' -> within_u64 s' -> within_u64 s.
Proof.
  intros Hst Hu r (j & Hj)%list_elem_of_lookup. destruct Hst as [s i r' Hi | s i r' Hi | s i r' m Hi Hm]; cbn [replicas] in *.
  - destruct (decide (i = j)) as [-> |].
    + specialize (Hu (write_local r') ltac:(apply list_elem_of_insert; by eapply lookup_lt_Some)). cbn in Hu.
      replace r with r' by congruence. lia.
    + apply Hu. cbn. eapply list_elem_of_lookup_2. rewrite list_lookup_insert_ne; [exact Hj | done].
  - apply Hu. by eapply list_elem_of_lookup_2.
  - destruct (decide (i = j)) as [-> |].
    + specialize (Hu (merge_snapshot r' m) ltac:(apply list_elem_of_insert; by eapply lookup_lt_Some)). cbn in Hu.
      by replace r with r' by congruence.
    + apply Hu. cbn. eapply list_elem_of_lookup_2. rewrite list_lookup_insert_ne; [exact Hj | done].
Qed.

Lemma replicas_reachable_ok nodes s : NoDup nodes -> rtc replicas_step (replicas_new nodes) s -> within_u64 s -> replicas_ok s.
Proof.
  intros Hd. revert s. apply (rtc_ind_r (fun s => within_u64 s -> replicas_ok s)).
  - intros _. by apply replicas_new_ok.
  - intros s s' _ Hst IH Hu. apply (replicas_step_ok s); [| done | done]. apply IH. by apply (replicas_step_writes s s').
Qed.

(** For snapshots the order of the clocks is the inclusion of the writes. *)
Lemma clock_le_seen x y : counts_seen x -> counts_seen y -> snap_clock x ⊑ snap_clock y <-> seen x ⊆ seen y.
Proof.
  intros [Hx Sx] [Hy Sy]. split.
  - intros H [n k]. rewrite Sx, Sy. specialize (H n). lia.
  - intros H n. destruct (Z.le_gt_cases (counter (snap_clock x) n) (counter (snap_clock y) n)) as [| Hlt]; [done |].
    pose proof (counter_natural _ n Hy). specialize (H (n, Z.to_nat (counter (snap_clock y) n))). rewrite Sx, Sy in H. lia.
Qed.

(** C10. Vector clocks decide causality. Among nodes with distinct names that write, send their clock
    and merge the clocks they receive, in any order, with fewer than 2^64 writes each: any two clocks
    of nodes or messages compare as the sets of writes they stand for do. [compare] answers 1 or -1
    exactly when one knows strictly more writes than the other, and 0 when both know the same or each
    knows some the other does not. *)
Theorem clocks_decide_causality (nodes : list string) (s : replicas_state) (x y : snapshot) :
  NoDup nodes -> rtc replicas_step (replicas_new nodes) s -> within_u64 s -> x ∈ snapshots s -> y ∈ snapshots s ->
  (compare_clock (snap_clock x) (snap_clock y) = 1 <-> seen y ⊂ seen x) /\
  (compare_clock (snap_clock x) (snap_clock y) = -1 <-> seen x ⊂ seen y) /\
  (compare_clock (snap_clock x) (snap_clock y) = 0 <-> (seen x = seen y \/ (~ seen x ⊆ seen y /\ ~ seen y ⊆ seen x))).
Proof.
  intros Hd Hr Hu Hx Hy. destruct (replicas_reachable_ok nodes s Hd Hr Hu) as [_ Hc _ _].
  pose proof (Hc x Hx) as Cx. pose proof (Hc y Hy) as Cy.
  rewrite (compare_spec (snap_clock x) (snap_clock y)); [| by destruct Cx | by destruct Cy].
  pose proof (clock_le_seen x y Cx Cy) as E1. pose proof (clock_le_seen y x Cy Cx) as E2.
  assert (seen x = seen y <-> seen x ⊆ seen y /\ seen y ⊆ seen x) as Heq by set_solver.
  unfold strict. repeat case_decide; intuition (congruence || auto).
Qed.

(** Two nodes that write independently are concurrent; after the second has merged the clock of the
    first, the first is below it. *)
Definition two_nodes : list (replicas_state) :=
  let a := write_local (replica_new "a") in
  let b := write_local (replica_new "b") in
  [mkReplicas [a; b] [knows a]; mkReplicas [a; merge_snapshot b (knows a)] [knows a]].

Lemma two_nodes_reachable i s : two_nodes !! i = Some s -> rtc replicas_step (replicas_new ["a"; "b"]) s.
Proof.
  assert (rtc replicas_step (replicas_new ["a"; "b"])
    (mkReplicas [write_local (replica_new "a"); write_local (replica_new "b")] [knows (write_local (replica_new "a"))])) as H.
  { eapply rtc_l; [by apply (step_write _ 0 (replica_new "a")) |]. eapply rtc_l; [by apply (step_write _ 1 (replica_new "b")) |].
    eapply rtc_l; [by apply (step_send _ 0 (write_local (replica_new "a"))) |]. apply rtc_refl. }
  destruct i as [| [|]]; cbn; intros [= <-]; [done |]. eapply rtc_r; [exact H |].
  apply (step_receive (mkReplicas [write_local (replica_new "a"); write_local (replica_new "b")] [knows (write_local (replica_new "a"))]) 1 (write_local (replica_new "b")) (knows (write_local (replica_new "a")))); [done | by left].
Qed.

Lemma clocks_decide_causality_witness :
  match two_nodes with
  | [s1; s2] =>
      match replicas s1, replicas s2 with
      | [a; b], [_; b'] =>
          compare_clock (snap_clock (knows a)) (snap_clock (knows b)) = 0 /\ ~ seen (knows a) ⊆ seen (knows b) /\
          seen (knows a) ⊂ seen (knows b')
      | _, _ => False
      end
  | _ => False
  end.
Proof.
  assert (forall s, s ∈ two_nodes -> within_u64 s) as Hu.
  { intros s Hs r Hr. repeat (apply elem_of_cons in Hs as [-> | Hs] || by apply not_elem_of_nil in Hs);
      repeat (apply elem_of_cons in Hr as [-> | Hr] || by apply not_elem_of_nil in Hr); vm_compute; reflexivity. }
  assert (NoDup ["a"; "b"]) as Hd by (apply (bool_decide_unpack _); vm_compute; exact I).
  cbn [two_nodes replicas].
  set (s1 := mkReplicas [write_local (replica_new "a"); write_local (replica_new "b")] [knows (write_local (replica_new "a"))]).
  set (s2 := mkReplicas [write_local (replica_new "a"); merge_snapshot (write_local (replica_new "b")) (knows (write_local (replica_new "a")))]
    [knows (write_local (replica_new "a"))]).
  assert (s1 ∈ two_nodes) as H1 by (by left). assert (s2 ∈ two_nodes) as H2 by (by right; left).
  assert (compare_clock (snap_clock (knows (write_local (replica_new "a")))) (snap_clock (knows (write_local (replica_new "b")))) = 0) as E by done.
  split; [done |]. split.
  - destruct (clocks_decide_causality ["a"; "b"] s1 (knows (write_local (replica_new "a"))) (knows (write_local (replica_new "b"))) Hd
      (two_nodes_reachable 0 s1 eq_refl) (Hu _ H1)) as (_ & _ & [H _]); [by left | by right; left |].
    destruct (H E) as [H' | [H' _]]; [| done]. intros _. apply (f_equal (fun X => bool_decide (("a", 0%nat) ∈ X))) in H'.
    vm_compute in H'. discriminate.
  - apply (clocks_decide_causality ["a"; "b"] s2 (knows (write_local (replica_new "a")))
      (knows (merge_snapshot (write_local (replica_new "b")) (knows (write_local (replica_new "a"))))) Hd
      (two_nodes_reachable 1 s2 eq_refl) (Hu _ H2)); [by left | by right; left | vm_compute; reflexivity].
Defined.

(** * The resolver *)

Inductive ConflictType : Type := ValueMismatch | ExistenceMismatch | VersionConflict | TimestampConflict.

Definition conflict_type_str (t : ConflictType) : string :=
  match t with
  | ValueMismatch => "value_mismatch"
  | ExistenceMismatch => "existence_mismatch"
  | VersionConflict => "version_conflict"
  | TimestampConflict => "timestamp_conflict"
  end.

Inductive ResolutionStrategy : Type :=
  LastWriteWins | SourcePriority | MergeFields | KeepConflict | PrimaryWins | MultiVersion | CustomStrategy.

Definition strategy_str (s : ResolutionStrategy) : string :=
  match s with
  | LastWriteWins => "last_write_wins"
  | SourcePriority => "source_priority"
  | MergeFields => "merge_fields"
  | KeepConflict => "keep_conflict"
  | PrimaryWins => "primary_wins"
  | MultiVersion => "multi_version"
  | CustomStrategy => "custom"
  end.

(** The values of [serde_json], of which the resolver asks these. *)
Class Json (J : Type) := {
  json_eq :: EqDecision J;
  is_null : J -> bool;
  as_object : J -> option (gmap string J);
  object : gmap string J -> J;
  array : list J -> J;
}.

Section Resolver.
Context {J : Type} `{!Json J}.

Record DataVersion : Type := mkVersion { source : string; value : J; version : Z; timestamp_ms : Z }.

Definition version_new (now : Z) (source : string) (value : J) (version : Z) : DataVersion :=
  mkVersion source value version now.
Definition with_timestamp (ts : Z) (v : DataVersion) : DataVersion := mkVersion (source v) (value v) (version v) ts.

Record Conflict : Type := mkConflict {
  conflict_key : string;
  conflict_type : ConflictType;
  versions : list DataVersion;
  detected_at_ms : Z;
}.

Definition version_count (c : Conflict) : nat := length (versions c).

Record Resolution : Type := mkResolution {
  resolved_key : string;
  resolved_by : ResolutionStrategy;
  resolved_value : J;
  winning_source : string;
  resolved_conflict : Conflict;
}.

Record ConflictResolver : Type := mkResolver {
  strategy : ResolutionStrategy;
  source_priorities : gmap string Z;
  primary_source : string;
  resolved_count : Z;
  unresolved_count : Z;
  custom_handler : option (Conflict -> Resolution);
}.

Definition resolver_new (strategy : ResolutionStrategy) (primary : string) : ConflictResolver :=
  mkResolver strategy ∅ primary 0 0 None.
Definition with_custom_handler (h : Conflict -> Resolution) (r : ConflictResolver) : ConflictResolver :=
  mkResolver (strategy r) (source_priorities r) (primary_source r) (resolved_count r) (unresolved_count r) (Some h).
Definition set_priority (source : string) (p : Z) (r : ConflictResolver) : ConflictResolver :=
  mkResolver (strategy r) (<[source := p]> (source_priorities r)) (primary_source r) (resolved_count r) (unresolved_count r)
    (custom_handler r).

(** [values.windows(2).all(|w| w[0] == w[1])] *)
Fixpoint all_same (values : list J) : bool :=
  match values with
  | a :: ((b :: _) as rest) => bool_decide (a = b) && all_same rest
  | _ => true
  end.

Definition detect_conflict (now : Z) (key : string) (versions : list DataVersion) : option Conflict :=
  if (length versions <? 2)%nat then None
  else if all_same (value <$> versions) then None
  else
    let t :=
      if existsb (fun v => is_null (value v)) versions then ExistenceMismatch
      else
        let max_version := foldr Z.max 0 (version <$> versions) in
        let min_version := match version <$> versions with [] => 0 | n :: ns => foldr Z.min n ns end in
        if negb (max_version =? min_version) then VersionConflict else ValueMismatch in
    Some (mkConflict key t versions now).

(** [max_by_key], which takes the last of equals. *)
Definition max_by_key (f : DataVersion -> Z) (l : list DataVersion) : option DataVersion :=
  match l with
  | [] => None
  | x :: l => Some (foldl (fun best v => if f best <=? f v then v else best) x l)
  end.

Definition count_resolved (r : ConflictResolver) : ConflictResolver :=
  mkResolver (strategy r) (source_priorities r) (primary_source r) (wrap64 (resolved_count r + 1)) (unresolved_count r) (custom_handler r).
Definition count_unresolved (r : ConflictResolver) : ConflictResolver :=
  mkResolver (strategy r) (source_priorities r) (primary_source r) (resolved_count r) (wrap64 (unresolved_count r + 1)) (custom_handler r).

(** [unwrap_or(&conflict.versions[0])], whose argument is evaluated first: [None] where it panics. *)
Definition winner_or_first (c : Conflict) (w : option DataVersion) : option DataVersion :=
  first ← head (versions c); Some (default first w).

Definition resolution_of (c : Conflict) (s : ResolutionStrategy) (v : J) (w : DataVersion) : Resolution :=
  mkResolution (conflict_key c) s v (source w) c.

Definition resolve_last_write_wins (c : Conflict) : option Resolution :=
  w ← winner_or_first c (max_by_key timestamp_ms (versions c)); Some (resolution_of c LastWriteWins (value w) w).

Definition priority_of (r : ConflictResolver) (v : DataVersion) : Z := default 0 (source_priorities r !! source v).

Definition resolve_source_priority (r : ConflictResolver) (c : Conflict) : option Resolution :=
  w ← winner_or_first c (max_by_key (priority_of r) (versions c)); Some (resolution_of c SourcePriority (value w) w).

(** Of every field the value of the first object that has it. *)
Definition merged_fields (versions : list DataVersion) : gmap string J :=
  foldl (fun merged v => match as_object (value v) with Some obj => merged ∪ obj | None => merged end) ∅ versions.

Definition resolve_merge_fields (c : Conflict) : option Resolution :=
  w ← winner_or_first c (max_by_key timestamp_ms (versions c));
  Some (resolution_of c MergeFields (object (merged_fields (versions c))) w).

Definition resolve_keep_conflict (c : Conflict) : option Resolution :=
  w ← head (versions c); Some (resolution_of c KeepConflict (value w) w).

Definition resolve_primary_wins (r : ConflictResolver) (c : Conflict) : option Resolution :=
  w ← winner_or_first c (snd <$> list_find (fun v => source v = primary_source r) (versions c));
  Some (resolution_of c PrimaryWins (value w) w).

Definition resolve_multi_version (c : Conflict) : option Resolution :=
  w ← winner_or_first c (max_by_key version (versions c));
  Some (resolution_of c MultiVersion (array (value <$> versions c)) w).

Definition resolve_custom (r : ConflictResolver) (c : Conflict) : option Resolution :=
  match custom_handler r with
  | Some h => Some (h c)
  | None => w ← head (versions c); Some (resolution_of c CustomStrategy (value w) w)
  end.

(** [resolve]: the resolution, [None] for a panic, and the counts. *)
Definition resolve (r : ConflictResolver) (c : Conflict) : option Resolution * ConflictResolver :=
  match strategy r with
  | LastWriteWins => (resolve_last_write_wins c, count_resolved r)
  | SourcePriority => (resolve_source_priority r c, count_resolved r)
  | MergeFields => (resolve_merge_fields c, count_resolved r)
  | KeepConflict => (resolve_keep_conflict c, count_unresolved r)
  | PrimaryWins => (resolve_primary_wins r c, count_resolved r)
  | MultiVersion => (resolve_multi_version c, count_resolved r)
  | CustomStrategy =>
      (resolve_custom r c, match custom_handler r with Some _ => count_resolved r | None => count_unresolved r end)
  end.

(** ** The log *)

Record LogEntry : Type := mkLogEntry { entry_conflict : Conflict; entry_resolution : option Resolution; logged_at_ms : Z }.

Record ConflictLog : Type := mkLog { log_entries : list LogEntry; max_entries : nat }.

Definition conflict_log_new (max : nat) : ConflictLog := mkLog [] max.
Definition log_push (e : LogEntry) (l : ConflictLog) : ConflictLog :=
  let entries := log_entries l ++ [e] in
  mkLog (if (max_entries l <? length entries)%nat then tail entries else entries) (max_entries l).
Definition log_conflict (now : Z) (c : Conflict) (l : ConflictLog) : ConflictLog := log_push (mkLogEntry c None now) l.
Definition log_resolution (now : Z) (r : Resolution) (l : ConflictLog) : ConflictLog :=
  log_push (mkLogEntry (resolved_conflict r) (Some r) now) l.
Definition unresolved_entries (l : ConflictLog) : list LogEntry :=
  filter (fun e => entry_resolution e = None) (log_entries l).
Definition log_clear (l : ConflictLog) : ConflictLog := mkLog [] (max_entries l).

(** ** Facts *)

Lemma all_same_spec l : all_same l = true <-> forall a b, a ∈ l -> b ∈ l -> a = b.
Proof.
  induction l as [| a l IH]; [split; [intros _ a b H; by apply not_elem_of_nil in H | done] |].
  destruct l as [| b l].
  { split; [| done]. intros _ x y Hx%list_elem_of_singleton Hy%list_elem_of_singleton. congruence. }
  change (all_same (a :: b :: l)) with (bool_decide (a = b) && all_same (b :: l)).
  rewrite andb_true_iff, bool_decide_eq_true, IH. split.
  - intros [-> H] x y Hx Hy. apply H; [apply elem_of_cons in Hx as [-> |] | apply elem_of_cons in Hy as [-> |]]; first [by left | done].
  - intros H. split; [apply H; [by left | by right; left] |]. intros x y Hx Hy. apply H; by right.
Qed.

(** A conflict is reported exactly when two versions have different values. *)
Lemma detect_conflict_spec now key vs : (exists c, detect_conflict now key vs = Some c) <->
  exists v w, v ∈ vs /\ w ∈ vs /\ value v <> value w.
Proof.
  unfold detect_conflict. destruct (Nat.ltb_spec (length vs) 2) as [Hl | Hl].
  { split; [by intros [] |]. intros (v & w & Hv & Hw & Hne). destruct vs as [| a [|]]; [by apply not_elem_of_nil in Hv | | simpl in Hl; lia].
    apply list_elem_of_singleton in Hv as ->, Hw as ->. done. }
  destruct (all_same (value <$> vs)) eqn:E.
  - split; [by intros [] |]. intros (v & w & Hv & Hw & Hne). destruct Hne. apply (all_same_spec (value <$> vs)); [done | |];
      by apply list_elem_of_fmap_2.
  - split; [| by eexists]. intros _.
    destruct (decide (Exists (fun v => Exists (fun w => value v <> value w) vs) vs)) as [H | H].
    { apply Exists_exists in H as (v & Hv & H). apply Exists_exists in H as (w & Hw & H). by exists v, w. }
    exfalso. apply not_true_iff_false in E. apply E, all_same_spec.
    intros x y (v & -> & Hv)%list_elem_of_fmap (w & -> & Hw)%list_elem_of_fmap.
    destruct (decide (value v = value w)); [done |]. exfalso. apply H, Exists_exists. exists v. split; [done |].
    apply Exists_exists. by exists w.
Qed.

Lemma max_by_key_spec f l w : max_by_key f l = Some w ->
  exists a b, l = a ++ w :: b /\ Forall (fun v => f v <= f w) a /\ Forall (fun v => f v < f w) b.
Proof.
  destruct l as [| x l]; [done |]. simpl. intros [= <-].
  assert (forall a x b, Forall (fun v => f v <= f x) a -> Forall (fun v => f v < f x) b -> exists a' b',
    a ++ x :: b ++ l = a' ++ foldl (fun best v => if f best <=? f v then v else best) x l :: b' /\
    Forall (fun v => f v <= f (foldl (fun best v => if f best <=? f v then v else best) x l)) a' /\
    Forall (fun v => f v < f (foldl (fun best v => if f best <=? f v then v else best) x l)) b') as H.
  { clear x. induction l as [| y l IH]; intros a x b Ha Hb; simpl.
    { exists a, b. by rewrite app_nil_r. }
    destruct (Z.leb_spec (f x) (f y)).
    - destruct (IH (a ++ x :: b) y []) as (a' & b' & E & H'); [| by constructor |].
      + apply Forall_app. split; [| constructor; [done |]]; (eapply Forall_impl; [eassumption |]); simpl; intros; lia.
      + exists a', b'. split; [| done]. by rewrite <- E, <- app_assoc.
    - destruct (IH a x (b ++ [y])) as (a' & b' & E & H'); [done | apply Forall_app; split; [done | by repeat constructor] |].
      exists a', b'. split; [| done]. by rewrite <- E, <- app_assoc. }
  by apply (H [] x []).
Qed.

(** The last write wins: of the versions with the greatest time stamp the last. *)
Lemma last_write_wins_spec c r : resolve_last_write_wins c = Some r ->
  exists a w b, versions c = a ++ w :: b /\ resolved_value r = value w /\ winning_source r = source w /\
    Forall (fun v => timestamp_ms v <= timestamp_ms w) a /\ Forall (fun v => timestamp_ms v < timestamp_ms w) b.
Proof.
  unfold resolve_last_write_wins, winner_or_first. destruct (max_by_key timestamp_ms (versions c)) as [w |] eqn:E.
  - apply max_by_key_spec in E as (a & b & Ev & Ha & Hb). destruct (head (versions c)); [| done]. simpl. intros [= <-].
    by exists a, w, b.
  - by destruct (versions c).
Qed.

Lemma merged_fields_first vs k :
  merged_fields vs !! k = head (omap (fun v => obj ← as_object (value v); obj !! k) vs).
Proof.
  unfold merged_fields.
  assert (forall m, foldl (fun merged v => match as_object (value v) with Some obj => merged ∪ obj | None => merged end) m vs !! k =
    match m !! k with Some x => Some x | None => head (omap (fun v => obj ← as_object (value v); obj !! k) vs) end) as H.
  { induction vs as [| v vs IH]; intros m; simpl; [by destruct (m !! k) |]. rewrite IH.
    destruct (as_object (value v)) as [obj |]; simpl; [| done]. rewrite lookup_union.
    destruct (m !! k), (obj !! k); done. }
  by rewrite H, lookup_empty.
Qed.

(** Values that are not objects are lost: their merge is the empty object. *)
Lemma merge_loses_scalars c r : (forall v, v ∈ versions c -> as_object (value v) = None) ->
  resolve_merge_fields c = Some r -> resolved_value r = object ∅.
Proof.
  intros H. unfold resolve_merge_fields. destruct (winner_or_first _ _) as [w |]; [| done]. simpl. intros [= <-]. simpl. f_equal.
  apply map_eq. intros k. rewrite merged_fields_first, lookup_empty. destruct (head _) eqn:E; [| done]. exfalso.
  apply head_Some_elem_of, list_elem_of_omap in E as (v & Hv & E). by rewrite H in E.
Qed.

(** Every strategy that does not combine values answers the value of one of the versions, with its
    source. *)
Lemma resolve_picks s r c x : strategy r = s -> s <> MergeFields -> s <> MultiVersion -> custom_handler r = None ->
  fst (resolve r c) = Some x -> exists w, w ∈ versions c /\ resolved_value x = value w /\ winning_source x = source w.
Proof.
  intros Hs H1 H2 Hh. unfold resolve. rewrite Hs.
  assert (forall w, head (versions c) = Some w -> w ∈ versions c) as Hhd by (intros; by apply head_Some_elem_of).
  assert (forall f w, winner_or_first c (max_by_key f (versions c)) = Some w -> w ∈ versions c) as Hm.
  { intros f w. unfold winner_or_first. destruct (head (versions c)) as [h |] eqn:E; [| done]. simpl. intros [= <-].
    destruct (max_by_key f (versions c)) as [w |] eqn:Em; [| by apply Hhd]. simpl.
    apply max_by_key_spec in Em as (a & b & -> & _). apply elem_of_app. right. by left. }
  destruct s; try done; simpl.
  - unfold resolve_last_write_wins. destruct (winner_or_first _ _) as [w |] eqn:E; [| done]. intros [= <-]. exists w. split; [by eapply Hm | done].
  - unfold resolve_source_priority. destruct (winner_or_first _ _) as [w |] eqn:E; [| done]. intros [= <-]. exists w. split; [by eapply Hm | done].
  - unfold resolve_keep_conflict. destruct (head _) as [w |] eqn:E; [| done]. intros [= <-]. exists w. by split; [apply Hhd |].
  - unfold resolve_primary_wins. destruct (winner_or_first _ _) as [w |] eqn:E; [| done]. intros [= <-]. exists w. split; [| done].
    unfold winner_or_first in E. destruct (head (versions c)) as [h |] eqn:Eh; [| done]. simpl in E. injection E as <-.
    destruct (list_find _ _) as [[i w] |] eqn:El; simpl; [| by apply Hhd]. apply list_find_Some in El as (El & _). by eapply list_elem_of_lookup_2.
  - unfold resolve_custom. rewrite Hh. destruct (head _) as [w |] eqn:E; [| done]. intros [= <-]. exists w. by split; [apply Hhd |].
Qed.

(** The log keeps the newest entries. *)
Lemma log_push_spec es l : (length (log_entries l) <= max_entries l)%nat ->
  log_entries (foldl (fun l e => log_push e l) l es) =
    drop (length (log_entries l ++ es) - max_entries l) (log_entries l ++ es).
Proof.
  revert l. induction es as [| e es IH]; intros l Hl; simpl.
  { rewrite app_nil_r. by replace (length (log_entries l) - max_entries l)%nat with O by lia. }
  assert (max_entries (log_push e l) = max_entries l) as Em by done.
  assert (length (log_entries (log_push e l)) <= max_entries l)%nat as Hl'.
  { unfold log_push. cbn [log_entries]. destruct (Nat.ltb_spec (max_entries l) (length (log_entries l ++ [e]))) as [H | H]; [| done].
    destruct (log_entries l); simpl in *; rewrite ?length_app in *; simpl in *; lia. }
  rewrite IH by done. rewrite Em. unfold log_push. cbn [log_entries].
  replace (log_entries l ++ e :: es) with ((log_entries l ++ [e]) ++ es) by (by rewrite <- app_assoc).
  destruct (Nat.ltb_spec (max_entries l) (length (log_entries l ++ [e]))) as [H | H]; [| done].
  destruct (log_entries l ++ [e]) as [| x rest] eqn:E; [by destruct (log_entries l) |]. simpl tail.
  assert (length rest = max_entries l)%nat as Hr by (apply (f_equal length) in E; rewrite length_app in E; simpl in *; lia).
  rewrite !length_app. simpl length. rewrite Hr.
  replace (max_entries l + length es - max_entries l)%nat with (length es) by lia.
  by replace (S (max_entries l) + length es - max_entries l)%nat with (S (length es)) by lia.
Qed.
End Resolver.
