(* ===== verification/Rebalancer.v ===== *)
(** The rebalancer of [sz-orm-sharding/src/rebalancer]: plans of migrations, their execution with
    checkpoints, pauses from other threads and resumption. *)

From Stdlib Require Import Ascii String.
From S2P Require Import Prelude Sharding.
Local Open Scope string_scope.
Local Open Scope Z_scope.

(** * Plans *)

Record ShardMigration : Type := mkMigration {
  source_shard : string;
  target_shard : string;
  row_count : Z;
  migration_time : Z;
}.

Record RebalancePlan : Type := mkPlan {
  migrations : list ShardMigration;
  total_rows : Z;
  plan_time : Z;
  plan_strategy : Router.ShardingStrategy;
}.

Inductive RebalanceError : Type :=
| NodeFailed (shard : string)
| ConsistencyFailed
| CheckpointFailed (reason : string)
| InvalidPlan (reason : string)
| TaskNotFound (task_id : string).

Definition rebalance_error_str (e : RebalanceError) : string :=
  match e with
  | NodeFailed shard => "node failed: " +:+ shard
  | ConsistencyFailed => "consistency check failed"
  | CheckpointFailed reason => "checkpoint failed: " +:+ reason
  | InvalidPlan reason => "invalid plan: " +:+ reason
  | TaskNotFound id => "task not found: " +:+ id
  end.

(** Seconds. *)
Definition estimate_time (total_rows rows_per_second : Z) : Z :=
  if rows_per_second =? 0 then 0 else total_rows / rows_per_second.

(** [iter().sum()] of u64 values in a release build. *)
Definition sum_rows (rows : list Z) : Z := foldl (fun a b => wrap64 (a + b)) 0 rows.

Definition rows_of (counts : gmap string Z) (shard : string) : Z := default 0 (counts !! shard).

(** A migration of [rows] rows, unless there are none to move. *)
Definition migrate (src tgt : string) (rows rps : Z) : list ShardMigration :=
  if 0 <? rows then [mkMigration src tgt rows (estimate_time rows rps)] else [].

Definition plan_migration (current target : list string) (strategy : Router.ShardingStrategy)
    (counts : gmap string Z) (rps : Z) : RebalancePlan :=
  let removed := filter (fun s => s ∉ target) current in
  let added := filter (fun s => s ∉ current) target in
  let migrations :=
    if negb (is_nil removed) && negb (is_nil added) then
      src ← removed; tgt ← added; migrate src tgt (rows_of counts src / Z.of_nat (length added)) rps
    else if negb (is_nil removed) then
      (* no iteration where [target] is empty *)
      src ← removed; tgt ← target; migrate src tgt (rows_of counts src / Z.of_nat (length target)) rps
    else if negb (is_nil added) && negb (is_nil current) then
      let rows_to_move := sum_rows (rows_of counts <$> current) / Z.of_nat (length target) in
      src ← current; tgt ← added; migrate src tgt (rows_to_move / Z.of_nat (length added)) rps
    else [] in
  let total := sum_rows (row_count <$> migrations) in
  mkPlan migrations total (estimate_time total rps) strategy.

(** * Checkpoints *)

Record Checkpoint : Type := mkCheckpoint {
  checkpoint_task : string;
  migrated_rows : Z;
  last_source_shard : string;
  last_target_shard : string;
  completed_migrations : list string;
}.

(** The trait [CheckpointStore]; a store may keep its state behind a shared reference. *)
Class CheckpointStore (S : Type) := {
  save : Checkpoint -> S -> result unit string * S;
  load : string -> S -> option Checkpoint;
  delete_checkpoint : string -> S -> result unit string * S;
}.

(** What the rebalancer needs of a store that works. *)
Class StoreLaws (S : Type) `{CheckpointStore S} := {
  save_ok c s : exists s', save c s = (Ok tt, s') /\
    forall id, load id s' = if decide (id = checkpoint_task c) then Some c else load id s;
  delete_ok id s : exists s', delete_checkpoint id s = (Ok tt, s') /\
    forall id', load id' s' = if decide (id' = id) then None else load id' s;
}.

Record MemoryCheckpointStore : Type := mkMemoryStore { checkpoints : gmap string Checkpoint }.

Definition memory_store_new : MemoryCheckpointStore := mkMemoryStore ∅.
Definition memory_save (c : Checkpoint) (s : MemoryCheckpointStore) : result unit string * MemoryCheckpointStore :=
  (Ok tt, mkMemoryStore (<[checkpoint_task c := c]> (checkpoints s))).
Definition memory_load (id : string) (s : MemoryCheckpointStore) : option Checkpoint := checkpoints s !! id.
Definition memory_delete (id : string) (s : MemoryCheckpointStore) : result unit string * MemoryCheckpointStore :=
  (Ok tt, mkMemoryStore (delete id (checkpoints s))).

#[export] Instance memory_checkpoint_store : CheckpointStore MemoryCheckpointStore :=
  {| save := memory_save; load := memory_load; delete_checkpoint := memory_delete |}.

#[export] Instance memory_store_laws : StoreLaws MemoryCheckpointStore.
Proof.
  split.
  - intros c [m]. eexists. split; [reflexivity |]. intros id. cbn. unfold memory_load. cbn.
    case_decide; [subst; apply lookup_insert_eq | by apply lookup_insert_ne].
  - intros id [m]. eexists. split; [reflexivity |]. intros id'. cbn. unfold memory_load. cbn.
    case_decide; [subst; apply lookup_delete_eq | by apply lookup_delete_ne].
Qed.

(** * Execution *)

Inductive TaskState : Type := Running | Paused | Completed | Failed.

#[export] Instance task_state_eq_dec : EqDecision TaskState.
Proof. solve_decision. Defined.

(** The percentage, a function of the two counts in floating point, is left out. *)
Record RebalanceProgress : Type := mkProgress {
  done_rows : Z;
  remaining_rows : Z;
  eta : Z;
  is_paused : bool;
}.

Record MigrationTask : Type := mkTask { task_plan : RebalancePlan; task_progress : RebalanceProgress; task_state_of : TaskState }.

(** The times of a report and a task, read from the clock, are left out. *)
Record RebalanceReport : Type := mkReport {
  total_migrated : Z;
  consistency_passed : bool;
  new_shards : gset string;
}.

(** [saturating_add] and [saturating_sub] of u64 *)
Definition saturating_add64 (a b : Z) : Z := Z.min (a + b) (2 ^ 64 - 1).
Definition saturating_sub64 (a b : Z) : Z := Z.max (a - b) 0.

Section Rebalancer.
Context {S : Type} `{!CheckpointStore S}.

Record ShardRebalancer : Type := mkRebalancer {
  checkpoint_store : S;
  tasks : gmap string MigrationTask;
  rows_per_second : Z;
}.

Definition rebalancer_new (s : S) : ShardRebalancer := mkRebalancer s ∅ 1000.
Definition with_speed (rps : Z) (r : ShardRebalancer) : ShardRebalancer := mkRebalancer (checkpoint_store r) (tasks r) rps.
Definition with_store (s : S) (r : ShardRebalancer) : ShardRebalancer := mkRebalancer s (tasks r) (rows_per_second r).
Definition with_tasks (t : gmap string MigrationTask) (r : ShardRebalancer) : ShardRebalancer :=
  mkRebalancer (checkpoint_store r) t (rows_per_second r).

Definition progress (id : string) (r : ShardRebalancer) : option RebalanceProgress := task_progress <$> tasks r !! id.
Definition task_state (id : string) (r : ShardRebalancer) : option TaskState := task_state_of <$> tasks r !! id.

Definition set_paused (b : bool) (p : RebalanceProgress) : RebalanceProgress :=
  mkProgress (done_rows p) (remaining_rows p) (eta p) b.

Definition pause (id : string) (r : ShardRebalancer) : result unit RebalanceError * ShardRebalancer :=
  match tasks r !! id with
  | None => (Err (TaskNotFound id), r)
  | Some t => (Ok tt, with_tasks (<[id := mkTask (task_plan t) (set_paused true (task_progress t)) Paused]> (tasks r)) r)
  end.

Definition migration_key (m : ShardMigration) : string := source_shard m +:+ "->" +:+ target_shard m.

(** [tasks.get_mut(id)] and the two places that store a progress *)
Definition set_progress (id : string) (p : RebalanceProgress) (r : ShardRebalancer) : ShardRebalancer :=
  with_tasks (alter (fun t => mkTask (task_plan t) p (task_state_of t)) id (tasks r)) r.
Definition set_completed (id : string) (p : RebalanceProgress) (r : ShardRebalancer) : ShardRebalancer :=
  with_tasks (alter (fun t => mkTask (task_plan t) p Completed) id (tasks r)) r.

(** The loop over the migrations: the rows migrated, beside them the migrations this execution did.
    [pauses k] says that another thread calls [pause] before the [k]th look at the state. *)
Fixpoint run_migrations (id : string) (plan : RebalancePlan) (pauses : nat -> bool) (k : nat)
    (ms : list ShardMigration) (migrated : Z) (completed : list string) (r : ShardRebalancer)
    : result Z RebalanceError * list ShardMigration * ShardRebalancer :=
  match ms with
  | [] => (Ok migrated, [], r)
  | m :: ms =>
      if bool_decide (migration_key m ∈ completed) then run_migrations id plan pauses k ms migrated completed r
      else
        let r := if pauses k then (pause id r).2 else r in
        if bool_decide (task_state id r = Some Paused) then
          let '(saved, s) := save (mkCheckpoint id migrated (source_shard m) (target_shard m) completed) (checkpoint_store r) in
          match saved with
          | Err e => (Err (CheckpointFailed e), [], with_store s r)
          | Ok _ => (Err (TaskNotFound (id +:+ " paused")), [], with_store s r)
          end
        else
          let migrated := saturating_add64 migrated (row_count m) in
          let completed := (completed ++ [migration_key m])%list in
          let '(saved, s) := save (mkCheckpoint id migrated (source_shard m) (target_shard m) completed) (checkpoint_store r) in
          let r := with_store s r in
          match saved with
          | Err e => (Err (CheckpointFailed e), [m], r)
          | Ok _ =>
              let r := set_progress id (mkProgress migrated (saturating_sub64 (total_rows plan) migrated) (plan_time plan) false) r in
              let '(res, ran, r) := run_migrations id plan pauses (Datatypes.S k) ms migrated completed r in
              (res, m :: ran, r)
          end
  end.

Definition execute (id : string) (plan : RebalancePlan) (pauses : nat -> bool) (r : ShardRebalancer)
    : result RebalanceReport RebalanceError * list ShardMigration * ShardRebalancer :=
  if is_nil (migrations plan) then (Ok (mkReport 0 true ∅), [], r)
  else
    let '(migrated, completed) :=
      match load id (checkpoint_store r) with
      | Some c => (migrated_rows c, completed_migrations c)
      | None => (0, [])
      end in
    let task := mkTask plan (mkProgress migrated (saturating_sub64 (total_rows plan) migrated) (plan_time plan) false) Running in
    let r := with_tasks (<[id := task]> (tasks r)) r in
    let '(res, ran, r) := run_migrations id plan pauses 0 (migrations plan) migrated completed r in
    match res with
    | Err e => (Err e, ran, r)
    | Ok migrated =>
        let r := set_completed id (mkProgress (total_rows plan) 0 0 false) r in
        let new_shards := list_to_set (target_shard <$> migrations plan) in
        let '(deleted, s) := delete_checkpoint id (checkpoint_store r) in
        let r := with_store s r in
        match deleted with
        | Err e => (Err (CheckpointFailed e), ran, r)
        | Ok _ => (Ok (mkReport migrated true new_shards), ran, r)
        end
    end.

Definition resume (id : string) (pauses : nat -> bool) (r : ShardRebalancer)
    : result RebalanceReport RebalanceError * list ShardMigration * ShardRebalancer :=
  match tasks r !! id with
  | None => (Err (TaskNotFound id), [], r)
  | Some t =>
      let r := with_tasks (<[id := mkTask (task_plan t) (set_paused false (task_progress t)) Running]> (tasks r)) r in
      execute id (task_plan t) pauses r
  end.
End Rebalancer.

Arguments ShardRebalancer S : clear implicits.

Local Open Scope list_scope.

(** * Facts *)

Section Facts.
Context {S : Type} `{!CheckpointStore S} `{!StoreLaws S}.

Definition keys_of (ms : list ShardMigration) : list string := migration_key <$> ms.
Definition rows_done (ms : list ShardMigration) : Z := foldl saturating_add64 0 (row_count <$> ms).

(** Migrations a checkpoint lists are not done again. *)
Lemma run_skips id plan pauses k ds ms migrated completed (r : ShardRebalancer S) :
  (forall m, m ∈ ds -> migration_key m ∈ completed) ->
  run_migrations id plan pauses k (ds ++ ms) migrated completed r = run_migrations id plan pauses k ms migrated completed r.
Proof.
  induction ds as [| m ds IH]; intros H; [done |]. simpl. rewrite bool_decide_true by (apply H; by left).
  apply IH. intros m' Hm'. apply H. by right.
Qed.

Lemma rows_done_app ds m : rows_done (ds ++ [m]) = saturating_add64 (rows_done ds) (row_count m).
Proof. unfold rows_done. by rewrite fmap_app, foldl_app. Qed.

(** What a run of the loop leaves, from [ds] done: it did a first part of [ms], and either all of it,
    or its checkpoint says what is done. *)
Definition ran_to (id : string) (plan : RebalancePlan) (ds ms : list ShardMigration) (r : ShardRebalancer S)
    (out : result Z RebalanceError * list ShardMigration * ShardRebalancer S) : Prop :=
  let '(res, ran, r') := out in
  (exists rest, ms = ran ++ rest /\
    match res with
    | Ok n => rest = [] /\ n = rows_done (ds ++ ran)
    | Err _ => exists c, load id (checkpoint_store r') = Some c /\
        migrated_rows c = rows_done (ds ++ ran) /\ completed_migrations c = keys_of (ds ++ ran)
    end) /\
  (forall id', id' <> id -> load id' (checkpoint_store r') = load id' (checkpoint_store r)) /\
  (exists t, tasks r' !! id = Some t /\ task_plan t = plan).

Lemma run_migrations_spec id plan pauses ms : forall k ds (r : ShardRebalancer S) t,
  NoDup (keys_of (ds ++ ms)) -> tasks r !! id = Some t -> task_plan t = plan -> task_state_of t = Running ->
  ran_to id plan ds ms r (run_migrations id plan pauses k ms (rows_done ds) (keys_of ds) r) /\
  ((forall k, pauses k = false) -> is_ok (run_migrations id plan pauses k ms (rows_done ds) (keys_of ds) r).1.1 = true).
Proof.
  induction ms as [| m ms IH]; intros k ds r t Hd Ht Hp Hs.
  { simpl. split; [| done]. split_and!; [| done | by exists t]. exists []. by rewrite app_nil_r. }
  assert (migration_key m ∉ keys_of ds) as Hm.
  { unfold keys_of in *. rewrite fmap_app in Hd. apply NoDup_app in Hd as (_ & H & _). intros Hin. apply (H _ Hin). by left. }
  simpl. rewrite bool_decide_false by done. destruct (pauses k) eqn:Ek.
  - unfold pause. rewrite Ht. cbn [snd]. unfold task_state. cbn [tasks with_tasks]. rewrite lookup_insert_eq. simpl.
    destruct (save_ok (mkCheckpoint id (rows_done ds) (source_shard m) (target_shard m) (keys_of ds)) (checkpoint_store r)) as (s' & -> & Hl).
    split; [| intros H; by rewrite H in Ek]. split_and!.
    + exists (m :: ms). split; [done |]. rewrite app_nil_r. eexists. cbn [checkpoint_store with_store]. rewrite Hl, decide_True by done. done.
    + intros id' Hne. cbn [checkpoint_store with_store]. by rewrite Hl, decide_False.
    + eexists. cbn [tasks with_store with_tasks]. rewrite lookup_insert_eq. by split.
  - unfold task_state. rewrite Ht. simpl. rewrite Hs, bool_decide_false by done.
    destruct (save_ok (mkCheckpoint id (saturating_add64 (rows_done ds) (row_count m)) (source_shard m) (target_shard m)
      (keys_of ds ++ [migration_key m])%list) (checkpoint_store r)) as (s' & -> & Hl).
    set (p := mkProgress _ _ _ _).
    specialize (IH (Datatypes.S k) (ds ++ [m])%list (set_progress id p (with_store s' r)) (mkTask (task_plan t) p (task_state_of t))).
    assert (keys_of (ds ++ [m]) = (keys_of ds ++ [migration_key m])%list) as Ek' by (unfold keys_of; by rewrite fmap_app).
    rewrite rows_done_app, Ek' in IH.
    destruct IH as [IH IHok]; [by rewrite <- app_assoc | cbn [tasks set_progress with_tasks with_store]; by rewrite lookup_alter_eq, Ht | done | done |].
    destruct (run_migrations _ _ _ _ _ _ _ _) as [[res ran] r'].
    destruct IH as ((rest & E & Hr) & Ho & Ht'). split; [| exact IHok]. split_and!; [| | exact Ht'].
    + exists rest. rewrite E. split; [done |]. by rewrite <- app_assoc in Hr.
    + intros id' Hne. rewrite Ho by done. cbn [checkpoint_store set_progress with_tasks with_store]. by rewrite Hl, decide_False.
Qed.

(** A checkpoint says that [ds] is done, or there is none and nothing is. *)
Definition checkpoint_at (id : string) (ds : list ShardMigration) (s : S) : Prop :=
  match load id s with
  | Some c => migrated_rows c = rows_done ds /\ completed_migrations c = keys_of ds
  | None => ds = []
  end.

Definition finished (id : string) (plan : RebalancePlan) (r : ShardRebalancer S) : Prop :=
  load id (checkpoint_store r) = None /\ tasks r !! id = Some (mkTask plan (mkProgress (total_rows plan) 0 0 false) Completed).

Lemma execute_spec id plan pauses ds ms (r : ShardRebalancer S) :
  migrations plan = ds ++ ms -> migrations plan <> [] -> NoDup (keys_of (migrations plan)) -> checkpoint_at id ds (checkpoint_store r) ->
  let '(res, ran, r') := execute id plan pauses r in
  (exists rest, ms = ran ++ rest /\
    match res with
    | Ok rep => rest = [] /\ rep = mkReport (rows_done (migrations plan)) true (list_to_set (target_shard <$> migrations plan)) /\ finished id plan r'
    | Err _ => checkpoint_at id (ds ++ ran) (checkpoint_store r') /\ exists t, tasks r' !! id = Some t /\ task_plan t = plan
    end) /\
  (forall id', id' <> id -> load id' (checkpoint_store r') = load id' (checkpoint_store r)) /\
  ((forall k, pauses k = false) -> is_ok res = true).
Proof.
  intros E Hne Hd Hc. unfold execute. destruct (migrations plan) as [| m0 ms0] eqn:Em; [done |]. cbn [is_nil]. rewrite <- Em in *. clear Hne.
  assert (match load id (checkpoint_store r) with Some c => (migrated_rows c, completed_migrations c) | None => (0, []) end
    = (rows_done ds, keys_of ds)) as ->.
  { unfold checkpoint_at in Hc. destruct (load id _) as [c |]; [by destruct Hc as [-> ->] | by subst]. }
  set (t := mkTask plan _ Running). rewrite E, run_skips by (intros m Hm; by apply list_elem_of_fmap_2).
  rewrite E in Hd.
  destruct (run_migrations_spec id plan pauses ms 0 ds (with_tasks (<[id := t]> (tasks r)) r) t) as [Hr Hok];
    [done | apply lookup_insert_eq | done | done |].
  destruct (run_migrations _ _ _ _ _ _ _ _) as [[res ran] r1]. destruct Hr as ((rest & Ems & Hres) & Ho & t' & Ht' & Hp).
  destruct res as [n | e].
  - destruct Hres as [-> ->]. rewrite app_nil_r in Ems. subst ran. unfold set_completed. cbn [checkpoint_store with_tasks].
    destruct (delete_ok id (checkpoint_store r1)) as (s' & -> & Hl). split_and!; [| | done].
    + exists []. rewrite app_nil_r. split_and!; [done | done | done |]. split; cbn [checkpoint_store with_store tasks].
      * by rewrite Hl, decide_True.
      * cbn [with_tasks tasks]. rewrite lookup_alter_eq, Ht'. simpl. by rewrite Hp.
    + intros id' Hne. cbn [checkpoint_store with_store]. rewrite Hl, decide_False by done. by rewrite Ho.
  - split_and!; [| done | by intros H; apply Hok in H]. exists rest. split_and!; [done | | by exists t'].
    destruct Hres as (c & Hl & H1 & H2). unfold checkpoint_at. by rewrite Hl.
Qed.

(** A run that is resumed after every pause, once for each of [patterns], and then not paused. *)
Fixpoint resume_all (id : string) (patterns : list (nat -> bool)) (r : ShardRebalancer S)
    : result RebalanceReport RebalanceError * list ShardMigration * ShardRebalancer S :=
  match patterns with
  | [] => resume id (fun _ => false) r
  | p :: patterns =>
      let '(res, ran, r) := resume id p r in
      match res with
      | Ok rep => (Ok rep, ran, r)
      | Err _ => let '(res, ran', r) := resume_all id patterns r in (res, ran ++ ran', r)
      end
  end.

Definition execute_resumed (id : string) (plan : RebalancePlan) (pattern : nat -> bool) (patterns : list (nat -> bool))
    (r : ShardRebalancer S) : result RebalanceReport RebalanceError * list ShardMigration * ShardRebalancer S :=
  let '(res, ran, r) := execute id plan pattern r in
  match res with
  | Ok rep => (Ok rep, ran, r)
  | Err _ => let '(res, ran', r) := resume_all id patterns r in (res, ran ++ ran', r)
  end.

Lemma resume_spec id plan pauses ds ms (r : ShardRebalancer S) t :
  tasks r !! id = Some t -> task_plan t = plan ->
  migrations plan = ds ++ ms -> migrations plan <> [] -> NoDup (keys_of (migrations plan)) -> checkpoint_at id ds (checkpoint_store r) ->
  let '(res, ran, r') := resume id pauses r in
  (exists rest, ms = ran ++ rest /\
    match res with
    | Ok rep => rest = [] /\ rep = mkReport (rows_done (migrations plan)) true (list_to_set (target_shard <$> migrations plan)) /\ finished id plan r'
    | Err _ => checkpoint_at id (ds ++ ran) (checkpoint_store r') /\ exists t, tasks r' !! id = Some t /\ task_plan t = plan
    end) /\
  (forall id', id' <> id -> load id' (checkpoint_store r') = load id' (checkpoint_store r)) /\
  ((forall k, pauses k = false) -> is_ok res = true).
Proof.
  intros Ht <- E Hne Hd Hc. unfold resume. rewrite Ht.
  exact (execute_spec id (task_plan t) pauses ds ms
    (with_tasks (<[id := mkTask (task_plan t) (set_paused false (task_progress t)) Running]> (tasks r)) r) E Hne Hd Hc).
Qed.

Lemma resume_all_spec id plan patterns : forall ds ms (r : ShardRebalancer S) t,
  tasks r !! id = Some t -> task_plan t = plan ->
  migrations plan = ds ++ ms -> migrations plan <> [] -> NoDup (keys_of (migrations plan)) -> checkpoint_at id ds (checkpoint_store r) ->
  exists r', resume_all id patterns r =
    (Ok (mkReport (rows_done (migrations plan)) true (list_to_set (target_shard <$> migrations plan))), ms, r') /\
    finished id plan r' /\ (forall id', id' <> id -> load id' (checkpoint_store r') = load id' (checkpoint_store r)).
Proof.
  induction patterns as [| p patterns IH]; intros ds ms r t Ht Hp E Hne Hd Hc; simpl.
  - pose proof (resume_spec id plan (fun _ => false) ds ms r t Ht Hp E Hne Hd Hc) as H.
    destruct (resume id _ r) as [[res ran] r']. destruct H as ((rest & -> & Hr) & Ho & Hok).
    destruct res as [rep | e]; [| by specialize (Hok ltac:(done))]. destruct Hr as (-> & -> & Hf). exists r'.
    by rewrite app_nil_r.
  - pose proof (resume_spec id plan p ds ms r t Ht Hp E Hne Hd Hc) as H.
    destruct (resume id p r) as [[res ran] r1]. destruct H as ((rest & -> & Hr) & Ho & _). destruct res as [rep | e].
    + destruct Hr as (-> & -> & Hf). exists r1. by rewrite app_nil_r.
    + destruct Hr as (Hc1 & t1 & Ht1 & Hp1).
      destruct (IH (ds ++ ran) rest r1 t1) as (r' & -> & Hf & Ho'); [done | done | by rewrite <- app_assoc | done | done | done |].
      exists r'. split_and!; [done | done |]. intros id' Hn. by rewrite Ho', Ho.
Qed.

(** C14. Resumption. Over any store that works, a plan with different pairs of shards that is executed
    and paused by other threads at any moments, and resumed after each pause, does every migration of
    the plan exactly once and in order, whatever the pauses; the report has all the rows, the task is
    completed, its checkpoint is gone, and the checkpoints of other tasks are as they were. *)
Theorem paused_runs_complete (id : string) (plan : RebalancePlan) (pattern : nat -> bool) (patterns : list (nat -> bool))
    (r : ShardRebalancer S) :
  migrations plan <> [] -> NoDup (migration_key <$> migrations plan) -> load id (checkpoint_store r) = None ->
  exists r', execute_resumed id plan pattern patterns r =
    (Ok (mkReport (foldl saturating_add64 0 (row_count <$> migrations plan)) true (list_to_set (target_shard <$> migrations plan))),
     migrations plan, r') /\
    load id (checkpoint_store r') = None /\
    tasks r' !! id = Some (mkTask plan (mkProgress (total_rows plan) 0 0 false) Completed) /\
    (forall id', id' <> id -> load id' (checkpoint_store r') = load id' (checkpoint_store r)).
Proof.
  intros Hne Hd Hl. unfold execute_resumed.
  pose proof (execute_spec id plan pattern [] (migrations plan) r eq_refl Hne Hd ltac:(by unfold checkpoint_at; rewrite Hl)) as H.
  destruct (execute id plan pattern r) as [[res ran] r1]. destruct H as ((rest & E & Hr) & Ho & _). destruct res as [rep | e].
  - destruct Hr as (-> & -> & Hf1 & Hf2). rewrite app_nil_r in E. exists r1. split_and!; [by rewrite E | done..].
  - destruct Hr as (Hc1 & t1 & Ht1 & Hp1).
    destruct (resume_all_spec id plan patterns ran rest r1 t1) as (r' & -> & [Hf1 Hf2] & Ho'); [done.. |].
    exists r'. split_and!; [by rewrite <- E | done | done |]. intros id' Hn. by rewrite Ho', Ho.
Qed.

(** A task that is not known can neither be paused nor resumed. *)
Lemma execute_not_found id pauses (r : ShardRebalancer S) : tasks r !! id = None ->
  resume id pauses r = (Err (TaskNotFound id), [], r) /\ pause id r = (Err (TaskNotFound id), r).
Proof. intros H. unfold resume, pause. by rewrite H. Qed.
End Facts.

Definition example_plan : RebalancePlan :=
  plan_migration ["a"; "b"] ["a"; "c"] Router.SHash (<["b" := 10]> ∅) 5.

Lemma paused_runs_complete_witness :
  exists r', execute_resumed "t" example_plan (fun _ => true) [fun _ => true] (rebalancer_new memory_store_new) =
    (Ok (mkReport 10 true {["c"]}), [mkMigration "b" "c" 10 2], r').
Proof.
  destruct (paused_runs_complete "t" example_plan (fun _ => true) [fun _ => true] (rebalancer_new memory_store_new)) as (r' & H & _).
  - vm_compute. discriminate.
  - apply (bool_decide_unpack _). vm_compute. exact I.
  - reflexivity.
  - exists r'. rewrite H. vm_compute. reflexivity.
Defined.

(** ** Plans *)

Definition moved_from (s : string) (ms : list ShardMigration) : Z :=
  foldr Z.add 0 (row_count <$> filter (fun m => source_shard m = s) ms).

Lemma moved_from_app s ms ms' : moved_from s (ms ++ ms') = moved_from s ms + moved_from s ms'.
Proof.
  unfold moved_from. rewrite filter_app, fmap_app, foldr_app.
  generalize (row_count <$> filter (fun m => source_shard m = s) ms) as l. induction l; simpl; lia.
Qed.

Lemma moved_to_targets s s' tgts rows rps : 0 <= rows ->
  moved_from s (tgt ← tgts; migrate s' tgt rows rps) = if decide (s' = s) then Z.of_nat (length tgts) * rows else 0.
Proof.
  intros Hr. induction tgts as [| t tgts IH]; cbn [mbind list_bind length]; [by case_decide |].
  rewrite moved_from_app, IH. unfold migrate, moved_from.
  destruct (Z.ltb_spec 0 rows); [rewrite filter_cons; cbn [source_shard] |]; repeat case_decide; cbn; try done; lia.
Qed.

(** From every shard that leaves, a plan moves its rows up to the remainder of their division among
    the new shards (or among all that stay, when none is new), and nothing from shards that stay. *)
Lemma plan_removed_rows current target strategy counts rps s (Hc : NoDup current) :
  (forall s n, counts !! s = Some n -> 0 <= n) -> filter (fun s => s ∉ target) current <> [] -> target <> [] ->
  let added := filter (fun s => s ∉ current) target in
  let n := Z.of_nat (if is_nil added then length target else length added) in
  moved_from s (migrations (plan_migration current target strategy counts rps)) =
  if decide (s ∈ current /\ s ∉ target) then n * (rows_of counts s / n) else 0.
Proof.
  intros Hp Hr Ht added n. unfold plan_migration. fold added. cbn [migrations].
  set (removed := filter (fun s => s ∉ target) current) in *.
  assert (negb (is_nil removed) = true) as -> by by destruct removed. cbn [andb].
  assert (NoDup removed) as Hd by by apply NoDup_filter.
  assert (forall s, 0 <= rows_of counts s) as Hpos.
  { intros x. unfold rows_of. destruct (counts !! x) eqn:E; simpl; [by eapply Hp | lia]. }
  assert (forall tgts, tgts <> [] -> moved_from s (src ← removed; tgt ← tgts; migrate src tgt (rows_of counts src / Z.of_nat (length tgts)) rps)
    = if decide (s ∈ removed) then Z.of_nat (length tgts) * (rows_of counts s / Z.of_nat (length tgts)) else 0) as H.
  { intros tgts Hn. assert (0 < Z.of_nat (length tgts)) by (destruct tgts; [done | simpl; lia]).
    clear Hr. induction removed as [| x l IH]; [done |]. apply NoDup_cons in Hd as [Hx Hd]. cbn [mbind list_bind].
    rewrite moved_from_app, moved_to_targets by (apply Z.div_pos; [apply Hpos | lia]). rewrite IH by done.
    repeat case_decide; subst; set_solver by lia. }
  assert (s ∈ removed <-> s ∈ current /\ s ∉ target) as Hin by (unfold removed; rewrite list_elem_of_filter; tauto).
  unfold n. destruct (is_nil added) eqn:Ea; cbn [negb]; rewrite H; try (by destruct added);
    repeat case_decide; try done; tauto.
Qed.

(** A shard that is added gets the same share from every shard there is, whatever it has: more rows
    leave than the share of the new shard, and more than some shards hold. *)
Lemma expansion_overmoves :
  let plan := plan_migration ["a"; "b"] ["a"; "b"; "c"] Router.SHash (<["a" := 10]> (<["b" := 80]> ∅)) 1000 in
  row_count <$> migrations plan = [30; 30] /\ rows_of (<["a" := 10]> (<["b" := 80]> ∅)) "a" = 10 /\ total_rows plan = 60.
Proof. vm_compute. done. Qed.

(** Two migrations between the same shards: the second is skipped, and its rows with it, although the
    progress says that all are done. *)
Lemma same_pair_skipped :
  let plan := mkPlan [mkMigration "a" "b" 1 0; mkMigration "a" "b" 2 0] 3 0 Router.SHash in
  let '(res, ran, r) := execute "t" plan (fun _ => false) (rebalancer_new memory_store_new) in
  res = Ok (mkReport 1 true {["b"]}) /\ progress "t" r = Some (mkProgress 3 0 0 false).
Proof. vm_compute. done. Qed.
