(* ===== verification/Concurrency.v ===== *)
(** The concurrency limiter of [sz-orm-limit/src/concurrency.rs]: counters of the slots in use, by
    key and in all, shared by threads that acquire, release and reset. *)

From Stdlib Require Import Ascii String.
From S2P Require Import Prelude RateLimit.
Local Open Scope Z_scope.

Record ConcurrencyLimiter : Type := mkLimiter {
  max_concurrent : Z;
  counters : gmap string Z;
  global_limit : Z;
  global_current : Z;
  max_keys : nat;
  total_acquires : Z;
  total_releases : Z;
  total_rejections : Z;
}.

Definition limiter_new (max : Z) : ConcurrencyLimiter :=
  mkLimiter max ∅ (wrap_i64 (wrap_i64 max * 100)) 0 DEFAULT_MAX_KEYS 0 0 0.
Definition with_global_limit (limit : Z) (l : ConcurrencyLimiter) : ConcurrencyLimiter :=
  mkLimiter (max_concurrent l) (counters l) (wrap_i64 limit) (global_current l) (max_keys l)
    (total_acquires l) (total_releases l) (total_rejections l).
Definition with_max_keys (n : nat) (l : ConcurrencyLimiter) : ConcurrencyLimiter :=
  mkLimiter (max_concurrent l) (counters l) (global_limit l) (global_current l) n
    (total_acquires l) (total_releases l) (total_rejections l).

Definition current_concurrent (key : string) (l : ConcurrencyLimiter) : Z := default 0 (counters l !! key).
Definition key_count (l : ConcurrencyLimiter) : nat := size (counters l).

Definition set_counters (c : gmap string Z) (l : ConcurrencyLimiter) : ConcurrencyLimiter :=
  mkLimiter (max_concurrent l) c (global_limit l) (global_current l) (max_keys l)
    (total_acquires l) (total_releases l) (total_rejections l).
Definition set_global (n : Z) (l : ConcurrencyLimiter) : ConcurrencyLimiter :=
  mkLimiter (max_concurrent l) (counters l) (global_limit l) n (max_keys l)
    (total_acquires l) (total_releases l) (total_rejections l).
Definition count_acquire (l : ConcurrencyLimiter) : ConcurrencyLimiter :=
  mkLimiter (max_concurrent l) (counters l) (global_limit l) (global_current l) (max_keys l)
    (wrap64 (total_acquires l + 1)) (total_releases l) (total_rejections l).
Definition count_release (l : ConcurrencyLimiter) : ConcurrencyLimiter :=
  mkLimiter (max_concurrent l) (counters l) (global_limit l) (global_current l) (max_keys l)
    (total_acquires l) (wrap64 (total_releases l + 1)) (total_rejections l).
Definition count_rejection (l : ConcurrencyLimiter) : ConcurrencyLimiter :=
  mkLimiter (max_concurrent l) (counters l) (global_limit l) (global_current l) (max_keys l)
    (total_acquires l) (total_releases l) (wrap64 (total_rejections l + 1)).

(** The eviction of the first key in the order of the map, which Rust leaves open. *)
Definition make_room (key : string) (l : ConcurrencyLimiter) : gmap string Z :=
  if (max_keys l <=? size (counters l))%nat && negb (is_some (counters l !! key)) then
    match (map_to_list (counters l)).*1 with k :: _ => delete k (counters l) | [] => counters l end
  else counters l.

(** [acquire]; [now] is the time stamp. *)
Definition acquire (now : Z) (key : string) (l : ConcurrencyLimiter) : RateLimitResult * ConcurrencyLimiter :=
  let l := count_acquire l in
  let cs := make_room key l in
  let current := default 0 (cs !! key) in
  let l := set_counters (<[key := current]> cs) l in
  if wrap_i64 (max_concurrent l) <=? current then (reject 0 (wrap_i64 (now + 1000)), count_rejection l)
  else if global_limit l <=? global_current l then (reject 0 (wrap_i64 (now + 1000)), count_rejection l)
  else
    let current := wrap_i64 (current + 1) in
    let l := set_counters (<[key := current]> (counters l)) l in
    let l := set_global (wrap_i64 (global_current l + 1)) l in
    (allow (wrap64 (max_concurrent l - wrap64 current)) (wrap_i64 (now + 60000)), l).

(** The parts of [release]: the load of the counter, the two subtractions. *)
Definition release_load (key : string) (l : ConcurrencyLimiter) : bool :=
  match counters l !! key with Some current => 0 <? current | None => false end.
Definition release_counter (key : string) (l : ConcurrencyLimiter) : ConcurrencyLimiter :=
  set_counters (alter (fun c => wrap_i64 (c - 1)) key (counters l)) l.
Definition release_global (l : ConcurrencyLimiter) : ConcurrencyLimiter := set_global (wrap_i64 (global_current l - 1)) l.

Definition release (key : string) (l : ConcurrencyLimiter) : ConcurrencyLimiter :=
  let l := count_release l in
  if release_load key l then release_global (release_counter key l) else l.

(** The parts of [reset]. *)
Definition reset_global (current : Z) (l : ConcurrencyLimiter) : ConcurrencyLimiter :=
  set_global (wrap_i64 (global_current l - current)) l.
Definition reset_store (key : string) (l : ConcurrencyLimiter) : ConcurrencyLimiter :=
  set_counters (alter (fun _ => 0) key (counters l)) l.

Definition reset (key : string) (l : ConcurrencyLimiter) : ConcurrencyLimiter :=
  match counters l !! key with
  | Some current => if 0 <? current then reset_store key (reset_global current l) else l
  | None => l
  end.

(** ** Guards *)

Record ConcurrencyGuard : Type := mkGuard { guard_key : string; acquired : bool }.

Definition guard_acquire (now : Z) (key : string) (l : ConcurrencyLimiter) : ConcurrencyGuard * ConcurrencyLimiter :=
  let '(r, l) := acquire now key l in (mkGuard key (allowed r), l).
Definition guard_drop (g : ConcurrencyGuard) (l : ConcurrencyLimiter) : ConcurrencyLimiter :=
  if acquired g then release (guard_key g) l else l.
Definition guard_release (g : ConcurrencyGuard) (l : ConcurrencyLimiter) : ConcurrencyLimiter :=
  if acquired g then guard_drop (mkGuard (guard_key g) false) (release (guard_key g) l)
  else guard_drop g l.

(** * Threads

    [acquire] runs under the write lock of the map; [release] and [reset] hold the read lock from
    their load to their end, so that several of them interleave but none with an [acquire]. *)

Inductive slot_task : Type :=
| THolding (key : string)
| TCounter (key : string)
| TGlobal
| TReset (key : string)
| TResetLoaded (key : string) (current : Z)
| TResetStore (key : string)
| TFinished.

Definition reads (t : slot_task) : bool :=
  match t with TCounter _ | TGlobal | TResetLoaded _ _ | TResetStore _ => true | _ => false end.

Inductive slot_action : Type := AAcquire (now : Z) (key : string) | ARelease | AReset (key : string) | AStep.

Record slot_system : Type := mkSlots { limiter : ConcurrencyLimiter; tasks : list slot_task }.

Inductive slot_step : slot_action -> slot_system -> slot_system -> Prop :=
| step_acquire l ts now key : existsb reads ts = false ->
    slot_step (AAcquire now key) (mkSlots l ts)
      (mkSlots (acquire now key l).2 (ts ++ [if allowed (acquire now key l).1 then THolding key else TFinished]))
| step_release l ts i key : ts !! i = Some (THolding key) ->
    slot_step ARelease (mkSlots l ts)
      (mkSlots (count_release l) (<[i := if release_load key l then TCounter key else TFinished]> ts))
| step_counter l ts i key : ts !! i = Some (TCounter key) ->
    slot_step AStep (mkSlots l ts) (mkSlots (release_counter key l) (<[i := TGlobal]> ts))
| step_global l ts i : ts !! i = Some TGlobal ->
    slot_step AStep (mkSlots l ts) (mkSlots (release_global l) (<[i := TFinished]> ts))
| step_reset l ts key : slot_step (AReset key) (mkSlots l ts) (mkSlots l (ts ++ [TReset key]))
| step_reset_load l ts i key : ts !! i = Some (TReset key) ->
    slot_step AStep (mkSlots l ts)
      (mkSlots l (<[i := match counters l !! key with
                         | Some c => if 0 <? c then TResetLoaded key c else TFinished
                         | None => TFinished
                         end]> ts))
| step_reset_global l ts i key c : ts !! i = Some (TResetLoaded key c) ->
    slot_step AStep (mkSlots l ts) (mkSlots (reset_global c l) (<[i := TResetStore key]> ts))
| step_reset_store l ts i key : ts !! i = Some (TResetStore key) ->
    slot_step AStep (mkSlots l ts) (mkSlots (reset_store key l) (<[i := TFinished]> ts)).

(** * Guards that are all released through their own slot *)

Definition tally (f : slot_task -> bool) (ts : list slot_task) : Z := foldr (fun t n => Z.b2z (f t) + n) 0 ts.

Lemma tally_app f ts t : tally f (ts ++ [t]) = tally f ts + Z.b2z (f t).
Proof. induction ts as [| x ts IH]; simpl; lia. Qed.

Lemma tally_insert f ts i t t' : ts !! i = Some t -> tally f (<[i := t']> ts) = tally f ts - Z.b2z (f t) + Z.b2z (f t').
Proof.
  revert i. induction ts as [| x ts IH]; intros [| i] H; [done | done | |].
  - injection H as ->. simpl. lia.
  - simpl. rewrite (IH i H). lia.
Qed.

Lemma tally_nonneg f ts : 0 <= tally f ts.
Proof. induction ts as [| x ts IH]; simpl; [lia |]. destruct (f x); simpl; lia. Qed.

Lemma tally_pos f ts i t : ts !! i = Some t -> f t = true -> 0 < tally f ts.
Proof.
  revert i. induction ts as [| x ts IH]; intros [| i] H Hf; [done | done | |]; simpl.
  - injection H as ->. rewrite Hf. pose proof (tally_nonneg f ts). simpl. lia.
  - specialize (IH i H Hf). destruct (f x); simpl; lia.
Qed.

(** The slots of a key in use by its counter, and of all keys by the global one. *)
Definition holds (key : string) (t : slot_task) : bool :=
  match t with THolding k | TCounter k => bool_decide (k = key) | _ => false end.
Definition occupies (t : slot_task) : bool := match t with THolding _ | TCounter _ | TGlobal => true | _ => false end.
Definition resets (t : slot_task) : bool := match t with TReset _ | TResetLoaded _ _ | TResetStore _ => true | _ => false end.

(** Steps without resets, on keys that all fit into the map. *)
Definition guard_step (keys : gset string) (s s' : slot_system) : Prop :=
  exists a, slot_step a s s' /\ match a with AAcquire _ key => key ∈ keys | AReset _ => False | _ => True end.

Definition limits_ok (l : ConcurrencyLimiter) : Prop := 0 <= max_concurrent l < 2 ^ 63 /\ 0 <= global_limit l < 2 ^ 63.

Record slots_ok (keys : gset string) (s : slot_system) : Prop := {
  ok_limits : limits_ok (limiter s);
  ok_room : (size keys <= max_keys (limiter s))%nat;
  ok_keys : dom (counters (limiter s)) ⊆ keys;
  ok_no_reset : existsb resets (tasks s) = false;
  ok_counters : forall key, current_concurrent key (limiter s) = tally (holds key) (tasks s);
  ok_global : global_current (limiter s) = tally occupies (tasks s);
  ok_max : forall key, tally (holds key) (tasks s) <= max_concurrent (limiter s);
  ok_global_max : tally occupies (tasks s) <= global_limit (limiter s);
}.

Lemma wrap_i64_small z : - 2 ^ 63 <= z < 2 ^ 63 -> wrap_i64 z = z.
Proof. intros H. unfold wrap_i64. rewrite Z.mod_small; lia. Qed.

Lemma make_room_id keys key l : key ∈ keys -> (size keys <= max_keys l)%nat -> dom (counters l) ⊆ keys ->
  make_room key l = counters l.
Proof.
  intros Hk Hm Hd. unfold make_room. destruct (counters l !! key) as [c |] eqn:E; [by rewrite andb_false_r |].
  destruct (Nat.leb_spec (max_keys l) (size (counters l))) as [H |]; [| done]. exfalso.
  assert (dom (counters l) ⊂ keys) as Hs.
  { split; [done |]. intros H'. specialize (H' key Hk). apply elem_of_dom in H' as [c H']. by rewrite H' in E. }
  apply subset_size in Hs. rewrite size_dom in Hs. lia.
Qed.

(** What [acquire] does where there is room for the key. *)
Lemma acquire_spec keys now key l : limits_ok l -> key ∈ keys -> (size keys <= max_keys l)%nat -> dom (counters l) ⊆ keys ->
  0 <= current_concurrent key l -> 0 <= global_current l ->
  let b := (current_concurrent key l <? max_concurrent l) && (global_current l <? global_limit l) in
  let l' := (acquire now key l).2 in
  allowed (acquire now key l).1 = b /\
  (forall k, current_concurrent k l' = current_concurrent k l + Z.b2z (b && bool_decide (key = k))) /\
  global_current l' = global_current l + Z.b2z b /\
  max_concurrent l' = max_concurrent l /\ global_limit l' = global_limit l /\ max_keys l' = max_keys l /\
  dom (counters l') ⊆ keys.
Proof.
  intros [Hm Hg] Hk Hr Hd Hc Hgc b l'. unfold b, l', acquire. clear b l'.
  rewrite (make_room_id keys key (count_acquire l)) by done. cbn [counters count_acquire].
  fold (current_concurrent key l). set (c := current_concurrent key l) in *.
  cbn [max_concurrent set_counters global_limit global_current count_acquire]. rewrite (wrap_i64_small (max_concurrent l)) by lia.
  assert (forall k, default 0 (<[key := c]> (counters l) !! k) = current_concurrent k l) as Hsame.
  { intros k. destruct (decide (key = k)) as [<- |]; [by rewrite lookup_insert_eq | by rewrite lookup_insert_ne]. }
  destruct (Z.leb_spec (max_concurrent l) c) as [H1 | H1]; [| destruct (Z.leb_spec (global_limit l) (global_current l)) as [H2 | H2]].
  - destruct (Z.ltb_spec c (max_concurrent l)); [lia |]. cbn. split_and!; try done; [intros k | lia |]; [| set_solver].
    unfold current_concurrent at 1. cbn. rewrite Hsame. lia.
  - destruct (Z.ltb_spec (global_current l) (global_limit l)); [lia |]. rewrite andb_false_r. cbn.
    split_and!; try done; [intros k | lia |]; [| set_solver]. unfold current_concurrent at 1. cbn. rewrite Hsame. lia.
  - destruct (Z.ltb_spec c (max_concurrent l)); [| lia]. destruct (Z.ltb_spec (global_current l) (global_limit l)); [| lia].
    cbn. rewrite (wrap_i64_small (c + 1)), (wrap_i64_small (global_current l + 1)) by lia.
    split_and!; try done; [intros k | set_solver]. unfold current_concurrent at 1. cbn.
    case_bool_decide as E; [subst; rewrite lookup_insert_eq; simpl; subst c; lia |].
    rewrite lookup_insert_ne by done. rewrite Hsame. simpl. lia.
Qed.

Lemma resets_lookup ts i t : existsb resets ts = false -> ts !! i = Some t -> resets t = false.
Proof.
  intros H Hi. apply not_true_iff_false. intros Ht. apply not_true_iff_false in H. apply H, existsb_exists.
  exists t. split; [by eapply list_elem_of_In, list_elem_of_lookup_2 | done].
Qed.

Lemma no_resets_insert ts i t t' : existsb resets ts = false -> ts !! i = Some t -> resets t' = false ->
  existsb resets (<[i := t']> ts) = false.
Proof.
  revert i. induction ts as [| x ts IH]; intros [| i] H Hi Ht; simpl in *; try done.
  - apply orb_false_iff in H as [_ H]. by rewrite Ht, H.
  - apply orb_false_iff in H as [H1 H]. rewrite H1. by apply IH.
Qed.

Lemma slots_ok_step keys s s' : slots_ok keys s -> guard_step keys s s' -> slots_ok keys s'.
Proof.
  intros Hok (a & Hst & Ha). destruct Hok as [Hl Hr Hd Hn Hc Hg Hm Hgm].
  destruct Hst as [l ts now key Hf | l ts i key Hi | l ts i key Hi | l ts i Hi | l ts key | l ts i key Hi | l ts i key c Hi | l ts i key Hi];
    cbn [limiter tasks] in *; try done.
  - destruct (acquire_spec keys now key l Hl Ha Hr Hd) as (Eb & Ec & Eg & E1 & E2 & E3 & E4).
    { rewrite Hc. apply tally_nonneg. } { rewrite Hg. apply tally_nonneg. }
    rewrite Hc, Hg in Eb, Ec, Eg. set (b := _ && _) in *.
    assert (forall f, tally f (ts ++ [if allowed (acquire now key l).1 then THolding key else TFinished]) =
      tally f ts + (if b then Z.b2z (f (THolding key)) else Z.b2z (f TFinished))) as Ht.
    { intros f. rewrite tally_app, Eb. by destruct b. }
    assert (b = true -> tally (holds key) ts < max_concurrent l /\ tally occupies ts < global_limit l) as Hb by (unfold b; intros [?%Z.ltb_lt ?%Z.ltb_lt]%andb_true_iff; done).
    constructor; cbn [limiter tasks].
    + unfold limits_ok. by rewrite E1, E2.
    + by rewrite E3.
    + done.
    + rewrite existsb_app, Hn, Eb. by destruct b.
    + intros k. rewrite Ec, Ht, Hc. by destruct b.
    + rewrite Eg, Ht. by destruct b.
    + intros k. rewrite Ht, E1. specialize (Hm k). destruct b; simpl; [| lia].
      destruct (Hb eq_refl). case_bool_decide; subst; simpl; lia.
    + rewrite Ht, E2. destruct b; simpl; [destruct (Hb eq_refl) |]; lia.
  - assert (0 < current_concurrent key l) as Hp.
    { rewrite Hc. apply (tally_pos _ _ i (THolding key)); [done |]. simpl. by apply bool_decide_eq_true. }
    assert (release_load key l = true) as ->.
    { unfold release_load. unfold current_concurrent in Hp. destruct (counters l !! key); simpl in Hp; [by apply Z.ltb_lt | lia]. }
    assert (forall f, f (THolding key) = f (TCounter key) -> tally f (<[i := TCounter key]> ts) = tally f ts) as Ht.
    { intros f E. rewrite (tally_insert f ts i _ _ Hi), E. lia. }
    constructor; cbn [limiter tasks]; [done | done | done | by apply (no_resets_insert ts i (THolding key)) | ..].
    + intros k. rewrite Ht by done. apply Hc.
    + by rewrite Ht.
    + intros k. rewrite Ht by done. apply Hm.
    + by rewrite Ht.
  - assert (0 < current_concurrent key l) as Hp.
    { rewrite Hc. apply (tally_pos _ _ i (TCounter key)); [done |]. simpl. by apply bool_decide_eq_true. }
    assert (forall k, current_concurrent k (release_counter key l) = current_concurrent k l - Z.b2z (bool_decide (key = k))) as Hcc.
    { intros k. unfold release_counter, current_concurrent. cbn [counters set_counters]. case_bool_decide as E.
      - subst. rewrite lookup_alter_eq. unfold current_concurrent in Hp, Hc. specialize (Hc k). specialize (Hm k).
        destruct (counters l !! k); simpl in *; [| lia]. rewrite wrap_i64_small by (destruct Hl; lia). done.
      - rewrite lookup_alter_ne by done. simpl. lia. }
    assert (forall k, tally (holds k) (<[i := TGlobal]> ts) = tally (holds k) ts - Z.b2z (bool_decide (key = k))) as Ht.
    { intros k. rewrite (tally_insert _ ts i _ _ Hi). simpl. lia. }
    assert (tally occupies (<[i := TGlobal]> ts) = tally occupies ts) as Ho by (rewrite (tally_insert _ ts i _ _ Hi); simpl; lia).
    constructor; cbn [limiter tasks]; [done | done | | by apply (no_resets_insert ts i (TCounter key)) | ..].
    + unfold release_counter. cbn [counters set_counters]. by rewrite dom_alter_L.
    + intros k. by rewrite Hcc, Ht, Hc.
    + by rewrite Ho.
    + intros k. rewrite Ht. specialize (Hm k). cbn. destruct (bool_decide _); simpl; lia.
    + by rewrite Ho.
  - assert (0 < global_current l) as Hp by (rewrite Hg; by apply (tally_pos _ _ i TGlobal)).
    assert (forall k, tally (holds k) (<[i := TFinished]> ts) = tally (holds k) ts) as Ht
      by (intros k; rewrite (tally_insert _ ts i _ _ Hi); simpl; lia).
    assert (tally occupies (<[i := TFinished]> ts) = tally occupies ts - 1) as Ho by (rewrite (tally_insert _ ts i _ _ Hi); simpl; lia).
    constructor; cbn [limiter tasks]; [done | done | done | by apply (no_resets_insert ts i TGlobal) | intros k; rewrite Ht; apply Hc |
      | intros k; rewrite Ht; apply Hm |].
    + rewrite Ho. unfold release_global. cbn [global_current set_global]. rewrite wrap_i64_small by (destruct Hl; lia). lia.
    + rewrite Ho. cbn. lia.
  - by pose proof (resets_lookup ts i _ Hn Hi).
  - by pose proof (resets_lookup ts i _ Hn Hi).
  - by pose proof (resets_lookup ts i _ Hn Hi).
Qed.

(** C24. Slots are bounded and none is lost. Threads acquire slots through guards, each released once,
    in any interleaving of the parts of [release], on keys that all fit into the map and without
    resets: a key never has more guards than its limit, nor all keys together more than the global
    limit; the counter of a key is the number of its guards that have not yet given it back, so that
    when all have, the counter of every key and the global one are 0 again. *)
Theorem guards_bounded (l : ConcurrencyLimiter) (keys : gset string) (s : slot_system) :
  counters l = ∅ -> global_current l = 0 -> limits_ok l -> (size keys <= max_keys l)%nat ->
  rtc (guard_step keys) (mkSlots l []) s ->
  (forall key, tally (holds key) (tasks s) <= max_concurrent (limiter s)) /\
  tally occupies (tasks s) <= global_limit (limiter s) /\
  (forall key, current_concurrent key (limiter s) = tally (holds key) (tasks s)) /\
  (Forall (eq TFinished) (tasks s) -> global_current (limiter s) = 0 /\ forall key, current_concurrent key (limiter s) = 0).
Proof.
  intros Hc Hg Hl Hk Hr.
  assert (slots_ok keys s) as [_ _ _ _ H1 H2 H3 H4].
  { apply (rtc_invariant (guard_step keys) (slots_ok keys) (mkSlots l []) s (slots_ok_step keys)); [| done].
    constructor; cbn [limiter tasks]; [done | done | by rewrite Hc, dom_empty_L | done | | done | |].
    - intros key. unfold current_concurrent. by rewrite Hc, lookup_empty.
    - intros key. destruct Hl. cbn. lia.
    - destruct Hl. cbn. lia. }
  split_and!; [done | done | done |]. intros Hf.
  assert (forall f, f TFinished = false -> tally f (tasks s) = 0) as Ht.
  { intros f E. clear -Hf E. induction Hf as [| t ts <- Hf IH]; simpl; [done |]. by rewrite E, IH. }
  rewrite H2. split; [by apply Ht |]. intros key. rewrite H1. by apply Ht.
Qed.

Definition one_slot : ConcurrencyLimiter := with_max_keys 1 (with_global_limit 1 (limiter_new 1)).

(** Two guards of a key with one slot: the second is refused, and gets the slot once the first has
    released it. *)
Lemma guards_bounded_witness :
  exists s, rtc (guard_step {["a"]}) (mkSlots one_slot []) s /\ tasks s = [TFinished; TFinished; THolding "a"] /\
    current_concurrent "a" (limiter s) <= max_concurrent (limiter s).
Proof.
  pose (l1 := (acquire 0 "a" one_slot).2). pose (l2 := (acquire 0 "a" l1).2).
  pose (l3 := release_global (release_counter "a" (count_release l2))).
  exists (mkSlots (acquire 0 "a" l3).2 [TFinished; TFinished; THolding "a"]).
  assert (rtc (guard_step {["a"]}) (mkSlots one_slot []) (mkSlots (acquire 0 "a" l3).2 [TFinished; TFinished; THolding "a"])) as H.
  { eapply rtc_l; [exists (AAcquire 0 "a"); split; [by apply step_acquire | by apply elem_of_singleton] |].
    eapply rtc_l; [exists (AAcquire 0 "a"); split; [by apply step_acquire | by apply elem_of_singleton] |].
    eapply rtc_l; [exists ARelease; split; [by apply (step_release l2 [THolding "a"; TFinished] 0 "a") | done] |].
    eapply rtc_l; [exists AStep; split; [by apply (step_counter (count_release l2) [TCounter "a"; TFinished] 0 "a") | done] |].
    eapply rtc_l; [exists AStep; split; [by apply (step_global (release_counter "a" (count_release l2)) [TGlobal; TFinished] 0) | done] |].
    eapply rtc_l; [exists (AAcquire 0 "a"); split; [by apply (step_acquire l3 [TFinished; TFinished]) | by apply elem_of_singleton] |].
    apply rtc_refl. }
  split; [done |]. split; [done |].
  destruct (guards_bounded one_slot {["a"]} _ eq_refl eq_refl ltac:(by vm_compute) ltac:(by vm_compute) H) as (H1 & _ & H3 & _).
  rewrite H3. apply H1.
Defined.

(** * What else can happen *)

(** A key beyond [max_keys] evicts the counter of another whose slot is in use: its release finds no
    counter, and the slot is missing from the global limit for good. *)
Lemma eviction_leaks_a_slot :
  let l := with_max_keys 1 (with_global_limit 2 (limiter_new 1)) in
  let '(ga, l) := guard_acquire 0 "a" l in
  let '(gb, l) := guard_acquire 0 "b" l in
  let l := guard_drop gb (guard_drop ga l) in
  acquired ga = true /\ acquired gb = true /\ global_current l = 1 /\ current_concurrent "a" l = 0 /\ current_concurrent "b" l = 0.
Proof. vm_compute. done. Qed.

(** After an eviction a key gets more slots than its limit. *)
Lemma eviction_exceeds_the_limit :
  let l := with_max_keys 1 (limiter_new 1) in
  let '(g1, l) := guard_acquire 0 "a" l in
  let '(_, l) := guard_acquire 0 "b" l in
  let '(g2, l) := guard_acquire 0 "a" l in
  acquired g1 = true /\ acquired g2 = true /\ guard_key g1 = guard_key g2.
Proof. vm_compute. done. Qed.

(** A reset that reads the counter before the guard of the key releases it: the slot is given back
    twice, and the global limit admits one request too many. *)
Lemma reset_races_release :
  exists s, rtc (fun s s' => exists a, slot_step a s s') (mkSlots one_slot []) s /\
    global_current (limiter s) = -1 /\ tasks s = [TFinished; TFinished].
Proof.
  pose (l1 := (acquire 0 "a" one_slot).2). pose (l2 := count_release l1).
  pose (l3 := release_global (release_counter "a" l2)).
  exists (mkSlots (reset_store "a" (reset_global 1 l3)) [TFinished; TFinished]). split; [| by vm_compute].
  eapply rtc_l; [exists (AAcquire 0 "a"); by apply step_acquire |].
  eapply rtc_l; [exists (AReset "a"); by apply step_reset |].
  eapply rtc_l; [exists AStep; by apply (step_reset_load l1 [THolding "a"; TReset "a"] 1 "a") |].
  eapply rtc_l; [exists ARelease; by apply (step_release l1 [THolding "a"; TResetLoaded "a" 1] 0 "a") |].
  eapply rtc_l; [exists AStep; by apply (step_counter l2 [TCounter "a"; TResetLoaded "a" 1] 0 "a") |].
  eapply rtc_l; [exists AStep; by apply (step_global (release_counter "a" l2) [TGlobal; TResetLoaded "a" 1] 0) |].
  eapply rtc_l; [exists AStep; by apply (step_reset_global l3 [TFinished; TResetLoaded "a" 1] 1 "a" 1) |].
  eapply rtc_l; [exists AStep; by apply (step_reset_store (reset_global 1 l3) [TFinished; TResetStore "a"] 1 "a") |].
  apply rtc_refl.
Qed.
