(* ===== verification/Tenancy.v ===== *)
(** Tenants: the context of a thread and its guards, the router of table names and the registry of
    pools ([sz-orm-core/src/tenant_context.rs]), permissions and column masking
    ([tenant_security.rs]), and row level policies ([row_level_policy.rs]). *)

From Stdlib Require Import Ascii String.
From S2P Require Import Prelude SqlText Value SqlSplice DataPermission Masking.
Local Open Scope string_scope.
Local Open Scope list_scope.
Local Open Scope Z_scope.

(** * Security *)

Record ParameterizedCondition : Type := mkCondition { sql_fragment : string; condition_params : list Value }.

Definition literal_condition (sql : string) : ParameterizedCondition := mkCondition sql [].

Record Principal : Type := mkPrincipal { principal_tenant : Z; principal_roles : list string }.

Definition has_role (role : string) (p : Principal) : bool := bool_decide (role ∈ principal_roles p).

Record RowLevelSecurityPolicy : Type := mkRowPolicy {
  row_table : string;
  filter_condition : ParameterizedCondition;
  principal : Principal;
}.

Record PermissionPredicate : Type := mkPredicate {
  applicable_roles : option (list string);
  exempt_roles : list string;
}.

Definition predicate_all : PermissionPredicate := mkPredicate None [].
Definition for_roles (roles : list string) : PermissionPredicate := mkPredicate (Some roles) [].
Definition with_exempt (roles : list string) (p : PermissionPredicate) : PermissionPredicate := mkPredicate (applicable_roles p) roles.

Definition predicate_applies (roles : list string) (p : PermissionPredicate) : bool :=
  if existsb (fun r => bool_decide (r ∈ exempt_roles p)) roles then false
  else match applicable_roles p with
       | None => true
       | Some applicable => existsb (fun r => bool_decide (r ∈ applicable)) roles
       end.

Record ColumnMaskingRule : Type := mkColumnRule {
  rule_table : string;
  rule_column : string;
  masking_function : MaskingRule;
  applicable_permissions : PermissionPredicate;
}.

Definition column_mask (value : list N) (r : ColumnMaskingRule) : option (list N) := Masking.apply (masking_function r) value.
Definition column_applies (roles : list string) (r : ColumnMaskingRule) : bool := predicate_applies roles (applicable_permissions r).

Inductive TenantAuditOperation : Type := ContextSet | ContextSwitch | CrossTenantDenied | RowLevelFiltered | ColumnMasked.

Definition audit_operation_str (o : TenantAuditOperation) : string :=
  match o with
  | ContextSet => "context_set"
  | ContextSwitch => "context_switch"
  | CrossTenantDenied => "cross_tenant_denied"
  | RowLevelFiltered => "row_level_filtered"
  | ColumnMasked => "column_masked"
  end.

Inductive AuditResult : Type := AuditSuccess | AuditDenied.
Definition audit_result_str (r : AuditResult) : string := match r with AuditSuccess => "success" | AuditDenied => "denied" end.

Record TenantAuditContext : Type := mkAudit {
  audit_tenant : Z;
  operation : TenantAuditOperation;
  audit_timestamp : Z;
  audit_result : AuditResult;
  detail : string;
}.

(** The text and the user of the entry [log_to] gives the auditor. *)
Definition audit_sql (c : TenantAuditContext) : string :=
  "[tenant=" +:+ pretty (audit_tenant c) +:+ "] " +:+ audit_operation_str (operation c) +:+ " " +:+
  audit_result_str (audit_result c) +:+ " " +:+ detail c.
Definition audit_user (c : TenantAuditContext) : string := "tenant_" +:+ pretty (audit_tenant c).

(** Who is masked: those without an exempt role and, where roles are given, with one of them. *)
Lemma predicate_applies_spec roles p : predicate_applies roles p = true <->
  (forall r, r ∈ roles -> r ∉ exempt_roles p) /\
  match applicable_roles p with None => True | Some rs => exists r, r ∈ roles /\ r ∈ rs end.
Proof.
  unfold predicate_applies.
  assert (forall l : list string, existsb (fun r => bool_decide (r ∈ l)) roles = true <-> exists r, r ∈ roles /\ r ∈ l) as H.
  { intros l. rewrite existsb_exists. split; intros (r & H1 & H2); exists r; (split; [by apply list_elem_of_In |]); by apply bool_decide_eq_true in H2 || by apply bool_decide_eq_true. }
  destruct (existsb _ roles) eqn:E.
  - split; [done |]. intros [Hn _]. apply H in E as (r & H1 & H2). by apply Hn in H1.
  - assert (forall r, r ∈ roles -> r ∉ exempt_roles p) as Hn.
    { intros r H1 H2. apply not_true_iff_false in E. apply E, H. by exists r. }
    destruct (applicable_roles p) as [rs |]; [rewrite H |]; tauto.
Qed.

(** * Contexts *)

Inductive IsolationStrategy : Type := RowLevel | SchemaIsolation.

Record TenantPermissions : Type := mkPermissions {
  row_level_policies : list RowLevelSecurityPolicy;
  column_masking_rules : list ColumnMaskingRule;
  tenant_roles : list string;
}.

Definition permissions_new : TenantPermissions := mkPermissions [] [] [].
Definition with_row_level_policy (p : RowLevelSecurityPolicy) (t : TenantPermissions) : TenantPermissions :=
  mkPermissions (row_level_policies t ++ [p]) (column_masking_rules t) (tenant_roles t).
Definition with_column_masking_rule (r : ColumnMaskingRule) (t : TenantPermissions) : TenantPermissions :=
  mkPermissions (row_level_policies t) (column_masking_rules t ++ [r]) (tenant_roles t).
Definition with_roles (roles : list string) (t : TenantPermissions) : TenantPermissions :=
  mkPermissions (row_level_policies t) (column_masking_rules t) roles.

Record TenantContext : Type := mkTenant {
  tenant_id : Z;
  isolation_strategy : IsolationStrategy;
  permissions : TenantPermissions;
}.

Definition context_new (id : Z) (s : IsolationStrategy) : TenantContext := mkTenant id s permissions_new.
Definition with_permissions (p : TenantPermissions) (c : TenantContext) : TenantContext := mkTenant (tenant_id c) (isolation_strategy c) p.

(** The two cells a task on a thread sees. *)
Record cells : Type := mkCells { thread_cell : option TenantContext; task_cell : option TenantContext }.

Definition current (c : cells) : option TenantContext :=
  match task_cell c with Some ctx => Some ctx | None => thread_cell c end.
Definition is_set (c : cells) : bool := is_some (current c).

Record TenantContextGuard : Type := mkGuard { prev : option TenantContext }.

Definition guard_enter (ctx : TenantContext) (c : cells) : TenantContextGuard * cells :=
  (mkGuard (thread_cell c), mkCells (Some ctx) (task_cell c)).
Definition guard_drop (g : TenantContextGuard) (c : cells) : cells := mkCells (prev g) (task_cell c).

(** [scope]: the cell of the task while the future runs. *)
Definition in_scope {A} (ctx : TenantContext) (f : cells -> A * cells) (c : cells) : A * cells :=
  let '(a, c') := f (mkCells (thread_cell c) (Some ctx)) in (a, mkCells (thread_cell c') (task_cell c)).

(** ** Code that uses them, each guard dropped at the end of its block *)

Inductive code : Type :=
| CObserve
| CSeq (a b : code)
| CGuard (ctx : TenantContext) (body : code)
| CScope (ctx : TenantContext) (body : code).

(** What the observations of [current] see. *)
Fixpoint run_code (p : code) (c : cells) : list (option TenantContext) * cells :=
  match p with
  | CObserve => ([current c], c)
  | CSeq a b => let '(o1, c) := run_code a c in let '(o2, c) := run_code b c in (o1 ++ o2, c)
  | CGuard ctx body => let '(g, c) := guard_enter ctx c in let '(o, c) := run_code body c in (o, guard_drop g c)
  | CScope ctx body => in_scope ctx (run_code body) c
  end.

(** The same by blocks alone: the innermost scope, or else the innermost guard. *)
Fixpoint lexical (p : code) (guard scope : option TenantContext) : list (option TenantContext) :=
  match p with
  | CObserve => [match scope with Some c => Some c | None => guard end]
  | CSeq a b => lexical a guard scope ++ lexical b guard scope
  | CGuard ctx body => lexical body (Some ctx) scope
  | CScope ctx body => lexical body guard (Some ctx)
  end.

(** Guards and scopes of nested blocks are lexical, and leave the cells as they were. *)
Lemma guards_are_lexical p c : run_code p c = (lexical p (thread_cell c) (task_cell c), c).
Proof.
  revert c. induction p as [| a IHa b IHb | ctx body IH | ctx body IH]; intros [th ta]; simpl.
  - by destruct ta.
  - by rewrite IHa, IHb.
  - by rewrite IH.
  - unfold in_scope. by rewrite IH.
Qed.

(** A guard inside a scope is not seen. *)
Lemma guard_hidden_by_scope a b : fst (run_code (CScope a (CGuard b CObserve)) (mkCells None None)) = [Some a].
Proof. by rewrite guards_are_lexical. Qed.

(** Guards dropped out of order leave the context of one of them behind. *)
Lemma dropped_out_of_order a b :
  let '(g1, c) := guard_enter a (mkCells None None) in
  let '(g2, c) := guard_enter b c in
  current (guard_drop g2 (guard_drop g1 c)) = Some a.
Proof. done. Qed.

(** * Tables *)

Definition rewrite_table (table : string) (id : Z) : string := "tenant_" +:+ pretty id +:+ "_" +:+ table.
Definition rewrite_tables (tables : list string) (id : Z) : list string := (fun t => rewrite_table t id) <$> tables.

Lemma split_at_underscore a b x y : all_chars number_char a = true -> all_chars number_char b = true ->
  a +:+ String "_" x = b +:+ String "_" y -> a = b /\ x = y.
Proof.
  revert b. induction a as [| c a IH]; intros [| d b] Ha Hb H; simpl in H.
  - by injection H.
  - injection H as <- _. by simpl in Hb.
  - injection H as -> _. by simpl in Ha.
  - injection H as -> H. simpl in Ha, Hb. apply andb_true_iff in Ha as [_ Ha]. apply andb_true_iff in Hb as [_ Hb].
    by destruct (IH b Ha Hb H) as [-> ->].
Qed.

(** Tables of different tenants, and different tables of one, get different names. *)
Lemma rewrite_table_injective t1 t2 id1 id2 : rewrite_table t1 id1 = rewrite_table t2 id2 -> t1 = t2 /\ id1 = id2.
Proof.
  unfold rewrite_table. intros H. injection H as H.
  apply split_at_underscore in H as [H1 H2]; [| apply pretty_number..]. split; [done |]. by apply (inj pretty).
Qed.

(** A table of a tenant may have the name of an unrouted one. *)
Lemma rewrite_table_meets_plain : rewrite_table "users" 1 = "tenant_1_users".
Proof. reflexivity. Qed.

(** * Pools of tenants *)

Section Registry.
(** The pools, by the shared pointer to each. *)
Context {P E : Type}.

Record TenantPoolRegistry : Type := mkRegistry { pools : gmap Z P }.

Definition registry_new : TenantPoolRegistry := mkRegistry ∅.
Definition tenant_count (r : TenantPoolRegistry) : nat := size (pools r).

(** The part of [get_or_create] under the read lock, and the part under the write lock, where
    [created] is what [Pool::new] answers. *)
Definition get_fast (id : Z) (r : TenantPoolRegistry) : option P := pools r !! id.
Definition get_slow (id : Z) (created : result P E) (r : TenantPoolRegistry) : result P E * TenantPoolRegistry :=
  match pools r !! id with
  | Some p => (Ok p, r)
  | None => match created with
            | Ok p => (Ok p, mkRegistry (<[id := p]> (pools r)))
            | Err e => (Err e, r)
            end
  end.

Definition get_or_create (id : Z) (created : result P E) (r : TenantPoolRegistry) : result P E * TenantPoolRegistry :=
  match get_fast id r with Some p => (Ok p, r) | None => get_slow id created r end.

(** Threads in [get_or_create]. *)
Inductive pool_task : Type :=
| PWants (id : Z)
| PMissed (id : Z)
| PGot (id : Z) (r : result P E).

Inductive pool_step : TenantPoolRegistry * list pool_task -> TenantPoolRegistry * list pool_task -> Prop :=
| step_call r ts id : pool_step (r, ts) (r, ts ++ [PWants id])
| step_fast r ts i id : ts !! i = Some (PWants id) ->
    pool_step (r, ts) (r, <[i := match get_fast id r with Some p => PGot id (Ok p) | None => PMissed id end]> ts)
| step_slow r ts i id created : ts !! i = Some (PMissed id) ->
    (forall p, created = Ok p -> forall id', pools r !! id' <> Some p) ->
    pool_step (r, ts) ((get_slow id created r).2, <[i := PGot id (get_slow id created r).1]> ts).

Definition pools_ok (s : TenantPoolRegistry * list pool_task) : Prop :=
  (forall id p, PGot id (Ok p) ∈ s.2 -> pools s.1 !! id = Some p) /\
  (forall id id' p, pools s.1 !! id = Some p -> pools s.1 !! id' = Some p -> id = id').

Lemma elem_of_insert_list {A} (l : list A) i x y : x ∈ <[i := y]> l -> x = y \/ x ∈ l.
Proof.
  intros (j & Hj)%list_elem_of_lookup. apply list_lookup_insert_Some in Hj as [(_ & -> & _) | [_ Hj]]; [by left |].
  right. by eapply list_elem_of_lookup_2.
Qed.

Lemma pool_step_ok s s' : pools_ok s -> pool_step s s' -> pools_ok s'.
Proof.
  intros [Hg Hi] Hst. destruct Hst as [r ts id | r ts i id Ht | r ts i id created Ht Hf]; split; simpl in *; try done.
  - intros id' p [H | H]%elem_of_app; [by apply Hg | by apply list_elem_of_singleton in H].
  - intros id' p [H | H]%elem_of_insert_list; [| by apply Hg]. unfold get_fast in H. destruct (pools r !! id) eqn:Er; congruence.
  - unfold get_slow. destruct (pools r !! id) as [p0 |] eqn:Er; [| destruct created as [p0 | e]]; simpl;
      intros id' p [H | H]%elem_of_insert_list; try (by apply Hg); try congruence.
    + injection H as -> ->. apply lookup_insert_eq.
    + pose proof (Hg _ _ H) as H'. rewrite lookup_insert_ne; [done |]. congruence.
  - unfold get_slow. destruct (pools r !! id) as [p0 |] eqn:Er; [| destruct created as [p0 | e]]; simpl; try done.
    intros a b p Ha Hb. specialize (Hf _ eq_refl). apply lookup_insert_Some in Ha, Hb. naive_solver.
Qed.

(** However threads ask for pools, those of one tenant get the same pool and those of two tenants
    different ones. *)
Lemma tenant_pools_shared s id1 id2 p1 p2 : rtc pool_step (registry_new, []) s ->
  PGot id1 (Ok p1) ∈ s.2 -> PGot id2 (Ok p2) ∈ s.2 -> (p1 = p2 <-> id1 = id2).
Proof.
  intros Hr H1 H2. assert (pools_ok s) as [Hg Hi].
  { apply (rtc_invariant pool_step pools_ok (registry_new, []) s pool_step_ok); [| done].
    split; [intros ? ? H; by apply not_elem_of_nil in H |]. intros id id' p H. cbn in H. by rewrite lookup_empty in H. }
  apply Hg in H1, H2. split; [intros <-; by apply (Hi _ _ p1) | intros <-; congruence].
Qed.
End Registry.

(** * Row level policies *)

Record RowLevelPolicy : Type := mkPolicy {
  policy_name : string;
  policy_table : string;
  filter_sql : string;
  policy_params : list string;
}.

Definition policy_new (name table filter : string) : RowLevelPolicy := mkPolicy name table filter [].
Definition with_param (param : string) (p : RowLevelPolicy) : RowLevelPolicy :=
  mkPolicy (policy_name p) (policy_table p) (filter_sql p) (policy_params p ++ [param]).
Definition where_clause (p : RowLevelPolicy) : string :=
  if String.eqb (filter_sql p) "" then "" else "WHERE " +:+ filter_sql p.

Record RowLevelPolicyManager : Type := mkManager { policies : gmap string (list RowLevelPolicy) }.

Definition manager_new : RowLevelPolicyManager := mkManager ∅.
Definition get_policies (table : string) (m : RowLevelPolicyManager) : list RowLevelPolicy := default [] (policies m !! table).
Definition add_policy (p : RowLevelPolicy) (m : RowLevelPolicyManager) : RowLevelPolicyManager :=
  mkManager (<[policy_table p := get_policies (policy_table p) m ++ [p]]> (policies m)).
Definition build_where_clause (table : string) (m : RowLevelPolicyManager) : string * list string :=
  let ps := get_policies table m in
  if is_nil ps then ("", []) else ("WHERE " +:+ join " AND " (filter_sql <$> ps), p ← ps; policy_params p).
Definition policy_count (m : RowLevelPolicyManager) : nat := map_fold (fun _ ps n => length ps + n)%nat 0%nat (policies m).

Lemma add_policy_get p m table : get_policies table (add_policy p m) =
  if decide (table = policy_table p) then get_policies table m ++ [p] else get_policies table m.
Proof.
  unfold add_policy. unfold get_policies at 1. cbn [policies]. case_decide; [subst; by rewrite lookup_insert_eq |].
  by rewrite lookup_insert_ne.
Qed.

(** The clause of a table whose filters are single conditions holds exactly where all of them do. *)
Lemma policies_all_hold table m : get_policies table m <> [] -> Forall (fun p => single (filter_sql p)) (get_policies table m) ->
  exists c, fst (build_where_clause table m) = "WHERE " +:+ c /\
    forall atom n, holds atom (S n) c = forallb (fun p => atom (filter_sql p)) (get_policies table m).
Proof.
  intros Hne Hs. unfold build_where_clause. destruct (get_policies table m) as [| p ps] eqn:E; [done |]. cbn [is_nil].
  rewrite <- E in *. exists (join " AND " (filter_sql <$> get_policies table m)). split; [done |]. intros atom n.
  rewrite joined_holds; [| by apply Forall_fmap | by rewrite E].
  clear. induction (get_policies table m) as [| p ps IH]; [done |]. cbn. f_equal. exact IH.
Qed.

(** A filter with an OR is not put in parentheses: its first alternative is enough, whatever the other
    policies say. An empty filter leaves a clause that is no SQL. *)
Definition two_policies (f g : string) : RowLevelPolicyManager :=
  add_policy (policy_new "b" "t" g) (add_policy (policy_new "a" "t" f) manager_new).

Lemma policies_or_widens :
  build_where_clause "t" (two_policies "owner = 1 OR shared = 1" "tenant = 5") = ("WHERE owner = 1 OR shared = 1 AND tenant = 5", []) /\
  holds (fun a => bool_decide (a = "owner = 1")) 3 "owner = 1 OR shared = 1 AND tenant = 5" = true.
Proof. vm_compute. done. Qed.

Lemma policies_empty_filter : build_where_clause "t" (two_policies "" "tenant = 5") = ("WHERE  AND tenant = 5", []).
Proof. vm_compute. done. Qed.
