(* ===== verification/OptimisticLock.v ===== *)
(** Optimistic locking, [sz-orm-core/src/optimistic_lock.rs]: the statements that check a version,
    the reading of versions and affected rows, the loop of retries, and clients that use them
    together on one row. *)

From Stdlib Require Import Ascii String.
From S2P Require Import Prelude SqlText Dialect Value.
Local Open Scope string_scope.
Local Open Scope list_scope.
Local Open Scope Z_scope.

(** * Errors *)

Inductive LockError : Type :=
| Conflict (entity : string) (expected_version : Z)
| MissingVersion (field : string)
| InvalidVersion (field : string) (value : Z)
| RetriesExhausted (attempts : Z)
| Other (e : DbError).

(** [Display]; [show_db_error] is that of [DbError]. *)
Definition lock_error_str (show_db_error : DbError -> string) (e : LockError) : string :=
  match e with
  | Conflict entity v => "Optimistic lock conflict on " +:+ entity +:+ " (expected version " +:+ pretty v +:+ ")"
  | MissingVersion field => "Missing version value for field `" +:+ field +:+ "`"
  | InvalidVersion field v => "Invalid version value for field `" +:+ field +:+ "`: " +:+ pretty v
  | RetriesExhausted n => "Retries exhausted after " +:+ pretty n +:+ " attempts"
  | Other e => "Optimistic lock error: " +:+ show_db_error e
  end.

(** * Statements *)

Section Statements.
Context `{FloatText}.

(** The assignments, in the order of the map, which Rust leaves open, and the version last. *)
Definition lock_sets (dialect : Dialect) (version_column : string) (data : gmap string Value) : list string :=
  ((fun '(k, v) => quote dialect k +:+ " = " +:+ to_param_with_dialect dialect v) <$> map_to_list data)
  ++ [quote dialect version_column +:+ " = " +:+ quote dialect version_column +:+ " + 1"].

Definition lock_where (dialect : Dialect) (pk_column version_column : string) (pk_value current_version : Value) : string :=
  " WHERE " +:+ quote dialect pk_column +:+ " = " +:+ to_param_with_dialect dialect pk_value +:+ " AND " +:+
  quote dialect version_column +:+ " = " +:+ to_param_with_dialect dialect current_version.

Definition build_update_with_lock (dialect : Dialect) (table pk_column version_column : string)
    (pk_value current_version : Value) (data : gmap string Value) : string :=
  "UPDATE " +:+ quote dialect table +:+ " SET " +:+ join ", " (lock_sets dialect version_column data) +:+
  lock_where dialect pk_column version_column pk_value current_version.

Definition build_delete_with_lock (dialect : Dialect) (table pk_column version_column : string)
    (pk_value current_version : Value) : string :=
  "DELETE FROM " +:+ quote dialect table +:+ lock_where dialect pk_column version_column pk_value current_version.
End Statements.

Definition check_affected_rows (affected : Z) (entity : string) (expected_version : Z) : result unit LockError :=
  if affected =? 0 then Err (Conflict entity expected_version) else Ok tt.

(** [as i64] of a u64 *)
Definition u64_as_i64 (z : Z) : Z := if 2 ^ 63 <=? z then z - 2 ^ 64 else z.

Definition extract_version (row : gmap string Value) (field : string) : result Z LockError :=
  match row !! field with
  | None => Err (MissingVersion field)
  | Some (VI64 v) => if v <? 0 then Err (InvalidVersion field v) else Ok v
  | Some (VI32 v) => if v <? 0 then Err (InvalidVersion field v) else Ok v
  | Some (VU32 v) => Ok v
  | Some (VU64 v) => if 2 ^ 63 - 1 <? v then Err (InvalidVersion field (u64_as_i64 v)) else Ok v
  | Some other => Err (InvalidVersion field (default (-1) (as_i64 other)))
  end.

(** * Retries *)

(** What one turn of the loop does with the answer of [op]: [None] is another turn. *)
Definition retry_turn (max_retries attempts : Z) (answer : result Z LockError) : option (result unit LockError) :=
  match answer with
  | Ok affected =>
      if affected =? 0 then (if max_retries <? attempts then Some (Err (RetriesExhausted attempts)) else None)
      else Some (Ok tt)
  | Err (Conflict _ _) => if max_retries <? attempts then Some (Err (RetriesExhausted attempts)) else None
  | Err e => Some (Err e)
  end.

(** The loop, with fuel: [None] when it runs out. *)
Fixpoint retry_loop {W} (fuel : nat) (max_retries attempts : Z) (op : Eff W (result Z LockError)) : Eff W (option (result unit LockError)) :=
  match fuel with
  | O => eret None
  | S fuel =>
      fun w =>
        let attempts := wrap32 (attempts + 1) in
        let '(answer, w) := op w in
        match retry_turn max_retries attempts answer with
        | Some r => (Some r, w)
        | None => retry_loop fuel max_retries attempts op w
        end
  end.

Definition retry_on_conflict {W} (fuel : nat) (max_retries : Z) (op : Eff W (result Z LockError)) : Eff W (option (result unit LockError)) :=
  retry_loop fuel max_retries 0 op.

(** * Facts *)

Lemma retry_turn_more m a x : m < a -> retry_turn m a x <> None.
Proof.
  intros H. apply Z.ltb_lt in H. destruct x as [n | []]; simpl; rewrite ?H; try done. by destruct (n =? 0).
Qed.

(** Below the greatest u32 the loop ends within [max_retries + 1] calls. *)
Lemma retry_loop_ends {W} (op : Eff W (result Z LockError)) max_retries attempts fuel w :
  0 <= attempts <= max_retries + 1 -> max_retries < 2 ^ 32 - 1 -> max_retries + 1 - attempts <= Z.of_nat fuel -> attempts < max_retries + 1 ->
  exists r w', retry_loop fuel max_retries attempts op w = (Some r, w').
Proof.
  revert attempts w. induction fuel as [| fuel IH]; intros a w Ha Hm Hf Hl; [lia |]. simpl.
  destruct (op w) as [x w']. rewrite wrap32_small by lia.
  destruct (retry_turn max_retries (a + 1) x) as [r |] eqn:E; [by exists r, w' |].
  assert (~ max_retries < a + 1) as Hn by (intros H; by apply (retry_turn_more _ _ x) in H).
  destruct (decide (a + 1 < max_retries + 1)); [apply IH; lia |]. lia.
Qed.

Lemma retry_on_conflict_ends {W} (op : Eff W (result Z LockError)) max_retries w : 0 <= max_retries < 2 ^ 32 - 1 ->
  exists r w', retry_on_conflict (Z.to_nat (max_retries + 1)) max_retries op w = (Some r, w').
Proof. intros H. apply retry_loop_ends; lia. Qed.

(** With the greatest u32 the count wraps before it exceeds the limit: a conflict that stays is
    retried for ever. *)
Lemma retry_wraps {W} entity v fuel (w : W) :
  retry_on_conflict fuel (2 ^ 32 - 1) (eret (Err (Conflict entity v))) w = (None, w).
Proof.
  unfold retry_on_conflict. generalize 0. induction fuel as [| fuel IH]; intros a; [done |]. simpl.
  assert (0 <= wrap32 (a + 1) < 2 ^ 32) as Hr by (apply Z.mod_pos_bound; lia).
  replace (2 ^ 32 - 1 <? wrap32 (a + 1)) with false by (symmetry; apply Z.ltb_ge; lia). apply IH.
Qed.

Lemma extract_version_ok row field v : extract_version row field = Ok v <->
  (0 <= v /\ (row !! field = Some (VI64 v) \/ row !! field = Some (VI32 v))) \/
  row !! field = Some (VU32 v) \/ (v < 2 ^ 63 /\ row !! field = Some (VU64 v)).
Proof.
  unfold extract_version. destruct (row !! field) as [[] |]; try naive_solver.
  - destruct (Z.ltb_spec v0 0); naive_solver lia.
  - destruct (Z.ltb_spec v0 0); naive_solver lia.
  - destruct (Z.ltb_spec (2 ^ 63 - 1) v0); naive_solver lia.
Qed.

(** A version in a smaller column is refused, although it is one. *)
Lemma small_version_refused : extract_version {["version" := VI16 5]} "version" = Err (InvalidVersion "version" 5).
Proof. reflexivity. Qed.

(** A version among the data is assigned twice. *)
Lemma version_assigned_twice `{FloatText} (d : Dialect) v :
  lock_sets d "version" {["version" := VI64 v]} =
    [quote d "version" +:+ " = " +:+ pretty v; quote d "version" +:+ " = " +:+ quote d "version" +:+ " + 1"].
Proof. unfold lock_sets. by rewrite map_to_list_singleton. Qed.

(** * Clients on one row *)

(** A table whose row has data and a version, as a database runs the statements above: the update
    changes the row whose version is the one of the statement, adds 1 to it, and answers how many
    rows it changed. *)
Class VersionedRow (DB V : Type) := {
  read_row : DB -> V * Z;
  exec_update : Z -> V -> DB -> Z * DB;
  update_match db v : exists db', exec_update (read_row db).2 v db = (1, db') /\ read_row db' = (v, (read_row db).2 + 1);
  update_stale db ver v : ver <> (read_row db).2 -> exec_update ver v db = (0, db);
}.

Section Clients.
Context {DB V : Type} `{!VersionedRow DB V}.

(** A client computes the new data from what it read. Its [op], which reads the row, updates it and
    checks the rows affected, is called again by the loop of retries after a conflict. *)
Inductive phase : Type :=
| Calling
| Computed (old : V) (version : Z)
| Returned (r : result unit LockError).

Record client : Type := mkClient { change : V -> V; attempts : Z; phase_of : phase }.

(** Beside the clients the ones whose update took effect, in order. *)
Record lock_system : Type := mkLockSystem { row : DB; clients : list client; history : list nat }.

Definition client_new (f : V -> V) : client := mkClient f 0 Calling.

(** The second part of [op] and what the loop makes of its answer. *)
Definition update_client (max_retries : Z) (c : client) (old : V) (version : Z) (db : DB) : client * DB * bool :=
  let '(affected, db) := exec_update version (change c old) db in
  let answer := match check_affected_rows affected "row" version with Ok _ => Ok affected | Err e => Err e end in
  let attempts := wrap32 (attempts c + 1) in
  (mkClient (change c) attempts (match retry_turn max_retries attempts answer with Some r => Returned r | None => Calling end),
   db, is_ok answer).

Inductive lock_step (max_retries : Z) : lock_system -> lock_system -> Prop :=
| step_read s i c : clients s !! i = Some c -> phase_of c = Calling ->
    lock_step max_retries s
      (mkLockSystem (row s)
        (<[i := mkClient (change c) (attempts c) (Computed (read_row (row s)).1 (read_row (row s)).2)]> (clients s)) (history s))
| step_update s i c old version c' db' changed : clients s !! i = Some c -> phase_of c = Computed old version ->
    update_client max_retries c old version (row s) = (c', db', changed) ->
    lock_step max_retries s (mkLockSystem db' (<[i := c']> (clients s)) (if changed then history s ++ [i] else history s)).

Definition changes (fs : list (V -> V)) (order : list nat) (v : V) : V :=
  foldl (fun v i => match fs !! i with Some f => f v | None => v end) v order.

(** Where a client stands, [done] updates after the version [v0]. *)
Definition client_ok (fs : list (V -> V)) (max_retries v0 : Z) (s : lock_system) (i : nat) (c : client) : Prop :=
  fs !! i = Some (change c) /\ 0 <= attempts c /\
  match phase_of c with
  | Calling => i ∉ history s /\ attempts c <= Z.of_nat (length (history s))
  | Computed old version => i ∉ history s /\ v0 <= version <= (read_row (row s)).2 /\ attempts c <= version - v0 /\
      (version = (read_row (row s)).2 -> old = (read_row (row s)).1)
  | Returned (Ok _) => i ∈ history s
  | Returned (Err e) => e = RetriesExhausted (attempts c) /\ i ∉ history s /\ max_retries < attempts c <= Z.of_nat (length (history s))
  end.

Record lock_ok (fs : list (V -> V)) (max_retries : Z) (db0 : DB) (s : lock_system) : Prop := {
  ok_row : read_row (row s) = (changes fs (history s) (read_row db0).1, (read_row db0).2 + Z.of_nat (length (history s)));
  ok_history : NoDup (history s);
  ok_bound : forall i, i ∈ history s -> (i < length fs)%nat;
  ok_length : length (clients s) = length fs;
  ok_clients : forall i c, clients s !! i = Some c -> client_ok fs max_retries (read_row db0).2 s i c;
}.

Lemma history_below (n : nat) (l : list nat) : NoDup l -> (forall i, i ∈ l -> (i < n)%nat) -> (length l <= n)%nat.
Proof.
  intros Hd Hl. rewrite <- (length_seq n 0). apply submseteq_length, NoDup_submseteq; [done |].
  intros i Hi. apply elem_of_seq. specialize (Hl i Hi). lia.
Qed.

(** A client that is not in the history leaves room in it. *)
Lemma history_room fs max_retries db0 s i c : lock_ok fs max_retries db0 s -> clients s !! i = Some c -> i ∉ history s ->
  (S (length (history s)) <= length fs)%nat.
Proof.
  intros [_ Hd Hb Hl _] Hi Hn. apply (history_below (length fs) (i :: history s)); [by apply NoDup_cons |].
  intros j [-> | Hj]%elem_of_cons; [| by apply Hb]. rewrite <- Hl. by eapply lookup_lt_Some.
Qed.

Lemma client_ok_row fs max_retries v0 s s' j c : row s' = row s -> history s' = history s -> client_ok fs max_retries v0 s j c -> client_ok fs max_retries v0 s' j c.
Proof. unfold client_ok. by intros -> ->. Qed.

Lemma lock_step_ok fs max_retries db0 s s' : Z.of_nat (length fs) < 2 ^ 32 - 1 ->
  lock_ok fs max_retries db0 s -> lock_step max_retries s s' -> lock_ok fs max_retries db0 s'.
Proof.
  intros Hn Hok Hst. pose proof Hok as [Hr Hd Hb Hl Hc]. destruct Hst as [s i c Hi Hp | s i c old ver c' db' ch Hi Hp Hu].
  - pose proof (Hc i c Hi) as (Hf & Ha & Hph). rewrite Hp in Hph. destruct Hph as [Hni Hat].
    constructor; cbn [row clients history]; [done | done | done | by rewrite length_insert |].
    intros j c' Hj. apply list_lookup_insert_Some in Hj as [(<- & <- & _) | [Hne Hj]]; [| by apply (client_ok_row _ _ _ s); [.. | apply Hc]].
    split_and!; cbn; [done | done |]. rewrite Hr. cbn. split_and!; [done | lia | lia | lia | done].
  - pose proof (Hc i c Hi) as (Hf & Ha & Hph). rewrite Hp in Hph. destruct Hph as (Hni & Hv & Hat & Hold).
    pose proof (history_room fs max_retries db0 s i c Hok Hi Hni) as Hroom.
    assert ((read_row (row s)).2 = (read_row db0).2 + Z.of_nat (length (history s))) as Hv2 by (by rewrite Hr).
    unfold update_client in Hu. destruct (decide (ver = (read_row (row s)).2)) as [Ev | Ev].
    + destruct (update_match (row s) (change c old)) as (db1 & Hu1 & Hr1). rewrite <- Ev in Hu1. rewrite Hu1 in Hu.
      cbn in Hu. injection Hu as <- <- <-. specialize (Hold Ev). subst old.
      constructor; cbn [row clients history].
      * rewrite Hr1, length_app. cbn. unfold changes. rewrite foldl_app. cbn. rewrite Hf. fold (changes fs (history s) (read_row db0).1).
        rewrite Hr. cbn. f_equal. lia.
      * apply NoDup_app. split_and!; [done | intros x Hx ->%list_elem_of_singleton; done | apply NoDup_singleton].
      * intros j [Hj | ->%list_elem_of_singleton]%elem_of_app; [by apply Hb |]. rewrite <- Hl. by eapply lookup_lt_Some.
      * by rewrite length_insert.
      * intros j c' Hj. apply list_lookup_insert_Some in Hj as [(<- & <- & _) | [Hne Hj]].
        -- split_and!; cbn; [done | apply Z.mod_pos_bound; lia |]. apply elem_of_app. right. by left.
        -- specialize (Hc j c' Hj). destruct Hc as (Hf' & Ha' & Hph'). split_and!; [done | done |]. cbn [row history].
           assert (forall x, x ∉ history s -> x <> i -> x ∉ history s ++ [i]) as Hnin.
           { intros x H1 H2 [H | H%list_elem_of_singleton]%elem_of_app; done. }
           rewrite length_app. cbn [length]. destruct (phase_of c') as [| old' ver' | [[] | e]].
           ++ destruct Hph' as [H1 H2]. split; [by apply Hnin; [| congruence] | lia].
           ++ destruct Hph' as (H1 & H2 & H3 & H4). rewrite Hr1. cbn. split_and!; [by apply Hnin; [| congruence] | lia | lia | lia | lia].
           ++ apply elem_of_app. by left.
           ++ destruct Hph' as (H1 & H2 & H3). split_and!; [done | by apply Hnin; [| congruence] | lia | lia].
    + rewrite (update_stale _ _ _ Ev) in Hu. cbn in Hu. injection Hu as <- <- <-.
      rewrite wrap32_small by lia.
      constructor; cbn [row clients history]; [done | done | done | by rewrite length_insert |].
      intros j c' Hj. apply list_lookup_insert_Some in Hj as [(<- & <- & _) | [Hne Hj]]; [| by apply (client_ok_row _ _ _ s); [.. | apply Hc]].
      split_and!; cbn; [done | lia |]. destruct (Z.ltb_spec max_retries (attempts c + 1)); split_and!; try done; lia.
Qed.

(** C4. No update is lost. Clients that read a row and update it under its version, in any
    interleaving and with retries after conflicts: the row is the result of the changes of the clients
    that succeeded, each applied once, one after another, to the data the one before left; and when
    [max_retries + 1] is at least the number of clients, nobody runs out of retries. *)
Theorem no_lost_updates (max_retries : Z) (fs : list (V -> V)) (db0 : DB) (s : lock_system) :
  Z.of_nat (length fs) < 2 ^ 32 - 1 -> rtc (lock_step max_retries) (mkLockSystem db0 (client_new <$> fs) []) s ->
  NoDup (history s) /\
  read_row (row s) = (changes fs (history s) (read_row db0).1, (read_row db0).2 + Z.of_nat (length (history s))) /\
  (forall i c, clients s !! i = Some c -> (i ∈ history s <-> phase_of c = Returned (Ok tt))) /\
  (Z.of_nat (length fs) <= max_retries + 1 -> forall i c e, clients s !! i = Some c -> phase_of c <> Returned (Err e)).
Proof.
  intros Hn Hr. assert (lock_ok fs max_retries db0 s) as Hok.
  { apply (rtc_invariant (lock_step max_retries) (lock_ok fs max_retries db0) (mkLockSystem db0 (client_new <$> fs) []) s); [intros; by eapply lock_step_ok | | done].
    constructor; cbn [row clients history]; [cbn; rewrite Z.add_0_r; by destruct (read_row db0) | apply NoDup_nil_2 | intros i H; by apply not_elem_of_nil in H | by rewrite length_fmap |].
    intros i c Hi. rewrite list_lookup_fmap in Hi. destruct (fs !! i) as [f |] eqn:E; [| done]. injection Hi as <-.
    split; [done |]. split; [cbn; lia |]. split; [apply not_elem_of_nil | cbn; lia]. }
  pose proof Hok as [H1 H2 H3 H4 H5]. split_and!; [done | done | |].
  - intros i c Hi. destruct (H5 i c Hi) as (_ & _ & Hp). destruct (phase_of c) as [| old ver | [[] | e]]; naive_solver.
  - intros Hm i c e Hi Hp. destruct (H5 i c Hi) as (_ & _ & Hph). rewrite Hp in Hph. destruct Hph as (_ & Hni & Ha).
    pose proof (history_room fs max_retries db0 s i c Hok Hi Hni). lia.
Qed.
End Clients.

(** A row in memory. *)
Definition memory_update (ver v : Z) (db : Z * Z) : Z * (Z * Z) := if db.2 =? ver then (1, (v, ver + 1)) else (0, db).

Lemma memory_match (db : Z * Z) v : exists db', memory_update db.2 v db = (1, db') /\ db' = (v, db.2 + 1).
Proof. destruct db as [x n]. unfold memory_update. cbn. rewrite Z.eqb_refl. by eexists. Qed.

Lemma memory_stale (db : Z * Z) ver (v : Z) : ver <> db.2 -> memory_update ver v db = (0, db).
Proof. destruct db as [x n]. unfold memory_update. cbn. intros H. destruct (Z.eqb_spec n ver); congruence. Qed.

#[export] Instance memory_row : VersionedRow (Z * Z) Z :=
  {| read_row db := db; exec_update := memory_update; update_match := memory_match; update_stale := memory_stale |}.

(** Two clients read the same version: the second update conflicts, is retried and keeps the first. *)
Lemma no_lost_updates_witness :
  exists s : lock_system (DB := Z * Z) (V := Z),
    rtc (lock_step 1) (mkLockSystem (0, 7) (client_new <$> [Z.add 1; Z.mul 10]) []) s /\ history s = [0%nat; 1%nat] /\ row s = (10, 9).
Proof.
  set (fs := [Z.add 1; Z.mul 10]).
  pose (c0 := mkClient (Z.add 1)). pose (c1 := mkClient (Z.mul 10)).
  assert (rtc (lock_step 1) (mkLockSystem (DB := Z * Z) (V := Z) (0, 7) (client_new <$> fs) [])
    (mkLockSystem (10, 9) [c0 1 (Returned (Ok tt)); c1 2 (Returned (Ok tt))] [0%nat; 1%nat])) as H.
  { eapply rtc_l; [by apply (step_read 1 (mkLockSystem (0, 7) [c0 0 Calling; c1 0 Calling] []) 0 (c0 0 Calling)) |].
    eapply rtc_l; [by apply (step_read 1 (mkLockSystem (0, 7) [c0 0 (Computed 0 7); c1 0 Calling] []) 1 (c1 0 Calling)) |].
    eapply rtc_l; [by apply (step_update 1 (mkLockSystem (0, 7) [c0 0 (Computed 0 7); c1 0 (Computed 0 7)] []) 0 (c0 0 (Computed 0 7)) 0 7
      (c0 1 (Returned (Ok tt))) (1, 8) true) |].
    eapply rtc_l; [by apply (step_update 1 (mkLockSystem (1, 8) [c0 1 (Returned (Ok tt)); c1 0 (Computed 0 7)] [0%nat]) 1 (c1 0 (Computed 0 7)) 0 7
      (c1 1 Calling) (1, 8) false) |].
    eapply rtc_l; [by apply (step_read 1 (mkLockSystem (1, 8) [c0 1 (Returned (Ok tt)); c1 1 Calling] [0%nat]) 1 (c1 1 Calling)) |].
    eapply rtc_l; [by apply (step_update 1 (mkLockSystem (1, 8) [c0 1 (Returned (Ok tt)); c1 1 (Computed 1 8)] [0%nat]) 1 (c1 1 (Computed 1 8)) 1 8
      (c1 2 (Returned (Ok tt))) (10, 9) true) |].
    apply rtc_refl. }
  exists (mkLockSystem (10, 9) [c0 1 (Returned (Ok tt)); c1 2 (Returned (Ok tt))] [0%nat; 1%nat]). split; [exact H |]. split; [done |].
  destruct (no_lost_updates 1 fs (0, 7) _ ltac:(by vm_compute) H) as (_ & Hr & _). exact Hr.
Defined.
