(* ===== verification/EagerLoading.v ===== *)
(** Eager loading of relations, [sz-orm-core/src/eager_loader.rs], with the cycle detector it uses,
    [sz-orm-core/src/cycle_detection.rs]. *)

From Stdlib Require Import Ascii String.
From S2P Require Import Prelude SqlText Value.
From S2P Require CoreQuery CoreRead.
Import CoreQuery(RelationDef, from_entity, to_entity, from_key, to_key, chunks).
Local Open Scope string_scope.
Local Open Scope list_scope.
Local Open Scope eff_scope.

(** * Cycles *)

Inductive CyclePolicy : Type := CycleError | Truncate | AllowWithDepthLimit (max_depth : nat).

Record CycleDetector : Type := mkDetector {
  policy : CyclePolicy;
  visited : gset string;
  current_depth : nat;
  path : list string;
}.

Definition detector_new (p : CyclePolicy) : CycleDetector := mkDetector p ∅ 0 [].

Definition cycle_key (entity relation : string) : string := entity +:+ "::" +:+ relation.

(** [check]: may the recursion go on, or the text of the error. *)
Definition check (entity relation : string) (d : CycleDetector) : result bool string * CycleDetector :=
  let key := cycle_key entity relation in
  if bool_decide (key ∈ visited d) then
    match policy d with
    | CycleError =>
        let path := path d ++ [key] in
        (Err ("检测到循环引用: " +:+ join " → " path), mkDetector (policy d) (visited d) (current_depth d) path)
    | Truncate => (Ok false, d)
    | AllowWithDepthLimit max => (Ok (negb (max <=? current_depth d)%nat), d)
    end
  else
    match policy d with
    | AllowWithDepthLimit max => (Ok (negb (max <=? current_depth d)%nat), d)
    | _ => (Ok true, d)
    end.

Definition enter (entity relation : string) (d : CycleDetector) : CycleDetector :=
  let key := cycle_key entity relation in
  mkDetector (policy d) ({[key]} ∪ visited d) (S (current_depth d)) (path d ++ [key]).

Definition leave (d : CycleDetector) : CycleDetector :=
  mkDetector (policy d) (visited d) (pred (current_depth d)) (removelast (path d)).

(** * Relations and results *)

Abbreviation Row := (gmap string Value).

(** A relation of [CoreQuery.v] with the name this loader reads as well. *)
Record NamedRelation : Type := mkRelation { relation_name : string; relation_def :> RelationDef }.

Inductive NestedEagerResult : Type :=
| Leaf (row : Row)
| Node (row : Row) (children : list NestedEagerResult).

Definition nested_row (r : NestedEagerResult) : Row := match r with Leaf row => row | Node row _ => row end.
Definition nested_children (r : NestedEagerResult) : list NestedEagerResult :=
  match r with Leaf _ => [] | Node _ children => children end.
Definition is_leaf (r : NestedEagerResult) : bool := match r with Leaf _ => true | Node _ _ => false end.

Inductive ChildLoadConfig : Type := mkChild (relation : NamedRelation) (children : list ChildLoadConfig).

Fixpoint push_to_deepest (child c : ChildLoadConfig) : ChildLoadConfig :=
  match c with
  | mkChild r children =>
      mkChild r
        ((fix push_last (l : list ChildLoadConfig) : list ChildLoadConfig :=
            match l with
            | [] => [child]
            | [c] => [push_to_deepest child c]
            | c :: l => c :: push_last l
            end) children)
  end.

Fixpoint chain_depth (c : ChildLoadConfig) : nat :=
  match c with mkChild _ [] => 1 | mkChild _ (c :: _) => S (chain_depth c) end.

Fixpoint chain_names (c : ChildLoadConfig) : list string :=
  match c with mkChild r l => relation_name r :: match l with [] => [] | c :: _ => chain_names c end end.

Fixpoint collect_child_relations (c : ChildLoadConfig) : list NamedRelation :=
  match c with mkChild r l => r :: concat (map collect_child_relations l) end.

Record EagerLoader : Type := mkLoader {
  relation : NamedRelation;
  children : list ChildLoadConfig;
  cycle_policy : CyclePolicy;
}.

Definition loader_new (r : NamedRelation) : EagerLoader := mkLoader r [] Truncate.

Definition with_relation (r : NamedRelation) (l : EagerLoader) : EagerLoader :=
  let child := mkChild r [] in
  match children l with
  | [] => mkLoader (relation l) [child] (cycle_policy l)
  | _ :: _ =>
      let '(init, last) := (removelast (children l), List.last (children l) child) in
      mkLoader (relation l) (init ++ [push_to_deepest child last]) (cycle_policy l)
  end.

Definition with_cycle_policy (p : CyclePolicy) (l : EagerLoader) : EagerLoader := mkLoader (relation l) (children l) p.
Definition children_count (l : EagerLoader) : nat := match children l with [] => 0 | c :: _ => chain_depth c end.
Definition child_names (l : EagerLoader) : list string := match children l with [] => [] | c :: _ => chain_names c end.

(** * Loading *)

(** The errors of the connection, and the two of the loader. *)
Inductive LoadError (E : Type) : Type :=
| Db (e : E)
| CycleFound (message : string)
| TooManyRows (rows : nat).
Arguments Db {E}. Arguments CycleFound {E}. Arguments TooManyRows {E}.

(** A connection, as the loader uses it. *)
Class RowSource (W E : Type) := {
  query : string -> Eff W (result (list Row) E);
  query_with_params : string -> list Value -> Eff W (result (list Row) E);
}.

(** [m?] *)
Definition try_ {W A B E} (m : Eff W (result A E)) (k : A -> Eff W (result B E)) : Eff W (result B E) :=
  let* r := m in match r with Ok a => k a | Err e => eret (Err e) end.

Section Loading.
Context `{FloatText} {W E : Type} `{!RowSource W E}.

(** [{:?}] of the values without a case of their own. *)
Variable debug : Value -> string.

Definition value_to_key (v : Value) : string :=
  match v with
  | VNull => "null"
  | VBool b => "bool:" +:+ (if b then "true" else "false")
  | VI8 v => "i8:" +:+ pretty v
  | VI16 v => "i16:" +:+ pretty v
  | VI32 v => "i32:" +:+ pretty v
  | VI64 v => "i64:" +:+ pretty v
  | VU8 v => "u8:" +:+ pretty v
  | VU16 v => "u16:" +:+ pretty v
  | VU32 v => "u32:" +:+ pretty v
  | VU64 v => "u64:" +:+ pretty v
  | VF32 v => "f32:" +:+ f32_to_string v
  | VF64 v => "f64:" +:+ f64_to_string v
  | VString s => "str:" +:+ s
  | v => "other:" +:+ debug v
  end.

(** The key of a row in a column that may be missing. *)
Definition row_key (column : string) (row : Row) : string := value_to_key (default VNull (row !! column)).

Definition related_sql (r : RelationDef) (n : nat) : string :=
  "SELECT * FROM " +:+ to_entity r +:+ " WHERE " +:+ to_key r +:+ " IN (" +:+ join ", " (replicate n "?") +:+ ")".

(** [batch_query_with_relation], [batch_query_related]: the chunks of 1000, up to the first error. *)
Fixpoint query_chunks (r : RelationDef) (cs : list (list Value)) : Eff W (result (list Row) (LoadError E)) :=
  match cs with
  | [] => eret (Ok [])
  | c :: cs =>
      let* rows := query_with_params (related_sql r (length c)) c in
      match rows with
      | Err e => eret (Err (Db e))
      | Ok rows => try_ (query_chunks r cs) (fun rest => eret (Ok (rows ++ rest)))
      end
  end.

Definition BATCH_SIZE : nat := 1000.

Definition batch_query_with_relation (r : RelationDef) (pk_values : list Value) : Eff W (result (list Row) (LoadError E)) :=
  query_chunks r (chunks (length pk_values) BATCH_SIZE pk_values).

Definition group_rows_by_foreign_key (column : string) (rows : list Row) : gmap string (list Row) :=
  foldl (fun g row => <[row_key column row := default [] (g !! row_key column row) ++ [row]]> g) ∅ rows.

Definition extract_keys (column : string) (rows : list Row) : list Value := omap (fun row => row !! column) rows.

(** [load_children], whose result [load_many] drops. *)
Definition load_children (l : EagerLoader) (parents : list Row) : Eff W (result (gmap string (list Row)) (LoadError E)) :=
  match children l with
  | [] => eret (Ok ∅)
  | mkChild r _ :: _ =>
      if is_nil parents then eret (Ok ∅)
      else
        let pk_values := extract_keys (from_key r) parents in
        if is_nil pk_values then eret (Ok ∅)
        else try_ (batch_query_with_relation r pk_values) (fun rows => eret (Ok (group_rows_by_foreign_key (to_key r) rows)))
  end.

Definition load_many (main_sql : string) (l : EagerLoader) : Eff W (result (list (Row * list Row)) (LoadError E)) :=
  let* main := query main_sql in
  match main with
  | Err e => eret (Err (Db e))
  | Ok main =>
      if is_nil main then eret (Ok [])
      else
        let r := relation l in
        let pk_values := extract_keys (from_key r) main in
        if is_nil pk_values then eret (Ok ((fun row => (row, [])) <$> main))
        else
          try_ (batch_query_with_relation r pk_values) (fun rows =>
            let grouped := group_rows_by_foreign_key (to_key r) rows in
            let results := (fun row => (row, default [] (grouped !! row_key (from_key r) row))) <$> main in
            if is_nil (children l) then eret (Ok results)
            else try_ (load_children l (concat (map_to_list grouped).*2)) (fun _ => eret (Ok results)))
  end.

Definition eager_load_all (main_sql : string) (r : NamedRelation) : Eff W (result (list (Row * list Row)) (LoadError E)) :=
  load_many main_sql (loader_new r).

Definition eager_load_one (main_sql : string) (r : RelationDef) : Eff W (result (list (Row * option Row)) (LoadError E)) :=
  let* main := query main_sql in
  match main with
  | Err e => eret (Err (Db e))
  | Ok main =>
      if is_nil main then eret (Ok [])
      else
        let fk_values := extract_keys (to_key r) main in
        if is_nil fk_values then eret (Ok ((fun row => (row, None)) <$> main))
        else
          let sql := "SELECT * FROM " +:+ to_entity r +:+ " WHERE " +:+ from_key r +:+ " IN (" +:+
            join ", " (replicate (length fk_values) "?") +:+ ")" in
          let* related := query_with_params sql fk_values in
          match related with
          | Err e => eret (Err (Db e))
          | Ok related =>
              let by_key := foldl (fun m row => <[row_key (from_key r) row := row]> m) (∅ : gmap string Row) related in
              eret (Ok ((fun row => (row, by_key !! row_key (to_key r) row)) <$> main))
          end
  end.

(** [load_level_nested]: the relation and the children of [c] below [parents], with the one detector
    passed through. *)
Fixpoint load_level_nested (c : ChildLoadConfig) (parents : list Row) (d : CycleDetector)
    : Eff W (result (list NestedEagerResult * CycleDetector) (LoadError E)) :=
  match c with
  | mkChild r child_configs =>
      let '(go_on, d) := check (from_entity r) (relation_name r) d in
      match go_on with
      | Err e => eret (Err (CycleFound e))
      | Ok false => eret (Ok (Leaf <$> parents, d))
      | Ok true =>
          let d := enter (from_entity r) (relation_name r) d in
          let pk_values := extract_keys (from_key r) parents in
          if is_nil pk_values then eret (Ok ((fun row => Node row []) <$> parents, leave d))
          else
            try_ (batch_query_with_relation r pk_values) (fun rows =>
              let grouped := group_rows_by_foreign_key (to_key r) rows in
              try_
                ((fix each (parents : list Row) (d : CycleDetector) : Eff W (result (list NestedEagerResult * CycleDetector) (LoadError E)) :=
                    match parents with
                    | [] => eret (Ok ([], d))
                    | row :: parents =>
                        let child_rows := default [] (grouped !! row_key (from_key r) row) in
                        let below :=
                          if is_nil child_rows then eret (Ok ([], d))
                          else match child_configs with
                               | [] => eret (Ok (Leaf <$> child_rows, d))
                               | next :: _ => load_level_nested next child_rows d
                               end in
                        try_ below (fun '(children, d) =>
                          try_ (each parents d) (fun '(rest, d) => eret (Ok (Node row children :: rest, d))))
                    end) parents d)
                (fun '(results, d) => eret (Ok (results, leave d))))
      end
  end.

Definition MAX_RESULT_SIZE : nat := Z.to_nat 1000000.

Definition load_nested (main_sql : string) (l : EagerLoader) : Eff W (result (list NestedEagerResult) (LoadError E)) :=
  let d := detector_new (cycle_policy l) in
  let* main := query main_sql in
  match main with
  | Err e => eret (Err (Db e))
  | Ok main =>
      if is_nil main then eret (Ok [])
      else if (MAX_RESULT_SIZE <? length main)%nat then eret (Err (TooManyRows (length main)))
      else match children l with
           | [] => eret (Ok (Leaf <$> main))
           | c :: _ => try_ (load_level_nested c main d) (fun '(results, _) => eret (Ok results))
           end
  end.
End Loading.

(** * Facts *)

(** ** The detector *)

(** Without a limit of depth the detector lets a relation through exactly once: [leave] does not
    forget it. *)
Lemma check_once entity relation d : policy d = CycleError \/ policy d = Truncate ->
  fst (check entity relation d) = Ok true <-> cycle_key entity relation ∉ visited d.
Proof.
  intros Hp. unfold check. case_bool_decide as Hv.
  - split; [| by intros H]. by destruct Hp as [-> | ->].
  - split; [done |]. by destruct Hp as [-> | ->].
Qed.

Lemma leave_keeps_visited d : visited (leave d) = visited d.
Proof. done. Qed.

Lemma check_depth max entity relation d : policy d = AllowWithDepthLimit max ->
  check entity relation d = (Ok (negb (max <=? current_depth d)%nat), d).
Proof. intros Hp. unfold check. rewrite Hp. by case_bool_decide. Qed.

(** ** [load_many] *)

Section LoadMany.
Context `{FloatText} {W E : Type} `{!RowSource W E}.
Variable debug : Value -> string.

Lemma group_lookup column rows k :
  default [] (group_rows_by_foreign_key debug column rows !! k) = filter (fun row => row_key debug column row = k) rows.
Proof.
  unfold group_rows_by_foreign_key.
  assert (forall g : gmap string (list Row), default [] (foldl (fun g row => <[row_key debug column row := default [] (g !! row_key debug column row) ++ [row]]> g) g rows !! k)
    = default [] (g !! k) ++ filter (fun row => row_key debug column row = k) rows) as Hg.
  { induction rows as [| row rows IH]; intros g; [by rewrite app_nil_r |]. simpl. rewrite IH, filter_cons.
    case_decide as Ek; [subst; rewrite lookup_insert_eq; simpl; by rewrite <- app_assoc | by rewrite lookup_insert_ne]. }
  rewrite Hg, lookup_empty. done.
Qed.

(** A database whose equality agrees with the texts of the keys on the rows at hand. *)
Variable tables : string -> list Row.
Variable db_equal : Value -> Value -> bool.
Definition fetched (r : RelationDef) (vs : list Value) : list Row :=
  filter (fun row => existsb (db_equal (default VNull (row !! to_key r))) vs = true) (tables (to_entity r)).
Variable served : RelationDef -> Prop.
Hypothesis answers : forall r vs w, served r -> exists w', query_with_params (related_sql r (length vs)) vs w = (Ok (fetched r vs), w').

Lemma query_chunks_ok (r : RelationDef) cs w : served r -> exists w', query_chunks r cs w = (Ok (concat (fetched r <$> cs)), w').
Proof.
  intros Hs. revert w. induction cs as [| c cs IH]; intros w; [by exists w |]. simpl. unfold ebind.
  destruct (answers r c w Hs) as (w1 & ->). unfold try_, ebind. destruct (IH w1) as (w2 & ->). by exists w2.
Qed.

Lemma batch_query_ok (r : RelationDef) vs w : served r -> exists w', batch_query_with_relation r vs w = (Ok (concat (fetched r <$> chunks (length vs) BATCH_SIZE vs)), w').
Proof. apply query_chunks_ok. Qed.

(** The batches of the keys that have a value with the text [k]. *)
Definition has_key (k : string) (c : list Value) : bool := existsb (fun v => String.eqb k (value_to_key debug v)) c.
Definition batches_with (k : string) (vs : list Value) : nat :=
  length (filter (fun c => has_key k c = true) (chunks (length vs) BATCH_SIZE vs)).

(** The rows that belong to a main row, in the order of their table. *)
Definition related (r : RelationDef) (m : Row) : list Row :=
  filter (fun row => row_key debug (to_key r) row = row_key debug (from_key r) m) (tables (to_entity r)).

Lemma concat_if {A B} (has : B -> bool) (X : list A) cs :
  concat ((fun c => if has c then X else []) <$> cs) = concat (replicate (length (filter (fun c => has c = true) cs)) X).
Proof.
  induction cs as [| c cs IH]; [done |]. rewrite fmap_cons, filter_cons. cbn [concat]. rewrite IH.
  case_decide as Hc; [by rewrite Hc | by apply not_true_is_false in Hc as ->].
Qed.

Lemma one_chunk (f : Value -> string) k vs cs : concat cs = vs -> k ∈ f <$> vs -> NoDup (f <$> vs) \/ length cs = 1%nat ->
  exists a c b, cs = a ++ c :: b /\ existsb (fun v => String.eqb k (f v)) c = true /\
    Forall (fun c => existsb (fun v => String.eqb k (f v)) c = false) (a ++ b).
Proof.
  assert (forall c, existsb (fun v => String.eqb k (f v)) c = true <-> k ∈ f <$> c) as Hc.
  { intros c. rewrite existsb_exists, list_elem_of_fmap. split.
    - intros (v & Hv & Ev). exists v. split; [by apply String.eqb_eq | by apply list_elem_of_In].
    - intros (v & -> & Hv). exists v. split; [by apply list_elem_of_In | apply String.eqb_refl]. }
  intros <- Hk [Hd | Hl].
  - induction cs as [| c cs IH]; [by apply not_elem_of_nil in Hk |]. cbn in Hk, Hd. rewrite fmap_app in Hk, Hd.
    apply NoDup_app in Hd as (_ & Hdis & Hd). apply elem_of_app in Hk as [Hk | Hk].
    + exists [], c, cs. split; [done |]. split; [by apply Hc |]. apply Forall_forall. intros c' Hc'. apply not_true_iff_false.
      rewrite Hc. intros Hk'. apply (Hdis k Hk). apply list_elem_of_fmap in Hk' as (v & -> & Hv). apply list_elem_of_fmap_2.
      apply list_elem_of_In, in_concat. exists c'. by rewrite <- !list_elem_of_In.
    + destruct (IH Hk Hd) as (a & c' & b & -> & Hc' & Hf). exists (c :: a), c', b. split; [done |]. split; [done |]. constructor; [| done].
      apply not_true_iff_false. rewrite Hc. intros Hk'. by apply (Hdis k Hk').
  - destruct cs as [| c [|]]; try done. exists [], c, []. cbn in Hk. rewrite app_nil_r in Hk. split; [done |]. split; [by apply Hc | constructor].
Qed.

Lemma one_batch k vs : k ∈ value_to_key debug <$> vs ->
  NoDup (value_to_key debug <$> vs) \/ (length vs <= BATCH_SIZE)%nat -> batches_with k vs = 1%nat.
Proof.
  intros Hk Hd. unfold batches_with. set (cs := chunks (length vs) BATCH_SIZE vs).
  assert (concat cs = vs) as Hcs by by apply CoreRead.chunks_concat.
  assert (length vs <= BATCH_SIZE -> length cs = 1)%nat as Hone.
  { intros Hle. unfold cs. destruct vs as [| v vs]; [by apply not_elem_of_nil in Hk |]. cbn [length chunks].
    rewrite drop_ge by done. by destruct (length vs). }
  destruct (one_chunk (value_to_key debug) k vs cs Hcs Hk) as (a & c & b & -> & Hc & Hab); [naive_solver |].
  apply Forall_app in Hab as [Ha Hb]. rewrite filter_app, filter_cons, decide_True by done.
  assert (forall l, Forall (fun c => existsb (fun v => String.eqb k (value_to_key debug v)) c = false) l ->
    filter (fun c => has_key k c = true) l = []) as Hn.
  { induction 1 as [| x l Hx Hl IH]; [done |]. rewrite filter_cons, decide_False by (unfold has_key; congruence). done. }
  rewrite (Hn a Ha). cbn. by rewrite (Hn b Hb).
Qed.

(** A batch fetches all rows of a key it has, and none of another. *)
Lemma fetched_batch (r : RelationDef) k c T :
  (forall row v, row ∈ T -> v ∈ c ->
    db_equal (default VNull (row !! to_key r)) v = String.eqb (row_key debug (to_key r) row) (value_to_key debug v)) ->
  filter (fun row => row_key debug (to_key r) row = k) (filter (fun row => existsb (db_equal (default VNull (row !! to_key r))) c = true) T) =
  if has_key k c then filter (fun row => row_key debug (to_key r) row = k) T else [].
Proof.
  intros Heq. induction T as [| row T IHT]; [by destruct (has_key k c) |].
  rewrite (filter_cons _ row T). specialize (IHT ltac:(intros; apply Heq; [by right | done])).
  assert (existsb (db_equal (default VNull (row !! to_key r))) c = has_key (row_key debug (to_key r) row) c) as Ex.
  { specialize (fun v => Heq row v ltac:(by left)). clear IHT. unfold has_key.
    induction c as [| v c IH]; [done |]. cbn. rewrite Heq by by left. f_equal. apply IH. intros; apply Heq; by right. }
  rewrite Ex. case_decide as Ed.
  - rewrite !(filter_cons (fun row => row_key debug (to_key r) row = k)), IHT.
    case_decide as Ek; [| done]. rewrite Ek in Ed. by rewrite Ed.
  - rewrite IHT, (filter_cons (fun row => row_key debug (to_key r) row = k)).
    case_decide as Ek; [| done]. rewrite Ek in Ed. apply not_true_is_false in Ed. by rewrite Ed.
Qed.

Lemma fetched_key (r : RelationDef) vs k :
  (forall row v, row ∈ tables (to_entity r) -> v ∈ vs ->
    db_equal (default VNull (row !! to_key r)) v = String.eqb (row_key debug (to_key r) row) (value_to_key debug v)) ->
  filter (fun row => row_key debug (to_key r) row = k) (concat (fetched r <$> chunks (length vs) BATCH_SIZE vs)) =
  concat (replicate (batches_with k vs) (filter (fun row => row_key debug (to_key r) row = k) (tables (to_entity r)))).
Proof.
  intros Heq. unfold batches_with. rewrite <- concat_if. set (cs := chunks (length vs) BATCH_SIZE vs).
  assert (forall c, c ∈ cs -> forall v, v ∈ c -> v ∈ vs) as Hsub.
  { intros c Hc v Hv. rewrite <- (CoreRead.chunks_concat (length vs) BATCH_SIZE vs) by done.
    apply list_elem_of_In, in_concat. exists c. by rewrite <- !list_elem_of_In. }
  revert Hsub. generalize cs. clear cs. intros cs Hsub. induction cs as [| c cs IH]; [done |]. cbn. rewrite filter_app. f_equal.
  - apply fetched_batch. intros row v Hr Hv. apply Heq; [done |]. by apply (Hsub c); [left |].
  - apply IH. intros c' Hc'. apply Hsub. by right.
Qed.

(** C34. Two queries instead of N+1.  On a database that answers the queries of the loader with the rows
    whose column equals one of the values, where equality, of the rows of the related table and the keys
    of the main rows, is that of the typed texts the loader groups by: [load_many] gives every main
    row the related rows a query of its own would find, in their order, once for each batch of 1000 keys
    that has its key, whatever child relations there are.  That is exactly once for a main row that has the column
    of the key, when there are at most 1000 keys or no two are the same. *)
Theorem load_many_is_n_plus_one (main_sql : string) (main : list Row) (l : EagerLoader) (w : W) :
  let r := relation_def (relation l) in
  let keys := extract_keys (from_key r) main in
  (forall w, exists w', query main_sql w = (Ok main, w')) -> served r ->
  match children l with [] => True | mkChild r _ :: _ => served r end ->
  (forall row v, row ∈ tables (to_entity r) -> v ∈ keys ->
    db_equal (default VNull (row !! to_key r)) v = String.eqb (row_key debug (to_key r) row) (value_to_key debug v)) ->
  (exists w', load_many debug main_sql l w =
    (Ok ((fun m => (m, concat (replicate (batches_with (row_key debug (from_key r) m) keys) (related r m)))) <$> main), w')) /\
  (NoDup (value_to_key debug <$> keys) \/ (length keys <= BATCH_SIZE)%nat ->
   forall m, m ∈ main -> is_Some (m !! from_key r) -> batches_with (row_key debug (from_key r) m) keys = 1%nat).
Proof.
  intros r keys Hq Hsr Hsc Heq. split.
  2: { intros Hd m Hm [v Hv]. apply one_batch; [| done]. apply list_elem_of_fmap. exists v.
       unfold row_key. rewrite Hv. split; [done |]. apply list_elem_of_omap. by exists m. }
  unfold load_many, ebind. destruct (Hq w) as (w1 & ->). destruct (is_nil main) eqn:En.
  { destruct main; [| done]. by exists w1. }
  fold r. fold keys. destruct (is_nil keys) eqn:Ek.
  { exists w1. unfold eret. do 2 f_equal. apply list_fmap_ext. intros i m _. by destruct keys. }
  unfold try_ at 1, ebind. destruct (batch_query_ok r keys w1 Hsr) as (w2 & ->).
  set (rows := concat _). set (results := _ <$> main).
  assert (results = (fun m => (m, concat (replicate (batches_with (row_key debug (from_key r) m) keys) (related r m)))) <$> main) as <-.
  { unfold results. apply list_fmap_ext. intros i m _. f_equal. rewrite group_lookup. unfold rows. by apply fetched_key. }
  destruct (is_nil (children l)); [by exists w2 |]. unfold try_ at 1, ebind.
  set (all := concat _). assert (exists g w3, load_children debug l all w2 = (Ok g, w3)) as (g & w3 & ->); [| by exists w3].
  unfold load_children. destruct (children l) as [| [rc cc] cs]; [by exists ∅, w2 |].
  destruct (is_nil all); [by exists ∅, w2 |]. destruct (is_nil (extract_keys (from_key rc) all)); [by exists ∅, w2 |].
  unfold try_, ebind. destruct (batch_query_ok rc (extract_keys (from_key rc) all) w2 Hsc) as (w3 & ->).
  by exists (group_rows_by_foreign_key debug (to_key rc) (concat (fetched rc <$> chunks (length (extract_keys (from_key rc) all)) BATCH_SIZE (extract_keys (from_key rc) all)))), w3.
Qed.
End LoadMany.

(** ** A database in memory, that keeps the statements it was asked *)

Definition demo_row (l : list (string * Z)) : Row := list_to_map (prod_map id VI64 <$> l).
Definition user_orders : NamedRelation := mkRelation "orders" (CoreQuery.mkRelation "users" "orders" "id" "user_id" CoreQuery.HasMany).
Definition order_items : NamedRelation := mkRelation "items" (CoreQuery.mkRelation "orders" "items" "id" "order_id" CoreQuery.HasMany).
Definition item_notes : NamedRelation := mkRelation "notes" (CoreQuery.mkRelation "items" "notes" "id" "item_id" CoreQuery.HasMany).

Definition demo_main : list Row := [demo_row [("id", 1%Z)]; demo_row [("id", 2%Z)]].
Definition demo_tables (t : string) : list Row :=
  if String.eqb t "orders" then [demo_row [("id", 1%Z); ("user_id", 1%Z)]; demo_row [("id", 2%Z); ("user_id", 2%Z)]]
  else if String.eqb t "items" then [demo_row [("id", 1%Z); ("order_id", 1%Z)]; demo_row [("id", 2%Z); ("order_id", 2%Z)]]
  else if String.eqb t "notes" then [demo_row [("id", 1%Z); ("item_id", 1%Z)]; demo_row [("id", 2%Z); ("item_id", 2%Z)]]
  else [].

Definition demo_equal (a b : Value) : bool := match a, b with VI64 x, VI64 y => (x =? y)%Z | _, _ => false end.

#[export] Instance demo_source : RowSource (list string) string := {|
  query sql w := (Ok demo_main, w ++ [sql]);
  query_with_params sql vs w :=
    (match List.find (fun r : NamedRelation => String.eqb sql (related_sql r (length vs))) [user_orders; order_items; item_notes] with
     | Some r => Ok (fetched demo_tables demo_equal r vs)
     | None => Err "no such table"
     end, w ++ [sql]);
|}.

Definition plain_debug (v : Value) : string := "".

(** The tree of a result, by the keys of the rows. *)
Definition id_text (row : Row) : string := match row !! "id" with Some (VI64 n) => pretty n | _ => "" end.
Fixpoint shape (r : NestedEagerResult) : string :=
  match r with
  | Leaf row => id_text row
  | Node row l => id_text row +:+ "[" +:+ join "," (map shape l) +:+ "]"
  end.

Lemma load_many_is_n_plus_one_witness :
  exists w', @load_many no_digits (list string) string demo_source plain_debug "SELECT id FROM users" (loader_new user_orders) [] =
    (Ok [(demo_row [("id", 1%Z)], [demo_row [("id", 1%Z); ("user_id", 1%Z)]]);
         (demo_row [("id", 2%Z)], [demo_row [("id", 2%Z); ("user_id", 2%Z)]])], w').
Proof.
  destruct (@load_many_is_n_plus_one no_digits (list string) string demo_source plain_debug demo_tables demo_equal
    (fun r => r = relation_def user_orders)
    ltac:(intros r vs w ->; exists (w ++ [related_sql user_orders (length vs)]); cbn; by rewrite String.eqb_refl)
    "SELECT id FROM users" demo_main (loader_new user_orders) []) as ((w' & H) & _).
  - intros w. by exists (w ++ ["SELECT id FROM users"]).
  - reflexivity.
  - exact I.
  - intros row v [-> | [-> | Hr]%elem_of_cons]%elem_of_cons [-> | [-> | Hm]%elem_of_cons]%elem_of_cons;
      try (by apply not_elem_of_nil in Hr); try (by apply not_elem_of_nil in Hm); vm_compute; reflexivity.
  - exists w'. rewrite H. vm_compute. reflexivity.
Defined.

(** A key that more main rows share than fit in a batch is asked for in every batch, and all of them
    get its rows once for each. *)
Lemma shared_keys_repeat_rows :
  @batches_with no_digits plain_debug "i64:1" (replicate 1001 (VI64 1)) = 2%nat.
Proof. vm_compute. reflexivity. Qed.

(** ** What [load_nested] does instead *)

Definition nested (l : EagerLoader) : result (list string) (LoadError string) * list string :=
  let '(r, w) := @load_nested no_digits (list string) string demo_source plain_debug "SELECT id" l [] in
  (match r with Ok trees => Ok (shape <$> trees) | Err e => Err e end, w).

(** The relation the loader was made with is never loaded: the main rows are taken for the parents of
    the first child relation, and users get the items of the orders that have their ids. *)
Lemma nested_skips_its_relation :
  nested (with_relation order_items (loader_new user_orders)) =
    (Ok ["1[1]"; "2[2]"], ["SELECT id"; "SELECT * FROM items WHERE order_id IN (?, ?)"]).
Proof. vm_compute. reflexivity. Qed.

(** Below the second level only the first parent is loaded: the relation counts as visited for its
    siblings, whose rows become leaves, or an error of a cycle there is none of. *)
Lemma siblings_count_as_cycles :
  fst (nested (with_relation item_notes (with_relation order_items (loader_new user_orders)))) = Ok ["1[1[1]]"; "2[2]"] /\
  fst (nested (with_cycle_policy CycleError (with_relation item_notes (with_relation order_items (loader_new user_orders))))) =
    Err (CycleFound "检测到循环引用: orders::items → items::notes").
Proof. vm_compute. done. Qed.

(** Keys of different integer types never match. *)
Lemma integer_types_do_not_match :
  @row_key no_digits plain_debug "user_id" {["user_id" := VI32 1]} <> @row_key no_digits plain_debug "id" {["id" := VI64 1]}.
Proof. vm_compute. discriminate. Qed.
