(* ===== verification/MultiLevel.v ===== *)
(** The cache above the shared one, [sz-orm-core/src/multi_level_cache.rs], and the graph of
    dependencies by which it invalidates, [sz-orm-core/src/dependency_graph.rs]. *)

From Stdlib Require Import Ascii String.
From S2P Require Import Prelude SqlText Value L2Cache.
From S2P Require SqlSplice DelayQueue.
Local Open Scope string_scope.
Local Open Scope list_scope.
Local Open Scope eff_scope.

(** * Dependencies *)

(** The keys of a table are a [HashSet]: a list without repetitions, whose order Rust leaves open. *)
Record DependencyGraph : Type := mkGraph {
  table_to_keys : gmap string (list CacheKey);
  capacity_limit : nat;
}.

Definition graph_new (limit : nat) : DependencyGraph := mkGraph ∅ limit.

Definition dependent_keys (table : string) (g : DependencyGraph) : list CacheKey := default [] (table_to_keys g !! table).

Definition add_dependency (table : string) (key : CacheKey) (g : DependencyGraph) : DependencyGraph :=
  let entry := dependent_keys table g in
  let entry := if (length entry <? capacity_limit g)%nat
               then (if decide (key ∈ entry) then entry else entry ++ [key]) else entry in
  mkGraph (<[table := entry]> (table_to_keys g)) (capacity_limit g).

Definition table_count (g : DependencyGraph) : nat := size (table_to_keys g).
Definition key_count (table : string) (g : DependencyGraph) : nat := length (dependent_keys table g).

(** ** Tables of a statement *)

Definition keywords : list string := ["FROM"; "JOIN"; "UPDATE"; "INTO"; "TABLE"].

Definition is_sql_keyword (tok : string) : bool :=
  bool_decide (tok ∈
    ["SELECT"; "WHERE"; "ON"; "AS"; "AND"; "OR"; "NOT"; "NULL"; "INNER"; "LEFT"; "RIGHT"; "FULL"; "OUTER"; "CROSS";
     "NATURAL"; "USING"; "GROUP"; "ORDER"; "HAVING"; "LIMIT"; "OFFSET"; "UNION"; "EXCEPT"; "INTERSECT"; "VALUES"; "SET";
     "JOIN"; "FROM"; "INTO"; "UPDATE"; "DELETE"; "INSERT"; "TABLE"; "IF"; "EXISTS"; "CREATE"; "DROP"; "ALTER"]).

(** [trim_matches(|c| c == ',' || c == ';' || c == '(' || c == ')')] *)
Definition punctuation (c : ascii) : bool :=
  Ascii.eqb c "," || Ascii.eqb c ";" || Ascii.eqb c "(" || Ascii.eqb c ")".
Fixpoint trim_left (s : string) : string :=
  match s with String c s' => if punctuation c then trim_left s' else s | EmptyString => s end.
Definition trim_punctuation (s : string) : string := rev_string (trim_left (rev_string (trim_left s))).

Definition extract_table (upper_tokens original_tokens : list string) (idx : nat) (result : gset string) : gset string :=
  match upper_tokens !! idx with
  | None => result
  | Some next =>
      if bool_decide (next ∈ keywords) || is_sql_keyword next || String.eqb next "" then result
      else
        let table := trim_punctuation (default next (original_tokens !! idx)) in
        if String.eqb table "" then result else {[table]} ∪ result
  end.

(** The turns of the loop from [i] on, [rest] the tokens left. *)
Fixpoint scan_tokens (tokens originals : list string) (i : nat) (rest : list string) (result : gset string) : gset string :=
  match rest with
  | [] => result
  | tok :: rest =>
      let result := if bool_decide (tok ∈ keywords) then extract_table tokens originals (S i) result else result in
      let result := if String.eqb tok "DELETE" && bool_decide (tokens !! S i = Some "FROM")
                    then extract_table tokens originals (S (S i)) result else result in
      let result := if String.eqb tok "INSERT" && bool_decide (tokens !! S i = Some "INTO")
                    then extract_table tokens originals (S (S i)) result else result in
      scan_tokens tokens originals (S i) rest result
  end.

Definition parse_dependencies (sql : string) : gset string :=
  let tokens := DelayQueue.fields (SqlSplice.to_uppercase sql) in
  scan_tokens tokens (DelayQueue.fields sql) 0 tokens ∅.

Example parse_example :
  parse_dependencies "select * from users u join orders o on u.id = o.user_id where x in (select y from (items))" = {["users"; "orders"; "items"]}.
Proof. apply (bool_decide_unpack _). vm_compute. exact I. Qed.

(** Tables after a comma, and the names of a keyword, are missed; a function of the standard is taken
    for a table. *)
Lemma parse_misses :
  parse_dependencies "SELECT * FROM a, b" = {["a"]} /\ parse_dependencies "SELECT * FROM order" = ∅ /\
  parse_dependencies "SELECT EXTRACT(YEAR FROM created) FROM a" = {["created"; "a"]} /\
  parse_dependencies "INSERT INTO a(x) VALUES (1)" = {["a(x"]}.
Proof. split_and!; apply (bool_decide_unpack _); vm_compute; exact I. Qed.

(** * The cache *)

Section MultiLevel.
Context {W : Type} `{Clock W}.

Record MultiLevelCache : Type := mkMulti { l2 : option (L2Cache W); dep_graph : DependencyGraph }.

Definition multi_new (l2 : option (L2Cache W)) (g : DependencyGraph) : MultiLevelCache := mkMulti l2 g.

Definition with_l2 (c : L2Cache W) (m : MultiLevelCache) : MultiLevelCache := mkMulti (Some c) (dep_graph m).

Definition multi_get_or_load (load : CacheKey -> Eff W (option Value)) (key : CacheKey) (m : MultiLevelCache)
    : Pan W (option Value * MultiLevelCache) :=
  match l2 m with
  | None => let! v := pcall (load key) in pret (v, m)
  | Some c =>
      let! (hit, c) := get key c in
      match hit with
      | Some v => pret (Some v, with_l2 c m)
      | None =>
          let! v := pcall (load key) in
          match v with
          | None => pret (None, with_l2 c m)
          | Some v => let! c := put key v None c in pret (Some v, with_l2 c m)
          end
      end
  end.

Fixpoint invalidate_all (keys : list CacheKey) (c : L2Cache W) : Pan W (L2Cache W) :=
  match keys with
  | [] => pret c
  | k :: keys => let! c := invalidate k c in invalidate_all keys c
  end.

Definition multi_invalidate_table (table : string) (m : MultiLevelCache) : Pan W MultiLevelCache :=
  let keys := dependent_keys table (dep_graph m) in
  match l2 m with
  | None => pret m
  | Some c =>
      let! c := if is_nil keys then pret c else invalidate_all keys c in
      let! c := invalidate_table table c in
      pret (with_l2 c m)
  end.

Definition multi_add_dependency (table : string) (key : CacheKey) (m : MultiLevelCache) : MultiLevelCache :=
  mkMulti (l2 m) (add_dependency table key (dep_graph m)).

Definition add_dependency_from_sql (sql : string) (key : CacheKey) (m : MultiLevelCache) : MultiLevelCache :=
  foldr (fun table m => multi_add_dependency table key m) m (elements (parse_dependencies sql)).
End MultiLevel.
Arguments MultiLevelCache W : clear implicits.

(** * Eviction by frequency *)

Inductive EvictionStrategy : Type := LRU | HotPriority.

Record HotEvictionConfig : Type := mkHot { hot_threshold : Z; stats_window : nat; strategy : EvictionStrategy }.

Definition config_default : HotEvictionConfig := mkHot 10 1000 LRU.
Definition config_lru : HotEvictionConfig := mkHot (hot_threshold config_default) (stats_window config_default) LRU.
Definition config_hot_priority (threshold : Z) : HotEvictionConfig := mkHot threshold (stats_window config_default) HotPriority.

(** [access_counts] as a function: 0 for keys it has not. *)
Definition select_for_eviction (access_count : CacheKey -> Z) (candidates : list CacheKey) (evict_count : nat) : list CacheKey :=
  if (evict_count =? 0)%nat || is_nil candidates then []
  else take evict_count (sort_by_key access_count candidates).

Definition is_hot (c : HotEvictionConfig) (access_count : Z) : bool := (hot_threshold c <=? access_count)%Z.

(** What is chosen is used no more often than what is not. *)
Lemma select_coldest access_count candidates n : exists kept,
  candidates ≡ₚ select_for_eviction access_count candidates n ++ kept /\
  length (select_for_eviction access_count candidates n) = Nat.min n (length candidates) /\
  forall a b, a ∈ select_for_eviction access_count candidates n -> b ∈ kept -> (access_count a <= access_count b)%Z.
Proof.
  unfold select_for_eviction. destruct (Nat.eqb_spec n 0) as [-> | Hn].
  { exists candidates. split_and!; [done | done | intros a b Ha; by apply not_elem_of_nil in Ha]. }
  destruct candidates as [| k ks] eqn:E; [exists []; cbn; rewrite Nat.min_0_r; split_and!; [done | done | intros a b Ha; by apply not_elem_of_nil in Ha] |].
  cbn [is_nil orb]. rewrite <- E. clear E k ks. set (s := sort_by_key access_count candidates).
  exists (drop n s). rewrite take_drop. split_and!.
  - symmetry. apply sort_by_key_perm.
  - rewrite length_take. f_equal. apply Permutation_length, sort_by_key_perm.
  - pose proof (sort_by_key_sorted access_count candidates) as Hs. fold s in Hs. rewrite <- (take_drop n s) in Hs.
    intros a b Ha Hb. by apply (StronglySorted_app_1_elem_of _ _ _ _ _ Hs).
Qed.
(** ** Against the reference *)

Inductive MultiOp (W : Type) : Type :=
| MLoad (key : CacheKey) (load : CacheKey -> Eff W (option Value))
| MInvalidate (table : string)
| MDepend (table : string) (key : CacheKey)
| MSql (sql : string) (key : CacheKey).
Arguments MLoad {W}. Arguments MInvalidate {W}. Arguments MDepend {W}. Arguments MSql {W}.

Section Refinement.
Context {W : Type} `{Clock W}.
Variable ttl0 : option Z.
Variable cap : nat.
Variable bus : option (InvalidationMessage -> Eff W unit).

Definition multi_op (op : MultiOp W) (m : MultiLevelCache W) : Pan W (option Value * MultiLevelCache W) :=
  match op with
  | MLoad key load => multi_get_or_load load key m
  | MInvalidate table => let! m := multi_invalidate_table table m in pret (None, m)
  | MDepend table key => pret (None, multi_add_dependency table key m)
  | MSql sql key => pret (None, add_dependency_from_sql sql key m)
  end.

(** The entries of the reference of [L2Cache], and what each table has recorded. *)
Definition RefState : Type := (Entries * DependencyGraph)%type.

Definition ref_load (load : CacheKey -> Eff W (option Value)) (key : CacheKey) (l : Entries) : Pan W (option Value * Entries) :=
  let! (hit, l) := ref_get key l in
  match hit with
  | Some v => pret (Some v, l)
  | None =>
      let! v := pcall (load key) in
      match v with
      | None => pret (None, l)
      | Some v => let! l := ref_put ttl0 cap key v None l in pret (Some v, l)
      end
  end.

Definition ref_multi (op : MultiOp W) (s : RefState) : Pan W (option Value * RefState) :=
  let '(l, g) := s in
  match op with
  | MLoad key load => let! (v, l) := ref_load load key l in pret (v, (l, g))
  | MInvalidate table =>
      let! l := ref_invalidate_table bus table (filter (fun p => p.1 ∉ dependent_keys table g) l) in pret (None, (l, g))
  | MDepend table key => pret (None, (l, add_dependency table key g))
  | MSql sql key => pret (None, (l, foldr (fun table g => add_dependency table key g) g (elements (parse_dependencies sql))))
  end.

Fixpoint run_multi {St} (step : MultiOp W -> St -> Pan W (option Value * St)) (ops : list (MultiOp W)) (s : St)
    : Pan W (list (option Value) * St) :=
  match ops with
  | [] => pret ([], s)
  | op :: ops =>
      let! (a, s) := step op s in
      let! (rest, s) := run_multi step ops s in
      pret (a :: rest, s)
  end.

Definition multi_plain (op : MultiOp W) : bool :=
  match op with
  | MLoad key _ | MDepend _ key | MSql _ key => plain_table (key_table key)
  | MInvalidate table => plain_table table
  end.

Definition graph_plain (g : DependencyGraph) : Prop := forall table, plain_keys (dependent_keys table g).

Record multi_repr (m : MultiLevelCache W) (s : RefState) : Prop := {
  multi_cache : exists c, l2 m = Some c /\ repr ttl0 cap bus c s.1;
  multi_graph : dep_graph m = s.2;
  multi_recorded : graph_plain s.2;
}.

Lemma pan_rel_assoc_r {A B C D} (S : D -> C -> Prop) (m : Pan W A) (k : A -> Pan W B) h (m' : Pan W D) :
  pan_rel S m' (pbind m (fun a => pbind (k a) h)) -> pan_rel S m' (pbind (pbind m k) h).
Proof. intros Hm w. rewrite pbind_assoc. apply Hm. Qed.

Lemma add_dependency_plain table key g :
  graph_plain g -> plain_table (key_table key) = true -> graph_plain (add_dependency table key g).
Proof.
  intros Hg Hk t. unfold add_dependency, dependent_keys at 1. cbn.
  destruct (decide (table = t)) as [<- | Hne]; [rewrite lookup_insert_eq | rewrite lookup_insert_ne by done; apply Hg].
  cbn [table_to_keys from_option default]. case_match; [| apply Hg]. case_decide; [apply Hg |].
  apply Forall_app. split; [apply Hg | by constructor].
Qed.

Lemma add_dependencies_graph tables key (m : MultiLevelCache W) g :
  dep_graph m = g ->
  let m' := foldr (fun table m => multi_add_dependency table key m) m tables in
  l2 m' = l2 m /\ dep_graph m' = foldr (fun table g => add_dependency table key g) g tables.
Proof. intros <-. induction tables as [| t tables [IH1 IH2]]; [done |]. cbn in *. by rewrite IH1, IH2. Qed.

Lemma invalidate_all_repr keys c l :
  repr ttl0 cap bus c l -> plain_keys keys ->
  exists c', invalidate_all keys c = pret c' /\ repr ttl0 cap bus c' (drop_all keys l).
Proof.
  revert c l. induction keys as [| k keys IH]; intros c l Hr Hk; [by exists c |].
  apply Forall_cons in Hk as [Hk Hks]. destruct (invalidate_repr _ _ _ _ _ _ Hr Hk) as (c1 & E & Hr1).
  destruct (IH _ _ Hr1 Hks) as (c2 & E2 & Hr2). exists c2. split; [| done].
  cbn. by rewrite E, <- E2.
Qed.

Lemma multi_op_repr op m s : multi_repr m s -> multi_plain op = true ->
  pan_rel (fun x y => x.1 = y.1 /\ multi_repr x.2 y.2) (multi_op op m) (ref_multi op s).
Proof.
  destruct s as [l g]. intros [(c & Hc & Hr) Hg Hrec] Hp. cbn in *. destruct op as [key load | table | table key | sql key]; cbn in *.
  - unfold multi_get_or_load, ref_load. rewrite Hc. apply pan_rel_assoc_r.
    eapply pan_rel_bind; [by apply get_repr |]. intros [v c1] [v' l1] [Hv Hr1]. cbn in *. subst v'.
    assert (Hm : forall c2 l2, repr ttl0 cap bus c2 l2 -> multi_repr (with_l2 c2 m) (l2, g)).
    { intros c2 l2 Hr2. split; [by exists c2 | done | done]. }
    destruct v as [v |]; [apply pan_rel_ret; split; [done | by apply Hm] |].
    apply pan_rel_assoc_r, pan_rel_same. intros [v |]; [| apply pan_rel_ret; split; [done | by apply Hm]].
    apply pan_rel_assoc_r. eapply pan_rel_bind; [by apply put_repr |]. intros c2 l2 Hr2.
    apply pan_rel_ret. split; [done | by apply Hm].
  - unfold multi_invalidate_table. rewrite Hc, Hg. apply pan_rel_assoc.
    destruct (invalidate_all_repr (dependent_keys table g) c l Hr (Hrec table)) as (c1 & E & Hr1).
    assert (E' : (if is_nil (dependent_keys table g) then pret c else invalidate_all (dependent_keys table g) c) = pret c1).
    { destruct (dependent_keys table g); [exact E | exact E]. }
    rewrite E', <- drop_all_filter. apply (pan_rel_lift _ (Some c1) c1 _ _ eq_refl), pan_rel_assoc.
    eapply pan_rel_bind; [by apply invalidate_table_repr |].
    intros c2 l2 Hr2. apply pan_rel_ret. split; [done |]. split; [by exists c2 | done | done].
  - apply pan_rel_ret. split; [done |]. split; [by exists c | by cbn; f_equal | by apply add_dependency_plain].
  - apply pan_rel_ret. split; [done |]. unfold add_dependency_from_sql.
    destruct (add_dependencies_graph (elements (parse_dependencies sql)) key m g Hg) as [E1 E2].
    split; [exists c; cbn [snd]; by rewrite E1 | done |]. cbn. clear E1 E2.
    induction (elements (parse_dependencies sql)); [done |]. by apply add_dependency_plain.
Qed.

Lemma run_multi_repr ops m s : multi_repr m s -> forallb multi_plain ops = true ->
  pan_rel (fun x y => x.1 = y.1 /\ multi_repr x.2 y.2) (run_multi multi_op ops m) (run_multi ref_multi ops s).
Proof.
  revert m s. induction ops as [| op ops IH]; intros m s Hr Hp; [by apply pan_rel_ret |].
  cbn in Hp. apply andb_true_iff in Hp as [Hop Hops]. cbn [run_multi].
  eapply pan_rel_bind; [by apply multi_op_repr |]. intros [a m1] [a' s1] [Ha Hr1]. cbn in Ha, Hr1. subst a'.
  eapply pan_rel_bind; [by apply IH |]. intros [b m2] [b' s2] [Hb Hr2]. cbn in Hb, Hr2. subst b'.
  by apply pan_rel_ret.
Qed.

(** C15. The multi-level cache over a new [L2Cache] of any configuration is a cache of loads with
    invalidation by dependency.  On keys of tables without colons, whatever the loaders do and answer,
    every sequence of [get_or_load], [invalidate_table], [add_dependency] and [add_dependency_from_sql]
    gives the answers and has the effects, panics included, of a reference over the list of entries in
    the order of use: a load answers the live entry, without calling the loader, or else what the loader
    answers, which it keeps with the default time to live; invalidating a table drops the entries of that
    table and those recorded as dependent on it, and no others.  The data is that of the list. *)
Theorem multi_level_refines (ops : list (MultiOp W)) (limit : nat) (w : W) :
  forallb multi_plain ops = true ->
  match run_multi multi_op ops (multi_new (Some (configured ttl0 cap bus)) (graph_new limit)) w,
        run_multi ref_multi ops ([], graph_new limit) w with
  | (Some (answers, m), w1), (Some (answers', (l, g)), w2) =>
      answers = answers' /\ w1 = w2 /\ dep_graph m = g /\
      exists c, l2 m = Some c /\
        forall key, plain_table (key_table key) = true -> data c !! to_string_key key = assoc_find key l
  | (None, w1), (None, w2) => w1 = w2
  | _, _ => False
  end.
Proof.
  intros Hp. assert (Hr : multi_repr (multi_new (Some (configured ttl0 cap bus)) (graph_new limit)) ([], graph_new limit)).
  { split; [eexists; split; [done | apply configured_repr] | done |].
    intros t. unfold dependent_keys. cbn. rewrite lookup_empty. constructor. }
  destruct (run_multi_repr ops _ _ Hr Hp w) as [Hw Hrel].
  destruct (run_multi multi_op ops _ w) as [o1 w1], (run_multi ref_multi ops _ w) as [o2 w2]. cbn in Hw, Hrel.
  destruct Hrel as [[a m] [a' [l g]] [Ha [(c & Hc & Hrc) Hg _]] |]; [| done]. cbn in *.
  split_and!; [done | done | done |]. exists c. split; [done |]. intros key. by apply (repr_lookup _ _ _ _ _ _ Hrc).
Qed.
End Refinement.

Definition always (v : Value) : CacheKey -> Eff SimWorld (option Value) := fun _ => eret (Some v).

(** A join kept under [users] and recorded from its statement goes with [orders]. *)
Definition join_ops : list (MultiOp SimWorld) :=
  [MLoad (by_query "users" "q1") (always (VI32 1)); MSql "select * from users u join orders o on u.id = o.user_id" (by_query "users" "q1");
   MLoad (by_query "users" "q1") (always (VI32 2)); MInvalidate "orders"; MLoad (by_query "users" "q1") (always (VI32 3))].

Lemma multi_level_refines_witness :
  fst <$> fst (run_multi multi_op join_ops (multi_new (Some (configured None 2 None)) (graph_new 5)) sim0) =
  Some [Some (VI32 1); None; Some (VI32 1); None; Some (VI32 3)].
Proof.
  pose proof (multi_level_refines None 2 None join_ops 5 sim0 eq_refl) as H. revert H.
  set (r := run_multi (ref_multi None 2 None) join_ops ([], graph_new 5) sim0).
  assert (E : fst <$> fst r = Some [Some (VI32 1); None; Some (VI32 1); None; Some (VI32 3)]) by (vm_compute; reflexivity).
  clearbody r. destruct (run_multi multi_op join_ops (multi_new (Some (configured None 2 None)) (graph_new 5)) sim0) as [[[a m] |] w1],
    r as [[[a' [l g]] |] w2]; intros H; try done.
  destruct H as [-> _]. exact E.
Defined.

(** Past the capacity of a table the dependency is not recorded, without a word: the entry stays. *)
Lemma full_table_leaves_stale :
  fst <$> fst (run_multi multi_op join_ops (multi_new (Some (configured None 2 None)) (graph_new 0)) sim0) =
  Some [Some (VI32 1); None; Some (VI32 1); None; Some (VI32 1)].
Proof. vm_compute. reflexivity. Qed.
