(* ===== verification/ChangeTracker.v ===== *)
(** Tracking of changes: [sz-orm-core/src/change_tracker.rs], the unit of work whose entities become
    statements when they are saved, and [sz-orm-core/src/dirty_attributes.rs], which does the same for
    one row. *)

From Stdlib Require Import Ascii String.
From stdpp Require Import relations.
From S2P Require Import Prelude SqlText Dialect Value.
Local Open Scope string_scope.
Local Open Scope list_scope.

(** * Equality of values

    The derived [PartialEq] of [Value]: floats compare as floats, so a NaN differs from itself and the
    zeros are equal. *)

Fixpoint value_eqb (a b : Value) : bool :=
  match a, b with
  | VNull, VNull => true
  | VBool x, VBool y => eqb x y
  | VI8 x, VI8 y | VI16 x, VI16 y | VI32 x, VI32 y | VI64 x, VI64 y => (x =? y)%Z
  | VU8 x, VU8 y | VU16 x, VU16 y | VU32 x, VU32 y | VU64 x, VU64 y => (x =? y)%Z
  | VF32 x, VF32 y | VF64 x, VF64 y => SpecFloat.SFeqb x y
  | VDecimal x, VDecimal y | VString x, VString y | VUuid x, VUuid y | VDate x, VDate y | VDateTime x, VDateTime y
  | VTime x, VTime y | VJson x, VJson y | VBoxedStr x, VBoxedStr y => String.eqb x y
  | VBytes x, VBytes y => bool_decide (x = y)
  | VArray x, VArray y =>
      (fix go (x y : list Value) : bool :=
        match x, y with [], [] => true | a :: x, b :: y => value_eqb a b && go x y | _, _ => false end) x y
  | VObject x, VObject y =>
      (size x =? size y)%nat
      && map_fold (fun k v same => same && match y !! k with Some w => value_eqb v w | None => false end) true x
  | _, _ => false
  end.

Example value_eqb_example :
  value_eqb (VObject {["a" := VArray [VI64 1; VString "x"]]}) (VObject {["a" := VArray [VI64 1; VString "x"]]}) = true
  /\ value_eqb (VObject {["a" := VArray [VI64 1; VString "x"]]}) (VObject {["a" := VArray [VI64 1; VString "y"]]}) = false
  /\ value_eqb (VF64 SpecFloat.S754_nan) (VF64 SpecFloat.S754_nan) = false /\ value_eqb (VI32 1) (VI64 1) = false.
Proof. split_and!; vm_compute; reflexivity. Qed.

Abbreviation Row := (gmap string Value).
Definition keys {A} (m : gmap string A) : list string := (map_to_list m).*1.

(** * The tracker *)

Inductive EntityState : Type := Detached | Unchanged | Added | Modified | Deleted.

#[export] Instance entity_state_eq_dec : EqDecision EntityState.
Proof. solve_decision. Defined.

Definition is_pending (s : EntityState) : bool := match s with Added | Modified | Deleted => true | _ => false end.

Definition as_sql_op (s : EntityState) : string :=
  match s with Added => "INSERT" | Modified => "UPDATE" | Deleted => "DELETE" | Unchanged | Detached => "NOOP" end.

Record EntityKey : Type := mkEntityKey { table : string; id : string }.

#[export] Instance entity_key_eq_dec : EqDecision EntityKey.
Proof. solve_decision. Defined.
#[export] Instance entity_key_countable : Countable EntityKey.
Proof. refine (inj_countable' (fun k => (table k, id k)) (fun p => mkEntityKey p.1 p.2) _). by intros []. Defined.

Record EntityEntry : Type := mkEntry { key : EntityKey; current : Row; original : option Row; state : EntityState }.

Definition differs (orig : Row) (k : string) (v : Value) : bool :=
  match orig !! k with Some o => negb (value_eqb o v) | None => true end.

Definition get_dirty_fields (e : EntityEntry) : list string :=
  match original e with
  | Some orig =>
      (filter (fun '(k, v) => differs orig k v = true) (map_to_list (current e))).*1
      ++ filter (fun k => current e !! k = None) (keys orig)
  | None => keys (current e)
  end.

Definition entry_is_dirty (e : EntityEntry) : bool := is_pending (state e) && negb (is_nil (get_dirty_fields e)).

Abbreviation ChangeTracker := (gmap EntityKey EntityEntry).

Definition tracker_new : ChangeTracker := ∅.

Definition kept_original (k : EntityKey) (current : Row) (t : ChangeTracker) : option Row :=
  match t !! k ≫= original with Some o => Some o | None => Some current end.

Definition track (k : EntityKey) (current : Row) (s : EntityState) (t : ChangeTracker) : ChangeTracker :=
  let original :=
    match s with
    | Added | Detached => None
    | Unchanged => Some current
    | Modified | Deleted => kept_original k current t
    end in
  <[k := mkEntry k current original s]> t.

Definition mark_added (k : EntityKey) (entity : Row) (t : ChangeTracker) : ChangeTracker := track k entity Added t.
Definition mark_unchanged (k : EntityKey) (entity : Row) (t : ChangeTracker) : ChangeTracker := track k entity Unchanged t.

Definition update (k : EntityKey) (entity : Row) (t : ChangeTracker) : ChangeTracker :=
  match t !! k with
  | Some e =>
      let s := if decide (state e = Unchanged) then Modified else state e in
      <[k := mkEntry (key e) entity (original e) s]> t
  | None => track k entity Modified t
  end.

Definition set_state (s : EntityState) (e : EntityEntry) : EntityEntry := mkEntry (key e) (current e) (original e) s.

Definition mark_deleted (k : EntityKey) (t : ChangeTracker) : ChangeTracker := alter (set_state Deleted) k t.
Definition detach (k : EntityKey) (t : ChangeTracker) : ChangeTracker := delete k t.

Definition detect (e : EntityEntry) : EntityEntry :=
  if decide (state e = Unchanged) then (if is_nil (get_dirty_fields e) then e else set_state Modified e) else e.
Definition detect_changes (t : ChangeTracker) : ChangeTracker := detect <$> t.

Definition values (t : ChangeTracker) : list EntityEntry := (map_to_list t).*2.
Definition get_pending_changes (t : ChangeTracker) : list EntityEntry := filter (fun e => is_pending (state e) = true) (values t).
Definition get_pending_changes_by_table (t : ChangeTracker) : gmap string (list EntityEntry) :=
  foldl (fun m e => <[table (key e) := default [] (m !! table (key e)) ++ [e]]> m) ∅ (get_pending_changes t).

Definition tracker_entry (k : EntityKey) (t : ChangeTracker) : option EntityEntry := t !! k.
Definition count (t : ChangeTracker) : nat := size t.
Definition pending_count (t : ChangeTracker) : nat := length (get_pending_changes t).

Definition accept (e : EntityEntry) : option EntityEntry :=
  if decide (state e = Deleted) then None else Some (mkEntry (key e) (current e) (Some (current e)) Unchanged).
Definition accept_changes (t : ChangeTracker) : ChangeTracker := omap accept t.

(** ** Statements *)

Inductive Statement : Type :=
| SInsert (table : string) (columns : list string) (params : list Value)
| SUpdate (table : string) (columns : list string) (params : list Value) (id : string)
| SDelete (table : string) (id : string).

Definition statement_text (s : Statement) : string :=
  match s with
  | SInsert table columns _ =>
      "INSERT INTO " +:+ table +:+ " (" +:+ join ", " columns +:+ ") VALUES (" +:+ join ", " ((fun _ => "?") <$> columns) +:+ ")"
  | SUpdate table columns _ _ =>
      "UPDATE " +:+ table +:+ " SET " +:+ join ", " ((fun c => c +:+ " = ?") <$> columns) +:+ " WHERE id = ?"
  | SDelete table _ => "DELETE FROM " +:+ table +:+ " WHERE id = ?"
  end.

Definition statement_params (s : Statement) : list Value :=
  match s with
  | SInsert _ _ params => params
  | SUpdate _ _ params id => params ++ [VString id]
  | SDelete _ id => [VString id]
  end.

Definition entry_statement (e : EntityEntry) : option Statement :=
  match state e with
  | Added => Some (SInsert (table (key e)) (keys (current e)) (map_to_list (current e)).*2)
  | Modified =>
      let dirty := get_dirty_fields e in
      if is_nil dirty then None
      else Some (SUpdate (table (key e)) dirty (omap (fun c => current e !! c) dirty) (id (key e)))
  | Deleted => Some (SDelete (table (key e)) (id (key e)))
  | Unchanged | Detached => None
  end.

(** The statements of the entries in the order of the map, which Rust leaves open. *)
Definition build_sql_operations (t : ChangeTracker) : list (string * list Value) :=
  (fun s => (statement_text s, statement_params s)) <$> omap entry_statement (values t).

Example build_example :
  build_sql_operations (mark_deleted (mkEntityKey "users" "2")
    (update (mkEntityKey "users" "1") {["id" := VString "1"; "name" := VString "bob"]}
      (mark_unchanged (mkEntityKey "users" "2") {["id" := VString "2"]}
        (mark_unchanged (mkEntityKey "users" "1") {["id" := VString "1"; "name" := VString "alice"]} tracker_new))))
  = [("UPDATE users SET name = ? WHERE id = ?", [VString "bob"; VString "1"]);
     ("DELETE FROM users WHERE id = ?", [VString "2"])].
Proof. vm_compute. reflexivity. Qed.

(** * Saving

    A database of rows by table and the text of their column [id].  A statement whose placeholders and
    parameters differ in number, a row without an identity or with one that is taken is refused. *)

(** The same up to what [==] identifies. *)
Definition same_value : Value -> Value -> Prop := rtc (fun v w => value_eqb v w = true).
Definition same_row (r r' : Row) : Prop := forall f, option_Forall2 same_value (r !! f) (r' !! f).

#[export] Instance same_row_reflexive : Reflexive same_row.
Proof. intros r f. destruct (r !! f); constructor. reflexivity. Qed.

(** The text by which a database compares the column [id] with a parameter. *)
Class RowIds := {
  row_id : Row -> option string;
  row_id_proper :: Proper (same_row ==> eq) row_id;
}.

Abbreviation Database := (gmap EntityKey Row).

Section Saving.
Context `{!RowIds}.

Definition exec (s : Statement) (db : Database) : option Database :=
  match s with
  | SInsert table columns params =>
      if (length columns =? length params)%nat then
        let row := list_to_map (zip columns params) in
        i ← row_id row;
        match db !! mkEntityKey table i with Some _ => None | None => Some (<[mkEntityKey table i := row]> db) end
      else None
  | SUpdate table columns params i =>
      if (length columns =? length params)%nat then
        match db !! mkEntityKey table i with
        | Some row =>
            let row := list_to_map (zip columns params) ∪ row in
            if decide (row_id row = Some i) then Some (<[mkEntityKey table i := row]> db) else None
        | None => Some db
        end
      else None
  | SDelete table i => Some (delete (mkEntityKey table i) db)
  end.

Fixpoint exec_all (ss : list Statement) (db : Database) : option Database :=
  match ss with [] => Some db | s :: ss => db ← exec s db; exec_all ss db end.

(** ** A session of the program

    It loads rows, adds entities that are not in the database, updates those it tracks without taking
    fields away, deletes, detaches and saves, the statements of a save in any order. *)

Definition keeps_fields (e : EntityEntry) (row : Row) : Prop := forall o, original e = Some o -> dom o ⊆ dom row.

Inductive session_step : Database * ChangeTracker -> Database * ChangeTracker -> Prop :=
| step_load db t k row : db !! k = Some row -> session_step (db, t) (db, mark_unchanged k row t)
| step_add db t k row : db !! k = None -> row_id row = Some (id k) -> session_step (db, t) (db, mark_added k row t)
| step_update db t k e row : t !! k = Some e -> row_id row = Some (id k) -> keeps_fields e row ->
    session_step (db, t) (db, update k row t)
| step_delete db t k : session_step (db, t) (db, mark_deleted k t)
| step_detach db t k : session_step (db, t) (db, detach k t)
| step_detect db t : session_step (db, t) (db, detect_changes t)
| step_save db t es db' : es ≡ₚ values t -> exec_all (omap entry_statement es) db = Some db' ->
    session_step (db, t) (db', accept_changes t).

(** ** The tracker and the database *)

Definition rows_identified (db : Database) : Prop := forall k row, db !! k = Some row -> row_id row = Some (id k).

Definition entry_in_sync (row : option Row) (k : EntityKey) (e : EntityEntry) : Prop :=
  key e = k /\
  match state e with
  | Detached => False
  | Deleted => True
  | Added => original e = None /\ row = None /\ row_id (current e) = Some (id k)
  | Unchanged | Modified =>
      exists o r, original e = Some o /\ row = Some r /\ same_row r o /\ dom o ⊆ dom (current e) /\
        row_id (current e) = Some (id k) /\ (state e = Unchanged -> current e = o)
  end.

Definition in_sync (db : Database) (t : ChangeTracker) : Prop :=
  rows_identified db /\ map_Forall (fun k e => entry_in_sync (db !! k) k e) t.

(** What a row is after its entry was saved. *)
Definition saved (e : EntityEntry) (row : option Row) : Prop :=
  if decide (state e = Deleted) then row = None else exists r, row = Some r /\ same_row r (current e).

Lemma same_row_id r r' : same_row r r' -> row_id r = row_id r'.
Proof. apply row_id_proper. Qed.

Lemma list_to_map_entries (r : Row) : list_to_map (zip (keys r) (map_to_list r).*2) = r.
Proof. unfold keys. by rewrite zip_fst_snd, list_to_map_to_list. Qed.

(** The assignments of an update, and the row they make. *)
Lemma dirty_assignments e o : original e = Some o -> dom o ⊆ dom (current e) ->
  exists d, get_dirty_fields e = d.*1 /\ omap (fun c => current e !! c) (get_dirty_fields e) = d.*2 /\ NoDup d.*1 /\
    forall k v, (k, v) ∈ d <-> current e !! k = Some v /\ differs o k v = true.
Proof.
  intros Ho Hdom. unfold get_dirty_fields. rewrite Ho. set (d := filter _ (map_to_list (current e))). exists d.
  assert (Hnone : filter (fun k => current e !! k = None) (keys o) = []).
  { apply elem_of_nil_inv. intros k [Hn Hk]%list_elem_of_filter. unfold keys in Hk. apply list_elem_of_fmap in Hk as ([k' v] & -> & Hk).
    apply elem_of_map_to_list in Hk. apply not_elem_of_dom in Hn. apply Hn, Hdom. by apply elem_of_dom. }
  rewrite Hnone, app_nil_r.
  assert (Hd : forall k v, (k, v) ∈ d <-> current e !! k = Some v /\ differs o k v = true).
  { intros k v. unfold d. rewrite list_elem_of_filter, elem_of_map_to_list. tauto. }
  split; [done |]. split_and!; [| | done].
  - assert (Hc : forall k v, (k, v) ∈ d -> current e !! k = Some v) by (intros k v Hk; by apply Hd).
    clear -Hc; clearbody d; induction d as [| [k v] d IH]; [done |]. cbn. rewrite (Hc k v (list_elem_of_here _ _)). cbn.
    f_equal. apply IH. intros k' v' Hin. apply Hc. by right.
  - eapply sublist_NoDup; [apply (NoDup_fst_map_to_list (current e)) |]. apply fmap_sublist, sublist_filter.
Qed.

Lemma assigned_row (e : EntityEntry) (o r : Row) (d : list (string * Value)) :
  dom o ⊆ dom (current e) -> same_row r o -> NoDup d.*1 ->
  (forall k v, (k, v) ∈ d <-> current e !! k = Some v /\ differs o k v = true) ->
  same_row (list_to_map d ∪ r) (current e).
Proof.
  intros Hdom Hr Hn Hd f. rewrite lookup_union. destruct (list_to_map d !! f) as [v |] eqn:E.
  - apply elem_of_list_to_map in E; [| done]. apply Hd in E as [-> _]. rewrite union_Some_l. constructor. reflexivity.
  - rewrite option_union_left_id. specialize (Hr f). apply not_elem_of_list_to_map in E.
    destruct (current e !! f) as [v |] eqn:Ec.
    + destruct (differs o f v) eqn:Ev.
      { destruct E. apply list_elem_of_fmap. exists (f, v). split; [done |]. by apply Hd. }
      unfold differs in Ev. destruct (o !! f) as [ov |]; [| done]. apply negb_false_iff in Ev.
      inversion Hr as [rv ? Hs |]; subst. constructor. unfold same_value in *. eapply rtc_r; done.
    + assert (Ho : o !! f = None) by (apply not_elem_of_dom; apply not_elem_of_dom in Ec; set_solver).
      rewrite Ho in Hr. inversion Hr. constructor.
Qed.

Definition exec_option (s : option Statement) (db : Database) : option Database :=
  match s with Some s => exec s db | None => Some db end.

Lemma exec_all_entry e es db : exec_all (omap entry_statement (e :: es)) db =
  db ← exec_option (entry_statement e) db; exec_all (omap entry_statement es) db.
Proof. cbn. by destruct (entry_statement e). Qed.

(** The statement of an entry touches its row alone. *)
Definition only_at (k : EntityKey) (row : option Row) (db : Database) : Database := partial_alter (fun _ => row) k db.

Lemma only_at_ok k row db : rows_identified db -> (forall r, row = Some r -> row_id r = Some (id k)) -> rows_identified (only_at k row db).
Proof.
  intros Hdb Hr k' r' Hk. unfold only_at in Hk. destruct (decide (k = k')) as [<- |].
  - rewrite lookup_partial_alter_eq in Hk. by apply Hr.
  - rewrite lookup_partial_alter_ne in Hk by done. by apply Hdb.
Qed.

Lemma key_eta k : mkEntityKey (table k) (id k) = k.
Proof. by destruct k. Qed.

(** One entry: its statement is taken and saves it. *)
Lemma exec_entry (db : Database) k e : entry_in_sync (db !! k) k e ->
  exists row', exec_option (entry_statement e) db = Some (only_at k row' db) /\ saved e row' /\
    (forall r, row' = Some r -> row_id r = Some (id k)).
Proof.
  intros [<- Hs]. unfold entry_statement, saved. destruct (state e) eqn:Es; try done.
  - destruct Hs as (o & r & Ho & Hr & Hsame & Hdom & Hid & Hc). specialize (Hc eq_refl) as <-.
    exists (Some r). unfold only_at. cbn. split_and!; [| by exists r |].
    + f_equal. symmetry. by apply partial_alter_id.
    + intros ? [= <-]. by rewrite (same_row_id _ _ Hsame).
  - destruct Hs as (Ho & Hn & Hid). exists (Some (current e)). cbn [exec_option exec].
    unfold keys. rewrite !length_fmap, Nat.eqb_refl, zip_fst_snd, list_to_map_to_list, Hid. cbn. rewrite key_eta, Hn.
    split_and!; [done | by exists (current e) |]. by intros ? [= <-].
  - destruct Hs as (o & r & Ho & Hr & Hsame & Hdom & Hid & _).
    destruct (dirty_assignments e o Ho Hdom) as (d & E1 & E2 & Hn & Hd). rewrite E1 in *. rewrite E2.
    pose proof (assigned_row e o r d Hdom Hsame Hn Hd) as Hrow. exists (Some (list_to_map d ∪ r)).
    assert (Hid' : row_id (list_to_map d ∪ r) = Some (id (key e))) by by rewrite (same_row_id _ _ Hrow).
    split_and!; [| by eexists | by intros ? [= <-]]. destruct d as [| p d].
    + cbn. rewrite map_empty_union. f_equal. symmetry. by apply partial_alter_id.
    + set (ps := p :: d) in *. change (is_nil ps.*1) with false. cbn [exec_option exec].
      rewrite !length_fmap, Nat.eqb_refl, zip_fst_snd, key_eta, Hr, decide_True by done. done.
  - exists None. cbn. rewrite key_eta. done.
Qed.

Lemma only_at_ne k k' row db : k <> k' -> only_at k row db !! k' = db !! k'.
Proof. apply lookup_partial_alter_ne. Qed.

Lemma exec_entries es db : NoDup (key <$> es) -> rows_identified db ->
  (forall e, e ∈ es -> entry_in_sync (db !! key e) (key e) e) ->
  exists db', exec_all (omap entry_statement es) db = Some db' /\ rows_identified db' /\
    (forall e, e ∈ es -> saved e (db' !! key e)) /\ (forall k, k ∉ key <$> es -> db' !! k = db !! k).
Proof.
  revert db. induction es as [| e es IH]; intros db Hn Hdb He.
  { exists db. split_and!; [done | done | by intros e ?%not_elem_of_nil | done]. }
  apply NoDup_cons in Hn as [Hf Hn]. destruct (exec_entry db (key e) e) as (row & Hx & Hs & Hid); [apply He; by left |].
  destruct (IH (only_at (key e) row db) Hn) as (db' & Hx' & Hdb' & Hs' & Ho); [by apply only_at_ok | |].
  { intros e' He'. rewrite only_at_ne; [apply He; by right |]. intros Heq. apply Hf, list_elem_of_fmap. by exists e'. }
  exists db'. rewrite exec_all_entry, Hx. split_and!; [done | done | |].
  - intros e' [-> | He']%elem_of_cons; [| by apply Hs']. rewrite Ho by done. unfold only_at. by rewrite lookup_partial_alter_eq.
  - intros k [Hk Hk']%not_elem_of_cons. rewrite Ho by done. by apply only_at_ne.
Qed.

Lemma values_tracked db t : in_sync db t -> (forall e, e ∈ values t <-> t !! key e = Some e) /\ NoDup (key <$> values t).
Proof.
  intros [_ Ht]. assert (Hk : forall k e, (k, e) ∈ map_to_list t -> key e = k).
  { intros k e Hke%elem_of_map_to_list. by apply (Ht k e Hke). }
  split.
  - intros e. unfold values. rewrite list_elem_of_fmap. split.
    + intros ([k e'] & -> & Hke). cbn. rewrite (Hk k e' Hke). by apply elem_of_map_to_list.
    + intros Hke%elem_of_map_to_list. by exists (key e, e).
  - unfold values. rewrite <- list_fmap_compose.
    rewrite (list_fmap_ext (key ∘ snd) fst) by (intros i [k e] Hi; apply (Hk k e); by eapply list_elem_of_lookup_2).
    apply NoDup_fst_map_to_list.
Qed.

Lemma save_in_sync db t es : in_sync db t -> es ≡ₚ values t ->
  exists db', exec_all (omap entry_statement es) db = Some db' /\ rows_identified db' /\
    (forall k, match t !! k with Some e => saved e (db' !! k) | None => db' !! k = db !! k end).
Proof.
  intros Hs Hes. destruct (values_tracked db t Hs) as [Hv Hn], Hs as [Hdb Ht].
  destruct (exec_entries es db) as (db' & Hx & Hdb' & Hsaved & Ho); [by rewrite Hes | done | |].
  { intros e He. rewrite Hes in He. apply (Ht (key e) e). by apply Hv. }
  exists db'. split_and!; [done | done |]. intros k. destruct (t !! k) as [e |] eqn:E.
  - destruct (Ht k e E) as [<- _]. apply Hsaved. rewrite Hes. by apply Hv.
  - apply Ho. rewrite Hes. intros (e & -> & He)%list_elem_of_fmap. apply Hv in He. congruence.
Qed.

Lemma accept_in_sync db db' t : in_sync db t -> rows_identified db' ->
  (forall k, match t !! k with Some e => saved e (db' !! k) | None => db' !! k = db !! k end) ->
  in_sync db' (accept_changes t).
Proof.
  intros [_ Ht] Hdb' Hs. split; [done |]. intros k e' He'. unfold accept_changes in He'. rewrite lookup_omap in He'.
  specialize (Hs k). destruct (t !! k) as [e |] eqn:E; [| done]. cbn in He'. unfold accept, saved in *.
  destruct (decide (state e = Deleted)); [done |]. injection He' as <-. destruct Hs as (r & Hr & Hsame).
  destruct (Ht k e E) as [<- _]. split; [done |]. exists (current e), r. cbn.
  split_and!; [done | done | done | done | | done]. rewrite <- (same_row_id _ _ Hsame). by apply Hdb'.
Qed.

Lemma step_in_sync s s' : session_step s s' -> in_sync s.1 s.2 -> in_sync s'.1 s'.2.
Proof.
  intros Hstep Hs. pose proof Hs as [Hdb Ht]. destruct Hstep as [db t k row Hk | db t k row Hk Hid | db t k e row Hk Hid Hf | db t k | db t k | db t | db t es db' Hes Hx]; cbn in *.
  - split; [done |]. apply map_Forall_insert_2; [| done]. split; [done |]. exists row, row. cbn.
    split_and!; [done | done | done | done | by apply Hdb | done].
  - split; [done |]. apply map_Forall_insert_2; [| done]. done.
  - split; [done |]. unfold update. rewrite Hk. apply map_Forall_insert_2; [| done].
    destruct (Ht k e Hk) as [Hkey He]. split; [done |]. cbn. destruct (state e) eqn:Es; cbn; try done.
    + destruct He as (o & r & Ho & Hr & Hsame & _). exists o, r. split_and!; [done | done | done | by apply Hf | done | done].
    + destruct He as (Ho & Hn & _). done.
    + destruct He as (o & r & Ho & Hr & Hsame & _). exists o, r. split_and!; [done | done | done | by apply Hf | done | done].
  - split; [done |]. intros k' e'. unfold mark_deleted. destruct (decide (k = k')) as [<- |].
    + rewrite lookup_alter_eq. intros (e & Hk & ->)%fmap_Some. split; [apply (Ht k e Hk) | done].
    + rewrite lookup_alter_ne by done. apply Ht.
  - split; [done |]. by apply map_Forall_delete.
  - split; [done |]. intros k e' He'. unfold detect_changes in He'. rewrite lookup_fmap in He'.
    apply fmap_Some in He' as (e & Hk & ->). pose proof (Ht k e Hk) as He. unfold detect.
    destruct (decide (state e = Unchanged)) as [Es |]; [| done]. destruct (is_nil _); [done |].
    destruct He as [Hkey He]. split; [done |]. rewrite Es in He. destruct He as (o & r & Ho & Hr & Hsame & Hd & Hid & Hc).
    exists o, r. cbn. done.
  - destruct (save_in_sync db t es Hs Hes) as (db1 & Hx1 & Hdb1 & Hsaved). replace db1 with db' in * by congruence.
    by eapply accept_in_sync.
Qed.

Lemma accepted_clean t : build_sql_operations (accept_changes t) = [].
Proof.
  unfold build_sql_operations. replace (omap entry_statement (values (accept_changes t))) with (@nil Statement); [done |].
  symmetry. apply elem_of_nil_inv. intros s (e & He & Hs)%list_elem_of_omap. unfold values in He.
  apply list_elem_of_fmap in He as ([k e'] & -> & He%elem_of_map_to_list). unfold accept_changes in He. rewrite lookup_omap in He.
  destruct (t !! k) as [e |]; [| done]. cbn in He. unfold accept in He. destruct (decide _); [done |]. by injection He as <-.
Qed.

End Saving.

(** A database that compares the texts of its ids. *)
Definition id_text (v : Value) : option string :=
  match v with VString s | VUuid s => Some s | VI64 n | VI32 n => Some (pretty n) | _ => None end.

Lemma id_text_same v w : same_value v w -> id_text v = id_text w.
Proof.
  induction 1 as [| v u w Hvu _ IH]; [done |]. rewrite <- IH. clear IH.
  destruct v, u; try done; cbn in *; first [apply Z.eqb_eq in Hvu as -> | apply String.eqb_eq in Hvu as ->]; done.
Qed.

Definition id_of_row (r : Row) : option string := r !! "id" ≫= id_text.

#[export] Instance text_ids : RowIds.
Proof.
  refine {| row_id := id_of_row |}. intros r r' Hr. specialize (Hr "id"). unfold id_of_row.
  inversion Hr as [v w Hvw E E' | E E']; rewrite <- ?E, <- ?E'; [exact (id_text_same v w Hvw) | reflexivity].
Defined.

Definition user (i : string) : EntityKey := mkEntityKey "users" i.
Definition named (i n : string) : Row := {["id" := VString i; "name" := VString n]}.


(** ** What is lost *)

(** An entity that is not tracked is its own original: its update writes nothing. *)
Lemma untracked_update_lost :
  let t := update (user "1") (named "1" "bob") tracker_new in
  pending_count t = 1%nat /\ build_sql_operations t = [].
Proof. split; vm_compute; reflexivity. Qed.

(** An added entity that is tracked as modified, as in the documentation, is never inserted. *)
Lemma added_then_modified_lost :
  let t := track (user "1") (named "1" "bob") Modified (track (user "1") (named "1" "alice") Added tracker_new) in
  pending_count t = 1%nat /\ build_sql_operations t = [].
Proof. split; vm_compute; reflexivity. Qed.

(** A field that is taken away gets an assignment without a parameter. *)
Lemma removed_field_unbound :
  let t := update (user "1") {["id" := VString "1"]} (mark_unchanged (user "1") (named "1" "ann") tracker_new) in
  build_sql_operations t = [("UPDATE users SET name = ? WHERE id = ?", [VString "1"])].
Proof. vm_compute. reflexivity. Qed.

(** * One row: [DirtyTracker] *)

Module Dirty.

Record DirtyTracker : Type := mkDirty { original : Row; current : Row }.

Definition dirty_new (initial : Row) : DirtyTracker := mkDirty initial initial.
Definition dirty_empty : DirtyTracker := mkDirty ∅ ∅.
Definition set (field : string) (v : Value) (t : DirtyTracker) : DirtyTracker := mkDirty (original t) (<[field := v]> (current t)).
Definition set_many (fields : Row) (t : DirtyTracker) : DirtyTracker := mkDirty (original t) (fields ∪ current t).
Definition get (field : string) (t : DirtyTracker) : option Value := current t !! field.
Definition get_original (field : string) (t : DirtyTracker) : option Value := original t !! field.

Definition dirty_fields_iter (t : DirtyTracker) : list string :=
  filter (fun k => match original t !! k with
                   | None => true
                   | Some o => match current t !! k with Some c => negb (value_eqb c o) | None => true end
                   end = true) (keys (current t))
  ++ filter (fun k => current t !! k = None) (keys (original t)).

Definition is_dirty (t : DirtyTracker) : bool :=
  negb (size (original t) =? size (current t))%nat || negb (is_nil (dirty_fields_iter t)).

Definition is_field_dirty (field : string) (t : DirtyTracker) : bool :=
  match original t !! field, current t !! field with
  | None, None => false
  | Some o, Some c => negb (value_eqb o c)
  | _, _ => true
  end.

Definition sorted_dirty_fields (t : DirtyTracker) : list string := merge_sort String.le (dirty_fields_iter t).

Definition get_dirty_attributes (t : DirtyTracker) : Row :=
  foldl (fun m k => match current t !! k with Some v => <[k := v]> m | None => m end) ∅ (dirty_fields_iter t).

Definition mark_clean (t : DirtyTracker) : DirtyTracker := mkDirty (current t) (current t).
Definition rollback (t : DirtyTracker) : DirtyTracker := mkDirty (original t) (original t).
Definition clear (t : DirtyTracker) : DirtyTracker := mkDirty ∅ ∅.

Section Statements.
Context `{FloatText}.

Definition build_dynamic_update (dialect : Dialect) (table pk_column : string) (pk_value : Value) (t : DirtyTracker) : option string :=
  let dirty := get_dirty_attributes t in
  if decide (dirty = ∅) then None
  else
    let sets := (fun k => quote dialect k +:+ " = " +:+ to_param_with_dialect dialect (default VNull (dirty !! k))) <$> sorted_keys dirty in
    Some ("UPDATE " +:+ quote dialect table +:+ " SET " +:+ join ", " sets +:+ " WHERE " +:+ quote dialect pk_column +:+ " = "
          +:+ to_param_with_dialect dialect pk_value).

Definition not_null (v : Value) : bool := match v with VNull => false | _ => true end.

Definition build_dynamic_insert (dialect : Dialect) (table : string) (data : Row) : option string :=
  let non_null := filter (fun '(_, v) => not_null v = true) data in
  if decide (non_null = ∅) then None
  else
    let columns := sorted_keys non_null in
    Some ("INSERT INTO " +:+ quote dialect table +:+ " (" +:+ join ", " ((fun k => quote dialect k) <$> columns) +:+ ") VALUES ("
          +:+ join ", " ((fun k => to_param_with_dialect dialect (default VNull (non_null !! k))) <$> columns) +:+ ")").
End Statements.

Lemma elem_of_keys {A} (m : gmap string A) k : k ∈ keys m <-> is_Some (m !! k).
Proof.
  unfold keys. rewrite list_elem_of_fmap. split.
  - intros ([k' v] & -> & Hk%elem_of_map_to_list). by exists v.
  - intros [v Hv%elem_of_map_to_list]. by exists (k, v).
Qed.

(** The derived equality is symmetric enough for the two places that ask it in different orders. *)
Definition comparable (t : DirtyTracker) : Prop :=
  forall f o c, original t !! f = Some o -> current t !! f = Some c -> value_eqb c o = value_eqb o c.

(** A field is listed exactly when it is dirty, and a row is dirty exactly when a field is. *)
Lemma dirty_fields_spec t f : comparable t -> f ∈ dirty_fields_iter t <-> is_field_dirty f t = true.
Proof.
  intros Hc. specialize (Hc f). unfold dirty_fields_iter, is_field_dirty.
  rewrite elem_of_app, !list_elem_of_filter, !elem_of_keys. unfold is_Some.
  destruct (original t !! f) as [o |], (current t !! f) as [c |]; try rewrite (Hc o c) by done; naive_solver.
Qed.

Lemma is_dirty_spec t : comparable t -> is_dirty t = true <-> exists f, is_field_dirty f t = true.
Proof.
  intros Hc. unfold is_dirty. split.
  - intros [Hs | Hs]%orb_true_iff.
    + apply negb_true_iff, Nat.eqb_neq in Hs. destruct (dirty_fields_iter t) as [| f l] eqn:E.
      * destruct Hs. rewrite <- !size_dom. f_equal. apply set_eq. intros f. rewrite !elem_of_dom.
        assert (Hf : is_field_dirty f t <> true) by (rewrite <- dirty_fields_spec, E by done; apply not_elem_of_nil).
        unfold is_field_dirty in Hf. destruct (original t !! f), (current t !! f); naive_solver.
      * exists f. apply dirty_fields_spec; [done |]. rewrite E. by left.
    + destruct (dirty_fields_iter t) as [| f l] eqn:E; [done |]. exists f. apply dirty_fields_spec; [done |]. rewrite E. by left.
  - intros [f Hf]. apply dirty_fields_spec in Hf; [| done]. apply orb_true_iff. right. destruct (dirty_fields_iter t); [by apply not_elem_of_nil in Hf | done].
Qed.

Lemma sorted_dirty_fields_spec t f : comparable t -> f ∈ sorted_dirty_fields t <-> is_field_dirty f t = true.
Proof. intros Hc. unfold sorted_dirty_fields. rewrite merge_sort_Permutation. by apply dirty_fields_spec. Qed.

(** The attributes to write are the current values of the dirty fields that are still there. *)
Lemma get_dirty_attributes_spec t f v : comparable t ->
  get_dirty_attributes t !! f = Some v <-> is_field_dirty f t = true /\ current t !! f = Some v.
Proof.
  intros Hc. rewrite <- dirty_fields_spec by done. unfold get_dirty_attributes.
  assert (Hgen : forall l (m : Row), foldl (fun m k => match current t !! k with Some v => <[k := v]> m | None => m end) m l !! f = Some v <->
    (f ∈ l /\ current t !! f = Some v) \/ (~ (f ∈ l /\ is_Some (current t !! f)) /\ m !! f = Some v)).
  { induction l as [| k l IH]; intros m; cbn; [rewrite !elem_of_nil; naive_solver |]. rewrite IH, elem_of_cons.
    destruct (decide (f = k)) as [-> | Hne].
    - destruct (current t !! k) as [c |] eqn:E; [rewrite lookup_insert_eq |]; destruct (decide (k ∈ l)); naive_solver.
    - destruct (current t !! k) as [c |] eqn:E; [rewrite lookup_insert_ne by done |]; naive_solver. }
  rewrite Hgen, lookup_empty. naive_solver.
Qed.

(** After [rollback] the row is the one that was loaded, and its fields are clean if they equal themselves. *)
Lemma rollback_clean t f : (forall v, original t !! f = Some v -> value_eqb v v = true) ->
  current (rollback t) = original t /\ is_field_dirty f (rollback t) = false.
Proof. intros Hv. split; [done |]. unfold is_field_dirty. cbn. destruct (original t !! f) as [v |]; [by rewrite Hv | done]. Qed.

(** A row whose only change is a field taken away is dirty, and nothing is written. *)
Lemma removed_field_not_written `{FloatText} d :
  let t := mkDirty (named "1" "ann") {["id" := VString "1"]} in
  is_dirty t = true /\ build_dynamic_update d "users" "id" (VString "1") t = None.
Proof. split; vm_compute; reflexivity. Qed.

Example build_dynamic_example :
  @build_dynamic_update no_digits MySqlDialect "users" "id" (VI64 1) (set "age" (VI64 26) (set "name" (VString "o'x") (dirty_new {["id" := VI64 1]})))
  = Some "UPDATE `users` SET `age` = 26, `name` = 'o\'x' WHERE `id` = 1"
  /\ @build_dynamic_insert no_digits MySqlDialect "users" {["a" := VNull; "b" := VI64 1]} = Some "INSERT INTO `users` (`b`) VALUES (1)".
Proof. split; vm_compute; reflexivity. Qed.
End Dirty.
