(* ===== verification/ReadWrite.v ===== *)
(** Reads over the slaves of a master: [sz-orm-rw/src/lib.rs], the health of slaves, the share of reads
    that go to the master, and the strategies of the router. *)

From Stdlib Require Import Ascii String.
From S2P Require Import Prelude.
Local Open Scope string_scope.
Local Open Scope list_scope.
Local Open Scope Z_scope.

Inductive LoadBalanceStrategy : Type := RoundRobin | Random | LeastConnections | WeightedRoundRobin.

Inductive SlaveHealth : Type := Healthy | Unhealthy | Drained.

#[export] Instance slave_health_eq_dec : EqDecision SlaveHealth.
Proof. solve_decision. Defined.

Record WeightedSlave : Type := mkWeighted { addr : string; slave_weight : Z; slave_health : SlaveHealth }.

Definition weighted_new (addr : string) (weight : Z) : WeightedSlave := mkWeighted addr (Z.max weight 1) Healthy.
Definition with_health (h : SlaveHealth) (s : WeightedSlave) : WeightedSlave := mkWeighted (addr s) (slave_weight s) h.

(** * Latencies *)

Record LatencySnapshot : Type := mkLatency { samples : Z; min_ns : Z; max_ns : Z; sum_ns : Z }.

Definition latency_default : LatencySnapshot := mkLatency 0 0 0 0.
Definition u64_max : Z := 2 ^ 64 - 1.

(** The nanoseconds are a [u128]; the smallest is 0 also when nothing has been recorded. *)
Definition record_latency (ns : Z) (s : LatencySnapshot) : LatencySnapshot :=
  mkLatency (wrap64 (samples s + 1))
    (if (min_ns s =? 0) || (ns <? min_ns s) then Z.min ns u64_max else min_ns s)
    (if max_ns s <? ns then Z.min ns u64_max else max_ns s)
    (Z.min (sum_ns s + ns) (2 ^ 128 - 1)).

Definition avg_ns (s : LatencySnapshot) : Z := if samples s =? 0 then 0 else wrap64 (sum_ns s / samples s).

Abbreviation LatencyStats := (gmap string LatencySnapshot).

Definition stats_record (slave : string) (ns : Z) (m : LatencyStats) : LatencyStats :=
  <[slave := record_latency ns (default latency_default (m !! slave))]> m.
Definition stats_snapshot (slave : string) (m : LatencyStats) : LatencySnapshot := default latency_default (m !! slave).
Definition stats_reset (slave : string) (m : LatencyStats) : LatencyStats := delete slave m.

(** * The share of the master *)

Record ReadRationing : Type := mkRationing { master_read_percent : Z; ration_counter : Z }.

Definition rationing_new (percent : Z) : ReadRationing := mkRationing (Z.min percent 100) 0.

Definition should_read_master (r : ReadRationing) : bool * ReadRationing :=
  if master_read_percent r =? 0 then (false, r)
  else if master_read_percent r =? 100 then (true, r)
  else (ration_counter r mod 100 <? master_read_percent r, mkRationing (master_read_percent r) (wrap64 (ration_counter r + 1))).

Definition set_percent (percent : Z) (r : ReadRationing) : ReadRationing := mkRationing (Z.min percent 100) 0.

(** * Health *)

Record HealthChecker : Type := mkChecker {
  states : gmap string SlaveHealth;
  failure_threshold : Z;
  failure_counts : gmap string Z;
}.

Definition checker_new (threshold : Z) : HealthChecker := mkChecker ∅ threshold ∅.
Definition checker_default : HealthChecker := checker_new 3.

Definition register (slave : string) (h : HealthChecker) : HealthChecker :=
  mkChecker (<[slave := default Healthy (states h !! slave)]> (states h)) (failure_threshold h) (failure_counts h).

Definition set_health (slave : string) (health : SlaveHealth) (h : HealthChecker) : HealthChecker :=
  mkChecker (<[slave := health]> (states h)) (failure_threshold h)
    (if decide (health = Healthy) then delete slave (failure_counts h) else failure_counts h).

Definition failure_count (slave : string) (h : HealthChecker) : Z := default 0 (failure_counts h !! slave).

Definition record_failure (slave : string) (h : HealthChecker) : bool * HealthChecker :=
  let count := Z.min (failure_count slave h + 1) (2 ^ 32 - 1) in
  let h := mkChecker (states h) (failure_threshold h) (<[slave := count]> (failure_counts h)) in
  if failure_threshold h <=? count then (true, set_health slave Unhealthy h) else (false, h).

Definition record_success (slave : string) (h : HealthChecker) : HealthChecker :=
  mkChecker (states h) (failure_threshold h) (delete slave (failure_counts h)).

Definition health (slave : string) (h : HealthChecker) : option SlaveHealth := states h !! slave.

Definition list_by_health (s : SlaveHealth) (h : HealthChecker) : list string :=
  (filter (fun p => p.2 = s) (map_to_list (states h))).*1.

(** * The router *)

Record ReadWriteRouter : Type := mkRouter {
  master : string;
  slaves : list string;
  strategy : LoadBalanceStrategy;
  round_robin_counter : Z;
  connection_counts : list Z;
  weights : gmap string Z;
  health_checker : HealthChecker;
  latency_stats : LatencyStats;
  rationing : ReadRationing;
}.

Definition router_new (master : string) (slaves : list string) : ReadWriteRouter :=
  mkRouter master slaves RoundRobin 0 (replicate (length slaves) 0)
    (foldl (fun m s => <[s := 1]> m) ∅ slaves) (foldl (fun h s => register s h) checker_default slaves) ∅ (rationing_new 0).

Definition with_counter (c : Z) (r : ReadWriteRouter) : ReadWriteRouter :=
  mkRouter (master r) (slaves r) (strategy r) c (connection_counts r) (weights r) (health_checker r) (latency_stats r) (rationing r).
Definition with_rationing (x : ReadRationing) (r : ReadWriteRouter) : ReadWriteRouter :=
  mkRouter (master r) (slaves r) (strategy r) (round_robin_counter r) (connection_counts r) (weights r) (health_checker r)
    (latency_stats r) x.
Definition with_counts (c : list Z) (r : ReadWriteRouter) : ReadWriteRouter :=
  mkRouter (master r) (slaves r) (strategy r) (round_robin_counter r) c (weights r) (health_checker r) (latency_stats r) (rationing r).

Definition is_healthy (r : ReadWriteRouter) (s : string) : bool := bool_decide (default Healthy (health s (health_checker r)) = Healthy).

(** The positions of the healthy slaves. *)
Definition healthy_indices (r : ReadWriteRouter) : list nat :=
  filter (fun i => match slaves r !! i with Some s => is_healthy r s | None => false end = true) (seq 0 (length (slaves r))).

Definition weight_at (r : ReadWriteRouter) (i : nat) : Z := default 1 (slaves r !! i ≫= fun s => weights r !! s).

Fixpoint find_weighted (r : ReadWriteRouter) (pick : Z) (indices : list nat) (last : nat) : nat :=
  match indices with
  | [] => last
  | i :: indices => if pick <? weight_at r i then i else find_weighted r (pick - weight_at r i) indices last
  end.

Definition total_weight (r : ReadWriteRouter) (indices : list nat) : Z := foldr Z.add 0 (weight_at r <$> indices).

Definition nth_index (indices : list nat) (i : nat) : nat := default 0%nat (indices !! i).

Definition select_weighted_index (indices : list nat) (r : ReadWriteRouter) : nat * ReadWriteRouter :=
  let total := total_weight r indices in
  if total =? 0 then (nth_index indices 0, r)
  else
    let counter := round_robin_counter r in
    (find_weighted r (counter mod total) indices (nth_index indices (length indices - 1)), with_counter (wrap64 (counter + 1)) r).

Definition connections (counts : list Z) (i : nat) : Z := default 0 (counts !! i).

Definition least_step (counts : list Z) (best : nat * Z) (i : nat) : nat * Z :=
  if connections counts i <? best.2 then (i, connections counts i) else best.

(** The first of the indices with the fewest connections. *)
Definition least_connections (counts : list Z) (indices : list nat) : nat :=
  match indices with
  | [] => 0%nat
  | i :: indices => fst (foldl (least_step counts) (i, connections counts i) indices)
  end.

(** [select_healthy_slave] as a position; [gen_range n] is the number the generator draws below [n]. *)
Definition select_healthy_slave (gen_range : nat -> nat) (r : ReadWriteRouter) : option nat * ReadWriteRouter :=
  let indices := healthy_indices r in
  if is_nil indices then (None, r)
  else
    match strategy r with
    | RoundRobin =>
        let counter := round_robin_counter r in
        (Some (nth_index indices (Z.to_nat (counter mod Z.of_nat (length indices)))), with_counter (wrap64 (counter + 1)) r)
    | Random => (Some (nth_index indices (gen_range (length indices))), r)
    | LeastConnections => (Some (least_connections (connection_counts r) indices), r)
    | WeightedRoundRobin => let '(i, r) := select_weighted_index indices r in (Some i, r)
    end.

(** [slave]: [None] stands for the master. *)
Definition choose (gen_range : nat -> nat) (r : ReadWriteRouter) : option nat * ReadWriteRouter :=
  if is_nil (slaves r) then (None, r)
  else
    let '(to_master, x) := should_read_master (rationing r) in
    let r := with_rationing x r in
    if to_master then (None, r) else select_healthy_slave gen_range r.

Definition slave (gen_range : nat -> nat) (r : ReadWriteRouter) : string * ReadWriteRouter :=
  let '(i, r) := choose gen_range r in
  (match i with Some i => default "" (slaves r !! i) | None => master r end, r).

Definition set_strategy (s : LoadBalanceStrategy) (r : ReadWriteRouter) : ReadWriteRouter :=
  mkRouter (master r) (slaves r) s (round_robin_counter r) (connection_counts r) (weights r) (health_checker r) (latency_stats r) (rationing r).

Definition unknown_slave (s : string) : string := ("unknown slave: " +:+ s)%string.

Definition set_weight (s : string) (w : Z) (r : ReadWriteRouter) : result unit string * ReadWriteRouter :=
  if bool_decide (s ∈ slaves r) then
    (Ok tt, mkRouter (master r) (slaves r) (strategy r) (round_robin_counter r) (connection_counts r) (<[s := Z.max w 1]> (weights r))
              (health_checker r) (latency_stats r) (rationing r))
  else (Err (unknown_slave s), r).

Definition weight (s : string) (r : ReadWriteRouter) : option Z := weights r !! s.

Definition set_read_rationing (percent : Z) (r : ReadWriteRouter) : ReadWriteRouter := with_rationing (set_percent percent (rationing r)) r.
Definition read_rationing_percent (r : ReadWriteRouter) : Z := master_read_percent (rationing r).

(** [slaves.iter().position(|s| s == slave)] *)
Definition position (s : string) (l : list string) : option nat := fst <$> list_find (fun x => x = s) l.

Definition acquire (s : string) (r : ReadWriteRouter) : result unit string * ReadWriteRouter :=
  match position s (slaves r) with
  | Some i => (Ok tt, with_counts (alter (fun n => Z.min (n + 1) u64_max) i (connection_counts r)) r)
  | None => (Err (unknown_slave s), r)
  end.

Definition release (s : string) (r : ReadWriteRouter) : result unit string * ReadWriteRouter :=
  match position s (slaves r) with
  | Some i => (Ok tt, with_counts (alter (fun n => if 0 <? n then n - 1 else n) i (connection_counts r)) r)
  | None => (Err (unknown_slave s), r)
  end.

Definition connection_count (s : string) (r : ReadWriteRouter) : option Z := position s (slaves r) ≫= fun i => connection_counts r !! i.

(** Reads one after another. *)
Fixpoint reads (gen_range : nat -> nat) (n : nat) (r : ReadWriteRouter) : list (option nat) * ReadWriteRouter :=
  match n with
  | O => ([], r)
  | S n => let '(i, r) := choose gen_range r in let '(rest, r) := reads gen_range n r in (i :: rest, r)
  end.

Example reads_example :
  let r := set_strategy WeightedRoundRobin (snd (set_weight "b" 3 (router_new "m" ["a"; "b"; "c"]))) in
  fst (reads (fun _ => 0%nat) 6 r) = [Some 0; Some 1; Some 1; Some 1; Some 2; Some 0]%nat.
Proof. vm_compute. reflexivity. Qed.

(** * Fairness *)

(** ** Turns *)

(** Consecutive numbers hit every remainder once. *)
Lemma rotation (c T : Z) : 0 < T -> (fun j => (c + j) mod T) <$> seqZ 0 T ≡ₚ seqZ 0 T.
Proof.
  intros HT. apply NoDup_Permutation; [| apply NoDup_seqZ |].
  - apply NoDup_fmap_2_strong; [| apply NoDup_seqZ]. intros x y Hx%elem_of_seqZ Hy%elem_of_seqZ Heq.
    assert (Hd : (x - y) mod T = 0).
    { replace (x - y) with ((c + x) - (c + y)) by lia. rewrite Zminus_mod, Heq, Z.sub_diag. apply Z.mod_0_l. lia. }
    apply Z.mod_divide in Hd as [q Hq]; [| lia]. destruct (Z.lt_trichotomy q 0) as [? | [-> | ?]]; nia.
  - intros x. rewrite list_elem_of_fmap, elem_of_seqZ. split.
    + intros (j & -> & Hj). pose proof (Z.mod_pos_bound (c + j) T HT). lia.
    + intros Hx. exists ((x - c) mod T). pose proof (Z.mod_pos_bound (x - c) T HT). split; [| by apply elem_of_seqZ; lia].
      rewrite Zplus_mod_idemp_r. replace (c + (x - c)) with x by lia. symmetry. apply Z.mod_small. lia.
Qed.

Definition times (i : nat) (l : list (option nat)) : nat := length (filter (fun x => x = Some i) l).

#[export] Instance times_proper i : Proper (Permutation ==> eq) (times i).
Proof. intros l l' Hl. unfold times. by rewrite Hl. Qed.

Lemma times_app i l l' : times i (l ++ l') = (times i l + times i l')%nat.
Proof. unfold times. by rewrite filter_app, length_app. Qed.

Lemma times_replicate i j n : times i (replicate n (Some j)) = if decide (i = j) then n else 0%nat.
Proof.
  unfold times. induction n as [| n IH]; [by case_decide |]. cbn [replicate]. rewrite filter_cons.
  destruct (decide (Some j = Some i)) as [[= ->] | Hne]; cbn; rewrite IH; repeat case_decide; congruence.
Qed.

(** Every index is found as often as its weight says. *)
Lemma find_weighted_replicates r last indices : Forall (fun i => 0 <= weight_at r i) indices ->
  (fun p => Some (find_weighted r p indices last)) <$> seqZ 0 (total_weight r indices)
  = concat ((fun i => replicate (Z.to_nat (weight_at r i)) (Some i)) <$> indices).
Proof.
  induction 1 as [| i indices Hi Hw IH]; [done |]. change (total_weight r (i :: indices)) with (weight_at r i + total_weight r indices).
  assert (Ht : 0 <= total_weight r indices) by (unfold total_weight; clear IH Hi; induction Hw; cbn in *; lia).
  rewrite seqZ_app, fmap_app by lia. cbn [fmap list_fmap concat]. f_equal.
  - rewrite (const_fmap _ _ (Some i)); [by rewrite length_seqZ |]. intros k p Hk. apply lookup_seqZ in Hk as [-> Hk]. cbn.
    by rewrite (proj2 (Z.ltb_lt _ _)) by lia.
  - rewrite <- IH, Z.add_0_l, <- (Z.add_0_r (weight_at r i)) at 1. rewrite <- fmap_add_seqZ, <- list_fmap_compose.
    apply list_fmap_ext. intros k p Hk. apply lookup_seqZ in Hk as [-> Hk]. cbn.
    rewrite (proj2 (Z.ltb_ge _ _)) by lia. do 2 f_equal. lia.
Qed.

(** ** The router *)

Lemma with_rationing_same r : with_rationing (rationing r) r = r.
Proof. by destruct r. Qed.

Lemma find_weighted_ext r r' p indices last : (forall i, weight_at r i = weight_at r' i) ->
  find_weighted r p indices last = find_weighted r' p indices last.
Proof. intros Hw. revert p. induction indices as [| i indices IH]; intros p; [done |]. cbn. by rewrite Hw, IH. Qed.

(** What a slave gets of a round of reads. *)
Definition share (r : ReadWriteRouter) (i : nat) : Z := match strategy r with WeightedRoundRobin => weight_at r i | _ => 1 end.
Definition round (r : ReadWriteRouter) : Z := foldr Z.add 0 (share r <$> healthy_indices r).

(** The choice a value of the counter makes. *)
Definition turn (r : ReadWriteRouter) (p : Z) : option nat :=
  match strategy r with
  | WeightedRoundRobin => Some (find_weighted r p (healthy_indices r) (nth_index (healthy_indices r) (length (healthy_indices r) - 1)))
  | _ => Some (nth_index (healthy_indices r) (Z.to_nat p))
  end.

(** A router that takes turns: all reads go to slaves, one of which is healthy. *)
Record takes_turns (r : ReadWriteRouter) : Prop := {
  turns_strategy : strategy r = RoundRobin \/ strategy r = WeightedRoundRobin;
  turns_slaves : master_read_percent (rationing r) = 0;
  turns_healthy : healthy_indices r <> [];
  turns_weights : map_Forall (fun _ w => 1 <= w) (weights r);
}.

Lemma weight_at_pos r i : map_Forall (fun _ w => 1 <= w) (weights r) -> 1 <= weight_at r i.
Proof.
  intros Hw. unfold weight_at. destruct (slaves r !! i) as [s |]; cbn; [| lia]. destruct (weights r !! s) as [w |] eqn:E; cbn; [| lia].
  by apply (Hw s w).
Qed.

Lemma share_pos r i : takes_turns r -> 1 <= share r i.
Proof. intros Ht. unfold share. destruct (strategy r); try lia. apply weight_at_pos, Ht. Qed.

Lemma sum_shares_pos r l : takes_turns r -> Z.of_nat (length l) <= foldr Z.add 0 (share r <$> l).
Proof. intros Ht. induction l as [| i l IH]; [done |]. pose proof (share_pos r i Ht). cbn [length fmap list_fmap foldr]. lia. Qed.

Lemma round_pos r : takes_turns r -> 0 < round r.
Proof.
  intros Ht. pose proof (sum_shares_pos r (healthy_indices r) Ht). unfold round.
  pose proof (turns_healthy r Ht). destruct (healthy_indices r); [done |]. cbn [length] in *. lia.
Qed.

Lemma round_robin_round r : strategy r = RoundRobin -> round r = Z.of_nat (length (healthy_indices r)).
Proof.
  intros Hs. unfold round, share. rewrite Hs. induction (healthy_indices r) as [| i l IH]; [done |]. cbn [length fmap list_fmap foldr]. lia.
Qed.

Lemma choose_turn gen r : takes_turns r ->
  choose gen r = (turn r (round_robin_counter r mod round r), with_counter (wrap64 (round_robin_counter r + 1)) r).
Proof.
  intros Ht. pose proof (round_pos r Ht) as Hpos. pose proof (turns_healthy r Ht) as Hh. unfold choose.
  assert (Hsl : is_nil (slaves r) = false).
  { destruct (slaves r) eqn:E; [| done]. destruct Hh. unfold healthy_indices. by rewrite E. }
  rewrite Hsl. unfold should_read_master. rewrite (turns_slaves r Ht). cbn [Z.eqb]. rewrite with_rationing_same.
  unfold select_healthy_slave, turn. assert (Hi : is_nil (healthy_indices r) = false) by by destruct (healthy_indices r).
  rewrite Hi. destruct (turns_strategy r Ht) as [Hs | Hs]; rewrite Hs.
  - by rewrite (round_robin_round r Hs).
  - assert (Hround : total_weight r (healthy_indices r) = round r) by (unfold total_weight, round, share; by rewrite Hs).
    unfold select_weighted_index. rewrite Hround, (proj2 (Z.eqb_neq _ _)) by lia. done.
Qed.

Lemma takes_turns_counter c r : takes_turns r -> takes_turns (with_counter c r).
Proof. intros [H1 H2 H3 H4]. by split. Qed.

Lemma turn_counter c r p : turn (with_counter c r) p = turn r p.
Proof. unfold turn. cbn. destruct (strategy r); try done. f_equal. by apply find_weighted_ext. Qed.

Lemma reads_turns gen n r : takes_turns r -> 0 <= round_robin_counter r -> round_robin_counter r + Z.of_nat n <= 2 ^ 64 ->
  fst (reads gen n r) = (fun j => turn r ((round_robin_counter r + j) mod round r)) <$> seqZ 0 (Z.of_nat n).
Proof.
  revert r. induction n as [| n IH]; intros r Ht H0 Hc; [done |]. cbn [reads]. rewrite choose_turn by done.
  destruct n as [| n].
  { change (seqZ 0 (Z.of_nat 1)) with [0]. cbn [reads fst fmap list_fmap]. by rewrite Z.add_0_r. }
  assert (Hw : wrap64 (round_robin_counter r + 1) = round_robin_counter r + 1) by (apply wrap64_small; lia).
  rewrite Hw. specialize (IH (with_counter (round_robin_counter r + 1) r) (takes_turns_counter _ r Ht)).
  destruct (reads gen (S n) _) as [l r2] eqn:E. cbn [fst] in *.
  rewrite (seqZ_cons 0 (Z.of_nat (S (S n)))) by lia. rewrite fmap_cons, Z.add_0_r. f_equal.
  rewrite IH by (cbn [round_robin_counter with_counter]; lia).
  replace (Z.succ 0) with (1 + 0) by lia. rewrite <- fmap_add_seqZ, <- list_fmap_compose.
  replace (Z.pred (Z.of_nat (S (S n)))) with (Z.of_nat (S n)) by lia. apply list_fmap_ext. intros k j Hj. cbn [compose].
  rewrite turn_counter. change (round (with_counter (round_robin_counter r + 1) r)) with (round r). cbn [round_robin_counter with_counter].
  f_equal. f_equal. lia.
Qed.

Lemma turns_share r : takes_turns r ->
  turn r <$> seqZ 0 (round r) = concat ((fun i => replicate (Z.to_nat (share r i)) (Some i)) <$> healthy_indices r).
Proof.
  intros Ht. destruct (turns_strategy r Ht) as [Hs | Hs].
  - rewrite (round_robin_round r Hs). unfold turn, share. rewrite Hs. set (l := healthy_indices r). clearbody l. clear Hs Ht.
    change (fun i => replicate (Z.to_nat 1) (Some i)) with (fun i : nat => [Some i]).
    induction l as [| x l IH] using rev_ind; [done |]. rewrite length_app, Nat.add_comm. cbn [length Nat.add].
    rewrite seqZ_S, !fmap_app, concat_app. f_equal.
    + rewrite <- IH. apply list_fmap_ext. intros k p Hp. apply lookup_seqZ in Hp as [-> Hk]. f_equal. unfold nth_index.
      by rewrite lookup_app_l by lia.
    + cbn. unfold nth_index. rewrite Z.add_0_l, Nat2Z.id, lookup_app_r, Nat.sub_diag by lia. done.
  - unfold turn. rewrite Hs. unfold share. rewrite Hs. change (round r) with (foldr Z.add 0 (share r <$> healthy_indices r)).
    assert (Hround : round r = total_weight r (healthy_indices r)) by (unfold total_weight, round, share; by rewrite Hs).
    unfold round in Hround. rewrite Hround. apply find_weighted_replicates. apply Forall_forall. intros i _.
    pose proof (weight_at_pos r i (turns_weights r Ht)). lia.
Qed.


Definition three_slaves : ReadWriteRouter :=
  set_strategy WeightedRoundRobin (with_counter 7 (snd (set_weight "b" 3 (router_new "m" ["a"; "b"; "c"])))).

Lemma three_slaves_turns : takes_turns three_slaves.
Proof. split; [by right | done | vm_compute; discriminate | apply (bool_decide_unpack _); vm_compute; exact I]. Qed.


(** * What is chosen *)

Lemma healthy_index r i : i ∈ healthy_indices r <-> exists s, slaves r !! i = Some s /\ is_healthy r s = true.
Proof.
  unfold healthy_indices. rewrite list_elem_of_filter, elem_of_seq. split.
  - intros [Hh _]. destruct (slaves r !! i) as [s |]; [by exists s | done].
  - intros (s & Hs & Hh). rewrite Hs. split; [done |]. apply lookup_lt_Some in Hs. lia.
Qed.

Lemma nth_index_in l i : (i < length l)%nat -> nth_index l i ∈ l.
Proof. intros Hi. unfold nth_index. destruct (l !! i) as [x |] eqn:E; [by eapply list_elem_of_lookup_2 |]. apply lookup_ge_None in E. lia. Qed.

Lemma find_weighted_in r p l last : last ∈ l -> find_weighted r p l last ∈ l.
Proof.
  intros Hl. assert (H : forall l' p, find_weighted r p l' last ∈ l' \/ find_weighted r p l' last = last).
  { induction l' as [| i l' IH]; intros q; [by right |]. cbn. destruct (_ <? _); [left; by left |].
    destruct (IH (q - weight_at r i)) as [Hin | ->]; [left; by right | by right]. }
  destruct (H l p) as [Hin | ->]; done.
Qed.

Lemma least_fold counts l best :
  let p := foldl (least_step counts) (best, connections counts best) l in
  p.2 = connections counts p.1 /\ p.1 ∈ best :: l /\ Forall (fun j => p.2 <= connections counts j) (best :: l).
Proof.
  revert best. induction l as [| j l IH]; intros best; [cbn; split_and!; [done | by left | by constructor] |].
  cbn [foldl]. assert (Hs : least_step counts (best, connections counts best) j =
    if connections counts j <? connections counts best then (j, connections counts j) else (best, connections counts best)) by done.
  rewrite Hs. clear Hs. destruct (Z.ltb_spec (connections counts j) (connections counts best)) as [Hlt | Hge].
  - destruct (IH j) as (H1 & H2 & H3). split_and!; [done | by right |]. constructor; [| exact H3].
    apply Forall_cons in H3 as [H3 _]. cbv beta in H3 |- *. lia.
  - destruct (IH best) as (H1 & H2 & H3). split_and!; [done | |].
    + apply elem_of_cons in H2 as [-> | H2]; [by left | right; by right].
    + apply Forall_cons in H3 as [H3 H4]. constructor; [exact H3 |]. constructor; [| exact H4]. cbv beta in H3 |- *. lia.
Qed.

(** A slave with no more connections than any other that can be chosen. *)
Lemma least_connections_spec counts l : l <> [] ->
  least_connections counts l ∈ l /\ Forall (fun j => connections counts (least_connections counts l) <= connections counts j) l.
Proof.
  destruct l as [| i l]; [done |]. intros _. destruct (least_fold counts l i) as (H1 & H2 & H3).
  cbn [least_connections]. by rewrite <- H1.
Qed.

(** Whatever the strategy and however many connections there are, a slave that is chosen is a healthy
    one; the master is chosen when it is its turn, or no slave is healthy. *)
Lemma choose_healthy gen r : (forall n, (0 < n)%nat -> (gen n < n)%nat) ->
  match fst (choose gen r) with
  | Some i => exists s, slaves r !! i = Some s /\ is_healthy r s = true
  | None => healthy_indices r = [] \/ fst (should_read_master (rationing r)) = true
  end.
Proof.
  intros Hgen. unfold choose. destruct (is_nil (slaves r)) eqn:Es.
  { left. unfold healthy_indices. by destruct (slaves r). }
  clear Es.
  destruct (should_read_master (rationing r)) as [[] x]; [by right |]. unfold select_healthy_slave.
  change (healthy_indices (with_rationing x r)) with (healthy_indices r). change (strategy (with_rationing x r)) with (strategy r).
  destruct (healthy_indices r) as [| i0 l0] eqn:E; [by left |]. rewrite <- E. assert (Hlen : (0 < length (healthy_indices r))%nat) by (rewrite E; cbn; lia).
  assert (Hne : healthy_indices r <> []) by by rewrite E. assert (Hnil : is_nil (healthy_indices r) = false) by by rewrite E. rewrite Hnil. clear E i0 l0 Hnil.
  assert (Hok : forall i, i ∈ healthy_indices r -> exists s, slaves r !! i = Some s /\ is_healthy r s = true) by (intros i; apply healthy_index).
  destruct (strategy r); cbn [fst].
  - apply Hok, nth_index_in. pose proof (Z.mod_pos_bound (round_robin_counter (with_rationing x r)) (Z.of_nat (length (healthy_indices r)))). lia.
  - apply Hok, nth_index_in, Hgen, Hlen.
  - apply Hok. by apply least_connections_spec.
  - unfold select_weighted_index. destruct (_ =? 0); apply Hok; [apply nth_index_in; lia |]. apply find_weighted_in, nth_index_in. lia.
Qed.

(** Of any hundred reads that are asked one after another the given share goes to the master. *)
Fixpoint rations (n : nat) (x : ReadRationing) : list bool :=
  match n with O => [] | S n => let '(b, x) := should_read_master x in b :: rations n x end.

Lemma rations_turns n x : 0 < master_read_percent x < 100 -> 0 <= ration_counter x -> ration_counter x + Z.of_nat n <= 2 ^ 64 ->
  rations n x = (fun j => (ration_counter x + j) mod 100 <? master_read_percent x) <$> seqZ 0 (Z.of_nat n).
Proof.
  revert x. induction n as [| n IH]; intros x Hp H0 Hc; [done |]. cbn [rations]. unfold should_read_master.
  rewrite !(proj2 (Z.eqb_neq _ _)) by lia. rewrite (seqZ_cons 0 (Z.of_nat (S n))) by lia. rewrite fmap_cons, Z.add_0_r. f_equal.
  destruct n as [| n]; [done |]. rewrite wrap64_small by lia. rewrite IH by (cbn [ration_counter master_read_percent]; lia).
  replace (Z.succ 0) with (1 + 0) by lia. rewrite <- fmap_add_seqZ, <- list_fmap_compose.
  replace (Z.pred (Z.of_nat (S (S n)))) with (Z.of_nat (S n)) by lia. apply list_fmap_ext. intros k j Hj. cbn [compose ration_counter master_read_percent].
  do 2 f_equal. lia.
Qed.

Lemma rations_exact x : 0 < master_read_percent x < 100 -> 0 <= ration_counter x -> ration_counter x + 100 <= 2 ^ 64 ->
  Z.of_nat (length (filter (fun b => b = true) (rations 100 x))) = master_read_percent x.
Proof.
  intros Hp H0 Hc. rewrite rations_turns by (done || lia).
  rewrite (list_fmap_compose (fun j => (ration_counter x + j) mod 100) (fun p => p <? master_read_percent x)).
  change (Z.of_nat 100) with 100.
  assert (Hperm : (fun p => p <? master_read_percent x) <$> ((fun j => (ration_counter x + j) mod 100) <$> seqZ 0 100)
    ≡ₚ (fun p => p <? master_read_percent x) <$> seqZ 0 100) by (apply fmap_Permutation, rotation; lia).
  rewrite Hperm. set (m := master_read_percent x) in *. clearbody m. clear Hperm.
  replace 100 with (m + (100 - m)) by lia. rewrite seqZ_app, fmap_app, filter_app, length_app by lia.
  assert (H1 : filter (fun b : bool => b = true) ((fun p => p <? m) <$> seqZ 0 m) = replicate (Z.to_nat m) true).
  { rewrite (const_fmap _ _ true); [rewrite length_seqZ; induction (Z.to_nat m) as [| k IHk]; [done |]; cbn [replicate]; rewrite filter_cons_True by done; by rewrite IHk |].
    intros k p Hk. apply lookup_seqZ in Hk as [-> Hk]. by apply Z.ltb_lt. }
  assert (H2 : filter (fun b : bool => b = true) ((fun p => p <? m) <$> seqZ (0 + m) (100 - m)) = []).
  { apply elem_of_nil_inv. intros b [-> Hb]%list_elem_of_filter. apply list_elem_of_fmap in Hb as (p & Hp' & Hin%elem_of_seqZ).
    symmetry in Hp'. apply Z.ltb_lt in Hp'. lia. }
  rewrite H1, H2, length_replicate. cbn. lia.
Qed.

(** * Health *)

(** A slave is taken out by the failure that reaches the threshold. *)
Lemma record_failure_spec s h : fst (record_failure s h) = true <-> failure_threshold h <= Z.min (failure_count s h + 1) (2 ^ 32 - 1).
Proof. unfold record_failure. cbn [failure_threshold]. destruct (Z.leb_spec (failure_threshold h) (Z.min (failure_count s h + 1) (2 ^ 32 - 1))); cbn; split; done || lia. Qed.

Lemma record_failure_unhealthy s h : fst (record_failure s h) = true -> health s (snd (record_failure s h)) = Some Unhealthy.
Proof. unfold record_failure. cbn [failure_threshold]. destruct (_ <=? _); [| done]. intros _. apply lookup_insert_eq. Qed.

(** Successes never bring a slave back: the cooldown after which it is documented to rejoin is read
    nowhere, and only [set_health] makes it healthy. *)
Lemma success_does_not_restore s h n : health s h = Some Unhealthy -> health s (Nat.iter n (record_success s) h) = Some Unhealthy.
Proof. intros Hh. induction n as [| n IH]; [done |]. exact IH. Qed.

(** A latency of 0 is taken for none: the smallest is then that of the next call. *)
Lemma zero_latency_forgotten : min_ns (record_latency 5 (record_latency 0 latency_default)) = 5.
Proof. reflexivity. Qed.

(** Connections are counted as they are acquired and released. *)
Lemma acquire_release s r r1 : Forall (fun n => 0 <= n < u64_max) (connection_counts r) -> acquire s r = (Ok tt, r1) ->
  exists r2, release s r1 = (Ok tt, r2) /\ connection_counts r2 = connection_counts r.
Proof.
  intros Hc. unfold acquire, release. destruct (position s (slaves r)) as [i |] eqn:E; [| done]. intros [= <-].
  cbn [slaves with_counts]. rewrite E. eexists. split; [done |]. cbn [connection_counts with_counts].
  apply list_eq. intros j. destruct (decide (i = j)) as [<- | Hne].
  - rewrite !list_lookup_alter_eq. destruct (connection_counts r !! i) as [n |] eqn:En; [| done]. cbn [fmap option_fmap option_map].
    rewrite Forall_forall in Hc. specialize (Hc n (list_elem_of_lookup_2 _ _ _ En)).
    rewrite Z.min_l by lia. rewrite (proj2 (Z.ltb_lt _ _)) by lia. f_equal. lia.
  - by rewrite !list_lookup_alter_ne.
Qed.

(** Weights are at least 1 from the first on. *)
Lemma router_new_weights m ss : map_Forall (fun _ w => 1 <= w) (weights (router_new m ss)).
Proof.
  cbn. assert (H : forall g : gmap string Z, map_Forall (fun _ w => 1 <= w) g -> map_Forall (fun _ w => 1 <= w) (foldl (fun m s => <[s := 1]> m) g ss)).
  { induction ss as [| s ss IH]; intros g Hg; [done |]. cbn. apply IH. by apply map_Forall_insert_2. }
  apply H, map_Forall_empty.
Qed.

Lemma set_weight_weights s w r : map_Forall (fun _ w => 1 <= w) (weights r) -> map_Forall (fun _ w => 1 <= w) (weights (snd (set_weight s w r))).
Proof. intros Hr. unfold set_weight. case_bool_decide; [| done]. apply map_Forall_insert_2; [lia | done]. Qed.
