(* ===== verification/Failover.v ===== *)
(** The promotion of a slave when the master fails: [sz-orm-rw/src/auto_failover/manager.rs], with the
    detector of two masters of [split_brain.rs]. *)

From Stdlib Require Import Ascii String.
From S2P Require Import Prelude.
Local Open Scope string_scope.
Local Open Scope list_scope.
Local Open Scope Z_scope.

(** * Old masters *)

Record OldMasterTracker : Type := mkTracker { tracked_name : string; failover_time : Z; demoted : bool }.

Inductive DemotionStrategy : Type := DemoteToSlave | Isolate.

Record SplitBrainAlert : Type := mkAlert {
  alert_old : string;
  alert_new : string;
  detected_at : Z;
  action : DemotionStrategy;
  message : string;
}.

Record SplitBrainDetector : Type := mkDetector { old_masters : gmap string OldMasterTracker; check_interval : Z; alerts : list SplitBrainAlert }.

Inductive SplitBrainStatus : Type := NoSplitBrain | Detected (old_master new_master : string) | Resolved.

Definition detector_new (interval : Z) : SplitBrainDetector := mkDetector ∅ interval [].

Definition register_old_master (now : Z) (name : string) (d : SplitBrainDetector) : SplitBrainDetector :=
  mkDetector (<[name := mkTracker name now false]> (old_masters d)) (check_interval d) (alerts d).

Definition detector_check (old new : string) (old_healthy : bool) (d : SplitBrainDetector) : SplitBrainStatus :=
  match old_masters d !! old with
  | Some t => if old_healthy && negb (demoted t) && negb (String.eqb old new) then Detected old new else NoSplitBrain
  | None => NoSplitBrain
  end.

Definition mark_resolved (name : string) (d : SplitBrainDetector) : SplitBrainDetector :=
  mkDetector (alter (fun t => mkTracker (tracked_name t) (failover_time t) true) name (old_masters d)) (check_interval d) (alerts d).

Definition action_str (a : DemotionStrategy) : string := match a with DemoteToSlave => "demoted to slave" | Isolate => "isolated" end.

Definition detector_resolve (now : Z) (old new : string) (s : DemotionStrategy) (d : SplitBrainDetector) : SplitBrainAlert * SplitBrainDetector :=
  let d := mark_resolved old d in
  let alert := mkAlert old new now s
    ("split-brain detected, old master '" +:+ old +:+ "' " +:+ action_str s +:+ " (new master: '" +:+ new +:+ "')")%string in
  (alert, mkDetector (old_masters d) (check_interval d) (alerts d ++ [alert])).

Definition detector_periodic (new : string) (health : string -> bool) (d : SplitBrainDetector) : list SplitBrainStatus :=
  (fun t => Detected (tracked_name t) new)
    <$> filter (fun t => demoted t = false /\ health (tracked_name t) = true /\ tracked_name t <> new) (map_to_list (old_masters d)).*2.

Definition is_demoted (old : string) (d : SplitBrainDetector) : bool := match old_masters d !! old with Some t => demoted t | None => false end.

(** * The manager *)

Record FailoverConfig : Type := mkConfig { config_interval : Z; failure_threshold : Z; lag_threshold : Z; switch_timeout : Z }.

Definition config_default : FailoverConfig := mkConfig 1000000000 3 1000000000 30000000000.

Inductive FailoverOperator : Type := Auto | Manual.

Record DataLossRisk : Type := mkRisk { risk_lag : Z; estimated_lost_rows : Z; is_safe : bool }.

Record FailoverEvent : Type := mkEvent {
  failure_time : Z;
  detection_confirms : Z;
  promoted_slave : string;
  old_master : string;
  data_loss_assessment : DataLossRisk;
  operator : FailoverOperator;
}.

Record SlaveInfo : Type := mkSlave { slave_name : string; healthy : bool; lag : Z; row_count : Z }.

Record FailoverResult : Type := mkResult { event : FailoverEvent; result_split_brain : SplitBrainStatus; new_master : string }.

Inductive FailoverError : Type :=
| NoHealthySlave
| PromotionFailed (slave reason : string)
| SplitBrain
| LagTooHigh (lag : Z)
| SwitchTimeout
| NotMonitoring.

Record AutoFailoverManager : Type := mkManager {
  config : FailoverConfig;
  master : string;
  slaves : gmap string SlaveInfo;
  failure_count : Z;
  events : list FailoverEvent;
  split_brain : SplitBrainStatus;
  split_brain_detector : SplitBrainDetector;
}.

Definition manager_new (c : FailoverConfig) (master : string) : AutoFailoverManager :=
  mkManager c master ∅ 0 [] NoSplitBrain (detector_new (config_interval c)).

Definition set_slaves (s : gmap string SlaveInfo) (m : AutoFailoverManager) : AutoFailoverManager :=
  mkManager (config m) (master m) s (failure_count m) (events m) (split_brain m) (split_brain_detector m).
Definition set_count (n : Z) (m : AutoFailoverManager) : AutoFailoverManager :=
  mkManager (config m) (master m) (slaves m) n (events m) (split_brain m) (split_brain_detector m).
Definition set_detector (b : SplitBrainStatus) (d : SplitBrainDetector) (m : AutoFailoverManager) : AutoFailoverManager :=
  mkManager (config m) (master m) (slaves m) (failure_count m) (events m) b d.

Definition add_slave (name : string) (lag rows : Z) (m : AutoFailoverManager) : AutoFailoverManager :=
  set_slaves (<[name := mkSlave name true lag rows]> (slaves m)) m.

Definition update_slave_health (name : string) (healthy : bool) (lag : Z) (m : AutoFailoverManager) : AutoFailoverManager :=
  set_slaves (alter (fun s => mkSlave (slave_name s) healthy lag (row_count s)) name (slaves m)) m.

(** [min_by_key], which takes the first of the least. *)
Definition least_lag (l : list SlaveInfo) : option SlaveInfo :=
  match l with [] => None | s :: l => Some (foldl (fun best s => if lag s <? lag best then s else best) s l) end.

Definition eligible (c : FailoverConfig) (s : SlaveInfo) : bool := healthy s && (lag s <=? lag_threshold c).

Definition select_best_slave (m : AutoFailoverManager) : option SlaveInfo :=
  least_lag (filter (fun s => eligible (config m) s = true) (map_to_list (slaves m)).*2).

Definition assess_data_loss (s : SlaveInfo) (m : AutoFailoverManager) : DataLossRisk :=
  let safe := lag s <=? lag_threshold (config m) in mkRisk (lag s) (if safe then 0 else row_count s / 100) safe.

Definition detect_split_brain (old new : string) (m : AutoFailoverManager) : SplitBrainStatus :=
  if existsb (fun s => String.eqb (slave_name s) old && healthy s) (map_to_list (slaves m)).*2 && negb (String.eqb old new)
  then Detected old new else NoSplitBrain.

Definition trigger_failover (now : Z) (op : FailoverOperator) (m : AutoFailoverManager) : option FailoverResult * AutoFailoverManager :=
  match select_best_slave m with
  | None => (None, m)
  | Some best =>
      let old := master m in
      let loss := assess_data_loss best m in
      if negb (is_safe loss) && (lag_threshold (config m) <? risk_lag loss) then (None, m)
      else
        let brain := detect_split_brain old (slave_name best) m in
        let event := mkEvent now (failure_count m) (slave_name best) old loss op in
        (Some (mkResult event brain (slave_name best)),
         mkManager (config m) (slave_name best) (slaves m) 0 (events m ++ [event]) brain
           (register_old_master now old (split_brain_detector m)))
  end.

Definition record_master_failure (now : Z) (m : AutoFailoverManager) : option FailoverResult * AutoFailoverManager :=
  let count := wrap32 (failure_count m + 1) in
  let m := set_count count m in
  if failure_threshold (config m) <=? count then trigger_failover now Auto m else (None, m).

Definition record_master_success (m : AutoFailoverManager) : AutoFailoverManager := set_count 0 m.

Definition manual_failover (now : Z) (m : AutoFailoverManager) : result FailoverResult FailoverError * AutoFailoverManager :=
  let '(r, m) := trigger_failover now Manual m in (match r with Some r => Ok r | None => Err NoHealthySlave end, m).

Definition check_split_brain (old : string) (old_healthy : bool) (m : AutoFailoverManager) : SplitBrainStatus :=
  detector_check old (master m) old_healthy (split_brain_detector m).

Definition resolve_split_brain (now : Z) (old : string) (s : DemotionStrategy) (m : AutoFailoverManager) : option SplitBrainAlert * AutoFailoverManager :=
  if String.eqb old (master m) then (None, m)
  else let '(alert, d) := detector_resolve now old (master m) s (split_brain_detector m) in (Some alert, set_detector Resolved d m).

Definition periodic_split_brain_check (health : string -> bool) (m : AutoFailoverManager) : list SplitBrainStatus :=
  detector_periodic (master m) health (split_brain_detector m).

(** * Facts *)

Lemma least_lag_spec l s : least_lag l = Some s -> s ∈ l /\ Forall (fun x => lag s <= lag x) l.
Proof.
  destruct l as [| a l]; [done |]. intros [= <-]. revert a. induction l as [| b l IH]; intros a; cbn [foldl].
  { split; [by left | by constructor]. }
  destruct (Z.ltb_spec (lag b) (lag a)).
  - destruct (IH b) as [H1 H2]. split; [by right |]. constructor; [| exact H2].
    apply Forall_cons in H2 as [H2 _]. cbv beta in H2 |- *. lia.
  - destruct (IH a) as [H1 H2]. split; [apply elem_of_cons in H1 as [-> |]; [by left | right; by right] |].
    apply Forall_cons in H2 as [H2 H3]. constructor; [exact H2 |]. constructor; [| exact H3]. cbv beta in H2 |- *. lia.
Qed.

(** The slave that is promoted is healthy, and of the healthy ones the one that lags least, within the
    threshold; so the check for a lag above it never stops a promotion. *)
Lemma select_best_spec m s : select_best_slave m = Some s ->
  (exists k, slaves m !! k = Some s) /\ healthy s = true /\ lag s <= lag_threshold (config m) /\
  forall k x, slaves m !! k = Some x -> healthy x = true -> lag s <= lag x \/ lag_threshold (config m) < lag x.
Proof.
  intros [Hin Hmin]%least_lag_spec. apply list_elem_of_filter in Hin as [He Hin]. apply andb_true_iff in He as [Hh Hl].
  apply list_elem_of_fmap in Hin as ([k s'] & -> & Hk%elem_of_map_to_list). cbn in *.
  split_and!; [by exists k | done | by apply Z.leb_le |]. intros k' x Hx Hhx.
  destruct (Z.leb_spec (lag x) (lag_threshold (config m))) as [Hle |]; [left | by right].
  rewrite Forall_forall in Hmin. apply Hmin. apply list_elem_of_filter. split.
  - unfold eligible. rewrite Hhx. by apply Z.leb_le.
  - apply list_elem_of_fmap. exists (k', x). split; [done |]. by apply elem_of_map_to_list.
Qed.

Lemma trigger_spec now op m : trigger_failover now op m =
  match select_best_slave m with
  | None => (None, m)
  | Some best =>
      let brain := detect_split_brain (master m) (slave_name best) m in
      let event := mkEvent now (failure_count m) (slave_name best) (master m) (mkRisk (lag best) 0 true) op in
      (Some (mkResult event brain (slave_name best)),
       mkManager (config m) (slave_name best) (slaves m) 0 (events m ++ [event]) brain
         (register_old_master now (master m) (split_brain_detector m)))
  end.
Proof.
  unfold trigger_failover. destruct (select_best_slave m) as [best |] eqn:E; [| done].
  apply select_best_spec in E as (_ & _ & Hl & _). unfold assess_data_loss. by rewrite (proj2 (Z.leb_le _ _) Hl).
Qed.

(** ** Histories *)

Inductive ManagerOp : Type :=
| OpAddSlave (name : string) (lag rows : Z)
| OpHealth (name : string) (healthy : bool) (lag : Z)
| OpFailure (now : Z)
| OpSuccess
| OpManual (now : Z)
| OpResolve (now : Z) (old : string) (s : DemotionStrategy).

Definition run_op (m : AutoFailoverManager) (o : ManagerOp) : AutoFailoverManager :=
  match o with
  | OpAddSlave name lag rows => add_slave name lag rows m
  | OpHealth name h lag => update_slave_health name h lag m
  | OpFailure now => snd (record_master_failure now m)
  | OpSuccess => record_master_success m
  | OpManual now => snd (manual_failover now m)
  | OpResolve now old s => snd (resolve_split_brain now old s m)
  end.

(** Each event replaces the master the one before made. *)
Fixpoint chained (from : string) (es : list FailoverEvent) (to : string) : Prop :=
  match es with [] => from = to | e :: es => old_master e = from /\ chained (promoted_slave e) es to end.

Lemma chained_snoc from es to e : chained from es to -> old_master e = to -> chained from (es ++ [e]) (promoted_slave e).
Proof. revert from. induction es as [| a es IH]; intros from; cbn; [intros ->; done | intros [H1 H2] H3; split; [done | by apply IH]]. Qed.

Definition safe_event (c : FailoverConfig) (e : FailoverEvent) : Prop :=
  is_safe (data_loss_assessment e) = true /\ estimated_lost_rows (data_loss_assessment e) = 0 /\
  risk_lag (data_loss_assessment e) <= lag_threshold c.

Record manager_ok (c : FailoverConfig) (m0 : string) (m : AutoFailoverManager) : Prop := {
  ok_config : config m = c;
  ok_chain : chained m0 (events m) (master m);
  ok_safe : Forall (safe_event c) (events m);
  ok_names : map_Forall (fun k t => tracked_name t = k) (old_masters (split_brain_detector m));
  ok_tracked : forall name, is_Some (old_masters (split_brain_detector m) !! name) <-> name ∈ old_master <$> events m;
}.

Lemma trigger_ok c m0 now op m : manager_ok c m0 m -> manager_ok c m0 (snd (trigger_failover now op m)).
Proof.
  intros Hm. rewrite trigger_spec. destruct (select_best_slave m) as [best |] eqn:E; [| done].
  destruct Hm as [H1 H2 H3 H4 H5]. split; cbn -[lookup insert].
  - done.
  - by apply (chained_snoc m0 (events m) (master m)).
  - apply Forall_app. split; [done |]. constructor; [| done]. apply select_best_spec in E as (_ & _ & Hl & _). by rewrite <- H1.
  - by apply map_Forall_insert_2.
  - intros name. rewrite fmap_app, elem_of_app, <- H5. cbn -[lookup insert]. rewrite list_elem_of_singleton.
    destruct (decide (name = master m)) as [-> | Hne].
    + rewrite lookup_insert_eq. split; [by right | by eexists].
    + rewrite lookup_insert_ne by done. tauto.
Qed.

Lemma manager_op_ok c m0 m o : manager_ok c m0 m -> manager_ok c m0 (run_op m o).
Proof.
  intros Hm. pose proof Hm as [H1 H2 H3 H4 H5]. destruct o as [n l r | n h l | now | | now | now old s]; cbn [run_op].
  - by split.
  - by split.
  - unfold record_master_failure. cbn [config set_count]. destruct (_ <=? _); [apply trigger_ok |]; by split.
  - by split.
  - unfold manual_failover. pose proof (trigger_ok c m0 now Manual m Hm). by destruct (trigger_failover now Manual m).
  - unfold resolve_split_brain. destruct (String.eqb old (master m)); [done |]. split; cbn -[lookup alter]; try done.
    + intros k t. destruct (decide (old = k)) as [<- |]; [rewrite lookup_alter_eq | rewrite lookup_alter_ne by done; apply H4].
      intros (t' & Ht & ->)%fmap_Some. apply (H4 _ _ Ht).
    + intros name. rewrite <- H5. destruct (decide (old = name)) as [<- |]; [rewrite lookup_alter_eq | by rewrite lookup_alter_ne].
      apply fmap_is_Some.
Qed.

Lemma run_ops_ok c m0 ops : manager_ok c m0 (foldl run_op (manager_new c m0) ops).
Proof.
  assert (H : forall m, manager_ok c m0 m -> manager_ok c m0 (foldl run_op m ops)).
  { induction ops as [| o ops IH]; intros m Hm; [done |]. apply IH. by apply manager_op_ok. }
  apply H. split; cbn; [done | done | constructor | apply map_Forall_empty |].
  intros name. rewrite lookup_empty, elem_of_nil. split; [by intros [? ?] | done].
Qed.

(** Whatever slaves are added, fail and recover and whenever the master fails or is replaced by hand:
    the events form a chain from the first master to the current one, each promotes a slave within the
    threshold of lag, and the periodic check reports exactly the masters of the past that are healthy,
    not demoted since they were replaced, and not the master again. *)
Theorem failover_chain (c : FailoverConfig) (m0 : string) (ops : list ManagerOp) (health : string -> bool) :
  let m := foldl run_op (manager_new c m0) ops in
  chained m0 (events m) (master m) /\ Forall (safe_event c) (events m) /\
  forall s, s ∈ periodic_split_brain_check health m <-> exists old, s = Detected old (master m) /\
    old ∈ old_master <$> events m /\ is_demoted old (split_brain_detector m) = false /\ health old = true /\ old <> master m.
Proof.
  intros m. destruct (run_ops_ok c m0 ops) as [H1 H2 H3 H4 H5]. fold m in H1, H2, H3, H4, H5. clearbody m.
  split_and!; [done | done |]. intros s. unfold periodic_split_brain_check, detector_periodic, is_demoted.
  rewrite list_elem_of_fmap. split.
  - intros (t & -> & ((Hd & Hh & Hn) & Ht)%list_elem_of_filter). apply list_elem_of_fmap in Ht as ([k t'] & -> & Hk%elem_of_map_to_list).
    cbn in *. rewrite (H4 k t' Hk) in *. exists k. rewrite Hk. split_and!; try done. apply H5. by eexists.
  - intros (old & -> & [t Ht]%H5 & Hd & Hh & Hn). rewrite Ht in Hd. exists t. rewrite (H4 _ _ Ht). split; [done |].
    apply list_elem_of_filter. rewrite (H4 _ _ Ht). split; [done |]. apply list_elem_of_fmap. exists (old, t).
    split; [done |]. by apply elem_of_map_to_list.
Qed.

(** ** Where it fails *)

(** The promoted slave stays in the list as a healthy one: when it fails as the master, it is promoted
    again in its own place, and the slave that could take over is not. *)
Lemma failed_master_promoted_again :
  let m := foldl run_op (manager_new config_default "a")
    [OpAddSlave "b" 0 0; OpAddSlave "c" 5 0; OpFailure 1; OpFailure 2; OpFailure 3; OpFailure 4; OpFailure 5; OpFailure 6] in
  (fun e => (old_master e, promoted_slave e)) <$> events m = [("a", "b"); ("b", "b")] /\ master m = "b".
Proof. split; vm_compute; reflexivity. Qed.

(** The first master is not in the list of slaves: that it is still alive is not seen when it is replaced. *)
Lemma first_master_not_seen n : let m := add_slave n 0 0 (manager_new config_default "a") in
  n <> "a" -> split_brain (snd (manual_failover 1 m)) = NoSplitBrain.
Proof.
  intros m Hn. unfold manual_failover. rewrite trigger_spec. destruct (select_best_slave m) as [best |]; [| done].
  cbn [snd split_brain]. unfold detect_split_brain. replace (existsb _ _) with false; [done |]. symmetry.
  apply not_true_iff_false. intros (s & Hs & [Heq _]%andb_true_iff)%existsb_exists. apply list_elem_of_In, list_elem_of_fmap in Hs as ([k s'] & -> & Hk).
  apply elem_of_map_to_list in Hk. subst m. cbn in Hk. apply lookup_insert_Some in Hk as [[<- <-] | [_ Hk]]; [| done].
  cbn in Heq. by apply String.eqb_eq in Heq.
Qed.
