(* ===== verification/Xa.v ===== *)
(** XA transactions: [packages/sz-orm-dtx/src/xa.rs], the coordinator of resource managers that
    speak the XA protocol, with [recovery.rs], which decides what a crash leaves to do, and the
    detection of suspended transactions in [suspension.rs].  The log is that of [Dtx.v].

    What a crash can do is stated over histories: the world is the list of everything the
    coordinator wrote to the log and asked of a resource, and a crash leaves a prefix of it. *)

From S2P Require Import Prelude Dtx Value.
Local Open Scope eff_scope.

(** * Resources *)

(** The backends of [sz-orm-sqlx/src/any_driver.rs]. *)
Inductive AnyBackend : Type := MySql | Postgres | Sqlite | Oracle | Mssql.

#[export] Instance AnyBackend_eq_dec : EqDecision AnyBackend.
Proof. solve_decision. Defined.

Definition debug_AnyBackend (b : AnyBackend) : string :=
  match b with MySql => "MySql" | Postgres => "Postgres" | Sqlite => "Sqlite" | Oracle => "Oracle" | Mssql => "Mssql" end.

Inductive XaError : Type :=
| XaPrepareFailed (msg : string)
| XaCommitFailed (msg : string)
| XaRollbackFailed (msg : string)
| XaNotSupported (backend : AnyBackend) (reason : string)
| XaNotFound (tx_id : string)
| XaDatabaseError (msg : string).

#[export] Instance XaError_eq_dec : EqDecision XaError.
Proof. solve_decision. Defined.

(** [Display] *)
Definition display_XaError (e : XaError) : string :=
  match e with
  | XaPrepareFailed m => "XA prepare 失败: " +:+ m
  | XaCommitFailed m => "XA commit 失败: " +:+ m
  | XaRollbackFailed m => "XA rollback 失败: " +:+ m
  | XaNotSupported b reason => "后端不支持 XA: " +:+ debug_AnyBackend b +:+ "（" +:+ reason +:+ "）"
  | XaNotFound id => "XA 事务 " +:+ id +:+ " 不存在"
  | XaDatabaseError m => "数据库错误: " +:+ m
  end.

(** The trait [XaResource]. *)
Record XaResource (W : Type) : Type := mkXaResource {
  xa_prepare : string -> Eff W (result unit XaError);
  xa_commit : string -> Eff W (result unit XaError);
  xa_rollback : string -> Eff W (result unit XaError);
  xa_resource_id : string;
  backend : AnyBackend;
}.
Arguments xa_prepare {W}.
Arguments xa_commit {W}.
Arguments xa_rollback {W}.
Arguments xa_resource_id {W}.
Arguments backend {W}.

Record XaParticipant (W : Type) : Type := mkXaParticipant {
  resource : XaResource W;
  xid : string;
  xa_state : ParticipantState;
}.
Arguments mkXaParticipant {W}.
Arguments resource {W}.
Arguments xid {W}.
Arguments xa_state {W}.

Inductive XaCapability : Type := XaSupported | XaUnsupported (reason : string).

Definition capability_check (b : AnyBackend) : XaCapability :=
  match b with
  | MySql | Postgres | Oracle | Mssql => XaSupported
  | Sqlite => XaUnsupported "SQLite 不支持 XA 协议（嵌入式数据库，无分布式事务能力）"
  end.

(** * The coordinator *)

Section Coordinator.
Context {W : Type} `{Clock W}.

Definition xa_participant_new (r : XaResource W) (id : string) : XaParticipant W := mkXaParticipant r id PActive.

Definition xa_set_state (s : ParticipantState) (p : XaParticipant W) : XaParticipant W := mkXaParticipant (resource p) (xid p) s.

Definition participant_id (p : XaParticipant W) : string := xa_resource_id (resource p).

Definition xa_participant_prepare (p : XaParticipant W) : Eff W (result unit XaError * XaParticipant W) :=
  let* r := xa_prepare (resource p) (xid p) in
  eret (r, xa_set_state (if is_ok r then PPrepared else PFailed) p).

Definition xa_participant_commit (p : XaParticipant W) : Eff W (result unit XaError * XaParticipant W) :=
  let* r := xa_commit (resource p) (xid p) in
  eret (r, xa_set_state (if is_ok r then PCommitted else PFailed) p).

Definition xa_participant_rollback (p : XaParticipant W) : Eff W (result unit XaError * XaParticipant W) :=
  let* r := xa_rollback (resource p) (xid p) in
  eret (r, xa_set_state (if is_ok r then PRolledBack else PFailed) p).

Definition xa_write_log (store : TransactionLogStore W) (tx_id state : string) (ps : list (XaParticipant W)) : Eff W unit :=
  let* ms := system_millis in
  let* _ := append store
    (mkLogEntry tx_id state (participant_id <$> ps) (millis_string ms) (to_lowercase state)) in
  eret tt.

(** The first participant whose backend does not support XA. *)
Fixpoint first_unsupported (ps : list (XaParticipant W)) : option XaError :=
  match ps with
  | [] => None
  | p :: ps =>
      match capability_check (backend (resource p)) with
      | XaUnsupported reason => Some (XaNotSupported (backend (resource p)) reason)
      | XaSupported => first_unsupported ps
      end
  end.

(** [for p in .. { let _ = p.rollback().await; }] *)
Fixpoint xa_rollback_all (ps : list (XaParticipant W)) : Eff W (list (XaParticipant W)) :=
  match ps with
  | [] => eret []
  | p :: ps =>
      let* (_, p') := xa_participant_rollback p in
      let* ps' := xa_rollback_all ps in
      eret (p' :: ps')
  end.

(** [done] are the participants before [i], of which [prepared_count] were counted. *)
Fixpoint xa_prepare_loop (prepared_count : nat) (done todo : list (XaParticipant W)) :
    Eff W (option (string * XaError) * list (XaParticipant W)) :=
  match todo with
  | [] => eret (None, done)
  | p :: todo =>
      let* (r, p') := xa_participant_prepare p in
      match r with
      | Ok _ => xa_prepare_loop (S prepared_count) (done ++ [p']) todo
      | Err e =>
          let ps := done ++ p' :: todo in
          let* rolled := xa_rollback_all (take prepared_count ps) in
          eret (Some (participant_id p', e), rolled ++ drop prepared_count ps)
      end
  end.

Fixpoint xa_commit_loop (done todo : list (XaParticipant W)) :
    Eff W (option (string * XaError) * list (XaParticipant W)) :=
  match todo with
  | [] => eret (None, done)
  | p :: todo =>
      let* (r, p') := xa_participant_commit p in
      match r with
      | Ok _ => xa_commit_loop (done ++ [p']) todo
      | Err e => eret (Some (participant_id p', e), done ++ p' :: todo)
      end
  end.

Definition prepare_failure (f : string * XaError) : XaError :=
  XaPrepareFailed ("参与者 " +:+ f.1 +:+ " prepare 失败: " +:+ display_XaError f.2).
Definition commit_failure (f : string * XaError) : XaError :=
  XaCommitFailed ("参与者 " +:+ f.1 +:+ " commit 失败: " +:+ display_XaError f.2).

Definition xa_two_phase_commit (store : TransactionLogStore W) (tx_id : string) (ps : list (XaParticipant W)) :
    Eff W (result TransactionState XaError * list (XaParticipant W)) :=
  if is_nil ps then eret (Ok Committed, ps)
  else match first_unsupported ps with
  | Some e => eret (Err e, ps)
  | None =>
      let* _ := xa_write_log store tx_id "Preparing" ps in
      let* (failed, ps) := xa_prepare_loop 0 [] ps in
      match failed with
      | Some f =>
          let* _ := xa_write_log store tx_id "Failed" ps in
          eret (Err (prepare_failure f), ps)
      | None =>
          let* _ := xa_write_log store tx_id "Prepared" ps in
          let* _ := xa_write_log store tx_id "Committing" ps in
          let* (failed, ps) := xa_commit_loop [] ps in
          match failed with
          | Some f =>
              let* _ := xa_write_log store tx_id "Failed" ps in
              eret (Err (commit_failure f), ps)
          | None =>
              let* _ := xa_write_log store tx_id "Committed" ps in
              eret (Ok Committed, ps)
          end
      end
  end.

Definition xa_global_rollback (store : TransactionLogStore W) (tx_id : string) (ps : list (XaParticipant W)) :
    Eff W (result TransactionState XaError * list (XaParticipant W)) :=
  let* _ := xa_write_log store tx_id "RollingBack" ps in
  let* ps := xa_rollback_all ps in
  let* _ := xa_write_log store tx_id "RolledBack" ps in
  eret (Ok RolledBack, ps).

(** * Recovery *)

Inductive RecoveryStrategy : Type := CommitPrepared | RollbackPreparing | CompleteCommitting.

Record RecoveryResult : Type := mkRecoveryResult {
  rr_tx_id : string;
  strategy : RecoveryStrategy;
  success : bool;
  error : option string;
}.

Definition determine_strategy (state : string) : option RecoveryStrategy :=
  if String.eqb state "Prepared" then Some CommitPrepared
  else if String.eqb state "Preparing" then Some RollbackPreparing
  else if String.eqb state "Committing" then Some CompleteCommitting
  else None.

Definition recover_message (s : RecoveryStrategy) (tx_id : string) (participants : list string) : string :=
  let n := pretty (Z.of_nat (length participants)) in
  match s with
  | CommitPrepared => "事务 " +:+ tx_id +:+ " 已 Prepared，需重连 " +:+ n +:+ " 个参与者执行 Commit"
  | RollbackPreparing => "事务 " +:+ tx_id +:+ " 在 Preparing 阶段崩溃，需重连 " +:+ n +:+ " 个参与者执行 Rollback"
  | CompleteCommitting => "事务 " +:+ tx_id +:+ " 在 Committing 阶段崩溃，需检查 " +:+ n +:+ " 个参与者并幂等补全 Commit"
  end.

Definition recover_entry (e : TransactionLogEntry) : RecoveryResult :=
  match determine_strategy (le_state e) with
  | None => mkRecoveryResult (le_tx_id e) CompleteCommitting true (Some ("状态 " +:+ le_state e +:+ " 无需恢复"))
  | Some s => mkRecoveryResult (le_tx_id e) s true (Some (recover_message s (le_tx_id e) (le_participants e)))
  end.

Definition recover (store : TransactionLogStore W) : Eff W (list RecoveryResult) :=
  let* r := read_pending store in
  match r with
  | Ok entries => eret (recover_entry <$> entries)
  | Err e => eret [mkRecoveryResult "<read_pending_failed>" RollbackPreparing false (Some ("读取未决事务失败: " +:+ e))]
  end.

(** * Suspended transactions *)

Inductive SuspensionPolicy : Type := PolicyCommit | PolicyRollback.

(** Durations in nanoseconds. *)
Record SuspensionConfig : Type := mkSuspensionConfig { timeout : Z; policy : SuspensionPolicy; check_interval : Z }.

Definition suspension_default : SuspensionConfig := mkSuspensionConfig (30 * 10 ^ 9) PolicyRollback (5 * 10 ^ 9).

Context {DateTime : Type} (from_timestamp_millis : Z -> option DateTime) (utc_now : DateTime).

Record SuspendedTransaction : Type := mkSuspended {
  st_tx_id : string;
  st_resource_id : string;
  suspended_at : DateTime;
  st_policy : SuspensionPolicy;
}.

Definition entry_time (e : TransactionLogEntry) : Z := default 0%Z (parse_int false 0 (2 ^ 64 - 1) (le_timestamp e)).

Definition too_old (config : SuspensionConfig) (now : Z) (e : TransactionLogEntry) : bool :=
  String.eqb (le_state e) "Prepared" && (wrap64 (timeout config / 10 ^ 6) <? Z.max 0 (now - entry_time e))%Z.

Definition millis_i64 (z : Z) : Z := (if z <? 2 ^ 63 then z else z - 2 ^ 64)%Z.

Definition suspended_of (config : SuspensionConfig) (now : Z) (e : TransactionLogEntry) : list SuspendedTransaction :=
  if too_old config now e then
    (fun r => mkSuspended (le_tx_id e) r (default utc_now (from_timestamp_millis (millis_i64 (entry_time e)))) (policy config))
      <$> le_participants e
  else [].

Definition detect_suspended (store : TransactionLogStore W) (config : SuspensionConfig) : Eff W (list SuspendedTransaction) :=
  let* r := read_pending store in
  match r with
  | Err _ => eret []
  | Ok pending =>
      let* ms := system_millis in
      eret (concat (suspended_of config (wrap64 (Z.max 0 ms)) <$> pending))
  end.
End Coordinator.

(** * The verdict on finished transactions *)

Record TwoPcTimeoutConfig : Type := mkTwoPcTimeouts { prepare_timeout : Z; commit_timeout : Z; abort_timeout : Z }.

Definition two_pc_timeout_default : TwoPcTimeoutConfig := mkTwoPcTimeouts (5 * 10 ^ 9) (3 * 10 ^ 9) (3 * 10 ^ 9).

Record TwoPcAtomicityResult : Type := mkAtomicity {
  ar_transaction_id : string;
  all_prepared : bool;
  ar_all_committed : bool;
  all_rolled_back : bool;
  is_atomic : bool;
  commit_latency_ms : Z;
  timed_out : bool;
  failure_detail : option string;
}.

Section Verdict.
Context (prepare_results commit_results rollback_results : list (result unit string)).

Definition oks (rs : list (result unit string)) : string := pretty (Z.of_nat (length (filter (fun r => is_ok r = true) rs))).
Definition total (rs : list (result unit string)) : string := pretty (Z.of_nat (length rs)).

Definition verdict : bool * option string :=
  if forallb is_ok prepare_results then
    if forallb is_ok commit_results then (true, None)
    else (false, Some ("Prepare 全部成功但 Commit 部分失败（" +:+ oks commit_results +:+ "/" +:+ total commit_results +:+ " 成功）"))
  else if forallb is_ok rollback_results then
    (true, Some ("Prepare 部分失败，已全部回滚（" +:+ oks prepare_results +:+ "/" +:+ total prepare_results +:+ " Prepare 成功）"))
  else
    (false, Some ("Prepare 失败且 Rollback 也失败（Prepare " +:+ oks prepare_results +:+ "/" +:+ total prepare_results
                  +:+ "，Rollback " +:+ oks rollback_results +:+ "/" +:+ total rollback_results +:+ "）")).

(** [latency] is the time the call itself takes. *)
Definition verify_atomicity (transaction_id : string) (latency : Z) : TwoPcAtomicityResult :=
  mkAtomicity transaction_id (forallb is_ok prepare_results) (forallb is_ok commit_results)
    (forallb is_ok rollback_results) verdict.1 latency false verdict.2.

Lemma verdict_spec tx latency :
  is_atomic (verify_atomicity tx latency) = true <->
  (forall r, r ∈ prepare_results -> is_ok r = true) /\ (forall r, r ∈ commit_results -> is_ok r = true) \/
  (exists r, r ∈ prepare_results /\ is_ok r = false) /\ (forall r, r ∈ rollback_results -> is_ok r = true).
Proof.
  assert (Hall : forall rs : list (result unit string), forallb is_ok rs = true <-> forall r, r ∈ rs -> is_ok r = true).
  { intros rs. rewrite forallb_forall. by setoid_rewrite list_elem_of_In. }
  assert (Hsome : forallb is_ok prepare_results = false <-> exists r, r ∈ prepare_results /\ is_ok r = false).
  { induction prepare_results as [| r rs IH]; cbn; [split; [done | by intros (r & Hr%not_elem_of_nil & _)] |].
    setoid_rewrite elem_of_cons. rewrite andb_false_iff, IH. naive_solver. }
  cbn. unfold verdict. rewrite <- !Hall, <- Hsome.
  destruct (forallb is_ok prepare_results), (forallb is_ok commit_results), (forallb is_ok rollback_results); naive_solver.
Qed.
End Verdict.

(** Only the results that are there are looked at: two branches of which one was never asked to commit
    are an atomic transaction. *)
Lemma missing_commit_is_atomic :
  let r := verify_atomicity [Ok tt; Ok tt] [Ok tt] [] "t" 0 in is_atomic r = true /\ ar_all_committed r = true.
Proof. done. Qed.

Definition check_timeout (config : TwoPcTimeoutConfig) (elapsed : Z) (phase : string) : option Z :=
  let timeout :=
    if String.eqb phase "prepare" then prepare_timeout config
    else if String.eqb phase "commit" then commit_timeout config
    else if String.eqb phase "abort" then abort_timeout config
    else (5 * 10 ^ 9)%Z in
  if (timeout <? elapsed)%Z then Some (elapsed - timeout)%Z else None.

(** * Histories and crashes *)

Inductive XaOp : Type := OpPrepare | OpCommit | OpRollback.

Inductive XaEvent : Type :=
| EvLog (e : TransactionLogEntry)
| EvAsk (op : XaOp) (resource xid : string) (answer : result unit XaError).

Abbreviation History := (list XaEvent).

Definition logs (h : History) : list TransactionLogEntry := omap (fun ev => match ev with EvLog e => Some e | _ => None end) h.

(** A clock that reads [now], a store that keeps what it is given, a resource that gives any answers. *)
Definition history_clock (now : History -> Z) : Clock History := {|
  system_millis := fun h => (now h, h);
  instant_now := fun h => (now h, h);
  sleep_ns := fun _ => eret tt;
|}.

Definition history_store (now : History -> Z) : TransactionLogStore History :=
  let app e : Eff History (result unit string) := fun h => (Ok tt, h ++ [EvLog e]) in {|
  append := app;
  read id := fun h => (Ok (mem_read id (logs h)), h);
  read_pending := fun h => (Ok (mem_read_pending (logs h)), h);
  finalize := @default_finalize _ (history_clock now) app;
|}.

Definition Answers : Type := History -> XaOp -> string -> string -> result unit XaError.

Definition ask (answer : Answers) (op : XaOp) (rid xid : string) : Eff History (result unit XaError) :=
  fun h => (answer h op rid xid, h ++ [EvAsk op rid xid (answer h op rid xid)]).

Definition answering (answer : Answers) (rid : string) (b : AnyBackend) : XaResource History := {|
  xa_prepare := ask answer OpPrepare rid;
  xa_commit := ask answer OpCommit rid;
  xa_rollback := ask answer OpRollback rid;
  xa_resource_id := rid;
  backend := b;
|}.

(** A transaction with a branch on each resource, the branches named after it. *)
Definition branches (answer : Answers) (tx : string) (bs : list (string * AnyBackend)) : list (XaParticipant History) :=
  (fun b => xa_participant_new (answering answer b.1 b.2) tx) <$> bs.

Definition xa_run (now : History -> Z) (answer : Answers) (tx : string) (bs : list (string * AnyBackend)) (h : History) :
    (result TransactionState XaError * list (XaParticipant History)) * History :=
  @xa_two_phase_commit _ (history_clock now) (history_store now) tx (branches answer tx bs) h.

(** What the documentation has a recovery do: carry out, for every pending transaction, the decision
    its log entry calls for. *)
Definition decided_op (s : RecoveryStrategy) : XaOp :=
  match s with RollbackPreparing => OpRollback | CommitPrepared | CompleteCommitting => OpCommit end.

Definition carry_out (e : TransactionLogEntry) : History :=
  match determine_strategy (le_state e) with
  | Some s => (fun rid => EvAsk (decided_op s) rid (le_tx_id e) (Ok tt)) <$> le_participants e
  | None => []
  end.

Definition carried_out (h : History) : History := concat (carry_out <$> mem_read_pending (logs h)).

Definition asked (tx : string) (op : XaOp) (rid : string) (r : result unit XaError) (h : History) : Prop :=
  EvAsk op rid tx r ∈ h.

Definition all_committed (tx : string) (rids : list string) (h : History) : Prop :=
  forall rid, rid ∈ rids -> asked tx OpCommit rid (Ok tt) h /\ forall r, ~ asked tx OpRollback rid r h.

Definition all_undone (tx : string) (rids : list string) (h : History) : Prop :=
  forall rid, rid ∈ rids -> (forall r, ~ asked tx OpCommit rid r h) /\
    (asked tx OpPrepare rid (Ok tt) h -> asked tx OpRollback rid (Ok tt) h).

(** A history that has not heard of a transaction. *)
Definition fresh (tx : string) (h : History) : Prop :=
  mem_latest (logs h) !! tx = None /\ forall op rid r, ~ asked tx op rid r h.

(** ** What holds at every crash point *)

(** [m], run from [h], keeps [C] at every point it passes and ends with [Q]. *)
Definition crash_safe {A} (C : History -> Prop) (m : Eff History A) (Q : A -> History -> Prop) (h : History) : Prop :=
  h `prefix_of` (m h).2 /\ (forall h', h `prefix_of` h' -> h' `prefix_of` (m h).2 -> C h') /\ Q (m h).1 (m h).2.

Lemma prefix_between {A} (l k : list A) : l `prefix_of` k -> k `prefix_of` l -> l = k.
Proof. intros H1 H2. by apply (anti_symm prefix). Qed.

Lemma safe_ret {A} C (a : A) Q h : C h -> Q a h -> crash_safe C (eret a) Q h.
Proof. intros HC HQ. split_and!; cbn; [done | | done]. intros h' H1 H2. by rewrite <- (prefix_between h h'). Qed.

Lemma safe_bind {A B} C (m : Eff History A) (k : A -> Eff History B) Q h :
  crash_safe C m (fun a => crash_safe C (k a) Q) h -> crash_safe C (ebind m k) Q h.
Proof.
  unfold crash_safe, ebind. destruct (m h) as [a h1]. cbn. intros (H1 & HC1 & H2 & HC2 & HQ).
  split_and!; [by trans h1 | | done]. intros h' Ha Hb.
  destruct (prefix_weak_total h' h1 (k a h1).2 Hb H2); [by apply HC1 | by apply HC2].
Qed.

Lemma safe_event {A} C (a : A) ev Q h :
  C h -> C (h ++ [ev]) -> Q a (h ++ [ev]) -> crash_safe C (fun h => (a, h ++ [ev])) Q h.
Proof.
  intros H1 H2 HQ. split_and!; cbn; [by apply prefix_app_r | | done]. intros h' [k ->] [k' Hk].
  rewrite <- app_assoc in Hk. apply app_inv_head in Hk. destruct k as [| x k]; [by rewrite app_nil_r |].
  injection Hk as -> Hk. symmetry in Hk. apply app_nil in Hk as [-> _]. done.
Qed.

Lemma safe_conseq {A} C (m : Eff History A) (Q Q' : A -> History -> Prop) h :
  crash_safe C m Q h -> (forall a h', Q a h' -> Q' a h') -> crash_safe C m Q' h.
Proof. intros (H1 & H2 & H3) HQ. split_and!; auto. Qed.

Section Crash.
Context (now : History -> Z) (answer : Answers) (tx : string) (rids : list string).
#[local] Existing Instance history_clock.
Implicit Types (h : History) (rs : list string).

(** The latest entry of the transaction. *)
Definition logged (h : History) (s : string) : Prop :=
  exists e, mem_latest (logs h) !! tx = Some e /\ le_state e = s /\ le_participants e = rids.

Definition never (op : XaOp) (h : History) : Prop := forall rid r, ~ asked tx op rid r h.
Definition agreed (op : XaOp) (rs : list string) (h : History) : Prop := forall rid, rid ∈ rs -> asked tx op rid (Ok tt) h.
(** Every branch that is prepared was asked to roll back. *)
Definition cleaned (h : History) : Prop :=
  forall rid, asked tx OpPrepare rid (Ok tt) h -> exists r, asked tx OpRollback rid r h.

Inductive crash_point (h : History) : Prop :=
| at_start : fresh tx h -> crash_point h
| at_preparing : logged h "Preparing" -> never OpCommit h -> crash_point h
| at_decided s : s = "Prepared" \/ s = "Committing" -> logged h s -> agreed OpPrepare rids h -> never OpRollback h -> crash_point h
| at_committed : logged h "Committed" -> agreed OpCommit rids h -> never OpRollback h -> crash_point h
| at_undone : logged h "Failed" -> never OpCommit h -> cleaned h -> crash_point h
| at_broken rid e : logged h "Failed" -> asked tx OpCommit rid (Err e) h -> crash_point h.

Lemma logs_app h k : logs (h ++ k) = logs h ++ logs k.
Proof. apply omap_app. Qed.

Lemma asked_log op rid r h e : asked tx op rid r (h ++ [EvLog e]) <-> asked tx op rid r h.
Proof. unfold asked. rewrite elem_of_app, list_elem_of_singleton. naive_solver. Qed.

Lemma asked_ask op rid r h op' rid' r' :
  asked tx op rid r (h ++ [EvAsk op' rid' tx r']) <-> asked tx op rid r h \/ op = op' /\ rid = rid' /\ r = r'.
Proof. unfold asked. rewrite elem_of_app, list_elem_of_singleton. naive_solver. Qed.

Lemma latest_log h e : mem_latest (logs (h ++ [EvLog e])) = <[le_tx_id e := e]> (mem_latest (logs h)).
Proof. rewrite logs_app. apply mem_latest_append. Qed.

Lemma logged_ask h s op rid r : logged (h ++ [EvAsk op rid tx r]) s <-> logged h s.
Proof. unfold logged. by rewrite logs_app, app_nil_r. Qed.

Lemma logged_log h e : le_tx_id e = tx -> le_participants e = rids -> logged (h ++ [EvLog e]) (le_state e).
Proof. intros He Hp. exists e. rewrite latest_log, <- He, lookup_insert_eq. done. Qed.

(** Participants of the transaction, on the resources [rs]. *)
Definition branch_of (rid : string) (p : XaParticipant History) : Prop := (exists b, resource p = answering answer rid b) /\ xid p = tx.
Definition branches_of (rs : list string) (ps : list (XaParticipant History)) : Prop := Forall2 branch_of rs ps.

Lemma branches_ids rs ps : branches_of rs ps -> participant_id <$> ps = rs.
Proof. induction 1 as [| rid p rs ps [[b Hb] _] _ IH]; [done |]. cbn. unfold participant_id at 1. by rewrite IH, Hb. Qed.

Lemma branch_set_state rid p s : branch_of rid p -> branch_of rid (xa_set_state s p).
Proof. done. Qed.

(** Each event is a point before and a point after. *)
Lemma safe_ask (C : History -> Prop) op rid p s h (Q : result unit XaError * XaParticipant History -> History -> Prop) :
  C h -> (forall r, C (h ++ [EvAsk op rid tx r]) /\ Q (r, xa_set_state (s r) p) (h ++ [EvAsk op rid tx r])) ->
  crash_safe C (let* r := ask answer op rid tx in eret (r, xa_set_state (s r) p))%eff Q h.
Proof.
  intros Hh Hr. destruct (Hr (answer h op rid tx)) as [Hc Hq]. apply safe_bind.
  apply (safe_event C (answer h op rid tx) (EvAsk op rid tx (answer h op rid tx))); [done | done |].
  by apply safe_ret.
Qed.

Definition write (s : string) (ps : list (XaParticipant History)) : Eff History unit :=
  @xa_write_log _ (history_clock now) (history_store now) tx s ps.

Lemma safe_write s ps h (Q : unit -> History -> Prop) :
  branches_of rids ps -> crash_point h ->
  (forall h', logged h' s -> (forall op rid r, asked tx op rid r h' <-> asked tx op rid r h) -> crash_point h' /\ Q tt h') ->
  crash_safe crash_point (write s ps) Q h.
Proof.
  intros Hps Hh HQ. unfold write, xa_write_log. cbv delta [ebind system_millis history_clock] beta iota.
  set (e := mkLogEntry tx s (participant_id <$> ps) (millis_string (now h)) (to_lowercase s)).
  destruct (HQ (h ++ [EvLog e])) as [HC HQ'].
  - apply (logged_log h e); [done |]. by apply branches_ids.
  - intros op rid r. apply asked_log.
  - by apply (safe_event crash_point tt (EvLog e)).
Qed.

Lemma never_ask op h op' rid r : op <> op' -> never op h -> never op (h ++ [EvAsk op' rid tx r]).
Proof. intros Hne Hn rid' r'. rewrite asked_ask. intros [Ha | (Ho & _)]; [by apply Hn in Ha | done]. Qed.

Lemma agreed_ask op rs h op' rid r : agreed op rs h -> agreed op rs (h ++ [EvAsk op' rid tx r]).
Proof. intros Ha rid' Hin. apply asked_ask. left. by apply Ha. Qed.

Lemma agreed_snoc op rs h rid : agreed op rs h -> agreed op (rs ++ [rid]) (h ++ [EvAsk op rid tx (Ok tt)]).
Proof.
  intros Ha rid' [Hin | ->%list_elem_of_singleton]%elem_of_app; apply asked_ask; [left; by apply Ha | by right].
Qed.

Lemma xa_rollback_all_safe rs ps h : branches_of rs ps -> logged h "Preparing" -> never OpCommit h ->
  crash_safe crash_point (xa_rollback_all ps) (fun ps' h' => branches_of rs ps' /\ logged h' "Preparing" /\ never OpCommit h' /\
    (forall rid r, asked tx OpPrepare rid r h' <-> asked tx OpPrepare rid r h) /\
    (forall rid r, asked tx OpRollback rid r h -> asked tx OpRollback rid r h') /\
    (forall rid, rid ∈ rs -> exists r, asked tx OpRollback rid r h')) h.
Proof.
  intros Hps. revert h. induction Hps as [| rid p rs ps Hp Hps IH]; intros h Hl Hn.
  - apply safe_ret; [by apply at_preparing |]. split_and!; try done. by constructor. intros rid Hin. by apply not_elem_of_nil in Hin.
  - cbn [xa_rollback_all]. apply safe_bind. unfold xa_participant_rollback. destruct Hp as [[b Hb] Hx]. rewrite Hb, Hx.
    apply (safe_ask crash_point OpRollback rid p (fun r => if is_ok r then PRolledBack else PFailed)); [by apply at_preparing |].
    intros r. assert (Hl' : logged (h ++ [EvAsk OpRollback rid tx r]) "Preparing") by by apply logged_ask.
    assert (Hn' : never OpCommit (h ++ [EvAsk OpRollback rid tx r])) by by apply never_ask. split; [by apply at_preparing |].
    apply safe_bind. eapply safe_conseq; [by apply IH |]. cbn beta. intros ps' h' (Hb' & Hl2 & Hn2 & Hp2 & Hm & Hr).
    apply safe_ret; [by apply at_preparing |]. split_and!; try done.
    + constructor; [| done]. split; [by exists b | done].
    + intros rid' r'. rewrite Hp2, asked_ask. naive_solver.
    + intros rid' r' Ha. apply Hm, asked_ask. by left.
    + intros rid' [-> | Hin]%elem_of_cons; [| by apply Hr]. exists r. apply Hm, asked_ask. by right.
Qed.

Lemma xa_prepare_loop_safe rs1 rs2 before todo h :
  rids = rs1 ++ rs2 -> branches_of rs1 before -> branches_of rs2 todo -> logged h "Preparing" -> never OpCommit h ->
  never OpRollback h -> agreed OpPrepare rs1 h -> (forall rid, asked tx OpPrepare rid (Ok tt) h -> rid ∈ rs1) ->
  crash_safe crash_point (xa_prepare_loop (length before) before todo) (fun '(failed, ps) h' =>
    branches_of rids ps /\ logged h' "Preparing" /\ never OpCommit h' /\
    match failed with None => agreed OpPrepare rids h' /\ never OpRollback h' | Some _ => cleaned h' end) h.
Proof.
  intros Hrs Hd Ht. revert rs1 before h Hrs Hd. induction Ht as [| rid p rs2 todo Hp Ht IH]; intros rs1 before h Hrs Hd Hl Hn Hr Ha Hback.
  - rewrite app_nil_r in Hrs. subst rs1. apply safe_ret; [by apply at_preparing |]. done.
  - cbn [xa_prepare_loop]. apply safe_bind. unfold xa_participant_prepare. destruct Hp as [[b Hb] Hx]. rewrite Hb, Hx.
    apply (safe_ask crash_point OpPrepare rid p (fun r => if is_ok r then PPrepared else PFailed)); [by apply at_preparing |].
    intros r. set (h1 := h ++ [EvAsk OpPrepare rid tx r]). assert (Hl' : logged h1 "Preparing") by by apply logged_ask.
    assert (Hn' : never OpCommit h1) by by apply never_ask. assert (Hr' : never OpRollback h1) by by apply never_ask.
    assert (Hp' : branch_of rid (xa_set_state (if is_ok r then PPrepared else PFailed) p)) by (split; [by exists b | done]).
    split; [by apply at_preparing |]. cbn beta iota. destruct r as [[] | e].
    + replace (S (length before)) with (length (before ++ [xa_set_state PPrepared p])) by (rewrite length_app; cbn; lia).
      apply (IH (rs1 ++ [rid])); [by rewrite <- app_assoc | apply Forall2_app; [done | by constructor; [exact Hp' | constructor]] | done | done | done | by apply agreed_snoc |].
      intros rid' [Hin | (_ & -> & _)]%asked_ask; apply elem_of_app; [left; by apply Hback | right; by apply list_elem_of_singleton].
    + apply safe_bind. rewrite take_app_length, drop_app_length. eapply safe_conseq; [by apply (xa_rollback_all_safe rs1) |].
      cbn beta. intros ps' h' (Hb' & Hl2 & Hn2 & Hp2 & _ & Hrb). apply safe_ret; [by apply at_preparing |]. split_and!; try done.
      * rewrite Hrs. apply Forall2_app; [done |]. by constructor.
      * intros rid' Hok. apply Hrb, Hback. apply Hp2, asked_ask in Hok as [Hok | (_ & _ & Heq)]; [done | discriminate Heq].
Qed.

Lemma xa_commit_loop_safe rs1 rs2 before todo h :
  rids = rs1 ++ rs2 -> branches_of rs1 before -> branches_of rs2 todo -> logged h "Committing" -> agreed OpPrepare rids h ->
  never OpRollback h -> agreed OpCommit rs1 h ->
  crash_safe crash_point (xa_commit_loop before todo) (fun '(failed, ps) h' =>
    branches_of rids ps /\ logged h' "Committing" /\ agreed OpPrepare rids h' /\ never OpRollback h' /\
    match failed with None => agreed OpCommit rids h' | Some _ => exists rid e, asked tx OpCommit rid (Err e) h' end) h.
Proof.
  intros Hrs Hd Ht. revert rs1 before h Hrs Hd. induction Ht as [| rid p rs2 todo Hp Ht IH]; intros rs1 before h Hrs Hd Hl Ha Hr Hc;
    assert (Hpoint : forall h, logged h "Committing" -> agreed OpPrepare rids h -> never OpRollback h -> crash_point h)
      by (intros; apply (at_decided _ "Committing"); [by right | done | done | done]).
  - rewrite app_nil_r in Hrs. subst rs1. apply safe_ret; [by apply Hpoint |]. done.
  - cbn [xa_commit_loop]. apply safe_bind. unfold xa_participant_commit. destruct Hp as [[b Hb] Hx]. rewrite Hb, Hx.
    apply (safe_ask crash_point OpCommit rid p (fun r => if is_ok r then PCommitted else PFailed)); [by apply Hpoint |].
    intros r. set (h1 := h ++ [EvAsk OpCommit rid tx r]). assert (Hl' : logged h1 "Committing") by by apply logged_ask.
    assert (Ha' : agreed OpPrepare rids h1) by by apply agreed_ask. assert (Hr' : never OpRollback h1) by by apply never_ask.
    assert (Hp' : branch_of rid (xa_set_state (if is_ok r then PCommitted else PFailed) p)) by (split; [by exists b | done]).
    split; [by apply Hpoint |]. cbn beta iota. destruct r as [[] | e].
    + apply (IH (rs1 ++ [rid])); [by rewrite <- app_assoc | apply Forall2_app; [done | by constructor; [exact Hp' | constructor]] | done | done | done | by apply agreed_snoc].
    + apply safe_ret; [by apply Hpoint |]. split_and!; try done.
      * rewrite Hrs. apply Forall2_app; [done |]. by constructor.
      * exists rid, e. apply asked_ask. by right.
Qed.

Lemma xa_run_safe bs h : rids = bs.*1 -> fresh tx h ->
  crash_safe crash_point (xa_run now answer tx bs) (fun a h' => is_ok a.1 = true -> agreed OpCommit rids h' /\ never OpRollback h') h.
Proof.
  intros Hrids Hf. assert (Hb : branches_of rids (branches answer tx bs)).
  { rewrite Hrids. clear. induction bs as [| [rid b] bs IH]; [constructor |]. constructor; [| done]. split; [by exists b | done]. }
  unfold xa_run, xa_two_phase_commit. assert (Hs : crash_point h) by by apply at_start. destruct (is_nil _) eqn:Hnil.
  { apply safe_ret; [done |]. intros _. split; [| intros rid r; apply Hf]. destruct bs; [| done]. intros rid Hin. rewrite Hrids in Hin. by apply not_elem_of_nil in Hin. }
  destruct (first_unsupported _); [by apply safe_ret |].
  apply safe_bind, safe_write; [done | done |]. intros h1 Hl1 Hq1.
  assert (Hnone : forall op, never op h1) by (intros op rid r; rewrite Hq1; apply Hf). split; [by apply at_preparing |].
  apply safe_bind. eapply safe_conseq; [apply (xa_prepare_loop_safe [] rids []); [done | constructor | done | done | done | done | |]; intros rid Hx; [by apply not_elem_of_nil in Hx | by apply Hnone in Hx] |].
  intros [[f |] ps] h2; intros (Hb2 & Hl2 & Hn2 & Hx2); cbn beta iota.
  - apply safe_bind, safe_write; [done | by apply at_preparing |]. intros h3 Hl3 Hq3.
    assert (Hp3 : crash_point h3).
    { apply at_undone; [done | intros rid r; rewrite Hq3; apply Hn2 |]. intros rid Hok. apply Hq3, Hx2 in Hok as [r Hr]. exists r. by apply Hq3. }
    split; [done |]. by apply safe_ret.
  - destruct Hx2 as [Ha2 Hr2]. apply safe_bind, safe_write; [done | by apply at_preparing |]. intros h3 Hl3 Hq3.
    assert (Ha3 : agreed OpPrepare rids h3) by (intros rid Hin; by apply Hq3, Ha2).
    assert (Hr3 : never OpRollback h3) by (intros rid r; rewrite Hq3; apply Hr2).
    assert (Hp3 : crash_point h3) by (apply (at_decided _ "Prepared"); [by left | done | done | done]). split; [done |].
    apply safe_bind, safe_write; [done | done |]. intros h4 Hl4 Hq4.
    assert (Ha4 : agreed OpPrepare rids h4) by (intros rid Hin; by apply Hq4, Ha3).
    assert (Hr4 : never OpRollback h4) by (intros rid r; rewrite Hq4; apply Hr3).
    split; [apply (at_decided _ "Committing"); [by right | done | done | done] |].
    apply safe_bind. eapply safe_conseq; [apply (xa_commit_loop_safe [] rids []); [done | constructor | done | done | done | done |]; intros rid Hx; by apply not_elem_of_nil in Hx |].
    intros [failed ps'] h5 (Hb5 & Hl5 & Ha5 & Hr5 & Hc5). cbn beta iota.
    assert (Hp5 : crash_point h5) by (apply (at_decided _ "Committing"); [by right | done | done | done]).
    destruct failed as [f |]; apply safe_bind, safe_write; try done; intros h6 Hl6 Hq6.
    + assert (Hp6 : crash_point h6).
      { destruct Hc5 as (rid & e & Hc5). apply (at_broken _ rid e); [done |]. by apply Hq6. }
      split; [done |]. by apply safe_ret.
    + assert (Hr6 : never OpRollback h6) by (intros rid r; rewrite Hq6; apply Hr5).
      assert (Hc6 : agreed OpCommit rids h6) by (intros rid Hin; by apply Hq6, Hc5).
      assert (Hp6 : crash_point h6) by by apply at_committed. split; [done |]. by apply safe_ret.
Qed.

(** ** What is left to do at each point *)

Lemma elem_of_carried ev h : ev ∈ carried_out h <-> exists e, e ∈ mem_read_pending (logs h) /\ ev ∈ carry_out e.
Proof.
  unfold carried_out. rewrite list_elem_of_In, in_concat. split.
  - intros (k & (e & -> & He)%list_elem_of_In%list_elem_of_fmap & Hin%list_elem_of_In). by exists e.
  - intros (e & He & Hin). exists (carry_out e). split; apply list_elem_of_In; [| done]. apply list_elem_of_fmap. by exists e.
Qed.

Lemma carried_out_spec h op rid r : asked tx op rid r (carried_out h) <->
  exists e s, mem_latest (logs h) !! tx = Some e /\ le_state e ∉ TERMINAL /\ determine_strategy (le_state e) = Some s /\
    op = decided_op s /\ rid ∈ le_participants e /\ r = Ok tt.
Proof.
  unfold asked. rewrite elem_of_carried. split.
  - intros (e & He & Hin). apply elem_of_pending in He as [He Ht]. unfold carry_out in Hin.
    destruct (determine_strategy (le_state e)) as [s |] eqn:Es; [| by apply not_elem_of_nil in Hin].
    apply list_elem_of_fmap in Hin as (rid' & [= -> -> Htx ->] & Hin). exists e, s. rewrite Htx. done.
  - intros (e & s & He & Ht & Hs & -> & Hin & ->). exists e. assert (le_tx_id e = tx) as Htx by (by eapply mem_latest_key).
    split; [apply elem_of_pending; by rewrite Htx |]. unfold carry_out. rewrite Hs, Htx. apply list_elem_of_fmap. by exists rid.
Qed.

Lemma nothing_carried_out h op rid r :
  (forall e s, mem_latest (logs h) !! tx = Some e -> le_state e ∉ TERMINAL -> determine_strategy (le_state e) = Some s -> False) ->
  ~ asked tx op rid r (carried_out h).
Proof. intros Hn (e & s & He & Ht & Hs & _)%carried_out_spec. by eapply Hn. Qed.

Lemma asked_app op rid r h k : asked tx op rid r (h ++ k) <-> asked tx op rid r h \/ asked tx op rid r k.
Proof. apply elem_of_app. Qed.

(** When every commit that is asked succeeds, and every rollback, the decision the log calls for
    makes the outcome the same on all branches. *)
Lemma crash_point_resolved h : crash_point h ->
  (forall rid r, asked tx OpCommit rid r h -> r = Ok tt) -> (forall rid r, asked tx OpRollback rid r h -> r = Ok tt) ->
  all_committed tx rids (h ++ carried_out h) \/ all_undone tx rids (h ++ carried_out h).
Proof.
  intros Hp Hc Hr.
  assert (Hend : forall s, logged h s -> s ∈ TERMINAL -> forall op rid r, ~ asked tx op rid r (carried_out h)).
  { intros s (e & He & <- & _) Ht op rid r. apply nothing_carried_out. intros e' s' He' Hn _. rewrite He in He'. by injection He' as <-. }
  assert (Hgo : forall s d, logged h s -> s ∉ TERMINAL -> determine_strategy s = Some d ->
    forall op rid r, asked tx op rid r (carried_out h) <-> op = decided_op d /\ rid ∈ rids /\ r = Ok tt).
  { intros s d (e & He & Hs & Hps) Ht Hd op rid r. subst s. rewrite carried_out_spec. split; [| by intros (-> & Hin & ->); exists e, d; rewrite Hps].
    intros (e' & d' & He' & _ & Hd' & -> & Hin & ->). rewrite He in He'. injection He' as <-. rewrite Hd in Hd'. injection Hd' as <-. by rewrite <- Hps. }
  destruct Hp as [[Hl Hq] | Hl Hn | s Hs Hl Ha Hn | Hl Ha Hn | Hl Hn Hcl | rid e Hl Ha].
  - right. intros rid Hin. split; [| intros [Ha | (e & s & He & _)%carried_out_spec]%asked_app; [by apply Hq in Ha | by rewrite Hl in He]].
    intros r [Ha | (e & s & He & _)%carried_out_spec]%asked_app; [by apply Hq in Ha | by rewrite Hl in He].
  - pose proof (Hgo _ RollbackPreparing Hl ltac:(by apply (bool_decide_unpack _)) eq_refl) as Hg. right. intros rid Hin. split.
    + intros r [Ha | [Ho _]%Hg]%asked_app; [by apply Hn in Ha | done].
    + intros _. apply asked_app. right. by apply Hg.
  - assert (exists d, determine_strategy s = Some d /\ decided_op d = OpCommit /\ s ∉ TERMINAL) as (d & Hd & Ho & Ht).
    { destruct Hs as [-> | ->]; eexists; (split_and!; [reflexivity | reflexivity | by apply (bool_decide_unpack _)]). }
    pose proof (Hgo _ d Hl Ht Hd) as Hg. rewrite Ho in Hg. left. intros rid Hin. split.
    + apply asked_app. right. by apply Hg.
    + intros r [Hx | [Hx _]%Hg]%asked_app; [by apply Hn in Hx | done].
  - left. intros rid Hin. split; [apply asked_app; left; by apply Ha |].
    intros r [Hx | Hx]%asked_app; [by apply Hn in Hx |]. by eapply (Hend _ Hl); [apply (bool_decide_unpack _); exact I | exact Hx].
  - assert (He : forall op rid r, ~ asked tx op rid r (carried_out h)) by (apply (Hend _ Hl); apply (bool_decide_unpack _); exact I).
    right. intros rid Hin. split; [intros r [Hx | Hx]%asked_app; [by apply Hn in Hx | by apply He in Hx] |].
    intros [Hx | Hx]%asked_app; [| by apply He in Hx]. destruct (Hcl rid Hx) as [r Hrb]. pose proof (Hr rid r Hrb) as ->. apply asked_app. by left.
  - discriminate (Hc rid _ Ha).
Qed.
End Crash.

(** C1. A crash never splits an XA transaction.  Let the coordinator run a transaction its log has not
    heard of, on any resources with any answers, and crash after any event of the run.  If no commit
    or rollback that was asked has failed until then, the decision that the log entry of the
    transaction calls for, carried out on the resources the entry names, leaves every branch
    committed and none rolled back, or no branch committed and every prepared one rolled back.
    And when the run ends with success, all branches are committed. *)
Theorem xa_crash_atomic now answer tx bs h0 h :
  fresh tx h0 -> h0 `prefix_of` h -> h `prefix_of` (xa_run now answer tx bs h0).2 ->
  (forall op rid r, op = OpCommit \/ op = OpRollback -> asked tx op rid r h -> r = Ok tt) ->
  (all_committed tx bs.*1 (h ++ carried_out h) \/ all_undone tx bs.*1 (h ++ carried_out h)) /\
  (is_ok (xa_run now answer tx bs h0).1.1 = true -> all_committed tx bs.*1 (xa_run now answer tx bs h0).2).
Proof.
  intros Hf H1 H2 Hr. destruct (xa_run_safe now answer tx bs.*1 bs h0 eq_refl Hf) as (_ & Hpoints & Hok). split.
  - apply crash_point_resolved; [by apply Hpoints | intros rid r; apply Hr; by left | intros rid r; apply Hr; by right].
  - intros [Hc Hn]%Hok rid Hin. split; [by apply Hc | apply Hn].
Qed.

Definition two_banks : list (string * AnyBackend) := [("a", MySql); ("b", Postgres)].
Definition agreeing : Answers := fun _ _ _ _ => Ok tt.
(** A crash after the first of the two commits. *)
Definition half_committed : History := take 6 (xa_run (fun _ => 0%Z) agreeing "t" two_banks []).2.

Lemma xa_crash_atomic_witness :
  asked "t" OpCommit "a" (Ok tt) half_committed /\ (forall r, ~ asked "t" OpCommit "b" r half_committed) /\
  all_committed "t" ["a"; "b"] (half_committed ++ carried_out half_committed).
Proof.
  assert (Hh : half_committed = take 6 (xa_run (fun _ => 0%Z) agreeing "t" two_banks []).2) by reflexivity.
  assert (Hev : exists l1 l2 l3, half_committed = [EvLog l1; EvAsk OpPrepare "a" "t" (Ok tt); EvAsk OpPrepare "b" "t" (Ok tt);
    EvLog l2; EvLog l3; EvAsk OpCommit "a" "t" (Ok tt)]) by (vm_compute; repeat eexists).
  destruct (xa_crash_atomic (fun _ => 0%Z) agreeing "t" two_banks [] half_committed) as [[H | H] _].
  - split; [done |]. intros op rid r Hx. by apply not_elem_of_nil in Hx.
  - apply prefix_nil.
  - rewrite Hh. eexists. symmetry. apply take_drop.
  - destruct Hev as (l1 & l2 & l3 & ->). unfold asked. intros op rid r [-> | ->] Hx;
      repeat (apply elem_of_cons in Hx as [Hx | Hx]; [congruence |]); by apply not_elem_of_nil in Hx.
  - destruct Hev as (l1 & l2 & l3 & Hev). split_and!; [rewrite Hev; unfold asked; set_solver | | exact H].
    intros r. rewrite Hev. unfold asked. intros Hx. repeat (apply elem_of_cons in Hx as [Hx | Hx]; [congruence |]). by apply not_elem_of_nil in Hx.
  - destruct (H "a") as [Hn _]; [by left |]. destruct (Hn (Ok tt)). apply elem_of_app. left. destruct Hev as (l1 & l2 & l3 & ->). set_solver.
Defined.

(** * The outcome of a run that does not crash *)

Lemma xa_commit_loop_ok {W} (todo : list (XaParticipant W)) : forall done w ps w',
  xa_commit_loop done todo w = ((None, ps), w') -> Forall (fun p => xa_state p = PCommitted) done ->
  Forall (fun p => xa_state p = PCommitted) ps.
Proof.
  induction todo as [| p todo IH]; intros before w ps w' Hrun Hd; [by injection Hrun as <- _ |].
  cbn [xa_commit_loop] in Hrun. unfold xa_participant_commit, ebind, eret in Hrun. destruct (xa_commit _ _ w) as [[[] | e] w1]; [| done].
  apply IH in Hrun; [done |]. apply Forall_app. split; [done |]. by repeat constructor.
Qed.

Lemma xa_ok_committed {W} `{Clock W} store tx (ps : list (XaParticipant W)) w s ps' w' :
  xa_two_phase_commit store tx ps w = ((Ok s, ps'), w') -> s = Committed /\ Forall (fun p => xa_state p = PCommitted) ps'.
Proof.
  unfold xa_two_phase_commit. destruct ps as [| p ps]; [intros [= <- <- _]; split; [done | constructor] |]. cbn [is_nil].
  destruct (first_unsupported _); [done |]. unfold ebind, eret. destruct (xa_write_log _ _ "Preparing" _ w) as [_ w1].
  destruct (xa_prepare_loop 0 [] (p :: ps) w1) as [[[f |] ps1] w2]; [by destruct (xa_write_log _ _ _ _ w2) |].
  destruct (xa_write_log _ _ "Prepared" _ w2) as [_ w3]. destruct (xa_write_log _ _ "Committing" _ w3) as [_ w4].
  destruct (xa_commit_loop [] ps1 w4) as [[[f |] ps2] w5] eqn:Hc; destruct (xa_write_log _ _ _ _ w5); [done |].
  intros [= <- <- _]. split; [done |]. by apply (xa_commit_loop_ok _ _ _ _ _ Hc).
Qed.

(** A resource that cannot take part stops the transaction before anything is written or asked. *)
Lemma unsupported_untouched {W} `{Clock W} store tx (ps : list (XaParticipant W)) p w :
  p ∈ ps -> backend (resource p) = Sqlite -> exists e, xa_two_phase_commit store tx ps w = ((Err e, ps), w).
Proof.
  intros Hin Hb. unfold xa_two_phase_commit. assert (exists e, first_unsupported ps = Some e) as [e ->].
  { induction Hin as [p ps | p q ps _ IH]; cbn; [rewrite Hb; by eexists |]. destruct (capability_check _); [by apply IH | by eexists]. }
  exists e. by destruct Hin.
Qed.

(** * Where transactions are left open *)

(** [recover] reads the log and reports what should be done: it asks no resource and writes nothing, and
    reports success for every transaction. *)
Lemma recover_only_reads now h :
  @recover _ (history_store now) h = (recover_entry <$> mem_read_pending (logs h), h) /\
  Forall (fun r => success r = true) (@recover _ (history_store now) h).1.
Proof.
  split; [done |]. cbn. apply Forall_fmap, Forall_forall. intros e _. unfold compose, recover_entry. by destruct (determine_strategy _).
Qed.

(** A commit that fails ends the run with the other branches prepared.  The log says [Failed], which
    counts as a final state: no recovery looks at the transaction again. *)
Definition refusing_a : Answers := fun _ op rid _ =>
  match op with OpCommit => if String.eqb rid "a" then Err (XaDatabaseError "gone") else Ok tt | _ => Ok tt end.

Lemma failed_commit_in_doubt :
  let h := (xa_run (fun _ => 0%Z) refusing_a "t" two_banks []).2 in
  (@recover _ (history_store (fun _ => 0%Z)) h).1 = [] /\
  omap (fun ev => match ev with EvAsk op rid _ r => if String.eqb rid "b" then Some (op, r) else None | EvLog _ => None end) h
  = [(OpPrepare, Ok tt)].
Proof. split; vm_compute; reflexivity. Qed.

(** A crash in the middle of a global rollback leaves an entry no strategy is for: recovery reports that
    there is nothing to recover. *)
Lemma rollback_crash_forgotten :
  let now := fun _ => 0%Z in
  let h := take 1 (@xa_global_rollback _ (history_clock now) (history_store now) "t" (branches agreeing "t" two_banks) []).2 in
  carried_out h = [] /\
  (@recover _ (history_store now) h).1 = [mkRecoveryResult "t" CompleteCommitting true (Some "状态 RollingBack 无需恢复")].
Proof. split; vm_compute; reflexivity. Qed.

(** Errors of the log are ignored: with a log that takes nothing, the branches are prepared and committed
    all the same, and a crash between the commits leaves nothing to recover from. *)
Definition full_disk (now : History -> Z) : TransactionLogStore History := {|
  append _ := eret (Err "disk full");
  read id := fun h => (Ok (mem_read id (logs h)), h);
  read_pending := fun h => (Ok (mem_read_pending (logs h)), h);
  finalize _ _ := eret (Err "disk full");
|}.

Lemma commits_without_log :
  let now := fun _ => 0%Z in
  (@xa_two_phase_commit _ (history_clock now) (full_disk now) "t" (branches agreeing "t" two_banks) []).2
  = [EvAsk OpPrepare "a" "t" (Ok tt); EvAsk OpPrepare "b" "t" (Ok tt); EvAsk OpCommit "a" "t" (Ok tt); EvAsk OpCommit "b" "t" (Ok tt)].
Proof. vm_compute. reflexivity. Qed.

(** ** Suspended transactions *)

Lemma detect_suspended_spec {DateTime} (from : Z -> option DateTime) utc now config h s :
  s ∈ (@detect_suspended _ (history_clock now) DateTime from utc (history_store now) config h).1 <->
  exists e, e ∈ mem_read_pending (logs h) /\ too_old config (wrap64 (Z.max 0 (now h))) e = true /\
    st_tx_id s = le_tx_id e /\ st_resource_id s ∈ le_participants e /\ st_policy s = policy config /\
    suspended_at s = default utc (from (millis_i64 (entry_time e))).
Proof.
  cbn. rewrite list_elem_of_In, in_concat. split.
  - intros (k & (e & -> & He)%list_elem_of_In%list_elem_of_fmap & Hin%list_elem_of_In). exists e. unfold suspended_of in Hin.
    destruct (too_old _ _ e) eqn:Ho; [| by apply not_elem_of_nil in Hin]. apply list_elem_of_fmap in Hin as (rid & -> & Hr). done.
  - intros (e & He & Ho & H1 & H2 & H3 & H4). exists (suspended_of from utc config (wrap64 (Z.max 0 (now h))) e).
    split; apply list_elem_of_In; [apply list_elem_of_fmap; by exists e |]. unfold suspended_of. rewrite Ho. apply list_elem_of_fmap.
    exists (st_resource_id s). split; [| done]. destruct s. cbn in *. by subst.
Qed.

(** Only [Prepared] entries are looked at, but the coordinator writes [Committing] before it asks for
    the first commit: a transaction that hangs in its commits is never reported, however old. *)
Lemma hung_commit_not_suspended config now e : le_state e = "Committing" -> too_old config now e = false.
Proof. intros He. unfold too_old. by rewrite He. Qed.
